(* ===== verification/_CoqProject ===== *)
-Q . S2P
Prelude.v
GoStd.v
Netip.v
Socksaddr.v
AddrText.v
Rule.v
RuleSpec.v
MuxFrame.v
MuxFrameSpec.v
MuxPipe.v
MuxServer.v
MuxServerSpec.v
MuxClient.v
MuxClientSpec.v
Meter.v
MeterSpec.v
DnsFakeIP.v
DnsFakeIPSpec.v
Dns.v
DnsSpec.v
Router.v
Stack.v
StackSpec.v
Sniff.v
SniffSpec.v
KcpSegment.v
KcpSegmentSpec.v
KcpConn.v
KcpConnSpec.v
KcpNet.v
KcpClose.v
KcpWf.v
KcpListener.v
Utf8.v
Succinct.v
SuccinctSpec.v
Ruleset.v
RulesetBin.v
RulesetSpec.v
Buf.v
Link.v
Proxy.v
Relay.v
Packet.v
Vless.v
VlessSpec.v
SocksWire.v
Trojan.v
Socks.v
SocksSpec.v
Admit.v
Inbound.v
UdpNat.v
SnellChunk.v
SnellProfile.v
SnellShape.v
SnellFrame.v
SnellFrameSpec.v
SnellV45.v
SnellV123.v
Snell.v
SnellSpec.v
Group.v
Reverse.v
Users.v
Register.v
Reload.v
Wiring.v
Settings.v
Routing.v
StreamLayer.v
Obfs.v
Juicity.v
ShadowQuic.v
Mtproto.v
Geo.v
Tunnels.v
TlsMirror.v
Mekya.v
Synth.v
