(* ===== verification/Prelude.v ===== *)
(** * Verification of ntr

    ntr is a proxy platform in Go. A connection enters through an inbound stack of
    transport layers and a proxy protocol, is admitted and metered, routed by an ordered
    rule table (with DNS and fake addresses behind it) and leaves through an outbound;
    many streams may share one link through the Mux.Cool multiplexer, and one transport,
    mKCP, is a reliable stream protocol over UDP. This library models those parts as
    executable definitions, translated function by function from the source, and proves
    what each part promises to the others.

    ** Files

    - [Prelude]: results ([res]) and their bind, machine-width wraps ([w8] .. [w64]), bytes
      as [Byte.byte] with [b2z]/[z2b], big-endian integers ([be_enc]/[be_dec]), the tactics
      [split_match(es)] and [to_prop], hint databases.
    - [GoStd], [Netip]: the functions of Go's [strings], [slices], [io] and [net/netip] the
      source uses (prefix and suffix tests, trimming, case mapping, address and prefix
      parsing, [Contains], [Masked], [Next], [Unmap]). Case mapping outside ASCII is the class
      [Unicode]; nothing proved depends on it beyond being a function.
    - [Socksaddr] (addr/socksaddr.go): destinations.
    - [Rule], [RuleSpec] (rule/engine.go): [Compile] and [RouteConnIPs] with one definition per
      index; the linear reference [route_spec] and the proof that the engine computes it.
    - [MuxFrame], [MuxFrameSpec], [MuxPipe] (muxcool/frame.go, pipe.go): the wire format and
      the bounded pipe between the link reader and a session.
    - [MuxServer], [MuxServerSpec] (muxcool/server.go): the server as a step relation
      [server_step] over the frame handlers, the landing goroutines (one constructor per
      point at which they can be interleaved) and shutdown.
    - [MuxClient], [MuxClientSpec] (muxcool/client.go, udp.go): the client likewise
      ([client_step]), and the end-to-end theorem with the server's handlers.
    - [Meter], [MeterSpec] (meter/meter.go, limits.go, memguard.go): the registry of
      credentials, its limits, counters, kills and evictions. [Open] is split at the points
      where its goroutine can be interrupted.
    - [DnsFakeIP], [DnsFakeIPSpec] (dns/fakeip.go): the fake-address pool.
    - [Dns], [DnsSpec] (dns/hosts.go, policy.go, cache.go, codec.go, resolver.go): the
      resolver. Messages are packed and parsed by a third-party package: the class [Codec];
      what upstreams answer is the record [network].
    - [Router] (service/router.go): a routing decision over [Rule], an abstract resolver and
      abstract outbounds; the instance over [Dns] is [dns_router].
    - [Stack], [StackSpec] (core/compile/compile.go, core/registry/registry.go,
      service/stack.go): ordering and building layer stacks; plug-ins are the class [Plugins].
    - [Sniff], [SniffSpec] (service/sniff.go): protocol recognition with out-of-range reads
      made explicit.
    - [KcpSegment], [KcpSegmentSpec] (transport/mkcp/internal/mkcpcore/segment.go, auth.go,
      header.go, packet.go): the mKCP wire format; the cipher is the class [AEAD].
    - [KcpConn] (mkcpcore/conn.go, config.go): a connection, one definition per method;
      [KcpConnSpec]: what each method may do to the sending and the receiving side;
      [KcpNet]: two peers over a network that loses, repeats, delays and reorders;
      [KcpClose]: the states only advance and closing ends; [KcpWf]: well-formedness.
    - [KcpListener] (mkcpcore/listener.go): the session table of a listener.
    - [Utf8], [Succinct], [SuccinctSpec] (ruleset/succinct.go, srs.go): compressed domain sets;
      the rank/select index, the matchers, and the trie they walk.
    - [Ruleset], [RulesetBin], [RulesetSpec] (ruleset/ruleset.go, mrs.go, srs.go): text lists,
      address ranges and the binary readers; decompression and regular expressions are the
      class [Codecs].
    - [AddrText] (addr/socksaddr.go): destinations as text.
    - [Buf] (buf/buffer.go): pooled buffers, a slice out of range being an outcome.
    - [Link] (core/link/link.go): handshakes as trees of reads and writes ([hs]), run against
      an input ([run], [ends]) or against each other in every schedule ([duet]).
    - [Proxy] (core/proxy, core/cred, service/auth.go): requests, credentials and their table.
    - [Relay], [Packet] (core/relay/relay.go): the relay machine, and copying datagrams
      against the class [PacketConn].
    - [Vless], [VlessSpec] (proto/vless), [Trojan] with [Sha224] and [SocksWire] (proto/trojan),
      [Socks], [SocksSpec] (proto/socks): headers, handshakes, datagrams.
    - [Admit] (service/admit.go): admission through gates, as a sequential definition and as
      interleaved steps; [Inbound] (service/inbound.go): an inbound connection from accept to
      relay, as programs over the calls they make; [UdpNat] (service/udpnat.go).
    - [SnellChunk]: the chunk interface ([Framing] with its laws); [SnellProfile], [SnellShape],
      [SnellFrame], [SnellFrameSpec] (proto/snell/internal/snellv6): the framing of version 6;
      [SnellV45], [SnellV123]: the older ones; [Snell], [SnellSpec]: commands, connections,
      the replay guard and the plug-in, proved against the interface. BLAKE2b, Argon2id and
      the ciphers are the class [Crypto].
    - [Group] (outbound/group), [Reverse] (reverse): choosing a member, the tunnel pool and
      the dispatch of a portal.
    - [Users] (config/users.go, config/desugar.go, core/principal): users to bindings;
      [Register]: bindings to credential tables, user lists and shared limits; [Reload]
      (also cmd/ntr/main.go): names and addresses of inbounds, their hashes and the manager
      that applies a new configuration; [Wiring]: groups and dialers, and dialling through
      them; [Settings]: addresses in the configuration; [Routing]: the rules of the
      configuration (all config/config.go).
    - [StreamLayer]: what the layers that reframe a stream share: a carrier that cuts what it
      carries, whole reads, writes cut into chunks, and the class [Delivers] of readers that
      give back what was written.
    - [Obfs] (transport/obfs): a stream dressed up as HTTP or TLS. [Tunnels], a module each:
      [Naive] (outbound/naive/padding.go): padded frames; [Connectip]
      (outbound/connectip/capsule.go, datagram.go): capsules of an IP tunnel; [Gost]
      (proto/gost/gost.go): the relay protocol; [TrustTunnel] (outbound/trusttunnel/udp.go,
      internal/ipresolve): datagrams on a stream.
    - [Juicity] (outbound/juicity): frames, authentication, the pool of connections, the
      inbound; [ShadowQuic] (outbound/shadowquic/proto.go, udp.go): associations and their
      datagrams, with both ends and the network between them as one system ([sys_step]).
    - [Mtproto] (proto/mtproto): the FakeTLS and obfuscated handshakes and streams; the
      primitives are a class [Crypto].
    - [Geo] (geo/geosite.go, geoipdat.go): the readers of the country and site files, over a
      class [Protowire], and the sets they build.
    - [TlsMirror] (transport/tlsmirror): a tunnel hidden among the records of a TLS session;
      [Mekya] (transport/mekya): packets in HTTP bodies.
    - [Synth] (config/config.go, core/spec/spec.go): from configuration blocks to layers.

    ** What the theorems show

    - Routing: the compiled engine equals the first-match reference, accepts exactly the
      well-formed tables, looks a process up at most once, and may skip DNS when no rule
      needs it; the router dials the effective destination, never a fake address.
    - Mux.Cool: frames and chunked data round-trip; pipes are FIFO and bounded; session
      tables of both ends are well formed in every interleaving; shutdown releases
      everything; a stream opened by the client arrives at the server intact.
    - Metering: limits hold in every interleaving, no byte is lost, disabling a credential
      is final until it is enabled, eviction takes the longest idle.
    - DNS: queries do not leak to other upstreams, real look-ups never return fake
      addresses, policies are first match, fake addresses round-trip and are reused
      first in, first out.
    - Stacks: [Order] accepts exactly the layer sets that fit, independently of the order in
      which they are written.
    - Sniffing: no out-of-range read on any input, and server names are recognised.
    - mKCP: packets round-trip; delivery is a prefix of what was written whatever the
      network does; graceful close loses nothing; closing terminates; connections stay
      well formed on arbitrary datagrams and do not disturb each other.
    - Rule sets: the compressed matcher decides membership in the stored names; no file that
      is accepted can crash it; reading ends on every input; text lists and range sets
      match what they list.
    - Protocols: a VLESS, Trojan or SOCKS5 connection between this client and this server
      reaches the right user, destination and payload in every schedule; decoders agree;
      only registered credentials authenticate; datagrams round-trip. A Snell connection of
      any version delivers exactly what is written on it.
    - Service: the gates of admission are exact and rolled back; handling a connection leaks
      nothing and bypasses nothing whatever its parts answer; the UDP NAT is bounded and
      ends clean; a relay ends with both ends closed.
    - Configuration: an inbound authenticates exactly the users it should, under their own
      identity, and the limits of a user hold for all his connections; what a reload
      restarts and what it does not; dialling ends; an accepted routing table always routes.
      [Group]: a pick is a member that is alive whenever one is; [Reverse]: a portal leaks no
      stream.
    - Disguises and sessions: an obfuscated stream, an MTProto session, a padded or tunnelled
      one delivers exactly what was written however it is cut; the pool of Juicity
      connections closes each when its last stream is gone; a ShadowQUIC packet reaches its
      own association under its own address, unless an identifier is announced again.
      A tunnel hidden in TLS leaves the session's bytes as they are, and so does the mirror of
      somebody without the key; a packet of mekya reaches its own session, at most once; an
      accepted configuration has the layers its blocks name.

    Where the code falls short of what it means to do, the theorem states what it does
    (for example [reload_overshoots_shared_limit], [control_new_leaks_session],
    [WriteTo_after_end]).

    ** Bounds and fuel

    Integers are [Z] in the range of their Go type, with wraps written where the source can
    overflow. Loops that are not structural take fuel: [suffixMin], [trim_left] and the
    codec loops use the length of their input, of which every round consumes at least one
    element ([parseAddrs_fuel], [minTTL_fuel], [extensions_fuel]); [allocID_loop] uses the size
    of the identifier space ([allocID_loop_total]). [Compile] needs fewer than 2^32 rules,
    since ordinals are 32-bit. [deliver_loop] is bounded by the reassembly cache, the scan of a
    succinct set by its bitmap, the .srs reader by twice the length of the file, [Search] by
    halving, [readCString] by its limit of 255 bytes, [copyPacket] by the datagrams that
    arrive. In Snell, [split_loop], [split_each] and [keystream] take one more than the length
    they consume, [grow] the 1461 sizes below the limit, [client_fill] two turns; the loops
    that wait for a command take the number of chunks that may arrive before the deadline,
    and the theorems ask for as many as the command has bytes. The loops that read records,
    capsules, fields or bundles ([worker_loop], [capture_loop], [message], [unbundle]) take one
    more than the bytes that are left, of which every round consumes some; [alloc_loop] of
    ShadowQUIC the 2^16 identifiers.

    ** Not modelled

    Network and file I/O, deadlines, TLS and other cryptography (classes with laws where a
    theorem needs them), the splicing of XTLS Vision, sing-mux and the other wire protocols
    of third-party libraries, the HTTP of [net/http] and what is built on it (the HTTP proxy,
    WebSocket, gRPC, XHTTP, MASQUE), YAML decoding, the wiring of listeners in [Build], the
    float rate limiter and the metrics endpoint, TUN devices and sockets, and the stand-alone
    server of the vendored Snell engine, which the program does not call.
    Goroutines are modelled at the granularity of their critical sections. *)
From Stdlib Require Export ZArith Lia Bool.
From Stdlib Require Import Init.Byte Strings.Byte.
From stdpp Require Export base list gmap strings sorting fin_maps.

#[global] Open Scope Z_scope.

(** ** Scopes, hint databases and tactics *)

Declare Scope ntr_scope.
Delimit Scope ntr_scope with ntr.

Create HintDb ntr.
Create Rewrite HintDb len.

(** Split the innermost [match]/[if] of a hypothesis or of the goal, keeping the
    equation, and clear the contradictory branches. *)
Ltac split_match :=
  match goal with
  | H : context [match ?x with _ => _ end] |- _ =>
      lazymatch x with
      | context [match _ with _ => _ end] => fail
      | _ => destruct x eqn:?; simplify_eq/=
      end
  | |- context [match ?x with _ => _ end] =>
      lazymatch x with
      | context [match _ with _ => _ end] => fail
      | _ => destruct x eqn:?; simplify_eq/=
      end
  end.
Ltac split_matches := repeat split_match.

(** Boolean hypotheses over [Z] and [nat] turned into propositions. *)
Ltac to_prop :=
  repeat match goal with
  | H : (_ =? _)%Z = true |- _ => apply Z.eqb_eq in H
  | H : (_ =? _)%Z = false |- _ => apply Z.eqb_neq in H
  | H : (_ <? _)%Z = true |- _ => apply Z.ltb_lt in H
  | H : (_ <? _)%Z = false |- _ => apply Z.ltb_ge in H
  | H : (_ <=? _)%Z = true |- _ => apply Z.leb_le in H
  | H : (_ <=? _)%Z = false |- _ => apply Z.leb_gt in H
  | H : (_ && _) = true |- _ => apply andb_true_iff in H as [? ?]
  | H : (_ || _) = false |- _ => apply orb_false_iff in H as [? ?]
  | H : negb _ = true |- _ => apply negb_true_iff in H
  | H : negb _ = false |- _ => apply negb_false_iff in H
  | H : bool_decide _ = true |- _ => apply bool_decide_eq_true in H
  | H : bool_decide _ = false |- _ => apply bool_decide_eq_false in H
  end.

(** ** Fallible computations

    A Go function returning [(A, error)] is a [res E A]; the error type [E] of a
    component is an inductive with one constructor per error the source returns. *)

Inductive res (E A : Type) : Type :=
| Ok (a : A)
| Err (e : E).
Arguments Ok {E A} a.
Arguments Err {E A} e.

#[export] Instance res_ret E : MRet (res E) := fun _ a => Ok a.
#[export] Instance res_bind E : MBind (res E) :=
  fun _ _ f m => match m with Ok a => f a | Err e => Err e end.
#[export] Instance res_eq_dec {E A} `{EqDecision E, EqDecision A} : EqDecision (res E A).
Proof. solve_decision. Defined.

Definition is_ok {E A} (r : res E A) : bool :=
  match r with Ok _ => true | Err _ => false end.

Lemma bind_ok {E A B} (f : A -> res E B) a : (Ok a ≫= f) = f a.
Proof. reflexivity. Qed.

Lemma bind_ok_inv {E A B} (f : A -> res E B) (m : res E A) b :
  (m ≫= f) = Ok b -> exists a, m = Ok a /\ f a = Ok b.
Proof. destruct m; simpl; [eauto | discriminate]. Qed.

(** ** Machine integers

    An unsigned [w]-bit Go integer is a [Z] in [0, 2^w); arithmetic that can
    overflow is written through these wraps. *)

Definition w8 (z : Z) : Z := z mod 2 ^ 8.
Definition w16 (z : Z) : Z := z mod 2 ^ 16.
Definition w32 (z : Z) : Z := z mod 2 ^ 32.
Definition w64 (z : Z) : Z := z mod 2 ^ 64.

Definition in_u16 (z : Z) : Prop := 0 <= z < 2 ^ 16.
Definition in_u32 (z : Z) : Prop := 0 <= z < 2 ^ 32.
Definition in_u64 (z : Z) : Prop := 0 <= z < 2 ^ 64.

Lemma w16_small z : in_u16 z -> w16 z = z.
Proof. apply Z.mod_small. Qed.
Lemma w32_small z : in_u32 z -> w32 z = z.
Proof. apply Z.mod_small. Qed.
Lemma w64_small z : in_u64 z -> w64 z = z.
Proof. apply Z.mod_small. Qed.
Lemma w16_range z : in_u16 (w16 z).
Proof. apply Z.mod_pos_bound; lia. Qed.
Lemma w32_range z : in_u32 (w32 z).
Proof. apply Z.mod_pos_bound; lia. Qed.
Lemma w64_range z : in_u64 (w64 z).
Proof. apply Z.mod_pos_bound; lia. Qed.
#[export] Hint Resolve w16_range w32_range w64_range : ntr.

(** ** Bytes

    A Go [string] and a Go [[]byte] are both a [list byte]: Go strings are byte
    sequences and the sources convert freely between the two. *)

Abbreviation byte := Init.Byte.byte.
Abbreviation bytes := (list byte).

#[export] Instance byte_eq_dec : EqDecision byte := Byte.byte_eq_dec.
#[export] Instance byte_countable : Countable byte.
Proof. apply (inj_countable Byte.to_N Byte.of_N). exact Byte.of_to_N. Defined.

Definition b2z (b : byte) : Z := Z.of_N (Byte.to_N b).

(** The conversion [byte(x)] of a Go integer. *)
Definition z2b (z : Z) : byte :=
  match Byte.of_N (Z.to_N (w8 z)) with Some b => b | None => x00 end.

Definition bs (s : String.string) : bytes := String.list_byte_of_string s.

Definition len {A} (l : list A) : Z := Z.of_nat (length l).

Lemma b2z_range b : 0 <= b2z b < 256.
Proof.
  unfold b2z. pose proof (Byte.to_N_bounded b) as Hb. lia.
Qed.

Lemma b2z_z2b z : b2z (z2b z) = w8 z.
Proof.
  unfold b2z, z2b. assert (0 <= w8 z < 256) as Hr by (apply Z.mod_pos_bound; lia).
  destruct (Byte.of_N (Z.to_N (w8 z))) as [b|] eqn:Hb.
  - apply Byte.to_of_N_iff in Hb. rewrite Hb. lia.
  - apply Byte.of_N_None_iff in Hb. lia.
Qed.

Lemma z2b_b2z b : z2b (b2z b) = b.
Proof.
  unfold z2b, w8. rewrite Z.mod_small by apply b2z_range.
  unfold b2z. rewrite N2Z.id, Byte.of_to_N. done.
Qed.

Lemma b2z_z2b_small z : 0 <= z < 256 -> b2z (z2b z) = z.
Proof. intros. rewrite b2z_z2b. apply Z.mod_small; lia. Qed.

Lemma b2z_inj b1 b2 : b2z b1 = b2z b2 -> b1 = b2.
Proof. intros H. by rewrite <-(z2b_b2z b1), <-(z2b_b2z b2), H. Qed.

Lemma z2b_w16 z : z2b (w16 z) = z2b z.
Proof.
  apply b2z_inj. rewrite !b2z_z2b. unfold w8, w16.
  apply Z.mod_mod_divide. by exists (2^8).
Qed.

(** ** Big-endian integers, as [encoding/binary.BigEndian] reads and writes them *)

Fixpoint be_enc (n : nat) (z : Z) : bytes :=
  match n with
  | O => []
  | S n' => be_enc n' (z / 256) ++ [z2b z]
  end.

Definition be_dec (l : bytes) : Z := fold_left (fun a b => a * 256 + b2z b) l 0.

Lemma length_be_enc n z : length (be_enc n z) = n.
Proof. revert z; induction n; intros; simpl; [done|]. rewrite length_app, IHn. simpl. lia. Qed.

Lemma be_dec_snoc l b : be_dec (l ++ [b]) = be_dec l * 256 + b2z b.
Proof. unfold be_dec. by rewrite fold_left_app. Qed.

Lemma be_dec_enc n z : be_dec (be_enc n z) = z mod 256 ^ Z.of_nat n.
Proof.
  revert z; induction n; intros z; cbn [be_enc].
  { by rewrite Z.mod_1_r. }
  rewrite be_dec_snoc, IHn, b2z_z2b. unfold w8.
  rewrite Nat2Z.inj_succ, Z.pow_succ_r by lia. change (2 ^ 8) with 256.
  rewrite Z.rem_mul_r by (try lia; apply Z.pow_nonzero; lia). lia.
Qed.

Lemma be_enc_dec l : be_enc (length l) (be_dec l) = l.
Proof.
  induction l as [|b l IH] using rev_ind; [done|].
  rewrite length_app, Nat.add_comm. simpl. rewrite be_dec_snoc.
  pose proof (b2z_range b).
  rewrite Z.div_add_l, (Z.div_small (b2z b)), Z.add_0_r, IH by lia. f_equal.
  f_equal. rewrite <-(z2b_b2z b) at 2. apply b2z_inj. rewrite !b2z_z2b.
  unfold w8. rewrite Z.add_comm. change (2 ^ 8) with 256. by rewrite Z.mod_add by lia.
Qed.

Lemma be_dec_range l : 0 <= be_dec l < 256 ^ len l.
Proof.
  unfold len. rewrite <-(be_enc_dec l), be_dec_enc, length_be_enc.
  apply Z.mod_pos_bound. apply Z.pow_pos_nonneg; lia.
Qed.

Lemma be_dec_enc_small n z : 0 <= z < 256 ^ Z.of_nat n -> be_dec (be_enc n z) = z.
Proof. intros. rewrite be_dec_enc. by apply Z.mod_small. Qed.

Lemma len_nonneg {A} (l : list A) : 0 <= len l.
Proof. unfold len. lia. Qed.
Lemma len_app {A} (l k : list A) : len (l ++ k) = len l + len k.
Proof. unfold len. rewrite length_app. lia. Qed.
Lemma len_be_enc n z : len (be_enc n z) = Z.of_nat n.
Proof. unfold len. by rewrite length_be_enc. Qed.
#[export] Hint Rewrite @len_app len_be_enc : len.

(** ** Sums over finite maps *)

Definition msum {A} (f : A -> Z) (m : gmap nat A) : Z := map_fold (fun _ x acc => f x + acc) 0 m.

Lemma msum_insert {A} (f : A -> Z) m t x : m !! t = None -> msum f (<[t := x]> m) = f x + msum f m.
Proof. intros H. unfold msum. rewrite map_fold_insert_L; [done| |done]. intros. lia. Qed.

Lemma msum_delete {A} (f : A -> Z) m t x : m !! t = Some x -> msum f m = f x + msum f (delete t m).
Proof. intros H. unfold msum. rewrite (map_fold_delete_L _ _ t x); [done| |done]. intros. lia. Qed.

Lemma msum_replace {A} (f : A -> Z) m t x y :
  m !! t = Some x -> msum f (<[t := y]> m) = msum f m - f x + f y.
Proof.
  intros H. rewrite <-insert_delete_eq, msum_insert by apply lookup_delete_eq.
  rewrite (msum_delete f m t x H). lia.
Qed.

Lemma msum_same {A} (f : A -> Z) m t x y : m !! t = Some x -> f y = f x -> msum f (<[t := y]> m) = msum f m.
Proof. intros H Hf. rewrite (msum_replace f m t x y H). lia. Qed.

Lemma msum_nonneg {A} (f : A -> Z) m : (forall x, 0 <= f x) -> 0 <= msum f m.
Proof.
  intros Hf. unfold msum. apply (map_fold_weak_ind (fun r _ => 0 <= r)); [lia|]. intros _ x _ r _ Hr.
  specialize (Hf x). lia.
Qed.

(** A whole turn from anywhere passes every index. *)
Lemma turn_covers n start j : 0 < n -> 0 <= j < n -> exists k, 0 <= k < n /\ (start + k) mod n = j.
Proof.
  intros Hn Hj. exists ((j - start) mod n). split; [apply Z.mod_pos_bound; lia|].
  rewrite Z.add_mod_idemp_r by lia. replace (start + (j - start)) with j by lia. apply Z.mod_small. lia.
Qed.
