(* ===== verification/GoStd.v ===== *)
(** * The parts of Go's standard library the modelled sources use

    [strings], [slices], [io] readers and writers over in-memory streams. The
    functions are the documented behaviour of the library, written out so that
    they evaluate. *)
From S2P Require Import Prelude.
From Stdlib Require Import Init.Byte.

(** ** Package [strings] (and [bytes]) *)

Definition HasPrefix (s p : bytes) : bool := bool_decide (take (length p) s = p).

Definition HasSuffix (s p : bytes) : bool :=
  (length p <=? length s)%nat && bool_decide (drop (length s - length p) s = p).

Definition TrimPrefix (s p : bytes) : bytes :=
  if HasPrefix s p then drop (length p) s else s.

Definition TrimSuffix (s p : bytes) : bytes :=
  if HasSuffix s p then take (length s - length p) s else s.

(** [IndexByte] returns -1 when the byte is absent; here [None]. *)
Fixpoint IndexByte (s : bytes) (c : byte) : option nat :=
  match s with
  | [] => None
  | b :: s' => if bool_decide (b = c) then Some O else S <$> IndexByte s' c
  end.

Fixpoint LastIndexByte (s : bytes) (c : byte) : option nat :=
  match s with
  | [] => None
  | b :: s' =>
      match LastIndexByte s' c with
      | Some i => Some (S i)
      | None => if bool_decide (b = c) then Some O else None
      end
  end.

Fixpoint Contains (s sub : bytes) : bool :=
  HasPrefix s sub || match s with [] => false | _ :: s' => Contains s' sub end.

Definition lower_byte (b : byte) : byte :=
  if (65 <=? b2z b) && (b2z b <=? 90) then z2b (b2z b + 32) else b.

Definition upper_byte (b : byte) : byte :=
  if (97 <=? b2z b) && (b2z b <=? 122) then z2b (b2z b - 32) else b.

Definition is_ascii (s : bytes) : bool := forallb (fun b => b2z b <? 128) s.

(** [strings.ToLower] lowers an all-ASCII string byte by byte and goes through
    the Unicode case tables otherwise. The tables are not part of the program:
    they are the parameter of this class. *)
Class Unicode := {
  unicode_lower : bytes -> bytes;
  unicode_upper : bytes -> bytes;
}.

(** Tables that map no rune, so that closed terms evaluate. *)
Definition ascii_only : Unicode := {| unicode_lower := id; unicode_upper := id |}.

Definition ToLower `{Unicode} (s : bytes) : bytes :=
  if is_ascii s then map lower_byte s else unicode_lower s.

Definition ToUpper `{Unicode} (s : bytes) : bytes :=
  if is_ascii s then map upper_byte s else unicode_upper s.

(** [slices.Contains]. *)
Definition slices_Contains {A} `{EqDecision A} (l : list A) (x : A) : bool :=
  bool_decide (x ∈ l).

(** The UTF-8 encodings of the code points [unicode.IsSpace] accepts. *)
Definition space_seqs : list bytes :=
  [[x09]; [x0a]; [x0b]; [x0c]; [x0d]; [x20]; [xc2; x85]; [xc2; xa0]; [xe1; x9a; x80];
   [xe2; x80; x80]; [xe2; x80; x81]; [xe2; x80; x82]; [xe2; x80; x83]; [xe2; x80; x84];
   [xe2; x80; x85]; [xe2; x80; x86]; [xe2; x80; x87]; [xe2; x80; x88]; [xe2; x80; x89];
   [xe2; x80; x8a]; [xe2; x80; xa8]; [xe2; x80; xa9]; [xe2; x80; xaf]; [xe2; x81; x9f];
   [xe3; x80; x80]].

(** [strings.TrimSpace]; every turn removes at least a byte, so the length is enough
    fuel. *)
Fixpoint trim_left (fuel : nat) (s : bytes) : bytes :=
  match fuel, find (HasPrefix s) space_seqs with
  | S fuel', Some sp => trim_left fuel' (drop (length sp) s)
  | _, _ => s
  end.
Fixpoint trim_right (fuel : nat) (s : bytes) : bytes :=
  match fuel, find (HasSuffix s) space_seqs with
  | S fuel', Some sp => trim_right fuel' (take (length s - length sp) s)
  | _, _ => s
  end.
Definition TrimSpace (s : bytes) : bytes := let s := trim_left (length s) s in trim_right (length s) s.

(** *** Lemmas on prefixes, suffixes and substrings *)

Lemma HasPrefix_spec s p : HasPrefix s p = true <-> exists t, s = p ++ t.
Proof.
  unfold HasPrefix. rewrite bool_decide_eq_true. split.
  - intros H. exists (drop (length p) s). rewrite <-H at 1. by rewrite take_drop.
  - intros [t ->]. by rewrite take_app_length.
Qed.

Lemma HasSuffix_spec s p : HasSuffix s p = true <-> exists t, s = t ++ p.
Proof.
  unfold HasSuffix. rewrite andb_true_iff, Nat.leb_le, bool_decide_eq_true. split.
  - intros [_ H]. exists (take (length s - length p) s). rewrite <-H at 2.
    by rewrite take_drop.
  - intros [t ->]. rewrite length_app. split; [lia|].
    rewrite drop_app_ge by lia. by replace (length t + length p - length p - length t)%nat with O by lia.
Qed.

Lemma Contains_spec s sub : Contains s sub = true <-> exists a b, s = a ++ sub ++ b.
Proof.
  induction s as [|c s IH]; simpl.
  - rewrite orb_false_r, HasPrefix_spec. split.
    + intros [t Ht]. by exists [], t.
    + intros (a & b & H). destruct a; [by exists b|done].
  - rewrite orb_true_iff, HasPrefix_spec, IH. split.
    + intros [[t ->]|(a & b & ->)]; [by exists [], t|by exists (c :: a), b].
    + intros (a & b & H). destruct a as [|c' a]; [left; by exists b|].
      right. simplify_eq/=. by exists a, b.
Qed.

Lemma IndexByte_Some s c i :
  IndexByte s c = Some i <-> exists a b, s = a ++ c :: b /\ length a = i /\ c ∉ a.
Proof.
  revert i; induction s as [|x s IH]; intros i; simpl.
  { split; [done|]. intros (a & b & H & _). by destruct a. }
  case_bool_decide as Hx; subst.
  - split.
    + intros [= <-]. exists [], s. by split_and!; [| |apply not_elem_of_nil].
    + intros (a & b & H & <- & Hn). destruct a as [|y a]; [done|].
      simplify_eq/=. exfalso. apply Hn. left.
  - rewrite fmap_Some. split.
    + intros (j & Hj & ->). apply IH in Hj as (a & b & -> & <- & Hn).
      exists (x :: a), b. split_and!; [done..|]. rewrite not_elem_of_cons. naive_solver.
    + intros (a & b & H & <- & Hn). destruct a as [|y a]; simplify_eq/=.
      exists (length a). split; [|done]. apply IH. exists a, b.
      rewrite not_elem_of_cons in Hn. naive_solver.
Qed.

Lemma IndexByte_None s c : IndexByte s c = None <-> c ∉ s.
Proof.
  induction s as [|x s IH]; simpl; [split; [intros _; apply not_elem_of_nil|done]|].
  rewrite not_elem_of_cons. case_bool_decide as Hx; [naive_solver|].
  rewrite fmap_None, IH. naive_solver.
Qed.

Lemma lower_byte_idem b : lower_byte (lower_byte b) = lower_byte b.
Proof. by destruct b. Qed.

Lemma is_ascii_lower s : is_ascii s = true -> is_ascii (map lower_byte s) = true.
Proof.
  unfold is_ascii. rewrite !forallb_forall. intros H x Hx.
  apply in_map_iff in Hx as (b & <- & Hb). apply H in Hb. by destruct b.
Qed.

Lemma ToLower_idem_ascii `{Unicode} s :
  is_ascii s = true -> ToLower (ToLower s) = ToLower s.
Proof.
  intros Hs. unfold ToLower at 2 3. rewrite Hs. unfold ToLower.
  rewrite is_ascii_lower by done. rewrite map_map. apply map_ext. apply lower_byte_idem.
Qed.

(** ** Package [io]: readers over an in-memory stream *)

Inductive io_err := EOF | ErrUnexpectedEOF.
#[export] Instance io_err_eq_dec : EqDecision io_err.
Proof. solve_decision. Defined.

(** [io.ReadFull r buf] with [n = len(buf)]: all [n] bytes, or [EOF] when none
    could be read, or [ErrUnexpectedEOF] on a partial read. The result carries
    the rest of the stream. *)
Definition ReadFull (n : nat) (r : bytes) : res io_err (bytes * bytes) :=
  if (n <=? length r)%nat then Ok (take n r, drop n r)
  else match r with [] => Err EOF | _ => Err ErrUnexpectedEOF end.

Lemma ReadFull_app n a r : length a = n -> ReadFull n (a ++ r) = Ok (a, r).
Proof.
  intros <-. unfold ReadFull. rewrite length_app.
  destruct (Nat.leb_spec (length a) (length a + length r)); [|lia].
  by rewrite take_app_length, drop_app_length.
Qed.

Lemma ReadFull_Ok n r a r' : ReadFull n r = Ok (a, r') <-> r = a ++ r' /\ length a = n.
Proof.
  split; [|intros [-> H]; by apply ReadFull_app].
  unfold ReadFull. destruct (Nat.leb_spec n (length r)) as [Hle|]; [|by destruct r].
  intros [= <- <-]. by rewrite take_drop, length_take_le.
Qed.
