(* ===== verification/Netip.v ===== *)
(** * Package [net/netip]: IP addresses, prefixes and their textual forms

    The part of Go's [net/netip] that rules, rule sets, DNS and metering use. An
    address is the zero [Addr], an IPv4 address (its 32-bit value) or an IPv6
    address (its 128-bit value and its zone); an IPv4-mapped IPv6 address is an
    IPv6 address, as in Go. *)
From S2P Require Import Prelude GoStd.
From Stdlib Require Import Init.Byte.

Inductive Addr :=
| AddrZero
| Addr4 (v : Z)
| Addr6 (v : Z) (zone : bytes).

#[export] Instance Addr_eq_dec : EqDecision Addr.
Proof. solve_decision. Defined.

#[export] Instance Addr_countable : Countable Addr.
Proof.
  apply (inj_countable'
    (fun a => match a with
              | AddrZero => inl tt
              | Addr4 v => inr (inl v)
              | Addr6 v z => inr (inr (v, z))
              end : unit + (Z + (Z * bytes)))
    (fun x => match x with
              | inl _ => AddrZero
              | inr (inl v) => Addr4 v
              | inr (inr (v, z)) => Addr6 v z
              end)).
  by intros [].
Defined.

#[export] Instance Addr_inhabited : Inhabited Addr := populate AddrZero.

(** Values in the range of their width: every address a Go program can build. *)
Definition addr_wf (a : Addr) : Prop :=
  match a with
  | AddrZero => True
  | Addr4 v => 0 <= v < 2 ^ 32
  | Addr6 v _ => 0 <= v < 2 ^ 128
  end.

Definition IsValid (a : Addr) : bool := match a with AddrZero => false | _ => true end.
Definition Is4 (a : Addr) : bool := match a with Addr4 _ => true | _ => false end.
Definition Is6 (a : Addr) : bool := match a with Addr6 _ _ => true | _ => false end.
Definition BitLen (a : Addr) : Z :=
  match a with AddrZero => 0 | Addr4 _ => 32 | Addr6 _ _ => 128 end.
Definition addr_val (a : Addr) : Z :=
  match a with AddrZero => 0 | Addr4 v => v | Addr6 v _ => v end.
Definition hasZone (a : Addr) : bool :=
  match a with Addr6 _ (_ :: _) => true | _ => false end.

(** The value of [::ffff:0:0/96]. *)
Definition v4mapped : Z := 65535 * 2 ^ 32.

Definition Is4In6 (a : Addr) : bool :=
  match a with Addr6 v _ => Z.shiftr v 32 =? 65535 | _ => false end.

Definition Unmap (a : Addr) : Addr :=
  if Is4In6 a then Addr4 (addr_val a mod 2 ^ 32) else a.

(** The following address; the zero [Addr] past the last one. *)
Definition Next (a : Addr) : Addr :=
  match a with
  | AddrZero => AddrZero
  | Addr4 v => if v + 1 =? 2 ^ 32 then AddrZero else Addr4 (v + 1)
  | Addr6 v z => if v + 1 =? 2 ^ 128 then AddrZero else Addr6 (v + 1) z
  end.

(** Lexicographic comparison of byte strings ([bytes.Compare]). *)
Fixpoint bytes_compare (a b : bytes) : comparison :=
  match a, b with
  | [], [] => Eq
  | [], _ => Lt
  | _, [] => Gt
  | x :: a', y :: b' =>
      match b2z x ?= b2z y with Eq => bytes_compare a' b' | c => c end
  end.

Definition addr_zone (a : Addr) : bytes := match a with Addr6 _ z => z | _ => [] end.

Definition Compare (a b : Addr) : comparison :=
  match BitLen a ?= BitLen b with
  | Eq => match addr_val a ?= addr_val b with
          | Eq => bytes_compare (addr_zone a) (addr_zone b)
          | c => c
          end
  | c => c
  end.

Definition As16 (a : Addr) : bytes :=
  be_enc 16 (match a with AddrZero => 0 | Addr4 v => v4mapped + v | Addr6 v _ => v end).

Definition AddrFrom4 (b : bytes) : Addr := Addr4 (be_dec b).
Definition AddrFrom16 (b : bytes) : Addr := Addr6 (be_dec b) [].

Definition AddrFromSlice (b : bytes) : option Addr :=
  if (length b =? 4)%nat then Some (AddrFrom4 b)
  else if (length b =? 16)%nat then Some (AddrFrom16 b)
  else None.

Definition WithZone (a : Addr) (z : bytes) : Addr :=
  match a with Addr6 v _ => Addr6 v z | _ => a end.

Record AddrPort := { ap_addr : Addr; ap_port : Z }.
Definition AddrPort_IsValid (p : AddrPort) : bool := IsValid (ap_addr p).

(** ** Prefixes. [pfx_bits = None] is Go's invalid prefix. *)

Record Prefix := { pfx_addr : Addr; pfx_bits : option Z }.

#[export] Instance Prefix_eq_dec : EqDecision Prefix.
Proof. solve_decision. Defined.

Definition PrefixFrom (ip : Addr) (bits : Z) : Prefix :=
  {| pfx_addr := WithZone ip [];
     pfx_bits := if IsValid ip && (0 <=? bits) && (bits <=? BitLen ip)
                 then Some bits else None |}.

Definition Prefix_IsValid (p : Prefix) : bool :=
  match pfx_bits p with Some _ => true | None => false end.

Definition mask_val (w bits v : Z) : Z := Z.shiftl (Z.shiftr v (w - bits)) (w - bits).

Definition Masked (p : Prefix) : Prefix :=
  match pfx_bits p, pfx_addr p with
  | Some b, Addr4 v => {| pfx_addr := Addr4 (mask_val 32 b v); pfx_bits := Some b |}
  | Some b, Addr6 v z => {| pfx_addr := Addr6 (mask_val 128 b v) []; pfx_bits := Some b |}
  | _, _ => {| pfx_addr := AddrZero; pfx_bits := None |}
  end.

Definition Prefix_Contains (p : Prefix) (ip : Addr) : bool :=
  match pfx_bits p with
  | None => false
  | Some b =>
      negb (hasZone ip) &&
      match pfx_addr p, ip with
      | Addr4 v, Addr4 u => Z.shiftr v (32 - b) =? Z.shiftr u (32 - b)
      | Addr6 v _, Addr6 u _ => Z.shiftr v (128 - b) =? Z.shiftr u (128 - b)
      | _, _ => false
      end
  end.

(** ** Parsing *)

Definition is_digit (b : byte) : bool := (48 <=? b2z b) && (b2z b <=? 57).

(** The loop of [parseIPv4Fields]: [done] are the octets read so far, [val] and
    [digLen] the current one, [prev_dot] whether the previous byte was a dot. *)
Fixpoint parseIPv4Fields (s : bytes) (done : list Z) (val digLen : Z) (prev_dot : bool)
  : option (list Z) :=
  match s with
  | [] => if (length done <? 3)%nat then None else Some (done ++ [val])
  | c :: s' =>
      if is_digit c then
        if (digLen =? 1) && (val =? 0) then None
        else
          let val' := val * 10 + (b2z c - 48) in
          if 255 <? val' then None
          else parseIPv4Fields s' done val' (digLen + 1) false
      else if bool_decide (c = x2e) then
        if prev_dot || match s' with [] => true | _ => false end then None
        else if (length done =? 3)%nat then None
        else parseIPv4Fields s' (done ++ [val]) 0 0 true
      else None
  end.

Definition octets_val (l : list Z) : Z := fold_left (fun a b => a * 256 + b) l 0.

Definition parseIPv4 (s : bytes) : option Addr :=
  Addr4 ∘ octets_val <$> parseIPv4Fields s [] 0 0 true.

Definition hex_digit (b : byte) : option Z :=
  let c := b2z b in
  if (48 <=? c) && (c <=? 57) then Some (c - 48)
  else if (97 <=? c) && (c <=? 102) then Some (c - 87)
  else if (65 <=? c) && (c <=? 70) then Some (c - 55)
  else None.

(** One hexadecimal group: [None] when it has more than four digits, otherwise
    the value, the number of digits and the rest. *)
Fixpoint hex_group (s : bytes) (acc : Z) (off : nat) : option (Z * nat * bytes) :=
  match s with
  | [] => Some (acc, off, [])
  | c :: s' =>
      match hex_digit c with
      | Some d => if (3 <? off)%nat then None else hex_group s' (acc * 16 + d) (S off)
      | None => Some (acc, off, s)
      end
  end.

Inductive v6_end :=
| V6Done (groups : list Z) (ellipsis : option nat) (rest : bytes).

(** The group loop of [parseIPv6]: [ip] are the bytes filled so far, [ell] the
    position of the ellipsis; at most eight groups are read. *)
Fixpoint v6_groups (fuel : nat) (s : bytes) (ip : list Z) (ell : option nat)
  : option v6_end :=
  match fuel with
  | O => Some (V6Done ip ell s)
  | S fuel' =>
      match hex_group s 0 0 with
      | None => None
      | Some (_, O, _) => None
      | Some (acc, _, rest) =>
          match rest with
          | x2e :: _ =>
              if match ell with None => negb (length ip =? 12)%nat | _ => false end then None
              else if (16 <? length ip + 4)%nat then None
              else match parseIPv4Fields s [] 0 0 true with
                   | Some f => Some (V6Done (ip ++ f) ell [])
                   | None => None
                   end
          | [] => Some (V6Done (ip ++ [acc / 256; acc mod 256]) ell [])
          | x3a :: s1 =>
              let ip' := ip ++ [acc / 256; acc mod 256] in
              match s1 with
              | [] => None
              | x3a :: s2 =>
                  match ell with
                  | Some _ => None
                  | None => match s2 with
                            | [] => Some (V6Done ip' (Some (length ip')) [])
                            | _ => v6_groups fuel' s2 ip' (Some (length ip'))
                            end
                  end
              | _ => v6_groups fuel' s1 ip' ell
              end
          | _ => None
          end
      end
  end.

Definition v6_assemble (e : v6_end) : option Z :=
  match e with
  | V6Done ip ell rest =>
      match rest with
      | _ :: _ => None
      | [] =>
          if (length ip <? 16)%nat then
            match ell with
            | None => None
            | Some k => Some (octets_val (take k ip ++ replicate (16 - length ip) 0 ++ drop k ip))
            end
          else match ell with Some _ => None | None => Some (octets_val ip) end
      end
  end.

Definition parseIPv6_body (s : bytes) : option Z :=
  match s with
  | x3a :: x3a :: [] => Some 0
  | x3a :: x3a :: s' => v6_groups 8 s' [] (Some O) ≫= v6_assemble
  | _ => v6_groups 8 s [] None ≫= v6_assemble
  end.

Definition parseIPv6 (s : bytes) : option Addr :=
  match IndexByte s x25 with
  | None => (fun v => Addr6 v []) <$> parseIPv6_body s
  | Some i =>
      match drop (S i) s with
      | [] => None
      | zone => (fun v => Addr6 v zone) <$> parseIPv6_body (take i s)
      end
  end.

Fixpoint ParseAddr_scan (all s : bytes) : option Addr :=
  match s with
  | [] => None
  | x2e :: _ => parseIPv4 all
  | x3a :: _ => parseIPv6 all
  | x25 :: _ => None
  | _ :: s' => ParseAddr_scan all s'
  end.
Definition ParseAddr (s : bytes) : option Addr := ParseAddr_scan s s.

(** [strconv.Atoi] on the digits after the slash; longer numbers are out of
    range for every prefix length. *)
Definition digits_val (s : bytes) : option Z :=
  if bool_decide (s = []) then None
  else fold_left (fun a c => match a with
                             | Some v => if is_digit c then Some (v * 10 + (b2z c - 48)) else None
                             | None => None
                             end) s (Some 0).

Definition ParsePrefix (s : bytes) : option Prefix :=
  match LastIndexByte s x2f with
  | None => None
  | Some i =>
      match ParseAddr (take i s) with
      | None => None
      | Some ip =>
          let bitsStr := drop (S i) s in
          if hasZone ip then None
          else if match bitsStr with
                  | c :: _ :: _ => (b2z c <? 49) || (57 <? b2z c)
                  | _ => false
                  end then None
          else match digits_val bitsStr with
               | None => None
               | Some bits => if (BitLen ip <? bits) then None else Some (PrefixFrom ip bits)
               end
      end
  end.

Definition addr (s : String.string) : Addr := default AddrZero (ParseAddr (bs s)).
Definition prefix (s : String.string) : Prefix :=
  default {| pfx_addr := AddrZero; pfx_bits := None |} (ParsePrefix (bs s)).

Example parse_v4 : ParseAddr (bs "198.18.0.1") = Some (Addr4 3323068417).
Proof. reflexivity. Qed.
Example parse_v6 : ParseAddr (bs "fe80::1%eth0") = Some (Addr6 (65152 * 2 ^ 112 + 1) (bs "eth0")).
Proof. reflexivity. Qed.
Example parse_mapped : Unmap (addr "::ffff:10.0.0.1") = addr "10.0.0.1".
Proof. reflexivity. Qed.
Example parse_v6_full : ParseAddr (bs "1:2:3:4:5:6:7:8") = Some (Addr6 5192455318486707404433266433261576 []).
Proof. reflexivity. Qed.
Example parse_bad : (ParseAddr (bs "1.2.3"), ParseAddr (bs "01.2.3.4"), ParseAddr (bs "1:2:3:4:5:6:7:8::"),
  ParsePrefix (bs "10.0.0.0/33"), ParsePrefix (bs "10.0.0.0/08")) = (None, None, None, None, None).
Proof. reflexivity. Qed.
Example parse_prefix : prefix "10.1.2.3/8" = {| pfx_addr := addr "10.1.2.3"; pfx_bits := Some 8 |}.
Proof. reflexivity. Qed.

(** ** Lemmas *)

Lemma Unmap_wf a : addr_wf a -> addr_wf (Unmap a).
Proof.
  unfold Unmap. destruct (Is4In6 a); [|done]. intros _. simpl. apply Z.mod_pos_bound; lia.
Qed.

Lemma Unmap_idem a : Unmap (Unmap a) = Unmap a.
Proof. unfold Unmap. destruct (Is4In6 a) eqn:E; simpl; [done|by rewrite E]. Qed.

Lemma Unmap_4 v : Unmap (Addr4 v) = Addr4 v.
Proof. done. Qed.
