(* ===== verification/Socksaddr.v ===== *)
(** * Package [addr]: the proxy's logical destination

    A destination is a domain name or an IP address, with a port
    ([addr/socksaddr.go]). *)
From S2P Require Import Prelude GoStd Netip.

Record Socksaddr := {
  sa_addr : Addr;   (* valid in the IP form *)
  Fqdn : bytes;     (* non-empty in the domain form *)
  sa_port : Z;      (* uint16 *)
}.

#[export] Instance Socksaddr_eq_dec : EqDecision Socksaddr.
Proof. solve_decision. Defined.

Definition FromIPPort (ap : AddrPort) : Socksaddr :=
  {| sa_addr := ap_addr ap; Fqdn := []; sa_port := ap_port ap |}.

Definition FromFqdn (fqdn : bytes) (port : Z) : Socksaddr :=
  {| sa_addr := AddrZero; Fqdn := fqdn; sa_port := port |}.

Definition IsFqdn (s : Socksaddr) : bool := negb (bool_decide (Fqdn s = [])).
Definition IsIP (s : Socksaddr) : bool := bool_decide (Fqdn s = []) && IsValid (sa_addr s).
Definition Socksaddr_IsValid (s : Socksaddr) : bool := IsFqdn s || IsIP s.

Lemma IsFqdn_IsIP_exclusive s : IsFqdn s = true -> IsIP s = false.
Proof. unfold IsFqdn, IsIP. by case_bool_decide. Qed.
