(* ===== verification/AddrText.v ===== *)
(** * Addresses as text: [Socksaddr.String], [netip.Addr.String], [net.JoinHostPort]

    [addr/socksaddr.go] prints a destination as host:port; the UDP NAT keys its table by this
    text and the PROXY header carries addresses in it. The printers follow Go's [strconv],
    [net] and [net/netip]. *)
From S2P Require Import Prelude GoStd Netip Socksaddr.
From Stdlib Require Import Init.Byte.

(** ** Numbers *)

Definition digit (d : Z) : byte := z2b (if d <? 10 then 48 + d else 87 + d).

(** The digits of a non-negative number in a base, most significant first; every turn
    divides the number, so its bit length is enough fuel. *)
Fixpoint digits (base : Z) (fuel : nat) (n : Z) (acc : bytes) : bytes :=
  match fuel with
  | O => acc
  | S fuel' =>
      if n <? base then digit n :: acc
      else digits base fuel' (n / base) (digit (n mod base) :: acc)
  end.

(** [strconv.Itoa] of a non-negative number below 2^64. *)
Definition Itoa (n : Z) : bytes := digits 10 20 n [].
(** [netip.appendHex]: at most four hexadecimal digits. *)
Definition appendHex (n : Z) : bytes := digits 16 4 n [].

(** ** IP addresses *)

Definition octet (v : Z) (i : Z) : Z := Z.shiftr v (8 * i) mod 256.
Definition string4 (v : Z) : bytes :=
  Itoa (octet v 3) ++ x2e :: Itoa (octet v 2) ++ x2e :: Itoa (octet v 1) ++ x2e :: Itoa (octet v 0).

Definition groups6 (v : Z) : list Z := (fun i => Z.shiftr v (112 - 16 * Z.of_nat i) mod 65536) <$> seq 0 8.

Fixpoint zeros (l : list Z) : nat := match l with 0 :: l' => S (zeros l') | _ => O end.

(** The longest run of at least two zero groups, the first of them: start and length. *)
Fixpoint best_run (i : nat) (l : list Z) (best : nat * nat) : nat * nat :=
  match l with
  | [] => best
  | _ :: l' =>
      let n := zeros l in
      best_run (S i) l' (if (2 <=? n)%nat && (best.2 <? n)%nat then (i, n) else best)
  end.

Fixpoint join_colon (l : list Z) : bytes :=
  match l with
  | [] => []
  | [g] => appendHex g
  | g :: l' => appendHex g ++ x3a :: join_colon l'
  end.

Definition string6 (v : Z) : bytes :=
  let g := groups6 v in
  let '(s, n) := best_run 0 g (255%nat, 0%nat) in
  if bool_decide (n = 0%nat) then join_colon g
  else join_colon (take s g) ++ bs "::" ++ join_colon (drop (s + n) g).

Definition with_zone (s z : bytes) : bytes := match z with [] => s | _ => s ++ x25 :: z end.

(** [netip.Addr.String]. *)
Definition Addr_String (a : Addr) : bytes :=
  match a with
  | AddrZero => bs "invalid IP"
  | Addr4 v => string4 v
  | Addr6 v z =>
      if Is4In6 a then with_zone (bs "::ffff:" ++ string4 (v mod 2 ^ 32)) z else with_zone (string6 v) z
  end.

(** ** With a port *)

(** [net.JoinHostPort]. *)
Definition JoinHostPort (host port : bytes) : bytes :=
  match IndexByte host x3a with
  | Some _ => x5b :: host ++ x5d :: x3a :: port
  | None => host ++ x3a :: port
  end.

(** [netip.AddrPort.String]. *)
Definition AddrPort_String (p : AddrPort) : bytes :=
  match ap_addr p with
  | AddrZero => bs "invalid AddrPort"
  | Addr4 v => string4 v ++ x3a :: Itoa (ap_port p)
  | Addr6 _ _ => x5b :: Addr_String (ap_addr p) ++ x5d :: x3a :: Itoa (ap_port p)
  end.

(** [Socksaddr.Host] and [Socksaddr.String]. *)
Definition Host (s : Socksaddr) : bytes := if IsFqdn s then Fqdn s else Addr_String (sa_addr s).
Definition Socksaddr_String (s : Socksaddr) : bytes :=
  if IsFqdn s then JoinHostPort (Fqdn s) (Itoa (sa_port s))
  else AddrPort_String {| ap_addr := sa_addr s; ap_port := sa_port s |}.

Example print6 : Addr_String (addr "2001:db8::8:800:200c:417a") = bs "2001:db8::8:800:200c:417a".
Proof. vm_compute. reflexivity. Qed.
Example print6_first : Addr_String (addr "2001:db8:0:0:1:0:0:1") = bs "2001:db8::1:0:0:1".
Proof. vm_compute. reflexivity. Qed.
Example print6_edges : (Addr_String <$> [addr "::"; addr "::1"; addr "fe80::%eth0"; addr "::ffff:1.2.3.4"; addr "1:0:2:3:4:5:6:7"])
  = [bs "::"; bs "::1"; bs "fe80::%eth0"; bs "::ffff:1.2.3.4"; bs "1:0:2:3:4:5:6:7"].
Proof. vm_compute. reflexivity. Qed.
Example print_dst : (Socksaddr_String <$> [FromFqdn (bs "example.com") 443; FromIPPort {| ap_addr := addr "::1"; ap_port := 53 |}])
  = [bs "example.com:443"; bs "[::1]:53"].
Proof. vm_compute. reflexivity. Qed.

(** ** Reading back *)

Ltac div_lia := to_prop; Z.to_euclidean_division_equations; lia.

Lemma digit_b2z d : 0 <= d < 10 -> b2z (digit d) = 48 + d.
Proof. intros. unfold digit. case_match; [|lia]. apply b2z_z2b_small. lia. Qed.

(** The decimal digits of a number below 1000. *)
(** The number a string of digits denotes. *)
Definition dec_val (s : bytes) : Z := fold_left (fun a b => a * 10 + (b2z b - 48)) s 0.

Lemma digits_ok fuel : forall n acc, 0 <= n < 10 ^ Z.of_nat fuel -> fuel <> O ->
  exists ds, digits 10 fuel n acc = ds ++ acc /\ dec_val ds = n /\ Forall (fun b => 48 <= b2z b <= 57) ds.
Proof.
  induction fuel as [|fuel IH]; intros n acc Hn Hf; [done|]. cbn [digits]. destruct (n <? 10) eqn:E; to_prop.
  - exists [digit n]. split_and!; [done|unfold dec_val; cbn; rewrite digit_b2z; lia|]. constructor; [|constructor]. rewrite digit_b2z; lia.
  - assert (fuel <> O) as Hf'. { intros ->. cbn in Hn. lia. }
    destruct (IH (n / 10) (digit (n mod 10) :: acc)) as (ds & -> & Hv & Hd); [|done|].
    { rewrite Nat2Z.inj_succ, Z.pow_succ_r in Hn by lia. div_lia. }
    exists (ds ++ [digit (n mod 10)]). pose proof (Z.mod_pos_bound n 10). split_and!.
    + by rewrite <-app_assoc.
    + unfold dec_val in *. rewrite fold_left_app, Hv. cbn. rewrite digit_b2z by lia. div_lia.
    + apply Forall_app. split; [done|]. constructor; [|constructor]. rewrite digit_b2z; lia.
Qed.

Lemma Itoa_ok n : 0 <= n < 10 ^ 20 -> dec_val (Itoa n) = n /\ Forall (fun b => 48 <= b2z b <= 57) (Itoa n).
Proof. intros Hn. destruct (digits_ok 20 n [] Hn) as (ds & E & H1 & H2); [done|]. unfold Itoa. rewrite E, app_nil_r. done. Qed.

Lemma Itoa_small n : 0 <= n < 1000 ->
  Itoa n = if n <? 10 then [digit n]
           else if n <? 100 then [digit (n / 10); digit (n mod 10)]
           else [digit (n / 100); digit (n / 10 mod 10); digit (n mod 10)].
Proof.
  intros H. unfold Itoa. cbn [digits]. destruct (n <? 10) eqn:E; [done|].
  destruct (n <? 100) eqn:E1.
  - destruct (n / 10 <? 10) eqn:E2; [done|]. div_lia.
  - destruct (n / 10 <? 10) eqn:E2; [div_lia|]. rewrite Z.div_div by lia. change (10 * 10) with 100.
    destruct (n / 100 <? 10) eqn:E3; [done|div_lia].
Qed.

Lemma is_digit_digit d : 0 <= d < 10 -> is_digit (digit d) = true.
Proof. intros. unfold is_digit. rewrite digit_b2z by done. lia. Qed.

Lemma parse_digit d rest dn val dl pd :
  0 <= d < 10 -> (dl =? 1) && (val =? 0) = false -> val * 10 + d <= 255 ->
  parseIPv4Fields (digit d :: rest) dn val dl pd = parseIPv4Fields rest dn (val * 10 + d) (dl + 1) false.
Proof.
  intros Hd Hz Hv. cbn [parseIPv4Fields]. rewrite is_digit_digit, Hz, digit_b2z by done.
  replace (48 + d - 48) with d by lia. destruct (255 <? val * 10 + d) eqn:E; [lia|done].
Qed.

Lemma parse_octet n rest dn :
  0 <= n < 256 -> exists dl, parseIPv4Fields (Itoa n ++ rest) dn 0 0 true = parseIPv4Fields rest dn n dl false.
Proof.
  intros H. rewrite Itoa_small by lia. destruct (n <? 10) eqn:E; [|destruct (n <? 100) eqn:E1]; cbn [app].
  - eexists. rewrite parse_digit by lia. done.
  - eexists. rewrite !parse_digit by div_lia. f_equal. div_lia.
  - eexists. rewrite !parse_digit by div_lia. f_equal. div_lia.
Qed.

Lemma Itoa_nonempty n : Itoa n <> [].
Proof.
  assert (forall base f n acc, (0 < f)%nat -> digits base f n acc <> []) as H; [|by apply H; lia].
  intros base f. induction f as [|f IH]; intros n0 acc Hf; [lia|]. cbn. destruct (n0 <? base); [done|].
  destruct f; [done|]. apply IH. lia.
Qed.

Lemma parse_octet_dot n m rest dn :
  0 <= n < 256 -> (length dn < 3)%nat ->
  parseIPv4Fields (Itoa n ++ x2e :: Itoa m ++ rest) dn 0 0 true = parseIPv4Fields (Itoa m ++ rest) (dn ++ [n]) 0 0 true.
Proof.
  intros H Hl. destruct (parse_octet n (x2e :: Itoa m ++ rest) dn H) as [dl ->]. cbn [parseIPv4Fields].
  change (is_digit x2e) with false. rewrite bool_decide_true by done. cbn [orb].
  destruct (Itoa m ++ rest) eqn:E; [by apply app_eq_nil in E as [?%Itoa_nonempty _]|]. cbn [orb].
  destruct (length dn =? 3)%nat eqn:E3; [apply Nat.eqb_eq in E3; lia|done].
Qed.

Lemma octets_back v : 0 <= v < 2 ^ 32 -> octets_val [octet v 3; octet v 2; octet v 1; octet v 0] = v.
Proof.
  intros H. unfold octets_val, octet. cbn [fold_left]. rewrite !Z.shiftr_div_pow2 by lia.
  change (2 ^ (8 * 3)) with 16777216. change (2 ^ (8 * 2)) with 65536. change (2 ^ (8 * 1)) with 256. change (2 ^ (8 * 0)) with 1.
  div_lia.
Qed.

Lemma octet_range v i : 0 <= octet v i < 256.
Proof. apply Z.mod_pos_bound. lia. Qed.

(** What is printed for an IPv4 address parses as that address. *)
Theorem string4_roundtrip v : 0 <= v < 2 ^ 32 -> parseIPv4 (string4 v) = Some (Addr4 v).
Proof.
  intros H. unfold parseIPv4, string4. pose proof (octet_range v).
  rewrite parse_octet_dot, parse_octet_dot by (done || (cbn; lia)).
  rewrite <-(app_nil_r (Itoa (octet v 0))). rewrite parse_octet_dot by (done || (cbn; lia)).
  destruct (parse_octet (octet v 0) [] ([] ++ [octet v 3] ++ [octet v 2] ++ [octet v 1]) (octet_range v 0)) as [dl E].
  cbn [app] in *. rewrite E. cbn -[octets_val octet]. by rewrite octets_back.
Qed.

(** [ParseAddr] scans to the first dot. *)
Lemma scan_digits all n rest : 0 <= n < 256 -> ParseAddr_scan all (Itoa n ++ x2e :: rest) = parseIPv4 all.
Proof.
  intros H. assert (forall d l, 0 <= d < 10 -> ParseAddr_scan all (digit d :: l) = ParseAddr_scan all l) as Hd.
  { intros d l Hr. pose proof (digit_b2z d Hr) as Hb. cbn [ParseAddr_scan].
    assert (forall c, ~ (48 <= b2z c < 58) -> digit d <> c) as Hn by (intros c Hc <-; lia).
    pose proof (Hn x2e ltac:(change (b2z x2e) with 46; lia)). pose proof (Hn x3a ltac:(change (b2z x3a) with 58; lia)).
    pose proof (Hn x25 ltac:(change (b2z x25) with 37; lia)). by destruct (digit d). }
  rewrite Itoa_small by lia. destruct (n <? 10) eqn:E; [|destruct (n <? 100) eqn:E1]; cbn [app]; rewrite ?Hd by div_lia; done.
Qed.

Theorem Addr4_String_roundtrip v : 0 <= v < 2 ^ 32 -> ParseAddr (Addr_String (Addr4 v)) = Some (Addr4 v).
Proof.
  intros H. unfold ParseAddr. cbn [Addr_String]. rewrite <-(string4_roundtrip v H) at 1. unfold string4 at 2.
  apply scan_digits, octet_range.
Qed.
