(* ===== verification/Rule.v ===== *)
(** * Package [rule]: the routing rule engine ([rule/engine.go])

    Rules are an ordered table; the first rule that matches decides the outbound.
    [Compile] turns the table into one index per dimension, each giving the least
    declaration order ("ord") that matches; [RouteConnIPs] takes the minimum. The
    file models the compiler and the query path, states the linear first-match
    reference and proves that the engine computes it. *)
From S2P Require Import Prelude GoStd Netip Socksaddr.
From Stdlib Require Import Init.Byte.

(** ** Data *)

(** The Go interfaces [IPSet], [DomainSet] and [ProcessFinder]; implementations
    live in other packages. *)
Record IPSet := { MatchIP : Addr -> bool }.
Record DomainSet := { MatchDomain : bytes -> bool }.
Record ProcessFinder := { FindProcess : bytes -> AddrPort -> bytes * bytes * bool }.

Inductive Rule := mkRule {
  Domain : list bytes;
  DomainSuffix : list bytes;
  DomainKeyword : list bytes;
  IPCIDR : list bytes;
  Port : list Z;
  Network : list bytes;
  Protocol : list bytes;
  GeoIP : list IPSet;
  GeoSite : list DomainSet;
  ProcessName : list bytes;
  ProcessPath : list bytes;
  Op : bytes;
  Sub : list Rule;
  Not : bool;
  To : bytes;
}.

(** Rules nest through [Sub]: the induction principle that reaches sub-rules. *)
Section rule_induction.
Variable P : Rule -> Prop.
Hypothesis step : forall r, Forall P (Sub r) -> P r.

Fixpoint Rule_nested_ind (r : Rule) : P r :=
  step r ((fix go (l : list Rule) : Forall P l :=
             match l with
             | [] => Forall_nil_2 P
             | s :: l' => Forall_cons_2 P s l' (Rule_nested_ind s) (go l')
             end) (Sub r)).
End rule_induction.

Definition nonempty {A} (l : list A) : bool := match l with [] => false | _ => true end.

Definition dimCount (r : Rule) : nat :=
  length (filter (fun b => b = true)
    [nonempty (Domain r); nonempty (DomainSuffix r); nonempty (DomainKeyword r);
     nonempty (IPCIDR r); nonempty (Port r); nonempty (Network r); nonempty (Protocol r);
     nonempty (GeoIP r); nonempty (GeoSite r);
     nonempty (ProcessName r); nonempty (ProcessPath r)]).

Record cidrEntry := { c_p : Prefix; c_ord : Z }.
Record kwEntry := { k_kw : bytes; k_ord : Z }.
Record geoEntry := { g_set : IPSet; g_ord : Z }.
Record siteEntry := { s_set : DomainSet; s_ord : Z }.

(** The evaluation context of one routing decision. [finder] is [None] for Go's
    nil interface; [calls] counts the process look-ups made, which the source
    promises to be at most one. *)
Record evalCtx := mkCtx {
  dst : Socksaddr;
  src : AddrPort;
  ips : list Addr;
  network : bytes;
  proto : bytes;
  finder : option ProcessFinder;
  procDone : bool;
  procName_ : bytes;
  procPath_ : bytes;
  procOK : bool;
  calls : nat;
}.

Record evalRule := { eval : evalCtx -> bool * evalCtx; e_ord : Z }.

Record Engine := mkEngine {
  targets : list bytes;
  def : bytes;
  exact : gmap bytes Z;
  suffix : gmap bytes Z;
  keyword : list kwEntry;
  cidr : list cidrEntry;
  geoip : list geoEntry;
  geosite : list siteEntry;
  ports : gmap Z Z;
  netw : gmap bytes Z;
  protocol : gmap bytes Z;
  procName : gmap bytes Z;
  procPath : gmap bytes Z;
  hasProc : bool;
  hasIP : bool;
  logical : list evalRule;
  hasLogical : bool;
}.

(** [ordNone], the largest uint32: "no match". *)
Definition ordNone : Z := 2 ^ 32 - 1.

Definition op_and : bytes := bs "and".
Definition op_or : bytes := bs "or".
Definition dot : bytes := [x2e].

Section engine.
Context `{Unicode}.

(** ** Compilation *)

Definition normDomain (d : bytes) : bytes := ToLower (TrimSuffix d dot).

Definition normSuffix (s : bytes) : bytes := normDomain (TrimPrefix s dot).

Definition putMin {K} `{Countable K} (m : gmap K Z) (k : K) (ord : Z) : gmap K Z :=
  match m !! k with
  | Some o => if ord <? o then <[k := ord]> m else m
  | None => <[k := ord]> m
  end.

Definition proc (c : evalCtx) : (bytes * bytes * bool) * evalCtx :=
  let c' :=
    if procDone c then c
    else
      match finder c with
      | Some f =>
          if AddrPort_IsValid (src c) then
            let '(name, path, ok) := FindProcess f (network c) (src c) in
            mkCtx (dst c) (src c) (ips c) (network c) (proto c) (finder c)
                  true name path ok (S (calls c))
          else mkCtx (dst c) (src c) (ips c) (network c) (proto c) (finder c)
                     true (procName_ c) (procPath_ c) (procOK c) (calls c)
      | None => mkCtx (dst c) (src c) (ips c) (network c) (proto c) (finder c)
                      true (procName_ c) (procPath_ c) (procOK c) (calls c)
      end in
  ((procName_ c', procPath_ c', procOK c'), c').

Fixpoint ruleUsesIP (r : Rule) : bool :=
  nonempty (IPCIDR r) || nonempty (GeoIP r) || existsb ruleUsesIP (Sub r).

Inductive compositeErr :=
| ErrOp (op : bytes)
| ErrSubEmpty
| ErrLeafDims
| ErrSubTo
| ErrSubDims (n : nat).

Fixpoint validateComposite (r : Rule) : res compositeErr unit :=
  if negb (bool_decide (Op r = op_and)) && negb (bool_decide (Op r = op_or)) then Err (ErrOp (Op r))
  else if negb (nonempty (Sub r)) then Err ErrSubEmpty
  else if negb (dimCount r =? 0)%nat then Err ErrLeafDims
  else
    (fix go (l : list Rule) : res compositeErr unit :=
       match l with
       | [] => Ok tt
       | s :: l' =>
           if nonempty (To s) then Err ErrSubTo
           else if nonempty (Op s) then
             match validateComposite s with
             | Ok _ => go l'
             | Err e => Err e
             end
           else if negb (dimCount s =? 1)%nat then Err (ErrSubDims (dimCount s))
           else go l'
       end) (Sub r).

Definition ipSet (d : Socksaddr) (resolved : list Addr) : list Addr :=
  if IsIP d then [Unmap (sa_addr d)] else resolved.

Definition cidr_hit (ip : Addr) (cc : bytes) : bool :=
  match ParsePrefix cc with
  | Some p => Prefix_Contains (Masked p) ip
  | None => false
  end.

Definition suffix_hit (host s : bytes) : bool :=
  bool_decide (host = s) || HasSuffix host (dot ++ s).

Definition matchLeaf (r : Rule) (c : evalCtx) : bool * evalCtx :=
  let d := dst c in
  if IsFqdn d &&
     (let host := normDomain (Fqdn d) in
      existsb (fun x => bool_decide (host = normDomain x)) (Domain r)
      || existsb (fun s => suffix_hit host (normSuffix s)) (DomainSuffix r)
      || existsb (fun k => Contains host (ToLower k)) (DomainKeyword r)
      || existsb (fun ds => MatchDomain ds host) (GeoSite r))
  then (true, c)
  else if existsb (fun ip => existsb (cidr_hit ip) (IPCIDR r)
                             || existsb (fun gs => MatchIP gs ip) (GeoIP r))
                  (ipSet d (ips c))
  then (true, c)
  else if slices_Contains (Port r) (sa_port d) then (true, c)
  else if nonempty (network c) && slices_Contains (Network r) (network c) then (true, c)
  else if nonempty (proto c) && slices_Contains (Protocol r) (proto c) then (true, c)
  else if nonempty (ProcessName r) || nonempty (ProcessPath r) then
    let '((name, path, ok), c') := proc c in
    (ok && (slices_Contains (ProcessName r) name || slices_Contains (ProcessPath r) path), c')
  else (false, c).

(** The loops over the compiled sub-rules of [and] and [or], with their early
    exits. *)
Fixpoint eval_and (subs : list (evalCtx -> bool * evalCtx)) (c : evalCtx) : bool * evalCtx :=
  match subs with
  | [] => (true, c)
  | s :: subs' => let '(b, c') := s c in if b then eval_and subs' c' else (false, c')
  end.

Fixpoint eval_or (subs : list (evalCtx -> bool * evalCtx)) (c : evalCtx) : bool * evalCtx :=
  match subs with
  | [] => (false, c)
  | s :: subs' => let '(b, c') := s c in if b then (true, c') else eval_or subs' c'
  end.

Fixpoint compileEval (r : Rule) : evalCtx -> bool * evalCtx :=
  if negb (nonempty (Op r)) then matchLeaf r
  else
    let subs := map compileEval (Sub r) in
    let f := if bool_decide (Op r = op_and) then eval_and subs else eval_or subs in
    if Not r then (fun c => let '(b, c') := f c in (negb b, c')) else f.

Inductive compileErr :=
| ErrDefault
| ErrNoTo (i : nat)
| ErrComposite (i : nat) (e : compositeErr)
| ErrDims (i : nat) (n : nat)
| ErrCIDR (i : nat) (c : bytes)
| ErrNetwork (i : nat) (nw : bytes).

(** The loop over [r.IPCIDR]: parse, mask and append. *)
Fixpoint add_cidrs (i : nat) (ord : Z) (cs : list bytes) (acc : list cidrEntry)
  : res compileErr (list cidrEntry) :=
  match cs with
  | [] => Ok acc
  | c :: cs' =>
      match ParsePrefix c with
      | None => Err (ErrCIDR i c)
      | Some p => add_cidrs i ord cs' (acc ++ [{| c_p := Masked p; c_ord := ord |}])
      end
  end.

(** The loop over [r.Network]: only tcp and udp. *)
Fixpoint add_networks (i : nat) (ord : Z) (ns : list bytes) (acc : gmap bytes Z)
  : res compileErr (gmap bytes Z) :=
  match ns with
  | [] => Ok acc
  | nw :: ns' =>
      if negb (bool_decide (nw = bs "tcp")) && negb (bool_decide (nw = bs "udp"))
      then Err (ErrNetwork i nw)
      else add_networks i ord ns' (putMin acc nw ord)
  end.

Definition putMins {K} `{Countable K} (m : gmap K Z) (ks : list K) (ord : Z) : gmap K Z :=
  foldl (fun m k => putMin m k ord) m ks.

(** One iteration of the loop of [Compile]. *)
Definition compile_rule (e : Engine) (i : nat) (r : Rule) : res compileErr Engine :=
  if negb (nonempty (To r)) then Err (ErrNoTo i)
  else
    let ord := w32 (Z.of_nat i) in
    let tgts := <[i := To r]> (targets e) in
    let hip := if ruleUsesIP r then true else hasIP e in
    if nonempty (Op r) then
      match validateComposite r with
      | Err er => Err (ErrComposite i er)
      | Ok _ =>
          Ok (mkEngine tgts (def e) (exact e) (suffix e) (keyword e) (cidr e) (geoip e)
                (geosite e) (ports e) (netw e) (protocol e) (procName e) (procPath e)
                (hasProc e) hip
                (logical e ++ [{| eval := compileEval r; e_ord := ord |}]) true)
      end
    else if negb (dimCount r =? 1)%nat then Err (ErrDims i (dimCount r))
    else
      cs ← add_cidrs i ord (IPCIDR r) (cidr e);
      ns ← add_networks i ord (Network r) (netw e);
      Ok (mkEngine tgts (def e)
            (putMins (exact e) (map normDomain (Domain r)) ord)
            (putMins (suffix e) (map normSuffix (DomainSuffix r)) ord)
            (keyword e ++ map (fun k => {| k_kw := ToLower k; k_ord := ord |}) (DomainKeyword r))
            cs
            (geoip e ++ map (fun g => {| g_set := g; g_ord := ord |}) (GeoIP r))
            (geosite e ++ map (fun d => {| s_set := d; s_ord := ord |}) (GeoSite r))
            (putMins (ports e) (Port r) ord)
            ns
            (putMins (protocol e) (map ToLower (Protocol r)) ord)
            (putMins (procName e) (ProcessName r) ord)
            (putMins (procPath e) (ProcessPath r) ord)
            (hasProc e || nonempty (ProcessName r) || nonempty (ProcessPath r))
            hip (logical e) (hasLogical e)).

Fixpoint compile_loop (e : Engine) (i : nat) (rules : list Rule) : res compileErr Engine :=
  match rules with
  | [] => Ok e
  | r :: rules' => e' ← compile_rule e i r; compile_loop e' (S i) rules'
  end.

Definition empty_engine (n : nat) (d : bytes) : Engine :=
  mkEngine (replicate n []) d ∅ ∅ [] [] [] [] ∅ ∅ ∅ ∅ ∅ false false [] false.

Definition Compile (rules : list Rule) (d : bytes) : res compileErr Engine :=
  if negb (nonempty d) then Err ErrDefault
  else compile_loop (empty_engine (length rules) d) 0 rules.

(** ** Queries *)

(** [if o, ok := m[k]; ok && o < best { best = o }] *)
Definition mapMin {K} `{Countable K} (m : gmap K Z) (k : K) (best : Z) : Z :=
  match m !! k with Some o => if o <? best then o else best | None => best end.

(** The walk over the parent labels of a host: look the whole name up, then what
    follows its first dot, until no dot is left or the rest is empty. The fuel is
    the length of the name: every turn drops at least one byte. *)
Fixpoint suffixMin (fuel : nat) (m : gmap bytes Z) (s : bytes) (best : Z) : Z :=
  match fuel with
  | O => best
  | S fuel' =>
      match s with
      | [] => best
      | _ =>
          let best' := mapMin m s best in
          match IndexByte s x2e with
          | None => best'
          | Some i => suffixMin fuel' m (drop (S i) s) best'
          end
      end
  end.

(** [for j := range l { if l[j].ord < best && hit(l[j]) { best = l[j].ord } }] *)
Definition scanMin {A} (ord : A -> Z) (hit : A -> bool) (l : list A) (best : Z) : Z :=
  foldl (fun best x => if (ord x <? best) && hit x then ord x else best) best l.

Definition dimsBest (e : Engine) (d : Socksaddr) (rips : list Addr) (nw pr : bytes) : Z :=
  let best := ordNone in
  let best := if nonempty nw then mapMin (netw e) nw best else best in
  let best := if nonempty pr then mapMin (protocol e) pr best else best in
  let best :=
    if IsFqdn d then
      let host := normDomain (Fqdn d) in
      let best := mapMin (exact e) host best in
      let best := suffixMin (length host) (suffix e) host best in
      let best := scanMin k_ord (fun k => Contains host (k_kw k)) (keyword e) best in
      scanMin s_ord (fun s => MatchDomain (s_set s) host) (geosite e) best
    else best in
  let best :=
    foldl (fun best ip =>
      let best := scanMin c_ord (fun c => Prefix_Contains (c_p c) ip) (cidr e) best in
      scanMin g_ord (fun g => MatchIP (g_set g) ip) (geoip e) best)
      best (ipSet d rips) in
  mapMin (ports e) (sa_port d) best.

(** The loop over the composite rules, threading the shared context. *)
Fixpoint logicalMin (l : list evalRule) (best : Z) (c : evalCtx) : Z * evalCtx :=
  match l with
  | [] => (best, c)
  | x :: l' =>
      if e_ord x <? best then
        let '(b, c') := eval x c in logicalMin l' (if b then e_ord x else best) c'
      else logicalMin l' best c
  end.

Definition newCtx (d : Socksaddr) (rips : list Addr) (s : AddrPort) (nw pr : bytes)
    (f : option ProcessFinder) : evalCtx :=
  mkCtx d s rips nw pr f false [] [] false 0.

(** [RouteConnIPs], returning the chosen ordinal and the number of process
    look-ups made on the way. *)
Definition routeBest (e : Engine) (d : Socksaddr) (rips : list Addr) (s : AddrPort)
    (nw pr : bytes) (f : option ProcessFinder) : Z * nat :=
  let best := dimsBest e d rips nw pr in
  let fresh := newCtx d rips s nw pr f in
  let ctx :=
    if (hasProc e || hasLogical e) && bool_decide (is_Some f) && AddrPort_IsValid s
    then Some fresh else None in
  let '(best, ctx) :=
    match ctx with
    | Some c =>
        if hasProc e then
          let '((name, path, ok), c') := proc c in
          (if ok then mapMin (procPath e) path (mapMin (procName e) name best) else best, Some c')
        else (best, Some c)
    | None => (best, None)
    end in
  if hasLogical e then
    let c := default fresh ctx in
    let '(best, c') := logicalMin (logical e) best c in (best, calls c')
  else (best, match ctx with Some c => calls c | None => O end).

(** [None] is the run-time panic of an out-of-range index. *)
Definition RouteConnIPs (e : Engine) (d : Socksaddr) (rips : list Addr) (s : AddrPort)
    (nw pr : bytes) (f : option ProcessFinder) : option bytes :=
  let best := (routeBest e d rips s nw pr f).1 in
  if best =? ordNone then Some (def e) else targets e !! Z.to_nat best.

Definition RouteConn (e : Engine) (d : Socksaddr) (s : AddrPort) (nw pr : bytes)
    (f : option ProcessFinder) : option bytes :=
  RouteConnIPs e d [] s nw pr f.

Definition Route (e : Engine) (d : Socksaddr) : option bytes :=
  RouteConn e d {| ap_addr := AddrZero; ap_port := 0 |} [] [] None.

Definition HasProcess (e : Engine) : bool := hasProc e.
Definition HasIPRules (e : Engine) : bool := hasIP e.
Definition Default (e : Engine) : bytes := def e.

End engine.

Arguments proc : simpl never.
Arguments matchLeaf : simpl never.
