(* ===== verification/RuleSpec.v ===== *)
(** * The rule engine computes the first match

    The linear reference [route_spec] of the rule table, and the proof that the
    indexed engine of [Rule.v] computes it; which tables compile; when resolved
    addresses and process look-ups can matter. *)
From S2P Require Import Prelude GoStd Netip Socksaddr Rule.
From Stdlib Require Import Init.Byte.

Definition is_leaf (r : Rule) : bool := negb (nonempty (Op r)).

(** ** The reference *)
Section reference.
Context `{Unicode}.
Variables (d : Socksaddr) (rips : list Addr) (s : AddrPort) (nw pr : bytes)
          (f : option ProcessFinder).

(** What looking the process up yields: nothing without a finder or a source. *)
Definition proc_of : bytes * bytes * bool :=
  match f with
  | Some fd => if AddrPort_IsValid s then FindProcess fd nw s else ([], [], false)
  | None => ([], [], false)
  end.

Definition proc_hit (r : Rule) : bool :=
  let '(name, path, ok) := proc_of in
  ok && (slices_Contains (ProcessName r) name || slices_Contains (ProcessPath r) path).

Definition ip_hit (r : Rule) : bool :=
  existsb (fun ip => existsb (cidr_hit ip) (IPCIDR r)
                     || existsb (fun gs => MatchIP gs ip) (GeoIP r)) (ipSet d rips).

(** A top-level rule with one dimension: suffixes respect label boundaries and
    are not empty, protocols are compared in lower case. *)
Definition leaf_hit (r : Rule) : bool :=
  (IsFqdn d &&
    (let host := normDomain (Fqdn d) in
     existsb (fun x => bool_decide (host = normDomain x)) (Domain r)
     || existsb (fun x => nonempty (normSuffix x) && suffix_hit host (normSuffix x)) (DomainSuffix r)
     || existsb (fun k => Contains host (ToLower k)) (DomainKeyword r)
     || existsb (fun ds => MatchDomain ds host) (GeoSite r)))
  || ip_hit r
  || slices_Contains (Port r) (sa_port d)
  || (nonempty nw && slices_Contains (Network r) nw)
  || (nonempty pr && slices_Contains (map ToLower (Protocol r)) pr)
  || proc_hit r.

(** A leaf below a composite rule: the source tests the empty suffix and the raw
    protocol strings here. *)
Definition sub_leaf_hit (r : Rule) : bool :=
  (IsFqdn d &&
    (let host := normDomain (Fqdn d) in
     existsb (fun x => bool_decide (host = normDomain x)) (Domain r)
     || existsb (fun x => suffix_hit host (normSuffix x)) (DomainSuffix r)
     || existsb (fun k => Contains host (ToLower k)) (DomainKeyword r)
     || existsb (fun ds => MatchDomain ds host) (GeoSite r)))
  || ip_hit r
  || slices_Contains (Port r) (sa_port d)
  || (nonempty nw && slices_Contains (Network r) nw)
  || (nonempty pr && slices_Contains (Protocol r) pr)
  || proc_hit r.

Fixpoint holds (r : Rule) : bool :=
  if is_leaf r then sub_leaf_hit r
  else
    let b := if bool_decide (Op r = op_and) then forallb holds (Sub r)
             else existsb holds (Sub r) in
    if Not r then negb b else b.

Definition rule_hits (r : Rule) : bool := if is_leaf r then leaf_hit r else holds r.

(** Top-down, the first rule that matches, or the default. *)
Definition route_spec (rules : list Rule) (dflt : bytes) : bytes :=
  match find rule_hits rules with Some r => To r | None => dflt end.

(** ** Composite rules: the compiled closures compute [holds] *)

(** The shared context is the query's, with the process look-up not made yet or
    made once and cached. *)
Definition ctx_ok (c : evalCtx) : Prop :=
  dst c = d /\ src c = s /\ ips c = rips /\ network c = nw /\ proto c = pr /\ finder c = f /\
  if procDone c then (procName_ c, procPath_ c, procOK c) = proc_of /\ (calls c <= 1)%nat
  else procName_ c = [] /\ procPath_ c = [] /\ procOK c = false /\ calls c = O.

Lemma newCtx_ok : ctx_ok (newCtx d rips s nw pr f).
Proof. by unfold ctx_ok. Qed.

Lemma proc_correct c : ctx_ok c -> (proc c).1 = proc_of /\ ctx_ok (proc c).2.
Proof.
  unfold ctx_ok, proc. destruct c as [cd cs ci cn cp cf dn nm pt ok k]; simpl.
  intros (-> & -> & -> & -> & -> & -> & Hd). unfold proc_of in *.
  destruct dn; simpl; [naive_solver|]. destruct Hd as (-> & -> & -> & ->).
  destruct f as [fd|]; simpl; [|naive_solver lia].
  destruct (AddrPort_IsValid s); simpl; [|naive_solver lia].
  destruct (FindProcess fd nw s) as [[n p] o] eqn:E; simpl. naive_solver lia.
Qed.

Lemma slices_Contains_nil {A} `{EqDecision A} (x : A) : slices_Contains [] x = false.
Proof. apply bool_decide_eq_false. apply not_elem_of_nil. Qed.

Lemma proc_hit_nil r :
  nonempty (ProcessName r) || nonempty (ProcessPath r) = false -> proc_hit r = false.
Proof.
  unfold proc_hit. destruct (ProcessName r), (ProcessPath r); simpl; try done.
  destruct proc_of as [[? ?] ?]. rewrite !slices_Contains_nil. intros _. by rewrite andb_false_r.
Qed.

Lemma matchLeaf_correct r c :
  ctx_ok c -> (matchLeaf r c).1 = sub_leaf_hit r /\ ctx_ok (matchLeaf r c).2.
Proof.
  intros Hc. pose proof Hc as (Hd & Hs & Hi & Hn & Hp & Hf & _).
  unfold matchLeaf, sub_leaf_hit, ip_hit. rewrite Hd, Hi, Hn, Hp.
  repeat match goal with |- context [(if ?b then (true, c) else _)] =>
    destruct b eqn:?; cbn [orb fst snd]; [split; [by rewrite ?orb_true_r|done]|] end.
  destruct (nonempty (ProcessName r) || nonempty (ProcessPath r)) eqn:Hnp; cbn [orb].
  - destruct (proc_correct c Hc) as [H1 H2]. unfold proc_hit.
    destruct (proc c) as [[[n p] o] c']; cbn [fst snd] in *. by rewrite <-H1.
  - by rewrite proc_hit_nil.
Qed.

Lemma eval_and_correct subs l c :
  Forall2 (fun g r => forall c, ctx_ok c -> (g c).1 = holds r /\ ctx_ok (g c).2) subs l ->
  ctx_ok c -> (eval_and subs c).1 = forallb holds l /\ ctx_ok (eval_and subs c).2.
Proof.
  intros HF. revert c. induction HF as [|g r subs l Hg HF IH]; intros c Hc; simpl; [done|].
  destruct (Hg c Hc) as [H1 H2]. destruct (g c) as [b c']; simpl in *. subst b.
  by destruct (holds r); simpl; [apply IH|].
Qed.

Lemma eval_or_correct subs l c :
  Forall2 (fun g r => forall c, ctx_ok c -> (g c).1 = holds r /\ ctx_ok (g c).2) subs l ->
  ctx_ok c -> (eval_or subs c).1 = existsb holds l /\ ctx_ok (eval_or subs c).2.
Proof.
  intros HF. revert c. induction HF as [|g r subs l Hg HF IH]; intros c Hc; simpl; [done|].
  destruct (Hg c Hc) as [H1 H2]. destruct (g c) as [b c']; simpl in *. subst b.
  by destruct (holds r); simpl; [|apply IH].
Qed.

Lemma compileEval_correct r c :
  ctx_ok c -> (compileEval r c).1 = holds r /\ ctx_ok (compileEval r c).2.
Proof.
  revert c. induction r as [r IH] using Rule_nested_ind. intros c Hc.
  assert (Forall2 (fun g r => forall c, ctx_ok c -> (g c).1 = holds r /\ ctx_ok (g c).2)
            (map compileEval (Sub r)) (Sub r)) as HF.
  { induction IH; simpl; by constructor. }
  destruct r as [dm sf kw cd po ne pt gi gs pn pp op sub nt to]. cbn [compileEval holds is_leaf] in *.
  unfold is_leaf. simpl in *. destruct (nonempty op); simpl; [|by apply matchLeaf_correct].
  pose proof (eval_and_correct _ _ c HF Hc) as [Ha Ha'].
  pose proof (eval_or_correct _ _ c HF Hc) as [Ho Ho'].
  destruct nt; case_bool_decide; simpl; try done.
  - destruct (eval_and _ c); simpl in *. by subst.
  - destruct (eval_or _ c); simpl in *. by subst.
Qed.

End reference.

(** ** Least matching ordinals *)

(** [o] is the least ordinal satisfying [P], or [ordNone] when it may have none. *)
Definition IsMin (P : Z -> Prop) (o : Z) : Prop :=
  (forall i, P i -> o <= i) /\ (o = ordNone \/ P o).

Lemma IsMin_iff P Q o : (forall i, P i <-> Q i) -> IsMin P o -> IsMin Q o.
Proof. unfold IsMin. naive_solver. Qed.

Lemma IsMin_none (P : Z -> Prop) : (forall i, ~ P i) -> IsMin P ordNone.
Proof. unfold IsMin. naive_solver. Qed.

(** Association lists of keys and ordinals, and the maps built from them. *)
Definition putPairs {K} `{Countable K} (m : gmap K Z) (ps : list (K * Z)) : gmap K Z :=
  foldl (fun m p => putMin m p.1 p.2) m ps.

Definition MapOk {K} `{Countable K} (m : gmap K Z) (ps : list (K * Z)) : Prop :=
  forall k, match m !! k with
            | Some o => (k, o) ∈ ps /\ forall i, (k, i) ∈ ps -> o <= i
            | None => forall i, (k, i) ∉ ps
            end.

Lemma MapOk_putMin {K} `{Countable K} (m : gmap K Z) ps k o :
  MapOk m ps -> MapOk (putMin m k o) (ps ++ [(k, o)]).
Proof.
  intros Hm k'. specialize (Hm k'). unfold putMin.
  destruct (decide (k' = k)) as [->|Hne].
  - destruct (m !! k) as [o'|] eqn:Hk.
    + destruct (Z.ltb_spec o o'); simplify_map_eq.
      * split; [set_solver|]. intros i [Hi|Hi]%elem_of_app; [|set_solver].
        destruct Hm as [_ Hm]. specialize (Hm i Hi). lia.
      * split; [set_solver|]. intros i [Hi|Hi]%elem_of_app; [naive_solver|].
        apply list_elem_of_singleton in Hi. naive_solver.
    + simplify_map_eq. split; [set_solver|]. intros i [Hi|Hi]%elem_of_app; [naive_solver|].
      apply list_elem_of_singleton in Hi. naive_solver lia.
  - assert ((if decide (k = k') then Some o else m !! k') = m !! k') as Heq
      by (rewrite decide_False; done).
    assert (forall i, (k', i) ∈ ps ++ [(k, o)] <-> (k', i) ∈ ps) as Hps.
    { intros i. rewrite elem_of_app, list_elem_of_singleton. naive_solver. }
    assert (match m !! k with Some o0 => if o <? o0 then <[k:=o]> m else m | None => <[k:=o]> m end
              !! k' = m !! k') as ->.
    { destruct (m !! k); [destruct (_ <? _)|]; by rewrite ?lookup_insert_ne. }
    destruct (m !! k') as [o'|]; setoid_rewrite Hps; done.
Qed.

Lemma MapOk_putPairs {K} `{Countable K} ps (m : gmap K Z) qs :
  MapOk m qs -> MapOk (putPairs m ps) (qs ++ ps).
Proof.
  revert m qs. induction ps as [|[k o] ps IH]; intros m qs Hm; simpl.
  { by rewrite app_nil_r. }
  rewrite cons_middle, app_assoc. apply IH. by apply MapOk_putMin.
Qed.

Lemma MapOk_build {K} `{Countable K} (ps : list (K * Z)) : MapOk (putPairs ∅ ps) ps.
Proof.
  apply (MapOk_putPairs ps ∅ []). intros k. rewrite lookup_empty. intros i. apply not_elem_of_nil.
Qed.

Lemma IsMin_mapMin {K} `{Countable K} (m : gmap K Z) ps P k best :
  MapOk m ps -> IsMin P best -> IsMin (fun i => P i \/ (k, i) ∈ ps) (mapMin m k best).
Proof.
  intros Hm [H1 H2]. specialize (Hm k). unfold mapMin.
  destruct (m !! k) as [o|].
  - destruct Hm as [Hin Hle]. destruct (Z.ltb_spec o best); (split; [|naive_solver]).
    + intros i [Hi|Hi]; [specialize (H1 i Hi); lia|eauto].
    + intros i [Hi|Hi]; [eauto|specialize (Hle i Hi); lia].
  - split; naive_solver.
Qed.

Lemma IsMin_scanMin {A} (ord : A -> Z) hit l P best :
  IsMin P best ->
  IsMin (fun i => P i \/ exists x, x ∈ l /\ ord x = i /\ hit x = true) (scanMin ord hit l best).
Proof.
  revert P best. induction l as [|x l IH]; intros P best HP; simpl.
  { eapply IsMin_iff; [|done]. intros i. split; [tauto|].
    intros [?|(y & Hy & _)]; [done|]. by apply not_elem_of_nil in Hy. }
  eapply (IsMin_iff (fun i => (P i \/ (ord x = i /\ hit x = true)) \/
                        exists y, y ∈ l /\ ord y = i /\ hit y = true)).
  { intros i. setoid_rewrite elem_of_cons. naive_solver. }
  apply IH. destruct HP as [H1 H2].
  destruct (Z.ltb_spec (ord x) best), (hit x) eqn:Hx; simpl; split; try naive_solver.
  intros i [Hi|[<- _]]; [specialize (H1 i Hi); lia|lia].
Qed.

(** The names the parent-label walk looks up. *)
Fixpoint label_chain (fuel : nat) (s : bytes) : list bytes :=
  match fuel with
  | O => []
  | S fuel' =>
      match s with
      | [] => []
      | _ => s :: match IndexByte s x2e with
                  | None => []
                  | Some i => label_chain fuel' (drop (S i) s)
                  end
      end
  end.

(** They are the non-empty suffixes at a label boundary, provided the fuel is at
    least the length of the name. *)
Lemma label_chain_spec fuel s t :
  (length s <= fuel)%nat ->
  t ∈ label_chain fuel s <-> t <> [] /\ (s = t \/ HasSuffix s (dot ++ t) = true).
Proof.
  unfold dot. revert s. induction fuel as [|fuel IH]; intros s Hs.
  { destruct s; simpl in *; [|lia]. split; [intros []%not_elem_of_nil|].
    intros [Ht [<-|H]]; [done|]. apply HasSuffix_spec in H as [u Hu]. by destruct u. }
  destruct s as [|c s'] eqn:Es; cbn [label_chain].
  { split; [intros []%not_elem_of_nil|].
    intros [Ht [<-|H]]; [done|]. apply HasSuffix_spec in H as [u Hu]. by destruct u. }
  rewrite <-Es in *. rewrite elem_of_cons.
  assert (s <> []) as Hne by by subst.
  destruct (IndexByte s x2e) as [i|] eqn:Hi.
  - apply IndexByte_Some in Hi as (a & b & -> & <- & Hn).
    assert (drop (S (length a)) (a ++ x2e :: b) = b) as ->.
    { rewrite drop_app_ge by lia. by replace (S (length a) - length a)%nat with 1%nat by lia. }
    rewrite IH by (rewrite length_app in Hs; simpl in Hs; lia).
    rewrite !HasSuffix_spec. split.
    + intros [->|[Ht [->|[u ->]]]]; [naive_solver| |].
      * split; [done|]. right. by exists a.
      * split; [done|]. right. exists (a ++ x2e :: u). by rewrite <-app_assoc.
    + intros [Ht [<-|[u Hu]]]; [by left|]. right. split; [done|].
      change (x2e :: b) with ([x2e] ++ b) in Hu.
      destruct (app_eq_inv _ _ _ _ Hu) as [(k & -> & Hk)|(k & -> & Hk)].
      * destruct k as [|y k]; simplify_eq/=; [by left|].
        exfalso. apply Hn. set_solver.
      * destruct k as [|y k]; simplify_eq/=; [by left|]. right. by exists k.
  - apply IndexByte_None in Hi. rewrite HasSuffix_spec. split.
    + intros [->|[]%not_elem_of_nil]. naive_solver.
    + intros [Ht [<-|[u ->]]]; [by left|]. exfalso. apply Hi. set_solver.
Qed.

Lemma IsMin_suffixMin fuel m ps s P best :
  MapOk m ps -> IsMin P best ->
  IsMin (fun i => P i \/ exists t, t ∈ label_chain fuel s /\ (t, i) ∈ ps) (suffixMin fuel m s best).
Proof.
  intros Hm. revert s P best. induction fuel as [|fuel IH]; intros s P best HP; simpl.
  { eapply IsMin_iff; [|done]. intros i. split; [tauto|].
    intros [?|(? & []%not_elem_of_nil & _)]; done. }
  destruct s as [|c s']; [|set (s := c :: s')].
  { eapply IsMin_iff; [|done]. intros i. split; [tauto|].
    intros [?|(? & []%not_elem_of_nil & _)]; done. }
  pose proof (IsMin_mapMin m ps P s best Hm HP) as H1.
  destruct (IndexByte s x2e) as [i|].
  - eapply IsMin_iff; [|apply IH, H1]. intros j. setoid_rewrite elem_of_cons. naive_solver.
  - eapply IsMin_iff; [|exact H1]. intros j. setoid_rewrite list_elem_of_singleton. naive_solver.
Qed.

(** ** What compilation builds *)

(** The keys a table contributes to one dimension, with their ordinals, from
    declaration order [i] on. *)
Fixpoint entries {K} (sel : Rule -> list K) (i : nat) (rules : list Rule) : list (K * Z) :=
  match rules with
  | [] => []
  | r :: rules' => map (fun k => (k, w32 (Z.of_nat i))) (sel r) ++ entries sel (S i) rules'
  end.

Lemma elem_of_entries {K} (sel : Rule -> list K) rules i k o :
  (k, o) ∈ entries sel i rules <->
  exists j r, rules !! j = Some r /\ k ∈ sel r /\ o = w32 (Z.of_nat (i + j)).
Proof.
  revert i. induction rules as [|r rules IH]; intros i; simpl.
  { split; [intros []%not_elem_of_nil|naive_solver]. }
  rewrite elem_of_app, IH, list_elem_of_fmap. split.
  - intros [(k' & [= -> ->] & Hk)|(j & r' & Hj & Hk & ->)].
    + exists 0%nat, r. by rewrite Nat.add_0_r.
    + exists (S j), r'. split_and!; [done..|]. do 2 f_equal. lia.
  - intros ([|j] & r' & Hj & Hk & ->); simplify_eq/=.
    + left. exists k. by rewrite Nat.add_0_r.
    + right. exists j, r'. split_and!; [done..|]. do 2 f_equal. lia.
Qed.

Lemma putPairs_app {K} `{Countable K} (m : gmap K Z) a b :
  putPairs m (a ++ b) = putPairs (putPairs m a) b.
Proof. apply foldl_app. Qed.

Lemma putMins_putPairs {K} `{Countable K} (m : gmap K Z) ks o :
  putMins m ks o = putPairs m (map (fun k => (k, o)) ks).
Proof. revert m. by induction ks as [|k ks IH]; intros m; simpl. Qed.

Section compile.
Context `{Unicode}.

Definition on_leaf {K} (sel : Rule -> list K) (r : Rule) : list K :=
  if is_leaf r then sel r else [].
Definition selExact := on_leaf (fun r => map normDomain (Domain r)).
Definition selSuffix := on_leaf (fun r => map normSuffix (DomainSuffix r)).
Definition selKeyword := on_leaf (fun r => map ToLower (DomainKeyword r)).
Definition selCIDR := on_leaf (fun r => omap (fun c => Masked <$> ParsePrefix c) (IPCIDR r)).
Definition selGeoIP := on_leaf GeoIP.
Definition selGeoSite := on_leaf GeoSite.
Definition selPort := on_leaf Port.
Definition selNetwork := on_leaf Network.
Definition selProtocol := on_leaf (fun r => map ToLower (Protocol r)).
Definition selProcName := on_leaf ProcessName.
Definition selProcPath := on_leaf ProcessPath.
Definition selLogical (r : Rule) : list Rule := if is_leaf r then [] else [r].
Definition uses_proc (r : Rule) : bool :=
  is_leaf r && (nonempty (ProcessName r) || nonempty (ProcessPath r)).

(** [e'] is [e] with the rules [rules], declared from [i] on, added. *)
Record compiled (e e' : Engine) (i : nat) (rules : list Rule) : Prop := {
  ce_exact : exact e' = putPairs (exact e) (entries selExact i rules);
  ce_suffix : suffix e' = putPairs (suffix e) (entries selSuffix i rules);
  ce_keyword : keyword e' = keyword e ++
    map (fun p => {| k_kw := p.1; k_ord := p.2 |}) (entries selKeyword i rules);
  ce_cidr : cidr e' = cidr e ++
    map (fun p => {| c_p := p.1; c_ord := p.2 |}) (entries selCIDR i rules);
  ce_geoip : geoip e' = geoip e ++
    map (fun p => {| g_set := p.1; g_ord := p.2 |}) (entries selGeoIP i rules);
  ce_geosite : geosite e' = geosite e ++
    map (fun p => {| s_set := p.1; s_ord := p.2 |}) (entries selGeoSite i rules);
  ce_ports : ports e' = putPairs (ports e) (entries selPort i rules);
  ce_netw : netw e' = putPairs (netw e) (entries selNetwork i rules);
  ce_protocol : protocol e' = putPairs (protocol e) (entries selProtocol i rules);
  ce_procName : procName e' = putPairs (procName e) (entries selProcName i rules);
  ce_procPath : procPath e' = putPairs (procPath e) (entries selProcPath i rules);
  ce_logical : logical e' = logical e ++
    map (fun p => {| eval := compileEval p.1; e_ord := p.2 |}) (entries selLogical i rules);
  ce_hasProc : hasProc e' = hasProc e || existsb uses_proc rules;
  ce_hasIP : hasIP e' = hasIP e || existsb ruleUsesIP rules;
  ce_hasLogical : hasLogical e' = hasLogical e || existsb (negb ∘ is_leaf) rules;
  ce_def : def e' = def e;
  ce_length : length (targets e') = length (targets e);
  ce_targets : (i + length rules <= length (targets e))%nat ->
    forall j, (j < i)%nat -> targets e' !! j = targets e !! j;
  ce_targets_new : (i + length rules <= length (targets e))%nat ->
    forall j r, rules !! j = Some r -> targets e' !! (i + j)%nat = Some (To r);
}.

Lemma compiled_nil e i : compiled e e i [].
Proof. split; simpl; rewrite ?app_nil_r, ?orb_false_r; done. Qed.

Lemma compiled_cons e e1 e2 i r rules :
  compiled e e1 i [r] -> compiled e1 e2 (S i) rules -> compiled e e2 i (r :: rules).
Proof.
  intros [] []; simpl in *. rewrite ?app_nil_r, ?orb_false_r in *.
  split; simpl; rewrite ?map_app, ?putPairs_app, ?app_assoc, ?orb_assoc; try congruence.
  - intros Hl j Hj. rewrite ce_targets1 by lia. apply ce_targets0; lia.
  - intros Hl [|j] r' Hr; simplify_eq/=.
    + rewrite ce_targets1 by lia. apply ce_targets_new0; [lia|done].
    + rewrite Nat.add_succ_r. apply (ce_targets_new1 ltac:(lia) j r' Hr).
Qed.

Lemma add_cidrs_ok i o cs acc l :
  add_cidrs i o cs acc = Ok l <->
  l = acc ++ map (fun p => {| c_p := p; c_ord := o |}) (omap (fun c => Masked <$> ParsePrefix c) cs)
  /\ Forall (fun c => is_Some (ParsePrefix c)) cs.
Proof.
  revert acc. induction cs as [|c cs IH]; intros acc; simpl.
  { rewrite app_nil_r. naive_solver. }
  rewrite Forall_cons. destruct (ParsePrefix c) as [p|]; simpl.
  - rewrite IH, <-app_assoc. naive_solver.
  - split; [done|]. intros [_ [[? ?] _]]. done.
Qed.

Definition net_ok (nw : bytes) : bool := bool_decide (nw = bs "tcp") || bool_decide (nw = bs "udp").

Lemma add_networks_ok i o ns acc m :
  add_networks i o ns acc = Ok m <-> m = putMins acc ns o /\ Forall (fun n => net_ok n = true) ns.
Proof.
  revert acc. induction ns as [|n ns IH]; intros acc; simpl; [naive_solver|].
  rewrite Forall_cons. unfold net_ok at 1. rewrite <-negb_orb.
  destruct (bool_decide (n = bs "tcp") || bool_decide (n = bs "udp")); simpl.
  - rewrite IH. naive_solver.
  - naive_solver.
Qed.

Lemma compile_rule_compiled e i r e' : compile_rule e i r = Ok e' -> compiled e e' i [r].
Proof.
  unfold compile_rule. destruct (nonempty (To r)); simpl; [|done].
  destruct (nonempty (Op r)) eqn:Hop.
  - destruct (validateComposite r); [|done]. intros [= <-].
    split; simpl; unfold selExact, selSuffix, selKeyword, selCIDR, selGeoIP, selGeoSite, selPort,
      selNetwork, selProtocol, selProcName, selProcPath, selLogical, on_leaf, uses_proc, is_leaf;
      rewrite ?Hop; simpl; rewrite ?app_nil_r, ?orb_false_r, ?orb_true_r; try done.
    + by destruct (ruleUsesIP r), (hasIP e).
    + by rewrite length_insert.
    + intros Hl j Hj. apply list_lookup_insert_ne. lia.
    + intros Hl [|j] r' Hr; simplify_eq/=. rewrite Nat.add_0_r. apply list_lookup_insert_eq. lia.
  - destruct (dimCount r =? 1)%nat; simpl; [|done].
    intros (cs & Hcs & Hr)%bind_ok_inv. apply bind_ok_inv in Hr as (ns & Hns & [= <-]).
    apply add_cidrs_ok in Hcs as [-> _]. apply add_networks_ok in Hns as [-> _].
    split; simpl; unfold selExact, selSuffix, selKeyword, selCIDR, selGeoIP, selGeoSite, selPort,
      selNetwork, selProtocol, selProcName, selProcPath, selLogical, on_leaf, uses_proc, is_leaf;
      rewrite ?Hop; simpl; rewrite ?app_nil_r, ?orb_false_r, ?putMins_putPairs, ?map_map; try done.
    + by rewrite orb_assoc.
    + by destruct (ruleUsesIP r), (hasIP e).
    + by rewrite length_insert.
    + intros Hl j Hj. apply list_lookup_insert_ne. lia.
    + intros Hl [|j] r' Hr; simplify_eq/=. rewrite Nat.add_0_r. apply list_lookup_insert_eq. lia.
Qed.

Lemma compile_loop_compiled rules e i e' :
  compile_loop e i rules = Ok e' -> compiled e e' i rules.
Proof.
  revert e i. induction rules as [|r rules IH]; intros e i; simpl.
  { intros [= <-]. apply compiled_nil. }
  intros (e1 & H1 & H2)%bind_ok_inv.
  eapply compiled_cons; [by apply compile_rule_compiled|by apply IH].
Qed.

Lemma Compile_compiled rules dflt e :
  Compile rules dflt = Ok e -> compiled (empty_engine (length rules) dflt) e 0 rules.
Proof. unfold Compile. destruct (nonempty dflt); [|done]. apply compile_loop_compiled. Qed.

End compile.

(** ** The engine computes the reference *)

Lemma existsb_elem {A} (g : A -> bool) l : existsb g l = true <-> exists x, x ∈ l /\ g x = true.
Proof. rewrite existsb_exists. setoid_rewrite list_elem_of_In. done. Qed.

Lemma slices_Contains_true {A} `{EqDecision A} (l : list A) x :
  slices_Contains l x = true <-> x ∈ l.
Proof. apply bool_decide_eq_true. Qed.

Lemma IsMin_if (b : bool) (P Q : Z -> Prop) x y :
  IsMin (fun i => P i \/ Q i) x -> IsMin P y ->
  IsMin (fun i => P i \/ (b = true /\ Q i)) (if b then x else y).
Proof. destruct b; intros Hx Hy; (eapply IsMin_iff; [|eassumption]); naive_solver. Qed.

Lemma IsMin_foldl {A} (g : Z -> A -> Z) (Q : A -> Z -> Prop) l P best :
  (forall P best x, IsMin P best -> IsMin (fun i => P i \/ Q x i) (g best x)) ->
  IsMin P best -> IsMin (fun i => P i \/ exists x, x ∈ l /\ Q x i) (foldl g best l).
Proof.
  intros Hg. revert P best. induction l as [|x l IH]; intros P best HP; simpl.
  { eapply IsMin_iff; [|done]. intros i. split; [tauto|].
    intros [?|(? & []%not_elem_of_nil & _)]; done. }
  eapply IsMin_iff; [|apply IH, Hg, HP]. intros i. setoid_rewrite elem_of_cons. naive_solver.
Qed.

Section first_match.
Context `{Unicode}.
Variables (d : Socksaddr) (rips : list Addr) (s : AddrPort) (nw pr : bytes)
          (f : option ProcessFinder).
Variables (rules : list Rule) (dflt : bytes) (e : Engine).
Hypothesis Hcompile : Compile rules dflt = Ok e.

Let host := normDomain (Fqdn d).
Notation ents sel := (entries sel 0 rules).

(** Ordinal [i] is found by one of the destination-side indexes. *)
Definition dims_at (i : Z) : Prop :=
  (nonempty nw = true /\ (nw, i) ∈ ents selNetwork) \/
  (nonempty pr = true /\ (pr, i) ∈ ents selProtocol) \/
  (IsFqdn d = true /\
    ((host, i) ∈ ents selExact \/
     (exists t, t ∈ label_chain (length host) host /\ (t, i) ∈ ents selSuffix) \/
     (exists k, (k, i) ∈ ents selKeyword /\ Contains host k = true) \/
     (exists ds, (ds, i) ∈ ents selGeoSite /\ MatchDomain ds host = true))) \/
  (exists ip, ip ∈ ipSet d rips /\
    ((exists p, (p, i) ∈ ents selCIDR /\ Prefix_Contains p ip = true) \/
     (exists g, (g, i) ∈ ents selGeoIP /\ MatchIP g ip = true))) \/
  (sa_port d, i) ∈ ents selPort.

Definition proc_at (i : Z) : Prop :=
  let '(name, path, ok) := proc_of s nw f in
  ok = true /\ ((name, i) ∈ ents selProcName \/ (path, i) ∈ ents selProcPath).

Definition logical_at (i : Z) : Prop :=
  exists r, (r, i) ∈ ents selLogical /\ holds d rips s nw pr f r = true.

Lemma scan_map {K A} (mk : K * Z -> A) (ord : A -> Z) hit (ps : list (K * Z)) i :
  (forall p, ord (mk p) = p.2) ->
  (exists x, x ∈ map mk ps /\ ord x = i /\ hit x = true) <->
  (exists k, (k, i) ∈ ps /\ hit (mk (k, i)) = true).
Proof.
  intros Hord. setoid_rewrite list_elem_of_fmap. split.
  - intros (x & ([k o] & -> & Hp) & <- & Hx). rewrite Hord in *. simpl in *. eauto.
  - intros (k & Hk & Hx). exists (mk (k, i)). rewrite Hord. simpl. eauto.
Qed.

Lemma domain_IsMin P best :
  IsMin P best ->
  IsMin (fun i => P i \/ ((host, i) ∈ ents selExact \/
     (exists t, t ∈ label_chain (length host) host /\ (t, i) ∈ ents selSuffix) \/
     (exists k, (k, i) ∈ ents selKeyword /\ Contains host k = true) \/
     (exists ds, (ds, i) ∈ ents selGeoSite /\ MatchDomain ds host = true)))
   (scanMin s_ord (fun s => MatchDomain (s_set s) host) (geosite e)
     (scanMin k_ord (fun k => Contains host (k_kw k)) (keyword e)
       (suffixMin (length host) (suffix e) host (mapMin (exact e) host best)))).
Proof.
  pose proof (Compile_compiled _ _ _ Hcompile) as C. intros HP.
  rewrite (ce_exact _ _ _ _ C), (ce_suffix _ _ _ _ C), (ce_keyword _ _ _ _ C), (ce_geosite _ _ _ _ C).
  cbn [empty_engine exact suffix keyword geosite app].
  eapply IsMin_iff; [|apply IsMin_scanMin, IsMin_scanMin, IsMin_suffixMin, IsMin_mapMin, HP;
                       apply MapOk_build].
  intros i. cbv beta. rewrite !scan_map by done. simpl. tauto.
Qed.

Lemma ip_IsMin P best :
  IsMin P best ->
  IsMin (fun i => P i \/ exists ip, ip ∈ ipSet d rips /\
    ((exists p, (p, i) ∈ ents selCIDR /\ Prefix_Contains p ip = true) \/
     (exists g, (g, i) ∈ ents selGeoIP /\ MatchIP g ip = true)))
   (foldl (fun best ip =>
      scanMin g_ord (fun g => MatchIP (g_set g) ip) (geoip e)
        (scanMin c_ord (fun c => Prefix_Contains (c_p c) ip) (cidr e) best)) best (ipSet d rips)).
Proof.
  pose proof (Compile_compiled _ _ _ Hcompile) as C. intros HP.
  rewrite (ce_cidr _ _ _ _ C), (ce_geoip _ _ _ _ C). cbn [empty_engine cidr geoip app].
  apply (IsMin_foldl _ (fun ip i =>
      (exists p, (p, i) ∈ ents selCIDR /\ Prefix_Contains p ip = true) \/
      (exists g, (g, i) ∈ ents selGeoIP /\ MatchIP g ip = true))); [|done].
  clear HP P best. intros P best ip HP. eapply IsMin_iff; [|apply IsMin_scanMin, IsMin_scanMin, HP].
  intros i. cbv beta. rewrite !scan_map by done. simpl. tauto.
Qed.

Lemma dimsBest_IsMin : IsMin dims_at (dimsBest e d rips nw pr).
Proof.
  pose proof (Compile_compiled _ _ _ Hcompile) as C. unfold dimsBest.
  assert (IsMin (fun i => (False \/ (nonempty nw = true /\ (nw, i) ∈ ents selNetwork)) \/
                  (nonempty pr = true /\ (pr, i) ∈ ents selProtocol))
    (let b := if nonempty nw then mapMin (netw e) nw ordNone else ordNone in
     if nonempty pr then mapMin (protocol e) pr b else b)) as H1.
  { assert (IsMin (fun _ => False) ordNone) as H0 by (apply IsMin_none; tauto).
    rewrite (ce_netw _ _ _ _ C), (ce_protocol _ _ _ _ C). cbn [empty_engine netw protocol].
    assert (IsMin (fun i => False \/ nonempty nw = true /\ (nw, i) ∈ ents selNetwork)
      (if nonempty nw then mapMin (putPairs ∅ (ents selNetwork)) nw ordNone else ordNone)) as H2
      by (apply IsMin_if; [apply (IsMin_mapMin _ _ _ _ _ (MapOk_build _) H0)|exact H0]).
    apply IsMin_if; [apply (IsMin_mapMin _ _ _ _ _ (MapOk_build _) H2)|exact H2]. }
  pose proof (ip_IsMin _ _ (IsMin_if (IsFqdn d) _ _ _ _ (domain_IsMin _ _ H1) H1)) as H2.
  pose proof (IsMin_mapMin _ _ _ (sa_port d) _ (MapOk_build (ents selPort)) H2) as H3.
  rewrite (ce_ports _ _ _ _ C). cbn [empty_engine ports].
  eapply IsMin_iff; [|exact H3]. intros i. unfold dims_at. tauto.
Qed.

(** The composite rules, evaluated on the shared context. *)
Lemma logicalMin_IsMin ps P best c :
  ctx_ok d rips s nw pr f c -> IsMin P best ->
  let l := map (fun p => {| eval := compileEval p.1; e_ord := p.2 |}) ps in
  IsMin (fun i => P i \/ exists r, (r, i) ∈ ps /\ holds d rips s nw pr f r = true)
        (logicalMin l best c).1 /\
  ctx_ok d rips s nw pr f (logicalMin l best c).2.
Proof.
  revert P best c. induction ps as [|[r o] ps IH]; intros P best c Hc HP; simpl.
  { split; [|done]. eapply IsMin_iff; [|done]. intros i. split; [tauto|].
    intros [?|(? & []%not_elem_of_nil & _)]; done. }
  destruct (compileEval_correct _ _ _ _ _ _ r c Hc) as [Hv Hc'].
  assert (forall best' c', ctx_ok d rips s nw pr f c' ->
    IsMin (fun i => P i \/ (o = i /\ holds d rips s nw pr f r = true)) best' ->
    let l := map (fun p => {| eval := compileEval p.1; e_ord := p.2 |}) ps in
    IsMin (fun i => P i \/ exists r', (r', i) ∈ (r, o) :: ps /\ holds d rips s nw pr f r' = true)
        (logicalMin l best' c').1 /\
    ctx_ok d rips s nw pr f (logicalMin l best' c').2) as Hstep.
  { intros best' c' Hc1 HP1. destruct (IH _ _ _ Hc1 HP1) as [H1 H2]. split; [|done].
    eapply IsMin_iff; [|exact H1]. intros i. setoid_rewrite elem_of_cons. naive_solver. }
  destruct HP as [H1 H2]. destruct (Z.ltb_spec o best).
  - destruct (compileEval r c) as [b c']; cbn [fst snd] in *. subst b.
    destruct (holds d rips s nw pr f r) eqn:Hr; (apply Hstep; [done|]); split.
    + intros i [Hi|[<- _]]; [specialize (H1 i Hi); lia|lia].
    + right. by right.
    + intros i [Hi|[_ ?]]; [eauto|done].
    + destruct H2; auto.
  - apply Hstep; [done|]. split; [|destruct H2; auto]. intros i [Hi|[<- _]]; [eauto|lia].
Qed.

Lemma no_entries {K} (sel : Rule -> list K) k i :
  (forall r, r ∈ rules -> sel r = []) -> (k, i) ∉ ents sel.
Proof.
  intros Hsel (j & r & Hj & Hk & _)%elem_of_entries.
  rewrite Hsel in Hk by (by eapply list_elem_of_lookup_2). by apply not_elem_of_nil in Hk.
Qed.

Lemma existsb_false_elem {A} (g : A -> bool) l x : existsb g l = false -> x ∈ l -> g x = false.
Proof.
  intros He Hx. destruct (g x) eqn:Hg; [|done].
  assert (existsb g l = true) by (apply existsb_elem; eauto). congruence.
Qed.

Lemma hasProc_false i : hasProc e = false -> ~ proc_at i.
Proof.
  pose proof (Compile_compiled _ _ _ Hcompile) as C. rewrite (ce_hasProc _ _ _ _ C). simpl.
  intros Hf. unfold proc_at. destruct proc_of as [[n p] o]. intros [_ [Hi|Hi]]; revert Hi;
    apply no_entries; intros r Hr; apply (existsb_false_elem _ _ _ Hf) in Hr;
    unfold uses_proc, selProcName, selProcPath, on_leaf in *; destruct (is_leaf r); simpl in *;
    try done; apply orb_false_iff in Hr as [H1 H2]; by destruct (ProcessName r), (ProcessPath r).
Qed.

Lemma hasLogical_false i : hasLogical e = false -> ~ logical_at i.
Proof.
  pose proof (Compile_compiled _ _ _ Hcompile) as C. rewrite (ce_hasLogical _ _ _ _ C). simpl.
  intros Hf (r & Hr & _). revert Hr. apply no_entries. intros r' Hr'.
  apply (existsb_false_elem _ _ _ Hf) in Hr'. unfold selLogical. simpl in Hr'.
  by destruct (is_leaf r').
Qed.

Lemma proc_IsMin P best name path :
  IsMin P best -> proc_of s nw f = (name, path, true) ->
  IsMin (fun i => P i \/ proc_at i) (mapMin (procPath e) path (mapMin (procName e) name best)).
Proof.
  pose proof (Compile_compiled _ _ _ Hcompile) as C.
  rewrite (ce_procName _ _ _ _ C), (ce_procPath _ _ _ _ C). cbn [empty_engine procName procPath].
  intros HP Hproc. eapply IsMin_iff; [|apply IsMin_mapMin, IsMin_mapMin, HP; apply MapOk_build].
  intros i. unfold proc_at. rewrite Hproc. tauto.
Qed.

Definition found_at (i : Z) : Prop := (dims_at i \/ proc_at i) \/ logical_at i.

Lemma logical_stage best c (P : Z -> Prop) :
  ctx_ok d rips s nw pr f c -> IsMin P best ->
  IsMin (fun i => P i \/ logical_at i) (logicalMin (logical e) best c).1 /\
  (calls (logicalMin (logical e) best c).2 <= 1)%nat.
Proof.
  pose proof (Compile_compiled _ _ _ Hcompile) as C. rewrite (ce_logical _ _ _ _ C).
  cbn [empty_engine logical app]. intros Hc HP.
  destruct (logicalMin_IsMin (ents selLogical) P best c Hc HP) as [H1 H2]. split; [exact H1|].
  destruct H2 as (_ & _ & _ & _ & _ & _ & H2). destruct (procDone _); [naive_solver|].
  destruct H2 as (_ & _ & _ & ->). lia.
Qed.

Lemma proc_at_impossible i :
  bool_decide (is_Some f) && AddrPort_IsValid s = false -> ~ proc_at i.
Proof.
  unfold proc_at, proc_of. destruct f; simpl; [|intros _ [? _]; done].
  destruct (AddrPort_IsValid s); [done|]. intros _ [? _]. done.
Qed.

(** The ordinal the engine picks is the least one found by an index or by a
    composite rule, and it looks the process up at most once. *)
Lemma routeBest_IsMin :
  IsMin found_at (routeBest e d rips s nw pr f).1 /\ ((routeBest e d rips s nw pr f).2 <= 1)%nat.
Proof.
  pose proof dimsBest_IsMin as HD. pose proof (newCtx_ok d rips s nw pr f) as Hn.
  unfold routeBest.
  destruct ((hasProc e || hasLogical e) && bool_decide (is_Some f) && AddrPort_IsValid s) eqn:Hctx.
  - destruct (hasProc e) eqn:Hp.
    + destruct (proc_correct _ _ _ _ _ _ _ Hn) as [H1 H2].
      destruct (proc (newCtx d rips s nw pr f)) as [[[n p] o] c']; cbn [fst snd] in *.
      assert (IsMin (fun i => dims_at i \/ proc_at i)
        (if o then mapMin (procPath e) p (mapMin (procName e) n (dimsBest e d rips nw pr))
         else dimsBest e d rips nw pr)) as HP.
      { destruct o; [by apply proc_IsMin|]. eapply IsMin_iff; [|exact HD]. intros i.
        unfold proc_at. rewrite <-H1. split; [tauto|]. intros [?|[? _]]; done. }
      destruct (hasLogical e) eqn:Hl; cbn [from_option id].
      * pose proof (logical_stage _ _ _ H2 HP) as [H3 H4].
        destruct (logicalMin _ _ c'); cbn [fst snd] in *. split; [exact H3|exact H4].
      * split; [|destruct H2 as (_ & _ & _ & _ & _ & _ & H2); destruct (procDone c'); simpl; naive_solver lia].
        eapply IsMin_iff; [|exact HP]. intros i. pose proof (hasLogical_false i Hl). unfold found_at. tauto.
    + assert (IsMin (fun i => dims_at i \/ proc_at i) (dimsBest e d rips nw pr)) as HP.
      { eapply IsMin_iff; [|exact HD]. intros i. pose proof (hasProc_false i Hp). tauto. }
      destruct (hasLogical e) eqn:Hl; [|done]. cbn [from_option id].
      pose proof (logical_stage _ _ _ Hn HP) as [H3 H4].
      cbn [id from_option]. destruct (logicalMin _ _ _); cbn [fst snd] in *. split; [exact H3|exact H4].
  - assert (IsMin (fun i => dims_at i \/ proc_at i) (dimsBest e d rips nw pr)) as HP.
    { eapply IsMin_iff; [|exact HD]. intros i. split; [tauto|]. intros [?|Hi]; [done|]. exfalso.
      destruct (hasProc e) eqn:Hp; [|by apply (hasProc_false i)].
      revert Hi. by apply proc_at_impossible. }
    destruct (hasLogical e) eqn:Hl; cbn [from_option id].
    + pose proof (logical_stage _ _ _ Hn HP) as [H3 H4].
      destruct (logicalMin _ _ _); cbn [fst snd] in *. split; [exact H3|exact H4].
    + split; [|simpl; lia]. eapply IsMin_iff; [|exact HP]. intros i.
      pose proof (hasLogical_false i Hl). unfold found_at. tauto.
Qed.

(** Rule [r] alone is found by one of the indexes. *)
Definition rule_dims (r : Rule) : Prop :=
  (nonempty nw = true /\ nw ∈ selNetwork r) \/
  (nonempty pr = true /\ pr ∈ selProtocol r) \/
  (IsFqdn d = true /\
    (host ∈ selExact r \/
     (exists t, t ∈ label_chain (length host) host /\ t ∈ selSuffix r) \/
     (exists k, k ∈ selKeyword r /\ Contains host k = true) \/
     (exists ds, ds ∈ selGeoSite r /\ MatchDomain ds host = true))) \/
  (exists ip, ip ∈ ipSet d rips /\
    ((exists p, p ∈ selCIDR r /\ Prefix_Contains p ip = true) \/
     (exists g, g ∈ selGeoIP r /\ MatchIP g ip = true))) \/
  sa_port d ∈ selPort r.

Definition rule_proc (r : Rule) : Prop :=
  let '(name, path, ok) := proc_of s nw f in
  ok = true /\ (name ∈ selProcName r \/ path ∈ selProcPath r).

Definition at_ord (Q : Rule -> Prop) (i : Z) : Prop :=
  exists j r, rules !! j = Some r /\ i = w32 (Z.of_nat j) /\ Q r.

Lemma entries_at {K} (sel : Rule -> list K) k i : (k, i) ∈ ents sel <-> at_ord (fun r => k ∈ sel r) i.
Proof. rewrite elem_of_entries. unfold at_ord. simpl. naive_solver. Qed.

Lemma at_ord_or P Q i : at_ord P i \/ at_ord Q i <-> at_ord (fun r => P r \/ Q r) i.
Proof. unfold at_ord. naive_solver. Qed.
Lemma at_ord_and A P i : A /\ at_ord P i <-> at_ord (fun r => A /\ P r) i.
Proof. unfold at_ord. naive_solver. Qed.
Lemma at_ord_and_r A P i : at_ord P i /\ A <-> at_ord (fun r => P r /\ A) i.
Proof. unfold at_ord. naive_solver. Qed.
Lemma at_ord_ex {A} (P : A -> Rule -> Prop) i :
  (exists x, at_ord (P x) i) <-> at_ord (fun r => exists x, P x r) i.
Proof. unfold at_ord. naive_solver. Qed.
Lemma at_ord_iff P Q i : (forall r, P r <-> Q r) -> at_ord P i <-> at_ord Q i.
Proof. unfold at_ord. naive_solver. Qed.

Lemma dims_at_rule i : dims_at i <-> at_ord rule_dims i.
Proof.
  unfold dims_at. setoid_rewrite entries_at.
  repeat first [setoid_rewrite at_ord_and | setoid_rewrite at_ord_and_r
               | setoid_rewrite at_ord_ex | setoid_rewrite at_ord_or].
  done.
Qed.

Lemma proc_at_rule i : proc_at i <-> at_ord rule_proc i.
Proof.
  unfold proc_at, rule_proc. destruct proc_of as [[n p] o].
  by rewrite !entries_at, at_ord_or, at_ord_and.
Qed.

Lemma logical_at_rule i :
  logical_at i <-> at_ord (fun r => is_leaf r = false /\ holds d rips s nw pr f r = true) i.
Proof.
  unfold logical_at. setoid_rewrite entries_at. setoid_rewrite at_ord_and_r. rewrite at_ord_ex.
  apply at_ord_iff. intros r. unfold selLogical. destruct (is_leaf r); split.
  - intros (x & []%not_elem_of_nil & _).
  - naive_solver.
  - intros (x & ->%list_elem_of_singleton & Hh). done.
  - intros [_ Hh]. exists r. by rewrite list_elem_of_singleton.
Qed.

Lemma exact_elem l : existsb (fun x => bool_decide (host = normDomain x)) l = true
  <-> host ∈ map normDomain l.
Proof.
  rewrite existsb_elem, list_elem_of_fmap. setoid_rewrite bool_decide_eq_true. naive_solver.
Qed.

Lemma suffix_elem l :
  existsb (fun x => nonempty (normSuffix x) && suffix_hit host (normSuffix x)) l = true
  <-> exists t, t ∈ label_chain (length host) host /\ t ∈ map normSuffix l.
Proof.
  rewrite existsb_elem. setoid_rewrite list_elem_of_fmap.
  setoid_rewrite label_chain_spec; [|lia]. unfold suffix_hit. split.
  - intros (x & Hx & [Hne Hh]%andb_true_iff). rewrite orb_true_iff, bool_decide_eq_true in Hh.
    exists (normSuffix x). split; [|eauto]. split; [by destruct (normSuffix x)|done].
  - intros (t & [Hne Hh] & x & -> & Hx). exists x. split; [done|].
    rewrite andb_true_iff, orb_true_iff, bool_decide_eq_true. split; [|done].
    by destruct (normSuffix x).
Qed.

Lemma keyword_elem l :
  existsb (fun k => Contains host (ToLower k)) l = true
  <-> exists k, k ∈ map ToLower l /\ Contains host k = true.
Proof. rewrite existsb_elem. setoid_rewrite list_elem_of_fmap. naive_solver. Qed.

Lemma cidr_elem ip l :
  existsb (cidr_hit ip) l = true
  <-> exists p, p ∈ omap (fun c => Masked <$> ParsePrefix c) l /\ Prefix_Contains p ip = true.
Proof.
  rewrite existsb_elem. setoid_rewrite list_elem_of_omap. unfold cidr_hit. split.
  - intros (c & Hc & Hh). destruct (ParsePrefix c) as [p|] eqn:E; [|done].
    exists (Masked p). split; [|done]. exists c. by rewrite E.
  - intros (p & (c & Hc & Hp) & Hh). exists c. split; [done|].
    destruct (ParsePrefix c); simplify_eq/=. done.
Qed.

Lemma leaf_hit_iff r :
  is_leaf r = true -> leaf_hit d rips s nw pr f r = true <-> rule_dims r \/ rule_proc r.
Proof.
  intros Hl. unfold leaf_hit, ip_hit, proc_hit, rule_dims, rule_proc.
  unfold selExact, selSuffix, selKeyword, selCIDR, selGeoIP, selGeoSite, selPort,
      selNetwork, selProtocol, selProcName, selProcPath, on_leaf. rewrite Hl.
  fold host. destruct (proc_of s nw f) as [[n p] o].
  rewrite !orb_true_iff, !andb_true_iff, !orb_true_iff, !slices_Contains_true,
    exact_elem, suffix_elem, keyword_elem, !existsb_elem.
  setoid_rewrite orb_true_iff. setoid_rewrite cidr_elem. setoid_rewrite existsb_elem. tauto.
Qed.

Lemma not_leaf_dims r : is_leaf r = false -> ~ rule_dims r /\ ~ rule_proc r.
Proof.
  intros Hl. unfold rule_dims, rule_proc, selExact, selSuffix, selKeyword, selCIDR, selGeoIP,
    selGeoSite, selPort, selNetwork, selProtocol, selProcName, selProcPath, on_leaf. rewrite Hl.
  destruct (proc_of s nw f) as [[n p] o]. setoid_rewrite elem_of_nil. naive_solver.
Qed.

Lemma found_at_iff i :
  found_at i <-> at_ord (fun r => rule_hits d rips s nw pr f r = true) i.
Proof.
  unfold found_at. rewrite dims_at_rule, proc_at_rule, logical_at_rule, !at_ord_or.
  apply at_ord_iff. intros r. unfold rule_hits. destruct (is_leaf r) eqn:Hl.
  - rewrite leaf_hit_iff by done. naive_solver.
  - apply not_leaf_dims in Hl as [? ?]. naive_solver.
Qed.
End first_match.

Lemma find_first {A} (g : A -> bool) l :
  match find g l with
  | Some x => exists j, l !! j = Some x /\ g x = true /\
                forall j' y, l !! j' = Some y -> g y = true -> (j <= j')%nat
  | None => forall j y, l !! j = Some y -> g y = false
  end.
Proof.
  induction l as [|x l IH]; simpl; [done|]. destruct (g x) eqn:Hx.
  - exists 0%nat. split_and!; [done..|lia].
  - destruct (find g l) as [y|].
    + destruct IH as (j & Hj & Hy & Hmin). exists (S j). split_and!; [done..|].
      intros [|j'] z Hz Hg; simplify_eq/=; [congruence|]. apply le_n_S. eauto.
    + intros [|j] z Hz; simplify_eq/=; eauto.
Qed.

(** Ordinals of a table that fits uint32 do not wrap. *)
Lemma ord_small (rules : list Rule) j r :
  len rules < 2 ^ 32 -> rules !! j = Some r ->
  w32 (Z.of_nat j) = Z.of_nat j /\ Z.of_nat j < ordNone.
Proof.
  unfold len. intros Hlen Hj%lookup_lt_Some. split; [apply w32_small; unfold in_u32; lia|].
  unfold ordNone. lia.
Qed.

Lemma routeBest_target `{Unicode} rules dflt e d rips s nw pr f :
  Compile rules dflt = Ok e -> len rules < 2 ^ 32 ->
  RouteConnIPs e d rips s nw pr f = Some (route_spec d rips s nw pr f rules dflt).
Proof.
  intros Hc Hlen. pose proof (Compile_compiled _ _ _ Hc) as C.
  destruct (routeBest_IsMin d rips s nw pr f _ _ _ Hc) as [[Hle Hor] _].
  unfold RouteConnIPs, route_spec. set (best := (routeBest e d rips s nw pr f).1) in *.
  setoid_rewrite found_at_iff in Hle. setoid_rewrite found_at_iff in Hor.
  pose proof (find_first (rule_hits d rips s nw pr f) rules) as Hf.
  destruct (find _ rules) as [r|].
  - destruct Hf as (j & Hj & Hr & Hmin).
    destruct (ord_small _ _ _ Hlen Hj) as [Hw Hlt].
    assert (best <= Z.of_nat j) as Hb.
    { rewrite <-Hw. apply Hle. by exists j, r. }
    destruct Hor as [Ho|(j' & r' & Hj' & Hw' & Hr')]; [lia|].
    destruct (ord_small _ _ _ Hlen Hj') as [Hw2 _].
    assert (j' = j) as -> by (specialize (Hmin _ _ Hj' Hr'); lia).
    destruct (Z.eqb_spec best ordNone); [lia|]. rewrite Hw', Hw, Nat2Z.id.
    apply (ce_targets_new _ _ _ _ C); [simpl; by rewrite length_replicate|done].
  - destruct Hor as [->|(j' & r' & Hj' & _ & Hr')]; [|by rewrite (Hf _ _ Hj') in Hr'].
    rewrite Z.eqb_refl. by rewrite (ce_def _ _ _ _ C).
Qed.

(** ** Which tables compile *)
Section validity.
Context `{Unicode}.

(** A composite rule: a known operator, sub-rules, no dimension of its own, and
    sub-rules without target that are composite or have exactly one dimension. *)
Fixpoint composite_ok (r : Rule) : bool :=
  (bool_decide (Op r = op_and) || bool_decide (Op r = op_or)) &&
  nonempty (Sub r) && (dimCount r =? 0)%nat &&
  forallb (fun x => negb (nonempty (To x)) &&
             (if nonempty (Op x) then composite_ok x else (dimCount x =? 1)%nat)) (Sub r).

Definition rule_valid (r : Rule) : bool :=
  nonempty (To r) &&
  if nonempty (Op r) then composite_ok r
  else (dimCount r =? 1)%nat &&
       forallb (fun c => bool_decide (is_Some (ParsePrefix c))) (IPCIDR r) &&
       forallb net_ok (Network r).

Lemma validateComposite_ok r : is_ok (validateComposite r) = composite_ok r.
Proof.
  induction r as [r IH] using Rule_nested_ind.
  destruct r as [dm sf kw cd po ne pt gi gs pn pp op sub nt to]. cbn [validateComposite composite_ok].
  set (dc := dimCount _). cbn [Op Sub] in *. clearbody dc. rewrite <-negb_orb.
  destruct (bool_decide (op = op_and) || bool_decide (op = op_or)); [|done]. cbn [negb andb].
  destruct (nonempty sub); [|done]. cbn [negb andb].
  destruct (dc =? 0)%nat; [|done]. cbn [negb andb].
  induction IH as [|x sub Hx IHsub IH]; [done|]. cbn [forallb].
  destruct (nonempty (To x)); [done|]. cbn [negb andb].
  destruct (nonempty (Op x)).
  - rewrite <-Hx. destruct (validateComposite x); [exact IH|done].
  - destruct (dimCount x =? 1)%nat; [exact IH|done].
Qed.

Lemma add_cidrs_is_ok i o cs acc :
  is_ok (add_cidrs i o cs acc) = forallb (fun c => bool_decide (is_Some (ParsePrefix c))) cs.
Proof.
  revert acc. induction cs as [|c cs IH]; intros acc; [done|]. cbn [add_cidrs forallb].
  destruct (ParsePrefix c); [by rewrite IH|done].
Qed.

Lemma add_networks_is_ok i o ns acc : is_ok (add_networks i o ns acc) = forallb net_ok ns.
Proof.
  revert acc. induction ns as [|n ns IH]; intros acc; [done|]. cbn [add_networks forallb].
  unfold net_ok at 1. rewrite <-negb_orb.
  by destruct (bool_decide (n = bs "tcp") || bool_decide (n = bs "udp")); [apply IH|].
Qed.

Lemma compile_rule_is_ok e i r : is_ok (compile_rule e i r) = rule_valid r.
Proof.
  unfold compile_rule, rule_valid. destruct (nonempty (To r)); [|done]. cbn [negb andb].
  destruct (nonempty (Op r)).
  - rewrite <-validateComposite_ok. by destruct (validateComposite r).
  - destruct (dimCount r =? 1)%nat; [|done]. cbn [negb andb].
    rewrite <-(add_cidrs_is_ok i (w32 (Z.of_nat i)) (IPCIDR r) (cidr e)).
    rewrite <-(add_networks_is_ok i (w32 (Z.of_nat i)) (Network r) (netw e)).
    destruct (add_cidrs _ _ _ _), (add_networks _ _ _ _); done.
Qed.

Lemma compile_loop_is_ok rules e i : is_ok (compile_loop e i rules) = forallb rule_valid rules.
Proof.
  revert e i. induction rules as [|r rules IH]; intros e i; [done|]. cbn [compile_loop forallb].
  rewrite <-(compile_rule_is_ok e i r). destruct (compile_rule e i r); [apply IH|done].
Qed.
End validity.

(** ** Resolved addresses and process look-ups *)
Section irrelevance.
Context `{Unicode}.

Lemma ip_hit_free d rips r : ruleUsesIP r = false -> ip_hit d rips r = false.
Proof.
  intros Hr. unfold ip_hit. apply not_true_is_false. rewrite existsb_elem. intros (ip & _ & Hh).
  destruct r as [dm sf kw cidrs po ne pt geos gs pn pp op sub nt to]; cbn in *. by destruct cidrs, geos.
Qed.

Lemma holds_ips d rips rips' s nw pr f r :
  ruleUsesIP r = false -> holds d rips s nw pr f r = holds d rips' s nw pr f r.
Proof.
  induction r as [r IH] using Rule_nested_ind. intros Hr. pose proof Hr as Hr'.
  destruct r as [dm sf kw cd po ne pt gi gs pn pp op sub nt to] eqn:Er. rewrite <-Er in Hr'.
  cbn [holds]. rewrite <-Er in *. destruct (is_leaf r) eqn:Hl.
  { unfold sub_leaf_hit. by rewrite !ip_hit_free. }
  assert (Forall (fun x => holds d rips s nw pr f x = holds d rips' s nw pr f x) (Sub r)) as Hsub.
  { rewrite Forall_forall in *. intros x Hx. apply IH; [done|].
    subst r; cbn in *. apply orb_false_iff in Hr as [_ Hr]. by eapply existsb_false_elem. }
  assert (forallb (holds d rips s nw pr f) (Sub r) = forallb (holds d rips' s nw pr f) (Sub r) /\
          existsb (holds d rips s nw pr f) (Sub r) = existsb (holds d rips' s nw pr f) (Sub r)) as [H1 H2].
  { clear -Hsub. induction Hsub as [|x l Hx Hl [IH1 IH2]]; [done|]. cbn. by rewrite Hx, IH1, IH2. }
  subst r. cbn in H1, H2 |- *. by rewrite H1, H2.
Qed.

Lemma rule_hits_ips d rips rips' s nw pr f r :
  ruleUsesIP r = false -> rule_hits d rips s nw pr f r = rule_hits d rips' s nw pr f r.
Proof.
  intros Hr. unfold rule_hits. destruct (is_leaf r); [|by apply holds_ips].
  unfold leaf_hit. by rewrite !ip_hit_free.
Qed.

Lemma route_spec_ext d rips rips' s nw pr f rules dflt :
  existsb ruleUsesIP rules = false ->
  route_spec d rips s nw pr f rules dflt = route_spec d rips' s nw pr f rules dflt.
Proof.
  intros Hr. unfold route_spec.
  assert (find (rule_hits d rips s nw pr f) rules = find (rule_hits d rips' s nw pr f) rules) as ->; [|done].
  induction rules as [|r rules IH]; [done|]. cbn in *. apply orb_false_iff in Hr as [H1 H2].
  rewrite (rule_hits_ips d rips rips') by done. by rewrite IH.
Qed.

(** Rules whose evaluation never asks for the process. *)
Fixpoint proc_free (r : Rule) : bool :=
  negb (nonempty (ProcessName r)) && negb (nonempty (ProcessPath r)) && forallb proc_free (Sub r).

Lemma matchLeaf_proc_free r c : proc_free r = true -> (matchLeaf r c).2 = c.
Proof.
  destruct r as [dm sf kw cd po ne pt gi gs pn pp op sub nt to]; cbn. intros [[H1%negb_true_iff H2%negb_true_iff]%andb_true_iff _]%andb_true_iff.
  unfold matchLeaf. cbn [ProcessName ProcessPath]. rewrite H1, H2. cbn [orb].
  repeat (match goal with |- context [if ?b then _ else _] => destruct b end; try done).
Qed.

Lemma compileEval_proc_free r c : proc_free r = true -> (compileEval r c).2 = c.
Proof.
  revert c. induction r as [r IH] using Rule_nested_ind. intros c Hr. pose proof Hr as Hr'.
  destruct r as [dm sf kw cd po ne pt gi gs pn pp op sub nt to] eqn:Er.
  cbn in Hr. apply andb_true_iff in Hr as [_ Hsub]. cbn [Sub] in IH. cbn [compileEval Op Sub Not].
  rewrite <-Er in *. destruct (nonempty op); cbn [negb]; [|by apply matchLeaf_proc_free].
  assert (Forall (fun g : evalCtx -> bool * evalCtx => forall c, (g c).2 = c) (map compileEval sub)) as HF.
  { rewrite forallb_forall in Hsub. apply Forall_map. rewrite Forall_forall in *.
    intros x Hx c'. apply IH; [done|]. apply Hsub. by apply list_elem_of_In. }
  assert (forall c, (eval_and (map compileEval sub) c).2 = c /\
                    (eval_or (map compileEval sub) c).2 = c) as Hev.
  { clear -HF. induction HF as [|g l Hg Hl IH]; [done|]. intros c. cbn. specialize (Hg c).
    destruct (g c) as [[] c']; cbn in *; subst; split; try done; apply IH. }
  destruct nt, (bool_decide _); try apply Hev; destruct (Hev c) as [H1 H2].
  - by destruct (eval_and _ c).
  - by destruct (eval_or _ c).
Qed.

Lemma logicalMin_proc_free ps best c :
  Forall (fun p : Rule * Z => proc_free p.1 = true) ps ->
  (logicalMin (map (fun p => {| eval := compileEval p.1; e_ord := p.2 |}) ps) best c).2 = c.
Proof.
  intros HF. revert best c. induction HF as [|p ps Hp HF IH]; intros best c; [done|]. cbn.
  destruct (p.2 <? best); [|apply IH]. pose proof (compileEval_proc_free p.1 c Hp) as Hc.
  destruct (compileEval p.1 c) as [b c']; cbn in *. subst c'. apply IH.
Qed.

Lemma routeBest_proc_free rules dflt e d rips s nw pr f :
  Compile rules dflt = Ok e -> forallb proc_free rules = true ->
  (routeBest e d rips s nw pr f).2 = O.
Proof.
  intros Hc Hr. pose proof (Compile_compiled _ _ _ Hc) as C. rewrite forallb_forall in Hr.
  assert (hasProc e = false) as Hp.
  { rewrite (ce_hasProc _ _ _ _ C). cbn. apply not_true_is_false. rewrite existsb_exists.
    intros (r & Hin & Hu). apply Hr in Hin. destruct r as [dm sf kw cd po ne pt gi gs pn pp op sub nt to]; cbn in *. unfold uses_proc in Hu. cbn in Hu.
    apply andb_true_iff in Hin as [[H1%negb_true_iff H2%negb_true_iff]%andb_true_iff _].
    by rewrite H1, H2, andb_false_r in Hu. }
  assert (Forall (fun p : Rule * Z => proc_free p.1 = true) (entries selLogical 0 rules)) as HF.
  { rewrite Forall_forall. intros [r o] (j & r' & Hj & Hs & _)%elem_of_entries. cbn.
    unfold selLogical in Hs. destruct (is_leaf r'); [by apply not_elem_of_nil in Hs|].
    apply list_elem_of_singleton in Hs as ->. apply Hr, list_elem_of_In. by eapply list_elem_of_lookup_2. }
  unfold routeBest. rewrite Hp, (ce_logical _ _ _ _ C). cbn [empty_engine logical app orb].
  set (l := map _ _). assert (forall b c, (logicalMin l b c).2 = c) as Hl.
  { intros. by apply logicalMin_proc_free. }
  destruct (hasLogical e && bool_decide (is_Some f) && AddrPort_IsValid s);
    destruct (hasLogical e); try done; cbn [from_option id];
    match goal with |- context [logicalMin l ?b ?c] =>
      specialize (Hl b c); destruct (logicalMin l b c); cbn in *; by subst end.
Qed.
End irrelevance.

(** ** The properties *)

(** [C1] The compiled engine routes every connection to the target of the first
    rule, in declaration order, that matches it, and to the default outbound when
    none does; it never indexes its target table out of range. Rules are compared
    by the linear reference [route_spec]. The table must have fewer than 2^32
    rules, as ordinals are 32-bit. *)
Theorem RouteConnIPs_first_match `{Unicode} rules dflt e d rips s nw pr f :
  Compile rules dflt = Ok e -> len rules < 2 ^ 32 ->
  RouteConnIPs e d rips s nw pr f = Some (route_spec d rips s nw pr f rules dflt).
Proof. apply routeBest_target. Qed.

(** [Compile] accepts exactly the tables with a default in which every rule
    has a target and is either a well-formed composite or has exactly one
    dimension with parseable prefixes and known networks. *)
Theorem Compile_ok_iff `{Unicode} rules dflt :
  is_ok (Compile rules dflt) = nonempty dflt && forallb rule_valid rules.
Proof.
  unfold Compile. destruct (nonempty dflt); [|done]. apply compile_loop_is_ok.
Qed.

(** When the engine reports no IP rules, the addresses resolved for a domain
    do not influence the decision, so skipping the DNS resolution is sound. *)
Theorem HasIPRules_sound `{Unicode} rules dflt e d rips rips' s nw pr f :
  Compile rules dflt = Ok e -> len rules < 2 ^ 32 -> HasIPRules e = false ->
  RouteConnIPs e d rips s nw pr f = RouteConnIPs e d rips' s nw pr f.
Proof.
  intros Hc Hl Hip. rewrite !(routeBest_target rules dflt) by done. f_equal.
  apply route_spec_ext. unfold HasIPRules in Hip.
  by rewrite (ce_hasIP _ _ _ _ (Compile_compiled _ _ _ Hc)) in Hip.
Qed.

(** One routing decision looks the originating process up at most once,
    whatever mix of top-level and nested process rules the table holds, and never
    when no rule mentions a process. *)
Theorem process_lookups_bounded `{Unicode} rules dflt e d rips s nw pr f :
  Compile rules dflt = Ok e ->
  ((routeBest e d rips s nw pr f).2 <= 1)%nat /\
  (forallb proc_free rules = true -> (routeBest e d rips s nw pr f).2 = O).
Proof.
  intros Hc. split; [by apply (routeBest_IsMin d rips s nw pr f rules dflt e Hc)|].
  by apply (routeBest_proc_free rules dflt).
Qed.

(** Dimensions written the way both matchers read them: protocols in lower case,
    no empty suffix. *)
Definition normal_leaf `{Unicode} (r : Rule) : bool :=
  forallb (fun p => bool_decide (ToLower p = p)) (Protocol r) &&
  forallb (fun x => nonempty (normSuffix x)) (DomainSuffix r).

Definition wrap_and (r : Rule) (to : bytes) : Rule :=
  mkRule [] [] [] [] [] [] [] [] [] [] [] op_and [r] false to.

Lemma map_lower_id `{Unicode} l :
  forallb (fun p => bool_decide (ToLower p = p)) l = true -> map ToLower l = l.
Proof.
  induction l as [|x l IH]; [done|]. cbn. intros [->%bool_decide_eq_true Hl]%andb_true_iff.
  f_equal. by apply IH.
Qed.

(** A one-dimension rule matches the same connections at the top level, where
    it is indexed, as under an [and] composite, where it is evaluated, provided its
    protocols are lower case and its suffixes are not empty. *)
Theorem leaf_under_and_agrees `{Unicode} r to d rips s nw pr f :
  is_leaf r = true -> normal_leaf r = true ->
  rule_hits d rips s nw pr f (wrap_and r to) = rule_hits d rips s nw pr f r.
Proof.
  intros Hl [Hp Hs]%andb_true_iff.
  assert (rule_hits d rips s nw pr f (wrap_and r to) = sub_leaf_hit d rips s nw pr f r) as ->.
  { unfold rule_hits, wrap_and. cbn. destruct r; cbn in *. rewrite Hl. by rewrite andb_true_r. }
  unfold rule_hits. rewrite Hl. unfold sub_leaf_hit, leaf_hit. rewrite map_lower_id by done.
  assert (existsb (fun x => suffix_hit (normDomain (Fqdn d)) (normSuffix x)) (DomainSuffix r) =
    existsb (fun x => nonempty (normSuffix x) && suffix_hit (normDomain (Fqdn d)) (normSuffix x))
      (DomainSuffix r)) as ->; [|done].
  clear -Hs. induction (DomainSuffix r) as [|x l IH]; [done|]. cbn in *.
  apply andb_true_iff in Hs as [Hx Hl]. by rewrite Hx, IH.
Qed.

(** *** Concrete tables *)
Module Examples.
Definition cidr_rule (c to : String.string) : Rule :=
  mkRule [] [] [] [bs c] [] [] [] [] [] [] [] [] [] false (bs to).
Definition suffix_rule (x to : String.string) : Rule :=
  mkRule [] [bs x] [] [] [] [] [] [] [] [] [] [] [] false (bs to).
Definition port_rule (p : Z) (to : String.string) : Rule :=
  mkRule [] [] [] [] [p] [] [] [] [] [] [] [] [] false (bs to).
Definition protocol_rule (x to : String.string) : Rule :=
  mkRule [] [] [] [] [] [] [bs x] [] [] [] [] [] [] false (bs to).
Definition process_rule (x to : String.string) : Rule :=
  mkRule [] [] [] [] [] [] [] [] [] [bs x] [] [] [] false (bs to).

Definition table : list Rule :=
  [suffix_rule ".Example.com" "C"; cidr_rule "10.0.0.0/8" "A"; cidr_rule "10.1.0.0/16" "B";
   process_rule "curl" "P"; wrap_and (port_rule 443 "") (bs "D")].
Definition domain_table : list Rule := [suffix_rule "example.com" "C"; port_rule 80 "D"].

#[local] Existing Instance ascii_only.
Definition engine_of (rules : list Rule) : Engine :=
  match Compile rules (bs "direct") with Ok e => e | Err _ => empty_engine 0 [] end.
Lemma engine_of_ok rules :
  is_ok (Compile rules (bs "direct")) = true -> Compile rules (bs "direct") = Ok (engine_of rules).
Proof. unfold engine_of. by destruct (Compile rules (bs "direct")). Qed.
Definition no_src : AddrPort := {| ap_addr := AddrZero; ap_port := 0 |}.
Definition local_src : AddrPort := {| ap_addr := addr "127.0.0.1"; ap_port := 5000 |}.
Definition curl_finder : ProcessFinder :=
  {| FindProcess := fun _ _ => (bs "curl", bs "/usr/bin/curl", true) |}.
Definition dst_ip : Socksaddr := FromIPPort {| ap_addr := addr "10.1.0.1"; ap_port := 443 |}.
Definition dst_host : Socksaddr := FromFqdn (bs "WWW.example.com.") 443.

Lemma RouteConnIPs_first_match_witness :
  Compile table (bs "direct") = Ok (engine_of table) /\
  RouteConnIPs (engine_of table) dst_ip [] no_src [] [] None = Some (bs "A").
Proof.
  split; [apply engine_of_ok; vm_compute; reflexivity|].
  rewrite (RouteConnIPs_first_match table (bs "direct") (engine_of table));
    [|apply engine_of_ok|]; vm_compute; reflexivity.
Defined.

Lemma HasIPRules_sound_witness :
  RouteConnIPs (engine_of domain_table) dst_host [addr "10.0.0.1"] no_src [] [] None =
  RouteConnIPs (engine_of domain_table) dst_host [] no_src [] [] None.
Proof.
  apply (HasIPRules_sound domain_table (bs "direct") (engine_of domain_table));
    [apply engine_of_ok| |]; vm_compute; reflexivity.
Defined.

Lemma process_lookups_bounded_witness :
  ((routeBest (engine_of table) dst_host [] local_src [] [] (Some curl_finder)).2 <= 1)%nat.
Proof.
  apply (process_lookups_bounded table (bs "direct") (engine_of table)).
  apply engine_of_ok. vm_compute; reflexivity.
Defined.

Lemma leaf_under_and_agrees_witness :
  rule_hits dst_host [] no_src [] (bs "tls") None (wrap_and (protocol_rule "tls" "") (bs "X")) =
  rule_hits dst_host [] no_src [] (bs "tls") None (protocol_rule "tls" "").
Proof. apply leaf_under_and_agrees; vm_compute; reflexivity. Defined.

(** The proviso of [leaf_under_and_agrees] is needed: an upper-case protocol name
    matches as a top-level rule, where the compiler lowers it, and does not match
    under [and], where the strings are compared as written. *)
Theorem protocol_case_divergence :
  RouteConnIPs (engine_of [protocol_rule "TLS" "X"]) dst_host [] no_src [] (bs "tls") None
    = Some (bs "X") /\
  RouteConnIPs (engine_of [wrap_and (protocol_rule "TLS" "") (bs "X")]) dst_host [] no_src []
    (bs "tls") None = Some (bs "direct").
Proof. split; vm_compute; reflexivity. Qed.
End Examples.
