(* ===== verification/MuxFrame.v ===== *)
(** * Package [muxcool], frame layer ([muxcool/frame.go])

    The Mux.cool wire format: frame metadata, the port-then-address block, data
    chunks, and the frame reader and writer. *)
From S2P Require Import Prelude GoStd Netip.
From Stdlib Require Import Init.Byte.

(** ** Constants and data *)

Definition StatusNew : byte := x01.
Definition StatusKeep : byte := x02.
Definition StatusEnd : byte := x03.
Definition StatusKeepAlive : byte := x04.

Definition OptionData : byte := x01.
Definition OptionError : byte := x02.

Definition NetworkTCP : byte := x01.
Definition NetworkUDP : byte := x02.

Definition atypIPv4 : byte := x01.
Definition atypDomain : byte := x02.
Definition atypIPv6 : byte := x03.

Definition maxMetaLen : Z := 512.
Definition StreamChunkSize : nat := Z.to_nat (8 * 1024).

Definition opt_has (o f : byte) : bool := negb (Z.land (b2z o) (b2z f) =? 0).
Definition opt_or (o f : byte) : byte := z2b (Z.lor (b2z o) (b2z f)).

Inductive frameErr :=
| ErrMetaTooLong
| ErrMetaTooShort
| ErrDataTooLong
| ErrDomainTooLong (n : Z)
| ErrBadAtyp (b : byte)
| ErrIO (e : io_err)
| ErrWrite.

#[export] Instance frameErr_eq_dec : EqDecision frameErr.
Proof. solve_decision. Defined.

(** [Address]: a domain, or a [net.IP] of 4 or 16 bytes. *)
Record Address := mkAddress { IsDomain : bool; Domain : bytes; IP : bytes }.

#[export] Instance Address_eq_dec : EqDecision Address.
Proof. solve_decision. Defined.

Definition noAddress : Address := mkAddress false [] [].

(** [net.IP.To4] and [To16]; [None] is a nil slice. *)
Definition v4InV6Prefix : bytes := replicate 10 x00 ++ [xff; xff].

Definition To4 (ip : bytes) : option bytes :=
  if (length ip =? 4)%nat then Some ip
  else if (length ip =? 16)%nat && bool_decide (take 12 ip = v4InV6Prefix)
  then Some (drop 12 ip) else None.

Definition To16 (ip : bytes) : option bytes :=
  if (length ip =? 4)%nat then Some (v4InV6Prefix ++ ip)
  else if (length ip =? 16)%nat then Some ip else None.

(** [AddrFromString]: [net.ParseIP] yields the 16-byte form of an address without
    zone. *)
Definition AddrFromString (s : bytes) : Address :=
  match ParseAddr s with
  | Some a => if hasZone a then mkAddress true s [] else mkAddress false [] (As16 a)
  | None => mkAddress true s []
  end.

Record FrameMetadata := mkMeta {
  SessionID : Z;      (* uint16 *)
  Status : byte;
  Option_ : byte;
  Network : byte;
  Address_ : Address;
  Port : Z;           (* uint16 *)
}.

#[export] Instance FrameMetadata_eq_dec : EqDecision FrameMetadata.
Proof. solve_decision. Defined.

(** ** The address block *)

Definition writeAddrPort (b : bytes) (port : Z) (addr : Address) : res frameErr bytes :=
  let b := b ++ be_enc 2 port in
  if IsDomain addr then
    if 255 <? len (Domain addr) then Err (ErrDomainTooLong (len (Domain addr)))
    else Ok ((b ++ [atypDomain; z2b (len (Domain addr))]) ++ Domain addr)
  else match To4 (IP addr) with
       | Some ip4 => Ok ((b ++ [atypIPv4]) ++ ip4)
       | None => Ok ((b ++ [atypIPv6]) ++ default [] (To16 (IP addr)))
       end.

(** [buf[off]]; only reached below the length. *)
Definition byte_at (buf : bytes) (off : nat) : byte := nth off buf x00.
Definition slice (buf : bytes) (off n : nat) : bytes := take n (drop off buf).

Definition readAddrPort (buf : bytes) (off : nat) : res frameErr (Address * Z * nat) :=
  if (length buf <? off + 3)%nat then Err (ErrIO ErrUnexpectedEOF)
  else
    let port := be_dec (slice buf off 2) in
    let off := (off + 2)%nat in
    let atyp := byte_at buf off in
    let off := (off + 1)%nat in
    if bool_decide (atyp = atypIPv4) then
      if (length buf <? off + 4)%nat then Err (ErrIO ErrUnexpectedEOF)
      else Ok (mkAddress false [] (slice buf off 4), port, (off + 4)%nat)
    else if bool_decide (atyp = atypIPv6) then
      if (length buf <? off + 16)%nat then Err (ErrIO ErrUnexpectedEOF)
      else Ok (mkAddress false [] (slice buf off 16), port, (off + 16)%nat)
    else if bool_decide (atyp = atypDomain) then
      if (length buf <? off + 1)%nat then Err (ErrIO ErrUnexpectedEOF)
      else
        let dlen := Z.to_nat (b2z (byte_at buf off)) in
        let off := (off + 1)%nat in
        if (length buf <? off + dlen)%nat then Err (ErrIO ErrUnexpectedEOF)
        else Ok (mkAddress true (slice buf off dlen) [], port, (off + dlen)%nat)
    else Err (ErrBadAtyp atyp).

(** ** Metadata *)

Definition has_addr (m : FrameMetadata) : bool :=
  bool_decide (Status m = StatusNew) ||
  (bool_decide (Status m = StatusKeep) && bool_decide (Network m = NetworkUDP)).

(** [encodeHeader]: the metadata length is a placeholder that is filled in once
    the metadata is complete; the caller passes an empty [dst]. *)
Definition encodeHeader (dst : bytes) (m : FrameMetadata) (dataLen : Z) : res frameErr bytes :=
  let dst := dst ++ [x00; x00] in
  let dst := dst ++ be_enc 2 (SessionID m) in
  let dst := dst ++ [Status m; Option_ m] in
  dst ← (if has_addr m then writeAddrPort (dst ++ [Network m]) (Port m) (Address_ m) else Ok dst);
  let metaLen := len dst - 2 in
  if maxMetaLen <? metaLen then Err ErrMetaTooLong
  else
    let dst := be_enc 2 metaLen ++ drop 2 dst in
    Ok (if opt_has (Option_ m) OptionData then dst ++ be_enc 2 dataLen else dst).

Definition unmarshalMeta (buf : bytes) : res frameErr FrameMetadata :=
  if (length buf <? 4)%nat then Err ErrMetaTooShort
  else
    let sid := be_dec (slice buf 0 2) in
    let st := byte_at buf 2 in
    let op := byte_at buf 3 in
    let hasAddr :=
      bool_decide (st = StatusNew) ||
      (bool_decide (st = StatusKeep) && (4 <? length buf)%nat &&
       bool_decide (byte_at buf 4 = NetworkUDP)) in
    if hasAddr then
      if (length buf <=? 4)%nat then Err (ErrIO ErrUnexpectedEOF)
      else
        '(addr, port, _) ← readAddrPort buf 5;
        Ok (mkMeta sid st op (byte_at buf 4) addr port)
    else Ok (mkMeta sid st op x00 noAddress 0).

(** ** Writers and the frame writer *)

(** An [io.Writer]: what was written, and the outcome of the coming [Write] calls.
    [None] (or no outcome left) is success; [Some n] writes [n] bytes and fails. *)
Record writer := mkWriter { w_out : bytes; w_script : list (option nat) }.

Definition Write (w : writer) (p : bytes) : res frameErr unit * writer :=
  match w_script w with
  | Some n :: sc => (Err ErrWrite, mkWriter (w_out w ++ take n p) sc)
  | None :: sc => (Ok tt, mkWriter (w_out w ++ p) sc)
  | [] => (Ok tt, mkWriter (w_out w ++ p) [])
  end.

Definition set_option (m : FrameMetadata) (o : byte) : FrameMetadata :=
  mkMeta (SessionID m) (Status m) o (Network m) (Address_ m) (Port m).

(** The metadata [WriteFrame] leaves behind: data sets [OptionData]. *)
Definition with_data_option (m : FrameMetadata) (data : bytes) : FrameMetadata :=
  match data with [] => m | _ => set_option m (opt_or (Option_ m) OptionData) end.

Definition WriteFrame (w : writer) (m : FrameMetadata) (data : bytes) : res frameErr unit * writer :=
  if (StreamChunkSize <? length data)%nat then (Err ErrDataTooLong, w)
  else
    let m := with_data_option m data in
    match encodeHeader [] m (len data) with
    | Err e => (Err e, w)
    | Ok hdr =>
        let '(r, w) := Write w hdr in
        match r with
        | Err e => (Err e, w)
        | Ok _ =>
            if opt_has (Option_ m) OptionData && negb (bool_decide (data = []))
            then Write w data else (Ok tt, w)
        end
    end.

(** [WriteData]: Keep frames of at most 8 KiB. The fuel is the length of the data:
    every turn writes at least one byte of it. *)
Fixpoint WriteData_loop (fuel : nat) (w : writer) (sid : Z) (data : bytes) : res frameErr unit * writer :=
  match data with
  | [] => (Ok tt, w)
  | _ =>
      match fuel with
      | O => (Ok tt, w)
      | S fuel' =>
          let n := Nat.min (length data) StreamChunkSize in
          let m := mkMeta sid StatusKeep OptionData x00 noAddress 0 in
          match WriteFrame w m (take n data) with
          | (Err e, w) => (Err e, w)
          | (Ok _, w) => WriteData_loop fuel' w sid (drop n data)
          end
      end
  end.
Definition WriteData (w : writer) (sid : Z) (data : bytes) : res frameErr unit * writer :=
  WriteData_loop (length data) w sid data.

Definition WriteEnd (w : writer) (sid : Z) (hasError : bool) : res frameErr unit * writer :=
  WriteFrame w (mkMeta sid StatusEnd (if hasError then OptionError else x00) x00 noAddress 0) [].

(** ** The frame reader *)

Definition io {A} (r : res io_err A) : res frameErr A :=
  match r with Ok a => Ok a | Err e => Err (ErrIO e) end.

(** [ReadFrame] on the stream [r]: metadata, data ([[]] for nil) and the rest. *)
Definition ReadFrame (r : bytes) : res frameErr (FrameMetadata * bytes * bytes) :=
  '(lb, r) ← io (ReadFull 2 r);
  let metaLen := be_dec lb in
  if maxMetaLen <? metaLen then Err ErrMetaTooLong
  else if metaLen <? 4 then Err ErrMetaTooShort
  else
    '(metaBuf, r) ← io (ReadFull (Z.to_nat metaLen) r);
    m ← unmarshalMeta metaBuf;
    if opt_has (Option_ m) OptionData then
      '(lb, r) ← io (ReadFull 2 r);
      let dataLen := be_dec lb in
      if Z.of_nat StreamChunkSize <? dataLen then Err ErrDataTooLong
      else if 0 <? dataLen then
        '(data, r) ← io (ReadFull (Z.to_nat dataLen) r);
        Ok (m, data, r)
      else Ok (m, [], r)
    else Ok (m, [], r).

(** Frames up to the end of the stream; the fuel bounds their number, and the
    length of the stream is enough: a frame has at least six bytes. *)
Fixpoint ReadFrames (fuel : nat) (r : bytes) : res frameErr (list (FrameMetadata * bytes)) :=
  match r with
  | [] => Ok []
  | _ =>
      match fuel with
      | O => Err (ErrIO EOF)
      | S fuel' =>
          '(m, data, r) ← ReadFrame r;
          l ← ReadFrames fuel' r;
          Ok ((m, data) :: l)
      end
  end.
