(* ===== verification/MuxFrameSpec.v ===== *)
(** * Mux.cool frames: what is written is what is read

    Round trips of the frame codec of [MuxFrame.v], its size bounds and its error
    paths. *)
From S2P Require Import Prelude GoStd Netip MuxFrame.
From Stdlib Require Import Init.Byte.

(** ** Indexing into concatenations *)

Lemma slice_app pre x post n k :
  length pre = n -> length x = k -> slice (pre ++ x ++ post) n k = x.
Proof. intros <- <-. unfold slice. by rewrite drop_app_length, take_app_length. Qed.

Lemma slice_0_app x post k : length x = k -> slice (x ++ post) 0 k = x.
Proof. intros. by apply (slice_app [] x post). Qed.

Lemma byte_at_app pre c post n : length pre = n -> byte_at (pre ++ c :: post) n = c.
Proof. intros <-. unfold byte_at. by rewrite app_nth2, Nat.sub_diag by lia. Qed.

Lemma u16_be_enc z : in_u16 z -> be_dec (be_enc 2 z) = z.
Proof. intros. by apply be_dec_enc_small. Qed.

Lemma opt_or_has o : opt_has (opt_or o OptionData) OptionData = true.
Proof. by destruct o. Qed.

(** ** Addresses *)

(** The addresses the source builds: a domain the length byte can carry, or an IP
    of 4 or 16 bytes. *)
Definition addr_ok (a : Address) : bool :=
  if IsDomain a then len (Domain a) <=? 255
  else (length (IP a) =? 4)%nat || (length (IP a) =? 16)%nat.

(** What the wire keeps: the bytes of a domain, the shortest form of an IP. *)
Definition canon_addr (a : Address) : Address :=
  if IsDomain a then mkAddress true (Domain a) []
  else mkAddress false [] (default (IP a) (To4 (IP a))).

Definition addr_block (a : Address) : bytes :=
  if IsDomain a then [atypDomain; z2b (len (Domain a))] ++ Domain a
  else match To4 (IP a) with
       | Some ip4 => [atypIPv4] ++ ip4
       | None => [atypIPv6] ++ default [] (To16 (IP a))
       end.

Lemma writeAddrPort_ok b port a :
  addr_ok a = true -> writeAddrPort b port a = Ok (b ++ be_enc 2 port ++ addr_block a).
Proof.
  unfold addr_ok, writeAddrPort, addr_block. destruct (IsDomain a).
  - intros Hl%Z.leb_le. destruct (Z.ltb_spec 255 (len (Domain a))); [lia|].
    by rewrite <-!app_assoc.
  - intros _. destruct (To4 (IP a)); by rewrite <-!app_assoc.
Qed.

Lemma To4_length ip ip4 : To4 ip = Some ip4 -> length ip4 = 4%nat.
Proof.
  unfold To4. destruct (Nat.eqb_spec (length ip) 4); [by intros [= <-]|].
  destruct (Nat.eqb_spec (length ip) 16); [|done]. simpl. case_bool_decide; [|done].
  intros [= <-]. rewrite length_drop. lia.
Qed.

Lemma addr_block_length a : addr_ok a = true -> (length (addr_block a) <= 257)%nat.
Proof.
  unfold addr_ok, addr_block. destruct (IsDomain a).
  - intros Hl%Z.leb_le. unfold len in *. rewrite length_app. simpl. lia.
  - destruct (To4 (IP a)) as [ip4|] eqn:E; intros Hl.
    + apply To4_length in E. rewrite length_app. simpl. lia.
    + unfold To16. destruct (Nat.eqb_spec (length (IP a)) 4); [unfold To4 in E; by rewrite e in E|].
      destruct (Nat.eqb_spec (length (IP a)) 16); [|done]. simpl. lia.
Qed.

Lemma readAddrPort_app pre port a post :
  addr_ok a = true -> in_u16 port ->
  readAddrPort (pre ++ be_enc 2 port ++ addr_block a ++ post) (length pre)
  = Ok (canon_addr a, port, (length pre + 2 + length (addr_block a))%nat).
Proof.
  intros Ha Hp. unfold readAddrPort.
  assert (1 <= length (addr_block a))%nat as Hb1.
  { unfold addr_block. destruct (IsDomain a); [simpl; lia|]. destruct (To4 _); simpl; lia. }
  destruct (Nat.ltb_spec (length (pre ++ be_enc 2 port ++ addr_block a ++ post)) (length pre + 3)) as [Hlt|_].
  { rewrite !length_app, length_be_enc in Hlt. lia. }
  rewrite (slice_app pre (be_enc 2 port) _ (length pre) 2) by (first [apply length_be_enc | reflexivity]).
  rewrite u16_be_enc by done.
  assert (exists c blk, addr_block a = c :: blk) as (c & blk & Hblk)
    by (destruct (addr_block a); [simpl in *; lia|eauto]).
  assert (byte_at (pre ++ be_enc 2 port ++ addr_block a ++ post) (length pre + 2) = c) as ->.
  { rewrite Hblk, app_assoc. apply (byte_at_app (pre ++ be_enc 2 port)).
    by rewrite length_app, length_be_enc. }
  set (P := (pre ++ be_enc 2 port) ++ [c]).
  assert (pre ++ be_enc 2 port ++ addr_block a ++ post = P ++ blk ++ post) as ->
    by (unfold P; rewrite Hblk, <-!app_assoc; done).
  assert (length P = (length pre + 2 + 1)%nat) as HP
    by (unfold P; rewrite !length_app, length_be_enc; done).
  rewrite <-HP. clearbody P. rewrite Hblk.
  unfold addr_ok in Ha. unfold canon_addr, addr_block in *. destruct (IsDomain a).
  - cbn [app] in Hblk. injection Hblk as <- <-.
    do 2 (case_bool_decide; [done|]). case_bool_decide; [|done]. cbn [app].
    apply Z.leb_le in Ha. unfold len in *.
    destruct (Nat.ltb_spec (length (P ++ z2b (Z.of_nat (length (Domain a))) :: Domain a ++ post)) (length P + 1)) as [Hlt|_].
    { rewrite !length_app in Hlt. simpl in Hlt. lia. }
    rewrite byte_at_app, b2z_z2b_small, Nat2Z.id by lia.
    destruct (Nat.ltb_spec (length (P ++ z2b (Z.of_nat (length (Domain a))) :: Domain a ++ post)) (length P + 1 + length (Domain a))) as [Hlt|_].
    { rewrite !length_app in Hlt. simpl in Hlt. rewrite length_app in Hlt. lia. }
    rewrite cons_middle, app_assoc. rewrite slice_app by (rewrite ?length_app; simpl; lia).
    do 2 f_equal; simpl; lia.
  - destruct (To4 (IP a)) as [ip4|] eqn:E.
    + cbn [app] in Hblk. injection Hblk as <- <-. case_bool_decide; [|done].
      pose proof (To4_length _ _ E) as H4.
      destruct (Nat.ltb_spec (length (P ++ ip4 ++ post)) (length P + 4)) as [Hlt|_].
      { rewrite !length_app in Hlt. lia. }
      rewrite slice_app by done. do 2 f_equal; simpl; lia.
    + assert (length (IP a) = 16%nat) as H16.
      { unfold To4 in E. destruct (Nat.eqb_spec (length (IP a)) 4); [done|].
        destruct (Nat.eqb_spec (length (IP a)) 16); done. }
      unfold To16 in Hblk. rewrite H16 in Hblk. cbn in Hblk. injection Hblk as <- <-.
      case_bool_decide; [done|]. case_bool_decide; [|done].
      destruct (Nat.ltb_spec (length (P ++ IP a ++ post)) (length P + 16)) as [Hlt|_].
      { rewrite !length_app in Hlt. lia. }
      rewrite slice_app by done. do 2 f_equal; simpl; lia.
Qed.

(** ** Metadata *)

Definition meta_ok (m : FrameMetadata) : bool :=
  (0 <=? SessionID m) && (SessionID m <? 2 ^ 16) &&
  (if has_addr m then (0 <=? Port m) && (Port m <? 2 ^ 16) && addr_ok (Address_ m) else true).

(** What a reader sees of a frame's metadata: the address block is on the wire
    only for New frames and UDP Keep frames. *)
Definition canon_meta (m : FrameMetadata) : FrameMetadata :=
  if has_addr m
  then mkMeta (SessionID m) (Status m) (Option_ m) (Network m) (canon_addr (Address_ m)) (Port m)
  else mkMeta (SessionID m) (Status m) (Option_ m) x00 noAddress 0.

Definition meta_body (m : FrameMetadata) : bytes :=
  be_enc 2 (SessionID m) ++ [Status m; Option_ m] ++
  (if has_addr m then [Network m] ++ be_enc 2 (Port m) ++ addr_block (Address_ m) else []).

Lemma meta_ok_addr m : meta_ok m = true -> has_addr m = true ->
  in_u16 (Port m) /\ addr_ok (Address_ m) = true.
Proof.
  unfold meta_ok. intros Hm Ha. rewrite Ha in Hm. to_prop. by split.
Qed.

Lemma meta_ok_sid m : meta_ok m = true -> in_u16 (SessionID m).
Proof. unfold meta_ok. intros Hm. to_prop. by split. Qed.

Lemma meta_body_length m : meta_ok m = true ->
  (4 <= length (meta_body m) <= 264)%nat.
Proof.
  intros Hm. unfold meta_body. rewrite !length_app, length_be_enc.
  destruct (has_addr m) eqn:Ha; simpl; [|lia].
  destruct (meta_ok_addr m Hm Ha) as [_ Hok%addr_block_length]. lia.
Qed.

Lemma encodeHeader_ok m n :
  meta_ok m = true ->
  encodeHeader [] m n = Ok (be_enc 2 (len (meta_body m)) ++ meta_body m ++
                             (if opt_has (Option_ m) OptionData then be_enc 2 n else [])).
Proof.
  intros Hm. unfold encodeHeader.
  assert ((if has_addr m then writeAddrPort (((([] ++ [x00; x00]) ++ be_enc 2 (SessionID m)) ++ [Status m; Option_ m]) ++ [Network m]) (Port m) (Address_ m)
           else Ok ((([] ++ [x00; x00]) ++ be_enc 2 (SessionID m)) ++ [Status m; Option_ m]))
     = Ok ([x00; x00] ++ meta_body m)) as ->.
  { unfold meta_body. destruct (has_addr m) eqn:Ha.
    - destruct (meta_ok_addr m Hm Ha) as [_ Hok]. rewrite writeAddrPort_ok by done.
      by rewrite <-!app_assoc.
    - by rewrite app_nil_r, <-!app_assoc. }
  rewrite bind_ok. rewrite len_app. change (len [x00; x00]) with 2.
  replace (2 + len (meta_body m) - 2) with (len (meta_body m)) by lia.
  pose proof (meta_body_length m Hm) as Hl. unfold maxMetaLen.
  destruct (Z.ltb_spec 512 (len (meta_body m))); [unfold len in *; lia|].
  cbn [drop app]. destruct (opt_has (Option_ m) OptionData); by rewrite ?app_nil_r, <-?app_assoc.
Qed.

Lemma unmarshalMeta_cons a b st op rest :
  unmarshalMeta (a :: b :: st :: op :: rest) =
  if bool_decide (st = StatusNew) ||
     (bool_decide (st = StatusKeep) &&
      match rest with n :: _ => bool_decide (n = NetworkUDP) | [] => false end)
  then match rest with
       | [] => Err (ErrIO ErrUnexpectedEOF)
       | n :: _ =>
           '(addr, port, _) ← readAddrPort (a :: b :: st :: op :: rest) 5;
           Ok (mkMeta (be_dec [a; b]) st op n addr port)
       end
  else Ok (mkMeta (be_dec [a; b]) st op x00 noAddress 0).
Proof. unfold unmarshalMeta. destruct rest as [|n rest]; cbn -[be_dec readAddrPort]; by rewrite ?andb_true_r, ?andb_false_r. Qed.

Lemma unmarshalMeta_body m : meta_ok m = true -> unmarshalMeta (meta_body m) = Ok (canon_meta m).
Proof.
  intros Hm. pose proof (u16_be_enc _ (meta_ok_sid m Hm)) as Hsid.
  pose proof (length_be_enc 2 (SessionID m)) as Hlen. unfold meta_body, canon_meta.
  destruct (be_enc 2 (SessionID m)) as [|a [|b [|? ?]]]; try done. cbn [app].
  rewrite unmarshalMeta_cons, Hsid. destruct (has_addr m) eqn:Ha.
  - destruct (meta_ok_addr m Hm Ha) as [Hp Hok]. unfold has_addr in Ha. cbn [app]. rewrite Ha.
    pose proof (readAddrPort_app [a; b; Status m; Option_ m; Network m] (Port m) (Address_ m) [] Hok Hp) as Hr.
    rewrite app_nil_r in Hr. cbn [app length] in Hr. by rewrite Hr, bind_ok.
  - unfold has_addr in Ha. apply orb_false_iff in Ha as [Ha _]. by rewrite Ha, andb_false_r.
Qed.

(** ** Frames *)

Definition frame_bytes (m : FrameMetadata) (data : bytes) : bytes :=
  let m := with_data_option m data in
  be_enc 2 (len (meta_body m)) ++ meta_body m ++
  (if opt_has (Option_ m) OptionData then be_enc 2 (len data) ++ data else []).

Lemma with_data_option_ok m data : meta_ok (with_data_option m data) = meta_ok m.
Proof. by destruct data. Qed.

Lemma has_addr_with_data m data : has_addr (with_data_option m data) = has_addr m.
Proof. by destruct data. Qed.

(** A writer that does not fail receives exactly the frame. *)
Lemma WriteFrame_ok m data out :
  meta_ok m = true -> (length data <= StreamChunkSize)%nat ->
  WriteFrame (mkWriter out []) m data = (Ok tt, mkWriter (out ++ frame_bytes m data) []).
Proof.
  intros Hm Hd. unfold WriteFrame, frame_bytes.
  destruct (Nat.ltb_spec StreamChunkSize (length data)); [lia|].
  rewrite encodeHeader_ok by (by rewrite with_data_option_ok).
  cbn [Write w_script w_out].
  destruct data as [|b data].
  - rewrite andb_false_r. cbn [with_data_option]. destruct (opt_has (Option_ m) OptionData); [|done].
    by rewrite app_nil_r.
  - cbn [with_data_option set_option Option_]. rewrite opt_or_has.
    rewrite bool_decide_false by done. cbn [andb negb Write w_script w_out].
    by rewrite <-!app_assoc.
Qed.

Lemma ReadFrame_frame m data rest :
  meta_ok m = true -> (length data <= StreamChunkSize)%nat ->
  ReadFrame (frame_bytes m data ++ rest) = Ok (canon_meta (with_data_option m data), data, rest).
Proof.
  intros Hm Hd. unfold frame_bytes. set (m' := with_data_option m data).
  assert (meta_ok m' = true) as Hm' by (unfold m'; by rewrite with_data_option_ok).
  pose proof (meta_body_length m' Hm') as Hl. unfold ReadFrame, maxMetaLen.
  rewrite <-!app_assoc, ReadFull_app by apply length_be_enc. cbn [io]. rewrite bind_ok.
  rewrite u16_be_enc by (unfold in_u16, len; lia).
  destruct (Z.ltb_spec 512 (len (meta_body m'))); [unfold len in *; lia|].
  destruct (Z.ltb_spec (len (meta_body m')) 4); [unfold len in *; lia|].
  rewrite ReadFull_app by (unfold len; lia). cbn [io]. rewrite bind_ok, unmarshalMeta_body, bind_ok by done.
  assert (Option_ (canon_meta m') = Option_ m') as -> by (unfold canon_meta; by destruct (has_addr m')).
  destruct (opt_has (Option_ m') OptionData) eqn:Ho.
  - rewrite <-!app_assoc, ReadFull_app by apply length_be_enc. cbn [io]. rewrite bind_ok.
    unfold StreamChunkSize in *. rewrite u16_be_enc by (unfold in_u16, len; lia).
    destruct (Z.ltb_spec (Z.of_nat (Z.to_nat (8 * 1024))) (len data)); [unfold len in *; lia|].
    destruct (Z.ltb_spec 0 (len data)).
    + rewrite ReadFull_app by (unfold len; lia). done.
    + destruct data; [done|]. unfold len in *. simpl in *. lia.
  - destruct data; [done|]. exfalso. revert Ho. unfold m'. cbn [with_data_option set_option Option_].
    by rewrite opt_or_has.
Qed.

(** *** Chunked data *)

Definition keep_meta (sid : Z) : FrameMetadata := mkMeta sid StatusKeep OptionData x00 noAddress 0.

(** The chunks [WriteData] cuts: 8 KiB each, the last one shorter. *)
Fixpoint chunks (fuel : nat) (data : bytes) : list bytes :=
  match data, fuel with
  | [], _ => []
  | _, O => []
  | _, S fuel' =>
      take (Nat.min (length data) StreamChunkSize) data ::
      chunks fuel' (drop (Nat.min (length data) StreamChunkSize) data)
  end.

Lemma chunks_concat fuel data : (length data <= fuel)%nat -> concat (chunks fuel data) = data.
Proof.
  revert data. induction fuel as [|fuel IH]; intros [|b data] Hl; try done; [simpl in Hl; lia|].
  cbn [chunks]. remember (b :: data) as d eqn:Ed. cbn [concat]. rewrite IH, take_drop; [done|].
  rewrite length_drop. subst d. unfold StreamChunkSize. cbn [length] in *. lia.
Qed.

Lemma chunks_bound fuel data :
  Forall (fun c => (0 < length c <= StreamChunkSize)%nat) (chunks fuel data).
Proof.
  revert data. induction fuel as [|fuel IH]; intros [|b data]; try by constructor.
  cbn [chunks]. constructor; [|apply IH].
  rewrite length_take. unfold StreamChunkSize. cbn [length]. lia.
Qed.

Lemma WriteData_loop_ok fuel sid data out :
  in_u16 sid -> (length data <= fuel)%nat ->
  WriteData_loop fuel (mkWriter out []) sid data =
  (Ok tt, mkWriter (out ++ concat (map (frame_bytes (keep_meta sid)) (chunks fuel data))) []).
Proof.
  intros Hs. revert data out. induction fuel as [|fuel IH]; intros [|b data] out Hl;
    cbn [WriteData_loop chunks map concat]; try (by rewrite app_nil_r).
  remember (b :: data) as d eqn:Ed. fold (keep_meta sid).
  rewrite WriteFrame_ok.
  - cbn [concat]. rewrite IH, <-app_assoc; [done|].
    rewrite length_drop. subst d. unfold StreamChunkSize. cbn [length] in *. lia.
  - unfold meta_ok. cbn. destruct Hs. rewrite andb_true_r. apply andb_true_iff. split; [by apply Z.leb_le|by apply Z.ltb_lt].
  - rewrite length_take. lia.
Qed.

Lemma keep_meta_ok sid : in_u16 sid -> meta_ok (keep_meta sid) = true.
Proof.
  intros [H1 H2]. unfold meta_ok. cbn. rewrite andb_true_r. apply andb_true_iff.
  split; [by apply Z.leb_le|by apply Z.ltb_lt].
Qed.

Lemma frame_bytes_nonempty m data : frame_bytes m data <> [].
Proof.
  unfold frame_bytes. intros H%(f_equal length). rewrite length_app, length_be_enc in H. done.
Qed.

Lemma ReadFrames_chunks sid cs fuel :
  in_u16 sid -> Forall (fun c => (0 < length c <= StreamChunkSize)%nat) cs -> (length cs <= fuel)%nat ->
  ReadFrames fuel (concat (map (frame_bytes (keep_meta sid)) cs)) =
  Ok (map (fun c => (keep_meta sid, c)) cs).
Proof.
  intros Hs HF. revert fuel. induction HF as [|c cs Hc HF IH]; intros fuel Hl; [by destruct fuel|].
  destruct fuel as [|fuel]; [simpl in Hl; lia|]. cbn [map concat ReadFrames].
  destruct (frame_bytes (keep_meta sid) c ++ concat (map (frame_bytes (keep_meta sid)) cs)) eqn:E.
  { apply app_eq_nil in E as [E _]. by apply frame_bytes_nonempty in E. }
  rewrite <-E, ReadFrame_frame, bind_ok, IH, bind_ok by (auto using keep_meta_ok; simpl in Hl; lia).
  assert (canon_meta (with_data_option (keep_meta sid) c) = keep_meta sid) as ->; [|done].
  destruct c; [simpl in *; lia|]. done.
Qed.

(** ** Bounds *)

Lemma writeAddrPort_length b port a b' :
  writeAddrPort b port a = Ok b' -> (length b' <= length b + 259)%nat.
Proof.
  unfold writeAddrPort. destruct (IsDomain a).
  - destruct (Z.ltb_spec 255 (len (Domain a))); [done|]. intros [= <-].
    unfold len in *. rewrite !length_app, ?length_be_enc. simpl. lia.
  - destruct (To4 (IP a)) as [ip4|] eqn:E; intros [= <-]; rewrite !length_app, ?length_be_enc.
    + apply To4_length in E. simpl. lia.
    + unfold To16. destruct (Nat.eqb_spec (length (IP a)) 4) as [E4|]; [|destruct (Nat.eqb_spec (length (IP a)) 16)]; simpl; lia.
Qed.

Lemma encodeHeader_never_too_long m n : encodeHeader [] m n <> Err ErrMetaTooLong.
Proof.
  unfold encodeHeader. set (pre := (([] ++ [x00; x00]) ++ be_enc 2 (SessionID m)) ++ [Status m; Option_ m]).
  assert (length pre = 6%nat) as Hp by (unfold pre; by rewrite !length_app, length_be_enc).
  clearbody pre. destruct (has_addr m).
  - destruct (writeAddrPort (pre ++ [Network m]) (Port m) (Address_ m)) as [b|e] eqn:E.
    + apply writeAddrPort_length in E. rewrite bind_ok. rewrite length_app in E. simpl in E.
      unfold maxMetaLen. destruct (Z.ltb_spec 512 (len b - 2)); [unfold len in *; lia|done].
    + cbn. unfold writeAddrPort in E. intros [= ->].
      destruct (IsDomain (Address_ m)); [destruct (255 <? _); done|]. by destruct (To4 _).
  - rewrite bind_ok. unfold maxMetaLen, len. rewrite Hp. done.
Qed.

Lemma io_bind_ok {A} n r (k : bytes * bytes -> res frameErr A) x :
  (io (ReadFull n r) ≫= k) = Ok x -> exists a r', r = a ++ r' /\ length a = n /\ k (a, r') = Ok x.
Proof.
  intros ([a r'] & H1 & H2)%bind_ok_inv. exists a, r'.
  destruct (ReadFull n r) as [p|] eqn:E; [|done]. cbn in H1. simplify_eq.
  apply ReadFull_Ok in E as [-> <-]. done.
Qed.

Lemma ReadFrame_consumes r m data r' :
  ReadFrame r = Ok (m, data, r') ->
  (length data <= StreamChunkSize)%nat /\
  exists c, r = c ++ r' /\ (6 <= length c <= 4 + 512 + length data)%nat.
Proof.
  unfold ReadFrame, maxMetaLen.
  intros (lb & r1 & -> & Hlb & H)%io_bind_ok.
  destruct (Z.ltb_spec 512 (be_dec lb)); [done|]. destruct (Z.ltb_spec (be_dec lb) 4); [done|].
  apply io_bind_ok in H as (mb & r2 & -> & Hmb & H).
  apply bind_ok_inv in H as (m' & Hm & H).
  destruct (opt_has (Option_ m') OptionData).
  - apply io_bind_ok in H as (lb2 & r3 & -> & Hlb2 & H).
    destruct (Z.ltb_spec (Z.of_nat StreamChunkSize) (be_dec lb2)); [done|].
    destruct (Z.ltb_spec 0 (be_dec lb2)).
    + apply io_bind_ok in H as (dt & r4 & -> & Hdt & H). simplify_eq. split; [lia|].
      exists (lb ++ mb ++ lb2 ++ data). rewrite <-!app_assoc. split; [done|].
      rewrite !length_app. lia.
    + simplify_eq. split; [simpl; lia|]. exists (lb ++ mb ++ lb2). rewrite <-!app_assoc.
      split; [done|]. rewrite !length_app. simpl. lia.
  - simplify_eq. split; [simpl; lia|]. exists (lb ++ mb). rewrite <-!app_assoc. split; [done|].
    rewrite !length_app. simpl. lia.
Qed.

Lemma concat_frames_length sid cs :
  (length cs <= length (concat (map (frame_bytes (keep_meta sid)) cs)))%nat.
Proof.
  induction cs as [|c cs IH]; [done|]. cbn. rewrite length_app.
  pose proof (frame_bytes_nonempty (keep_meta sid) c). destruct (frame_bytes _ c); [done|].
  simpl. lia.
Qed.

(** ** The properties *)

(** [C2] A frame written to a working link is read back as the same session,
    status, options, address and data, whatever follows on the link: the address
    comes back in canonical form (4 bytes for a mapped IPv4) and only on frames
    that carry one, and non-empty data sets [OptionData]. *)
Theorem WriteFrame_roundtrip m data out rest :
  meta_ok m = true -> (length data <= StreamChunkSize)%nat ->
  exists fb,
    WriteFrame (mkWriter out []) m data = (Ok tt, mkWriter (out ++ fb) []) /\
    ReadFrame (fb ++ rest) = Ok (canon_meta (with_data_option m data), data, rest).
Proof.
  intros Hm Hd. exists (frame_bytes m data). split; [by apply WriteFrame_ok|by apply ReadFrame_frame].
Qed.

Lemma WriteFrame_roundtrip_witness :
  exists fb,
    WriteFrame (mkWriter [] []) (mkMeta 7 StatusNew x00 NetworkTCP (AddrFromString (bs "example.com")) 443) (bs "GET")
      = (Ok tt, mkWriter ([] ++ fb) []) /\
    ReadFrame (fb ++ []) =
      Ok (mkMeta 7 StatusNew OptionData NetworkTCP (mkAddress true (bs "example.com") []) 443, bs "GET", []).
Proof.
  apply (WriteFrame_roundtrip (mkMeta 7 StatusNew x00 NetworkTCP (AddrFromString (bs "example.com")) 443)
           (bs "GET") [] []); [reflexivity|vm_compute; lia].
Defined.

(** [WriteData] terminates on any payload and cuts it into Keep frames of the
    session, each with 1 to 8192 bytes, that a reader reassembles into exactly the
    payload. *)
Theorem WriteData_roundtrip sid data out :
  in_u16 sid ->
  exists fb cs,
    WriteData (mkWriter out []) sid data = (Ok tt, mkWriter (out ++ fb) []) /\
    ReadFrames (length fb) fb = Ok (map (fun c => (keep_meta sid, c)) cs) /\
    concat cs = data /\ Forall (fun c => (0 < length c <= StreamChunkSize)%nat) cs.
Proof.
  intros Hs. exists (concat (map (frame_bytes (keep_meta sid)) (chunks (length data) data))),
    (chunks (length data) data). split_and!.
  - by apply WriteData_loop_ok.
  - apply ReadFrames_chunks; auto using chunks_bound, concat_frames_length.
  - by apply chunks_concat.
  - apply chunks_bound.
Qed.

Lemma WriteData_roundtrip_witness :
  exists fb cs,
    WriteData (mkWriter [] []) 3 (bs "hello") = (Ok tt, mkWriter ([] ++ fb) []) /\
    ReadFrames (length fb) fb = Ok (map (fun c => (keep_meta 3, c)) cs) /\
    concat cs = bs "hello" /\ Forall (fun c => (0 < length c <= StreamChunkSize)%nat) cs.
Proof. apply (WriteData_roundtrip 3 (bs "hello") []). split; lia. Defined.

(** Errors leave the link untouched where the source promises it: oversized
    data and oversized domains are refused before any byte is written, and the
    metadata limit is never hit by a frame this code builds. *)
Theorem WriteFrame_errors w m data :
  ((StreamChunkSize < length data)%nat -> WriteFrame w m data = (Err ErrDataTooLong, w)) /\
  ((length data <= StreamChunkSize)%nat -> has_addr m = true -> IsDomain (Address_ m) = true ->
    255 < len (Domain (Address_ m)) ->
    WriteFrame w m data = (Err (ErrDomainTooLong (len (Domain (Address_ m)))), w)) /\
  (WriteFrame w m data).1 <> Err ErrMetaTooLong.
Proof.
  unfold WriteFrame. split_and!.
  - intros Hl. destruct (Nat.ltb_spec StreamChunkSize (length data)); [done|lia].
  - intros Hl Ha Hi Hd. destruct (Nat.ltb_spec StreamChunkSize (length data)); [lia|].
    unfold encodeHeader. rewrite has_addr_with_data, Ha. unfold writeAddrPort.
    assert (Address_ (with_data_option m data) = Address_ m) as -> by (by destruct data).
    rewrite Hi. destruct (Z.ltb_spec 255 (len (Domain (Address_ m)))); [done|lia].
  - destruct (Nat.ltb StreamChunkSize (length data)); [done|].
    pose proof (encodeHeader_never_too_long (with_data_option m data) (len data)) as Hn.
    destruct (encodeHeader _ _ _) as [hdr|e]; [|cbn; congruence].
    unfold Write. destruct (w_script w) as [|[n|] sc]; cbn; try done.
    + by destruct (_ && _).
    + destruct (_ && _); [|done]. by destruct sc as [|[?|] ?].
Qed.

(** A frame accepted from the link has at most 8192 bytes of data and consumed
    between 6 and 516 bytes besides it, so a reader never buffers more than one
    bounded frame and always advances. *)
Theorem ReadFrame_bounded r m data r' :
  ReadFrame r = Ok (m, data, r') ->
  (length data <= StreamChunkSize)%nat /\
  exists c, r = c ++ r' /\ (6 <= length c <= 4 + 512 + length data)%nat.
Proof. apply ReadFrame_consumes. Qed.

Lemma ReadFrame_bounded_witness :
  (length (@nil byte) <= StreamChunkSize)%nat /\
  exists c, [x00; x04; x00; x09; x03; x00] = c ++ [] /\
            (6 <= length c <= 4 + 512 + length (@nil byte))%nat.
Proof.
  apply (ReadFrame_bounded [x00; x04; x00; x09; x03; x00] (mkMeta 9 StatusEnd x00 x00 noAddress 0) [] []).
  vm_compute; reflexivity.
Defined.
