(* ===== verification/MuxPipe.v ===== *)
(** * Package [muxcool], the bounded in-memory pipe ([muxcool/pipe.go])

    [bufPipe] decouples the mux read loop from a slow local target. Its operations
    run under one mutex and block on a condition variable: an operation is modelled
    as the run it makes between two waits, and a [Wait] as the outcome [Blocked],
    from which the operation is resumed when the pipe changes. *)
From S2P Require Import Prelude GoStd.

Definition sessionBufLimit : nat := Z.to_nat (64 * 1024).

Inductive pipeErr := ErrClosedPipe | PipeEOF | CloseErr (code : Z).

#[export] Instance pipeErr_eq_dec : EqDecision pipeErr.
Proof. solve_decision. Defined.

Record bufPipe := mkPipe {
  p_buf : bytes;
  p_limit : nat;
  p_closed : bool;
  p_rerr : option pipeErr;
}.

Definition newBufPipe (limit : nat) : bufPipe := mkPipe [] limit false None.

(** The outcome of [Write]: returned with the number of bytes written and an
    error, or blocked with the bytes still to write. *)
Inductive writeOutcome :=
| WReturned (written : nat) (err : option pipeErr)
| WBlocked (written : nat) (rest : bytes).

(** The loop of [Write] on the rest [b], [written] bytes into the call. Each turn
    writes at least one byte, so the length of [b] is enough fuel. *)
Fixpoint Write_loop (fuel : nat) (p : bufPipe) (b : bytes) (written : nat) : bufPipe * writeOutcome :=
  match b with
  | [] => (p, WReturned written None)
  | _ =>
      if (p_limit p <=? length (p_buf p))%nat && negb (p_closed p) then (p, WBlocked written b)
      else if p_closed p then (p, WReturned written (Some ErrClosedPipe))
      else
        match fuel with
        | O => (p, WBlocked written b)
        | S fuel' =>
            let space := (p_limit p - length (p_buf p))%nat in
            let n := Nat.min (length b) space in
            Write_loop fuel' (mkPipe (p_buf p ++ take n b) (p_limit p) (p_closed p) (p_rerr p))
                       (drop n b) (written + n)
        end
  end.
Definition pipeWrite (p : bufPipe) (b : bytes) (written : nat) : bufPipe * writeOutcome :=
  Write_loop (length b) p b written.

(** [Read] with a buffer of [n] bytes; [None] when it waits. *)
Definition pipeRead (p : bufPipe) (n : nat) : bufPipe * option (res pipeErr bytes) :=
  match p_buf p with
  | [] =>
      if p_closed p then
        (p, Some (Err (match p_rerr p with Some e => e | None => PipeEOF end)))
      else (p, None)
  | _ =>
      let data := take n (p_buf p) in
      (mkPipe (if (length data =? length (p_buf p))%nat then [] else drop (length data) (p_buf p))
              (p_limit p) (p_closed p) (p_rerr p),
       Some (Ok data))
  end.

Definition CloseWithError (p : bufPipe) (err : option pipeErr) : bufPipe :=
  if p_closed p then p else mkPipe (p_buf p) (p_limit p) true err.

Definition pipeClose (p : bufPipe) : bufPipe := CloseWithError p None.

(** ** A pipe shared by one writer and one reader

    [s_pending] is the rest of a blocked [Write]; [s_in] and [s_out] are the bytes
    accepted from the writer and handed to the reader so far. *)
Record pipeSys := mkSys {
  s_pipe : bufPipe;
  s_pending : option (nat * bytes);
  s_in : bytes;
  s_out : bytes;
}.

(** How much of [b] a run of [Write] took: what it returned, or what it had written
    when it blocked, less what it had written before. *)
Definition taken (o : writeOutcome) (before : nat) : nat :=
  match o with WReturned n _ => n - before | WBlocked n _ => n - before end.

Definition after_write (s : pipeSys) (b : bytes) (before : nat) : pipeSys :=
  let '(p, o) := pipeWrite (s_pipe s) b before in
  mkSys p (match o with WBlocked n rest => Some (n, rest) | _ => None end)
        (s_in s ++ take (taken o before) b) (s_out s).

Inductive pipe_step : pipeSys -> pipeSys -> Prop :=
| step_write s b :
    s_pending s = None -> pipe_step s (after_write s b 0)
| step_resume s n b :
    s_pending s = Some (n, b) -> pipe_step s (after_write s b n)
| step_read s n p data :
    pipeRead (s_pipe s) n = (p, Some (Ok data)) ->
    pipe_step s (mkSys p (s_pending s) (s_in s) (s_out s ++ data))
| step_close s e :
    pipe_step s (mkSys (CloseWithError (s_pipe s) e) (s_pending s) (s_in s) (s_out s)).

Definition pipe_init (limit : nat) : pipeSys := mkSys (newBufPipe limit) None [] [].

(** ** Lemmas *)

(** A run of [Write] appends the prefix it took, keeps the rest, and stays within
    the limit; it always returns or blocks on a full open pipe. *)
Lemma Write_loop_spec fuel p b k :
  (length b <= fuel)%nat -> (0 < p_limit p)%nat -> (length (p_buf p) <= p_limit p)%nat ->
  let '(p', o) := Write_loop fuel p b k in
  exists n, (n <= length b)%nat /\
    p_buf p' = p_buf p ++ take n b /\ (length (p_buf p') <= p_limit p)%nat /\
    p_limit p' = p_limit p /\ p_closed p' = p_closed p /\ p_rerr p' = p_rerr p /\
    match o with
    | WReturned w None => w = (k + n)%nat /\ n = length b
    | WReturned w (Some e) => w = (k + n)%nat /\ e = ErrClosedPipe /\ p_closed p = true /\ n = O
    | WBlocked w rest => w = (k + n)%nat /\ rest = drop n b /\ rest <> [] /\
                         p_closed p = false /\ length (p_buf p') = p_limit p
    end.
Proof.
  revert p b k. induction fuel as [|fuel IH]; intros p b k Hb Hlim Hp.
  { destruct b; [|simpl in Hb; lia]. exists O. rewrite app_nil_r. simpl. repeat split; try done; lia. }
  destruct b as [|c b']; cbn [Write_loop].
  { exists O. rewrite app_nil_r. simpl. repeat split; try done; lia. }
  set (b := c :: b') in *.
  destruct (Nat.leb_spec (p_limit p) (length (p_buf p))) as [Hfull|Hroom]; cbn [andb].
  - destruct (p_closed p) eqn:Hc; cbn [negb].
    + exists O. rewrite app_nil_r, Hc. repeat split; try done; lia.
    + exists O. rewrite app_nil_r, Hc. repeat split; try done; lia.
  - destruct (p_closed p) eqn:Hc.
    { exists O. rewrite app_nil_r, Hc. repeat split; try done; lia. }
    set (n := Nat.min (length b) (p_limit p - length (p_buf p))).
    assert (0 < length b)%nat as Hb0 by (unfold b; simpl; lia).
    assert (0 < n)%nat as Hn by (unfold n; lia).
    specialize (IH (mkPipe (p_buf p ++ take n b) (p_limit p) false (p_rerr p)) (drop n b) (k + n)%nat).
    cbn [p_buf p_limit p_closed p_rerr] in IH.
    destruct (Write_loop fuel _ (drop n b) (k + n)) as [p' o].
    destruct IH as (m & Hm & Hbuf & Hle & Hl' & Hc' & Hr' & Ho).
    + rewrite length_drop. unfold b in *. simpl in *. lia.
    + done.
    + rewrite length_app, length_take. lia.
    + rewrite length_drop in Hm. exists (n + m)%nat. split; [lia|].
      assert (take (n + m) b = take n b ++ take m (drop n b)) as Htk
        by (by rewrite take_take_drop).
      rewrite <-app_assoc, <-Htk in Hbuf. split_and!; try done.
      destruct o as [w [e|]|w rest].
      * destruct Ho as (_ & _ & ? & _). done.
      * destruct Ho as [-> Hmb]. rewrite length_drop in Hmb. split; lia.
      * destruct Ho as (-> & -> & Hne & ? & ?). rewrite drop_drop in *. split_and!; try done; lia.
Qed.

Lemma pipeRead_spec p n p' data :
  pipeRead p n = (p', Some (Ok data)) ->
  p_buf p = data ++ p_buf p' /\ p_limit p' = p_limit p /\ p_closed p' = p_closed p.
Proof.
  unfold pipeRead. destruct (p_buf p) as [|c b] eqn:E; [by destruct (p_closed p)|].
  rewrite <-E. intros [= <- <-]. cbn. split_and!; try done.
  destruct (Nat.eqb_spec (length (take n (p_buf p))) (length (p_buf p))) as [Hl|Hl].
  - rewrite app_nil_r. rewrite length_take in Hl. by rewrite take_ge by lia.
  - rewrite length_take in *. replace (Nat.min n (length (p_buf p))) with n by lia. by rewrite take_drop.
Qed.

(** The system invariant: no byte is lost, duplicated or reordered, the buffer is
    within the limit, and a blocked writer waits on bytes it has not written. *)
Definition pipe_inv (limit : nat) (s : pipeSys) : Prop :=
  s_in s = s_out s ++ p_buf (s_pipe s) /\
  (length (p_buf (s_pipe s)) <= limit)%nat /\ p_limit (s_pipe s) = limit.

Lemma after_write_inv limit s b k :
  (0 < limit)%nat -> pipe_inv limit s -> pipe_inv limit (after_write s b k).
Proof.
  intros Hl (Hio & Hb & Hlim). unfold after_write, pipeWrite.
  pose proof (Write_loop_spec (length b) (s_pipe s) b k) as Hw. rewrite Hlim in Hw.
  destruct (Write_loop (length b) (s_pipe s) b k) as [p o].
  destruct Hw as (n & Hn & Hbuf & Hle & Hl' & _ & _ & Ho); [lia..|].
  assert (taken o k = n) as Ht.
  { destruct o as [w [e|]|w r]; simpl; lia. }
  unfold pipe_inv. cbn. rewrite Ht. split_and!; try done. by rewrite Hbuf, Hio, <-app_assoc.
Qed.

Lemma pipe_step_inv limit s s' :
  (0 < limit)%nat -> pipe_step s s' -> pipe_inv limit s -> pipe_inv limit s'.
Proof.
  intros Hl Hs Hi. destruct Hs as [s b _|s n b _|s n p data Hr|s e].
  - by apply after_write_inv.
  - by apply after_write_inv.
  - destruct Hi as (Hio & Hb & Hlim). apply pipeRead_spec in Hr as (Hbuf & Hl2 & _).
    rewrite Hbuf, length_app in Hb. unfold pipe_inv. cbn.
    split_and!; [by rewrite Hio, Hbuf, <-app_assoc|lia|congruence].
  - destruct Hi as (Hio & Hb & Hlim). unfold pipe_inv, CloseWithError. cbn. by destruct (p_closed _).
Qed.

Lemma pipe_reachable_inv limit s :
  (0 < limit)%nat -> rtc pipe_step (pipe_init limit) s -> pipe_inv limit s.
Proof.
  intros Hl Hr. assert (pipe_inv limit (pipe_init limit)) as H0
    by (unfold pipe_inv; cbn; split_and!; try done; lia).
  revert H0. induction Hr; [done|]. intros Hi. apply IHHr. by eapply pipe_step_inv.
Qed.

(** ** The properties *)

(** In every execution of writes (blocking and resumed), reads and closes, the
    bytes the reader received followed by the bytes still buffered are exactly the
    bytes accepted from the writer, in order, and the buffer never exceeds its
    limit. *)
Theorem pipe_fifo_bounded limit s :
  (0 < limit)%nat -> rtc pipe_step (pipe_init limit) s ->
  s_in s = s_out s ++ p_buf (s_pipe s) /\ (length (p_buf (s_pipe s)) <= limit)%nat.
Proof. intros Hl Hr. destruct (pipe_reachable_inv limit s Hl Hr) as (? & ? & _). done. Qed.

Lemma pipe_fifo_bounded_witness :
  s_in (after_write (pipe_init 4) (bs "hello") 0) =
    s_out (after_write (pipe_init 4) (bs "hello") 0) ++ bs "hell" /\
  (length (bs "hell") <= 4)%nat.
Proof.
  apply (pipe_fifo_bounded 4 (after_write (pipe_init 4) (bs "hello") 0)); [lia|].
  apply rtc_once. by apply step_write.
Defined.

(** A write either returns having appended all its bytes, or fails on a closed
    pipe having appended none, or waits on a full open pipe with the exact rest; so
    it cannot stop making progress while there is room. *)
Theorem pipeWrite_outcome p b k :
  (0 < p_limit p)%nat -> (length (p_buf p) <= p_limit p)%nat ->
  match pipeWrite p b k with
  | (p', WReturned w None) => p_buf p' = p_buf p ++ b /\ w = (k + length b)%nat
  | (p', WReturned w (Some e)) => p_buf p' = p_buf p /\ w = k /\ e = ErrClosedPipe /\ p_closed p = true
  | (p', WBlocked w rest) =>
      p_closed p = false /\ length (p_buf p') = p_limit p /\ rest <> [] /\
      exists c, b = c ++ rest /\ p_buf p' = p_buf p ++ c /\ w = (k + length c)%nat
  end.
Proof.
  intros Hl Hp. unfold pipeWrite.
  pose proof (Write_loop_spec (length b) p b k ltac:(lia) Hl Hp) as Hw.
  destruct (Write_loop (length b) p b k) as [p' [w [e|]|w rest]];
    destruct Hw as (n & Hn & Hbuf & _ & _ & _ & _ & Ho).
  - destruct Ho as (-> & -> & Hc & ->). rewrite app_nil_r in Hbuf. split_and!; try done; lia.
  - destruct Ho as [-> ->]. rewrite take_ge in Hbuf by lia. done.
  - destruct Ho as (-> & -> & ? & ? & ?). split_and!; try done.
    exists (take n b). rewrite take_drop, length_take. split_and!; try done; lia.
Qed.

Lemma pipeWrite_outcome_witness :
  match pipeWrite (newBufPipe 4) (bs "hello") 0 with
  | (p', WReturned w None) => p_buf p' = [] ++ bs "hello" /\ w = 5%nat
  | (p', WReturned w (Some e)) => p_buf p' = [] /\ w = O /\ e = ErrClosedPipe /\ false = true
  | (p', WBlocked w rest) =>
      false = false /\ length (p_buf p') = 4%nat /\ rest <> [] /\
      exists c, bs "hello" = c ++ rest /\ p_buf p' = [] ++ c /\ w = (0 + length c)%nat
  end.
Proof. apply (pipeWrite_outcome (newBufPipe 4) (bs "hello") 0); simpl; lia. Defined.
