(* ===== verification/MuxServer.v ===== *)
(** * Package [muxcool], the server side of a tunnel ([muxcool/server.go])

    [ServerWorker] reads frames from a link, opens a local connection per New frame
    and relays Keep and End frames. Session objects are shared between the read loop
    and one landing goroutine per session, so they live in a store and the session
    table maps identifiers to them. Every definition is one critical section or one
    uninterrupted run of a goroutine; [server_step] interleaves them. *)
From S2P Require Import Prelude GoStd Netip MuxFrame MuxPipe.
From Stdlib Require Import Init.Byte.

Definition InternalDomain : bytes := bs "reverse".
Definition CarrierFqdn : bytes := bs "v1.mux.cool".
Definition CarrierPort : Z := 9527.
Definition maxServerSessions : nat := 512.
Definition maxUDPPending : nat := 64.

(** A local connection, by the identity the dialer gave it. *)
Abbreviation conn := Z.

Record serverSession := mkSession {
  ss_id : Z;
  ss_control : bool;
  ss_udp : bool;
  ss_conn : option conn;
  ss_finished : bool;
  ss_pending : list bytes;
  ss_inW : option bufPipe;
  ss_once : bool;
}.

(** What the worker does to the outside besides writing to the link. *)
Inductive event :=
| EvControl (payload : bytes)
| EvConnWrite (c : conn) (data : bytes)
| EvConnClose (c : conn).

#[export] Instance event_eq_dec : EqDecision event.
Proof. solve_decision. Defined.

(** Where a landing goroutine ([landTCP], [landUDP]) is. *)
Inductive phase :=
| Dialing
| Flushing (c : conn) (todo : list bytes)
| Pumping (c : conn)
| Landed.

Record land := mkLand {
  l_udp : bool;
  l_addr : Address;
  l_port : Z;
  l_first : bytes;
  l_phase : phase;
}.

(** Session objects are named by allocation order. *)
Record Server := mkServer {
  sv_link : writer;
  sv_linkClosed : bool;
  sv_sessions : gmap Z nat;
  sv_store : gmap nat serverSession;
  sv_next : nat;
  sv_lands : gmap nat land;
  sv_log : list event;
  sv_blocked : option (nat * nat * bytes);   (* the read loop inside inW.Write *)
}.

Definition NewServerWorker (link : writer) : Server :=
  mkServer link false ∅ ∅ 0 ∅ [] None.

(** ** Field updates *)

Definition set_link (w : Server) (l : writer) : Server :=
  mkServer l (sv_linkClosed w) (sv_sessions w) (sv_store w) (sv_next w) (sv_lands w) (sv_log w) (sv_blocked w).
Definition set_table (w : Server) (t : gmap Z nat) : Server :=
  mkServer (sv_link w) (sv_linkClosed w) t (sv_store w) (sv_next w) (sv_lands w) (sv_log w) (sv_blocked w).
Definition set_session (w : Server) (o : nat) (s : serverSession) : Server :=
  mkServer (sv_link w) (sv_linkClosed w) (sv_sessions w) (<[o := s]> (sv_store w)) (sv_next w)
           (sv_lands w) (sv_log w) (sv_blocked w).
Definition set_land (w : Server) (o : nat) (l : land) : Server :=
  mkServer (sv_link w) (sv_linkClosed w) (sv_sessions w) (sv_store w) (sv_next w)
           (<[o := l]> (sv_lands w)) (sv_log w) (sv_blocked w).
Definition set_blocked (w : Server) (b : option (nat * nat * bytes)) : Server :=
  mkServer (sv_link w) (sv_linkClosed w) (sv_sessions w) (sv_store w) (sv_next w) (sv_lands w) (sv_log w) b.
Definition log (w : Server) (e : list event) : Server :=
  mkServer (sv_link w) (sv_linkClosed w) (sv_sessions w) (sv_store w) (sv_next w) (sv_lands w)
           (sv_log w ++ e) (sv_blocked w).
Definition close_link (w : Server) : Server :=
  mkServer (sv_link w) true (sv_sessions w) (sv_store w) (sv_next w) (sv_lands w) (sv_log w) (sv_blocked w).
(** Allocate a session object. *)
Definition alloc (w : Server) (s : serverSession) : nat * Server :=
  (sv_next w, mkServer (sv_link w) (sv_linkClosed w) (sv_sessions w) (<[sv_next w := s]> (sv_store w))
                       (S (sv_next w)) (sv_lands w) (sv_log w) (sv_blocked w)).

Definition with_conn (s : serverSession) (c : conn) (pending : list bytes) : serverSession :=
  mkSession (ss_id s) (ss_control s) (ss_udp s) (Some c) (ss_finished s) pending (ss_inW s) (ss_once s).
Definition with_inW (s : serverSession) (p : bufPipe) : serverSession :=
  mkSession (ss_id s) (ss_control s) (ss_udp s) (ss_conn s) (ss_finished s) (ss_pending s) (Some p) (ss_once s).
Definition with_pending (s : serverSession) (l : list bytes) : serverSession :=
  mkSession (ss_id s) (ss_control s) (ss_udp s) (ss_conn s) (ss_finished s) l (ss_inW s) (ss_once s).

(** ** Session methods *)

(** [setConn] and [activateUDP] on the session object: [None] when it is finished
    already and the connection has to be dropped. *)
Definition setConn (s : serverSession) (c : conn) : option serverSession :=
  if ss_finished s then None else Some (with_conn s c (ss_pending s)).

Definition activateUDP (s : serverSession) (c : conn) : option (list bytes * serverSession) :=
  if ss_finished s then None else Some (ss_pending s, with_conn s c []).

(** [deliverUDP]: write through, keep for later, or drop. *)
Definition deliverUDP (s : serverSession) (data : bytes) : serverSession * list event :=
  if ss_finished s then (s, [])
  else match ss_conn s with
       | Some c => (s, [EvConnWrite c data])
       | None =>
           if (length (ss_pending s) <? maxUDPPending)%nat
           then (with_pending s (ss_pending s ++ [data]), []) else (s, [])
       end.

(** ** Frame writes, under [writeMu] *)

Definition writeData (w : Server) (id : Z) (data : bytes) : res frameErr unit * Server :=
  let '(r, l) := WriteData (sv_link w) id data in (r, set_link w l).

Definition writeEnd (w : Server) (id : Z) (hasErr : bool) : res frameErr unit * Server :=
  let '(r, l) := WriteEnd (sv_link w) id hasErr in (r, set_link w l).

Definition writeUDPData (w : Server) (id : Z) (addr : Address) (port : Z) (data : bytes)
  : res frameErr unit * Server :=
  let m := mkMeta id StatusKeep OptionData NetworkUDP addr port in
  let '(r, l) := WriteFrame (sv_link w) m data in (r, set_link w l).

(** ** The session table *)

Definition addSession (w : Server) (id : Z) (o : nat) : Server := set_table w (<[id := o]> (sv_sessions w)).
Definition getSession (w : Server) (id : Z) : option nat := sv_sessions w !! id.
Definition removeSession (w : Server) (id : Z) : Server := set_table w (delete id (sv_sessions w)).
Definition sessionCount (w : Server) : nat := size (sv_sessions w).

(** [finish]: once per session object. *)
Definition finish (w : Server) (o : nat) (sendEnd : bool) : Server :=
  match sv_store w !! o with
  | None => w
  | Some s =>
      if ss_once s then w
      else
        let s' := mkSession (ss_id s) (ss_control s) (ss_udp s) (ss_conn s) true (ss_pending s)
                            (pipeClose <$> ss_inW s) true in
        let w := set_session w o s' in
        let w := removeSession w (ss_id s) in
        let w := if sendEnd then (writeEnd w (ss_id s) false).2 else w in
        match ss_conn s with Some c => log w [EvConnClose c] | None => w end
  end.

(** [closeAll]: every session in the table, then the link. *)
Definition closeAll (w : Server) : Server :=
  close_link (foldl (fun w p => finish w p.2 false) w (map_to_list (sv_sessions w))).

Definition Close (w : Server) : Server := closeAll w.

(** ** Frame handlers *)

Definition onControl (w : Server) (data : bytes) : Server :=
  match data with [] => w | _ => log w [EvControl data] end.

Definition is_control (m : FrameMetadata) : bool :=
  IsDomain (Address_ m) && bool_decide (Domain (Address_ m) = InternalDomain).

Definition handleNew (w : Server) (m : FrameMetadata) (data : bytes) : Server :=
  let id := SessionID m in
  if is_control m then
    let '(o, w) := alloc w (mkSession id true false None false [] None false) in
    onControl (addSession w id o) data
  else
    match getSession w id with
    | Some _ => (writeEnd w id true).2
    | None =>
        if (maxServerSessions <=? sessionCount w)%nat then (writeEnd w id true).2
        else if bool_decide (Network m = NetworkUDP) then
          let '(o, w) := alloc w (mkSession id false true None false [] None false) in
          set_land (addSession w id o) o (mkLand true (Address_ m) (Port m) data Dialing)
        else
          let bp := (pipeWrite (newBufPipe sessionBufLimit) data 0).1 in
          let '(o, w) := alloc w (mkSession id false false None false [] (Some bp) false) in
          set_land (addSession w id o) o (mkLand false (Address_ m) (Port m) [] Dialing)
    end.

(** The synchronous [s.inW.Write(data)] of the read loop; it may block the loop. *)
Definition write_inW (w : Server) (o : nat) (s : serverSession) (data : bytes) (written : nat) : Server :=
  match ss_inW s with
  | None => set_blocked w None
  | Some p =>
      let '(p, out) := pipeWrite p data written in
      set_blocked (set_session w o (with_inW s p))
        (match out with WBlocked n rest => Some (o, n, rest) | WReturned _ _ => None end)
  end.

Definition handleKeep (w : Server) (m : FrameMetadata) (data : bytes) : Server :=
  match getSession w (SessionID m) with
  | None => (writeEnd w (SessionID m) false).2
  | Some o =>
      match sv_store w !! o with
      | None => w
      | Some s =>
          if ss_control s then onControl w data
          else if ss_udp s then
            match data with
            | [] => w
            | _ => let '(s', ev) := deliverUDP s data in log (set_session w o s') ev
            end
          else match data, ss_inW s with
               | [], _ => w
               | _, None => w
               | _, Some _ => write_inW w o s data 0
               end
      end
  end.

Definition handleEnd (w : Server) (m : FrameMetadata) : Server :=
  match getSession w (SessionID m) with Some o => finish w o false | None => w end.

(** One turn of the read loop of [Run] on a frame that was read. *)
Definition handleFrame (w : Server) (m : FrameMetadata) (data : bytes) : Server :=
  if bool_decide (Status m = StatusNew) then handleNew w m data
  else if bool_decide (Status m = StatusKeep) then handleKeep w m data
  else if bool_decide (Status m = StatusEnd) then handleEnd w m
  else w.

(** ** The landing goroutines *)

Definition set_phase (l : land) (p : phase) : land :=
  mkLand (l_udp l) (l_addr l) (l_port l) (l_first l) p.

(** [DialTarget] failed. *)
Definition land_dial_fail (w : Server) (o : nat) (l : land) : Server :=
  set_land (finish w o true) o (set_phase l Landed).

(** [DialTarget] returned [c]: hand it to the session, or drop it when the session
    was finished meanwhile. *)
Definition land_dial_ok (w : Server) (o : nat) (l : land) (c : conn) : Server :=
  match sv_store w !! o with
  | None => w
  | Some s =>
      if l_udp l then
        match activateUDP s c with
        | None => set_land (log w [EvConnClose c]) o (set_phase l Landed)
        | Some (pending, s') =>
            let todo := match l_first l with [] => pending | f => f :: pending end in
            set_land (set_session w o s') o (set_phase l (Flushing c todo))
        end
      else
        match setConn s c with
        | None => set_land (log w [EvConnClose c]) o (set_phase l Landed)
        | Some s' => set_land (set_session w o s') o (set_phase l (Pumping c))
        end
  end.

(** [landUDP] writes the first datagram and the pending ones, one by one. *)
Definition land_flush (w : Server) (o : nat) (l : land) (c : conn) (todo : list bytes) : Server :=
  match todo with
  | [] => set_land w o (set_phase l (Pumping c))
  | d :: todo' => set_land (log w [EvConnWrite c d]) o (set_phase l (Flushing c todo'))
  end.

(** One turn of the downlink loop: [conn.Read] returned [data] and, if [er], an
    error. *)
Definition land_read (w : Server) (o : nat) (l : land) (data : bytes) (er : bool) : Server :=
  match sv_store w !! o with
  | None => w
  | Some s =>
      let '(r, w) :=
        match data with
        | [] => (Ok tt, w)
        | _ => if l_udp l then writeUDPData w (ss_id s) (l_addr l) (l_port l) data
               else writeData w (ss_id s) data
        end in
      if negb (is_ok r) || er
      then set_land (finish w o true) o (set_phase l Landed) else w
  end.

(** One turn of [io.Copy(conn, s.inW)]. *)
Definition land_copy (w : Server) (o : nat) (c : conn) (n : nat) : Server :=
  match sv_store w !! o with
  | Some s =>
      match ss_inW s with
      | Some p =>
          match pipeRead p n with
          | (p', Some (Ok data)) => log (set_session w o (with_inW s p')) [EvConnWrite c data]
          | _ => w
          end
      | None => w
      end
  | None => w
  end.

(** The interleavings of the read loop, the landing goroutines and shutdown, on links
    whose peer sends only frames that [admits] lets through in the current state. *)
Inductive server_step (admits : Server -> FrameMetadata -> Prop) : Server -> Server -> Prop :=
| st_frame w m data :
    sv_blocked w = None -> sv_linkClosed w = false -> admits w m ->
    server_step admits w (handleFrame w m data)
| st_resume w o n rest s :
    sv_blocked w = Some (o, n, rest) -> sv_store w !! o = Some s ->
    server_step admits w (write_inW w o s rest n)
| st_dial_fail w o l :
    sv_lands w !! o = Some l -> l_phase l = Dialing -> server_step admits w (land_dial_fail w o l)
| st_dial_ok w o l c :
    sv_lands w !! o = Some l -> l_phase l = Dialing -> server_step admits w (land_dial_ok w o l c)
| st_flush w o l c todo :
    sv_lands w !! o = Some l -> l_phase l = Flushing c todo ->
    server_step admits w (land_flush w o l c todo)
| st_read w o l c data er :
    sv_lands w !! o = Some l -> l_phase l = Pumping c -> server_step admits w (land_read w o l data er)
| st_copy w o s c n :
    sv_store w !! o = Some s -> ss_conn s = Some c -> server_step admits w (land_copy w o c n)
| st_close w : server_step admits w (Close w).
