(* ===== verification/MuxServerSpec.v ===== *)
(** * What [muxcool/server.go] guarantees

    The invariant of the session table under every interleaving of the read loop, the
    landing goroutines and shutdown; refusal of New frames; shutdown; and the three
    places where the control sub-stream and the UDP hand-off fall short of what the
    comments say. *)
From S2P Require Import Prelude GoStd Netip MuxFrame MuxFrameSpec MuxPipe MuxServer.
From Stdlib Require Import Init.Byte.

(** ** The invariant *)

Definition live (w : Server) (o : nat) (id : Z) : Prop :=
  exists s, sv_store w !! o = Some s /\ ss_id s = id /\ ss_once s = false.

Definition is_data (store : gmap nat serverSession) (o : nat) : bool :=
  match store !! o with Some s => negb (ss_control s) | None => false end.

(** Table entries that are not control sub-streams. *)
Definition dataSessions (w : Server) : gmap Z nat :=
  filter (fun p => is_data (sv_store w) p.2 = true) (sv_sessions w).

Record inv (w : Server) : Prop := {
  inv_table : forall id o, sv_sessions w !! id = Some o -> live w o id;
  inv_once : forall o s, sv_store w !! o = Some s -> ss_finished s = ss_once s;
  inv_pending : forall o s, sv_store w !! o = Some s -> (length (ss_pending s) <= maxUDPPending)%nat;
  inv_closed : forall o s c, sv_store w !! o = Some s -> ss_once s = true ->
                 ss_conn s = Some c -> EvConnClose c ∈ sv_log w;
  inv_fresh : forall o s, sv_store w !! o = Some s -> (o < sv_next w)%nat;
  inv_count : (size (dataSessions w) <= maxServerSessions)%nat;
}.

(** Every session object not finished yet can be reached from the table. *)
Definition registered (w : Server) : Prop :=
  forall o s, sv_store w !! o = Some s -> ss_once s = false -> sv_sessions w !! ss_id s = Some o.

(** Two states with the same sessions; the second may have logged more. *)
Definition same_sessions (w w' : Server) : Prop :=
  sv_sessions w' = sv_sessions w /\ sv_store w' = sv_store w /\ sv_next w' = sv_next w /\
  sv_log w ⊆ sv_log w'.

#[export] Instance same_sessions_preorder : PreOrder same_sessions.
Proof.
  split.
  - intros w. repeat split; set_solver.
  - intros a b c (?&?&?&?) (?&?&?&?). repeat split; congruence || set_solver.
Qed.

Lemma same_set_link w l : same_sessions w (set_link w l).
Proof. repeat split; set_solver. Qed.
Lemma same_set_land w o l : same_sessions w (set_land w o l).
Proof. repeat split; set_solver. Qed.
Lemma same_set_blocked w b : same_sessions w (set_blocked w b).
Proof. repeat split; set_solver. Qed.
Lemma same_close_link w : same_sessions w (close_link w).
Proof. repeat split; set_solver. Qed.
Lemma same_log w e : same_sessions w (log w e).
Proof. repeat split; cbn; set_solver. Qed.
Lemma same_onControl w d : same_sessions w (onControl w d).
Proof. destruct d; [reflexivity|apply same_log]. Qed.
Lemma same_writeEnd w id e : same_sessions w (writeEnd w id e).2.
Proof. unfold writeEnd. destruct (WriteEnd _ _ _). apply same_set_link. Qed.
Lemma same_writeData w id d : same_sessions w (writeData w id d).2.
Proof. unfold writeData. destruct (WriteData _ _ _). apply same_set_link. Qed.
Lemma same_writeUDPData w id a p d : same_sessions w (writeUDPData w id a p d).2.
Proof. unfold writeUDPData. destruct (WriteFrame _ _ _). apply same_set_link. Qed.

#[export] Hint Resolve same_set_link same_set_land same_set_blocked same_close_link same_log
  same_onControl same_writeEnd same_writeData same_writeUDPData : ntr.

Lemma inv_same w w' : same_sessions w w' -> inv w -> inv w'.
Proof.
  intros (Ht & Hs & Hn & Hl) [H1 H2 H3 H4 H5 H6].
  split; unfold live, dataSessions in *; rewrite ?Ht, ?Hs, ?Hn; eauto.
Qed.

Lemma registered_same w w' : same_sessions w w' -> registered w -> registered w'.
Proof. intros (Ht & Hs & _ & _) H o s. rewrite Ht, Hs. apply H. Qed.

(** ** Preservation by the primitive updates *)

(** [s'] is [s] after an update that keeps its identity and life cycle. *)
Definition session_update (s s' : serverSession) : Prop :=
  ss_id s' = ss_id s /\ ss_control s' = ss_control s /\ ss_once s' = ss_once s /\
  ss_finished s' = ss_finished s /\ (length (ss_pending s') <= maxUDPPending)%nat /\
  (ss_once s = true -> ss_conn s' = ss_conn s).

Lemma is_data_update store o s s' :
  store !! o = Some s -> ss_control s' = ss_control s ->
  forall o', is_data (<[o := s']> store) o' = is_data store o'.
Proof.
  intros Hs Hc o'. unfold is_data. destruct (decide (o = o')) as [->|].
  - rewrite lookup_insert_eq, Hs. by rewrite Hc.
  - by rewrite lookup_insert_ne.
Qed.

Lemma inv_update w o s s' :
  inv w -> sv_store w !! o = Some s -> session_update s s' -> inv (set_session w o s').
Proof.
  intros [H1 H2 H3 H4 H5 H6] Hs (Hid & Hc & Ho & Hf & Hp & Hconn).
  assert (Hd : dataSessions (set_session w o s') = dataSessions w).
  { apply map_filter_ext. intros ? o' _. cbn. by rewrite (is_data_update _ _ s). }
  split; cbn.
  - intros id o' He. destruct (H1 _ _ He) as (s0 & Hs0 & ? & ?). unfold live. cbn.
    destruct (decide (o = o')) as [->|].
    + rewrite lookup_insert_eq. simplify_eq. exists s'. by rewrite Hid, Ho.
    + rewrite lookup_insert_ne by done. eauto.
  - intros o' s0 [[<- <-]|[? ?]]%lookup_insert_Some; [rewrite Hf, Ho|]; eauto.
  - intros o' s0 [[<- <-]|[? ?]]%lookup_insert_Some; eauto.
  - intros o' s0 c [[<- <-]|[? ?]]%lookup_insert_Some Hone Hsome; [|eauto].
    rewrite Ho in Hone. rewrite Hconn in Hsome by done. eauto.
  - intros o' s0 [[<- <-]|[? ?]]%lookup_insert_Some; eauto.
  - unfold dataSessions in Hd. cbn in Hd. unfold dataSessions. cbn. by rewrite Hd.
Qed.

Lemma registered_update w o s s' :
  registered w -> sv_store w !! o = Some s -> session_update s s' ->
  registered (set_session w o s').
Proof.
  intros H Hs (Hid & _ & Ho & _) o' s0. cbn.
  intros [[<- <-]|[? ?]]%lookup_insert_Some Hone; [|eauto]. rewrite Hid. apply H; [done|congruence].
Qed.

(** A session object created in the state a New frame gives it. *)
Definition fresh_session (s : serverSession) : Prop :=
  ss_once s = false /\ ss_finished s = false /\ ss_pending s = [].

Lemma inv_add w s :
  inv w -> fresh_session s ->
  ss_control s = true \/ (sessionCount w < maxServerSessions)%nat ->
  inv (addSession (alloc w s).2 (ss_id s) (alloc w s).1).
Proof.
  intros [H1 H2 H3 H4 H5 H6] (Ho & Hf & Hp) Hcap. cbn.
  set (n := sv_next w).
  assert (Hn : sv_store w !! n = None).
  { destruct (sv_store w !! n) as [s0|] eqn:E; [|done]. apply H5 in E. subst n. lia. }
  assert (Hd : forall o s0, sv_store w !! o = Some s0 ->
            is_data (<[n := s]> (sv_store w)) o = is_data (sv_store w) o).
  { intros o s0 He. unfold is_data. rewrite lookup_insert_ne; [done|congruence]. }
  split; cbn.
  - intros id o [[<- <-]|[? He]]%lookup_insert_Some; unfold live; cbn.
    + rewrite lookup_insert_eq. eauto.
    + destruct (H1 _ _ He) as (s0 & Hs0 & ? & ?). rewrite lookup_insert_ne by congruence. eauto.
  - intros o s0 [[<- <-]|[? ?]]%lookup_insert_Some; [congruence|eauto].
  - intros o s0 [[<- <-]|[? ?]]%lookup_insert_Some; [rewrite Hp; cbn; lia|eauto].
  - intros o s0 c [[<- <-]|[? ?]]%lookup_insert_Some; [congruence|eauto].
  - intros o s0 [[<- <-]|[? E]]%lookup_insert_Some; [lia|]. apply H5 in E. lia.
  - unfold dataSessions. cbn. destruct Hcap as [Hc|Hc].
    + etransitivity; [|exact H6]. apply map_subseteq_size. apply map_subseteq_spec. intros id o.
      unfold dataSessions. rewrite !map_lookup_filter_Some. cbn.
      intros [[[<- <-]|[? He]]%lookup_insert_Some Hdat].
      * unfold is_data in Hdat. rewrite lookup_insert_eq, Hc in Hdat. done.
      * destruct (H1 _ _ He) as (s0 & Hs0 & _). rewrite (Hd _ s0) in Hdat by done. done.
    + etransitivity; [apply map_subseteq_size, map_filter_subseteq|].
      unfold sessionCount in Hc. destruct (sv_sessions w !! ss_id s) eqn:E.
      * rewrite map_size_insert_Some by eauto. lia.
      * rewrite map_size_insert_None by done. lia.
Qed.

Lemma registered_add w s :
  inv w -> registered w -> sv_sessions w !! ss_id s = None ->
  registered (addSession (alloc w s).2 (ss_id s) (alloc w s).1).
Proof.
  intros Hi H Hnew o s0. cbn. intros [[<- <-]|[? E]]%lookup_insert_Some Hone.
  - by rewrite lookup_insert_eq.
  - specialize (H _ _ E Hone). rewrite lookup_insert_ne; [done|congruence].
Qed.

(** [finish] once: the object is marked, its table slot freed, its connection closed. *)
Lemma inv_finish w o e : inv w -> inv (finish w o e).
Proof.
  intros Hi. unfold finish. destruct (sv_store w !! o) as [s|] eqn:Hs; [|done].
  destruct (ss_once s) eqn:Hone; [done|].
  set (s' := mkSession _ _ _ _ _ _ _ _).
  set (w0 := removeSession (set_session w o s') (ss_id s)).
  set (w1 := if e then _ else _).
  assert (Hsame : same_sessions w0 w1)
    by (subst w1; destruct e; [apply same_writeEnd|reflexivity]).
  set (w2 := match ss_conn s with Some _ => _ | None => _ end).
  assert (Hsame2 : same_sessions w0 w2)
    by (subst w2; destruct (ss_conn s); [etransitivity; [exact Hsame|apply same_log]|exact Hsame]).
  assert (Hclosed : forall c, ss_conn s = Some c -> EvConnClose c ∈ sv_log w2)
    by (subst w2; intros c ->; cbn; set_solver).
  clearbody w2. clear w1 Hsame. destruct Hsame2 as (Ht & Hst & Hn & Hl).
  destruct Hi as [H1 H2 H3 H4 H5 H6].
  assert (Hd : dataSessions w2 ⊆ dataSessions w).
  { apply map_subseteq_spec. intros id o'. unfold dataSessions. rewrite Ht, Hst.
    rewrite !map_lookup_filter_Some. cbn. rewrite (is_data_update _ _ s) by done.
    intros [[? ?]%lookup_delete_Some ?]. done. }
  split; rewrite ?Ht, ?Hst, ?Hn; cbn.
  - intros id o' [Hne He]%lookup_delete_Some. destruct (H1 _ _ He) as (s0 & Hs0 & ? & ?).
    unfold live. rewrite Hst. cbn. rewrite lookup_insert_ne by congruence. eauto.
  - intros o' s0 [[<- <-]|[? ?]]%lookup_insert_Some; [done|eauto].
  - intros o' s0 [[<- <-]|[? ?]]%lookup_insert_Some; cbn; eauto.
  - intros o' s0 c [[<- <-]|[? ?]]%lookup_insert_Some; cbn; [eauto|].
    intros. apply Hl. cbn. eauto.
  - intros o' s0 [[<- <-]|[? ?]]%lookup_insert_Some; eauto.
  - apply map_subseteq_size in Hd. lia.
Qed.

(** The store after [finish]: only the object itself changes. *)
Lemma finish_store w o e o' :
  sv_store (finish w o e) !! o' =
  if decide (o = o') then
    (fun s => if ss_once s then s else
       mkSession (ss_id s) (ss_control s) (ss_udp s) (ss_conn s) true (ss_pending s)
                 (pipeClose <$> ss_inW s) true) <$> sv_store w !! o
  else sv_store w !! o'.
Proof.
  unfold finish. destruct (sv_store w !! o) as [s|] eqn:Hs.
  2: { destruct (decide _) as [<-|]; by rewrite ?Hs. }
  destruct (ss_once s) eqn:Hone.
  { destruct (decide _) as [<-|]; rewrite ?Hs; cbn; by rewrite ?Hone. }
  set (w0 := removeSession _ _). set (w1 := if e then _ else _).
  assert (sv_store w1 = sv_store w0) as Hw1 by (subst w1; destruct e; [apply same_writeEnd|done]).
  assert (forall x : option conn, sv_store match x with Some c => log w1 [EvConnClose c] | None => w1 end
            = sv_store w0) as -> by (intros []; done).
  cbn. rewrite Hone. destruct (decide _) as [<-|].
  - by rewrite lookup_insert_eq.
  - by rewrite lookup_insert_ne.
Qed.

Lemma finish_table w o e s :
  sv_store w !! o = Some s ->
  sv_sessions (finish w o e) = if ss_once s then sv_sessions w else delete (ss_id s) (sv_sessions w).
Proof.
  intros Hs. unfold finish. rewrite Hs. destruct (ss_once s); [done|].
  set (w0 := removeSession _ _). set (w1 := if e then _ else _).
  assert (sv_sessions w1 = sv_sessions w0) as Hw1 by (subst w1; destruct e; [apply same_writeEnd|done]).
  by destruct (ss_conn s).
Qed.

Lemma registered_finish w o e : registered w -> registered (finish w o e).
Proof.
  intros H o' s'. rewrite finish_store. destruct (decide (o = o')) as [<-|Hne].
  - destruct (sv_store w !! o) as [s|] eqn:Hs; cbn; [|done].
    destruct (ss_once s) eqn:E; intros [= <-] ?; cbn in *; congruence.
  - intros Hs' Hone. specialize (H _ _ Hs' Hone) as Hreg.
    destruct (sv_store w !! o) as [s|] eqn:Hs.
    2: { unfold finish. by rewrite Hs. }
    rewrite (finish_table _ _ _ s) by done. destruct (ss_once s) eqn:E; [done|].
    rewrite lookup_delete_ne; [done|]. intros Heq. apply Hne.
    specialize (H _ _ Hs E). congruence.
Qed.

(** ** Preservation by the handlers and the goroutines *)

Section Preservation.
(** What the lemmas below preserve: a property of the sessions that the primitive
    updates preserve. *)
Variable P : Server -> Prop.
Hypothesis P_same : forall w w', same_sessions w w' -> P w -> P w'.
Hypothesis P_update : forall w o s s',
  P w -> sv_store w !! o = Some s -> session_update s s' -> P (set_session w o s').
Hypothesis P_finish : forall w o e, P w -> P (finish w o e).
Hypothesis P_pending : forall w o s,
  P w -> sv_store w !! o = Some s -> (length (ss_pending s) <= maxUDPPending)%nat.
Hypothesis P_once : forall w o s, P w -> sv_store w !! o = Some s -> ss_finished s = ss_once s.
Hypothesis P_add : forall w s,
  P w -> fresh_session s -> getSession w (ss_id s) = None ->
  (sessionCount w < maxServerSessions)%nat ->
  P (addSession (alloc w s).2 (ss_id s) (alloc w s).1).
Variable admits : Server -> FrameMetadata -> Prop.
Hypothesis P_control : forall w m s,
  P w -> admits w m -> is_control m = true -> Status m = StatusNew ->
  fresh_session s -> ss_id s = SessionID m -> ss_control s = true ->
  P (addSession (alloc w s).2 (ss_id s) (alloc w s).1).

Ltac by_same := first [eassumption | eapply P_same; [solve [eauto with ntr]|]].

Lemma P_handleNew w m data :
  P w -> admits w m -> Status m = StatusNew -> P (handleNew w m data).
Proof using P_same P_add P_control.
  intros Hw Ha Hst. unfold handleNew. destruct (is_control m) eqn:Hc.
  { eapply P_same; [apply same_onControl|].
    by apply (P_control w m (mkSession (SessionID m) true false None false [] None false)). }
  destruct (getSession w (SessionID m)) eqn:Hg; [by by_same|].
  destruct (Nat.leb_spec maxServerSessions (sessionCount w)); [by by_same|].
  case_bool_decide; (eapply P_same; [apply same_set_land|]).
  - by apply (P_add w (mkSession (SessionID m) false true None false [] None false)).
  - by apply (P_add w (mkSession (SessionID m) false false None false [] (Some _) false)).
Qed.

Lemma P_write_inW w o s data n :
  P w -> sv_store w !! o = Some s -> P (write_inW w o s data n).
Proof using P_same P_update P_pending.
  intros Hw Hs. unfold write_inW. destruct (ss_inW s); [|by by_same].
  destruct (pipeWrite _ _ _). by_same. eapply P_update; [done..|].
  repeat split; cbn; eauto.
Qed.

Lemma deliverUDP_update s data :
  (length (ss_pending s) <= maxUDPPending)%nat -> session_update s (deliverUDP s data).1.
Proof using.
  intros Hp. unfold deliverUDP.
  destruct (ss_finished s); [repeat split; done|].
  destruct (ss_conn s) eqn:Hc; [repeat split; done|].
  destruct (Nat.ltb_spec (length (ss_pending s)) maxUDPPending); repeat split; cbn; try done.
  rewrite length_app. cbn. lia.
Qed.

Lemma P_handleKeep w m data : P w -> P (handleKeep w m data).
Proof using P_same P_update P_pending.
  intros Hw. unfold handleKeep. destruct (getSession _ _) as [o|]; [|by by_same].
  destruct (sv_store w !! o) as [s|] eqn:Hs; [|done].
  destruct (ss_control s); [by by_same|]. destruct (ss_udp s).
  - destruct data as [|b l]; [done|].
    pose proof (deliverUDP_update s (b :: l) (P_pending _ _ _ Hw Hs)) as Hu.
    destruct (deliverUDP _ _). by_same. by eapply P_update.
  - destruct data; [done|]. destruct (ss_inW s) eqn:?; [|done]. by apply P_write_inW.
Qed.

Lemma P_handleFrame w m data : P w -> admits w m -> P (handleFrame w m data).
Proof using All.
  intros Hw Ha. unfold handleFrame, handleEnd.
  repeat case_bool_decide; auto using P_handleNew, P_handleKeep.
  destruct (getSession _ _); auto.
Qed.

Lemma P_dial_ok w o l c : P w -> P (land_dial_ok w o l c).
Proof using P_same P_update P_pending P_once.
  intros Hw. unfold land_dial_ok, activateUDP, setConn.
  destruct (sv_store w !! o) as [s|] eqn:Hs; [|done].
  destruct (l_udp l), (ss_finished s) eqn:Hf;
    try (by_same; by_same; done);
    (by_same; eapply P_update; [done..|]);
    (pose proof (P_once _ _ _ Hw Hs); repeat split; cbn; eauto; try lia; congruence).
Qed.

Lemma P_read w o l data er : P w -> P (land_read w o l data er).
Proof using P_same P_finish.
  intros Hw. unfold land_read. destruct (sv_store w !! o) as [s|] eqn:Hs; [|done].
  set (r := match data with [] => _ | _ => _ end).
  assert (Hsame : same_sessions w r.2).
  { subst r. destruct data; [reflexivity|]. destruct (l_udp l); auto with ntr. }
  destruct r as [r w']. cbn in Hsame. destruct (_ || _); [by_same; apply P_finish|]; eauto.
Qed.

Lemma P_copy w o c n : P w -> P (land_copy w o c n).
Proof using P_same P_update P_pending.
  intros Hw. unfold land_copy. destruct (sv_store w !! o) as [s|] eqn:Hs; [|done].
  destruct (ss_inW s); [|done]. destruct (pipeRead _ _) as [p' [[data|]|]]; [|done..].
  by_same. eapply P_update; [done..|]. repeat split; cbn; eauto.
Qed.

Lemma P_closeAll w : P w -> P (closeAll w).
Proof using P_same P_finish.
  intros Hw. unfold closeAll. by_same.
  generalize (map_to_list (sv_sessions w)). intros l. revert w Hw.
  induction l as [|p l IH]; intros w Hw; cbn; auto.
Qed.

Lemma P_step w w' : server_step admits w w' -> P w -> P w'.
Proof using All.
  intros [] Hw; auto using P_handleFrame, P_write_inW, P_dial_ok, P_read, P_copy, P_closeAll.
  - unfold land_dial_fail. by_same. auto.
  - unfold land_flush. destruct todo; by_same; [done|]. by_same. done.
Qed.

Lemma P_reachable w w' : rtc (server_step admits) w w' -> P w -> P w'.
Proof using All. induction 1; eauto using P_step. Qed.
End Preservation.

Definition any_frame (w : Server) (m : FrameMetadata) : Prop := True.

(** The peer never opens a control sub-stream on an identifier in use. *)
Definition no_eviction (w : Server) (m : FrameMetadata) : Prop :=
  Status m = StatusNew -> is_control m = true -> getSession w (SessionID m) = None.

Lemma inv_init link : inv (NewServerWorker link).
Proof.
  split; cbn; try (intros *; rewrite lookup_empty; done).
  unfold dataSessions. cbn. rewrite map_filter_empty, map_size_empty. lia.
Qed.

Lemma inv_reachable admits link w :
  rtc (server_step admits) (NewServerWorker link) w -> inv w.
Proof.
  intros H. eapply (P_reachable inv); try exact H;
    eauto using inv_same, inv_update, inv_finish, inv_pending, inv_once, inv_add, inv_init.
Qed.

Lemma registered_reachable link w :
  rtc (server_step no_eviction) (NewServerWorker link) w -> inv w /\ registered w.
Proof.
  intros H. eapply (P_reachable (fun w => inv w /\ registered w)); try exact H; cbv beta.
  - intros ? ? ? []. eauto using inv_same, registered_same.
  - intros ? ? ? ? [] ? ?. eauto using inv_update, registered_update.
  - intros ? ? ? []. eauto using inv_finish, registered_finish.
  - intros ? ? ? []. eauto using inv_pending.
  - intros ? ? ? []. eauto using inv_once.
  - intros ? ? [] ? ? ?. split; [apply inv_add|apply registered_add]; auto.
  - intros w0 m s [] Ha Hc Hst Hf Hid Hctl. split; [by apply inv_add; auto|].
    apply registered_add; [done..|]. rewrite Hid. by apply Ha.
  - split; [apply inv_init|]. intros o s. cbn. rewrite lookup_empty. done.
Qed.

(** ** Shutdown *)

Lemma finish_once_mono w o e (o' : nat) (s : serverSession) :
  sv_store w !! o' = Some s -> exists s' : serverSession, sv_store (finish w o e) !! o' = Some s' /\
    (ss_once s = true -> s' = s) /\ (o = o' -> ss_once s' = true).
Proof.
  intros Hs. rewrite finish_store. destruct (decide (o = o')) as [<-|].
  - rewrite Hs. cbn. destruct (ss_once s) eqn:E; eexists; repeat split; eauto; congruence.
  - eexists. repeat split; eauto; congruence.
Qed.

Lemma finish_fold_once (l : list (Z * nat)) : forall w (o : nat) (s : serverSession),
  sv_store w !! o = Some s ->
  exists s' : serverSession, sv_store (foldl (fun w p => finish w p.2 false) w l) !! o = Some s' /\
    (ss_once s = true -> s' = s) /\ (o ∈ l.*2 -> ss_once s' = true).
Proof.
  induction l as [|[id o1] l IH]; intros w o s Hs; cbn.
  { exists s. repeat split; [done..|]. by intros ?%not_elem_of_nil. }
  destruct (finish_once_mono w o1 false o s Hs) as (s1 & Hs1 & Hk1 & Ho1).
  destruct (IH _ _ _ Hs1) as (s2 & Hs2 & Hk2 & Ho2). exists s2. repeat split; [done| |].
  - intros H. rewrite Hk2; [by apply Hk1|]. by rewrite (Hk1 H).
  - intros [->|H]%elem_of_cons; [|by apply Ho2].
    rewrite Hk2; by apply Ho1.
Qed.

Lemma finish_dom w o e o' : sv_store (finish w o e) !! o' = None <-> sv_store w !! o' = None.
Proof.
  rewrite finish_store. destruct (decide _) as [<-|]; [|done].
  destruct (sv_store w !! o); done.
Qed.

Lemma finish_fold_dom (l : list (Z * nat)) : forall w (o : nat),
  sv_store (foldl (fun w p => finish w p.2 false) w l) !! o = None <-> sv_store w !! o = None.
Proof. induction l; intros; cbn; [done|]. by rewrite IHl, finish_dom. Qed.

Lemma closeAll_once w o s :
  registered w -> sv_store (closeAll w) !! o = Some s -> ss_once s = true.
Proof.
  intros Hr Hs. unfold closeAll in Hs. cbn in Hs.
  destruct (sv_store w !! o) as [s0|] eqn:H0.
  2: { apply (finish_fold_dom (map_to_list (sv_sessions w))) in H0. congruence. }
  destruct (finish_fold_once (map_to_list (sv_sessions w)) w o s0 H0) as (s1 & Hs1 & Hk & Ho).
  rewrite Hs1 in Hs. injection Hs as ->.
  destruct (ss_once s0) eqn:E; [by rewrite Hk|]. apply Ho. apply list_elem_of_fmap.
  exists (ss_id s0, o). split; [done|]. apply elem_of_map_to_list. by apply Hr.
Qed.

Lemma handleFrame_end w m data : Status m = StatusEnd -> handleFrame w m data = handleEnd w m.
Proof. unfold handleFrame. by intros ->. Qed.

(** ** End frames on a link that works *)

Definition end_frame (id : Z) (hasErr : bool) : bytes :=
  frame_bytes (mkMeta id StatusEnd (if hasErr then OptionError else x00) x00 noAddress 0) [].

Lemma WriteEnd_ok id e out :
  in_u16 id -> WriteEnd (mkWriter out []) id e = (Ok tt, mkWriter (out ++ end_frame id e) []).
Proof.
  intros [? ?]. unfold WriteEnd. apply WriteFrame_ok; [|cbn; lia].
  unfold meta_ok. cbn. destruct (Z.leb_spec 0 id), (Z.ltb_spec id (2 ^ 16)); done || lia.
Qed.

Lemma ReadFrame_end id e rest :
  in_u16 id ->
  ReadFrame (end_frame id e ++ rest) =
    Ok (mkMeta id StatusEnd (if e then OptionError else x00) x00 noAddress 0, [], rest).
Proof.
  intros [? ?]. unfold end_frame. rewrite ReadFrame_frame; [by destruct e| |cbn; lia].
  unfold meta_ok. cbn. destruct (Z.leb_spec 0 id), (Z.ltb_spec id (2 ^ 16)); done || lia.
Qed.

(** ** The properties *)


(** A New frame for an identifier in use, or beyond 512 sessions, changes no
    session and opens nothing: the only effect is an End frame with the error bit,
    which the peer reads back as such. *)
Theorem handleNew_refuses w m data out :
  is_control m = false -> in_u16 (SessionID m) ->
  is_Some (getSession w (SessionID m)) \/ (512 <= sessionCount w)%nat ->
  sv_link w = mkWriter out [] ->
  exists fb, handleNew w m data = set_link w (mkWriter (out ++ fb) []) /\
    forall rest, ReadFrame (fb ++ rest) =
      Ok (mkMeta (SessionID m) StatusEnd OptionError x00 noAddress 0, [], rest).
Proof.
  intros Hc Hid Hr Hl. exists (end_frame (SessionID m) true). split.
  2: intros rest; by rewrite ReadFrame_end.
  assert (Hw : (writeEnd w (SessionID m) true).2 =
          set_link w (mkWriter (out ++ end_frame (SessionID m) true) [])).
  { unfold writeEnd. by rewrite Hl, WriteEnd_ok. }
  unfold handleNew. rewrite Hc, <-Hw. destruct (getSession w (SessionID m)) eqn:Hg; [done|].
  destruct Hr as [[? ?]|Hr]; [done|].
  destruct (Nat.leb_spec maxServerSessions (sessionCount w)); [done|unfold maxServerSessions in *; lia].
Qed.

(** As long as the peer opens no control sub-stream on an identifier in use,
    shutdown finishes every session ever opened, however its dial, relay or End
    interleaved with it, and closes every connection handed to one. *)
Theorem Close_finishes_all link w :
  rtc (server_step no_eviction) (NewServerWorker link) w ->
  sv_linkClosed (Close w) = true /\
  forall o s, sv_store (Close w) !! o = Some s ->
    ss_finished s = true /\
    forall c, ss_conn s = Some c -> EvConnClose c ∈ sv_log (Close w).
Proof.
  intros [Hi Hr]%registered_reachable. split; [done|]. intros o s Hs.
  assert (inv (Close w)) as [_ H2 _ H4 _ _].
  { apply (P_closeAll inv); eauto using inv_same, inv_finish. }
  pose proof (closeAll_once _ _ _ Hr Hs) as Ho. rewrite (H2 _ _ Hs). eauto.
Qed.

(** ** Concrete executions *)

Module Traces.
Definition link0 : writer := mkWriter [] [].
Definition target : Address := AddrFromString (bs "10.0.0.1").
Definition newTCP (id : Z) : FrameMetadata := mkMeta id StatusNew x00 NetworkTCP target 80.
Definition newUDP (id : Z) : FrameMetadata := mkMeta id StatusNew x00 NetworkUDP target 53.
Definition newControl (id : Z) : FrameMetadata :=
  mkMeta id StatusNew x00 NetworkUDP (AddrFromString InternalDomain) 0.
Definition keep (id : Z) : FrameMetadata := mkMeta id StatusKeep OptionData x00 noAddress 0.
Definition end_ (id : Z) : FrameMetadata := mkMeta id StatusEnd x00 x00 noAddress 0.

(** What can happen to a worker, as a list of choices to replay. *)
Inductive choice :=
| CFrame (m : FrameMetadata) (data : bytes)
| CDial (o : nat) (c : conn)
| CDialFail (o : nat)
| CFlush (o : nat)
| CRead (o : nat) (data : bytes) (er : bool)
| CClose.

Definition replay1 (w : Server) (x : choice) : option Server :=
  match x with
  | CFrame m data =>
      match sv_blocked w, sv_linkClosed w with None, false => Some (handleFrame w m data) | _, _ => None end
  | CDial o c =>
      match sv_lands w !! o with
      | Some l => match l_phase l with Dialing => Some (land_dial_ok w o l c) | _ => None end
      | None => None
      end
  | CDialFail o =>
      match sv_lands w !! o with
      | Some l => match l_phase l with Dialing => Some (land_dial_fail w o l) | _ => None end
      | None => None
      end
  | CFlush o =>
      match sv_lands w !! o with
      | Some l => match l_phase l with Flushing c todo => Some (land_flush w o l c todo) | _ => None end
      | None => None
      end
  | CRead o data er =>
      match sv_lands w !! o with
      | Some l => match l_phase l with Pumping c => Some (land_read w o l data er) | _ => None end
      | None => None
      end
  | CClose => Some (Close w)
  end.

Definition replay (w : Server) (xs : list choice) : option Server :=
  foldl (fun r x => w ← r; replay1 w x) (Some w) xs.

Lemma replay1_step admits w x w' :
  (forall m data, x = CFrame m data -> admits w m) ->
  replay1 w x = Some w' -> server_step admits w w'.
Proof.
  intros Ha. destruct x; cbn [replay1]; intros H; repeat split_match; subst.
  - apply st_frame; eauto.
  - by eapply st_dial_ok.
  - by eapply st_dial_fail.
  - by eapply st_flush.
  - by eapply st_read.
  - injection H as <-. apply st_close.
Qed.

Lemma replay_None xs : foldl (fun r x => w ← r; replay1 w x) None xs = None.
Proof. by induction xs. Qed.

Lemma replay_cons w x xs :
  replay w (x :: xs) = match replay1 w x with Some w1 => replay w1 xs | None => None end.
Proof. unfold replay. cbn. destruct (replay1 w x); [done|apply replay_None]. Qed.

Lemma replay_reachable xs : forall w w',
  replay w xs = Some w' -> rtc (server_step any_frame) w w'.
Proof.
  induction xs as [|x xs IH]; intros w w'.
  { intros [= <-]. constructor. }
  rewrite replay_cons. destruct (replay1 w x) eqn:E; [|done]. intros H%IH.
  eapply rtc_l; [|exact H]. by eapply replay1_step.
Qed.

Lemma replay_app xs ys w w1 : replay w xs = Some w1 -> replay w (xs ++ ys) = replay w1 ys.
Proof. unfold replay. intros H. by rewrite foldl_app, H. Qed.

(** A trace without control frames evicts nothing. *)
Lemma replay_no_eviction xs : forall w w',
  Forall (fun x => match x with CFrame m _ => is_control m = false | _ => True end) xs ->
  replay w xs = Some w' -> rtc (server_step no_eviction) w w'.
Proof.
  induction xs as [|x xs IH]; intros w w' Hx.
  { intros [= <-]. constructor. }
  apply Forall_cons in Hx as [Hx Hxs].
  rewrite replay_cons. destruct (replay1 w x) eqn:E; [|done]. intros H%IH; [|done].
  eapply rtc_l; [|exact H]. eapply replay1_step; [|done].
  intros m data -> _ Hc. congruence.
Qed.

Definition state_of (xs : list choice) : Server := default (NewServerWorker link0) (replay (NewServerWorker link0) xs).

Definition replays (xs : list choice) : bool :=
  match replay (NewServerWorker link0) xs with Some _ => true | None => false end.

Lemma state_of_replay xs : replays xs = true -> replay (NewServerWorker link0) xs = Some (state_of xs).
Proof. unfold replays, state_of. by destruct (replay _ xs). Qed.

Lemma state_of_reachable xs :
  replays xs = true -> rtc (server_step any_frame) (NewServerWorker link0) (state_of xs).
Proof. intros H%state_of_replay. by eapply replay_reachable. Qed.

Definition relayed : list choice :=
  [CFrame (newTCP 1) (bs "hi"); CDial 0 7; CFrame (newUDP 2) (bs "q"); CRead 0 (bs "yo") false; CDialFail 1].


Lemma handleNew_refuses_witness :
  exists fb, handleNew (state_of relayed) (newTCP 1) [] =
    set_link (state_of relayed) (mkWriter (w_out (sv_link (state_of relayed)) ++ fb) []) /\
    forall rest, ReadFrame (fb ++ rest) = Ok (mkMeta 1 StatusEnd OptionError x00 noAddress 0, [], rest).
Proof.
  apply (handleNew_refuses (state_of relayed) (newTCP 1) []).
  - reflexivity.
  - split; cbn; lia.
  - left. exists 0%nat. vm_compute. reflexivity.
  - vm_compute. reflexivity.
Defined.

Lemma Close_finishes_all_witness :
  sv_linkClosed (Close (state_of relayed)) = true /\
  forall o s, sv_store (Close (state_of relayed)) !! o = Some s ->
    ss_finished s = true /\
    forall c, ss_conn s = Some c -> EvConnClose c ∈ sv_log (Close (state_of relayed)).
Proof.
  apply (Close_finishes_all link0). apply (replay_no_eviction relayed).
  - repeat constructor.
  - apply state_of_replay. vm_compute; reflexivity.
Defined.

(** The control sub-stream is exempt from the duplicate check and from the cap.
    A control New on an identifier in use replaces the session in the table, and
    shutdown then no longer reaches the old one: its connection stays open. *)
Theorem control_new_leaks_session :
  exists w s, rtc (server_step any_frame) (NewServerWorker link0) w /\
    sv_linkClosed w = true /\ sv_sessions w = ∅ /\
    sv_store w !! 0%nat = Some s /\ ss_finished s = false /\ ss_conn s = Some 7 /\
    EvConnClose 7 ∉ sv_log w.
Proof.
  set (xs := [CFrame (newTCP 1) []; CDial 0 7; CFrame (newControl 1) []; CClose]).
  exists (state_of xs).
  assert (Hs : is_Some (sv_store (state_of xs) !! 0%nat)).
  { apply (fmap_is_Some (fun s => ss_id s)). exists 1. vm_compute. reflexivity. }
  destruct Hs as [s Hs]. exists s. split_and!.
  - apply state_of_reachable. vm_compute. reflexivity.
  - vm_compute. reflexivity.
  - vm_compute. reflexivity.
  - exact Hs.
  - cut ((fun s => ss_finished s) <$> sv_store (state_of xs) !! 0%nat = Some false).
    { rewrite Hs. cbn. congruence. } vm_compute. reflexivity.
  - cut ((fun s => ss_conn s) <$> sv_store (state_of xs) !! 0%nat = Some (Some 7)).
    { rewrite Hs. cbn. congruence. } vm_compute. reflexivity.
  - replace (sv_log (state_of xs)) with (@nil event) by (vm_compute; reflexivity).
    apply not_elem_of_nil.
Qed.

(** The 512-session cap does not bound the landing goroutines: a peer that
    opens a session and ends it at once leaves its dial running, and after [n] such
    rounds [n] goroutines are dialing while the table is empty. *)
Theorem landings_unbounded n :
  exists w, rtc (server_step any_frame) (NewServerWorker link0) w /\ sessionCount w = 0%nat /\
    (forall o, (o < n)%nat -> exists l, sv_lands w !! o = Some l /\ l_phase l = Dialing).
Proof.
  cut (exists w, rtc (server_step any_frame) (NewServerWorker link0) w /\
    sv_sessions w = ∅ /\ sv_blocked w = None /\ sv_linkClosed w = false /\ sv_next w = n /\
    (forall o, (o < n)%nat -> exists l, sv_lands w !! o = Some l /\ l_phase l = Dialing)).
  { intros (w & ? & Ht & ? & ? & ? & ?). exists w. unfold sessionCount. by rewrite Ht. }
  induction n as [|n (w & Hr & Ht & Hb & Hc & Hn & Hl)].
  { eexists. split; [constructor|]. repeat split. lia. }
  set (w1 := handleFrame w (newUDP 1) []).
  assert (Hw1 : w1 = set_land (addSession (alloc w (mkSession 1 false true None false [] None false)).2 1 n)
            n (mkLand true target 53 [] Dialing)).
  { subst w1. unfold handleFrame, handleNew, getSession, sessionCount. rewrite Ht. cbn. by rewrite Hn. }
  exists (handleFrame w1 (end_ 1) []). split.
  { eapply rtc_r; [eapply rtc_r; [exact Hr|]|]; apply st_frame; rewrite ?Hw1; done. }
  rewrite Hw1. rewrite handleFrame_end by done. unfold handleEnd, getSession. cbn. rewrite lookup_insert_eq.
  unfold finish. cbn. rewrite Hn, lookup_insert_eq. cbn. split_and!; try done.
  - rewrite Ht. apply delete_insert_id, lookup_empty.
  - intros o Ho. destruct (decide (n = o)) as [<-|].
    + rewrite lookup_insert_eq. eauto.
    + rewrite lookup_insert_ne by done. apply Hl. lia.
Qed.

(** Datagrams of a session may be reordered when its dial completes: a datagram
    that arrives after the connection is handed over and before the waiting ones are
    written out overtakes them. *)
Theorem udp_flush_overtaken :
  exists w, rtc (server_step any_frame) (NewServerWorker link0) w /\
    sv_log w = [EvConnWrite 7 (bs "second"); EvConnWrite 7 (bs "first")].
Proof.
  set (xs := [CFrame (newUDP 1) []; CFrame (keep 1) (bs "first"); CDial 0 7;
              CFrame (keep 1) (bs "second"); CFlush 0]).
  exists (state_of xs). split.
  - apply state_of_reachable. vm_compute. reflexivity.
  - vm_compute. reflexivity.
Qed.
End Traces.

(** A UDP target that answers with a datagram of more than 8192 bytes ends its
    session: the datagram is read whole, its frame is refused as too long, and nothing
    of it is relayed. *)
Theorem large_datagram_ends_session w o l s data :
  sv_store w !! o = Some s -> ss_once s = false -> l_udp l = true ->
  8192 < len data ->
  land_read w o l data false = set_land (finish w o true) o (set_phase l Landed).
Proof.
  unfold len. intros Hs Ho Hu Hd. unfold land_read. rewrite Hs, Hu. destruct data as [|b data]; [cbn in Hd; lia|].
  unfold writeUDPData, WriteFrame.
  destruct (Nat.ltb_spec StreamChunkSize (length (b :: data))); [|unfold StreamChunkSize in *; lia].
  cbn [is_ok negb orb]. by destruct w.
Qed.

Lemma large_datagram_ends_session_witness :
  land_read (Traces.state_of [Traces.CFrame (Traces.newUDP 1) []]) 0
    (mkLand true Traces.target 53 [] (Pumping 7)) (replicate (Z.to_nat 9000) x00) false =
  set_land (finish (Traces.state_of [Traces.CFrame (Traces.newUDP 1) []]) 0 true) 0
    (mkLand true Traces.target 53 [] Landed).
Proof.
  apply (large_datagram_ends_session _ 0 (mkLand true Traces.target 53 [] (Pumping 7))
           (mkSession 1 false true None false [] None false)).
  - vm_compute. reflexivity.
  - reflexivity.
  - reflexivity.
  - unfold len. rewrite length_replicate. lia.
Defined.
