(* ===== verification/MuxClient.v ===== *)
(** * Package [muxcool], the client side of a tunnel ([muxcool/client.go], [muxcool/udp.go])

    [ClientWorker] opens sub-streams over a link and demultiplexes the returning
    frames; [muxPacketConn] maps datagrams to one sub-stream per target. Session
    objects are shared between the worker's table, the connection handed to the
    caller and the packet connections' own tables, so they live in a store, as do the
    packet connections. A definition is a run of one goroutine; [client_step]
    interleaves them. *)
From S2P Require Import Prelude GoStd Netip MuxFrame MuxPipe MuxServer.
From Stdlib Require Import Init.Byte.

(** ** Pieces of the standard library *)

(** [net.SplitHostPort]. *)
Definition SplitHostPort (s : bytes) : option (bytes * bytes) :=
  match LastIndexByte s x3a with
  | None => None
  | Some i =>
      match s with
      | x5b :: _ =>
          match IndexByte s x5d with
          | None => None
          | Some e =>
              if negb (e + 1 =? i)%nat then None
              else if existsb (Byte.eqb x5b) (drop 1 s) then None
              else if existsb (Byte.eqb x5d) (drop (e + 1) s) then None
              else Some (drop 1 (take e s), drop (i + 1) s)
          end
      | _ =>
          let host := take i s in
          if existsb (Byte.eqb x3a) host then None
          else if existsb (Byte.eqb x5b) s || existsb (Byte.eqb x5d) s then None
          else Some (host, drop (i + 1) s)
      end
  end.

(** The value [strconv.Atoi] returns, its error dropped: 0 for a syntax error, the
    nearest [int] when out of range. *)
Definition digits (s : bytes) : option Z :=
  match s with
  | [] => None
  | _ => foldl (fun a c => match a with
                           | Some v => if (48 <=? b2z c) && (b2z c <=? 57)
                                       then Some (v * 10 + (b2z c - 48)) else None
                           | None => None
                           end) (Some 0) s
  end.
Definition Atoi (s : bytes) : Z :=
  match s with
  | x2d :: r => match digits r with Some v => Z.max (- 2 ^ 63) (- v) | None => 0 end
  | x2b :: r => match digits r with Some v => Z.min (2 ^ 63 - 1) v | None => 0 end
  | _ => match digits s with Some v => Z.min (2 ^ 63 - 1) v | None => 0 end
  end.

(** A [net.Addr]: what the type switch on [*net.UDPAddr] and [String] show of it. *)
Record netAddr := mkNetAddr { na_udp : option (bytes * Z); na_string : bytes }.

Definition netAddrToMux (a : netAddr) : Address * Z :=
  match na_udp a with
  | Some (ip, port) => (mkAddress false [] ip, w16 port)
  | None =>
      match SplitHostPort (na_string a) with
      | None => (mkAddress true (na_string a) [], 0)
      | Some (host, port) => (AddrFromString host, w16 (Atoi port))
      end
  end.

(** ** State *)

Record clientSession := mkCSession {
  cs_id : Z;
  cs_udp : bool;
  cs_inW : option bufPipe;
  cs_sink : option nat;          (* the packet connection whose queue it feeds *)
  cs_target : netAddr;
  cs_closed : bool;
  cs_once : bool;
}.

Definition noTarget : netAddr := mkNetAddr None [].

Record packetConn := mkPacketConn {
  pc_recv : list (netAddr * bytes);
  pc_sessions : gmap bytes nat;
  pc_closed : bool;
}.

Definition recvCap : nat := 512.

Record ClientWorker := mkClient {
  cw_link : writer;
  cw_linkClosed : bool;
  cw_nextID : Z;
  cw_total : Z;
  cw_draining : bool;
  cw_sessions : gmap Z nat;
  cw_done : bool;
  cw_store : gmap nat clientSession;
  cw_next : nat;
  cw_pconns : gmap nat packetConn;
  cw_conns : gset nat;           (* sessions whose clientConn a caller holds *)
}.

Definition NewClientWorker (link : writer) : ClientWorker :=
  mkClient link false 0 0 false ∅ false ∅ 0 ∅ ∅.

Definition cset_link (w : ClientWorker) (l : writer) : ClientWorker :=
  mkClient l (cw_linkClosed w) (cw_nextID w) (cw_total w) (cw_draining w) (cw_sessions w)
           (cw_done w) (cw_store w) (cw_next w) (cw_pconns w) (cw_conns w).
Definition cset_ids (w : ClientWorker) (id total : Z) (draining : bool) : ClientWorker :=
  mkClient (cw_link w) (cw_linkClosed w) id total draining (cw_sessions w)
           (cw_done w) (cw_store w) (cw_next w) (cw_pconns w) (cw_conns w).
Definition cset_table (w : ClientWorker) (t : gmap Z nat) : ClientWorker :=
  mkClient (cw_link w) (cw_linkClosed w) (cw_nextID w) (cw_total w) (cw_draining w) t
           (cw_done w) (cw_store w) (cw_next w) (cw_pconns w) (cw_conns w).
Definition cset_session (w : ClientWorker) (o : nat) (s : clientSession) : ClientWorker :=
  mkClient (cw_link w) (cw_linkClosed w) (cw_nextID w) (cw_total w) (cw_draining w) (cw_sessions w)
           (cw_done w) (<[o := s]> (cw_store w)) (cw_next w) (cw_pconns w) (cw_conns w).
Definition cset_pconn (w : ClientWorker) (c : nat) (p : packetConn) : ClientWorker :=
  mkClient (cw_link w) (cw_linkClosed w) (cw_nextID w) (cw_total w) (cw_draining w) (cw_sessions w)
           (cw_done w) (cw_store w) (cw_next w) (<[c := p]> (cw_pconns w)) (cw_conns w).
Definition cset_done (w : ClientWorker) : ClientWorker :=
  mkClient (cw_link w) (cw_linkClosed w) (cw_nextID w) (cw_total w) (cw_draining w) (cw_sessions w)
           true (cw_store w) (cw_next w) (cw_pconns w) (cw_conns w).
Definition cclose_link (w : ClientWorker) : ClientWorker :=
  mkClient (cw_link w) true (cw_nextID w) (cw_total w) (cw_draining w) (cw_sessions w)
           (cw_done w) (cw_store w) (cw_next w) (cw_pconns w) (cw_conns w).
Definition cset_handle (w : ClientWorker) (o : nat) : ClientWorker :=
  mkClient (cw_link w) (cw_linkClosed w) (cw_nextID w) (cw_total w) (cw_draining w) (cw_sessions w)
           (cw_done w) (cw_store w) (cw_next w) (cw_pconns w) ({[o]} ∪ cw_conns w).
(** Allocate an object: sessions and packet connections share one supply of names. *)
Definition calloc (w : ClientWorker) (s : clientSession) : nat * ClientWorker :=
  (cw_next w,
   mkClient (cw_link w) (cw_linkClosed w) (cw_nextID w) (cw_total w) (cw_draining w) (cw_sessions w)
            (cw_done w) (<[cw_next w := s]> (cw_store w)) (S (cw_next w)) (cw_pconns w) (cw_conns w)).

Definition cs_with_inW (s : clientSession) (p : bufPipe) : clientSession :=
  mkCSession (cs_id s) (cs_udp s) (Some p) (cs_sink s) (cs_target s) (cs_closed s) (cs_once s).

(** ** The worker *)

Definition IsActive (w : ClientWorker) : bool :=
  if cw_done w then false else negb (cw_draining w).

Definition cwriteFrame (w : ClientWorker) (m : FrameMetadata) (data : bytes)
  : res frameErr unit * ClientWorker :=
  let '(r, l) := WriteFrame (cw_link w) m data in (r, cset_link w l).
Definition cwriteData (w : ClientWorker) (id : Z) (data : bytes) : res frameErr unit * ClientWorker :=
  let '(r, l) := WriteData (cw_link w) id data in (r, cset_link w l).
Definition cwriteEnd (w : ClientWorker) (id : Z) (hasErr : bool) : res frameErr unit * ClientWorker :=
  let '(r, l) := WriteEnd (cw_link w) id hasErr in (r, cset_link w l).

(** The search loop of [allocID]; [None] when the fuel runs out. A full turn of the
    16-bit counter is 65536 steps, so that much fuel finds a free identifier when
    there is one; the code loops forever when there is none. *)
Fixpoint allocID_loop (fuel : nat) (table : gmap Z nat) (nextID : Z) : option Z :=
  match fuel with
  | O => None
  | S fuel' =>
      let nextID := w16 (nextID + 1) in
      if nextID =? 0 then allocID_loop fuel' table nextID
      else match table !! nextID with
           | None => Some nextID
           | Some _ => allocID_loop fuel' table nextID
           end
  end.
Definition idSpace : nat := Z.to_nat (2 ^ 16).

Definition allocID (w : ClientWorker) : option (Z * ClientWorker) :=
  let total := w64 (cw_total w + 1) in
  let draining := if 256 <? total then true else cw_draining w in
  match allocID_loop idSpace (cw_sessions w) (cw_nextID w) with
  | Some id => Some (id, cset_ids w id total draining)
  | None => None
  end.

Definition caddSession (w : ClientWorker) (id : Z) (o : nat) : ClientWorker :=
  cset_table w (<[id := o]> (cw_sessions w)).
Definition cgetSession (w : ClientWorker) (id : Z) : option nat := cw_sessions w !! id.
Definition cremoveSession (w : ClientWorker) (id : Z) : ClientWorker :=
  cset_table w (delete id (cw_sessions w)).

Definition cfinish (w : ClientWorker) (o : nat) : ClientWorker :=
  match cw_store w !! o with
  | None => w
  | Some s =>
      if cs_once s then w
      else cremoveSession
             (cset_session w o (mkCSession (cs_id s) (cs_udp s) (pipeClose <$> cs_inW s) (cs_sink s)
                                           (cs_target s) true true))
             (cs_id s)
  end.

Definition ccloseAll (w : ClientWorker) : ClientWorker :=
  cclose_link (foldl (fun w p => cfinish w p.2) (cset_done w) (map_to_list (cw_sessions w))).

Definition cClose (w : ClientWorker) : ClientWorker := ccloseAll w.

(** A datagram offered to a packet connection's queue; dropped when it is full. *)
Definition offer (p : packetConn) (pkt : netAddr * bytes) : packetConn :=
  if (length (pc_recv p) <? recvCap)%nat
  then mkPacketConn (pc_recv p ++ [pkt]) (pc_sessions p) (pc_closed p) else p.

(** One turn of the read loop of [Run] on a frame that was read. A TCP write that
    would block is resumed by [cst_resume] in the step relation: [Some (o, n, rest)]. *)
Definition runFrame (w : ClientWorker) (m : FrameMetadata) (data : bytes)
  : ClientWorker * option (nat * nat * bytes) :=
  if bool_decide (Status m = StatusKeep) then
    match cgetSession w (SessionID m) with
    | None => ((cwriteEnd w (SessionID m) false).2, None)
    | Some o =>
        match data, cw_store w !! o with
        | [], _ | _, None => (w, None)
        | _, Some s =>
            if cs_udp s then
              match cs_sink s with
              | Some c =>
                  match cw_pconns w !! c with
                  | Some p => (cset_pconn w c (offer p (cs_target s, data)), None)
                  | None => (w, None)
                  end
              | None => (w, None)
              end
            else match cs_inW s with
                 | None => (w, None)
                 | Some p =>
                     let '(p, out) := pipeWrite p data 0 in
                     (cset_session w o (cs_with_inW s p),
                      match out with WBlocked n rest => Some (o, n, rest) | WReturned _ _ => None end)
                 end
        end
    end
  else if bool_decide (Status m = StatusEnd) then
    match cgetSession w (SessionID m) with
    | Some o => (cfinish w o, None)
    | None => (w, None)
    end
  else (w, None).

(** [OpenStream]: the session object of the stream, or the error; [None] when no
    identifier is free. *)
Definition OpenStream (w : ClientWorker) (network : byte) (addr : Address) (port : Z)
  : option (res frameErr nat * ClientWorker) :=
  match allocID w with
  | None => None
  | Some (id, w) =>
      let '(o, w) := calloc w (mkCSession id false (Some (newBufPipe sessionBufLimit)) None noTarget false false) in
      let w := caddSession w id o in
      match cwriteFrame w (mkMeta id StatusNew x00 network addr port) [] with
      | (Err e, w) =>
          let w := cremoveSession w id in
          Some (Err e, match cw_store w !! o with
                       | Some s => match cs_inW s with
                                   | Some p => cset_session w o (cs_with_inW s (pipeClose p))
                                   | None => w
                                   end
                       | None => w
                       end)
      | (Ok _, w) => Some (Ok o, cset_handle w o)
      end
  end.

(** [clientConn]: its methods, on the session object it holds. *)
Definition connRead (w : ClientWorker) (o : nat) (n : nat)
  : ClientWorker * option (res pipeErr bytes) :=
  match cw_store w !! o with
  | Some s =>
      match cs_inW s with
      | Some p => let '(p, r) := pipeRead p n in (cset_session w o (cs_with_inW s p), r)
      | None => (w, None)
      end
  | None => (w, None)
  end.

Definition connWrite (w : ClientWorker) (id : Z) (data : bytes) : res frameErr Z * ClientWorker :=
  match cwriteData w id data with
  | (Err e, w) => (Err e, w)
  | (Ok _, w) => (Ok (len data), w)
  end.

Definition connClose (w : ClientWorker) (id : Z) (o : nat) : ClientWorker :=
  cfinish (cwriteEnd w id false).2 o.

(** ** The control sub-stream *)

Definition ctlAddr : Address := mkAddress true InternalDomain [].

(** [controlBytes], given the random length byte and the random padding. *)
Definition controlBytes (drain : bool) (lb : byte) (r : bytes) : bytes :=
  let n := b2z lb mod 64 + 1 in
  (if drain then [x08; x01] else []) ++ [x9a; x06; z2b n] ++ take (Z.to_nat n) r.

Definition sendHeartbeat (w : ClientWorker) (id : Z) (addr : Address) (lb : byte) (r : bytes)
  : res frameErr unit * ClientWorker :=
  let m := mkMeta id StatusKeep x00 NetworkUDP addr 0 in
  if cw_draining w then cwriteFrame w m (controlBytes true lb r)
  else cwriteFrame w m (controlBytes false lb r).

(** The part of [StartControl] before its ticker goroutine: the control identifier. *)
Definition StartControl (w : ClientWorker) : option (res frameErr Z * ClientWorker) :=
  match allocID w with
  | None => None
  | Some (id, w) =>
      match cwriteFrame w (mkMeta id StatusNew x00 NetworkUDP ctlAddr 0) [] with
      | (Err e, w) => Some (Err e, w)
      | (Ok _, w) => Some (Ok id, w)
      end
  end.

(** ** Packet connections *)

Definition NewPacketConn (w : ClientWorker) : nat * ClientWorker :=
  (cw_next w,
   mkClient (cw_link w) (cw_linkClosed w) (cw_nextID w) (cw_total w) (cw_draining w) (cw_sessions w)
            (cw_done w) (cw_store w) (S (cw_next w))
            (<[cw_next w := mkPacketConn [] ∅ false]> (cw_pconns w)) (cw_conns w)).

(** The locked part of [WriteTo]: the session for the target, and whether it is new. *)
Definition targetSession (w : ClientWorker) (c : nat) (p : packetConn) (addr : netAddr)
  : option (nat * bool * ClientWorker) :=
  match pc_sessions p !! na_string addr with
  | Some o => Some (o, false, w)
  | None =>
      match allocID w with
      | None => None
      | Some (id, w) =>
          let '(o, w) := calloc w (mkCSession id true None (Some c) addr false false) in
          let w := caddSession w id o in
          Some (o, true, cset_pconn w c (mkPacketConn (pc_recv p) (<[na_string addr := o]> (pc_sessions p))
                                                       (pc_closed p)))
      end
  end.

Definition WriteTo (w : ClientWorker) (c : nat) (data : bytes) (addr : netAddr)
  : option (res frameErr Z * ClientWorker) :=
  match cw_pconns w !! c with
  | None => None
  | Some p =>
      let '(a, port) := netAddrToMux addr in
      match targetSession w c p addr with
      | None => None
      | Some (o, newSession, w) =>
          match cw_store w !! o with
          | None => None
          | Some s =>
              let '(r, w) :=
                if newSession then cwriteFrame w (mkMeta (cs_id s) StatusNew x00 NetworkUDP a port) []
                else (Ok tt, w) in
              match r with
              | Err e => Some (Err e, w)
              | Ok _ =>
                  match cwriteFrame w (mkMeta (cs_id s) StatusKeep OptionData NetworkUDP a port) data with
                  | (Err e, w) => Some (Err e, w)
                  | (Ok _, w) => Some (Ok (len data), w)
                  end
              end
          end
      end
  end.

(** [ReadFrom] when a datagram is waiting: [copy] keeps the first [n] bytes. *)
Definition ReadFrom (p : packetConn) (n : nat) : option (bytes * netAddr * packetConn) :=
  match pc_recv p with
  | [] => None
  | (src, data) :: q => Some (take n data, src, mkPacketConn q (pc_sessions p) (pc_closed p))
  end.

Definition pcClose (w : ClientWorker) (c : nat) : ClientWorker :=
  match cw_pconns w !! c with
  | None => w
  | Some p =>
      if pc_closed p then w
      else
        foldl (fun w kv =>
                 match cw_store w !! kv.2 with
                 | Some s => cfinish (cwriteEnd w (cs_id s) false).2 kv.2
                 | None => w
                 end)
              (cset_pconn w c (mkPacketConn (pc_recv p) ∅ true)) (map_to_list (pc_sessions p))
  end.

(** ** Interleavings *)

Inductive client_step : ClientWorker -> ClientWorker -> Prop :=
| cst_frame w m data : client_step w (runFrame w m data).1
| cst_resume w o s p n rest :
    cw_store w !! o = Some s -> cs_inW s = Some p ->
    client_step w (cset_session w o (cs_with_inW s (pipeWrite p rest n).1))
| cst_open w network addr port r w' :
    OpenStream w network addr port = Some (r, w') -> client_step w w'
| cst_read w o n : o ∈ cw_conns w -> client_step w (connRead w o n).1
| cst_write w o s data :
    o ∈ cw_conns w -> cw_store w !! o = Some s -> client_step w (connWrite w (cs_id s) data).2
| cst_conn_close w o s :
    o ∈ cw_conns w -> cw_store w !! o = Some s -> client_step w (connClose w (cs_id s) o)
| cst_control w r w' : StartControl w = Some (r, w') -> client_step w w'
| cst_heartbeat w id lb r : client_step w (sendHeartbeat w id ctlAddr lb r).2
| cst_packet_conn w : client_step w (NewPacketConn w).2
| cst_write_to w c data addr r w' : WriteTo w c data addr = Some (r, w') -> client_step w w'
| cst_read_from w c p n data src p' :
    cw_pconns w !! c = Some p -> ReadFrom p n = Some (data, src, p') ->
    client_step w (cset_pconn w c p')
| cst_packet_close w c : client_step w (pcClose w c)
| cst_close w : client_step w (cClose w).
