(* ===== verification/MuxClientSpec.v ===== *)
(** * What [muxcool/client.go] and [muxcool/udp.go] guarantee

    Identifier allocation, the invariant of the client's session table under every
    interleaving, shutdown, an end-to-end theorem joining the client to the server of
    [MuxServer], and two findings on stale identifiers. *)
From S2P Require Import Prelude GoStd Netip MuxFrame MuxFrameSpec MuxPipe MuxServer MuxServerSpec MuxClient.
From Stdlib Require Import Init.Byte.

(** ** Identifier allocation *)

(** Step [k] of the search cannot stop: the counter is zero or the identifier taken. *)
Definition busy (t : gmap Z nat) (id : Z) : Prop := id = 0 \/ is_Some (t !! id).

#[export] Instance busy_dec t id : Decision (busy t id).
Proof. unfold busy. apply _. Defined.

Lemma allocID_loop_spec fuel t : forall n,
  0 <= n < 2 ^ 16 ->
  match allocID_loop fuel t n with
  | Some id => exists k, 1 <= k <= Z.of_nat fuel /\ id = w16 (n + k) /\ ~ busy t id /\
                 forall j, 1 <= j < k -> busy t (w16 (n + j))
  | None => forall j, 1 <= j <= Z.of_nat fuel -> busy t (w16 (n + j))
  end.
Proof.
  induction fuel as [|fuel IH]; intros n Hn; [cbn; intros; lia|].
  assert (Hnext : allocID_loop (S fuel) t n =
            if decide (busy t (w16 (n + 1))) then allocID_loop fuel t (w16 (n + 1))
            else Some (w16 (n + 1))).
  { cbn [allocID_loop]. destruct (decide (busy _ _)) as [[->|[o ->]]|Hb]; cbn; [done|by destruct (_ =? 0)|].
    destruct (Z.eqb_spec (w16 (n + 1)) 0) as [E|E]; [by destruct Hb; left|].
    destruct (t !! w16 (n + 1)) eqn:F; [destruct Hb; right; by rewrite F|done]. }
  rewrite Hnext. clear Hnext. destruct (decide _) as [Hb|Hb].
  2: { exists 1. repeat split; try lia; done. }
  assert (Hs : forall j, w16 (w16 (n + 1) + j) = w16 (n + (1 + j))).
  { intros j. unfold w16. rewrite Zplus_mod_idemp_l. f_equal. lia. }
  specialize (IH (w16 (n + 1)) (w16_range _)). destruct (allocID_loop fuel t _) as [id|].
  - destruct IH as (k & Hk & -> & Hid & Hj). exists (1 + k). rewrite <-Hs.
    repeat split; try lia; [done|]. intros j Hj'. destruct (decide (j = 1)) as [->|]; [done|].
    replace j with (1 + (j - 1)) by lia. rewrite <-Hs. apply Hj. lia.
  - intros j Hj'. destruct (decide (j = 1)) as [->|]; [done|].
    replace j with (1 + (j - 1)) by lia. rewrite <-Hs. apply IH. lia.
Qed.

Lemma allocID_loop_total t n free :
  0 <= n < 2 ^ 16 -> 0 <= free < 2 ^ 16 -> ~ busy t free ->
  is_Some (allocID_loop idSpace t n).
Proof.
  intros Hn Hf Hb. pose proof (allocID_loop_spec idSpace t n Hn) as H.
  destruct (allocID_loop idSpace t n) as [id|]; [eauto|]. exfalso. apply Hb.
  assert (exists j, 1 <= j <= 2 ^ 16 /\ w16 (n + j) = free) as (j & Hj & <-).
  { destruct (decide (n < free)).
    - exists (free - n). split; [lia|]. unfold w16. rewrite Z.mod_small; lia.
    - exists (free - n + 2 ^ 16). split; [lia|]. unfold w16.
      replace (n + (free - n + 2 ^ 16)) with (free + 1 * 2 ^ 16) by lia.
      rewrite Z_mod_plus_full, Z.mod_small; lia. }
  apply H. unfold idSpace. lia.
Qed.

(** While an identifier is free, [allocID] returns, and returns the first free
    non-zero identifier after the last one given out, in cyclic order; it changes
    nothing else but the counters, and from the 257th allocation on the tunnel takes no
    new streams. *)
Theorem allocID_first_free w free :
  0 <= cw_nextID w < 2 ^ 16 -> 0 < free < 2 ^ 16 -> cw_sessions w !! free = None ->
  exists id k, allocID w = Some (id, cset_ids w id (w64 (cw_total w + 1))
                                      (bool_decide (256 < w64 (cw_total w + 1)) || cw_draining w)) /\
    0 < id < 2 ^ 16 /\ cw_sessions w !! id = None /\
    id = w16 (cw_nextID w + k) /\ 1 <= k /\
    (forall j, 1 <= j < k -> w16 (cw_nextID w + j) = 0 \/ is_Some (cw_sessions w !! w16 (cw_nextID w + j))).
Proof.
  intros Hn Hf Hfree. unfold allocID.
  assert (~ busy (cw_sessions w) free) as Hb by (intros [?|[? ?]]; [lia|congruence]).
  destruct (allocID_loop_total (cw_sessions w) (cw_nextID w) free) as [id Hid]; [done|lia|done|].
  pose proof (allocID_loop_spec idSpace (cw_sessions w) (cw_nextID w) Hn) as H. rewrite Hid in *.
  destruct H as (k & Hk & He & Hnb & Hj). exists id, k.
  assert (0 <= id < 2 ^ 16) by (subst id; apply w16_range).
  split_and!; try lia; try done.
  - f_equal. do 2 f_equal. destruct (Z.ltb_spec 256 (w64 (cw_total w + 1))).
    + by rewrite bool_decide_true.
    + by rewrite bool_decide_false by lia.
  - assert (id <> 0) by (intros ->; apply Hnb; by left). lia.
  - destruct (cw_sessions w !! id) eqn:E; [|done]. exfalso. apply Hnb. right. eauto.
Qed.

Lemma allocID_first_free_witness :
  exists id k, allocID (NewClientWorker (mkWriter [] [])) =
      Some (id, cset_ids (NewClientWorker (mkWriter [] [])) id (w64 (0 + 1)) (bool_decide (256 < w64 (0 + 1)) || false)) /\
    0 < id < 2 ^ 16 /\ (∅ : gmap Z nat) !! id = None /\ id = w16 (0 + k) /\ 1 <= k /\
    (forall j, 1 <= j < k -> w16 (0 + j) = 0 \/ is_Some ((∅ : gmap Z nat) !! w16 (0 + j))).
Proof. apply (allocID_first_free (NewClientWorker (mkWriter [] [])) 1); [cbn; lia|lia|reflexivity]. Defined.

(** ** The invariant *)

Definition pipe_ok (p : bufPipe) : Prop :=
  p_limit p = sessionBufLimit /\ (length (p_buf p) <= sessionBufLimit)%nat.

(** A session [OpenStream] gave up on: no caller holds it and its pipe is closed. *)
Definition abandoned (w : ClientWorker) (o : nat) (s : clientSession) : Prop :=
  o ∉ cw_conns w /\ cs_udp s = false /\ forall p, cs_inW s = Some p -> p_closed p = true.

Record cinv (w : ClientWorker) : Prop := {
  ci_table : forall id o, cw_sessions w !! id = Some o ->
    exists s, cw_store w !! o = Some s /\ cs_id s = id /\ cs_once s = false;
  ci_reg : forall o s, cw_store w !! o = Some s -> cs_once s = false ->
    cw_sessions w !! cs_id s = Some o \/ abandoned w o s;
  ci_once : forall o s, cw_store w !! o = Some s -> cs_once s = true ->
    cs_closed s = true /\ forall p, cs_inW s = Some p -> p_closed p = true;
  ci_pipe : forall o s p, cw_store w !! o = Some s -> cs_inW s = Some p -> pipe_ok p;
  ci_id : forall o s, cw_store w !! o = Some s -> 0 < cs_id s < 2 ^ 16;
  ci_fresh : forall o s, cw_store w !! o = Some s -> (o < cw_next w)%nat;
  ci_nextID : 0 <= cw_nextID w < 2 ^ 16;
  ci_target : forall c p k o, cw_pconns w !! c = Some p -> pc_sessions p !! k = Some o ->
    exists s, cw_store w !! o = Some s /\ cs_udp s = true;
  ci_conns : forall o, o ∈ cw_conns w -> is_Some (cw_store w !! o);
  ci_recv : forall c p, cw_pconns w !! c = Some p -> (length (pc_recv p) <= recvCap)%nat;
}.

(** Updates that keep the sessions, the table, the counter and the queues. *)
Definition csame (w w' : ClientWorker) : Prop :=
  cw_sessions w' = cw_sessions w /\ cw_store w' = cw_store w /\ (cw_next w <= cw_next w')%nat /\
  cw_nextID w' = cw_nextID w /\ cw_pconns w' = cw_pconns w /\ cw_conns w' = cw_conns w.

Lemma csame_refl w : csame w w.
Proof. repeat split. lia. Qed.
Lemma csame_set_link w l : csame w (cset_link w l).
Proof. repeat split. cbn. lia. Qed.
Lemma csame_set_done w : csame w (cset_done w).
Proof. repeat split. cbn. lia. Qed.
Lemma csame_close_link w : csame w (cclose_link w).
Proof. repeat split. cbn. lia. Qed.
Lemma csame_writeFrame w m d : csame w (cwriteFrame w m d).2.
Proof. unfold cwriteFrame. destruct (WriteFrame _ _ _). apply csame_set_link. Qed.
Lemma csame_writeData w id d : csame w (cwriteData w id d).2.
Proof. unfold cwriteData. destruct (WriteData _ _ _). apply csame_set_link. Qed.
Lemma csame_writeEnd w id e : csame w (cwriteEnd w id e).2.
Proof. unfold cwriteEnd. destruct (WriteEnd _ _ _). apply csame_set_link. Qed.

#[export] Hint Resolve csame_refl csame_set_link csame_set_done csame_close_link csame_writeFrame
  csame_writeData csame_writeEnd : ntr.

Lemma cinv_same w w' : csame w w' -> cinv w -> cinv w'.
Proof.
  intros (Ht & Hs & Hn & Hi & Hp & Hc) [].
  split; unfold abandoned in *; rewrite ?Ht, ?Hs, ?Hi, ?Hp, ?Hc; eauto.
  intros o s H. specialize (ci_fresh0 o s H). lia.
Qed.

Lemma cinv_pconn w c p :
  cinv w -> (length (pc_recv p) <= recvCap)%nat ->
  (forall k o, pc_sessions p !! k = Some o -> exists s, cw_store w !! o = Some s /\ cs_udp s = true) ->
  cinv (cset_pconn w c p).
Proof.
  intros [] Hp Hk. split; cbn; eauto.
  - intros c' p' k o [[<- <-]|[? ?]]%lookup_insert_Some; eauto.
  - intros c' p' [[<- <-]|[? ?]]%lookup_insert_Some; eauto.
Qed.

(** The pipe of a session after an operation on it. *)
Definition pipe_next (p p' : bufPipe) : Prop :=
  (pipe_ok p -> pipe_ok p') /\ (p_closed p = true -> p_closed p' = true).

Lemma pipe_next_write p b k : pipe_next p (pipeWrite p b k).1.
Proof.
  unfold pipe_next, pipe_ok, pipeWrite.
  destruct (decide (p_limit p = sessionBufLimit /\ (length (p_buf p) <= sessionBufLimit)%nat)) as [[Hl Hb]|Hn].
  - pose proof (Write_loop_spec (length b) p b k) as H.
    destruct (Write_loop _ _ _ _) as [p' out]. cbn.
    destruct H as (n & _ & _ & Hle & Hl' & Hc & _); [lia|unfold sessionBufLimit in *; lia|lia|].
    rewrite Hl', Hc. split; [intros _; split; congruence|done].
  - split; [done|]. intros Hc. clear Hn. generalize (length b). intros fuel.
    destruct b, fuel; cbn; rewrite ?Hc, ?andb_false_r; done.
Qed.

Lemma pipe_next_read p n : pipe_next p (pipeRead p n).1.
Proof.
  destruct (pipeRead p n) as [p' r] eqn:E. destruct r as [[data|e]|].
  - apply pipeRead_spec in E as (Hb & Hl & Hc). split; [|cbn; congruence].
    intros [? Hle]. rewrite Hb, length_app in Hle. split; cbn; [congruence|lia].
  - unfold pipeRead in E. destruct (p_buf p), (p_closed p); by simplify_eq.
  - unfold pipeRead in E. destruct (p_buf p), (p_closed p); by simplify_eq.
Qed.

Lemma pipe_next_close p : pipe_next p (pipeClose p).
Proof. unfold pipe_next, pipe_ok, pipeClose, CloseWithError. by destruct (p_closed p) eqn:?. Qed.

Lemma pipeClose_closed p : p_closed (pipeClose p) = true.
Proof. unfold pipeClose, CloseWithError. by destruct (p_closed p) eqn:?. Qed.

(** Replacing a session keeps the objects that must exist. *)
Lemma store_kept (store : gmap nat clientSession) o s s' o' :
  store !! o = Some s -> cs_udp s' = cs_udp s ->
  (is_Some (store !! o') -> is_Some (<[o := s']> store !! o')) /\
  ((exists t, store !! o' = Some t /\ cs_udp t = true) ->
    exists t, <[o := s']> store !! o' = Some t /\ cs_udp t = true).
Proof.
  intros Hs Hu. destruct (decide (o = o')) as [<-|].
  - rewrite lookup_insert_eq, Hs. split; [eauto|]. intros (t & [= <-] & Ht).
    exists s'. by rewrite Hu.
  - by rewrite lookup_insert_ne.
Qed.

Lemma cinv_pipe w o s p p' :
  cinv w -> cw_store w !! o = Some s -> cs_inW s = Some p -> pipe_next p p' ->
  cinv (cset_session w o (cs_with_inW s p')).
Proof.
  intros [] Hs Hp [Hok Hcl].
  pose proof (fun o' => store_kept _ o s (cs_with_inW s p') o' Hs eq_refl) as Hkeep.
  split; cbn; eauto.
  - intros id o' (s0 & Hs0 & ? & ?)%ci_table0. destruct (decide (o = o')) as [<-|].
    + rewrite lookup_insert_eq. simplify_eq. eauto.
    + rewrite lookup_insert_ne by done. eauto.
  - intros o' s0 [[<- <-]|[? ?]]%lookup_insert_Some Hone; [|by apply ci_reg0].
    destruct (ci_reg0 _ _ Hs Hone) as [?|(Hc & Hu & Hr)]; [by left|right].
    repeat split; [done..|]. cbn. intros ? [= <-]. apply Hcl. by apply Hr.
  - intros o' s0 [[<- <-]|[? ?]]%lookup_insert_Some Hone; [|eauto].
    destruct (ci_once0 _ _ Hs Hone) as [? Hr]. split; [done|]. cbn. intros ? [= <-]. eauto.
  - intros o' s0 q [[<- <-]|[? ?]]%lookup_insert_Some; [|eauto]. cbn. intros [= <-]. eauto.
  - intros o' s0 [[<- <-]|[? ?]]%lookup_insert_Some; cbn; eauto.
  - intros o' s0 [[<- <-]|[? ?]]%lookup_insert_Some; cbn; eauto.
  - intros c q k o' Hc Hk. apply Hkeep. eauto.
  - intros o' Ho. apply Hkeep. eauto.
Qed.

(** Finishing a session that a table, a caller or a packet connection refers to. *)
Definition held (w : ClientWorker) (o : nat) : Prop :=
  forall s, cw_store w !! o = Some s -> o ∈ cw_conns w \/ cs_udp s = true \/
            cw_sessions w !! cs_id s = Some o.

Lemma held_registered w o s :
  cinv w -> held w o -> cw_store w !! o = Some s -> cs_once s = false ->
  cw_sessions w !! cs_id s = Some o.
Proof.
  intros [] Hh Hs Hone. destruct (ci_reg0 _ _ Hs Hone) as [|(Hc & Hu & _)]; [done|].
  destruct (Hh _ Hs) as [?|[?|?]]; [done|congruence|done].
Qed.

Lemma cinv_finish w o : cinv w -> held w o -> cinv (cfinish w o).
Proof.
  intros Hi Hh. unfold cfinish. destruct (cw_store w !! o) as [s|] eqn:Hs; [|done].
  destruct (cs_once s) eqn:Hone; [done|].
  pose proof (held_registered _ _ _ Hi Hh Hs Hone) as Hreg. destruct Hi.
  set (s' := mkCSession _ _ _ _ _ _ _).
  pose proof (fun o' => store_kept _ o s s' o' Hs eq_refl) as Hkeep.
  assert (Hcl : forall p, cs_inW s' = Some p -> p_closed p = true).
  { cbn. intros p. destruct (cs_inW s); [|done]. intros [= <-]. apply pipeClose_closed. }
  split; cbn; eauto.
  - intros id o' [Hne (s0 & Hs0 & ? & ?)%ci_table0]%lookup_delete_Some.
    rewrite lookup_insert_ne by congruence. eauto.
  - intros o' s0 [[<- <-]|[Hne Hs0]]%lookup_insert_Some Ho; [done|].
    destruct (ci_reg0 _ _ Hs0 Ho) as [Hr|]; [|by right].
    left. rewrite lookup_delete_ne; congruence.
  - intros o' s0 [[<- <-]|[? ?]]%lookup_insert_Some; eauto.
  - intros o' s0 q [[<- <-]|[? ?]]%lookup_insert_Some; [|eauto]. cbn.
    destruct (cs_inW s) as [q0|] eqn:Hq; [|done]. intros [= <-]. apply pipe_next_close. eauto.
  - intros o' s0 [[<- <-]|[? ?]]%lookup_insert_Some; cbn; eauto.
  - intros o' s0 [[<- <-]|[? ?]]%lookup_insert_Some; cbn; eauto.
  - intros c q k o' Hc Hk. apply Hkeep. eauto.
  - intros o' Ho. apply Hkeep. eauto.
Qed.

Lemma allocID_inv w id w' :
  0 <= cw_nextID w < 2 ^ 16 -> allocID w = Some (id, w') ->
  0 < id < 2 ^ 16 /\ cw_sessions w !! id = None /\ exists t d, w' = cset_ids w id t d.
Proof.
  intros Hn. unfold allocID. pose proof (allocID_loop_spec idSpace (cw_sessions w) (cw_nextID w) Hn) as H.
  destruct (allocID_loop _ _ _) as [id0|]; [|done]. intros [= <- <-].
  destruct H as (k & _ & He & Hb & _). unfold busy in Hb.
  assert (0 <= id0 < 2 ^ 16) by (subst id0; apply w16_range).
  split_and!; [lia..| |eauto]. destruct (cw_sessions w !! id0) eqn:E; [|done]. exfalso. eauto.
Qed.

Lemma allocID_total w free :
  0 <= cw_nextID w < 2 ^ 16 -> 0 < free < 2 ^ 16 -> cw_sessions w !! free = None ->
  is_Some (allocID w).
Proof.
  intros Hn Hf Hfree. unfold allocID.
  destruct (allocID_loop_total (cw_sessions w) (cw_nextID w) free) as [x ->]; [done|lia| |eauto].
  intros [?|[? ?]]; [lia|congruence].
Qed.

Lemma cinv_ids w id t d : cinv w -> 0 <= id < 2 ^ 16 -> cinv (cset_ids w id t d).
Proof. intros [] ?. split; cbn; eauto. Qed.

Lemma cinv_add w s :
  cinv w -> cw_sessions w !! cs_id s = None -> 0 < cs_id s < 2 ^ 16 -> cs_once s = false ->
  (forall p, cs_inW s = Some p -> pipe_ok p) ->
  cinv (caddSession (calloc w s).2 (cs_id s) (calloc w s).1).
Proof.
  intros [] Hnew Hid Hone Hp. cbn. set (n := cw_next w).
  assert (Hn : cw_store w !! n = None).
  { destruct (cw_store w !! n) eqn:E; [|done]. apply ci_fresh0 in E. subst n. lia. }
  assert (Hkeep : forall o t, cw_store w !! o = Some t -> <[n := s]> (cw_store w) !! o = Some t).
  { intros o t Ht. rewrite lookup_insert_ne; [done|congruence]. }
  split; cbn; eauto.
  - intros id o [[<- <-]|[? (t & ? & ? & ?)%ci_table0]]%lookup_insert_Some; [|eauto].
    rewrite lookup_insert_eq. eauto.
  - intros o t [[<- <-]|[? Ht]]%lookup_insert_Some Ho.
    + left. by rewrite lookup_insert_eq.
    + destruct (ci_reg0 _ _ Ht Ho) as [Hr|?]; [|by right].
      left. rewrite lookup_insert_ne; [done|congruence].
  - intros o t [[<- <-]|[? Ht]]%lookup_insert_Some Ho; [congruence|eauto].
  - intros o t q [[<- <-]|[? Ht]]%lookup_insert_Some Hq; eauto.
  - intros o t [[<- <-]|[? Ht]]%lookup_insert_Some; eauto.
  - intros o t [[<- <-]|[? Ht%ci_fresh0]]%lookup_insert_Some; lia.
  - intros c p k o Hc (t & Ht & Hu)%(ci_target0 _ _ _ _ Hc). eauto.
  - intros o [t Ht]%ci_conns0. eauto.
Qed.

Lemma cinv_abandon w o s p :
  cinv w -> cw_store w !! o = Some s -> cw_sessions w !! cs_id s = Some o -> o ∉ cw_conns w ->
  cs_udp s = false -> cs_inW s = Some p ->
  cinv (cset_session (cremoveSession w (cs_id s)) o (cs_with_inW s (pipeClose p))).
Proof.
  intros [] Hs Ht Hc Hu Hp.
  pose proof (fun o' => store_kept _ o s (cs_with_inW s (pipeClose p)) o' Hs eq_refl) as Hkeep.
  split; cbn; eauto.
  - intros id o' [Hne (t & ? & ? & ?)%ci_table0]%lookup_delete_Some.
    rewrite lookup_insert_ne by congruence. eauto.
  - intros o' t [[<- <-]|[? Hs']]%lookup_insert_Some Ho.
    + right. repeat split; [done..|]. cbn. intros ? [= <-]. apply pipeClose_closed.
    + destruct (ci_reg0 _ _ Hs' Ho) as [Hr|?]; [|by right].
      left. rewrite lookup_delete_ne; [done|]. intros E. congruence.
  - intros o' t [[<- <-]|[? Hs']]%lookup_insert_Some Ho; [|eauto].
    destruct (ci_once0 _ _ Hs Ho). split; [done|]. cbn. intros ? [= <-]. apply pipeClose_closed.
  - intros o' t q [[<- <-]|[? Hs']]%lookup_insert_Some; [|eauto]. cbn. intros [= <-].
    apply pipe_next_close. eauto.
  - intros o' t [[<- <-]|[? Hs']]%lookup_insert_Some; cbn; eauto.
  - intros o' t [[<- <-]|[? Hs']]%lookup_insert_Some; cbn; eauto.
  - intros c q k o' Hcc Hk. apply Hkeep. eauto.
  - intros o' Ho. apply Hkeep. eauto.
Qed.

Lemma cinv_handle w o s :
  cinv w -> cw_store w !! o = Some s -> cw_sessions w !! cs_id s = Some o -> cinv (cset_handle w o).
Proof.
  intros [] Hs Ht. split; cbn; eauto.
  - intros o' t Ht' Ho. destruct (ci_reg0 _ _ Ht' Ho) as [?|(Hc & ? & ?)]; [by left|].
    destruct (decide (o = o')) as [<-|]; [left; congruence|right].
    repeat split; [|done..]. cbn. set_solver.
  - intros o' [->%elem_of_singleton|?]%elem_of_union; eauto.
Qed.

(** ** Preservation by the operations *)

Ltac by_csame := eapply cinv_same; [solve [eauto with ntr]|].

Lemma cinv_runFrame w m data : cinv w -> cinv (runFrame w m data).1.
Proof.
  intros Hw. unfold runFrame, cgetSession. case_bool_decide.
  - destruct (cw_sessions w !! SessionID m) as [o|] eqn:Ht; [|by by_csame].
    destruct data as [|b data]; [done|].
    destruct (cw_store w !! o) as [s|] eqn:Hs; [|done]. destruct (cs_udp s).
    + destruct (cs_sink s) as [c|]; [|done]. destruct (cw_pconns w !! c) as [p|] eqn:Hp; [|done].
      apply cinv_pconn; [done| |].
      * pose proof (ci_recv _ Hw _ _ Hp) as Hr. unfold offer.
        destruct (Nat.ltb_spec (length (pc_recv p)) recvCap); [|done]. cbn. rewrite length_app. cbn. lia.
      * unfold offer. destruct (_ <? _)%nat; cbn; intros k o' Hk; by eapply (ci_target _ Hw).
    + destruct (cs_inW s) as [p|] eqn:Hp; [|done].
      pose proof (pipe_next_write p (b :: data) 0) as Hn.
      destruct (pipeWrite _ _ _). by eapply cinv_pipe.
  - case_bool_decide; [|done]. destruct (cw_sessions w !! SessionID m) as [o|] eqn:Ht; [|done].
    apply cinv_finish; [done|]. intros s Hs. right. right.
    destruct (ci_table _ Hw _ _ Ht) as (s' & ? & E & _). simplify_eq. by rewrite E.
Qed.

(** A freshly allocated session in the table. *)
Lemma opened w id w1 (s : clientSession) :
  cinv w -> allocID w = Some (id, w1) -> cs_id s = id -> cs_once s = false ->
  (forall p, cs_inW s = Some p -> pipe_ok p) ->
  let w2 := caddSession (calloc w1 s).2 id (calloc w1 s).1 in
  cinv w2 /\ cw_store w2 !! (calloc w1 s).1 = Some s /\
  cw_sessions w2 !! id = Some (calloc w1 s).1 /\ (calloc w1 s).1 ∉ cw_conns w2 /\
  cw_pconns w2 = cw_pconns w.
Proof.
  intros Hw Ha <- Ho Hp. destruct (allocID_inv _ _ _ (ci_nextID _ Hw) Ha) as (Hid & Ht & t & d & ->).
  split_and!.
  - apply cinv_add; [by apply cinv_ids; [|lia]|done..].
  - cbn. by rewrite lookup_insert_eq.
  - cbn. by rewrite lookup_insert_eq.
  - cbn. intros [s0 Hs]%(ci_conns _ Hw). apply (ci_fresh _ Hw) in Hs. lia.
  - done.
Qed.

Lemma pipe_ok_new : pipe_ok (newBufPipe sessionBufLimit).
Proof. split; cbn; lia. Qed.

Lemma cinv_OpenStream w network addr port r w' :
  cinv w -> OpenStream w network addr port = Some (r, w') -> cinv w'.
Proof.
  intros Hw. unfold OpenStream. destruct (allocID w) as [[id w1]|] eqn:Ha; [|done].
  set (s := mkCSession id false _ _ _ _ _).
  destruct (opened w id w1 s) as (Hi & Hs & Ht & Hc & _); [done..| |].
  { cbn. intros p [= <-]. apply pipe_ok_new. }
  cbn [calloc fst snd] in *. set (o := cw_next w1) in *. set (w2 := caddSession _ _ _) in *.
  set (m := mkMeta _ _ _ _ _ _).
  pose proof (csame_writeFrame w2 m []) as Hsame.
  destruct (cwriteFrame w2 m []) as [[u|e] w3]; cbn in Hsame;
    pose proof (cinv_same _ _ Hsame Hi) as Hi3; destruct Hsame as (Et & Es & _ & _ & _ & Ec);
    rewrite <-Et in Ht; rewrite <-Es in Hs; rewrite <-Ec in Hc.
  - intros [= <- <-]. by eapply cinv_handle.
  - cbn [cremoveSession cset_table cw_store]. rewrite Hs. cbn [cs_inW s]. intros [= <- <-].
    by eapply (cinv_abandon w3 o s).
Qed.

Lemma cinv_StartControl w r w' : cinv w -> StartControl w = Some (r, w') -> cinv w'.
Proof.
  intros Hw. unfold StartControl. destruct (allocID w) as [[id w1]|] eqn:Ha; [|done].
  destruct (allocID_inv _ _ _ (ci_nextID _ Hw) Ha) as (Hid & _ & t & d & ->).
  set (m := mkMeta _ _ _ _ _ _). pose proof (csame_writeFrame (cset_ids w id t d) m []) as Hsame.
  assert (cinv (cset_ids w id t d)) as Hi by (apply cinv_ids; [done|lia]).
  destruct (cwriteFrame _ m []) as [[u|e] w3]; intros [= <- <-]; by eapply cinv_same.
Qed.

Lemma cinv_connRead w o n : cinv w -> cinv (connRead w o n).1.
Proof.
  intros Hw. unfold connRead. destruct (cw_store w !! o) as [s|] eqn:Hs; [|done].
  destruct (cs_inW s) as [p|] eqn:Hp; [|done]. pose proof (pipe_next_read p n) as Hn.
  destruct (pipeRead p n). by eapply cinv_pipe.
Qed.

Lemma cinv_targetSession w c p addr o b w' :
  cinv w -> cw_pconns w !! c = Some p -> targetSession w c p addr = Some (o, b, w') -> cinv w'.
Proof.
  intros Hw Hp. unfold targetSession. destruct (pc_sessions p !! _); [by intros [= <- <- <-]|].
  destruct (allocID w) as [[id w1]|] eqn:Ha; [|done].
  set (s := mkCSession id true _ _ _ _ _).
  destruct (opened w id w1 s) as (Hi & Hs & Ht & Hc & Hpc); [done..|].
  cbn [calloc fst snd] in *. set (w2 := caddSession _ _ _) in *. intros [= <- <- <-].
  rewrite <-Hpc in Hp. apply cinv_pconn; [done|by eapply (ci_recv _ Hi c p)|].
  cbn. intros k o [[<- <-]|[? Hk]]%lookup_insert_Some; [eauto|]. by eapply (ci_target _ Hi).
Qed.

Lemma cinv_WriteTo w c data addr r w' :
  cinv w -> WriteTo w c data addr = Some (r, w') -> cinv w'.
Proof.
  intros Hw. unfold WriteTo. destruct (cw_pconns w !! c) as [p|] eqn:Hp; [|done].
  destruct (netAddrToMux addr) as [a port].
  destruct (targetSession w c p addr) as [[[o b] w1]|] eqn:Ht; [|done].
  apply (cinv_targetSession _ _ _ _ _ _ _ Hw Hp) in Ht.
  destruct (cw_store w1 !! o) as [s|]; [|done].
  set (x := if b then _ else _).
  assert (cinv x.2) as Hx.
  { subst x. destruct b; [|done]. eapply cinv_same; [apply csame_writeFrame|done]. }
  destruct x as [[u|e] w2]; [|intros [= <- <-]; done]. cbn in Hx.
  set (m := mkMeta _ _ _ _ _ _). pose proof (csame_writeFrame w2 m data) as Hsame.
  destruct (cwriteFrame w2 m data) as [[u'|e] w3]; intros [= <- <-]; by eapply cinv_same.
Qed.

Lemma cfinish_kept w o (o' : nat) (s : clientSession) :
  cw_store w !! o' = Some s ->
  exists s', cw_store (cfinish w o) !! o' = Some s' /\ cs_udp s' = cs_udp s /\ cs_id s' = cs_id s /\
    (cs_once s = true -> cs_once s' = true) /\ (o = o' -> cs_once s' = true).
Proof.
  intros Hs. unfold cfinish. destruct (decide (o = o')) as [<-|Hne].
  - rewrite Hs. destruct (cs_once s) eqn:E; [eauto 10|]. cbn. rewrite lookup_insert_eq. eauto 10.
  - destruct (cw_store w !! o) as [t|]; [|naive_solver].
    destruct (cs_once t); [naive_solver|]. cbn. rewrite lookup_insert_ne by done. naive_solver.
Qed.

Definition endSession (w : ClientWorker) (kv : bytes * nat) : ClientWorker :=
  match cw_store w !! kv.2 with
  | Some s => cfinish (cwriteEnd w (cs_id s) false).2 kv.2
  | None => w
  end.

Lemma cinv_pcClose_loop l : forall w,
  cinv w -> (forall kv : bytes * nat, kv ∈ l -> exists s, cw_store w !! kv.2 = Some s /\ cs_udp s = true) ->
  cinv (foldl endSession w l).
Proof.
  induction l as [|kv l IH]; intros w Hw Hl; [done|]. cbn.
  destruct (Hl kv) as (s & Hs & Hu); [set_solver|].
  assert (He : endSession w kv = cfinish (cwriteEnd w (cs_id s) false).2 kv.2)
    by (unfold endSession; by rewrite Hs).
  pose proof (csame_writeEnd w (cs_id s) false) as Hsame. set (w1 := (cwriteEnd _ _ _).2) in *.
  pose proof Hsame as (Et & Es & En & Ei & Ep & Ec). apply IH.
  - rewrite He. apply cinv_finish; [by eapply cinv_same|]. intros t Ht. right. left. congruence.
  - intros kv' Hin. destruct (Hl kv') as (t & Ht & Hut); [set_solver|]. rewrite He.
    destruct (cfinish_kept w1 kv.2 kv'.2 t) as (t' & ? & ? & _); [congruence|].
    exists t'. split; congruence.
Qed.

Lemma cinv_pcClose w c : cinv w -> cinv (pcClose w c).
Proof.
  intros Hw. unfold pcClose. destruct (cw_pconns w !! c) as [p|] eqn:Hp; [|done].
  destruct (pc_closed p); [done|]. apply (cinv_pcClose_loop (map_to_list (pc_sessions p))).
  - apply cinv_pconn; [done|by eapply (ci_recv _ Hw c p)|]. cbn. intros k o. by rewrite lookup_empty.
  - intros [k o] Hin%elem_of_map_to_list. by eapply (ci_target _ Hw).
Qed.

Lemma cinv_ccloseAll w : cinv w -> cinv (ccloseAll w).
Proof.
  intros Hw. unfold ccloseAll. by_csame.
  assert (Hl : forall p : Z * nat, p ∈ map_to_list (cw_sessions w) ->
            exists s, cw_store (cset_done w) !! p.2 = Some s /\ (cs_once s = true \/ cw_sessions (cset_done w) !! cs_id s = Some p.2)).
  { intros [id o] Hin%elem_of_map_to_list. destruct (ci_table _ Hw _ _ Hin) as (s & Hs & <- & _). eauto. }
  assert (cinv (cset_done w)) as Hi by (by_csame; done). revert Hl Hi.
  generalize (cset_done w). generalize (map_to_list (cw_sessions w)).
  induction l as [|[id o] l IH]; intros w0 Hl Hi; cbn; [done|].
  destruct (Hl (id, o)) as (s & Hs & Hd); [set_solver|]. cbn in Hs, Hd. apply IH.
  2: { destruct Hd as [Ho|Ht].
       - unfold cfinish. by rewrite Hs, Ho.
       - apply cinv_finish; [done|]. intros t Ht'. simplify_eq. eauto. }
  intros p Hin. destruct (Hl p) as (t & Ht & Hdt); [set_solver|].
  destruct (cfinish_kept w0 o p.2 t Ht) as (t' & Ht' & _ & Hid' & Hmono & Hself).
  exists t'. split; [done|]. destruct Hdt as [?|Hreg]; [eauto|].
  destruct (decide (o = p.2)) as [E|Hne]; [eauto|right].
  unfold cfinish. rewrite Hs. destruct (cs_once s) eqn:Eo; [by rewrite Hid'|]. cbn. rewrite Hid'.
  rewrite lookup_delete_ne; [done|]. intros Ec. destruct Hd as [?|Hrs]; [congruence|].
  rewrite Ec in Hrs. congruence.
Qed.

Lemma cinv_step : forall w w', client_step w w' -> cinv w -> cinv w'.
Proof.
  intros a1 a2 [] Hw; eauto using cinv_runFrame, cinv_OpenStream, cinv_connRead, cinv_StartControl,
    cinv_WriteTo, cinv_pcClose, cinv_ccloseAll.
  - eapply cinv_pipe; eauto using pipe_next_write.
  - unfold connWrite. pose proof (csame_writeData w (cs_id s) data) as Hsame.
    destruct (cwriteData _ _ _) as [[]]; (eapply cinv_same; [exact Hsame|done]).
  - unfold connClose. pose proof (csame_writeEnd w (cs_id s) false) as Hsame.
    apply cinv_finish; [by eapply cinv_same|]. intros t Ht. left. by destruct Hsame as (_ & _ & _ & _ & _ & ->).
  - unfold sendHeartbeat. destruct (cw_draining w); (by_csame; done).
  - destruct Hw. split; cbn; eauto; intros *.
    + intros ?%ci_fresh0. lia.
    + intros [[<- <-]|[? ?]]%lookup_insert_Some; cbn; [by rewrite lookup_empty|eauto].
    + intros [[<- <-]|[? ?]]%lookup_insert_Some; cbn; [unfold recvCap; lia|eauto].
  - apply cinv_pconn; [done| |]; destruct p as [q t b], q as [|[src0 d] q]; cbn in *; simplify_eq/=.
    + pose proof (ci_recv _ Hw _ _ H) as Hr. cbn in Hr. lia.
    + intros k o Hk. by eapply (ci_target _ Hw _ _ _ _ H).
Qed.

Lemma cinv_init link : cinv (NewClientWorker link).
Proof. split; cbn; try (intros *; rewrite ?lookup_empty; done). Qed.

Lemma cinv_reachable link w : rtc client_step (NewClientWorker link) w -> cinv w.
Proof.
  intros H. pose proof (cinv_init link) as Hi. revert Hi.
  induction H; eauto using cinv_step.
Qed.

(** ** Shutdown *)

Lemma cfinish_table w o : cw_sessions (cfinish w o) ⊆ cw_sessions w.
Proof.
  unfold cfinish. destruct (cw_store w !! o) as [s|]; [|done].
  destruct (cs_once s); [done|]. apply delete_subseteq.
Qed.

Lemma cfinish_fold l : forall w,
  cw_sessions (foldl (fun w p => cfinish w p.2) w l) ⊆ cw_sessions w /\
  (forall (o : nat) (s : clientSession), cw_store w !! o = Some s ->
     exists s', cw_store (foldl (fun w (p : Z * nat) => cfinish w p.2) w l) !! o = Some s' /\
       (cs_once s = true \/ o ∈ l.*2 -> cs_once s' = true)).
Proof.
  induction l as [|[id o1] l IH]; intros w; cbn.
  { split; [done|]. intros o s Hs. exists s. split; [done|]. intros [?|?%not_elem_of_nil]; done. }
  destruct (IH (cfinish w o1)) as [Ht Hst]. split.
  { etransitivity; [exact Ht|apply cfinish_table]. }
  intros o s Hs. destruct (cfinish_kept w o1 o s Hs) as (s1 & Hs1 & _ & _ & Hm & Hself).
  destruct (Hst _ _ Hs1) as (s2 & Hs2 & H2). exists s2. split; [done|].
  intros [Ho|[->|Hin]%elem_of_cons]; eauto.
Qed.

Lemma ccloseAll_table w : cinv w -> cw_sessions (ccloseAll w) = ∅.
Proof.
  intros Hw. pose proof (cinv_ccloseAll w Hw) as Hc. apply map_empty. intros id.
  destruct (cw_sessions (ccloseAll w) !! id) as [o|] eqn:E; [|done]. exfalso.
  destruct (ci_table _ Hc _ _ E) as (s & Hs & _ & Hone).
  unfold ccloseAll in E, Hs. cbn in E, Hs.
  destruct (cfinish_fold (map_to_list (cw_sessions w)) (cset_done w)) as [Ht Hst].
  pose proof (lookup_weaken _ _ _ _ E Ht) as E0. cbn in E0.
  destruct (ci_table _ Hw _ _ E0) as (s0 & Hs0 & _).
  destruct (Hst o s0 Hs0) as (s1 & Hs1 & Ho). rewrite Hs1 in Hs. simplify_eq.
  rewrite Ho in Hone; [done|]. right. apply list_elem_of_fmap. exists (id, o). split; [done|].
  by apply elem_of_map_to_list.
Qed.

(** ** One stream, from the client's [Write] to the server's session *)

Definition deliver (sv : Server) (f : FrameMetadata * bytes) : Server := handleFrame sv f.1 f.2.

(** A server whose session [id] is an open TCP session with [p] waiting for it. *)
Definition tcp_session (sv : Server) (id : Z) (o : nat) (s : serverSession) (p : bufPipe) : Prop :=
  sv_blocked sv = None /\ sv_sessions sv !! id = Some o /\ sv_store sv !! o = Some s /\
  ss_control s = false /\ ss_udp s = false /\ ss_inW s = Some p /\
  p_closed p = false /\ p_limit p = sessionBufLimit.

Lemma deliver_keep sv id o s p c :
  tcp_session sv id o s p -> (0 < length c)%nat ->
  (length (p_buf p) + length c <= sessionBufLimit)%nat ->
  exists s' p', tcp_session (deliver sv (keep_meta id, c)) id o s' p' /\
    p_buf p' = p_buf p ++ c /\ sv_lands (deliver sv (keep_meta id, c)) = sv_lands sv.
Proof.
  intros (Hb & Ht & Hs & Hc & Hu & Hp & Hcl & Hlim) Hc0 Hle.
  unfold deliver. cbn [fst snd].
  assert (handleFrame sv (keep_meta id) c = handleKeep sv (keep_meta id) c) as -> by done.
  unfold handleKeep, getSession. cbn [SessionID keep_meta]. rewrite Ht, Hs, Hc, Hu.
  destruct c as [|b c]; [cbn in Hc0; lia|]. rewrite Hp. unfold write_inW. rewrite Hp.
  unfold pipeWrite. set (d := b :: c) in *.
  pose proof (Write_loop_spec (length d) p d 0) as H. destruct (Write_loop _ _ _ _) as [p' out].
  destruct H as (n & Hn & Hbuf & Hble & Hl & Hcl' & _ & Ho);
    [lia|unfold sessionBufLimit in *; lia|lia|].
  assert (n = length d /\ exists k, out = WReturned k None) as [-> [k ->]].
  { destruct out as [k [e|]|k rest].
    - destruct Ho as (_ & _ & ? & _). congruence.
    - destruct Ho as [_ ->]. eauto.
    - destruct Ho as (_ & -> & Hne & _ & Hfull). exfalso. apply Hne. apply drop_ge.
      rewrite Hbuf, length_app, length_take in Hfull. lia. }
  exists (with_inW s p'), p'. rewrite take_ge in Hbuf by lia. repeat split; cbn; try congruence.
  by rewrite lookup_insert_eq.
Qed.

Lemma deliver_chunks id o cs : forall sv s p,
  tcp_session sv id o s p -> Forall (fun c => (0 < length c <= StreamChunkSize)%nat) cs ->
  (length (p_buf p) + length (concat cs) <= sessionBufLimit)%nat ->
  exists s' p', tcp_session (foldl deliver sv (map (fun c => (keep_meta id, c)) cs)) id o s' p' /\
    p_buf p' = p_buf p ++ concat cs /\
    sv_lands (foldl deliver sv (map (fun c => (keep_meta id, c)) cs)) = sv_lands sv.
Proof.
  induction cs as [|c cs IH]; intros sv s p Hs Hf Hle.
  { exists s, p. split; [done|]. by rewrite app_nil_r. }
  apply Forall_cons in Hf as [Hc Hf]. cbn [map foldl concat] in *. rewrite length_app in Hle.
  destruct (deliver_keep sv id o s p c) as (s1 & p1 & H1 & Hb1 & Hl1); [done|lia|lia|].
  destruct (IH _ _ _ H1 Hf) as (s2 & p2 & H2 & Hb2 & Hl2); [rewrite Hb1, length_app; lia|].
  exists s2, p2. rewrite Hb2, Hl2, Hb1, <-app_assoc. done.
Qed.

Definition new_meta (id : Z) (addr : Address) (port : Z) : FrameMetadata :=
  mkMeta id StatusNew x00 NetworkTCP addr port.

Lemma new_meta_ok id addr port :
  in_u16 id -> in_u16 port -> addr_ok addr = true -> meta_ok (new_meta id addr port) = true.
Proof.
  intros [? ?] [? ?] Ha. unfold meta_ok. cbn. rewrite Ha, andb_true_r.
  repeat (apply andb_true_iff; split); try (by apply Z.leb_le); by apply Z.ltb_lt.
Qed.

Lemma deliver_new link id addr port :
  is_control (new_meta id addr port) = false ->
  exists s, tcp_session (deliver (NewServerWorker link) (canon_meta (new_meta id addr port), []))
              id 0 s (newBufPipe sessionBufLimit) /\
    sv_lands (deliver (NewServerWorker link) (canon_meta (new_meta id addr port), [])) =
      {[0%nat := mkLand false (canon_addr addr) port [] Dialing]}.
Proof.
  intros Hc. unfold deliver. cbn [fst snd].
  assert (Hm : canon_meta (new_meta id addr port) = new_meta id (canon_addr addr) port) by done.
  assert (Hc' : is_control (new_meta id (canon_addr addr) port) = false).
  { revert Hc. unfold is_control, canon_addr. cbn. by destruct (IsDomain addr). }
  rewrite Hm. assert (forall sv m d, Status m = StatusNew -> handleFrame sv m d = handleNew sv m d) as ->
    by (unfold handleFrame; by intros ? ? ? ->); [|done].
  unfold handleNew, getSession, sessionCount. rewrite Hc'. cbn [sv_sessions NewServerWorker].
  rewrite lookup_empty, map_size_empty.
  rewrite (bool_decide_false (Network _ = _)) by done. cbn -[sessionBufLimit]. eexists. split; [|done].
  unfold tcp_session. cbn -[sessionBufLimit]. rewrite !lookup_insert_eq. done.
Qed.

Lemma OpenStream_ok w free addr port :
  cw_link w = mkWriter [] [] -> 0 <= cw_nextID w < 2 ^ 16 -> 0 < free < 2 ^ 16 ->
  cw_sessions w !! free = None -> in_u16 port -> addr_ok addr = true ->
  exists id o w1, OpenStream w NetworkTCP addr port = Some (Ok o, w1) /\ in_u16 id /\
    cw_link w1 = mkWriter (frame_bytes (new_meta id addr port) []) [] /\
    exists s, cw_store w1 !! o = Some s /\ cs_id s = id.
Proof.
  intros Hl Hn Hf Hfree Hp Ha. unfold OpenStream.
  destruct (allocID w) as [[id w1]|] eqn:E.
  2: { destruct (allocID_total w free) as [x Hx]; [done..|]. congruence. }
  destruct (allocID_inv _ _ _ Hn E) as (Hid & _ & t & d & ->).
  cbn [calloc]. unfold cwriteFrame. cbn [cw_link caddSession cset_table cset_ids]. rewrite Hl.
  assert (Hu : in_u16 id) by (split; lia).
  rewrite (WriteFrame_ok (new_meta id addr port)); [|by apply new_meta_ok|cbn; lia].
  exists id. do 2 eexists. split; [reflexivity|]. split; [done|].
  split; [reflexivity|]. eexists. split; [apply lookup_insert_eq|reflexivity].
Qed.

(** ** The properties *)

(** In every interleaving of opens, reads, writes, closes, heartbeats, packet
    traffic, incoming frames and shutdown: a table entry is an unfinished session with
    that identifier, so no two open sessions share one, identifiers are 1 to 65535, a
    stream buffers at most 64 KiB and a packet connection queues at most 512
    datagrams. *)
Theorem client_table_invariant link w :
  rtc client_step (NewClientWorker link) w ->
  (forall id o, cw_sessions w !! id = Some o ->
     exists s, cw_store w !! o = Some s /\ cs_id s = id /\ cs_once s = false) /\
  (forall id1 id2 o, cw_sessions w !! id1 = Some o -> cw_sessions w !! id2 = Some o -> id1 = id2) /\
  (forall o s, cw_store w !! o = Some s -> 0 < cs_id s < 2 ^ 16) /\
  (forall o s p, cw_store w !! o = Some s -> cs_inW s = Some p -> len (p_buf p) <= 64 * 1024) /\
  (forall c p, cw_pconns w !! c = Some p -> len (pc_recv p) <= 512).
Proof.
  intros Hi%cinv_reachable. split_and!.
  - apply (ci_table _ Hi).
  - intros id1 id2 o (s1 & ? & ? & _)%(ci_table _ Hi) (s2 & ? & ? & _)%(ci_table _ Hi). congruence.
  - apply (ci_id _ Hi).
  - intros o s p Hs Hp. destruct (ci_pipe _ Hi _ _ _ Hs Hp) as [_ Hle].
    unfold sessionBufLimit, len in *. lia.
  - intros c p Hp. pose proof (ci_recv _ Hi _ _ Hp). unfold len, recvCap in *. lia.
Qed.


(** [C7] End to end: a stream opened and written by the client over a working link
    makes a server that reads the link register exactly that stream: a landing for the
    same target and port, and in its pipe the bytes written, in order, with nothing
    blocked, up to the pipe's 64 KiB. *)
Theorem stream_end_to_end w free addr port data link :
  cw_link w = mkWriter [] [] -> 0 <= cw_nextID w < 2 ^ 16 -> 0 < free < 2 ^ 16 ->
  cw_sessions w !! free = None -> in_u16 port -> addr_ok addr = true ->
  is_control (new_meta 0 addr port) = false -> len data <= 64 * 1024 ->
  exists id o w1 w2 s frames,
    OpenStream w NetworkTCP addr port = Some (Ok o, w1) /\
    cw_store w1 !! o = Some s /\ cs_id s = id /\
    connWrite w1 id data = (Ok (len data), w2) /\
    ReadFrames (length (w_out (cw_link w2))) (w_out (cw_link w2)) = Ok frames /\
    exists ss p, tcp_session (foldl deliver (NewServerWorker link) frames) id 0 ss p /\
      p_buf p = data /\
      sv_lands (foldl deliver (NewServerWorker link) frames) =
        {[0%nat := mkLand false (canon_addr addr) port [] Dialing]}.
Proof.
  unfold len. intros Hl Hn Hf Hfree Hp Ha Hc Hd.
  destruct (OpenStream_ok w free addr port) as (id & o & w1 & Hopen & Hid & Hl1 & s & Hs & Hsid); [done..|].
  set (cs := chunks (length data) data).
  set (fb := frame_bytes (new_meta id addr port) []) in *.
  set (fbs := concat (map (frame_bytes (keep_meta id)) cs)).
  exists id, o, w1, (cset_link w1 (mkWriter (fb ++ fbs) [])), s,
    ((canon_meta (new_meta id addr port), []) :: map (fun c => (keep_meta id, c)) cs).
  split_and!; [done..| | |].
  - unfold connWrite, cwriteData, WriteData. rewrite Hl1, WriteData_loop_ok by done. done.
  - cbn [cw_link cset_link w_out].
    assert (Hlen : (length cs <= length fbs)%nat) by apply concat_frames_length.
    assert (Hfb : fb <> []) by apply frame_bytes_nonempty.
    destruct (length (fb ++ fbs)) as [|fuel] eqn:El.
    { rewrite length_app in El. destruct fb; [done|cbn in El; lia]. }
    rewrite length_app in El.
    assert (Hfl : (0 < length fb)%nat) by (destruct fb; [done|cbn; lia]).
    cbn [ReadFrames]. destruct (fb ++ fbs) eqn:E; [by apply app_eq_nil in E as [? _]|].
    rewrite <-E. unfold fb. rewrite ReadFrame_frame, bind_ok; [|by apply new_meta_ok|cbn; lia].
    unfold fbs. rewrite ReadFrames_chunks, bind_ok; [done|done|apply chunks_bound|].
    lia.
  - destruct (deliver_new link id addr port) as (s0 & H0 & Hl0); [done|].
    destruct (deliver_chunks id 0 cs _ _ _ H0) as (s1 & p1 & H1 & Hb1 & Hl1').
    { apply chunks_bound. }
    { unfold cs. rewrite chunks_concat by lia. cbn [p_buf newBufPipe length].
      unfold sessionBufLimit. lia. }
    exists s1, p1. cbn [foldl]. split; [exact H1|]. split.
    + rewrite Hb1. cbn [p_buf newBufPipe app]. unfold cs. by apply chunks_concat.
    + by rewrite Hl1'.
Qed.

(** ** Stale identifiers *)

Definition end_meta (id : Z) : FrameMetadata := mkMeta id StatusEnd x00 x00 noAddress 0.

Lemma runFrame_end w id o s :
  cw_sessions w !! id = Some o -> cw_store w !! o = Some s -> cs_id s = id -> cs_once s = false ->
  (runFrame w (end_meta id) []).1 =
  cremoveSession (cset_session w o (mkCSession id (cs_udp s) (pipeClose <$> cs_inW s) (cs_sink s)
                                               (cs_target s) true true)) id.
Proof.
  intros Ht Hs <- Ho. unfold runFrame. rewrite (bool_decide_false (Status _ = _)) by done.
  rewrite (bool_decide_true (Status _ = _)) by done. cbn [SessionID end_meta]. unfold cgetSession.
  rewrite Ht. unfold cfinish. cbn [fst]. by rewrite Hs, Ho.
Qed.

Definition keep_udp (id : Z) (a : Address) (port : Z) : FrameMetadata :=
  mkMeta id StatusKeep OptionData NetworkUDP a port.

(** A packet connection does not notice that the server ended a target's
    sub-stream: the next [WriteTo] to that target reports success, but sends its
    datagram on the ended identifier without a New frame, and the client itself no
    longer has a session for that identifier. *)
Theorem WriteTo_after_end w c p addr o s data out :
  cw_pconns w !! c = Some p -> pc_sessions p !! na_string addr = Some o ->
  cw_store w !! o = Some s -> cs_once s = false -> cw_sessions w !! cs_id s = Some o ->
  cw_link w = mkWriter out [] -> (length data <= StreamChunkSize)%nat ->
  meta_ok (keep_udp (cs_id s) (netAddrToMux addr).1 (netAddrToMux addr).2) = true ->
  exists w2,
    WriteTo (runFrame w (end_meta (cs_id s)) []).1 c data addr = Some (Ok (len data), w2) /\
    cw_link w2 = mkWriter (out ++ frame_bytes
      (keep_udp (cs_id s) (netAddrToMux addr).1 (netAddrToMux addr).2) data) [] /\
    cw_sessions w2 !! cs_id s = None.
Proof.
  intros Hp Hk Hs Ho Ht Hl Hd Hm. rewrite (runFrame_end w (cs_id s) o s) by done.
  set (s' := mkCSession _ _ _ _ _ _ _). set (w1 := cremoveSession _ _).
  assert (Hs1 : cw_store w1 !! o = Some s') by apply lookup_insert_eq.
  assert (Hp1 : cw_pconns w1 !! c = Some p) by exact Hp.
  assert (Hl1 : cw_link w1 = mkWriter out []) by exact Hl.
  assert (Ht1 : cw_sessions w1 !! cs_id s = None) by apply lookup_delete_eq.
  clearbody w1. unfold WriteTo, targetSession. rewrite Hp1, Hk.
  destruct (netAddrToMux addr) as [a port]. cbn [fst snd] in *. rewrite Hs1.
  unfold cwriteFrame. rewrite Hl1. cbn [cs_id s'].
  rewrite (WriteFrame_ok (keep_udp (cs_id s) a port)) by done.
  eexists. split; [done|]. by split.
Qed.

Module Traces.
Definition link0 : writer := mkWriter [] [].
Definition target : Address := AddrFromString (bs "10.0.0.1").
Definition w0 : ClientWorker := NewClientWorker link0.

(** The state an operation leads to, when it runs. *)
Definition after {A} (r : option (A * ClientWorker)) : ClientWorker :=
  match r with Some (_, w) => w | None => w0 end.
Definition runs {A} (r : option (A * ClientWorker)) : bool :=
  match r with Some _ => true | None => false end.

Definition opened1 : ClientWorker := after (OpenStream w0 NetworkTCP target 80).

Lemma opened1_reachable : rtc client_step w0 opened1.
Proof.
  assert (H : runs (OpenStream w0 NetworkTCP target 80) = true) by (vm_compute; reflexivity).
  unfold opened1. destruct (OpenStream _ _ _ _) as [[r w]|] eqn:E; [|done].
  apply rtc_once. by eapply cst_open.
Qed.

Lemma client_table_invariant_witness :
  (forall id o, cw_sessions opened1 !! id = Some o ->
     exists s, cw_store opened1 !! o = Some s /\ cs_id s = id /\ cs_once s = false) /\
  (forall id1 id2 o, cw_sessions opened1 !! id1 = Some o -> cw_sessions opened1 !! id2 = Some o -> id1 = id2) /\
  (forall o s, cw_store opened1 !! o = Some s -> 0 < cs_id s < 2 ^ 16) /\
  (forall o s p, cw_store opened1 !! o = Some s -> cs_inW s = Some p -> len (p_buf p) <= 64 * 1024) /\
  (forall c p, cw_pconns opened1 !! c = Some p -> len (pc_recv p) <= 512).
Proof. apply (client_table_invariant link0). apply opened1_reachable. Defined.


Lemma stream_end_to_end_witness :
  exists id o w1 w2 s frames,
    OpenStream w0 NetworkTCP target 80 = Some (Ok o, w1) /\
    cw_store w1 !! o = Some s /\ cs_id s = id /\
    connWrite w1 id (bs "hello") = (Ok 5, w2) /\
    ReadFrames (length (w_out (cw_link w2))) (w_out (cw_link w2)) = Ok frames /\
    exists ss p, tcp_session (foldl deliver (NewServerWorker link0) frames) id 0 ss p /\
      p_buf p = bs "hello" /\
      sv_lands (foldl deliver (NewServerWorker link0) frames) =
        {[0%nat := mkLand false (canon_addr target) 80 [] Dialing]}.
Proof.
  apply (stream_end_to_end w0 1 target 80 (bs "hello") link0);
    [reflexivity|cbn; lia|lia|reflexivity|split; lia|vm_compute; reflexivity..|vm_compute; discriminate].
Defined.

Definition dns_addr : netAddr := mkNetAddr (Some ([x08; x08; x08; x08], 53)) (bs "8.8.8.8:53").
Definition udp1 : ClientWorker := after (WriteTo (NewPacketConn w0).2 0 (bs "q") dns_addr).
Definition udp1_pconn : packetConn := mkPacketConn [] {[na_string dns_addr := 1%nat]} false.
Definition udp1_session : clientSession := mkCSession 1 true None (Some 0%nat) dns_addr false false.

Lemma WriteTo_after_end_witness :
  exists w2,
    WriteTo (runFrame udp1 (end_meta 1) []).1 0 (bs "q2") dns_addr = Some (Ok 2, w2) /\
    cw_link w2 = mkWriter (w_out (cw_link udp1) ++ frame_bytes
      (keep_udp 1 (mkAddress false [] [x08; x08; x08; x08]) 53) (bs "q2")) [] /\
    cw_sessions w2 !! 1 = None.
Proof.
  apply (WriteTo_after_end udp1 0 udp1_pconn dns_addr 1 udp1_session (bs "q2"));
    try (vm_compute; reflexivity). vm_compute. lia.
Defined.

(** *** A full turn of the identifier counter *)

(** The identifier that follows [n] when the table is empty. *)
Definition succID (n : Z) : Z := if n =? 2 ^ 16 - 1 then 1 else n + 1.

(** A worker with a working link and no open session, its counter at [n]. *)
Definition idle (w : ClientWorker) (n : Z) : Prop :=
  cinv w /\ cw_sessions w = ∅ /\ cw_nextID w = n /\ cw_done w = false /\
  exists out, cw_link w = mkWriter out [].

Lemma allocID_idle w n :
  idle w n -> exists t d, allocID w = Some (succID n, cset_ids w (succID n) t d).
Proof.
  intros (Hi & Ht & Hn & _). pose proof (ci_nextID _ Hi) as Hr. unfold allocID. rewrite Ht, Hn in *.
  assert (allocID_loop idSpace ∅ n = Some (succID n)) as ->; [|eauto].
  replace idSpace with (S (S (Z.to_nat (2 ^ 16 - 2)))) by (unfold idSpace; lia). cbn [allocID_loop].
  unfold succID. destruct (Z.eqb_spec n (2 ^ 16 - 1)) as [->|Hne].
  - change (w16 (2 ^ 16 - 1 + 1)) with 0. by rewrite lookup_empty.
  - rewrite (w16_small (n + 1)) by (split; lia).
    destruct (Z.eqb_spec (n + 1) 0); [lia|]. by rewrite lookup_empty.
Qed.

(** Opening a stream and closing it at once advances the counter by one. *)
Lemma idle_cycle w n : idle w n -> exists w', rtc client_step w w' /\ idle w' (succID n).
Proof.
  intros Hidle. pose proof Hidle as (Hi & Ht & Hn & Hd & out & Hl).
  destruct (allocID_idle w n Hidle) as (t & d & Ha).
  pose proof (allocID_inv _ _ _ (ci_nextID _ Hi) Ha) as (Hid & _ & _).
  assert (Hu : in_u16 (succID n)) by (split; lia).
  set (s := mkCSession (succID n) false (Some (newBufPipe sessionBufLimit)) None noTarget false false).
  set (m := mkMeta (succID n) StatusNew x00 NetworkTCP target 80).
  set (o := cw_next w). set (w1 := cset_ids w (succID n) t d).
  set (w2 := cset_handle (cset_link (caddSession (calloc w1 s).2 (succID n) o)
               (mkWriter (out ++ frame_bytes m []) [])) o).
  assert (Hopen : OpenStream w NetworkTCP target 80 = Some (Ok o, w2)).
  { unfold OpenStream. rewrite Ha. cbn [calloc]. unfold cwriteFrame.
    cbn [cw_link caddSession cset_table cset_ids]. rewrite Hl.
    rewrite WriteFrame_ok; [reflexivity| |cbn; lia].
    by apply new_meta_ok; [|split; lia|vm_compute]. }
  assert (Hs2 : cw_store w2 !! o = Some s) by apply lookup_insert_eq.
  set (w3 := connClose w2 (succID n) o).
  assert (St1 : client_step w w2) by (by eapply cst_open).
  assert (St2 : client_step w2 w3).
  { apply (cst_conn_close w2 o s); [cbn; set_solver|done]. }
  exists w3. split; [eapply rtc_l; [exact St1|by apply rtc_once]|].
  assert (Hw3 : w3 = cfinish (cset_link w2 (mkWriter ((out ++ frame_bytes m []) ++ end_frame (succID n) false) [])) o).
  { unfold w3, connClose, cwriteEnd. cbn [cw_link w2 cset_handle cset_link]. by rewrite WriteEnd_ok. }
  unfold idle. split_and!.
  - by eapply cinv_step, cinv_step.
  - rewrite Hw3. unfold cfinish. cbn [cw_store cset_link]. rewrite Hs2. 
    change (delete (succID n) (<[succID n := o]> (cw_sessions w)) = ∅).
    rewrite Ht. apply delete_insert_id, lookup_empty.
  - rewrite Hw3. unfold cfinish. cbn [cw_store cset_link]. by rewrite Hs2.
  - rewrite Hw3. unfold cfinish. cbn [cw_store cset_link]. by rewrite Hs2.
  - eexists. rewrite Hw3. unfold cfinish. cbn [cw_store cset_link]. by rewrite Hs2.
Qed.

Lemma idle_advance k : forall w n,
  idle w n -> 0 <= n -> n + Z.of_nat k < 2 ^ 16 ->
  exists w', rtc client_step w w' /\ idle w' (n + Z.of_nat k).
Proof.
  induction k as [|k IH]; intros w n Hi Hn Hk.
  { exists w. split; [constructor|]. by rewrite Z.add_0_r. }
  destruct (idle_cycle w n Hi) as (w1 & Hr1 & Hi1).
  assert (succID n = n + 1) as E by (unfold succID; destruct (Z.eqb_spec n (2 ^ 16 - 1)); lia).
  rewrite E in Hi1. destruct (IH _ _ Hi1) as (w2 & Hr2 & Hi2); [lia..|].
  exists w2. split; [by etransitivity|]. by replace (n + Z.of_nat (S k)) with (n + 1 + Z.of_nat k) by lia.
Qed.

(** The identifier of the control sub-stream is not reserved: after the counter
    has gone round once, a user stream is opened on it while the tunnel and its
    control sub-stream are still in use. *)
Theorem control_id_reused :
  exists w1 w2 o w3 s,
    StartControl w0 = Some (Ok 1, w1) /\ rtc client_step w1 w2 /\ cw_done w2 = false /\
    OpenStream w2 NetworkTCP target 80 = Some (Ok o, w3) /\
    cw_store w3 !! o = Some s /\ cs_id s = 1 /\ cw_sessions w3 !! 1 = Some o.
Proof.
  set (w1 := after (StartControl w0)).
  assert (H1 : StartControl w0 = Some (Ok 1, w1)) by (vm_compute; reflexivity).
  assert (Hi : idle w1 1).
  { split; [by eapply cinv_step; [eapply cst_control|apply (cinv_init link0)]|].
    repeat split; try (vm_compute; reflexivity). eexists. vm_compute. reflexivity. }
  destruct (idle_advance (Z.to_nat (2 ^ 16 - 2)) w1 1 Hi) as (w2 & Hr & Hi2); [lia..|].
  replace (1 + Z.of_nat (Z.to_nat (2 ^ 16 - 2))) with (2 ^ 16 - 1) in Hi2 by lia.
  destruct (allocID_idle _ _ Hi2) as (t & d & Ha). change (succID (2 ^ 16 - 1)) with 1 in Ha.
  destruct Hi2 as (Hc & Ht & Hn & Hd & out & Hl).
  exists w1, w2, (cw_next w2). do 2 eexists. split; [done|]. split; [done|]. split; [done|]. split.
  - unfold OpenStream. rewrite Ha. cbn [calloc]. unfold cwriteFrame.
    cbn [cw_link caddSession cset_table cset_ids]. rewrite Hl.
    rewrite WriteFrame_ok; [reflexivity|vm_compute; reflexivity|cbn; lia].
  - split; [apply lookup_insert_eq|]. split; [reflexivity|apply lookup_insert_eq].
Qed.
End Traces.
