(* ===== verification/Meter.v ===== *)
(** * Package [meter]: accounting, admission limits and kill switches

    [meter/meter.go], [meter/limits.go], [meter/memguard.go]. One [Cell] per credential
    holds its counters, limits and live connections; [Registry] owns the cells and hands
    out identifiers. Limit objects ([ipGate], [sharedLimit]) may be shared by several
    cells and are replaced on reload, so they live in stores and cells refer to them.
    A compare-and-swap loop is one atomic step: a failed attempt changes nothing and is
    retried. Kill functions are named by the connection they close, and calling one
    appends to [r_killed]. Clocks are arguments; token buckets work on floating-point
    numbers and are not modelled beyond the amounts they are asked to throttle. *)
From S2P Require Import Prelude GoStd Netip.

Definition UserBase : Z := 2 ^ 20.
Definition drainThreshold : Z := 128 * 1024.

(** ** The source-address gate *)

Record ipGate := mkIPGate { g_ips : gmap Addr Z; g_cap : Z; g_rejected : Z }.

Definition newIPGate (cap : Z) : ipGate := mkIPGate ∅ cap 0.

Definition acquire (g : ipGate) (ip : Addr) : bool * ipGate :=
  match g_ips g !! ip with
  | Some n => (true, mkIPGate (<[ip := n + 1]> (g_ips g)) (g_cap g) (g_rejected g))
  | None =>
      if negb (g_cap g =? 0) && (g_cap g <=? Z.of_nat (size (g_ips g)))
      then (false, mkIPGate (g_ips g) (g_cap g) (w64 (g_rejected g + 1)))
      else (true, mkIPGate (<[ip := 1]> (g_ips g)) (g_cap g) (g_rejected g))
  end.

Definition release (g : ipGate) (ip : Addr) : ipGate :=
  let n := default 0 (g_ips g !! ip) in
  if 1 <? n then mkIPGate (<[ip := n - 1]> (g_ips g)) (g_cap g) (g_rejected g)
  else mkIPGate (delete ip (g_ips g)) (g_cap g) (g_rejected g).

(** ** The global and per-inbound gate *)

Record Gate := mkGate { gt_maxConns : Z; gt_live : Z; gt_rejected : Z; gt_rate : option nat }.

(** [NewGate]; [rate] is the token bucket to attach, when the configured rate is
    positive, and [noRate] says that it is zero. *)
Definition NewGate (maxConns : Z) (noRate : bool) (rate : option nat) : option Gate :=
  if (maxConns =? 0) && noRate then None else Some (mkGate maxConns 0 0 rate).

Definition TryAcquire (g : option Gate) : bool * option Gate :=
  match g with
  | None => (true, None)
  | Some g =>
      if gt_maxConns g =? 0
      then (true, Some (mkGate (gt_maxConns g) (gt_live g + 1) (gt_rejected g) (gt_rate g)))
      else if gt_maxConns g <=? gt_live g
      then (false, Some (mkGate (gt_maxConns g) (gt_live g) (w64 (gt_rejected g + 1)) (gt_rate g)))
      else (true, Some (mkGate (gt_maxConns g) (gt_live g + 1) (gt_rejected g) (gt_rate g)))
  end.

Definition Release (g : option Gate) : option Gate :=
  match g with
  | None => None
  | Some g => Some (mkGate (gt_maxConns g) (gt_live g - 1) (gt_rejected g) (gt_rate g))
  end.

(** ** Cells and the registry *)

Record connHandle := mkHandle { h_lastActive : Z; h_src : Addr }.

Record sharedLimit := mkShared {
  sl_maxConns : Z;
  sl_live : Z;
  sl_rejected : Z;
  sl_rate : option nat;
  sl_ipg : option nat;
}.

Record Cell := mkCell {
  c_up : Z;
  c_down : Z;
  c_connsTotal : Z;
  c_connsLive : Z;
  c_disabled : bool;
  c_live : gmap Z connHandle;
  c_maxConns : Z;
  c_rejectedConns : Z;
  c_rate : option nat;
  c_ipg : option nat;
  c_shared : option nat;
}.

Definition newCell : Cell := mkCell 0 0 0 0 false ∅ 0 0 None None None.

Record Registry := mkRegistry {
  r_cells : gmap Z Cell;
  r_connSeq : Z;
  r_idx : gmap Z Z;
  r_bills : gmap bytes Z;
  r_labels : gmap Z bytes;
  r_nextID : Z;
  r_ipgs : gmap nat ipGate;
  r_shareds : gmap nat sharedLimit;
  r_fresh : nat;
  r_killed : list Z;
}.

Definition NewRegistry : Registry := mkRegistry ∅ 0 ∅ ∅ ∅ (UserBase + 1) ∅ ∅ 0 [].

(** *** Field updates *)

Definition set_cells (r : Registry) (m : gmap Z Cell) : Registry :=
  mkRegistry m (r_connSeq r) (r_idx r) (r_bills r) (r_labels r) (r_nextID r) (r_ipgs r)
             (r_shareds r) (r_fresh r) (r_killed r).
Definition set_cell (r : Registry) (id : Z) (c : Cell) : Registry := set_cells r (<[id := c]> (r_cells r)).
Definition set_idx (r : Registry) (seq : Z) (m : gmap Z Z) : Registry :=
  mkRegistry (r_cells r) seq m (r_bills r) (r_labels r) (r_nextID r) (r_ipgs r)
             (r_shareds r) (r_fresh r) (r_killed r).
Definition set_ipgs (r : Registry) (m : gmap nat ipGate) : Registry :=
  mkRegistry (r_cells r) (r_connSeq r) (r_idx r) (r_bills r) (r_labels r) (r_nextID r) m
             (r_shareds r) (r_fresh r) (r_killed r).
Definition set_shareds (r : Registry) (m : gmap nat sharedLimit) : Registry :=
  mkRegistry (r_cells r) (r_connSeq r) (r_idx r) (r_bills r) (r_labels r) (r_nextID r) (r_ipgs r)
             m (r_fresh r) (r_killed r).
Definition kill (r : Registry) (l : list Z) : Registry :=
  mkRegistry (r_cells r) (r_connSeq r) (r_idx r) (r_bills r) (r_labels r) (r_nextID r) (r_ipgs r)
             (r_shareds r) (r_fresh r) (r_killed r ++ l).

Definition c_with_live (c : Cell) (m : gmap Z connHandle) : Cell :=
  mkCell (c_up c) (c_down c) (c_connsTotal c) (c_connsLive c) (c_disabled c) m (c_maxConns c)
         (c_rejectedConns c) (c_rate c) (c_ipg c) (c_shared c).
Definition c_with_disabled (c : Cell) (b : bool) : Cell :=
  mkCell (c_up c) (c_down c) (c_connsTotal c) (c_connsLive c) b (c_live c) (c_maxConns c)
         (c_rejectedConns c) (c_rate c) (c_ipg c) (c_shared c).
Definition c_with_conns (c : Cell) (live rejected : Z) : Cell :=
  mkCell (c_up c) (c_down c) (c_connsTotal c) live (c_disabled c) (c_live c) (c_maxConns c)
         rejected (c_rate c) (c_ipg c) (c_shared c).
Definition c_with_total (c : Cell) (total : Z) : Cell :=
  mkCell (c_up c) (c_down c) total (c_connsLive c) (c_disabled c) (c_live c) (c_maxConns c)
         (c_rejectedConns c) (c_rate c) (c_ipg c) (c_shared c).
Definition c_with_bytes (c : Cell) (up down : Z) : Cell :=
  mkCell up down (c_connsTotal c) (c_connsLive c) (c_disabled c) (c_live c) (c_maxConns c)
         (c_rejectedConns c) (c_rate c) (c_ipg c) (c_shared c).
Definition c_with_limits (c : Cell) (maxConns : Z) (rate ipg shared : option nat) : Cell :=
  mkCell (c_up c) (c_down c) (c_connsTotal c) (c_connsLive c) (c_disabled c) (c_live c) maxConns
         (c_rejectedConns c) rate ipg shared.
Definition sl_with (s : sharedLimit) (live rejected : Z) : sharedLimit :=
  mkShared (sl_maxConns s) live rejected (sl_rate s) (sl_ipg s).

(** *** Identity *)

Definition IDForBill (r : Registry) (bill : bytes) : Z * Registry :=
  match r_bills r !! bill with
  | Some id => (id, r)
  | None =>
      let id := r_nextID r in
      (id, mkRegistry (r_cells r) (r_connSeq r) (r_idx r) (<[bill := id]> (r_bills r))
                      (<[id := bill]> (r_labels r)) (w64 (id + 1)) (r_ipgs r) (r_shareds r)
                      (r_fresh r) (r_killed r))
  end.

Definition IDByBill (r : Registry) (bill : bytes) : option Z := r_bills r !! bill.
Definition Bill (r : Registry) (id : Z) : bytes := default [] (r_labels r !! id).

(** [cell]: the cell of [id], created when missing. *)
Definition cell (r : Registry) (id : Z) : Cell * Registry :=
  match r_cells r !! id with
  | Some c => (c, r)
  | None => (newCell, set_cell r id newCell)
  end.

(** *** Connection slots *)

(** The shared unit a cell counts its connections in, when it limits them. *)
Definition shared_cap (r : Registry) (c : Cell) : option (nat * sharedLimit) :=
  match c_shared c with
  | Some s => match r_shareds r !! s with
              | Some sl => if 0 <? sl_maxConns sl then Some (s, sl) else None
              | None => None
              end
  | None => None
  end.

Definition tryAcquireConn (r : Registry) (id : Z) (c : Cell) : bool * Registry :=
  match shared_cap r c with
  | Some (s, sl) =>
      if sl_maxConns sl <=? sl_live sl then
        (false, set_cell (set_shareds r (<[s := sl_with sl (sl_live sl) (w64 (sl_rejected sl + 1))]> (r_shareds r)))
                         id (c_with_conns c (c_connsLive c) (w64 (c_rejectedConns c + 1))))
      else
        (true, set_cell (set_shareds r (<[s := sl_with sl (sl_live sl + 1) (sl_rejected sl)]> (r_shareds r)))
                        id (c_with_conns c (c_connsLive c + 1) (c_rejectedConns c)))
  | None =>
      if c_maxConns c =? 0 then
        (true, set_cell r id (c_with_conns c (c_connsLive c + 1) (c_rejectedConns c)))
      else if c_maxConns c <=? c_connsLive c then
        (false, set_cell r id (c_with_conns c (c_connsLive c) (w64 (c_rejectedConns c + 1))))
      else (true, set_cell r id (c_with_conns c (c_connsLive c + 1) (c_rejectedConns c)))
  end.

Definition releaseConn (r : Registry) (id : Z) (c : Cell) : Registry :=
  let r := set_cell r id (c_with_conns c (c_connsLive c - 1) (c_rejectedConns c)) in
  match shared_cap r c with
  | Some (s, sl) => set_shareds r (<[s := sl_with sl (sl_live sl - 1) (sl_rejected sl)]> (r_shareds r))
  | None => r
  end.

(** [c.ipg.acquire(src)] and [c.ipg.release(src)], on the gate the cell has now. *)
Definition ipg_acquire (r : Registry) (c : Cell) (src : Addr) : bool * Registry :=
  match c_ipg c with
  | Some g => match r_ipgs r !! g with
              | Some gt => let '(ok, gt) := acquire gt src in (ok, set_ipgs r (<[g := gt]> (r_ipgs r)))
              | None => (true, r)
              end
  | None => (true, r)
  end.
Definition ipg_release (r : Registry) (c : Cell) (src : Addr) : Registry :=
  match c_ipg c with
  | Some g => match r_ipgs r !! g with
              | Some gt => set_ipgs r (<[g := release gt src]> (r_ipgs r))
              | None => r
              end
  | None => r
  end.

(** [addGuarded], [removeLive], [killAll]: under [liveMu]. *)
Definition addGuarded (c : Cell) (connID : Z) (h : connHandle) : bool * Cell :=
  if c_disabled c then (false, c) else (true, c_with_live c (<[connID := h]> (c_live c))).
Definition removeLive (c : Cell) (connID : Z) : Cell := c_with_live c (delete connID (c_live c)).
Definition killAll (c : Cell) : list Z * Cell := ((map_to_list (c_live c)).*1, c_with_live c ∅).

(** ** [Open], in the three critical sections other goroutines can come between *)

Definition open_ip (r : Registry) (id : Z) (src : Addr) : bool * Registry :=
  let '(c, r) := cell r id in ipg_acquire r c src.

Definition open_conn (r : Registry) (id : Z) (src : Addr) : bool * Registry :=
  let '(c, r) := cell r id in
  match tryAcquireConn r id c with
  | (true, r) => (true, r)
  | (false, r) => let '(c, r) := cell r id in (false, ipg_release r c src)
  end.

Definition open_register (r : Registry) (id : Z) (src : Addr) (now : Z) : option Z * Registry :=
  let connID := w64 (r_connSeq r + 1) in
  let r := set_idx r connID (r_idx r) in
  let '(c, r) := cell r id in
  match addGuarded c connID (mkHandle now src) with
  | (false, c) => (None, ipg_release (releaseConn r id c) c src)
  | (true, c) =>
      (Some connID, set_idx (set_cell r id (c_with_total c (w64 (c_connsTotal c + 1))))
                            connID (<[connID := id]> (r_idx r)))
  end.

Definition Open (r : Registry) (id : Z) (src : Addr) (now : Z) : option Z * Registry :=
  match open_ip r id src with
  | (false, r) => (None, r)
  | (true, r) =>
      match open_conn r id src with
      | (false, r) => (None, r)
      | (true, r) => open_register r id src now
      end
  end.

(** ** The per-connection meter *)

Record Meter := mkMeter {
  m_cell : option Z;            (* the credential whose cell it feeds *)
  m_conn : option Z;            (* its handle, by connection *)
  m_gates : list (option nat);  (* the token buckets of its gates *)
  m_localUp : Z;
  m_localDn : Z;
}.

Definition touch (r : Registry) (m : Meter) (now : Z) : Registry :=
  match m_cell m, m_conn m with
  | Some id, Some connID =>
      match r_cells r !! id with
      | Some c => match c_live c !! connID with
                  | Some h => set_cell r id (c_with_live c (<[connID := mkHandle now (h_src h)]> (c_live c)))
                  | None => r
                  end
      | None => r
      end
  | _, _ => r
  end.

(** What a drain asks the token buckets to let through: the user's, then the gates'. *)
Definition throttles (rate : option nat) (gates : list (option nat)) (n : Z) : list (nat * Z) :=
  (fun b => (b, n)) <$> omap id (rate :: gates).

Definition drain_up (r : Registry) (m : Meter) : Registry * list (nat * Z) :=
  match m_cell m with
  | Some id =>
      match r_cells r !! id with
      | Some c => (set_cell r id (c_with_bytes c (w64 (c_up c + m_localUp m)) (c_down c)),
                   throttles (c_rate c) (m_gates m) (m_localUp m))
      | None => (r, throttles None (m_gates m) (m_localUp m))
      end
  | None => (r, throttles None (m_gates m) (m_localUp m))
  end.

Definition drain_down (r : Registry) (m : Meter) : Registry * list (nat * Z) :=
  match m_cell m with
  | Some id =>
      match r_cells r !! id with
      | Some c => (set_cell r id (c_with_bytes c (c_up c) (w64 (c_down c + m_localDn m))),
                   throttles (c_rate c) (m_gates m) (m_localDn m))
      | None => (r, throttles None (m_gates m) (m_localDn m))
      end
  | None => (r, throttles None (m_gates m) (m_localDn m))
  end.

Definition AddUp (r : Registry) (m : Meter) (n now : Z) : Registry * Meter * list (nat * Z) :=
  if n <=? 0 then (r, m, [])
  else
    let m := mkMeter (m_cell m) (m_conn m) (m_gates m) (w64 (m_localUp m + n)) (m_localDn m) in
    if drainThreshold <=? m_localUp m then
      let '(r, th) := drain_up (touch r m now) m in
      (r, mkMeter (m_cell m) (m_conn m) (m_gates m) 0 (m_localDn m), th)
    else (r, m, []).

Definition AddDown (r : Registry) (m : Meter) (n now : Z) : Registry * Meter * list (nat * Z) :=
  if n <=? 0 then (r, m, [])
  else
    let m := mkMeter (m_cell m) (m_conn m) (m_gates m) (m_localUp m) (w64 (m_localDn m + n)) in
    if drainThreshold <=? m_localDn m then
      let '(r, th) := drain_down (touch r m now) m in
      (r, mkMeter (m_cell m) (m_conn m) (m_gates m) (m_localUp m) 0, th)
    else (r, m, []).

Definition Flush (r : Registry) (m : Meter) : Registry * Meter :=
  let r := match m_cell m with
           | Some id =>
               match r_cells r !! id with
               | Some c =>
                   set_cell r id (c_with_bytes c
                     (if 0 <? m_localUp m then w64 (c_up c + m_localUp m) else c_up c)
                     (if 0 <? m_localDn m then w64 (c_down c + m_localDn m) else c_down c))
               | None => r
               end
           | None => r
           end in
  (r, mkMeter (m_cell m) (m_conn m) (m_gates m) 0 0).

(** The closing function [Open] returns, after its [Flush]. *)
Definition close_conn (r : Registry) (id : Z) (src : Addr) (connID : Z) : Registry :=
  let '(c, r) := cell r id in
  let r := releaseConn r id c in
  let '(c, r) := cell r id in
  let r := ipg_release r c src in
  let '(c, r) := cell r id in
  let r := set_cell r id (removeLive c connID) in
  set_idx r (r_connSeq r) (delete connID (r_idx r)).

(** ** Switches *)

Definition disable_set (r : Registry) (id : Z) : option Registry :=
  match r_cells r !! id with
  | Some c => Some (set_cell r id (c_with_disabled c true))
  | None => None
  end.
Definition disable_kill (r : Registry) (id : Z) : option (nat * Registry) :=
  match r_cells r !! id with
  | Some c => let '(l, c) := killAll c in Some (length l, kill (set_cell r id c) l)
  | None => None
  end.
(** [Disable]: the flag first, then the kill; [None] for an unknown credential. *)
Definition Disable (r : Registry) (id : Z) : option (nat * Registry) :=
  match disable_set r id with
  | Some r => disable_kill r id
  | None => None
  end.

Definition Enable (r : Registry) (id : Z) : bool * Registry :=
  match r_cells r !! id with
  | Some c => (true, set_cell r id (c_with_disabled c false))
  | None => (false, r)
  end.

(** Take a connection out of its cell's live table and kill it, if it is there. *)
Definition kill_live (r : Registry) (id connID : Z) : bool * Registry :=
  match r_cells r !! id with
  | Some c =>
      match c_live c !! connID with
      | Some _ => (true, kill (set_cell r id (removeLive c connID)) [connID])
      | None => (false, r)
      end
  | None => (false, r)
  end.

Definition KillConn (r : Registry) (connID : Z) : Z * Registry :=
  match r_idx r !! connID with
  | None => (0, r)
  | Some id => let '(b, r) := kill_live r id connID in (if b then 1 else 0, r)
  end.

Definition KillIP (r : Registry) (id : Z) (ip : Addr) : nat * Registry :=
  match r_cells r !! id with
  | None => (O, r)
  | Some c =>
      let hit := filter (fun p => h_src p.2 = ip) (c_live c) in
      (size hit, kill (set_cell r id (c_with_live c (c_live c ∖ hit))) (map_to_list hit).*1)
  end.

(** ** Idle eviction *)

(** The candidates, cell by cell: credential, connection, last activity. *)
Definition entries (r : Registry) : list (Z * Z * Z) :=
  concat ((fun p => (fun q => (p.1, q.1, h_lastActive q.2)) <$> map_to_list (c_live p.2))
            <$> map_to_list (r_cells r)).

(** The kill loops of [evictIdle] and [ReapIdle] over the candidates in the order
    they were put; [budget] is how many more may be killed. *)
Fixpoint evict_loop (r : Registry) (ents : list (Z * Z * Z)) (budget : nat) : nat * Registry :=
  match ents, budget with
  | [], _ | _, O => (O, r)
  | (id, connID, _) :: ents, S budget' =>
      match kill_live r id connID with
      | (true, r) => let '(k, r) := evict_loop r ents budget' in (S k, r)
      | (false, r) => evict_loop r ents budget
      end
  end.

(** [evictIdle] for candidates already sorted; [sort.Slice] leaves ties in any order. *)
Definition evictIdle (r : Registry) (sorted : list (Z * Z * Z)) (n : Z) : nat * Registry :=
  if n <=? 0 then (O, r) else evict_loop r sorted (Z.to_nat n).

Definition ReapIdle (r : Registry) (idle now : Z) : nat * Registry :=
  if idle <=? 0 then (O, r)
  else
    let ents := filter (fun e => e.2 < now - idle) (entries r) in
    evict_loop r ents (length ents).

(** ** Limits *)

(** [Limits], with the token bucket to attach when [Rate] is positive. *)
Record Limits := mkLimits { L_MaxConns : Z; L_Rate : option nat; L_MaxIPs : Z }.

(** A new gate for [MaxIPs], when positive. *)
Definition alloc_ipg (r : Registry) (maxIPs : Z) : option nat * Registry :=
  if 0 <? maxIPs then
    (Some (r_fresh r),
     mkRegistry (r_cells r) (r_connSeq r) (r_idx r) (r_bills r) (r_labels r) (r_nextID r)
                (<[r_fresh r := newIPGate maxIPs]> (r_ipgs r)) (r_shareds r) (S (r_fresh r)) (r_killed r))
  else (None, r).

Definition SetLimits (r : Registry) (id : Z) (l : Limits) : Registry :=
  let '(c, r) := cell r id in
  let '(g, r) := alloc_ipg r (L_MaxIPs l) in
  set_cell r id (c_with_limits c (L_MaxConns l)
    (match L_Rate l with Some b => Some b | None => c_rate c end)
    (match g with Some g => Some g | None => c_ipg c end) (c_shared c)).

Definition alloc_shared (r : Registry) (s : sharedLimit) : nat * Registry :=
  (r_fresh r,
   mkRegistry (r_cells r) (r_connSeq r) (r_idx r) (r_bills r) (r_labels r) (r_nextID r) (r_ipgs r)
              (<[r_fresh r := s]> (r_shareds r)) (S (r_fresh r)) (r_killed r)).

Definition SetLimitsShared (r : Registry) (ids : list Z) (l : Limits) : Registry :=
  let '(g, r) := alloc_ipg r (L_MaxIPs l) in
  let '(s, r) := alloc_shared r (mkShared (L_MaxConns l) 0 0 (L_Rate l) g) in
  foldl (fun r id => let '(c, r) := cell r id in
                     set_cell r id (c_with_limits c 0 (L_Rate l) g (Some s))) r ids.

Definition cellRejected (r : Registry) (c : Cell) : Z :=
  let rej g := match g with
               | Some g => match r_ipgs r !! g with Some gt => g_rejected gt | None => 0 end
               | None => 0
               end in
  match c_shared c with
  | Some s => match r_shareds r !! s with
              | Some sl => w64 (w64 (c_rejectedConns c + sl_rejected sl) + rej (sl_ipg sl))
              | None => c_rejectedConns c
              end
  | None => w64 (c_rejectedConns c + rej (c_ipg c))
  end.

(** ** Memory guard *)

Inductive MemPhase := MemNormal | MemSoft | MemHard.

#[export] Instance MemPhase_eq_dec : EqDecision MemPhase.
Proof. solve_decision. Defined.

Record MemGuard := mkMemGuard {
  mg_hasReg : bool;
  mg_softBytes : Z;
  mg_hardBytes : Z;
  mg_evictBatch : Z;
  mg_phase : MemPhase;
  mg_softRejected : Z;
  mg_hardEvicted : Z;
  mg_lastPhaseLog : MemPhase;
}.

Definition NewMemGuard (hasReg : bool) (soft hard evictBatch : Z) : MemGuard :=
  mkMemGuard hasReg soft hard (if evictBatch <=? 0 then 64 else evictBatch) MemNormal 0 0 MemNormal.

Definition AdmitOK (g : option MemGuard) : bool * option MemGuard :=
  match g with
  | None => (true, None)
  | Some g =>
      match mg_phase g with
      | MemNormal => (true, Some g)
      | _ => (false, Some (mkMemGuard (mg_hasReg g) (mg_softBytes g) (mg_hardBytes g) (mg_evictBatch g)
                             (mg_phase g) (w64 (mg_softRejected g + 1)) (mg_hardEvicted g) (mg_lastPhaseLog g)))
      end
  end.

(** [setPhase]; the log line, written on a transition only, is the boolean. *)
Definition setPhase (g : MemGuard) (p : MemPhase) : bool * MemGuard :=
  (negb (bool_decide (mg_lastPhaseLog g = p)),
   mkMemGuard (mg_hasReg g) (mg_softBytes g) (mg_hardBytes g) (mg_evictBatch g) p
              (mg_softRejected g) (mg_hardEvicted g) p).

(** [tick] on a sample [cur]; [sorted] are the candidates [evictIdle] would sort. *)
Definition tick (g : MemGuard) (r : Registry) (cur : Z) (sorted : list (Z * Z * Z)) : MemGuard * Registry :=
  if (0 <? mg_hardBytes g) && (mg_hardBytes g <=? cur) then
    let '(_, g) := setPhase g MemHard in
    if mg_hasReg g then
      let '(n, r) := evictIdle r sorted (mg_evictBatch g) in
      (mkMemGuard (mg_hasReg g) (mg_softBytes g) (mg_hardBytes g) (mg_evictBatch g) (mg_phase g)
                  (mg_softRejected g) (w64 (mg_hardEvicted g + Z.of_nat n)) (mg_lastPhaseLog g), r)
    else (g, r)
  else if (0 <? mg_softBytes g) && (mg_softBytes g <=? cur) then ((setPhase g MemSoft).2, r)
  else ((setPhase g MemNormal).2, r).

(** ** The panel's view *)

Record UserStat := mkUserStat {
  us_ID : Z;
  us_Bill : bytes;
  us_Up : Z;
  us_Down : Z;
  us_ConnsTotal : Z;
  us_ConnsLive : Z;
  us_Disabled : bool;
  us_MaxConns : Z;
  us_Rejected : Z;
  us_RejectedIP : Z;
}.

Definition user_stat (r : Registry) (p : Z * Cell) : UserStat :=
  let '(id, c) := p in
  let sh := c_shared c ≫= fun s => r_shareds r !! s in
  let rej g := match g ≫= fun g => r_ipgs r !! g with Some gt => g_rejected gt | None => 0 end in
  mkUserStat id (Bill r id) (c_up c) (c_down c) (c_connsTotal c) (c_connsLive c) (c_disabled c)
    (match sh with Some sl => sl_maxConns sl | None => c_maxConns c end) (c_rejectedConns c)
    (match sh with
     | Some sl => match sl_ipg sl with Some g => rej (Some g) | None => rej (c_ipg c) end
     | None => rej (c_ipg c)
     end).

Definition by_ID (a b : UserStat) : Prop := us_ID a <= us_ID b.
#[export] Instance by_ID_dec : RelDecision by_ID.
Proof. intros a b. unfold by_ID. apply _. Defined.

Definition Snapshot (r : Registry) : list UserStat :=
  merge_sort by_ID (user_stat r <$> map_to_list (r_cells r)).
