(* ===== verification/MeterSpec.v ===== *)
(** * What the [meter] package guarantees

    Connections move through admission in steps that any other goroutine may come
    between. [world] adds to the registry the connections that hold something of it, and
    [step] interleaves the steps; the counters are then exactly the holders' counts, and
    the limits hold in every reachable world. *)
From S2P Require Import Prelude GoStd Netip Meter.

(** ** Counting in finite maps *)

Section Count.
Context {A : Type}.

Definition cnt (P : A -> bool) (m : gmap nat A) : Z :=
  Z.of_nat (size (filter (fun p => P p.2 = true) m)).

Lemma cnt_empty P : cnt P ∅ = 0.
Proof. unfold cnt. by rewrite map_filter_empty, map_size_empty. Qed.

Lemma cnt_nonneg P m : 0 <= cnt P m.
Proof. unfold cnt. lia. Qed.

Lemma cnt_insert P m k x :
  m !! k = None -> cnt P (<[k := x]> m) = cnt P m + (if P x then 1 else 0).
Proof.
  intros Hk. unfold cnt. destruct (P x) eqn:Hx.
  - rewrite map_filter_insert_True by done.
    rewrite map_size_insert_None; [lia|]. apply map_lookup_filter_None. by left.
  - rewrite map_filter_insert_False by (cbn; congruence). rewrite delete_id by done. lia.
Qed.

Lemma cnt_delete P m k x :
  m !! k = Some x -> cnt P (delete k m) = cnt P m - (if P x then 1 else 0).
Proof.
  intros Hk. rewrite <-(insert_delete_id m k x Hk) at 2.
  rewrite cnt_insert by apply lookup_delete_eq. lia.
Qed.

Lemma cnt_replace P m k x y :
  m !! k = Some x -> cnt P (<[k := y]> m) = cnt P m - (if P x then 1 else 0) + (if P y then 1 else 0).
Proof.
  intros Hk. rewrite <-insert_delete_eq, cnt_insert by apply lookup_delete_eq.
  by rewrite (cnt_delete _ _ _ _ Hk).
Qed.

Lemma cnt_ext P Q m : (forall x, P x = Q x) -> cnt P m = cnt Q m.
Proof. intros H. unfold cnt. do 2 f_equal. apply map_filter_ext. intros i x _. cbn. by rewrite H. Qed.

Lemma cnt_pos P m k x : m !! k = Some x -> P x = true -> 0 < cnt P m.
Proof.
  intros Hk Hx. pose proof (cnt_delete P m k x Hk) as H. rewrite Hx in H.
  pose proof (cnt_nonneg P (delete k m)). lia.
Qed.
End Count.

(** ** Worlds *)

Inductive hphase := HIP | HSlot | HOpen (connID : Z).

(** A connection between the start of [Open] and the end of its closing function. *)
Record holder := mkHolder { hd_cred : Z; hd_src : Addr; hd_phase : hphase }.

Record world := mkWorld { reg : Registry; held : gmap nat holder }.

Definition has_slot (h : holder) : bool := match hd_phase h with HIP => false | _ => true end.

(** The cell of a credential; [cell] creates it on first use, with these values. *)
Definition cv (r : Registry) (id : Z) : Cell := default newCell (r_cells r !! id).

Inductive step : world -> world -> Prop :=
| s_ip w t id src r :
    held w !! t = None -> open_ip (reg w) id src = (true, r) ->
    step w (mkWorld r (<[t := mkHolder id src HIP]> (held w)))
| s_ip_no w id src r : open_ip (reg w) id src = (false, r) -> step w (mkWorld r (held w))
| s_conn w t id src r :
    held w !! t = Some (mkHolder id src HIP) -> open_conn (reg w) id src = (true, r) ->
    step w (mkWorld r (<[t := mkHolder id src HSlot]> (held w)))
| s_conn_no w t id src r :
    held w !! t = Some (mkHolder id src HIP) -> open_conn (reg w) id src = (false, r) ->
    step w (mkWorld r (delete t (held w)))
| s_register w t id src now connID r :
    held w !! t = Some (mkHolder id src HSlot) -> open_register (reg w) id src now = (Some connID, r) ->
    step w (mkWorld r (<[t := mkHolder id src (HOpen connID)]> (held w)))
| s_register_no w t id src now r :
    held w !! t = Some (mkHolder id src HSlot) -> open_register (reg w) id src now = (None, r) ->
    step w (mkWorld r (delete t (held w)))
| s_close w t id src connID :
    held w !! t = Some (mkHolder id src (HOpen connID)) ->
    step w (mkWorld (close_conn (reg w) id src connID) (delete t (held w)))
| s_up w m n now : step w (mkWorld (AddUp (reg w) m n now).1.1 (held w))
| s_down w m n now : step w (mkWorld (AddDown (reg w) m n now).1.1 (held w))
| s_flush w m : step w (mkWorld (Flush (reg w) m).1 (held w))
| s_disable_set w id r : disable_set (reg w) id = Some r -> step w (mkWorld r (held w))
| s_disable_kill w id n r : disable_kill (reg w) id = Some (n, r) -> step w (mkWorld r (held w))
| s_enable w id : step w (mkWorld (Enable (reg w) id).2 (held w))
| s_kill_conn w connID : step w (mkWorld (KillConn (reg w) connID).2 (held w))
| s_kill_ip w id ip : step w (mkWorld (KillIP (reg w) id ip).2 (held w))
| s_evict w sorted n : step w (mkWorld (evictIdle (reg w) sorted n).2 (held w))
| s_reap w idle now : step w (mkWorld (ReapIdle (reg w) idle now).2 (held w))
| s_bill w bill : step w (mkWorld (IDForBill (reg w) bill).2 (held w)).

(** *** Views of the registry *)

(** What the slot accounting depends on. *)
Definition slots (c : Cell) : Z * Z * option nat := (c_connsLive c, c_maxConns c, c_shared c).
Definition unit_view (s : sharedLimit) : Z * Z := (sl_maxConns s, sl_live s).

Record same_slots (r r' : Registry) : Prop := {
  ss_cells : forall id, slots (cv r' id) = slots (cv r id);
  ss_units : forall s, unit_view <$> r_shareds r' !! s = unit_view <$> r_shareds r !! s;
}.

(** What the address accounting depends on. *)
Record same_ips (r r' : Registry) : Prop := {
  si_cells : forall id, c_ipg (cv r' id) = c_ipg (cv r id);
  si_gates : r_ipgs r' = r_ipgs r;
}.

#[export] Instance same_slots_preorder : PreOrder same_slots.
Proof.
  split; [by split|]. intros a b c [H1 H2] [H3 H4].
  split; intros; by rewrite ?H3, ?H4, ?H1, ?H2.
Qed.
#[export] Instance same_ips_preorder : PreOrder same_ips.
Proof.
  split; [by split|]. intros a b c [H1 H2] [H3 H4]. split; intros; by rewrite ?H3, ?H4, ?H1, ?H2.
Qed.

Lemma cv_set_cell r id c id' : cv (set_cell r id c) id' = if decide (id = id') then c else cv r id'.
Proof.
  unfold cv. cbn. destruct (decide (id = id')) as [<-|].
  - by rewrite lookup_insert_eq.
  - by rewrite lookup_insert_ne.
Qed.

Lemma cell_cv r id : (cell r id).1 = cv r id.
Proof. unfold cell, cv. by destruct (r_cells r !! id). Qed.

(** [cell] returns the cell and changes nothing the views see. *)
Lemma cell_same r id :
  exists r', cell r id = (cv r id, r') /\ (forall id', cv r' id' = cv r id') /\
    r_shareds r' = r_shareds r /\ r_ipgs r' = r_ipgs r /\ r_connSeq r' = r_connSeq r /\ r_idx r' = r_idx r.
Proof.
  unfold cell. destruct (r_cells r !! id) as [c|] eqn:E.
  - exists r. unfold cv at 1. by rewrite E.
  - eexists. unfold cv at 1. rewrite E. split; [done|]. repeat split.
    intros id'. rewrite cv_set_cell. destruct (decide (id = id')) as [<-|]; [|done].
    unfold cv. by rewrite E.
Qed.

(** A registry whose cell [id] was rewritten keeping slots and gate. *)
Lemma same_set_cell r id c :
  slots c = slots (cv r id) -> c_ipg c = c_ipg (cv r id) ->
  same_slots r (set_cell r id c) /\ same_ips r (set_cell r id c).
Proof.
  intros Hs Hi. split; split; try done; intros id'; rewrite cv_set_cell;
    by destruct (decide (id = id')) as [<-|].
Qed.

Lemma cv_lookup r id c : r_cells r !! id = Some c -> cv r id = c.
Proof. intros H. unfold cv. by rewrite H. Qed.

Definition same_admission (r r' : Registry) : Prop := same_slots r r' /\ same_ips r r'.

#[export] Instance same_admission_preorder : PreOrder same_admission.
Proof.
  split; [by split|]. intros a b c [] []. split; etransitivity; eauto.
Qed.

Lemma same_kill r l : same_admission r (kill r l).
Proof. by split. Qed.
Lemma same_set_idx r seq m : same_admission r (set_idx r seq m).
Proof. by split. Qed.
Lemma same_update r id c c' :
  r_cells r !! id = Some c -> slots c' = slots c -> c_ipg c' = c_ipg c ->
  same_admission r (set_cell r id c').
Proof. intros H%cv_lookup Hs Hi. apply same_set_cell; by rewrite H. Qed.

#[export] Hint Resolve same_kill same_set_idx : ntr.

(** *** The steps that do not touch admission *)

Lemma same_touch r m now : same_admission r (touch r m now).
Proof.
  unfold touch. destruct (m_cell m) as [id|]; [|done]. destruct (m_conn m) as [k|]; [|done].
  destruct (r_cells r !! id) eqn:E; [|done]. destruct (c_live _ !! _); [|done]. by eapply same_update.
Qed.

Lemma same_AddUp r m n now : same_admission r (AddUp r m n now).1.1.
Proof.
  unfold AddUp. destruct (n <=? 0); [done|]. destruct (_ <=? _); [|done].
  set (m' := mkMeter _ _ _ _ _). etransitivity; [apply (same_touch r m' now)|].
  unfold drain_up. destruct (m_cell m') as [id|]; [|done].
  destruct (r_cells _ !! id) eqn:E; [|done]. by eapply same_update.
Qed.

Lemma same_AddDown r m n now : same_admission r (AddDown r m n now).1.1.
Proof.
  unfold AddDown. destruct (n <=? 0); [done|]. destruct (_ <=? _); [|done].
  set (m' := mkMeter _ _ _ _ _). etransitivity; [apply (same_touch r m' now)|].
  unfold drain_down. destruct (m_cell m') as [id|]; [|done].
  destruct (r_cells _ !! id) eqn:E; [|done]. by eapply same_update.
Qed.

Lemma same_Flush r m : same_admission r (Flush r m).1.
Proof.
  unfold Flush. destruct (m_cell m) as [id|]; [|done].
  destruct (r_cells r !! id) eqn:E; [|done]. by eapply same_update.
Qed.

Lemma same_disable_set r id r' : disable_set r id = Some r' -> same_admission r r'.
Proof.
  unfold disable_set. destruct (r_cells r !! id) eqn:E; [|done]. intros [= <-]. by eapply same_update.
Qed.

Lemma same_disable_kill r id n r' : disable_kill r id = Some (n, r') -> same_admission r r'.
Proof.
  unfold disable_kill. destruct (r_cells r !! id) eqn:E; [|done]. cbn. intros [= <- <-].
  etransitivity; [by eapply (same_update r id _ (c_with_live c ∅))|apply same_kill].
Qed.

Lemma same_Enable r id : same_admission r (Enable r id).2.
Proof. unfold Enable. destruct (r_cells r !! id) eqn:E; [|done]. by eapply same_update. Qed.

Lemma same_kill_live r id k : same_admission r (kill_live r id k).2.
Proof.
  unfold kill_live. destruct (r_cells r !! id) eqn:E; [|done]. destruct (c_live c !! k); [|done].
  etransitivity; [by eapply (same_update r id _ (removeLive c k))|apply same_kill].
Qed.

Lemma same_KillConn r k : same_admission r (KillConn r k).2.
Proof.
  unfold KillConn. destruct (r_idx r !! k) as [id|]; [|done].
  pose proof (same_kill_live r id k). by destruct (kill_live r id k).
Qed.

Lemma same_KillIP r id ip : same_admission r (KillIP r id ip).2.
Proof.
  unfold KillIP. destruct (r_cells r !! id) eqn:E; [|done].
  etransitivity; [by eapply (same_update r id _ (c_with_live c _))|apply same_kill].
Qed.

Lemma same_evict_loop ents : forall r n, same_admission r (evict_loop r ents n).2.
Proof.
  induction ents as [|[[id k] l] ents IH]; intros r n; cbn; [done|]. destruct n; [done|].
  pose proof (same_kill_live r id k) as H. destruct (kill_live r id k) as [[] r'].
  - specialize (IH r' n). destruct (evict_loop r' ents n). by etransitivity.
  - by etransitivity; [|apply IH].
Qed.

Lemma same_evictIdle r sorted n : same_admission r (evictIdle r sorted n).2.
Proof. unfold evictIdle. destruct (n <=? 0); [done|apply same_evict_loop]. Qed.

Lemma same_ReapIdle r idle now : same_admission r (ReapIdle r idle now).2.
Proof. unfold ReapIdle. destruct (idle <=? 0); [done|apply same_evict_loop]. Qed.

Lemma same_IDForBill r bill : same_admission r (IDForBill r bill).2.
Proof. unfold IDForBill. by destruct (r_bills r !! bill). Qed.

(** ** Slots *)

Definition of_cred (id : Z) (h : holder) : bool := has_slot h && bool_decide (hd_cred h = id).
Definition in_unit (r : Registry) (s : nat) (h : holder) : bool :=
  has_slot h && bool_decide (c_shared (cv r (hd_cred h)) = Some s).

(** A cell limited by its own [maxConns] only. *)
Definition own_cap (r : Registry) (c : Cell) : Prop := shared_cap r c = None /\ 0 < c_maxConns c.

Record slot_inv (r : Registry) (m : gmap nat holder) : Prop := {
  si_live : forall id, c_connsLive (cv r id) = cnt (of_cred id) m;
  si_own : forall id, own_cap r (cv r id) -> c_connsLive (cv r id) <= c_maxConns (cv r id);
  si_unit : forall s sl, r_shareds r !! s = Some sl -> 0 < sl_maxConns sl ->
    sl_live sl = cnt (in_unit r s) m /\ sl_live sl <= sl_maxConns sl;
}.

Lemma unit_back r r' s sl' :
  same_slots r r' -> r_shareds r' !! s = Some sl' ->
  exists sl, r_shareds r !! s = Some sl /\ sl_maxConns sl' = sl_maxConns sl /\ sl_live sl' = sl_live sl.
Proof.
  intros [_ H] Hs. specialize (H s). rewrite Hs in H. destruct (r_shareds r !! s) as [sl|]; [|done].
  injection H as ? ?. eauto.
Qed.

Lemma same_slots_sym r r' : same_slots r r' -> same_slots r' r.
Proof. intros [H1 H2]. by split. Qed.

Lemma shared_cap_same r r' c c' :
  same_slots r r' -> c_shared c' = c_shared c -> shared_cap r' c' = None -> shared_cap r c = None.
Proof.
  intros H Hc. unfold shared_cap. rewrite Hc. destruct (c_shared c) as [s|]; [|done].
  destruct (r_shareds r !! s) as [sl|] eqn:E; [|done].
  destruct (unit_back r' r s sl (same_slots_sym _ _ H) E) as (sl' & -> & -> & _).
  by destruct (0 <? _).
Qed.

Lemma slot_inv_same r r' m : same_slots r r' -> slot_inv r m -> slot_inv r' m.
Proof.
  intros H [H1 H2 H3]. pose proof (ss_cells _ _ H) as Hc. split.
  - intros id. specialize (Hc id). injection Hc as -> _ _. apply H1.
  - intros id [Hn Hm]. specialize (Hc id). injection Hc as -> Em Es. rewrite Em in *. apply H2.
    split; [by eapply shared_cap_same|done].
  - intros s sl' Hs Hm. destruct (unit_back _ _ _ _ H Hs) as (sl & Hsl & Em & El).
    rewrite Em, El in *. destruct (H3 s sl Hsl Hm) as [He Hle]. split; [|done]. rewrite He. apply cnt_ext. intros h. unfold in_unit.
    specialize (Hc (hd_cred h)). by injection Hc as _ _ ->.
Qed.

(** Holders without a slot do not matter. *)
Lemma slot_inv_holders r m m' :
  (forall P, (forall h, P h = true -> has_slot h = true) -> cnt P m' = cnt P m) ->
  slot_inv r m -> slot_inv r m'.
Proof.
  intros H [H1 H2 H3].
  assert (Ha : forall id, cnt (of_cred id) m' = cnt (of_cred id) m).
  { intros id. apply H. unfold of_cred. intros h [? _]%andb_true_iff. done. }
  assert (Hb : forall s, cnt (in_unit r s) m' = cnt (in_unit r s) m).
  { intros s. apply H. unfold in_unit. intros h [? _]%andb_true_iff. done. }
  split; [intros; by rewrite Ha|done|intros; rewrite Hb; eauto].
Qed.

Lemma slot_inv_add_ip r m t id src :
  m !! t = None -> slot_inv r m -> slot_inv r (<[t := mkHolder id src HIP]> m).
Proof.
  intros Ht. apply slot_inv_holders. intros P HP. rewrite cnt_insert by done.
  destruct (P _) eqn:E; [|lia]. apply HP in E. done.
Qed.

Lemma slot_inv_del_ip r m t id src :
  m !! t = Some (mkHolder id src HIP) -> slot_inv r m -> slot_inv r (delete t m).
Proof.
  intros Ht. apply slot_inv_holders. intros P HP. rewrite (cnt_delete _ _ _ _ Ht).
  destruct (P _) eqn:E; [|lia]. apply HP in E. done.
Qed.

(** Opening a slot's connection keeps its slot. *)
Lemma slot_inv_open r m t id src k :
  m !! t = Some (mkHolder id src HSlot) -> slot_inv r m ->
  slot_inv r (<[t := mkHolder id src (HOpen k)]> m).
Proof.
  intros Ht [H1 H2 H3].
  assert (forall P : holder -> bool, P (mkHolder id src (HOpen k)) = P (mkHolder id src HSlot) ->
            cnt P (<[t := mkHolder id src (HOpen k)]> m) = cnt P m) as H.
  { intros P HP. rewrite (cnt_replace _ _ _ _ _ Ht), HP. lia. }
  split; intros; rewrite ?H by done; eauto.
Qed.

(** *** Taking and giving back a slot *)

Lemma in_unit_conns r id c live rej sh s h :
  c = cv r id ->
  in_unit (set_cell (set_shareds r sh) id (c_with_conns c live rej)) s h = in_unit r s h.
Proof.
  intros ->. unfold in_unit. f_equal. apply bool_decide_ext. rewrite cv_set_cell.
  by destruct (decide (id = hd_cred h)) as [->|].
Qed.

Lemma set_shareds_id r : set_shareds r (r_shareds r) = r.
Proof. by destruct r. Qed.

Lemma shared_cap_Some r c s sl :
  shared_cap r c = Some (s, sl) -> c_shared c = Some s /\ r_shareds r !! s = Some sl /\ 0 < sl_maxConns sl.
Proof.
  unfold shared_cap. destruct (c_shared c) as [s'|]; [|done].
  destruct (r_shareds r !! s') as [sl'|] eqn:E; [|done].
  destruct (Z.ltb_spec 0 (sl_maxConns sl')); [|done]. intros [= -> ->]. done.
Qed.

Lemma shared_cap_None r c s sl :
  shared_cap r c = None -> r_shareds r !! s = Some sl -> 0 < sl_maxConns sl -> c_shared c <> Some s.
Proof.
  unfold shared_cap. intros H Hs Hm E. rewrite E, Hs in H.
  destruct (Z.ltb_spec 0 (sl_maxConns sl)); [done|lia].
Qed.

(** The effect of a slot change of [d] by credential [id] on registry and holders:
    its cell and its unit, if it counts in one, move by [d] with the holders. *)
Definition moved (m m' : gmap nat holder) (id d : Z) : Prop :=
  forall Q : Z -> bool,
    cnt (fun h => has_slot h && Q (hd_cred h)) m' =
    cnt (fun h => has_slot h && Q (hd_cred h)) m + (if Q id then d else 0).

Lemma moved_take m t id src :
  m !! t = Some (mkHolder id src HIP) -> moved m (<[t := mkHolder id src HSlot]> m) id 1.
Proof. intros Ht Q. rewrite (cnt_replace _ _ _ _ _ Ht). cbn. lia. Qed.

Lemma moved_give m t h :
  m !! t = Some h -> has_slot h = true -> moved m (delete t m) (hd_cred h) (-1).
Proof. intros Ht Hs Q. rewrite (cnt_delete _ _ _ _ Ht), Hs. cbn. destruct (Q _); lia. Qed.

Lemma slot_inv_move r m m' id d rej' sh' :
  let c := cv r id in
  slot_inv r m -> moved m m' id d ->
  (shared_cap r c = None -> sh' = r_shareds r /\
     (0 < c_maxConns c -> c_connsLive c + d <= c_maxConns c)) ->
  (forall s sl, shared_cap r c = Some (s, sl) ->
     exists rej, sh' = <[s := sl_with sl (sl_live sl + d) rej]> (r_shareds r) /\
                 sl_live sl + d <= sl_maxConns sl) ->
  slot_inv (set_cell (set_shareds r sh') id (c_with_conns c (c_connsLive c + d) rej')) m'.
Proof.
  intros c [H1 H2 H3] Hmv Hnone Hsome.
  assert (Hunits : same_slots r (set_shareds r sh') \/ is_Some (shared_cap r c)).
  { destruct (shared_cap r c) eqn:E; [right; eauto|left]. destruct (Hnone eq_refl) as [-> _].
    by rewrite set_shareds_id. }
  assert (Hmax : forall s sl', sh' !! s = Some sl' -> exists sl, r_shareds r !! s = Some sl /\
            sl_maxConns sl' = sl_maxConns sl /\
            (0 < sl_maxConns sl -> sl_live sl' = sl_live sl + (if bool_decide (c_shared c = Some s) then d else 0) /\
               (c_shared c = Some s -> sl_live sl' <= sl_maxConns sl))).
  { intros s sl' Hs. destruct (shared_cap r c) as [[s0 sl0]|] eqn:E.
    - destruct (Hsome _ _ eq_refl) as (rej & -> & Hle).
      destruct (shared_cap_Some _ _ _ _ E) as (Hc & Hs0 & _).
      apply lookup_insert_Some in Hs as [[<- <-]|[Hne Hs]].
      + exists sl0. rewrite bool_decide_true by done. cbn. auto.
      + exists sl'. rewrite bool_decide_false by congruence. repeat split; [done|lia|congruence].
    - destruct (Hnone eq_refl) as [-> _]. exists sl'. repeat split; [done| |].
      + rewrite bool_decide_false; [lia|]. by eapply shared_cap_None.
      + intros Hc. exfalso. by eapply shared_cap_None. }
  split.
  - intros id'. rewrite cv_set_cell. pose proof (Hmv (fun x => bool_decide (x = id'))) as Hq.
    change (cnt (of_cred id') m' = cnt (of_cred id') m + (if bool_decide (id = id') then d else 0)) in Hq.
    rewrite Hq, <-H1. destruct (decide (id = id')) as [<-|Hne].
    + by rewrite bool_decide_true.
    + rewrite bool_decide_false by done. unfold cv. cbn. lia.
  - intros id'. rewrite cv_set_cell. destruct (decide (id = id')) as [<-|Hne]; intros [Hn Hm].
    + cbn in Hm |- *. apply Hnone; [|done]. destruct (shared_cap r c) as [[s0 sl0]|] eqn:E; [|done].
      exfalso. destruct (Hsome _ _ eq_refl) as (rej & -> & _).
      destruct (shared_cap_Some _ _ _ _ E) as (Hc & Hs0 & Hpos).
      revert Hn. unfold shared_cap. cbn. rewrite Hc, lookup_insert_eq. cbn.
      by destruct (Z.ltb_spec 0 (sl_maxConns sl0)); [|lia].
    + apply H2. split; [|exact Hm]. revert Hn. unfold shared_cap. cbn.
      change (cv (set_shareds r sh') id') with (cv r id').
      destruct (c_shared (cv r id')) as [s|]; [|done].
      destruct (r_shareds r !! s) as [sl|] eqn:E; [|done].
      destruct (sh' !! s) as [sl'|] eqn:E'.
      * destruct (Hmax _ _ E') as (sl0 & Hs0 & -> & _). simplify_eq. by destruct (0 <? _).
      * intros _. exfalso. destruct (shared_cap r c) as [[s0 sl0]|] eqn:Ec.
        -- destruct (Hsome _ _ eq_refl) as (rej & -> & _).
           apply lookup_insert_None in E' as [? _]. congruence.
        -- destruct (Hnone eq_refl) as [-> _]. congruence.
  - intros s sl' Hs Hm. cbn in Hs. destruct (Hmax _ _ Hs) as (sl & Hsl & Em & Hlive).
    rewrite Em in *. destruct (Hlive Hm) as [Hl Hle]. destruct (H3 s sl Hsl Hm) as [Hcnt Hcap].
    rewrite (cnt_ext _ (in_unit r s) m') by (intros h; by rewrite in_unit_conns).
    pose proof (Hmv (fun x => bool_decide (c_shared (cv r x) = Some s))) as Hq.
    change (cnt (in_unit r s) m' = cnt (in_unit r s) m + (if bool_decide (c_shared c = Some s) then d else 0)) in Hq.
    rewrite Hq, <-Hcnt. split; [exact Hl|].
    destruct (decide (c_shared c = Some s)) as [E|E]; [auto|].
    rewrite Hl, bool_decide_false by done. lia.
Qed.

Lemma slot_inv_acquire r m t id src r' :
  tryAcquireConn r id (cv r id) = (true, r') -> m !! t = Some (mkHolder id src HIP) ->
  slot_inv r m -> slot_inv r' (<[t := mkHolder id src HSlot]> m).
Proof.
  intros Ha Ht Hi. pose proof (moved_take m t id src Ht) as Hmv.
  unfold tryAcquireConn in Ha. destruct (shared_cap r (cv r id)) as [[s sl]|] eqn:E.
  - destruct (Z.leb_spec (sl_maxConns sl) (sl_live sl)); [done|]. injection Ha as <-.
    eapply (slot_inv_move r m); [done..|congruence|]. intros s' sl' [= <- <-]%(eq_trans (eq_sym E)).
    eexists. split; [done|lia].
  - rewrite <-(set_shareds_id r) in Ha.
    assert (r' = set_cell (set_shareds r (r_shareds r)) id
              (c_with_conns (cv r id) (c_connsLive (cv r id) + 1) (c_rejectedConns (cv r id))) /\
            (0 < c_maxConns (cv r id) -> c_connsLive (cv r id) + 1 <= c_maxConns (cv r id))) as [-> Hle].
    { rewrite set_shareds_id in *. destruct (Z.eqb_spec (c_maxConns (cv r id)) 0).
      - injection Ha as <-. split; [done|lia].
      - destruct (Z.leb_spec (c_maxConns (cv r id)) (c_connsLive (cv r id))); [done|].
        injection Ha as <-. split; [done|lia]. }
    eapply (slot_inv_move r m); [done..|congruence].
Qed.

Lemma tryAcquire_refused r id r' :
  tryAcquireConn r id (cv r id) = (false, r') -> same_slots r r'.
Proof.
  unfold tryAcquireConn. destruct (shared_cap r (cv r id)) as [[s sl]|] eqn:E.
  - destruct (_ <=? _); [|done]. intros [= <-]. apply shared_cap_Some in E as (_ & Hs & _).
    split.
    + intros id'. rewrite cv_set_cell. by destruct (decide (id = id')) as [<-|].
    + intros s'. cbn. destruct (decide (s = s')) as [<-|].
      * by rewrite lookup_insert_eq, Hs.
      * by rewrite lookup_insert_ne.
  - destruct (_ =? 0); [done|]. destruct (_ <=? _); [|done]. intros [= <-].
    by apply same_set_cell.
Qed.

Lemma releaseConn_eq r id c :
  releaseConn r id c =
  set_cell (set_shareds r match shared_cap r c with
                          | Some (s, sl) => <[s := sl_with sl (sl_live sl - 1) (sl_rejected sl)]> (r_shareds r)
                          | None => r_shareds r
                          end) id (c_with_conns c (c_connsLive c - 1) (c_rejectedConns c)).
Proof.
  unfold releaseConn.
  assert (shared_cap (set_cell r id (c_with_conns c (c_connsLive c - 1) (c_rejectedConns c))) c
          = shared_cap r c) as -> by done.
  destruct (shared_cap r c) as [[s sl]|]; [done|]. by rewrite set_shareds_id.
Qed.

Lemma slot_inv_release r m t h :
  m !! t = Some h -> has_slot h = true -> slot_inv r m ->
  slot_inv (releaseConn r (hd_cred h) (cv r (hd_cred h))) (delete t m).
Proof.
  intros Ht Hs Hi. rewrite releaseConn_eq.
  assert (c_connsLive (cv r (hd_cred h)) - 1 = c_connsLive (cv r (hd_cred h)) + -1) as -> by lia.
  eapply (slot_inv_move r m); [done|by apply moved_give| |].
  - intros E. rewrite E. split; [done|]. intros Hm.
    pose proof (si_own _ _ Hi (hd_cred h) (conj E Hm)). lia.
  - intros s sl E. rewrite E. destruct (shared_cap_Some _ _ _ _ E) as (_ & Hsl & Hm).
    destruct (si_unit _ _ Hi s sl Hsl Hm) as [_ Hle]. exists (sl_rejected sl). split; [|lia].
    by replace (sl_live sl - 1) with (sl_live sl + -1) by lia.
Qed.

(** *** Slots do not disturb addresses, nor addresses slots *)

Lemma same_ips_conns r id live rej sh :
  same_ips r (set_cell (set_shareds r sh) id (c_with_conns (cv r id) live rej)).
Proof.
  split; [|done]. intros id'. rewrite cv_set_cell. by destruct (decide (id = id')) as [<-|].
Qed.

Lemma same_ips_acquire r id b r' : tryAcquireConn r id (cv r id) = (b, r') -> same_ips r r'.
Proof.
  unfold tryAcquireConn. destruct (shared_cap r (cv r id)) as [[s sl]|].
  - destruct (_ <=? _); intros [= <- <-]; apply same_ips_conns.
  - destruct (_ =? 0); [|destruct (_ <=? _)]; intros [= <- <-];
      rewrite <-(set_shareds_id r) at 2; apply same_ips_conns.
Qed.

Lemma same_ips_release r id : same_ips r (releaseConn r id (cv r id)).
Proof. rewrite releaseConn_eq. apply same_ips_conns. Qed.

Lemma same_slots_ipgs r m : same_slots r (set_ipgs r m).
Proof. by split. Qed.

Lemma same_slots_ipg_acquire r c src : same_slots r (ipg_acquire r c src).2.
Proof.
  unfold ipg_acquire. destruct (c_ipg c) as [g|]; [|done]. destruct (r_ipgs r !! g); [|done].
  destruct (acquire _ _). apply same_slots_ipgs.
Qed.

Lemma same_slots_ipg_release r c src : same_slots r (ipg_release r c src).
Proof.
  unfold ipg_release. destruct (c_ipg c) as [g|]; [|done]. destruct (r_ipgs r !! g); [|done].
  apply same_slots_ipgs.
Qed.

(** ** Source addresses *)

Definition in_gate (r : Registry) (g : nat) (ip : Addr) (h : holder) : bool :=
  bool_decide (c_ipg (cv r (hd_cred h)) = Some g) && bool_decide (hd_src h = ip).

Record gate_ok (gt : ipGate) (n : Addr -> Z) : Prop := {
  go_count : forall ip, default 0 (g_ips gt !! ip) = n ip;
  go_pos : forall ip k, g_ips gt !! ip = Some k -> 0 < k;
  go_cap : 0 < g_cap gt -> Z.of_nat (size (g_ips gt)) <= g_cap gt;
}.

Definition ip_inv (r : Registry) (m : gmap nat holder) : Prop :=
  forall g gt, r_ipgs r !! g = Some gt -> gate_ok gt (fun ip => cnt (in_gate r g ip) m).

Lemma acquire_ok gt n src gt' :
  gate_ok gt n -> acquire gt src = (true, gt') ->
  gate_ok gt' (fun ip => n ip + (if bool_decide (src = ip) then 1 else 0)).
Proof.
  intros [H1 H2 H3]. unfold acquire. destruct (g_ips gt !! src) as [k|] eqn:E.
  - intros [= <-]. pose proof (H2 _ _ E) as Hk. split; cbn.
    + intros ip. rewrite <-H1. destruct (decide (src = ip)) as [<-|].
      * rewrite lookup_insert_eq, E, bool_decide_true by done. done.
      * rewrite lookup_insert_ne, bool_decide_false by done. lia.
    + intros ip k' [[<- <-]|[? ?]]%lookup_insert_Some; [lia|eauto].
    + rewrite map_size_insert_Some by eauto. done.
  - destruct (negb _ && _) eqn:Ec; [done|]. intros [= <-]. split; cbn.
    + intros ip. rewrite <-H1. destruct (decide (src = ip)) as [<-|].
      * rewrite lookup_insert_eq, E, bool_decide_true by done. done.
      * rewrite lookup_insert_ne, bool_decide_false by done. lia.
    + intros ip k' [[<- <-]|[? ?]]%lookup_insert_Some; [lia|eauto].
    + intros Hc. rewrite map_size_insert_None by done.
      apply andb_false_iff in Ec as [Ec|Ec].
      * apply negb_false_iff, Z.eqb_eq in Ec. lia.
      * apply Z.leb_gt in Ec. lia.
Qed.

Lemma acquire_refused gt src gt' :
  acquire gt src = (false, gt') -> g_ips gt' = g_ips gt /\ g_cap gt' = g_cap gt.
Proof.
  unfold acquire. destruct (g_ips gt !! src); [done|]. destruct (_ && _); [|done]. by intros [= <-].
Qed.

Lemma release_ok gt n src :
  gate_ok gt n -> 0 < n src ->
  gate_ok (release gt src) (fun ip => n ip - (if bool_decide (src = ip) then 1 else 0)).
Proof.
  intros [H1 H2 H3] Hn. unfold release. rewrite (H1 src).
  destruct (g_ips gt !! src) as [k|] eqn:E; [|specialize (H1 src); rewrite E in H1; cbn in H1; lia].
  assert (n src = k) as Hk by (specialize (H1 src); rewrite E in H1; done).
  destruct (Z.ltb_spec 1 (n src)).
  - split; cbn.
    + intros ip. rewrite <-(H1 ip). destruct (decide (src = ip)) as [<-|].
      * rewrite lookup_insert_eq, E, bool_decide_true by done. cbn. lia.
      * rewrite lookup_insert_ne, bool_decide_false by done. lia.
    + intros ip k' [[<- <-]|[? ?]]%lookup_insert_Some; [lia|eauto].
    + rewrite map_size_insert_Some by eauto. done.
  - split; cbn.
    + intros ip. rewrite <-(H1 ip). destruct (decide (src = ip)) as [<-|].
      * rewrite lookup_delete_eq, E, bool_decide_true by done. cbn. lia.
      * rewrite lookup_delete_ne, bool_decide_false by done. lia.
    + intros ip k' [? ?]%lookup_delete_Some. eauto.
    + intros Hc. specialize (H3 Hc). rewrite map_size_delete, E. lia.
Qed.

Lemma gate_ok_ext gt gt' n n' :
  g_ips gt' = g_ips gt -> g_cap gt' = g_cap gt -> (forall ip, n' ip = n ip) ->
  gate_ok gt n -> gate_ok gt' n'.
Proof. intros Hi Hc Hn [H1 H2 H3]. split; rewrite ?Hi, ?Hc; eauto. intros. by rewrite Hn. Qed.

Lemma ip_inv_same r r' m : same_ips r r' -> ip_inv r m -> ip_inv r' m.
Proof.
  intros [Hc Hg] H g gt Hgt. rewrite Hg in Hgt. eapply gate_ok_ext; [done..| |by apply H].
  intros ip. apply cnt_ext. intros h. unfold in_gate. by rewrite Hc.
Qed.

(** Only the credential and the source of a holder matter. *)
Lemma ip_inv_phase r m t id src p p' :
  m !! t = Some (mkHolder id src p) -> ip_inv r m -> ip_inv r (<[t := mkHolder id src p']> m).
Proof.
  intros Ht H g gt Hgt. eapply gate_ok_ext; [done..| |by apply H]. intros ip.
  rewrite (cnt_replace _ _ _ _ _ Ht). unfold in_gate. cbn. destruct (_ && _); lia.
Qed.

Lemma ip_inv_acquire r m t id src p r' :
  ipg_acquire r (cv r id) src = (true, r') -> m !! t = None -> ip_inv r m ->
  ip_inv r' (<[t := mkHolder id src p]> m).
Proof.
  intros Ha Ht H. set (h := mkHolder id src p).
  assert (Hadd : forall g ip, cnt (in_gate r g ip) (<[t := h]> m) =
            cnt (in_gate r g ip) m +
            (if bool_decide (c_ipg (cv r id) = Some g) && bool_decide (src = ip) then 1 else 0)).
  { intros g ip. by rewrite cnt_insert. }
  unfold ipg_acquire in Ha. destruct (c_ipg (cv r id)) as [g0|] eqn:Eg.
  - destruct (r_ipgs r !! g0) as [gt0|] eqn:E0.
    + destruct (acquire gt0 src) as [b gt1] eqn:Ea. injection Ha as -> <-.
      intros g gt; cbn; intros [[<- <-]|[Hne Hgt]]%lookup_insert_Some.
      * eapply gate_ok_ext; [done..| |by eapply acquire_ok; [apply (H _ _ E0)|]].
        intros ip. cbn. rewrite <-(cnt_ext (in_gate r g0 ip)) by done. rewrite Hadd.
        by rewrite bool_decide_true by done.
      * eapply gate_ok_ext; [done..| |by apply H]. intros ip.
        rewrite <-(cnt_ext (in_gate r g ip)) by done. rewrite Hadd, bool_decide_false by congruence.
        cbn. lia.
    + injection Ha as <-. intros g gt Hgt. eapply gate_ok_ext; [done..| |by apply H]. intros ip.
      rewrite Hadd, bool_decide_false by congruence. cbn. lia.
  - injection Ha as <-. intros g gt Hgt. eapply gate_ok_ext; [done..| |by apply H]. intros ip.
    rewrite Hadd, bool_decide_false by congruence. cbn. lia.
Qed.

Lemma ip_inv_refused r m id src r' :
  ipg_acquire r (cv r id) src = (false, r') -> ip_inv r m -> ip_inv r' m.
Proof.
  unfold ipg_acquire. destruct (c_ipg (cv r id)) as [g0|]; [|done].
  destruct (r_ipgs r !! g0) as [gt0|] eqn:E0; [|done].
  destruct (acquire gt0 src) as [b gt1] eqn:Ea. intros [= -> <-] H.
  destruct (acquire_refused _ _ _ Ea) as [Hi Hc].
  intros g gt; cbn; intros [[<- <-]|[Hne Hgt]]%lookup_insert_Some; [|by apply H].
  eapply gate_ok_ext; [done|done| |by apply (H _ _ E0)]. done.
Qed.

Lemma ip_inv_release r m t h :
  m !! t = Some h -> ip_inv r m -> ip_inv (ipg_release r (cv r (hd_cred h)) (hd_src h)) (delete t m).
Proof.
  intros Ht H.
  assert (Hdel : forall g ip, cnt (in_gate r g ip) (delete t m) =
            cnt (in_gate r g ip) m -
            (if bool_decide (c_ipg (cv r (hd_cred h)) = Some g) && bool_decide (hd_src h = ip) then 1 else 0)).
  { intros g ip. by rewrite (cnt_delete _ _ _ _ Ht). }
  unfold ipg_release. destruct (c_ipg (cv r (hd_cred h))) as [g0|] eqn:Eg.
  - destruct (r_ipgs r !! g0) as [gt0|] eqn:E0.
    + intros g gt; cbn; intros [[<- <-]|[Hne Hgt]]%lookup_insert_Some.
      * eapply gate_ok_ext; [done..| |eapply release_ok; [apply (H _ _ E0)|]].
        -- intros ip. cbn. rewrite <-(cnt_ext (in_gate r g0 ip)) by done. rewrite Hdel.
           by rewrite bool_decide_true by done.
        -- eapply cnt_pos; [exact Ht|]. unfold in_gate. by rewrite Eg, !bool_decide_true.
      * eapply gate_ok_ext; [done..| |by apply H]. intros ip.
        rewrite <-(cnt_ext (in_gate r g ip)) by done. rewrite Hdel, bool_decide_false by congruence.
        cbn. lia.
    + intros g gt Hgt. eapply gate_ok_ext; [done..| |by apply H]. intros ip.
      rewrite Hdel, bool_decide_false by congruence. cbn. lia.
  - intros g gt Hgt. eapply gate_ok_ext; [done..| |by apply H]. intros ip.
    rewrite Hdel, bool_decide_false by congruence. cbn. lia.
Qed.

(** ** Every step preserves the accounting *)

Definition adm_inv (w : world) : Prop := slot_inv (reg w) (held w) /\ ip_inv (reg w) (held w).

Lemma adm_same r r' m : same_admission r r' -> adm_inv (mkWorld r m) -> adm_inv (mkWorld r' m).
Proof. intros [] []. split; [by eapply slot_inv_same|by eapply ip_inv_same]. Qed.

(** [cell] in front of an operation. *)
Lemma with_cell r id :
  exists r', cell r id = (cv r' id, r') /\ same_admission r r' /\ r_idx r' = r_idx r.
Proof.
  destruct (cell_same r id) as (r' & -> & Hcv & Hs & Hg & _ & Hx). exists r'. rewrite Hcv.
  split; [done|]. split; [|done]. split; split; intros; by rewrite ?Hcv, ?Hs, ?Hg.
Qed.

Lemma adm_open_ip r m t id src r' p :
  m !! t = None -> p = HIP -> open_ip r id src = (true, r') ->
  adm_inv (mkWorld r m) -> adm_inv (mkWorld r' (<[t := mkHolder id src p]> m)).
Proof.
  intros Ht -> Ho Hi. unfold open_ip in Ho. destruct (with_cell r id) as (r0 & Hc & Hs & _).
  rewrite Hc in Ho. destruct (adm_same _ _ _ Hs Hi) as [H1 H2]. cbn in H1, H2. split; cbn.
  - pose proof (same_slots_ipg_acquire r0 (cv r0 id) src) as Hss. rewrite Ho in Hss.
    by eapply slot_inv_same, slot_inv_add_ip.
  - by eapply ip_inv_acquire.
Qed.

Lemma adm_open_ip_no r m id src r' :
  open_ip r id src = (false, r') -> adm_inv (mkWorld r m) -> adm_inv (mkWorld r' m).
Proof.
  intros Ho Hi. unfold open_ip in Ho. destruct (with_cell r id) as (r0 & Hc & Hs & _).
  rewrite Hc in Ho. destruct (adm_same _ _ _ Hs Hi) as [H1 H2]. cbn in H1, H2. split; cbn.
  - pose proof (same_slots_ipg_acquire r0 (cv r0 id) src) as Hss. rewrite Ho in Hss.
    by eapply slot_inv_same.
  - by eapply ip_inv_refused.
Qed.

Lemma adm_open_conn r m t id src r' :
  m !! t = Some (mkHolder id src HIP) -> open_conn r id src = (true, r') ->
  adm_inv (mkWorld r m) -> adm_inv (mkWorld r' (<[t := mkHolder id src HSlot]> m)).
Proof.
  intros Ht Ho Hi. unfold open_conn in Ho. destruct (with_cell r id) as (r0 & Hc & Hs & _).
  rewrite Hc in Ho. destruct (adm_same _ _ _ Hs Hi) as [H1 H2]. cbn in H1, H2.
  destruct (tryAcquireConn r0 id (cv r0 id)) as [[] r1] eqn:Ea.
  - injection Ho as <-. split; cbn; [by eapply slot_inv_acquire|].
    eapply ip_inv_phase; [done|]. by eapply ip_inv_same; [eapply same_ips_acquire|].
  - by destruct (cell r1 id).
Qed.

Lemma adm_open_conn_no r m t id src r' :
  m !! t = Some (mkHolder id src HIP) -> open_conn r id src = (false, r') ->
  adm_inv (mkWorld r m) -> adm_inv (mkWorld r' (delete t m)).
Proof.
  intros Ht Ho Hi. unfold open_conn in Ho. destruct (with_cell r id) as (r0 & Hc & Hs & _).
  rewrite Hc in Ho. destruct (adm_same _ _ _ Hs Hi) as [H1 H2]. cbn in H1, H2.
  destruct (tryAcquireConn r0 id (cv r0 id)) as [[] r1] eqn:Ea; [done|].
  destruct (with_cell r1 id) as (r2 & Hc2 & [Hs2 Hi2] & _). rewrite Hc2 in Ho. injection Ho as <-.
  split; cbn.
  - eapply slot_inv_same; [apply same_slots_ipg_release|]. eapply slot_inv_del_ip; [done|].
    eapply slot_inv_same; [exact Hs2|]. by eapply slot_inv_same; [eapply tryAcquire_refused|].
  - apply (ip_inv_release r2 m t (mkHolder id src HIP)); [done|].
    eapply ip_inv_same; [exact Hi2|]. by eapply ip_inv_same; [eapply same_ips_acquire|].
Qed.

(** Giving back a slot and an address. *)
Lemma adm_give r m t h :
  m !! t = Some h -> has_slot h = true -> adm_inv (mkWorld r m) ->
  adm_inv (mkWorld (ipg_release (releaseConn r (hd_cred h) (cv r (hd_cred h)))
                                (cv r (hd_cred h)) (hd_src h)) (delete t m)).
Proof.
  intros Ht Hh [H1 H2]. cbn in H1, H2. split; cbn.
  - eapply slot_inv_same; [apply same_slots_ipg_release|]. by apply slot_inv_release.
  - set (r1 := releaseConn _ _ _). pose proof (same_ips_release r (hd_cred h)) as Hs. fold r1 in Hs.
    assert (ipg_release r1 (cv r (hd_cred h)) (hd_src h) = ipg_release r1 (cv r1 (hd_cred h)) (hd_src h)) as ->.
    { unfold ipg_release. by rewrite (si_cells _ _ Hs). }
    apply ip_inv_release; [done|]. by eapply ip_inv_same.
Qed.

Lemma adm_open_register r m t id src now k r' :
  m !! t = Some (mkHolder id src HSlot) -> open_register r id src now = (Some k, r') ->
  adm_inv (mkWorld r m) -> adm_inv (mkWorld r' (<[t := mkHolder id src (HOpen k)]> m)).
Proof.
  intros Ht Ho Hi. unfold open_register in Ho. set (r0 := set_idx r _ _) in Ho.
  destruct (with_cell r0 id) as (r1 & Hc & Hs & _). rewrite Hc in Ho. unfold addGuarded in Ho.
  destruct (c_disabled (cv r1 id)); [done|]. injection Ho as <- <-.
  set (c' := c_with_total _ _). destruct (same_set_cell r1 id c') as [Ha Hb]; [done..|].
  assert (adm_inv (mkWorld (set_cell r1 id c') m)) as [H1 H2].
  { eapply adm_same; [split; [exact Ha|exact Hb]|]. eapply adm_same; [exact Hs|].
    by eapply adm_same; [apply same_set_idx|]. }
  split; cbn.
  - eapply slot_inv_same; [apply same_set_idx|]. by eapply slot_inv_open.
  - eapply ip_inv_same; [apply same_set_idx|]. by eapply ip_inv_phase.
Qed.

Lemma adm_open_register_no r m t id src now r' :
  m !! t = Some (mkHolder id src HSlot) -> open_register r id src now = (None, r') ->
  adm_inv (mkWorld r m) -> adm_inv (mkWorld r' (delete t m)).
Proof.
  intros Ht Ho Hi. unfold open_register in Ho. set (r0 := set_idx r _ _) in Ho.
  destruct (with_cell r0 id) as (r1 & Hc & Hs & _). rewrite Hc in Ho. unfold addGuarded in Ho.
  destruct (c_disabled (cv r1 id)); [|done]. injection Ho as <-.
  apply (adm_give r1 m t (mkHolder id src HSlot)); [done..|]. eapply adm_same; [exact Hs|].
  by eapply adm_same; [apply same_set_idx|].
Qed.

Lemma adm_close r m t id src k :
  m !! t = Some (mkHolder id src (HOpen k)) -> adm_inv (mkWorld r m) ->
  adm_inv (mkWorld (close_conn r id src k) (delete t m)).
Proof.
  intros Ht Hi. unfold close_conn. destruct (with_cell r id) as (r0 & -> & Hs & _).
  destruct (adm_same _ _ _ Hs Hi) as [H1 H2]. cbn in H1, H2.
  pose proof (slot_inv_release r0 m t _ Ht eq_refl H1) as H3. cbn in H3.
  pose proof (ip_inv_same _ _ _ (same_ips_release r0 id) H2) as H4.
  set (r1 := releaseConn r0 id (cv r0 id)) in *.
  destruct (with_cell r1 id) as (r2 & -> & [Hs2 Hi2] & _).
  apply (slot_inv_same _ _ _ Hs2) in H3. apply (ip_inv_same _ _ _ Hi2) in H4.
  apply (slot_inv_same _ _ _ (same_slots_ipg_release r2 (cv r2 id) src)) in H3.
  apply (ip_inv_release _ _ _ _ Ht) in H4. cbn in H4. set (r3 := ipg_release _ _ _) in *.
  destruct (with_cell r3 id) as (r4 & -> & Hs4 & _).
  eapply adm_same; [apply same_set_idx|].
  eapply adm_same; [apply same_set_cell; reflexivity|]. by eapply adm_same; [exact Hs4|].
Qed.

Lemma adm_step : forall w w', step w w' -> adm_inv w -> adm_inv w'.
Proof.
  intros a1 a2 []; destruct w as [r0 m0]; cbn [reg held] in *; intros Hi;
    eauto using adm_open_ip_no, adm_open_conn, adm_open_conn_no, adm_open_register,
      adm_open_register_no, adm_close, adm_same, same_AddUp, same_AddDown, same_Flush,
      same_disable_set, same_disable_kill, same_Enable, same_KillConn, same_KillIP,
      same_evictIdle, same_ReapIdle, same_IDForBill.
  by eapply adm_open_ip.
Qed.

(** ** Configurations *)

(** What configuration does before any connection arrives. *)
Inductive config :=
| CfgLimits (id : Z) (l : Limits)
| CfgShared (ids : list Z) (l : Limits)
| CfgBill (bill : bytes).

Definition apply_config (r : Registry) (c : config) : Registry :=
  match c with
  | CfgLimits id l => SetLimits r id l
  | CfgShared ids l => SetLimitsShared r ids l
  | CfgBill bill => (IDForBill r bill).2
  end.

Definition configured (cs : list config) : Registry := foldl apply_config NewRegistry cs.

(** A registry on which nothing has been admitted yet. *)
Record quiet (r : Registry) : Prop := {
  q_live : forall id, c_connsLive (cv r id) = 0;
  q_units : forall s sl, r_shareds r !! s = Some sl -> sl_live sl = 0;
  q_gates : forall g gt, r_ipgs r !! g = Some gt -> g_ips gt = ∅;
}.

Lemma quiet_inv r : quiet r -> adm_inv (mkWorld r ∅).
Proof.
  intros [H1 H2 H3]. split; cbn.
  - split; intros; rewrite ?cnt_empty; auto.
    + rewrite H1. destruct H. lia.
    + rewrite (H2 _ _ H). lia.
  - intros g gt Hg%H3. split; rewrite Hg.
    + intros ip. by rewrite cnt_empty, lookup_empty.
    + intros ip k. by rewrite lookup_empty.
    + intros Hc. rewrite map_size_empty. lia.
Qed.

Lemma quiet_set_cell r id c : quiet r -> c_connsLive c = 0 -> quiet (set_cell r id c).
Proof.
  intros [] Hc. split; [|done..]. intros id'. rewrite cv_set_cell. by destruct (decide _).
Qed.

Lemma quiet_cell r id : quiet r -> exists r', cell r id = (cv r id, r') /\ quiet r'.
Proof.
  intros []. destruct (cell_same r id) as (r' & -> & Hcv & Hs & Hg & _). exists r'. split; [done|].
  split; intros *; rewrite ?Hcv, ?Hs, ?Hg; eauto.
Qed.

Lemma quiet_alloc_ipg r n : quiet r -> quiet (alloc_ipg r n).2.
Proof.
  intros []. unfold alloc_ipg. destruct (0 <? n); [|by split]. split; [done..|]. cbn.
  intros g gt [[<- <-]|[? ?]]%lookup_insert_Some; [done|eauto].
Qed.

Lemma quiet_share ids rate g s : forall r,
  quiet r ->
  quiet (foldl (fun r id => let '(c, r) := cell r id in set_cell r id (c_with_limits c 0 rate g (Some s))) r ids).
Proof.
  induction ids as [|id ids IH]; intros r Hr; cbn; [done|]. apply IH.
  destruct (quiet_cell r id Hr) as (r1 & -> & Hr1). apply quiet_set_cell; [done|]. apply (q_live _ Hr).
Qed.

Lemma quiet_configured cs : quiet (configured cs).
Proof.
  unfold configured. assert (quiet NewRegistry) as H0.
  { split; intros *; unfold cv; cbn; by rewrite ?lookup_empty. }
  revert H0. generalize NewRegistry. induction cs as [|[id l|ids l|bill] cs IH]; intros r Hr; cbn; [done|..];
    apply IH.
  - unfold SetLimits. destruct (quiet_cell r id Hr) as (r1 & -> & Hr1).
    pose proof (quiet_alloc_ipg r1 (L_MaxIPs l) Hr1) as Hr2. destruct (alloc_ipg r1 _) as [g r2].
    apply quiet_set_cell; [done|]. cbn. apply (q_live _ Hr).
  - unfold SetLimitsShared. pose proof (quiet_alloc_ipg r (L_MaxIPs l) Hr) as Hr2.
    destruct (alloc_ipg r _) as [g r2]. cbn in Hr2. cbn [alloc_shared].
    assert (quiet (alloc_shared r2 (mkShared (L_MaxConns l) 0 0 (L_Rate l) g)).2) as Hr3.
    { destruct Hr2. split; [done| |done]. cbn. intros s sl [[<- <-]|[? ?]]%lookup_insert_Some; [done|eauto]. }
    by apply quiet_share.
  - unfold IDForBill. destruct (r_bills r !! bill); [done|]. by destruct Hr.
Qed.

Lemma adm_reachable cs w : rtc step (mkWorld (configured cs) ∅) w -> adm_inv w.
Proof.
  intros H. pose proof (quiet_inv _ (quiet_configured cs)) as Hi. revert Hi.
  induction H; eauto using adm_step.
Qed.

(** ** The kill switch *)

(** [r'] has no live connection where [r] has none. *)
Definition shrinks (r r' : Registry) : Prop :=
  forall id, c_live (cv r id) = ∅ -> c_live (cv r' id) = ∅.

#[export] Instance shrinks_preorder : PreOrder shrinks.
Proof. split; [by intros r id|]. intros a b c H1 H2 id H. by apply H2, H1. Qed.

Lemma shrinks_set_cell r id c :
  (c_live (cv r id) = ∅ -> c_live c = ∅) -> shrinks r (set_cell r id c).
Proof. intros H id'. rewrite cv_set_cell. destruct (decide (id = id')) as [<-|]; auto. Qed.

Lemma shrinks_update r id c c' :
  r_cells r !! id = Some c -> (c_live c = ∅ -> c_live c' = ∅) -> shrinks r (set_cell r id c').
Proof. intros H%cv_lookup Hc. apply shrinks_set_cell. by rewrite H. Qed.

Lemma shrinks_cell r id : exists r', cell r id = (cv r' id, r') /\ (forall i, cv r' i = cv r i).
Proof. destruct (cell_same r id) as (r' & -> & Hcv & _). exists r'. by rewrite Hcv. Qed.

Lemma shrinks_cv r r' : (forall i, cv r' i = cv r i) -> shrinks r r'.
Proof. intros H id. by rewrite H. Qed.

Lemma shrinks_ipg_acquire r c src : shrinks r (ipg_acquire r c src).2.
Proof.
  unfold ipg_acquire. destruct (c_ipg c); [|done]. destruct (r_ipgs r !! _); [|done].
  destruct (acquire _ _). by apply shrinks_cv.
Qed.
Lemma shrinks_ipg_release r c src : shrinks r (ipg_release r c src).
Proof. unfold ipg_release. destruct (c_ipg c); [|done]. destruct (r_ipgs r !! _); by apply shrinks_cv. Qed.

Lemma shrinks_tryAcquire r id : shrinks r (tryAcquireConn r id (cv r id)).2.
Proof.
  unfold tryAcquireConn. destruct (shared_cap _ _) as [[s sl]|].
  - destruct (_ <=? _); apply (shrinks_set_cell (set_shareds r _)); done.
  - destruct (_ =? 0); [|destruct (_ <=? _)]; by apply shrinks_set_cell.
Qed.
Lemma shrinks_releaseConn r id : shrinks r (releaseConn r id (cv r id)).
Proof. rewrite releaseConn_eq. by apply (shrinks_set_cell (set_shareds r _)). Qed.

Lemma shrinks_open_ip r id src : shrinks r (open_ip r id src).2.
Proof.
  unfold open_ip. destruct (shrinks_cell r id) as (r' & -> & H).
  etransitivity; [by apply shrinks_cv|apply shrinks_ipg_acquire].
Qed.

Lemma shrinks_open_conn r id src : shrinks r (open_conn r id src).2.
Proof.
  unfold open_conn. destruct (shrinks_cell r id) as (r1 & -> & H).
  pose proof (shrinks_tryAcquire r1 id) as H1. destruct (tryAcquireConn r1 id _) as [[] r2]; cbn in *.
  - etransitivity; [by apply shrinks_cv|done].
  - destruct (shrinks_cell r2 id) as (r3 & -> & H3). cbn. etransitivity; [by apply (shrinks_cv r r1)|].
    etransitivity; [exact H1|]. etransitivity; [by apply (shrinks_cv r2 r3)|apply shrinks_ipg_release].
Qed.

Lemma shrinks_close r id src k : shrinks r (close_conn r id src k).
Proof.
  unfold close_conn. destruct (shrinks_cell r id) as (r1 & -> & H1).
  set (r2 := releaseConn r1 id _). destruct (shrinks_cell r2 id) as (r3 & -> & H3).
  set (r4 := ipg_release _ _ _). destruct (shrinks_cell r4 id) as (r5 & -> & H5).
  etransitivity; [by apply (shrinks_cv r r1)|]. etransitivity; [apply shrinks_releaseConn|].
  etransitivity; [by apply (shrinks_cv r2 r3)|]. etransitivity; [apply shrinks_ipg_release|].
  fold r4. etransitivity; [by apply (shrinks_cv r4 r5)|].
  apply (shrinks_set_cell r5). cbn. intros ->. apply delete_empty.
Qed.

Lemma shrinks_open_register r id src now r' :
  open_register r id src now = (None, r') -> shrinks r r'.
Proof.
  unfold open_register. set (r0 := set_idx r _ _). destruct (shrinks_cell r0 id) as (r1 & -> & H).
  unfold addGuarded. destruct (c_disabled _); [|done]. intros [= <-].
  etransitivity; [by apply (shrinks_cv r r1)|].
  etransitivity; [apply shrinks_releaseConn|apply shrinks_ipg_release].
Qed.

(** Registering on another credential, or not at all. *)
Lemma register_disabled r id src now k r' i :
  open_register r id src now = (Some k, r') -> c_disabled (cv r i) = true ->
  c_live (cv r i) = ∅ -> c_live (cv r' i) = ∅.
Proof.
  unfold open_register. set (r0 := set_idx r _ _). destruct (shrinks_cell r0 id) as (r1 & -> & H).
  unfold addGuarded. destruct (c_disabled (cv r1 id)) eqn:Ed; [done|]. intros [= <- <-] Hd Hl.
  unfold set_idx. unfold cv at 1. cbn. destruct (decide (id = i)) as [<-|Hne].
  - rewrite H in Ed. unfold r0, cv in Ed. cbn in Ed. unfold cv in Hd. congruence.
  - rewrite lookup_insert_ne by done. fold (cv r1 i). by rewrite H.
Qed.

Lemma shrinks_touch r m now : shrinks r (touch r m now).
Proof.
  unfold touch. destruct (m_cell m); [|done]. destruct (m_conn m); [|done].
  destruct (r_cells r !! _) eqn:E; [|done]. destruct (c_live c !! _) eqn:F; [|done].
  eapply shrinks_update; [done|]. intros He. by rewrite He, lookup_empty in F.
Qed.

Lemma shrinks_kill_live r id k : shrinks r (kill_live r id k).2.
Proof.
  unfold kill_live. destruct (r_cells r !! id) eqn:E; [|done]. destruct (c_live c !! k); [|done].
  eapply (shrinks_update r id c); [done|]. cbn. intros ->. apply delete_empty.
Qed.

Lemma shrinks_evict_loop ents : forall r n, shrinks r (evict_loop r ents n).2.
Proof.
  induction ents as [|[[id k] l] ents IH]; intros r n; cbn; [done|]. destruct n; [done|].
  pose proof (shrinks_kill_live r id k) as H. destruct (kill_live r id k) as [[] r'].
  - specialize (IH r' n). destruct (evict_loop r' ents n). by etransitivity.
  - by etransitivity; [|apply IH].
Qed.

Lemma shrinks_step_other : forall w w', step w w' ->
  shrinks (reg w) (reg w') \/
  exists id src now k, open_register (reg w) id src now = (Some k, reg w').
Proof.
  intros a1 a2 []; cbn [reg].
  - left. pose proof (shrinks_open_ip (reg w) id src) as Hs. by rewrite H0 in Hs.
  - left. pose proof (shrinks_open_ip (reg w) id src) as Hs. by rewrite H in Hs.
  - left. pose proof (shrinks_open_conn (reg w) id src) as Hs. by rewrite H0 in Hs.
  - left. pose proof (shrinks_open_conn (reg w) id src) as Hs. by rewrite H0 in Hs.
  - right. eauto.
  - left. by eapply shrinks_open_register.
  - left. apply shrinks_close.
  - left. unfold AddUp. destruct (n <=? 0); [done|]. destruct (_ <=? _); [|done].
    set (m' := mkMeter _ _ _ _ _). etransitivity; [apply (shrinks_touch (reg w) m' now)|].
    unfold drain_up. destruct (m_cell m'); [|done]. destruct (r_cells _ !! _) eqn:E; [|done].
    by eapply shrinks_update.
  - left. unfold AddDown. destruct (n <=? 0); [done|]. destruct (_ <=? _); [|done].
    set (m' := mkMeter _ _ _ _ _). etransitivity; [apply (shrinks_touch (reg w) m' now)|].
    unfold drain_down. destruct (m_cell m'); [|done]. destruct (r_cells _ !! _) eqn:E; [|done].
    by eapply shrinks_update.
  - left. unfold Flush. destruct (m_cell m); [|done]. destruct (r_cells _ !! _) eqn:E; [|done].
    by eapply shrinks_update.
  - left. unfold disable_set in H. destruct (r_cells _ !! id) eqn:E; [|done]. injection H as <-.
    by eapply shrinks_update.
  - left. unfold disable_kill in H. destruct (r_cells _ !! id) eqn:E; [|done]. injection H as <- <-.
    by eapply (shrinks_update (reg w) id c (c_with_live c ∅)).
  - left. unfold Enable. destruct (r_cells _ !! id) eqn:E; [|done]. by eapply shrinks_update.
  - left. unfold KillConn. destruct (r_idx _ !! connID) as [id|]; [|done].
    pose proof (shrinks_kill_live (reg w) id connID). by destruct (kill_live _ _ _).
  - left. unfold KillIP. destruct (r_cells _ !! id) eqn:E; [|done].
    eapply (shrinks_update (reg w) id c (c_with_live c _)); [done|]. cbn. intros ->.
    apply map_empty. intros i. apply lookup_difference_None. left. apply lookup_empty.
  - left. unfold evictIdle. destruct (_ <=? _); [done|apply shrinks_evict_loop].
  - left. unfold ReapIdle. destruct (_ <=? _); [done|apply shrinks_evict_loop].
  - left. unfold IDForBill. destruct (r_bills _ !! bill); by apply shrinks_cv.
Qed.

(** ** Bytes *)

Definition zsum {A} (f : A -> Z) (l : list A) : Z := foldr (fun x a => f x + a) 0 l.

Lemma zsum_app {A} (f : A -> Z) l k : zsum f (l ++ k) = zsum f l + zsum f k.
Proof. induction l; cbn; [done|]. unfold zsum in *. lia. Qed.

Lemma zsum_insert {A} (f : A -> Z) l i x y :
  l !! i = Some x -> zsum f (<[i := y]> l) = zsum f l - f x + f y.
Proof.
  intros H. rewrite insert_take_drop by (by eapply lookup_lt_Some).
  rewrite <-(take_drop_middle l i x H) at 3. rewrite !zsum_app. cbn. unfold zsum. lia.
Qed.

(** What the relay goroutines of the connections of one credential do, interleaved. *)
Inductive mop := MUp (i : nat) (n now : Z) | MDown (i : nat) (n now : Z) | MFlush (i : nat).

Definition mrun1 (s : Registry * list Meter) (o : mop) : Registry * list Meter :=
  let '(r, ms) := s in
  match o with
  | MUp i n now =>
      match ms !! i with
      | Some m => let '(r, m, _) := AddUp r m n now in (r, <[i := m]> ms)
      | None => (r, ms)
      end
  | MDown i n now =>
      match ms !! i with
      | Some m => let '(r, m, _) := AddDown r m n now in (r, <[i := m]> ms)
      | None => (r, ms)
      end
  | MFlush i =>
      match ms !! i with
      | Some m => let '(r, m) := Flush r m in (r, <[i := m]> ms)
      | None => (r, ms)
      end
  end.

(** The bytes an operation reports upward. *)
Definition up_bytes (len : nat) (o : mop) : Z :=
  match o with MUp i n _ => if (i <? len)%nat then Z.max 0 n else 0 | _ => 0 end.
Definition down_bytes (len : nat) (o : mop) : Z :=
  match o with MDown i n _ => if (i <? len)%nat then Z.max 0 n else 0 | _ => 0 end.

Definition meter_ok (id : Z) (m : Meter) : Prop :=
  m_cell m = Some id /\ 0 <= m_localUp m < drainThreshold /\ 0 <= m_localDn m < drainThreshold.

(** The bytes of a credential: drained and still private. *)
Definition up_total (id : Z) (s : Registry * list Meter) : Z := c_up (cv s.1 id) + zsum m_localUp s.2.
Definition down_total (id : Z) (s : Registry * list Meter) : Z := c_down (cv s.1 id) + zsum m_localDn s.2.

Definition eq64 (a b : Z) : Prop := w64 a = w64 b.

Lemma eq64_w a b : eq64 (w64 a + b) (a + b).
Proof. unfold eq64, w64. apply Zplus_mod_idemp_l. Qed.

(** A cell that exists, seen through an operation on it. *)
Record op_ok (id : Z) (s s' : Registry * list Meter) (u d : Z) : Prop := {
  oo_up : eq64 (up_total id s') (up_total id s + u);
  oo_down : eq64 (down_total id s') (down_total id s + d);
  oo_len : length s'.2 = length s.2;
  oo_cell : is_Some (r_cells s'.1 !! id);
  oo_meters : Forall (meter_ok id) s'.2;
}.

Lemma touch_cell r id m now c :
  m_cell m = Some id -> r_cells r !! id = Some c ->
  exists c', r_cells (touch r m now) !! id = Some c' /\ c_up c' = c_up c /\ c_down c' = c_down c.
Proof.
  intros Hm Hc. unfold touch. rewrite Hm. destruct (m_conn m); [|eauto]. rewrite Hc.
  destruct (c_live c !! _); [|eauto]. cbn. rewrite lookup_insert_eq. eauto.
Qed.

Lemma op_noop id r ms :
  is_Some (r_cells r !! id) -> Forall (meter_ok id) ms -> op_ok id (r, ms) (r, ms) 0 0.
Proof. intros Hc Hm. split; try done; unfold eq64; by rewrite Z.add_0_r. Qed.

(** Replacing meter [i] and the counters of the cell. *)
Lemma op_update id r r' ms i m m' c c' u d :
  r_cells r !! id = Some c -> r_cells r' !! id = Some c' -> ms !! i = Some m ->
  Forall (meter_ok id) ms -> meter_ok id m' ->
  eq64 (c_up c' + m_localUp m') (c_up c + m_localUp m + u) ->
  eq64 (c_down c' + m_localDn m') (c_down c + m_localDn m + d) ->
  op_ok id (r, ms) (r', <[i := m']> ms) u d.
Proof.
  intros Hc Hc' Hi Hm Hm' Hu Hd. split; cbn [fst snd].
  - unfold up_total. cbn [fst snd]. rewrite (zsum_insert _ _ _ _ _ Hi), (cv_lookup _ _ _ Hc), (cv_lookup _ _ _ Hc').
    unfold eq64, w64 in *. set (z := zsum m_localUp ms).
    replace (c_up c' + (z - m_localUp m + m_localUp m')) with (c_up c' + m_localUp m' + (z - m_localUp m)) by lia.
    rewrite <-Zplus_mod_idemp_l, Hu, Zplus_mod_idemp_l. f_equal. lia.
  - unfold down_total. cbn [fst snd]. rewrite (zsum_insert _ _ _ _ _ Hi), (cv_lookup _ _ _ Hc), (cv_lookup _ _ _ Hc').
    unfold eq64, w64 in *. set (z := zsum m_localDn ms).
    replace (c_down c' + (z - m_localDn m + m_localDn m')) with (c_down c' + m_localDn m' + (z - m_localDn m)) by lia.
    rewrite <-Zplus_mod_idemp_l, Hd, Zplus_mod_idemp_l. f_equal. lia.
  - apply length_insert.
  - eauto.
  - by apply Forall_insert.
Qed.

Lemma local_sum a n : 0 <= a < drainThreshold -> 0 < n < 2 ^ 63 -> w64 (a + n) = a + n.
Proof. intros ? ?. apply w64_small. unfold in_u64, drainThreshold in *. lia. Qed.

Lemma AddUp_ok id r ms i m n now :
  is_Some (r_cells r !! id) -> Forall (meter_ok id) ms -> ms !! i = Some m -> n < 2 ^ 63 ->
  let '(r', m', _) := AddUp r m n now in op_ok id (r, ms) (r', <[i := m']> ms) (Z.max 0 n) 0.
Proof.
  intros [c Hc] Hm Hi Hn. destruct (Forall_lookup_1 _ _ _ _ Hm Hi) as (Hid & Hu & Hd).
  unfold AddUp. destruct (Z.leb_spec n 0).
  { rewrite list_insert_id by done. rewrite Z.max_l by lia. apply op_noop; eauto. }
  rewrite Z.max_r by lia. set (m1 := mkMeter _ _ _ _ _). cbn [m_localUp m1].
  assert (Hsum : w64 (m_localUp m + n) = m_localUp m + n) by (apply local_sum; lia).
  destruct (Z.leb_spec drainThreshold (w64 (m_localUp m + n))).
  - destruct (touch_cell r id m1 now c Hid Hc) as (c1 & Hc1 & Eu & Ed).
    unfold drain_up. cbn [m_cell m1]. rewrite Hid, Hc1.
    eapply op_update; [done|cbn; apply lookup_insert_eq|done..| | |].
    + repeat split; cbn; try done; unfold drainThreshold in *; lia.
    + cbn. rewrite Eu. unfold eq64. rewrite Z.add_0_r. rewrite Hsum. unfold w64.
      rewrite Z.mod_mod by lia. f_equal. lia.
    + cbn. rewrite Ed. unfold eq64. f_equal. lia.
  - eapply op_update; [done..| | |].
    + repeat split; cbn; try done; rewrite ?Hsum in *; lia.
    + cbn. unfold eq64. rewrite Hsum. f_equal. lia.
    + cbn. unfold eq64. f_equal. lia.
Qed.

Lemma AddDown_ok id r ms i m n now :
  is_Some (r_cells r !! id) -> Forall (meter_ok id) ms -> ms !! i = Some m -> n < 2 ^ 63 ->
  let '(r', m', _) := AddDown r m n now in op_ok id (r, ms) (r', <[i := m']> ms) 0 (Z.max 0 n).
Proof.
  intros [c Hc] Hm Hi Hn. destruct (Forall_lookup_1 _ _ _ _ Hm Hi) as (Hid & Hu & Hd).
  unfold AddDown. destruct (Z.leb_spec n 0).
  { rewrite list_insert_id by done. rewrite Z.max_l by lia. apply op_noop; eauto. }
  rewrite Z.max_r by lia. set (m1 := mkMeter _ _ _ _ _). cbn [m_localDn m1].
  assert (Hsum : w64 (m_localDn m + n) = m_localDn m + n) by (apply local_sum; lia).
  destruct (Z.leb_spec drainThreshold (w64 (m_localDn m + n))).
  - destruct (touch_cell r id m1 now c Hid Hc) as (c1 & Hc1 & Eu & Ed).
    unfold drain_down. cbn [m_cell m1]. rewrite Hid, Hc1.
    eapply op_update; [done|cbn; apply lookup_insert_eq|done..| | |].
    + repeat split; cbn; try done; unfold drainThreshold in *; lia.
    + cbn. rewrite Eu. unfold eq64. f_equal. lia.
    + cbn. rewrite Ed. unfold eq64. rewrite Z.add_0_r. rewrite Hsum. unfold w64.
      rewrite Z.mod_mod by lia. f_equal. lia.
  - eapply op_update; [done..| | |].
    + repeat split; cbn; try done; rewrite ?Hsum in *; lia.
    + cbn. unfold eq64. f_equal. lia.
    + cbn. unfold eq64. rewrite Hsum. f_equal. lia.
Qed.

Lemma flush_add c l : 0 <= l -> eq64 ((if 0 <? l then w64 (c + l) else c) + 0) (c + l + 0).
Proof.
  intros Hl. destruct (Z.ltb_spec 0 l).
  - rewrite !Z.add_0_r. unfold eq64, w64. by rewrite Z.mod_mod by lia.
  - replace l with 0 by lia. unfold eq64. f_equal. lia.
Qed.

Lemma Flush_ok id r ms i m :
  is_Some (r_cells r !! id) -> Forall (meter_ok id) ms -> ms !! i = Some m ->
  let '(r', m') := Flush r m in op_ok id (r, ms) (r', <[i := m']> ms) 0 0.
Proof.
  intros [c Hc] Hm Hi. destruct (Forall_lookup_1 _ _ _ _ Hm Hi) as (Hid & Hu & Hd).
  unfold Flush. rewrite Hid, Hc.
  eapply op_update; [done|cbn; apply lookup_insert_eq|done..| | |].
  - repeat split; cbn; try done; unfold drainThreshold in *; lia.
  - cbn. apply flush_add. lia.
  - cbn. apply flush_add. lia.
Qed.

Lemma mrun1_ok id s o :
  is_Some (r_cells s.1 !! id) -> Forall (meter_ok id) s.2 ->
  match o with MUp _ n _ | MDown _ n _ => n < 2 ^ 63 | MFlush _ => True end ->
  op_ok id s (mrun1 s o) (up_bytes (length s.2) o) (down_bytes (length s.2) o).
Proof.
  destruct s as [r ms]. cbn [fst snd]. intros Hc Hm Hn.
  assert (Hidx : forall i m, ms !! i = Some m -> (i <? length ms)%nat = true).
  { intros i m Hi. apply Nat.ltb_lt. by eapply lookup_lt_Some. }
  assert (Hout : forall i, ms !! i = None -> (i <? length ms)%nat = false).
  { intros i Hi. apply Nat.ltb_ge. by apply lookup_ge_None. }
  destruct o as [i n now|i n now|i]; cbn [mrun1 up_bytes down_bytes]; destruct (ms !! i) as [m|] eqn:Hi;
    rewrite ?(Hidx _ _ Hi), ?(Hout _ Hi); try by apply op_noop.
  - pose proof (AddUp_ok id r ms i m n now Hc Hm Hi Hn). by destruct (AddUp _ _ _ _) as [[r' m'] th].
  - pose proof (AddDown_ok id r ms i m n now Hc Hm Hi Hn). by destruct (AddDown _ _ _ _) as [[r' m'] th].
  - pose proof (Flush_ok id r ms i m Hc Hm Hi). by destruct (Flush _ _).
Qed.

Definition mrun (s : Registry * list Meter) (os : list mop) : Registry * list Meter := foldl mrun1 s os.

Definition bounded (o : mop) : Prop :=
  match o with MUp _ n _ | MDown _ n _ => n < 2 ^ 63 | MFlush _ => True end.

Lemma mrun_ok id os : forall s,
  is_Some (r_cells s.1 !! id) -> Forall (meter_ok id) s.2 -> Forall bounded os ->
  op_ok id s (mrun s os) (zsum (up_bytes (length s.2)) os) (zsum (down_bytes (length s.2)) os).
Proof.
  induction os as [|o os IH]; intros s Hc Hm Hb; cbn [mrun foldl].
  { destruct s. by apply op_noop. }
  apply Forall_cons in Hb as [Ho Hb]. destruct (mrun1_ok id s o Hc Hm Ho) as [H1 H2 H3 H4 H5].
  destruct (IH _ H4 H5 Hb) as [H1' H2' H3' H4' H5']. rewrite H3 in H1', H2'.
  split; [| |by etransitivity; [exact H3'|]|done..]; cbn [zsum foldr].
  - unfold eq64, w64 in *. unfold mrun in *. rewrite H1', <-Zplus_mod_idemp_l, H1, Zplus_mod_idemp_l.
    f_equal. unfold zsum. lia.
  - unfold eq64, w64 in *. unfold mrun in *. rewrite H2', <-Zplus_mod_idemp_l, H2, Zplus_mod_idemp_l.
    f_equal. unfold zsum. lia.
Qed.

(** ** Eviction *)

Lemma elem_entries r id k last :
  (id, k, last) ∈ entries r <->
  exists c h, r_cells r !! id = Some c /\ c_live c !! k = Some h /\ h_lastActive h = last.
Proof.
  unfold entries. rewrite list_elem_of_In, in_concat. split.
  - intros (l & Hl%list_elem_of_In & He%list_elem_of_In).
    apply list_elem_of_fmap in Hl as ([id' c] & -> & Hc%elem_of_map_to_list).
    apply list_elem_of_fmap in He as ([k' h] & E & Hh%elem_of_map_to_list). simplify_eq/=. eauto 6.
  - intros (c & h & Hc & Hh & <-).
    exists ((fun q => (id, q.1, h_lastActive q.2)) <$> map_to_list (c_live c)).
    rewrite <-!list_elem_of_In, !list_elem_of_fmap. split.
    + exists (id, c). by rewrite elem_of_map_to_list.
    + exists (k, h). by rewrite elem_of_map_to_list.
Qed.

Lemma entries_key r e1 e2 : e1 ∈ entries r -> e2 ∈ entries r -> e1.1 = e2.1 -> e1 = e2.
Proof.
  destruct e1 as [[id1 k1] l1], e2 as [[id2 k2] l2]. rewrite !elem_entries.
  intros (c1 & h1 & ? & ? & <-) (c2 & h2 & ? & ? & <-) E. cbn in E. by simplify_eq.
Qed.

Lemma NoDup_entries r : NoDup ((entries r).*1).
Proof.
  unfold entries. pose proof (NoDup_fst_map_to_list (r_cells r)) as Hn.
  induction (map_to_list (r_cells r)) as [|[id c] l IH]; cbn; [constructor|].
  apply NoDup_cons in Hn as [Hnot Hn]. rewrite fmap_app. apply NoDup_app. split_and!; [| |by apply IH].
  - assert (((fun q : Z * connHandle => (id, q.1, h_lastActive q.2)) <$> map_to_list (c_live c)).*1
            = pair id <$> (map_to_list (c_live c)).*1) as -> by (by rewrite <-!list_fmap_compose).
    apply NoDup_fmap; [intros ? ? [=]; done|apply NoDup_fst_map_to_list].
  - intros [id' k] H1 H2. apply Hnot.
    apply list_elem_of_fmap in H1 as ([[? ?] ?] & E1 & H1). apply list_elem_of_fmap in H1 as ([? ?] & ? & _).
    simplify_eq/=. apply list_elem_of_fmap in H2 as ([[i2 k2] l2] & E2 & H2). simplify_eq/=.
    apply list_elem_of_In, in_concat in H2 as (l' & Hl'%list_elem_of_In & He%list_elem_of_In).
    apply list_elem_of_fmap in Hl' as ([i3 c3] & -> & Hin). apply list_elem_of_fmap in He as (q & E & _).
    simplify_eq/=. apply list_elem_of_fmap. by exists (i3, c3).
Qed.

Lemma kill_live_entry r id k last :
  (id, k, last) ∈ entries r ->
  exists r', kill_live r id k = (true, r') /\ r_killed r' = r_killed r ++ [k] /\
    forall e, e ∈ entries r' <-> e ∈ entries r /\ e.1 <> (id, k).
Proof.
  intros (c & h & Hc & Hh & _)%elem_entries. unfold kill_live. rewrite Hc, Hh.
  eexists. split; [done|]. split; [done|]. intros [[id' k'] l']. rewrite !elem_entries. cbn.
  destruct (decide (id = id')) as [<-|Hne].
  - rewrite lookup_insert_eq. split.
    + intros (? & h' & [= <-] & Hd & ?). cbn in Hd. apply lookup_delete_Some in Hd as [? ?].
      split; [eauto 6|congruence].
    + intros [(c' & h' & ? & ? & ?) Hk]. simplify_eq. eexists _, h'. split; [done|].
      split; [|done]. cbn. rewrite lookup_delete_ne; [done|congruence].
  - rewrite lookup_insert_ne by done. split; [|naive_solver]. intros ?. split; [done|congruence].
Qed.

Lemma evict_loop_spec ents : forall r n,
  NoDup (ents.*1) -> (forall e, e ∈ ents -> e ∈ entries r) ->
  let '(k, r') := evict_loop r ents n in
  k = Nat.min n (length ents) /\ r_killed r' = r_killed r ++ (take k ents).*1.*2 /\
  forall e, e ∈ entries r' <-> e ∈ entries r /\ e.1 ∉ (take k ents).*1.
Proof.
  induction ents as [|[[id k] last] ents IH]; intros r n Hnd Hin.
  { cbn. rewrite Nat.min_0_r, app_nil_r. split_and!; [done..|]. intros e.
    cbn. pose proof (not_elem_of_nil e.1). naive_solver. }
  destruct n as [|n]; cbn.
  { rewrite app_nil_r. split_and!; [done..|]. intros e. pose proof (not_elem_of_nil e.1). naive_solver. }
  destruct (kill_live_entry r id k last) as (r1 & -> & Hk1 & He1); [apply Hin; set_solver|].
  cbn in Hnd. apply NoDup_cons in Hnd as [Hnot Hnd]. specialize (IH r1 n Hnd).
  destruct (evict_loop r1 ents n) as [k' r']. destruct IH as (-> & Hk & He).
  { intros e Hin'. apply He1. split; [apply Hin; set_solver|]. intros E. apply Hnot.
    apply list_elem_of_fmap. by exists e. }
  split; [done|]. split; [by rewrite Hk, Hk1, <-app_assoc|]. intros e. rewrite He, He1. cbn.
  rewrite not_elem_of_cons. tauto.
Qed.

(** ** Identity *)

(** The two tables are inverse, and every identifier is above the reserved ones. *)
Record bill_inv (r : Registry) : Prop := {
  bi_label : forall b id, r_bills r !! b = Some id -> r_labels r !! id = Some b /\ UserBase < id < r_nextID r;
  bi_back : forall id b, r_labels r !! id = Some b -> r_bills r !! b = Some id;
  bi_next : r_nextID r = UserBase + 1 + Z.of_nat (size (r_bills r));
}.

Lemma bill_inv_step r b :
  bill_inv r -> Z.of_nat (size (r_bills r)) < 2 ^ 63 -> bill_inv (IDForBill r b).2.
Proof.
  intros [H1 H2 H3] Hs. unfold IDForBill. destruct (r_bills r !! b) as [id|] eqn:E; [done|].
  assert (Hnext : w64 (r_nextID r + 1) = r_nextID r + 1).
  { apply w64_small. unfold in_u64, UserBase in *. rewrite H3. lia. }
  split; cbn; rewrite ?Hnext.
  - intros b' id' [[<- <-]|[Hne Hb]]%lookup_insert_Some.
    + rewrite lookup_insert_eq. split; [done|]. unfold UserBase in *. lia.
    + destruct (H1 _ _ Hb) as [Hl Hr]. rewrite lookup_insert_ne by lia. split; [done|lia].
  - intros id' b' [[<- <-]|[Hne Hl]]%lookup_insert_Some; [by rewrite lookup_insert_eq|].
    pose proof (H2 _ _ Hl). rewrite lookup_insert_ne by congruence. done.
  - rewrite map_size_insert_None by done. lia.
Qed.

(** The identifiers a sequence of bills gets. *)
Definition assign (r : Registry) (bills : list bytes) : Registry :=
  foldl (fun r b => (IDForBill r b).2) r bills.

Lemma bill_size_step r b :
  (size (r_bills (IDForBill r b).2) <= S (size (r_bills r)))%nat.
Proof.
  unfold IDForBill. destruct (r_bills r !! b) eqn:E; cbn; [lia|]. rewrite map_size_insert_None by done. lia.
Qed.

Lemma assign_inv bills : forall r,
  bill_inv r -> Z.of_nat (size (r_bills r) + length bills) < 2 ^ 63 -> bill_inv (assign r bills).
Proof.
  induction bills as [|b bills IH]; intros r Hr Hs; cbn; [done|]. cbn in Hs.
  pose proof (bill_size_step r b). apply IH; [apply bill_inv_step; [done|lia]|lia].
Qed.

Lemma IDForBill_stable r b b' id :
  r_bills r !! b = Some id -> r_bills (IDForBill r b').2 !! b = Some id.
Proof.
  intros H. unfold IDForBill. destruct (r_bills r !! b') eqn:E; [done|]. cbn.
  rewrite lookup_insert_ne; [done|congruence].
Qed.

Lemma assign_stable bills : forall r b id,
  r_bills r !! b = Some id -> r_bills (assign r bills) !! b = Some id.
Proof.
  induction bills as [|b' bills IH]; intros r b id H; cbn; [done|]. by apply IH, IDForBill_stable.
Qed.

Lemma bill_inv_new : bill_inv NewRegistry.
Proof. split; cbn; intros *; rewrite ?lookup_empty, ?map_size_empty; done. Qed.

(** ** The properties *)

(** With no connection left, nothing is counted. *)
Lemma registry_idle w :
  adm_inv w -> held w = ∅ ->
  (forall id, c_connsLive (cv (reg w) id) = 0) /\
  (forall s sl, r_shareds (reg w) !! s = Some sl -> 0 < sl_maxConns sl -> sl_live sl = 0) /\
  (forall g gt, r_ipgs (reg w) !! g = Some gt -> g_ips gt = ∅).
Proof.
  intros [[H1 H2 H3] H4] He. rewrite He in *. split_and!.
  - intros id. by rewrite H1, cnt_empty.
  - intros s sl Hs Hm. destruct (H3 s sl Hs Hm) as [-> _]. apply cnt_empty.
  - intros g gt Hg. destruct (H4 g gt Hg) as [G1 G2 _]. apply map_empty. intros ip.
    destruct (g_ips gt !! ip) as [k|] eqn:E; [|done]. specialize (G1 ip). specialize (G2 ip k E).
    rewrite E, cnt_empty in G1. cbn in G1. lia.
Qed.

(** [C4] Whatever interleaving of admissions, closes, kills, evictions and traffic
    follows a configuration: a credential with its own limit never has more connections
    admitted than it, the credentials of one person together never more than their
    shared limit, and every connection behind an address gate comes from one of at most
    [MaxIPs] addresses. When no connection is left, every counter is back to zero and
    every gate empty. *)
Theorem admission_limits_hold cs w :
  rtc step (mkWorld (configured cs) ∅) w ->
  (forall id, own_cap (reg w) (cv (reg w) id) ->
     cnt (of_cred id) (held w) <= c_maxConns (cv (reg w) id)) /\
  (forall s sl, r_shareds (reg w) !! s = Some sl -> 0 < sl_maxConns sl ->
     cnt (in_unit (reg w) s) (held w) <= sl_maxConns sl) /\
  (forall g gt, r_ipgs (reg w) !! g = Some gt -> 0 < g_cap gt ->
     Z.of_nat (size (g_ips gt)) <= g_cap gt /\
     forall t h, held w !! t = Some h -> c_ipg (cv (reg w) (hd_cred h)) = Some g ->
       is_Some (g_ips gt !! hd_src h)) /\
  (held w = ∅ ->
     (forall id, c_connsLive (cv (reg w) id) = 0) /\
     (forall s sl, r_shareds (reg w) !! s = Some sl -> 0 < sl_maxConns sl -> sl_live sl = 0) /\
     (forall g gt, r_ipgs (reg w) !! g = Some gt -> g_ips gt = ∅)).
Proof.
  intros Hinv%adm_reachable. pose proof Hinv as [[H1 H2 H3] H4]. split_and!.
  - intros id Hc. rewrite <-H1. by apply H2.
  - intros s sl Hs Hm. destruct (H3 s sl Hs Hm) as [<- ?]. done.
  - intros g gt Hg Hc. destruct (H4 g gt Hg) as [G1 G2 G3]. split; [auto|]. intros t h Hh Hi.
    specialize (G1 (hd_src h)). destruct (g_ips gt !! hd_src h) eqn:E; [eauto|]. cbn in G1.
    assert (0 < cnt (in_gate (reg w) g (hd_src h)) (held w)); [|lia].
    eapply cnt_pos; [exact Hh|]. unfold in_gate. by rewrite Hi, !bool_decide_true.
  - intros He. by apply registry_idle.
Qed.

(** Steps that do not enable [id] again. *)
Definition step_disabled (id : Z) (w w' : world) : Prop :=
  step w w' /\ (c_disabled (cv (reg w) id) = true -> c_disabled (cv (reg w') id) = true).

(** [C23] [Disable] kills every live connection of the credential, and from then on,
    however openings that had already passed their other checks interleave, no connection
    of that credential is live until it is enabled again. *)
Theorem disabled_stays_empty w id n r' w2 :
  Disable (reg w) id = Some (n, r') -> rtc (step_disabled id) (mkWorld r' (held w)) w2 ->
  n = size (c_live (cv (reg w) id)) /\
  r_killed r' = r_killed (reg w) ++ (map_to_list (c_live (cv (reg w) id))).*1 /\
  c_disabled (cv (reg w2) id) = true /\ c_live (cv (reg w2) id) = ∅.
Proof.
  unfold Disable, disable_set, disable_kill, killAll. intros Hd Hr.
  destruct (r_cells (reg w) !! id) as [c|] eqn:E; [|done]. cbn in Hd. rewrite lookup_insert_eq in Hd.
  injection Hd as <- <-. rewrite (cv_lookup _ _ _ E). split; [by rewrite length_fmap, length_map_to_list|].
  split; [done|]. cbn in Hr. set (w1 := mkWorld _ _) in Hr.
  assert (Hw1 : cv (reg w1) id = c_with_live (c_with_disabled c true) ∅).
  { unfold cv. cbn. by rewrite lookup_insert_eq. }
  assert (c_disabled (cv (reg w1) id) = true /\ c_live (cv (reg w1) id) = ∅) as Hw by (by rewrite Hw1).
  clearbody w1. clear Hw1 E. induction Hr as [|x y z [Hxy Hdis] _ IH]; [done|]. apply IH.
  destruct Hw as [Hd Hl]. split; [auto|].
  destruct (shrinks_step_other _ _ Hxy) as [Hs|(i & src & now & k & Ho)]; [by apply Hs|].
  by eapply register_disabled.
Qed.

(** No byte is lost or counted twice: however the reads, writes and flushes of a
    credential's connections interleave, its counters plus what the connections still
    hold privately are the bytes reported, in 64-bit arithmetic; each connection holds
    back less than 128 KiB per direction. *)
Theorem bytes_conserved id s os :
  is_Some (r_cells s.1 !! id) -> Forall (meter_ok id) s.2 -> Forall bounded os ->
  let s' := mrun s os in
  w64 (c_up (cv s'.1 id) + zsum m_localUp s'.2) =
    w64 (c_up (cv s.1 id) + zsum m_localUp s.2 + zsum (up_bytes (length s.2)) os) /\
  w64 (c_down (cv s'.1 id) + zsum m_localDn s'.2) =
    w64 (c_down (cv s.1 id) + zsum m_localDn s.2 + zsum (down_bytes (length s.2)) os) /\
  Forall (fun m => 0 <= m_localUp m < drainThreshold /\ 0 <= m_localDn m < drainThreshold) s'.2.
Proof.
  intros Hc Hm Hb. destruct (mrun_ok id os s Hc Hm Hb) as [H1 H2 _ _ H5]. split_and!; [exact H1|exact H2|].
  eapply Forall_impl; [exact H5|]. intros m (_ & ? & ?). done.
Qed.

(** Under memory pressure the registry kills exactly the [n] connections that have
    been idle longest, or all when there are fewer, wherever [sort.Slice] puts ties; the
    rest stay. *)
Theorem evictIdle_longest_idle r sorted n :
  sorted ≡ₚ entries r -> StronglySorted (fun a b => a.2 <= b.2) sorted -> 0 < n ->
  exists victims survivors,
    sorted = victims ++ survivors /\
    (evictIdle r sorted n).1 = length victims /\
    length victims = Nat.min (Z.to_nat n) (length (entries r)) /\
    r_killed (evictIdle r sorted n).2 = r_killed r ++ victims.*1.*2 /\
    (forall v s, v ∈ victims -> s ∈ survivors -> v.2 <= s.2) /\
    (forall e, e ∈ entries (evictIdle r sorted n).2 <-> e ∈ survivors).
Proof.
  intros Hp Hs Hn. unfold evictIdle. destruct (Z.leb_spec n 0); [lia|].
  assert (Hnd : NoDup (sorted.*1)).
  { eapply NoDup_Permutation_proper; [by apply fmap_Permutation|apply NoDup_entries]. }
  pose proof (evict_loop_spec sorted r (Z.to_nat n) Hnd) as He.
  destruct (evict_loop r sorted (Z.to_nat n)) as [k r'].
  destruct He as (-> & Hk & He); [intros e; by rewrite Hp|]. cbn [fst snd].
  set (k := Nat.min (Z.to_nat n) (length sorted)) in *.
  exists (take k sorted), (drop k sorted).
  assert (Hlen : length (take k sorted) = k) by (rewrite length_take; lia).
  split_and!; [by rewrite take_drop|done|rewrite Hlen; unfold k; by rewrite (Permutation_length Hp)|done| |].
  - assert (StronglySorted (fun a b => a.2 <= b.2) (take k sorted ++ drop k sorted)) as Hs'
      by (by rewrite take_drop).
    apply StronglySorted_app in Hs' as (Hvs & _ & _). intros v s Hv Hsv. by apply Hvs.
  - intros e. rewrite He, <-Hp. 
    assert (NoDup ((take k sorted).*1 ++ (drop k sorted).*1)) as (_ & Hdis & _)%NoDup_app
      by (by rewrite <-fmap_app, take_drop).
    assert (e ∈ sorted <-> e ∈ take k sorted \/ e ∈ drop k sorted) as ->
      by (by rewrite <-elem_of_app, take_drop). split.
    + intros [[Hin|Hin] Hnot]; [|done]. exfalso. apply Hnot. apply list_elem_of_fmap. by exists e.
    + intros Hin. split; [by right|]. intros Hbad. apply (Hdis _ Hbad). apply list_elem_of_fmap. by exists e.
Qed.

(** Bills and identifiers correspond one to one: an identifier once given to a bill
    is given to it again after any further assignments, two bills never share one, and
    none is reserved. *)
Theorem bill_ids_stable_injective before after b1 b2 :
  Z.of_nat (length before + length after) < 2 ^ 62 ->
  let r := assign NewRegistry before in
  let '(id1, r1) := IDForBill r b1 in
  let '(id2, r2) := IDForBill (assign r1 after) b2 in
  IDForBill r2 b1 = (id1, r2) /\ IDForBill r2 b2 = (id2, r2) /\
  Bill r2 id1 = b1 /\ (id1 = id2 <-> b1 = b2) /\ UserBase < id1.
Proof.
  intros Hs. cbn zeta. set (r := assign NewRegistry before).
  assert (Hget : forall r b, r_bills (IDForBill r b).2 !! b = Some (IDForBill r b).1).
  { intros r0 b. unfold IDForBill. destruct (r_bills r0 !! b) eqn:E; [done|]. cbn. by rewrite lookup_insert_eq. }
  assert (Hr2 : bill_inv (assign NewRegistry (before ++ b1 :: after ++ [b2]))).
  { apply assign_inv; [apply bill_inv_new|]. cbn [r_bills NewRegistry].
    rewrite map_size_empty, length_app. cbn [length]. rewrite length_app. cbn [length]. lia. }
  pose proof (Hget r b1) as H1. destruct (IDForBill r b1) as [id1 r1] eqn:E1. cbn in H1.
  pose proof (Hget (assign r1 after) b2) as H2. destruct (IDForBill (assign r1 after) b2) as [id2 r2] eqn:E2. cbn in H2.
  assert (r2 = assign NewRegistry (before ++ b1 :: after ++ [b2])) as Er2.
  { unfold assign at 1. rewrite foldl_app. cbn. fold r. unfold r in E1. unfold assign in E1 |- *. rewrite E1. cbn.
    rewrite foldl_app. cbn. fold (assign r1 after). by rewrite E2. }
  rewrite <-Er2 in Hr2. destruct Hr2 as [B1 B2 _].
  assert (H1' : r_bills r2 !! b1 = Some id1).
  { replace r2 with (IDForBill (assign r1 after) b2).2 by (by rewrite E2). by apply IDForBill_stable, assign_stable. }
  destruct (B1 _ _ H1') as [L1 R1]. split_and!.
  - unfold IDForBill. by rewrite H1'.
  - unfold IDForBill. by rewrite H2.
  - unfold Bill. by rewrite L1.
  - split; [|congruence]. intros <-. destruct (B1 _ _ H2) as [L2 _]. congruence.
  - lia.
Qed.

(** ** Concrete executions *)

Module Traces.
Definition alice : Z := UserBase + 1.
Definition ip1 : Addr := Addr4 1.
Definition ip2 : Addr := Addr4 2.
Definition one_conn : Limits := mkLimits 1 None 0.
Definition cfg : list config := [CfgBill (bs "alice@in"); CfgShared [alice] (mkLimits 1 None 1)].

Lemma by_fst {A B} (p : A * B) a : p.1 = a -> p = (a, p.2).
Proof. destruct p. cbn. congruence. Qed.

Definition w1 : world :=
  mkWorld (open_ip (configured cfg) alice ip1).2 {[0%nat := mkHolder alice ip1 HIP]}.

Lemma w1_reachable : rtc step (mkWorld (configured cfg) ∅) w1.
Proof.
  apply rtc_once. apply (s_ip (mkWorld (configured cfg) ∅) 0 alice ip1); [reflexivity|].
  apply by_fst. vm_compute. reflexivity.
Qed.

Lemma admission_limits_hold_witness :
  (forall id, own_cap (reg w1) (cv (reg w1) id) ->
     cnt (of_cred id) (held w1) <= c_maxConns (cv (reg w1) id)) /\
  (forall s sl, r_shareds (reg w1) !! s = Some sl -> 0 < sl_maxConns sl ->
     cnt (in_unit (reg w1) s) (held w1) <= sl_maxConns sl) /\
  (forall g gt, r_ipgs (reg w1) !! g = Some gt -> 0 < g_cap gt ->
     Z.of_nat (size (g_ips gt)) <= g_cap gt /\
     forall t h, held w1 !! t = Some h -> c_ipg (cv (reg w1) (hd_cred h)) = Some g ->
       is_Some (g_ips gt !! hd_src h)) /\
  (held w1 = ∅ ->
     (forall id, c_connsLive (cv (reg w1) id) = 0) /\
     (forall s sl, r_shareds (reg w1) !! s = Some sl -> 0 < sl_maxConns sl -> sl_live sl = 0) /\
     (forall g gt, r_ipgs (reg w1) !! g = Some gt -> g_ips gt = ∅)).
Proof. apply (admission_limits_hold cfg w1). apply w1_reachable. Defined.

Definition r_open : Registry := (Open (configured cfg) alice ip1 100).2.
Definition r_off : Registry :=
  match Disable r_open alice with Some (_, r) => r | None => r_open end.

Lemma disabled_stays_empty_witness :
  1%nat = size (c_live (cv r_open alice)) /\
  r_killed r_off = r_killed r_open ++ (map_to_list (c_live (cv r_open alice))).*1 /\
  c_disabled (cv r_off alice) = true /\ c_live (cv r_off alice) = ∅.
Proof.
  apply (disabled_stays_empty (mkWorld r_open ∅) alice 1 r_off (mkWorld r_off ∅)).
  - vm_compute. reflexivity.
  - constructor.
Defined.

Definition meters : list Meter := [mkMeter (Some alice) (Some 1) [] 0 0; mkMeter (Some alice) (Some 2) [] 5 0].
Definition traffic : list mop := [MUp 0 200000 7; MDown 1 300 8; MUp 1 10 9; MFlush 1].

Lemma bytes_conserved_witness :
  let s' := mrun (r_open, meters) traffic in
  w64 (c_up (cv s'.1 alice) + zsum m_localUp s'.2) = w64 (c_up (cv r_open alice) + 5 + 200010) /\
  w64 (c_down (cv s'.1 alice) + zsum m_localDn s'.2) = w64 (c_down (cv r_open alice) + 0 + 300) /\
  Forall (fun m => 0 <= m_localUp m < drainThreshold /\ 0 <= m_localDn m < drainThreshold) s'.2.
Proof.
  apply (bytes_conserved alice (r_open, meters) traffic).
  - apply (fmap_is_Some c_up). exists 0. vm_compute. reflexivity.
  - repeat constructor; cbn; unfold drainThreshold; lia.
  - repeat constructor; cbn; lia.
Defined.

Definition r_two : Registry := (Open (Open NewRegistry alice ip1 100).2 alice ip2 50).2.

Lemma evictIdle_longest_idle_witness :
  exists victims survivors,
    [(alice, 2, 50); (alice, 1, 100)] = victims ++ survivors /\
    (evictIdle r_two [(alice, 2, 50); (alice, 1, 100)] 1).1 = length victims /\
    length victims = Nat.min (Z.to_nat 1) (length (entries r_two)) /\
    r_killed (evictIdle r_two [(alice, 2, 50); (alice, 1, 100)] 1).2 = r_killed r_two ++ victims.*1.*2 /\
    (forall v s, v ∈ victims -> s ∈ survivors -> v.2 <= s.2) /\
    (forall e, e ∈ entries (evictIdle r_two [(alice, 2, 50); (alice, 1, 100)] 1).2 <-> e ∈ survivors).
Proof.
  apply (evictIdle_longest_idle r_two [(alice, 2, 50); (alice, 1, 100)] 1); [|repeat constructor; cbn; lia|lia].
  vm_compute. first [reflexivity | constructor].
Defined.

Lemma bill_ids_stable_injective_witness :
  let r := assign NewRegistry [bs "bob@in"] in
  let '(id1, r1) := IDForBill r (bs "alice@in") in
  let '(id2, r2) := IDForBill (assign r1 [bs "carol@in"]) (bs "bob@in") in
  IDForBill r2 (bs "alice@in") = (id1, r2) /\ IDForBill r2 (bs "bob@in") = (id2, r2) /\
  Bill r2 id1 = bs "alice@in" /\ (id1 = id2 <-> bs "alice@in" = bs "bob@in") /\ UserBase < id1.
Proof.
  apply (bill_ids_stable_injective [bs "bob@in"] [bs "carol@in"] (bs "alice@in") (bs "bob@in")).
  cbn. lia.
Defined.

(** Reloading the configuration while a connection is open breaks the shared
    limit for good: the reload installs a new counter at zero, the old connection's
    close is then charged to it, and with a limit of one connection two are admitted
    and live at the same time. *)
Theorem reload_overshoots_shared_limit :
  exists r1 a r2 b r3 c r4,
    SetLimitsShared NewRegistry [alice] one_conn = r1 /\
    Open r1 alice ip1 1 = (Some a, r2) /\
    Open (SetLimitsShared r2 [alice] one_conn) alice ip1 2 = (Some b, r3) /\
    Open (close_conn r3 alice ip1 a) alice ip1 3 = (Some c, r4) /\
    c_connsLive (cv r4 alice) = 2 /\ dom (c_live (cv r4 alice)) = {[b; c]} /\ b <> c /\
    exists s sl, c_shared (cv r4 alice) = Some s /\ r_shareds r4 !! s = Some sl /\ sl_maxConns sl = 1.
Proof.
  do 7 eexists. split; [reflexivity|]. do 3 (split; [apply by_fst; vm_compute; reflexivity|]).
  split; [vm_compute; reflexivity|]. split; [apply leibniz_equiv; vm_compute; set_solver|].
  split; [discriminate|]. do 2 eexists. split; [vm_compute; reflexivity|].
  split; [vm_compute; reflexivity|reflexivity].
Qed.
End Traces.
