(* ===== verification/DnsFakeIP.v ===== *)
(** * Package [dns], fake addresses ([dns/fakeip.go])

    A pool gives every queried domain an address of a reserved range and remembers the
    pair in both directions, so that a connection to the address can be routed by its
    domain. The methods run under one mutex; a definition is one critical section. *)
From S2P Require Import Prelude GoStd Netip.
From Stdlib Require Import Init.Byte.

(** The query types the code distinguishes ([dnsmessage.Type] is 16 bits wide). *)
Definition TypeA : Z := 1.
Definition TypeAAAA : Z := 28.

Record FakeIPConfig := mkFakeIPConfig { Inet4 : Prefix; Inet6 : Prefix; Exclude : list bytes }.

Record fakeIPPool := mkPool {
  p4 : Prefix;
  p6 : Prefix;
  have4 : bool;
  have6 : bool;
  cur4 : Addr;
  cur6 : Addr;
  d2v4 : gmap bytes Addr;
  d2v6 : gmap bytes Addr;
  ip2d : gmap Addr bytes;
  exclude : list bytes;
}.

Definition noPrefix : Prefix := {| pfx_addr := AddrZero; pfx_bits := None |}.

Definition normalize_exclude `{Unicode} (l : list bytes) : list bytes :=
  filter (fun s => s <> []) ((fun e => ToLower (TrimSuffix (TrimSpace e) (bs "."))) <$> l).

Definition newFakeIPPool `{Unicode} (cfg : FakeIPConfig) : fakeIPPool :=
  let ok4 := Prefix_IsValid (Inet4 cfg) && Is4 (Unmap (pfx_addr (Inet4 cfg))) in
  let ok6 := Prefix_IsValid (Inet6 cfg) && Is6 (pfx_addr (Inet6 cfg)) &&
             negb (Is4In6 (pfx_addr (Inet6 cfg))) in
  let q4 := Masked (Inet4 cfg) in
  let q6 := Masked (Inet6 cfg) in
  mkPool (if ok4 then q4 else noPrefix) (if ok6 then q6 else noPrefix) ok4 ok6
         (if ok4 then Next (pfx_addr q4) else AddrZero) (if ok6 then Next (pfx_addr q6) else AddrZero)
         ∅ ∅ ∅ (normalize_exclude (Exclude cfg)).

Definition excluded (p : fakeIPPool) (name : bytes) : bool :=
  let host := TrimSuffix name (bs ".") in
  existsb (fun suf => bool_decide (host = suf) || HasSuffix host (bs "." ++ suf)) (exclude p).

Definition wrapNext (ip : Addr) (pfx : Prefix) : Addr :=
  let n := Next ip in
  if negb (IsValid n) || negb (Prefix_Contains pfx n) then Next (pfx_addr pfx) else n.

(** [evictLocked]; a missing key reads as the zero [Addr]. *)
Definition evictLocked (p : fakeIPPool) (ip : Addr) : fakeIPPool :=
  match ip2d p !! ip with
  | None => p
  | Some old =>
      mkPool (p4 p) (p6 p) (have4 p) (have6 p) (cur4 p) (cur6 p)
        (if bool_decide (default AddrZero (d2v4 p !! old) = ip) then delete old (d2v4 p) else d2v4 p)
        (if bool_decide (default AddrZero (d2v6 p !! old) = ip) then delete old (d2v6 p) else d2v6 p)
        (delete ip (ip2d p)) (exclude p)
  end.

Definition alloc (p : fakeIPPool) (name : bytes) (qtype : Z) : option Addr * fakeIPPool :=
  let host := TrimSuffix name (bs ".") in
  if qtype =? TypeA then
    if negb (have4 p) then (None, p)
    else match d2v4 p !! host with
         | Some ip => (Some ip, p)
         | None =>
             let ip := cur4 p in
             let p := mkPool (p4 p) (p6 p) (have4 p) (have6 p) (wrapNext (cur4 p) (p4 p)) (cur6 p)
                             (d2v4 p) (d2v6 p) (ip2d p) (exclude p) in
             let p := evictLocked p ip in
             (Some ip, mkPool (p4 p) (p6 p) (have4 p) (have6 p) (cur4 p) (cur6 p)
                              (<[host := ip]> (d2v4 p)) (d2v6 p) (<[ip := host]> (ip2d p)) (exclude p))
         end
  else if qtype =? TypeAAAA then
    if negb (have6 p) then (None, p)
    else match d2v6 p !! host with
         | Some ip => (Some ip, p)
         | None =>
             let ip := cur6 p in
             let p := mkPool (p4 p) (p6 p) (have4 p) (have6 p) (cur4 p) (wrapNext (cur6 p) (p6 p))
                             (d2v4 p) (d2v6 p) (ip2d p) (exclude p) in
             let p := evictLocked p ip in
             (Some ip, mkPool (p4 p) (p6 p) (have4 p) (have6 p) (cur4 p) (cur6 p)
                              (d2v4 p) (<[host := ip]> (d2v6 p)) (<[ip := host]> (ip2d p)) (exclude p))
         end
  else (None, p).

Definition pool_lookup (p : fakeIPPool) (ip : Addr) : option bytes := ip2d p !! Unmap ip.

Definition pool_contains (p : fakeIPPool) (ip : Addr) : bool :=
  let ip := Unmap ip in
  (have4 p && Prefix_Contains (p4 p) ip) || (have6 p && Prefix_Contains (p6 p) ip).
