(* ===== verification/DnsFakeIPSpec.v ===== *)
(** * What the fake-address pool guarantees

    The two directions of the map are inverse to each other in every reachable pool,
    every address lies in its range, and an address is handed to another domain only
    after the whole range has been given out since. *)
From S2P Require Import Prelude GoStd Netip DnsFakeIP.
From Stdlib Require Import Init.Byte.

(** ** Address ranges *)

Definition width (v6 : bool) : Z := if v6 then 128 else 32.
Definition mkaddr (v6 : bool) (v : Z) : Addr := if v6 then Addr6 v [] else Addr4 v.

(** A range of at least two addresses, its prefix masked. *)
Record range (v6 : bool) (p : Prefix) (base size : Z) : Prop := {
  rg_pfx : exists b, p = {| pfx_addr := mkaddr v6 base; pfx_bits := Some b |} /\
             0 <= b < width v6 /\ size = 2 ^ (width v6 - b);
  rg_base : 0 <= base /\ base + size <= 2 ^ width v6 /\ (exists k, base = k * size);
}.

Lemma range_size v6 p base size : range v6 p base size -> 2 <= size.
Proof.
  intros [(b & _ & Hb & ->) _]. replace (width v6 - b) with (1 + (width v6 - b - 1)) by lia.
  rewrite Z.pow_add_r by lia. pose proof (Z.pow_pos_nonneg 2 (width v6 - b - 1)). lia.
Qed.

(** Membership is the interval. *)
Lemma range_contains v6 p base size v :
  range v6 p base size -> 0 <= v ->
  Prefix_Contains p (mkaddr v6 v) = true <-> base <= v < base + size.
Proof.
  intros Hr Hv. pose proof (range_size _ _ _ _ Hr) as Hsz.
  destruct Hr as [(b & -> & Hb & ->) (Hb0 & Hbs & k & ->)].
  set (n := width v6 - b) in *. assert (Hn : 0 <= n) by lia.
  assert (Heq : Prefix_Contains {| pfx_addr := mkaddr v6 (k * 2 ^ n); pfx_bits := Some b |} (mkaddr v6 v)
          = (Z.shiftr (k * 2 ^ n) n =? Z.shiftr v n)).
  { by destruct v6. }
  rewrite Heq, Z.eqb_eq, !Z.shiftr_div_pow2 by done.
  rewrite Z.div_mul by lia. pose proof (Z.pow_pos_nonneg 2 n).
  split.
  - intros ->. pose proof (Z.mul_div_le v (2 ^ n)). pose proof (Z.mul_succ_div_gt v (2 ^ n)). lia.
  - intros [H1 H2]. apply (Z.div_unique v (2 ^ n) k (v - k * 2 ^ n)); lia.
Qed.

Lemma range_Next v6 p base size :
  range v6 p base size -> Next (pfx_addr p) = mkaddr v6 (base + 1).
Proof.
  intros Hr. pose proof (range_size _ _ _ _ Hr). destruct Hr as [(b & -> & Hb & _) (? & ? & _)].
  destruct v6; cbn in *; destruct (Z.eqb_spec (base + 1) (2 ^ 32)), (Z.eqb_spec (base + 1) (2 ^ 128)); done || lia.
Qed.

(** The cursor goes round the range without its first address. *)
Definition succ_in (base size v : Z) : Z := if v + 1 <? base + size then v + 1 else base + 1.

Lemma wrapNext_range v6 p base size v :
  range v6 p base size -> base < v < base + size ->
  wrapNext (mkaddr v6 v) p = mkaddr v6 (succ_in base size v).
Proof.
  intros Hr Hv. unfold wrapNext, succ_in. rewrite (range_Next _ _ _ _ Hr).
  pose proof (rg_base _ _ _ _ Hr) as (Hb0 & Hbs & _).
  destruct (Z.ltb_spec (v + 1) (base + size)).
  - assert (Next (mkaddr v6 v) = mkaddr v6 (v + 1)) as ->.
    { destruct v6; cbn in *; destruct (Z.eqb_spec (v + 1) (2 ^ 32)), (Z.eqb_spec (v + 1) (2 ^ 128)); done || lia. }
    assert (Prefix_Contains p (mkaddr v6 (v + 1)) = true) as -> by (apply (range_contains v6 p base size); [done|lia..]).
    by destruct v6.
  - assert (Next (mkaddr v6 v) = AddrZero \/
            Next (mkaddr v6 v) = mkaddr v6 (v + 1) /\ Prefix_Contains p (mkaddr v6 (v + 1)) = false) as [->|[-> ->]].
    { destruct (decide (v + 1 = 2 ^ width v6)) as [E|E].
      - left. destruct v6; cbn in *; by rewrite E.
      - right. split.
        + destruct v6; cbn in *; destruct (Z.eqb_spec (v + 1) (2 ^ 32)), (Z.eqb_spec (v + 1) (2 ^ 128)); done || lia.
        + apply not_true_iff_false. rewrite (range_contains v6 p base size) by (done || lia). lia. }
    + done.
    + by rewrite orb_true_r.
Qed.

(** ** The invariant *)

Definition have (p : fakeIPPool) (v6 : bool) : bool := if v6 then have6 p else have4 p.
Definition pfx (p : fakeIPPool) (v6 : bool) : Prefix := if v6 then p6 p else p4 p.
Definition cur (p : fakeIPPool) (v6 : bool) : Addr := if v6 then cur6 p else cur4 p.
Definition d2 (p : fakeIPPool) (v6 : bool) : gmap bytes Addr := if v6 then d2v6 p else d2v4 p.
Definition qtype_of (v6 : bool) : Z := if v6 then TypeAAAA else TypeA.

Record pool_inv (p : fakeIPPool) : Prop := {
  pi_range : forall f, have p f = true -> exists base size v, range f (pfx p f) base size /\
    cur p f = mkaddr f v /\ base < v < base + size;
  pi_fwd : forall f host ip, d2 p f !! host = Some ip ->
    have p f = true /\ ip2d p !! ip = Some host /\ (exists v, 0 <= v /\ ip = mkaddr f v) /\
    Prefix_Contains (pfx p f) ip = true;
  pi_back : forall ip host, ip2d p !! ip = Some host -> exists f, d2 p f !! host = Some ip;
}.

(** What [alloc] does for a domain it has not seen. *)
Definition bind_fresh (p : fakeIPPool) (f : bool) (host : bytes) : fakeIPPool :=
  let ip := cur p f in
  let n := wrapNext ip (pfx p f) in
  let q := evictLocked (mkPool (p4 p) (p6 p) (have4 p) (have6 p) (if f then cur4 p else n)
                               (if f then n else cur6 p) (d2v4 p) (d2v6 p) (ip2d p) (exclude p)) ip in
  mkPool (p4 q) (p6 q) (have4 q) (have6 q) (cur4 q) (cur6 q)
         (if f then d2v4 q else <[host := ip]> (d2v4 q)) (if f then <[host := ip]> (d2v6 q) else d2v6 q)
         (<[ip := host]> (ip2d q)) (exclude q).

Lemma alloc_cases p name f :
  let host := TrimSuffix name (bs ".") in
  alloc p name (qtype_of f) =
  if have p f then
    match d2 p f !! host with
    | Some ip => (Some ip, p)
    | None => (Some (cur p f), bind_fresh p f host)
    end
  else (None, p).
Proof.
  intros host. unfold alloc, bind_fresh. fold host.
  destruct f; cbn [qtype_of have d2 cur pfx TypeA TypeAAAA Z.eqb Pos.eqb].
  - by destruct (have6 p), (d2v6 p !! host).
  - by destruct (have4 p), (d2v4 p !! host).
Qed.

Lemma alloc_some p name f : have p f = true -> is_Some (alloc p name (qtype_of f)).1.
Proof. intros Hh. rewrite alloc_cases, Hh. destruct (d2 p f !! _); eauto. Qed.

Lemma alloc_other p name q :
  q <> TypeA -> q <> TypeAAAA -> alloc p name q = (None, p).
Proof.
  intros H1 H2. unfold alloc. destruct (Z.eqb_spec q TypeA); [done|].
  destruct (Z.eqb_spec q TypeAAAA); done.
Qed.

Lemma bind_fresh_static p f host f' :
  have (bind_fresh p f host) f' = have p f' /\ pfx (bind_fresh p f host) f' = pfx p f' /\
  cur (bind_fresh p f host) f' = if bool_decide (f' = f) then wrapNext (cur p f) (pfx p f) else cur p f'.
Proof.
  unfold bind_fresh, evictLocked. cbn. destruct (ip2d p !! cur p f); by destruct f, f'.
Qed.

Lemma bind_fresh_ip2d p f host ip :
  ip2d (bind_fresh p f host) !! ip = if decide (ip = cur p f) then Some host else ip2d p !! ip.
Proof.
  unfold bind_fresh, evictLocked. cbn. destruct (decide (ip = cur p f)) as [->|Hne].
  - by rewrite lookup_insert_eq.
  - rewrite lookup_insert_ne by done. destruct (ip2d p !! cur p f); [|done]. cbn.
    by rewrite lookup_delete_ne by done.
Qed.

Lemma bind_fresh_d2 p f host f' h :
  cur p f <> AddrZero ->
  d2 (bind_fresh p f host) f' !! h =
  if decide (f' = f /\ h = host) then Some (cur p f)
  else if decide (ip2d p !! cur p f = Some h /\ d2 p f' !! h = Some (cur p f)) then None
  else d2 p f' !! h.
Proof.
  intros Hz.
  assert (Hdef : forall (m : gmap bytes Addr) k, default AddrZero (m !! k) = cur p f <-> m !! k = Some (cur p f)).
  { intros m k. destruct (m !! k); cbn; split; congruence. }
  assert (Hev : forall (m : gmap bytes Addr),
    match ip2d p !! cur p f with
    | Some old => if bool_decide (default AddrZero (m !! old) = cur p f) then delete old m else m
    | None => m
    end !! h = if decide (ip2d p !! cur p f = Some h /\ m !! h = Some (cur p f)) then None else m !! h).
  { intros m. destruct (ip2d p !! cur p f) as [old|].
    - case_bool_decide as E; rewrite Hdef in E.
      + destruct (decide (old = h)) as [->|].
        * by rewrite decide_True, lookup_delete_eq.
        * rewrite decide_False by naive_solver. by rewrite lookup_delete_ne.
      + rewrite decide_False; [done|]. intros [[= ->] ?]. done.
    - rewrite decide_False; [done|]. by intros [? _]. }
  assert (H4 : d2v4 (evictLocked p (cur p f)) !! h =
            if decide (ip2d p !! cur p f = Some h /\ d2v4 p !! h = Some (cur p f)) then None else d2v4 p !! h).
  { rewrite <-Hev. unfold evictLocked. by destruct (ip2d p !! cur p f). }
  assert (H6 : d2v6 (evictLocked p (cur p f)) !! h =
            if decide (ip2d p !! cur p f = Some h /\ d2v6 p !! h = Some (cur p f)) then None else d2v6 p !! h).
  { rewrite <-Hev. unfold evictLocked. by destruct (ip2d p !! cur p f). }
  assert (E4 : d2v4 (bind_fresh p f host) = if f then d2v4 (evictLocked p (cur p f))
                                             else <[host := cur p f]> (d2v4 (evictLocked p (cur p f)))).
  { unfold bind_fresh, evictLocked. cbn. by destruct (ip2d p !! cur p f), f. }
  assert (E6 : d2v6 (bind_fresh p f host) = if f then <[host := cur p f]> (d2v6 (evictLocked p (cur p f)))
                                             else d2v6 (evictLocked p (cur p f))).
  { unfold bind_fresh, evictLocked. cbn. by destruct (ip2d p !! cur p f), f. }
  destruct f', f; cbn [d2]; rewrite ?E4, ?E6.
  - destruct (decide (h = host)) as [->|].
    + by rewrite decide_True, lookup_insert_eq.
    + rewrite decide_False by naive_solver. rewrite lookup_insert_ne by done. apply H6.
  - rewrite decide_False by naive_solver. apply H6.
  - rewrite decide_False by naive_solver. apply H4.
  - destruct (decide (h = host)) as [->|].
    + by rewrite decide_True, lookup_insert_eq.
    + rewrite decide_False by naive_solver. rewrite lookup_insert_ne by done. apply H4.
Qed.

Lemma mkaddr_inj f f' v v' : mkaddr f v = mkaddr f' v' -> f = f' /\ v = v'.
Proof. destruct f, f'; cbn; intros [= ->]; done. Qed.

Lemma succ_in_range base size v : 2 <= size -> base < v < base + size -> base < succ_in base size v < base + size.
Proof. intros ? ?. unfold succ_in. destruct (Z.ltb_spec (v + 1) (base + size)); lia. Qed.

Lemma pool_inv_bind p f host :
  pool_inv p -> have p f = true -> d2 p f !! host = None -> pool_inv (bind_fresh p f host).
Proof.
  intros [H1 H2 H3] Hf Hnew. destruct (H1 f Hf) as (base & size & v & Hr & Hcur & Hv).
  assert (Hz : cur p f <> AddrZero) by (rewrite Hcur; by destruct f).
  pose proof (rg_base _ _ _ _ Hr) as (Hb0 & _). pose proof (range_size _ _ _ _ Hr) as Hsz. split.
  - intros f' Hh. destruct (bind_fresh_static p f host f') as (Eh & Ep & Ec). rewrite Eh in Hh. rewrite Ep, Ec.
    case_bool_decide as E.
    + subst f'. exists base, size, (succ_in base size v). rewrite Hcur.
      rewrite (wrapNext_range _ _ _ _ _ Hr Hv). auto using succ_in_range.
    + auto.
  - intros f' h ip. destruct (bind_fresh_static p f host f') as (-> & -> & _).
    rewrite bind_fresh_d2, bind_fresh_ip2d by done. destruct (decide (f' = f /\ h = host)) as [[-> ->]|Hn].
    + intros [= <-]. rewrite decide_True by done. split_and!; [done..| |].
      * exists v. split; [lia|done].
      * rewrite Hcur. apply (range_contains f (pfx p f) base size); [done|lia..].
    + destruct (decide (ip2d p !! cur p f = Some h /\ d2 p f' !! h = Some (cur p f))) as [|He]; [done|].
      intros Hd. destruct (H2 _ _ _ Hd) as (? & Hi & ? & ?). split_and!; try done.
      rewrite decide_False; [done|]. intros ->. by apply He.
  - intros ip h. rewrite bind_fresh_ip2d. destruct (decide (ip = cur p f)) as [->|Hne].
    + intros [= <-]. exists f. rewrite bind_fresh_d2 by done. by rewrite decide_True.
    + intros [f' Hd]%H3. exists f'. rewrite bind_fresh_d2 by done.
      rewrite decide_False by (intros [-> ->]; congruence).
      rewrite decide_False by (intros [_ ?]; congruence). done.
Qed.

Lemma pool_inv_alloc p name q : pool_inv p -> pool_inv (alloc p name q).2.
Proof.
  intros Hp. destruct (decide (q = TypeA)) as [->|]; [|destruct (decide (q = TypeAAAA)) as [->|]].
  - change TypeA with (qtype_of false). rewrite (alloc_cases p name false). destruct (have p false) eqn:Eh; [|done].
    destruct (d2 p false !! _) eqn:E; [done|]. by apply pool_inv_bind.
  - change TypeAAAA with (qtype_of true). rewrite (alloc_cases p name true). destruct (have p true) eqn:Eh; [|done].
    destruct (d2 p true !! _) eqn:E; [done|]. by apply pool_inv_bind.
  - by rewrite alloc_other.
Qed.

(** ** Reachable pools *)

Definition runs (p : fakeIPPool) (qs : list (bytes * Z)) : fakeIPPool :=
  foldl (fun p q => (alloc p q.1 q.2).2) p qs.

Lemma pool_inv_runs qs : forall p, pool_inv p -> pool_inv (runs p qs).
Proof. induction qs as [|q qs IH]; intros p Hp; cbn; [done|]. by apply IH, pool_inv_alloc. Qed.

Lemma mask_val_bounds w b v :
  0 <= b <= w -> 0 <= v < 2 ^ w ->
  let m := mask_val w b v in 0 <= m /\ m + 2 ^ (w - b) <= 2 ^ w /\ exists k, m = k * 2 ^ (w - b).
Proof.
  intros Hb Hv. unfold mask_val. rewrite Z.shiftr_div_pow2, Z.shiftl_mul_pow2 by lia.
  set (n := w - b). assert (0 < 2 ^ n) by (apply Z.pow_pos_nonneg; lia).
  assert (0 <= v / 2 ^ n) by (apply Z.div_pos; lia).
  assert (2 ^ w = 2 ^ b * 2 ^ n) as Hw by (rewrite <-Z.pow_add_r by lia; f_equal; lia).
  assert (v / 2 ^ n < 2 ^ b) by (apply Z.div_lt_upper_bound; lia).
  split; [nia|]. split; [nia|eauto].
Qed.

(** A configured range: a prefix of its family, shorter than a single address. *)
Definition prefix_ok (v6 : bool) (p : Prefix) : Prop :=
  match pfx_bits p with
  | None => True
  | Some b => exists v, pfx_addr p = mkaddr v6 v /\ 0 <= v < 2 ^ width v6 /\ 0 <= b < width v6
  end.

Lemma range_Masked v6 p b :
  prefix_ok v6 p -> pfx_bits p = Some b -> exists base, range v6 (Masked p) base (2 ^ (width v6 - b)).
Proof.
  unfold prefix_ok. intros H E. rewrite E in H. destruct H as (v & Ha & Hv & Hb).
  exists (mask_val (width v6) b v). unfold Masked. rewrite E, Ha.
  destruct (mask_val_bounds (width v6) b v) as (H1 & H2 & H3); [lia|done|]. destruct v6; split; eauto.
Qed.

(** Configurations without single-address ranges, whose v6 range holds no mapped v4
    address. *)
Record cfg_ok (cfg : FakeIPConfig) : Prop := {
  co_4 : prefix_ok false (Inet4 cfg);
  co_6 : prefix_ok true (Inet6 cfg);
  co_unmapped : forall v, 0 <= v -> Prefix_Contains (Masked (Inet6 cfg)) (Addr6 v []) = true ->
                          Is4In6 (Addr6 v []) = false;
}.

Lemma pool_inv_new `{Unicode} cfg : cfg_ok cfg -> pool_inv (newFakeIPPool cfg).
Proof.
  intros [C4 C6 _]. split.
  - intros [] Hf; cbn in Hf |- *; rewrite Hf; cbn.
    + repeat (apply andb_true_iff in Hf as [Hf _]). unfold Prefix_IsValid in Hf.
      destruct (pfx_bits (Inet6 cfg)) as [b|] eqn:Eb; [|done].
      destruct (range_Masked true _ _ C6 Eb) as [base Hr]. pose proof (range_size _ _ _ _ Hr).
      eexists base, _, (base + 1). split; [exact Hr|]. split; [by eapply (range_Next true)|lia].
    + apply andb_true_iff in Hf as [Hf _]. unfold Prefix_IsValid in Hf.
      destruct (pfx_bits (Inet4 cfg)) as [b|] eqn:Eb; [|done].
      destruct (range_Masked false _ _ C4 Eb) as [base Hr]. pose proof (range_size _ _ _ _ Hr).
      eexists base, _, (base + 1). split; [exact Hr|]. split; [by eapply (range_Next false)|lia].
  - intros [] host ip; cbn; by rewrite lookup_empty.
  - intros ip host. cbn. by rewrite lookup_empty.
Qed.

Lemma static_alloc p name q f :
  have (alloc p name q).2 f = have p f /\ pfx (alloc p name q).2 f = pfx p f.
Proof.
  destruct (decide (q = TypeA)) as [->|]; [|destruct (decide (q = TypeAAAA)) as [->|]].
  - change TypeA with (qtype_of false). rewrite alloc_cases. destruct (have p false); [|done].
    destruct (d2 p false !! _); [done|]. destruct (bind_fresh_static p false (TrimSuffix name (bs ".")) f) as (? & ? & _). done.
  - change TypeAAAA with (qtype_of true). rewrite alloc_cases. destruct (have p true); [|done].
    destruct (d2 p true !! _); [done|]. destruct (bind_fresh_static p true (TrimSuffix name (bs ".")) f) as (? & ? & _). done.
  - by rewrite alloc_other.
Qed.

Lemma static_runs qs : forall p f, have (runs p qs) f = have p f /\ pfx (runs p qs) f = pfx p f.
Proof.
  induction qs as [|q qs IH]; intros p f; [done|].
  change (runs p (q :: qs)) with (runs (alloc p q.1 q.2).2 qs).
  destruct (IH (alloc p q.1 q.2).2 f) as [-> ->]. apply static_alloc.
Qed.

(** An address of a range is its own unmapped form. *)
Lemma Unmap_range `{Unicode} cfg qs f v :
  cfg_ok cfg -> let p := runs (newFakeIPPool cfg) qs in
  0 <= v -> have p f = true -> Prefix_Contains (pfx p f) (mkaddr f v) = true -> Unmap (mkaddr f v) = mkaddr f v.
Proof.
  intros [_ _ C] p Hv Hf Hc. destruct f; [|done]. unfold Unmap. cbn [mkaddr].
  destruct (static_runs qs (newFakeIPPool cfg) true) as [Eh Ep]. fold p in Eh, Ep.
  rewrite Eh in Hf. rewrite Ep in Hc. cbn in Hf, Hc. rewrite Hf in Hc. by rewrite C.
Qed.

(** ** An address is reused last *)

(** How far the cursor is past the slot [v], going round. *)
Definition ahead (base size c v : Z) : Z := (c - v) mod (size - 1).

Lemma ahead_succ base size c v :
  2 <= size -> base < c < base + size -> base < v < base + size ->
  ahead base size (succ_in base size c) v = (ahead base size c v + 1) mod (size - 1).
Proof.
  intros Hs Hc Hv. unfold ahead, succ_in. rewrite Zplus_mod_idemp_l.
  destruct (Z.ltb_spec (c + 1) (base + size)); [f_equal; lia|].
  assert (c = base + size - 1) as -> by lia.
  replace (base + size - 1 - v + 1) with (base + 1 - v + 1 * (size - 1)) by lia.
  by rewrite Z_mod_plus_full.
Qed.

Lemma ahead_zero base size c v :
  2 <= size -> base < c < base + size -> base < v < base + size -> ahead base size c v = 0 -> c = v.
Proof.
  intros Hs Hc Hv H. unfold ahead in H. apply Z.mod_divide in H as [k Hk]; [|lia].
  assert (k = 0) as -> by nia. lia.
Qed.

(** The mapping [host -> mkaddr f v] with the cursor [d] slots past it. *)
Definition mapped (p : fakeIPPool) (f : bool) (host : bytes) (base size v d : Z) : Prop :=
  range f (pfx p f) base size /\ base < v < base + size /\ have p f = true /\
  ip2d p !! mkaddr f v = Some host /\
  exists c, cur p f = mkaddr f c /\ base < c < base + size /\ ahead base size c v = d.

Lemma mapped_bind p f f' host h base size v d :
  pool_inv p -> mapped p f host base size v d -> have p f' = true -> 0 < d < size - 1 ->
  exists d', mapped (bind_fresh p f' h) f host base size v d' /\ (d' = d \/ d' = (d + 1) mod (size - 1)).
Proof.
  intros Hp (Hr & Hv & Hh & Hi & c & Hc & Hcr & Hd) Hf' Hd0.
  destruct (bind_fresh_static p f' h f) as (Eh & Ep & Ec). unfold mapped.
  rewrite Eh, Ep, Ec, bind_fresh_ip2d. pose proof (range_size _ _ _ _ Hr) as Hsz.
  assert (Hne : mkaddr f v <> cur p f').
  { destruct (pi_range _ Hp f' Hf') as (b' & s' & c' & _ & E & _). rewrite E. intros [-> ->]%mkaddr_inj.
    rewrite E in Hc. apply mkaddr_inj in Hc as [_ ->].
    unfold ahead in Hd. rewrite Z.sub_diag, Z.mod_0_l in Hd by lia. lia. }
  rewrite decide_False by done. case_bool_decide as Ef.
  - subst f'. rewrite Hc. rewrite (wrapNext_range _ _ _ _ _ Hr Hcr).
    exists ((d + 1) mod (size - 1)). split; [|by right]. split_and!; try done; try lia.
    exists (succ_in base size c). split; [done|]. split; [by apply succ_in_range|].
    rewrite ahead_succ by done. by rewrite Hd.
  - exists d. split; [|by left]. split_and!; try done; try lia. eauto.
Qed.

Lemma mapped_alloc p f host name q base size v d :
  pool_inv p -> mapped p f host base size v d -> 0 < d < size - 1 ->
  exists d', mapped (alloc p name q).2 f host base size v d' /\ (d' = d \/ d' = (d + 1) mod (size - 1)).
Proof.
  intros Hp Hm Hd. destruct (decide (q = TypeA)) as [->|]; [|destruct (decide (q = TypeAAAA)) as [->|]].
  - change TypeA with (qtype_of false). rewrite alloc_cases. destruct (have p false) eqn:E; [|eauto].
    destruct (d2 p false !! _); [eauto|]. by apply mapped_bind.
  - change TypeAAAA with (qtype_of true). rewrite alloc_cases. destruct (have p true) eqn:E; [|eauto].
    destruct (d2 p true !! _); [eauto|]. by apply mapped_bind.
  - rewrite alloc_other by done. eauto.
Qed.

Lemma mapped_runs f host base size v qs : forall p d,
  pool_inv p -> mapped p f host base size v d -> 0 < d -> d + Z.of_nat (length qs) <= size - 1 ->
  ip2d (runs p qs) !! mkaddr f v = Some host.
Proof.
  induction qs as [|q qs IH]; intros p d Hp Hm Hd Hl; [by destruct Hm as (_ & _ & _ & ? & _)|].
  cbn in Hl. destruct (mapped_alloc p f host q.1 q.2 base size v d) as (d' & Hm' & Hd'); [done..|lia|].
  change (runs p (q :: qs)) with (runs (alloc p q.1 q.2).2 qs).
  destruct Hd' as [->|E].
  - eapply IH; [by apply pool_inv_alloc|done|lia|lia].
  - destruct (decide (d + 1 = size - 1)) as [Ee|].
    + destruct qs; [by destruct Hm' as (_ & _ & _ & ? & _)|cbn in Hl; lia].
    + rewrite Z.mod_small in E by lia. subst d'. eapply IH; [by apply pool_inv_alloc|done|lia|lia].
Qed.

Lemma alloc_roundtrip `{Unicode} cfg qs name f ip p' :
  cfg_ok cfg -> alloc (runs (newFakeIPPool cfg) qs) name (qtype_of f) = (Some ip, p') ->
  pool_lookup p' ip = Some (TrimSuffix name (bs ".")) /\ pool_contains p' ip = true /\
  alloc p' name (qtype_of f) = (Some ip, p') /\
  (forall host, d2 p' f !! host = Some ip -> host = TrimSuffix name (bs ".")).
Proof.
  intros Hc Ha. set (p := runs (newFakeIPPool cfg) qs) in *. set (host := TrimSuffix name (bs ".")).
  assert (Hp : pool_inv p) by (by apply pool_inv_runs, pool_inv_new).
  assert (Hp' : pool_inv p') by (pose proof (pool_inv_alloc p name (qtype_of f) Hp) as H1; by rewrite Ha in H1).
  assert (Hd : d2 p' f !! host = Some ip).
  { rewrite alloc_cases in Ha. destruct (have p f) eqn:Eh; [|done]. fold host in Ha.
    destruct (d2 p f !! host) eqn:Ed; [congruence|]. injection Ha as <- <-.
    destruct (pi_range _ Hp f Eh) as (b & s & v & _ & Hcur & _).
    rewrite bind_fresh_d2 by (rewrite Hcur; by destruct f). by rewrite decide_True. }
  destruct (pi_fwd _ Hp' _ _ _ Hd) as (Hh & Hi & (v & Hv & ->) & Hcon).
  assert (Hun : Unmap (mkaddr f v) = mkaddr f v).
  { assert (p' = runs (newFakeIPPool cfg) (qs ++ [(name, qtype_of f)])) as E.
    { unfold runs. rewrite foldl_app. cbn. fold (runs (newFakeIPPool cfg) qs). fold p. by rewrite Ha. }
    rewrite E in Hh, Hcon. by eapply Unmap_range. }
  split_and!.
  - unfold pool_lookup. by rewrite Hun.
  - unfold pool_contains. rewrite Hun. destruct f; cbn [mkaddr have pfx] in *; rewrite Hh, Hcon; by rewrite ?orb_true_r.
  - rewrite alloc_cases. fold host. by rewrite Hh, Hd.
  - intros h Hd2. destruct (pi_fwd _ Hp' _ _ _ Hd2) as (_ & Hi2 & _). congruence.
Qed.

(** ** The properties *)


(** Reuse is first in, first out: an address given to a new name still leads to it
    after any [N - 1] further queries, where [N], the number of addresses of the range
    less the network address, is [2^(32-b) - 1] or [2^(128-b) - 1] for a [/b] range. *)
Theorem fake_ip_fifo `{Unicode} (cfg : FakeIPConfig) (qs qs' : list (bytes * Z)) (name : bytes) (f : bool)
    (ip : Addr) (p' : fakeIPPool) (b : Z) :
  cfg_ok cfg -> pfx_bits (if f then Inet6 cfg else Inet4 cfg) = Some b ->
  let p := runs (newFakeIPPool cfg) qs in
  d2 p f !! TrimSuffix name (bs ".") = None ->
  alloc p name (qtype_of f) = (Some ip, p') ->
  Z.of_nat (length qs') < 2 ^ (width f - b) - 1 ->
  ip2d (runs p' qs') !! ip = Some (TrimSuffix name (bs ".")).
Proof.
  intros Hc Hb p Hnew Ha Hl. set (host := TrimSuffix name (bs ".")) in *.
  assert (Hp : pool_inv p) by (by apply pool_inv_runs, pool_inv_new).
  assert (Hp' : pool_inv p') by (pose proof (pool_inv_alloc p name (qtype_of f) Hp) as H1; by rewrite Ha in H1).
  rewrite alloc_cases in Ha. fold host in Ha. destruct (have p f) eqn:Eh; [|done]. rewrite Hnew in Ha.
  injection Ha as <- <-. destruct (pi_range _ Hp f Eh) as (base & size & v & Hr & Hcur & Hv).
  assert (size = 2 ^ (width f - b)) as Hsz.
  { destruct (rg_pfx _ _ _ _ Hr) as (b' & Ep & _ & ->). do 2 f_equal.
    destruct (static_runs qs (newFakeIPPool cfg) f) as [Eh' Ep']. fold p in Eh', Ep'. rewrite Ep in Ep'.
    rewrite Eh in Eh'. destruct f; cbn in *; rewrite <-Eh' in Ep'; apply (f_equal pfx_bits) in Ep'; cbn in Ep';
      unfold Masked in Ep'; rewrite Hb in Ep'; destruct (pfx_addr _); cbn in Ep'; congruence. }
  rewrite Hcur. pose proof (range_size _ _ _ _ Hr) as Hs2.
  destruct (bind_fresh_static p f host f) as (Eh2 & Ep2 & Ec2). rewrite bool_decide_true in Ec2 by done.
  rewrite Hcur, (wrapNext_range _ _ _ _ _ Hr Hv) in Ec2.
  assert (Hi : ip2d (bind_fresh p f host) !! mkaddr f v = Some host).
  { rewrite bind_fresh_ip2d, Hcur. by rewrite decide_True. }
  destruct qs' as [|q qs']; [done|].
  assert (Hm : mapped (bind_fresh p f host) f host base size v (ahead base size (succ_in base size v) v)).
  { split_and!; [by rewrite Ep2|lia|lia|by rewrite Eh2|done|].
    eexists. split; [exact Ec2|]. split; [by apply succ_in_range|done]. }
  eapply mapped_runs; [done|exact Hm| |]; rewrite ahead_succ by done;
    unfold ahead; rewrite Z.sub_diag, Z.mod_0_l by lia; cbn [length] in Hl;
    rewrite Z.mod_small by lia; [lia|]. cbn [length]. lia.
Qed.

(** A range of a single address, which the constructor accepts, hands out the
    address after it: outside the configured range, so that the range test does not
    recognise it. *)
Theorem single_address_range_escapes `{Unicode} (v : Z) name excl :
  0 <= v < 2 ^ 32 - 1 ->
  let cfg := mkFakeIPConfig {| pfx_addr := Addr4 v; pfx_bits := Some 32 |} noPrefix excl in
  exists p', alloc (newFakeIPPool cfg) name TypeA = (Some (Addr4 (v + 1)), p') /\
    pool_contains p' (Addr4 (v + 1)) = false.
Proof.
  intros Hv cfg. assert (Hm : mask_val 32 32 v = v).
  { unfold mask_val. cbn. by rewrite Z.shiftr_0_r, Z.shiftl_0_r. }
  assert (Hn : (v + 1 =? 2 ^ 32) = false) by (apply Z.eqb_neq; lia).
  assert (Hcur : cur4 (newFakeIPPool cfg) = Addr4 (v + 1)).
  { unfold newFakeIPPool. cbn. by rewrite Hm, Hn. }
  change TypeA with (qtype_of false). rewrite alloc_cases. cbn [have d2 cur].
  assert (have4 (newFakeIPPool cfg) = true) as -> by done.
  assert (d2v4 (newFakeIPPool cfg) !! TrimSuffix name (bs ".") = None) as -> by apply lookup_empty.
  rewrite Hcur. eexists. split; [done|].
  set (q := bind_fresh _ _ _).
  destruct (bind_fresh_static (newFakeIPPool cfg) false (TrimSuffix name (bs ".")) false) as (_ & Ep & _).
  destruct (bind_fresh_static (newFakeIPPool cfg) false (TrimSuffix name (bs ".")) true) as (Eh6 & _ & _).
  cbn [have pfx] in Ep, Eh6. fold q in Ep, Eh6. unfold pool_contains. rewrite Ep, Eh6.
  cbn. rewrite Hm, orb_false_r. apply andb_false_iff. right.
  replace (32 - 32) with 0 by lia. rewrite !Z.shiftr_0_r. apply Z.eqb_neq. lia.
Qed.

Module Examples.
#[local] Existing Instance ascii_only.

Definition cfg : FakeIPConfig := mkFakeIPConfig (prefix "198.18.0.0/15") (prefix "fc00::/18") [].

Lemma cfg_is_ok : cfg_ok cfg.
Proof.
  split.
  - exists 3323068416. vm_compute. repeat split; intros; discriminate.
  - exists (64512 * 2 ^ 112). vm_compute. repeat split; intros; discriminate.
  - intros v Hv. assert (range true (Masked (Inet6 cfg)) (64512 * 2 ^ 112) (2 ^ 110)) as Hr.
    { split; [exists 18; split; [vm_compute; reflexivity|cbn; lia]|].
      split; [lia|]. split; [cbn; lia|]. exists (64512 * 4). lia. }
    intros H. apply (range_contains true _ _ _ v Hr Hv) in H. cbn. apply Z.eqb_neq.
    rewrite Z.shiftr_div_pow2 by lia. intros E. pose proof (Z.mul_succ_div_gt v (2 ^ 32)). lia.
Qed.

Definition p1 : fakeIPPool := (alloc (newFakeIPPool cfg) (bs "example.com.") TypeA).2.


Lemma fake_ip_fifo_witness :
  ip2d (runs p1 [(bs "a.org.", TypeA); (bs "b.org.", TypeAAAA)]) !! addr "198.18.0.1" = Some (bs "example.com").
Proof.
  apply (fake_ip_fifo cfg [] [(bs "a.org.", TypeA); (bs "b.org.", TypeAAAA)] (bs "example.com.") false
           (addr "198.18.0.1") p1 15).
  - apply cfg_is_ok.
  - vm_compute. reflexivity.
  - vm_compute. reflexivity.
  - vm_compute. reflexivity.
  - cbn. lia.
Defined.

Lemma single_address_range_escapes_witness :
  let cfg := mkFakeIPConfig {| pfx_addr := Addr4 7; pfx_bits := Some 32 |} noPrefix [] in
  exists p', alloc (newFakeIPPool cfg) (bs "a.org.") TypeA = (Some (Addr4 8), p') /\
    pool_contains p' (Addr4 8) = false.
Proof. apply (single_address_range_escapes 7 (bs "a.org.") []). lia. Defined.
End Examples.
