(* ===== verification/Dns.v ===== *)
(** * Package [dns]: the resolver

    [dns/hosts.go], [dns/policy.go], [dns/cache.go], [dns/codec.go], [dns/resolver.go].
    A query is answered from the static hosts, from the fake-address pool, from the cache
    or by the upstreams a policy selects, in that order. The message codec
    ([golang.org/x/net/dns/dnsmessage]) is a parameter, as are the upstreams' answers and
    the clock, in seconds. *)
From S2P Require Import Prelude GoStd Netip DnsFakeIP.
From Stdlib Require Import Init.Byte.

(** ** Messages, and the codec's interface *)

Inductive Body := AResource (a : bytes) | AAAAResource (a : bytes).

Record Message := mkMessage {
  msg_ID : Z;
  msg_Response : bool;
  msg_RecursionDesired : bool;
  msg_RecursionAvailable : bool;
  msg_Authoritative : bool;
  msg_Questions : list (bytes * Z);          (* name, type; the class is IN *)
  msg_Answers : list (bytes * Z * Z * Body); (* name, type, TTL, body *)
}.

(** [dnsmessage]: names and packing, and the parser as a cursor over a message. *)
Class Codec := {
  NewName : bytes -> option bytes;
  Pack : Message -> option bytes;
  parser : Type;
  Start : bytes -> option parser;
  Question : parser -> option (bytes * Z);
  SkipAllQuestions : parser -> option parser;
  AnswerHeader : parser -> option (Z * Z);   (* type, TTL *)
  SkipAnswer : parser -> option parser;
  ReadA : parser -> option (bytes * parser);
  ReadAAAA : parser -> option (bytes * parser);
  (* the answers left to read; reading or skipping one leaves fewer *)
  remaining : parser -> nat;
}.

(** ** Codec helpers ([dns/codec.go]) *)

Record qkey := mkKey { k_name : bytes; k_qtype : Z }.

#[export] Instance qkey_eq_dec : EqDecision qkey.
Proof. solve_decision. Defined.
#[export] Instance qkey_countable : Countable qkey.
Proof.
  apply (inj_countable' (fun k => (k_name k, k_qtype k)) (fun p => mkKey p.1 p.2)). by intros [].
Defined.

Section Resolver.
Context `{Unicode} `{Codec}.

Definition parseQuery (raw : bytes) : option (qkey * Z) :=
  if (length raw <? 12)%nat then None
  else
    let id := be_dec (take 2 raw) in
    match Start raw with
    | None => None
    | Some p => match Question p with
                | None => None
                | Some (name, qt) => Some (mkKey (ToLower name) qt, id)
                end
    end.

(** The loop of [minTTL]; the fuel is the number of answers left. *)
Fixpoint minTTL_loop (fuel : nat) (p : parser) (min : option Z) : option Z :=
  match fuel with
  | O => min
  | S fuel' =>
      match AnswerHeader p with
      | None => min
      | Some (_, ttl) =>
          let min := match min with Some m => Some (if ttl <? m then ttl else m) | None => Some ttl end in
          match SkipAnswer p with
          | None => min
          | Some p => minTTL_loop fuel' p min
          end
      end
  end.
Definition minTTL (raw : bytes) : option Z :=
  match Start raw with
  | None => None
  | Some p => match SkipAllQuestions p with
              | None => None
              | Some p => minTTL_loop (remaining p) p None
              end
  end.

Definition setTxID (raw : bytes) (id : Z) : bytes :=
  if (2 <=? length raw)%nat then be_enc 2 id ++ drop 2 raw else raw.

(** The loop of [parseAddrs], with the addresses found so far. *)
Fixpoint parseAddrs_loop (fuel : nat) (p : parser) (out : list Addr) : list Addr :=
  match fuel with
  | O => out
  | S fuel' =>
      match AnswerHeader p with
      | None => out
      | Some (ty, _) =>
          if ty =? TypeA then
            match ReadA p with
            | None => out
            | Some (a, p) => parseAddrs_loop fuel' p (out ++ [AddrFrom4 a])
            end
          else if ty =? TypeAAAA then
            match ReadAAAA p with
            | None => out
            | Some (a, p) => parseAddrs_loop fuel' p (out ++ [AddrFrom16 a])
            end
          else match SkipAnswer p with
               | None => out
               | Some p => parseAddrs_loop fuel' p out
               end
      end
  end.
(** [parseAddrs] and [toNetip]: the addresses, [[]] for not ok. *)
Definition parseAddrs (raw : bytes) : list Addr :=
  match Start raw with
  | None => []
  | Some p => match SkipAllQuestions p with
              | None => []
              | Some p => parseAddrs_loop (remaining p) p []
              end
  end.

(** ** Names and queries *)

Definition dnsLower (s : bytes) : bytes := lower_byte <$> s.
Definition dnsName (host : bytes) : bytes :=
  dnsLower (match last host with
            | Some x2e => host
            | _ => host ++ [x2e]
            end).

Inductive Strategy := StratBoth | StratPreferV4 | StratPreferV6 | StratV4Only | StratV6Only.

Definition queryTypes (s : Strategy) : list Z :=
  match s with
  | StratV4Only => [TypeA]
  | StratV6Only => [TypeAAAA]
  | StratPreferV6 => [TypeAAAA; TypeA]
  | _ => [TypeA; TypeAAAA]
  end.

Definition buildQuery (host : bytes) (qt : Z) : option bytes :=
  match NewName (dnsName host) with
  | None => None
  | Some n => Pack (mkMessage 0 false true false false [(n, qt)] [])
  end.

(** ** Hosts ([dns/hosts.go]) *)

Abbreviation hostsMap := (gmap bytes (list Addr)).

Definition newHosts (entries : list (bytes * list Addr)) : option hostsMap :=
  match entries with
  | [] => None
  | _ => Some (foldl (fun m e => <[dnsName e.1 := e.2]> m) ∅ entries)
  end.

Definition hosts_lookup (h : option hostsMap) (name : bytes) (qtype : Z) : option (list Addr) :=
  match h with
  | None => None
  | Some m =>
      match m !! name with
      | None => None
      | Some addrs =>
          if negb (qtype =? TypeA) && negb (qtype =? TypeAAAA) then Some []
          else Some (filter (fun a => (qtype =? TypeA) && Is4 a = true \/
                                      (qtype =? TypeAAAA) && Is6 a && negb (Is4In6 a) = true) addrs)
      end
  end.

Definition answer_of (name : bytes) (qtype : Z) (a : Addr) : option (bytes * Z * Z * Body) :=
  if (qtype =? TypeA) && Is4 a then Some (name, qtype, 600, AResource (be_enc 4 (addr_val a)))
  else if (qtype =? TypeAAAA) && Is6 a then Some (name, qtype, 600, AAAAResource (As16 a))
  else None.

Definition buildHostsResponse (id : Z) (name : bytes) (qtype : Z) (addrs : list Addr) : option bytes :=
  match NewName name with
  | None => None
  | Some dn => Pack (mkMessage id true false true true [(dn, qtype)] (omap (answer_of dn qtype) addrs))
  end.

(** ** Policies ([dns/policy.go]) *)

Record domainMatcher := mkMatcher { dm_exact : gset bytes; dm_suffix : list bytes; dm_keyword : list bytes }.

(** Drop trailing dots; the length is enough fuel. *)
Fixpoint trim_dots (fuel : nat) (s : bytes) : bytes :=
  match fuel, last s with
  | S fuel', Some x2e => trim_dots fuel' (take (length s - 1) s)
  | _, _ => s
  end.
Definition bareLower (s : bytes) : bytes := let s := ToLower s in trim_dots (length s) s.

Definition newDomainMatcher (domain suffix keyword : list bytes) : domainMatcher :=
  mkMatcher (list_to_set (bareLower <$> domain)) (bareLower <$> suffix) (ToLower <$> keyword).

Definition suffix_match (n s : bytes) : bool :=
  bool_decide (n = s) ||
  ((length s <? length n)%nat && HasSuffix n s && bool_decide (n !! (length n - length s - 1)%nat = Some x2e)).

Definition matcher_match (m : domainMatcher) (name : bytes) : bool :=
  let n := bareLower name in
  bool_decide (n ∈ dm_exact m) || existsb (suffix_match n) (dm_suffix m) || existsb (Contains n) (dm_keyword m).

(** An upstream, by its place in the configuration. *)
Abbreviation upstream := nat.

Record NameserverPolicy := mkPolicy {
  np_Domain : list bytes;
  np_DomainSuffix : list bytes;
  np_DomainKeyword : list bytes;
  np_Nameservers : list bytes;
}.

Inductive planErr :=
| ErrNoNameserver
| ErrUnknownStrategy (s : bytes)
| ErrNoDetour (tag : bytes)
| ErrBadAddress (tag : bytes)
| ErrPolicyNoDimension (i : nat)
| ErrPolicyNoUpstream (i : nat)
| ErrPolicyUnknownTag (i : nat) (tag : bytes).

Record policyRule := mkPolicyRule { pr_m : domainMatcher; pr_ups : list upstream }.

Fixpoint resolve_tags (i : nat) (byTag : gmap bytes upstream) (tags : list bytes) : res planErr (list upstream) :=
  match tags with
  | [] => Ok []
  | tag :: tags' =>
      match byTag !! tag with
      | None => Err (ErrPolicyUnknownTag i tag)
      | Some u => ups ← resolve_tags i byTag tags'; Ok (u :: ups)
      end
  end.

Fixpoint buildPolicies (i : nat) (byTag : gmap bytes upstream) (pols : list NameserverPolicy)
  : res planErr (list policyRule) :=
  match pols with
  | [] => Ok []
  | pol :: pols' =>
      if (length (np_Domain pol) + length (np_DomainSuffix pol) + length (np_DomainKeyword pol) =? 0)%nat
      then Err (ErrPolicyNoDimension i)
      else if (length (np_Nameservers pol) =? 0)%nat then Err (ErrPolicyNoUpstream i)
      else
        ups ← resolve_tags i byTag (np_Nameservers pol);
        rest ← buildPolicies (S i) byTag pols';
        Ok (mkPolicyRule (newDomainMatcher (np_Domain pol) (np_DomainSuffix pol) (np_DomainKeyword pol)) ups :: rest)
  end.

(** ** Plans *)

Inductive strat := stratRace | stratSequential.

Record plan := mkPlan {
  pl_nameservers : list upstream;
  pl_policies : list policyRule;
  pl_strategy : strat;
  pl_hosts : option hostsMap;
}.

(** A configured upstream; [ns_parsed] tells whether [parseNameserver] accepts its
    address. *)
Record Nameserver := mkNameserver { ns_Tag : bytes; ns_Detour : bool; ns_parsed : bool }.

Fixpoint buildUpstreams (i : nat) (nss : list Nameserver) (byTag : gmap bytes upstream)
  : res planErr (list upstream * gmap bytes upstream) :=
  match nss with
  | [] => Ok ([], byTag)
  | ns :: nss' =>
      if negb (ns_Detour ns) then Err (ErrNoDetour (ns_Tag ns))
      else if negb (ns_parsed ns) then Err (ErrBadAddress (ns_Tag ns))
      else
        '(ups, byTag) ← buildUpstreams (S i) nss'
           (if bool_decide (ns_Tag ns = []) then byTag else <[ns_Tag ns := i]> byTag);
        Ok (i :: ups, byTag)
  end.

Definition buildPlan (nss : list Nameserver) (policies : list NameserverPolicy) (strategy : bytes)
    (hosts : list (bytes * list Addr)) : res planErr plan :=
  match nss with
  | [] => Err ErrNoNameserver
  | _ =>
      st ← (if bool_decide (strategy = []) || bool_decide (strategy = bs "race") then Ok stratRace
            else if bool_decide (strategy = bs "sequential") then Ok stratSequential
            else Err (ErrUnknownStrategy strategy));
      '(ups, byTag) ← buildUpstreams 0 nss ∅;
      prs ← buildPolicies 0 byTag policies;
      Ok (mkPlan ups prs st (newHosts hosts))
  end.

Fixpoint first_policy (l : list policyRule) (name : bytes) : option (list upstream) :=
  match l with
  | [] => None
  | p :: l' => if matcher_match (pr_m p) name then Some (pr_ups p) else first_policy l' name
  end.

Definition upstreamsFor (p : plan) (name : bytes) : list upstream :=
  if bool_decide (name = []) then pl_nameservers p
  else default (pl_nameservers p) (first_policy (pl_policies p) name).

(** ** The cache ([dns/cache.go]) *)

Record entry := mkEntry { e_raw : bytes; e_expireAt : Z }.

(** The 256 shards, by index; an absent one is empty. *)
Abbreviation cache := (gmap Z (gmap qkey entry)).
Definition newCache : cache := ∅.

Definition shardOf (k : qkey) : Z :=
  Z.lxor (match last (k_name k) with Some c => b2z c | None => 0 end) (w8 (k_qtype k)).
Definition shard (c : cache) (k : qkey) : gmap qkey entry := default ∅ (c !! shardOf k).

Definition cache_get (c : cache) (k : qkey) (now : Z) : option bytes * cache :=
  match shard c k !! k with
  | None => (None, c)
  | Some e =>
      if e_expireAt e <? now then (None, <[shardOf k := delete k (shard c k)]> c)
      else (Some (e_raw e), c)
  end.

Definition cache_put (c : cache) (k : qkey) (raw : bytes) (ttl now : Z) : cache :=
  if ttl =? 0 then c
  else <[shardOf k := <[k := mkEntry raw (now + ttl)]> (shard c k)]> c.

(** ** Exchanging messages ([dns/resolver.go]) *)

Record Resolver := mkResolver {
  r_plan : option plan;
  r_cache : cache;
  r_fake : option fakeIPPool;
}.

Inductive dnsErr :=
| ErrDisabled
| ErrAllUpstreamsFailed
| ErrBadName (host : bytes)
| ErrNoRecords (host : bytes).

(** The network: what each upstream answers to a message, and the order in which the
    answers of a race arrive. *)
Record network := mkNetwork {
  query : upstream -> bytes -> option bytes;
  arrival : list upstream -> list upstream;
}.

Fixpoint first_answer (net : network) (ups : list upstream) (raw : bytes) : option bytes :=
  match ups with
  | [] => None
  | u :: ups' => match query net u raw with Some r => Some r | None => first_answer net ups' raw end
  end.

(** The upstreams a sequential exchange asks: up to the first that answers. *)
Fixpoint asked_until (net : network) (ups : list upstream) (raw : bytes) : list upstream :=
  match ups with
  | [] => []
  | u :: ups' => match query net u raw with Some _ => [u] | None => u :: asked_until net ups' raw end
  end.

(** [plan.exchange]: the answer, and the upstreams that saw the message. *)
Definition plan_exchange (p : plan) (net : network) (raw name : bytes) : option bytes * list upstream :=
  let ups := upstreamsFor p name in
  match pl_strategy p with
  | stratSequential => (first_answer net ups raw, asked_until net ups raw)
  | stratRace => (first_answer net (arrival net ups) raw, ups)
  end.

Definition with_cache (r : Resolver) (c : cache) : Resolver := mkResolver (r_plan r) c (r_fake r).
Definition with_fake (r : Resolver) (f : option fakeIPPool) : Resolver := mkResolver (r_plan r) (r_cache r) f.

(** The hosts step of [exchange1]. *)
Definition from_hosts (p : plan) (key : qkey) (id : Z) : option bytes :=
  match hosts_lookup (pl_hosts p) (k_name key) (k_qtype key) with
  | Some addrs => buildHostsResponse id (k_name key) (k_qtype key) addrs
  | None => None
  end.

(** The fake step: an answer, if it gives one, and the pool afterwards. *)
Definition from_fake (r : Resolver) (key : qkey) (id : Z) : option bytes * Resolver :=
  match r_fake r with
  | None => (None, r)
  | Some f =>
      if ((k_qtype key =? TypeA) || (k_qtype key =? TypeAAAA)) && negb (excluded f (k_name key)) then
        match alloc f (k_name key) (k_qtype key) with
        | (Some fip, f) =>
            (buildHostsResponse id (k_name key) (k_qtype key) [fip], with_fake r (Some f))
        | (None, f) =>
            (if k_qtype key =? TypeAAAA then buildHostsResponse id (k_name key) (k_qtype key) [] else None,
             with_fake r (Some f))
        end
      else (None, r)
  end.

(** The upstream step: ask, and cache a successful answer for its smallest TTL. *)
Definition from_upstream (r : Resolver) (p : plan) (net : network) (raw : bytes) (key : option qkey) (now : Z)
  : res dnsErr bytes * Resolver * list upstream :=
  let '(resp, asked) := plan_exchange p net raw (match key with Some k => k_name k | None => [] end) in
  match resp with
  | None => (Err ErrAllUpstreamsFailed, r, asked)
  | Some resp =>
      let r := match key with
               | Some k => match minTTL resp with
                           | Some ttl => with_cache r (cache_put (r_cache r) k resp ttl now)
                           | None => r
                           end
               | None => r
               end in
      (Ok resp, r, asked)
  end.

Definition exchange1 (r : Resolver) (net : network) (raw : bytes) (skipFake : bool) (now : Z)
  : res dnsErr bytes * Resolver * list upstream :=
  match r_plan r with
  | None => (Err ErrDisabled, r, [])
  | Some p =>
      match parseQuery raw with
      | None => from_upstream r p net raw None now
      | Some (key, id) =>
          match from_hosts p key id with
          | Some resp => (Ok resp, r, [])
          | None =>
              let '(fake, r) := if skipFake then (None, r) else from_fake r key id in
              match fake with
              | Some resp => (Ok resp, r, [])
              | None =>
                  let '(hit, c) := cache_get (r_cache r) key now in
                  let r := with_cache r c in
                  match hit with
                  | Some cached => (Ok (setTxID cached id), r, [])
                  | None => from_upstream r p net raw (Some key) now
                  end
              end
          end
      end
  end.

Definition Exchange (r : Resolver) (net : network) (raw : bytes) (now : Z) := exchange1 r net raw false now.

(** The loop of [Lookup] and [LookupReal] over the query types. *)
Fixpoint lookup_types (r : Resolver) (net : network) (host : bytes) (skipFake : bool) (now : Z)
    (qts : list Z) (addrs : list Addr) (asked : list upstream)
  : res dnsErr (list Addr) * Resolver * list upstream :=
  match qts with
  | [] => (if bool_decide (addrs = []) then Err (ErrNoRecords host) else Ok addrs, r, asked)
  | qt :: qts' =>
      match buildQuery host qt with
      | None => (Err (ErrBadName host), r, asked)
      | Some raw =>
          match exchange1 r net raw skipFake now with
          | (Err e, r, a) => (Err e, r, asked ++ a)
          | (Ok resp, r, a) => lookup_types r net host skipFake now qts' (addrs ++ parseAddrs resp) (asked ++ a)
          end
      end
  end.

Definition Lookup (r : Resolver) (net : network) (host : bytes) (s : Strategy) (now : Z) :=
  match r_plan r with
  | None => (Err ErrDisabled, r, [])
  | Some _ => lookup_types r net host false now (queryTypes s) [] []
  end.

Definition LookupReal (r : Resolver) (net : network) (host : bytes) (s : Strategy) (now : Z) :=
  match r_plan r with
  | None => (Err ErrDisabled, r, [])
  | Some _ => lookup_types r net host true now (queryTypes s) [] []
  end.

Fixpoint cached_types (c : cache) (host : bytes) (now : Z) (qts : list Z) (addrs : list Addr) : list Addr * cache :=
  match qts with
  | [] => (addrs, c)
  | qt :: qts' =>
      let '(hit, c) := cache_get c (mkKey (dnsName host) qt) now in
      cached_types c host now qts' (match hit with Some raw => addrs ++ parseAddrs raw | None => addrs end)
  end.

(** [LookupCached]: the addresses, [[]] for a miss. *)
Definition LookupCached (r : Resolver) (host : bytes) (s : Strategy) (now : Z) : list Addr * Resolver :=
  let '(addrs, c) := cached_types (r_cache r) host now (queryTypes s) [] in (addrs, with_cache r c).

Definition FakeIPToDomain (r : Resolver) (ip : Addr) : option bytes :=
  match r_fake r with None => None | Some f => pool_lookup f ip end.

Definition New (nss : list Nameserver) (policies : list NameserverPolicy) (strategy : bytes)
    (hosts : list (bytes * list Addr)) (fake : option FakeIPConfig) : res planErr Resolver :=
  pl ← buildPlan nss policies strategy hosts;
  Ok (mkResolver (Some pl) newCache (newFakeIPPool <$> fake)).

(** [Reload]: a new plan; on an error the old one stays. *)
Definition Reload (r : Resolver) (nss : list Nameserver) (policies : list NameserverPolicy) (strategy : bytes)
    (hosts : list (bytes * list Addr)) : res planErr unit * Resolver :=
  match buildPlan nss policies strategy hosts with
  | Err e => (Err e, r)
  | Ok pl => (Ok tt, mkResolver (Some pl) (r_cache r) (r_fake r))
  end.
End Resolver.
