(* ===== verification/DnsSpec.v ===== *)
(** * What the resolver guarantees

    Which upstreams may see a query, that addresses looked up for routing are never fake,
    and that policies match at label boundaries. *)
From S2P Require Import Prelude GoStd Netip DnsFakeIP DnsFakeIPSpec Dns.
From Stdlib Require Import Init.Byte.

(** ** The cache is one map *)

Section Cache.
Context `{Unicode} `{Codec}.

Definition cached (c : gmap Z (gmap qkey entry)) (k : qkey) : option entry := shard c k !! k.

Lemma cached_insert c k k' m :
  cached (<[shardOf k := m]> c) k' = if decide (shardOf k = shardOf k') then m !! k' else cached c k'.
Proof.
  unfold cached, shard. destruct (decide (shardOf k = shardOf k')) as [E|E].
  - by rewrite E, lookup_insert_eq.
  - by rewrite lookup_insert_ne.
Qed.

Lemma cache_put_spec c k raw ttl now k' :
  cached (cache_put c k raw ttl now) k' =
  if decide (k = k' /\ ttl <> 0) then Some (mkEntry raw (now + ttl)) else cached c k'.
Proof.
  unfold cache_put. destruct (Z.eqb_spec ttl 0); [by rewrite decide_False by naive_solver|].
  rewrite cached_insert. destruct (decide (k = k')) as [<-|Hne].
  - by rewrite !decide_True, lookup_insert_eq by done.
  - rewrite (decide_False (P := k = k' /\ _)) by naive_solver.
    destruct (decide (shardOf k = shardOf k')) as [E|E]; [|done].
    rewrite lookup_insert_ne by done. unfold cached, shard. by rewrite E.
Qed.

Lemma cache_get_spec c k now k' :
  (cache_get c k now).1 =
    match cached c k with
    | Some e => if e_expireAt e <? now then None else Some (e_raw e)
    | None => None
    end /\
  cached (cache_get c k now).2 k' =
    match cached c k with
    | Some e => if decide (k = k') then (if e_expireAt e <? now then None else Some e) else cached c k'
    | None => cached c k'
    end.
Proof.
  unfold cache_get. fold (cached c k). destruct (cached c k) as [e|] eqn:E; [|done].
  destruct (e_expireAt e <? now); cbn; (split; [done|]).
  - rewrite cached_insert. destruct (decide (k = k')) as [<-|Hne].
    + by rewrite decide_True, lookup_delete_eq by done.
    + destruct (decide (shardOf k = shardOf k')) as [E'|]; [|done].
      rewrite lookup_delete_ne by done. unfold cached, shard. by rewrite E'.
  - destruct (decide (k = k')) as [<-|]; done.
Qed.
End Cache.

(** ** Which upstreams are asked *)

Section Leaks.
Context `{Unicode} `{Codec}.

(** [dnsmessage] packs a response to a question it parsed. *)
Definition packs (raw : bytes) : Prop :=
  forall key id addrs, parseQuery raw = Some (key, id) ->
    is_Some (buildHostsResponse id (k_name key) (k_qtype key) addrs).

Lemma asked_until_incl net ups raw u : u ∈ asked_until net ups raw -> u ∈ ups.
Proof.
  induction ups as [|v ups IH]; cbn; [done|]. destruct (query net v raw); set_solver.
Qed.

Lemma asked_exchange p net raw name u : u ∈ (plan_exchange p net raw name).2 -> u ∈ upstreamsFor p name.
Proof. unfold plan_exchange. destruct (pl_strategy p); cbn; [done|apply asked_until_incl]. Qed.

Lemma asked_upstream r p net raw key now u :
  u ∈ (from_upstream r p net raw key now).2 ->
  u ∈ upstreamsFor p (match key with Some k => k_name k | None => [] end).
Proof.
  unfold from_upstream. pose proof (asked_exchange p net raw (match key with Some k => k_name k | None => [] end) u) as Ha.
  destruct (plan_exchange p net raw _) as [[resp|] asked]; cbn in *; done.
Qed.

(** The fake pool takes a query over: it has a range for it, or answers that there are
    no v6 addresses. *)
Definition fake_covers (r : Resolver) (key : qkey) : Prop :=
  exists f, r_fake r = Some f /\ excluded f (k_name key) = false /\
    (k_qtype key = TypeA /\ have4 f = true \/ k_qtype key = TypeAAAA).

Lemma from_fake_answers r key id raw :
  packs raw -> parseQuery raw = Some (key, id) -> fake_covers r key -> is_Some (from_fake r key id).1.
Proof.
  intros Hp Hq (f & Hf & He & Hk). unfold from_fake. rewrite Hf, He.
  assert (Hresp : forall l, is_Some (buildHostsResponse id (k_name key) (k_qtype key) l))
    by (intros l; by apply (Hp key id)).
  destruct Hk as [[Hk Hh]|Hk].
  - pose proof (alloc_some f (k_name key) false Hh) as Ha. change (qtype_of false) with TypeA in Ha.
    rewrite <-Hk in Ha. rewrite Hk. cbn [orb andb negb Z.eqb TypeA Pos.eqb]. rewrite <-Hk.
    destruct (alloc f (k_name key) (k_qtype key)) as [[ip|] f']; [apply Hresp|by destruct Ha].
  - rewrite Hk. change ((TypeAAAA =? TypeA) || (TypeAAAA =? TypeAAAA)) with true. cbn [andb negb].
    rewrite <-Hk. destruct (alloc f (k_name key) (k_qtype key)) as [[ip|] f']; [apply Hresp|].
    rewrite Z.eqb_refl. apply Hresp.
Qed.
End Leaks.

(** ** Where answers come from *)

Section Origin.
Context `{Unicode} `{Codec}.
(** [U] holds of the messages upstreams sent. *)
Variable U : bytes -> Prop.

Definition honest (net : network) : Prop := forall u m resp, query net u m = Some resp -> U resp.
Definition clean (c : gmap Z (gmap qkey entry)) : Prop := forall k e, cached c k = Some e -> U (e_raw e).

Lemma clean_get c k now : clean c -> clean (cache_get c k now).2.
Proof.
  intros Hc k' e. destruct (cache_get_spec c k now k') as [_ ->].
  destruct (cached c k) as [e0|] eqn:E; [|by apply Hc].
  destruct (decide (k = k')) as [<-|]; [|by apply Hc]. destruct (_ <? _); [done|]. intros [= <-]. by eapply Hc.
Qed.

Lemma clean_hit c k now raw : clean c -> (cache_get c k now).1 = Some raw -> U raw.
Proof.
  intros Hc. destruct (cache_get_spec c k now k) as [-> _]. destruct (cached c k) as [e|] eqn:E; [|done].
  destruct (_ <? _); [done|]. intros [= <-]. by eapply Hc.
Qed.

Lemma clean_put c k raw ttl now : clean c -> U raw -> clean (cache_put c k raw ttl now).
Proof.
  intros Hc Hu k' e. rewrite cache_put_spec. destruct (decide _); [|by apply Hc]. by intros [= <-].
Qed.

Lemma first_answer_honest net ups raw resp : honest net -> first_answer net ups raw = Some resp -> U resp.
Proof.
  intros Hn. induction ups as [|u ups IH]; cbn; [done|].
  destruct (query net u raw) eqn:E; [|done]. intros [= <-]. by eapply Hn.
Qed.

Lemma plan_exchange_honest p net raw name resp :
  honest net -> (plan_exchange p net raw name).1 = Some resp -> U resp.
Proof. intros Hn. unfold plan_exchange. destruct (pl_strategy p); by apply first_answer_honest. Qed.

(** A response to a query that is not made up from the pool. *)
Inductive genuine (p : plan) (raw : bytes) : bytes -> Prop :=
| gen_hosts key id resp :
    parseQuery raw = Some (key, id) -> from_hosts p key id = Some resp -> genuine p raw resp
| gen_upstream resp : U resp -> genuine p raw resp
| gen_cached resp id : U resp -> genuine p raw (setTxID resp id).

Lemma from_upstream_ok r p net raw key now :
  honest net -> clean (r_cache r) ->
  let '(res, r', _) := from_upstream r p net raw key now in
  clean (r_cache r') /\ r_fake r' = r_fake r /\ r_plan r' = r_plan r /\
  forall resp, res = Ok resp -> genuine p raw resp.
Proof.
  intros Hn Hc. unfold from_upstream.
  pose proof (plan_exchange_honest p net raw (match key with Some k => k_name k | None => [] end)) as Hx.
  destruct (plan_exchange p net raw _) as [[resp|] asked]; cbn in Hx; [|done].
  specialize (Hx resp Hn eq_refl). destruct key as [k|]; [|split_and!; try done; intros ? [= <-]; by apply gen_upstream].
  destruct (minTTL resp) as [ttl|]; cbn; split_and!; try done; try (intros ? [= <-]; by apply gen_upstream).
  by apply clean_put.
Qed.

Lemma exchange1_real r net raw now p :
  r_plan r = Some p -> honest net -> clean (r_cache r) ->
  let '(res, r', _) := exchange1 r net raw true now in
  clean (r_cache r') /\ r_fake r' = r_fake r /\ r_plan r' = r_plan r /\
  forall resp, res = Ok resp -> genuine p raw resp.
Proof.
  intros Hp Hn Hc. unfold exchange1. rewrite Hp.
  destruct (parseQuery raw) as [[key id]|] eqn:Hq.
  2: { pose proof (from_upstream_ok r p net raw None now Hn Hc) as Hu. rewrite Hp in Hu. exact Hu. }
  destruct (from_hosts p key id) as [resp|] eqn:Hh.
  { split_and!; try done. intros ? [= <-]. by eapply gen_hosts. }
  cbn. pose proof (clean_get (r_cache r) key now Hc) as Hc'.
  pose proof (fun raw => clean_hit (r_cache r) key now raw Hc) as Hhit.
  destruct (cache_get (r_cache r) key now) as [[hit|] c]; cbn in Hc', Hhit.
  { split_and!; try done. intros ? [= <-]. apply gen_cached. by apply Hhit. }
  pose proof (from_upstream_ok (with_cache r c) p net raw (Some key) now Hn Hc') as Hu.
  destruct (from_upstream _ _ _ _ _ _) as [[res r'] a]. cbn in Hu. rewrite Hp in Hu. exact Hu.
Qed.

Lemma exchange1_clean r net raw skip now :
  honest net -> clean (r_cache r) -> clean (r_cache (exchange1 r net raw skip now).1.2).
Proof.
  intros Hn Hc. unfold exchange1. destruct (r_plan r) as [p|]; [|done].
  destruct (parseQuery raw) as [[key id]|].
  2: { pose proof (from_upstream_ok r p net raw None now Hn Hc) as Hu.
       destruct (from_upstream _ _ _ _ _ _) as [[res r'] a]. apply Hu. }
  destruct (from_hosts p key id); [done|].
  assert (r_cache (if skip then (None, r) else from_fake r key id).2 = r_cache r) as Hcf.
  { destruct skip; [done|]. unfold from_fake. destruct (r_fake r); [|done].
    destruct (_ && _); [|done]. by destruct (alloc _ _ _) as [[] ?]. }
  destruct (if skip then (None, r) else from_fake r key id) as [fake r1]. cbn in Hcf.
  rewrite <-Hcf in Hc. destruct fake; [done|].
  pose proof (clean_get (r_cache r1) key now Hc) as Hc'.
  destruct (cache_get (r_cache r1) key now) as [[hit|] c]; [done|].
  pose proof (from_upstream_ok (with_cache r1 c) p net raw (Some key) now Hn Hc') as Hu.
  destruct (from_upstream _ _ _ _ _ _) as [[res r'] a]. apply Hu.
Qed.

(** The addresses of [LookupReal] come from genuine responses. *)
Lemma lookup_types_real p host now net : forall qts r addrs asked,
  r_plan r = Some p -> honest net -> clean (r_cache r) ->
  let '(res, r', _) := lookup_types r net host true now qts addrs asked in
  r_fake r' = r_fake r /\ clean (r_cache r') /\
  forall l, res = Ok l -> forall a, a ∈ l -> a ∈ addrs \/
    exists qt raw resp, buildQuery host qt = Some raw /\ genuine p raw resp /\ a ∈ parseAddrs resp.
Proof.
  induction qts as [|qt qts IH]; intros r addrs asked Hp Hn Hc; cbn.
  { case_bool_decide; split_and!; try done. intros l [= <-]. auto. }
  destruct (buildQuery host qt) as [raw|] eqn:Hq; [|done].
  pose proof (exchange1_real r net raw now p Hp Hn Hc) as Hx.
  destruct (exchange1 r net raw true now) as [[[resp|e] r1] a1]; destruct Hx as (Hc1 & Hf1 & Hp1 & Hg).
  2: { split_and!; done. }
  specialize (IH r1 (addrs ++ parseAddrs resp) (asked ++ a1)).
  destruct (lookup_types r1 net host true now qts _ _) as [[res r2] a2].
  destruct IH as (Hf2 & Hc2 & Hl); [congruence|done..|]. split_and!; [congruence|done|].
  intros l Hr a Hin. destruct (Hl l Hr a Hin) as [[?|?]%elem_of_app|?]; [by left| |by right].
  right. exists qt, raw, resp. auto.
Qed.
End Origin.

(** ** Policies *)

Section Policies.
Context `{Unicode} `{Codec}.

(** [n] is [s] or a name below it. *)
Definition at_or_below (n s : bytes) : Prop := n = s \/ exists t, n = t ++ bs "." ++ s.

(** The names a policy is for. *)
Definition policy_covers (pol : NameserverPolicy) (name : bytes) : Prop :=
  let n := bareLower name in
  (exists d, d ∈ np_Domain pol /\ n = bareLower d) \/
  (exists s, s ∈ np_DomainSuffix pol /\ at_or_below n (bareLower s)) \/
  (exists k, k ∈ np_DomainKeyword pol /\ exists a b, n = a ++ ToLower k ++ b).

Lemma suffix_match_spec n s : suffix_match n s = true <-> at_or_below n s.
Proof.
  unfold suffix_match, at_or_below. rewrite orb_true_iff, bool_decide_eq_true, !andb_true_iff, HasSuffix_spec.
  rewrite bool_decide_eq_true, Nat.ltb_lt. split.
  - intros [->|[[Hl [t ->]] Hd]]; [by left|right]. rewrite length_app in *.
    replace (length t + length s - length s - 1)%nat with (length t - 1)%nat in Hd by lia.
    rewrite lookup_app_l in Hd by lia.
    destruct t as [|x t] using rev_ind; [cbn in Hl; lia|]. rewrite length_app in Hd. cbn in Hd.
    replace (length t + 1 - 1)%nat with (length t) in Hd by lia.
    rewrite lookup_app_r, Nat.sub_diag in Hd by lia. injection Hd as ->.
    exists t. by rewrite <-app_assoc.
  - intros [->|[t ->]]; [by left|right]. rewrite !length_app. cbn [bs length]. split; [split|].
    + change (length (bs ".")) with 1%nat. lia.
    + exists (t ++ bs "."). by rewrite <-app_assoc.
    + change (length (bs ".")) with 1%nat.
      replace (length t + (1 + length s) - length s - 1)%nat with (length t) by lia.
      by rewrite lookup_app_r, Nat.sub_diag by lia.
Qed.

Lemma matcher_match_spec pol name :
  matcher_match (newDomainMatcher (np_Domain pol) (np_DomainSuffix pol) (np_DomainKeyword pol)) name = true <->
  policy_covers pol name.
Proof.
  unfold matcher_match, newDomainMatcher, policy_covers. cbn [dm_exact dm_suffix dm_keyword].
  rewrite !orb_true_iff, bool_decide_eq_true, elem_of_list_to_set, list_elem_of_fmap, !existsb_exists.
  split.
  - intros [[(d & -> & Hd)|(s & Hs%list_elem_of_In & Hm)]|(k & Hk%list_elem_of_In & Hm)].
    + left. eauto.
    + right. left. apply list_elem_of_fmap in Hs as (s0 & -> & ?). exists s0. by rewrite <-suffix_match_spec.
    + right. right. apply list_elem_of_fmap in Hk as (k0 & -> & ?). exists k0. by rewrite <-Contains_spec.
  - intros [(d & Hd & E)|[(s & Hs & E)|(k & Hk & E)]].
    + left. left. eauto.
    + left. right. exists (bareLower s). rewrite <-list_elem_of_In, suffix_match_spec. split; [|done].
      apply list_elem_of_fmap. eauto.
    + right. exists (ToLower k). rewrite <-list_elem_of_In, Contains_spec. split; [|done].
      apply list_elem_of_fmap. eauto.
Qed.

(** The upstreams a list of tags names. *)
Definition named (nss : list Nameserver) (tag : bytes) (u : nat) : Prop :=
  exists ns, nss !! u = Some ns /\ ns_Tag ns = tag.

Lemma buildUpstreams_ok nss0 nss : forall i byTag ups byTag',
  (forall j ns, nss !! j = Some ns -> nss0 !! (i + j)%nat = Some ns) ->
  (forall tag u, byTag !! tag = Some u -> named nss0 tag u) ->
  buildUpstreams i nss byTag = Ok (ups, byTag') ->
  ups = seq i (length nss) /\ forall tag u, byTag' !! tag = Some u -> named nss0 tag u.
Proof.
  induction nss as [|ns nss IH]; intros i byTag ups byTag' Hn Ht; cbn.
  { intros [= <- <-]. done. }
  destruct (ns_Detour ns); [|done]. destruct (ns_parsed ns); [|done]. cbn.
  intros ([ups1 bt1] & Hb & [= <- <-])%bind_ok_inv. apply IH in Hb as [-> Hbt].
  - done.
  - intros j ns' Hj. replace (S i + j)%nat with (i + S j)%nat by lia. by apply Hn.
  - intros tag u. case_bool_decide; [apply Ht|].
    intros [[<- <-]|[? ?]]%lookup_insert_Some; [|by apply Ht]. exists ns. split; [|done].
    specialize (Hn O ns eq_refl). by rewrite Nat.add_0_r in Hn.
Qed.

Lemma resolve_tags_ok i byTag tags ups (P : bytes -> nat -> Prop) :
  (forall tag u, byTag !! tag = Some u -> P tag u) ->
  resolve_tags i byTag tags = Ok ups -> Forall2 P tags ups.
Proof.
  intros Ht. revert ups. induction tags as [|tag tags IH]; cbn; intros ups; [intros [= <-]; constructor|].
  destruct (byTag !! tag) as [u|] eqn:E; [|done].
  intros (ups1 & H1 & [= <-])%bind_ok_inv. constructor; auto.
Qed.

Definition matches_of (r : policyRule) (name : bytes) : bool := matcher_match (pr_m r) name.

Lemma buildPolicies_ok byTag (P : bytes -> nat -> Prop) pols : forall i rules,
  (forall tag u, byTag !! tag = Some u -> P tag u) ->
  buildPolicies i byTag pols = Ok rules ->
  Forall2 (fun pol r => (forall name, matches_of r name = true <-> policy_covers pol name) /\
                        Forall2 P (np_Nameservers pol) (pr_ups r) /\ pr_ups r <> []) pols rules.
Proof.
  induction pols as [|pol pols IH]; intros i rules Ht; cbn; [intros [= <-]; constructor|].
  destruct (_ =? 0)%nat; [done|]. destruct (Nat.eqb_spec (length (np_Nameservers pol)) 0); [done|].
  intros (ups & Hu & (rest & Hr & [= <-])%bind_ok_inv)%bind_ok_inv. constructor; [|by eapply IH].
  pose proof (resolve_tags_ok _ _ _ _ P Ht Hu) as Hf. split_and!; [intros; apply matcher_match_spec|done|].
  intros E. cbn in E. subst ups. apply Forall2_length in Hf. done.
Qed.

Lemma first_policy_spec pols rules name (P : bytes -> nat -> Prop) :
  Forall2 (fun pol r => (forall name, matches_of r name = true <-> policy_covers pol name) /\
                        Forall2 P (np_Nameservers pol) (pr_ups r) /\ pr_ups r <> []) pols rules ->
  match first_policy rules name with
  | Some ups => exists before pol after, pols = before ++ pol :: after /\
      Forall (fun q => ~ policy_covers q name) before /\ policy_covers pol name /\
      Forall2 P (np_Nameservers pol) ups /\ ups <> []
  | None => Forall (fun q => ~ policy_covers q name) pols
  end.
Proof.
  induction 1 as [|pol r pols rules (Hm & Hf & Hne) _ IH]; cbn; [constructor|].
  specialize (Hm name). unfold matches_of in Hm. destruct (matcher_match (pr_m r) name).
  - exists [], pol, pols. split_and!; try done. by apply Hm.
  - assert (~ policy_covers pol name) as Hn by (intros Hc; by apply Hm in Hc).
    destruct (first_policy rules name) as [ups|].
    + destruct IH as (before & pol' & after & -> & Hb & Hc & Hf' & Hne').
      exists (pol :: before), pol', after. split_and!; try done. by constructor.
    + by constructor.
Qed.
End Policies.

(** ** The fuel of the answer loops *)

(** Reading or skipping an answer leaves fewer; [dnsmessage] counts the section down. *)
Class CodecLaws `{Codec} : Prop := {
  header_remaining : forall p h, AnswerHeader p = Some h -> (0 < remaining p)%nat;
  skip_remaining : forall p p', SkipAnswer p = Some p' -> (remaining p' < remaining p)%nat;
  readA_remaining : forall p a p', ReadA p = Some (a, p') -> (remaining p' < remaining p)%nat;
  readAAAA_remaining : forall p a p', ReadAAAA p = Some (a, p') -> (remaining p' < remaining p)%nat;
}.

Lemma parseAddrs_fuel `{Codec} `{!CodecLaws} fuel : forall p out,
  (remaining p <= fuel)%nat -> parseAddrs_loop fuel p out = parseAddrs_loop (remaining p) p out.
Proof.
  induction fuel as [fuel IH] using lt_wf_ind. intros p out Hle.
  destruct (AnswerHeader p) as [[ty ttl]|] eqn:E.
  2: { destruct fuel, (remaining p); cbn; by rewrite ?E. }
  pose proof (header_remaining p _ E) as Hpos. destruct (remaining p) as [|n] eqn:En; [lia|].
  destruct fuel as [|fuel]; [lia|]. cbn. rewrite E. destruct (ty =? TypeA); [|destruct (ty =? TypeAAAA)].
  - destruct (ReadA p) as [[a p']|] eqn:Er; [|done]. apply readA_remaining in Er.
    rewrite (IH fuel), (IH n) by lia. done.
  - destruct (ReadAAAA p) as [[a p']|] eqn:Er; [|done]. apply readAAAA_remaining in Er.
    rewrite (IH fuel), (IH n) by lia. done.
  - destruct (SkipAnswer p) as [p'|] eqn:Er; [|done]. apply skip_remaining in Er.
    rewrite (IH fuel), (IH n) by lia. done.
Qed.

Lemma minTTL_fuel `{Codec} `{!CodecLaws} fuel : forall p m,
  (remaining p <= fuel)%nat -> minTTL_loop fuel p m = minTTL_loop (remaining p) p m.
Proof.
  induction fuel as [fuel IH] using lt_wf_ind. intros p m Hle.
  destruct (AnswerHeader p) as [[ty ttl]|] eqn:E.
  2: { destruct fuel, (remaining p); cbn; by rewrite ?E. }
  pose proof (header_remaining p _ E) as Hpos. destruct (remaining p) as [|n] eqn:En; [lia|].
  destruct fuel as [|fuel]; [lia|]. cbn. rewrite E.
  destruct (SkipAnswer p) as [p'|] eqn:Er; [|done]. apply skip_remaining in Er.
  rewrite (IH fuel), (IH n) by lia. done.
Qed.

(** ** The properties *)

Section Properties.
Context `{Unicode} `{Codec}.


(** Resolvers after any exchanges, fake ones included, over networks on which upstreams
    answer with messages in [U]. *)
Inductive served (U : bytes -> Prop) (r0 : Resolver) : Resolver -> Prop :=
| served_new : r_cache r0 = newCache -> served U r0 r0
| served_exchange r net raw skipFake now :
    served U r0 r -> honest U net -> served U r0 (exchange1 r net raw skipFake now).1.2.

Lemma served_clean U r0 r : served U r0 r -> clean U (r_cache r).
Proof.
  induction 1 as [Hn|]; [|by apply exchange1_clean]. rewrite Hn. intros k e. unfold cached, shard.
  unfold newCache. rewrite lookup_empty. cbn. by rewrite lookup_empty.
Qed.

(** The addresses [LookupReal] gives the router are never fake: each is in a
    response that the static hosts gave or that an upstream sent, possibly kept in the
    cache, whatever fake exchanges went before; and it allocates nothing in the pool. *)
Theorem LookupReal_never_fake U r0 r net host s now p l r' asked :
  served U r0 r -> r_plan r = Some p -> honest U net ->
  LookupReal r net host s now = (Ok l, r', asked) ->
  r_fake r' = r_fake r /\
  forall a, a ∈ l -> exists qt raw resp,
    buildQuery host qt = Some raw /\ genuine U p raw resp /\ a ∈ parseAddrs resp.
Proof.
  intros Hs Hp Hn Hl. unfold LookupReal in Hl. rewrite Hp in Hl.
  pose proof (lookup_types_real U p host now net (queryTypes s) r [] [] Hp Hn (served_clean _ _ _ Hs)) as Ht.
  rewrite Hl in Ht. destruct Ht as (Hf & _ & Ha). split; [done|]. intros a Hin.
  destruct (Ha l eq_refl a Hin) as [?%not_elem_of_nil|?]; done.
Qed.

(** A plan that builds sends a name to the upstreams named by the first policy
    that covers it, by exact name, by suffix at a label boundary or by keyword, all
    case-insensitively and without final dots; to all upstreams when none does. *)
Theorem policy_first_match nss pols strategy hosts p name :
  buildPlan nss pols strategy hosts = Ok p -> name <> [] ->
  (exists before pol after, pols = before ++ pol :: after /\
     Forall (fun q => ~ policy_covers q name) before /\ policy_covers pol name /\
     Forall2 (named nss) (np_Nameservers pol) (upstreamsFor p name) /\ upstreamsFor p name <> []) \/
  (Forall (fun q => ~ policy_covers q name) pols /\ upstreamsFor p name = seq 0 (length nss)).
Proof.
  intros Hb Hname. unfold buildPlan in Hb. destruct nss as [|ns nss]; [done|]. set (all := ns :: nss) in *.
  apply bind_ok_inv in Hb as (st & _ & Hb). apply bind_ok_inv in Hb as ([ups byTag] & Hu & Hb).
  apply bind_ok_inv in Hb as (prs & Hpr & [= <-]).
  apply (buildUpstreams_ok all) in Hu as [-> Htag]; [|done|by intros ? ?; rewrite lookup_empty].
  pose proof (buildPolicies_ok byTag (named all) pols 0 prs Htag Hpr) as Hf.
  pose proof (first_policy_spec pols prs name (named all) Hf) as Hfp.
  unfold upstreamsFor. cbn [pl_policies pl_nameservers]. rewrite bool_decide_false by done.
  destruct (first_policy prs name) as [ups|]; [left; exact Hfp|right; done].
Qed.
End Properties.

(** ** A codec to run the definitions on *)

Module Examples.
#[local] Existing Instance ascii_only.

(** Every message asks for [example.com.]; answers are 4-byte chunks after the header. *)
Fixpoint decode (fuel : nat) (b : bytes) : list bytes :=
  match fuel, b with
  | S fuel', a1 :: a2 :: a3 :: a4 :: b' => [a1; a2; a3; a4] :: decode fuel' b'
  | _, _ => []
  end.

Definition toy : Codec := {|
  NewName n := Some n;
  Pack m := Some (be_enc 2 (msg_ID m) ++ replicate 10 x00 ++
                  concat ((fun a => match a.2 with AResource b | AAAAResource b => b end) <$> msg_Answers m));
  parser := list bytes;
  Start raw := Some (decode (length raw) (drop 12 raw));
  Question _ := Some (bs "Example.com.", TypeA);
  SkipAllQuestions p := Some p;
  AnswerHeader p := match p with [] => None | _ => Some (TypeA, 60) end;
  SkipAnswer p := match p with [] => None | _ :: p => Some p end;
  ReadA p := match p with [] => None | a :: p => Some (a, p) end;
  ReadAAAA p := None;
  remaining p := length p;
|}.
#[local] Existing Instance toy.

#[local] Instance toy_laws : CodecLaws.
Proof. split; cbn; intros [|? ?]; intros; simplify_eq/=; lia. Qed.

Definition pl : plan := mkPlan [0%nat; 1%nat] [] stratSequential None.
Definition r0 : Resolver := mkResolver (Some pl) newCache (Some (newFakeIPPool DnsFakeIPSpec.Examples.cfg)).
Definition net : network :=
  mkNetwork (fun u m => if (u =? 1)%nat then Some (take 12 m ++ [x01; x02; x03; x04]) else None) id.
Definition msg : bytes := default [] (buildQuery (bs "example.com") TypeA).

Lemma packs_toy raw : packs raw.
Proof. intros key id addrs _. unfold buildHostsResponse. cbn. eauto. Qed.


(** What the upstreams of [net] send. *)
Definition sent (m : bytes) : Prop := exists q, m = take 12 q ++ [x01; x02; x03; x04].

Lemma honest_net : honest sent net.
Proof. intros u m resp. cbn. destruct (u =? 1)%nat; [|done]. intros [= <-]. by exists m. Qed.

Lemma LookupReal_never_fake_witness :
  r_fake (LookupReal (exchange1 r0 net msg false 5).1.2 net (bs "example.com") StratV4Only 6).1.2 =
    r_fake (exchange1 r0 net msg false 5).1.2 /\
  forall a, a ∈ [addr "1.2.3.4"] -> exists qt raw resp,
    buildQuery (bs "example.com") qt = Some raw /\ genuine sent pl raw resp /\ a ∈ parseAddrs resp.
Proof.
  apply (LookupReal_never_fake sent r0 (exchange1 r0 net msg false 5).1.2 net (bs "example.com") StratV4Only 6 pl
           [addr "1.2.3.4"] _ (LookupReal (exchange1 r0 net msg false 5).1.2 net (bs "example.com") StratV4Only 6).2).
  - apply served_exchange; [by apply served_new|apply honest_net].
  - vm_compute. reflexivity.
  - apply honest_net.
  - vm_compute. reflexivity.
Defined.

Definition corp : NameserverPolicy := mkPolicy [] [bs "Corp.example."] [] [bs "internal"].
Definition two_ns : list Nameserver := [mkNameserver (bs "public") true true; mkNameserver (bs "internal") true true].
Definition corp_plan : plan :=
  match buildPlan two_ns [corp] [] [] with Ok p => p | Err _ => pl end.

Lemma policy_first_match_witness :
  (exists before pol after, [corp] = before ++ pol :: after /\
     Forall (fun q => ~ policy_covers q (bs "db.corp.EXAMPLE")) before /\ policy_covers pol (bs "db.corp.EXAMPLE") /\
     Forall2 (named two_ns) (np_Nameservers pol) (upstreamsFor corp_plan (bs "db.corp.EXAMPLE")) /\
     upstreamsFor corp_plan (bs "db.corp.EXAMPLE") <> []) \/
  (Forall (fun q => ~ policy_covers q (bs "db.corp.EXAMPLE")) [corp] /\
     upstreamsFor corp_plan (bs "db.corp.EXAMPLE") = [0%nat; 1%nat]).
Proof.
  apply (policy_first_match two_ns [corp] [] [] corp_plan (bs "db.corp.EXAMPLE")).
  - vm_compute. reflexivity.
  - discriminate.
Defined.
End Examples.
