(* ===== verification/Router.v ===== *)
(** * Package [service], routing a connection ([service/router.go])

    [RuleRouter] ties the rule engine to the DNS component: a fake destination is turned
    back into its domain, a domain is resolved when some rule looks at addresses, the
    engine names an outbound, and the outbound of a fake destination is wrapped so that
    dialling it uses the domain. *)
From S2P Require Import Prelude GoStd Netip Socksaddr Rule RuleSpec DnsFakeIP DnsFakeIPSpec Dns DnsSpec.
From Stdlib Require Import Init.Byte.

(** ** Interfaces *)

(** [route.Resolver] as the router uses it (strategy [StratBoth]), over a state [S]:
    [None] is a cache miss, or an error of the resolution (its time limit included). *)
Record RouteResolver (S : Type) := mkRouteResolver {
  rr_LookupCached : S -> bytes -> option (list Addr) * S;
  rr_LookupReal : S -> bytes -> option (list Addr) * S;
}.
Arguments mkRouteResolver {S} _ _.
Arguments rr_LookupCached {S} _ _ _.
Arguments rr_LookupReal {S} _ _ _.

(** [endpoint.Outbound]: what dialling a destination does to the world [W]. *)
Record Outbound (W Stream PacketConn : Type) := mkOutbound {
  DialStream : W -> Socksaddr -> Stream * W;
  DialPacket : W -> Socksaddr -> PacketConn * W;
}.
Arguments mkOutbound {W Stream PacketConn} _ _.
Arguments DialStream {W Stream PacketConn} _ _ _.
Arguments DialPacket {W Stream PacketConn} _ _ _.

Inductive routeErr :=
| ErrUnknownTarget (target : bytes)
| PanicIndex.

Section router.
Context `{Unicode} {S W Stream PacketConn : Type}.
Abbreviation outbound := (Outbound W Stream PacketConn).

(** ** The router *)

(** [None] is Go's nil for [Fake], [Finder] and [Resolver]. *)
Record RuleRouter := mkRouter {
  rt_Engine : Engine;
  Outs : gmap bytes outbound;
  Fake : option (S -> Addr -> option bytes);
  Finder : option ProcessFinder;
  rt_Resolver : option (RouteResolver S);
}.

Definition domainRewriteOutbound (inner : outbound) (d : Socksaddr) : outbound :=
  mkOutbound (fun w _ => DialStream inner w d) (fun w _ => DialPacket inner w d).

Definition resolveForRouting (res : RouteResolver S) (st : S) (host : bytes) : list Addr * S :=
  match rr_LookupCached res st host with
  | (Some ips, st) => (ips, st)
  | (None, st) =>
      match rr_LookupReal res st host with
      | (Some ips, st) => (ips, st)
      | (None, st) => ([], st)
      end
  end.

(** The destination [route] works with. *)
Definition routeDst (r : RuleRouter) (st : S) (d : Socksaddr) : Socksaddr :=
  match Fake r with
  | Some fake =>
      if IsIP d then
        match fake st (sa_addr d) with
        | Some domain => FromFqdn domain (sa_port d)
        | None => d
        end
      else d
  | None => d
  end.

(** From the decision's inputs to the outbound: the rules, the table of outbounds, and the
    wrapper when the destination was replaced. *)
Definition outboundFor (r : RuleRouter) (d rd : Socksaddr) (ips : list Addr) (s : AddrPort) (nw pr : bytes)
  : res routeErr outbound :=
  match RouteConnIPs (rt_Engine r) rd ips s nw pr (Finder r) with
  | None => Err PanicIndex
  | Some target =>
      match Outs r !! target with
      | None => Err (ErrUnknownTarget target)
      | Some out => Ok (if bool_decide (rd = d) then out else domainRewriteOutbound out rd)
      end
  end.

Definition route (r : RuleRouter) (st : S) (d : Socksaddr) (s : AddrPort) (nw pr : bytes)
  : res routeErr outbound * S :=
  let rd := routeDst r st d in
  let '(ips, st) :=
    match rt_Resolver r with
    | Some rs => if IsFqdn rd && HasIPRules (rt_Engine r) then resolveForRouting rs st (Fqdn rd) else ([], st)
    | None => ([], st)
    end in
  (outboundFor r d rd ips s nw pr, st).

(** [Resolve] and [ResolveConn]; [pr] is the protocol sniffed from the context. *)
Definition Resolve (r : RuleRouter) (st : S) (d : Socksaddr) (pr : bytes) :=
  route r st d {| ap_addr := AddrZero; ap_port := 0 |} (bs "tcp") pr.
Definition ResolveConn (r : RuleRouter) (st : S) (d : Socksaddr) (s : AddrPort) (nw pr : bytes) :=
  route r st d s nw pr.

(** ** Facts *)

(** The addresses a decision may use: those the resolver gives for the domain. *)
Definition routing_ips (r : RuleRouter) (st : S) (rd : Socksaddr) : list Addr :=
  match rt_Resolver r with
  | Some rs => if IsFqdn rd then (resolveForRouting rs st (Fqdn rd)).1 else []
  | None => []
  end.

(** [routes_to r st d rd out]: connecting to [d] through the result [out'] of [route]
    dials [rd] on [out], whatever destination the caller passes when [rd] replaced it. *)
Definition dials (out out' : outbound) (d rd : Socksaddr) : Prop :=
  (forall w, DialStream out' w d = DialStream out w rd) /\
  (forall w, DialPacket out' w d = DialPacket out w rd) /\
  (rd <> d -> forall w d', DialStream out' w d' = DialStream out w rd /\ DialPacket out' w d' = DialPacket out w rd).

Lemma dials_rewrite out d rd :
  dials out (if bool_decide (rd = d) then out else domainRewriteOutbound out rd) d rd.
Proof. unfold dials. case_bool_decide as E; [subst|]; split_and!; done. Qed.

Lemma route_chooses r rules dflt st d s nw pr :
  Compile rules dflt = Ok (rt_Engine r) -> len rules < 2 ^ 32 ->
  let rd := routeDst r st d in
  let target := route_spec rd (routing_ips r st rd) s nw pr (Finder r) rules dflt in
  (route r st d s nw pr).1 =
    match Outs r !! target with
    | None => Err (ErrUnknownTarget target)
    | Some out => Ok (if bool_decide (rd = d) then out else domainRewriteOutbound out rd)
    end.
Proof.
  intros Hc Hl. cbn zeta. unfold route. set (rd := routeDst r st d).
  assert (forall ips, (HasIPRules (rt_Engine r) = false \/ ips = routing_ips r st rd) ->
    outboundFor r d rd ips s nw pr = outboundFor r d rd (routing_ips r st rd) s nw pr) as K.
  { intros ips [Hf| ->]; [|done]. unfold outboundFor. rewrite !(routeBest_target rules dflt) by done.
    rewrite (route_spec_ext rd ips (routing_ips r st rd)); [done|]. unfold HasIPRules in Hf.
    by rewrite (ce_hasIP _ _ _ _ (Compile_compiled _ _ _ Hc)) in Hf. }
  transitivity (outboundFor r d rd (routing_ips r st rd) s nw pr).
  2: { unfold outboundFor. by rewrite (routeBest_target rules dflt) by done. }
  unfold routing_ips in K |- *. destruct (rt_Resolver r) as [rs|]; [|done].
  destruct (IsFqdn rd); cbn [andb]; [|done].
  destruct (HasIPRules (rt_Engine r)); [|apply K; by left].
  by destruct (resolveForRouting rs st (Fqdn rd)) as [ips st'].
Qed.

(** The resolver is asked only for a domain, and only when a rule looks at addresses. *)
Lemma route_state r st d s nw pr :
  IsFqdn (routeDst r st d) && HasIPRules (rt_Engine r) = false -> (route r st d s nw pr).2 = st.
Proof. intros E. unfold route. rewrite E. by destruct (rt_Resolver r). Qed.

(** ** The properties *)

(** [C5] A routed connection goes to the outbound the first matching rule names, where
    rules see the domain of a fake destination and the addresses the resolver gives; a
    target that no outbound has is an error, never a silent direct connection; dialling
    uses the domain in place of the fake address; and the resolver is left alone
    unless a domain meets a table with address rules. *)
Theorem route_first_match r rules dflt st d s nw pr :
  Compile rules dflt = Ok (rt_Engine r) -> len rules < 2 ^ 32 ->
  let rd := routeDst r st d in
  let target := route_spec rd (routing_ips r st rd) s nw pr (Finder r) rules dflt in
  match Outs r !! target with
  | None => (route r st d s nw pr).1 = Err (ErrUnknownTarget target)
  | Some out => exists out', (route r st d s nw pr).1 = Ok out' /\ dials out out' d rd
  end /\
  (existsb ruleUsesIP rules = false \/ IsFqdn rd = false -> (route r st d s nw pr).2 = st).
Proof.
  intros Hc Hl. cbn zeta. split.
  - rewrite (route_chooses r rules dflt st d s nw pr Hc Hl). destruct (Outs r !! _) as [out|]; [|done].
    eexists. split; [done|]. apply dials_rewrite.
  - intros Hn. apply route_state. unfold HasIPRules.
    rewrite (ce_hasIP _ _ _ _ (Compile_compiled _ _ _ Hc)). destruct Hn as [->| ->]; [|done].
    by rewrite andb_false_r.
Qed.
End router.
Arguments mkRouter {S W Stream PacketConn} _ _ _ _ _.

(** ** The router over the DNS component *)

Section over_dns.
Context `{Unicode} `{Codec} {W Stream PacketConn : Type}.

(** [dns.Resolver] as the router's resolver, at a time and over a network. *)
Definition dns_resolver (net : network) (now : Z) : RouteResolver Resolver :=
  mkRouteResolver
    (fun r host => let '(l, r) := LookupCached r host StratBoth now in
                   (if bool_decide (l = []) then None else Some l, r))
    (fun r host => let '(x, r, _) := LookupReal r net host StratBoth now in
                   (match x with Ok l => Some l | Err _ => None end, r)).

(** The router [config.Build] makes when DNS is configured. *)
Definition dns_router (e : Engine) (outs : gmap bytes (Outbound W Stream PacketConn))
    (f : option ProcessFinder) (net : network) (now : Z) : RuleRouter :=
  mkRouter e outs (Some FakeIPToDomain) f (Some (dns_resolver net now)).

Lemma pool_contains_valid pool ip : pool_contains pool ip = true -> IsValid ip = true.
Proof.
  destruct ip; [|done..]. unfold pool_contains, Prefix_Contains. cbn.
  destruct (pfx_bits (p4 pool)), (pfx_bits (p6 pool)), (pfx_addr (p4 pool)), (pfx_addr (p6 pool));
    by rewrite ?andb_false_r.
Qed.

(** An address of the pool routes as the name it stands for. *)
Lemma routeDst_fake e outs f net now r pool ip host port :
  r_fake r = Some pool -> pool_lookup pool ip = Some host -> IsValid ip = true ->
  routeDst (dns_router e outs f net now) r (FromIPPort {| ap_addr := ip; ap_port := port |}) = FromFqdn host port.
Proof.
  intros Hf Hl Hv. unfold routeDst. cbn. unfold IsIP. cbn. rewrite Hv. unfold FakeIPToDomain. by rewrite Hf, Hl.
Qed.

(** The fake step answers with an allocation. *)
Lemma from_fake_alloc r key id pool f :
  r_fake r = Some pool -> excluded pool (k_name key) = false -> k_qtype key = qtype_of f -> have pool f = true ->
  exists ip pool', alloc pool (k_name key) (qtype_of f) = (Some ip, pool') /\
    from_fake r key id = (buildHostsResponse id (k_name key) (k_qtype key) [ip], with_fake r (Some pool')).
Proof.
  intros Hf He Hq Hh. unfold from_fake. rewrite Hf, He, Hq.
  destruct (alloc_some pool (k_name key) f Hh) as [ip Ha].
  destruct (alloc pool (k_name key) (qtype_of f)) as [x pool'] eqn:E. cbn in Ha. subst x.
  exists ip, pool'. by destruct f.
Qed.

End over_dns.

Module Examples.
Import RuleSpec.Examples.
#[local] Existing Instance ascii_only.
#[local] Existing Instance DnsSpec.Examples.toy.

(** An outbound that tells its name and the destination it dialled. *)
Definition echo (name : String.string) : Outbound unit (bytes * Socksaddr) (bytes * Socksaddr) :=
  mkOutbound (fun w d => ((bs name, d), w)) (fun w d => ((bs name, d), w)).
Definition outs : gmap bytes (Outbound unit (bytes * Socksaddr) (bytes * Socksaddr)) :=
  <[bs "C" := echo "C"]> (<[bs "D" := echo "D"]> ∅).
Definition rt : RuleRouter :=
  dns_router (engine_of domain_table) outs None DnsSpec.Examples.net 5.

Lemma domain_table_compiles : Compile domain_table (bs "direct") = Ok (engine_of domain_table).
Proof. apply engine_of_ok. vm_compute. reflexivity. Qed.

Lemma route_first_match_witness :
  (exists out', (route rt DnsSpec.Examples.r0 dst_host no_src (bs "tcp") []).1 = Ok out' /\
     dials (echo "C") out' dst_host dst_host) /\
  (existsb ruleUsesIP domain_table = false \/ IsFqdn dst_host = false ->
     (route rt DnsSpec.Examples.r0 dst_host no_src (bs "tcp") []).2 = DnsSpec.Examples.r0).
Proof.
  apply (route_first_match rt domain_table (bs "direct") DnsSpec.Examples.r0 dst_host no_src (bs "tcp") []).
  - apply domain_table_compiles.
  - vm_compute. reflexivity.
Defined.

(** The toy message asks for [example.com.]; nothing was allocated before. *)
Definition pool0 : fakeIPPool := newFakeIPPool DnsFakeIPSpec.Examples.cfg.

End Examples.
