(* ===== verification/Stack.v ===== *)
(** * Packages [core/compile], [core/registry] and [service]: layer stacks
    ([core/compile/compile.go], [core/registry/registry.go], [service/stack.go])

    A proxy endpoint is configured as an unordered set of named layers. [Order] sorts
    them by band and checks that neighbours fit; [buildStack] looks the layers up, orders
    them and builds each one, bottom to top. *)
From S2P Require Import Prelude GoStd.
From Stdlib Require Import Sorted.

(** ** Descriptors ([core/registry/registry.go]) *)

Inductive Sort := SortStream | SortPacket | SortSession | SortDevice.
#[export] Instance Sort_eq_dec : EqDecision Sort.
Proof. solve_decision. Defined.

Definition BandBase : Z := 10.
Definition BandCrypto : Z := 20.
Definition BandCryptoObfs : Z := 25.
Definition BandFrame : Z := 30.
Definition BandFlow : Z := 40.
Definition BandSession : Z := 50.
Definition BandProxy : Z := 60.

(** What a plug-in brings: the types of configuration nodes, parsed configurations, built
    objects and errors, and Go's run-time interface assertions on a built object. *)
Class Plugins := {
  Node : Type;
  Cfg : Type;
  Obj : Type;
  plugErr : Type;
  isBaseTransport : Obj -> bool;
  isStreamTransport : Obj -> bool;
  isServer : Obj -> bool;
  isClient : Obj -> bool;
  ClientKey : Obj -> option (bytes -> res plugErr bytes);   (* [proxy.CredentialCodec] *)
}.

Section stack.
Context `{Plugins}.

(** [AnyDescriptor]; [Band] is 8 bits wide, capability ids 16. *)
Record AnyDescriptor := mkDescriptor {
  Name : bytes;
  Band : Z;
  In_ : list Sort;
  Out : Sort;
  Requires : list Z;
  RequiresAdjacent : list Z;
  Provides : list Z;
  Parse : option Node -> res plugErr Cfg;
  Build : Cfg -> res plugErr Obj;
}.

Abbreviation registry := (gmap bytes AnyDescriptor).

(** [Register] panics on a second descriptor of the same name, layered or session. *)
Definition Register (reg : registry) (sessions : gset bytes) (d : AnyDescriptor) : option registry :=
  if bool_decide (Name d = []) then None
  else if bool_decide (is_Some (reg !! Name d)) then None
  else if bool_decide (Name d ∈ sessions) then None
  else Some (<[Name d := d]> reg).

Definition Lookup (reg : registry) (name : bytes) : option AnyDescriptor := reg !! name.

(** ** Ordering ([core/compile/compile.go]) *)

Inductive orderErr :=
| ErrEmptyStack
| ErrBandConflict (lower upper : AnyDescriptor)
| ErrShapeAdjacency (lower layer : AnyDescriptor)
| ErrCapAdjacency (layer : AnyDescriptor) (id : Z)
| ErrCapMissing (layer : AnyDescriptor) (id : Z).

(** [sort.SliceStable] by band: equal bands keep their order. *)
Fixpoint insertBand (d : AnyDescriptor) (l : list AnyDescriptor) : list AnyDescriptor :=
  match l with
  | [] => [d]
  | e :: l' => if Band d <=? Band e then d :: l else e :: insertBand d l'
  end.
Definition sortBand (l : list AnyDescriptor) : list AnyDescriptor := foldr insertBand [] l.

(** The first loop: two neighbours in the same band. *)
Fixpoint checkBands (l : list AnyDescriptor) : res orderErr unit :=
  match l with
  | a :: ((b :: _) as l') => if Band b =? Band a then Err (ErrBandConflict a b) else checkBands l'
  | _ => Ok tt
  end.

Fixpoint checkAdjacent (lower : option AnyDescriptor) (layer : AnyDescriptor) (ids : list Z) : res orderErr unit :=
  match ids with
  | [] => Ok tt
  | id :: ids' =>
      match lower with
      | None => Err (ErrCapAdjacency layer id)
      | Some lo => if slices_Contains (Provides lo) id then checkAdjacent lower layer ids'
                   else Err (ErrCapAdjacency layer id)
      end
  end.

Fixpoint checkRequires (provided : gset Z) (layer : AnyDescriptor) (ids : list Z) : res orderErr unit :=
  match ids with
  | [] => Ok tt
  | id :: ids' => if bool_decide (id ∈ provided) then checkRequires provided layer ids'
                  else Err (ErrCapMissing layer id)
  end.

Definition checkShape (lower : option AnyDescriptor) (layer : AnyDescriptor) : res orderErr unit :=
  match lower with
  | Some lo => if bool_decide (In_ layer = []) || slices_Contains (In_ layer) (Out lo) then Ok tt
               else Err (ErrShapeAdjacency lo layer)
  | None => Ok tt
  end.

(** The second loop, bottom to top, with the capabilities provided so far. *)
Fixpoint checkLayers (provided : gset Z) (lower : option AnyDescriptor) (l : list AnyDescriptor) : res orderErr unit :=
  match l with
  | [] => Ok tt
  | layer :: l' =>
      _ ← checkShape lower layer;
      _ ← checkAdjacent lower layer (RequiresAdjacent layer);
      _ ← checkRequires provided layer (Requires layer);
      checkLayers (list_to_set (Provides layer) ∪ provided) (Some layer) l'
  end.

Definition Order (layers : list AnyDescriptor) : res orderErr (list AnyDescriptor) :=
  match layers with
  | [] => Err ErrEmptyStack
  | _ =>
      let sorted := sortBand layers in
      _ ← checkBands sorted;
      _ ← checkLayers ∅ None sorted;
      Ok sorted
  end.

(** ** Building a stack ([service/stack.go]) *)

Record LayerSpec := mkLayer { l_Name : bytes; l_Node : option Node }.

Inductive stackErr :=
| ErrNoLayers
| ErrUnknownLayer (name : bytes)
| ErrDupLayer (name : bytes)
| ErrOrder (e : orderErr)
| ErrParse (name : bytes) (e : plugErr)
| ErrBuild (name : bytes) (e : plugErr)
| ErrNotTransport (name : bytes)
| ErrNotServer
| ErrNotClient
| ErrCredential (e : plugErr).

(** The first loop: descriptors and nodes by name. *)
Fixpoint resolveLayers (reg : registry) (layers : list LayerSpec) (descs : list AnyDescriptor)
    (node : gmap bytes (option Node)) : res stackErr (list AnyDescriptor * gmap bytes (option Node)) :=
  match layers with
  | [] => Ok (descs, node)
  | l :: layers' =>
      match Lookup reg (l_Name l) with
      | None => Err (ErrUnknownLayer (l_Name l))
      | Some d =>
          if bool_decide (is_Some (node !! l_Name l)) then Err (ErrDupLayer (l_Name l))
          else resolveLayers reg layers' (descs ++ [d]) (<[l_Name l := l_Node l]> node)
      end
  end.

Record built := mkBuilt { b_base : option Obj; b_below : list Obj; b_top : option Obj }.

(** The build loop from index [i]; the last layer is the protocol, the others transports,
    the lowest possibly a base transport. *)
Fixpoint buildLayers (node : gmap bytes (option Node)) (i : nat) (ordered : list AnyDescriptor)
    (base : option Obj) (below : list Obj) : res stackErr built :=
  match ordered with
  | [] => Ok (mkBuilt base below None)
  | d :: rest =>
      match Parse d (default None (node !! Name d)) with
      | Err e => Err (ErrParse (Name d) e)
      | Ok cfg =>
          match Build d cfg with
          | Err e => Err (ErrBuild (Name d) e)
          | Ok o =>
              match rest with
              | [] => Ok (mkBuilt base below (Some o))
              | _ =>
                  if (i =? 0)%nat && isBaseTransport o then buildLayers node (S i) rest (Some o) below
                  else if isStreamTransport o then buildLayers node (S i) rest base (below ++ [o])
                  else Err (ErrNotTransport (Name d))
              end
          end
      end
  end.

Definition buildStack (reg : registry) (layers : list LayerSpec) : res stackErr built :=
  match layers with
  | [] => Err ErrNoLayers
  | _ =>
      '(descs, node) ← resolveLayers reg layers [] ∅;
      match Order descs with
      | Err e => Err (ErrOrder e)
      | Ok ordered => buildLayers node 0 ordered None []
      end
  end.

(** [BuildInbound]: the transports below, the protocol server, the base transport. *)
Definition BuildInbound (reg : registry) (layers : list LayerSpec) : res stackErr (list Obj * Obj * option Obj) :=
  b ← buildStack reg layers;
  match b_top b with
  | Some top => if isServer top then Ok (b_below b, top, b_base b) else Err ErrNotServer
  | None => Err ErrNotServer
  end.

(** [BuildOutbound]: the same with the protocol client and the key it presents. *)
Definition BuildOutbound (reg : registry) (layers : list LayerSpec) (secret : bytes)
  : res stackErr (list Obj * Obj * bytes * option Obj) :=
  b ← buildStack reg layers;
  match b_top b with
  | Some top =>
      if isClient top then
        match ClientKey top with
        | None => Ok (b_below b, top, secret, b_base b)
        | Some ck => match ck secret with
                     | Err e => Err (ErrCredential e)
                     | Ok k => Ok (b_below b, top, k, b_base b)
                     end
        end
      else Err ErrNotClient
  | None => Err ErrNotClient
  end.
End stack.
