(* ===== verification/StackSpec.v ===== *)
(** * Layer stacks: ordering, checks and independence of the written order

    What an accepted stack is, stated on positions; [Order] accepts exactly the layer sets
    that have such a stack, and the stack, and everything built from it, is the same for
    every order in which the layers are written. *)
From S2P Require Import Prelude GoStd Stack.
From Stdlib Require Import Sorted.

Section ordering.
Context `{Plugins}.

Definition band_lt (a b : AnyDescriptor) : Prop := Band a < Band b.
Definition band_le (a b : AnyDescriptor) : Prop := Band a <= Band b.

#[export] Instance band_lt_antisymm : AntiSymm (=) band_lt.
Proof. intros a b. unfold band_lt. lia. Qed.

(** A stack, bottom to top, in which every layer fits on the one below. *)
Record well_stacked (s : list AnyDescriptor) : Prop := {
  ws_bands : StronglySorted band_lt s;
  ws_shape : forall i lo d, s !! i = Some lo -> s !! S i = Some d -> In_ d = [] \/ Out lo ∈ In_ d;
  ws_adjacent : forall i d id, s !! i = Some d -> id ∈ RequiresAdjacent d ->
    exists j lo, i = S j /\ s !! j = Some lo /\ id ∈ Provides lo;
  ws_requires : forall i d id, s !! i = Some d -> id ∈ Requires d ->
    exists j lo, (j < i)%nat /\ s !! j = Some lo /\ id ∈ Provides lo;
}.

(** ** Sorting *)

Lemma insertBand_perm d l : insertBand d l ≡ₚ d :: l.
Proof.
  induction l as [|e l IH]; cbn; [done|]. destruct (Band d <=? Band e); [done|].
  rewrite IH. apply Permutation_swap.
Qed.

Lemma sortBand_perm l : sortBand l ≡ₚ l.
Proof. induction l as [|d l IH]; cbn; [done|]. by rewrite insertBand_perm, IH. Qed.

Lemma insertBand_sorted d l : StronglySorted band_le l -> StronglySorted band_le (insertBand d l).
Proof.
  induction 1 as [|e l Hs IH Hf]; cbn; [by repeat constructor|]. destruct (Z.leb_spec (Band d) (Band e)).
  - constructor; [by constructor|]. constructor; [done|]. eapply Forall_impl; [exact Hf|].
    unfold band_le. intros; lia.
  - constructor; [done|]. rewrite insertBand_perm. constructor; [unfold band_le; lia|done].
Qed.

Lemma sortBand_sorted l : StronglySorted band_le (sortBand l).
Proof. induction l; cbn; [constructor|by apply insertBand_sorted]. Qed.

Lemma strict_le s : StronglySorted band_lt s -> StronglySorted band_le s.
Proof. induction 1 as [|d l Hs IH Hf]; constructor; [done|]. eapply Forall_impl; [exact Hf|]. unfold band_le, band_lt. intros; lia. Qed.

Lemma strict_NoDup s : StronglySorted band_lt s -> NoDup (Band <$> s).
Proof.
  induction 1 as [|d l Hs IH Hf]; cbn; constructor; [|done].
  intros (e & He & Hin)%list_elem_of_fmap. rewrite Forall_forall in Hf. specialize (Hf e Hin). unfold band_lt in Hf. lia.
Qed.

Lemma le_strict s : StronglySorted band_le s -> NoDup (Band <$> s) -> StronglySorted band_lt s.
Proof.
  induction 1 as [|d l Hs IH Hf]; cbn; [constructor|]. intros [Hn Hd]%NoDup_cons. constructor; [by apply IH|].
  rewrite Forall_forall in Hf |- *. intros e He. specialize (Hf e He). unfold band_le, band_lt in *.
  assert (Band d <> Band e); [|lia]. intros E. apply Hn. rewrite E. apply list_elem_of_fmap. eauto.
Qed.

Lemma checkBands_ok s : StronglySorted band_le s -> checkBands s = Ok tt <-> StronglySorted band_lt s.
Proof.
  induction 1 as [|d l Hs IH Hf]; [split; [constructor|done]|].
  destruct l as [|e l]; [split; [repeat constructor|done]|]. cbn [checkBands].
  destruct (Z.eqb_spec (Band e) (Band d)) as [E|E].
  - split; [done|]. intros [_ Hf']%StronglySorted_inv. apply Forall_cons in Hf' as [Hlt _]. unfold band_lt in Hlt. lia.
  - rewrite IH. split; [|by intros [? _]%StronglySorted_inv]. intros Hl. constructor; [done|].
    apply Forall_cons in Hf as [Hde _]. unfold band_le in Hde. apply StronglySorted_inv in Hl as [_ Hel].
    constructor; [unfold band_lt; lia|]. eapply Forall_impl; [exact Hel|]. unfold band_lt. intros; lia.
Qed.

(** The sorted layers are the one strictly ascending arrangement, if there is one. *)
Lemma sortBand_unique l s : s ≡ₚ l -> StronglySorted band_lt s -> sortBand l = s.
Proof.
  intros Hp Hs. apply (StronglySorted_unique band_lt); [|done|by rewrite sortBand_perm].
  apply le_strict; [apply sortBand_sorted|]. rewrite sortBand_perm, <-Hp. by apply strict_NoDup.
Qed.

(** ** The checks *)

Lemma checkShape_ok lower d :
  checkShape lower d = Ok tt <-> forall lo, lower = Some lo -> In_ d = [] \/ Out lo ∈ In_ d.
Proof.
  unfold checkShape. destruct lower as [lo|]; [|done].
  destruct (bool_decide _ || _) eqn:E.
  - split; [|done]. intros _ lo' [= <-]. apply orb_true_iff in E as [E|E]; [left|right].
    + by apply bool_decide_eq_true in E.
    + unfold slices_Contains in E. by apply bool_decide_eq_true in E.
  - split; [done|]. intros Hl. apply orb_false_iff in E as [E1 E2].
    apply bool_decide_eq_false in E1. unfold slices_Contains in E2. apply bool_decide_eq_false in E2.
    by destruct (Hl lo eq_refl).
Qed.

Lemma checkAdjacent_ok lower d ids :
  checkAdjacent lower d ids = Ok tt <-> forall id, id ∈ ids -> exists lo, lower = Some lo /\ id ∈ Provides lo.
Proof.
  induction ids as [|id ids IH]; cbn; [split; [by intros _ ? ?%not_elem_of_nil|done]|].
  destruct lower as [lo|].
  - unfold slices_Contains. case_bool_decide as Hin.
    + rewrite IH. setoid_rewrite elem_of_cons. split; [intros K x [->|Hx]; eauto|eauto].
    + split; [done|]. intros K. destruct (K id) as (lo' & [= <-] & ?); [by left|done].
  - split; [done|]. intros K. by destruct (K id) as (? & ? & _); [left|].
Qed.

Lemma checkRequires_ok P d ids : checkRequires P d ids = Ok tt <-> forall id, id ∈ ids -> id ∈ P.
Proof.
  induction ids as [|id ids IH]; cbn; [split; [by intros _ ? ?%not_elem_of_nil|done]|].
  case_bool_decide as Hin.
  - rewrite IH. setoid_rewrite elem_of_cons. split; [intros K x [->|Hx]; eauto|eauto].
  - split; [done|]. intros K. exfalso. apply Hin, K. by left.
Qed.

(** The layer below position [i] of [l], over a layer [lower]. *)
Definition below (lower : option AnyDescriptor) (l : list AnyDescriptor) (i : nat) : option AnyDescriptor :=
  match i with O => lower | S j => l !! j end.

Definition layer_fits (P : gset Z) (lower : option AnyDescriptor) (l : list AnyDescriptor) (i : nat) (d : AnyDescriptor) : Prop :=
  (forall lo, below lower l i = Some lo -> In_ d = [] \/ Out lo ∈ In_ d) /\
  (forall id, id ∈ RequiresAdjacent d -> exists lo, below lower l i = Some lo /\ id ∈ Provides lo) /\
  (forall id, id ∈ Requires d -> id ∈ P \/ exists j lo, (j < i)%nat /\ l !! j = Some lo /\ id ∈ Provides lo).

Lemma checkLayers_ok l : forall P lower,
  checkLayers P lower l = Ok tt <-> forall i d, l !! i = Some d -> layer_fits P lower l i d.
Proof.
  induction l as [|d l IH]; intros P lower; [split; done|]. cbn [checkLayers]. split.
  - intros ([] & Hs & ([] & Ha & ([] & Hr & Hl)%bind_ok_inv)%bind_ok_inv)%bind_ok_inv.
    rewrite checkShape_ok in Hs. rewrite checkAdjacent_ok in Ha. rewrite checkRequires_ok in Hr. rewrite IH in Hl.
    intros [|i] e He; cbn in He.
    + injection He as <-. split_and!; [done|done|]. intros id Hid. left. by apply Hr.
    + destruct (Hl i e He) as (H1 & H2 & H3). split_and!.
      * intros lo Hlo. apply H1. by destruct i.
      * intros id Hid. destruct (H2 id Hid) as (lo & Hlo & ?). exists lo. split; [|done]. by destruct i.
      * intros id Hid. destruct (H3 id Hid) as [Hin|(j & lo & ? & ? & ?)].
        -- apply elem_of_union in Hin as [Hin|Hin]; [right|by left]. exists 0%nat, d.
           split_and!; [lia|done|]. by apply elem_of_list_to_set in Hin.
        -- right. exists (S j), lo. split_and!; [lia|done|done].
  - intros Hf. destruct (Hf 0%nat d eq_refl) as (H1 & H2 & H3).
    rewrite (proj2 (checkShape_ok lower d) H1), bind_ok.
    rewrite (proj2 (checkAdjacent_ok lower d _) H2), bind_ok.
    rewrite (proj2 (checkRequires_ok P d _)), bind_ok.
    2: { intros id Hid. destruct (H3 id Hid) as [?|(j & ? & ? & _)]; [done|lia]. }
    apply IH. intros i e He. destruct (Hf (S i) e He) as (K1 & K2 & K3). split_and!.
    + intros lo Hlo. apply K1. by destruct i.
    + intros id Hid. destruct (K2 id Hid) as (lo & Hlo & ?). exists lo. split; [|done]. by destruct i.
    + intros id Hid. rewrite elem_of_union, elem_of_list_to_set. destruct (K3 id Hid) as [?|([|j] & lo & ? & Hj & ?)].
      * by left; right.
      * left. left. cbn in Hj. by injection Hj as ->.
      * right. exists j, lo. split_and!; [lia|done|done].
Qed.

Lemma well_stacked_iff s :
  well_stacked s <-> StronglySorted band_lt s /\ checkLayers ∅ None s = Ok tt.
Proof.
  rewrite checkLayers_ok. split.
  - intros [Hb Hs Ha Hr]. split; [done|]. intros i d Hd. split_and!.
    + intros lo Hlo. destruct i; [done|]. by apply (Hs i).
    + intros id Hid. destruct (Ha i d id Hd Hid) as (j & lo & -> & ? & ?). eauto.
    + intros id Hid. right. eauto.
  - intros [Hb Hf]. split; [done|..].
    + intros i lo d Hlo Hd. by apply (Hf _ _ Hd).
    + intros i d id Hd Hid. destruct (Hf i d Hd) as (_ & K & _). destruct (K id Hid) as (lo & Hlo & ?).
      destruct i; [done|]. eauto.
    + intros i d id Hd Hid. destruct (Hf i d Hd) as (_ & _ & K). destruct (K id Hid) as [?|?]; [set_solver|done].
Qed.

Lemma Order_ok l s : Order l = Ok s <-> l <> [] /\ s ≡ₚ l /\ well_stacked s.
Proof.
  rewrite well_stacked_iff. unfold Order. destruct l as [|d0 l0]; [naive_solver|]. set (l := d0 :: l0). split.
  - intros ([] & Hb & ([] & Hc & E)%bind_ok_inv)%bind_ok_inv.
    apply (f_equal (fun r => match r with Ok x => x | Err _ => [] end)) in E. change (sortBand l = s) in E. subst s.
    split_and!; [done|apply sortBand_perm| |done].
    apply checkBands_ok in Hb; [done|apply sortBand_sorted].
  - intros (_ & Hp & Hs & Hc). rewrite (sortBand_unique l s Hp Hs).
    rewrite (proj2 (checkBands_ok s (strict_le s Hs)) Hs), bind_ok. by rewrite Hc, bind_ok.
Qed.

(** ** Building *)

Definition nodes_of (layers : list LayerSpec) : gmap bytes (option Node) :=
  list_to_map ((fun l => (l_Name l, l_Node l)) <$> layers).

Lemma resolveLayers_ok reg layers : forall ds node descs node',
  resolveLayers reg layers ds node = Ok (descs, node') <->
  NoDup (l_Name <$> layers) /\ (forall l, l ∈ layers -> node !! l_Name l = None) /\
  exists ds', Forall2 (fun l d => reg !! l_Name l = Some d) layers ds' /\
    descs = ds ++ ds' /\ node' = nodes_of layers ∪ node.
Proof.
  induction layers as [|l layers IH]; intros ds node descs node'; cbn [resolveLayers].
  - split.
    + intros [= <- <-]. split_and!; [constructor|by intros ? ?%not_elem_of_nil|]. exists [].
      split_and!; [constructor|by rewrite app_nil_r|]. unfold nodes_of. cbn. by rewrite map_empty_union.
    + intros (_ & _ & ds' & Hf & -> & ->). apply Forall2_nil_inv_l in Hf as ->. unfold nodes_of. cbn.
      by rewrite app_nil_r, map_empty_union.
  - unfold Lookup. destruct (reg !! l_Name l) as [d|] eqn:Ed.
    2: { split; [done|]. intros (_ & _ & ds' & Hf & _). inversion Hf; simplify_eq. }
    case_bool_decide as Hin.
    { split; [done|]. intros (_ & Hn & _). rewrite Hn in Hin by (by left). by destruct Hin. }
    rewrite <-eq_None_not_Some in Hin. rewrite IH. cbn [fmap list_fmap]. rewrite NoDup_cons.
    assert (Hno : forall N : gmap bytes (option Node), l_Name l ∉ l_Name <$> layers ->
      nodes_of layers ∪ <[l_Name l := l_Node l]> N = nodes_of (l :: layers) ∪ N).
    { intros N Hni. unfold nodes_of. cbn. rewrite <-insert_union_r; [by rewrite insert_union_l|].
      apply not_elem_of_list_to_map_1. by rewrite <-list_fmap_compose. }
    split.
    + intros (Hnd & Hfresh & ds' & Hf & -> & ->).
      assert (Hni : l_Name l ∉ l_Name <$> layers).
      { intros (l' & E & Hl')%list_elem_of_fmap. specialize (Hfresh l' Hl'). by rewrite E, lookup_insert_eq in Hfresh. }
      split_and!; [done|done| |].
      * intros l' [->|Hl']%elem_of_cons; [done|]. specialize (Hfresh l' Hl').
        by apply lookup_insert_None in Hfresh as [? _].
      * exists (d :: ds'). split_and!; [by constructor|by rewrite <-app_assoc|by apply Hno].
    + intros ((Hni & Hnd) & Hfresh & ds' & Hf & -> & ->).
      inversion Hf as [|? d' ? ds0 Hd Hrest]; simplify_eq.
      split_and!; [done| |].
      * intros l' Hl'. apply lookup_insert_None. split; [apply Hfresh; by right|].
        intros E. apply Hni. rewrite E. apply list_elem_of_fmap. eauto.
      * exists ds0. split_and!; [done|by rewrite <-app_assoc|by rewrite Hno].
Qed.

(** ** The properties *)

(** [C11] [Order] accepts exactly the layer sets that can be arranged, bands strictly
    ascending, so that every layer's shape fits the layer directly below, its adjacent
    requirements are provided by that layer and its other requirements by some lower
    layer; the result is that arrangement, and there is only one. *)
Theorem Order_accepts_exactly l s :
  (Order l = Ok s <-> l <> [] /\ s ≡ₚ l /\ well_stacked s) /\
  (forall s', s' ≡ₚ l -> well_stacked s' -> Order l = Ok s -> s' = s).
Proof.
  split; [apply Order_ok|]. intros s' Hp [Hb _ _ _] (_ & Hp' & [Hb' _ _ _])%Order_ok.
  by rewrite <-(sortBand_unique l s' Hp Hb), <-(sortBand_unique l s Hp' Hb').
Qed.

Lemma nodes_of_perm layers layers' :
  NoDup (l_Name <$> layers) -> layers ≡ₚ layers' -> nodes_of layers = nodes_of layers'.
Proof.
  intros Hnd Hp. unfold nodes_of. apply list_to_map_proper; [|by rewrite Hp].
  by rewrite <-list_fmap_compose.
Qed.

Lemma resolve_perm (reg : gmap bytes AnyDescriptor) layers layers' ds :
  layers ≡ₚ layers' -> Forall2 (fun l d => reg !! l_Name l = Some d) layers ds ->
  exists ds', ds ≡ₚ ds' /\ Forall2 (fun l (d : AnyDescriptor) => reg !! l_Name l = Some d) layers' ds'.
Proof.
  intros Hp. revert ds. induction Hp as [|l a b Hp IH|l1 l2 a|a b c H1 IH1 H2 IH2]; intros ds Hf.
  - exists []. apply Forall2_nil_inv_l in Hf as ->. by split.
  - apply Forall2_cons_inv_l in Hf as (d & ds0 & Hd & Hf & ->). destruct (IH ds0 Hf) as (ds' & Hp' & Hf').
    exists (d :: ds'). split; [by constructor|by constructor].
  - apply Forall2_cons_inv_l in Hf as (d1 & ds1 & Hd1 & Hf & ->).
    apply Forall2_cons_inv_l in Hf as (d2 & ds2 & Hd2 & Hf & ->).
    exists (d2 :: d1 :: ds2). split; [apply Permutation_swap|by repeat constructor].
  - destruct (IH1 ds Hf) as (ds1 & Hp1 & Hf1). destruct (IH2 ds1 Hf1) as (ds2 & Hp2 & Hf2).
    exists ds2. split; [by etransitivity|done].
Qed.

(** The order in which layers are written does not matter: a layer set that builds
    in one order builds in every order, to the same transports, protocol, base transport
    and credential, as inbound and as outbound. *)
Theorem written_order_irrelevant reg layers layers' b :
  layers ≡ₚ layers' -> buildStack reg layers = Ok b ->
  buildStack reg layers' = Ok b /\
  BuildInbound reg layers' = BuildInbound reg layers /\
  forall secret, BuildOutbound reg layers' secret = BuildOutbound reg layers secret.
Proof.
  intros Hp Hb. assert (Hb' : buildStack reg layers' = Ok b).
  { unfold buildStack in Hb |- *. destruct layers as [|l0 ls]; [done|]. set (layers := l0 :: ls) in *.
    destruct layers' as [|l0' ls']; [by apply Permutation_nil_r in Hp|]. set (layers' := l0' :: ls') in *.
    apply bind_ok_inv in Hb as ([descs node] & Hr & Hb). pose proof Hr as Hr0.
    apply resolveLayers_ok in Hr as (Hnd & Hfresh & ds & Hf & -> & ->).
    destruct (resolve_perm reg layers layers' ds Hp Hf) as (ds' & Hpd & Hf').
    assert (resolveLayers reg layers' [] ∅ = Ok (ds', nodes_of layers ∪ ∅)) as ->.
    { apply resolveLayers_ok. split_and!; [by rewrite <-Hp|intros; apply lookup_empty|].
      exists ds'. split_and!; [done|done|]. by rewrite (nodes_of_perm layers layers'). }
    rewrite bind_ok. destruct (Order ([] ++ ds)) as [s|] eqn:Eo; [|done].
    apply Order_ok in Eo as (Hne & Hps & Hw).
    assert (Order ds' = Ok s) as ->; [|done]. apply Order_ok. split_and!; [|by rewrite Hps, Hpd|done].
    intros ->. by apply Permutation_nil_r in Hpd. }
  unfold BuildInbound, BuildOutbound. by rewrite Hb, Hb'.
Qed.
End ordering.

(** ** The [trojan] over [ws] over [tls] stack *)

Module Examples.
(** Objects are layer names; only the proxy protocol is a server and a client. *)
Definition toy : Plugins := {|
  Node := unit;
  Cfg := unit;
  Obj := bytes;
  plugErr := unit;
  isBaseTransport := fun _ => false;
  isStreamTransport := fun o => negb (bool_decide (o = bs "trojan"));
  isServer := fun o => bool_decide (o = bs "trojan");
  isClient := fun o => bool_decide (o = bs "trojan");
  ClientKey := fun _ => None;
|}.
#[local] Existing Instance toy.

Definition IDSecureCarrier : Z := 7.
Definition layer (name : String.string) (band : Z) (req prov : list Z) : AnyDescriptor :=
  mkDescriptor (bs name) band [SortStream] SortStream req [] prov (fun _ => Ok tt) (fun _ => Ok (bs name)).
Definition tls := layer "tls" BandCrypto [] [IDSecureCarrier].
Definition ws := layer "ws" BandFrame [] [].
Definition trojan := layer "trojan" BandProxy [IDSecureCarrier] [].
Definition reg : gmap bytes AnyDescriptor :=
  <[bs "tls" := tls]> (<[bs "ws" := ws]> (<[bs "trojan" := trojan]> ∅)).
Definition spec (name : String.string) : LayerSpec := mkLayer (bs name) (Some tt).

Definition outcome (r : res orderErr (list AnyDescriptor)) : option (list bytes) :=
  match r with Ok l => Some (Name <$> l) | Err _ => None end.

Lemma Order_runs :
  outcome (Order [trojan; ws; tls]) = Some [bs "tls"; bs "ws"; bs "trojan"] /\
  outcome (Order [trojan; ws]) = None /\ outcome (Order [trojan; trojan]) = None.
Proof. by vm_compute. Qed.

Lemma written_order_irrelevant_witness :
  buildStack reg [spec "tls"; spec "trojan"; spec "ws"] =
    Ok (mkBuilt None [bs "tls"; bs "ws"] (Some (bs "trojan"))) /\
  BuildInbound reg [spec "tls"; spec "trojan"; spec "ws"] = BuildInbound reg [spec "trojan"; spec "tls"; spec "ws"] /\
  forall secret, BuildOutbound reg [spec "tls"; spec "trojan"; spec "ws"] secret =
                 BuildOutbound reg [spec "trojan"; spec "tls"; spec "ws"] secret.
Proof.
  apply (written_order_irrelevant reg [spec "trojan"; spec "tls"; spec "ws"] [spec "tls"; spec "trojan"; spec "ws"]).
  - apply Permutation_swap.
  - vm_compute. reflexivity.
Defined.
End Examples.
