(* ===== verification/Sniff.v ===== *)
(** * Package [service], protocol sniffing ([service/sniff.go])

    The first bytes of a connection are inspected for a TLS server name, an HTTP host or a
    STUN header, and a datagram for STUN, DTLS or QUIC. Every index expression of the
    source is a partial read here: [None] is the run-time panic of an index out of
    range. *)
From S2P Require Import Prelude GoStd.
From Stdlib Require Import Init.Byte.

Definition sniffPeekMax : Z := 4096.

Inductive SniffProto := SniffNone | SniffTLS | SniffHTTP | SniffQUIC | SniffSTUN | SniffDTLS.
Inductive SniffFail := SniffFailNone | SniffFailNoMatch | SniffFailTimeout | SniffFailDisabled.

(** [SniffProto.String] ([core/endpoint/endpoint.go]). *)
Definition SniffProto_String (p : SniffProto) : bytes :=
  match p with
  | SniffTLS => bs "tls"
  | SniffHTTP => bs "http"
  | SniffQUIC => bs "quic"
  | SniffSTUN => bs "stun"
  | SniffDTLS => bs "dtls"
  | SniffNone => []
  end.

(** ** Reading bytes *)

Definition at8 (b : bytes) (i : nat) : option Z := b2z <$> b !! i.

(** [int(b[i])<<8 | int(b[i+1])], also [binary.BigEndian.Uint16(b[i:i+2])]. *)
Definition at16 (b : bytes) (i : nat) : option Z :=
  h ← at8 b i; l ← at8 b (i + 1); Some (h * 256 + l).

(** [binary.BigEndian.Uint32(b[i:i+4])]. *)
Definition at32 (b : bytes) (i : nat) : option Z :=
  h ← at16 b i; l ← at16 b (i + 2); Some (h * 65536 + l).

(** [b[i:j]] with [i <= j]. *)
Definition sub_string (b : bytes) (i j : nat) : option bytes :=
  if (j <=? length b)%nat then Some (take (j - i) (drop i b)) else None.

(** ** Datagram tests *)

Definition isQUIC (b : bytes) : option bool :=
  if (length b <? 5)%nat then Some false
  else
    b0 ← at8 b 0;
    if Z.land b0 128 =? 0 then Some false
    else
      v ← at32 b 1;
      Some ((v =? 1) || (v =? 0x6b3343cf) || (Z.land v 0xff000000 =? 0xff000000)).

Definition isDTLS (b : bytes) : option bool :=
  if (length b <? 13)%nat then Some false
  else
    b0 ← at8 b 0;
    if slices_Contains [20; 21; 22; 23; 25] b0 then
      b1 ← at8 b 1;
      if b1 =? 0xfe then
        b2 ← at8 b 2; Some ((b2 =? 0xff) || (b2 =? 0xfd))
      else Some false
    else Some false.

Definition isSTUN (b : bytes) : option bool :=
  if (length b <? 20)%nat then Some false
  else
    cookie ← at32 b 4;
    if cookie =? 0x2112A442 then
      n ← at16 b 2; Some (20 + n <=? len b)
    else Some false.

Definition sniffPacket (d : bytes) : option SniffProto :=
  stun ← isSTUN d;
  if (stun : bool) then Some SniffSTUN
  else
    dtls ← isDTLS d;
    if (dtls : bool) then Some SniffDTLS
    else
      quic ← isQUIC d;
      Some (if (quic : bool) then SniffQUIC else SniffNone).

(** ** Host names *)

Definition isAlpha (c : byte) : bool :=
  ((97 <=? b2z c) && (b2z c <=? 122)) || ((65 <=? b2z c) && (b2z c <=? 90)).
Definition isOther (c : byte) : bool :=
  ((48 <=? b2z c) && (b2z c <=? 57)) || bool_decide (c = x2e) || bool_decide (c = x2d) || bool_decide (c = x5f).

Fixpoint saneLoop (h : bytes) (hasAlpha : bool) : bool :=
  match h with
  | [] => hasAlpha
  | c :: h' => if isAlpha c then saneLoop h' true else if isOther c then saneLoop h' hasAlpha else false
  end.

Definition isSaneHost (h : bytes) : bool :=
  if bool_decide (h = []) || (253 <? len h) then false else saneLoop h false.

(** ** TLS ClientHello *)

(** [rd8] and [rd16]: the outer [option] is the panic, the inner one [ok]. *)
Definition rd8 (b : bytes) (pos : nat) : option (option (Z * nat)) :=
  if (length b <? pos + 1)%nat then Some None
  else v ← at8 b pos; Some (Some (v, (pos + 1)%nat)).

Definition rd16 (b : bytes) (pos : nat) : option (option (Z * nat)) :=
  if (length b <? pos + 2)%nat then Some None
  else v ← at16 b pos; Some (Some (v, (pos + 2)%nat)).

(** The server_name extension whose body starts at [pos]. *)
Definition readSNI (b : bytes) (pos : nat) : option (option bytes) :=
  if (length b <? pos + 5)%nat then Some None
  else
    nameType ← at8 b (pos + 2);
    if negb (nameType =? 0) then Some None
    else
      n ← at16 b (pos + 3);
      let nameLen := Z.to_nat n in
      if (nameLen =? 0)%nat || (length b <? pos + 5 + nameLen)%nat then Some None
      else
        host ← sub_string b (pos + 5) (pos + 5 + nameLen);
        Some (if isSaneHost host then Some host else None).

(** The loop over extensions; every round advances [pos] by at least 4. *)
Fixpoint extensions (fuel : nat) (b : bytes) (pos end_ : nat) : option (option bytes) :=
  match fuel with
  | O => Some None
  | S fuel' =>
      if (pos + 4 <=? end_)%nat then
        extType ← at16 b pos;
        extSize ← at16 b (pos + 2);
        let pos := (pos + 4)%nat in
        if extType =? 0 then readSNI b pos
        else extensions fuel' b (pos + Z.to_nat extSize) end_
      else Some None
  end.

(** From the session id on: skip it, the cipher suites and the compression methods. *)
Definition helloBody (b : bytes) (pos : nat) : option (option bytes) :=
  sid ← rd8 b pos;
  match sid with
  | None => Some None
  | Some (sidLen, pos) =>
      cs ← rd16 b (pos + Z.to_nat sidLen);
      match cs with
      | None => Some None
      | Some (csLen, pos) =>
          comp ← rd8 b (pos + Z.to_nat csLen);
          match comp with
          | None => Some None
          | Some (compLen, pos) =>
              ext ← rd16 b (pos + Z.to_nat compLen);
              match ext with
              | None => Some None
              | Some (extTotal, pos) =>
                  extensions (length b) b pos (Nat.min (pos + Z.to_nat extTotal) (length b))
              end
          end
      end
  end.

Definition parseTLSSNI (b : bytes) : option (option bytes) :=
  if (length b <? 43)%nat then Some None
  else
    b0 ← at8 b 0;
    if negb (b0 =? 0x16) then Some None
    else
      b5 ← at8 b 5;
      if negb (b5 =? 1) then Some None else helloBody b 43.

(** ** HTTP Host *)

(** [strings.Split(s, "\r\n")]. *)
Fixpoint splitCRLF (s acc : bytes) : list bytes :=
  match s with
  | [] => [acc]
  | x0d :: x0a :: s' => acc :: splitCRLF s' []
  | c :: s' => splitCRLF s' (acc ++ [c])
  end.

Definition splitHostPort (s : bytes) : option (bytes * bytes) :=
  match LastIndexByte s x3a with
  | None => None
  | Some i => if bool_decide (IndexByte s x3a = Some i) then Some (take i s, drop (i + 1) s) else None
  end.

(** [strings.EqualFold(line[:5], "host:")]: a letter outside ASCII takes several bytes, so
    five bytes fold to [host:] only by ASCII case. *)
Definition isHostLine (line : bytes) : bool :=
  (5 <? length line)%nat && bool_decide (lower_byte <$> take 5 line = bs "host:").

Definition hostOfLine (line : bytes) : option bytes :=
  let host := TrimSpace (drop 5 line) in
  let host := match splitHostPort host with Some (h, _) => h | None => host end in
  if isSaneHost host then Some host else None.

Fixpoint hostHeader (lines : list bytes) : option bytes :=
  match lines with
  | [] => None
  | line :: lines' =>
      if bool_decide (line = []) then None
      else if isHostLine line then hostOfLine line
      else hostHeader lines'
  end.

Definition parseHTTPHost (b : bytes) : option bytes :=
  match IndexByte b x0a with
  | None => None
  | Some i => if Contains (take i b) (bs " HTTP/") then hostHeader (splitCRLF b []) else None
  end.

(** ** Sniffing a stream *)

(** [sniff] on a stream that has [chunk] ready for its first read ([[]] when the read fails
    or times out) and [rest] afterwards: the protocol, the domain, the bytes the replay
    stream gives (those recorded, then those the stream still has) and the reason of a
    failure. *)
Definition sniff (chunk rest : bytes) : option (SniffProto * bytes * bytes * SniffFail) :=
  let data := take (Z.to_nat sniffPeekMax) chunk in
  let replay := data ++ drop (Z.to_nat sniffPeekMax) chunk ++ rest in
  if bool_decide (data = []) then Some (SniffNone, [], replay, SniffFailTimeout)
  else
    sni ← parseTLSSNI data;
    match sni with
    | Some host => Some (SniffTLS, host, replay, SniffFailNone)
    | None =>
        match parseHTTPHost data with
        | Some host => Some (SniffHTTP, host, replay, SniffFailNone)
        | None =>
            stun ← isSTUN data;
            if (stun : bool) then Some (SniffSTUN, [], replay, SniffFailNone)
            else Some (SniffNone, [], replay, SniffFailNoMatch)
        end
    end.
