(* ===== verification/SniffSpec.v ===== *)
(** * Protocol sniffing: safety on every input, and what is recognised *)
From S2P Require Import Prelude GoStd Sniff.
From Stdlib Require Import Init.Byte.

(** ** Reads that stay in range *)

Lemma at8_in b i : (i < length b)%nat -> exists v, at8 b i = Some v /\ 0 <= v < 256.
Proof.
  intros [x Hx]%lookup_lt_is_Some. unfold at8. rewrite Hx. exists (b2z x). split; [done|apply b2z_range].
Qed.

Lemma at16_in b i : (i + 1 < length b)%nat -> exists v, at16 b i = Some v /\ 0 <= v < 65536.
Proof.
  intros Hi. unfold at16. destruct (at8_in b i) as (h & -> & ?); [lia|].
  destruct (at8_in b (i + 1)) as (l & -> & ?); [lia|]. cbn. exists (h * 256 + l). split; [done|lia].
Qed.

Lemma at32_in b i : (i + 3 < length b)%nat -> exists v, at32 b i = Some v.
Proof.
  intros Hi. unfold at32. destruct (at16_in b i) as (h & -> & ?); [lia|].
  destruct (at16_in b (i + 2)) as (l & -> & ?); [lia|]. cbn. eauto.
Qed.

(** A read of a parser: no panic, and only sane hosts. *)
Definition safe (r : option (option bytes)) : Prop :=
  exists h, r = Some h /\ forall host, h = Some host -> isSaneHost host = true.

Lemma safe_none : safe (Some None).
Proof. by exists None. Qed.

Lemma readSNI_safe b pos : safe (readSNI b pos).
Proof.
  unfold readSNI. destruct (Nat.ltb_spec (length b) (pos + 5)); [apply safe_none|].
  destruct (at8_in b (pos + 2)) as (t & -> & ?); [lia|]. cbn.
  destruct (t =? 0); [|apply safe_none]. cbn.
  destruct (at16_in b (pos + 3)) as (n & -> & ?); [lia|]. cbn.
  destruct (_ || _) eqn:E; [apply safe_none|]. apply orb_false_iff in E as [_ E]. apply Nat.ltb_ge in E.
  unfold sub_string. rewrite (proj2 (Nat.leb_le _ _)) by lia. cbn.
  destruct (isSaneHost _) eqn:Es; [|apply safe_none]. eexists. split; [done|]. by intros ? [= <-].
Qed.

Lemma extensions_safe fuel b : forall pos end_, (end_ <= length b)%nat -> safe (extensions fuel b pos end_).
Proof.
  induction fuel as [|fuel IH]; intros pos end_ He; cbn [extensions]; [apply safe_none|].
  destruct (Nat.leb_spec (pos + 4) end_); [|apply safe_none].
  destruct (at16_in b pos) as (t & -> & ?); [lia|]. destruct (at16_in b (pos + 2)) as (n & -> & ?); [lia|]. cbn.
  destruct (t =? 0); [apply readSNI_safe|by apply IH].
Qed.

(** The fuel is enough: more of it never changes the outcome. *)
Lemma extensions_fuel b k : forall fuel pos end_,
  (end_ < pos + 4 * S fuel)%nat -> extensions (S fuel + k) b pos end_ = extensions (S fuel) b pos end_.
Proof.
  induction fuel as [|fuel IH]; intros pos end_ He.
  - cbn [Nat.add extensions]. destruct (Nat.leb_spec (pos + 4) end_); [lia|done].
  - change (S (S fuel) + k)%nat with (S (S fuel + k)). cbn [extensions].
    destruct (Nat.leb_spec (pos + 4) end_) as [Hp|]; [|done].
    destruct (at16 b pos) as [t|]; [|done]. destruct (at16 b (pos + 2)) as [n|]; [|done]. cbn [mbind option_bind].
    destruct (t =? 0); [done|]. apply IH. lia.
Qed.

Lemma rd8_safe b pos : exists r, rd8 b pos = Some r.
Proof.
  unfold rd8. destruct (Nat.ltb_spec (length b) (pos + 1)); [eauto|].
  destruct (at8_in b pos) as (v & -> & ?); [lia|]. cbn. eauto.
Qed.

Lemma rd16_safe b pos : exists r, rd16 b pos = Some r.
Proof.
  unfold rd16. destruct (Nat.ltb_spec (length b) (pos + 2)); [eauto|].
  destruct (at16_in b pos) as (v & -> & ?); [lia|]. cbn. eauto.
Qed.

Ltac step_read L :=
  let r := fresh "r" in
  destruct L as [r ->]; cbn [mbind option_bind]; destruct r as [[? ?]|]; [|apply safe_none].

Lemma helloBody_safe b pos : safe (helloBody b pos).
Proof.
  unfold helloBody.
  step_read (rd8_safe b pos).
  step_read (rd16_safe b (n + Z.to_nat z)).
  step_read (rd8_safe b (n0 + Z.to_nat z0)).
  step_read (rd16_safe b (n1 + Z.to_nat z1)).
  apply extensions_safe. lia.
Qed.

Lemma parseTLSSNI_safe b : safe (parseTLSSNI b).
Proof.
  unfold parseTLSSNI. destruct (Nat.ltb_spec (length b) 43); [apply safe_none|].
  destruct (at8_in b 0) as (b0 & -> & ?); [lia|]. cbn [mbind option_bind].
  destruct (negb _); [apply safe_none|]. destruct (at8_in b 5) as (b5 & -> & ?); [lia|]. cbn [mbind option_bind].
  destruct (negb _); [apply safe_none|apply helloBody_safe].
Qed.

Lemma parseHTTPHost_sane b host : parseHTTPHost b = Some host -> isSaneHost host = true.
Proof.
  unfold parseHTTPHost. destruct (IndexByte b x0a) as [i|]; [|done]. destruct (Contains _ _); [|done].
  generalize (splitCRLF b []). induction l as [|line l IH]; [done|]. cbn [hostHeader].
  case_bool_decide; [done|]. destruct (isHostLine line); [|exact IH].
  unfold hostOfLine. cbn zeta. generalize (match splitHostPort (TrimSpace (drop 5 line)) with Some (h, _) => h | None => TrimSpace (drop 5 line) end).
  intros h.  destruct (isSaneHost h) eqn:E; [|done]. by intros [= <-].
Qed.

Lemma isSTUN_total d : exists r, isSTUN d = Some r.
Proof.
  unfold isSTUN. destruct (Nat.ltb_spec (length d) 20); [eauto|].
  destruct (at32_in d 4) as (v & ->); [lia|]. cbn [mbind option_bind]. destruct (v =? _); [|eauto].
  destruct (at16_in d 2) as (n & -> & ?); [lia|]. cbn. eauto.
Qed.

Lemma isDTLS_total d : exists r, isDTLS d = Some r.
Proof.
  unfold isDTLS. destruct (Nat.ltb_spec (length d) 13); [eauto|].
  destruct (at8_in d 0) as (v & -> & ?); [lia|]. cbn [mbind option_bind]. destruct (slices_Contains _ _); [|eauto].
  destruct (at8_in d 1) as (w & -> & ?); [lia|]. cbn [mbind option_bind]. destruct (w =? _); [|eauto].
  destruct (at8_in d 2) as (x & -> & ?); [lia|]. cbn. eauto.
Qed.

Lemma isQUIC_total d : exists r, isQUIC d = Some r.
Proof.
  unfold isQUIC. destruct (Nat.ltb_spec (length d) 5); [eauto|].
  destruct (at8_in d 0) as (v & -> & ?); [lia|]. cbn [mbind option_bind]. destruct (_ =? 0); [eauto|].
  destruct (at32_in d 1) as (w & ->); [lia|]. cbn. eauto.
Qed.

(** ** Sane hosts are never address literals *)

Lemma saneLoop_spec h : forall a,
  saneLoop h a = true <-> forallb (fun c => isAlpha c || isOther c) h = true /\ (a = true \/ existsb isAlpha h = true).
Proof.
  induction h as [|c h IH]; intros a; cbn; [naive_solver|].
  destruct (isAlpha c); cbn; [rewrite IH; naive_solver|]. destruct (isOther c); cbn; [by rewrite IH|naive_solver].
Qed.

(** ** The properties *)


(** ** Recognising a ClientHello *)

Lemma at8_shift p l i : at8 (p ++ l) (length p + i) = at8 l i.
Proof. unfold at8. rewrite lookup_app_r by lia. by replace (length p + i - length p)%nat with i by lia. Qed.

Lemma at16_shift p l i : at16 (p ++ l) (length p + i) = at16 l i.
Proof.
  unfold at16. rewrite at8_shift. replace (length p + i + 1)%nat with (length p + (i + 1))%nat by lia. by rewrite at8_shift.
Qed.

Lemma at16_enc v q : 0 <= v < 65536 -> at16 (be_enc 2 v ++ q) 0 = Some v.
Proof.
  intros Hv. unfold at16, at8. cbn. f_equal. rewrite !b2z_z2b. unfold w8. change (2 ^ 8) with 256.
  pose proof (Z.div_mod v 256). pose proof (Z.div_lt_upper_bound v 256 256).
  pose proof (Z.div_pos v 256). rewrite (Z.mod_small (v / 256)) by lia. lia.
Qed.

(** Reading a length at the end of a prefix [p]. *)
Lemma at16_at p v q b pos :
  b = p ++ be_enc 2 v ++ q -> pos = length p -> 0 <= v < 65536 -> at16 b pos = Some v.
Proof. intros -> -> Hv. rewrite <-(Nat.add_0_r (length p)), at16_shift. by apply at16_enc. Qed.

Lemma rd8_at p v q b pos :
  b = p ++ be_enc 1 v ++ q -> pos = length p -> 0 <= v < 256 -> rd8 b pos = Some (Some (v, (pos + 1)%nat)).
Proof.
  intros -> -> Hv. unfold rd8. rewrite !length_app, length_be_enc.
  destruct (Nat.ltb_spec (length p + (1 + length q)) (length p + 1)); [lia|].
  rewrite <-(Nat.add_0_r (length p)) at 1. rewrite at8_shift. unfold at8. cbn. by rewrite b2z_z2b_small.
Qed.

Lemma rd16_at p v q b pos :
  b = p ++ be_enc 2 v ++ q -> pos = length p -> 0 <= v < 65536 -> rd16 b pos = Some (Some (v, (pos + 2)%nat)).
Proof.
  intros -> -> Hv. unfold rd16. rewrite !length_app, length_be_enc.
  destruct (Nat.ltb_spec (length p + (2 + length q)) (length p + 2)); [lia|].
  by rewrite (at16_at p v q).
Qed.

Definition enc_ext (e : Z * bytes) : bytes := be_enc 2 e.1 ++ be_enc 2 (len e.2) ++ e.2.

(** A server_name extension; [size] and [listLen] are the lengths the sender declares. *)
Definition enc_sni (size listLen : Z) (host : bytes) : bytes :=
  be_enc 2 0 ++ be_enc 2 size ++ be_enc 2 listLen ++ be_enc 1 0 ++ be_enc 2 (len host) ++ host.

Lemma readSNI_at p listLen host tail b pos :
  b = p ++ be_enc 2 listLen ++ be_enc 1 0 ++ be_enc 2 (len host) ++ host ++ tail -> pos = length p ->
  isSaneHost host = true -> readSNI b pos = Some (Some host).
Proof.
  intros Eb Ep Hs.
  assert (Hl : 0 < len host <= 253).
  { unfold isSaneHost in Hs. destruct (_ || _) eqn:E in Hs; [done|]. to_prop. split; [|done].
    destruct host; [done|]. unfold len. cbn. lia. }
  assert (Elen : length b = (length p + 5 + length host + length tail)%nat).
  { rewrite Eb, !length_app, !length_be_enc. lia. }
  unfold readSNI. rewrite Elen. destruct (Nat.ltb_spec (length p + 5 + length host + length tail) (pos + 5)); [lia|].
  assert (at8 b (pos + 2) = Some 0) as ->.
  { rewrite Eb, Ep, at8_shift. done. }
  cbn [mbind option_bind Z.eqb negb].
  rewrite (at16_at (p ++ be_enc 2 listLen ++ be_enc 1 0) (len host) (host ++ tail) b).
  2: { rewrite Eb, <-!app_assoc. done. }
  2: { rewrite !length_app, !length_be_enc. lia. }
  2: lia.
  cbn [mbind option_bind]. unfold len in *. rewrite Nat2Z.id.
  destruct (Nat.eqb_spec (length host) 0); [lia|]. cbn [orb].
  destruct (Nat.ltb_spec (length p + 5 + length host + length tail) (pos + 5 + length host)); [lia|].
  unfold sub_string. rewrite Elen, (proj2 (Nat.leb_le _ _)) by lia. cbn [mbind option_bind].
  replace (pos + 5 + length host - (pos + 5))%nat with (length host) by lia.
  assert (drop (pos + 5) b = host ++ tail) as ->.
  { rewrite Eb, Ep. rewrite (app_assoc p), (app_assoc (p ++ _)), (app_assoc ((p ++ _) ++ _)).
    apply drop_app_length'. rewrite !length_app, !length_be_enc. lia. }
  rewrite take_app_length. by rewrite Hs.
Qed.

Definition other_ext (e : Z * bytes) : Prop := 0 < e.1 < 65536 /\ len e.2 < 65536.

Lemma length_enc_ext e : length (enc_ext e) = (4 + length e.2)%nat.
Proof. unfold enc_ext. rewrite !length_app, !length_be_enc. lia. Qed.

Lemma extensions_at size listLen host tail b end_ before : forall fuel p pos,
  b = p ++ concat (enc_ext <$> before) ++ enc_sni size listLen host ++ tail -> pos = length p ->
  Forall other_ext before -> 0 <= size < 65536 -> isSaneHost host = true ->
  (pos + length (concat (enc_ext <$> before)) + 4 <= end_)%nat -> (length before < fuel)%nat ->
  extensions fuel b pos end_ = Some (Some host).
Proof.
  induction before as [|[t d] before IH]; intros [|fuel] p pos Eb Ep Hf Hsz Hs He Hfu; [cbn in Hfu; lia| |cbn in Hfu; lia|];
    cbn [extensions fmap list_fmap concat length app] in *.
  - destruct (Nat.leb_spec (pos + 4) end_); [|lia]. unfold enc_sni in Eb. rewrite <-!app_assoc in Eb.
    rewrite (at16_at p 0 _ b pos Eb Ep) by lia. cbn [mbind option_bind].
    rewrite (at16_at (p ++ be_enc 2 0) size (be_enc 2 listLen ++ be_enc 1 0 ++ be_enc 2 (len host) ++ host ++ tail) b).
    2: { by rewrite Eb, <-!app_assoc. }
    2: { rewrite length_app, length_be_enc. lia. }
    2: done.
    cbn [mbind option_bind Z.eqb].
    apply (readSNI_at (p ++ be_enc 2 0 ++ be_enc 2 size) listLen host tail); [by rewrite Eb, <-!app_assoc| |done].
    rewrite !length_app, !length_be_enc. lia.
  - apply Forall_cons in Hf as [[Ht Hd] Hf]. cbn in Ht, Hd. rewrite length_app, length_enc_ext in He. cbn [snd] in He.
    destruct (Nat.leb_spec (pos + 4) end_); [|lia]. rewrite <-app_assoc in Eb. unfold enc_ext at 1 in Eb.
    cbn [fst snd] in Eb. rewrite <-!app_assoc in Eb.
    set (rest := concat (enc_ext <$> before) ++ enc_sni size listLen host ++ tail) in *.
    rewrite (at16_at p t (be_enc 2 (len d) ++ d ++ rest) b pos Eb Ep) by lia. cbn [mbind option_bind].
    rewrite (at16_at (p ++ be_enc 2 t) (len d) (d ++ rest) b).
    2: { by rewrite Eb, <-!app_assoc. }
    2: { rewrite length_app, length_be_enc. lia. }
    2: { pose proof (len_nonneg d). lia. }
    cbn [mbind option_bind]. destruct (Z.eqb_spec t 0); [lia|].
    apply (IH fuel (p ++ enc_ext (t, d))); [|..|done|done|done| |lia].
    + unfold enc_ext at 1. cbn [fst snd]. by rewrite Eb, <-!app_assoc.
    + rewrite length_app, length_enc_ext. cbn [snd]. unfold len. lia.
    + unfold len. lia.
Qed.

(** A ClientHello as it arrives: the record and handshake headers, version and random
    ([hdr], 43 bytes), session id, cipher suites, compression methods, the declared length
    of the extensions, other extensions, the server name, and whatever follows, complete or
    cut off by the peek limit. *)
Record hello := mkHello {
  h_hdr : bytes;
  h_sid : bytes;
  h_ciphers : bytes;
  h_comp : bytes;
  h_extLen : Z;
  h_before : list (Z * bytes);
  h_size : Z;
  h_listLen : Z;
  h_host : bytes;
  h_tail : bytes;
}.

Definition hello_bytes (h : hello) : bytes :=
  h_hdr h ++ be_enc 1 (len (h_sid h)) ++ h_sid h ++ be_enc 2 (len (h_ciphers h)) ++ h_ciphers h ++
  be_enc 1 (len (h_comp h)) ++ h_comp h ++ be_enc 2 (h_extLen h) ++
  concat (enc_ext <$> h_before h) ++ enc_sni (h_size h) (h_listLen h) (h_host h) ++ h_tail h.

Record hello_ok (h : hello) : Prop := {
  ho_hdr : length (h_hdr h) = 43%nat /\ h_hdr h !! 0%nat = Some x16 /\ h_hdr h !! 5%nat = Some x01;
  ho_sid : len (h_sid h) < 256;
  ho_ciphers : len (h_ciphers h) < 65536;
  ho_comp : len (h_comp h) < 256;
  ho_extLen : len (concat (enc_ext <$> h_before h)) + 4 <= h_extLen h < 65536;
  ho_before : Forall other_ext (h_before h);
  ho_size : 0 <= h_size h < 65536;
  ho_host : isSaneHost (h_host h) = true;
}.

Lemma length_exts l : (length l <= length (concat (enc_ext <$> l)))%nat.
Proof. induction l as [|e l IH]; cbn [fmap list_fmap concat length]; [lia|]. rewrite length_app, length_enc_ext. lia. Qed.

Lemma helloBody_at h : hello_ok h -> helloBody (hello_bytes h) 43 = Some (Some (h_host h)).
Proof.
  intros [(Hh & _ & _) Hsid Hcs Hco Hel Hbe Hsz Hs]. unfold helloBody.
  pose proof (len_nonneg (h_sid h)). pose proof (len_nonneg (h_ciphers h)). pose proof (len_nonneg (h_comp h)).
  pose proof (len_nonneg (concat (enc_ext <$> h_before h))).
  erewrite (rd8_at (h_hdr h) (len (h_sid h))); [|unfold hello_bytes; reflexivity|by rewrite Hh|lia].
  cbn [mbind option_bind].
  erewrite (rd16_at (h_hdr h ++ be_enc 1 (len (h_sid h)) ++ h_sid h) (len (h_ciphers h)));
    [|unfold hello_bytes; rewrite <-!app_assoc; reflexivity|rewrite !length_app, Hh, !length_be_enc; unfold len; lia|lia].
  cbn [mbind option_bind].
  erewrite (rd8_at (h_hdr h ++ be_enc 1 (len (h_sid h)) ++ h_sid h ++ be_enc 2 (len (h_ciphers h)) ++ h_ciphers h)
              (len (h_comp h)));
    [|unfold hello_bytes; rewrite <-!app_assoc; reflexivity|rewrite !length_app, Hh, !length_be_enc; unfold len; lia|lia].
  cbn [mbind option_bind].
  set (p := h_hdr h ++ be_enc 1 (len (h_sid h)) ++ h_sid h ++ be_enc 2 (len (h_ciphers h)) ++ h_ciphers h ++
            be_enc 1 (len (h_comp h)) ++ h_comp h).
  erewrite (rd16_at p (h_extLen h));
    [|unfold hello_bytes, p; rewrite <-!app_assoc; reflexivity
     |unfold p; rewrite !length_app, Hh, !length_be_enc; unfold len; lia|lia].
  cbn [mbind option_bind].
  assert (Eb : hello_bytes h = (p ++ be_enc 2 (h_extLen h)) ++
    concat (enc_ext <$> h_before h) ++ enc_sni (h_size h) (h_listLen h) (h_host h) ++ h_tail h).
  { unfold hello_bytes, p. by rewrite <-!app_assoc. }
  assert (Ep : length (p ++ be_enc 2 (h_extLen h)) =
    (43 + 1 + length (h_sid h) + 2 + length (h_ciphers h) + 1 + length (h_comp h) + 2)%nat).
  { unfold p. rewrite !length_app, Hh, !length_be_enc. lia. }
  pose proof (length_exts (h_before h)) as Hx.
  eapply extensions_at; [exact Eb|rewrite Ep; unfold len; lia|done|done|done| |].
  - rewrite Eb, !(length_app (_ ++ _)), !(length_app (concat _)), Ep, (length_app (enc_sni _ _ _)).
    unfold enc_sni. rewrite !length_app, !length_be_enc. unfold len in *. lia.
  - rewrite Eb, !length_app. unfold enc_sni. rewrite !length_app, !length_be_enc. lia.
Qed.

(** [C19] A ClientHello that carries a sane server name is recognised, whatever its
    session id, cipher suites, compression methods and other extensions, also when the
    peek cut it off after the name: the stream sniffs as TLS with exactly that name. *)
Theorem client_hello_recognised h chunk rest :
  hello_ok h -> take (Z.to_nat sniffPeekMax) chunk = hello_bytes h ->
  sniff chunk rest = Some (SniffTLS, h_host h, chunk ++ rest, SniffFailNone).
Proof.
  intros Hk Hc. pose proof (ho_hdr h Hk) as (Hh & H0 & H5).
  assert (Hat : forall i x, h_hdr h !! i = Some x -> at8 (hello_bytes h) i = Some (b2z x)).
  { intros i x Hi. unfold at8, hello_bytes. by rewrite (lookup_app_l_Some _ _ _ _ Hi). }
  assert (parseTLSSNI (hello_bytes h) = Some (Some (h_host h))) as Hp.
  { unfold parseTLSSNI. destruct (Nat.ltb_spec (length (hello_bytes h)) 43) as [Hl|].
    { unfold hello_bytes in Hl. rewrite length_app, Hh in Hl. lia. }
    rewrite (Hat _ _ H0), (Hat _ _ H5). cbn -[helloBody]. by apply helloBody_at. }
  unfold sniff. rewrite app_assoc, take_drop, Hc. rewrite bool_decide_false; [by rewrite Hp|].
  unfold hello_bytes. destruct (h_hdr h); [done|]. done.
Qed.

Module Examples.
Definition h0 : hello :=
  mkHello (x16 :: replicate 4 x03 ++ x01 :: replicate 37 x00) (replicate 32 x07) [x13; x01] [x00] 400
          [(10, [x00; x1d]); (43, [])] 16 14 (bs "example.com") [xff; xff].

Lemma client_hello_recognised_witness :
  sniff (hello_bytes h0) [x01] = Some (SniffTLS, bs "example.com", hello_bytes h0 ++ [x01], SniffFailNone).
Proof.
  apply (client_hello_recognised h0 (hello_bytes h0) [x01]); [|vm_compute; reflexivity].
  split; [by split_and!|vm_compute; reflexivity|vm_compute; reflexivity|vm_compute; reflexivity| | | |vm_compute; reflexivity].
  - vm_compute. split; [discriminate|reflexivity].
  - repeat constructor; vm_compute; reflexivity.
  - vm_compute. split; [discriminate|reflexivity].
Defined.

Lemma http_host_runs :
  sniff (bs "GET / HTTP/1.1" ++ [x0d; x0a] ++ bs "HOST: Example.com:8080" ++ [x0d; x0a; x0d; x0a]) [] =
    Some (SniffHTTP, bs "Example.com",
          bs "GET / HTTP/1.1" ++ [x0d; x0a] ++ bs "HOST: Example.com:8080" ++ [x0d; x0a; x0d; x0a], SniffFailNone).
Proof. vm_compute. reflexivity. Qed.
End Examples.
