(* ===== verification/KcpSegment.v ===== *)
(** * Package [mkcpcore]: segments and packets ([transport/mkcp/internal/mkcpcore/segment.go],
    [auth.go], [header.go], [packet.go])

    A segment is the unit of the reliable stream; a packet is a disguise header, the
    authenticated encryption of one serialised segment, and nothing else. The reader
    accepts several segments per packet. *)
From S2P Require Import Prelude GoStd.
From Stdlib Require Import Init.Byte.

(** ** Segments ([segment.go]) *)

Definition commandACK : Z := 0.
Definition commandData : Z := 1.
Definition commandTerminate : Z := 2.
Definition commandPing : Z := 3.
Definition segmentOptionClose : Z := 1.
Definition dataSegmentOverhead : Z := 18.

Record dataSegment := mkData {
  d_conv : Z;
  d_option : Z;
  d_timestamp : Z;
  d_number : Z;
  d_sendingNext : Z;
  d_payload : bytes;
  d_timeout : Z;
  d_transmit : Z;
}.

Record ackSegment := mkAck {
  a_conv : Z;
  a_option : Z;
  a_receivingWindow : Z;
  a_receivingNext : Z;
  a_timestamp : Z;
  a_numberList : list Z;
}.

Record cmdOnlySegment := mkCmd {
  c_conv : Z;
  c_cmd : Z;
  c_option : Z;
  c_sendingNext : Z;
  c_receivingNext : Z;
  c_peerRTO : Z;
}.

(** The interface [segment] and its three implementations. *)
Inductive segment :=
| SegData (d : dataSegment)
| SegAck (a : ackSegment)
| SegCmd (c : cmdOnlySegment).

Definition conversation (s : segment) : Z :=
  match s with SegData d => d_conv d | SegAck a => a_conv a | SegCmd c => c_conv c end.

Definition command (s : segment) : Z :=
  match s with SegData _ => commandData | SegAck _ => commandACK | SegCmd c => c_cmd c end.

Definition byteSize (s : segment) : Z :=
  match s with
  | SegData d => dataSegmentOverhead + len (d_payload d)
  | SegAck a => 17 + len (a_numberList a) * 4
  | SegCmd _ => 16
  end.

Definition serialize (s : segment) : bytes :=
  match s with
  | SegData d =>
      be_enc 2 (d_conv d) ++ [z2b commandData; z2b (d_option d)] ++ be_enc 4 (d_timestamp d) ++
      be_enc 4 (d_number d) ++ be_enc 4 (d_sendingNext d) ++ be_enc 2 (w16 (len (d_payload d))) ++ d_payload d
  | SegAck a =>
      be_enc 2 (a_conv a) ++ [z2b commandACK; z2b (a_option a)] ++ be_enc 4 (a_receivingWindow a) ++
      be_enc 4 (a_receivingNext a) ++ be_enc 4 (a_timestamp a) ++ [z2b (len (a_numberList a))] ++
      concat (be_enc 4 <$> a_numberList a)
  | SegCmd c =>
      be_enc 2 (c_conv c) ++ [z2b (c_cmd c); z2b (c_option c)] ++ be_enc 4 (c_sendingNext c) ++
      be_enc 4 (c_receivingNext c) ++ be_enc 4 (c_peerRTO c)
  end.

(** [n] bytes of [b] from offset [i], big-endian; the callers check the length first. *)
Definition u_at (n i : nat) (b : bytes) : Z := be_dec (take n (drop i b)).

(** The loop of [readSegment] over the acknowledged numbers. *)
Fixpoint readNumbers (count : nat) (p : bytes) : list Z * bytes :=
  match count with
  | O => ([], p)
  | S count' => let '(l, p') := readNumbers count' (drop 4 p) in (u_at 4 0 p :: l, p')
  end.

Definition readSegment (b : bytes) : option (segment * bytes) :=
  if len b <? 4 then None
  else
    let conv := u_at 2 0 b in
    let cmd := u_at 1 2 b in
    let opt := u_at 1 3 b in
    let b := drop 4 b in
    if cmd =? commandData then
      if len b <? 14 then None
      else
        let dataLen := u_at 2 12 b in
        if len b <? 14 + dataLen then None
        else Some (SegData (mkData conv opt (u_at 4 0 b) (u_at 4 4 b) (u_at 4 8 b)
                                   (take (Z.to_nat dataLen) (drop 14 b)) 0 0),
                   drop (14 + Z.to_nat dataLen) b)
    else if cmd =? commandACK then
      if len b <? 13 then None
      else
        let count := u_at 1 12 b in
        if len b <? 13 + count * 4 then None
        else
          let '(l, p) := readNumbers (Z.to_nat count) (drop 13 b) in
          Some (SegAck (mkAck conv opt (u_at 4 0 b) (u_at 4 4 b) (u_at 4 8 b) l), p)
    else
      if len b <? 12 then None
      else Some (SegCmd (mkCmd conv cmd opt (u_at 4 0 b) (u_at 4 4 b) (u_at 4 8 b)), drop 12 b).

(** ** Authenticated encryption *)

(** [cipher.AEAD] as [packet.go] uses it, without associated data. *)
Class AEAD := {
  NonceSize : nat;
  Overhead : nat;
  Seal : bytes -> bytes -> bytes;          (* nonce, plain *)
  OpenSealed : bytes -> bytes -> option bytes;   (* nonce, sealed *)
}.

(** What the packet format needs of it, for plain texts of the sizes it seals. *)
Class AEADLaws `{AEAD} := {
  open_seal nonce plain : length nonce = NonceSize -> len plain < 65536 ->
    OpenSealed nonce (Seal nonce plain) = Some plain;
  length_seal nonce plain : length (Seal nonce plain) = (Overhead + length plain)%nat;
}.

(** The authenticator used without a seed ([auth.go]). *)

Definition lxor_byte (a b : byte) : byte := z2b (Z.lxor (b2z a) (b2z b)).

(** [hash/fnv.New32a]. *)
Definition fnv32a (b : bytes) : Z :=
  fold_left (fun h c => w32 (Z.lxor h (b2z c) * 16777619)) b 2166136261.

(** [xorfwd]: from index 4 upwards, each byte is combined with the new byte four places
    before; the window holds those four. *)
Fixpoint xorfwd_loop (a0 a1 a2 a3 : byte) (l : bytes) : bytes :=
  match l with
  | [] => []
  | x :: l' => let y := lxor_byte x a0 in y :: xorfwd_loop a1 a2 a3 y l'
  end.
Definition xorfwd (x : bytes) : bytes :=
  match x with
  | a0 :: a1 :: a2 :: a3 :: l => a0 :: a1 :: a2 :: a3 :: xorfwd_loop a0 a1 a2 a3 l
  | _ => x
  end.

(** [xorbkd]: from the end down to index 4, each byte is combined with the old byte four
    places before. *)
Fixpoint xorbkd_loop (a0 a1 a2 a3 : byte) (l : bytes) : bytes :=
  match l with
  | [] => []
  | x :: l' => lxor_byte x a0 :: xorbkd_loop a1 a2 a3 x l'
  end.
Definition xorbkd (x : bytes) : bytes :=
  match x with
  | a0 :: a1 :: a2 :: a3 :: l => a0 :: a1 :: a2 :: a3 :: xorbkd_loop a0 a1 a2 a3 l
  | _ => x
  end.

(** Zero bytes up to a multiple of four; the result of the pass is cut back. *)
Definition pad4 (n : nat) : nat := ((4 - n mod 4) mod 4)%nat.
Definition padded (f : bytes -> bytes) (dst : bytes) : bytes :=
  take (length dst) (f (dst ++ replicate (pad4 (length dst)) x00)).

Definition simple_Seal (nonce plain : bytes) : bytes :=
  let body := be_enc 2 (w16 (len plain)) ++ plain in
  padded xorfwd (be_enc 4 (fnv32a body) ++ body).

Definition simple_Open (nonce ciphertext : bytes) : option bytes :=
  let dst := padded xorbkd ciphertext in
  if (length dst <? 6)%nat then None
  else if negb (u_at 4 0 dst =? fnv32a (drop 4 dst)) then None
  else if negb (len dst - 6 =? u_at 2 4 dst) then None
  else Some (drop 6 dst).

Definition simpleAuthenticator : AEAD :=
  {| NonceSize := 0; Overhead := 6; Seal := simple_Seal; OpenSealed := simple_Open |}.

(** ** Disguise headers ([header.go]) *)

Inductive packetHeader :=
| noopHeader
| srtpHeader (header number : Z)
| utpHeader (header extension connectionID : Z)
| wechatVideoHeader (sn : Z)
| dtlsHeader (epoch length sequence : Z)
| wireguardHeader.

(** [newPacketHeader]; [r] is the random 16-bit number it starts from. *)
Definition newPacketHeader `{Unicode} (name : bytes) (r : Z) : packetHeader :=
  let n := ToLower name in
  if bool_decide (n = bs "srtp") then srtpHeader 0xb5e8 r
  else if bool_decide (n = bs "utp") then utpHeader 1 0 r
  else if bool_decide (n = bs "wechat-video") || bool_decide (n = bs "wechat") then wechatVideoHeader r
  else if bool_decide (n = bs "dtls") then dtlsHeader r 17 0
  else if bool_decide (n = bs "wireguard") then wireguardHeader
  else noopHeader.

Definition header_size (h : packetHeader) : nat :=
  match h with
  | noopHeader => 0
  | srtpHeader _ _ => 4
  | utpHeader _ _ _ => 4
  | wechatVideoHeader _ => 13
  | dtlsHeader _ _ _ => 13
  | wireguardHeader => 4
  end.

Definition header_serialize (h : packetHeader) : bytes * packetHeader :=
  match h with
  | noopHeader => ([], h)
  | srtpHeader hd n =>
      let n := w16 (n + 1) in (be_enc 2 hd ++ be_enc 2 n, srtpHeader hd n)
  | utpHeader hd ext id => (be_enc 2 id ++ [z2b hd; z2b ext], h)
  | wechatVideoHeader sn =>
      let sn := w32 (sn + 1) in
      ([xa1; x08] ++ be_enc 4 sn ++ [x00; x10; x11; x18; x30; x22; x30], wechatVideoHeader sn)
  | dtlsHeader epoch n sq =>
      let n' := w16 (n + 17) in
      ([x17; xfe; xfd] ++ be_enc 2 epoch ++ [x00; x00] ++ be_enc 4 sq ++ be_enc 2 n,
       dtlsHeader epoch (if 100 <? n' then n' - 50 else n') (w32 (sq + 1)))
  | wireguardHeader => ([x04; x00; x00; x00], h)
  end.

(** ** Packets ([packet.go]) *)

Section packets.
Context `{AEAD}.

(** The loop over the segments of a packet; every segment takes at least 16 bytes. *)
Fixpoint readSegments (fuel : nat) (b : bytes) : list segment :=
  match fuel with
  | O => []
  | S fuel' =>
      match b with
      | [] => []
      | _ => match readSegment b with
             | None => []
             | Some (s, extra) => s :: readSegments fuel' extra
             end
      end
  end.

(** [packetReader.read]. *)
Definition packet_read (h : packetHeader) (b : bytes) : list segment :=
  if (length b <=? header_size h)%nat then []
  else
    let b := drop (header_size h) b in
    if (length b <=? NonceSize + Overhead)%nat then []
    else match OpenSealed (take NonceSize b) (drop NonceSize b) with
         | None => []
         | Some b => readSegments (length b) b
         end.

(** [packetWriter.overhead]. *)
Definition packet_overhead (h : packetHeader) : Z := Z.of_nat (Overhead + header_size h).

(** [writeSegment]: the datagram it writes, for the nonce it draws. *)
Definition writeSegment (h : packetHeader) (nonce : bytes) (s : segment) : bytes * packetHeader :=
  let '(hd, h) := header_serialize h in
  (hd ++ nonce ++ Seal nonce (serialize s), h).
End packets.
