(* ===== verification/KcpSegmentSpec.v ===== *)
(** * mKCP segments and packets: round trips *)
From S2P Require Import Prelude GoStd KcpSegment.
From Stdlib Require Import Init.Byte.

(** ** Reading what was written *)

Lemma u_at_0 n v q : 0 <= v < 256 ^ Z.of_nat n -> u_at n 0 (be_enc n v ++ q) = v.
Proof.
  intros Hv. unfold u_at. rewrite drop_0, take_app_length' by (by rewrite length_be_enc). by apply be_dec_enc_small.
Qed.

Lemma u_at_app n i p q : (length p <= i)%nat -> u_at n i (p ++ q) = u_at n (i - length p) q.
Proof. intros Hi. unfold u_at. by rewrite drop_app_ge. Qed.

Lemma u_at_byte v q : 0 <= v < 256 -> u_at 1 0 (z2b v :: q) = v.
Proof. intros Hv. change (z2b v :: q) with (be_enc 1 v ++ q). by apply u_at_0. Qed.

Lemma u_at_cons n i c q : u_at n (S i) (c :: q) = u_at n i q.
Proof. done. Qed.

(** A field at offset [i] behind a prefix of that length. *)
Lemma u_at_field n i p v q :
  length p = i -> 0 <= v < 256 ^ Z.of_nat n -> u_at n i (p ++ be_enc n v ++ q) = v.
Proof. intros Hp Hv. rewrite u_at_app by lia. rewrite Hp, Nat.sub_diag. by apply u_at_0. Qed.

(** The same for a byte string that splits so, up to associativity. *)
Lemma u_at_field_of b n i p v q :
  b = p ++ be_enc n v ++ q -> length p = i -> 0 <= v < 256 ^ Z.of_nat n -> u_at n i b = v.
Proof. intros ->. apply u_at_field. Qed.

Lemma drop_of {A} (b p q : list A) i : b = p ++ q -> length p = i -> drop i b = q.
Proof. intros -> <-. apply drop_app_length. Qed.

Ltac by_assoc := unfold len; rewrite <-?app_assoc; reflexivity.
Ltac by_length := rewrite ?length_app, ?length_be_enc; reflexivity.

Record data_wf (d : dataSegment) : Prop := {
  dw_conv : in_u16 (d_conv d);
  dw_option : 0 <= d_option d < 256;
  dw_timestamp : in_u32 (d_timestamp d);
  dw_number : in_u32 (d_number d);
  dw_sendingNext : in_u32 (d_sendingNext d);
  dw_payload : len (d_payload d) < 65500;
}.

(** Segments whose fields are in the range of their Go types and that fit a datagram. *)
Definition seg_wf (s : segment) : Prop :=
  match s with
  | SegData d => data_wf d
  | SegAck a =>
      in_u16 (a_conv a) /\ 0 <= a_option a < 256 /\ in_u32 (a_receivingWindow a) /\
      in_u32 (a_receivingNext a) /\ in_u32 (a_timestamp a) /\ Forall in_u32 (a_numberList a) /\
      len (a_numberList a) <= 128
  | SegCmd c =>
      in_u16 (c_conv c) /\ 0 <= c_option c < 256 /\ 2 <= c_cmd c < 256 /\ in_u32 (c_sendingNext c) /\
      in_u32 (c_receivingNext c) /\ in_u32 (c_peerRTO c)
  end.

(** What survives the wire: not the sender's timers. *)
Definition on_wire (s : segment) : segment :=
  match s with
  | SegData d => SegData (mkData (d_conv d) (d_option d) (d_timestamp d) (d_number d) (d_sendingNext d)
                                 (d_payload d) 0 0)
  | _ => s
  end.

Lemma readNumbers_app l q :
  Forall in_u32 l -> readNumbers (length l) (concat (be_enc 4 <$> l) ++ q) = (l, q).
Proof.
  induction 1 as [|v l Hv Hl IH]; [done|]. cbn [fmap list_fmap concat length readNumbers].
  rewrite <-app_assoc. rewrite drop_app_length' by (by rewrite length_be_enc). rewrite IH.
  by rewrite u_at_0 by exact Hv.
Qed.

Lemma length_numbers l : length (concat (be_enc 4 <$> l)) = (4 * length l)%nat.
Proof.
  induction l as [|v l IH]; [done|]. cbn [fmap list_fmap concat length]. rewrite length_app, length_be_enc, IH. lia.
Qed.

Lemma length_serialize s : len (serialize s) = byteSize s.
Proof.
  destruct s as [d|a|c]; cbn [serialize byteSize]; unfold len, dataSegmentOverhead;
    rewrite !length_app, ?length_be_enc, ?length_numbers; cbn [length]; lia.
Qed.

(** The common header of the three kinds, as [readSegment] takes it apart. *)
Lemma header_fields conv cmd opt q :
  in_u16 conv -> 0 <= cmd < 256 -> 0 <= opt < 256 ->
  let b := be_enc 2 conv ++ [z2b cmd; z2b opt] ++ q in
  (len b <? 4) = false /\ u_at 2 0 b = conv /\ u_at 1 2 b = cmd /\ u_at 1 3 b = opt /\ drop 4 b = q.
Proof.
  intros Hc Hm Ho b. unfold b. split_and!.
  - apply Z.ltb_ge. unfold len. rewrite !length_app, length_be_enc. cbn [length]. lia.
  - apply u_at_0. exact Hc.
  - rewrite u_at_app by (rewrite length_be_enc; lia). rewrite length_be_enc. exact (u_at_byte cmd ([z2b opt] ++ q) Hm).
  - rewrite u_at_app by (rewrite length_be_enc; lia). rewrite length_be_enc. exact (u_at_byte opt q Ho).
  - rewrite app_assoc. apply drop_app_length'. rewrite length_app, length_be_enc. done.
Qed.

Lemma readSegment_serialize s q : seg_wf s -> readSegment (serialize s ++ q) = Some (on_wire s, q).
Proof.
  destruct s as [d|a|c]; cbn [seg_wf serialize]; intros Hw; rewrite <-!app_assoc; unfold readSegment.
  - destruct Hw as [Hc Ho Ht Hn Hs Hp]. pose proof (len_nonneg (d_payload d)) as Hl.
    destruct (header_fields (d_conv d) commandData (d_option d)
      (be_enc 4 (d_timestamp d) ++ be_enc 4 (d_number d) ++ be_enc 4 (d_sendingNext d) ++
       be_enc 2 (w16 (len (d_payload d))) ++ d_payload d ++ q)) as (-> & -> & -> & -> & ->); [done|unfold commandData; lia|done|].
    set (body := be_enc 4 (d_timestamp d) ++ _). cbn [Z.eqb commandData Pos.eqb].
    assert (Elen : len body = 14 + len (d_payload d) + len q).
    { unfold body. autorewrite with len. lia. }
    assert (w16 (len (d_payload d)) = len (d_payload d)) as Ew by (apply w16_small; unfold in_u16; lia).
    assert (Edl : u_at 2 12 body = len (d_payload d)).
    { apply (u_at_field_of _ _ _ (be_enc 4 (d_timestamp d) ++ be_enc 4 (d_number d) ++ be_enc 4 (d_sendingNext d))
               _ (d_payload d ++ q)); [unfold body; rewrite Ew; by_assoc|by_length|lia]. }
    rewrite Elen, Edl. pose proof (len_nonneg q). destruct (Z.ltb_spec (14 + len (d_payload d) + len q) 14); [lia|].
    destruct (Z.ltb_spec (14 + len (d_payload d) + len q) (14 + len (d_payload d))); [lia|].
    assert (Edrop : drop 14 body = d_payload d ++ q).
    { apply (drop_of _ (be_enc 4 (d_timestamp d) ++ be_enc 4 (d_number d) ++ be_enc 4 (d_sendingNext d) ++
                        be_enc 2 (w16 (len (d_payload d))))); [unfold body; by_assoc|by_length]. }
    assert (E0 : u_at 4 0 body = d_timestamp d) by (by apply u_at_0).
    assert (E4 : u_at 4 4 body = d_number d) by (apply u_at_field; [apply length_be_enc|exact Hn]).
    assert (E8 : u_at 4 8 body = d_sendingNext d).
    { eapply (u_at_field_of _ _ _ (be_enc 4 (d_timestamp d) ++ be_enc 4 (d_number d))); [unfold body; by_assoc|by_length|exact Hs]. }
    rewrite E0, E4, E8, <-drop_drop, Edrop. unfold len. rewrite Nat2Z.id.
    by rewrite take_app_length, drop_app_length.
  - destruct Hw as (Hc & Ho & Hw & Hr & Ht & Hn & Hk).
    destruct (header_fields (a_conv a) commandACK (a_option a)
      (be_enc 4 (a_receivingWindow a) ++ be_enc 4 (a_receivingNext a) ++ be_enc 4 (a_timestamp a) ++
       [z2b (len (a_numberList a))] ++ concat (be_enc 4 <$> a_numberList a) ++ q)) as (-> & -> & -> & -> & ->);
      [done|unfold commandACK; lia|done|].
    set (body := be_enc 4 (a_receivingWindow a) ++ _). cbn [Z.eqb commandACK commandData].
    pose proof (len_nonneg q). pose proof (len_nonneg (a_numberList a)).
    assert (Elen : len body = 13 + len (a_numberList a) * 4 + len q).
    { unfold body, len. rewrite !length_app, !length_be_enc, length_numbers. cbn [length]. lia. }
    assert (Eco : u_at 1 12 body = len (a_numberList a)).
    { eapply (u_at_field_of _ 1 _ (be_enc 4 (a_receivingWindow a) ++ be_enc 4 (a_receivingNext a) ++
                                   be_enc 4 (a_timestamp a))); [unfold body; by_assoc|by_length|lia]. }
    rewrite Elen, Eco. destruct (Z.ltb_spec (13 + len (a_numberList a) * 4 + len q) 13); [lia|].
    destruct (Z.ltb_spec (13 + len (a_numberList a) * 4 + len q) (13 + len (a_numberList a) * 4)); [lia|].
    assert (Edrop : drop 13 body = concat (be_enc 4 <$> a_numberList a) ++ q).
    { apply (drop_of _ (be_enc 4 (a_receivingWindow a) ++ be_enc 4 (a_receivingNext a) ++ be_enc 4 (a_timestamp a) ++
                        [z2b (len (a_numberList a))])); [unfold body; by_assoc|by_length]. }
    assert (E0 : u_at 4 0 body = a_receivingWindow a) by (by apply u_at_0).
    assert (E4 : u_at 4 4 body = a_receivingNext a) by (apply u_at_field; [apply length_be_enc|exact Hr]).
    assert (E8 : u_at 4 8 body = a_timestamp a).
    { eapply (u_at_field_of _ _ _ (be_enc 4 (a_receivingWindow a) ++ be_enc 4 (a_receivingNext a))); [unfold body; by_assoc|by_length|exact Ht]. }
    rewrite E0, E4, E8, Edrop. unfold len. rewrite Nat2Z.id, readNumbers_app by done. by destruct a.
  - destruct Hw as (Hc & Ho & Hm & Hs & Hr & Ht).
    destruct (header_fields (c_conv c) (c_cmd c) (c_option c)
      (be_enc 4 (c_sendingNext c) ++ be_enc 4 (c_receivingNext c) ++ be_enc 4 (c_peerRTO c) ++ q))
      as (-> & -> & -> & -> & ->); [done|lia|done|].
    set (body := be_enc 4 (c_sendingNext c) ++ _). unfold commandData, commandACK.
    destruct (Z.eqb_spec (c_cmd c) 1); [lia|]. destruct (Z.eqb_spec (c_cmd c) 0); [lia|].
    pose proof (len_nonneg q).
    assert (Elen : len body = 12 + len q) by (unfold body; autorewrite with len; lia).
    rewrite Elen. destruct (Z.ltb_spec (12 + len q) 12); [lia|].
    assert (E0 : u_at 4 0 body = c_sendingNext c) by (by apply u_at_0).
    assert (E4 : u_at 4 4 body = c_receivingNext c) by (apply u_at_field; [apply length_be_enc|exact Hr]).
    assert (E8 : u_at 4 8 body = c_peerRTO c).
    { eapply (u_at_field_of _ _ _ (be_enc 4 (c_sendingNext c) ++ be_enc 4 (c_receivingNext c))); [unfold body; by_assoc|by_length|exact Ht]. }
    rewrite E0, E4, E8.
    rewrite (drop_of body (be_enc 4 (c_sendingNext c) ++ be_enc 4 (c_receivingNext c) ++ be_enc 4 (c_peerRTO c)) q);
      [by destruct c|unfold body; by_assoc|by_length].
Qed.

(** ** The authenticator *)

Lemma lxor_byte_cancel x a : lxor_byte (lxor_byte x a) a = x.
Proof.
  unfold lxor_byte. apply b2z_inj. pose proof (b2z_range x). pose proof (b2z_range a).
  assert (Hr : 0 <= Z.lxor (b2z x) (b2z a) < 256).
  { split; [apply Z.lxor_nonneg; lia|]. destruct (Z.eq_dec (Z.lxor (b2z x) (b2z a)) 0) as [->|Hn]; [lia|].
    apply Z.log2_lt_cancel. change (Z.log2 256) with 8.
    eapply Z.le_lt_trans; [apply Z.log2_lxor; lia|].
    apply Z.max_lub_lt; (eapply Z.le_lt_trans; [apply (Z.log2_le_mono _ 255); lia|done]). }
  rewrite (b2z_z2b_small (Z.lxor (b2z x) (b2z a))) by done.
  rewrite Z.lxor_assoc, Z.lxor_nilpotent, Z.lxor_0_r. by rewrite b2z_z2b_small.
Qed.

Lemma xorbkd_xorfwd_loop l : forall a0 a1 a2 a3,
  xorbkd_loop a0 a1 a2 a3 (xorfwd_loop a0 a1 a2 a3 l) = l.
Proof.
  induction l as [|x l IH]; intros a0 a1 a2 a3; cbn; [done|]. by rewrite lxor_byte_cancel, IH.
Qed.

Lemma xorbkd_xorfwd x : xorbkd (xorfwd x) = x.
Proof. destruct x as [|? [|? [|? [|? ?]]]]; cbn; [done..|]. by rewrite xorbkd_xorfwd_loop. Qed.

Lemma xorfwd_loop_app l z : forall a0 a1 a2 a3,
  take (length l) (xorfwd_loop a0 a1 a2 a3 (l ++ z)) = xorfwd_loop a0 a1 a2 a3 l.
Proof. induction l as [|x l IH]; intros; cbn; [by rewrite take_0|]. by rewrite IH. Qed.

Lemma xorbkd_loop_app l z : forall a0 a1 a2 a3,
  take (length l) (xorbkd_loop a0 a1 a2 a3 (l ++ z)) = xorbkd_loop a0 a1 a2 a3 l.
Proof. induction l as [|x l IH]; intros; cbn; [by rewrite take_0|]. by rewrite IH. Qed.

Lemma length_xorfwd x : length (xorfwd x) = length x.
Proof.
  assert (forall l a0 a1 a2 a3, length (xorfwd_loop a0 a1 a2 a3 l) = length l) as Hl.
  { induction l as [|? l IH]; intros; cbn; [done|]. by rewrite IH. }
  destruct x as [|? [|? [|? [|? ?]]]]; cbn; [done..|]. by rewrite Hl.
Qed.

(** The padding does not show: each pass leaves the prefix it is cut back to unaffected. *)
Lemma padded_xorfwd x : (4 <= length x)%nat -> padded xorfwd x = xorfwd x.
Proof.
  intros Hx. unfold padded. generalize (replicate (pad4 (length x)) x00). intros z.
  destruct x as [|? [|? [|? [|? l]]]]; cbn in Hx; [lia..|]. cbn. by rewrite xorfwd_loop_app.
Qed.

Lemma padded_xorbkd x : (4 <= length x)%nat -> padded xorbkd x = xorbkd x.
Proof.
  intros Hx. unfold padded. generalize (replicate (pad4 (length x)) x00). intros z.
  destruct x as [|? [|? [|? [|? l]]]]; cbn in Hx; [lia..|]. cbn. by rewrite xorbkd_loop_app.
Qed.

Lemma fnv32a_range b : in_u32 (fnv32a b).
Proof.
  unfold fnv32a. assert (forall l h, in_u32 h -> in_u32 (fold_left (fun h c => w32 (Z.lxor h (b2z c) * 16777619)) l h)) as Hf.
  { induction l as [|c l IH]; intros h Hh; cbn; [done|]. apply IH, w32_range. }
  apply Hf. unfold in_u32. lia.
Qed.

#[export] Instance simple_laws : @AEADLaws simpleAuthenticator.
Proof.
  split; cbn [NonceSize Overhead Seal OpenSealed simpleAuthenticator].
  - intros nonce plain _ Hl. unfold simple_Open, simple_Seal. set (body := be_enc 2 (w16 (len plain)) ++ plain).
    assert (Hb : length body = (2 + length plain)%nat) by (unfold body; by rewrite length_app, length_be_enc).
    set (dst := be_enc 4 (fnv32a body) ++ body).
    assert (Hd : length dst = (6 + length plain)%nat) by (unfold dst; rewrite length_app, length_be_enc, Hb; lia).
    rewrite padded_xorfwd by lia. rewrite padded_xorbkd by (rewrite length_xorfwd; lia).
    rewrite xorbkd_xorfwd, Hd. destruct (Nat.ltb_spec (6 + length plain) 6); [lia|].
    pose proof (fnv32a_range body) as Hf. pose proof (len_nonneg plain).
    assert (E0 : u_at 4 0 dst = fnv32a body) by (by apply u_at_0).
    assert (E4 : drop 4 dst = body) by (by apply (drop_of _ (be_enc 4 (fnv32a body))); [|apply length_be_enc]).
    assert (Ew : w16 (len plain) = len plain) by (apply w16_small; unfold in_u16; lia).
    assert (El : u_at 2 4 dst = len plain).
    { unfold dst, body. rewrite Ew. apply u_at_field; [apply length_be_enc|lia]. }
    assert (E6 : drop 6 dst = plain).
    { apply (drop_of _ (be_enc 4 (fnv32a body) ++ be_enc 2 (w16 (len plain)))); [unfold dst, body; by_assoc|by_length]. }
    rewrite E0, E4, El, E6, Z.eqb_refl. cbn [negb]. unfold len at 1. rewrite Hd.
    replace (Z.of_nat (6 + length plain) - 6) with (len plain) by (unfold len; lia). by rewrite Z.eqb_refl.
  - intros nonce plain. unfold simple_Seal. rewrite padded_xorfwd by (rewrite !length_app, !length_be_enc; lia).
    rewrite length_xorfwd, !length_app, !length_be_enc. lia.
Qed.

(** ** Packets *)

Lemma length_header_serialize h : length (header_serialize h).1 = header_size h.
Proof. destruct h; cbn; rewrite ?length_app, ?length_be_enc; done. Qed.

Lemma header_size_kept h : header_size (header_serialize h).2 = header_size h.
Proof. by destruct h. Qed.

Lemma readSegments_one s fuel : seg_wf s -> (0 < fuel)%nat -> readSegments fuel (serialize s) = [on_wire s].
Proof.
  intros Hw Hf. destruct fuel as [|fuel]; [lia|]. cbn [readSegments].
  pose proof (readSegment_serialize s [] Hw) as Hr. rewrite app_nil_r in Hr. rewrite Hr.
  pose proof (length_serialize s) as Hl. destruct (serialize s) as [|c l].
  - unfold byteSize, dataSegmentOverhead, len in Hl. cbn [length] in Hl. destruct s; lia.
  - by destruct fuel.
Qed.

(** More fuel than bytes never changes what is read: every segment takes bytes. *)
Lemma readSegment_shorter b s q : readSegment b = Some (s, q) -> (length q < length b)%nat.
Proof.
  unfold readSegment. destruct (Z.ltb_spec (len b) 4) as [|H4]; [done|]. unfold len in H4. cbn zeta.
  assert (Hd : length (drop 4 b) = (length b - 4)%nat) by apply length_drop.
  destruct (_ =? commandData).
  { destruct (_ <? 14); [done|]. destruct (_ <? _); [done|]. intros [= _ <-]. rewrite length_drop. lia. }
  destruct (_ =? commandACK).
  { destruct (_ <? 13); [done|]. destruct (_ <? _); [done|].
    assert (forall n p, (length (readNumbers n p).2 <= length p)%nat) as Hn.
    { induction n as [|n IH]; intros p; cbn [readNumbers]; [done|]. specialize (IH (drop 4 p)).
      destruct (readNumbers n (drop 4 p)) as [l p']. cbn in *. rewrite length_drop in IH. lia. }
    specialize (Hn (Z.to_nat (u_at 1 12 (drop 4 b))) (drop 13 (drop 4 b))).
    destruct (readNumbers _ _) as [l p]. intros [= _ <-]. cbn in Hn. rewrite length_drop in Hn. lia. }
  destruct (_ <? 12); [done|]. intros [= _ <-]. rewrite length_drop. lia.
Qed.

Lemma readSegments_fuel k : forall fuel b,
  (length b <= fuel)%nat -> readSegments (fuel + k) b = readSegments fuel b.
Proof.
  induction fuel as [|fuel IH]; intros b Hb.
  - destruct b; [|cbn in Hb; lia]. by destruct k.
  - cbn [Nat.add readSegments]. destruct b as [|c b]; [done|].
    destruct (readSegment (c :: b)) as [[s q]|] eqn:E; [|done]. apply readSegment_shorter in E.
    rewrite IH; [done|]. cbn in E, Hb. lia.
Qed.

(** A segment written as a packet, behind any disguise header and any authenticated
    encryption that opens what it sealed, is read back as exactly that segment, by a
    reader with a header of the same kind; with the built-in authenticator this holds
    without assumption. The sender's private timers do not travel. *)
Theorem packet_roundtrip `{AEAD} `{!AEADLaws} h h' nonce s :
  seg_wf s -> length nonce = NonceSize -> header_size h' = header_size h ->
  packet_read h' (writeSegment h nonce s).1 = [on_wire s].
Proof.
  intros Hw Hn Hh. unfold writeSegment. pose proof (length_header_serialize h) as Hs.
  destruct (header_serialize h) as [hd h2]. cbn in Hs |- *. unfold packet_read. rewrite Hh.
  assert (Hpos : (16 <= length (serialize s))%nat).
  { pose proof (length_serialize s) as Hl. unfold byteSize, dataSegmentOverhead, len in Hl. destruct s; lia. }
  assert (Hseal : length (Seal nonce (serialize s)) = (Overhead + length (serialize s))%nat) by apply length_seal.
  rewrite !length_app, Hs, Hn, Hseal. destruct (Nat.leb_spec (header_size h + (NonceSize + (Overhead + length (serialize s)))) (header_size h)); [lia|].
  rewrite (drop_of _ hd (nonce ++ Seal nonce (serialize s)) _ eq_refl Hs).
  rewrite length_app, Hn, Hseal.
  destruct (Nat.leb_spec (NonceSize + (Overhead + length (serialize s))) (NonceSize + Overhead)); [lia|].
  rewrite take_app_length', drop_app_length' by done. rewrite open_seal; [|done|].
  - apply readSegments_one; [done|lia].
  - rewrite length_serialize. destruct s; cbn in Hw |- *.
    + destruct Hw. unfold dataSegmentOverhead. lia.
    + lia.
    + lia.
Qed.

Module Examples.
#[local] Existing Instance simpleAuthenticator.

Definition ping : segment := SegCmd (mkCmd 7 commandPing 0 3 5 100).
Definition hello : segment := SegData (mkData 7 0 1000 0 0 (bs "hello") 99 2).

Lemma packet_roundtrip_witness :
  packet_read (srtpHeader 0xb5e8 900) (writeSegment (srtpHeader 0xb5e8 41) [] hello).1 =
    [SegData (mkData 7 0 1000 0 0 (bs "hello") 0 0)].
Proof.
  apply (packet_roundtrip (srtpHeader 0xb5e8 41) (srtpHeader 0xb5e8 900) [] hello).
  - split; cbn; unfold in_u16, in_u32, len; cbn; lia.
  - reflexivity.
  - reflexivity.
Defined.

(** Two segments in one packet are both read. *)
Lemma two_segments : packet_read noopHeader (simple_Seal [] (serialize ping ++ serialize hello)) = [ping; on_wire hello].
Proof. vm_compute. reflexivity. Qed.
End Examples.
