(* ===== verification/KcpConn.v ===== *)
(** * Package [mkcpcore]: a connection ([transport/mkcp/internal/mkcpcore/conn.go], [config.go])

    A connection is a record; each method is the body of its critical section under the
    mutex, taking the elapsed time in milliseconds where the source reads the clock. The
    notification channels are generation counters: signalling closes the current channel
    and makes a new one. Blocking reads and writes return [Blocked], to be retried after a
    signal. Numbers and times are 32-bit and wrap. *)
From S2P Require Import Prelude GoStd KcpSegment.

(** ** Configuration ([config.go]) *)

Record Config := mkConfig {
  MTU : Z;
  TTI : Z;
  UplinkCapacity : Z;
  DownlinkCapacity : Z;
  Congestion : bool;
  WriteBuffer : Z;
  ReadBuffer : Z;
}.

Definition or_default (v d : Z) : Z := if v =? 0 then d else v.
Definition mtu (c : Config) : Z := or_default (MTU c) 1350.
Definition tti (c : Config) : Z := or_default (TTI c) 50.
Definition uplinkCapacity (c : Config) : Z := or_default (UplinkCapacity c) 5.
Definition downlinkCapacity (c : Config) : Z := or_default (DownlinkCapacity c) 20.
Definition writeBuffer (c : Config) : Z := or_default (WriteBuffer c) (2 * 1024 * 1024).
Definition readBuffer (c : Config) : Z := or_default (ReadBuffer c) (2 * 1024 * 1024).

(** [capacity * 1024 * 1024 / mtu / (1000 / tti)], at least 8, in 32-bit arithmetic. *)
Definition inFlight (capacity : Z) (c : Config) : Z :=
  Z.max 8 (w32 (capacity * 1024 * 1024) / mtu c / (1000 / tti c)).
Definition sendingInFlightSize (c : Config) : Z := inFlight (uplinkCapacity c) c.
Definition receivingInFlightSize (c : Config) : Z := inFlight (downlinkCapacity c) c.
Definition sendingBufferSize (c : Config) : Z := writeBuffer c / mtu c.
Definition receivingBufferSize (c : Config) : Z := readBuffer c / mtu c.

(** The two sizes divide by [1000 / tti]: zero, a run-time panic, when [tti] exceeds 1000. *)
Definition sizes_panic (c : Config) : bool := 1000 / tti c =? 0.

(** ** State *)

Inductive connState :=
| stateActive
| stateReadyToClose
| statePeerClosed
| stateTerminating
| statePeerTerminating
| stateTerminated.

#[export] Instance connState_eq_dec : EqDecision connState.
Proof. solve_decision. Defined.

Record ackItem := mkItem { it_number : Z; it_timestamp : Z; it_nextFlush : Z }.

Record Conn := mkConn {
  cfg : Config;
  conv : Z;
  mss : Z;
  rto : Z;
  rttVariation : Z;
  srtt : Z;
  minRtt : Z;
  rtoUpdated : Z;
  state : connState;
  stateBegin : Z;
  lastIncoming : Z;
  lastPing : Z;
  readBuf : bytes;
  recvCache : gmap Z dataSegment;
  recvNext : Z;
  ackList : list ackItem;
  ackDirty : bool;
  sendWindow : list dataSegment;
  sendNext : Z;
  firstUnacked : Z;
  remoteRecvWin : Z;
  totalInFlightSize : Z;
  controlWindow : Z;
  firstUnackedWasUpdated : bool;
  readGen : nat;
  writeGen : nat;
  flushPending : bool;
  terminated : bool;      (* [once] has run: [done] is closed *)
}.

(** Updates of the groups of fields that change together. *)
Definition set_timers (c : Conn) (rto' var srtt' upd : Z) : Conn :=
  mkConn (cfg c) (conv c) (mss c) rto' var srtt' (minRtt c) upd (state c) (stateBegin c) (lastIncoming c) (lastPing c)
    (readBuf c) (recvCache c) (recvNext c) (ackList c) (ackDirty c) (sendWindow c) (sendNext c) (firstUnacked c)
    (remoteRecvWin c) (totalInFlightSize c) (controlWindow c) (firstUnackedWasUpdated c) (readGen c) (writeGen c)
    (flushPending c) (terminated c).
Definition set_state (c : Conn) (s : connState) (begin : Z) : Conn :=
  mkConn (cfg c) (conv c) (mss c) (rto c) (rttVariation c) (srtt c) (minRtt c) (rtoUpdated c) s begin (lastIncoming c) (lastPing c)
    (readBuf c) (recvCache c) (recvNext c) (ackList c) (ackDirty c) (sendWindow c) (sendNext c) (firstUnacked c)
    (remoteRecvWin c) (totalInFlightSize c) (controlWindow c) (firstUnackedWasUpdated c) (readGen c) (writeGen c)
    (flushPending c) (terminated c).
Definition set_clock (c : Conn) (incoming ping : Z) : Conn :=
  mkConn (cfg c) (conv c) (mss c) (rto c) (rttVariation c) (srtt c) (minRtt c) (rtoUpdated c) (state c) (stateBegin c) incoming ping
    (readBuf c) (recvCache c) (recvNext c) (ackList c) (ackDirty c) (sendWindow c) (sendNext c) (firstUnacked c)
    (remoteRecvWin c) (totalInFlightSize c) (controlWindow c) (firstUnackedWasUpdated c) (readGen c) (writeGen c)
    (flushPending c) (terminated c).
Definition set_recv (c : Conn) (buf : bytes) (cache : gmap Z dataSegment) (next : Z) : Conn :=
  mkConn (cfg c) (conv c) (mss c) (rto c) (rttVariation c) (srtt c) (minRtt c) (rtoUpdated c) (state c) (stateBegin c) (lastIncoming c) (lastPing c)
    buf cache next (ackList c) (ackDirty c) (sendWindow c) (sendNext c) (firstUnacked c)
    (remoteRecvWin c) (totalInFlightSize c) (controlWindow c) (firstUnackedWasUpdated c) (readGen c) (writeGen c)
    (flushPending c) (terminated c).
Definition set_acks (c : Conn) (l : list ackItem) (dirty : bool) : Conn :=
  mkConn (cfg c) (conv c) (mss c) (rto c) (rttVariation c) (srtt c) (minRtt c) (rtoUpdated c) (state c) (stateBegin c) (lastIncoming c) (lastPing c)
    (readBuf c) (recvCache c) (recvNext c) l dirty (sendWindow c) (sendNext c) (firstUnacked c)
    (remoteRecvWin c) (totalInFlightSize c) (controlWindow c) (firstUnackedWasUpdated c) (readGen c) (writeGen c)
    (flushPending c) (terminated c).
Definition set_send (c : Conn) (l : list dataSegment) (next first : Z) (updated : bool) : Conn :=
  mkConn (cfg c) (conv c) (mss c) (rto c) (rttVariation c) (srtt c) (minRtt c) (rtoUpdated c) (state c) (stateBegin c) (lastIncoming c) (lastPing c)
    (readBuf c) (recvCache c) (recvNext c) (ackList c) (ackDirty c) l next first
    (remoteRecvWin c) (totalInFlightSize c) (controlWindow c) updated (readGen c) (writeGen c)
    (flushPending c) (terminated c).
Definition set_windows (c : Conn) (remote total control : Z) : Conn :=
  mkConn (cfg c) (conv c) (mss c) (rto c) (rttVariation c) (srtt c) (minRtt c) (rtoUpdated c) (state c) (stateBegin c) (lastIncoming c) (lastPing c)
    (readBuf c) (recvCache c) (recvNext c) (ackList c) (ackDirty c) (sendWindow c) (sendNext c) (firstUnacked c)
    remote total control (firstUnackedWasUpdated c) (readGen c) (writeGen c)
    (flushPending c) (terminated c).
Definition set_notify (c : Conn) (r w : nat) (fl term : bool) : Conn :=
  mkConn (cfg c) (conv c) (mss c) (rto c) (rttVariation c) (srtt c) (minRtt c) (rtoUpdated c) (state c) (stateBegin c) (lastIncoming c) (lastPing c)
    (readBuf c) (recvCache c) (recvNext c) (ackList c) (ackDirty c) (sendWindow c) (sendNext c) (firstUnacked c)
    (remoteRecvWin c) (totalInFlightSize c) (controlWindow c) (firstUnackedWasUpdated c) r w fl term.

(** [newConn]; [overhead] is the packet writer's. *)
Definition newConn (g : Config) (cv overhead : Z) : option Conn :=
  if sizes_panic g then None
  else Some (mkConn g cv (Z.max 576 (mtu g - overhead - dataSegmentOverhead)) 100 0 0 (tti g) 0
               stateActive 0 0 0 [] ∅ 0 [] false [] 0 0 32 0 (sendingInFlightSize g) false 0 0 false false).

(** ** Signals and the state *)

Definition signalReadLocked (c : Conn) : Conn := set_notify c (S (readGen c)) (writeGen c) (flushPending c) (terminated c).
Definition signalWriteLocked (c : Conn) : Conn := set_notify c (readGen c) (S (writeGen c)) (flushPending c) (terminated c).
Definition wakeFlush (c : Conn) : Conn := set_notify c (readGen c) (writeGen c) true (terminated c).

Definition setStateLocked (c : Conn) (s : connState) (now : Z) : Conn :=
  if bool_decide (state c = s) then c
  else
    let c := set_state c s now in
    let drop c := set_send c [] (sendNext c) (firstUnacked c) (firstUnackedWasUpdated c) in
    match s with
    | stateActive => c
    | stateReadyToClose => signalWriteLocked (signalReadLocked c)
    | statePeerClosed => signalWriteLocked (drop c)
    | stateTerminating | statePeerTerminating | stateTerminated => signalWriteLocked (signalReadLocked (drop c))
    end.

(** [terminate]: runs once. *)
Definition terminate (c : Conn) (now : Z) : Conn :=
  if terminated c then c
  else
    let c := signalWriteLocked (signalReadLocked (setStateLocked c stateTerminated now)) in
    set_notify c (readGen c) (writeGen c) (flushPending c) true.

(** ** The user's side *)

Inductive readOutcome := ReadData (b : bytes) | ReadEOF | ReadBlocked (gen : nat).

(** One round of [Read] into a buffer of [n] bytes. *)
Definition Read (c : Conn) (n : nat) : readOutcome * Conn :=
  match readBuf c with
  | _ :: _ => (ReadData (take n (readBuf c)), wakeFlush (set_recv c (drop n (readBuf c)) (recvCache c) (recvNext c)))
  | [] =>
      if bool_decide (state c = stateReadyToClose) || bool_decide (state c = stateTerminating) ||
         bool_decide (state c = stateTerminated)
      then (ReadEOF, c) else (ReadBlocked (readGen c), c)
  end.

Inductive writeOutcome := WriteOk | WriteClosed | WriteBlocked (gen : nat).

(** One round of the inner loop of [Write] for a chunk of at most [mss] bytes. *)
Definition writeChunk (c : Conn) (payload : bytes) : writeOutcome * Conn :=
  if negb (bool_decide (state c = stateActive)) then (WriteClosed, c)
  else if len (sendWindow c) <=? sendingBufferSize (cfg c) then
    let seg := mkData 0 0 0 (sendNext c) 0 payload 0 0 in
    (WriteOk, wakeFlush (signalWriteLocked
       (set_send c (sendWindow c ++ [seg]) (w32 (sendNext c + 1)) (firstUnacked c) (firstUnackedWasUpdated c))))
  else (WriteBlocked (writeGen c), c).

(** The chunks [Write] cuts a buffer into. *)
Fixpoint chunks (fuel : nat) (m : nat) (b : bytes) : list bytes :=
  match fuel with
  | O => []
  | S fuel' => match b with [] => [] | _ => take m b :: chunks fuel' m (drop m b) end
  end.

(** [Close]: [false] is [net.ErrClosed]. *)
Definition Close (c : Conn) (now : Z) : bool * Conn :=
  match state c with
  | stateReadyToClose | stateTerminating | stateTerminated => (false, c)
  | stateActive => (true, wakeFlush (setStateLocked c stateReadyToClose now))
  | statePeerClosed => (true, wakeFlush (setStateLocked c stateTerminating now))
  | statePeerTerminating => (true, terminate (wakeFlush (setStateLocked c stateTerminated now)) now)
  end.

(** ** Incoming segments *)

Definition handleOptionLocked (c : Conn) (opt now : Z) : Conn :=
  if Z.land opt segmentOptionClose =? segmentOptionClose then
    match state c with
    | stateReadyToClose => setStateLocked c stateTerminating now
    | stateActive => setStateLocked c statePeerClosed now
    | _ => c
    end
  else c.

(** The loop of [deliverLocked]: consecutive segments out of the cache. Each round removes
    one, so the size of the cache is enough fuel. *)
Fixpoint deliver_loop (fuel : nat) (c : Conn) : bool * Conn :=
  match fuel with
  | O => (false, c)
  | S fuel' =>
      match recvCache c !! recvNext c with
      | None => (false, c)
      | Some seg =>
          (true, (deliver_loop fuel' (set_recv c (readBuf c ++ d_payload seg) (delete (recvNext c) (recvCache c))
                                               (w32 (recvNext c + 1)))).2)
      end
  end.

Definition deliverLocked (c : Conn) : Conn :=
  let '(delivered, c) := deliver_loop (size (recvCache c)) c in
  if (delivered : bool) then signalReadLocked c else c.

Definition processSendingNextLocked (c : Conn) (next : Z) : Conn :=
  match ackList c with
  | [] => c
  | l =>
      let acks := filter (fun a => next <= it_number a) l in
      set_acks c acks (if (length acks =? length l)%nat then ackDirty c else true)
  end.

Definition findFirstUnackedLocked (c : Conn) : Conn :=
  let first := match sendWindow c with [] => sendNext c | seg :: _ => d_number seg end in
  set_send c (sendWindow c) (sendNext c) first
    (if firstUnacked c =? first then firstUnackedWasUpdated c else true).

Definition processReceivingNextLocked (c : Conn) (next : Z) : Conn :=
  let filtered := filter (fun seg => ~ d_number seg < next) (sendWindow c) in
  let changed := negb (length filtered =? length (sendWindow c))%nat in
  let c := findFirstUnackedLocked (set_send c filtered (sendNext c) (firstUnacked c) (firstUnackedWasUpdated c)) in
  if changed then signalWriteLocked c else c.

(** Remove the first segment with a number. *)
Fixpoint removeSeg (number : Z) (l : list dataSegment) : option (list dataSegment) :=
  match l with
  | [] => None
  | seg :: l' => if d_number seg =? number then Some l' else (fun r => seg :: r) <$> removeSeg number l'
  end.

Definition processAckLocked (c : Conn) (number : Z) : bool * Conn :=
  if (0x7fffffff <? w32 (number - firstUnacked c)) || (w32 (number - sendNext c) <? 0x7fffffff) then (false, c)
  else match removeSeg number (sendWindow c) with
       | None => (false, c)
       | Some l =>
           let c := set_windows c (remoteRecvWin c)
                      (if 0 <? totalInFlightSize c then totalInFlightSize c - 1 else totalInFlightSize c) (controlWindow c) in
           (true, signalWriteLocked (findFirstUnackedLocked
                    (set_send c l (sendNext c) (firstUnacked c) (firstUnackedWasUpdated c))))
       end.

Definition seg_with_timeout (s : dataSegment) (t : Z) : dataSegment :=
  mkData (d_conv s) (d_option s) (d_timestamp s) (d_number s) (d_sendingNext s) (d_payload s) t (d_transmit s).

Fixpoint fastAck_loop (number reduction : Z) (l : list dataSegment) : list dataSegment :=
  match l with
  | [] => []
  | seg :: l' =>
      if (number =? d_number seg) || (0x7fffffff <? w32 (number - d_number seg)) then l
      else (if (0 <? d_transmit seg) && (reduction <? d_timeout seg)
            then seg_with_timeout seg (d_timeout seg - reduction) else seg) :: fastAck_loop number reduction l'
  end.

Definition handleFastAckLocked (c : Conn) (number : Z) : Conn :=
  let reduction := rto c / 3 in
  if reduction =? 0 then c
  else set_send c (fastAck_loop number reduction (sendWindow c)) (sendNext c) (firstUnacked c) (firstUnackedWasUpdated c).

Definition updateRTTLocked (c : Conn) (rtt now : Z) : Conn :=
  if 0x7fffffff <? rtt then c
  else
    let '(var, s) :=
      if srtt c =? 0 then (rtt / 2, rtt)
      else
        let delta := if rtt <? srtt c then srtt c - rtt else rtt - srtt c in
        (w32 (3 * rttVariation c + delta) / 4, Z.max (minRtt c) (w32 (7 * srtt c + rtt) / 8)) in
    let r := if minRtt c <? w32 (4 * var) then w32 (s + w32 (4 * var)) else w32 (s + var) in
    let r := if 10000 <? r then 10000 else r in
    set_timers c (r * 5 / 4) var s now.

Definition updatePeerRTOLocked (c : Conn) (peer now : Z) : Conn :=
  if (peer =? 0) || (w32 (now - rtoUpdated c) <? 3000) then c
  else set_timers c peer (rttVariation c) (srtt c) now.

(** The data case of [Input]. *)
Definition inputData (c : Conn) (s : dataSegment) (now : Z) : Conn :=
  let c := processSendingNextLocked (handleOptionLocked c (d_option s) now) (d_sendingNext s) in
  let idx := w32 (d_number s - recvNext c) in
  let c :=
    if idx <? receivingInFlightSize (cfg c) then
      let c := set_acks c (ackList c ++ [mkItem (d_number s) (d_timestamp s) 0]) true in
      match recvCache c !! d_number s with
      | Some _ => c
      | None => set_recv c (readBuf c) (<[d_number s := s]> (recvCache c)) (recvNext c)
      end
    else c in
  deliverLocked c.

(** The loop over acknowledged numbers, with the largest and whether it was removed. *)
Fixpoint ack_loop (c : Conn) (l : list Z) (maxack : Z) (removed : bool) : Conn * Z * bool :=
  match l with
  | [] => (c, maxack, removed)
  | number :: l' =>
      let '(r, c) := processAckLocked c number in
      if maxack <? number then ack_loop c l' number r else ack_loop c l' maxack removed
  end.

(** The acknowledgement case: the connection, and whether to wake the flusher. *)
Definition inputAck (c : Conn) (s : ackSegment) (now : Z) : Conn * bool :=
  let c := handleOptionLocked c (a_option s) now in
  let c := if remoteRecvWin c <? a_receivingWindow s
           then set_windows c (a_receivingWindow s) (totalInFlightSize c) (controlWindow c) else c in
  let c := processReceivingNextLocked c (a_receivingNext s) in
  match a_numberList s with
  | [] => (c, false)
  | l =>
      let '(c, maxack, removed) := ack_loop c l 0 false in
      let c := if (removed : bool) then
                 let c := handleFastAckLocked c maxack in
                 if w32 (now - a_timestamp s) <? 10000 then updateRTTLocked c (w32 (now - a_timestamp s)) now else c
               else c in
      (c, true)
  end.

(** The command case: the connection, and whether it is to be terminated. *)
Definition inputCmd (c : Conn) (s : cmdOnlySegment) (now : Z) : Conn * bool :=
  let c := handleOptionLocked c (c_option s) now in
  let '(c, term) :=
    if c_cmd s =? commandTerminate then
      match state c with
      | stateActive | statePeerClosed => (setStateLocked c statePeerTerminating now, false)
      | stateReadyToClose => (setStateLocked c stateTerminating now, false)
      | stateTerminating => (setStateLocked c stateTerminated now, true)
      | _ => (c, false)
      end
    else (c, false) in
  let c := processReceivingNextLocked c (c_receivingNext s) in
  let c := processSendingNextLocked c (c_sendingNext s) in
  let c := updatePeerRTOLocked c (c_peerRTO s) now in
  let c := if (c_option s =? segmentOptionClose) || (c_cmd s =? commandTerminate)
           then signalWriteLocked (signalReadLocked c) else c in
  (c, term).

(** The loop of [Input] over the segments of one packet. *)
Fixpoint input_loop (c : Conn) (segs : list segment) (now : Z) (wake term : bool) : Conn * bool * bool :=
  match segs with
  | [] => (c, wake, term)
  | s :: segs' =>
      if negb (conversation s =? conv c) then (c, wake, term)
      else match s with
           | SegData d => input_loop (inputData c d now) segs' now true term
           | SegAck a => let '(c, w) := inputAck c a now in input_loop c segs' now (wake || w) term
           | SegCmd m => let '(c, t) := inputCmd c m now in input_loop c segs' now wake (term || t)
           end
  end.

Definition Input (c : Conn) (segs : list segment) (now : Z) : Conn :=
  match segs with
  | [] => c
  | _ =>
      if bool_decide (state c = stateTerminated) then c
      else
        let '(c, wake, term) := input_loop (set_clock c now (lastPing c)) segs now false false in
        let c := if (wake : bool) then wakeFlush c else c in
        if (term : bool) then terminate c now else c
  end.

(** ** Flushing *)

Definition closing_option (c : Conn) : Z := if bool_decide (state c = stateReadyToClose) then segmentOptionClose else 0.

Definition newAckSegmentLocked (c : Conn) (ts : Z) (numbers : list Z) : ackSegment :=
  mkAck (conv c) (closing_option c) (w32 (recvNext c + receivingInFlightSize (cfg c))) (recvNext c) ts numbers.

Definition pingSegmentLocked (c : Conn) (cmd now : Z) : segment * Conn :=
  (SegCmd (mkCmd (conv c) cmd (closing_option c) (firstUnacked c) (recvNext c) (rto c)),
   set_clock c (lastIncoming c) now).

(** The loop of [flushAcksLocked]: items re-armed so far, acknowledgements finished, the
    numbers and timestamp of the current one, and items not yet due. *)
Fixpoint ackItems_loop (c : Conn) (now : Z) (l done : list ackItem) (segs : list segment) (nums : list Z) (ts : Z)
    (cands : list Z) (dirty : bool) : list ackItem * list segment * list Z * Z * list Z * bool :=
  match l with
  | [] => (done, segs, nums, ts, cands, dirty)
  | item :: l' =>
      if now <? it_nextFlush item then
        ackItems_loop c now l' (done ++ [item]) segs nums ts
          (if len cands <? 128 then cands ++ [it_number item] else cands) dirty
      else
        let nums := nums ++ [it_number item] in
        let ts := if w32 (it_timestamp item - ts) <? 0x7fffffff then it_timestamp item else ts in
        let item := mkItem (it_number item) (it_timestamp item) (w32 (now + Z.max 20 (rto c / 2))) in
        if len nums =? 128 then
          ackItems_loop c now l' (done ++ [item]) (segs ++ [SegAck (newAckSegmentLocked c ts nums)]) [] 0 cands false
        else ackItems_loop c now l' (done ++ [item]) segs nums ts cands dirty
  end.

Definition flushAcksLocked (c : Conn) (now : Z) : list segment * Conn :=
  match ackList c with
  | [] => ([], c)
  | l =>
      let '(items, segs, nums, ts, cands, dirty) := ackItems_loop c now l [] [] [] 0 [] (ackDirty c) in
      if dirty || (0 <? len nums) then
        let nums := nums ++ take (128 - length nums) cands in
        (segs ++ [SegAck (newAckSegmentLocked c ts nums)], set_acks c items false)
      else (segs, set_acks c items dirty)
  end.

Definition onPacketLossLocked (c : Conn) (lossRate : Z) : Conn :=
  if rto c =? 0 then c
  else
    let w := if 15 <=? lossRate then w32 (3 * controlWindow c) / 4
             else if lossRate <=? 5 then w32 (controlWindow c + controlWindow c / 4)
             else controlWindow c in
    let w := Z.max 16 w in
    let max := w32 (2 * sendingInFlightSize (cfg c)) in
    set_windows c (remoteRecvWin c) (totalInFlightSize c) (if max <? w then max else w).

(** One segment sent again. *)
Definition stamp (c : Conn) (now : Z) (seg : dataSegment) : dataSegment :=
  mkData (conv c) (closing_option c) now (d_number seg) (firstUnacked c) (d_payload seg)
         (w32 (now + Z.max (tti (cfg c)) (rto c))) (w32 (d_transmit seg + 1)).

(** The loop of [flushSendLocked]: the window afterwards, the segments sent, the first
    transmissions and the repeats among them. *)
Fixpoint send_loop (c : Conn) (now cwnd : Z) (l : list dataSegment) (inFlight_ total lost : Z)
  : list dataSegment * list segment * Z * Z * Z :=
  match l with
  | [] => ([], [], inFlight_, total, lost)
  | seg :: l' =>
      if 0x7fffffff <=? w32 (now - d_timeout seg) then
        let '(win, segs, i, t, lo) := send_loop c now cwnd l' inFlight_ total lost in (seg :: win, segs, i, t, lo)
      else
        let total := if d_transmit seg =? 0 then w32 (total + 1) else total in
        let lost := if d_transmit seg =? 0 then lost else w32 (lost + 1) in
        let seg := stamp c now seg in
        let inFlight_ := w32 (inFlight_ + 1) in
        if cwnd <=? inFlight_ then (seg :: l', [SegData seg], inFlight_, total, lost)
        else
          let '(win, segs, i, t, lo) := send_loop c now cwnd l' inFlight_ total lost in
          (seg :: win, SegData seg :: segs, i, t, lo)
  end.

Definition flushSendLocked (c : Conn) (now : Z) : list segment * Conn :=
  match sendWindow c with
  | [] =>
      if firstUnackedWasUpdated c then
        let '(s, c) := pingSegmentLocked (set_send c [] (sendNext c) (firstUnacked c) false) commandPing now in ([s], c)
      else ([], c)
  | l =>
      let cwnd := Z.min (sendingInFlightSize (cfg c)) (w32 (remoteRecvWin c - firstUnacked c)) in
      let cwnd := if Congestion (cfg c) then Z.min cwnd (controlWindow c) else cwnd in
      let cwnd := w32 (cwnd * 20) in
      let '(win, segs, i, total, lost) := send_loop c now cwnd l 0 (totalInFlightSize c) 0 in
      let c := set_send c win (sendNext c) (firstUnacked c) (firstUnackedWasUpdated c) in
      let c := set_windows c (remoteRecvWin c) total (controlWindow c) in
      let c := if Congestion (cfg c) && (0 <? i) && negb (total =? 0)
               then onPacketLossLocked c (w32 (lost * 100) / total) else c in
      (segs, set_send c (sendWindow c) (sendNext c) (firstUnacked c) false)
  end.

(** [flush]: the segments it writes, in order. *)
Definition flush (c : Conn) (now : Z) : list segment * Conn :=
  if bool_decide (state c = stateTerminated) then ([], c)
  else
    let c := if bool_decide (state c = stateActive) && (30000 <=? w32 (now - lastIncoming c))
             then setStateLocked c stateReadyToClose now else c in
    let c := if bool_decide (state c = stateReadyToClose) && bool_decide (sendWindow c = [])
             then setStateLocked c stateTerminating now else c in
    if bool_decide (state c = stateTerminating) then
      let '(s, c) := pingSegmentLocked c commandTerminate now in
      if 8000 <? w32 (now - stateBegin c) then ([s], terminate (setStateLocked c stateTerminated now) now)
      else ([s], c)
    else
      let c := if bool_decide (state c = statePeerTerminating) && (4000 <? w32 (now - stateBegin c))
               then setStateLocked c stateTerminating now else c in
      let c := if bool_decide (state c = stateReadyToClose) && (15000 <? w32 (now - stateBegin c))
               then setStateLocked c stateTerminating now else c in
      let '(acks, c) := flushAcksLocked c now in
      let '(datas, c) := flushSendLocked c now in
      let '(pings, c) := if 3000 <=? w32 (now - lastPing c)
                         then let '(s, c) := pingSegmentLocked c commandPing now in ([s], c) else ([], c) in
      (acks ++ datas ++ pings, if bool_decide (state c = stateTerminated) then terminate c now else c).
