(* ===== verification/KcpConnSpec.v ===== *)
(** * mKCP connections: reliable delivery over an unreliable network

    Two connections exchange segments over a network that loses, duplicates, delays and
    reorders them. What one side has read is always a prefix of what the other wrote, and
    a sender forgets a segment only when the receiver has it, so that closing gracefully
    loses nothing. *)
From S2P Require Import Prelude GoStd KcpSegment KcpConn.
From Stdlib Require Import Init.Byte.

(** ** What an operation may do to the sending side *)

(** The states in which the send window still stands for what was written. *)
Definition retaining (s : connState) : bool :=
  match s with stateActive | stateReadyToClose => true | _ => false end.

Definition same_data (d d' : dataSegment) : Prop := d_number d = d_number d' /\ d_payload d = d_payload d'.

(** [snd_ok rcvd c c']: no segment changes its number or payload, none appears, and as
    long as the window is retained only segments the peer has, [rcvd], disappear. *)
Record snd_ok (rcvd : Z -> Prop) (c c' : Conn) : Prop := {
  so_next : sendNext c' = sendNext c;
  so_from : forall d', d' ∈ sendWindow c' -> exists d, d ∈ sendWindow c /\ same_data d d';
  so_kept : retaining (state c') = true -> retaining (state c) = true /\
    forall d, d ∈ sendWindow c -> rcvd (d_number d) \/ exists d', d' ∈ sendWindow c' /\ same_data d d';
}.

Lemma same_data_refl d : same_data d d.
Proof. by split. Qed.
#[export] Hint Resolve same_data_refl : ntr.

Lemma snd_ok_eq rcvd c c' :
  sendNext c' = sendNext c -> sendWindow c' = sendWindow c -> state c' = state c -> snd_ok rcvd c c'.
Proof.
  intros En Ew Es. split; [done|..].
  - intros d'. rewrite Ew. eauto with ntr.
  - rewrite Es, Ew. intros Hr. split; [done|]. eauto with ntr.
Qed.

Lemma snd_ok_refl rcvd c : snd_ok rcvd c c.
Proof. by apply snd_ok_eq. Qed.

Lemma snd_ok_trans rcvd c1 c2 c3 : snd_ok rcvd c1 c2 -> snd_ok rcvd c2 c3 -> snd_ok rcvd c1 c3.
Proof.
  intros [N1 F1 K1] [N2 F2 K2]. split; [congruence|..].
  - intros d3 H3. destruct (F2 d3 H3) as (d2 & H2 & S2). destruct (F1 d2 H2) as (d1 & H1 & S1).
    exists d1. split; [done|]. destruct S1, S2. split; congruence.
  - intros Hr. destruct (K2 Hr) as [Hr2 K2']. destruct (K1 Hr2) as [Hr1 K1']. split; [done|].
    intros d1 H1. destruct (K1' d1 H1) as [?|(d2 & H2 & S12)]; [by left|].
    destruct (K2' d2 H2) as [Hv|(d3 & H3 & S23)].
    + left. destruct S12 as [E _]. by rewrite E.
    + right. exists d3. split; [done|]. destruct S12, S23. split; congruence.
Qed.

(** Emptying the window on leaving the retaining states is allowed. *)
Lemma snd_ok_drop rcvd c c' :
  sendNext c' = sendNext c -> sendWindow c' = [] -> retaining (state c') = false -> snd_ok rcvd c c'.
Proof.
  intros En Ew Es. split; [done| |].
  - rewrite Ew. by intros d' ?%not_elem_of_nil.
  - by rewrite Es.
Qed.

Lemma snd_ok_setState rcvd c s now :
  (retaining s = true -> retaining (state c) = true) -> snd_ok rcvd c (setStateLocked c s now).
Proof.
  intros Hs. unfold setStateLocked. case_bool_decide; [apply snd_ok_refl|].
  destruct s; try (by apply snd_ok_drop).
  - split; cbn; [done|eauto with ntr|]. intros _. split; [by apply Hs|eauto with ntr].
  - split; cbn; [done|eauto with ntr|]. intros _. split; [by apply Hs|eauto with ntr].
Qed.

Lemma snd_ok_terminate rcvd c now : snd_ok rcvd c (terminate c now).
Proof.
  unfold terminate. destruct (terminated c); [apply snd_ok_refl|].
  eapply snd_ok_trans; [by apply (snd_ok_setState rcvd c stateTerminated now)|by apply snd_ok_eq].
Qed.

Lemma snd_ok_handleOption rcvd c opt now : snd_ok rcvd c (handleOptionLocked c opt now).
Proof.
  unfold handleOptionLocked. destruct (_ =? _); [|apply snd_ok_refl].
  destruct (state c); try apply snd_ok_refl; by apply snd_ok_setState.
Qed.

Lemma findFirst_window c : sendWindow (findFirstUnackedLocked c) = sendWindow c /\
  sendNext (findFirstUnackedLocked c) = sendNext c /\ state (findFirstUnackedLocked c) = state c.
Proof. done. Qed.

Lemma snd_ok_processReceivingNext rcvd c next :
  (forall d, d ∈ sendWindow c -> d_number d < next -> rcvd (d_number d)) ->
  snd_ok rcvd c (processReceivingNextLocked c next).
Proof.
  intros Hr. unfold processReceivingNextLocked.
  set (f := filter (fun seg => ~ d_number seg < next) (sendWindow c)).
  set (c1 := findFirstUnackedLocked _). eapply (snd_ok_trans _ _ c1); [|destruct (negb _); by apply snd_ok_eq].
  split; cbn.
  - done.
  - intros d'. unfold f. rewrite list_elem_of_filter. intros [_ ?]. eauto with ntr.
  - intros Hret. split; [done|]. intros d Hd. destruct (decide (d_number d < next)); [left; by apply Hr|].
    right. exists d. split; [|done]. apply list_elem_of_filter. done.
Qed.

Lemma removeSeg_incl number l : forall l', removeSeg number l = Some l' ->
  (forall d, d ∈ l' -> d ∈ l) /\ (forall d, d ∈ l -> d_number d = number \/ d ∈ l').
Proof.
  induction l as [|s l IH]; intros l'; cbn; [done|]. destruct (Z.eqb_spec (d_number s) number) as [E|E].
  - intros [= <-]. split; [by right|]. intros d [->|Hd]%elem_of_cons; [by left|by right].
  - destruct (removeSeg number l) as [r|]; [|done]. cbn. intros [= <-]. destruct (IH r eq_refl) as [H1 H2]. split.
    + intros d [->|Hd]%elem_of_cons; [by left|right; by apply H1].
    + intros d [->|Hd]%elem_of_cons; [right; by left|]. destruct (H2 d Hd); [by left|right; by right].
Qed.

Lemma snd_ok_processAck rcvd c n : rcvd n -> snd_ok rcvd c (processAckLocked c n).2.
Proof.
  intros Hr. unfold processAckLocked. destruct (_ || _); [apply snd_ok_refl|].
  destruct (removeSeg n (sendWindow c)) as [l|] eqn:E; [|apply snd_ok_refl].
  apply removeSeg_incl in E as [H1 H2]. split; cbn; [done| |].
  - intros d' Hd'. exists d'. split; [by apply H1|apply same_data_refl].
  - intros Hret. split; [done|]. intros d Hd. destruct (H2 d Hd) as [->|?]; [by left|]. right. eauto with ntr.
Qed.

Lemma fastAck_data n red l :
  Forall2 same_data l (fastAck_loop n red l).
Proof.
  induction l as [|s l IH]; cbn; [constructor|]. destruct (_ || _).
  - apply Forall_Forall2_diag. apply Forall_true. apply same_data_refl.
  - constructor; [|done]. destruct (_ && _); [by split|apply same_data_refl].
Qed.

Lemma Forall2_elem_l {A} (R : A -> A -> Prop) l k x : Forall2 R l k -> x ∈ l -> exists y, y ∈ k /\ R x y.
Proof.
  intros H Hx. apply list_elem_of_lookup in Hx as [i Hi]. destruct (Forall2_lookup_l _ _ _ _ _ H Hi) as (y & Hy & ?).
  exists y. split; [by eapply list_elem_of_lookup_2|done].
Qed.
Lemma Forall2_elem_r {A} (R : A -> A -> Prop) l k y : Forall2 R l k -> y ∈ k -> exists x, x ∈ l /\ R x y.
Proof.
  intros H Hx. apply list_elem_of_lookup in Hx as [i Hi]. destruct (Forall2_lookup_r _ _ _ _ _ H Hi) as (x & Hy & ?).
  exists x. split; [by eapply list_elem_of_lookup_2|done].
Qed.

(** A window rewritten segment by segment, numbers and payloads kept. *)
Lemma snd_ok_window rcvd c c' :
  sendNext c' = sendNext c -> state c' = state c -> Forall2 same_data (sendWindow c) (sendWindow c') -> snd_ok rcvd c c'.
Proof.
  intros En Es Hf. split; [done| |].
  - intros d' Hd'. destruct (Forall2_elem_r _ _ _ _ Hf Hd') as (d & ? & ?). eauto.
  - rewrite Es. intros Hr. split; [done|]. intros d Hd. right. by apply (Forall2_elem_l _ _ _ _ Hf).
Qed.

Lemma snd_ok_handleFastAck rcvd c n : snd_ok rcvd c (handleFastAckLocked c n).
Proof.
  unfold handleFastAckLocked. destruct (_ =? 0); [apply snd_ok_refl|]. apply snd_ok_window; [done..|]. apply fastAck_data.
Qed.

Lemma snd_ok_ack_loop rcvd l : forall c m b, Forall rcvd l -> snd_ok rcvd c (ack_loop c l m b).1.1.
Proof.
  induction l as [|n l IH]; intros c m b; cbn; [intros; apply snd_ok_refl|].
  intros [Hn Hl]%Forall_cons. pose proof (snd_ok_processAck rcvd c n Hn) as Hp.
  destruct (processAckLocked c n) as [r c']. cbn in Hp.
  destruct (m <? n); (eapply snd_ok_trans; [exact Hp|by apply IH]).
Qed.

Lemma updateRTT_fields c r now : sendNext (updateRTTLocked c r now) = sendNext c /\
  sendWindow (updateRTTLocked c r now) = sendWindow c /\ state (updateRTTLocked c r now) = state c.
Proof. unfold updateRTTLocked. destruct (_ <? _); [done|]. by destruct (srtt c =? 0). Qed.

(** Acknowledgements the network may deliver: of segments the peer has. *)
Definition ack_honest (rcvd : Z -> Prop) (a : ackSegment) : Prop :=
  Forall rcvd (a_numberList a) /\ forall n, 0 <= n < a_receivingNext a -> rcvd n.

Lemma snd_ok_inputAck rcvd c a now :
  ack_honest rcvd a -> (forall d, d ∈ sendWindow c -> 0 <= d_number d) -> snd_ok rcvd c (inputAck c a now).1.
Proof.
  intros [Hl Hn] Hpos. unfold inputAck. set (c1 := handleOptionLocked c _ now).
  assert (H1 : snd_ok rcvd c c1) by apply snd_ok_handleOption.
  set (c2 := if _ <? _ then set_windows _ _ _ _ else c1).
  assert (H2 : snd_ok rcvd c c2).
  { eapply snd_ok_trans; [exact H1|]. unfold c2. destruct (_ <? _); by apply snd_ok_eq. }
  set (c3 := processReceivingNextLocked c2 (a_receivingNext a)).
  assert (H3 : snd_ok rcvd c c3).
  { eapply snd_ok_trans; [exact H2|]. apply snd_ok_processReceivingNext. intros d Hd Hlt. apply Hn.
    destruct (so_from _ _ _ H2 d Hd) as (d0 & Hd0 & E & _). specialize (Hpos d0 Hd0). lia. }
  destruct (a_numberList a) as [|n0 l0] eqn:El; [exact H3|].
  pose proof (snd_ok_ack_loop rcvd (n0 :: l0) c3 0 false Hl) as H4.
  destruct (ack_loop c3 (n0 :: l0) 0 false) as [[c4 m] b]. cbn in H4 |- *. destruct b.
  - eapply snd_ok_trans; [exact H3|]. eapply snd_ok_trans; [exact H4|].
    eapply snd_ok_trans; [apply (snd_ok_handleFastAck rcvd c4 m)|].
    destruct (_ <? 10000); [|apply snd_ok_refl]. apply snd_ok_eq; apply updateRTT_fields.
  - by eapply snd_ok_trans.
Qed.

Definition nonneg_window (c : Conn) : Prop := forall d, d ∈ sendWindow c -> 0 <= d_number d.

Lemma nonneg_snd rcvd c c' : snd_ok rcvd c c' -> nonneg_window c -> nonneg_window c'.
Proof. intros H Hn d' Hd'. destruct (so_from _ _ _ H d' Hd') as (d & Hd & E & _). rewrite <-E. by apply Hn. Qed.

(** Operations of the receiving side and of the timers leave the sending side alone. *)
Definition snd_same (c c' : Conn) : Prop :=
  sendNext c' = sendNext c /\ sendWindow c' = sendWindow c /\ state c' = state c.

Lemma snd_same_ok rcvd c c' : snd_same c c' -> snd_ok rcvd c c'.
Proof. intros (? & ? & ?). by apply snd_ok_eq. Qed.

Lemma snd_same_processSendingNext c n : snd_same c (processSendingNextLocked c n).
Proof. unfold processSendingNextLocked. by destruct (ackList c). Qed.

Lemma snd_same_deliver_loop fuel : forall c, snd_same c (deliver_loop fuel c).2.
Proof.
  induction fuel as [|fuel IH]; intros c; cbn; [done|]. destruct (recvCache c !! recvNext c) as [s|]; [|done].
  cbn. apply (IH (set_recv c _ _ _)).
Qed.

Lemma snd_same_deliver c : snd_same c (deliverLocked c).
Proof.
  unfold deliverLocked. pose proof (snd_same_deliver_loop (size (recvCache c)) c) as Hd.
  destruct (deliver_loop _ c) as [b c']. by destruct b.
Qed.

Lemma snd_same_peerRTO c r now : snd_same c (updatePeerRTOLocked c r now).
Proof. unfold updatePeerRTOLocked. by destruct (_ || _). Qed.

Lemma snd_ok_inputData rcvd c d now : snd_ok rcvd c (inputData c d now).
Proof.
  unfold inputData. set (c1 := processSendingNextLocked _ _). set (c2 := if _ <? _ then _ else c1).
  eapply snd_ok_trans; [apply (snd_ok_handleOption rcvd c (d_option d) now)|].
  eapply snd_ok_trans; [apply snd_same_ok, (snd_same_processSendingNext _ (d_sendingNext d))|]. fold c1.
  apply (snd_ok_trans _ _ c2); [|apply snd_same_ok, snd_same_deliver].
  unfold c2. destruct (_ <? _); [|apply snd_ok_refl]. apply snd_same_ok. cbn. by destruct (recvCache c1 !! _).
Qed.

Lemma snd_ok_inputCmd rcvd c m now :
  (forall n, 0 <= n < c_receivingNext m -> rcvd n) -> nonneg_window c -> snd_ok rcvd c (inputCmd c m now).1.
Proof.
  intros Hn Hpos. unfold inputCmd. set (c1 := handleOptionLocked c _ now).
  assert (H1 : snd_ok rcvd c c1) by apply snd_ok_handleOption.
  set (p := if c_cmd m =? commandTerminate then _ else (c1, false)).
  assert (H2 : snd_ok rcvd c p.1).
  { eapply snd_ok_trans; [exact H1|]. unfold p. destruct (_ =? _); [|apply snd_ok_refl].
    destruct (state c1); cbn; try apply snd_ok_refl; by apply snd_ok_setState. }
  destruct p as [c2 term]. cbn in H2 |- *. set (c3 := processReceivingNextLocked c2 (c_receivingNext m)).
  assert (H3 : snd_ok rcvd c c3).
  { eapply snd_ok_trans; [exact H2|]. apply snd_ok_processReceivingNext. intros d Hd Hlt. apply Hn.
    pose proof (nonneg_snd _ _ _ H2 Hpos d Hd). lia. }
  eapply snd_ok_trans; [exact H3|].
  eapply snd_ok_trans; [apply snd_same_ok, (snd_same_processSendingNext c3 (c_sendingNext m))|].
  eapply snd_ok_trans; [apply snd_same_ok, (snd_same_peerRTO _ (c_peerRTO m) now)|].
  destruct (_ || _); by apply snd_ok_eq.
Qed.

(** A segment the network may deliver tells the truth about what the peer has. *)
Definition seg_honest (rcvd : Z -> Prop) (s : segment) : Prop :=
  match s with
  | SegData _ => True
  | SegAck a => ack_honest rcvd a
  | SegCmd m => forall n, 0 <= n < c_receivingNext m -> rcvd n
  end.

Lemma snd_ok_input_loop rcvd segs now : forall c wake term,
  Forall (seg_honest rcvd) segs -> nonneg_window c -> snd_ok rcvd c (input_loop c segs now wake term).1.1.
Proof.
  induction segs as [|s segs IH]; intros c wake term Hs Hpos; cbn; [apply snd_ok_refl|].
  apply Forall_cons in Hs as [Hs Hr]. destruct (negb _); [apply snd_ok_refl|].
  assert (Hnext : forall c1 w t, snd_ok rcvd c c1 -> snd_ok rcvd c (input_loop c1 segs now w t).1.1).
  { intros c1 w t H1. eapply snd_ok_trans; [exact H1|]. apply IH; [done|by eapply nonneg_snd]. }
  destruct s as [d|a|m].
  - apply Hnext, snd_ok_inputData.
  - pose proof (snd_ok_inputAck rcvd c a now Hs Hpos) as H1. destruct (inputAck c a now) as [c1 w]. by apply Hnext.
  - pose proof (snd_ok_inputCmd rcvd c m now Hs Hpos) as H1. destruct (inputCmd c m now) as [c1 t]. by apply Hnext.
Qed.

Lemma snd_ok_Input rcvd c segs now :
  Forall (seg_honest rcvd) segs -> nonneg_window c -> snd_ok rcvd c (Input c segs now).
Proof.
  intros Hs Hpos. unfold Input. destruct segs as [|s0 segs0]; [apply snd_ok_refl|].
  case_bool_decide; [apply snd_ok_refl|].
  pose proof (snd_ok_input_loop rcvd (s0 :: segs0) now (set_clock c now (lastPing c)) false false Hs Hpos) as H1.
  destruct (input_loop _ _ _ _ _) as [[c1 w] t]. cbn in H1.
  assert (H2 : snd_ok rcvd c c1) by (eapply snd_ok_trans; [|exact H1]; by apply snd_ok_eq).
  destruct w, t.
  - eapply snd_ok_trans; [exact H2|]. eapply snd_ok_trans; [|apply snd_ok_terminate]. by apply snd_ok_eq.
  - eapply snd_ok_trans; [exact H2|]. by apply snd_ok_eq.
  - eapply snd_ok_trans; [exact H2|]. apply snd_ok_terminate.
  - exact H2.
Qed.

(** ** Flushing *)

(** What [flushSendLocked] sends comes from the window. *)
Definition from_window (c : Conn) (s : segment) : Prop :=
  match s with
  | SegData d => exists d0, d0 ∈ sendWindow c /\ same_data d0 d
  | _ => True
  end.

Lemma send_loop_spec c now cwnd l : forall i t lo,
  let '(win, segs, _, _, _) := send_loop c now cwnd l i t lo in
  Forall2 same_data l win /\
  Forall (fun s => exists d0 d, s = SegData d /\ d0 ∈ l /\ same_data d0 d /\ d = stamp c now d0) segs.
Proof.
  assert (Hr : forall k, Forall2 same_data k k).
  { intros k. apply Forall_Forall2_diag, Forall_true, same_data_refl. }
  induction l as [|s l IH]; intros i t lo; cbn [send_loop]; [done|].
  destruct (_ <=? _).
  { specialize (IH i t lo). destruct (send_loop c now cwnd l i t lo) as [[[[win segs] i'] t'] lo']. destruct IH as [H1 H2].
    split; [by constructor|]. eapply Forall_impl; [exact H2|]. intros x (d0 & d & -> & Hd & ?). exists d0, d.
    split_and!; [done|by right|naive_solver..]. }
  set (t1 := if d_transmit s =? 0 then w32 (t + 1) else t). set (lo1 := if d_transmit s =? 0 then lo else w32 (lo + 1)).
  assert (Hs : same_data s (stamp c now s)) by done.
  assert (H0 : exists d0 d, SegData (stamp c now s) = SegData d /\ d0 ∈ s :: l /\ same_data d0 d /\ d = stamp c now d0).
  { exists s, (stamp c now s). split_and!; [done|by left|done|done]. }
  destruct (cwnd <=? w32 (i + 1)).
  - split; [by constructor|]. by constructor.
  - specialize (IH (w32 (i + 1)) t1 lo1). destruct (send_loop c now cwnd l _ t1 lo1) as [[[[win segs] i'] t'] lo'].
    destruct IH as [H1 H2]. split; [by constructor|]. constructor; [done|].
    eapply Forall_impl; [exact H2|]. intros x (d0 & d & -> & Hd & ?). exists d0, d.
    split_and!; [done|by right|naive_solver..].
Qed.

Lemma onPacketLoss_fields c r : snd_same c (onPacketLossLocked c r).
Proof. unfold onPacketLossLocked. by destruct (_ =? 0). Qed.

Lemma flushSend_spec rcvd c now :
  snd_ok rcvd c (flushSendLocked c now).2 /\ Forall (from_window c) (flushSendLocked c now).1.
Proof.
  unfold flushSendLocked. destruct (sendWindow c) as [|s0 l0] eqn:El.
  - destruct (firstUnackedWasUpdated c); cbn; [|split; [apply snd_ok_refl|done]].
    split; [by apply snd_ok_eq|]. by repeat constructor.
  - rewrite <-El. set (cw := w32 _). pose proof (send_loop_spec c now cw (sendWindow c) 0 (totalInFlightSize c) 0) as Hl.
    destruct (send_loop c now cw _ _ _ _) as [[[[win segs] i] t] lo]. destruct Hl as [H1 H2]. cbn [fst snd]. split.
    + set (c1 := set_windows _ _ _ _). assert (Hc1 : snd_ok rcvd c c1) by (by apply snd_ok_window).
      eapply snd_ok_trans; [exact Hc1|]. destruct (_ && _); [|by apply snd_ok_eq].
      eapply snd_ok_trans; [apply snd_same_ok, (onPacketLoss_fields c1 (w32 (lo * 100) / t))|by apply snd_ok_eq].
    + eapply Forall_impl; [exact H2|]. intros x (d0 & d & -> & Hd & Hs & _). cbn. eauto.
Qed.

Lemma flushAcks_snd c now : snd_same c (flushAcksLocked c now).2.
Proof.
  unfold flushAcksLocked. destruct (ackList c); [done|]. destruct (ackItems_loop _ _ _ _ _ _ _ _ _) as [[[[[items segs] nums] ts] cands] dirty].
  by destruct (_ || _).
Qed.

(** ** The receiving side *)

Definition received (c : Conn) (n : Z) : Prop := n < recvNext c \/ is_Some (recvCache c !! n).

(** A segment carries what was written under its number. *)
Definition holds (hist : list bytes) (d : dataSegment) : Prop :=
  0 <= d_number d /\ hist !! Z.to_nat (d_number d) = Some (d_payload d).

Lemma holds_same hist d d' : same_data d d' -> holds hist d -> holds hist d'.
Proof. intros [E1 E2]. unfold holds. by rewrite E1, E2. Qed.

Lemma holds_app hist p d : holds hist d -> holds (hist ++ [p]) d.
Proof. intros [H1 H2]. split; [done|]. by apply lookup_app_l_Some. Qed.

Record rcv_base (hist : list bytes) (g : bytes) (c : Conn) : Prop := {
  ri_cache : forall n d, recvCache c !! n = Some d -> d_number d = n /\ holds hist d;
  ri_next : 0 <= recvNext c <= len hist;
  ri_data : g ++ readBuf c = concat (take (Z.to_nat (recvNext c)) hist);
  ri_acks : Forall (fun a => received c (it_number a)) (ackList c);
}.

(** Between operations the next segment is never waiting in the cache. *)
Definition rcv_inv (hist : list bytes) (g : bytes) (c : Conn) : Prop :=
  rcv_base hist g c /\ recvCache c !! recvNext c = None.

(** The receiving side unchanged, up to acknowledgements dropped or re-armed. *)
Record rcv_sub (c c' : Conn) : Prop := {
  rs_buf : readBuf c' = readBuf c;
  rs_cache : recvCache c' = recvCache c;
  rs_next : recvNext c' = recvNext c;
  rs_acks : forall n, n ∈ it_number <$> ackList c' -> n ∈ it_number <$> ackList c;
}.

Lemma rcv_sub_refl c : rcv_sub c c.
Proof. by split. Qed.
Lemma rcv_sub_trans c1 c2 c3 : rcv_sub c1 c2 -> rcv_sub c2 c3 -> rcv_sub c1 c3.
Proof. intros [] []. split; [congruence..|]. auto. Qed.
#[export] Hint Resolve rcv_sub_refl : ntr.

Lemma received_sub c c' n : rcv_sub c c' -> received c' n <-> received c n.
Proof. intros [_ Ec En _]. unfold received. by rewrite Ec, En. Qed.

Lemma rcv_base_sub hist g c c' : rcv_sub c c' -> rcv_base hist g c -> rcv_base hist g c'.
Proof.
  intros Hs [H1 H2 H3 H4]. pose proof Hs as [Eb Ec En Ea]. split; rewrite ?Eb, ?Ec, ?En; [done..|].
  apply Forall_forall. intros a Ha. rewrite (received_sub c c') by done. rewrite Forall_forall in H4.
  assert (it_number a ∈ it_number <$> ackList c) as (a0 & E & Ha0)%list_elem_of_fmap.
  { apply Ea. apply list_elem_of_fmap. eauto. }
  rewrite E. by apply H4.
Qed.

Lemma rcv_inv_sub hist g c c' : rcv_sub c c' -> rcv_inv hist g c -> rcv_inv hist g c'.
Proof. intros Hs [Hb Hg]. split; [by eapply rcv_base_sub|]. by rewrite (rs_cache _ _ Hs), (rs_next _ _ Hs). Qed.

Lemma rcv_sub_setState c s now : rcv_sub c (setStateLocked c s now).
Proof. unfold setStateLocked. case_bool_decide; [apply rcv_sub_refl|]. by destruct s. Qed.
Lemma rcv_sub_terminate c now : rcv_sub c (terminate c now).
Proof.
  unfold terminate. destruct (terminated c); [apply rcv_sub_refl|].
  eapply rcv_sub_trans; [apply (rcv_sub_setState c stateTerminated now)|]. done.
Qed.
Lemma rcv_sub_handleOption c o now : rcv_sub c (handleOptionLocked c o now).
Proof.
  unfold handleOptionLocked. destruct (_ =? _); [|apply rcv_sub_refl].
  destruct (state c); try apply rcv_sub_refl; apply rcv_sub_setState.
Qed.
Lemma rcv_sub_processReceivingNext c n : rcv_sub c (processReceivingNextLocked c n).
Proof. unfold processReceivingNextLocked. by destruct (negb _). Qed.
Lemma rcv_sub_processAck c n : rcv_sub c (processAckLocked c n).2.
Proof. unfold processAckLocked. destruct (_ || _); [done|]. by destruct (removeSeg n (sendWindow c)). Qed.
Lemma rcv_sub_ack_loop l : forall c m b, rcv_sub c (ack_loop c l m b).1.1.
Proof.
  induction l as [|n l IH]; intros c m b; cbn; [done|]. pose proof (rcv_sub_processAck c n) as Hp.
  destruct (processAckLocked c n) as [r c']. destruct (m <? n); (eapply rcv_sub_trans; [exact Hp|apply IH]).
Qed.
Lemma rcv_sub_updateRTT c r now : rcv_sub c (updateRTTLocked c r now).
Proof. unfold updateRTTLocked. destruct (_ <? _); [done|]. by destruct (srtt c =? 0). Qed.
Lemma rcv_sub_fastAck c n : rcv_sub c (handleFastAckLocked c n).
Proof. unfold handleFastAckLocked. by destruct (_ =? 0). Qed.
Lemma rcv_sub_processSendingNext c n : rcv_sub c (processSendingNextLocked c n).
Proof.
  unfold processSendingNextLocked. destruct (ackList c) as [|a l] eqn:E; [done|]. rewrite <-E. split; cbn; [done..|].
  intros x (i & -> & Hi)%list_elem_of_fmap. apply list_elem_of_filter in Hi as [_ Hi]. apply list_elem_of_fmap. eauto.
Qed.

Lemma rcv_sub_inputAck c a now : rcv_sub c (inputAck c a now).1.
Proof.
  unfold inputAck. set (c1 := handleOptionLocked c _ now). set (c2 := if _ <? _ then set_windows _ _ _ _ else c1).
  set (c3 := processReceivingNextLocked c2 _).
  assert (H3 : rcv_sub c c3).
  { eapply rcv_sub_trans; [apply (rcv_sub_handleOption c (a_option a) now)|]. fold c1.
    apply (rcv_sub_trans _ c2); [unfold c2; by destruct (_ <? _)|apply rcv_sub_processReceivingNext]. }
  destruct (a_numberList a) as [|n0 l0]; [exact H3|].
  pose proof (rcv_sub_ack_loop (n0 :: l0) c3 0 false) as H4. destruct (ack_loop c3 (n0 :: l0) 0 false) as [[c4 m] b].
  cbn in H4 |- *. eapply rcv_sub_trans; [exact H3|]. eapply rcv_sub_trans; [exact H4|]. destruct b; [|done].
  eapply rcv_sub_trans; [apply (rcv_sub_fastAck c4 m)|]. destruct (_ <? 10000); [apply rcv_sub_updateRTT|done].
Qed.

Lemma rcv_sub_inputCmd c m now : rcv_sub c (inputCmd c m now).1.
Proof.
  unfold inputCmd. set (c1 := handleOptionLocked c _ now).
  set (p := if c_cmd m =? commandTerminate then _ else (c1, false)).
  assert (H2 : rcv_sub c p.1).
  { eapply rcv_sub_trans; [apply (rcv_sub_handleOption c (c_option m) now)|]. fold c1. unfold p.
    destruct (_ =? _); [|done]. destruct (state c1); cbn; try apply rcv_sub_refl; apply rcv_sub_setState. }
  destruct p as [c2 term]. cbn in H2 |- *. eapply rcv_sub_trans; [exact H2|].
  eapply rcv_sub_trans; [apply (rcv_sub_processReceivingNext c2 (c_receivingNext m))|].
  eapply rcv_sub_trans; [apply (rcv_sub_processSendingNext _ (c_sendingNext m))|].
  set (c3 := processSendingNextLocked _ _). apply (rcv_sub_trans _ (updatePeerRTOLocked c3 (c_peerRTO m) now)).
  - unfold updatePeerRTOLocked. by destruct (_ || _).
  - by destruct (_ || _).
Qed.

(** Growth of what was received. *)
Definition rcv_mono (c c' : Conn) : Prop :=
  recvNext c <= recvNext c' /\ forall n, received c n -> received c' n.

Lemma rcv_mono_sub c c' : rcv_sub c c' -> rcv_mono c c'.
Proof. intros Hs. split; [by rewrite (rs_next _ _ Hs)|]. intros n. by rewrite (received_sub c c'). Qed.
Lemma rcv_mono_trans c1 c2 c3 : rcv_mono c1 c2 -> rcv_mono c2 c3 -> rcv_mono c1 c3.
Proof. intros [H1 K1] [H2 K2]. split; [lia|auto]. Qed.

Lemma holds_next hist d : holds hist d -> d_number d < len hist.
Proof. intros [H1 H2]. apply lookup_lt_Some in H2. unfold len. lia. Qed.

(** Delivering moves segments from the cache to the reader's buffer, in order, up to the
    first gap. *)
Lemma deliver_loop_spec hist g fuel : forall c,
  len hist < 2 ^ 32 -> (size (recvCache c) <= fuel)%nat -> rcv_base hist g c ->
  rcv_inv hist g (deliver_loop fuel c).2 /\ rcv_mono c (deliver_loop fuel c).2.
Proof.
  induction fuel as [|fuel IH]; intros c Hlen Hsz Hb; cbn [deliver_loop].
  { assert (recvCache c = ∅) as E by (apply map_size_empty_inv; lia).
    split; [|by apply rcv_mono_sub]. split; [done|]. cbn. by rewrite E, lookup_empty. }
  destruct (recvCache c !! recvNext c) as [s|] eqn:Es; [|split; [by split|by apply rcv_mono_sub]].
  destruct (ri_cache _ _ _ Hb _ _ Es) as [En Hh]. pose proof (holds_next _ _ Hh) as Hlt. pose proof (ri_next _ _ _ Hb) as Hr.
  assert (Hw : w32 (recvNext c + 1) = recvNext c + 1) by (apply w32_small; unfold in_u32; lia).
  set (c1 := set_recv c _ _ _).
  assert (Hrec : forall n, received c n -> received c1 n).
  { intros n. unfold received, c1. cbn. rewrite Hw. intros [?|?]; [left; lia|].
    destruct (decide (n = recvNext c)) as [->|]; [left; lia|]. right. by rewrite lookup_delete_ne. }
  assert (Hb1 : rcv_base hist g c1).
  { split; cbn.
    - intros n d Hd. apply lookup_delete_Some in Hd as [_ Hd]. by apply (ri_cache _ _ _ Hb).
    - rewrite Hw. lia.
    - rewrite Hw, app_assoc, (ri_data _ _ _ Hb). replace (Z.to_nat (recvNext c + 1)) with (S (Z.to_nat (recvNext c))) by lia.
      destruct Hh as [_ Hh]. rewrite En in Hh. rewrite (take_S_r _ _ _ Hh), concat_app. cbn. by rewrite app_nil_r.
    - eapply Forall_impl; [exact (ri_acks _ _ _ Hb)|]. intros a. apply Hrec. }
  cbn [snd]. destruct (IH c1 Hlen) as [Hi Hm]; [|done|].
  - unfold c1. cbn. rewrite map_size_delete, Es. cbn. lia.
  - split; [done|]. eapply rcv_mono_trans; [|exact Hm]. split; [unfold c1; cbn; lia|done].
Qed.

Lemma deliver_spec hist g c :
  len hist < 2 ^ 32 -> rcv_base hist g c -> rcv_inv hist g (deliverLocked c) /\ rcv_mono c (deliverLocked c).
Proof.
  intros Hlen Hb. unfold deliverLocked.
  destruct (deliver_loop_spec hist g (size (recvCache c)) c Hlen (le_n _) Hb) as [H1 H2].
  destruct (deliver_loop (size (recvCache c)) c) as [b c']. cbn in H1, H2. destruct b; [|done]. split.
  - eapply rcv_inv_sub; [|exact H1]. done.
  - eapply rcv_mono_trans; [exact H2|]. by apply rcv_mono_sub.
Qed.

Lemma inputData_rcv hist g c d now :
  len hist < 2 ^ 32 -> holds hist d -> rcv_inv hist g c ->
  rcv_inv hist g (inputData c d now) /\ rcv_mono c (inputData c d now).
Proof.
  intros Hlen Hh [Hb Hg]. unfold inputData. set (c1 := processSendingNextLocked _ _).
  assert (H1 : rcv_sub c c1).
  { eapply rcv_sub_trans; [apply (rcv_sub_handleOption c (d_option d) now)|apply rcv_sub_processSendingNext]. }
  pose proof (rcv_base_sub _ _ _ _ H1 Hb) as Hb1.
  set (c2 := if _ <? _ then _ else c1). assert (H2 : rcv_base hist g c2 /\ rcv_mono c1 c2).
  { unfold c2. destruct (_ <? _); [|split; [done|by apply rcv_mono_sub]]. cbn.
    destruct (recvCache c1 !! d_number d) as [x|] eqn:Ex.
    - split; [|split; [cbn; lia|done]]. destruct Hb1 as [A1 A2 A3 A4]. split; cbn; [done..|].
      apply Forall_app. split; [done|]. constructor; [|done]. right. cbn. by rewrite Ex.
    - assert (Hrec : forall n, received c1 n -> received (set_recv (set_acks c1 (ackList c1 ++ [mkItem (d_number d) (d_timestamp d) 0]) true)
                (readBuf c1) (<[d_number d := d]> (recvCache c1)) (recvNext c1)) n).
      { intros n [?|[y Hy]]; [by left|]. right. cbn. destruct (decide (n = d_number d)) as [->|]; [by rewrite lookup_insert_eq|].
        rewrite lookup_insert_ne by done. by rewrite Hy. }
      split; [|split; [cbn; lia|done]]. destruct Hb1 as [A1 A2 A3 A4]. split; cbn; [|done|done|].
      + intros n x Hx. apply lookup_insert_Some in Hx as [[<- <-]|[_ Hx]]; [done|by apply A1].
      + apply Forall_app. split; [eapply Forall_impl; [exact A4|]; intros a; apply Hrec|]. constructor; [|done].
        right. cbn. by rewrite lookup_insert_eq. }
  destruct H2 as [Hb2 Hm2]. destruct (deliver_spec hist g c2 Hlen Hb2) as [Hi Hm]. split; [done|].
  eapply rcv_mono_trans; [by apply rcv_mono_sub|]. by eapply rcv_mono_trans.
Qed.

Lemma input_loop_rcv hist g segs now : forall c wake term,
  len hist < 2 ^ 32 -> (forall d, SegData d ∈ segs -> holds hist d) -> rcv_inv hist g c ->
  rcv_inv hist g (input_loop c segs now wake term).1.1 /\ rcv_mono c (input_loop c segs now wake term).1.1.
Proof.
  induction segs as [|s segs IH]; intros c wake term Hlen Hs Hi; cbn; [split; [done|by apply rcv_mono_sub]|].
  destruct (negb _); [split; [done|by apply rcv_mono_sub]|].
  assert (Hr : forall d, SegData d ∈ segs -> holds hist d) by (intros d Hd; apply Hs; by right).
  assert (Hnext : forall c1 w t, rcv_inv hist g c1 /\ rcv_mono c c1 ->
    rcv_inv hist g (input_loop c1 segs now w t).1.1 /\ rcv_mono c (input_loop c1 segs now w t).1.1).
  { intros c1 w t [H1 M1]. destruct (IH c1 w t Hlen Hr H1) as [H2 M2]. split; [done|by eapply rcv_mono_trans]. }
  assert (Hsub : forall c1, rcv_sub c c1 -> rcv_inv hist g c1 /\ rcv_mono c c1).
  { intros c1 H1. split; [by eapply rcv_inv_sub|by apply rcv_mono_sub]. }
  destruct s as [d|a|m].
  - apply Hnext, inputData_rcv; [done|apply Hs; by left|done].
  - pose proof (rcv_sub_inputAck c a now) as H1. destruct (inputAck c a now) as [c1 w]. apply Hnext. by apply Hsub.
  - pose proof (rcv_sub_inputCmd c m now) as H1. destruct (inputCmd c m now) as [c1 t]. apply Hnext. by apply Hsub.
Qed.

Lemma Input_rcv hist g c segs now :
  len hist < 2 ^ 32 -> (forall d, SegData d ∈ segs -> holds hist d) -> rcv_inv hist g c ->
  rcv_inv hist g (Input c segs now) /\ rcv_mono c (Input c segs now).
Proof.
  intros Hlen Hs Hi. unfold Input. destruct segs as [|s0 l0]; [split; [done|by apply rcv_mono_sub]|].
  case_bool_decide; [split; [done|by apply rcv_mono_sub]|].
  destruct (input_loop_rcv hist g (s0 :: l0) now (set_clock c now (lastPing c)) false false Hlen Hs) as [H1 M1].
  { eapply rcv_inv_sub; [|exact Hi]. done. }
  destruct (input_loop _ _ _ _ _) as [[c1 w] t]. cbn [fst snd] in H1, M1.
  set (c2 := if w then wakeFlush c1 else c1). assert (H2 : rcv_sub c1 c2) by (unfold c2; by destruct w).
  set (c3 := if t then terminate c2 now else c2).
  assert (H3 : rcv_sub c1 c3).
  { eapply rcv_sub_trans; [exact H2|]. unfold c3. destruct t; [apply rcv_sub_terminate|done]. }
  split; [by eapply rcv_inv_sub|]. eapply rcv_mono_trans; [exact M1|]. by apply rcv_mono_sub.
Qed.

(** What the user reads leaves the buffer. *)
Definition read_bytes (o : readOutcome) : bytes := match o with ReadData b => b | _ => [] end.

Lemma Read_rcv hist g c n :
  rcv_inv hist g c -> rcv_inv hist (g ++ read_bytes (Read c n).1) (Read c n).2 /\ rcv_mono c (Read c n).2 /\
  snd_same c (Read c n).2.
Proof.
  intros [[H1 H2 H3 H4] Hg]. unfold Read. destruct (readBuf c) as [|b0 r0] eqn:Eb.
  - destruct (_ || _); cbn; rewrite app_nil_r; (split; [|split; [by apply rcv_mono_sub|done]]);
      (split; [|done]); split; try done; by rewrite Eb.
  - split; [|split; [by split|done]]. split; [|done]. split; try done.
    cbn [readBuf wakeFlush set_recv set_notify read_bytes fst snd]. by rewrite <-app_assoc, take_drop.
Qed.

(** ** What a flush sends *)

(** A segment sent says what the connection holds. *)
Definition seg_emit (c : Conn) (s : segment) : Prop :=
  match s with
  | SegData d => exists d0, d0 ∈ sendWindow c /\ same_data d0 d
  | SegAck a => a_receivingNext a = recvNext c /\ Forall (fun n => n ∈ it_number <$> ackList c) (a_numberList a)
  | SegCmd m => c_receivingNext m = recvNext c
  end.

Lemma seg_emit_sub rcvd c c' s : rcv_sub c c' -> snd_ok rcvd c c' -> seg_emit c' s -> seg_emit c s.
Proof.
  intros Hr Hs. destruct s as [d|a|m]; cbn.
  - intros (d1 & H1 & E1 & E2). destruct (so_from _ _ _ Hs d1 H1) as (d0 & H0 & E3 & E4). exists d0. split; [done|].
    split; congruence.
  - intros [E Hl]. rewrite E. split; [apply (rs_next _ _ Hr)|]. eapply Forall_impl; [exact Hl|].
    intros n. apply (rs_acks _ _ Hr).
  - intros ->. apply (rs_next _ _ Hr).
Qed.

Lemma ackItems_spec c now (P : Z -> Prop) l : forall dn segs nums ts cands dirty,
  Forall P (it_number <$> l) -> Forall P nums -> Forall P cands ->
  Forall (fun s => exists ts nums, s = SegAck (newAckSegmentLocked c ts nums) /\ Forall P nums) segs ->
  let '(items, segs', nums', _, cands', _) := ackItems_loop c now l dn segs nums ts cands dirty in
  it_number <$> items = (it_number <$> dn) ++ (it_number <$> l) /\ Forall P nums' /\ Forall P cands' /\
  Forall (fun s => exists ts nums, s = SegAck (newAckSegmentLocked c ts nums) /\ Forall P nums) segs'.
Proof.
  induction l as [|it l IH]; intros dn segs nums ts cands dirty Hl Hn Hc Hs; cbn [ackItems_loop].
  { split_and!; [|done..]. cbn. by rewrite app_nil_r. }
  cbn in Hl. apply Forall_cons in Hl as [Hi Hl].
  assert (Hn' : Forall P (nums ++ [it_number it])) by (apply Forall_app; split; [done|by constructor]).
  assert (Ea : forall i, it_number i = it_number it ->
    (it_number <$> dn ++ [i]) ++ (it_number <$> l) = (it_number <$> dn) ++ (it_number <$> it :: l)).
  { intros i E. rewrite fmap_app, <-app_assoc. cbn. by rewrite E. }
  destruct (_ <? _).
  - specialize (IH (dn ++ [it]) segs nums ts (if len cands <? 128 then cands ++ [it_number it] else cands) dirty Hl Hn).
    destruct (ackItems_loop _ _ _ _ _ _ _ _ _) as [[[[[? ?] ?] ?] ?] ?]. rewrite Ea in IH by done. apply IH; [|done].
    destruct (_ <? _); [|done]. apply Forall_app. split; [done|by constructor].
  - set (ts' := if _ <? _ then _ else ts). set (it' := mkItem _ _ _). destruct (_ =? 128).
    + specialize (IH (dn ++ [it']) (segs ++ [SegAck (newAckSegmentLocked c ts' (nums ++ [it_number it]))]) [] 0 cands false Hl).
      destruct (ackItems_loop _ _ _ _ _ _ _ _ _) as [[[[[? ?] ?] ?] ?] ?]. rewrite Ea in IH by done.
      apply IH; [constructor|done|]. apply Forall_app. split; [done|]. constructor; [eauto|constructor].
    + specialize (IH (dn ++ [it']) segs (nums ++ [it_number it]) ts' cands dirty Hl Hn').
      destruct (ackItems_loop _ _ _ _ _ _ _ _ _) as [[[[[? ?] ?] ?] ?] ?]. rewrite Ea in IH by done. by apply IH.
Qed.

Lemma flushAcks_rcv c now :
  rcv_sub c (flushAcksLocked c now).2 /\ Forall (seg_emit c) (flushAcksLocked c now).1.
Proof.
  unfold flushAcksLocked. destruct (ackList c) as [|i0 l0] eqn:El; [split; done|]. rewrite <-El.
  pose proof (ackItems_spec c now (fun n => n ∈ it_number <$> ackList c) (ackList c) [] [] [] 0 [] (ackDirty c)) as Hs.
  destruct (ackItems_loop _ _ _ _ _ _ _ _ _) as [[[[[items segs] nums] ts] cands] dirty].
  destruct Hs as (Hi & Hn & Hc & Hs); [by apply Forall_forall|constructor..|].
  assert (Hsub : forall b, rcv_sub c (set_acks c items b)).
  { intros b. split; cbn; [done..|]. intros n. by rewrite Hi. }
  assert (Hsegs : Forall (seg_emit c) segs).
  { eapply Forall_impl; [exact Hs|]. intros s (t & ns & -> & Hns). by split. }
  destruct (_ || _); cbn [fst snd]; (split; [apply Hsub|]); [|done].
  apply Forall_app. split; [done|]. constructor; [|constructor]. split; [done|]. cbn. apply Forall_app. split; [done|].
  apply Forall_take. done.
Qed.

Lemma rcv_sub_flushSend c now : rcv_sub c (flushSendLocked c now).2.
Proof.
  unfold flushSendLocked. destruct (sendWindow c) as [|s0 l0].
  - by destruct (firstUnackedWasUpdated c).
  - destruct (send_loop _ _ _ _ _ _ _) as [[[[win segs] i] t] lo]. destruct (_ && _); [|done].
    cbn. unfold onPacketLossLocked. by destruct (_ =? 0).
Qed.

Lemma flushSend_emit c now : Forall (seg_emit c) (flushSendLocked c now).1.
Proof.
  unfold flushSendLocked. destruct (sendWindow c) as [|s0 l0] eqn:El.
  - destruct (firstUnackedWasUpdated c); cbn; by repeat constructor.
  - rewrite <-El. set (cw := w32 _). pose proof (send_loop_spec c now cw (sendWindow c) 0 (totalInFlightSize c) 0) as Hl.
    destruct (send_loop c now cw _ _ _ _) as [[[[win segs] i] t] lo]. destruct Hl as [_ H2]. cbn [fst].
    eapply Forall_impl; [exact H2|]. intros x (d0 & d & -> & Hd & Hs & _). cbn. eauto.
Qed.

(** A step of the connection's own: no loss on either side. *)
Definition own_step (c c' : Conn) : Prop := rcv_sub c c' /\ forall rcvd, snd_ok rcvd c c'.

Lemma own_refl c : own_step c c.
Proof. split; [apply rcv_sub_refl|intros; apply snd_ok_refl]. Qed.
Lemma own_trans c1 c2 c3 : own_step c1 c2 -> own_step c2 c3 -> own_step c1 c3.
Proof. intros [R1 S1] [R2 S2]. split; [by eapply rcv_sub_trans|]. intros r. eapply snd_ok_trans; eauto. Qed.
Lemma own_emit c c' s : own_step c c' -> seg_emit c' s -> seg_emit c s.
Proof. intros [Hr Hs]. by apply (seg_emit_sub (fun _ => True) c c'). Qed.
Lemma own_setState c s now : (retaining s = true -> retaining (state c) = true) -> own_step c (setStateLocked c s now).
Proof. intros Hs. split; [apply rcv_sub_setState|]. intros r. by apply snd_ok_setState. Qed.
Lemma own_terminate c now : own_step c (terminate c now).
Proof. split; [apply rcv_sub_terminate|]. intros r. apply snd_ok_terminate. Qed.
Lemma own_clock c i p : own_step c (set_clock c i p).
Proof. split; [done|]. intros r. by apply snd_ok_eq. Qed.
Lemma own_wake c : own_step c (wakeFlush c).
Proof. split; [done|]. intros r. by apply snd_ok_eq. Qed.
#[export] Hint Resolve own_refl own_terminate own_clock own_wake : ntr.

Lemma own_flushAcks c now : own_step c (flushAcksLocked c now).2.
Proof. split; [apply flushAcks_rcv|]. intros r. apply snd_same_ok, flushAcks_snd. Qed.
Lemma own_flushSend c now : own_step c (flushSendLocked c now).2.
Proof. split; [apply rcv_sub_flushSend|]. intros r. apply flushSend_spec. Qed.

(** A flush: nothing is lost, and everything sent is what the connection holds. *)
Lemma flush_ok c now : own_step c (flush c now).2 /\ Forall (seg_emit c) (flush c now).1.
Proof.
  unfold flush. case_bool_decide; [split; [apply own_refl|done]|].
  set (c1 := if _ && _ then setStateLocked c _ _ else c).
  assert (H1 : own_step c c1).
  { unfold c1. destruct (bool_decide (state c = stateActive)) eqn:E; cbn [andb]; [|apply own_refl].
    destruct (_ <=? _); [|apply own_refl]. apply own_setState. apply bool_decide_eq_true in E. by rewrite E. }
  clearbody c1. set (c2 := if _ && _ then setStateLocked c1 _ _ else c1).
  assert (H2 : own_step c c2).
  { eapply own_trans; [exact H1|]. unfold c2. destruct (_ && _); [by apply own_setState|apply own_refl]. }
  clearbody c2. case_bool_decide.
  { assert (He : Forall (seg_emit c) [(pingSegmentLocked c2 commandTerminate now).1]).
    { constructor; [|constructor]. by apply (own_emit c c2). }
    cbn [pingSegmentLocked]. destruct (_ <? _); cbn [fst snd]; (split; [|exact He]); (eapply own_trans; [exact H2|]).
    - eapply own_trans; [|apply own_terminate]. eapply own_trans; [apply own_clock|by apply own_setState].
    - apply own_clock. }
  set (c3 := if _ && _ then setStateLocked c2 _ _ else c2).
  assert (H3 : own_step c c3).
  { eapply own_trans; [exact H2|]. unfold c3. destruct (_ && _); [by apply own_setState|apply own_refl]. }
  clearbody c3. set (c4 := if _ && _ then setStateLocked c3 _ _ else c3).
  assert (H4 : own_step c c4).
  { eapply own_trans; [exact H3|]. unfold c4. destruct (_ && _); [by apply own_setState|apply own_refl]. }
  clearbody c4. pose proof (own_flushAcks c4 now) as Ha. destruct (flushAcks_rcv c4 now) as [_ Ea].
  destruct (flushAcksLocked c4 now) as [acks c5]. cbn [fst snd] in Ha, Ea.
  pose proof (own_trans _ _ _ H4 Ha) as H5. pose proof (own_flushSend c5 now) as Hs. pose proof (flushSend_emit c5 now) as Es.
  destruct (flushSendLocked c5 now) as [datas c6]. cbn [fst snd] in Hs, Es. pose proof (own_trans _ _ _ H5 Hs) as H6.
  set (p := if _ <=? _ then _ else ([], c6)).
  assert (H7 : own_step c p.2 /\ Forall (seg_emit c) p.1).
  { unfold p. destruct (_ <=? _); cbn; [|done]. split; [eapply own_trans; [exact H6|apply own_clock]|].
    constructor; [|done]. by apply (own_emit c c6). }
  destruct p as [pings c7]. destruct H7 as [H7 Ep]. cbn [fst snd] in *. split.
  - case_bool_decide; [|done]. eapply own_trans; [exact H7|apply own_terminate].
  - rewrite !Forall_app. split_and!; [| |done]; eapply Forall_impl; eauto using own_emit.
Qed.

Lemma Close_ok c now : own_step c (Close c now).2.
Proof.
  unfold Close. destruct (state c) eqn:E; cbn [snd]; try apply own_refl.
  - eapply own_trans; [|apply own_wake]. apply own_setState. by rewrite E.
  - eapply own_trans; [|apply own_wake]. by apply own_setState.
  - eapply own_trans; [|apply own_terminate]. eapply own_trans; [|apply own_wake]. by apply own_setState.
Qed.
