(* ===== verification/KcpNet.v ===== *)
(** * mKCP: two connections over a network that loses, repeats, delays and reorders

    A peer is a connection with what its user wrote and read so far and every segment it
    ever sent. The network may hand any segments of the other peer, in any order, any
    number of times or never, to [Input]; clocks are arbitrary. The invariant relates one
    peer's sending side to the other's receiving side, in both directions. *)
From S2P Require Import Prelude GoStd KcpSegment KcpSegmentSpec KcpConn KcpConnSpec.
From Stdlib Require Import Init.Byte.

Record peer := mkPeer {
  pc : Conn;
  sent : list segment;       (* every segment written to the network *)
  hist : list bytes;         (* the chunks [Write] accepted *)
  got : bytes;               (* the bytes [Read] returned *)
}.

Inductive action :=
| AWrite (b : bytes)
| ARead (n : nat)
| AClose (now : Z)
| AInput (segs : list segment) (now : Z)
| AFlush (now : Z)
| ATerminate (now : Z).

Definition act (p : peer) (a : action) : peer :=
  match a with
  | AWrite b =>
      let '(o, c) := writeChunk (pc p) b in
      mkPeer c (sent p) (match o with WriteOk => hist p ++ [b] | _ => hist p end) (got p)
  | ARead n => let '(o, c) := Read (pc p) n in mkPeer c (sent p) (hist p) (got p ++ read_bytes o)
  | AClose now => mkPeer (Close (pc p) now).2 (sent p) (hist p) (got p)
  | AInput segs now => mkPeer (Input (pc p) segs now) (sent p) (hist p) (got p)
  | AFlush now => let '(out, c) := flush (pc p) now in mkPeer c (sent p ++ out) (hist p) (got p)
  | ATerminate now => mkPeer (terminate (pc p) now) (sent p) (hist p) (got p)
  end.

(** What the network may deliver: segments of the other peer, as they read off the wire. *)
Definition deliverable (other : peer) (a : action) : Prop :=
  match a with
  | AInput segs _ => Forall (fun s => exists s0, s0 ∈ sent other /\ s = on_wire s0) segs
  | _ => True
  end.

Inductive step : peer * peer -> peer * peer -> Prop :=
| step_left p q a : deliverable q a -> step (p, q) (act p a, q)
| step_right p q a : deliverable p a -> step (p, q) (p, act q a).

Definition fresh (c : Conn) : peer := mkPeer c [] [] [].

(** Two connections just made, and everything reachable from them. *)
Inductive reachable : peer * peer -> Prop :=
| reach_init g1 g2 cv1 cv2 o1 o2 c1 c2 :
    newConn g1 cv1 o1 = Some c1 -> newConn g2 cv2 o2 = Some c2 -> reachable (fresh c1, fresh c2)
| reach_step w w' : reachable w -> step w w' -> reachable w'.

(** ** The invariant *)

(** [half s r]: the direction from [s] to [r]. *)
Record half (s r : peer) : Prop := {
  h_next : sendNext (pc s) = len (hist s);
  h_window : forall d, d ∈ sendWindow (pc s) -> holds (hist s) d;
  h_sent : forall d, SegData d ∈ sent s -> holds (hist s) d;
  h_rcv : rcv_inv (hist s) (got r) (pc r);
  h_honest : forall x, x ∈ sent r -> seg_honest (received (pc r)) x;
  h_kept : retaining (state (pc s)) = true -> forall n, 0 <= n < len (hist s) ->
    received (pc r) n \/ exists d, d ∈ sendWindow (pc s) /\ d_number d = n;
}.

Lemma rcv_inv_app hs p g c : rcv_inv hs g c -> rcv_inv (hs ++ [p]) g c.
Proof.
  intros [[H1 H2 H3 H4] Hg]. split; [|done]. split.
  - intros n d Hd. destruct (H1 n d Hd). split; [done|by apply holds_app].
  - unfold len in *. rewrite length_app. cbn. lia.
  - rewrite take_app_le by (unfold len in *; lia). done.
  - done.
Qed.

Lemma seg_honest_mono (P Q : Z -> Prop) x : (forall n, P n -> Q n) -> seg_honest P x -> seg_honest Q x.
Proof.
  intros Hpq. destruct x as [d|a|m]; cbn; [done| |].
  - intros [H1 H2]. split; [eapply Forall_impl; [exact H1|auto]|auto].
  - auto.
Qed.

Lemma seg_honest_wire P x : seg_honest P x -> seg_honest P (on_wire x).
Proof. by destruct x. Qed.

(** The receiver moved on, the sender did not. *)
Lemma half_receiver s r r' :
  half s r -> rcv_inv (hist s) (got r') (pc r') -> rcv_mono (pc r) (pc r') ->
  (forall x, x ∈ sent r' -> x ∈ sent r \/ seg_honest (received (pc r')) x) -> half s r'.
Proof.
  intros [H1 H2 H3 H4 H5 H6] Hi [Hm Hmono] Hs. split; try done.
  - intros x Hx. destruct (Hs x Hx) as [Hx'|Hx']; [|done]. eapply seg_honest_mono; [exact Hmono|by apply H5].
  - intros Hret n Hn. destruct (H6 Hret n Hn) as [?|?]; [left; auto|by right].
Qed.

(** The sender moved on, nothing new was written. *)
Lemma half_sender s s' r :
  half s r -> hist s' = hist s -> snd_ok (received (pc r)) (pc s) (pc s') ->
  (forall d, SegData d ∈ sent s' -> SegData d ∈ sent s \/ holds (hist s) d) -> half s' r.
Proof.
  intros [H1 H2 H3 H4 H5 H6] Eh [Hn Hf Hk] Hs. split; rewrite ?Eh; try done.
  - by rewrite Hn.
  - intros d' Hd'. destruct (Hf d' Hd') as (d & Hd & E). apply (holds_same _ d); [done|by apply H2].
  - intros d Hd. destruct (Hs d Hd); auto.
  - intros Hret n Hnn. destruct (Hk Hret) as [Hr0 Hk']. destruct (H6 Hr0 n Hnn) as [?|(d & Hd & E)]; [by left|].
    destruct (Hk' d Hd) as [?|(d' & Hd' & E' & _)]; [left; congruence|]. right. exists d'. split; [done|congruence].
Qed.

Lemma half_nonneg s r : half s r -> nonneg_window (pc s).
Proof. intros H d Hd. by apply (h_window _ _ H). Qed.

Lemma Read_snd c n : snd_same c (Read c n).2.
Proof. unfold Read. destruct (readBuf c); [|done]. by destruct (_ || _). Qed.

(** Every action of the sender keeps the direction. *)
Lemma half_act_sender s r a :
  half s r -> deliverable r a -> len (hist (act s a)) < 2 ^ 32 -> half (act s a) r.
Proof.
  intros H Hd Hlen. assert (Hown : forall c, own_step (pc s) c -> forall g, half (mkPeer c (sent s) (hist s) g) r).
  { intros c [_ Hs] g. apply (half_sender s _ r H); [done|apply Hs|]. intros d Hx. by left. }
  destruct a as [b|n|now|segs now|now|now]; cbn [act] in *.
  - unfold writeChunk in *. destruct (bool_decide (state (pc s) = stateActive)) eqn:Ea; cbn [negb] in *;
      [|apply Hown, own_refl].
    destruct (_ <=? _); [|apply Hown, own_refl]. cbn [hist] in Hlen. pose proof (h_next _ _ H) as Hn.
    unfold len in Hlen. rewrite length_app in Hlen. cbn in Hlen. pose proof (len_nonneg (hist s)) as Hpos.
    assert (El : len (hist s ++ [b]) = len (hist s) + 1) by (unfold len; rewrite length_app; cbn; lia).
    destruct H as [H1 H2 H3 H4 H5 H6]. split; cbn.
    + rewrite Hn, El. apply w32_small. unfold in_u32, len in *. lia.
    + intros d [Hx|Hx%list_elem_of_singleton]%elem_of_app; [by apply holds_app, H2|]. subst d.
      split; cbn; [lia|]. rewrite Hn. unfold len. rewrite Nat2Z.id, lookup_app_r, Nat.sub_diag by lia. done.
    + intros d Hx. by apply holds_app, H3.
    + by apply rcv_inv_app.
    + done.
    + intros _ n Hn2. rewrite El in Hn2. destruct (decide (n = len (hist s))) as [->|].
      * right. exists (mkData 0 0 0 (sendNext (pc s)) 0 b 0 0). split; [|done]. apply elem_of_app. right. by left.
      * destruct (H6) with (n := n) as [?|(d & Hx & E)]; [by apply bool_decide_eq_true in Ea; rewrite Ea|lia|by left|].
        right. exists d. split; [|done]. apply elem_of_app. by left.
  - pose proof (Read_snd (pc s) n) as Hs. destruct (Read (pc s) n) as [o c]. apply (half_sender s _ r H); [done|by apply snd_same_ok|]. intros d Hx. by left.
  - apply Hown, Close_ok.
  - apply (half_sender s _ r H); [done| |by left]. cbn. apply snd_ok_Input; [|by eapply half_nonneg].
    cbn in Hd. eapply Forall_impl; [exact Hd|]. intros x (x0 & Hx & ->). apply seg_honest_wire. by apply (h_honest _ _ H).
  - destruct (flush_ok (pc s) now) as [[_ Hs] He]. destruct (flush (pc s) now) as [out c]. cbn [fst snd] in *.
    apply (half_sender s _ r H); [done|apply Hs|]. cbn. intros d [?|Hx]%elem_of_app; [by left|]. right.
    rewrite Forall_forall in He. destruct (He _ Hx) as (d0 & Hd0 & E). apply (holds_same _ d0); [done|].
    by apply (h_window _ _ H).
  - apply Hown, own_terminate.
Qed.

(** Every action of the receiver keeps the direction. *)
Lemma half_act_receiver s r a :
  half s r -> deliverable s a -> len (hist s) < 2 ^ 32 -> half s (act r a).
Proof.
  intros H Hd Hlen. pose proof (h_rcv _ _ H) as Hi.
  assert (Hown : forall c, rcv_sub (pc r) c -> forall h, half s (mkPeer c (sent r) h (got r))).
  { intros c Hs h. apply (half_receiver s r); [done|by eapply rcv_inv_sub|by apply rcv_mono_sub|by left]. }
  destruct a as [b|n|now|segs now|now|now]; cbn [act].
  - unfold writeChunk. destruct (negb _); [by apply Hown|]. destruct (_ <=? _); by apply Hown.
  - destruct (Read_rcv _ _ _ n Hi) as (H1 & H2 & _). destruct (Read (pc r) n) as [o c].
    apply (half_receiver s r); [done..|by left].
  - apply Hown, Close_ok.
  - cbn in Hd. destruct (Input_rcv (hist s) (got r) (pc r) segs now Hlen) as [H1 H2]; [|done|].
    + intros d Hx. rewrite Forall_forall in Hd. destruct (Hd _ Hx) as (x0 & Hx0 & E). destruct x0 as [d0|a0|m0]; try done.
      injection E as ->. apply (holds_same _ d0); [done|by apply (h_sent _ _ H)].
    + apply (half_receiver s r); [done..|by left].
  - destruct (flush_ok (pc r) now) as [[Hs _] He]. destruct (flush (pc r) now) as [out c]. cbn [fst snd] in *.
    assert (Hi' : rcv_inv (hist s) (got r) c) by (by eapply rcv_inv_sub).
    apply (half_receiver s r); [done|done|by apply rcv_mono_sub|]. cbn. intros x [?|Hx]%elem_of_app; [by left|]. right.
    rewrite Forall_forall in He. specialize (He x Hx). destruct x as [d|a|m]; cbn in He |- *; [done| |].
    + destruct He as [En Hl]. split.
      * eapply Forall_impl; [exact Hl|]. intros n (i & -> & Hin)%list_elem_of_fmap. rewrite (received_sub (pc r) c) by done.
        destruct Hi as [[_ _ _ Ha] _]. rewrite Forall_forall in Ha. by apply Ha.
      * intros n Hn. rewrite (received_sub (pc r) c) by done. left. lia.
    + intros n Hn. rewrite (received_sub (pc r) c) by done. left. lia.
  - apply Hown. apply rcv_sub_terminate.
Qed.

Lemma hist_mono p a : len (hist p) <= len (hist (act p a)).
Proof.
  destruct a; cbn [act]; try (cbn; lia).
  - destruct (writeChunk (pc p) b) as [o c]. destruct o; cbn; try lia. unfold len. rewrite length_app. lia.
  - by destruct (Read (pc p) n).
  - by destruct (flush (pc p) now).
Qed.

Lemma half_fresh g1 g2 cv1 cv2 o1 o2 c1 c2 :
  newConn g1 cv1 o1 = Some c1 -> newConn g2 cv2 o2 = Some c2 -> half (fresh c1) (fresh c2).
Proof.
  unfold newConn. destruct (sizes_panic g1); [done|]. destruct (sizes_panic g2); [done|]. intros [= <-] [= <-].
  split; cbn; try (by intros ? ?%not_elem_of_nil); [done|..].
  - split; [|done]. split; cbn; [|done..]. intros n d. by rewrite lookup_empty.
  - intros _ n Hn. unfold len in Hn. cbn in Hn. lia.
Qed.

(** Both directions hold in every reachable world, until a side has written 2^32 chunks. *)
Lemma reachable_half w : reachable w -> len (hist w.1) < 2 ^ 32 -> len (hist w.2) < 2 ^ 32 ->
  half w.1 w.2 /\ half w.2 w.1.
Proof.
  induction 1 as [g1 g2 cv1 cv2 o1 o2 c1 c2 E1 E2|w w' Hr IH Hst]; intros L1 L2.
  - split; [by eapply half_fresh|by eapply half_fresh].
  - destruct Hst as [p q a Hd|p q a Hd]; cbn [fst snd] in *.
    + pose proof (hist_mono p a). destruct IH as [Ha Hb]; [lia..|]. split; [by apply half_act_sender|by apply half_act_receiver].
    + pose proof (hist_mono q a). destruct IH as [Ha Hb]; [lia..|]. split; [by apply half_act_receiver|by apply half_act_sender].
Qed.

(** [Write] cuts a buffer into non-empty chunks of at most [mss] bytes that concatenate to
    it: one round per chunk, so the length is enough fuel. *)
Lemma chunks_spec m fuel : forall b, (0 < m)%nat -> (length b <= fuel)%nat ->
  concat (chunks fuel m b) = b /\ Forall (fun k => 0 < length k <= m)%nat (chunks fuel m b).
Proof.
  induction fuel as [|fuel IH]; intros b Hm Hl; destruct b as [|x b]; cbn [chunks concat]; try done; [cbn in Hl; lia|].
  destruct (IH (drop m (x :: b)) Hm) as [H1 H2]; [rewrite length_drop; cbn in *; lia|]. split.
  - by rewrite H1, take_drop.
  - constructor; [|done]. rewrite length_take. cbn. lia.
Qed.

(** ** Theorems *)

(** [C3] mKCP delivers a reliable byte stream over an unreliable network: whatever the
    network loses, repeats, delays or reorders and whatever the clocks say, the bytes one
    user has read, followed by the bytes waiting in the read buffer, are the concatenation
    of the first chunks the other user wrote, in order and without gaps or repeats, as many
    as the receiver's next number says, and so a prefix of everything written (as long as
    neither side has written 2^32 chunks). *)
Theorem delivery_prefix p q :
  reachable (p, q) -> len (hist p) < 2 ^ 32 -> len (hist q) < 2 ^ 32 ->
  got q ++ readBuf (pc q) = concat (take (Z.to_nat (recvNext (pc q))) (hist p)) /\
  exists rest, concat (hist p) = got q ++ readBuf (pc q) ++ rest.
Proof.
  intros Hr L1 L2. destruct (reachable_half _ Hr L1 L2) as [[_ _ _ [Hb _] _ _] _]. cbn in Hb.
  pose proof (ri_data _ _ _ Hb) as Hd. split; [done|]. exists (concat (drop (Z.to_nat (recvNext (pc q))) (hist p))).
  by rewrite app_assoc, Hd, <-concat_app, take_drop.
Qed.

(** When every number below [n] is received and none waits in the cache before a gap, all
    of them were delivered. *)
Lemma all_received hs g c :
  rcv_inv hs g c -> (forall n, 0 <= n < len hs -> received c n) -> recvNext c = len hs.
Proof.
  intros [Hb Hg] Hall. pose proof (ri_next _ _ _ Hb) as Hn. destruct (decide (recvNext c = len hs)); [done|].
  destruct (Hall (recvNext c)) as [?|[x Hx]]; [lia..|]. congruence.
Qed.

(** [C8] Graceful close loses nothing: as long as a connection is active or closing
    gracefully ([stateReadyToClose]), an empty send window means that the peer has
    everything: what its user read plus its read buffer is all that was written. So the
    step of [flush] from [stateReadyToClose] to [stateTerminating] on an empty window
    comes only after full delivery. *)
Theorem drained_means_delivered p q :
  reachable (p, q) -> len (hist p) < 2 ^ 32 -> len (hist q) < 2 ^ 32 ->
  (state (pc p) = stateActive \/ state (pc p) = stateReadyToClose) -> sendWindow (pc p) = [] ->
  got q ++ readBuf (pc q) = concat (hist p).
Proof.
  intros Hr L1 L2 Hst Hw. destruct (reachable_half _ Hr L1 L2) as [[_ _ _ Hi _ Hk] _]. cbn in Hi, Hk.
  assert (En : recvNext (pc q) = len (hist p)).
  { eapply all_received; [exact Hi|]. intros n Hn. destruct (Hk) with (n := n) as [?|(d & Hd & _)]; [|done|done|].
    - by destruct Hst as [-> | ->].
    - rewrite Hw in Hd. by apply not_elem_of_nil in Hd. }
  destruct Hi as [Hb _]. rewrite (ri_data _ _ _ Hb), En. unfold len. rewrite Nat2Z.id, take_ge by lia. done.
Qed.

Module Examples.

(** A script: who acts; the network hands over the segments at some positions of what the
    other side sent. *)
Inductive entry := Do (left : bool) (a : action) | Net (left : bool) (idx : list nat) (now : Z).

Definition pick (l : list segment) (idx : list nat) : list segment :=
  on_wire <$> omap (fun i => l !! i) idx.

Definition play (w : peer * peer) (e : entry) : peer * peer :=
  let '(p, q) := w in
  match e with
  | Do true (AInput _ _) | Do false (AInput _ _) => w
  | Do true a => (act p a, q)
  | Do false a => (p, act q a)
  | Net true idx now => (act p (AInput (pick (sent q) idx) now), q)
  | Net false idx now => (p, act q (AInput (pick (sent p) idx) now))
  end.

Lemma pick_deliverable other idx now : deliverable other (AInput (pick (sent other) idx) now).
Proof.
  cbn. apply Forall_forall. intros s (s0 & -> & Hs)%list_elem_of_fmap.
  apply list_elem_of_omap in Hs as (i & _ & Hi). exists s0. split; [by eapply list_elem_of_lookup_2|done].
Qed.

Lemma reachable_play l : forall w, reachable w -> reachable (fold_left play l w).
Proof.
  induction l as [|e l IH]; intros w Hw; cbn; [done|]. apply IH. destruct w as [p q]. destruct e as [left a|left idx now].
  - destruct left, a; cbn [play]; (exact Hw || (eapply reach_step; [exact Hw|]; (by apply step_left) || (by apply step_right))).
  - destruct left; cbn [play]; (eapply reach_step; [exact Hw|]).
    + apply step_left, pick_deliverable.
    + apply step_right, pick_deliverable.
Qed.

Definition defaults : Config := mkConfig 0 0 0 0 false 0 0.
Definition start : Conn := default (mkConn defaults 0 0 0 0 0 0 0 stateTerminated 0 0 0 [] ∅ 0 [] false [] 0 0 0 0 0 false 0 0 false true)
  (newConn defaults 7 6).

Lemma start_reachable : reachable (fresh start, fresh start).
Proof. by apply (reach_init defaults defaults 7 7 6 6 start start). Qed.

(** Three chunks; the network delivers the third and the first, twice, then all. *)
Definition script : list entry :=
  [Do true (AWrite [x01; x02]); Do true (AWrite [x03]); Do true (AWrite [x04; x05]); Do true (AFlush 100);
   Net false [2; 0; 0]%nat 120; Do false (ARead 1); Do false (AFlush 130); Net false [1; 2; 1]%nat 140; Do false (ARead 9);
   Do false (AFlush 200)].
Definition world : peer * peer := fold_left play script (fresh start, fresh start).

Lemma world_reads : got world.2 = [x01; x02; x03; x04; x05] /\ length (sent world.1) = 3%nat.
Proof. vm_compute. done. Qed.

Lemma delivery_prefix_witness :
  reachable world /\ got world.2 ++ readBuf (pc world.2) = concat (take (Z.to_nat (recvNext (pc world.2))) (hist world.1)) /\
  exists rest, concat (hist world.1) = got world.2 ++ readBuf (pc world.2) ++ rest.
Proof.
  assert (Hr : reachable world) by (apply reachable_play, start_reachable). split; [exact Hr|].
  apply (delivery_prefix world.1 world.2); [|vm_compute; done..]. destruct world. exact Hr.
Defined.

(** The acknowledgements come back, the sender closes with an empty window. *)
Definition script2 : list entry := script ++ [Net true [1; 0; 2]%nat 220; Do true (AClose 230)].
Definition world2 : peer * peer := fold_left play script2 (fresh start, fresh start).

Lemma drained_means_delivered_witness :
  state (pc world2.1) = stateReadyToClose /\ sendWindow (pc world2.1) = [] /\
  got world2.2 ++ readBuf (pc world2.2) = concat (hist world2.1).
Proof.
  assert (Hr : reachable world2) by (apply reachable_play, start_reachable).
  split; [vm_compute; done|]. split; [vm_compute; done|].
  apply (drained_means_delivered world2.1 world2.2); [|vm_compute; done|vm_compute; done|right; vm_compute; done|vm_compute; done].
  destruct world2. exact Hr.
Defined.

End Examples.
