(* ===== verification/KcpClose.v ===== *)
(** * mKCP: the life of a connection ends

    The states only advance; once a connection is closed, flushes past the two time limits
    ([flush]'s 15 and 8 seconds) terminate it whatever else happens in between. *)
From S2P Require Import Prelude GoStd KcpSegment KcpSegmentSpec KcpConn KcpConnSpec KcpNet.
From Stdlib Require Import Init.Byte.

Definition rank (s : connState) : Z :=
  match s with
  | stateActive => 0
  | statePeerClosed => 1
  | stateReadyToClose | statePeerTerminating => 2
  | stateTerminating => 3
  | stateTerminated => 4
  end.

(** An operation at time [now] leaves the state and its starting time, or moves on. *)
Definition evolves (now : Z) (c c' : Conn) : Prop :=
  (state c' = state c /\ stateBegin c' = stateBegin c) \/
  (rank (state c) < rank (state c') /\ stateBegin c' = now).

Lemma evolves_refl now c : evolves now c c.
Proof. by left. Qed.
Lemma evolves_same now c c' : state c' = state c -> stateBegin c' = stateBegin c -> evolves now c c'.
Proof. by left. Qed.
Lemma evolves_trans now c1 c2 c3 : evolves now c1 c2 -> evolves now c2 c3 -> evolves now c1 c3.
Proof.
  intros [[E1 B1]|[R1 B1]] [[E2 B2]|[R2 B2]].
  - left. split; congruence.
  - right. by rewrite E1 in R2.
  - right. rewrite E2. split; [done|congruence].
  - right. split; [lia|done].
Qed.

Lemma evolves_set now c s : rank (state c) < rank s -> evolves now c (setStateLocked c s now).
Proof.
  intros Hr. unfold setStateLocked. case_bool_decide as E; [by left|]. right. by destruct s.
Qed.
#[export] Hint Resolve evolves_refl : ntr.

Lemma set_state_eq c s now : state (setStateLocked c s now) = s.
Proof. unfold setStateLocked. case_bool_decide; [done|]. by destruct s. Qed.

Lemma evolves_terminate now c : evolves now c (terminate c now).
Proof.
  unfold terminate. destruct (terminated c); [by left|].
  eapply evolves_trans; [|by apply evolves_same]. unfold setStateLocked. case_bool_decide; [by left|].
  right. cbn. split; [|done]. destruct (state c) eqn:E; cbn; try lia. done.
Qed.

Lemma evolves_handleOption now c o : evolves now c (handleOptionLocked c o now).
Proof.
  unfold handleOptionLocked. destruct (_ =? _); [|by left].
  destruct (state c) eqn:E; try (by left); apply evolves_set; rewrite E; done.
Qed.

(** The operations that do not touch the state. *)
Definition same_state (c c' : Conn) : Prop :=
  state c' = state c /\ stateBegin c' = stateBegin c /\ terminated c' = terminated c.

Lemma ss_trans c1 c2 c3 : same_state c1 c2 -> same_state c2 c3 -> same_state c1 c3.
Proof. intros (? & ? & ?) (? & ? & ?). split_and!; congruence. Qed.
Lemma ss_evolves now c c' : same_state c c' -> evolves now c c'.
Proof. intros (? & ? & _). by apply evolves_same. Qed.
Lemma ss_processSendingNext c n : same_state c (processSendingNextLocked c n).
Proof. unfold processSendingNextLocked. by destruct (ackList c). Qed.
Lemma ss_processReceivingNext c n : same_state c (processReceivingNextLocked c n).
Proof. unfold processReceivingNextLocked. by destruct (negb _). Qed.
Lemma ss_processAck c n : same_state c (processAckLocked c n).2.
Proof. unfold processAckLocked. destruct (_ || _); [done|]. by destruct (removeSeg n (sendWindow c)). Qed.
Lemma ss_ack_loop l : forall c m b, same_state c (ack_loop c l m b).1.1.
Proof.
  induction l as [|n l IH]; intros c m b; cbn; [done|]. pose proof (ss_processAck c n) as Hp.
  destruct (processAckLocked c n) as [r c']. destruct (m <? n); (eapply ss_trans; [exact Hp|apply IH]).
Qed.
Lemma ss_updateRTT c r now : same_state c (updateRTTLocked c r now).
Proof. unfold updateRTTLocked. destruct (_ <? _); [done|]. by destruct (srtt c =? 0). Qed.
Lemma ss_fastAck c n : same_state c (handleFastAckLocked c n).
Proof. unfold handleFastAckLocked. by destruct (_ =? 0). Qed.
Lemma ss_peerRTO c r now : same_state c (updatePeerRTOLocked c r now).
Proof. unfold updatePeerRTOLocked. by destruct (_ || _). Qed.
Lemma ss_deliver_loop fuel : forall c, same_state c (deliver_loop fuel c).2.
Proof.
  induction fuel as [|fuel IH]; intros c; cbn; [done|]. destruct (recvCache c !! recvNext c) as [s|]; [|done].
  cbn. apply (IH (set_recv c _ _ _)).
Qed.
Lemma ss_deliver c : same_state c (deliverLocked c).
Proof.
  unfold deliverLocked. pose proof (ss_deliver_loop (size (recvCache c)) c) as Hd.
  destruct (deliver_loop _ c) as [b c']. by destruct b.
Qed.
Lemma ss_flushAcks c now : same_state c (flushAcksLocked c now).2.
Proof.
  unfold flushAcksLocked. destruct (ackList c); [done|].
  destruct (ackItems_loop _ _ _ _ _ _ _ _ _) as [[[[[items segs] nums] ts] cands] dirty]. by destruct (_ || _).
Qed.
Lemma ss_flushSend c now : same_state c (flushSendLocked c now).2.
Proof.
  unfold flushSendLocked. destruct (sendWindow c) as [|s0 l0].
  - by destruct (firstUnackedWasUpdated c).
  - destruct (send_loop _ _ _ _ _ _ _) as [[[[win segs] i] t] lo]. destruct (_ && _); [|done].
    cbn. unfold onPacketLossLocked. by destruct (_ =? 0).
Qed.

(** [done] is closed exactly in the last state, between operations. *)
Definition done_ok (c : Conn) : Prop := terminated c = bool_decide (state c = stateTerminated).

Lemma terminated_set c s now : terminated (setStateLocked c s now) = terminated c.
Proof. unfold setStateLocked. case_bool_decide; [done|]. by destruct s. Qed.
Lemma terminated_handleOption c o now : terminated (handleOptionLocked c o now) = terminated c.
Proof.
  unfold handleOptionLocked. destruct (_ =? _); [|done]. destruct (state c); try done; apply terminated_set.
Qed.

Lemma done_ok_same c c' : same_state c c' -> done_ok c -> done_ok c'.
Proof. intros (E1 & _ & E3). unfold done_ok. by rewrite E1, E3. Qed.
Lemma done_ok_set c s now : s <> stateTerminated -> state c <> stateTerminated -> done_ok c -> done_ok (setStateLocked c s now).
Proof.
  intros Hs Hc. unfold done_ok. rewrite terminated_set, set_state_eq, !bool_decide_eq_false_2 by done. done.
Qed.
Lemma done_ok_terminate c now : (terminated c = true -> state c = stateTerminated) -> done_ok (terminate c now).
Proof.
  intros Hc. unfold terminate, done_ok. destruct (terminated c) eqn:E.
  - rewrite E, Hc, bool_decide_eq_true_2; done.
  - cbn. by rewrite set_state_eq, bool_decide_eq_true_2.
Qed.

(** An incoming segment: the state moves on, and reaches the last one only by asking for
    termination. *)
Record in_ok (now : Z) (c c' : Conn) (term : bool) : Prop := {
  io_evolves : evolves now c c';
  io_done : terminated c' = terminated c;
  io_last : state c' = stateTerminated -> state c = stateTerminated \/ term = true;
}.

Lemma in_ok_same now c c' t : same_state c c' -> in_ok now c c' t.
Proof. intros Hs. split; [by apply ss_evolves|apply Hs|]. destruct Hs as (-> & _). by left. Qed.
Lemma in_ok_trans now c1 c2 c3 t1 t2 : in_ok now c1 c2 t1 -> in_ok now c2 c3 t2 -> in_ok now c1 c3 (t1 || t2).
Proof.
  intros [A1 B1 C1] [A2 B2 C2]. split; [by eapply evolves_trans|congruence|].
  intros H3. destruct (C2 H3) as [H2|H2]; [|rewrite H2, orb_true_r; by right].
  destruct (C1 H2) as [?|H1]; [by left|rewrite H1; by right].
Qed.
Lemma in_ok_weaken now c c' t t' : in_ok now c c' t -> (t = true -> t' = true) -> in_ok now c c' t'.
Proof. intros [A B C] Ht. split; [done..|]. intros Hs. destruct (C Hs); auto. Qed.

Lemma in_ok_handleOption now c o : in_ok now c (handleOptionLocked c o now) false.
Proof.
  split; [apply evolves_handleOption|apply terminated_handleOption|].
  unfold handleOptionLocked. destruct (_ =? _); [|by left].
  destruct (state c) eqn:E; rewrite ?set_state_eq, ?E; auto; done.
Qed.

Lemma in_ok_data now c d : in_ok now c (inputData c d now) false.
Proof.
  unfold inputData. set (c0 := handleOptionLocked c _ now). set (c1 := processSendingNextLocked _ _).
  eapply (in_ok_trans _ _ c0 _ false false); [apply in_ok_handleOption|]. apply in_ok_same.
  apply (ss_trans _ c1); [apply ss_processSendingNext|]. set (c2 := if _ <? _ then _ else c1).
  apply (ss_trans _ c2); [|apply ss_deliver]. unfold c2. destruct (_ <? _); [|done]. cbn. by destruct (recvCache c1 !! _).
Qed.

Lemma in_ok_ack now c a : in_ok now c (inputAck c a now).1 false.
Proof.
  unfold inputAck. set (c1 := handleOptionLocked c _ now). set (c2 := if _ <? _ then set_windows _ _ _ _ else c1).
  eapply (in_ok_trans _ _ c1 _ false false); [apply in_ok_handleOption|]. apply in_ok_same.
  set (c3 := processReceivingNextLocked c2 _).
  assert (H3 : same_state c1 c3).
  { apply (ss_trans _ c2); [unfold c2; by destruct (_ <? _)|apply ss_processReceivingNext]. }
  destruct (a_numberList a) as [|n0 l0]; [exact H3|].
  pose proof (ss_ack_loop (n0 :: l0) c3 0 false) as H4. destruct (ack_loop c3 (n0 :: l0) 0 false) as [[c4 m] b].
  cbn in H4 |- *. eapply ss_trans; [exact H3|]. eapply ss_trans; [exact H4|]. destruct b; [|done].
  eapply ss_trans; [apply (ss_fastAck c4 m)|]. destruct (_ <? 10000); [apply ss_updateRTT|done].
Qed.

Lemma in_ok_cmd now c m : in_ok now c (inputCmd c m now).1 (inputCmd c m now).2.
Proof.
  unfold inputCmd. set (c1 := handleOptionLocked c _ now).
  set (p := if c_cmd m =? commandTerminate then _ else (c1, false)).
  assert (H2 : in_ok now c p.1 p.2).
  { apply (in_ok_trans _ _ c1 _ false p.2); [apply in_ok_handleOption|]. unfold p. destruct (_ =? _); [|by apply in_ok_same].
    destruct (state c1) eqn:E1; cbn; try (by apply in_ok_same);
      (split; [apply evolves_set; by rewrite E1|apply terminated_set|rewrite set_state_eq; by right]). }
  destruct p as [c2 t]. cbn in H2 |- *. apply (in_ok_weaken _ _ _ (t || false)); [|by rewrite orb_false_r].
  eapply in_ok_trans; [exact H2|]. apply in_ok_same.
  set (c3 := processReceivingNextLocked c2 (c_receivingNext m)). apply (ss_trans _ c3); [apply ss_processReceivingNext|].
  set (c4 := processSendingNextLocked c3 (c_sendingNext m)). apply (ss_trans _ c4); [apply ss_processSendingNext|].
  eapply ss_trans; [apply (ss_peerRTO c4 (c_peerRTO m) now)|]. by destruct (_ || _).
Qed.

Lemma in_ok_loop now segs : forall c w t, 
  in_ok now c (input_loop c segs now w t).1.1 (input_loop c segs now w t).2.
Proof.
  assert (Hm : forall segs c w t, t = true -> (input_loop c segs now w t).2 = true).
  { induction segs0 as [|s segs0 IH]; intros c w t Ht; cbn; [done|]. destruct (negb _); [done|]. destruct s as [d|a|m].
    - by apply IH.
    - destruct (inputAck c a now). by apply IH.
    - destruct (inputCmd c m now). apply IH. by rewrite Ht. }
  induction segs as [|s segs IH]; intros c w t; cbn; [by apply in_ok_same|]. destruct (negb _); [by apply in_ok_same|].
  destruct s as [d|a|m].
  - apply (in_ok_trans _ _ _ _ false _ (in_ok_data now c d)), IH.
  - pose proof (in_ok_ack now c a) as H1. destruct (inputAck c a now) as [c1 w1]. apply (in_ok_trans _ _ _ _ false _ H1), IH.
  - pose proof (in_ok_cmd now c m) as H1. destruct (inputCmd c m now) as [c1 t1]. cbn in H1.
    apply (in_ok_weaken _ _ _ (t1 || (input_loop c1 segs now w (t || t1)).2)); [eapply in_ok_trans; [exact H1|apply IH]|].
    destruct t1; cbn; [|done]. intros _. apply Hm. apply orb_true_r.
Qed.

(** Every operation: the state moves on, and [done] stays right. *)
Definition lives (now : Z) (c c' : Conn) : Prop := evolves now c c' /\ (done_ok c -> done_ok c').

Lemma lives_trans now c1 c2 c3 : lives now c1 c2 -> lives now c2 c3 -> lives now c1 c3.
Proof. intros [] []. split; [by eapply evolves_trans|auto]. Qed.
Lemma lives_same now c c' : same_state c c' -> lives now c c'.
Proof. intros Hs. split; [by apply ss_evolves|by apply done_ok_same]. Qed.
Lemma lives_set now c s : s <> stateTerminated -> rank (state c) < rank s -> lives now c (setStateLocked c s now).
Proof.
  intros Hs Hr. split; [by apply evolves_set|]. apply done_ok_set; [done|]. intros E. rewrite E in Hr. cbn in Hr.
  destruct s; cbn in Hr; lia.
Qed.
(** The last step: [terminate] after the state is set. *)
Lemma lives_last now c c1 : evolves now c c1 -> (done_ok c -> terminated c1 = true -> state c1 = stateTerminated) ->
  lives now c (terminate c1 now).
Proof.
  intros He Ht. split; [eapply evolves_trans; [exact He|apply evolves_terminate]|].
  intros Hd. apply done_ok_terminate. by apply Ht.
Qed.
Lemma lives_terminate now c : lives now c (terminate c now).
Proof.
  apply lives_last; [apply evolves_refl|]. unfold done_ok. intros E H1. rewrite H1 in E.
  symmetry in E. by apply bool_decide_eq_true in E.
Qed.

Lemma Input_lives now c segs : lives now c (Input c segs now).
Proof.
  unfold Input. destruct segs as [|s0 l0]; [by apply lives_same|]. case_bool_decide as Et; [by apply lives_same|].
  set (c0 := set_clock c now (lastPing c)). pose proof (in_ok_loop now (s0 :: l0) c0 false false) as H1.
  destruct (input_loop c0 _ _ _ _) as [[c1 w] t]. cbn [fst snd] in H1. set (c2 := if w then wakeFlush c1 else c1).
  assert (H2 : in_ok now c c2 t).
  { apply (in_ok_weaken _ _ _ (false || (t || false))); [|by rewrite orb_false_r].
    apply (in_ok_trans _ _ c0); [by apply in_ok_same|]. apply (in_ok_trans _ _ c1); [done|].
    apply in_ok_same. unfold c2. by destruct w. }
  destruct H2 as [He Hd Hl]. destruct t.
  - apply lives_last; [done|]. unfold done_ok. intros E H3. rewrite Hd, E in H3. by apply bool_decide_eq_true in H3.
  - split; [done|]. unfold done_ok. rewrite Hd. intros ->. rewrite !bool_decide_eq_false_2; [done| |done].
    intros E. by destruct (Hl E).
Qed.

Lemma Close_lives now c : lives now c (Close c now).2.
Proof.
  unfold Close. destruct (state c) eqn:E; cbn [snd]; try (by apply lives_same).
  - eapply lives_trans; [apply (lives_set now c stateReadyToClose); [done|by rewrite E]|by apply lives_same].
  - eapply lives_trans; [apply (lives_set now c stateTerminating); [done|by rewrite E]|by apply lives_same].
  - apply lives_last.
    + eapply evolves_trans; [apply (evolves_set now c stateTerminated); by rewrite E|by apply evolves_same].
    + intros _ _. cbn. apply set_state_eq.
Qed.

Lemma flush_lives now c : lives now c (flush c now).2.
Proof.
  unfold flush. case_bool_decide as E0; [by apply lives_same|].
  set (c1 := if _ && _ then setStateLocked c _ _ else c).
  assert (H1 : lives now c c1).
  { unfold c1. case_bool_decide as E; cbn [andb]; [|by apply lives_same]. destruct (_ <=? _); [|by apply lives_same].
    apply lives_set; [done|by rewrite E]. }
  clearbody c1. set (c2 := if _ && _ then setStateLocked c1 _ _ else c1).
  assert (H2 : lives now c c2).
  { eapply lives_trans; [exact H1|]. unfold c2. case_bool_decide as E; cbn [andb]; [|by apply lives_same].
    case_bool_decide; [|by apply lives_same]. apply lives_set; [done|by rewrite E]. }
  clearbody c2. case_bool_decide as E2.
  { cbn [pingSegmentLocked]. set (c3 := set_clock c2 _ now). destruct (_ <? _); cbn [snd].
    - eapply lives_trans; [exact H2|]. apply lives_last.
      + eapply evolves_trans; [apply (evolves_same now c2 c3)|apply evolves_set]; try done. cbn. by rewrite E2.
      + intros _ _. apply set_state_eq.
    - eapply lives_trans; [exact H2|by apply lives_same]. }
  set (c3 := if _ && _ then setStateLocked c2 _ _ else c2).
  assert (H3 : lives now c c3).
  { eapply lives_trans; [exact H2|]. unfold c3. case_bool_decide as E; cbn [andb]; [|by apply lives_same].
    destruct (_ <? _); [|by apply lives_same]. apply lives_set; [done|by rewrite E]. }
  clearbody c3. set (c4 := if _ && _ then setStateLocked c3 _ _ else c3).
  assert (H4 : lives now c c4).
  { eapply lives_trans; [exact H3|]. unfold c4. case_bool_decide as E; cbn [andb]; [|by apply lives_same].
    destruct (_ <? _); [|by apply lives_same]. apply lives_set; [done|by rewrite E]. }
  clearbody c4. pose proof (ss_flushAcks c4 now) as Ha. destruct (flushAcksLocked c4 now) as [acks c5].
  pose proof (ss_flushSend c5 now) as Hs. destruct (flushSendLocked c5 now) as [datas c6]. cbn [snd] in Ha, Hs.
  set (p := if _ <=? _ then _ else ([], c6)).
  assert (H7 : lives now c p.2).
  { eapply lives_trans; [exact H4|]. apply lives_same. apply (ss_trans _ c6); [by eapply ss_trans|].
    unfold p. by destruct (_ <=? _). }
  destruct p as [pings c7]. cbn [snd] in *. case_bool_decide; [|done].
  eapply lives_trans; [exact H7|apply lives_terminate].
Qed.

(** ** Time *)

(** The times an action may read are between two bounds. *)
Definition within (lo hi : Z) (a : action) : Prop :=
  match a with
  | AClose now | AInput _ now | AFlush now | ATerminate now => lo <= now <= hi
  | _ => True
  end.

Lemma act_lives p a lo hi : within lo hi a -> exists now, (lo <= hi -> lo <= now <= hi) /\ lives now (pc p) (pc (act p a)).
Proof.
  destruct a as [b|n|now|segs now|now|now]; cbn [within act]; intros Hw.
  - exists lo. split; [lia|]. apply lives_same. unfold writeChunk. destruct (negb _); [done|]. by destruct (_ <=? _).
  - exists lo. split; [lia|]. apply lives_same. unfold Read. destruct (readBuf (pc p)); [|done]. by destruct (_ || _).
  - exists now. split; [done|apply Close_lives].
  - exists now. split; [done|apply Input_lives].
  - exists now. split; [done|]. pose proof (flush_lives now (pc p)). by destruct (flush (pc p) now).
  - exists now. split; [done|apply lives_terminate].
Qed.

Definition run (p : peer) (l : list action) : peer := fold_left act l p.

(** After any actions within the bounds, either nothing moved, or the state moved on and
    began within the bounds. *)
Lemma run_lives l lo hi : lo <= hi -> forall p, Forall (within lo hi) l ->
  (done_ok (pc p) -> done_ok (pc (run p l))) /\
  ((state (pc (run p l)) = state (pc p) /\ stateBegin (pc (run p l)) = stateBegin (pc p)) \/
   (rank (state (pc p)) < rank (state (pc (run p l))) /\ lo <= stateBegin (pc (run p l)) <= hi)).
Proof.
  intros Hle. induction l as [|a l IH]; intros p Hf; cbn [run fold_left]; [by split; [|left]|].
  apply Forall_cons in Hf as [Ha Hl]. destruct (act_lives p a lo hi Ha) as (now & Hn & He & Hd).
  destruct (IH (act p a) Hl) as [Hd' Ht]. change (fold_left act l (act p a)) with (run (act p a) l). split; [auto|].
  destruct Ht as [[E1 B1]|[R1 B1]]; destruct He as [[E2 B2]|[R2 B2]].
  - left. split; congruence.
  - right. rewrite E1, B1, B2. auto.
  - right. rewrite E2 in R1. auto.
  - right. split; [lia|auto].
Qed.

(** Closing: at least as far as [stateTerminating], or waiting to drain since [t0]. *)
Definition ending (t1 : Z) (c : Conn) : Prop := 3 <= rank (state c) /\ 0 <= stateBegin c <= t1.
Definition draining (t0 : Z) (c : Conn) : Prop := state c = stateReadyToClose /\ 0 <= stateBegin c <= t0.

Lemma rank_last s : 3 <= rank s -> s = stateTerminating \/ s = stateTerminated.
Proof. destruct s; cbn; (lia || auto). Qed.
Lemma rank_max s : 3 < rank s -> s = stateTerminated.
Proof. destruct s; cbn; (lia || auto). Qed.

Lemma w32_elapsed t b : 0 <= b <= t -> t < 2 ^ 32 -> w32 (t - b) = t - b.
Proof. intros H1 H2. apply w32_small. unfold in_u32. lia. Qed.

Lemma Close_closing c t0 : 0 <= stateBegin c <= t0 ->
  draining t0 (Close c t0).2 \/ ending t0 (Close c t0).2.
Proof.
  intros Hb. destruct (Close_lives t0 c) as [He _]. unfold draining, ending.
  assert (Hbb : 0 <= stateBegin (Close c t0).2 <= t0) by (destruct He as [[_ ->]|[_ ->]]; lia).
  unfold Close in *. destruct (state c) eqn:E; cbn [snd] in *.
  - left. split; [|done]. cbn. apply set_state_eq.
  - left. done.
  - right. split; [|done]. cbn. rewrite set_state_eq. done.
  - right. split; [by rewrite E|done].
  - right. split; [|done]. unfold terminate. destruct (terminated _); cbn; rewrite ?set_state_eq; done.
  - right. split; [by rewrite E|done].
Qed.

(** A flush past the limit leaves [stateReadyToClose]. *)
Lemma flush_draining c t0 t1 : draining t0 c -> 15000 < t1 - t0 -> t1 < 2 ^ 32 -> ending t1 (flush c t1).2.
Proof.
  intros [Es Hb] Ht Hw. destruct (flush_lives t1 c) as [He _]. split.
  2:{ destruct He as [[_ ->]|[_ ->]]; lia. }
  destruct (decide (rank (state c) < rank (state (flush c t1).2))) as [Hr|Hr]; [rewrite Es in Hr; cbn in Hr; lia|exfalso].
  apply Hr. clear He Hr. unfold flush. rewrite Es. rewrite bool_decide_eq_false_2 by done.
  rewrite (bool_decide_eq_false_2 (stateReadyToClose = stateActive)) by done. cbn [andb].
  rewrite Es, (bool_decide_eq_true_2 (stateReadyToClose = stateReadyToClose)) by done. cbn [andb].
  destruct (bool_decide (sendWindow c = [])) eqn:Ew.
  - rewrite set_state_eq, bool_decide_eq_true_2 by done. cbn [pingSegmentLocked].
    destruct (_ <? _); cbn [snd].
    + unfold terminate. destruct (terminated _); cbn; rewrite ?set_state_eq; done.
    + cbn. rewrite set_state_eq. done.
  - rewrite Es. rewrite !(bool_decide_eq_false_2 (stateReadyToClose = _)) by done. cbn [andb]. rewrite Es.
    rewrite (bool_decide_eq_true_2 (stateReadyToClose = stateReadyToClose)) by done. cbn [andb].
    assert (w32 (t1 - stateBegin c) = t1 - stateBegin c) as -> by (apply w32_elapsed; lia).
    destruct (Z.ltb_spec 15000 (t1 - stateBegin c)); [|lia].
    set (c4 := setStateLocked c stateTerminating t1). assert (E4 : state c4 = stateTerminating) by apply set_state_eq.
    destruct (ss_flushAcks c4 t1) as [Ea _]. destruct (flushAcksLocked c4 t1) as [acks c5]. cbn [snd] in Ea.
    destruct (ss_flushSend c5 t1) as [Ef _]. destruct (flushSendLocked c5 t1) as [datas c6]. cbn [snd] in Ef.
    assert (E6 : state c6 = stateTerminating) by congruence.
    destruct (_ <=? _); cbn; rewrite E6, bool_decide_eq_false_2 by done; cbn; by rewrite E6.
Qed.

Lemma ending_flush c t1 t2 : ending t1 c -> t1 <= t2 -> ending t2 (flush c t2).2.
Proof.
  intros [Hr Hb] Hle. destruct (flush_lives t2 c) as [[[E1 E2]|[E1 E2]] _]; (split; [|lia]); [by rewrite E1|lia].
Qed.

(** A flush past the limit leaves [stateTerminating]. *)
Lemma flush_ending c t1 t2 : ending t1 c -> 8000 < t2 - t1 -> t2 < 2 ^ 32 -> state (flush c t2).2 = stateTerminated.
Proof.
  intros [Hr Hb] Ht Hw. unfold flush. destruct (rank_last _ Hr) as [Es|Es]; rewrite Es.
  - rewrite !(bool_decide_eq_false_2 (stateTerminating = _)) by done. cbn [andb]. rewrite Es.
    rewrite !(bool_decide_eq_false_2 (stateTerminating = _)) by done. cbn [andb]. rewrite Es.
    rewrite bool_decide_eq_true_2 by done. cbn [pingSegmentLocked stateBegin set_clock].
    rewrite w32_elapsed by lia. destruct (Z.ltb_spec 8000 (t2 - stateBegin c)); [|lia]. cbn [snd].
    unfold terminate. destruct (terminated _); cbn; by rewrite ?set_state_eq.
  - by rewrite bool_decide_eq_true_2.
Qed.

Lemma run_closing l lo hi p : 0 <= lo <= hi -> Forall (within lo hi) l ->
  (ending lo (pc p) -> ending hi (pc (run p l))) /\
  (draining lo (pc p) -> draining lo (pc (run p l)) \/ ending hi (pc (run p l))).
Proof.
  intros Hle Hf. destruct (run_lives l lo hi ltac:(lia) p Hf) as [_ [[E1 E2]|[E1 E2]]]; unfold ending, draining.
  - rewrite E1, E2. split; intros [H1 H2]; [split; [done|lia]|by left].
  - split; intros [H1 H2]; [split; lia|]. right. rewrite H1 in E1. cbn in E1. lia.
Qed.

(** A connection already ending keeps the time it began, or is done. *)
Lemma run_ending l lo hi p : lo <= hi -> Forall (within lo hi) l -> ending lo (pc p) ->
  ending lo (pc (run p l)) \/ state (pc (run p l)) = stateTerminated.
Proof.
  intros Hle Hf [H1 H2]. destruct (run_lives l lo hi Hle p Hf) as [_ [[E1 E2]|[E1 E2]]].
  - left. unfold ending. by rewrite E1, E2.
  - right. apply rank_max. lia.
Qed.

(** [C9] Closing always ends: whatever state a connection is in when the user calls
    [Close] at [t0], and whatever is written, read, received or flushed in between, a
    flush more than 15 s after the close followed by a flush more than 8 s later leaves it
    terminated, with [done] closed (clock within its 2^32 ms). *)
Theorem close_terminates p t0 t1 t2 l1 l2 :
  done_ok (pc p) -> 0 <= stateBegin (pc p) <= t0 -> 15000 < t1 - t0 -> 8000 < t2 - t1 -> t2 < 2 ^ 32 ->
  Forall (within t0 t1) l1 -> Forall (within t1 t2) l2 ->
  let p' := run p ([AClose t0] ++ l1 ++ [AFlush t1] ++ l2 ++ [AFlush t2]) in
  state (pc p') = stateTerminated /\ terminated (pc p') = true.
Proof.
  intros Hd Hb Ht1 Ht2 Hw Hl1 Hl2. cbn zeta. set (l := [AClose t0] ++ l1 ++ [AFlush t1] ++ l2 ++ [AFlush t2]).
  assert (Hst : state (pc (run p l)) = stateTerminated).
  { unfold l, run. rewrite !fold_left_app. cbn [fold_left].
    set (p0 := act p (AClose t0)). change (fold_left act l1 p0) with (run p0 l1). set (p1 := run p0 l1).
    set (p2 := act p1 (AFlush t1)). change (fold_left act l2 p2) with (run p2 l2). set (p3 := run p2 l2).
    assert (H0 : draining t0 (pc p0) \/ ending t0 (pc p0)) by (by apply Close_closing).
    destruct (run_closing l1 t0 t1 p0 ltac:(lia) Hl1) as [Ha Hb1].
    assert (Hpc : forall q t, pc (act q (AFlush t)) = (flush (pc q) t).2) by (intros q t; cbn; by destruct (flush (pc q) t)).
    assert (H2 : ending t1 (pc p2)).
    { unfold p2. rewrite Hpc. destruct H0 as [H0|H0].
      - destruct (Hb1 H0) as [H1|H1]; [apply (flush_draining _ t0); (done || lia)|apply (ending_flush _ t1); (done || lia)].
      - apply (ending_flush _ t1); [by apply Ha|lia]. }
    rewrite Hpc. destruct (run_ending l2 t1 t2 p2 ltac:(lia) Hl2 H2) as [H3|H3]; [by apply (flush_ending _ t1)|].
    unfold flush. fold p3 in H3. by rewrite H3, bool_decide_eq_true_2. }
  split; [done|]. destruct (run_lives l t0 t2 ltac:(lia) p) as [Hdo _].
  { unfold l. rewrite !Forall_app, !Forall_singleton. cbn. split_and!; try lia; (eapply Forall_impl; [eassumption|]);
      intros [] ; cbn; lia. }
  specialize (Hdo Hd). unfold done_ok in Hdo. by rewrite Hdo, Hst, bool_decide_eq_true_2.
Qed.

(** A connection whose peer announced its close and went silent is never given up:
    in [statePeerClosed] no flush, however late, moves the state, because the idle limit
    is looked at only in [stateActive]; a [Read] on it keeps blocking. *)
Theorem peer_closed_never_expires c now n :
  state c = statePeerClosed -> readBuf c = [] ->
  state (flush c now).2 = statePeerClosed /\ (Read (flush c now).2 n).1 = ReadBlocked (readGen (flush c now).2).
Proof.
  intros Es Hr. assert (Hs : state (flush c now).2 = statePeerClosed).
  { unfold flush. rewrite !Es. rewrite !(bool_decide_eq_false_2 (statePeerClosed = _)) by done. cbn [andb].
    rewrite !Es. rewrite !(bool_decide_eq_false_2 (statePeerClosed = _)) by done. cbn [andb].
    rewrite !Es. rewrite !(bool_decide_eq_false_2 (statePeerClosed = _)) by done. cbn [andb].
    rewrite !Es. rewrite !(bool_decide_eq_false_2 (statePeerClosed = _)) by done. cbn [andb].
    destruct (ss_flushAcks c now) as [Ea _]. destruct (flushAcksLocked c now) as [acks c5]. cbn [snd] in Ea.
    destruct (ss_flushSend c5 now) as [Ef _]. destruct (flushSendLocked c5 now) as [datas c6]. cbn [snd] in Ef.
    assert (E6 : state c6 = statePeerClosed) by congruence.
    destruct (_ <=? _); cbn; rewrite E6, bool_decide_eq_false_2 by done; done. }
  split; [done|]. destruct (flush_ok c now) as [[Hsub _] _]. unfold Read. rewrite (rs_buf _ _ Hsub), Hr, Hs. done.
Qed.

Module Examples.

Definition start_peer : peer := fresh KcpNet.Examples.start.

Lemma close_terminates_witness :
  let p' := run start_peer ([AClose 40] ++ [AWrite [x01]; AFlush 50] ++ [AFlush 16000] ++ [AFlush 20000] ++ [AFlush 24100]) in
  state (pc p') = stateTerminated /\ terminated (pc p') = true.
Proof.
  apply (close_terminates start_peer 40 16000 24100 [AWrite [x01]; AFlush 50] [AFlush 20000]).
  - vm_compute. done.
  - vm_compute. split; congruence.
  - lia.
  - lia.
  - lia.
  - constructor; [exact I|]. constructor; [cbn; lia|constructor].
  - constructor; [cbn; lia|constructor].
Defined.

Definition closed_peer : Conn := setStateLocked KcpNet.Examples.start statePeerClosed 10.

Lemma peer_closed_never_expires_witness :
  state (flush closed_peer 4000000).2 = statePeerClosed /\
  (Read (flush closed_peer 4000000).2 8).1 = ReadBlocked (readGen (flush closed_peer 4000000).2).
Proof. apply (peer_closed_never_expires closed_peer 4000000 8); vm_compute; done. Defined.

End Examples.
