(* ===== verification/KcpWf.v ===== *)
(** * mKCP: well-formed connections

    Every field stays in the range of its Go type, the send window and the reassembly cache
    stay within the configured sizes, and every segment sent is one the wire format can
    carry, whatever bytes arrive from the network. *)
From S2P Require Import Prelude GoStd KcpSegment KcpSegmentSpec KcpConn KcpConnSpec KcpNet.
From Stdlib Require Import Init.Byte.

(** ** Segments off the wire are in range *)

Lemma u_at_range n i b : 0 <= u_at n i b < 256 ^ Z.of_nat n.
Proof.
  unfold u_at. pose proof (be_dec_range (take n (drop i b))) as Hr. split; [lia|].
  eapply Z.lt_le_trans; [apply Hr|]. apply Z.pow_le_mono_r; [lia|]. unfold len. rewrite length_take. lia.
Qed.

Lemma u_at_4 i b : in_u32 (u_at 4 i b).
Proof. exact (u_at_range 4 i b). Qed.

(** What [Input] relies on. *)
Definition seg_in (s : segment) : Prop :=
  match s with
  | SegData d => in_u32 (d_number d) /\ in_u32 (d_timestamp d)
  | SegAck a => True
  | SegCmd m => in_u32 (c_peerRTO m)
  end.

Lemma readSegment_in b s q : readSegment b = Some (s, q) -> seg_in s.
Proof.
  unfold readSegment. destruct (_ <? 4); [done|]. destruct (_ =? commandData).
  - destruct (_ <? 14); [done|]. destruct (_ <? _); [done|]. intros [= <- _]. split; apply u_at_4.
  - destruct (_ =? commandACK).
    + destruct (_ <? 13); [done|]. destruct (_ <? _); [done|]. destruct (readNumbers _ _). by intros [= <- _].
    + destruct (_ <? 12); [done|]. intros [= <- _]. apply u_at_4.
Qed.

Lemma packet_read_in `{AEAD} h b : Forall seg_in (packet_read h b).
Proof.
  unfold packet_read. destruct (_ <=? _)%nat; [done|]. destruct (_ <=? _)%nat; [done|].
  destruct (OpenSealed _ _) as [p|]; [|done]. generalize (length p). intros fuel. revert p.
  induction fuel as [|fuel IH]; intros p; cbn; [done|]. destruct p as [|x p]; [done|].
  destruct (readSegment (x :: p)) as [[s q]|] eqn:E; [|done]. constructor; [by eapply readSegment_in|apply IH].
Qed.

(** ** Well-formed connections *)

Definition win_ok (d : dataSegment) : Prop := in_u32 (d_number d) /\ len (d_payload d) < 65500.
Definition item_ok (a : ackItem) : Prop := in_u32 (it_number a) /\ in_u32 (it_timestamp a).

(** The conversation and the configuration are fixed when a connection is made. *)
Section well_formed.
Context (cv : Z) (g : Config).

Record conn_wf_at (c : Conn) : Prop := {
  w_id : conv c = cv /\ cfg c = g;
  w_conv : in_u16 (conv c);
  w_rto : in_u32 (rto c);
  w_recvNext : in_u32 (recvNext c);
  w_sendNext : in_u32 (sendNext c);
  w_first : in_u32 (firstUnacked c);
  w_window : Forall win_ok (sendWindow c);
  w_winlen : len (sendWindow c) <= sendingBufferSize (cfg c) + 1;
  w_acks : Forall item_ok (ackList c);
  w_cache : forall k d, recvCache c !! k = Some d ->
    in_u32 k /\ w32 (k - recvNext c) < receivingInFlightSize (cfg c);
  w_cfg : 0 <= sendingBufferSize (cfg c);
}.

(** Operations that touch none of these fields. *)
Definition wf_same (c c' : Conn) : Prop :=
  conv c' = conv c /\ rto c' = rto c /\ recvNext c' = recvNext c /\ sendNext c' = sendNext c /\
  firstUnacked c' = firstUnacked c /\ sendWindow c' = sendWindow c /\ cfg c' = cfg c /\ ackList c' = ackList c /\
  recvCache c' = recvCache c.

Lemma wf_eq c c' : wf_same c c' -> conn_wf_at c -> conn_wf_at c'.
Proof.
  intros (E1 & E2 & E3 & E4 & E5 & E6 & E7 & E8 & E9) []. by split; rewrite ?E1, ?E2, ?E3, ?E4, ?E5, ?E6, ?E7, ?E8, ?E9.
Qed.

(** A window that shrank or was restamped, and a valid first number. *)
Lemma wf_window c l first u :
  conn_wf_at c -> Forall win_ok l -> len l <= len (sendWindow c) -> in_u32 first -> conn_wf_at (set_send c l (sendNext c) first u).
Proof. intros [] H1 H2 H3. split; cbn; try done. lia. Qed.

Lemma wf_setState c s now : conn_wf_at c -> conn_wf_at (setStateLocked c s now).
Proof.
  intros H. unfold setStateLocked. case_bool_decide; [done|].
  assert (Hd : conn_wf_at (set_send c [] (sendNext c) (firstUnacked c) (firstUnackedWasUpdated c))).
  { apply wf_window; [done|done|apply len_nonneg|apply H]. }
  destruct s; (eapply wf_eq; [|exact H]; done) || (eapply wf_eq; [|exact Hd]; done).
Qed.

Lemma wf_terminate c now : conn_wf_at c -> conn_wf_at (terminate c now).
Proof.
  intros H. unfold terminate. destruct (terminated c); [done|].
  eapply wf_eq; [|exact (wf_setState c stateTerminated now H)]. done.
Qed.

Lemma wf_handleOption c o now : conn_wf_at c -> conn_wf_at (handleOptionLocked c o now).
Proof.
  intros H. unfold handleOptionLocked. destruct (_ =? _); [|done]. destruct (state c); try done; by apply wf_setState.
Qed.

Lemma wf_processSendingNext c n : conn_wf_at c -> conn_wf_at (processSendingNextLocked c n).
Proof.
  intros H. unfold processSendingNextLocked. destruct (ackList c) as [|a l] eqn:E; [done|]. rewrite <-E.
  destruct H. split; cbn; try done. apply Forall_forall. intros x Hx. apply list_elem_of_filter in Hx as [_ Hx].
  rewrite Forall_forall in w_acks0. auto.
Qed.

Lemma wf_findFirst c : conn_wf_at c -> conn_wf_at (findFirstUnackedLocked c).
Proof.
  intros H. unfold findFirstUnackedLocked. apply wf_window; [done|apply H|lia|]. pose proof (w_window _ H) as Hw.
  destruct (sendWindow c) as [|s l]; [apply H|]. apply Forall_cons in Hw as [[Hn _] _]. done.
Qed.

Lemma wf_processReceivingNext c n : conn_wf_at c -> conn_wf_at (processReceivingNextLocked c n).
Proof.
  intros H. unfold processReceivingNextLocked. set (f := filter _ (sendWindow c)). set (c1 := findFirstUnackedLocked _).
  assert (H1 : conn_wf_at c1).
  { apply wf_findFirst, wf_window; [done| | |apply H].
    - pose proof (w_window _ H) as Hw. rewrite Forall_forall in Hw |- *. intros d Hd. apply Hw.
      by apply list_elem_of_filter in Hd as [_ Hd].
    - unfold len. pose proof (length_filter (fun seg => ~ d_number seg < n) (sendWindow c)). unfold f. lia. }
  destruct (negb _); [|done]. eapply wf_eq; [|exact H1]. done.
Qed.

Lemma removeSeg_length n l l' : removeSeg n l = Some l' -> len l' <= len l.
Proof.
  revert l'. induction l as [|s l IH]; intros l'; cbn; [done|]. destruct (_ =? _).
  - intros [= <-]. unfold len. cbn. lia.
  - destruct (removeSeg n l) as [r|]; [|done]. cbn. intros [= <-]. specialize (IH r eq_refl). unfold len in *. cbn. lia.
Qed.

Lemma wf_processAck c n : conn_wf_at c -> conn_wf_at (processAckLocked c n).2.
Proof.
  intros H. unfold processAckLocked. destruct (_ || _); [done|]. destruct (removeSeg n (sendWindow c)) as [l|] eqn:E; [|done].
  cbn [snd]. set (c0 := set_windows _ _ _ _). assert (H0 : conn_wf_at c0) by (eapply wf_eq; [|exact H]; done).
  assert (H1 : conn_wf_at (set_send c0 l (sendNext c0) (firstUnacked c0) (firstUnackedWasUpdated c0))).
  { apply wf_window; [done| |by apply (removeSeg_length n)|apply H0]. apply removeSeg_incl in E as [Hi _].
    pose proof (w_window _ H) as Hw. rewrite Forall_forall in Hw |- *. auto. }
  eapply wf_eq; [|exact (wf_findFirst _ H1)]. done.
Qed.

Lemma wf_ack_loop l : forall c m b, conn_wf_at c -> conn_wf_at (ack_loop c l m b).1.1.
Proof.
  induction l as [|n l IH]; intros c m b H; cbn; [done|]. pose proof (wf_processAck c n H) as Hp.
  destruct (processAckLocked c n) as [r c']. destruct (m <? n); by apply IH.
Qed.

Lemma same_data_ok l l' : Forall2 same_data l l' -> Forall win_ok l -> Forall win_ok l'.
Proof.
  induction 1 as [|d d' l l' [E1 E2] Hl IH]; [done|]. intros [[Hn Hp] Hr]%Forall_cons. constructor; [|auto].
  split; [by rewrite <-E1|by rewrite <-E2].
Qed.

Lemma wf_restamp c l u : conn_wf_at c -> Forall2 same_data (sendWindow c) l -> conn_wf_at (set_send c l (sendNext c) (firstUnacked c) u).
Proof.
  intros H Hl. apply wf_window; [done|eapply same_data_ok; [exact Hl|apply H]| |apply H].
  unfold len. rewrite (Forall2_length _ _ _ Hl). lia.
Qed.

Lemma wf_fastAck c n : conn_wf_at c -> conn_wf_at (handleFastAckLocked c n).
Proof. intros H. unfold handleFastAckLocked. destruct (_ =? 0); [done|]. apply wf_restamp; [done|]. apply fastAck_data. Qed.

Lemma wf_timers c r v s u : conn_wf_at c -> in_u32 r -> conn_wf_at (set_timers c r v s u).
Proof. intros [] Hr. by split. Qed.

Lemma rto_bound r : 0 <= r -> in_u32 ((if 10000 <? r then 10000 else r) * 5 / 4).
Proof.
  intros Hr. unfold in_u32. destruct (Z.ltb_spec 10000 r); [vm_compute; split; congruence|].
  split; [apply Z.div_pos; lia|]. apply Z.div_lt_upper_bound; lia.
Qed.

Lemma wf_updateRTT c r now : conn_wf_at c -> conn_wf_at (updateRTTLocked c r now).
Proof.
  intros H. unfold updateRTTLocked. destruct (_ <? r); [done|]. destruct (if srtt c =? 0 then _ else _) as [v s].
  apply wf_timers; [done|]. apply rto_bound. destruct (_ <? _); apply w32_range.
Qed.

Lemma wf_peerRTO c r now : conn_wf_at c -> in_u32 r -> conn_wf_at (updatePeerRTOLocked c r now).
Proof. intros H Hr. unfold updatePeerRTOLocked. destruct (_ || _); [done|]. by apply wf_timers. Qed.

(** Moving the receive window by one keeps the cached numbers inside it. *)
Lemma w32_step k r F : in_u32 k -> in_u32 r -> k <> r -> w32 (k - r) < F -> w32 (k - w32 (r + 1)) < F.
Proof.
  intros Hk Hr Hne Hlt. unfold in_u32 in *. replace (w32 (k - w32 (r + 1))) with (w32 (k - (r + 1))).
  2:{ unfold w32. by rewrite Zminus_mod_idemp_r. }
  unfold w32 in *. destruct (Z.lt_ge_cases k r) as [Hlt2|Hge].
  - rewrite (Z.mod_eq (k - r)) in Hlt by lia. rewrite Z.mod_eq by lia.
    assert ((k - r) / 2 ^ 32 = -1) as E1 by (symmetry; apply (Z.div_unique _ _ _ (k - r + 2 ^ 32)); lia).
    assert ((k - (r + 1)) / 2 ^ 32 = -1) as E2 by (symmetry; apply (Z.div_unique _ _ _ (k - (r + 1) + 2 ^ 32)); lia).
    lia.
  - rewrite Z.mod_small in Hlt by lia. rewrite Z.mod_small by lia. lia.
Qed.

Lemma wf_deliver_loop fuel : forall c, conn_wf_at c -> conn_wf_at (deliver_loop fuel c).2.
Proof.
  induction fuel as [|fuel IH]; intros c H; cbn; [done|]. destruct (recvCache c !! recvNext c) as [s|] eqn:Es; [|done].
  cbn [snd]. apply IH. destruct H. split; cbn; try done; [apply w32_range|].
  intros k d [Hne Hk]%lookup_delete_Some. destruct (w_cache0 k d Hk) as [H1 H2]. split; [done|]. by apply w32_step.
Qed.

Lemma wf_deliver c : conn_wf_at c -> conn_wf_at (deliverLocked c).
Proof.
  intros H. unfold deliverLocked. pose proof (wf_deliver_loop (size (recvCache c)) c H) as Hd.
  destruct (deliver_loop _ c) as [b c']. destruct b; [|done]. eapply wf_eq; [|exact Hd]. done.
Qed.

Lemma wf_inputData c d now : seg_in (SegData d) -> conn_wf_at c -> conn_wf_at (inputData c d now).
Proof.
  intros [Hn Ht] H. unfold inputData. apply wf_deliver. set (c1 := processSendingNextLocked _ _).
  assert (H1 : conn_wf_at c1) by (by apply wf_processSendingNext, wf_handleOption). clearbody c1.
  destruct (Z.ltb_spec (w32 (d_number d - recvNext c1)) (receivingInFlightSize (cfg c1))); [|done].
  assert (H2 : conn_wf_at (set_acks c1 (ackList c1 ++ [mkItem (d_number d) (d_timestamp d) 0]) true)).
  { destruct H1. split; cbn; try done. apply Forall_app. split; [done|]. by constructor. }
  cbn. destruct (recvCache c1 !! d_number d); [done|]. destruct H2. split; cbn in *; try done.
  intros k x [[<- <-]|[_ Hk]]%lookup_insert_Some; [done|by apply (w_cache0 k x)].
Qed.

Lemma wf_inputAck c a now : conn_wf_at c -> conn_wf_at (inputAck c a now).1.
Proof.
  intros H. unfold inputAck. set (c1 := handleOptionLocked c _ now). assert (H1 : conn_wf_at c1) by (by apply wf_handleOption).
  set (c2 := if _ <? _ then set_windows _ _ _ _ else c1).
  assert (H2 : conn_wf_at c2) by (unfold c2; destruct (_ <? _); [eapply wf_eq; [|exact H1]; done|done]).
  set (c3 := processReceivingNextLocked c2 _). assert (H3 : conn_wf_at c3) by (by apply wf_processReceivingNext).
  destruct (a_numberList a) as [|n0 l0]; [exact H3|].
  pose proof (wf_ack_loop (n0 :: l0) c3 0 false H3) as H4. destruct (ack_loop c3 (n0 :: l0) 0 false) as [[c4 m] b].
  cbn in H4 |- *. destruct b; [|done]. pose proof (wf_fastAck c4 m H4). destruct (_ <? 10000); [by apply wf_updateRTT|done].
Qed.

Lemma wf_inputCmd c m now : seg_in (SegCmd m) -> conn_wf_at c -> conn_wf_at (inputCmd c m now).1.
Proof.
  intros Hm H. unfold inputCmd. set (c1 := handleOptionLocked c _ now). assert (H1 : conn_wf_at c1) by (by apply wf_handleOption).
  set (p := if c_cmd m =? commandTerminate then _ else (c1, false)).
  assert (H2 : conn_wf_at p.1).
  { unfold p. destruct (_ =? _); [|done]. destruct (state c1); cbn; try done; by apply wf_setState. }
  destruct p as [c2 t]. cbn in H2 |- *.
  assert (H3 : conn_wf_at (updatePeerRTOLocked (processSendingNextLocked (processReceivingNextLocked c2 (c_receivingNext m))
                 (c_sendingNext m)) (c_peerRTO m) now)).
  { by apply wf_peerRTO; [apply wf_processSendingNext, wf_processReceivingNext|]. }
  destruct (_ || _); [|done]. eapply wf_eq; [|exact H3]. done.
Qed.

Lemma wf_Input c segs now : Forall seg_in segs -> conn_wf_at c -> conn_wf_at (Input c segs now).
Proof.
  intros Hs H. unfold Input. destruct segs as [|s0 l0]; [done|]. case_bool_decide as Et; [done|].
  assert (Hl : forall segs, Forall seg_in segs -> forall c w t, conn_wf_at c -> conn_wf_at (input_loop c segs now w t).1.1).
  { clear. induction segs as [|s segs IH]; intros Hs c w t H; cbn; [done|]. apply Forall_cons in Hs as [Hs Hr].
    destruct (negb _); [done|]. destruct s as [d|a|m].
    - apply IH; [done|by apply wf_inputData].
    - pose proof (wf_inputAck c a now H). destruct (inputAck c a now). by apply IH.
    - pose proof (wf_inputCmd c m now Hs H). destruct (inputCmd c m now). by apply IH. }
  assert (H0 : conn_wf_at (set_clock c now (lastPing c))) by (eapply wf_eq; [|exact H]; done).
  specialize (Hl _ Hs _ false false H0). destruct (input_loop _ _ _ _ _) as [[c1 w] t]. cbn [fst] in Hl.
  set (c2 := if w then wakeFlush c1 else c1).
  assert (H2 : conn_wf_at c2) by (unfold c2; destruct w; [eapply wf_eq; [|exact Hl]; done|done]).
  destruct t; [by apply wf_terminate|done].
Qed.

(** ** What is sent fits the wire format *)

Lemma closing_option_range c : 0 <= closing_option c < 256.
Proof. unfold closing_option, segmentOptionClose. destruct (bool_decide _); lia. Qed.

Lemma wf_ping c cmd now : conn_wf_at c -> 2 <= cmd < 256 ->
  seg_wf (pingSegmentLocked c cmd now).1 /\ conn_wf_at (pingSegmentLocked c cmd now).2.
Proof.
  intros H Hc. split; [|eapply wf_eq; [|exact H]; done]. destruct H. cbn. pose proof (closing_option_range c). done.
Qed.

Lemma ackItems_wf c now l : forall dn segs nums ts cands dirty, conn_wf_at c ->
  Forall item_ok l -> Forall item_ok dn -> Forall seg_wf segs -> Forall in_u32 nums -> len nums < 128 -> in_u32 ts ->
  Forall in_u32 cands ->
  let '(items, segs', nums', ts', cands', _) := ackItems_loop c now l dn segs nums ts cands dirty in
  Forall item_ok items /\ Forall seg_wf segs' /\ Forall in_u32 nums' /\ len nums' < 128 /\ in_u32 ts' /\ Forall in_u32 cands'.
Proof.
  induction l as [|it l IH]; intros dn segs nums ts cands dirty H Hl Hd Hs Hn Hb Ht Hc; cbn [ackItems_loop]; [done|].
  apply Forall_cons in Hl as [[Hi1 Hi2] Hl].
  assert (Hdn : forall i, item_ok i -> Forall item_ok (dn ++ [i])) by (intros i Hi; apply Forall_app; by rewrite Forall_singleton).
  assert (Hn' : Forall in_u32 (nums ++ [it_number it])) by (apply Forall_app; by rewrite Forall_singleton).
  assert (Hln : len (nums ++ [it_number it]) = len nums + 1) by (unfold len; rewrite length_app; cbn; lia).
  destruct (_ <? _).
  - apply IH; try done; [by apply Hdn|]. destruct (_ <? _); [|done]. apply Forall_app. by rewrite Forall_singleton.
  - set (ts' := if _ <? _ then _ else ts). assert (Ht' : in_u32 ts') by (unfold ts'; by destruct (_ <? _)).
    destruct (Z.eqb_spec (len (nums ++ [it_number it])) 128) as [E|E].
    + apply IH; try done; [by apply Hdn|]. apply Forall_app. split; [done|]. rewrite Forall_singleton.
      pose proof (closing_option_range c). destruct H. cbn. split_and!; try done; try lia; apply w32_range.
    + apply IH; try done; [by apply Hdn|lia].
Qed.

Lemma wf_flushAcks c now : conn_wf_at c -> Forall seg_wf (flushAcksLocked c now).1 /\ conn_wf_at (flushAcksLocked c now).2.
Proof.
  intros H. unfold flushAcksLocked. destruct (ackList c) as [|i0 l0] eqn:El; [done|]. rewrite <-El.
  pose proof (ackItems_wf c now (ackList c) [] [] [] 0 [] (ackDirty c) H) as Hs.
  destruct (ackItems_loop _ _ _ _ _ _ _ _ _) as [[[[[items segs] nums] ts] cands] dirty].
  destruct Hs as (Hi & Hs & Hn & Hb & Ht & Hc); [apply H|done..|].
  assert (Ha : forall b, conn_wf_at (set_acks c items b)) by (intros b; destruct H; by split).
  destruct (_ || _); cbn [fst snd]; (split; [|apply Ha]); [|done].
  apply Forall_app. split; [done|]. rewrite Forall_singleton. pose proof (closing_option_range c). destruct H. cbn.
  split_and!; try done; try lia; try apply w32_range.
  - apply Forall_app. split; [done|by apply Forall_take].
  - unfold len in *. rewrite length_app, length_take. lia.
Qed.

Lemma wf_flushSend c now : in_u32 now -> conn_wf_at c ->
  Forall seg_wf (flushSendLocked c now).1 /\ conn_wf_at (flushSendLocked c now).2.
Proof.
  intros Hnow H. unfold flushSendLocked. destruct (sendWindow c) as [|s0 l0] eqn:El.
  - destruct (firstUnackedWasUpdated c); [|done]. set (c0 := set_send c [] _ _ false).
    assert (H0 : conn_wf_at c0) by (apply wf_window; [done|done|apply len_nonneg|apply H]).
    destruct (wf_ping c0 commandPing now H0) as [H1 H2]; [vm_compute; split; congruence|].
    destruct (pingSegmentLocked c0 commandPing now). cbn [fst snd] in *. split; [by constructor|done].
  - rewrite <-El. set (cw := w32 _). pose proof (send_loop_spec c now cw (sendWindow c) 0 (totalInFlightSize c) 0) as Hl.
    destruct (send_loop c now cw _ _ _ _) as [[[[win segs] i] t] lo]. destruct Hl as [H1 H2]. cbn [fst snd]. split.
    + eapply Forall_impl; [exact H2|]. intros x (d0 & d & -> & Hd & _ & ->). pose proof (w_window _ H) as Hw.
      rewrite Forall_forall in Hw. destruct (Hw d0 Hd). pose proof (closing_option_range c). destruct H. by split.
    + set (c1 := set_windows _ _ _ _).
      assert (Hc1 : conn_wf_at c1).
      { eapply wf_eq; [|exact (wf_restamp c win (firstUnackedWasUpdated c) H H1)]. done. }
      set (c2 := if _ && _ then _ else c1).
      assert (Hc2 : conn_wf_at c2).
      { unfold c2. destruct (_ && _); [|done]. unfold onPacketLossLocked. destruct (_ =? 0); [done|].
        eapply wf_eq; [|exact Hc1]. done. }
      apply wf_window; [done|apply Hc2|lia|apply Hc2].
Qed.

Lemma wf_flush c now : in_u32 now -> conn_wf_at c -> Forall seg_wf (flush c now).1 /\ conn_wf_at (flush c now).2.
Proof.
  intros Hnow H. unfold flush. case_bool_decide as E0; [done|].
  set (c1 := if _ && _ then setStateLocked c _ _ else c).
  assert (H1 : conn_wf_at c1) by (unfold c1; destruct (_ && _); [by apply wf_setState|done]). clearbody c1.
  set (c2 := if _ && _ then setStateLocked c1 _ _ else c1).
  assert (H2 : conn_wf_at c2) by (unfold c2; destruct (_ && _); [by apply wf_setState|done]). clearbody c2.
  case_bool_decide as E2.
  { destruct (wf_ping c2 commandTerminate now H2) as [Hp Hc]; [vm_compute; split; congruence|].
    destruct (pingSegmentLocked c2 commandTerminate now) as [s c3]. cbn [fst snd] in *.
    destruct (_ <? _); cbn [fst snd]; (split; [by constructor|]); [|done]. by apply wf_terminate, wf_setState. }
  set (c3 := if _ && _ then setStateLocked c2 _ _ else c2).
  assert (H3 : conn_wf_at c3) by (unfold c3; destruct (_ && _); [by apply wf_setState|done]). clearbody c3.
  set (c4 := if _ && _ then setStateLocked c3 _ _ else c3).
  assert (H4 : conn_wf_at c4) by (unfold c4; destruct (_ && _); [by apply wf_setState|done]). clearbody c4.
  destruct (wf_flushAcks c4 now H4) as [Ha H5]. destruct (flushAcksLocked c4 now) as [acks c5]. cbn [fst snd] in *.
  destruct (wf_flushSend c5 now Hnow H5) as [Hs H6]. destruct (flushSendLocked c5 now) as [datas c6]. cbn [fst snd] in *.
  set (p := if _ <=? _ then _ else ([], c6)).
  assert (H7 : Forall seg_wf p.1 /\ conn_wf_at p.2).
  { unfold p. destruct (_ <=? _); [|done]. destruct (wf_ping c6 commandPing now H6) as [Hp Hc]; [vm_compute; split; congruence|].
    destruct (pingSegmentLocked c6 commandPing now) as [s c7]. cbn [fst snd] in *. split; [by constructor|done]. }
  destruct p as [pings c7]. destruct H7 as [Hp H7]. cbn [fst snd] in *. split; [by rewrite !Forall_app|].
  case_bool_decide; [by apply wf_terminate|done].
Qed.

(** ** Every operation *)

(** What the environment may do: write chunks that fit a datagram, read clocks, and hand
    in the segments of any datagram at all. *)
Definition action_ok `{AEAD} (a : action) : Prop :=
  match a with
  | AWrite b => len b < 65500
  | ARead _ => True
  | AInput segs _ => exists h datagram, segs = packet_read h datagram
  | AClose now | AFlush now | ATerminate now => in_u32 now
  end.

Lemma wf_writeChunk c b : len b < 65500 -> conn_wf_at c -> conn_wf_at (writeChunk c b).2.
Proof.
  intros Hb H. unfold writeChunk. destruct (negb _); [done|].
  destruct (Z.leb_spec (len (sendWindow c)) (sendingBufferSize (cfg c))); [|done]. destruct H. split; cbn; try done.
  - apply w32_range.
  - apply Forall_app. split; [done|]. by constructor.
  - unfold len in *. rewrite length_app. cbn. lia.
Qed.

Lemma wf_Close c now : conn_wf_at c -> conn_wf_at (Close c now).2.
Proof.
  intros H. unfold Close. destruct (state c); cbn [snd]; try done.
  - eapply wf_eq; [|exact (wf_setState c stateReadyToClose now H)]. done.
  - eapply wf_eq; [|exact (wf_setState c stateTerminating now H)]. done.
  - apply wf_terminate. eapply wf_eq; [|exact (wf_setState c stateTerminated now H)]. done.
Qed.

Lemma wf_Read c n : conn_wf_at c -> conn_wf_at (Read c n).2.
Proof.
  intros H. unfold Read. destruct (readBuf c); [by destruct (_ || _)|]. destruct H. by split.
Qed.

(** The cached numbers are distinct residues below the window. *)
Lemma wf_cache_bound c : conn_wf_at c -> Z.of_nat (size (recvCache c)) <= receivingInFlightSize (cfg c).
Proof.
  intros H. set (f := fun k => Z.to_nat (w32 (k - recvNext c))). set (F := receivingInFlightSize (cfg c)).
  assert (HF : 0 <= F) by (unfold F, receivingInFlightSize, inFlight; lia).
  assert (Hk : forall k, k ∈ dom (recvCache c) -> in_u32 k /\ w32 (k - recvNext c) < F).
  { intros k [d Hd]%elem_of_dom. by apply (w_cache _ H k d). }
  assert (Hsub : f <$> elements (dom (recvCache c)) ⊆ seq 0 (Z.to_nat F)).
  { intros i (k & -> & Hin)%list_elem_of_fmap. apply elem_of_elements in Hin. destruct (Hk k Hin) as [H1 H2].
    apply elem_of_seq. unfold f. pose proof (w32_range (k - recvNext c)) as Hr. unfold in_u32 in Hr. lia. }
  assert (Hnd : NoDup (f <$> elements (dom (recvCache c)))).
  { apply NoDup_fmap_2_strong; [|apply NoDup_elements]. intros a b Ha Hb E.
    apply elem_of_elements in Ha, Hb. destruct (Hk a Ha) as [Ha1 _]. destruct (Hk b Hb) as [Hb1 _].
    pose proof (w32_range (a - recvNext c)). pose proof (w32_range (b - recvNext c)). unfold f, in_u32 in *.
    assert (E' : w32 (a - recvNext c) = w32 (b - recvNext c)) by lia. unfold w32 in E'.
    assert (E2 : (a - recvNext c + recvNext c) mod 2 ^ 32 = (b - recvNext c + recvNext c) mod 2 ^ 32).
    { rewrite <-(Zplus_mod_idemp_l (a - _)), E', Zplus_mod_idemp_l. done. }
    replace (a - recvNext c + recvNext c) with a in E2 by lia. replace (b - recvNext c + recvNext c) with b in E2 by lia.
    rewrite !Z.mod_small in E2 by done. done. }
  pose proof (submseteq_length _ _ (NoDup_submseteq _ _ Hnd Hsub)) as Hl. rewrite length_fmap, length_seq in Hl.
  change (length (elements (dom (recvCache c)))) with (size (dom (recvCache c))) in Hl. rewrite size_dom in Hl. lia.
Qed.

End well_formed.

Definition conn_wf (c : Conn) : Prop := conn_wf_at (conv c) (cfg c) c.

Lemma wf_at cv g c : conn_wf_at cv g c -> conn_wf c.
Proof. intros H. destruct (w_id _ _ _ H) as [<- <-]. exact H. Qed.

Lemma wf_act `{AEAD} cv g p a : conn_wf_at cv g (pc p) -> action_ok a ->
  conn_wf_at cv g (pc (act p a)) /\ (Forall seg_wf (sent p) -> Forall seg_wf (sent (act p a))).
Proof.
  intros Hw Ha. destruct a as [b|n|now|segs now|now|now]; cbn [act action_ok] in *.
  - pose proof (wf_writeChunk cv g (pc p) b Ha Hw). by destruct (writeChunk (pc p) b).
  - pose proof (wf_Read cv g (pc p) n Hw). by destruct (Read (pc p) n).
  - split; [by apply wf_Close|done].
  - destruct Ha as (h & dg & ->). split; [|done]. apply wf_Input; [apply packet_read_in|done].
  - destruct (wf_flush cv g (pc p) now Ha Hw) as [Hs Hc]. destruct (flush (pc p) now) as [out c]. cbn in *. split; [done|].
    intros Hp. by apply Forall_app.
  - split; [by apply wf_terminate|done].
Qed.


(** ** Limits *)

(** [newConn] panics exactly when the configured interval exceeds a second. *)
Lemma newConn_panics g cv o : in_u32 (TTI g) -> newConn g cv o = None <-> 1000 < TTI g.
Proof.
  intros Ht. unfold newConn, sizes_panic, tti, or_default, in_u32 in *. destruct (Z.eqb_spec (TTI g) 0) as [->|Hn]; [done|].
  destruct (Z.eqb_spec (1000 / TTI g) 0) as [E|E].
  - split; [intros _|done]. apply Z.div_small_iff in E; lia.
  - split; [done|]. intros Hgt. destruct E. apply Z.div_small. lia.
Qed.

(** The next segment in order, from a peer that has nothing outstanding. *)
Definition in_order (c : Conn) (b : bytes) : segment := SegData (mkData (conv c) 0 0 (recvNext c) 0 b 0 0).

Lemma Input_in_order c b now :
  state c = stateActive -> recvCache c = ∅ -> in_u32 (recvNext c) ->
  let c' := Input c [in_order c b] now in
  state c' = stateActive /\ recvCache c' = ∅ /\ in_u32 (recvNext c') /\ readBuf c' = readBuf c ++ b.
Proof.
  intros Es Ec Hr. cbn zeta. unfold Input. rewrite Es, bool_decide_eq_false_2 by done.
  set (c0 := set_clock c now (lastPing c)). cbn [input_loop in_order conversation d_conv].
  change (conv c0) with (conv c). rewrite Z.eqb_refl. cbn [negb]. unfold inputData. cbn [d_option d_sendingNext d_number].
  change (handleOptionLocked c0 0 now) with c0. set (c1 := processSendingNextLocked c0 0).
  assert (E1 : rcv_sub c0 c1) by apply rcv_sub_processSendingNext.
  assert (E2 : cfg c1 = cfg c0 /\ state c1 = stateActive).
  { unfold c1, processSendingNextLocked. by destruct (ackList c0). }
  rewrite (rs_next _ _ E1). change (recvNext c0) with (recvNext c). rewrite Z.sub_diag. change (w32 0) with 0.
  assert (0 <? receivingInFlightSize (cfg c1) = true) as ->.
  { apply Z.ltb_lt. unfold receivingInFlightSize, inFlight. lia. }
  cbn [recvCache set_acks]. rewrite (rs_cache _ _ E1). change (recvCache c0) with (recvCache c). rewrite Ec, lookup_empty.
  set (c2 := set_recv _ _ _ _). unfold deliverLocked.
  assert (Esz : size (recvCache c2) = 1%nat) by (cbn; by rewrite map_size_insert_None, map_size_empty).
  rewrite Esz. cbn [deliver_loop]. assert (En : recvNext c2 = recvNext c) by apply (rs_next _ _ E1).
  rewrite En. assert (El : recvCache c2 !! recvNext c = Some (mkData (conv c) 0 0 (recvNext c) 0 b 0 0)) by (cbn; by rewrite lookup_insert_eq).
  rewrite El. cbn [snd deliver_loop signalReadLocked wakeFlush set_notify set_recv state recvCache recvNext readBuf d_payload].
  split_and!.
  - apply E2.
  - cbn. rewrite delete_insert_eq, delete_empty. done.
  - apply w32_range.
  - cbn. by rewrite (rs_buf _ _ E1).
Qed.

Fixpoint flood (c : Conn) (b : bytes) (k : nat) : Conn :=
  match k with O => c | S k' => flood (Input c [in_order c b] 0) b k' end.

(** The read buffer has no limit and gives no back-pressure: with a user that does not
    read, any number of segments is delivered into it, and the window offered to the peer
    depends only on the next number. *)
Lemma read_buffer_unbounded b k : forall c, state c = stateActive -> recvCache c = ∅ -> in_u32 (recvNext c) ->
  len (readBuf (flood c b k)) = len (readBuf c) + Z.of_nat k * len b.
Proof.
  induction k as [|k IH]; intros c Es Ec Hr; cbn [flood]; [lia|].
  destruct (Input_in_order c b 0 Es Ec Hr) as (H1 & H2 & H3 & H4). rewrite IH by done. rewrite H4.
  unfold len. rewrite length_app. lia.
Qed.

Module Examples.

Lemma start_wf : conn_wf KcpNet.Examples.start.
Proof.
  assert (Hu : forall z, (0 <=? z) && (z <? 2 ^ 32) = true -> in_u32 z).
  { intros z [H1 H2]%andb_true_iff. apply Z.leb_le in H1. by apply Z.ltb_lt in H2. }
  split; [done| | | | | |constructor| |constructor| |].
  - vm_compute. split; congruence.
  - apply Hu. by vm_compute.
  - apply Hu. by vm_compute.
  - apply Hu. by vm_compute.
  - apply Hu. by vm_compute.
  - apply Z.leb_le. by vm_compute.
  - intros k d Hk. assert (recvCache KcpNet.Examples.start = ∅) as E by (by vm_compute). by rewrite E in Hk.
  - apply Z.leb_le. by vm_compute.
Qed.


End Examples.
