(* ===== verification/KcpListener.v ===== *)
(** * Package [mkcpcore]: the listener ([transport/mkcp/internal/mkcpcore/listener.go])

    One UDP socket carries many connections, told apart by the sender's address and the
    conversation number. A connection that terminates removes itself from the table. *)
From S2P Require Import Prelude GoStd KcpSegment KcpSegmentSpec KcpConn KcpConnSpec KcpNet KcpClose KcpWf.

Definition sessionID : Type := bytes * Z.

(** [sessions] is [None] once the listener is closed; [accept] holds the connections not
    yet accepted, at most 1024. *)
Record Listener := mkListener {
  l_cfg : Config;
  l_overhead : Z;
  sessions : option (gmap sessionID Conn);
  accept : list sessionID;
  closed : bool;
}.

Definition set_sessions (l : Listener) (s : option (gmap sessionID Conn)) (a : list sessionID) : Listener :=
  mkListener (l_cfg l) (l_overhead l) s a (closed l).

Definition Listen (g : Config) (overhead : Z) : Listener := mkListener g overhead (Some ∅) [] false.

Definition remove (l : Listener) (id : sessionID) : Listener :=
  set_sessions l (delete id <$> sessions l) (accept l).

(** A connection of the table after one of its operations: kept, or, when [terminate] ran,
    its closer has removed it. *)
Definition put (m : gmap sessionID Conn) (id : sessionID) (c : Conn) : gmap sessionID Conn :=
  if terminated c then delete id m else <[id := c]> m.

Inductive receiveOutcome :=
| RcvDropped
| RcvInput
| RcvBlocked     (* waits for room in [accept], holding the listener's mutex *)
| RcvPanic.      (* [newConn] divided by zero *)

(** [onReceive]; [now] is the connection's elapsed time, zero for a new one. *)
Definition onReceive `{AEAD} (l : Listener) (h : packetHeader) (payload addr : bytes) (now : Z) : receiveOutcome * Listener :=
  match packet_read h payload with
  | [] => (RcvDropped, l)
  | (s0 :: _) as segs =>
      let id := (addr, conversation s0) in
      match sessions l with
      | None => (RcvDropped, l)
      | Some m =>
          match m !! id with
          | Some c => (RcvInput, set_sessions l (Some (put m id (Input c segs now))) (accept l))
          | None =>
              if command s0 =? commandTerminate then (RcvDropped, l)
              else match newConn (l_cfg l) (conversation s0) (l_overhead l) with
                   | None => (RcvPanic, l)
                   | Some c =>
                       if (length (accept l) <? 1024)%nat
                       then (RcvInput, set_sessions l (Some (put m id (Input c segs 0))) (accept l ++ [id]))
                       else (RcvBlocked, set_sessions l (Some (<[id := c]> m)) (accept l))
                   end
          end
      end
  end.

(** [Accept]: the next connection, [None] when the queue is empty (the source then waits, or
    fails once the listener is closed; with both ready it may pick either). *)
Definition Accept (l : Listener) : option sessionID * Listener :=
  match accept l with
  | id :: a => (Some id, set_sessions l (sessions l) a)
  | [] => (None, l)
  end.

(** [Close]: every connection is terminated; the result lists them as they end. *)
Definition listenerClose (l : Listener) (now : Z) : list Conn * Listener :=
  if closed l then ([], l)
  else
    ((fun p => terminate p.2 now) <$> map_to_list (default ∅ (sessions l)),
     mkListener (l_cfg l) (l_overhead l) None (accept l) true).

(** A connection's own operation: a user's call or a flush. *)
Definition sessionStep (l : Listener) (id : sessionID) (a : action) : Listener :=
  match sessions l with
  | Some m => match m !! id with
              | Some c => set_sessions l (Some (put m id (pc (act (fresh c) a)))) (accept l)
              | None => l
              end
  | None => l
  end.

(** ** Invariant *)

Record session_ok (id : sessionID) (c : Conn) : Prop := {
  ss_wf : conn_wf c;
  ss_conv : conv c = id.2;
  ss_done : done_ok c;
  ss_live : terminated c = false;
}.

Definition listener_ok (l : Listener) : Prop :=
  forall m, sessions l = Some m -> map_Forall session_ok m.

Lemma listener_ok_set l m a : map_Forall session_ok m -> listener_ok (set_sessions l (Some m) a).
Proof. intros Hm m' E. cbn in E. injection E. by intros <-. Qed.

(** Configurations as the source types them. *)
Definition cfg_ok (g : Config) : Prop := in_u32 (MTU g) /\ in_u32 (WriteBuffer g).

Lemma sendingBufferSize_nonneg g : cfg_ok g -> 0 <= sendingBufferSize g.
Proof.
  intros [H1 H2]. unfold sendingBufferSize, writeBuffer, mtu, or_default, in_u32 in *.
  apply Z.div_pos; [destruct (Z.eqb_spec (WriteBuffer g) 0); lia|destruct (Z.eqb_spec (MTU g) 0); lia].
Qed.

Lemma newConn_ok g cv o c addr : cfg_ok g -> in_u16 cv -> newConn g cv o = Some c -> session_ok (addr, cv) c.
Proof.
  intros Hg Hv. unfold newConn. destruct (sizes_panic g); [done|]. intros [= <-].
  pose proof (sendingBufferSize_nonneg g Hg) as Hs. split; [|done..]. split; cbn; try done.
  unfold len. cbn. lia.
Qed.

Lemma readSegment_conv b s q : readSegment b = Some (s, q) -> in_u16 (conversation s).
Proof.
  unfold readSegment. destruct (_ <? 4); [done|]. pose proof (u_at_range 2 0 b) as Hr.
  destruct (_ =? commandData).
  - destruct (_ <? 14); [done|]. destruct (_ <? _); [done|]. by intros [= <- _].
  - destruct (_ =? commandACK).
    + destruct (_ <? 13); [done|]. destruct (_ <? _); [done|]. destruct (readNumbers _ _). by intros [= <- _].
    + destruct (_ <? 12); [done|]. by intros [= <- _].
Qed.

Lemma packet_read_conv `{AEAD} h b s l : packet_read h b = s :: l -> in_u16 (conversation s).
Proof.
  unfold packet_read. destruct (_ <=? _)%nat; [done|]. destruct (_ <=? _)%nat; [done|].
  destruct (OpenSealed _ _) as [p|]; [|done]. destruct p as [|x p]; [done|]. cbn [readSegments length].
  destruct (readSegment (x :: p)) as [[s' q]|] eqn:E; [|done]. intros [= -> _]. by eapply readSegment_conv.
Qed.

Lemma session_put m id c : map_Forall session_ok m -> conn_wf c -> conv c = id.2 -> done_ok c ->
  map_Forall session_ok (put m id c).
Proof.
  intros Hm Hw Hc Hd. unfold put. destruct (terminated c) eqn:Et.
  - by apply map_Forall_delete.
  - by apply map_Forall_insert_2.
Qed.

Lemma put_ne m id id' c : id <> id' -> put m id c !! id' = m !! id'.
Proof. intros Hne. unfold put. destruct (terminated c); [by rewrite lookup_delete_ne|by rewrite lookup_insert_ne]. Qed.

(** An operation of a good connection, as the table sees it. *)
Lemma session_act `{AEAD} id c a : session_ok id c -> action_ok a ->
  conn_wf (pc (act (fresh c) a)) /\ conv (pc (act (fresh c) a)) = id.2 /\ done_ok (pc (act (fresh c) a)).
Proof.
  intros [Hw Hc Hd _] Ha. destruct (wf_act _ _ (fresh c) a Hw Ha) as [H1 _].
  split; [by eapply wf_at|]. split; [rewrite <-Hc; apply (w_id _ _ _ H1)|].
  set (t := match a with AClose now | AInput _ now | AFlush now | ATerminate now => now | _ => 0 end).
  destruct (act_lives (fresh c) a t t) as (now & _ & _ & Hl); [by destruct a; cbn|]. by apply Hl.
Qed.

(** What may happen to a listener. *)
Inductive lop :=
| LReceive (h : packetHeader) (payload addr : bytes) (now : Z)
| LSession (id : sessionID) (a : action)
| LAccept
| LClose (now : Z).

Definition lstep `{AEAD} (l : Listener) (o : lop) : Listener :=
  match o with
  | LReceive h payload addr now => (onReceive l h payload addr now).2
  | LSession id a => sessionStep l id a
  | LAccept => (Accept l).2
  | LClose now => (listenerClose l now).2
  end.

Definition lop_ok `{AEAD} (o : lop) : Prop := match o with LSession _ a => action_ok a | _ => True end.

(** The connections an operation may touch: those of its address. *)
Definition about (o : lop) (id : sessionID) : Prop :=
  match o with LReceive _ _ addr _ => id.1 = addr | LSession id' _ => id = id' | LAccept => False | LClose _ => True end.

Lemma lstep_cfg `{AEAD} l o : l_cfg (lstep l o) = l_cfg l.
Proof.
  destruct o as [h payload addr now|id a| |now]; cbn [lstep].
  - unfold onReceive. destruct (packet_read h payload) as [|s0 segs]; [done|]. destruct (sessions l) as [m|]; [|done].
    destruct (m !! _); [done|]. destruct (_ =? _); [done|]. destruct (newConn _ _ _); [|done]. by destruct (_ <? _)%nat.
  - unfold sessionStep. destruct (sessions l) as [m|]; [|done]. by destruct (m !! id).
  - unfold Accept. by destruct (accept l).
  - unfold listenerClose. by destruct (closed l).
Qed.

(** The listener keeps connections apart: whatever datagrams arrive, each session of
    the table is a well-formed, live connection of its own conversation number, and a
    datagram from one address leaves the sessions of every other address as they are. *)
Theorem listener_isolation `{AEAD} l o :
  cfg_ok (l_cfg l) -> listener_ok l -> lop_ok o ->
  listener_ok (lstep l o) /\
  forall m id, sessions l = Some m -> ~ about o id ->
    exists m', sessions (lstep l o) = Some m' /\ m' !! id = m !! id.
Proof.
  intros Hg Hl Ho.
  assert (Hsame : forall P : sessionID -> Prop, listener_ok l /\ forall m id, sessions l = Some m -> ~ P id ->
    exists m', sessions l = Some m' /\ m' !! id = m !! id) by (split; eauto).
  destruct o as [h payload addr now|id a| |now]; cbn [lstep about].
  - unfold onReceive. destruct (packet_read h payload) as [|s0 segs] eqn:Ep; [apply Hsame|]. pose proof (packet_read_conv _ _ _ _ Ep) as Hcv.
    destruct (sessions l) as [m|] eqn:Em; [|cbn; by rewrite Em]. pose proof (Hl m Em) as Hm.
    assert (Hin : forall c t, session_ok (addr, conversation s0) c ->
      map_Forall session_ok (put m (addr, conversation s0) (Input c (s0 :: segs) t))).
    { intros c t Hc. destruct (session_act _ _ (AInput (s0 :: segs) t) Hc) as (H1 & H2 & H3); [cbn; eauto|]. by apply session_put. }
    assert (Hfr : forall c t id, ~ id.1 = addr -> put m (addr, conversation s0) (Input c (s0 :: segs) t) !! id = m !! id).
    { intros c t id Hne. apply put_ne. intros <-. by apply Hne. }
    destruct (m !! (addr, conversation s0)) as [c|] eqn:Ec.
    { split; [by apply listener_ok_set, Hin, Hm|]. intros m0 id [= <-] Hne. eexists. split; [done|by apply Hfr]. }
    destruct (command s0 =? commandTerminate); [cbn [snd]; rewrite Em; apply Hsame|].
    destruct (newConn (l_cfg l) (conversation s0) (l_overhead l)) as [c|] eqn:En; [|cbn [snd]; rewrite Em; apply Hsame].
    pose proof (newConn_ok _ _ _ _ addr Hg Hcv En) as Hok. destruct (length (accept l) <? 1024)%nat; cbn [snd].
    + split; [by apply listener_ok_set, Hin|]. intros m0 id [= <-] Hne. eexists. split; [done|by apply Hfr].
    + split; [by apply listener_ok_set, map_Forall_insert_2|]. intros m0 id [= <-] Hne. eexists. split; [done|].
      apply lookup_insert_ne. intros <-. by apply Hne.
  - unfold sessionStep. destruct (sessions l) as [m|] eqn:Em; [|by rewrite Em]. pose proof (Hl m Em) as Hm.
    destruct (m !! id) as [c|] eqn:Ec; [|cbn [snd]; rewrite Em; apply Hsame]. destruct (session_act id c a (Hm id c Ec) Ho) as (H1 & H2 & H3). split.
    + by apply listener_ok_set, session_put.
    + intros m0 id' [= <-] Hne. eexists. split; [done|]. apply put_ne. congruence.
  - unfold Accept. destruct (accept l); cbn; (split; [exact Hl|eauto]).
  - unfold listenerClose. destruct (closed l); cbn; (split; [|intros m id _ []; exact I]); [exact Hl|done].
Qed.

(** Closing the listener ends every session: each connection of the table is
    terminated with its waiters released, and no datagram or call revives the table. *)
Lemma listenerClose_ends l now : listener_ok l -> closed l = false ->
  Forall (fun c => state c = stateTerminated /\ terminated c = true) (listenerClose l now).1 /\
  sessions (listenerClose l now).2 = None.
Proof.
  intros Hl Hc. unfold listenerClose. rewrite Hc. split; [|done]. cbn [fst]. apply Forall_forall.
  intros c ([id c0] & -> & Hin)%list_elem_of_fmap. cbn [snd]. destruct (sessions l) as [m|] eqn:Em; [|by apply elem_of_map_to_list in Hin].
  apply elem_of_map_to_list in Hin. destruct (Hl m Em id c0 Hin) as [_ _ _ Ht]. unfold terminate. rewrite Ht. cbn.
  split; [apply set_state_eq|done].
Qed.

Module Examples.
Definition lst : Listener := Listen KcpNet.Examples.defaults 6.

Lemma listener_isolation_witness :
  let o := @LReceive noopHeader [] [] 0 in
  listener_ok (@lstep simpleAuthenticator lst o) /\
  forall m id, sessions lst = Some m -> ~ about o id ->
    exists m', sessions (@lstep simpleAuthenticator lst o) = Some m' /\ m' !! id = m !! id.
Proof.
  apply (@listener_isolation simpleAuthenticator lst (LReceive noopHeader [] [] 0)).
  - split; vm_compute; split; congruence.
  - intros m [= <-]. apply map_Forall_empty.
  - exact I.
Defined.
End Examples.
