(* ===== verification/Utf8.v ===== *)
(** * Go's [unicode/utf8], as the domain matchers use it *)
From S2P Require Import Prelude GoStd.
From Stdlib Require Import Init.Byte.

Definition RuneError : Z := 0xFFFD.

Definition between (lo hi : Z) (b : byte) : bool := (lo <=? b2z b) && (b2z b <=? hi).
(** The payload of a continuation byte. *)
Definition cont6 (b : byte) : Z := b2z b - 0x80.

(** [utf8.DecodeRuneInString]: the rune and its width; a byte that starts no encoding is
    [RuneError] of width 1. The second byte's range depends on the first. *)
Definition DecodeRune (s : bytes) : Z * nat :=
  match s with
  | [] => (RuneError, 0%nat)
  | b0 :: s1 =>
      let v := b2z b0 in
      if v <? 0x80 then (v, 1%nat)
      else if (v <? 0xC2) || (0xF4 <? v) then (RuneError, 1%nat)
      else
        let lo := if v =? 0xE0 then 0xA0 else if v =? 0xF0 then 0x90 else 0x80 in
        let hi := if v =? 0xED then 0x9F else if v =? 0xF4 then 0x8F else 0xBF in
        match s1 with
        | [] => (RuneError, 1%nat)
        | b1 :: s2 =>
            if negb (between lo hi b1) then (RuneError, 1%nat)
            else if v <? 0xE0 then ((v - 0xC0) * 64 + cont6 b1, 2%nat)
            else match s2 with
                 | [] => (RuneError, 1%nat)
                 | b2 :: s3 =>
                     if negb (between 0x80 0xBF b2) then (RuneError, 1%nat)
                     else if v <? 0xF0 then ((v - 0xE0) * 4096 + cont6 b1 * 64 + cont6 b2, 3%nat)
                     else match s3 with
                          | [] => (RuneError, 1%nat)
                          | b3 :: _ =>
                              if negb (between 0x80 0xBF b3) then (RuneError, 1%nat)
                              else ((v - 0xF0) * 262144 + cont6 b1 * 4096 + cont6 b2 * 64 + cont6 b3, 4%nat)
                          end
                 end
        end
  end.

(** [utf8.AppendRune]. *)
Definition EncodeRune (r : Z) : bytes :=
  let three r := [z2b (0xE0 + r / 4096); z2b (0x80 + r / 64 mod 64); z2b (0x80 + r mod 64)] in
  if (0 <=? r) && (r <? 0x80) then [z2b r]
  else if (0 <=? r) && (r <? 0x800) then [z2b (0xC0 + r / 64); z2b (0x80 + r mod 64)]
  else if (r <? 0) || (0x10FFFF <? r) || ((0xD800 <=? r) && (r <=? 0xDFFF)) then three RuneError
  else if r <? 0x10000 then three r
  else [z2b (0xF0 + r / 262144); z2b (0x80 + r / 4096 mod 64); z2b (0x80 + r / 64 mod 64); z2b (0x80 + r mod 64)].

(** The conversion [[]rune(s)]: every round takes at least one byte. *)
Fixpoint runes (fuel : nat) (s : bytes) : list Z :=
  match fuel with
  | O => []
  | S fuel' =>
      match s with
      | [] => []
      | _ => let '(r, n) := DecodeRune s in r :: runes fuel' (drop n s)
      end
  end.

(** Runes that have an encoding. *)
Definition valid_rune (r : Z) : Prop := 0 <= r < 0xD800 \/ 0xDFFF < r <= 0x10FFFF.

Lemma DecodeRune_ascii b s : b2z b < 128 -> DecodeRune (b :: s) = (b2z b, 1%nat).
Proof. intros Hb. cbn [DecodeRune]. destruct (Z.ltb_spec (b2z b) 0x80); [done|lia]. Qed.

Lemma EncodeRune_ascii b : b2z b < 128 -> EncodeRune (b2z b) = [b].
Proof.
  intros Hb. unfold EncodeRune. pose proof (b2z_range b). destruct (Z.leb_spec 0 (b2z b)); [|lia].
  destruct (Z.ltb_spec (b2z b) 0x80); [|lia]. cbn. by rewrite z2b_b2z.
Qed.

(** Decoding an encoding gives the rune back, with its width. *)
Lemma DecodeRune_EncodeRune r q :
  valid_rune r -> DecodeRune (EncodeRune r ++ q) = (r, length (EncodeRune r)).
Proof.
  intros Hv. unfold EncodeRune.
  assert (Hm : forall k, 0 <= k mod 64 < 64) by (intros; apply Z.mod_pos_bound; lia).
  assert (Hb : forall k, b2z (z2b (0x80 + k mod 64)) = 0x80 + k mod 64).
  { intros k. pose proof (Hm k). apply b2z_z2b_small. lia. }
  assert (Hbt : forall k, between 0x80 0xBF (z2b (0x80 + k mod 64)) = true).
  { intros k. unfold between. rewrite Hb. pose proof (Hm k). apply andb_true_iff. split; apply Z.leb_le; lia. }
  destruct (Z.leb_spec 0 r) as [H0|H0]; [|destruct Hv; lia]. cbn [andb].
  destruct (Z.ltb_spec r 0x80) as [H1|H1].
  { cbn [app length]. rewrite DecodeRune_ascii; rewrite b2z_z2b_small; (done || lia). }
  destruct (Z.ltb_spec r 0x800) as [H2|H2].
  { cbn [app length DecodeRune]. assert (r / 64 < 32) by (apply Z.div_lt_upper_bound; lia).
    assert (2 <= r / 64) by (apply Z.div_le_lower_bound; lia). rewrite (b2z_z2b_small (0xC0 + r / 64)) by lia.
    assert (E : 64 * (r / 64) + r mod 64 = r) by (symmetry; apply Z.div_mod; lia).
    repeat (match goal with |- context [?x <? ?y] => destruct (Z.ltb_spec x y); try lia
                       | |- context [?x =? ?y] => destruct (Z.eqb_spec x y); try lia end). cbn [orb].
    rewrite Hbt. cbn [negb]. unfold cont6. rewrite Hb. f_equal. lia. }
  destruct (Z.ltb_spec r 0); [lia|]. destruct (Z.ltb_spec 0x10FFFF r); [destruct Hv; lia|].
  assert ((0xD800 <=? r) && (r <=? 0xDFFF) = false) as ->.
  { destruct (Z.leb_spec 0xD800 r), (Z.leb_spec r 0xDFFF); cbn; try done. destruct Hv; lia. }
  cbn [orb].
  assert (Ed : 4096 * (r / 4096) + 64 * (r / 64 mod 64) + r mod 64 = r).
  { replace (r / 4096) with (r / 64 / 64) by (by rewrite Z.div_div by lia).
    pose proof (Z.div_mod r 64 ltac:(lia)). pose proof (Z.div_mod (r / 64) 64 ltac:(lia)). lia. }
  destruct (Z.ltb_spec r 0x10000) as [Hr3|Hr3].
  - cbn [app length DecodeRune]. assert (r / 4096 < 16) by (apply Z.div_lt_upper_bound; lia).
    assert (0 <= r / 4096) by (apply Z.div_pos; lia). rewrite (b2z_z2b_small (0xE0 + r / 4096)) by lia.
    pose proof (Hm (r / 64)). pose proof (Hm r).
    assert (Hsec : between (if 0xE0 + r / 4096 =? 0xE0 then 0xA0 else if 0xE0 + r / 4096 =? 0xF0 then 0x90 else 0x80)
                     (if 0xE0 + r / 4096 =? 0xED then 0x9F else if 0xE0 + r / 4096 =? 0xF4 then 0x8F else 0xBF)
                     (z2b (0x80 + r / 64 mod 64)) = true).
    { unfold between. rewrite Hb. apply andb_true_iff. split; apply Z.leb_le.
      - destruct (Z.eqb_spec (0xE0 + r / 4096) 0xE0); [|destruct (Z.eqb_spec (0xE0 + r / 4096) 0xF0); lia]. lia.
      - destruct (Z.eqb_spec (0xE0 + r / 4096) 0xED); [|destruct (Z.eqb_spec (0xE0 + r / 4096) 0xF4); lia].
        destruct Hv; lia. }
    rewrite Hsec. cbn [negb]. destruct (Z.ltb_spec (0xE0 + r / 4096) 0x80); [lia|].
    destruct (Z.ltb_spec (0xE0 + r / 4096) 0xC2); [lia|]. destruct (Z.ltb_spec 0xF4 (0xE0 + r / 4096)); [lia|]. cbn [orb].
    destruct (Z.ltb_spec (0xE0 + r / 4096) 0xE0); [lia|]. rewrite Hbt. cbn [negb].
    destruct (Z.ltb_spec (0xE0 + r / 4096) 0xF0); [|lia]. unfold cont6. rewrite !Hb. f_equal. lia.
  - assert (Ef : 262144 * (r / 262144) + 64 * 64 * (r / 4096 mod 64) = 4096 * (r / 4096)).
    { replace (r / 262144) with (r / 4096 / 64) by (by rewrite Z.div_div by lia).
      pose proof (Z.div_mod (r / 4096) 64 ltac:(lia)). lia. }
    cbn [app length DecodeRune]. assert (r / 262144 < 5) by (apply Z.div_lt_upper_bound; lia).
    assert (0 <= r / 262144) by (apply Z.div_pos; lia). rewrite (b2z_z2b_small (0xF0 + r / 262144)) by lia.
    pose proof (Hm (r / 4096)). pose proof (Hm (r / 64)). pose proof (Hm r).
    assert (Hsec : between (if 0xF0 + r / 262144 =? 0xE0 then 0xA0 else if 0xF0 + r / 262144 =? 0xF0 then 0x90 else 0x80)
                     (if 0xF0 + r / 262144 =? 0xED then 0x9F else if 0xF0 + r / 262144 =? 0xF4 then 0x8F else 0xBF)
                     (z2b (0x80 + r / 4096 mod 64)) = true).
    { unfold between. rewrite Hb. apply andb_true_iff. split; apply Z.leb_le.
      - destruct (Z.eqb_spec (0xF0 + r / 262144) 0xE0); [lia|]. destruct (Z.eqb_spec (0xF0 + r / 262144) 0xF0); lia.
      - destruct (Z.eqb_spec (0xF0 + r / 262144) 0xED); [lia|]. destruct (Z.eqb_spec (0xF0 + r / 262144) 0xF4); lia. }
    rewrite Hsec. cbn [negb]. destruct (Z.ltb_spec (0xF0 + r / 262144) 0x80); [lia|].
    destruct (Z.ltb_spec (0xF0 + r / 262144) 0xC2); [lia|]. destruct (Z.ltb_spec 0xF4 (0xF0 + r / 262144)); [lia|]. cbn [orb].
    destruct (Z.ltb_spec (0xF0 + r / 262144) 0xE0); [lia|]. rewrite Hbt. cbn [negb].
    destruct (Z.ltb_spec (0xF0 + r / 262144) 0xF0); [lia|]. rewrite Hbt. cbn [negb]. unfold cont6. rewrite !Hb. f_equal. lia.
Qed.
