(* ===== verification/Succinct.v ===== *)
(** * Package [ruleset]: compressed domain sets ([ruleset/succinct.go], the matcher of
    [ruleset/srs.go])

    A set of domain names is a trie in level order: [labelBitmap] has, for each node, a
    zero per child and a closing one, [labels] the labels of the children and [leaves] a
    bit per node. Indexes are [nat]; an index outside its slice, a run-time panic in the
    source, is [None] or [Panic]. *)
From S2P Require Import Prelude GoStd Utf8.
From Stdlib Require Import Init.Byte.

(** ** Words *)

(** [bits.OnesCount64]. *)
Definition word_bits (w : Z) : list bool := (fun i => Z.testbit w (Z.of_nat i)) <$> seq 0 64.
Definition count_ones (l : list bool) : nat := length (filter (fun b => b = true) l).
Definition OnesCount64 (w : Z) : nat := count_ones (word_bits w).

(** The conversion to [int32] of a count. *)
Definition int32 (z : Z) : Z := (z + 2 ^ 31) mod 2 ^ 32 - 2 ^ 31.

(** ** The bit layer *)

Record succinctBits := mkBits {
  leaves : list Z;
  labelBitmap : list Z;
  labels : bytes;
  wordOnes : list Z;      (* prefix sums, one more than the words *)
}.

Fixpoint prefix_sums (acc : Z) (l : list Z) : list Z :=
  acc :: match l with [] => [] | w :: l' => prefix_sums (int32 (acc + Z.of_nat (OnesCount64 w))) l' end.

Definition newSuccinctBits (lv bm : list Z) (lb : bytes) : succinctBits := mkBits lv bm lb (prefix_sums 0 bm).

(** [getBit(bm, i) != 0]. *)
Definition getBit (bm : list Z) (i : nat) : option bool :=
  w ← bm !! (i / 64)%nat; Some (Z.testbit w (Z.of_nat (i mod 64))).

(** [x & (1<<b - 1)]. *)
Definition low_bits (x : Z) (b : nat) : Z := Z.land x (Z.shiftl 1 (Z.of_nat b) - 1).

Definition rank (s : succinctBits) (i : nat) : option Z :=
  r ← wordOnes s !! (i / 64)%nat;
  if (i mod 64 =? 0)%nat then Some r
  else w ← labelBitmap s !! (i / 64)%nat; Some (r + Z.of_nat (OnesCount64 (low_bits w (i mod 64)))).

(** The count is an [int]; it is used as an index. *)
Definition countZeros (s : succinctBits) (i : nat) : option nat :=
  r ← rank s i; if Z.of_nat i <? r then None else Some (Z.to_nat (Z.of_nat i - r)).

(** The binary search of [selectIthOne]; every round halves [hi - lo]. *)
Fixpoint select_word (fuel : nat) (s : succinctBits) (i : Z) (lo hi : nat) : option nat :=
  match fuel with
  | O => Some lo
  | S fuel' =>
      if (lo <? hi)%nat then
        let mid := ((lo + hi) / 2)%nat in
        o ← wordOnes s !! S mid;
        if o <=? i then select_word fuel' s i (S mid) hi else select_word fuel' s i lo mid
      else Some lo
  end.

(** The scan of one word: the position of the set bit with [remain] set bits before it. *)
Fixpoint select_bit (l : list bool) (b : nat) (remain : Z) : option nat :=
  match l with
  | [] => None
  | true :: l' => if remain =? 0 then Some b else select_bit l' (S b) (remain - 1)
  | false :: l' => select_bit l' (S b) remain
  end.

(** [selectIthOne], plus one: the result [-1] for a word without the bit becomes position 0. *)
Definition select_next (s : succinctBits) (i : Z) : option nat :=
  lo ← select_word (S (length (labelBitmap s))) s i 0 (length (labelBitmap s));
  o ← wordOnes s !! lo;
  x ← labelBitmap s !! lo;
  Some (match select_bit (word_bits x) 0 (i - o) with Some b => (lo * 64 + b + 1)%nat | None => 0%nat end).

(** A label by its distance from the node. *)
Definition label_at (s : succinctBits) (bmIdx nodeId : nat) : option byte :=
  if (bmIdx <? nodeId)%nat then None else labels s !! (bmIdx - nodeId)%nat.

Inductive matched := Panic | Found (b : bool).

#[export] Instance matched_eq_dec : EqDecision matched.
Proof. solve_decision. Defined.

(** ** The sing-box matcher ([srs.go]) *)

Definition prefixLabel : byte := x0d.
Definition rootLabel : byte := x0a.
Definition dot : byte := x2e.

Inductive scan := ScanPanic | ScanRet (b : bool) | ScanBreak (bmIdx : nat).

(** The inner loop of [has] for a character: over the children of [nodeId] from [bmIdx]. *)
Fixpoint has_scan (fuel : nat) (s : succinctBits) (c : byte) (nodeId bmIdx : nat) : scan :=
  match fuel with
  | O => ScanPanic
  | S fuel' =>
      match getBit (labelBitmap s) bmIdx with
      | None => ScanPanic
      | Some true => ScanRet false
      | Some false =>
          match label_at s bmIdx nodeId with
          | None => ScanPanic
          | Some nextLabel =>
              if bool_decide (nextLabel = prefixLabel) then ScanRet true
              else
                let root :=
                  if bool_decide (nextLabel = rootLabel) then
                    nextNodeId ← countZeros s (S bmIdx);
                    if bool_decide (c = dot) then getBit (leaves s) nextNodeId else Some false
                  else Some false in
                match root with
                | None => ScanPanic
                | Some true => ScanRet true
                | Some false => if bool_decide (nextLabel = c) then ScanBreak bmIdx else has_scan fuel' s c nodeId (S bmIdx)
                end
          end
      end
  end.

(** The closing loop of [has]: a suffix mark among the children of the last node. *)
Fixpoint has_tail (fuel : nat) (s : succinctBits) (nodeId bmIdx : nat) : matched :=
  match fuel with
  | O => Panic
  | S fuel' =>
      match getBit (labelBitmap s) bmIdx with
      | None => Panic
      | Some true => Found false
      | Some false =>
          match label_at s bmIdx nodeId with
          | None => Panic
          | Some nextLabel =>
              if bool_decide (nextLabel = prefixLabel) || bool_decide (nextLabel = rootLabel) then Found true
              else has_tail fuel' s nodeId (S bmIdx)
          end
      end
  end.

(** Both loops stop at the end of the bitmap at the latest: fuel past its length. *)
Definition scan_fuel (s : succinctBits) : nat := S (64 * length (labelBitmap s)).

Fixpoint has_loop (s : succinctBits) (key : bytes) (nodeId bmIdx : nat) : matched :=
  match key with
  | [] =>
      match getBit (leaves s) nodeId with
      | None => Panic
      | Some true => Found true
      | Some false => has_tail (scan_fuel s) s nodeId bmIdx
      end
  | c :: key' =>
      match has_scan (scan_fuel s) s c nodeId bmIdx with
      | ScanPanic => Panic
      | ScanRet b => Found b
      | ScanBreak bmIdx =>
          match countZeros s (S bmIdx) with
          | None => Panic
          | Some nodeId =>
              match select_next s (Z.of_nat nodeId - 1) with
              | None => Panic
              | Some bmIdx => has_loop s key' nodeId bmIdx
              end
          end
      end
  end.

Definition has (s : succinctBits) (key : bytes) : matched := has_loop s key 0 0.

(** ** The mihomo matcher ([succinct.go]) *)

Definition complexWildcardByte : byte := x2b.
Definition wildcardByte : byte := x2a.
Definition domainStepByte : byte := x2e.

(** [revLowerAt], for indexes inside the key. *)
Definition revLowerAt (key : bytes) (i : nat) : option byte :=
  if (i <? length key)%nat then lower_byte <$> key !! (length key - 1 - i)%nat else None.

(** The distance to the next dot of the reversed key, or its length. *)
Fixpoint next_step (fuel : nat) (key : bytes) (j : nat) : nat :=
  match fuel with
  | O => j
  | S fuel' =>
      match revLowerAt key j with
      | Some c => if bool_decide (c = domainStepByte) then j else next_step fuel' key (S j)
      | None => j
      end
  end.

(** The first dot label from [nextBmIdx] on. *)
Fixpoint find_step (fuel : nat) (s : succinctBits) (nextBmIdx nextNodeId : nat) : option (option nat) :=
  match fuel with
  | O => Some None
  | S fuel' =>
      if (nextBmIdx <? nextNodeId + length (labels s))%nat then
        match label_at s nextBmIdx nextNodeId with
        | None => None
        | Some l => if bool_decide (l = domainStepByte) then Some (Some nextBmIdx) else find_step fuel' s (S nextBmIdx) nextNodeId
        end
      else Some None
  end.

(** Where the matcher stands: [MAt] before a character, with the stack of wildcard cursors. *)
Record mstate := mkM { m_i : nat; m_node : nat; m_bm : nat; m_stack : list (nat * nat) }.

Inductive mnext := MPanic | MDone (b : bool) | MNext (st : mstate).

(** No child matches: resume at the last wildcard, which takes a whole label. *)
Definition m_backtrack (s : succinctBits) (key : bytes) (st : mstate) : mnext :=
  match m_stack st with
  | [] => MDone false
  | (cbm, cidx) :: stack =>
      match countZeros s (S cbm) with
      | None => MPanic
      | Some nextNodeId =>
          match select_next s (Z.of_nat nextNodeId - 1) with
          | None => MPanic
          | Some nextBmIdx =>
              let j := next_step (length key) key cidx in
              if (j =? length key)%nat then
                match getBit (leaves s) nextNodeId with
                | None => MPanic
                | Some true => MDone true
                | Some false => MNext (mkM (m_i st) (m_node st) (m_bm st) stack)
                end
              else match find_step (S (length (labels s))) s nextBmIdx nextNodeId with
                   | None => MPanic
                   | Some None => MDone false
                   | Some (Some bm) => MNext (mkM j nextNodeId bm stack)
                   end
          end
      end
  end.

(** One round of the inner loop at character [c]. *)
Definition m_step (s : succinctBits) (key : bytes) (st : mstate) : mnext :=
  match revLowerAt key (m_i st) with
  | None =>
      match getBit (leaves s) (m_node st) with None => MPanic | Some b => MDone b end
  | Some c =>
      match getBit (labelBitmap s) (m_bm st) with
      | None => MPanic
      | Some true => m_backtrack s key st
      | Some false =>
          match label_at s (m_bm st) (m_node st) with
          | None => MPanic
          | Some l =>
              if bool_decide (l = complexWildcardByte) then MDone true
              else if bool_decide (l = wildcardByte) then
                MNext (mkM (m_i st) (m_node st) (S (m_bm st)) ((m_bm st, m_i st) :: m_stack st))
              else if bool_decide (l = c) then
                match countZeros s (S (m_bm st)) with
                | None => MPanic
                | Some node =>
                    match select_next s (Z.of_nat node - 1) with
                    | None => MPanic
                    | Some bm => MNext (mkM (S (m_i st)) node bm (m_stack st))
                    end
                end
              else MNext (mkM (m_i st) (m_node st) (S (m_bm st)) (m_stack st))
          end
      end
  end.

Fixpoint m_run (fuel : nat) (s : succinctBits) (key : bytes) (st : mstate) : option matched :=
  match fuel with
  | O => None
  | S fuel' =>
      match m_step s key st with
      | MPanic => Some Panic
      | MDone b => Some (Found b)
      | MNext st => m_run fuel' s key st
      end
  end.

(** [reverseDomain]: runes are written from the end of a buffer of the string's length;
    writing past the end panics. *)
Definition write_at (b : bytes) (off : nat) (e : bytes) : option bytes :=
  if (length b <? off + length e)%nat then None else Some (take off b ++ e ++ drop (off + length e) b).

Fixpoint reverse_loop (fuel : nat) (domain : bytes) (i : nat) (b : bytes) : option bytes :=
  match fuel with
  | O => Some b
  | S fuel' =>
      if (i <? length domain)%nat then
        let '(r, n) := DecodeRune (drop i domain) in
        b ← write_at b (length domain - (i + n))%nat (EncodeRune r);
        reverse_loop fuel' domain (i + n) b
      else Some b
  end.

Definition reverseDomain (domain : bytes) : option bytes :=
  reverse_loop (length domain) domain 0 (replicate (length domain) x00).

(** [singDomainSet.MatchDomain]. *)
Definition sing_MatchDomain (s : succinctBits) (domain : bytes) : matched :=
  match reverseDomain domain with None => Panic | Some key => has s key end.

(** [readSingSuccinct] after the three slices are read: the counts of ones and zeros up to
    the last one, checked against the labels, and [leaves] filled up. *)
Fixpoint scan_words (wi : nat) (l : list Z) (ones : nat) (last : Z) : nat * Z :=
  match l with
  | [] => (ones, last)
  | word :: l' =>
      scan_words (S wi) l' (ones + OnesCount64 word)%nat
        (if word =? 0 then last else Z.of_nat wi * 64 + Z.log2 word)
  end.

Definition singSuccinct (lv bm : list Z) (lb : bytes) : option succinctBits :=
  let '(onesCount, lastOneIndex) := scan_words 0 bm 0 (-1) in
  let zerosCount := lastOneIndex + 1 - Z.of_nat onesCount in
  if negb (Z.of_nat onesCount =? zerosCount + 1) || negb (len lb =? zerosCount) then None
  else
    let lw := ((onesCount + 63) / 64)%nat in
    Some (newSuccinctBits (lv ++ replicate (lw - length lv) 0) bm lb).

(** [toLowerASCII], [byteReverse], [reverseRunes] and the entry of the mihomo matcher. *)
Definition toLowerASCII (s : bytes) : bytes := map lower_byte s.
Definition byteReverse (s : bytes) : bytes := rev s.
Definition reverseRunes (s : bytes) : bytes := concat (EncodeRune <$> rev (runes (length s) s)).

Definition mihomo_key (key : bytes) : bytes :=
  if forallb (fun b => b2z b <? 0x80) key then key else byteReverse (toLowerASCII (reverseRunes key)).

Definition mihomo_MatchDomain (fuel : nat) (s : succinctBits) (key : bytes) : option matched :=
  m_run fuel s (mihomo_key key) (mkM 0 0 0 []).
