(* ===== verification/SuccinctSpec.v ===== *)
(** * Compressed domain sets: rank and select, and the trie they stand for

    The index of [newSuccinctBits] computes rank and select of the bitmap; over it the
    sing-box matcher never leaves the slices of a checked set and walks the trie the set
    encodes, so that a domain matches exactly when it, a suffix mark of one of its parents
    or a prefix mark is stored. *)
From S2P Require Import Prelude GoStd Utf8 Succinct.
From Stdlib Require Import Init.Byte.

(** ** Bits *)

Definition bits_of (bm : list Z) : list bool := concat (word_bits <$> bm).

Lemma length_word_bits w : length (word_bits w) = 64%nat.
Proof. unfold word_bits. by rewrite length_fmap, length_seq. Qed.

Lemma lookup_word_bits w i : (i < 64)%nat -> word_bits w !! i = Some (Z.testbit w (Z.of_nat i)).
Proof. intros Hi. unfold word_bits. rewrite list_lookup_fmap, lookup_seq_lt by done. done. Qed.

Lemma length_bits_of bm : length (bits_of bm) = (64 * length bm)%nat.
Proof.
  unfold bits_of. induction bm as [|w bm IH]; [done|]. cbn [fmap list_fmap concat length].
  rewrite length_app, length_word_bits, IH. lia.
Qed.

Lemma bits_of_cons w bm : bits_of (w :: bm) = word_bits w ++ bits_of bm.
Proof. done. Qed.

Lemma getBit_bits bm : forall i, getBit bm i = bits_of bm !! i.
Proof.
  induction bm as [|w bm IH]; intros i; [done|]. rewrite bits_of_cons. unfold getBit in *.
  destruct (Nat.lt_ge_cases i 64) as [Hi|Hi].
  - rewrite Nat.div_small, Nat.mod_small by lia. cbn [lookup list_lookup mbind option_bind]. rewrite lookup_app_l by (rewrite length_word_bits; lia).
    by rewrite lookup_word_bits.
  - rewrite lookup_app_r by (rewrite length_word_bits; lia). rewrite length_word_bits, <-IH.
    assert (E1 : (i / 64 = S ((i - 64) / 64))%nat).
    { replace i with ((i - 64) + 1 * 64)%nat at 1 by lia. rewrite Nat.div_add by lia. lia. }
    assert (E2 : (i mod 64 = (i - 64) mod 64)%nat).
    { replace i with ((i - 64) + 1 * 64)%nat at 1 by lia. apply Nat.Div0.mod_add. }
    by rewrite E1, E2.
Qed.

Lemma count_ones_app l k : count_ones (l ++ k) = (count_ones l + count_ones k)%nat.
Proof. unfold count_ones. by rewrite filter_app, length_app. Qed.
Lemma count_ones_cons b l : count_ones (b :: l) = ((if b then 1 else 0) + count_ones l)%nat.
Proof. unfold count_ones. destruct b; [by rewrite filter_cons_True|by rewrite filter_cons_False]. Qed.
Lemma count_ones_length l : (count_ones l <= length l)%nat.
Proof. apply length_filter. Qed.
Lemma count_ones_replicate n : count_ones (replicate n false) = 0%nat.
Proof. induction n as [|n IH]; [done|]. cbn [replicate]. by rewrite count_ones_cons, IH. Qed.
Lemma count_ones_take_S (l : list bool) (i : nat) (b : bool) : l !! i = Some b -> count_ones (take (S i) l) = (count_ones (take i l) + (if b then 1 else 0))%nat.
Proof. intros Hb. rewrite (take_S_r _ _ _ Hb), count_ones_app, count_ones_cons. change (count_ones (@nil bool)) with 0%nat. lia. Qed.
Lemma count_ones_take_one (l : list bool) (i : nat) : l !! i = Some true -> count_ones (take (S i) l) = S (count_ones (take i l)).
Proof. intros Hb. rewrite (count_ones_take_S _ _ _ Hb). lia. Qed.
Lemma count_ones_take_zero (l : list bool) (i : nat) : l !! i = Some false -> count_ones (take (S i) l) = count_ones (take i l).
Proof. intros Hb. rewrite (count_ones_take_S _ _ _ Hb). lia. Qed.
Lemma count_ones_take_le l i j : (i <= j)%nat -> (count_ones (take i l) <= count_ones (take j l))%nat.
Proof.
  intros Hle. rewrite <-(take_drop i (take j l)), count_ones_app, take_take, Nat.min_l by lia. lia.
Qed.
Lemma count_ones_take_total l i : (count_ones (take i l) <= count_ones l)%nat.
Proof. rewrite <-(take_drop i l) at 2. rewrite count_ones_app. lia. Qed.

Lemma word_low_bits w b : (b < 64)%nat -> word_bits (low_bits w b) = take b (word_bits w) ++ replicate (64 - b) false.
Proof.
  intros Hb. apply list_eq. intros i. destruct (Nat.lt_ge_cases i 64) as [Hi|Hi].
  - rewrite lookup_word_bits by done. unfold low_bits. rewrite Z.shiftl_1_l.
    replace (2 ^ Z.of_nat b - 1) with (Z.ones (Z.of_nat b)) by (rewrite Z.ones_equiv; lia).
    rewrite Z.land_spec. destruct (Nat.lt_ge_cases i b) as [Hib|Hib].
    + rewrite Z.ones_spec_low, andb_true_r by lia. rewrite lookup_app_l by (rewrite length_take, length_word_bits; lia).
      rewrite lookup_take_lt by done. by rewrite lookup_word_bits.
    + rewrite Z.ones_spec_high, andb_false_r by lia. rewrite lookup_app_r by (rewrite length_take, length_word_bits; lia).
      rewrite length_take, length_word_bits. rewrite lookup_replicate_2 by lia. done.
  - rewrite !lookup_ge_None_2; [done| |]; rewrite ?length_app, ?length_take, ?length_replicate, length_word_bits; lia.
Qed.

(** ** The index *)

Lemma int32_small z : 0 <= z < 2 ^ 31 -> int32 z = z.
Proof. intros Hz. unfold int32. rewrite Z.mod_small; lia. Qed.

Lemma prefix_sums_spec bm : forall acc k,
  0 <= acc -> acc + Z.of_nat (count_ones (bits_of bm)) < 2 ^ 31 -> (k <= length bm)%nat ->
  prefix_sums acc bm !! k = Some (acc + Z.of_nat (count_ones (take (64 * k) (bits_of bm)))).
Proof.
  induction bm as [|w bm IH]; intros acc k Ha Ht Hk.
  - assert (k = 0%nat) as -> by (cbn in Hk; lia). cbn. f_equal. lia.
  - destruct k as [|k].
    { rewrite Nat.mul_0_r, take_0. change (count_ones (@nil bool)) with 0%nat. rewrite Z.add_0_r. done. }
    cbn [length] in Hk. rewrite bits_of_cons, count_ones_app in Ht. change (count_ones (word_bits w)) with (OnesCount64 w) in Ht.
    change (prefix_sums acc (w :: bm) !! S k) with (prefix_sums (int32 (acc + Z.of_nat (OnesCount64 w))) bm !! k).
    rewrite int32_small by lia. rewrite IH by lia. f_equal. rewrite bits_of_cons.
    replace (64 * S k)%nat with (length (word_bits w) + 64 * k)%nat by (rewrite length_word_bits; lia).
    rewrite take_app_add, count_ones_app. unfold OnesCount64. lia.
Qed.

(** Sets built by [newSuccinctBits] with fewer than 2^31 ones. *)
Record indexed (s : succinctBits) : Prop := {
  ix_sums : wordOnes s = prefix_sums 0 (labelBitmap s);
  ix_small : Z.of_nat (count_ones (bits_of (labelBitmap s))) < 2 ^ 31;
}.

Lemma rank_spec s i : indexed s -> (i <= 64 * length (labelBitmap s))%nat ->
  rank s i = Some (Z.of_nat (count_ones (take i (bits_of (labelBitmap s))))).
Proof.
  intros [Hs Hn] Hi. unfold rank. set (B := bits_of (labelBitmap s)) in *.
  pose proof (Nat.div_mod i 64 ltac:(lia)) as Ed. pose proof (Nat.mod_upper_bound i 64 ltac:(lia)) as Hm.
  assert (Hw : (i / 64 <= length (labelBitmap s))%nat) by (apply Nat.Div0.div_le_upper_bound; lia).
  rewrite Hs, prefix_sums_spec by (done || lia). cbn [mbind option_bind]. fold B.
  destruct (Nat.eqb_spec (i mod 64) 0) as [E0|E0].
  - f_equal. replace (64 * (i / 64))%nat with i by lia. lia.
  - assert (Hlt : (i / 64 < length (labelBitmap s))%nat) by lia.
    destruct (lookup_lt_is_Some_2 _ _ Hlt) as [w Ew]. rewrite Ew. cbn [mbind option_bind]. f_equal.
    unfold OnesCount64. rewrite word_low_bits by done. rewrite count_ones_app, count_ones_replicate.
    assert (Esplit : take i B = take (64 * (i / 64)) B ++ take (i mod 64) (word_bits w)).
    { rewrite Ed at 1. rewrite <-take_take_drop. f_equal. unfold B.
      rewrite <-(take_drop_middle _ _ _ Ew). unfold bits_of. rewrite fmap_app, concat_app. cbn [fmap list_fmap concat].
      change (concat (word_bits <$> take (i / 64) (labelBitmap s))) with (bits_of (take (i / 64) (labelBitmap s))).
      rewrite drop_app_length' by (rewrite length_bits_of, length_take; lia).
      rewrite take_app_le by (rewrite length_word_bits; lia). done. }
    rewrite Esplit, count_ones_app. lia.
Qed.

Lemma countZeros_spec s i : indexed s -> (i <= 64 * length (labelBitmap s))%nat ->
  countZeros s i = Some (i - count_ones (take i (bits_of (labelBitmap s))))%nat.
Proof.
  intros Hix Hi. unfold countZeros. rewrite rank_spec by done. cbn [mbind option_bind].
  pose proof (count_ones_length (take i (bits_of (labelBitmap s)))) as Hl. rewrite length_take in Hl.
  destruct (Z.ltb_spec (Z.of_nat i) (Z.of_nat (count_ones (take i (bits_of (labelBitmap s)))))); [lia|].
  f_equal. lia.
Qed.

Lemma select_bit_spec l : forall p b r,
  l !! p = Some true -> r = Z.of_nat (count_ones (take p l)) -> select_bit l b r = Some (b + p)%nat.
Proof.
  induction l as [|x l IH]; intros p b r Hp ->; [done|]. destruct p as [|p].
  - cbn in Hp. injection Hp as ->. cbn. f_equal. lia.
  - cbn in Hp. cbn [take]. rewrite count_ones_cons. destruct x; cbn [select_bit].
    + destruct (Z.eqb_spec (Z.of_nat (1 + count_ones (take p l))) 0); [lia|].
      rewrite (IH p) by (done || lia). f_equal. lia.
    + rewrite (IH p) by (done || lia). f_equal. lia.
Qed.

Section search.
Context (s : succinctBits) (Hix : indexed s).
Abbreviation B := (bits_of (labelBitmap s)).
Abbreviation W := (length (labelBitmap s)).

(** Ones before a word. *)
Definition sums (k : nat) : Z := Z.of_nat (count_ones (take (64 * k) B)).

Lemma wordOnes_sums k : (k <= W)%nat -> wordOnes s !! k = Some (sums k).
Proof. intros Hk. destruct Hix as [-> Hs]. rewrite prefix_sums_spec by (done || lia). done. Qed.

Lemma sums_mono j k : (j <= k)%nat -> sums j <= sums k.
Proof. intros Hjk. unfold sums. pose proof (count_ones_take_le B (64 * j) (64 * k) ltac:(lia)). lia. Qed.

(** The binary search finds the word of the [i]-th one. *)
Lemma select_word_spec fuel i : forall lo hi,
  (hi - lo < fuel)%nat -> (lo <= hi <= W)%nat -> sums lo <= i -> i < sums W ->
  (hi = W \/ i < sums (S hi)) ->
  exists k, select_word fuel s i lo hi = Some k /\ (k < W)%nat /\ sums k <= i < sums (S k).
Proof.
  induction fuel as [|fuel IH]; intros lo hi Hf Hle Hlo Htot Hhi; [lia|]. cbn [select_word].
  destruct (Nat.ltb_spec lo hi) as [Hlt|Hge].
  - assert (Hmid : (lo <= (lo + hi) / 2 < hi)%nat).
    { split; [apply Nat.div_le_lower_bound; lia|apply Nat.Div0.div_lt_upper_bound; lia]. }
    rewrite wordOnes_sums by lia. cbn [mbind option_bind]. destruct (Z.leb_spec (sums (S ((lo + hi) / 2))) i).
    + apply IH; (lia || done).
    + apply IH; (lia || (right; lia) || done).
  - assert (lo = hi) as -> by lia. exists hi. split; [done|].
    destruct Hhi as [->|Hhi]; [lia|]. split; [|done].
    destruct (Nat.lt_ge_cases hi W) as [?|Hw]; [done|]. assert (hi = W) as -> by lia. lia.
Qed.

Lemma select_next_spec p : B !! p = Some true ->
  select_next s (Z.of_nat (count_ones (take p B))) = Some (S p).
Proof.
  intros Hp. set (i := Z.of_nat (count_ones (take p B))).
  assert (HpW : (p < 64 * W)%nat) by (rewrite <-length_bits_of; by eapply lookup_lt_Some).
  assert (Htot : i < sums W).
  { unfold sums, i. rewrite (take_ge B (64 * W)) by (rewrite length_bits_of; lia).
    pose proof (count_ones_take_one _ _ Hp). pose proof (count_ones_take_total B (S p)). lia. }
  unfold select_next. destruct (select_word_spec (S W) i 0 W) as (k & -> & Hk & Hs1 & Hs2); try lia.
  { change (sums 0) with 0. lia. }
  cbn [mbind option_bind]. rewrite wordOnes_sums by lia. cbn [mbind option_bind].
  destruct (lookup_lt_is_Some_2 (labelBitmap s) k Hk) as [x Ex]. rewrite Ex. cbn [mbind option_bind].
  assert (H1 : (64 * k <= p)%nat).
  { destruct (Nat.lt_ge_cases p (64 * k)) as [Hlt|]; [|done].
    pose proof (count_ones_take_le B (S p) (64 * k) ltac:(lia)) as Hc. rewrite (count_ones_take_one _ _ Hp) in Hc.
    unfold sums, i in *. lia. }
  assert (H2 : (p < 64 * S k)%nat).
  { destruct (Nat.lt_ge_cases p (64 * S k)) as [|Hge]; [done|].
    pose proof (count_ones_take_le B (64 * S k) p ltac:(lia)). unfold sums, i in *. lia. }
  assert (EB : B = bits_of (take k (labelBitmap s)) ++ word_bits x ++ bits_of (drop (S k) (labelBitmap s))).
  { rewrite <-(take_drop_middle _ _ _ Ex) at 1. unfold bits_of. by rewrite fmap_app, concat_app. }
  assert (El : length (bits_of (take k (labelBitmap s))) = (64 * k)%nat) by (rewrite length_bits_of, length_take; lia).
  assert (Hbit : word_bits x !! (p - 64 * k)%nat = Some true).
  { rewrite EB, lookup_app_r, El in Hp by lia. rewrite lookup_app_l in Hp by (rewrite length_word_bits; lia). done. }
  rewrite (select_bit_spec _ (p - 64 * k)); [f_equal; lia|done|].
  unfold i, sums. rewrite EB. replace p with (64 * k + (p - 64 * k))%nat at 1 by lia.
  rewrite <-El at 1. rewrite take_app_add, count_ones_app.
  rewrite (take_app_le (word_bits x)) by (rewrite length_word_bits; lia).
  rewrite take_app_length' by done. lia.
Qed.
End search.

(** ** The trie *)

(** A checked set: one more one than zeros up to the last one, a label per zero, a leaf bit
    per node. *)
Record louds (s : succinctBits) : Prop := {
  lo_indexed : indexed s;
  lo_last : exists last, bits_of (labelBitmap s) !! last = Some true /\
    count_ones (take (S last) (bits_of (labelBitmap s))) = count_ones (bits_of (labelBitmap s)) /\
    (S last = 2 * count_ones (bits_of (labelBitmap s)) - 1)%nat;
  lo_labels : length (labels s) = (count_ones (bits_of (labelBitmap s)) - 1)%nat;
  lo_leaves : (count_ones (bits_of (labelBitmap s)) <= 64 * length (leaves s))%nat;
}.

(** The position of the [i]-th one, and where the children of a node begin. *)
Fixpoint sel (l : list bool) (i : nat) : nat :=
  match l with
  | [] => 0
  | true :: l' => match i with O => 0 | S i' => S (sel l' i') end
  | false :: l' => S (sel l' i)
  end.

Definition first_bit (s : succinctBits) (n : nat) : nat :=
  match n with O => 0 | S k => S (sel (bits_of (labelBitmap s)) k) end.

(** The children from a run of zeros: labels and node numbers. *)
Fixpoint kids (l : list bool) (lb : bytes) (m : nat) : list (byte * nat) :=
  match l, lb with
  | false :: l', c :: lb' => (c, m) :: kids l' lb' (S m)
  | _, _ => []
  end.

Definition kids_at (s : succinctBits) (n bm : nat) : list (byte * nat) :=
  kids (drop bm (bits_of (labelBitmap s))) (drop (bm - n) (labels s)) (S bm - n).
Definition edges (s : succinctBits) (n : nat) : list (byte * nat) := kids_at s n (first_bit s n).

Definition is_leaf (s : succinctBits) (n : nat) : bool := default false (getBit (leaves s) n).

Lemma sel_spec l : forall i, (i < count_ones l)%nat ->
  l !! sel l i = Some true /\ count_ones (take (sel l i) l) = i.
Proof.
  induction l as [|b l IH]; intros i Hi; [by unfold count_ones in Hi; cbn in Hi; lia|]. rewrite count_ones_cons in Hi. destruct b.
  - destruct i as [|i]; [done|]. destruct (IH i ltac:(lia)) as [H1 H2]. cbn [sel]. split; [done|]. cbn [take].
    rewrite count_ones_cons, H2. done.
  - destruct (IH i ltac:(lia)) as [H1 H2]. cbn [sel]. split; [done|]. cbn [take]. by rewrite count_ones_cons, H2.
Qed.

Section trie.
Context (s : succinctBits) (Hlo : louds s).
Abbreviation B := (bits_of (labelBitmap s)).
Abbreviation N := (count_ones (bits_of (labelBitmap s))).

(** The matcher stands among the children of a node. *)
Definition standing (n bm : nat) : Prop :=
  count_ones (take bm B) = n /\ (n < N)%nat.

Lemma standing_bit n bm : standing n bm -> exists b, B !! bm = Some b /\ (bm < 64 * length (labelBitmap s))%nat.
Proof.
  intros [H1 H2]. assert (Hl : (bm < length B)%nat).
  { destruct (Nat.lt_ge_cases bm (length B)) as [|Hge]; [done|]. rewrite take_ge in H1 by done. lia. }
  destruct (lookup_lt_is_Some_2 _ _ Hl) as [b Hb]. rewrite length_bits_of in Hl. eauto.
Qed.

(** A zero among the children: it has a label, and its number is a node. *)
Lemma standing_zero n bm : standing n bm -> B !! bm = Some false ->
  standing n (S bm) /\ (n <= bm)%nat /\ (bm - n < length (labels s))%nat /\
  countZeros s (S bm) = Some (S bm - n)%nat /\ (0 < S bm - n < N)%nat.
Proof.
  intros [H1 H2] Hb. destruct Hlo as [Hix (last & Hl1 & Hl2 & Hl3) Hlb _].
  pose proof (count_ones_length (take bm B)) as Hc. rewrite length_take in Hc.
  assert (Hle : (bm < S last)%nat).
  { destruct (Nat.lt_ge_cases bm (S last)) as [|Hge]; [done|].
    pose proof (count_ones_take_le B (S last) bm Hge). lia. }
  assert (Hz : count_ones (take (S bm) B) = n) by (by rewrite (count_ones_take_zero _ _ Hb)).
  assert (Hlast : (bm <> last)%nat) by (intros ->; congruence).
  assert (Hzn : (S bm - n < N)%nat).
  { (* zeros up to [bm] are at most the zeros up to [last] *)
    pose proof (count_ones_length (take (last - bm) (drop bm B))) as Hd.
    assert (E : take (S last) B = take (S bm) B ++ take (S last - S bm) (drop (S bm) B)).
    { rewrite take_take_drop. f_equal. lia. }
    pose proof Hl2 as Hl2'. rewrite E, count_ones_app, Hz in Hl2'.
    pose proof (count_ones_length (take (S last - S bm) (drop (S bm) B))) as Hd2. rewrite length_take in Hd2. lia. }
  split; [by split|]. split; [lia|]. split; [lia|]. split; [|lia].
  rewrite countZeros_spec; [|done|]; [by rewrite Hz|]. assert (Hlen : (bm < length B)%nat) by (by eapply lookup_lt_Some).
  rewrite length_bits_of in Hlen. lia.
Qed.

Lemma first_bit_standing n : (n < N)%nat -> standing n (first_bit s n).
Proof.
  intros Hn. unfold standing, first_bit. destruct n as [|k]; [done|].
  destruct (sel_spec B k ltac:(lia)) as [H1 H2]. split; [|done]. by rewrite (count_ones_take_one _ _ H1), H2.
Qed.

Lemma select_first n : (0 < n < N)%nat -> select_next s (Z.of_nat n - 1) = Some (first_bit s n).
Proof.
  intros Hn. destruct n as [|k]; [lia|]. destruct (sel_spec B k ltac:(lia)) as [H1 H2].
  replace (Z.of_nat (S k) - 1) with (Z.of_nat (count_ones (take (sel B k) B))) by lia.
  apply select_next_spec; [apply Hlo|done].
Qed.

Lemma kids_at_zero n bm c : standing n bm -> B !! bm = Some false -> labels s !! (bm - n)%nat = Some c ->
  kids_at s n bm = (c, (S bm - n)%nat) :: kids_at s n (S bm).
Proof.
  intros Hst Hb Hc. destruct (standing_zero n bm Hst Hb) as (_ & Hle & _). unfold kids_at.
  rewrite (drop_S _ _ _ Hb), (drop_S _ _ _ Hc). cbn [kids]. f_equal. f_equal; [f_equal; lia|lia].
Qed.

Lemma kids_at_one n bm : B !! bm = Some true -> kids_at s n bm = [].
Proof. intros Hb. unfold kids_at. by rewrite (drop_S _ _ _ Hb). Qed.

Lemma leaf_bit n : (n < N)%nat -> getBit (leaves s) n = Some (is_leaf s n).
Proof.
  intros Hn. unfold is_leaf. rewrite getBit_bits. pose proof (lo_leaves _ Hlo) as Hl.
  destruct (lookup_lt_is_Some_2 (bits_of (leaves s)) n) as [b ->]; [|done]. rewrite length_bits_of. lia.
Qed.

Lemma label_at_ok n bm : standing n bm -> B !! bm = Some false ->
  exists c, labels s !! (bm - n)%nat = Some c /\ label_at s bm n = Some c.
Proof.
  intros Hst Hb. destruct (standing_zero n bm Hst Hb) as (_ & Hle & Hlt & _).
  destruct (lookup_lt_is_Some_2 _ _ Hlt) as [c Hc]. exists c. split; [done|]. unfold label_at.
  destruct (Nat.ltb_spec bm n); [lia|done].
Qed.

(** ** The walk *)

(** The inner loop over a list of children. *)
Fixpoint scan_kids (l : list (byte * nat)) (c : byte) : bool + nat :=
  match l with
  | [] => inl false
  | (lb, m) :: l' =>
      if bool_decide (lb = prefixLabel) then inl true
      else if bool_decide (lb = rootLabel) && bool_decide (c = dot) && is_leaf s m then inl true
      else if bool_decide (lb = c) then inr m
      else scan_kids l' c
  end.

Definition special (lb : byte) : bool := bool_decide (lb = prefixLabel) || bool_decide (lb = rootLabel).

Fixpoint walk (key : bytes) (n : nat) : bool :=
  match key with
  | [] => is_leaf s n || existsb (fun e => special e.1) (edges s n)
  | c :: key' => match scan_kids (edges s n) c with inl b => b | inr m => walk key' m end
  end.

Lemma has_scan_spec c n fuel : forall bm, standing n bm -> (64 * length (labelBitmap s) < fuel + bm)%nat ->
  match scan_kids (kids_at s n bm) c with
  | inl b => has_scan fuel s c n bm = ScanRet b
  | inr m => (0 < m < N)%nat /\ exists bm', has_scan fuel s c n bm = ScanBreak bm' /\ countZeros s (S bm') = Some m
  end.
Proof.
  induction fuel as [|fuel IH]; intros bm Hst Hf; destruct (standing_bit n bm Hst) as (b & Hb & Hlt); [lia|].
  cbn [has_scan]. rewrite getBit_bits, Hb. destruct b.
  { by rewrite kids_at_one. }
  destruct (label_at_ok n bm Hst Hb) as (lb & Hlb & ->). rewrite (kids_at_zero _ _ lb) by done.
  destruct (standing_zero n bm Hst Hb) as (Hst' & Hle & _ & Hz & Hm). cbn [scan_kids].
  case_bool_decide as E1; [done|]. rewrite Hz. cbn [mbind option_bind].
  set (m := (S bm - n)%nat) in *. rewrite leaf_bit by lia.
  assert (Hroot : (if bool_decide (lb = rootLabel) then (if bool_decide (c = dot) then Some (is_leaf s m) else Some false)
                   else Some false) = Some (bool_decide (lb = rootLabel) && bool_decide (c = dot) && is_leaf s m)).
  { by destruct (bool_decide (lb = rootLabel)), (bool_decide (c = dot)). }
  rewrite Hroot. destruct (bool_decide (lb = rootLabel) && bool_decide (c = dot) && is_leaf s m); [done|].
  destruct (bool_decide (lb = c)).
  - split; [lia|]. exists bm. done.
  - apply IH; [done|lia].
Qed.

Lemma has_tail_spec n fuel : forall bm, standing n bm -> (64 * length (labelBitmap s) < fuel + bm)%nat ->
  has_tail fuel s n bm = Found (existsb (fun e => special e.1) (kids_at s n bm)).
Proof.
  induction fuel as [|fuel IH]; intros bm Hst Hf; destruct (standing_bit n bm Hst) as (b & Hb & Hlt); [lia|].
  cbn [has_tail]. rewrite getBit_bits, Hb. destruct b.
  { by rewrite kids_at_one. }
  destruct (label_at_ok n bm Hst Hb) as (lb & Hlb & ->). rewrite (kids_at_zero _ _ lb) by done.
  destruct (standing_zero n bm Hst Hb) as (Hst' & _). cbn [existsb fst]. fold (special lb).
  destruct (special lb); [done|]. cbn [orb]. apply IH; [done|lia].
Qed.

(** The matcher stays inside the slices and walks the trie. *)
Lemma has_loop_walk key : forall n, (n < N)%nat -> has_loop s key n (first_bit s n) = Found (walk key n).
Proof.
  induction key as [|c key IH]; intros n Hn; cbn [has_loop walk].
  - rewrite leaf_bit by done. destruct (is_leaf s n); [done|]. cbn [orb]. unfold edges.
    apply has_tail_spec; [by apply first_bit_standing|]. unfold scan_fuel. lia.
  - pose proof (has_scan_spec c n (scan_fuel s) (first_bit s n) (first_bit_standing n Hn)) as Hs. unfold edges.
    destruct (scan_kids (kids_at s n (first_bit s n)) c) as [b|m].
    + by rewrite Hs by (unfold scan_fuel; lia).
    + destruct Hs as (Hm & bm' & -> & ->); [unfold scan_fuel; lia|]. rewrite select_first by done. apply IH. lia.
Qed.
End trie.

(** ** What the reader checks *)

Lemma count_ones_none l : (forall i, l !! i <> Some true) -> count_ones l = 0%nat.
Proof.
  induction l as [|b l IH]; intros Hn; [done|]. rewrite count_ones_cons, IH by (intros i; apply (Hn (S i))).
  destruct b; [by destruct (Hn 0%nat)|done].
Qed.

Lemma word_zero : count_ones (word_bits 0) = 0%nat.
Proof. by vm_compute. Qed.

Lemma word_last w : in_u64 w -> w <> 0 ->
  word_bits w !! Z.to_nat (Z.log2 w) = Some true /\
  count_ones (take (S (Z.to_nat (Z.log2 w))) (word_bits w)) = count_ones (word_bits w).
Proof.
  intros [H0 H1] Hne. pose proof (Z.log2_nonneg w). assert (Hlt : Z.log2 w < 64) by (apply Z.log2_lt_pow2; lia).
  split.
  - rewrite lookup_word_bits by lia. rewrite Z2Nat.id by done. rewrite Z.bit_log2 by lia. done.
  - rewrite <-(take_drop (S (Z.to_nat (Z.log2 w))) (word_bits w)) at 2. rewrite count_ones_app.
    rewrite (count_ones_none (drop _ _)); [lia|]. intros i. rewrite lookup_drop.
    destruct (Nat.lt_ge_cases (S (Z.to_nat (Z.log2 w)) + i) 64) as [Hi|Hi].
    + rewrite lookup_word_bits by done. rewrite Z.bits_above_log2 by lia. done.
    + rewrite lookup_ge_None_2 by (rewrite length_word_bits; lia). done.
Qed.

Lemma scan_words_spec l : forall wi ones last0, Forall in_u64 l ->
  exists L, scan_words wi l ones last0 = ((ones + count_ones (bits_of l))%nat, L) /\
  ((count_ones (bits_of l) = 0%nat /\ L = last0) \/
   exists p, L = Z.of_nat (64 * wi + p) /\ bits_of l !! p = Some true /\
     count_ones (take (S p) (bits_of l)) = count_ones (bits_of l)).
Proof.
  induction l as [|w l IH]; intros wi ones last0 Hu; cbn [scan_words].
  { exists last0. split; [f_equal; unfold count_ones; cbn; lia|by left]. }
  apply Forall_cons in Hu as [Hw Hl]. set (last1 := if w =? 0 then last0 else _).
  destruct (IH (S wi) (ones + OnesCount64 w)%nat last1 Hl) as (L & E & HL). exists L.
  rewrite bits_of_cons, count_ones_app. split; [rewrite E; f_equal; unfold OnesCount64; lia|].
  destruct HL as [[H0 HL]|(p & HL & Hp1 & Hp2)].
  - rewrite H0, Nat.add_0_r. unfold last1 in HL. destruct (Z.eqb_spec w 0) as [->|Hne].
    + left. by rewrite word_zero.
    + right. destruct (word_last w Hw Hne) as [H1 H2]. exists (Z.to_nat (Z.log2 w)). pose proof (Z.log2_nonneg w).
      assert (Hlt : (Z.to_nat (Z.log2 w) < 64)%nat) by (rewrite <-(length_word_bits w); by eapply lookup_lt_Some).
      split; [lia|]. split; [by apply lookup_app_l_Some|].
      rewrite take_app_le by (rewrite length_word_bits; lia). done.
  - right. exists (64 + p)%nat. split; [lia|]. rewrite lookup_app_r by (rewrite length_word_bits; lia).
    rewrite length_word_bits. replace (64 + p - 64)%nat with p by lia. split; [done|].
    replace (S (64 + p)) with (length (word_bits w) + S p)%nat by (rewrite length_word_bits; lia).
    rewrite take_app_add, count_ones_app, Hp2. done.
Qed.

Lemma singSuccinct_louds lv bm lb s :
  Forall in_u64 bm -> Z.of_nat (64 * length bm) < 2 ^ 31 -> singSuccinct lv bm lb = Some s -> louds s.
Proof.
  intros Hu Hsz. unfold singSuccinct. destruct (scan_words_spec bm 0 0 (-1) Hu) as (L & -> & HL). cbn [Nat.add].
  set (n := count_ones (bits_of bm)) in *. destruct (negb _ || negb _) eqn:E; [done|]. intros [= <-].
  apply orb_false_iff in E as [E1 E2]. apply negb_false_iff, Z.eqb_eq in E1, E2. unfold len in E2.
  assert (Hn : Z.of_nat n < 2 ^ 31).
  { pose proof (count_ones_length (bits_of bm)) as Hc. rewrite length_bits_of in Hc. fold n in Hc. lia. }
  destruct HL as [[H0 ->]|(p & -> & Hp1 & Hp2)]; [lia|]. split; cbn [labelBitmap leaves labels newSuccinctBits].
  - split; [done|exact Hn].
  - exists p. split; [done|]. split; [done|]. fold n. lia.
  - fold n. lia.
  - fold n. rewrite length_app, length_replicate. pose proof (Nat.div_mod (n + 63) 64 ltac:(lia)) as Hd.
    pose proof (Nat.mod_upper_bound (n + 63) 64 ltac:(lia)) as Hm. revert Hd Hm.
    generalize ((n + 63) mod 64)%nat. intros r Hd Hm.
    change (n <= 64 * (length lv + ((n + 63) / 64 - length lv)))%nat. revert Hd. generalize ((n + 63) / 64)%nat. lia.
Qed.

(** ** Stored names *)

Section stored.
Context (s : succinctBits).

(** Following labels from a node. *)
Inductive path : nat -> bytes -> nat -> Prop :=
| path_nil n : path n [] n
| path_cons n c m w k : (c, m) ∈ edges s n -> path m w k -> path n (c :: w) k.

Definition stored (w : bytes) : Prop := exists k, path 0 w k /\ is_leaf s k = true.

(** The tries the writers produce: the labels of a node ascend, and the marks end names. *)
Definition sorted_kids (l : list (byte * nat)) : Prop :=
  StronglySorted (fun a b => b2z a.1 < b2z b.1) l.
Record trie_ok : Prop := {
  to_sorted : forall w n, path 0 w n -> sorted_kids (edges s n);
  to_marks : forall w n lb m, path 0 w n -> (lb, m) ∈ edges s n -> special lb = true -> is_leaf s m = true;
}.

Lemma path_app w1 : forall w2 a b c, path a w1 b -> path b w2 c -> path a (w1 ++ w2) c.
Proof.
  induction w1 as [|x w1 IH]; intros w2 a b c H1 H2; inversion H1; subst; [done|].
  cbn. eapply path_cons; [done|by eapply IH].
Qed.
Lemma path_inv_nil a b : path a [] b -> a = b.
Proof. by inversion 1. Qed.
Lemma path_inv_cons a c w b : path a (c :: w) b -> exists m, (c, m) ∈ edges s a /\ path m w b.
Proof. inversion 1; subst. eauto. Qed.

Lemma sorted_det l c m m' : sorted_kids l -> (c, m) ∈ l -> (c, m') ∈ l -> m = m'.
Proof.
  induction 1 as [|e l Hl IH Hf]; [by intros ?%not_elem_of_nil|].
  rewrite Forall_forall in Hf. intros [E1|H1]%elem_of_cons [E2|H2]%elem_of_cons.
  - congruence.
  - subst e. specialize (Hf _ H2). cbn in Hf. lia.
  - subst e. specialize (Hf _ H1). cbn in Hf. lia.
  - auto.
Qed.

(** Scanning sorted children for a character above the marks. *)
Lemma scan_kids_spec l c : sorted_kids l -> b2z prefixLabel < b2z c ->
  match scan_kids s l c with
  | inl true => (exists m, (prefixLabel, m) ∈ l) \/ (c = dot /\ exists m, (rootLabel, m) ∈ l /\ is_leaf s m = true)
  | inl false => (forall m, (prefixLabel, m) ∉ l) /\ (c = dot -> forall m, (rootLabel, m) ∈ l -> is_leaf s m = false) /\
                 (forall m, (c, m) ∉ l)
  | inr m => (c, m) ∈ l /\ (forall k, (prefixLabel, k) ∉ l) /\
             (c = dot -> forall k, (rootLabel, k) ∈ l -> is_leaf s k = false)
  end.
Proof.
  intros Hs Hc. induction Hs as [|[lb k] l Hl IH Hf]; cbn [scan_kids].
  { split; [intros m; apply not_elem_of_nil|]. split; [by intros _ m ?%not_elem_of_nil|]. intros m. apply not_elem_of_nil. }
  rewrite Forall_forall in Hf. case_bool_decide as E1; [left; exists k; rewrite E1; by left|].
  destruct (bool_decide (lb = rootLabel) && bool_decide (c = dot) && is_leaf s k) eqn:E2.
  { apply andb_true_iff in E2 as [[E2 E3]%andb_true_iff E4]. apply bool_decide_eq_true in E2, E3. subst lb.
    right. split; [done|]. exists k. split; [by left|done]. }
  assert (Hroot : forall m, c = dot -> (rootLabel, m) ∈ (lb, k) :: l ->
    ((rootLabel, m) ∈ l -> is_leaf s m = false) -> is_leaf s m = false).
  { intros m Hd [[= <- <-]|Hin]%elem_of_cons Hi; [|by apply Hi]. rewrite !bool_decide_eq_true_2 in E2 by done. exact E2. }
  destruct (bool_decide_reflect (lb = c)) as [->|E3].
  - split; [by left|]. split.
    + intros m [[= Hp _]|Hin]%elem_of_cons; [by apply E1|]. specialize (Hf _ Hin). cbn [fst] in Hf. lia.
    + intros Hd m Hin. apply Hroot; [done..|]. intros Hin'. specialize (Hf _ Hin'). cbn [fst] in Hf.
      assert (b2z rootLabel < b2z prefixLabel) by (vm_compute; done). lia.
  - destruct (scan_kids s l c) as [[]|m].
    + destruct IH as [(m & Hm)|(Hd & m & Hm & Hlf)]; [left; exists m; by right|]. right. split; [done|]. exists m. split; [by right|done].
    + destruct IH as (H1 & H2 & H3). split; [|split].
      * intros m [[= Hp _]|Hin]%elem_of_cons; [by apply E1|by apply (H1 m)].
      * intros Hd m Hin. apply Hroot; [done..|]. by apply H2.
      * intros m [[= Hp _]|Hin]%elem_of_cons; [by apply E3|by apply (H3 m)].
    + destruct IH as (H1 & H2 & H3). split; [by right|]. split.
      * intros k' [[= Hp _]|Hin]%elem_of_cons; [by apply E1|by apply (H2 k')].
      * intros Hd k' Hin. apply Hroot; [done..|]. by apply H3.
Qed.

(** What a key matches below a node. *)
Definition hits (n : nat) (key : bytes) : Prop :=
  (exists k, path n key k /\ is_leaf s k = true) \/
  (exists p r k, key = p ++ r /\ path n (p ++ [prefixLabel]) k) \/
  (exists p r k, key = p ++ dot :: r /\ path n (p ++ [rootLabel]) k /\ is_leaf s k = true) \/
  (exists k, path n (key ++ [rootLabel]) k).

Lemma path_one n c k : path n [c] k <-> (c, k) ∈ edges s n.
Proof.
  split; [|intros H; eapply path_cons; [done|constructor]].
  intros (m & Hm & <-%path_inv_nil)%path_inv_cons. done.
Qed.

(** Descending along the only child with a label. *)
Lemma hits_cons n m c key : (c, m) ∈ edges s n -> sorted_kids (edges s n) ->
  (forall k, (prefixLabel, k) ∉ edges s n) -> (c = dot -> forall k, (rootLabel, k) ∈ edges s n -> is_leaf s k = false) ->
  hits n (c :: key) <-> hits m key.
Proof.
  intros Hc Hs Hp Hr. assert (Hd : forall w k, path n (c :: w) k <-> path m w k).
  { intros w k. split; [|by apply path_cons]. intros (m' & Hm' & Hk)%path_inv_cons. by rewrite (sorted_det _ _ _ _ Hs Hc Hm'). }
  unfold hits. split.
  - intros [(k & Hk & Hl)|[(p & r & k & E & Hk)|[(p & r & k & E & Hk & Hl)|(k & Hk)]]].
    + left. exists k. by rewrite <-Hd.
    + destruct p as [|c' p]; [by apply path_one in Hk; destruct (Hp k)|]. cbn in E. injection E as -> ->. right. left.
      exists p, r, k. split; [done|]. by apply Hd.
    + destruct p as [|c' p]; cbn in E; injection E as -> ->.
      * apply path_one in Hk. rewrite (Hr eq_refl k Hk) in Hl. done.
      * right. right. left. exists p, r, k. split; [done|]. split; [by apply Hd|done].
    + do 3 right. exists k. by apply Hd.
  - intros [(k & Hk & Hl)|[(p & r & k & -> & Hk)|[(p & r & k & -> & Hk & Hl)|(k & Hk)]]].
    + left. exists k. by rewrite Hd.
    + right. left. exists (c :: p), r, k. split; [done|]. by apply Hd.
    + right. right. left. exists (c :: p), r, k. split; [done|]. split; [by apply Hd|done].
    + do 3 right. exists k. by apply Hd.
Qed.

Lemma hits_nil n : hits n [] <-> is_leaf s n = true \/ exists lb m, (lb, m) ∈ edges s n /\ special lb = true.
Proof.
  unfold hits, special. split.
  - intros [(k & <-%path_inv_nil & Hl)|[(p & r & k & E & Hk)|[(p & r & k & E & _)|(k & Hk)]]]; [by left|..].
    + symmetry in E. apply app_eq_nil in E as [-> ->]. apply path_one in Hk. right. exists prefixLabel, k. by split.
    + by destruct p.
    + apply path_one in Hk. right. exists rootLabel, k. by split.
  - intros [Hl|(lb & m & Hm & Hsp)]; [left; exists n; split; [constructor|done]|].
    apply orb_true_iff in Hsp as [E|E]; apply bool_decide_eq_true in E as ->.
    + right. left. exists [], [], m. split; [done|]. by apply path_one.
    + do 3 right. exists m. by apply path_one.
Qed.

Lemma walk_hits : trie_ok -> forall key n w0, path 0 w0 n -> Forall (fun c => b2z prefixLabel < b2z c) key ->
  walk s key n = true <-> hits n key.
Proof.
  intros Hok. induction key as [|c key IH]; intros n w0 Hp0 Hkey; cbn [walk].
  - rewrite hits_nil, orb_true_iff, existsb_exists. split; (intros [?|H]; [by left|right]).
    + destruct H as ([lb m] & Hin%list_elem_of_In & Hsp). eauto.
    + destruct H as (lb & m & Hin%list_elem_of_In & Hsp). by exists (lb, m).
  - apply Forall_cons in Hkey as [Hc Hkey]. pose proof (to_sorted Hok _ _ Hp0) as Hs.
    pose proof (scan_kids_spec (edges s n) c Hs Hc) as Hscan. destruct (scan_kids s (edges s n) c) as [[]|m].
    + split; [intros _|done]. destruct Hscan as [(m & Hm)|(-> & m & Hm & Hl)].
      * right. left. exists [], (c :: key), m. split; [done|]. by apply path_one.
      * right. right. left. exists [], key, m. split; [done|]. split; [by apply path_one|done].
    + split; [done|]. destruct Hscan as (H1 & H2 & H3).
      assert (Hno : forall w k, ~ path n (c :: w) k) by (intros w k (m & Hm & _)%path_inv_cons; by apply (H3 m)).
      intros [(k & Hk & _)|[(p & r & k & E & Hk)|[(p & r & k & E & Hk & Hl)|(k & Hk)]]]; [by apply Hno in Hk|..|by apply Hno in Hk].
      * destruct p as [|c' p]; [apply path_one in Hk; by destruct (H1 k)|]. cbn in E. injection E as -> ->. by apply Hno in Hk.
      * destruct p as [|c' p]; cbn in E; injection E as -> ->; [|by apply Hno in Hk].
        apply path_one in Hk. rewrite (H2 eq_refl k Hk) in Hl. done.
    + destruct Hscan as (Hm & H1 & H2). rewrite (hits_cons n m c key) by done.
      apply (IH m (w0 ++ [c])); [|done]. eapply path_app; [exact Hp0|]. by apply path_one.
Qed.
End stored.

(** ** Domain names *)

Lemma reverse_loop_ascii d : forall fuel i b, is_ascii d = true -> (i <= length d)%nat -> (length d <= fuel + i)%nat ->
  length b = length d -> reverse_loop fuel d i b = Some (rev (drop i d) ++ drop (length d - i) b).
Proof.
  induction fuel as [|fuel IH]; intros i b Ha Hi Hf Hb; cbn [reverse_loop].
  { assert (i = length d) as -> by lia. rewrite drop_all, Nat.sub_diag, drop_0. done. }
  destruct (Nat.ltb_spec i (length d)) as [Hlt|Hge].
  - destruct (lookup_lt_is_Some_2 _ _ Hlt) as [c Hc]. rewrite (drop_S _ _ _ Hc).
    assert (Hc7 : b2z c < 128).
    { unfold is_ascii in Ha. rewrite forallb_forall in Ha. apply Z.ltb_lt, Ha. apply list_elem_of_In. by eapply list_elem_of_lookup_2. }
    rewrite DecodeRune_ascii, EncodeRune_ascii by done. unfold write_at. cbn [length].
    destruct (Nat.ltb_spec (length b) (length d - (i + 1) + 1)); [lia|]. cbn [mbind option_bind].
    rewrite IH; [|done|lia|lia|].
    2:{ rewrite !length_app, length_take, length_drop. cbn. lia. }
    f_equal. rewrite Nat.add_1_r. cbn [rev]. rewrite <-app_assoc. f_equal.
    rewrite drop_app_ge by (rewrite length_take; lia). rewrite length_take.
    replace (length d - S i - (length d - S i) `min` length b)%nat with 0%nat by lia. rewrite drop_0. cbn [app]. f_equal. f_equal. lia.
  - assert (i = length d) as -> by lia. rewrite drop_all, Nat.sub_diag, drop_0. done.
Qed.

Lemma reverseDomain_ascii d : is_ascii d = true -> reverseDomain d = Some (rev d).
Proof.
  intros Ha. unfold reverseDomain. rewrite reverse_loop_ascii; [|done|lia|lia|by rewrite length_replicate].
  rewrite drop_0, Nat.sub_0_r, drop_ge by (rewrite length_replicate; lia). by rewrite app_nil_r.
Qed.

(** A name is stored as such; a suffix, matching the name itself and everything below it,
    under the root mark; a raw suffix under the prefix mark. *)
Definition stored_name (s : succinctBits) (d : bytes) : Prop := stored s (rev d).
Definition stored_suffix (s : succinctBits) (d : bytes) : Prop := stored s (rev d ++ [rootLabel]).
Definition stored_raw (s : succinctBits) (d : bytes) : Prop := stored s (rev d ++ [prefixLabel]).

(** Printable ASCII, which host names are made of. *)
Definition host_byte (c : byte) : Prop := 32 < b2z c < 128.

Lemma louds_root s : louds s -> (0 < count_ones (bits_of (labelBitmap s)))%nat.
Proof.
  intros Hlo. pose proof (lo_last _ Hlo) as (last & Hl & Hc & _). rewrite (count_ones_take_one _ _ Hl) in Hc. lia.
Qed.

(** A set read from a rule-set file never makes the matcher read outside its slices:
    on any key the matcher returns, with the answer of the walk over the trie that the
    checked bitmaps encode. *)
Theorem sing_match_safe lv bm lb s key :
  Forall in_u64 bm -> Z.of_nat (64 * length bm) < 2 ^ 31 -> singSuccinct lv bm lb = Some s ->
  has s key = Found (walk s key 0).
Proof.
  intros Hu Hsz Hs. pose proof (singSuccinct_louds _ _ _ _ Hu Hsz Hs) as Hlo. apply (has_loop_walk s Hlo key 0).
  by apply louds_root.
Qed.

Lemma host_ascii d : Forall host_byte d -> is_ascii d = true.
Proof. intros Hd. unfold is_ascii. apply forallb_forall. intros c Hc%list_elem_of_In. rewrite Forall_forall in Hd. apply Z.ltb_lt, Hd, Hc. Qed.


(** ** The mihomo matcher, over sets without the single-label wildcard *)

Section mihomo.
Context (s : succinctBits) (Hlo : louds s).
Abbreviation N := (count_ones (bits_of (labelBitmap s))).
Abbreviation bitlen := (64 * length (labelBitmap s))%nat.

(** The walk with [+], which matches everything below. *)
Fixpoint scan_plus (l : list (byte * nat)) (c : byte) : bool + nat :=
  match l with
  | [] => inl false
  | (lb, m) :: l' =>
      if bool_decide (lb = complexWildcardByte) then inl true
      else if bool_decide (lb = c) then inr m
      else scan_plus l' c
  end.
Fixpoint walk_plus (key : bytes) (n : nat) : bool :=
  match key with
  | [] => is_leaf s n
  | c :: key' => match scan_plus (edges s n) c with inl b => b | inr m => walk_plus key' m end
  end.

(** The key as the matcher reads it. *)
Lemma revLowerAt_spec key i : revLowerAt key i = (map lower_byte (rev key)) !! i.
Proof.
  unfold revLowerAt. change (map lower_byte (rev key)) with (lower_byte <$> rev key). rewrite list_lookup_fmap. destruct (Nat.ltb_spec i (length key)) as [Hi|Hi].
  - f_equal. rewrite rev_alt. change (rev_append key []) with (reverse key). rewrite reverse_lookup by done. f_equal. lia.
  - rewrite lookup_ge_None_2; [done|]. rewrite length_rev. lia.
Qed.

Lemma m_run_mono f g key st r : m_run f s key st = Some r -> m_run (f + g) s key st = Some r.
Proof.
  revert st. induction f as [|f IH]; intros st; cbn; [done|]. destruct (m_step s key st); [done|done|apply IH].
Qed.

(** Scanning the children of a node takes a round per child. *)
Lemma m_scan key n i c : wildcardByte ∉ labels s -> revLowerAt key i = Some c -> forall k bm,
  standing s n bm -> (k + bm = bitlen)%nat ->
  match scan_plus (kids_at s n bm) c with
  | inl b => m_run k s key (mkM i n bm []) = Some (Found b)
  | inr m => (0 < m < N)%nat /\ forall f r,
      m_run f s key (mkM (S i) m (first_bit s m) []) = Some r -> m_run (k + f) s key (mkM i n bm []) = Some r
  end.
Proof.
  intros Hw Hc. induction k as [|k IH]; intros bm Hst Hk; destruct (standing_bit s n bm Hst) as (b & Hb & Hlt); [lia|].
  cbn [Nat.add m_run]. unfold m_step at 1 2. cbn [m_i m_bm m_node]. rewrite Hc, getBit_bits, Hb. destruct b.
  { rewrite kids_at_one by done. done. }
  destruct (label_at_ok s Hlo n bm Hst Hb) as (lb & Hlb & ->). rewrite (kids_at_zero s Hlo _ _ lb) by done.
  destruct (standing_zero s Hlo n bm Hst Hb) as (Hst' & Hle & _ & Hz & Hm). cbn [scan_plus].
  case_bool_decide as E1; [done|]. rewrite (bool_decide_eq_false_2 (lb = wildcardByte)).
  2:{ intros ->. apply Hw. by eapply list_elem_of_lookup_2. }
  destruct (bool_decide (lb = c)).
  - split; [lia|]. intros f r. rewrite Hz, select_first by (done || lia). cbn [m_stack]. rewrite Nat.add_comm. apply m_run_mono.
  - cbn [m_stack]. exact (IH (S bm) Hst' ltac:(lia)).
Qed.

(** The matcher terminates within a scan of the bitmap per character. *)
Lemma m_run_walk key : wildcardByte ∉ labels s -> forall k i n,
  (n < N)%nat -> (i + length k = length key)%nat -> k = drop i (map lower_byte (rev key)) ->
  m_run (S (length k) * S bitlen) s key (mkM i n (first_bit s n) []) = Some (Found (walk_plus k n)).
Proof.
  intros Hw. induction k as [|c k IH]; intros i n Hn Hi Hk.
  - cbn [length Nat.mul Nat.add m_run]. unfold m_step at 1. cbn [m_i m_node]. rewrite revLowerAt_spec, lookup_ge_None_2.
    2:{ rewrite length_map, length_rev. cbn in Hi. lia. }
    by rewrite leaf_bit.
  - assert (Hc : revLowerAt key i = Some c).
    { rewrite revLowerAt_spec. replace i with (i + 0)%nat by lia. rewrite <-lookup_drop, <-Hk. done. }
    pose proof (first_bit_standing s n Hn) as Hst. destruct (standing_bit s n _ Hst) as (_ & _ & Hlt).
    pose proof (m_scan key n i c Hw Hc (bitlen - first_bit s n) (first_bit s n) Hst ltac:(lia)) as Hs.
    cbn [walk_plus]. unfold edges. destruct (scan_plus (kids_at s n (first_bit s n)) c) as [b|m].
    + replace (S (length (c :: k)) * S bitlen)%nat with ((bitlen - first_bit s n) + (S bitlen * S (length k) + S (first_bit s n)))%nat
        by (cbn [length]; lia). by apply m_run_mono.
    + destruct Hs as [Hm Hs].
      replace (S (length (c :: k)) * S bitlen)%nat
        with ((bitlen - first_bit s n + S (length k) * S bitlen) + S (first_bit s n))%nat by (cbn [length]; lia).
      apply m_run_mono. apply Hs. apply IH; [lia|cbn in Hi; lia|].
      replace (S i) with (i + 1)%nat by lia. rewrite <-drop_drop, <-Hk. done.
Qed.
End mihomo.

(** The mihomo matcher on a set whose bitmaps are consistent and that has no [*] label:
    it returns, reads inside its slices, and answers as the walk of the lower-cased,
    reversed name. *)
Lemma mihomo_match_plain s d : louds s -> wildcardByte ∉ labels s -> is_ascii d = true ->
  mihomo_MatchDomain (S (length d) * S (64 * length (labelBitmap s))) s d =
  Some (Found (walk_plus s (map lower_byte (rev d)) 0)).
Proof.
  intros Hlo Hw Ha. unfold mihomo_MatchDomain, mihomo_key. rewrite (Ha : forallb _ d = true).
  pose proof (m_run_walk s Hlo d Hw (map lower_byte (rev d)) 0 0 (louds_root s Hlo)) as Hr.
  rewrite length_map, length_rev in Hr. apply Hr; [lia|by rewrite drop_0].
Qed.

(** Nothing checks the bitmaps of a [.mrs] file: a set of one label without a closing one
    is accepted and the first look-up reads past the labels. *)
Lemma mihomo_unchecked_panics : mihomo_MatchDomain 10 (newSuccinctBits [0] [0] [x61]) (bs "b") = Some Panic.
Proof. by vm_compute. Qed.

Module Examples.
(** The name [a.b] and everything at or below [x]: the strings [b.a] and [x\n]. *)
Definition lvs : list Z := [48].
Definition bmp : list Z := [1876].
Definition lbs : bytes := [x62; x78; x2e; x0a; x61].
Definition set : succinctBits := newSuccinctBits lvs bmp lbs.

Lemma set_read : singSuccinct lvs bmp lbs = Some set.
Proof. by vm_compute. Qed.

Lemma set_matches :
  sing_MatchDomain set (bs "a.b") = Found true /\ sing_MatchDomain set (bs "x") = Found true /\
  sing_MatchDomain set (bs "y.x") = Found true /\ sing_MatchDomain set (bs "c.b") = Found false /\
  sing_MatchDomain set (bs "yx") = Found false /\ sing_MatchDomain set (bs "b") = Found false.
Proof. by vm_compute. Qed.

Lemma set_louds : louds set.
Proof.
  apply (singSuccinct_louds lvs bmp lbs); [|by vm_compute|exact set_read].
  constructor; [|constructor]. unfold in_u64. lia.
Qed.

Lemma set_small w n k : path set n w k -> (n < 6)%nat -> (k < 6)%nat.
Proof.
  induction 1 as [n|n c m w k Hin Hp IH]; intros Hn; [done|]. apply IH.
  assert (Hall : forallb (fun n => forallb (fun e => (e.2 <? 6)%nat) (edges set n)) (seq 0 6) = true) by (by vm_compute).
  rewrite forallb_forall in Hall. specialize (Hall n ltac:(apply in_seq; lia)). rewrite forallb_forall in Hall.
  apply Nat.ltb_lt. apply (Hall (c, m)). by apply list_elem_of_In.
Qed.

(** A Boolean test of the order of children. *)
Fixpoint sortedb (l : list (byte * nat)) : bool :=
  match l with [] => true | e :: l' => forallb (fun e' => b2z e.1 <? b2z e'.1) l' && sortedb l' end.
Lemma sortedb_ok l : sortedb l = true -> sorted_kids l.
Proof.
  induction l as [|e l IH]; cbn; [constructor|]. intros [H1 H2]%andb_true_iff. constructor; [by apply IH|].
  apply Forall_forall. intros e' He'. rewrite forallb_forall in H1. apply Z.ltb_lt, H1. by apply list_elem_of_In.
Qed.

Lemma set_trie : trie_ok set.
Proof.
  split.
  - intros w n Hp. assert (Hn : (n < 6)%nat) by (eapply set_small; [exact Hp|lia]). apply sortedb_ok.
    assert (Hall : forallb (fun n => sortedb (edges set n)) (seq 0 6) = true) by (by vm_compute).
    rewrite forallb_forall in Hall. apply Hall, in_seq. lia.
  - intros w n lb m Hp Hin Hsp. assert (Hn : (n < 6)%nat) by (eapply set_small; [exact Hp|lia]).
    assert (Hall : forallb (fun n => forallb (fun e => negb (special e.1) || is_leaf set e.2) (edges set n)) (seq 0 6) = true)
      by (by vm_compute).
    rewrite forallb_forall in Hall. specialize (Hall n ltac:(apply in_seq; lia)). rewrite forallb_forall in Hall.
    specialize (Hall (lb, m) ltac:(by apply list_elem_of_In)). cbn [fst snd] in Hall. by rewrite Hsp in Hall.
Qed.

Lemma sing_match_safe_witness : has set (bs "b.a") = Found (walk set (bs "b.a") 0).
Proof.
  apply (sing_match_safe lvs bmp lbs set (bs "b.a")); [|vm_compute; reflexivity|exact set_read].
  constructor; [unfold in_u64; lia|constructor].
Defined.

End Examples.
