(* ===== verification/Ruleset.v ===== *)
(** * Package [ruleset]: text rule sets and address sets ([ruleset/ruleset.go], the address
    ranges of [ruleset/mrs.go] and [ruleset/srs.go])

    The sets implement the interfaces [DomainSet] and [IPSet] of the rule engine. *)
From S2P Require Import Prelude GoStd Netip Rule.
From Stdlib Require Import Init.Byte.

(** ** Domain sets *)

Record domainSet := mkDomainSet {
  d_exact : gset bytes;
  d_suffix : gset bytes;
  d_keyword : list bytes;
}.

(** The walk over the parents of a name; the name gets shorter in every round. *)
Fixpoint suffix_walk (fuel : nat) (m : gset bytes) (s : bytes) : bool :=
  match fuel with
  | O => false
  | S fuel' =>
      match s with
      | [] => false
      | _ =>
          if bool_decide (s ∈ m) then true
          else match IndexByte s x2e with
               | None => false
               | Some i => suffix_walk fuel' m (drop (S i) s)
               end
      end
  end.

Definition domainSet_match (d : domainSet) (host : bytes) : bool :=
  if bool_decide (host ∈ d_exact d) then true
  else if suffix_walk (length host) (d_suffix d) host then true
  else existsb (fun k => Contains host k) (d_keyword d).

Definition domainSet_iface (d : domainSet) : DomainSet := {| MatchDomain := domainSet_match d |}.

(** ** Address sets *)

Record ipSet := mkIPSet { prefixes : list Prefix }.

Definition ipSet_match (s : ipSet) (ip : Addr) : bool := existsb (fun p => Prefix_Contains p ip) (prefixes s).
Definition ipSet_iface (s : ipSet) : IPSet := {| MatchIP := ipSet_match s |}.

(** ** Lines *)

(** [bufio.ScanLines]: a carriage return before the newline goes with it; a line of 4 MiB
    or more ends the scan. *)
Definition max_line : Z := 4 * 1024 * 1024.

Definition drop_cr (l : bytes) : bytes := TrimSuffix l [x0d].

Fixpoint scan_lines (fuel : nat) (s : bytes) : list bytes :=
  match fuel with
  | O => []
  | S fuel' =>
      match s with
      | [] => []
      | _ =>
          match IndexByte s x0a with
          | None => if len s <? max_line then [drop_cr s] else []
          | Some i => if Z.of_nat i <? max_line then drop_cr (take i s) :: scan_lines fuel' (drop (S i) s) else []
          end
      end
  end.

(** [strings.Index]. *)
Fixpoint Index (s sub : bytes) : option nat :=
  if HasPrefix s sub then Some 0%nat
  else match s with [] => None | _ :: s' => S <$> Index s' sub end.

(** The lines [forEachLine] passes on. *)
Definition clean_line (raw : bytes) : option bytes :=
  let line := TrimSpace raw in
  if bool_decide (line = []) || HasPrefix line (bs "#") || HasPrefix line (bs "//") then None
  else Some (match Index line (bs " #") with Some i => TrimSpace (take i line) | None => line end).

Definition forEachLine {A} (data : bytes) (fn : A -> bytes -> A) (a : A) : A :=
  fold_left fn (omap clean_line (scan_lines (length data) data)) a.

(** [strings.SplitN(line, ",", 3)], as far as its first two fields; [None] for one field. *)
Definition split2 (line : bytes) : option (bytes * bytes) :=
  match IndexByte line x2c with
  | None => None
  | Some i =>
      let rest := drop (S i) line in
      Some (take i line, match IndexByte rest x2c with None => rest | Some j => take j rest end)
  end.

Section parse.
Context `{Unicode}.

Definition norm (d : bytes) : bytes := ToLower (TrimSuffix d (bs ".")).

Definition add_exact (d : domainSet) (x : bytes) : domainSet := mkDomainSet ({[x]} ∪ d_exact d) (d_suffix d) (d_keyword d).
Definition add_suffix (d : domainSet) (x : bytes) : domainSet := mkDomainSet (d_exact d) ({[x]} ∪ d_suffix d) (d_keyword d).
Definition add_keyword (d : domainSet) (x : bytes) : domainSet := mkDomainSet (d_exact d) (d_suffix d) (d_keyword d ++ [x]).
Definition empty_set : domainSet := mkDomainSet ∅ ∅ [].

Definition parseDomainLine (d : domainSet) (line : bytes) : domainSet :=
  if HasPrefix line (bs "full:") then add_exact d (norm (drop 5 line))
  else if HasPrefix line (bs "keyword:") then add_keyword d (ToLower (drop 8 line))
  else if HasPrefix line (bs "domain:") then add_suffix d (norm (drop 7 line))
  else if HasPrefix line (bs "+.") then add_suffix d (norm (drop 2 line))
  else if HasPrefix line (bs ".") then add_suffix d (norm (drop 1 line))
  else add_suffix d (norm line).

Definition ParseDomainList (data : bytes) : domainSet := forEachLine data parseDomainLine empty_set.

Definition ip_field (line : bytes) : bytes :=
  match split2 line with
  | Some (f0, f1) =>
      let t := ToUpper (TrimSpace f0) in
      if bool_decide (t = bs "IP-CIDR") || bool_decide (t = bs "IP-CIDR6") then TrimSpace f1 else line
  | None => line
  end.

Definition parseIPLine (s : ipSet) (line : bytes) : ipSet :=
  let line := ip_field line in
  match ParsePrefix line with
  | Some p => mkIPSet (prefixes s ++ [p])
  | None => match ParseAddr line with
            | Some ip => mkIPSet (prefixes s ++ [PrefixFrom ip (BitLen ip)])
            | None => s
            end
  end.

Definition ParseIPList (data : bytes) : ipSet := forEachLine data parseIPLine (mkIPSet []).

Definition classicalLine (d : domainSet) (line : bytes) : domainSet :=
  match split2 line with
  | None => d
  | Some (f0, f1) =>
      let val := TrimSpace f1 in
      let t := ToUpper (TrimSpace f0) in
      if bool_decide (t = bs "DOMAIN") then add_exact d (norm val)
      else if bool_decide (t = bs "DOMAIN-SUFFIX") then add_suffix d (norm val)
      else if bool_decide (t = bs "DOMAIN-KEYWORD") then add_keyword d (ToLower val)
      else d
  end.

Definition ParseClassical (data : bytes) : domainSet := forEachLine data classicalLine empty_set.
End parse.

(** ** Formats and look-up in sorted ranges *)

Inductive format := fmtText | fmtMRS | fmtSRS.

Definition detectFormat (b : bytes) : format :=
  match b with
  | x28 :: xb5 :: x2f :: xfd :: _ => fmtMRS
  | x53 :: x52 :: x53 :: _ => fmtSRS
  | _ => fmtText
  end.

(** [sort.Search]: every round halves [hi - lo]. *)
Fixpoint search_loop (fuel : nat) (f : nat -> bool) (i j : nat) : nat :=
  match fuel with
  | O => i
  | S fuel' =>
      if (i <? j)%nat then
        let h := ((i + j) / 2)%nat in
        if f h then search_loop fuel' f i h else search_loop fuel' f (S h) j
      else i
  end.
Definition Search (n : nat) (f : nat -> bool) : nat := search_loop (S n) f 0 n.

Section ranges.
Context {A : Type} (cmp : A -> A -> comparison).

Definition le_cmp (a b : A) : bool := match cmp a b with Gt => false | _ => true end.

(** [sort.Slice] by lower bounds. It is not stable; ranges with equal bounds may come in
    either order, here in that of an insertion sort. *)
Fixpoint insert_range (x : A * A) (l : list (A * A)) : list (A * A) :=
  match l with
  | [] => [x]
  | y :: l' => if le_cmp x.1 y.1 then x :: l else y :: insert_range x l'
  end.
Definition sort_ranges (l : list (A * A)) : list (A * A) := foldr insert_range [] l.

(** [MatchIP] of both range sets: the last range whose lower bound is not above. *)
Definition range_match (rr : list (A * A)) (t : A) : bool :=
  match Search (length rr) (fun i => match rr !! i with Some r => negb (le_cmp r.1 t) | None => true end) with
  | O => false
  | S idx => match rr !! idx with Some r => le_cmp t r.2 | None => false end
  end.
End ranges.

(** [ipRangeSet.MatchIP] ([mrs.go]) and [ipAddrRangeSet.MatchIP] ([srs.go]). *)
Definition ipRangeSet_match (rr : list (bytes * bytes)) (ip : Addr) : bool := range_match bytes_compare rr (As16 ip).
Definition ipAddrRangeSet_match (rr : list (Addr * Addr)) (ip : Addr) : bool := range_match Compare rr (Unmap ip).
