(* ===== verification/RulesetBin.v ===== *)
(** * Package [ruleset]: binary rule sets ([ruleset/mrs.go], [ruleset/srs.go], [Provider] of
    [ruleset/ruleset.go])

    A reader is a function on the bytes left. Decompression (zstd, zlib) and regular
    expressions are parameters. *)
From S2P Require Import Prelude GoStd Netip Rule Utf8 Succinct Ruleset.
From Stdlib Require Import Init.Byte.

(** What the source delegates: decompressing a whole file and compiling an expression. *)
Class Codecs := {
  zstd_decode : bytes -> option bytes;
  zlib_decode : bytes -> option bytes;
  regexp_compile : bytes -> option (bytes -> bool);
}.

Inductive readErr := ErrRead (e : io_err) | ErrOverflow | ErrFormat | ErrDepth | ErrFuel.

(** A reader over the bytes left. *)
Definition rd (A : Type) : Type := bytes -> res readErr (A * bytes).

#[export] Instance rd_ret : MRet rd := fun _ a r => Ok (a, r).
#[export] Instance rd_bind : MBind rd := fun _ _ f m r => match m r with Ok (a, r') => f a r' | Err e => Err e end.
Definition fail {A} (e : readErr) : rd A := fun _ => Err e.

Definition readFull (n : nat) : rd bytes := fun r => match ReadFull n r with Ok p => Ok p | Err e => Err (ErrRead e) end.
(** The same for a length that may exceed the input. *)
Definition readFullZ (n : Z) : rd bytes := fun r =>
  if len r <? n then Err (ErrRead (match r with [] => EOF | _ => ErrUnexpectedEOF end)) else readFull (Z.to_nat n) r.
Definition readByte : rd byte := fun r => match r with [] => Err (ErrRead EOF) | b :: r' => Ok (b, r') end.
(** [binary.Read] of a big-endian 64-bit integer. *)
Definition readU64 : rd Z := b ← readFull 8; mret (be_dec b).

(** The conversion to [int64]. *)
Definition int64 (z : Z) : Z := (z + 2 ^ 63) mod 2 ^ 64 - 2 ^ 63.

(** [binary.ReadUvarint]: at most ten bytes. *)
Fixpoint uvarint_loop (fuel : nat) (i : Z) (x : Z) (r : bytes) : res readErr (Z * bytes) :=
  match fuel with
  | O => Err ErrOverflow
  | S fuel' =>
      match r with
      | [] => Err (ErrRead (if i =? 0 then EOF else ErrUnexpectedEOF))
      | b :: r' =>
          if b2z b <? 0x80 then
            if (i =? 9) && (1 <? b2z b) then Err ErrOverflow
            else Ok (x + Z.shiftl (b2z b) (7 * i), r')
          else uvarint_loop fuel' (i + 1) (x + Z.shiftl (b2z b - 0x80) (7 * i)) r'
      end
  end.
Definition readUvarint : rd Z := uvarint_loop 10 0 0.

(** Big-endian words, eight bytes each. *)
Fixpoint words (n : nat) (b : bytes) : list Z :=
  match n with O => [] | S n' => be_dec (take 8 b) :: words n' (drop 8 b) end.
Definition readWords (n : Z) : rd (list Z) := b ← readFullZ (8 * n); mret (words (Z.to_nat n) b).

(** ** mihomo [.mrs] ([mrs.go]) *)

Definition mrsMagic : bytes := [x4d; x52; x53; x01].

Definition skipExtra (extraLen : Z) : rd unit := fun r =>
  if (extraLen <? 0) || (len r <? extraLen) then Err ErrFormat else Ok (tt, drop (Z.to_nat extraLen) r).

(** [openMRS] after decompression: the behaviour, positioned at the payload. *)
Definition mrsHeader : rd byte :=
  hdr ← readFull 4;
  if negb (bool_decide (hdr = mrsMagic)) then fail ErrFormat
  else
    beh ← readByte;
    _ ← readU64;
    n ← readU64;
    _ ← skipExtra (int64 n);
    mret beh.

Definition readU64Slice : rd (list Z) :=
  v ← readU64;
  let n := int64 v in
  if (n <? 1) || (2 ^ 28 <? n) then fail ErrFormat else readWords n.

Definition readDomainSetBin : rd succinctBits :=
  ver ← readByte;
  if negb (bool_decide (ver = x01)) then fail ErrFormat
  else
    lv ← readU64Slice;
    bm ← readU64Slice;
    v ← readU64;
    let n := int64 v in
    if (n <? 1) || (2 ^ 34 <? n) then fail ErrFormat
    else lb ← readFullZ n; mret (newSuccinctBits lv bm lb).

(** The loop over ranges of sixteen-byte bounds; each takes 32 bytes. *)
Fixpoint readRanges (n : nat) : rd (list (bytes * bytes)) :=
  match n with
  | O => mret []
  | S n' => from ← readFull 16; to ← readFull 16; l ← readRanges n'; mret ((from, to) :: l)
  end.

Definition readIPCidrSetBin : rd (list (bytes * bytes)) :=
  ver ← readByte;
  if negb (bool_decide (ver = x01)) then fail ErrFormat
  else
    v ← readU64;
    let n := int64 v in
    if (n <? 0) || (2 ^ 28 <? n) then fail ErrFormat
    else l ← readRanges (Z.to_nat n); mret (sort_ranges bytes_compare l).

Definition run_rd {A} (m : rd A) (b : bytes) : res readErr A :=
  match m b with Ok (a, _) => Ok a | Err e => Err e end.

Definition mrsPayload {A} (want : byte) (m : rd A) : rd A :=
  beh ← mrsHeader; if bool_decide (beh = want) then m else fail ErrFormat.

Definition ParseMRSDomain `{Codecs} (data : bytes) : res readErr succinctBits :=
  match zstd_decode data with None => Err ErrFormat | Some raw => run_rd (mrsPayload x00 readDomainSetBin) raw end.
Definition ParseMRSIP `{Codecs} (data : bytes) : res readErr (list (bytes * bytes)) :=
  match zstd_decode data with None => Err ErrFormat | Some raw => run_rd (mrsPayload x01 readIPCidrSetBin) raw end.

(** ** sing-box [.srs] ([srs.go]) *)

Definition readUvarU64Slice : rd (list Z) :=
  n ← readUvarint; if 2 ^ 28 <? n then fail ErrFormat else readWords n.
Definition readUvarByteSlice : rd bytes :=
  n ← readUvarint; if 2 ^ 34 <? n then fail ErrFormat else readFullZ n.

Fixpoint readStrings (n : nat) : rd (list bytes) :=
  match n with
  | O => mret []
  | S n' => b ← readUvarByteSlice; l ← readStrings n'; mret (b :: l)
  end.
Definition readItemStrings : rd (list bytes) :=
  n ← readUvarint; if 2 ^ 24 <? n then fail ErrFormat else readStrings (Z.to_nat n).

(** [io.CopyN(io.Discard, r, n)]; nothing is skipped for [n] zero or negative. *)
Definition discard (n : Z) : rd unit := fun r =>
  if n <=? 0 then Ok (tt, r) else if len r <? n then Err (ErrRead EOF) else Ok (tt, drop (Z.to_nat n) r).
Definition skipUint16Slice : rd unit := n ← readUvarint; discard (int64 (int64 n * 2)).
Definition skipUint8Slice : rd unit := n ← readUvarint; discard (int64 n).

Definition readSingSuccinct : rd succinctBits :=
  _ ← readByte;
  lv ← readUvarU64Slice;
  bm ← readUvarU64Slice;
  lb ← readUvarByteSlice;
  match singSuccinct lv bm lb with None => fail ErrFormat | Some s => mret s end.

Definition readSRSAddr : rd Addr :=
  n ← readUvarint;
  if negb (n =? 4) && negb (n =? 16) then fail ErrFormat
  else b ← readFull (Z.to_nat n); mret (default AddrZero (AddrFromSlice b)).

Fixpoint readAddrRanges (n : nat) : rd (list (Addr * Addr)) :=
  match n with
  | O => mret []
  | S n' => from ← readSRSAddr; to ← readSRSAddr; l ← readAddrRanges n'; mret ((Unmap from, Unmap to) :: l)
  end.

Definition readSRSIPSet : rd (list (Addr * Addr)) :=
  ver ← readByte;
  if negb (bool_decide (ver = x01)) then fail ErrFormat
  else n ← readU64; if 2 ^ 28 <? n then fail ErrFormat else l ← readAddrRanges (Z.to_nat n); mret (sort_ranges Compare l).

Record srsAcc := mkAcc {
  acc_domains : list succinctBits;
  acc_keywords : list bytes;
  acc_regexes : list (bytes -> bool);
  acc_ips : list (list (Addr * Addr));
}.
Definition empty_acc : srsAcc := mkAcc [] [] [] [].

Definition sItemQueryType : Z := 0.
Definition sItemNetwork : Z := 1.
Definition sItemDomain : Z := 2.
Definition sItemDomainKeyword : Z := 3.
Definition sItemDomainRegex : Z := 4.
Definition sItemSourceIPCIDR : Z := 5.
Definition sItemIPCIDR : Z := 6.
Definition sItemSourcePort : Z := 7.
Definition sItemPort : Z := 9.
Definition sItemNetworkType : Z := 18.
Definition sItemNetworkIsExpensive : Z := 19.
Definition sItemNetworkIsConstrained : Z := 20.
Definition sItemFinal : Z := 255.

(** The items that are lists of strings: network (1), port ranges (8, 10), process and
    package names and paths (11-13, 17, 23), WiFi names (14, 15). *)
Definition string_items : list Z := [1; 8; 10; 11; 12; 17; 13; 23; 14; 15].

Section srs.
Context `{Codecs}.

(** One item of a default rule: [None] when it was the last. *)
Definition readItem (acc : srsAcc) : rd (option srsAcc) :=
  b ← readByte;
  let it := b2z b in
  if it =? sItemDomain then
    ds ← readSingSuccinct; mret (Some (mkAcc (acc_domains acc ++ [ds]) (acc_keywords acc) (acc_regexes acc) (acc_ips acc)))
  else if it =? sItemDomainKeyword then
    ss ← readItemStrings; mret (Some (mkAcc (acc_domains acc) (acc_keywords acc ++ ss) (acc_regexes acc) (acc_ips acc)))
  else if it =? sItemDomainRegex then
    ss ← readItemStrings;
    mret (Some (mkAcc (acc_domains acc) (acc_keywords acc) (acc_regexes acc ++ omap regexp_compile ss) (acc_ips acc)))
  else if (it =? sItemIPCIDR) || (it =? sItemSourceIPCIDR) then
    set ← readSRSIPSet;
    mret (Some (if it =? sItemIPCIDR then mkAcc (acc_domains acc) (acc_keywords acc) (acc_regexes acc) (acc_ips acc ++ [set]) else acc))
  else if (it =? sItemQueryType) || (it =? sItemSourcePort) || (it =? sItemPort) then _ ← skipUint16Slice; mret (Some acc)
  else if it =? sItemNetworkType then _ ← skipUint8Slice; mret (Some acc)
  else if bool_decide (it ∈ string_items) then _ ← readItemStrings; mret (Some acc)
  else if (it =? sItemNetworkIsExpensive) || (it =? sItemNetworkIsConstrained) then mret (Some acc)
  else if it =? sItemFinal then _ ← readByte; mret None
  else fail ErrFormat.

(** [readSRSDefault]: items up to the final one, each at least a byte. *)
Fixpoint readSRSDefault (fuel : nat) (acc : srsAcc) : rd srsAcc :=
  match fuel with
  | O => fail ErrFuel
  | S fuel' => o ← readItem acc; match o with None => mret acc | Some acc => readSRSDefault fuel' acc end
  end.

(** [readSRSRule] and the loop over several; [n] is the number of rules still to read. *)
Fixpoint readSRSRule (fuel : nat) (depth : Z) (acc : srsAcc) {struct fuel} : rd srsAcc :=
  match fuel with
  | O => fail ErrFuel
  | S fuel' =>
      if 100 <? depth then fail ErrDepth
      else
        t ← readByte;
        if b2z t =? 0 then readSRSDefault fuel' acc
        else if b2z t =? 1 then
          _ ← readByte;
          n ← readUvarint;
          acc ← readSRSRules fuel' (depth + 1) n acc;
          _ ← readByte;
          mret acc
        else fail ErrFormat
  end
with readSRSRules (fuel : nat) (depth : Z) (n : Z) (acc : srsAcc) {struct fuel} : rd srsAcc :=
  match fuel with
  | O => fail ErrFuel
  | S fuel' =>
      if n <=? 0 then mret acc
      else acc ← readSRSRule fuel' depth acc; readSRSRules fuel' depth (n - 1) acc
  end.

(** Fuel for a file of [k] bytes. *)
Definition srs_fuel (k : nat) : nat := 2 * k + 4.

Definition parseRaw (raw : bytes) : res readErr srsAcc :=
  run_rd (count ← readUvarint; readSRSRules (srs_fuel (length raw)) 0 count empty_acc) raw.

Definition parseSRS (data : bytes) : res readErr srsAcc :=
  match data with
  | x53 :: x52 :: x53 :: _ :: z =>
      match zlib_decode z with None => Err ErrFormat | Some raw => parseRaw raw end
  | _ => Err ErrFormat
  end.

(** ** Matching *)

(** [keywordSet], [regexSet] and [domainUnion]: the first match wins, a panic ends all. *)
Definition domains_match (l : list succinctBits) (h : bytes) : matched :=
  foldr (fun s k => match sing_MatchDomain s h with Found false => k | m => m end) (Found false) l.

Definition srs_MatchDomain (acc : srsAcc) (h : bytes) : matched :=
  match domains_match (acc_domains acc) h with
  | Found false => Found (existsb (fun kw => Contains h kw) (acc_keywords acc) || existsb (fun re => re h) (acc_regexes acc))
  | m => m
  end.

Definition ParseSRSDomain (data : bytes) : res readErr srsAcc :=
  acc ← parseSRS data;
  if bool_decide (acc_domains acc = []) && bool_decide (acc_keywords acc = []) && (length (acc_regexes acc) =? 0)%nat
  then Err ErrFormat else Ok acc.

Definition ParseSRSIP (data : bytes) : res readErr (list (list (Addr * Addr))) :=
  acc ← parseSRS data; match acc_ips acc with [] => Err ErrFormat | l => Ok l end.

Definition srs_MatchIP (l : list (list (Addr * Addr))) (ip : Addr) : bool := existsb (fun rr => ipAddrRangeSet_match rr ip) l.

(** ** Providers *)

Inductive loadedDomain := LoadedText (d : domainSet) | LoadedMRS (s : succinctBits) | LoadedSRS (acc : srsAcc).
Inductive loadedIP := LoadedTextIP (s : ipSet) | LoadedMRSIP (rr : list (bytes * bytes)) | LoadedSRSIP (l : list (list (Addr * Addr))).

(** [LoadDomain] and [LoadIP] on the bytes [load] returned. *)
Definition LoadDomain `{Unicode} (behavior data : bytes) : res readErr loadedDomain :=
  match detectFormat data with
  | fmtMRS => s ← ParseMRSDomain data; Ok (LoadedMRS s)
  | fmtSRS => acc ← ParseSRSDomain data; Ok (LoadedSRS acc)
  | fmtText => Ok (LoadedText (if bool_decide (behavior = bs "classical") then ParseClassical data else ParseDomainList data))
  end.
Definition LoadIP `{Unicode} (data : bytes) : res readErr loadedIP :=
  match detectFormat data with
  | fmtMRS => rr ← ParseMRSIP data; Ok (LoadedMRSIP rr)
  | fmtSRS => l ← ParseSRSIP data; Ok (LoadedSRSIP l)
  | fmtText => Ok (LoadedTextIP (ParseIPList data))
  end.
End srs.
