(* ===== verification/RulesetSpec.v ===== *)
(** * Rule sets: what they match, and that reading them is safe *)
From S2P Require Import Prelude GoStd Netip Rule RuleSpec Utf8 Succinct SuccinctSpec Ruleset RulesetBin.
From Stdlib Require Import Init.Byte.

(** ** Text domain sets *)

Lemma suffix_walk_chain m fuel : forall s, suffix_walk fuel m s = existsb (fun t => bool_decide (t ∈ m)) (label_chain fuel s).
Proof.
  induction fuel as [|fuel IH]; intros s; [done|]. destruct s as [|c s]; [done|]. cbn [suffix_walk label_chain existsb].
  destruct (bool_decide (c :: s ∈ m)); [done|]. cbn [orb]. destruct (IndexByte (c :: s) x2e); [apply IH|done].
Qed.

(** A name at or below another. *)
Definition below (host t : bytes) : Prop := host = t \/ exists x, host = x ++ [x2e] ++ t.

Lemma suffix_walk_spec m host : suffix_walk (length host) m host = true <-> exists t, t ∈ m /\ t <> [] /\ below host t.
Proof.
  rewrite suffix_walk_chain, existsb_exists. split.
  - intros (t & Ht%list_elem_of_In & Hm%bool_decide_eq_true). rewrite label_chain_spec in Ht by lia. destruct Ht as [Hne Ht].
    exists t. split; [done|]. split; [done|]. destruct Ht as [->|(x & E)%HasSuffix_spec]; [by left|right; exists x; exact E].
  - intros (t & Hm & Hne & Hb). exists t. split; [|by apply bool_decide_eq_true]. apply list_elem_of_In.
    rewrite label_chain_spec by lia. split; [done|]. destruct Hb as [->|(x & E)]; [by left|right]. apply HasSuffix_spec. by exists x.
Qed.

(** The kinds of entry of the text formats, and what each matches. *)
Inductive entry := Exact (x : bytes) | Suffix (x : bytes) | Keyword (x : bytes).
Definition entry_hits (e : entry) (host : bytes) : Prop :=
  match e with
  | Exact x => host = x
  | Suffix x => x <> [] /\ below host x
  | Keyword k => Contains host k = true
  end.
Definition add_entry (d : domainSet) (e : entry) : domainSet :=
  match e with Exact x => add_exact d x | Suffix x => add_suffix d x | Keyword x => add_keyword d x end.

Lemma domainSet_match_spec d host : domainSet_match d host = true <->
  host ∈ d_exact d \/ (exists t, t ∈ d_suffix d /\ t <> [] /\ below host t) \/ exists k, k ∈ d_keyword d /\ Contains host k = true.
Proof.
  unfold domainSet_match. case_bool_decide as E1; [tauto|]. destruct (suffix_walk _ _ _) eqn:E2.
  - rewrite suffix_walk_spec in E2. tauto.
  - assert (~ exists t, t ∈ d_suffix d /\ t <> [] /\ below host t) as Hn by (by rewrite <-suffix_walk_spec, E2).
    rewrite existsb_exists. setoid_rewrite <-list_elem_of_In. tauto.
Qed.

Lemma add_entry_match d e host : domainSet_match (add_entry d e) host = true <-> domainSet_match d host = true \/ entry_hits e host.
Proof.
  rewrite !domainSet_match_spec. destruct e as [x|x|x]; cbn [add_entry add_exact add_suffix add_keyword d_exact d_suffix d_keyword entry_hits].
  - rewrite elem_of_union, elem_of_singleton. tauto.
  - setoid_rewrite elem_of_union. setoid_rewrite elem_of_singleton. split.
    + intros [?|[(t & [-> | ?] & ? & ?)|?]]; [tauto|tauto| |tauto]. left. right. left. eauto.
    + intros [[?|[(t & ? & ? & ?)|?]]|[? ?]]; [tauto| |tauto|]; right; left; [exists t|exists x]; tauto.
  - setoid_rewrite elem_of_app. setoid_rewrite elem_of_list_singleton || setoid_rewrite list_elem_of_singleton. split.
    + intros [?|[?|(k & [? | ->] & ?)]]; [tauto|tauto| |tauto]. left. right. right. eauto.
    + intros [[?|[?|(k & ? & ?)]]|?]; [tauto|tauto| |]; right; right; [exists k|exists x]; tauto.
Qed.

Lemma fold_entries {X} (f : X -> option entry) (g : domainSet -> X -> domainSet) l host :
  (forall d x, g d x = match f x with Some e => add_entry d e | None => d end) -> forall d,
  domainSet_match (fold_left g l d) host = true <->
  domainSet_match d host = true \/ exists x e, x ∈ l /\ f x = Some e /\ entry_hits e host.
Proof.
  intros Hg. induction l as [|x l IH]; intros d; cbn [fold_left].
  - split; [tauto|]. intros [?|(x & e & []%not_elem_of_nil & _)]. done.
  - rewrite IH, Hg. setoid_rewrite elem_of_cons. destruct (f x) as [e|] eqn:Ef.
    + rewrite add_entry_match. split.
      * intros [[?|?]|(y & e' & ? & ? & ?)]; [tauto|right; exists x, e; tauto|right; exists y, e'; tauto].
      * intros [?|(y & e' & [-> | ?] & ? & ?)]; [tauto|left; right; congruence|right; exists y, e'; tauto].
    + split.
      * intros [?|(y & e' & ? & ? & ?)]; [tauto|right; exists y, e'; tauto].
      * intros [?|(y & e' & [-> | ?] & ? & ?)]; [tauto|congruence|right; exists y, e'; tauto].
Qed.

Section text.
Context `{Unicode}.

(** A line of a domain list and of a classical list. *)
Definition list_entry (line : bytes) : entry :=
  if HasPrefix line (bs "full:") then Exact (norm (drop 5 line))
  else if HasPrefix line (bs "keyword:") then Keyword (ToLower (drop 8 line))
  else if HasPrefix line (bs "domain:") then Suffix (norm (drop 7 line))
  else if HasPrefix line (bs "+.") then Suffix (norm (drop 2 line))
  else if HasPrefix line (bs ".") then Suffix (norm (drop 1 line))
  else Suffix (norm line).

Definition classical_entry (line : bytes) : option entry :=
  match split2 line with
  | None => None
  | Some (f0, f1) =>
      let t := ToUpper (TrimSpace f0) in
      if bool_decide (t = bs "DOMAIN") then Some (Exact (norm (TrimSpace f1)))
      else if bool_decide (t = bs "DOMAIN-SUFFIX") then Some (Suffix (norm (TrimSpace f1)))
      else if bool_decide (t = bs "DOMAIN-KEYWORD") then Some (Keyword (ToLower (TrimSpace f1)))
      else None
  end.

Definition lines_of (data : bytes) : list bytes := omap clean_line (scan_lines (length data) data).

(** The text rule sets mean what their lines say: a host matches a parsed domain list,
    or a classical list, exactly when one of its lines names it, names a parent of it at a
    label boundary, or names a keyword it contains. *)
Theorem text_sets_match data host :
  (MatchDomain (domainSet_iface (ParseDomainList data)) host = true <->
     exists line, line ∈ lines_of data /\ entry_hits (list_entry line) host) /\
  (MatchDomain (domainSet_iface (ParseClassical data)) host = true <->
     exists line e, line ∈ lines_of data /\ classical_entry line = Some e /\ entry_hits e host).
Proof.
  assert (Hemp : domainSet_match empty_set host = true <-> False).
  { rewrite domainSet_match_spec. split; [|done]. cbn. intros [?%not_elem_of_empty|[(t & ?%not_elem_of_empty & _)|(k & ?%not_elem_of_nil & _)]]; done. }
  cbn [MatchDomain domainSet_iface]. split.
  - unfold ParseDomainList, forEachLine. rewrite (fold_entries (fun l => Some (list_entry l)) parseDomainLine).
    2:{ intros d x. unfold parseDomainLine, list_entry. by repeat case_match. }
    rewrite Hemp. split; [intros [[]|(x & e & Hx & [= <-] & He)]; eauto|]. intros (x & Hx & He). right. eauto.
  - unfold ParseClassical, forEachLine. rewrite (fold_entries classical_entry classicalLine).
    2:{ intros d x. unfold classicalLine, classical_entry. destruct (split2 x) as [[f0 f1]|]; [|done].
        repeat case_bool_decide; done. }
    rewrite Hemp. split; [intros [[]|?]; done|]. by right.
Qed.
End text.

(** A line of 4 MiB or more ends the scan silently: nothing after it is read. *)
Lemma long_line_ends_scan fuel l rest : x0a ∉ l -> max_line <= len l -> scan_lines fuel (l ++ x0a :: rest) = [].
Proof.
  intros Hn Hl. destruct fuel as [|fuel]; [done|]. cbn [scan_lines]. destruct (l ++ x0a :: rest) as [|c s] eqn:E; [done|]. rewrite <-E.
  destruct (IndexByte (l ++ x0a :: rest) x0a) as [i|] eqn:Ei.
  - apply IndexByte_Some in Ei as (a & b & Eab & <- & Ha). destruct (Z.ltb_spec (Z.of_nat (length a)) max_line) as [Hlt|]; [|done].
    exfalso. assert (Hla : (length a < length l)%nat) by (unfold len in Hl; lia).
    assert (l !! length a = Some x0a) as Hx.
    { rewrite <-(lookup_app_l l (x0a :: rest)) by done. rewrite Eab. by rewrite list_lookup_middle. }
    apply Hn. by eapply list_elem_of_lookup_2.
  - apply IndexByte_None in Ei. exfalso. apply Ei. apply elem_of_app. right. by left.
Qed.

(** ** Address ranges *)

(** What look-up in sorted ranges needs of a comparison. *)
Class CmpLaws {A} (cmp : A -> A -> comparison) := {
  cmp_flip a b : cmp b a = CompOpp (cmp a b);
  cmp_refl a : cmp a a = Eq;
  le_trans a b c : le_cmp cmp a b = true -> le_cmp cmp b c = true -> le_cmp cmp a c = true;
}.

Section cmp.
Context {A : Type} (cmp : A -> A -> comparison) `{!CmpLaws cmp}.
Abbreviation le := (le_cmp cmp).

Lemma le_total a b : le a b = false -> le b a = true.
Proof. unfold le_cmp. rewrite (cmp_flip a b). by destruct (cmp a b). Qed.
Lemma le_lt_trans a b c : le a b = true -> le c b = false -> le c a = false.
Proof. intros H1 H2. destruct (le c a) eqn:E; [|done]. rewrite (le_trans c a b E H1) in H2. done. Qed.
Lemma le_refl a : le a a = true.
Proof. unfold le_cmp. by rewrite cmp_refl. Qed.

(** ** Binary search *)

Lemma search_loop_spec fuel f n : (forall i j, (i <= j < n)%nat -> f i = true -> f j = true) -> forall i j,
  (j - i < fuel)%nat -> (i <= j <= n)%nat -> (forall k, (k < i)%nat -> f k = false) -> (forall k, (j <= k < n)%nat -> f k = true) ->
  (search_loop fuel f i j <= n)%nat /\ (forall k, (k < search_loop fuel f i j)%nat -> f k = false) /\
  (forall k, (search_loop fuel f i j <= k < n)%nat -> f k = true).
Proof.
  intros Hmono. induction fuel as [|fuel IH]; intros i j Hf Hij Hlo Hhi; [lia|]. cbn [search_loop].
  destruct (Nat.ltb_spec i j) as [Hlt|Hge].
  - assert (Hh : (i <= (i + j) / 2 < j)%nat).
    { split; [apply Nat.div_le_lower_bound; lia|apply Nat.Div0.div_lt_upper_bound; lia]. }
    destruct (f ((i + j) / 2)%nat) eqn:Eh.
    + apply IH; try lia; [done|]. intros k Hk. apply (Hmono ((i + j) / 2)%nat); [lia|done].
    + apply IH; try lia; [|done]. intros k Hk. destruct (f k) eqn:Ek; [|done].
      rewrite (Hmono k ((i + j) / 2)%nat) in Eh by (done || lia). done.
  - assert (i = j) as -> by lia. split; [lia|]. split; done.
Qed.

Lemma Search_spec n f : (forall i j, (i <= j < n)%nat -> f i = true -> f j = true) ->
  (Search n f <= n)%nat /\ (forall k, (k < Search n f)%nat -> f k = false) /\ (forall k, (Search n f <= k < n)%nat -> f k = true).
Proof. intros Hmono. unfold Search. apply search_loop_spec; [done|lia|lia| |]; intros k Hk; lia. Qed.

(** ** Sorting *)

Definition from_le (a b : A * A) : Prop := le a.1 b.1 = true.

Lemma insert_range_perm x l : insert_range cmp x l ≡ₚ x :: l.
Proof. induction l as [|y l IH]; cbn; [done|]. destruct (le x.1 y.1); [done|]. rewrite IH. constructor. Qed.
Lemma sort_ranges_perm l : sort_ranges cmp l ≡ₚ l.
Proof. induction l as [|x l IH]; cbn; [done|]. by rewrite insert_range_perm, IH. Qed.

Lemma insert_range_sorted x l : StronglySorted from_le l -> StronglySorted from_le (insert_range cmp x l).
Proof.
  induction 1 as [|y l Hl IH Hf]; cbn; [repeat constructor|]. destruct (le x.1 y.1) eqn:E.
  - constructor; [by constructor|]. constructor; [done|]. eapply Forall_impl; [exact Hf|]. intros z Hz. by eapply le_trans.
  - constructor; [done|]. rewrite insert_range_perm. constructor; [by apply le_total|done].
Qed.
Lemma sort_ranges_sorted l : StronglySorted from_le (sort_ranges cmp l).
Proof. induction l as [|x l IH]; cbn; [constructor|]. by apply insert_range_sorted. Qed.

Lemma sorted_lookup l i j a b : StronglySorted from_le l -> (i <= j)%nat -> l !! i = Some a -> l !! j = Some b -> le a.1 b.1 = true.
Proof.
  intros Hs. revert i j. induction Hs as [|y l Hl IH Hf]; intros i j Hij Ha Hb; [done|].
  destruct i as [|i], j as [|j]; cbn in *; try lia.
  - simplify_eq. apply le_refl.
  - simplify_eq. rewrite Forall_forall in Hf. apply Hf. by eapply list_elem_of_lookup_2.
  - apply (IH i j); [lia|done|done].
Qed.

(** ** Look-up *)

Definition in_range (r : A * A) (t : A) : bool := le r.1 t && le t r.2.
(** Ranges that do not meet: one ends before the other begins. *)
Definition apart (a b : A * A) : Prop := le b.1 a.2 = false \/ le a.1 b.2 = false.
Definition disjoint_ranges (l : list (A * A)) : Prop :=
  (forall r, r ∈ l -> le r.1 r.2 = true) /\ forall a b, a ∈ l -> b ∈ l -> a = b \/ apart a b.

Lemma range_match_sorted rr t : StronglySorted from_le rr -> disjoint_ranges rr ->
  range_match cmp rr t = existsb (fun r => in_range r t) rr.
Proof.
  intros Hs [Hne Hd]. unfold range_match. set (f := fun i => match rr !! i with Some r => negb (le r.1 t) | None => true end).
  assert (Hmono : forall i j, (i <= j < length rr)%nat -> f i = true -> f j = true).
  { intros i j Hij. unfold f. destruct (lookup_lt_is_Some_2 rr i ltac:(lia)) as [a Ea].
    destruct (lookup_lt_is_Some_2 rr j ltac:(lia)) as [b Eb]. rewrite Ea, Eb. rewrite !negb_true_iff. intros Ha.
    eapply le_lt_trans in Ha; [|]. 2:{ exact (le_refl t). }
    destruct (le b.1 t) eqn:Et; [|done]. rewrite (le_trans a.1 b.1 t) in Ha; [done| |done].
    apply (sorted_lookup rr i j a b); (done || lia). }
  destruct (Search_spec (length rr) f Hmono) as (Hle & Hlo & Hhi). set (k := Search (length rr) f) in *.
  assert (Habove : forall i r, rr !! i = Some r -> (k <= i)%nat -> le r.1 t = false).
  { intros i r Er Hi. pose proof (lookup_lt_Some _ _ _ Er). specialize (Hhi i ltac:(lia)). unfold f in Hhi. rewrite Er in Hhi.
    by apply negb_true_iff in Hhi. }
  destruct k as [|idx].
  { symmetry. apply not_true_is_false. rewrite existsb_exists. intros (r & Hin%list_elem_of_In & Hr).
    apply list_elem_of_lookup in Hin as [i Ei]. unfold in_range in Hr. rewrite (Habove i r Ei) in Hr by lia. done. }
  destruct (lookup_lt_is_Some_2 rr idx ltac:(lia)) as [r Er]. rewrite Er.
  assert (Hfrom : le r.1 t = true). { specialize (Hlo idx ltac:(lia)). unfold f in Hlo. rewrite Er in Hlo. by apply negb_false_iff in Hlo. }
  destruct (le t r.2) eqn:Et.
  - symmetry. apply existsb_exists. exists r. split; [apply list_elem_of_In; by eapply list_elem_of_lookup_2|]. unfold in_range. by rewrite Hfrom, Et.
  - symmetry. apply not_true_is_false. rewrite existsb_exists. intros (r' & Hin%list_elem_of_In & Hr').
    unfold in_range in Hr'. apply andb_true_iff in Hr' as [H1 H2]. apply list_elem_of_lookup in Hin as [i Ei].
    destruct (Nat.le_gt_cases (S idx) i) as [Hi|Hi]; [rewrite (Habove i r' Ei Hi) in H1; done|].
    assert (Hrr : le r'.1 r.1 = true) by (apply (sorted_lookup rr i idx r' r); (done || lia)).
    destruct (Hd r' r) as [->|[Ha|Ha]]; [by eapply list_elem_of_lookup_2|by eapply list_elem_of_lookup_2|congruence|..].
    + rewrite (le_trans r.1 t r'.2 Hfrom H2) in Ha. done.
    + rewrite (le_trans r'.1 r.1 r.2 Hrr) in Ha; [done|]. apply Hne. by eapply list_elem_of_lookup_2.
Qed.

Lemma disjoint_perm l k : l ≡ₚ k -> disjoint_ranges l -> disjoint_ranges k.
Proof. intros Hp [H1 H2]. split; setoid_rewrite <-Hp; done. Qed.

Lemma range_match_spec l t : disjoint_ranges l -> range_match cmp (sort_ranges cmp l) t = existsb (fun r => in_range r t) l.
Proof.
  intros Hd. rewrite range_match_sorted; [|apply sort_ranges_sorted|eapply disjoint_perm; [symmetry; apply sort_ranges_perm|done]].
  apply eq_true_iff_eq. rewrite !existsb_exists. setoid_rewrite <-list_elem_of_In. by setoid_rewrite sort_ranges_perm.
Qed.
End cmp.

Lemma Zcompare_le_trans a b c : (a ?= b) <> Gt -> (b ?= c) <> Gt -> (a ?= c) <> Gt /\ ((a ?= c) = Eq -> (a ?= b) = Eq /\ (b ?= c) = Eq).
Proof.
  intros H1 H2. change (a <= b) in H1. change (b <= c) in H2. split; [change (a <= c); lia|].
  rewrite !Z.compare_eq_iff. lia.
Qed.

Lemma bytes_compare_flip a : forall b, bytes_compare b a = CompOpp (bytes_compare a b).
Proof.
  induction a as [|x a IH]; intros [|y b]; try done. cbn. rewrite (Z.compare_antisym (b2z x) (b2z y)).
  destruct (b2z x ?= b2z y); cbn; [apply IH|done|done].
Qed.
Lemma bytes_compare_refl a : bytes_compare a a = Eq.
Proof. induction a as [|x a IH]; [done|]. cbn. by rewrite Z.compare_refl. Qed.
Lemma bytes_compare_trans a : forall b c, bytes_compare a b <> Gt -> bytes_compare b c <> Gt -> bytes_compare a c <> Gt.
Proof.
  induction a as [|x a IH]; intros [|y b] [|z c]; cbn; try done.
  destruct (Z.compare_spec (b2z x) (b2z y)), (Z.compare_spec (b2z y) (b2z z)); try done; intros H1 H2.
  - destruct (Z.compare_spec (b2z x) (b2z z)); [by eapply IH|done|lia].
  - destruct (Z.compare_spec (b2z x) (b2z z)); [lia|done|lia].
  - destruct (Z.compare_spec (b2z x) (b2z z)); [lia|done|lia].
  - destruct (Z.compare_spec (b2z x) (b2z z)); [lia|done|lia].
Qed.

Lemma le_cmp_ne {A} (cmp : A -> A -> comparison) a b : le_cmp cmp a b = true <-> cmp a b <> Gt.
Proof. unfold le_cmp. by destruct (cmp a b). Qed.

#[export] Instance bytes_compare_laws : CmpLaws bytes_compare.
Proof.
  split; [intros a b; apply bytes_compare_flip|apply bytes_compare_refl|].
  intros a b c. rewrite !le_cmp_ne. apply bytes_compare_trans.
Qed.

#[export] Instance Compare_laws : CmpLaws Compare.
Proof.
  split.
  - intros a b. unfold Compare. rewrite (Z.compare_antisym (BitLen a)), (Z.compare_antisym (addr_val a)), (bytes_compare_flip (addr_zone a)).
    destruct (BitLen a ?= BitLen b), (addr_val a ?= addr_val b); done.
  - intros a. unfold Compare. by rewrite !Z.compare_refl, bytes_compare_refl.
  - intros a b c. rewrite !le_cmp_ne. unfold Compare.
    destruct (Z.compare_spec (BitLen a) (BitLen b)), (Z.compare_spec (BitLen b) (BitLen c)); try done; intros H1 H2;
      destruct (Z.compare_spec (BitLen a) (BitLen c)); try lia; try done.
    revert H1 H2. destruct (Z.compare_spec (addr_val a) (addr_val b)), (Z.compare_spec (addr_val b) (addr_val c)); try done; intros H1' H2';
      destruct (Z.compare_spec (addr_val a) (addr_val c)); try lia; try done.
    eapply bytes_compare_trans; eassumption.
Qed.

(** The binary searches find what a scan finds: over ranges that do not overlap, in
    whatever order a file lists them, both address-range sets contain an address exactly
    when some listed range does. *)
Theorem range_sets_match (rr : list (bytes * bytes)) (ra : list (Addr * Addr)) ip :
  disjoint_ranges bytes_compare rr -> disjoint_ranges Compare ra ->
  ipRangeSet_match (sort_ranges bytes_compare rr) ip = existsb (fun r => in_range bytes_compare r (As16 ip)) rr /\
  ipAddrRangeSet_match (sort_ranges Compare ra) ip = existsb (fun r => in_range Compare r (Unmap ip)) ra.
Proof. intros H1 H2. split; [by apply (range_match_spec bytes_compare)|by apply (range_match_spec Compare)]. Qed.

(** A range inside another hides the rest of it. *)
Lemma overlapping_ranges_missed :
  ipAddrRangeSet_match (sort_ranges Compare [(Addr4 0, Addr4 255); (Addr4 10, Addr4 20)]) (Addr4 100) = false /\
  in_range Compare (Addr4 0, Addr4 255) (Unmap (Addr4 100)) = true.
Proof. by vm_compute. Qed.

(** ** Reading terminates *)

(** A reader that does not run out of fuel and leaves at most what it got. *)
Definition steady {A} (k : nat) (m : rd A) (r : bytes) : Prop :=
  match m r with Ok (_, r') => (length r' + k <= length r)%nat | Err e => e <> ErrFuel end.

Lemma steady_ret {A} (a : A) r : steady 0 (mret a) r.
Proof. unfold steady. cbn. lia. Qed.
Lemma steady_fail {A} k e r : e <> ErrFuel -> steady (A := A) k (fail e) r.
Proof. done. Qed.
Lemma steady_bind {A B} k1 k2 (m : rd A) (f : A -> rd B) r :
  steady k1 m r -> (forall a r', (length r' + k1 <= length r)%nat -> steady k2 (f a) r') -> steady (k1 + k2) (m ≫= f) r.
Proof.
  unfold steady, mbind, rd_bind. destruct (m r) as [[a r']|e]; [|done]. intros H1 H2. specialize (H2 a r' H1).
  destruct (f a r') as [[b r'']|e]; [lia|done].
Qed.
Lemma steady_weaken {A} k k' (m : rd A) r : (k' <= k)%nat -> steady k m r -> steady k' m r.
Proof. unfold steady. intros Hk. destruct (m r) as [[a r']|e]; [lia|done]. Qed.
Lemma steady_bind0 {A B} (m : rd A) (f : A -> rd B) r :
  steady 0 m r -> (forall a r', (length r' <= length r)%nat -> steady 0 (f a) r') -> steady 0 (m ≫= f) r.
Proof. intros H1 H2. apply (steady_bind 0 0); [done|]. intros a r' Hr. apply H2. lia. Qed.

Lemma steady_readByte r : steady 1 readByte r.
Proof. unfold steady, readByte. destruct r; [done|cbn; lia]. Qed.
Lemma steady_readFull n r : steady n (readFull n) r.
Proof.
  unfold steady, readFull. destruct (ReadFull n r) as [[a r']|e] eqn:E; [|done]. apply ReadFull_Ok in E as [-> <-]. rewrite length_app. lia.
Qed.
Lemma steady_readFullZ n r : steady (Z.to_nat n) (readFullZ n) r.
Proof.
  unfold readFullZ, steady. destruct (_ <? _); [by destruct r|]. apply steady_readFull.
Qed.
Lemma steady_uvarint fuel : forall i x r, steady 1 (uvarint_loop fuel i x) r.
Proof.
  induction fuel as [|fuel IH]; intros i x r; [done|]. unfold steady. cbn [uvarint_loop]. destruct r as [|b r]; [done|].
  destruct (_ <? _).
  - destruct (_ && _); [done|]. cbn. lia.
  - specialize (IH (i + 1) (x + Z.shiftl (b2z b - 0x80) (7 * i)) r). unfold steady in IH.
    destruct (uvarint_loop _ _ _ r) as [[v r']|e]; [cbn; lia|done].
Qed.
Lemma steady_readUvarint r : steady 1 readUvarint r.
Proof. apply steady_uvarint. Qed.
Lemma steady_readU64 r : steady 0 readU64 r.
Proof. apply steady_bind0; [apply (steady_weaken 8); [lia|apply steady_readFull]|]. intros. apply steady_ret. Qed.
Lemma steady_readWords n r : steady 0 (readWords n) r.
Proof. apply steady_bind0; [eapply steady_weaken; [|apply steady_readFullZ]; lia|]. intros. apply steady_ret. Qed.
#[export] Hint Resolve steady_ret steady_readWords steady_readU64 : ntr.

Lemma steady_U64Slice r : steady 0 readUvarU64Slice r.
Proof.
  apply steady_bind0; [apply (steady_weaken 1); [lia|apply steady_readUvarint]|]. intros n r' _.
  destruct (_ <? n); [by apply steady_fail|auto with ntr].
Qed.
Lemma steady_ByteSlice r : steady 0 readUvarByteSlice r.
Proof.
  apply steady_bind0; [apply (steady_weaken 1); [lia|apply steady_readUvarint]|]. intros n r' _.
  destruct (_ <? n); [by apply steady_fail|]. eapply steady_weaken; [|apply steady_readFullZ]. lia.
Qed.
Lemma steady_strings n : forall r, steady 0 (readStrings n) r.
Proof.
  induction n as [|n IH]; intros r; cbn [readStrings]; [apply steady_ret|]. apply steady_bind0; [apply steady_ByteSlice|].
  intros b r' _. apply steady_bind0; [apply IH|]. intros. apply steady_ret.
Qed.
Lemma steady_itemStrings r : steady 0 readItemStrings r.
Proof.
  apply steady_bind0; [apply (steady_weaken 1); [lia|apply steady_readUvarint]|]. intros n r' _.
  destruct (_ <? n); [by apply steady_fail|apply steady_strings].
Qed.
Lemma steady_discard n r : steady 0 (discard n) r.
Proof. unfold steady, discard. destruct (_ <=? 0); [lia|]. destruct (_ <? n); [done|]. rewrite length_drop. lia. Qed.
Lemma steady_skip16 r : steady 0 skipUint16Slice r.
Proof. apply steady_bind0; [apply (steady_weaken 1); [lia|apply steady_readUvarint]|]. intros. apply steady_discard. Qed.
Lemma steady_skip8 r : steady 0 skipUint8Slice r.
Proof. apply steady_bind0; [apply (steady_weaken 1); [lia|apply steady_readUvarint]|]. intros. apply steady_discard. Qed.
Lemma steady_succinct r : steady 0 readSingSuccinct r.
Proof.
  apply steady_bind0; [apply (steady_weaken 1); [lia|apply steady_readByte]|]. intros _ r1 _.
  apply steady_bind0; [apply steady_U64Slice|]. intros lv r2 _. apply steady_bind0; [apply steady_U64Slice|]. intros bm r3 _.
  apply steady_bind0; [apply steady_ByteSlice|]. intros lb r4 _. destruct (singSuccinct lv bm lb); [apply steady_ret|by apply steady_fail].
Qed.
Lemma steady_addr r : steady 0 readSRSAddr r.
Proof.
  apply steady_bind0; [apply (steady_weaken 1); [lia|apply steady_readUvarint]|]. intros n r' _. destruct (_ && _); [by apply steady_fail|].
  apply steady_bind0; [eapply steady_weaken; [|apply steady_readFull]; lia|]. intros. apply steady_ret.
Qed.
Lemma steady_addrRanges n : forall r, steady 0 (readAddrRanges n) r.
Proof.
  induction n as [|n IH]; intros r; cbn [readAddrRanges]; [apply steady_ret|]. apply steady_bind0; [apply steady_addr|]. intros a r1 _.
  apply steady_bind0; [apply steady_addr|]. intros b r2 _. apply steady_bind0; [apply IH|]. intros. apply steady_ret.
Qed.
Lemma steady_ipset r : steady 0 readSRSIPSet r.
Proof.
  apply steady_bind0; [apply (steady_weaken 1); [lia|apply steady_readByte]|]. intros v r1 _. destruct (negb _); [by apply steady_fail|].
  apply steady_bind0; [apply steady_readU64|]. intros n r2 _. destruct (_ <? n); [by apply steady_fail|].
  apply steady_bind0; [apply steady_addrRanges|]. intros. apply steady_ret.
Qed.

Section termination.
Context `{Codecs}.

(** An item takes at least its type byte. *)
Lemma steady_item acc r : steady 1 (readItem acc) r.
Proof.
  apply (steady_bind 1 0); [apply steady_readByte|]. intros b r1 _. cbn zeta.
  repeat match goal with |- steady 0 (if ?c then _ else _) _ => destruct c end;
    first [apply steady_ret | by apply steady_fail | (apply steady_bind0; [|intros; apply steady_ret])];
    first [apply steady_succinct | apply steady_itemStrings | apply steady_ipset | apply steady_skip16 | apply steady_skip8
          | apply (steady_weaken 1); [lia|apply steady_readByte]].
Qed.

Lemma steady_default fuel : forall acc r, (length r < fuel)%nat -> steady 0 (readSRSDefault fuel acc) r.
Proof.
  induction fuel as [|fuel IH]; intros acc r Hf; [lia|]. cbn [readSRSDefault].
  apply (steady_weaken (1 + 0)); [lia|]. apply (steady_bind 1 0); [apply steady_item|]. intros o r1 Hr1.
  destruct o as [acc'|]; [apply IH; lia|apply steady_ret].
Qed.

Lemma steady_rules fuel :
  (forall depth acc r, (2 * length r + 2 <= fuel)%nat -> steady 1 (readSRSRule fuel depth acc) r) /\
  (forall depth n acc r, (2 * length r + 3 <= fuel)%nat -> steady 0 (readSRSRules fuel depth n acc) r).
Proof.
  induction fuel as [|fuel [IH1 IH2]]; [split; intros; lia|]. split.
  - intros depth acc r Hf. cbn [readSRSRule]. destruct (100 <? depth); [by apply steady_fail|].
    apply (steady_bind 1 0); [apply steady_readByte|]. intros t r1 Hr1. destruct (b2z t =? 0); [apply steady_default; lia|].
    destruct (b2z t =? 1); [|by apply steady_fail].
    apply steady_bind0; [apply (steady_weaken 1); [lia|apply steady_readByte]|]. intros _ r2 Hr2.
    apply steady_bind0; [apply (steady_weaken 1); [lia|apply steady_readUvarint]|]. intros n r3 Hr3.
    apply steady_bind0; [apply IH2; lia|]. intros acc' r4 Hr4.
    apply steady_bind0; [apply (steady_weaken 1); [lia|apply steady_readByte]|]. intros. apply steady_ret.
  - intros depth n acc r Hf. cbn [readSRSRules]. destruct (n <=? 0); [apply steady_ret|].
    apply (steady_weaken (1 + 0)); [lia|]. apply (steady_bind 1 0); [apply IH1; lia|]. intros acc' r1 Hr1. apply IH2. lia.
Qed.

(** Reading a sing-box rule set terminates on every input: the nested rules, items
    and counts (64-bit numbers the file chooses) are bounded by the bytes of the file, so
    the reader never needs more rounds than twice its length and ends with a rule set or
    an error. *)
Theorem srs_reading_terminates raw : parseRaw raw <> Err ErrFuel.
Proof.
  unfold parseRaw, run_rd. assert (Hs : steady 0 (count ← readUvarint; readSRSRules (srs_fuel (length raw)) 0 count empty_acc) raw).
  { apply steady_bind0; [apply (steady_weaken 1); [lia|apply steady_readUvarint]|]. intros n r Hr.
    apply steady_rules. unfold srs_fuel. lia. }
  unfold steady in Hs. set (m := readUvarint ≫= _) in *. destruct (m raw) as [[a r]|e]; [done|]. by intros [= ->].
Qed.
End termination.

(** ** Reading is safe *)

(** A property of whatever a reader returns, from inputs of bounded length. *)
Definition yields {A} (P : A -> Prop) (m : rd A) (r : bytes) : Prop :=
  match m r with Ok (a, r') => P a /\ (length r' <= length r)%nat | Err _ => True end.

Lemma yields_ret {A} (P : A -> Prop) a r : P a -> yields P (mret a) r.
Proof. intros Ha. split; [done|lia]. Qed.
Lemma yields_bind {A B} (Q : A -> Prop) (P : B -> Prop) (m : rd A) (f : A -> rd B) r :
  yields Q m r -> (forall a r', Q a -> (length r' <= length r)%nat -> yields P (f a) r') -> yields P (m ≫= f) r.
Proof.
  unfold yields, mbind, rd_bind. destruct (m r) as [[a r']|e]; [|done]. intros [Ha Hr] Hf. specialize (Hf a r' Ha Hr).
  destruct (f a r') as [[b r'']|e]; [|done]. destruct Hf. split; [done|lia].
Qed.
Lemma yields_steady {A} k (m : rd A) r : steady k m r -> yields (fun _ => True) m r.
Proof. unfold steady, yields. destruct (m r) as [[a r']|e]; [|done]. intros Hs. split; [done|lia]. Qed.
Lemma yields_fail {A} (P : A -> Prop) e r : yields P (fail e) r.
Proof. done. Qed.

Lemma words_ok n : forall b, Forall in_u64 (words n b) /\ length (words n b) = n.
Proof.
  induction n as [|n IH]; intros b; cbn; [done|]. destruct (IH (drop 8 b)) as [H1 H2]. split; [|lia]. constructor; [|done].
  pose proof (be_dec_range (take 8 b)) as [Hlo Hhi]. split; [done|]. eapply Z.lt_le_trans; [exact Hhi|].
  change (2 ^ 64) with (256 ^ 8). apply Z.pow_le_mono_r; [lia|]. unfold len. rewrite length_take. lia.
Qed.

(** Words read take eight bytes each. *)
Lemma yields_words r : yields (fun l => Forall in_u64 l /\ (8 * length l <= length r)%nat) readUvarU64Slice r.
Proof.
  apply (yields_bind (fun _ => True)); [apply (yields_steady 1), steady_readUvarint|]. intros n r1 _ Hr1.
  destruct (_ <? n); [done|]. unfold readWords. pose proof (steady_readFullZ (8 * n) r1) as Hs. unfold yields, steady in *.
  unfold mbind, rd_bind. destruct (readFullZ (8 * n) r1) as [[b r2]|e]; [|done]. cbn.
  destruct (words_ok (Z.to_nat n) b) as [H1 H2]. split; [|lia]. split; [done|]. rewrite H2. lia.
Qed.

Lemma yields_succinct r : Z.of_nat (length r) < 2 ^ 28 -> yields louds readSingSuccinct r.
Proof.
  intros Hlen. apply (yields_bind (fun _ => True)); [apply (yields_steady 1), steady_readByte|]. intros _ r1 _ Hr1.
  apply (yields_bind (fun _ => True)); [apply (yields_steady 0), steady_U64Slice|]. intros lv r2 _ Hr2.
  eapply yields_bind; [apply yields_words|]. intros bm r3 [Hu Hb] Hr3. cbn beta in Hu, Hb.
  apply (yields_bind (fun _ => True)); [apply (yields_steady 0), steady_ByteSlice|]. intros lb r4 _ Hr4.
  destruct (singSuccinct lv bm lb) as [s|] eqn:E; [|done]. apply yields_ret. eapply singSuccinct_louds; [done| |exact E]. lia.
Qed.

Section safety.
Context `{Codecs}.

Definition acc_ok (acc : srsAcc) : Prop := Forall louds (acc_domains acc).

Lemma yields_item acc r : Z.of_nat (length r) < 2 ^ 28 -> acc_ok acc ->
  yields (fun o => match o with Some acc' => acc_ok acc' | None => True end) (readItem acc) r.
Proof.
  intros Hlen Hacc. apply (yields_bind (fun _ => True)); [apply (yields_steady 1), steady_readByte|]. intros b r1 _ Hr1. cbn zeta.
  destruct (b2z b =? sItemDomain).
  { apply (yields_bind louds); [apply yields_succinct; lia|]. intros s r2 Hs _. apply yields_ret. cbn.
    apply Forall_app. split; [done|]. by constructor. }
  repeat match goal with |- yields _ (if ?c then _ else _) _ => destruct c end;
    first [by apply yields_ret | done | (apply (yields_bind (fun _ => True)); [|intros; apply yields_ret; by repeat case_match])];
    first [apply (yields_steady 0), steady_itemStrings | apply (yields_steady 0), steady_ipset | apply (yields_steady 0), steady_skip16
          | apply (yields_steady 0), steady_skip8 | apply (yields_steady 1), steady_readByte].
Qed.

Lemma yields_default fuel : forall acc r, Z.of_nat (length r) < 2 ^ 28 -> acc_ok acc -> yields acc_ok (readSRSDefault fuel acc) r.
Proof.
  induction fuel as [|fuel IH]; intros acc r Hlen Hacc; [done|]. cbn [readSRSDefault].
  eapply yields_bind; [by apply yields_item|]. intros [acc'|] r1 Ho Hr1; [apply IH; [lia|done]|by apply yields_ret].
Qed.

Lemma yields_rules fuel :
  (forall depth acc r, Z.of_nat (length r) < 2 ^ 28 -> acc_ok acc -> yields acc_ok (readSRSRule fuel depth acc) r) /\
  (forall depth n acc r, Z.of_nat (length r) < 2 ^ 28 -> acc_ok acc -> yields acc_ok (readSRSRules fuel depth n acc) r).
Proof.
  induction fuel as [|fuel [IH1 IH2]]; [done|]. split.
  - intros depth acc r Hlen Hacc. cbn [readSRSRule]. destruct (100 <? depth); [done|].
    apply (yields_bind (fun _ => True)); [apply (yields_steady 1), steady_readByte|]. intros t r1 _ Hr1.
    destruct (b2z t =? 0); [apply yields_default; [lia|done]|]. destruct (b2z t =? 1); [|done].
    apply (yields_bind (fun _ => True)); [apply (yields_steady 1), steady_readByte|]. intros _ r2 _ Hr2.
    apply (yields_bind (fun _ => True)); [apply (yields_steady 1), steady_readUvarint|]. intros n r3 _ Hr3.
    apply (yields_bind acc_ok); [apply IH2; [lia|done]|]. intros acc' r4 Hacc' Hr4.
    apply (yields_bind (fun _ => True)); [apply (yields_steady 1), steady_readByte|]. intros. by apply yields_ret.
  - intros depth n acc r Hlen Hacc. cbn [readSRSRules]. destruct (n <=? 0); [by apply yields_ret|].
    apply (yields_bind acc_ok); [by apply IH1|]. intros acc' r1 Hacc' Hr1. apply IH2; [lia|done].
Qed.

Lemma domains_safe l h : Forall louds l -> is_ascii h = true -> exists b, domains_match l h = Found b.
Proof.
  intros Hl Ha. induction Hl as [|s l Hs Hl [b IH]]; [by exists false|]. unfold domains_match in *. cbn [foldr].
  unfold sing_MatchDomain at 1. rewrite reverseDomain_ascii by done. unfold has. change (has_loop s (rev h) 0 0) with (has_loop s (rev h) 0 (first_bit s 0)).
  rewrite (has_loop_walk s Hs (rev h) 0) by (by apply louds_root). destruct (walk s (rev h) 0); eauto.
Qed.

(** [C20] A rule set taken from the network cannot crash the matcher: when a sing-box file
    that decompresses to less than 256 MiB is accepted, whatever bytes it holds, matching
    any ASCII host against it returns. *)
Theorem srs_match_safe data raw acc h :
  zlib_decode (drop 4 data) = Some raw -> len raw < 2 ^ 28 -> ParseSRSDomain data = Ok acc -> is_ascii h = true ->
  exists b, srs_MatchDomain acc h = Found b.
Proof.
  intros Hz Hlen Hp Ha. assert (Hacc : acc_ok acc).
  { unfold ParseSRSDomain in Hp. apply bind_ok_inv in Hp as (acc0 & Hp & Hif).
    assert (acc0 = acc) as -> by (destruct (_ && _ && _); [done|by injection Hif]). clear Hif.
    unfold parseSRS in Hp. destruct data as [|b0 [|b1 [|b2 [|b3 z]]]]; try (by repeat case_match). change (drop 4 (b0 :: b1 :: b2 :: b3 :: z)) with z in Hz.
    assert (Hraw : parseRaw raw = Ok acc) by (rewrite Hz in Hp; by repeat case_match).
    unfold parseRaw, run_rd in Hraw. pose proof (yields_rules (srs_fuel (length raw))) as [_ Hr].
    assert (Hy : yields acc_ok (count ← readUvarint; readSRSRules (srs_fuel (length raw)) 0 count empty_acc) raw).
    { apply (yields_bind (fun _ => True)); [apply (yields_steady 1), steady_readUvarint|]. intros n r _ Hle.
      apply Hr; [unfold len in Hlen; lia|]. constructor. }
    unfold yields in Hy. set (m := readUvarint ≫= _) in *. destruct (m raw) as [[a r]|e]; [|done].
    injection Hraw as <-. apply Hy. }
  unfold srs_MatchDomain. destruct (domains_safe _ h Hacc Ha) as [b ->]. destruct b; eauto.
Qed.
End safety.

Module Examples.
(** Files stored without compression; no regular expression compiles. *)
Definition plain : Codecs := {| zstd_decode := Some; zlib_decode := Some; regexp_compile := fun _ => None |}.
#[local] Existing Instance plain.

(** One rule with the set of [SuccinctSpec.Examples]. *)
Definition raw_file : bytes :=
  [x01; x00; x02; x00; x01] ++ be_enc 8 48 ++ [x01] ++ be_enc 8 1876 ++ [x05] ++ SuccinctSpec.Examples.lbs ++ [xff; x00].
Definition srs_file : bytes := bs "SRS" ++ [x01] ++ raw_file.
Definition srs_acc : srsAcc := mkAcc [SuccinctSpec.Examples.set] [] [] [].

Lemma srs_file_read : ParseSRSDomain srs_file = Ok srs_acc.
Proof. by vm_compute. Qed.

Lemma srs_match_safe_witness : exists b, srs_MatchDomain srs_acc (bs "y.x") = Found b.
Proof.
  apply (srs_match_safe srs_file raw_file srs_acc (bs "y.x")); [reflexivity|vm_compute; reflexivity|exact srs_file_read|reflexivity].
Defined.

Definition two : list (Addr * Addr) := [(Addr4 30, Addr4 40); (Addr4 10, Addr4 20)].

Lemma range_sets_match_witness :
  ipRangeSet_match (sort_ranges bytes_compare []) (Addr4 35) = false /\
  ipAddrRangeSet_match (sort_ranges Compare two) (Addr4 35) = existsb (fun r => in_range Compare r (Unmap (Addr4 35))) two.
Proof.
  assert (Hd : disjoint_ranges Compare two).
  { split.
    - intros r [->|[->|[]%not_elem_of_nil]%elem_of_cons]%elem_of_cons; reflexivity.
    - intros a b Ha Hb. apply elem_of_cons in Ha as [->|Ha]; [|apply list_elem_of_singleton in Ha as ->];
        (apply elem_of_cons in Hb as [->|Hb]; [|apply list_elem_of_singleton in Hb as ->]);
        (by left) || (right; unfold apart; vm_compute; tauto). }
  assert (He : disjoint_ranges bytes_compare []) by (split; [by intros r ?%not_elem_of_nil|by intros a b ?%not_elem_of_nil]).
  exact (range_sets_match [] two (Addr4 35) He Hd).
Defined.

(** A [.mrs] file with one label and no closing bit is accepted; looking [b] up in it reads
    past the labels. *)
Definition mrs_file : bytes :=
  mrsMagic ++ [x00] ++ be_enc 8 1 ++ be_enc 8 0 ++ [x01] ++ be_enc 8 1 ++ be_enc 8 0 ++ be_enc 8 1 ++ be_enc 8 0 ++ be_enc 8 1 ++ [x61].

Lemma mrs_unchecked :
  let s := newSuccinctBits [0] [0] [x61] in
  ParseMRSDomain mrs_file = Ok s /\ mihomo_MatchDomain 10 s (bs "b") = Some Panic.
Proof. by vm_compute. Qed.
End Examples.
