(* ===== verification/Buf.v ===== *)
(** * Package [buf]: buffers with headroom and tailroom ([buf/buffer.go])

    A buffer is an array of which [start, end) is the payload; protocol layers grow it
    at both ends without moving the payload. A Go slice expression out of range panics:
    the operations return [PanicBounds] there, an outcome no caller catches. The slice
    [As] wraps is taken to have no spare capacity. *)
From S2P Require Import Prelude.
From Stdlib Require Import Init.Byte.

(** ** Data *)

Definition DefaultSize : Z := 32 * 1024.
Definition DefaultHeadroom : Z := 512.

Inductive bufErr := ErrShortBuffer | PanicBounds.
#[export] Instance bufErr_eq_dec : EqDecision bufErr.
Proof. solve_decision. Defined.

Record Buffer := mkBuffer { b_data : bytes; b_start : Z; b_end : Z; b_pooled : bool }.

Definition set_span (b : Buffer) (s e : Z) : Buffer := mkBuffer (b_data b) s e (b_pooled b).

(** The memory of a pooled buffer: [sync.Pool] hands out a released one, whose bytes are
    whatever its last user left, or a fresh one. *)
Definition fresh : Buffer := mkBuffer (replicate (Z.to_nat DefaultSize) x00) 0 0 false.
Definition New (recycled : option Buffer) : Buffer :=
  mkBuffer (b_data (default fresh recycled)) DefaultHeadroom DefaultHeadroom true.

Definition As (p : bytes) : Buffer := mkBuffer p 0 (len p) false.

(** The caller's buffer afterwards, and what goes back to the pool. *)
Definition Release (b : Buffer) : Buffer * option Buffer :=
  if negb (b_pooled b) then (b, None)
  else let b := mkBuffer (b_data b) 0 0 false in (b, Some b).

(** ** Views *)

Definition Cap (b : Buffer) : Z := len (b_data b).
Definition Len (b : Buffer) : Z := b_end b - b_start b.
Definition Headroom (b : Buffer) : Z := b_start b.
Definition Tailroom (b : Buffer) : Z := len (b_data b) - b_end b.

(** [data[lo:hi]]. *)
Definition slice_ok (b : Buffer) (lo hi : Z) : bool := (0 <=? lo) && (lo <=? hi) && (hi <=? Cap b).
Definition span (d : bytes) (lo hi : Z) : bytes := take (Z.to_nat (hi - lo)) (drop (Z.to_nat lo) d).
Definition slice (b : Buffer) (lo hi : Z) : res bufErr bytes :=
  if slice_ok b lo hi then Ok (span (b_data b) lo hi) else Err PanicBounds.

Definition Bytes (b : Buffer) : res bufErr bytes := slice b (b_start b) (b_end b).

(** Store [p] into the array from [off] on, as [copy] into a slice starting there does. *)
Definition put (b : Buffer) (off : Z) (p : bytes) : Buffer :=
  let o := Z.to_nat off in
  mkBuffer (take o (b_data b) ++ p ++ drop (o + length p) (b_data b)) (b_start b) (b_end b) (b_pooled b).

(** ** Operations *)

Definition Reset (b : Buffer) : Buffer := set_span b DefaultHeadroom DefaultHeadroom.

(** The extenders return the offset of the slice handed out. *)
Definition ExtendHeader (b : Buffer) (n : Z) : res bufErr (Buffer * Z) :=
  let b := set_span b (b_start b - n) (b_end b) in
  if slice_ok b (b_start b) (b_start b + n) then Ok (b, b_start b) else Err PanicBounds.

Definition ExtendTail (b : Buffer) (n : Z) : res bufErr (Buffer * Z) :=
  let s := b_end b in
  let b := set_span b (b_start b) (b_end b + n) in
  if slice_ok b s (b_end b) then Ok (b, s) else Err PanicBounds.

Definition Advance (b : Buffer) (n : Z) : Buffer := set_span b (b_start b + n) (b_end b).
Definition Truncate (b : Buffer) (n : Z) : Buffer := set_span b (b_start b) (b_start b + n).

(** [Write]: the buffer with what fitted, and the number of bytes or the error. *)
Definition Write (b : Buffer) (p : bytes) : Buffer * res bufErr Z :=
  if slice_ok b (b_end b) (Cap b) then
    let n := Z.min (Tailroom b) (len p) in
    let b' := put b (b_end b) (take (Z.to_nat n) p) in
    (set_span b' (b_start b) (b_end b + n), if n <? len p then Err ErrShortBuffer else Ok n)
  else (b, Err PanicBounds).

Definition WriteByte (b : Buffer) (c : byte) : Buffer * res bufErr unit :=
  if Tailroom b <? 1 then (b, Err ErrShortBuffer)
  else if b_end b <? 0 then (b, Err PanicBounds)
  else (set_span (put b (b_end b) [c]) (b_start b) (b_end b + 1), Ok tt).

(** ** The invariant and the payload *)

Definition wf (b : Buffer) : Prop := 0 <= b_start b <= b_end b /\ b_end b <= Cap b.
Definition payload (b : Buffer) : bytes := span (b_data b) (b_start b) (b_end b).

(** What a released buffer is: the pool only holds arrays of the default size. *)
Definition pool_ok (r : option Buffer) : Prop := forall b, r = Some b -> len (b_data b) = DefaultSize.

Lemma Cap_set_span b s e : Cap (set_span b s e) = Cap b.
Proof. done. Qed.

Lemma Bytes_ok b : wf b -> Bytes b = Ok (payload b).
Proof.
  intros [? ?]. unfold Bytes, slice, slice_ok.
  rewrite !(proj2 (Z.leb_le _ _)) by lia. done.
Qed.

Lemma length_span d lo hi : 0 <= lo <= hi -> hi <= len d -> len (span d lo hi) = hi - lo.
Proof. intros. unfold span, len in *. rewrite length_take, length_drop. lia. Qed.

Lemma len_payload b : wf b -> len (payload b) = Len b.
Proof. intros [? ?]. apply length_span; [lia|done]. Qed.

Lemma span_app d a b c : 0 <= a <= b -> b <= c -> span d a b ++ span d b c = span d a c.
Proof.
  intros. unfold span. replace (Z.to_nat (c - a)) with (Z.to_nat (b - a) + Z.to_nat (c - b))%nat by lia.
  replace (Z.to_nat b) with (Z.to_nat a + Z.to_nat (b - a))%nat by lia.
  by rewrite <-drop_drop, take_take_drop.
Qed.

(** What [put] does to the spans around the bytes it stores. *)
Lemma Cap_put b off p : 0 <= off -> off + len p <= Cap b -> Cap (put b off p) = Cap b.
Proof.
  unfold Cap, put, len. simpl. intros. rewrite !length_app, length_take, length_drop. lia.
Qed.

Lemma span_put_same b off p :
  0 <= off -> off + len p <= Cap b -> span (b_data (put b off p)) off (off + len p) = p.
Proof.
  unfold Cap, put, span, len. simpl. intros.
  rewrite drop_app_ge by (rewrite length_take; lia).
  replace (Z.to_nat off - length (take (Z.to_nat off) (b_data b)))%nat with O by (rewrite length_take; lia).
  replace (Z.to_nat (off + Z.of_nat (length p) - off)) with (length p) by lia.
  apply take_app_length.
Qed.

Lemma span_put_before b off p lo hi :
  0 <= lo -> hi <= off -> 0 <= off -> off <= Cap b ->
  span (b_data (put b off p)) lo hi = span (b_data b) lo hi.
Proof.
  unfold Cap, put, span, len. simpl. intros.
  destruct (decide (hi <= lo)) as [Hle|Hgt].
  { by replace (Z.to_nat (hi - lo)) with O by lia. }
  rewrite drop_app_le by (rewrite length_take; lia).
  rewrite take_app_le by (rewrite length_drop, length_take; lia).
  rewrite <-(take_drop (Z.to_nat off) (b_data b)) at 2.
  rewrite (drop_app_le (take _ _)) by (rewrite length_take; lia).
  by rewrite (take_app_le (drop _ _)) by (rewrite length_drop, length_take; lia).
Qed.

Lemma span_put_after b off p lo hi :
  0 <= off -> off + len p <= lo -> off + len p <= Cap b ->
  span (b_data (put b off p)) lo hi = span (b_data b) lo hi.
Proof.
  unfold Cap, put, span, len. simpl. intros. f_equal.
  rewrite drop_app_ge, drop_app_ge, drop_drop by (rewrite length_take; lia).
  f_equal. rewrite length_take. lia.
Qed.

(** ** What the operations do to the payload *)

Lemma wf_New r : pool_ok r -> wf (New r) /\ payload (New r) = [] /\ Cap (New r) = DefaultSize.
Proof.
  intros H. assert (len (b_data (default fresh r)) = DefaultSize) as Hl.
  { destruct r; [by apply H|]. change (len (replicate (Z.to_nat DefaultSize) x00) = DefaultSize).
    unfold len. by rewrite length_replicate. }
  unfold wf, Cap, New. cbn [b_data b_start b_end]. rewrite Hl. split_and!; done.
Qed.

Lemma wf_Reset b : Cap b = DefaultSize -> wf (Reset b) /\ payload (Reset b) = [].
Proof. intros H. unfold wf, Reset, set_span, Cap in *. cbn [b_data b_start b_end]. by rewrite H. Qed.

(** A released buffer can be handed out again, and releasing twice gives it back once. *)
Lemma Release_pool b : Cap b = DefaultSize -> pool_ok (Release b).2.
Proof. intros H b'. unfold Release. destruct (b_pooled b); simpl; [|done]. by intros [= <-]. Qed.

Lemma Release_twice b : (Release (Release b).1).2 = None.
Proof. unfold Release. by destruct (b_pooled b) eqn:E; simpl; rewrite ?E. Qed.

(** The buffer after [p] was appended. *)
Definition grown (b : Buffer) (p : bytes) : Buffer :=
  put (set_span b (b_start b) (b_end b + len p)) (b_end b) p.

Lemma Write_grown b p : wf b -> len p <= Tailroom b -> Write b p = (grown b p, Ok (len p)).
Proof.
  unfold Tailroom. intros [? ?] Hp. fold (Cap b) in Hp. pose proof (len_nonneg p).
  unfold Write. assert (slice_ok b (b_end b) (Cap b) = true) as ->.
  { unfold slice_ok. rewrite !(proj2 (Z.leb_le _ _)) by lia. done. }
  unfold Tailroom. fold (Cap b). rewrite Z.min_r, Z.ltb_irrefl by lia.
  by rewrite take_ge by (unfold len; lia).
Qed.

Lemma grown_ok b p :
  wf b -> len p <= Tailroom b ->
  wf (grown b p) /\ payload (grown b p) = payload b ++ p /\ Cap (grown b p) = Cap b /\
  b_start (grown b p) = b_start b /\ b_end (grown b p) = b_end b + len p.
Proof.
  unfold Tailroom. intros [? ?] Hp. fold (Cap b) in Hp. pose proof (len_nonneg p).
  assert (Cap (grown b p) = Cap b) as HC by (unfold grown; rewrite Cap_put; rewrite ?Cap_set_span; [done|lia|lia]).
  split_and!; [| |done..].
  - unfold wf. rewrite HC. simpl. lia.
  - unfold payload. change (b_start (grown b p)) with (b_start b). change (b_end (grown b p)) with (b_end b + len p).
    rewrite <-(span_app _ (b_start b) (b_end b)) by lia. unfold grown.
    by rewrite span_put_before, span_put_same by (rewrite ?Cap_set_span; lia).
Qed.

Lemma Write_fits b p :
  wf b -> len p <= Tailroom b ->
  exists b', Write b p = (b', Ok (len p)) /\ wf b' /\ payload b' = payload b ++ p /\
    Cap b' = Cap b /\ b_start b' = b_start b /\ b_end b' = b_end b + len p.
Proof. intros. exists (grown b p). split; [by apply Write_grown|by apply grown_ok]. Qed.

Lemma Write_short b p :
  wf b -> Tailroom b < len p -> snd (Write b p) = Err ErrShortBuffer.
Proof.
  intros [? ?] Hp. unfold Write, slice_ok. rewrite !(proj2 (Z.leb_le _ _)) by lia. simpl.
  by rewrite Z.min_l, (proj2 (Z.ltb_lt _ _)) by lia.
Qed.

Lemma WriteByte_fits b c :
  wf b -> 1 <= Tailroom b ->
  exists b', WriteByte b c = (b', Ok tt) /\ wf b' /\ payload b' = payload b ++ [c] /\
    Cap b' = Cap b /\ b_start b' = b_start b /\ b_end b' = b_end b + 1.
Proof.
  intros Hwf Hp. exists (grown b [c]). split; [|by apply grown_ok].
  unfold WriteByte. destruct Hwf. by rewrite (proj2 (Z.ltb_ge _ _)), (proj2 (Z.ltb_ge _ _)) by lia.
Qed.

(** Writing a header into the headroom puts it before the payload. *)
Lemma ExtendHeader_put b h :
  wf b -> len h <= Headroom b ->
  exists b' off, ExtendHeader b (len h) = Ok (b', off) /\
    wf (put b' off h) /\ payload (put b' off h) = h ++ payload b.
Proof.
  intros [? ?] Hh. unfold Headroom in Hh. pose proof (len_nonneg h).
  unfold ExtendHeader, slice_ok, set_span. cbn [b_start b_end].
  unfold Cap in *. cbn [b_data]. rewrite !(proj2 (Z.leb_le _ _)) by lia.
  set (b' := mkBuffer _ _ _ _). exists b', (b_start b - len h). split; [done|].
  assert (Cap b' = len (b_data b)) as HC by done. split.
  - unfold wf. rewrite Cap_put by (rewrite ?HC; lia). rewrite HC. simpl. lia.
  - unfold payload. change (b_start (put b' _ h)) with (b_start b - len h).
    change (b_end (put b' _ h)) with (b_end b).
    rewrite <-(span_app _ _ (b_start b - len h + len h)) by lia.
    rewrite span_put_same, span_put_after by (rewrite ?HC; lia).
    by replace (b_start b - len h + len h) with (b_start b) by lia.
Qed.

(** Filling the slice [ExtendTail] hands out appends to the payload. *)
Lemma ExtendTail_put b p :
  wf b -> len p <= Tailroom b ->
  exists b' off, ExtendTail b (len p) = Ok (b', off) /\
    wf (put b' off p) /\ payload (put b' off p) = payload b ++ p /\
    Cap (put b' off p) = Cap b /\ b_start (put b' off p) = b_start b.
Proof.
  intros Hwf Hp. destruct (grown_ok b p Hwf Hp) as (? & ? & ? & ? & _).
  exists (set_span b (b_start b) (b_end b + len p)), (b_end b). split; [|done].
  destruct Hwf. unfold Tailroom in Hp. fold (Cap b) in Hp. pose proof (len_nonneg p).
  unfold ExtendTail. assert (slice_ok (set_span b (b_start b) (b_end b + len p)) (b_end b) (b_end b + len p) = true) as Hs.
  { unfold slice_ok. rewrite Cap_set_span, !(proj2 (Z.leb_le _ _)) by lia. done. }
  cbn [b_end set_span] in *. by rewrite Hs.
Qed.

Lemma Advance_payload b n :
  wf b -> 0 <= n <= Len b ->
  wf (Advance b n) /\ payload (Advance b n) = drop (Z.to_nat n) (payload b).
Proof.
  unfold Len. intros [? ?] ?. split; [unfold wf, Advance, set_span, Cap in *; simpl; lia|].
  unfold payload, Advance, set_span, span. cbn [b_start b_end b_data].
  rewrite skipn_firstn_comm, drop_drop. f_equal; [lia|]. f_equal. lia.
Qed.

Lemma Truncate_payload b n :
  wf b -> 0 <= n <= Len b ->
  wf (Truncate b n) /\ payload (Truncate b n) = take (Z.to_nat n) (payload b).
Proof.
  unfold Len. intros [? ?] ?. split; [unfold wf, Truncate, set_span, Cap in *; simpl; lia|].
  unfold payload, Truncate, set_span, span. cbn [b_start b_end b_data].
  rewrite take_take. f_equal. lia.
Qed.

(** ** Encoders: functions that append to a buffer or fail *)

Definition bw (A : Type) : Type := Buffer -> Buffer * res bufErr A.
#[export] Instance bw_ret : MRet bw := fun _ a b => (b, Ok a).
#[export] Instance bw_bind : MBind bw :=
  fun _ _ f m b => match m b with (b', Ok a) => f a b' | (b', Err e) => (b', Err e) end.

Definition bwrite (p : bytes) : bw unit :=
  fun b => match Write b p with (b', Ok _) => (b', Ok tt) | (b', Err e) => (b', Err e) end.
Definition bwriteByte (c : byte) : bw unit := fun b => WriteByte b c.

(** [m] appends exactly [p] whenever there is room for it. *)
Definition emits (m : bw unit) (p : bytes) : Prop :=
  forall b, wf b -> len p <= Tailroom b ->
  exists b', m b = (b', Ok tt) /\ wf b' /\ payload b' = payload b ++ p /\ Cap b' = Cap b /\
    b_start b' = b_start b /\ b_end b' = b_end b + len p.

Lemma emits_bwrite p : emits (bwrite p) p.
Proof.
  intros b Hwf Hp. destruct (Write_fits b p Hwf Hp) as (b' & Hw & H).
  exists b'. split; [|done]. unfold bwrite. by rewrite Hw.
Qed.

Lemma emits_bwriteByte c : emits (bwriteByte c) [c].
Proof. intros b Hwf Hp. by apply WriteByte_fits. Qed.

Lemma emits_ret : emits (mret tt) [].
Proof. intros b Hwf _. exists b. rewrite app_nil_r. split_and!; try done. change (len []) with 0. lia. Qed.

Lemma emits_bind m f p q : emits m p -> emits (f tt) q -> emits (m ≫= f) (p ++ q).
Proof.
  intros Hm Hf b Hwf Hr. rewrite len_app in Hr. pose proof (len_nonneg q).
  destruct (Hm b Hwf) as (b1 & Hm1 & Hwf1 & Hp1 & HC1 & Hs1 & He1); [lia|].
  destruct (Hf b1 Hwf1) as (b2 & Hm2 & Hwf2 & Hp2 & HC2 & Hs2 & He2).
  { unfold Tailroom in *. fold (Cap b) in Hr. fold (Cap b1). lia. }
  exists b2. unfold mbind, bw_bind. rewrite Hm1.
  split_and!; [done|done| |congruence|congruence|rewrite len_app; lia].
  by rewrite Hp2, Hp1, app_assoc.
Qed.
