(* ===== verification/Link.v ===== *)
(** * Package [core/link], streams ([core/link/link.go]) and conversations over them

    A handshake reads and writes a [link.Stream]. It is a tree of the calls it makes, so
    that one handshake can be run against a given input ([run]), and two of them against
    each other over a connection, in every order the two sides may be scheduled
    ([duet]). *)
From S2P Require Import Prelude GoStd.
From stdpp Require Import relations.

(** ** Processes *)

(** [io.ReadFull] of [n] bytes, [Write] of [p] ([false]: it failed), or the end. *)
Inductive proc (A : Type) : Type :=
| Ret (a : A)
| ReadN (n : nat) (k : res io_err bytes -> proc A)
| Send (p : bytes) (k : bool -> proc A).
Arguments Ret {A} a.
Arguments ReadN {A} n k.
Arguments Send {A} p k.

Fixpoint pbind {A B} (m : proc A) (f : A -> proc B) : proc B :=
  match m with
  | Ret a => f a
  | ReadN n k => ReadN n (fun r => pbind (k r) f)
  | Send p k => Send p (fun ok => pbind (k ok) f)
  end.

(** A handshake: a process that ends with a value or an error. *)
Definition hs (E A : Type) : Type := proc (res E A).

#[export] Instance hs_ret E : MRet (hs E) := fun _ a => Ret (Ok a).
#[export] Instance hs_bind E : MBind (hs E) :=
  fun _ _ f m => pbind m (fun r => match r with Ok a => f a | Err e => Ret (Err e) end).
Definition hfail {E A} (e : E) : hs E A := Ret (Err e).

(** How a protocol's errors include those of the stream below it. *)
Class StreamErrors (E : Type) := { read_error : io_err -> E; write_error : E }.

Section calls.
Context {E : Type} `{StreamErrors E}.

Definition hread (n : nat) : hs E bytes :=
  ReadN n (fun r => Ret (match r with Ok b => Ok b | Err e => Err (read_error e) end)).
Definition hwrite (p : bytes) : hs E unit :=
  Send p (fun ok => Ret (if ok then Ok tt else Err write_error)).
(** A write whose error the source discards. *)
Definition hwrite_ (p : bytes) : hs E unit := Send p (fun _ => Ret (Ok tt)).
End calls.

(** ** Running against a given input *)

(** A stream: the bytes that will arrive before EOF, the bytes written, and the outcome of
    the coming writes ([Some n]: [n] bytes go out and the write fails). *)
Record stream := mkStream { s_in : bytes; s_out : bytes; s_script : list (option nat) }.

Definition stream_write (s : stream) (p : bytes) : bool * stream :=
  match s_script s with
  | Some n :: sc => (false, mkStream (s_in s) (s_out s ++ take n p) sc)
  | None :: sc => (true, mkStream (s_in s) (s_out s ++ p) sc)
  | [] => (true, mkStream (s_in s) (s_out s ++ p) [])
  end.

(** A short read has consumed what there was. *)
Fixpoint run {A} (m : proc A) (s : stream) : A * stream :=
  match m with
  | Ret a => (a, s)
  | ReadN n k =>
      match ReadFull n (s_in s) with
      | Ok (b, r) => run (k (Ok b)) (mkStream r (s_out s) (s_script s))
      | Err e => run (k (Err e)) (mkStream [] (s_out s) (s_script s))
      end
  | Send p k => let '(ok, s) := stream_write s p in run (k ok) s
  end.

(** ** Running as far as the input goes *)

(** The rest of the process, the input left and what was written, on a connection that
    stays open. *)
Fixpoint feed {A} (m : proc A) (i : bytes) : proc A * bytes * bytes :=
  match m with
  | Ret a => (Ret a, i, [])
  | Send p k => let '(q, r, o) := feed (k true) i in (q, r, p ++ o)
  | ReadN n k =>
      if (n <=? length i)%nat then feed (k (Ok (take n i))) (drop n i) else (ReadN n k, i, [])
  end.

Lemma feed_bind {A B} (m : proc A) (f : A -> proc B) i q r o :
  feed m i = (q, r, o) ->
  feed (pbind m f) i =
  match q with
  | Ret a => let '(q', r', o') := feed (f a) r in (q', r', o ++ o')
  | _ => (pbind q f, r, o)
  end.
Proof.
  revert i q r o. induction m as [a|n k IH|p k IH]; intros i q r o; simpl.
  - intros [= <- <- <-]. by destruct (feed (f a) i) as [[??]?].
  - destruct (n <=? length i)%nat; [apply IH|]. by intros [= <- <- <-].
  - destruct (feed (k true) i) as [[q1 r1] o1] eqn:Hf. intros [= <- <- <-].
    rewrite (IH true i q1 r1 o1 Hf).
    destruct q1 as [a|? ?|? ?]; [|done..]. destruct (feed (f a) r1) as [[??]?]. by rewrite app_assoc.
Qed.

(** A handshake that ends within the input it is given. *)
Definition ends {E A} (m : hs E A) (i : bytes) (v : res E A) (rest out : bytes) : Prop :=
  feed m i = (Ret v, rest, out).

Lemma ends_bind {E A B} (m : hs E A) (f : A -> hs E B) i a r o v r' o' :
  ends m i (Ok a) r o -> ends (f a) r v r' o' -> ends (m ≫= f) i v r' (o ++ o').
Proof.
  unfold ends, mbind, hs_bind. intros Hm Hf.
  rewrite (feed_bind _ _ _ _ _ _ Hm). by rewrite Hf.
Qed.

(** The same when the second part waits for more input. *)
Lemma feed_hbind {E A B} (m : hs E A) (f : A -> hs E B) i a r o q r' o' :
  ends m i (Ok a) r o -> feed (f a) r = (q, r', o') -> feed (m ≫= f) i = (q, r', o ++ o').
Proof.
  unfold ends, mbind, hs_bind. intros Hm Hf. rewrite (feed_bind _ _ _ _ _ _ Hm). by rewrite Hf.
Qed.

Lemma ends_bind_err {E A B} (m : hs E A) (f : A -> hs E B) i e r o :
  ends m i (Err e) r o -> ends (m ≫= f) i (Err e) r o.
Proof.
  unfold ends, mbind, hs_bind. intros Hm. rewrite (feed_bind _ _ _ _ _ _ Hm). simpl. by rewrite app_nil_r.
Qed.

Lemma ends_bind_inv {E A B} (m : hs E A) (f : A -> hs E B) i v r o :
  ends (m ≫= f) i (Ok v) r o ->
  exists a r1 o1 o2, ends m i (Ok a) r1 o1 /\ ends (f a) r1 (Ok v) r o2 /\ o = o1 ++ o2.
Proof.
  unfold ends, mbind, hs_bind. destruct (feed m i) as [[q r1] o1] eqn:Hm.
  rewrite (feed_bind _ _ _ _ _ _ Hm). destruct q as [[a|e]|? ?|? ?]; simpl; [|done..].
  destruct (feed (f a) r1) as [[q2 r2] o2] eqn:Hf. intros [= -> <- <-]. eauto 10.
Qed.

Lemma ends_ret {E A} (a : A) i : ends (mret a : hs E A) i (Ok a) i [].
Proof. done. Qed.
Lemma ends_fail {E A} (e : E) i : ends (hfail e : hs E A) i (Err e) i [].
Proof. done. Qed.

Section ends_calls.
Context {E : Type} `{StreamErrors E}.

Lemma ends_read n b r : length b = n -> ends (hread n : hs E bytes) (b ++ r) (Ok b) r [].
Proof.
  intros <-. unfold ends, hread. simpl. rewrite length_app.
  destruct (Nat.leb_spec (length b) (length b + length r)); [|lia].
  by rewrite take_app_length, drop_app_length.
Qed.

Lemma ends_read_inv n i b r o :
  ends (hread n : hs E bytes) i (Ok b) r o -> i = b ++ r /\ length b = n /\ o = [].
Proof.
  unfold ends, hread. simpl. destruct (Nat.leb_spec n (length i)); [|done].
  intros [= <- <- <-]. rewrite take_drop, length_take. split_and!; [done|lia|done].
Qed.

Lemma ends_write p i : ends (hwrite p : hs E unit) i (Ok tt) i p.
Proof. unfold ends, hwrite. simpl. by rewrite app_nil_r. Qed.

Lemma ends_write_ p i : ends (hwrite_ p : hs E unit) i (Ok tt) i p.
Proof. unfold ends, hwrite_. simpl. by rewrite app_nil_r. Qed.

(** One step of a proof that a handshake ends: reading the head of the input, writing,
    with nothing said about the rest. *)
Lemma ends_read_bind {B} n b (f : bytes -> hs E B) r v r' o :
  length b = n -> ends (f b) r v r' o -> ends (hread n ≫= f) (b ++ r) v r' o.
Proof. intros Hb Hf. eapply (ends_bind _ _ _ _ _ []); [by apply ends_read|done]. Qed.

Lemma ends_write_bind {B} p (f : unit -> hs E B) i v r' o :
  ends (f tt) i v r' o -> ends (hwrite p ≫= f) i v r' (p ++ o).
Proof. intros Hf. eapply ends_bind; [apply ends_write|done]. Qed.

Lemma ends_write_ret {B} p (b : B) i : ends (hwrite p;; mret b : hs E B) i (Ok b) i p.
Proof. rewrite <-(app_nil_r p) at 2. apply ends_write_bind, ends_ret. Qed.

Lemma ends_write__bind {B} p (f : unit -> hs E B) i v r' o :
  ends (f tt) i v r' o -> ends (hwrite_ p ≫= f) i v r' (p ++ o).
Proof. intros Hf. eapply ends_bind; [apply ends_write_|done]. Qed.
End ends_calls.

(** On an actual stream whose writes succeed, a process goes on from where its input took
    it. *)
Lemma feed_run_on {A} (m : proc A) i q r o out :
  feed m i = (q, r, o) -> run m (mkStream i out []) = run q (mkStream r (out ++ o) []).
Proof.
  revert i q r o out. induction m as [a'|n k IH|p k IH]; intros i q r o out; simpl.
  - intros [= <- <- <-]. by rewrite app_nil_r.
  - destruct (n <=? length i)%nat eqn:Hn; [|intros [= <- <- <-]; by rewrite app_nil_r]. intros Hf.
    unfold ReadFull at 1. rewrite Hn. by apply IH.
  - destruct (feed (k true) i) as [[q1 r1] o1] eqn:Hf. intros [= <- <- <-].
    cbn [stream_write s_script]. rewrite (IH true _ _ _ _ _ Hf). by rewrite app_assoc.
Qed.

Lemma ends_run {E A} (m : hs E A) i v r o out :
  ends m i v r o -> run m (mkStream i out []) = (v, mkStream r (out ++ o) []).
Proof. intros H. by rewrite (feed_run_on _ _ _ _ _ out H). Qed.

Lemma run_bind {E A B} (m : hs E A) (f : A -> hs E B) s :
  run (m ≫= f) s = match run m s with (Ok a, s') => run (f a) s' | (Err e, s') => (Err e, s') end.
Proof.
  unfold mbind, hs_bind. revert s. induction m as [[a|e']|n k IH|p k IH]; intros s; cbn [run pbind]; [done|done| |].
  - destruct (ReadFull n (s_in s)) as [[b r]|er]; apply IH.
  - destruct (stream_write s p) as [ok s1]. apply IH.
Qed.

(** What a step that succeeded has done. *)
Lemma run_bind_ok {E A B} (m : hs E A) (f : A -> hs E B) s v s' :
  run (m ≫= f) s = (Ok v, s') -> exists a s1, run m s = (Ok a, s1) /\ run (f a) s1 = (Ok v, s').
Proof. rewrite run_bind. destruct (run m s) as [[a|e] s1]; [eauto|done]. Qed.

Lemma run_read_ok {E} `{StreamErrors E} n s b s' :
  run (hread n : hs E bytes) s = (Ok b, s') ->
  s_in s = b ++ s_in s' /\ length b = n /\ s_out s' = s_out s.
Proof.
  unfold hread. cbn [run]. destruct (ReadFull n (s_in s)) as [[b' r]|e] eqn:Hr; [|done].
  apply ReadFull_Ok in Hr as [-> <-]. by intros [= <- <-].
Qed.

(** Writing leaves the input alone. *)
Lemma run_write_in {E} `{StreamErrors E} p s v s' : run (hwrite p : hs E unit) s = (v, s') -> s_in s' = s_in s.
Proof.
  unfold hwrite. cbn [run]. unfold stream_write. destruct (s_script s) as [|[n|] sc]; by intros [= <- <-].
Qed.

Lemma run_bind_err {E A B} (m : hs E A) (f : A -> hs E B) s e s' :
  run m s = (Err e, s') -> run (m ≫= f) s = (Err e, s').
Proof. rewrite run_bind. by intros ->. Qed.

(** ** Two processes over one connection *)

(** The client, the server, the bytes under way to the server and to the client. *)
Record duet (A B : Type) := mkDuet { d_client : proc A; d_server : proc B; d_up : bytes; d_down : bytes }.
Arguments mkDuet {A B} _ _ _ _.
Arguments d_client {A B} _.
Arguments d_server {A B} _.
Arguments d_up {A B} _.
Arguments d_down {A B} _.

Inductive dstep {A B} : duet A B -> duet A B -> Prop :=
| client_sends p k s up down : dstep (mkDuet (Send p k) s up down) (mkDuet (k true) s (up ++ p) down)
| client_reads n k s up down :
    (n <= length down)%nat ->
    dstep (mkDuet (ReadN n k) s up down) (mkDuet (k (Ok (take n down))) s up (drop n down))
| server_sends p k c up down : dstep (mkDuet c (Send p k) up down) (mkDuet c (k true) up (down ++ p))
| server_reads n k c up down :
    (n <= length up)%nat ->
    dstep (mkDuet c (ReadN n k) up down) (mkDuet c (k (Ok (take n up))) (drop n up) down).
#[export] Hint Constructors dstep : ntr.

(** Every conversation ends: each step descends in one of the two trees. *)
Lemma duet_sn {A B} (d : duet A B) : sn dstep d.
Proof.
  destruct d as [c s up down]. revert s up down.
  induction c as [a|n k IHc|p k IHc]; intros s; induction s as [b|m j IHs|q j IHs]; intros up down;
    constructor; intros d' Hd; inversion Hd; subst; auto.
Qed.

(** A read that could be made is still the same read after more bytes have arrived. *)
Lemma client_reads_more {A B} n (k : res io_err bytes -> proc A) (s : proc B) up down p :
  (n <= length down)%nat ->
  dstep (mkDuet (ReadN n k) s up (down ++ p)) (mkDuet (k (Ok (take n down))) s up (drop n down ++ p)).
Proof.
  intros. rewrite <-(take_app_le down p), <-drop_app_le by done.
  constructor. rewrite length_app. lia.
Qed.

Lemma server_reads_more {A B} n (k : res io_err bytes -> proc B) (c : proc A) up down p :
  (n <= length up)%nat ->
  dstep (mkDuet c (ReadN n k) (up ++ p) down) (mkDuet c (k (Ok (take n up))) (drop n up ++ p) down).
Proof.
  intros. rewrite <-(take_app_le up p), <-drop_app_le by done.
  constructor. rewrite length_app. lia.
Qed.

(** The two sides only share queues they use at opposite ends, so their steps commute. *)
Lemma duet_locally_confluent {A B} : locally_confluent (@dstep A B).
Proof.
  intros d d1 d2 H1 H2.
  destruct H1; inversion H2; subst; try (eexists; split; apply rtc_refl).
  all: eexists; split; apply rtc_once;
    first [ by eapply server_reads_more | by eapply client_reads_more | by eapply server_sends
          | by eapply client_sends | by eapply server_reads | by eapply client_reads ].
Qed.

Lemma duet_confluent {A B} : confluent (@dstep A B).
Proof. apply locally_confluent_confluent; [apply duet_sn|apply duet_locally_confluent]. Qed.

Lemma duet_done_nf {A B} (a : A) (b : B) up down : nf dstep (mkDuet (Ret a) (Ret b) up down).
Proof. intros [d Hd]. inversion Hd. Qed.

(** A conversation that can end with both sides done ends there whatever the schedule: it
    always ends, and a state from which no step is left is that one. *)
Definition always_reaches {A B} (d e : duet A B) : Prop :=
  sn dstep d /\ (forall d', rtc dstep d d' -> rtc dstep d' e) /\
  forall d', rtc dstep d d' -> nf dstep d' -> d' = e.

Lemma duet_schedule_irrelevant {A B} (d e : duet A B) :
  rtc dstep d e -> nf dstep e -> always_reaches d e.
Proof.
  intros He Hnf. split_and!; [apply duet_sn| |].
  - intros d' Hd. destruct (duet_confluent d d' e Hd He) as (z & Hz1 & Hz2).
    by rewrite <-(rtc_nf _ _ Hz2 Hnf) in Hz1.
  - intros d' Hd Hn. destruct (duet_confluent d d' e Hd He) as (z & Hz1 & Hz2).
    by rewrite (rtc_nf _ _ Hz2 Hnf), (rtc_nf _ _ Hz1 Hn).
Qed.

(** Letting one side run as far as its input goes. *)
Lemma feed_client {A B} (c : proc A) (s : proc B) up down q r o :
  feed c down = (q, r, o) -> rtc dstep (mkDuet c s up down) (mkDuet q s (up ++ o) r).
Proof.
  revert up down q r o. induction c as [a|n k IH|p k IH]; intros up down q r o; simpl.
  - intros [= <- <- <-]. by rewrite app_nil_r.
  - destruct (Nat.leb_spec n (length down)); [|intros [= <- <- <-]; by rewrite app_nil_r].
    intros Hf. eapply rtc_l; [by constructor|]. by apply IH.
  - destruct (feed (k true) down) as [[q1 r1] o1] eqn:Hf. intros [= <- <- <-].
    eapply rtc_l; [constructor|]. rewrite app_assoc. by apply IH.
Qed.

Lemma feed_server {A B} (c : proc A) (s : proc B) up down q r o :
  feed s up = (q, r, o) -> rtc dstep (mkDuet c s up down) (mkDuet c q r (down ++ o)).
Proof.
  revert up down q r o. induction s as [a|n k IH|p k IH]; intros up down q r o; simpl.
  - intros [= <- <- <-]. by rewrite app_nil_r.
  - destruct (Nat.leb_spec n (length up)); [|intros [= <- <- <-]; by rewrite app_nil_r].
    intros Hf. eapply rtc_l; [by constructor|]. by apply IH.
  - destruct (feed (k true) up) as [[q1 r1] o1] eqn:Hf. intros [= <- <- <-].
    eapply rtc_l; [constructor|]. rewrite app_assoc. by apply IH.
Qed.

(** ** Parsers *)

(** A handshake part that only reads: it ends on exactly the inputs that begin with a word
    of the grammar [G]. *)
Definition hparses {E A} (m : hs E A) (G : A -> bytes -> Prop) : Prop :=
  forall i v r o, ends m i (Ok v) r o <-> exists w, G v w /\ i = w ++ r /\ o = [].

(** Concatenation of grammars, the second depending on the value of the first. *)
Definition gseq {A B} (G : A -> bytes -> Prop) (H : A -> B -> bytes -> Prop) (v : B) (w : bytes) : Prop :=
  exists a w1 w2, G a w1 /\ H a v w2 /\ w = w1 ++ w2.
Definition gret {A} (a : A) (v : A) (w : bytes) : Prop := v = a /\ w = [].
Definition gnone {A} (v : A) (w : bytes) : Prop := False.
Definition gbytes (n : nat) (v w : bytes) : Prop := v = w /\ length w = n.

Section parsers.
Context {E : Type} `{StreamErrors E}.

Lemma hparses_bind {A B} (m : hs E A) (f : A -> hs E B) G H' :
  hparses m G -> (forall a, hparses (f a) (H' a)) -> hparses (m ≫= f) (gseq G H').
Proof.
  intros Hm Hf i v r o. split.
  - intros (a & r1 & o1 & o2 & H1 & H2 & ->)%ends_bind_inv.
    apply Hm in H1 as (w1 & ? & -> & ->). apply Hf in H2 as (w2 & ? & -> & ->).
    exists (w1 ++ w2). split_and!; [by exists a, w1, w2|by rewrite <-app_assoc|done].
  - intros (w & (a & w1 & w2 & ? & ? & ->) & -> & ->). rewrite <-app_assoc.
    eapply (ends_bind _ _ _ a (w2 ++ r) [] _ _ []); [apply Hm|apply Hf]; eauto.
Qed.

Lemma hparses_ret {A} (a : A) : hparses (mret a : hs E A) (gret a).
Proof.
  intros i v r o. unfold ends, mret, hs_ret. simpl. split.
  - intros [= <- <- <-]. by exists [].
  - by intros (w & [-> ->] & -> & ->).
Qed.

Lemma hparses_fail {A} (e : E) : hparses (hfail e : hs E A) gnone.
Proof. intros i v r o. split; [done|]. by intros (? & [] & _). Qed.

Lemma hparses_read n : hparses (hread n : hs E bytes) (gbytes n).
Proof.
  intros i v r o. split.
  - intros (-> & <- & ->)%ends_read_inv. by exists v.
  - intros (w & [-> <-] & -> & ->). by apply ends_read.
Qed.

Lemma hparses_if {A} (c : bool) (m n : hs E A) G H' :
  (c = true -> hparses m G) -> (c = false -> hparses n H') ->
  hparses (if c then m else n) (if c then G else H').
Proof. destruct c; auto. Qed.
End parsers.
#[export] Hint Resolve hparses_bind hparses_ret hparses_fail hparses_read hparses_if : ntr.

(** ** Playing a part turn by turn *)

(** [m] answers the inputs of the turns with their outputs, waiting for more after each but
    the last, and ends with [v]. *)
Inductive plays {A} : proc A -> list (bytes * bytes) -> A -> Prop :=
| plays_last m i o v : feed m i = (Ret v, [], o) -> plays m [(i, o)] v
| plays_turn m i o q t l v : feed m i = (q, [], o) -> plays q (t :: l) v -> plays m ((i, o) :: t :: l) v.

(** The turns of the other side, when this side says [o] and then plays [l]: it is given
    what this side says and says what this side is given. *)
Fixpoint answers (o : bytes) (l : list (bytes * bytes)) : list (bytes * bytes) :=
  match l with [] => [] | (i, o') :: l' => (o, i) :: answers o' l' end.
Fixpoint last_word (o : bytes) (l : list (bytes * bytes)) : bytes :=
  match l with [] => o | (_, o') :: l' => last_word o' l' end.

(** A server that plays the answers to the turns of a client, the last word being its own,
    brings the conversation to its end. *)
Lemma plays_duet {A B} (c : proc A) (s : proc B) i o l a b :
  plays c ((i, o) :: l) a -> last_word o l = [] ->
  match l with [] => s = Ret b | _ => plays s (answers o l) b end ->
  rtc dstep (mkDuet c s [] i) (mkDuet (Ret a) (Ret b) [] []).
Proof.
  revert c s i o. induction l as [|[i' o'] l IH]; intros c s i o Hc Hlast Hs.
  - simpl in Hlast. subst o s. inversion Hc as [m i0 o0 v Hf|]; subst. by apply (feed_client _ _ [] _ _ _ _ Hf).
  - inversion Hc as [|m i0 o0 q t l' v Hf Hq]; subst.
    etransitivity; [apply (feed_client _ _ [] _ _ _ _ Hf)|]. rewrite app_nil_l. cbn [answers] in Hs.
    assert (exists q', feed s o = (q', [], i') /\
      match l with [] => q' = Ret b | _ => plays q' (answers o' l) b end) as (q' & Hfs & Hq').
    { destruct l as [|[i2 o2] l].
      - inversion Hs as [m i0 o0 v0 Hfs|]; subst. eauto.
      - inversion Hs as [|m i0 o0 q0 t0 l0 v0 Hfs Hqs]; subst. exists q0. split; [done|]. exact Hqs. }
    etransitivity; [apply (feed_server _ _ _ [] _ _ _ Hfs)|]. rewrite app_nil_l.
    by apply (IH q q' i' o').
Qed.

(** Waiting for input. *)
Definition waits {A} (q : proc A) : Prop := match q with ReadN _ _ => True | _ => False end.

Lemma feed_blocked {E A B} (m : hs E A) (f : A -> hs E B) i q r o :
  feed m i = (q, r, o) -> waits q -> feed (m ≫= f) i = ((q : hs E A) ≫= f, r, o).
Proof. intros Hm Hq. unfold mbind, hs_bind. rewrite (feed_bind _ _ _ _ _ _ Hm). by destruct q. Qed.

Lemma feed_wait {E B} `{StreamErrors E} n (f : bytes -> hs E B) i :
  (length i < n)%nat -> feed (hread n ≫= f) i = (hread n ≫= f, i, []).
Proof.
  intros Hi. eapply feed_blocked; [|done]. unfold hread. cbn [feed].
  by destruct (Nat.leb_spec n (length i)); [lia|].
Qed.

(** The same inside sequences. *)
Section waiting.
Context {E : Type} `{StreamErrors E} {A B C D : Type}.

Lemma feed_wait2 (m : hs E A) (f : A -> hs E B) i n (g : bytes -> hs E A) r o :
  feed m i = (hread n ≫= g, r, o) -> feed (m ≫= f) i = ((hread n ≫= g) ≫= f, r, o).
Proof. intros Hm. by apply feed_blocked. Qed.

Lemma feed_wait3 (m : hs E A) (f : A -> hs E B) i n (g : bytes -> hs E C) (g' : C -> hs E A) r o :
  feed m i = ((hread n ≫= g) ≫= g', r, o) -> feed (m ≫= f) i = (((hread n ≫= g) ≫= g') ≫= f, r, o).
Proof. intros Hm. by apply feed_blocked. Qed.

Lemma feed_wait4 (m : hs E A) (f : A -> hs E B) i n (g : bytes -> hs E C) (g' : C -> hs E D) (g'' : D -> hs E A) r o :
  feed m i = (((hread n ≫= g) ≫= g') ≫= g'', r, o) ->
  feed (m ≫= f) i = ((((hread n ≫= g) ≫= g') ≫= g'') ≫= f, r, o).
Proof. intros Hm. by apply feed_blocked. Qed.
End waiting.
