(* ===== verification/Proxy.v ===== *)
(** * Packages [core/cred] and [core/proxy], and the credential table ([service/auth.go])

    What a protocol plugin exchanges with the core: credentials, the authenticator it
    consults and the request its handshake produces. *)
From S2P Require Import Prelude GoStd Netip Socksaddr.

(** ** Credentials. No code sets the [Node] of a [cred.Ref]: a reference is its id. *)

Definition credID : Type := Z.
Definition Unmatched : credID := 0.
Definition Ambient : credID := 1.
Definition UserBase : credID := 2 ^ 20.

Inductive Network := NetTCP | NetUDP.
#[export] Instance Network_eq_dec : EqDecision Network.
Proof. solve_decision. Defined.

Record Request := mkRequest { r_Dst : Socksaddr; r_Cred : credID; r_Network : Network; r_Command : byte }.

(** [proxy.Authenticator]: a protocol name and a key. *)
Definition Authenticator : Type := bytes -> bytes -> option credID.

(** ** [StaticAuth] *)

Definition StaticAuth : Type := gmap (bytes * bytes) credID.
Definition NewStaticAuth : StaticAuth := ∅.
Definition StaticAuth_Add (a : StaticAuth) (scheme key : bytes) (ref : credID) : StaticAuth :=
  <[(scheme, key) := ref]> a.
Definition StaticAuth_Auth (a : StaticAuth) : Authenticator := fun scheme key => a !! (scheme, key).

Lemma StaticAuth_Add_lookup a scheme key ref scheme' key' :
  StaticAuth_Auth (StaticAuth_Add a scheme key ref) scheme' key' =
  if bool_decide (scheme' = scheme /\ key' = key) then Some ref else StaticAuth_Auth a scheme' key'.
Proof.
  unfold StaticAuth_Auth, StaticAuth_Add. case_bool_decide as H.
  - destruct H as [-> ->]. apply (lookup_insert_eq (M:=gmap (bytes * bytes))).
  - apply (lookup_insert_ne (M:=gmap (bytes * bytes))). intros [= -> ->]. by apply H.
Qed.

(** ** Addresses on the wire *)

(** [Addr.As4], called on IPv4 addresses. *)
Definition As4 (a : Addr) : bytes := be_enc 4 (addr_val a).

(** What the other side of a protocol sees of a destination: a name, an IPv4 address or
    sixteen bytes, without a zone. *)
Definition wire_dst (d : Socksaddr) : Socksaddr :=
  if IsFqdn d then FromFqdn (Fqdn d) (sa_port d)
  else if Is4 (sa_addr d) then FromIPPort {| ap_addr := sa_addr d; ap_port := sa_port d |}
  else FromIPPort {| ap_addr := AddrFrom16 (As16 (sa_addr d)); ap_port := sa_port d |}.

(** The destinations every protocol can carry: a name of at most 255 bytes, a well-formed
    address, a port. *)
Definition carriable (d : Socksaddr) : Prop :=
  len (Fqdn d) <= 255 /\ addr_wf (sa_addr d) /\ in_u16 (sa_port d).

(** They arrive unchanged, unless the source mixes both forms or has a zone. *)
Lemma wire_dst_id d :
  carriable d -> (IsFqdn d = true -> sa_addr d = AddrZero) ->
  (IsFqdn d = false -> IsValid (sa_addr d) = true /\ hasZone (sa_addr d) = false) ->
  wire_dst d = d.
Proof.
  intros (_ & Hwf & _) Hn Hi. unfold wire_dst. destruct (IsFqdn d) eqn:E.
  - destruct d as [a f p]. simpl in *. by rewrite (Hn eq_refl).
  - destruct (Hi eq_refl) as [Hv Hz]. unfold IsFqdn in E. to_prop. destruct d as [a f p]. simpl in *. subst f.
    destruct a as [|v|v z]; [done|done|]. assert (z = []) as -> by (by destruct z).
    unfold FromIPPort, AddrFrom16, As16. cbn [Is4 ap_addr ap_port].
    rewrite be_dec_enc_small; [done|]. exact Hwf.
Qed.

Lemma As4_dec v : addr_wf (Addr4 v) -> AddrFrom4 (As4 (Addr4 v)) = Addr4 v.
Proof. intros H. unfold AddrFrom4, As4, addr_val. rewrite be_dec_enc_small; [done|]. simpl in H. lia. Qed.

(** The length byte of a field. *)
Lemma len_byte l : 0 <= len l <= 255 -> length l = Z.to_nat (b2z (z2b (@len byte l))).
Proof. intros. rewrite b2z_z2b_small by lia. unfold len. lia. Qed.

Lemma length_As4 a : length (As4 a) = 4%nat.
Proof. apply length_be_enc. Qed.
Lemma length_As16 a : length (As16 a) = 16%nat.
Proof. apply length_be_enc. Qed.
Lemma port_dec p : in_u16 p -> be_dec (be_enc 2 p) = p.
Proof. intros H. by apply be_dec_enc_small. Qed.
