(* ===== verification/Relay.v ===== *)
(** * Package [core/relay]: copying bytes both ways between two streams ([core/relay/relay.go])

    [copyStream] as a process over the destination's [Write]; [Relay] as a machine whose
    steps are those of its two copying goroutines and of the goroutine that waits for them. *)
From stdpp Require Import relations.
From S2P Require Import Prelude GoStd Link.

(** ** One direction *)

(** The buffers of [bufPool]: no read returns more. *)
Definition bufSize : Z := 32 * 1024.

(** A source, as its reader sees it: the results of its successive reads, then EOF ([None])
    or an error. *)
Record source (E : Type) := mkSource { src_chunks : list bytes; src_end : option E }.
Arguments mkSource {E} _ _.
Arguments src_chunks {E} _.
Arguments src_end {E} _.

Definition source_ok {E} (s : source E) : Prop := Forall (fun p => 0 < len p <= bufSize) (src_chunks s).

(** [io.CopyBuffer]: each chunk is written before the next is read. The destination is a
    stream with a state of its own, which its [Write] changes. *)
Fixpoint copy_chunks {E S} (write : S -> bytes -> hs E unit) (after : S -> S) (st : S) (l : list bytes) : hs E S :=
  match l with
  | [] => mret st
  | p :: l' => write st p;; copy_chunks write after (after st) l'
  end.

Definition copyStream {E S} (write : S -> bytes -> hs E unit) (after : S -> S) (st : S) (src : source E) : hs E unit :=
  copy_chunks write after st (src_chunks src);;
  match src_end src with None => mret tt | Some e => hfail e end.

(** A copy whose writes all pass the bytes on delivers the source's bytes in order. *)
Lemma copy_chunks_ends {E S} (write : S -> bytes -> hs E unit) (after : S -> S) (out : S -> bytes -> bytes) (st : S) l i :
  (forall st p i, p ∈ l -> ends (write st p) i (Ok tt) i (out st p)) ->
  exists o st', ends (copy_chunks write after st l) i (Ok st') i o /\
    o = (fix go st l := match l with [] => [] | p :: l' => out st p ++ go (after st) l' end) st l.
Proof.
  revert st. induction l as [|p l IH]; intros st Hw.
  - exists [], st. split; [apply ends_ret|done].
  - destruct (IH (after st)) as (o & st' & Ho & ->).
    { intros st1 p1 i1 Hp1. apply Hw. by right. }
    eexists _, st'. split; [|reflexivity]. cbn [copy_chunks].
    eapply ends_bind; [apply Hw; left|exact Ho].
Qed.

(** ** [Relay] *)

(** The two directions, and the two ends: [EndA] is read by [AB] and written by [BA]. *)
Inductive dir := AB | BA.
Inductive side := EndA | EndB.
#[export] Instance dir_eq_dec : EqDecision dir.
Proof. solve_decision. Defined.
#[export] Instance side_eq_dec : EqDecision side.
Proof. solve_decision. Defined.

Definition src_of (d : dir) : side := match d with AB => EndA | BA => EndB end.
Definition dst_of (d : dir) : side := match d with AB => EndB | BA => EndA end.
Definition rev_of (d : dir) : dir := match d with AB => BA | BA => AB end.

(** What a copying goroutine has done: [None] while it runs, its result afterwards
    ([Some false] an EOF, [Some true] an error). *)
Definition result : Type := bool.

(** Where the waiting goroutine is: before the first result, after it with the connection
    half closed or closed on both ends, or returned. *)
Inductive waiter :=
| WaitFirst
| HalfClosed (first : result)
| BothClosed (first : result)
| Returned (first : result).

Record relay := mkRelay {
  copies : dir -> option result;      (* the goroutines *)
  results : list (dir * result);      (* the channel [errc] *)
  closed : side -> bool;              (* [Close] was called *)
  finSent : side -> bool;             (* [CloseWrite] was called *)
  deadline : side -> bool;            (* the half-close read deadline was set *)
  wait : waiter;
}.

Definition upd {K} `{EqDecision K} {V} (f : K -> V) (k : K) (v : V) : K -> V :=
  fun x => if bool_decide (x = k) then v else f x.

Definition relay_start : relay :=
  mkRelay (fun _ => None) [] (fun _ => false) (fun _ => false) (fun _ => false) WaitFirst.

Definition close_both (r : relay) (w : waiter) : relay :=
  mkRelay (copies r) (results r) (fun _ => true) (finSent r) (deadline r) w.

(** [can_fin]: which ends have a [CloseWrite] capability. *)
Inductive rstep (can_fin : side -> bool) : relay -> relay -> Prop :=
(** a goroutine ends: an EOF only while its source is open, an error at any time *)
| copy_ends d e r :
    copies r d = None -> (e = false -> closed r (src_of d) = false) ->
    rstep can_fin r
      (mkRelay (upd (copies r) d (Some e)) (results r ++ [(d, e)]) (closed r) (finSent r) (deadline r) (wait r))
(** the first result: an EOF is passed on and the other direction goes on *)
| first_eof d l r :
    wait r = WaitFirst -> results r = (d, false) :: l -> can_fin (dst_of d) = true ->
    rstep can_fin r
      (mkRelay (copies r) l (closed r) (upd (finSent r) (dst_of d) true) (upd (deadline r) (dst_of d) true)
         (HalfClosed false))
| first_close d e l r :
    wait r = WaitFirst -> results r = (d, e) :: l -> (e = true \/ can_fin (dst_of d) = false) ->
    rstep can_fin r (close_both (mkRelay (copies r) l (closed r) (finSent r) (deadline r) (wait r)) (BothClosed e))
(** the second result *)
| second_half d e l r first :
    wait r = HalfClosed first -> results r = (d, e) :: l ->
    rstep can_fin r (close_both (mkRelay (copies r) l (closed r) (finSent r) (deadline r) (wait r)) (Returned first))
| second_closed d e l r first :
    wait r = BothClosed first -> results r = (d, e) :: l ->
    rstep can_fin r (mkRelay (copies r) l (closed r) (finSent r) (deadline r) (Returned first)).

(** ** What [Relay] guarantees *)

Definition ended (r : relay) (d : dir) : nat := match copies r d with Some _ => 1 | None => 0 end.
Definition consumed (w : waiter) : nat :=
  match w with WaitFirst => 0 | HalfClosed _ | BothClosed _ => 1 | Returned _ => 2 end.

Record relay_inv (can_fin : side -> bool) (r : relay) : Prop := {
  (** the channel holds the results not yet taken, of goroutines that have ended *)
  inv_count : (ended r AB + ended r BA = consumed (wait r) + length (results r))%nat;
  inv_results : forall d e, (d, e) ∈ results r -> copies r d = Some e;
  inv_distinct : NoDup (results r).*1;
  (** the ends stay open up to the first result, and beyond it when it was an EOF that
      could be passed on: then it was *)
  inv_wait :
    match wait r with
    | WaitFirst => closed r = (fun _ => false)
    | HalfClosed first =>
        first = false /\ closed r = (fun _ => false) /\
        exists d, copies r d = Some false /\ (forall e, (d, e) ∉ results r) /\ can_fin (dst_of d) = true /\
          finSent r (dst_of d) = true /\ deadline r (dst_of d) = true
    | BothClosed _ | Returned _ => closed r = (fun _ => true)
    end;
}.

Lemma upd_eq {K} `{EqDecision K} {V} (f : K -> V) k v : upd f k v k = v.
Proof. unfold upd. by rewrite bool_decide_true. Qed.
Lemma upd_ne {K} `{EqDecision K} {V} (f : K -> V) k v x : x <> k -> upd f k v x = f x.
Proof. intros. unfold upd. by rewrite bool_decide_false. Qed.

Lemma relay_inv_start can_fin : relay_inv can_fin relay_start.
Proof. split; simpl; [done|by intros ? ? ?%not_elem_of_nil|constructor|done]. Qed.

(** Taking a result off the channel. *)
Lemma results_pop can_fin r d e l :
  relay_inv can_fin r -> results r = (d, e) :: l ->
  copies r d = Some e /\ (forall e', (d, e') ∉ l) /\
  (forall d' e', (d', e') ∈ l -> copies r d' = Some e') /\ NoDup l.*1.
Proof.
  intros [_ Hres Hnd _] Hr. rewrite Hr in *. rewrite fmap_cons in Hnd. apply NoDup_cons in Hnd as [Hd Hnd].
  split_and!; [apply Hres; left| |intros; apply Hres; by right|done].
  intros e' He'. apply Hd. by apply (list_elem_of_fmap_2 fst l (d, e')).
Qed.

Lemma relay_inv_step can_fin r r' : relay_inv can_fin r -> rstep can_fin r r' -> relay_inv can_fin r'.
Proof.
  intros I Hs. pose proof I as [Hc Hr Hnd Hw]. destruct Hs as [d e r Hd He|d l r Hwt Hres Hcf|d e l r Hwt Hres He|d e l r f Hwt Hres|d e l r f Hwt Hres].
  - split; simpl.
    + rewrite length_app. unfold ended in *. simpl. destruct d; rewrite upd_eq, upd_ne by done; rewrite Hd in Hc; lia.
    + intros d' e' [H|H]%elem_of_app.
      * apply Hr in H as H'. rewrite upd_ne; [done|]. intros ->. congruence.
      * apply list_elem_of_singleton in H as [= -> ->]. apply upd_eq.
    + rewrite fmap_app. apply NoDup_app. split_and!; [done| |apply NoDup_singleton].
      intros x ([d' e'] & -> & H)%list_elem_of_fmap Hx%list_elem_of_singleton. simpl in Hx. subst d'.
      apply Hr in H. congruence.
    + destruct (wait r) as [|f|f|f]; [done| |done|done]. destruct Hw as (-> & Hcl & d0 & Hd0 & Hn & ?).
      split_and!; [done..|]. exists d0. assert (d0 <> d) by congruence. rewrite upd_ne by done.
      split_and!; [done| |naive_solver..]. intros e' [H'|H']%elem_of_app; [by eapply Hn|].
      apply list_elem_of_singleton in H'. congruence.
  - destruct (results_pop _ _ _ _ _ I Hres) as (Hd & Hn & Hl & Hnl). rewrite Hwt, Hres in *.
    split; simpl in *; [unfold ended in *; simpl in *; lia|done|done|].
    split_and!; [done..|]. exists d. rewrite !upd_eq. done.
  - destruct (results_pop _ _ _ _ _ I Hres) as (Hd & Hn & Hl & Hnl). rewrite Hwt, Hres in *.
    by split; simpl in *; [unfold ended in *; simpl in *; lia|..].
  - destruct (results_pop _ _ _ _ _ I Hres) as (Hd & Hn & Hl & Hnl). rewrite Hwt, Hres in *.
    by split; simpl in *; [unfold ended in *; simpl in *; lia|..].
  - destruct (results_pop _ _ _ _ _ I Hres) as (Hd & Hn & Hl & Hnl). rewrite Hwt, Hres in *.
    by split; simpl in *; [unfold ended in *; simpl in *; lia|..].
Qed.

Lemma relay_inv_reachable can_fin r : rtc (rstep can_fin) relay_start r -> relay_inv can_fin r.
Proof.
  intros H. revert r H. apply (rtc_ind_r (R:=rstep can_fin) (relay_inv can_fin)); [apply relay_inv_start|].
  intros r1 r2 _ Hs IH. by eapply relay_inv_step.
Qed.

(** Every step ends a goroutine or takes a result. *)
Definition rmeasure (r : relay) : nat := (2 - ended r AB - ended r BA) + (2 - consumed (wait r)).

Lemma rstep_decreases can_fin r r' : rstep can_fin r r' -> (rmeasure r' < rmeasure r)%nat.
Proof.
  intros [d e r0 Hd He|d l r0 Hwt Hres Hcf|d e l r0 Hwt Hres He|d e l r0 f Hwt Hres|d e l r0 f Hwt Hres];
    unfold rmeasure, ended; simpl; rewrite ?Hwt; simpl;
    try (destruct (copies r0 AB), (copies r0 BA); lia).
  destruct d; rewrite upd_eq, upd_ne, Hd by done; [destruct (copies r0 BA)|destruct (copies r0 AB)];
    destruct (wait r0); simpl; lia.
Qed.

Lemma relay_sn can_fin r : sn (rstep can_fin) r.
Proof.
  remember (rmeasure r) as n eqn:Hn. revert r Hn. induction n as [n IH] using lt_wf_ind. intros r ->.
  constructor. intros r' Hs%rstep_decreases. by eapply IH.
Qed.


(** A first EOF that can be passed on keeps the connection open for the other direction: no
    end is closed until that direction has ended too. *)
Lemma half_close_keeps_reverse can_fin r first :
  rtc (rstep can_fin) relay_start r -> wait r = HalfClosed first ->
  (forall x, closed r x = false) /\
  exists d, copies r d = Some false /\ finSent r (dst_of d) = true.
Proof.
  intros [_ _ _ Hw]%relay_inv_reachable Hf. rewrite Hf in Hw. destruct Hw as (_ & -> & d & ? & _ & _ & ? & _). eauto.
Qed.

(** ** A run in which the first direction ends with an EOF that is passed on *)

Module Examples.

Definition after_eof : relay :=
  mkRelay (upd (fun _ => None) AB (Some false)) [] (fun _ => false) (upd (fun _ => false) EndB true)
    (upd (fun _ => false) EndB true) (HalfClosed false).

Lemma after_eof_reachable : rtc (rstep (fun _ => true)) relay_start after_eof.
Proof.
  eapply rtc_l; [apply (copy_ends _ AB false); done|].
  eapply rtc_l; [by eapply (first_eof _ AB)|]. apply rtc_refl.
Qed.


End Examples.
