(* ===== verification/Packet.v ===== *)
(** * Datagrams over streams: the interface [link.PacketConn] and [copyPacket]
    ([core/link/link.go], [core/relay/relay.go])

    A protocol that carries datagrams on a stream frames them with [WritePacket] and reads
    them back with [ReadPacket]. The class says what the core relies on; the relay loop is
    verified against it, whatever the protocols on its two sides. *)
From S2P Require Import Prelude GoStd Socksaddr Buf Link.

Class PacketConn (E : Type) := {
  ReadPacket : Buffer -> hs E (Socksaddr * Buffer);
  WritePacket : Buffer -> Socksaddr -> hs E unit;
  (** a datagram on the wire, the destinations it can be sent to, and what its reader sees
      of its destination *)
  frame : Socksaddr -> bytes -> bytes;
  frameable : Socksaddr -> Prop;
  seen : Socksaddr -> Socksaddr;
}.

(** No datagram fills more than the payload area of a pooled buffer. *)
Definition maxDatagram : Z := DefaultSize - DefaultHeadroom.

(** A buffer as [copyPacket] hands it out: from the pool, reset. *)
Definition ready (b : Buffer) : Prop := wf b /\ Cap b = DefaultSize /\ b_start b = DefaultHeadroom.

Lemma ready_empty b : ready b -> payload b = [] -> Tailroom b = maxDatagram /\ Headroom b = DefaultHeadroom.
Proof.
  intros (Hwf & HC & Hs) Hp. pose proof (len_payload b Hwf) as HL. rewrite Hp in HL. change (len []) with 0 in HL.
  unfold Len, Tailroom, Headroom in *. fold (Cap b). unfold maxDatagram. lia.
Qed.

(** Appending a datagram that fits to an empty buffer. *)
Lemma ready_fill b p :
  ready b -> payload b = [] -> len p <= maxDatagram ->
  exists b' off, ExtendTail b (len p) = Ok (b', off) /\ ready (put b' off p) /\ payload (put b' off p) = p.
Proof.
  intros Hb Hp Hl. destruct (ready_empty b Hb Hp) as [HT _]. destruct Hb as (Hwf & HC & Hs).
  destruct (ExtendTail_put b p Hwf) as (b' & off & He & Hw & Hpay & HC' & Hs'); [lia|].
  exists b', off. split; [done|]. rewrite Hp in Hpay. split; [|done]. split_and!; [done|congruence|congruence].
Qed.

(** Putting a header of at most the headroom before the payload. *)
Lemma ready_header b h :
  ready b -> len h <= DefaultHeadroom ->
  exists b' off, ExtendHeader b (len h) = Ok (b', off) /\ Bytes (put b' off h) = Ok (h ++ payload b).
Proof.
  intros (Hwf & HC & Hs) Hh. destruct (ExtendHeader_put b h Hwf) as (b' & off & He & Hw & Hp).
  { unfold Headroom. lia. }
  exists b', off. split; [done|]. by rewrite Bytes_ok, Hp.
Qed.

Lemma ready_len b : ready b -> Len b = len (payload b) /\ len (payload b) <= maxDatagram.
Proof.
  intros (Hwf & HC & Hs). rewrite len_payload by done. split; [done|]. destruct Hwf. unfold Len, maxDatagram. lia.
Qed.

Class PacketConnLaws E `{PacketConn E} := {
  read_frame b d p rest :
    ready b -> payload b = [] -> frameable d -> len p <= maxDatagram ->
    exists b', ends (ReadPacket b) (frame d p ++ rest) (Ok (seen d, b')) rest [] /\ ready b' /\ payload b' = p;
  write_frame b d i :
    ready b -> frameable d -> ends (WritePacket b d) i (Ok tt) i (frame d (payload b));
  (** at the end of the stream *)
  read_eof b out : exists e, run (ReadPacket b) (mkStream [] out []) = (Err e, mkStream [] out []);
}.

(** ** [copyPacket] *)

(** One goroutine of [RelayPacket]: datagrams are read from one connection and written to
    the other, until an error. The tree of the loop is cut after [fuel] datagrams. *)
Section copy.
Context {E : Type} {S D : PacketConn E}.

Fixpoint copyPacket (fuel : nat) (b : Buffer) : hs E unit :=
  match fuel with
  | O => mret tt
  | Datatypes.S fuel' =>
      '(to, b) ← @ReadPacket E S (Reset b);
      @WritePacket E D b to;;
      copyPacket fuel' b
  end.

Context `{!@PacketConnLaws E S} `{!@PacketConnLaws E D}.

Definition frames (c : PacketConn E) (l : list (Socksaddr * bytes)) : bytes :=
  flat_map (fun '(d, p) => @frame E c d p) l.

(** The datagrams both sides can carry. *)
Definition sendable (l : list (Socksaddr * bytes)) : Prop :=
  Forall (fun '(d, p) => @frameable E S d /\ @frameable E D (@seen E S d) /\ len p <= maxDatagram) l.

Definition forwarded (l : list (Socksaddr * bytes)) : list (Socksaddr * bytes) :=
  map (fun '(d, p) => (@seen E S d, p)) l.

Lemma ready_Reset b : ready b -> ready (Reset b) /\ payload (Reset b) = [].
Proof. intros (_ & HC & _). by destruct (wf_Reset b HC). Qed.

(** The loop passes on the datagrams it is given, in order, each with its payload and the
    destination its reader saw. *)
Lemma copyPacket_forwards l fuel b rest :
  (length l <= fuel)%nat -> ready b -> sendable l ->
  exists b', ready b' /\
    feed (copyPacket fuel b) (frames S l ++ rest) =
    (let '(q, r, o) := feed (copyPacket (fuel - length l) b') rest in (q, r, frames D (forwarded l) ++ o)).
Proof.
  revert fuel b. induction l as [|[d p] l IH]; intros fuel b Hf Hb Hl; simpl in Hf.
  - exists b. split; [done|]. simpl. rewrite Nat.sub_0_r. by destruct (feed (copyPacket fuel b) rest) as [[??]?].
  - apply Forall_cons in Hl as [(H1 & H2 & H3) Hl]. destruct fuel as [|fuel]; [lia|].
    destruct (ready_Reset b Hb) as [Hr Hp]. cbn [frames flat_map copyPacket]. rewrite <-app_assoc.
    destruct (read_frame (Reset b) d p (frames S l ++ rest) Hr Hp H1 H3) as (b1 & Hrd & Hb1 & Hp1).
    destruct (IH fuel b1) as (b' & Hb' & Hfeed); [lia|done|done|].
    exists b'. split; [done|].
    destruct (feed (copyPacket (fuel - length l) b') rest) as [[q r] o] eqn:Ho.
    replace (Datatypes.S fuel - length ((d, p) :: l))%nat with (fuel - length l)%nat by (simpl; lia). rewrite Ho.
    rewrite <-(app_nil_l (frames D (forwarded ((d, p) :: l)) ++ o)).
    eapply feed_hbind; [exact Hrd|]. cbv beta iota. cbn [forwarded map frames flat_map]. rewrite <-app_assoc.
    rewrite <-Hp1. eapply feed_hbind; [by apply write_frame|]. exact Hfeed.
Qed.

(** Relaying datagrams keeps them: whatever protocols frame the two sides, when the
    connection read from has carried a list of datagrams and ended, [copyPacket] has
    written exactly those datagrams to the other connection, in order, each with its
    payload and with the destination its reader saw, and it returns. *)
Theorem copyPacket_relays l fuel b out :
  (length l < fuel)%nat -> ready b -> sendable l ->
  exists e, run (copyPacket fuel b) (mkStream (frames S l) out []) =
    (Err e, mkStream [] (out ++ frames D (forwarded l)) []).
Proof.
  intros Hf Hb Hl. destruct (copyPacket_forwards l fuel b []) as (b' & Hb' & Hfeed); [lia|done|done|].
  rewrite app_nil_r in Hfeed.
  destruct (feed (copyPacket (fuel - length l) b') []) as [[q r] o] eqn:Ho.
  rewrite (feed_run_on _ _ _ _ _ out Hfeed), app_assoc, <-(feed_run_on _ _ _ _ _ _ Ho).
  destruct (fuel - length l)%nat as [|k] eqn:Ek; [lia|]. cbn [copyPacket].
  destruct (@read_eof E S _ (Reset b') (out ++ frames D (forwarded l))) as [e He].
  exists e. by apply run_bind_err.
Qed.
End copy.
