(* ===== verification/Vless.v ===== *)
(** * Package [proto/vless]: the VLESS protocol ([codec.go], [vless.go], [udp.go], [vision.go])

    The request header codec on buffers, the header reader on streams, the two handshakes,
    the streams that add and strip the response header, and datagram framing. XTLS Vision's
    record splicing is the third-party [sing-vmess]: whether [NewVisionConn] accepts the
    connection below is a parameter of the handshakes. *)
From S2P Require Import Prelude GoStd Netip Socksaddr MuxServer Proxy Buf Link.
From Stdlib Require Import Init.Byte.

(** ** Constants and data *)

Definition Version : byte := x00.
Definition CmdTCP : byte := x01.
Definition CmdUDP : byte := x02.
Definition CmdMux : byte := x03.

Definition atypIPv4 : byte := x01.
Definition atypDomain : byte := x02.
Definition atypIPv6 : byte := x03.

Inductive vlessErr :=
| ErrShort
| ErrVersion
| ErrAtyp
| ErrBuf (e : bufErr)
| ErrIO (e : io_err)
| ErrSend
| ErrUnknownUser (uuid : bytes)
| ErrKeyLength
| ErrFlow
| ErrVisionUDP
| ErrVisionBelow
| ErrVisionConn
| errPacketTooLarge.

#[export] Instance vless_stream_errors : StreamErrors vlessErr := {| read_error := ErrIO; write_error := ErrSend |}.

Record RequestHeader := mkHeader { UUID : bytes; Addons : bytes; Command : byte; Dst : Socksaddr }.

Definition noDst : Socksaddr := FromFqdn [] 0.

(** ** The codec on buffers ([codec.go]) *)

Definition has_dst (cmd : byte) : bool := bool_decide (cmd = CmdTCP) || bool_decide (cmd = CmdUDP).

Definition writeAddrPort (d : Socksaddr) : bw unit :=
  bwrite (be_enc 2 (sa_port d));;
  if IsFqdn d then
    bwriteByte atypDomain;;
    bwriteByte (z2b (len (Fqdn d)));;
    bwrite (Fqdn d)
  else if Is4 (sa_addr d) then
    bwriteByte atypIPv4;;
    bwrite (As4 (sa_addr d))
  else
    bwriteByte atypIPv6;;
    bwrite (As16 (sa_addr d)).

Definition Encode (h : RequestHeader) : bw unit :=
  bwriteByte Version;;
  bwrite (UUID h);;
  bwriteByte (z2b (len (Addons h)));;
  (if 0 <? len (Addons h) then bwrite (Addons h) else mret tt);;
  bwriteByte (Command h);;
  (if has_dst (Command h) then writeAddrPort (Dst h) else mret tt).

Definition EncodeResponseHeader : bw unit :=
  bwriteByte Version;;
  bwriteByte x00.

(** [reader]: a cursor over the bytes of the buffer. *)
Record reader := mkReader { rd_b : bytes; rd_i : nat }.

Definition rd (A : Type) : Type := reader -> res vlessErr (A * reader).
#[export] Instance rd_ret : MRet rd := fun _ a r => Ok (a, r).
#[export] Instance rd_bind : MBind rd := fun _ _ f m r => match m r with Ok (a, r') => f a r' | Err e => Err e end.
Definition rd_fail {A} (e : vlessErr) : rd A := fun _ => Err e.

Definition u8 : rd byte := fun r =>
  if (length (rd_b r) <? rd_i r + 1)%nat then Err ErrShort
  else Ok (nth (rd_i r) (rd_b r) x00, mkReader (rd_b r) (rd_i r + 1)).

Definition u16 : rd Z := fun r =>
  if (length (rd_b r) <? rd_i r + 2)%nat then Err ErrShort
  else Ok (be_dec (take 2 (drop (rd_i r) (rd_b r))), mkReader (rd_b r) (rd_i r + 2)).

Definition read (n : nat) : rd bytes := fun r =>
  if (length (rd_b r) <? rd_i r + n)%nat then Err ErrShort
  else Ok (take n (drop (rd_i r) (rd_b r)), mkReader (rd_b r) (rd_i r + n)).

Definition ipDst (a : Addr) (port : Z) : Socksaddr := FromIPPort {| ap_addr := a; ap_port := port |}.

Definition readAddrPort : rd Socksaddr :=
  port ← u16;
  atyp ← u8;
  if bool_decide (atyp = atypIPv4) then a4 ← read 4; mret (ipDst (AddrFrom4 a4) port)
  else if bool_decide (atyp = atypDomain) then
    l ← u8; name ← read (Z.to_nat (b2z l)); mret (FromFqdn name port)
  else if bool_decide (atyp = atypIPv6) then a16 ← read 16; mret (ipDst (AddrFrom16 a16) port)
  else rd_fail ErrAtyp.

Definition decodeHeader : rd RequestHeader :=
  v ← u8;
  if negb (bool_decide (v = Version)) then rd_fail ErrVersion
  else
    uuid ← read 16;
    alen ← u8;
    addons ← (if 0 <? b2z alen then read (Z.to_nat (b2z alen)) else mret []);
    cmd ← u8;
    dst ← (if has_dst cmd then readAddrPort else mret noDst);
    mret (mkHeader uuid addons cmd dst).

(** [Decode]: the header, and the buffer advanced past it. *)
Definition Decode (src : Buffer) : res vlessErr (RequestHeader * Buffer) :=
  match Bytes src with
  | Err e => Err (ErrBuf e)
  | Ok b =>
      '(h, r) ← decodeHeader (mkReader b 0);
      Ok (h, Advance src (Z.of_nat (rd_i r)))
  end.

(** ** The header on streams ([vless.go]) *)

Definition readAddrPortStream : hs vlessErr Socksaddr :=
  pa ← hread 3;
  let port := be_dec (take 2 pa) in
  let atyp := nth 2 pa x00 in
  if bool_decide (atyp = atypIPv4) then a4 ← hread 4; mret (ipDst (AddrFrom4 a4) port)
  else if bool_decide (atyp = atypDomain) then
    l ← hread 1; name ← hread (Z.to_nat (b2z (nth 0 l x00))); mret (FromFqdn name port)
  else if bool_decide (atyp = atypIPv6) then a16 ← hread 16; mret (ipDst (AddrFrom16 a16) port)
  else hfail ErrAtyp.

Definition readRequestHeader : hs vlessErr RequestHeader :=
  fixed ← hread 18;
  if negb (bool_decide (nth 0 fixed x00 = Version)) then hfail ErrVersion
  else
    let uuid := take 16 (drop 1 fixed) in
    let alen := b2z (nth 17 fixed x00) in
    addons ← (if 0 <? alen then hread (Z.to_nat alen) else mret []);
    c ← hread 1;
    let cmd := nth 0 c x00 in
    dst ← (if has_dst cmd then readAddrPortStream else mret noDst);
    mret (mkHeader uuid addons cmd dst).

(** Encode into a buffer of the pool, then write it out. *)
Definition encoded (recycled : option Buffer) (m : bw unit) : hs vlessErr bytes :=
  match m (New recycled) with
  | (_, Err e) => hfail (ErrBuf e)
  | (b, Ok _) => match Bytes b with Ok p => mret p | Err e => hfail (ErrBuf e) end
  end.

Definition writeRequestHeader (recycled : option Buffer) (uuid : bytes) (cmd : byte) (dst : Socksaddr) : hs vlessErr unit :=
  p ← encoded recycled (Encode (mkHeader uuid [] cmd dst));
  hwrite p.

(** ** Credentials *)

(** [hex.DecodeString]. *)
Fixpoint hexDecode (s : bytes) : option bytes :=
  match s with
  | [] => Some []
  | [_] => None
  | a :: b :: s' =>
      match hex_digit a, hex_digit b, hexDecode s' with
      | Some x, Some y, Some t => Some (z2b (x * 16 + y) :: t)
      | _, _, _ => None
      end
  end.

Definition parseUUID (s : bytes) : option bytes :=
  match hexDecode (filter (fun c => c <> x2d) s) with
  | Some b => if (length b =? 16)%nat then Some b else None
  | None => None
  end.
Definition ClientKey (secret : bytes) : option bytes := parseUUID secret.
Definition AuthKey (secret : bytes) : option bytes := parseUUID secret.

(** ** Vision addons ([vision.go]) *)

Definition flowVision : bytes := bs "xtls-rprx-vision".

Definition encodeFlowAddon (flow : bytes) : bytes := [x0a; z2b (len flow)] ++ flow.

Definition parseFlowAddon (addons : bytes) : bytes :=
  if (2 <=? length addons)%nat && bool_decide (nth 0 addons x00 = x0a) then
    let l := Z.to_nat (b2z (nth 1 addons x00)) in
    if (2 + l <=? length addons)%nat then take l (drop 2 addons) else []
  else [].

(** The stream below a handshake, as far as Vision is concerned: whether its own type
    carries a TLS connection, and whether [NewVisionConn] takes that connection. *)
Record Below := mkBelow { below_tls : bool; below_vision : bool }.

(** The stream a handshake returns. *)
Inductive vlessStream :=
| ServerStream (wroteResp : bool)
| ClientStream (strippedResp : bool)
| LazyClientStream (uuid : bytes) (dst : Socksaddr) (wroteHdr strippedResp : bool)
| VisionStream (over : vlessStream).

Definition serverVision (below : Below) : hs vlessErr vlessStream :=
  if negb (below_tls below) then hfail ErrVisionBelow
  else if negb (below_vision below) then hfail ErrVisionConn
  else mret (VisionStream (ServerStream false)).

Definition clientVision (below : Below) (uuid : bytes) (dst : Socksaddr) : hs vlessErr vlessStream :=
  if negb (below_tls below) then hfail ErrVisionBelow
  else if negb (below_vision below) then hfail ErrVisionConn
  else mret (VisionStream (LazyClientStream uuid dst false false)).

(** ** The handshakes *)

Definition ServerHandshake (below : Below) (auth : Authenticator) : hs vlessErr (vlessStream * Request) :=
  h ← readRequestHeader;
  match auth (bs "vless") (UUID h) with
  | None => hfail (ErrUnknownUser (UUID h))
  | Some ref =>
      let dst := if bool_decide (Command h = CmdMux) then FromFqdn CarrierFqdn CarrierPort else Dst h in
      let net := if bool_decide (Command h = CmdUDP) then NetUDP else NetTCP in
      let req := mkRequest dst ref net (Command h) in
      if bool_decide (parseFlowAddon (Addons h) = flowVision) then
        if bool_decide (Command h = CmdUDP) then hfail ErrVisionUDP
        else vs ← serverVision below; mret (vs, req)
      else mret (ServerStream false, req)
  end.

(** Whether [dst] is the Mux.cool carrier, sent as a command without address. *)
Definition client_cmd (dst : Socksaddr) : byte :=
  if IsFqdn dst && bool_decide (Fqdn dst = CarrierFqdn) && (sa_port dst =? CarrierPort) then CmdMux else CmdTCP.

Definition ClientHandshake (recycled : option Buffer) (flow : bytes) (below : Below) (key : bytes) (dst : Socksaddr)
  : hs vlessErr vlessStream :=
  if negb (length key =? 16)%nat then hfail ErrKeyLength
  else if bool_decide (flow = flowVision) then clientVision below key dst
  else if negb (bool_decide (flow = [])) then hfail ErrFlow
  else
    writeRequestHeader recycled key (client_cmd dst) dst;;
    mret (ClientStream false).

(** ** The streams *)

(** [Write] of the streams that prefix their first write with a header: the header and the
    payload go out in one write from one buffer. The flag is set before anything can fail. *)
Definition writeWithHeader (recycled : option Buffer) (hdr : bw unit) (p : bytes) : hs vlessErr unit :=
  q ← encoded recycled (hdr;; bwrite p);
  hwrite q.

Definition serverStream_Write (recycled : option Buffer) (wroteResp : bool) (p : bytes) : hs vlessErr unit :=
  if wroteResp then hwrite p else writeWithHeader recycled EncodeResponseHeader p.

Definition lazyClientStream_Write (recycled : option Buffer) (uuid : bytes) (dst : Socksaddr) (wroteHdr : bool) (p : bytes)
  : hs vlessErr unit :=
  if wroteHdr then hwrite p
  else writeWithHeader recycled (Encode (mkHeader uuid (encodeFlowAddon flowVision) CmdTCP dst)) p.

(** What the first [Read] of the client's streams does before it reads payload. *)
Definition stripResponse (strippedResp : bool) : hs vlessErr unit :=
  if strippedResp then mret tt
  else
    vh ← hread 2;
    if negb (bool_decide (nth 0 vh x00 = Version)) then hfail ErrVersion
    else
      let alen := b2z (nth 1 vh x00) in
      if 0 <? alen then (_ ← hread (Z.to_nat alen); mret tt) else mret tt.

(** [Read] of [n] bytes of payload through the client's stream. *)
Definition clientStream_ReadFull (strippedResp : bool) (n : nat) : hs vlessErr bytes :=
  stripResponse strippedResp;;
  hread n.

(** ** Datagrams ([udp.go]) *)

Definition DialPacketConn (recycled : option Buffer) (flow key : bytes) (dst : Socksaddr) : hs vlessErr vlessStream :=
  if negb (bool_decide (flow = [])) then hfail ErrFlow
  else if negb (length key =? 16)%nat then hfail ErrKeyLength
  else
    writeRequestHeader recycled key CmdUDP dst;;
    mret (ClientStream false).

(** [ReadPacket] into [b], once the stream below is positioned at a frame; the destination
    of the packet is that of the connection. *)
Definition ReadPacket (dst : Socksaddr) (b : Buffer) : hs vlessErr (Socksaddr * Buffer) :=
  hdr ← hread 2;
  let n := be_dec hdr in
  if Tailroom b <? n then hfail errPacketTooLarge
  else
    match ExtendTail b n with
    | Err e => hfail (ErrBuf e)
    | Ok (b', off) => p ← hread (Z.to_nat n); mret (dst, put b' off p)
    end.

(** [WritePacket]: the frame handed to the stream's [Write]. *)
Definition packetFrame (b : Buffer) : res vlessErr bytes :=
  let n := Len b in
  if 0xFFFF <? n then Err errPacketTooLarge
  else
    match ExtendHeader b 2 with
    | Err e => Err (ErrBuf e)
    | Ok (b', off) =>
        match Bytes (put b' off (be_enc 2 n)) with Ok p => Ok p | Err e => Err (ErrBuf e) end
    end.

Definition WritePacket (b : Buffer) (write : bytes -> hs vlessErr unit) : hs vlessErr unit :=
  match packetFrame b with Ok p => write p | Err e => hfail e end.
