(* ===== verification/VlessSpec.v ===== *)
(** * VLESS: the two header parsers accept one grammar, sessions and datagrams arrive intact,
    and what exceeds the buffers does not *)
From S2P Require Import Prelude GoStd Netip Socksaddr MuxServer Proxy Buf Link Relay Packet Vless.
From Stdlib Require Import Init.Byte.

(** ** The grammar of request headers *)

Inductive addr_wire : Socksaddr -> bytes -> Prop :=
| wire_ip4 p a : length p = 2%nat -> length a = 4%nat ->
    addr_wire (ipDst (AddrFrom4 a) (be_dec p)) (p ++ [atypIPv4] ++ a)
| wire_name p l n : length p = 2%nat -> length n = Z.to_nat (b2z l) ->
    addr_wire (FromFqdn n (be_dec p)) (p ++ [atypDomain; l] ++ n)
| wire_ip6 p a : length p = 2%nat -> length a = 16%nat ->
    addr_wire (ipDst (AddrFrom16 a) (be_dec p)) (p ++ [atypIPv6] ++ a).

Definition dst_wire (cmd : byte) (d : Socksaddr) (w : bytes) : Prop :=
  if has_dst cmd then addr_wire d w else d = noDst /\ w = [].

Inductive header_wire : RequestHeader -> bytes -> Prop :=
| wire_header u l a c d w :
    length u = 16%nat -> length a = Z.to_nat (b2z l) -> dst_wire c d w ->
    header_wire (mkHeader u a c d) ([Version] ++ u ++ [l] ++ a ++ [c] ++ w).

(** ** The cursor parser *)

Definition parses {A} (m : rd A) (G : A -> bytes -> Prop) : Prop :=
  forall b i v r', (i <= length b)%nat ->
  m (mkReader b i) = Ok (v, r') <->
  exists w rest, G v w /\ drop i b = w ++ rest /\ r' = mkReader b (i + length w).

Lemma drop_split {A} i (b w rest : list A) :
  (i <= length b)%nat -> drop i b = w ++ rest -> (i + length w <= length b)%nat /\ drop (i + length w) b = rest.
Proof.
  intros Hi H. split.
  - apply (f_equal length) in H. rewrite length_drop, length_app in H. lia.
  - by rewrite <-drop_drop, H, drop_app_length.
Qed.

Lemma parses_bind {A B} (m : rd A) (f : A -> rd B) G H :
  parses m G -> (forall a, parses (f a) (H a)) -> parses (m ≫= f) (gseq G H).
Proof.
  intros Hm Hf b i v r' Hi. unfold mbind, rd_bind. split.
  - destruct (m (mkReader b i)) as [[a r1]|e] eqn:E; [|done]. apply Hm in E as (w1 & rest & ? & Hd & ->); [|done].
    destruct (drop_split _ _ _ _ Hi Hd) as [Hi' Hd'].
    intros (w2 & rest' & ? & Hd2 & ->)%Hf; [|done]. exists (w1 ++ w2), rest'. split_and!.
    + by exists a, w1, w2.
    + by rewrite Hd, <-Hd', Hd2, app_assoc.
    + f_equal. rewrite length_app. lia.
  - intros (w & rest & (a & w1 & w2 & ? & ? & ->) & Hd & ->). rewrite <-app_assoc in Hd.
    destruct (drop_split _ _ _ _ Hi Hd) as [Hi' Hd'].
    assert (m (mkReader b i) = Ok (a, mkReader b (i + length w1))) as -> by (apply Hm; eauto).
    apply Hf; [done|]. exists w2, rest. split_and!; [done..|]. f_equal. rewrite length_app. lia.
Qed.

Lemma parses_ret {A} (a : A) : parses (mret a) (gret a).
Proof.
  intros b i v r' Hi. unfold mret, rd_ret. split.
  - intros [= <- <-]. exists [], (drop i b). split_and!; [done|done|]. f_equal. simpl. lia.
  - intros (w & rest & [-> ->] & _ & ->). simpl. by rewrite Nat.add_0_r.
Qed.

Lemma parses_fail {A} (e : vlessErr) : parses (rd_fail e : rd A) gnone.
Proof. intros b i v r' Hi. split; [done|]. by intros (? & ? & [] & _). Qed.

Lemma parses_read n : parses (read n) (gbytes n).
Proof.
  intros b i v r' Hi. unfold read. simpl. split.
  - destruct (Nat.ltb_spec (length b) (i + n)); [done|]. intros [= <- <-].
    exists (take n (drop i b)), (drop n (drop i b)). rewrite take_drop.
    assert (length (take n (drop i b)) = n) as Hl by (rewrite length_take, length_drop; lia).
    unfold gbytes. by rewrite Hl.
  - intros (w & rest & [-> <-] & Hd & ->). destruct (drop_split _ _ _ _ Hi Hd).
    destruct (Nat.ltb_spec (length b) (i + length w)); [lia|]. by rewrite Hd, take_app_length.
Qed.

Lemma parses_u8 : parses u8 (fun v w => w = [v]).
Proof.
  intros b i v r' Hi. unfold u8. simpl. split.
  - destruct (Nat.ltb_spec (length b) (i + 1)); [done|]. intros [= <- <-].
    exists [nth i b x00], (drop (S i) b). split_and!; [done| |done].
    clear Hi. revert i H. induction b as [|x b IH]; intros [|i] Hi; simpl in *; try lia; [done|]. apply IH. lia.
  - intros (w & rest & -> & Hd & ->). destruct (drop_split _ _ _ _ Hi Hd) as [? _]. simpl in *.
    destruct (Nat.ltb_spec (length b) (i + 1)); [lia|]. do 3 f_equal.
    rewrite <-(take_drop i b), Hd, app_nth2 by (rewrite length_take; lia).
    rewrite length_take. by replace (i - i `min` length b)%nat with O by lia.
Qed.

Lemma parses_u16 : parses u16 (fun v w => length w = 2%nat /\ v = be_dec w).
Proof.
  intros b i v r' Hi. pose proof (parses_read 2 b i) as Hr. unfold read, u16 in *. simpl in *.
  destruct (length b <? i + 2)%nat.
  - split; [done|]. intros (w & rest & [Hw ->] & Hd & ->).
    assert (Err ErrShort = Ok (w, mkReader b (i + length w))) as Hbad; [|done].
    apply Hr; [done|]. by exists w, rest.
  - split.
    + intros [= <- <-]. destruct (proj1 (Hr _ _ Hi) eq_refl) as (w & rest & [-> Hw] & Hd & Hr'). eauto 10.
    + intros (w & rest & [Hw ->] & Hd & ->).
      assert (Ok (take 2 (drop i b), mkReader b (i + 2)) = Ok (w, mkReader b (i + length w)) :> res vlessErr _) as [= -> ->]; [|done].
      apply Hr; [done|]. by exists w, rest.
Qed.

Lemma parses_if {A} (c : bool) (m n : rd A) G H :
  (c = true -> parses m G) -> (c = false -> parses n H) -> parses (if c then m else n) (if c then G else H).
Proof. destruct c; auto. Qed.

Lemma parses_iff {A} (m : rd A) G H : parses m G -> (forall v w, G v w <-> H v w) -> parses m H.
Proof.
  intros Hm HGH b i v r' Hi. rewrite (Hm b i v r' Hi). by setoid_rewrite HGH.
Qed.
Lemma hparses_iff {A} (m : hs vlessErr A) G H : hparses m G -> (forall v w, G v w <-> H v w) -> hparses m H.
Proof. intros Hm HGH i v r o. rewrite (Hm i v r o). by setoid_rewrite HGH. Qed.

(** The grammar a parser is composed of, read off its text; [part] proves the parts that
    have a grammar already. *)
Ltac parser_grammar_with part :=
  repeat first
    [ part | apply parses_u8 | apply parses_u16 | apply parses_read | apply parses_ret | apply parses_fail
    | apply parses_if; intros _ | eapply parses_bind; [|intros ?]
    | apply hparses_read | apply hparses_ret | apply hparses_fail
    | apply hparses_if; intros _ | eapply hparses_bind; [|intros ?] ].
Ltac parser_grammar := parser_grammar_with fail.

Lemma readAddrPort_parses : parses readAddrPort addr_wire.
Proof.
  eapply parses_iff; [unfold readAddrPort; parser_grammar|]. intros v w. split.
  - intros (port & w1 & w2 & [Hp ->] & (at_ & w3 & w4 & -> & Hb & ->) & ->).
    repeat case_bool_decide; subst; [| | |done].
    + destruct Hb as (a & w5 & w6 & [-> ?] & [-> ->] & ->). rewrite app_nil_r. by constructor.
    + destruct Hb as (l & w5 & w6 & -> & (n & w7 & w8 & [-> ?] & [-> ->] & ->) & ->). rewrite app_nil_r. by constructor.
    + destruct Hb as (a & w5 & w6 & [-> ?] & [-> ->] & ->). rewrite app_nil_r. by constructor.
  - intros [p a Hp Ha|p l n Hp Hn|p a Hp Ha]; exists (be_dec p), p; eexists; (split; [done|]); (split; [|reflexivity]).
    + exists atypIPv4, [atypIPv4], a. split_and!; [done| |done]. exists a, a, []. by rewrite app_nil_r.
    + exists atypDomain, [atypDomain], (l :: n). split_and!; [done| |done].
      exists l, [l], n. split_and!; [done| |done]. exists n, n, []. by rewrite app_nil_r.
    + exists atypIPv6, [atypIPv6], a. split_and!; [done| |done]. exists a, a, []. by rewrite app_nil_r.
Qed.

Lemma split_head {A} n m (w : list A) :
  length w = (n + m)%nat -> exists a b, w = a ++ b /\ length a = n /\ length b = m.
Proof.
  intros H. exists (take n w), (drop n w). rewrite take_drop, length_take, length_drop. split_and!; [done|lia|lia].
Qed.

Lemma readAddrPortStream_parses : hparses readAddrPortStream addr_wire.
Proof.
  eapply hparses_iff; [unfold readAddrPortStream; parser_grammar|]. intros v w. split.
  - intros (pa & w1 & w2 & [-> Hp] & Hb & ->).
    destruct (split_head 2 1 w1 Hp) as (p & t & -> & Hp2 & Ht). destruct t as [|at_ [|? ?]]; simplify_eq/=.
    rewrite <-!app_assoc. rewrite <-Hp2, take_app_length in Hb.
    rewrite app_nth2, Hp2 in Hb by lia. cbn [nth Nat.sub] in Hb.
    repeat case_bool_decide; subst; [| | |done].
    + destruct Hb as (a & w5 & w6 & [-> ?] & [-> ->] & ->). rewrite app_nil_r. by constructor.
    + destruct Hb as (l & w5 & w6 & [-> Hl] & (n & w7 & w8 & [-> ?] & [-> ->] & ->) & ->). rewrite app_nil_r.
      destruct w5 as [|l [|? ?]]; simplify_eq/=. by constructor.
    + destruct Hb as (a & w5 & w6 & [-> ?] & [-> ->] & ->). rewrite app_nil_r. by constructor.
  - assert (forall (p : bytes) at_, length p = 2%nat ->
      take 2 (p ++ [at_]) = p /\ nth 2 (p ++ [at_]) x00 = at_) as Hpa.
    { intros p at_ Hp. rewrite <-Hp at 1. rewrite take_app_length, app_nth2, Hp by lia. done. }
    intros [p a Hp Ha|p l n Hp Hn|p a Hp Ha].
    + exists (p ++ [atypIPv4]), (p ++ [atypIPv4]), a. destruct (Hpa p atypIPv4 Hp) as [-> ->]. unfold gbytes. split_and!; [done| | |].
      * rewrite length_app. simpl. lia.
      * exists a, a, []. by rewrite app_nil_r.
      * by rewrite <-app_assoc.
    + exists (p ++ [atypDomain]), (p ++ [atypDomain]), (l :: n). destruct (Hpa p atypDomain Hp) as [-> ->]. unfold gbytes. split_and!; [done| | |].
      * rewrite length_app. simpl. lia.
      * exists [l], [l], n. unfold gbytes. split_and!; [done..| |done]. exists n, n, []. by rewrite app_nil_r.
      * by rewrite <-app_assoc.
    + exists (p ++ [atypIPv6]), (p ++ [atypIPv6]), a. destruct (Hpa p atypIPv6 Hp) as [-> ->]. unfold gbytes. split_and!; [done| | |].
      * rewrite length_app. simpl. lia.
      * exists a, a, []. by rewrite app_nil_r.
      * by rewrite <-app_assoc.
Qed.

(** Reading no bytes is reading nothing. *)
Lemma gbytes_if l v w :
  (if 0 <? b2z l then gbytes (Z.to_nat (b2z l)) else gret []) v w <-> gbytes (Z.to_nat (b2z l)) v w.
Proof.
  destruct (Z.ltb_spec 0 (b2z l)); [done|]. pose proof (b2z_range l).
  replace (Z.to_nat (b2z l)) with O by lia. unfold gret, gbytes. split.
  - by intros [-> ->].
  - intros [-> ?%nil_length_inv]. by subst.
Qed.

Lemma decodeHeader_parses : parses decodeHeader header_wire.
Proof.
  eapply parses_iff.
  { unfold decodeHeader. parser_grammar_with ltac:(apply readAddrPort_parses). }
  intros v w. split.
  - intros (ver & w0 & w1 & -> & Hb & ->). case_bool_decide as Hv; [|done]. subst ver. simpl in Hb.
    destruct Hb as (u & w2 & w3 & [-> Hu] & (l & w4 & w5 & -> & (a & w6 & w7 & Ha & (c & w8 & w9 & -> & (d & w10 & w11 & Hd & [-> ->] & ->) & ->) & ->) & ->) & ->).
    apply gbytes_if in Ha as [-> Ha]. rewrite app_nil_r. constructor; [done|done|].
    unfold dst_wire. destruct (has_dst c); [done|]. exact Hd.
  - intros [u l a c d t Hu Ha Hd]. exists Version, [Version]. eexists. split; [done|]. split; [|reflexivity]. simpl.
    exists u, u, ([l] ++ a ++ [c] ++ t). split; [done|]. split; [|done].
    exists l, [l], (a ++ [c] ++ t). split; [done|]. split; [|done].
    exists a, a, ([c] ++ t). split; [by apply gbytes_if|]. split; [|done].
    exists c, [c], t. split; [done|]. split; [|done].
    exists d, t, []. split; [|by rewrite app_nil_r]. unfold dst_wire in Hd. by destruct (has_dst c).
Qed.

Lemma readRequestHeader_parses : hparses readRequestHeader header_wire.
Proof.
  eapply hparses_iff.
  { unfold readRequestHeader. parser_grammar_with ltac:(apply readAddrPortStream_parses). }
  assert (forall (u : bytes) l, length u = 16%nat ->
    take 16 (drop 1 (Version :: u ++ [l])) = u /\ nth 17 (Version :: u ++ [l]) x00 = l) as Hfix.
  { intros u l Hu. change (nth 17 (Version :: u ++ [l]) x00) with (nth 16 (u ++ [l]) x00).
    change (drop 1 (Version :: u ++ [l])) with (u ++ [l]). rewrite take_app_le, take_ge, app_nth2, Hu by lia. done. }
  intros v w. split.
  - intros (fx & w0 & w1 & [-> Hf] & Hb & ->).
    destruct w0 as [|ver w0]; [done|]. destruct (split_head 16 1 w0) as (u & t & -> & Hu & Ht); [simpl in Hf; lia|].
    destruct t as [|l [|? ?]]; simplify_eq/=.
    case_bool_decide as Hv; [|done]. subst ver. cbn [negb] in Hb. destruct (Hfix u l Hu) as [Hf1 Hf2].
    rewrite Hf1, Hf2 in Hb. clear Hf1 Hf2.
    destruct Hb as (a & w6 & w7 & Ha & (c & w8 & w9 & [-> Hc] & (d & w10 & w11 & Hd & [-> ->] & ->) & ->) & ->).
    apply gbytes_if in Ha as [-> Ha]. destruct w8 as [|c [|? ?]]; simplify_eq/=. rewrite app_nil_r, <-!app_assoc.
    change (Version :: u ++ [l] ++ w6 ++ c :: w10) with ([Version] ++ u ++ [l] ++ w6 ++ [c] ++ w10).
    constructor; [done|done|]. unfold dst_wire. destruct (has_dst c); [done|]. exact Hd.
  - intros [u l a c d t Hu Ha Hd].
    exists (Version :: u ++ [l]), (Version :: u ++ [l]), (a ++ [c] ++ t). split_and!.
    + split; [done|]. simpl. rewrite length_app. simpl. lia.
    + destruct (Hfix u l Hu) as [-> ->]. rewrite bool_decide_true by done. cbn [negb].
      exists a, a, ([c] ++ t). split; [by apply gbytes_if|]. split; [|done].
      exists [c], [c], t. split; [done|]. split; [|done].
      exists d, t, []. split; [|by rewrite app_nil_r]. simpl. unfold dst_wire in Hd. by destruct (has_dst c).
    + simpl. by rewrite <-app_assoc.
Qed.

(** The buffer decoder and the stream reader of the request header accept the same
    headers: whatever bytes arrive, [Decode] of a buffer holding them succeeds exactly when
    reading them from a stream does, with the same header and with the same bytes left
    over. *)
Theorem decoders_agree (src : Buffer) (h : RequestHeader) (rest : bytes) :
  wf src ->
  (exists src', Decode src = Ok (h, src') /\ wf src' /\ payload src' = rest) <->
  ends readRequestHeader (payload src) (Ok h) rest [].
Proof.
  intros Hwf. rewrite (readRequestHeader_parses _ _ _ _). unfold Decode. rewrite Bytes_ok by done.
  split.
  - intros (src' & HD & _ & <-). apply bind_ok_inv in HD as ([h' r] & HD & [= -> <-]).
    apply decodeHeader_parses in HD as (w & rest & Hw & Hd & ->); [|lia]. exists w. split_and!; [done| |done].
    rewrite drop_0 in Hd. cbn [rd_i Nat.add].
    pose proof (len_payload src Hwf) as HL. assert (len w <= len (payload src)) by (rewrite Hd, len_app; pose proof (len_nonneg rest); lia).
    destruct (Advance_payload src (Z.of_nat (length w)) Hwf) as [_ ->].
    { unfold len in *. lia. }
    rewrite Hd at 2. by rewrite Nat2Z.id, drop_app_length.
  - intros (w & Hw & Hp & _).
    assert (decodeHeader (mkReader (payload src) 0) = Ok (h, mkReader (payload src) (0 + length w))) as ->.
    { apply decodeHeader_parses; [lia|]. exists w, rest. done. }
    eexists. split; [reflexivity|]. cbn [rd_i Nat.add].
    pose proof (len_payload src Hwf) as HL. assert (len w <= len (payload src)) by (rewrite Hp, len_app; pose proof (len_nonneg rest); lia).
    destruct (Advance_payload src (Z.of_nat (length w)) Hwf) as [? ->].
    { unfold len in *. lia. }
    split; [done|]. rewrite Hp. by rewrite Nat2Z.id, drop_app_length.
Qed.

(** ** What the encoder writes *)

Definition addr_bytes (d : Socksaddr) : bytes :=
  be_enc 2 (sa_port d) ++
  (if IsFqdn d then [atypDomain; z2b (len (Fqdn d))] ++ Fqdn d
   else if Is4 (sa_addr d) then [atypIPv4] ++ As4 (sa_addr d)
   else [atypIPv6] ++ As16 (sa_addr d)).

Definition hdr_bytes (h : RequestHeader) : bytes :=
  [Version] ++ UUID h ++ [z2b (len (Addons h))] ++ Addons h ++ [Command h] ++
  (if has_dst (Command h) then addr_bytes (Dst h) else []).

Ltac emit :=
  repeat first [ apply emits_bwrite | apply emits_bwriteByte | apply emits_ret | apply emits_bind ].

Lemma writeAddrPort_emits d : emits (writeAddrPort d) (addr_bytes d).
Proof.
  unfold writeAddrPort, addr_bytes. apply emits_bind; [emit|].
  destruct (IsFqdn d); [|destruct (Is4 (sa_addr d)); emit].
  change ([atypDomain; z2b (len (Fqdn d))] ++ Fqdn d) with ([atypDomain] ++ [z2b (len (Fqdn d))] ++ Fqdn d). emit.
Qed.

Lemma Encode_emits h : emits (Encode h) (hdr_bytes h).
Proof.
  unfold Encode, hdr_bytes. do 3 (apply emits_bind; [emit|]). apply emits_bind.
  - destruct (Z.ltb_spec 0 (len (Addons h))); [emit|].
    assert (Addons h = []) as -> by (destruct (Addons h); [done|unfold len in *; simpl in *; lia]). emit.
  - apply emits_bind; [emit|]. destruct (has_dst (Command h)); [apply writeAddrPort_emits|emit].
Qed.

Lemma addr_bytes_wire d : carriable d -> addr_wire (wire_dst d) (addr_bytes d).
Proof.
  intros (Hl & Hwf & Hp). unfold wire_dst, addr_bytes. pose proof (len_nonneg (Fqdn d)).
  assert (length (be_enc 2 (sa_port d)) = 2%nat) as H2 by apply length_be_enc.
  pose proof (wire_name _ (z2b (len (Fqdn d))) (Fqdn d) H2) as Wn.
  pose proof (fun a => wire_ip4 _ (As4 a) H2 (length_As4 a)) as W4.
  pose proof (fun a => wire_ip6 _ (As16 a) H2 (length_As16 a)) as W6.
  rewrite port_dec in Wn by done. setoid_rewrite (port_dec _ Hp) in W4. setoid_rewrite (port_dec _ Hp) in W6.
  destruct (IsFqdn d); [by apply Wn, len_byte|].
  destruct (sa_addr d) as [|v|v z] eqn:Ea; simpl Is4; [apply W6| |apply W6].
  pose proof (W4 (Addr4 v)) as W. by rewrite As4_dec in W.
Qed.

(** What the peer decodes from an encoded header. *)
Lemma hdr_bytes_wire h :
  length (UUID h) = 16%nat -> len (Addons h) <= 255 -> (has_dst (Command h) = true -> carriable (Dst h)) ->
  header_wire (mkHeader (UUID h) (Addons h) (Command h) (if has_dst (Command h) then wire_dst (Dst h) else noDst)) (hdr_bytes h).
Proof.
  intros Hu Ha Hd. unfold hdr_bytes. pose proof (len_nonneg (Addons h)).
  apply wire_header; [done|by apply len_byte|]. unfold dst_wire.
  destruct (has_dst (Command h)); [|done]. apply addr_bytes_wire. by apply Hd.
Qed.

Lemma len_addr_bytes d : len (Fqdn d) <= 255 -> len (addr_bytes d) <= 259.
Proof.
  intros. unfold addr_bytes. rewrite len_app, len_be_enc. destruct (IsFqdn d); [|destruct (Is4 (sa_addr d))];
    rewrite len_app; unfold len in *; cbn [length]; rewrite ?length_As4, ?length_As16; lia.
Qed.

Lemma len_hdr_bytes h :
  length (UUID h) = 16%nat -> len (Addons h) <= 255 -> len (Fqdn (Dst h)) <= 255 -> len (hdr_bytes h) <= 533.
Proof.
  intros Hu Ha Hd. unfold hdr_bytes. rewrite !len_app. change (len [_]) with 1.
  assert (len (UUID h) = 16) by (unfold len; lia).
  destruct (has_dst (Command h)); [pose proof (len_addr_bytes (Dst h) Hd); lia|change (len []) with 0; lia].
Qed.

(** ** Sending what was encoded *)

(** The room a pooled buffer has for a header and a first payload. *)
Definition room : Z := DefaultSize - DefaultHeadroom.

Lemma Tailroom_New r : pool_ok r -> Tailroom (New r) = room.
Proof. intros H. destruct (wf_New r H) as (_ & _ & HC). unfold Tailroom. fold (Cap (New r)). by rewrite HC. Qed.

Lemma encoded_ok r m p i : pool_ok r -> emits m p -> len p <= room -> ends (encoded r m) i (Ok p) i [].
Proof.
  intros Hr Hm Hp. destruct (wf_New r Hr) as (Hwf & Hpay & _).
  destruct (Hm (New r) Hwf) as (b & Hb & Hwfb & Hpb & _); [by rewrite Tailroom_New|].
  unfold encoded. rewrite Hb, Bytes_ok, Hpb, Hpay by done. apply ends_ret.
Qed.

Lemma encoded_short r m q p i :
  pool_ok r -> emits m q -> len q <= room -> room < len q + len p ->
  ends (encoded r (m;; bwrite p)) i (Err (ErrBuf ErrShortBuffer)) i [].
Proof.
  intros Hr Hm Hq Hp. destruct (wf_New r Hr) as (Hwf & _ & _).
  destruct (Hm (New r) Hwf) as (b & Hb & Hwfb & _ & HC & _ & He); [by rewrite Tailroom_New|].
  unfold encoded, mbind, bw_bind. rewrite Hb. unfold bwrite.
  assert (Tailroom b < len p) as Ht.
  { pose proof (Tailroom_New r Hr) as HT. unfold Tailroom in *. fold (Cap b) in *. fold (Cap (New r)) in *. lia. }
  pose proof (Write_short b p Hwfb Ht) as Hw. destruct (Write b p) as [b' [n|e]]; simpl in Hw; simplify_eq.
  apply ends_fail.
Qed.

Lemma response_emits : emits EncodeResponseHeader [Version; x00].
Proof. change [Version; x00] with ([Version] ++ [x00]). unfold EncodeResponseHeader. emit. Qed.

Lemma writeRequestHeader_ends r uuid cmd dst i :
  pool_ok r -> length uuid = 16%nat -> len (Fqdn dst) <= 255 ->
  ends (writeRequestHeader r uuid cmd dst) i (Ok tt) i (hdr_bytes (mkHeader uuid [] cmd dst)).
Proof.
  intros Hr Hu Hd. unfold writeRequestHeader. eapply (ends_bind _ _ _ _ _ []); [|apply ends_write].
  apply encoded_ok; [done|apply Encode_emits|].
  etransitivity; [by apply len_hdr_bytes|]. done.
Qed.

(** ** Sessions *)

(** A connection through both handshakes: the client sends [u] and waits for [n] bytes, the
    server reads [m] bytes and answers [d] through its stream. *)
Definition client_session (r : option Buffer) (below : Below) (key : bytes) (dst : Socksaddr) (u : bytes) (n : nat)
  : hs vlessErr bytes :=
  st ← ClientHandshake r [] below key dst;
  hwrite u;;
  match st with ClientStream stripped => clientStream_ReadFull stripped n | _ => hfail ErrFlow end.

Definition server_session (r : option Buffer) (below : Below) (auth : Authenticator) (m : nat) (d : bytes)
  : hs vlessErr (Request * bytes) :=
  '(st, req) ← ServerHandshake below auth;
  got ← hread m;
  match st with ServerStream wrote => serverStream_Write r wrote d;; mret (req, got) | _ => hfail ErrFlow end.

Lemma parseFlowAddon_none : parseFlowAddon [] <> flowVision.
Proof. discriminate. Qed.

(** The header of a client without flow, as the server sees it. *)
Lemma vless_ServerHandshake_ends below auth key cmd dst ref rest :
  length key = 16%nat -> (has_dst cmd = true -> carriable dst) -> auth (bs "vless") key = Some ref ->
  ends (ServerHandshake below auth) (hdr_bytes (mkHeader key [] cmd dst) ++ rest)
    (Ok (ServerStream false,
         mkRequest (if bool_decide (cmd = CmdMux) then FromFqdn CarrierFqdn CarrierPort
                    else if has_dst cmd then wire_dst dst else noDst)
           ref (if bool_decide (cmd = CmdUDP) then NetUDP else NetTCP) cmd)) rest [].
Proof.
  intros Hk Hd Ha. unfold ServerHandshake. eapply (ends_bind _ _ _ _ rest []).
  { apply readRequestHeader_parses. eexists. split; [|done]. apply hdr_bytes_wire; [done|done|exact Hd]. }
  cbn [UUID Command Addons Dst]. rewrite Ha.
  rewrite (bool_decide_false _ parseFlowAddon_none). apply ends_ret.
Qed.

Lemma client_cmd_dst dst :
  (if bool_decide (client_cmd dst = CmdMux) then FromFqdn CarrierFqdn CarrierPort
   else if has_dst (client_cmd dst) then wire_dst dst else noDst) = wire_dst dst /\
  client_cmd dst <> CmdUDP.
Proof.
  unfold client_cmd. destruct (IsFqdn dst && bool_decide (Fqdn dst = CarrierFqdn) && (sa_port dst =? CarrierPort)) eqn:E;
    [|done].
  to_prop. split; [|done]. rewrite bool_decide_true by done. unfold wire_dst.
  rewrite H0, H, H1. done.
Qed.

Lemma ClientHandshake_ends r below key dst i :
  pool_ok r -> length key = 16%nat -> len (Fqdn dst) <= 255 ->
  ends (ClientHandshake r [] below key dst) i (Ok (ClientStream false)) i
    (hdr_bytes (mkHeader key [] (client_cmd dst) dst)).
Proof.
  intros Hr Hk Hd. unfold ClientHandshake. rewrite Hk. cbn [Nat.eqb negb].
  rewrite bool_decide_false, bool_decide_true by done. cbn [negb].
  rewrite <-(app_nil_r (hdr_bytes _)). eapply ends_bind; [by apply writeRequestHeader_ends|apply ends_ret].
Qed.

Lemma serverStream_first_Write r p i :
  pool_ok r -> len p <= room - 2 -> ends (serverStream_Write r false p) i (Ok tt) i ([Version; x00] ++ p).
Proof.
  intros Hr Hp. unfold serverStream_Write, writeWithHeader. eapply (ends_bind _ _ _ _ _ []); [|apply ends_write].
  apply (encoded_ok _ _ ([Version; x00] ++ p)).
  { done. }
  { apply (emits_bind _ _ [Version; x00] p); [apply response_emits|apply emits_bwrite]. }
  rewrite len_app. change (len [Version; x00]) with 2. lia.
Qed.

Lemma clientStream_first_Read n d r :
  length d = n -> ends (clientStream_ReadFull false n) ([Version; x00] ++ d ++ r) (Ok d) r [].
Proof.
  intros Hd. unfold clientStream_ReadFull. eapply (ends_bind _ _ _ tt (d ++ r) []); [|by apply ends_read].
  unfold stripResponse. eapply ends_read_bind; [done|]. apply ends_ret.
Qed.


(** ** What does not fit *)

Lemma copy_rest r l i :
  ends (copy_chunks (serverStream_Write r) (fun _ => true) true l) i (Ok true) i (concat l).
Proof.
  revert i. induction l as [|p l IH]; intros i; [apply ends_ret|]. cbn [copy_chunks concat].
  eapply ends_bind; [apply ends_write|apply IH].
Qed.

(** The first chunk relayed to a VLESS client decides whether the client gets anything:
    the relay reads up to 32768 bytes at a time, but the first write to the client shares a
    buffer with the response header and takes at most 32254. A download whose first chunk
    fits arrives whole, behind the header; one whose first chunk is larger ends with an
    error and not one byte is sent. *)
Theorem first_chunk_limit r p l i :
  pool_ok r -> source_ok (mkSource (p :: l) (None : option vlessErr)) ->
  (len p <= 32254 ->
   ends (copyStream (serverStream_Write r) (fun _ => true) false (mkSource (p :: l) None)) i (Ok tt) i
     ([Version; x00] ++ concat (p :: l))) /\
  (32254 < len p ->
   ends (copyStream (serverStream_Write r) (fun _ => true) false (mkSource (p :: l) None)) i
     (Err (ErrBuf ErrShortBuffer)) i []).
Proof.
  intros Hr _. unfold copyStream. cbn [src_chunks src_end copy_chunks concat]. split; intros Hp.
  - rewrite <-(app_nil_r ([Version; x00] ++ p ++ concat l)). eapply ends_bind; [|apply ends_ret].
    rewrite app_assoc. eapply ends_bind; [by apply serverStream_first_Write|apply copy_rest].
  - apply ends_bind_err, ends_bind_err. unfold serverStream_Write, writeWithHeader. apply ends_bind_err.
    eapply encoded_short; [done|apply response_emits|done|]. change (len [Version; x00]) with 2. unfold room. change (DefaultSize - DefaultHeadroom) with 32256. lia.
Qed.

Lemma hdr_bytes_name key name port :
  name <> [] ->
  hdr_bytes (mkHeader key [] CmdTCP (FromFqdn name port)) =
  [Version] ++ key ++ [x00] ++ [] ++ [CmdTCP] ++ be_enc 2 port ++ [atypDomain; z2b (len name)] ++ name.
Proof.
  intros Hn. unfold hdr_bytes, addr_bytes. change (has_dst _) with true. cbv iota. cbn [Dst].
  assert (IsFqdn (FromFqdn name port) = true) as ->; [|done].
  unfold IsFqdn. simpl. by rewrite bool_decide_false.
Qed.

(** A domain name longer than 255 bytes is not refused but sent with its length taken
    modulo 256: the server accepts the request for the truncated name and takes the rest of
    the name as the beginning of the client's payload. *)
Theorem long_name_truncated r below below' key name port auth ref u :
  pool_ok r -> length key = 16%nat -> in_u16 port -> 255 < len name <= 32000 ->
  auth (bs "vless") key = Some ref ->
  let dst := FromFqdn name port in
  let k := Z.to_nat (len name mod 256) in
  exists out,
    ends (ClientHandshake r [] below key dst) [] (Ok (ClientStream false)) [] out /\
    ends (ServerHandshake below' auth) (out ++ u)
      (Ok (ServerStream false, mkRequest (FromFqdn (take k name) port) ref NetTCP CmdTCP)) (drop k name ++ u) [].
Proof.
  intros Hr Hk Hp Hn Ha dst k. subst dst.
  assert (name <> []) as Hne by (intros ->; change (len []) with 0 in Hn; lia).
  assert (client_cmd (FromFqdn name port) = CmdTCP) as Hc.
  { unfold client_cmd. rewrite (bool_decide_false (Fqdn _ = CarrierFqdn)), andb_false_r; [done|].
    simpl. intros ->. change (len CarrierFqdn) with 11 in Hn. lia. }
  exists (hdr_bytes (mkHeader key [] CmdTCP (FromFqdn name port))). split.
  - unfold ClientHandshake. rewrite Hk. cbn [Nat.eqb negb].
    rewrite bool_decide_false, bool_decide_true, Hc by done. cbn [negb].
    rewrite <-(app_nil_r (hdr_bytes _)). eapply ends_bind; [|apply ends_ret].
    unfold writeRequestHeader. eapply (ends_bind _ _ _ _ _ []); [|apply ends_write].
    apply (encoded_ok _ _ (hdr_bytes (mkHeader key [] CmdTCP (FromFqdn name port)))); [done|apply Encode_emits|].
    rewrite hdr_bytes_name, !len_app, len_be_enc by done. change (len []) with 0.
    assert (len key = 16) as -> by (unfold len; lia).
    change (len [_]) with 1. change (len [_; _]) with 2. change room with 32256. lia.
  - unfold ServerHandshake. eapply (ends_bind _ _ _ (mkHeader key [] CmdTCP (FromFqdn (take k name) port)) (drop k name ++ u) []).
    + apply readRequestHeader_parses. rewrite hdr_bytes_name by done.
      exists ([Version] ++ key ++ [x00] ++ [] ++ [CmdTCP] ++ be_enc 2 port ++ [atypDomain; z2b (len name)] ++ take k name).
      split_and!; [|by rewrite <-(take_drop k name) at 2; rewrite <-!app_assoc|done].
      apply wire_header; [done|done|]. unfold dst_wire. change (has_dst CmdTCP) with true. cbv iota.
      assert (length (be_enc 2 port) = 2%nat) as H2 by apply length_be_enc.
      pose proof (wire_name (be_enc 2 port) (z2b (len name)) (take k name) H2) as W. rewrite port_dec in W by done.
      apply W. rewrite b2z_z2b. unfold w8. change (2 ^ 8) with 256. rewrite length_take. subst k.
      pose proof (Z.mod_pos_bound (len name) 256). pose proof (Z.mod_le (len name) 256). unfold len in *. lia.
    + cbn [UUID Command Addons Dst]. rewrite Ha, (bool_decide_false _ parseFlowAddon_none). apply ends_ret.
Qed.

(** ** Datagrams *)

(** VLESS carries the datagrams of one destination, the one of its request. *)
Definition vless_packets (dst : Socksaddr) : PacketConn vlessErr := {|
  Packet.ReadPacket := ReadPacket dst;
  Packet.WritePacket b _ := WritePacket b hwrite;
  frame _ p := be_enc 2 (len p) ++ p;
  frameable _ := True;
  seen _ := dst;
|}.

Lemma maxDatagram_u16 p : len p <= maxDatagram -> in_u16 (@len byte p).
Proof. intros H. pose proof (len_nonneg p). unfold in_u16. change maxDatagram with 32256 in H. lia. Qed.

Lemma vless_packet_laws dst : @PacketConnLaws vlessErr (vless_packets dst).
Proof.
  split; cbn [Packet.ReadPacket Packet.WritePacket frame frameable seen vless_packets].
  - intros b d p rest Hb Hp _ Hl. destruct (ready_fill b p Hb Hp Hl) as (b' & off & He & Hr & Hpay).
    exists (put b' off p). split; [|done]. destruct (ready_empty b Hb Hp) as [HT _]. rewrite <-app_assoc.
    unfold ReadPacket. eapply ends_read_bind; [apply length_be_enc|].
    rewrite port_dec by by apply maxDatagram_u16. rewrite HT, (proj2 (Z.ltb_ge _ _)), He by lia.
    eapply ends_read_bind; [unfold len; lia|]. apply ends_ret.
  - intros b d i Hb _. destruct (ready_len b Hb) as [HL Hm]. unfold WritePacket, packetFrame.
    rewrite HL, (proj2 (Z.ltb_ge _ _)) by (change maxDatagram with 32256 in Hm; lia).
    destruct (ready_header b (be_enc 2 (len (payload b))) Hb) as (b' & off & He & Hby); [rewrite len_be_enc; done|].
    rewrite len_be_enc in He. change (Z.of_nat 2) with 2 in He. rewrite He, Hby. apply ends_write.
  - intros b out. by eexists.
Qed.

(** ** Witnesses *)

Module Examples.

Definition key : bytes := replicate 16 x41.
Definition auth : Authenticator := fun s k => if bool_decide (s = bs "vless" /\ k = key) then Some (UserBase + 7) else None.
Definition dst : Socksaddr := FromFqdn (bs "example.com") 443.
Definition below : Below := mkBelow true true.

Lemma vless_dst_carriable : carriable dst.
Proof. done. Qed.
Lemma no_recycled : pool_ok None.
Proof. done. Qed.

Lemma decoders_agree_witness :
  ends readRequestHeader (payload (As (hdr_bytes (mkHeader key [] CmdTCP dst) ++ [x48]))) (Ok (mkHeader key [] CmdTCP dst)) [x48] [].
Proof.
  apply decoders_agree; [done|]. eexists. split; [vm_compute; reflexivity|]. by split.
Defined.


(** A chunk of the size the relay reads. *)
Lemma first_chunk_limit_witness :
  let p := replicate (Z.to_nat bufSize) x41 in
  ends (copyStream (serverStream_Write None) (fun _ => true) false (mkSource [p] None)) []
    (Err (ErrBuf ErrShortBuffer)) [] [].
Proof.
  apply (first_chunk_limit None (replicate (Z.to_nat bufSize) x41) [] []);
    [apply no_recycled| |unfold len; rewrite length_replicate; done].
  constructor; [|constructor]. unfold len. rewrite length_replicate. done.
Defined.

Lemma long_name_truncated_witness :
  exists out,
    ends (ClientHandshake None [] below key (FromFqdn (replicate 258 x61) 443)) [] (Ok (ClientStream false)) [] out /\
    ends (ServerHandshake below auth) (out ++ [])
      (Ok (ServerStream false, mkRequest (FromFqdn [x61; x61] 443) (UserBase + 7) NetTCP CmdTCP)) (replicate 256 x61 ++ []) [].
Proof.
  apply (long_name_truncated None below below key (replicate 258 x61) 443 auth (UserBase + 7) []);
    [apply no_recycled|done|done|done|done].
Defined.

End Examples.
