(* ===== verification/SocksWire.v ===== *)
(** * The SOCKS5 address form, shared by Trojan and SOCKS

    A type byte, the address, the port ([RFC 1928]). The packages write and read it with code
    of their own; this file has the grammar their readers accept and the bytes their writers
    produce. *)
From S2P Require Import Prelude GoStd Netip Socksaddr Proxy Link.
From Stdlib Require Import Init.Byte.

Definition atypIPv4 : byte := x01.
Definition atypDomain : byte := x03.
Definition atypIPv6 : byte := x04.

Definition ipDst (a : Addr) (port : Z) : Socksaddr := FromIPPort {| ap_addr := a; ap_port := port |}.

Inductive socks_wire : Socksaddr -> bytes -> Prop :=
| socks_ip4 a p : length a = 4%nat -> length p = 2%nat ->
    socks_wire (ipDst (AddrFrom4 a) (be_dec p)) ([atypIPv4] ++ a ++ p)
| socks_name l n p : length n = Z.to_nat (b2z l) -> length p = 2%nat ->
    socks_wire (FromFqdn n (be_dec p)) ([atypDomain; l] ++ n ++ p)
| socks_ip6 a p : length a = 16%nat -> length p = 2%nat ->
    socks_wire (ipDst (AddrFrom16 a) (be_dec p)) ([atypIPv6] ++ a ++ p).

Definition socks_bytes (d : Socksaddr) : bytes :=
  (if IsFqdn d then [atypDomain; z2b (len (Fqdn d))] ++ Fqdn d
   else if Is4 (sa_addr d) then [atypIPv4] ++ As4 (sa_addr d)
   else [atypIPv6] ++ As16 (sa_addr d)) ++ be_enc 2 (sa_port d).

Lemma socks_bytes_wire d : carriable d -> socks_wire (wire_dst d) (socks_bytes d).
Proof.
  intros (Hl & Hwf & Hp). unfold wire_dst, socks_bytes. pose proof (len_nonneg (Fqdn d)).
  assert (length (be_enc 2 (sa_port d)) = 2%nat) as H2 by apply length_be_enc.
  pose proof (fun H => socks_name (z2b (len (Fqdn d))) (Fqdn d) _ H H2) as Wn.
  pose proof (fun a => socks_ip4 (As4 a) _ (length_As4 a) H2) as W4.
  pose proof (fun a => socks_ip6 (As16 a) _ (length_As16 a) H2) as W6.
  setoid_rewrite (port_dec _ Hp) in Wn. setoid_rewrite (port_dec _ Hp) in W4. setoid_rewrite (port_dec _ Hp) in W6.
  destruct (IsFqdn d); [rewrite <-app_assoc; by apply Wn, len_byte|].
  destruct (sa_addr d) as [|v|v z] eqn:Ea; simpl Is4; cbv iota; rewrite <-app_assoc; [apply W6| |apply W6].
  pose proof (W4 (Addr4 v)) as W. by rewrite As4_dec in W.
Qed.

Lemma len_socks_bytes d : len (Fqdn d) <= 255 -> len (socks_bytes d) <= 259.
Proof.
  intros. unfold socks_bytes. rewrite len_app, len_be_enc. destruct (IsFqdn d); [|destruct (Is4 (sa_addr d))];
    rewrite len_app; unfold len in *; cbn [length]; rewrite ?length_As4, ?length_As16; lia.
Qed.

(** A grammar determines what it describes: no two words that begin one input, and no two
    readings of a word. *)
Lemma socks_wire_functional d1 d2 w1 w2 r1 r2 :
  socks_wire d1 w1 -> socks_wire d2 w2 -> w1 ++ r1 = w2 ++ r2 -> d1 = d2 /\ w1 = w2 /\ r1 = r2.
Proof.
  intros H1 H2 E. destruct H1 as [a p Ha Hp|l n p Hn Hp|a p Ha Hp]; destruct H2 as [a' p' Ha' Hp'|l' n' p' Hn' Hp'|a' p' Ha' Hp'];
    rewrite <-!app_assoc in E; try discriminate E.
  - injection E as E. apply app_inj_1 in E as [-> E]; [|congruence]. apply app_inj_1 in E as [-> ->]; [done|congruence].
  - injection E as -> E. apply app_inj_1 in E as [-> E]; [|congruence]. apply app_inj_1 in E as [-> ->]; [done|congruence].
  - injection E as E. apply app_inj_1 in E as [-> E]; [|congruence]. apply app_inj_1 in E as [-> ->]; [done|congruence].
Qed.

(** ** Reading it off a stream: the part all readers share *)

Section read.
Context {E : Type} `{StreamErrors E} (bad : E).

Definition read_port (a : Addr) : hs E Socksaddr := pb ← hread 2; mret (ipDst a (be_dec pb)).

Definition read_socks (atyp : byte) : hs E Socksaddr :=
  if bool_decide (atyp = atypIPv4) then a ← hread 4; read_port (AddrFrom4 a)
  else if bool_decide (atyp = atypIPv6) then a ← hread 16; read_port (AddrFrom16 a)
  else if bool_decide (atyp = atypDomain) then
    l ← hread 1;
    name ← hread (Z.to_nat (b2z (nth 0 l x00)));
    pb ← hread 2; mret (FromFqdn name (be_dec pb))
  else hfail bad.

(** It ends on exactly the inputs that complete a word of the grammar. *)
Lemma read_socks_parses atyp : hparses (read_socks atyp) (fun d w => socks_wire d (atyp :: w)).
Proof.
  intros i v r o. split.
  - unfold read_socks, read_port. intros Hr. repeat case_bool_decide; subst; [| | |done].
    + apply ends_bind_inv in Hr as (a & r1 & o1 & o2 & (-> & Ha & ->)%ends_read_inv & Hr & ->).
      apply ends_bind_inv in Hr as (p & r2 & o3 & o4 & (-> & Hp & ->)%ends_read_inv & [= <- <- <-] & ->).
      exists (a ++ p). split_and!; [by apply (socks_ip4 a p)|by rewrite <-app_assoc|done].
    + apply ends_bind_inv in Hr as (a & r1 & o1 & o2 & (-> & Ha & ->)%ends_read_inv & Hr & ->).
      apply ends_bind_inv in Hr as (p & r2 & o3 & o4 & (-> & Hp & ->)%ends_read_inv & [= <- <- <-] & ->).
      exists (a ++ p). split_and!; [by apply (socks_ip6 a p)|by rewrite <-app_assoc|done].
    + apply ends_bind_inv in Hr as (l & r1 & o1 & o2 & (-> & Hl & ->)%ends_read_inv & Hr & ->).
      destruct l as [|l [|? ?]]; simplify_eq/=.
      apply ends_bind_inv in Hr as (n & r2 & o3 & o4 & (-> & Hn & ->)%ends_read_inv & Hr & ->).
      apply ends_bind_inv in Hr as (p & r3 & o5 & o6 & (-> & Hp & ->)%ends_read_inv & [= <- <- <-] & ->).
      exists (l :: n ++ p). split_and!; [by apply (socks_name l n p)|simpl; by rewrite <-app_assoc|done].
  - intros (w & Hw & -> & ->). inversion Hw as [a p Ha Hp|l n p Hn Hp|a p Ha Hp]; subst; rewrite <-?app_assoc;
      unfold read_socks; simpl; rewrite <-?app_assoc.
    + by apply ends_read_bind, ends_read_bind, ends_ret.
    + change (l :: n ++ p ++ r) with ([l] ++ n ++ p ++ r). by apply ends_read_bind, ends_read_bind, ends_read_bind, ends_ret.
    + by apply ends_read_bind, ends_read_bind, ends_ret.
Qed.
End read.
