(* ===== verification/Trojan.v ===== *)
(** * Package [proto/trojan]: the Trojan protocol ([trojan.go], [udp.go]), and its theorems *)
From S2P Require Import Prelude GoStd Netip Socksaddr Proxy Buf Link Packet SocksWire.
From Stdlib Require Import Init.Byte.

(** ** Package [crypto/sha256], the 224-bit hash ([sha256.Sum224])

    FIPS 180-4 on 32-bit words; Trojan derives its authentication key from it. *)
Module Sha224.

(** The constants: the round keys are the first 32 bits of the fractional parts of the cube
    roots of the first 64 primes, the initial state the second 32 bits of those of the square
    roots of the ninth to the sixteenth. *)
Definition isPrime (n : nat) : bool := forallb (fun d => negb (n mod d =? 0)%nat) (seq 2 (n - 2)).
Definition primes : list Z := Eval vm_compute in map Z.of_nat (List.filter isPrime (seq 2 310)).

(** The integer cube root, bit by bit. *)
Fixpoint cbrt_bits (k : nat) (n r : Z) : Z :=
  match k with
  | O => r
  | S k' => let t := r + 2 ^ Z.of_nat k' in cbrt_bits k' n (if t * t * t <=? n then t else r)
  end.

Definition sha_K : list Z := Eval vm_compute in map (fun p => w32 (cbrt_bits 40 (p * 2 ^ 96) 0)) primes.
Definition sha224_init : list Z := Eval vm_compute in
  map (fun p => w32 (Z.sqrt (p * 2 ^ 128))) (take 8 (drop 8 primes)).

Definition rotr (x n : Z) : Z := Z.lor (Z.shiftr x n) (w32 (Z.shiftl x (32 - n))).
Definition xor3 (a b c : Z) : Z := Z.lxor a (Z.lxor b c).
Definition bigSigma0 (x : Z) : Z := xor3 (rotr x 2) (rotr x 13) (rotr x 22).
Definition bigSigma1 (x : Z) : Z := xor3 (rotr x 6) (rotr x 11) (rotr x 25).
Definition smallSigma0 (x : Z) : Z := xor3 (rotr x 7) (rotr x 18) (Z.shiftr x 3).
Definition smallSigma1 (x : Z) : Z := xor3 (rotr x 17) (rotr x 19) (Z.shiftr x 10).
Definition Ch (x y z : Z) : Z := Z.lxor (Z.land x y) (Z.land (0xffffffff - x) z).
Definition Maj (x y z : Z) : Z := xor3 (Z.land x y) (Z.land x z) (Z.land y z).

(** The message schedule, newest word first. *)
Fixpoint schedule (n : nat) (w : list Z) : list Z :=
  match n with
  | O => w
  | S n' =>
      let at_ i := nth i w 0 in
      schedule n' (w32 (smallSigma1 (at_ 1%nat) + at_ 6%nat + smallSigma0 (at_ 14%nat) + at_ 15%nat) :: w)
  end.

Definition round (s : list Z) (kw : Z * Z) : list Z :=
  match s with
  | [a; b; c; d; e; f; g; h] =>
      let t1 := h + bigSigma1 e + Ch e f g + fst kw + snd kw in
      let t2 := bigSigma0 a + Maj a b c in
      [w32 (t1 + t2); a; b; c; w32 (d + t1); e; f; g]
  | _ => s
  end.

Fixpoint block_words (n : nat) (b : bytes) : list Z :=
  match n with O => [] | S n' => be_dec (take 4 b) :: block_words n' (drop 4 b) end.

Definition compress (s : list Z) (block : bytes) : list Z :=
  let w := rev (schedule 48 (rev (block_words 16 block))) in
  map (fun '(x, y) => w32 (x + y)) (combine s (fold_left round (combine sha_K w) s)).

Fixpoint blocks (n : nat) (s : list Z) (m : bytes) : list Z :=
  match n with O => s | S n' => blocks n' (compress s (take 64 m)) (drop 64 m) end.

Definition sha_pad (m : bytes) : bytes :=
  m ++ [x80] ++ replicate (Z.to_nat ((55 - len m) mod 64)) x00 ++ be_enc 8 (8 * len m).

Definition Sum224 (m : bytes) : bytes :=
  let p := sha_pad m in
  flat_map (be_enc 4) (take 7 (blocks (length p / 64) sha224_init p)).

(** [hex.Encode]. *)
Definition hex_char (n : Z) : byte := if n <? 10 then z2b (48 + n) else z2b (87 + n).
Definition hexEncode (b : bytes) : bytes := flat_map (fun c => [hex_char (b2z c / 16); hex_char (b2z c mod 16)]) b.

(** The test vectors of the standard. *)
Example sum224_abc : hexEncode (Sum224 (bs "abc")) = bs "23097d223405d8228642a477bda255b32aadbce4bda0b3f7e36c9da7".
Proof. vm_compute. reflexivity. Qed.
Example sum224_empty : hexEncode (Sum224 []) = bs "d14a028c2a3a2bc9476102bb288234c415a2b01f828ea62ac5b3e42f".
Proof. vm_compute. reflexivity. Qed.
Example sum224_two_blocks :
  hexEncode (Sum224 (bs "abcdbcdecdefdefgefghfghighijhijkijkljklmklmnlmnomnopnopq")) =
  bs "75388b16512776cc5dba5da1fd890150b0c6455cb4f58b1952522525".
Proof. vm_compute. reflexivity. Qed.

(** ** Lengths *)

Lemma length_round s kw : length (round s kw) = length s.
Proof. unfold round. by destruct s as [|? [|? [|? [|? [|? [|? [|? [|? [|? ?]]]]]]]]]. Qed.

Lemma length_rounds l s : length (fold_left round l s) = length s.
Proof. revert s. induction l as [|kw l IH]; intros s; simpl; [done|]. by rewrite IH, length_round. Qed.

Lemma length_compress s b : length (compress s b) = length s.
Proof. unfold compress. rewrite length_map, length_combine, length_rounds. lia. Qed.

Lemma length_blocks n s m : length (blocks n s m) = length s.
Proof. revert s m. induction n as [|n IH]; intros s m; cbn [blocks]; [done|]. by rewrite IH, length_compress. Qed.

Lemma length_flat_map_const {A B} (f : A -> list B) k l :
  (forall x, length (f x) = k) -> length (flat_map f l) = (k * length l)%nat.
Proof. intros Hf. induction l as [|x l IH]; simpl; [lia|]. rewrite length_app, Hf, IH. lia. Qed.

Lemma length_Sum224 m : length (Sum224 m) = 28%nat.
Proof.
  unfold Sum224. rewrite (length_flat_map_const _ 4) by (intros; apply length_be_enc).
  rewrite length_take, length_blocks. done.
Qed.

Lemma length_hexEncode b : length (hexEncode b) = (2 * length b)%nat.
Proof. unfold hexEncode. by apply length_flat_map_const. Qed.
End Sha224.
Import Sha224.

(** ** Data *)

Definition hashLen : nat := 56.
Definition CmdConnect : byte := x01.
Definition CmdUDP : byte := x03.
Definition CRLF : bytes := [x0d; x0a].

Inductive trojanErr :=
| ErrBadHeader
| ErrAtyp
| ErrAuth
| ErrIO (e : io_err)
| ErrSend
| errNoCRLF
| errUDPTooLarge
| ErrBuf (e : bufErr).

#[export] Instance trojan_stream_errors : StreamErrors trojanErr := {| read_error := ErrIO; write_error := ErrSend |}.

(** ** Credentials *)

Definition Key (password : bytes) : bytes := hexEncode (Sum224 password).
Definition ClientKey (secret : bytes) : bytes := secret.
Definition AuthKey (secret : bytes) : bytes := Key secret.

(** ** The request *)

Definition expectCRLF : hs trojanErr unit :=
  c ← hread 2;
  if bool_decide (c = CRLF) then mret tt else hfail ErrBadHeader.

Definition readRequest : hs trojanErr (byte * Socksaddr) :=
  head ← hread 2;
  host ← read_socks ErrAtyp (nth 1 head x00);
  mret (nth 0 head x00, host).

Definition writeRequest (w : bytes) (cmd : byte) (d : Socksaddr) : bytes :=
  let w := w ++ [cmd] in
  let w := if IsFqdn d then w ++ [atypDomain] ++ [z2b (len (Fqdn d))] ++ Fqdn d
           else if Is4 (sa_addr d) then w ++ [atypIPv4] ++ As4 (sa_addr d)
           else w ++ [atypIPv6] ++ As16 (sa_addr d) in
  w ++ be_enc 2 (sa_port d).

(** ** The handshakes: the stream below carries the payload as it is *)

Definition ServerHandshake (auth : Authenticator) : hs trojanErr Request :=
  h ← hread hashLen;
  expectCRLF;;
  '(cmd, dst) ← readRequest;
  expectCRLF;;
  match auth (bs "trojan") h with
  | None => hfail ErrAuth
  | Some ref => mret (mkRequest dst ref (if bool_decide (cmd = CmdUDP) then NetUDP else NetTCP) cmd)
  end.

(** The header both client handshakes write. *)
Definition requestHeader (cmd : byte) (key : bytes) (dst : Socksaddr) : bytes :=
  writeRequest (Key key ++ CRLF) cmd dst ++ CRLF.

Definition ClientHandshake (key : bytes) (dst : Socksaddr) : hs trojanErr unit :=
  hwrite (requestHeader CmdConnect key dst).

Definition DialPacketConn (key : bytes) (dst : Socksaddr) : hs trojanErr unit :=
  hwrite (requestHeader CmdUDP key dst).

(** ** Datagrams ([udp.go]) *)

Definition writeSocksAddr (w : bytes) (d : Socksaddr) : bytes :=
  let w := if IsFqdn d then w ++ [atypDomain] ++ [z2b (len (Fqdn d))] ++ Fqdn d
           else if Is4 (sa_addr d) then w ++ [atypIPv4] ++ As4 (sa_addr d)
           else w ++ [atypIPv6] ++ As16 (sa_addr d) in
  w ++ be_enc 2 (sa_port d).

Definition readSocksAddr : hs trojanErr Socksaddr :=
  at_ ← hread 1;
  read_socks ErrAtyp (nth 0 at_ x00).

Definition ReadPacket (b : Buffer) : hs trojanErr (Socksaddr * Buffer) :=
  dst ← readSocksAddr;
  lc ← hread 4;
  if negb (bool_decide (drop 2 lc = CRLF)) then hfail errNoCRLF
  else
    let n := be_dec (take 2 lc) in
    if Tailroom b <? n then hfail errUDPTooLarge
    else
      match ExtendTail b n with
      | Err e => hfail (ErrBuf e)
      | Ok (b', off) => p ← hread (Z.to_nat n); mret (dst, put b' off p)
      end.

Definition WritePacket (b : Buffer) (dst : Socksaddr) : hs trojanErr unit :=
  let n := Len b in
  if 0xFFFF <? n then hfail errUDPTooLarge
  else
    let hb := writeSocksAddr [] dst ++ be_enc 2 n ++ CRLF in
    match ExtendHeader b (len hb) with
    | Err e => hfail (ErrBuf e)
    | Ok (b', off) =>
        match Bytes (put b' off hb) with Ok p => hwrite p | Err e => hfail (ErrBuf e) end
    end.

(** ** What the encoders write *)

Lemma writeSocksAddr_bytes w d : writeSocksAddr w d = w ++ socks_bytes d.
Proof.
  unfold writeSocksAddr, socks_bytes. destruct (IsFqdn d); [|destruct (Is4 (sa_addr d))];
    by rewrite <-?app_assoc.
Qed.

Lemma writeRequest_bytes w cmd d : writeRequest w cmd d = w ++ [cmd] ++ socks_bytes d.
Proof.
  change (writeRequest w cmd d) with (writeSocksAddr (w ++ [cmd]) d). by rewrite writeSocksAddr_bytes, <-app_assoc.
Qed.

Lemma length_Key p : length (Key p) = hashLen.
Proof. unfold Key. by rewrite length_hexEncode, length_Sum224. Qed.

Lemma socks_bytes_head d : exists t r, socks_bytes d = t :: r.
Proof. unfold socks_bytes. destruct (IsFqdn d); [|destruct (Is4 (sa_addr d))]; eexists _, _; reflexivity. Qed.

(** ** Handshakes *)

Lemma expectCRLF_ends r : ends expectCRLF (CRLF ++ r) (Ok tt) r [].
Proof. unfold expectCRLF. eapply ends_read_bind; [done|]. apply ends_ret. Qed.

Lemma readRequest_ends cmd d r :
  carriable d -> ends readRequest ([cmd] ++ socks_bytes d ++ r) (Ok (cmd, wire_dst d)) r [].
Proof.
  intros Hd. destruct (socks_bytes_head d) as (t & w & Hw). rewrite Hw.
  change ([cmd] ++ (t :: w) ++ r) with ([cmd; t] ++ w ++ r). unfold readRequest. eapply ends_read_bind; [done|].
  eapply (ends_bind _ _ _ _ _ []); [|apply ends_ret]. apply read_socks_parses. exists w.
  split_and!; [|done|done]. change (nth 1 [cmd; t] x00) with t. rewrite <-Hw. by apply socks_bytes_wire.
Qed.

Lemma trojan_ServerHandshake_ends auth cmd password dst rest :
  carriable dst ->
  ends (ServerHandshake auth) (requestHeader cmd password dst ++ rest)
    (match auth (bs "trojan") (Key password) with
     | None => Err ErrAuth
     | Some ref => Ok (mkRequest (wire_dst dst) ref (if bool_decide (cmd = CmdUDP) then NetUDP else NetTCP) cmd)
     end) rest [].
Proof.
  intros Hd. unfold ServerHandshake, requestHeader. rewrite writeRequest_bytes, <-!app_assoc.
  eapply ends_read_bind; [apply length_Key|].
  eapply (ends_bind _ _ _ _ _ []); [apply expectCRLF_ends|].
  eapply (ends_bind _ _ _ _ _ []); [by apply readRequest_ends|]. cbv beta iota.
  eapply (ends_bind _ _ _ _ _ []); [apply expectCRLF_ends|].
  destruct (auth (bs "trojan") (Key password)); [apply ends_ret|apply ends_fail].
Qed.

(** A connection through both handshakes: the client sends [u] and waits for [n] bytes, the
    server reads [m] bytes and answers [d]. *)
Definition client_session (key : bytes) (dst : Socksaddr) (u : bytes) (n : nat) : hs trojanErr bytes :=
  ClientHandshake key dst;; hwrite u;; hread n.
Definition server_session (auth : Authenticator) (m : nat) (d : bytes) : hs trojanErr (Request * bytes) :=
  req ← ServerHandshake auth; got ← hread m; hwrite d;; mret (req, got).

(** [C29] A Trojan connection between this client and this server works in every schedule:
    the server finds the user whose registered key is the hash of the client's password,
    sees the destination the client asked for, and the payloads of both directions arrive
    exactly, nothing of the header left over. *)
Theorem trojan_session (a : StaticAuth) password dst ref u d :
  carriable dst -> a !! (bs "trojan", AuthKey password) = Some ref -> (0 < length d)%nat ->
  always_reaches
    (mkDuet (client_session (ClientKey password) dst u (length d)) (server_session (StaticAuth_Auth a) (length u) d) [] [])
    (mkDuet (Ret (Ok d)) (Ret (Ok (mkRequest (wire_dst dst) ref NetTCP CmdConnect, u))) [] []).
Proof.
  intros Hc Ha Hd. apply duet_schedule_irrelevant; [|apply duet_done_nf].
  assert (feed (client_session (ClientKey password) dst u (length d)) [] =
    (hread (length d), [], requestHeader CmdConnect password dst ++ u)) as HC1.
  { unfold client_session, ClientHandshake. eapply feed_hbind; [apply ends_write|].
    rewrite <-(app_nil_r u) at 2. eapply feed_hbind; [apply ends_write|].
    unfold hread. cbn [feed]. by destruct (length d); [lia|]. }
  assert (ends (server_session (StaticAuth_Auth a) (length u) d) (requestHeader CmdConnect password dst ++ u)
    (Ok (mkRequest (wire_dst dst) ref NetTCP CmdConnect, u)) [] d) as HS.
  { unfold server_session. eapply (ends_bind _ _ _ _ _ [] _ _ d).
    { pose proof (trojan_ServerHandshake_ends (StaticAuth_Auth a) CmdConnect password dst u Hc) as H.
      assert (StaticAuth_Auth a (bs "trojan") (Key password) = Some ref) as E by exact Ha. rewrite E in H. exact H. }
    rewrite <-(app_nil_r u) at 2. eapply ends_read_bind; [done|].
    pose proof (ends_write_bind (E:=trojanErr) d (fun _ => mret (mkRequest (wire_dst dst) ref NetTCP CmdConnect, u)) [] _ _ _ (ends_ret _ _)) as HW.
    by rewrite app_nil_r in HW. }
  etransitivity; [eapply (feed_client _ _ [] []), HC1|]. rewrite app_nil_l.
  etransitivity; [eapply (feed_server _ _ _ []), HS|]. rewrite app_nil_l.
  pose proof (ends_read (E:=trojanErr) (length d) d [] eq_refl) as HR. rewrite app_nil_r in HR.
  by apply (feed_client _ _ [] _ _ _ _ HR).
Qed.

(** ** Datagrams: each carries its own destination *)

Definition trojan_packets : PacketConn trojanErr := {|
  Packet.ReadPacket := ReadPacket;
  Packet.WritePacket := WritePacket;
  frame d p := socks_bytes d ++ be_enc 2 (len p) ++ CRLF ++ p;
  frameable := carriable;
  seen := wire_dst;
|}.

Lemma readSocksAddr_ends d r : carriable d -> ends readSocksAddr (socks_bytes d ++ r) (Ok (wire_dst d)) r [].
Proof.
  intros Hd. destruct (socks_bytes_head d) as (t & w & Hw). rewrite Hw.
  change ((t :: w) ++ r) with ([t] ++ w ++ r). unfold readSocksAddr. eapply ends_read_bind; [done|].
  apply read_socks_parses. exists w. split_and!; [|done|done]. change (nth 0 [t] x00) with t. rewrite <-Hw. by apply socks_bytes_wire.
Qed.

Lemma trojan_packet_laws : @PacketConnLaws trojanErr trojan_packets.
Proof.
  split; cbn [Packet.ReadPacket Packet.WritePacket frame frameable seen trojan_packets].
  - intros b d p rest Hb Hp Hd Hl. destruct (ready_fill b p Hb Hp Hl) as (b' & off & He & Hr & Hpay).
    exists (put b' off p). split; [|done]. destruct (ready_empty b Hb Hp) as [HT _]. rewrite <-!app_assoc.
    assert (in_u16 (len p)) as Hu.
    { pose proof (len_nonneg p). unfold in_u16. change maxDatagram with 32256 in Hl. lia. }
    unfold ReadPacket. eapply (ends_bind _ _ _ _ _ []); [by apply readSocksAddr_ends|].
    rewrite (app_assoc (be_enc 2 (len p))). eapply ends_read_bind; [rewrite length_app, length_be_enc; done|].
    rewrite (drop_app_length' (be_enc 2 (len p))), (take_app_length' (be_enc 2 (len p))), port_dec by (done || by rewrite length_be_enc).
    rewrite bool_decide_true by done. cbn [negb]. rewrite HT, (proj2 (Z.ltb_ge _ _)), He by lia.
    eapply ends_read_bind; [unfold len; lia|]. apply ends_ret.
  - intros b d i Hb (Hn & Hd). destruct (ready_len b Hb) as [HL Hm]. unfold WritePacket.
    rewrite HL, (proj2 (Z.ltb_ge _ _)) by (change maxDatagram with 32256 in Hm; lia).
    rewrite writeSocksAddr_bytes, app_nil_l. set (hb := socks_bytes d ++ be_enc 2 (len (payload b)) ++ CRLF).
    destruct (ready_header b hb Hb) as (b' & off & He & Hby).
    { unfold hb. rewrite !len_app, len_be_enc. change (len CRLF) with 2.
      pose proof (len_socks_bytes d Hn). unfold DefaultHeadroom. lia. }
    rewrite He, Hby. unfold hb. rewrite <-!app_assoc. apply ends_write.
  - intros b out. by eexists.
Qed.

(** ** Witnesses *)

Module Examples.

Definition table : StaticAuth := StaticAuth_Add NewStaticAuth (bs "trojan") (AuthKey (bs "secret")) (UserBase + 1).
Definition dst : Socksaddr := FromFqdn (bs "example.com") 443.

Lemma table_lookup : table !! (bs "trojan", AuthKey (bs "secret")) = Some (UserBase + 1).
Proof. apply (lookup_insert_eq (M:=gmap (bytes * bytes))). Qed.

Lemma trojan_session_witness :
  always_reaches
    (mkDuet (client_session (bs "secret") dst (bs "GET") 2) (server_session (StaticAuth_Auth table) 3 (bs "OK")) [] [])
    (mkDuet (Ret (Ok (bs "OK"))) (Ret (Ok (mkRequest (wire_dst dst) (UserBase + 1) NetTCP CmdConnect, bs "GET"))) [] []).
Proof.
  apply (trojan_session table (bs "secret") dst (UserBase + 1) (bs "GET") (bs "OK")); [done|apply table_lookup|simpl; lia].
Defined.

Lemma copyPacket_relays_witness :
  exists e, run (@copyPacket _ trojan_packets trojan_packets 2 (New None)) (mkStream (frames trojan_packets [(dst, bs "hi")]) [] []) =
    (Err e, mkStream [] ([] ++ frames trojan_packets (@forwarded _ trojan_packets [(dst, bs "hi")])) []).
Proof.
  apply (@copyPacket_relays _ trojan_packets trojan_packets trojan_packet_laws trojan_packet_laws [(dst, bs "hi")] 2 (New None) []).
  - simpl. lia.
  - destruct (wf_New None) as (H1 & H2 & H3); [done|]. by split_and!.
  - constructor; [|constructor]. by split_and!.
Defined.

End Examples.
