(* ===== verification/Socks.v ===== *)
(** * Package [proto/socks]: SOCKS4, 4a and 5 ([socks.go], [socks4.go], [client.go], [udp.go])

    The server's handshakes, the client's, and the datagram relay of UDP ASSOCIATE. The
    sockets the operating system hands out are parameters. *)
From S2P Require Import Prelude GoStd Netip Socksaddr MuxFrame Proxy Buf Link SocksWire.
From Stdlib Require Import Init.Byte.

(** ** Constants and errors *)

Definition version : byte := x05.
Definition version4 : byte := x04.
Definition CmdConnect : byte := x01.
Definition CmdUDPAssoc : byte := x03.
Definition methodNoAuth : byte := x00.
Definition methodUserPass : byte := x02.
Definition methodNone : byte := xff.
Definition authVersion : byte := x01.
Definition cmd4Connect : byte := x01.
Definition rep4Granted : byte := x5a.
Definition rep4Rejected : byte := x5b.
Definition maxSocks4Field : nat := 256.

Inductive socksErr :=
| ErrVersion
| ErrNoAuth
| ErrAuthVersion
| ErrAuthFailed
| ErrAtyp
| ErrCommand
| ErrSocks4Command
| ErrSocks4Field
| errRefused
| errMethod (m : byte)
| errUserPassLong
| errUserPass
| errReply (rep : byte)
| errListen
| errShortUDP
| errNoClient
| ErrIO (e : io_err)
| ErrSend
| ErrBuf (e : bufErr).

#[export] Instance socks_stream_errors : StreamErrors socksErr := {| read_error := ErrIO; write_error := ErrSend |}.

(** The stream a server handshake returns: the one below, the one below behind the reader
    that looked ahead on it, or the control connection of a UDP association. *)
Inductive socksStream := Bare | BufStream | UdpAssoc (port : Z).

(** The local address of the connection, when it is a TCP address, and what [ListenUDP]
    gives on it. *)
Record udpEnv := mkUdpEnv { local_ip : option bytes; listen_port : option Z }.

(** ** Server, SOCKS5 ([socks.go], [udp.go]) *)

Definition reply (rep : byte) : bytes := [version; rep; x00; atypIPv4; x00; x00; x00; x00; x00; x00].

Definition readAddr (atyp : byte) : hs socksErr Socksaddr := read_socks ErrAtyp atyp.

Definition serverUserPass (auth : Authenticator) : hs socksErr credID :=
  hdr ← hread 2;
  if negb (bool_decide (nth 0 hdr x00 = authVersion)) then hfail ErrAuthVersion
  else
    user ← hread (Z.to_nat (b2z (nth 1 hdr x00)));
    pl ← hread 1;
    pass ← hread (Z.to_nat (b2z (nth 0 pl x00)));
    match auth (bs "socks") (user ++ [x3a] ++ pass) with
    | None => hwrite_ [authVersion; x01];; hfail ErrAuthFailed
    | Some r => hwrite [authVersion; x00];; mret r
    end.

(** [net.IP] of a TCP address: nil, unspecified or an address. *)
Definition ip_unspecified (ip : bytes) : bool := forallb (fun b => bool_decide (b = x00)) ip || bool_decide (ip = v4InV6Prefix ++ [x00; x00; x00; x00]).
Definition IPv4zero : bytes := v4InV6Prefix ++ [x00; x00; x00; x00].

Definition replyAddr (rep : byte) (ip : bytes) (port : Z) : bytes :=
  [version; rep; x00] ++
  match To4 ip with
  | Some ip4 => [atypIPv4] ++ ip4
  | None => [atypIPv6] ++ default [] (To16 ip)
  end ++ be_enc 2 port.

Definition handleUDPAssoc (env : udpEnv) : hs socksErr (socksStream * Request) :=
  match listen_port env with
  | None => hwrite_ (reply x01);; hfail errListen
  | Some port =>
      let ip := match local_ip env with
                | None => IPv4zero
                | Some ip => if ip_unspecified ip then IPv4zero else ip
                end in
      hwrite (replyAddr x00 ip port);;
      mret (UdpAssoc port, mkRequest (FromFqdn [] 0) Ambient NetUDP CmdUDPAssoc)
  end.

(** The credential the method negotiation yields. *)
Definition negotiate (authRequired : bool) (auth : Authenticator) (methods : bytes) : hs socksErr credID :=
  if authRequired then
    if negb (slices_Contains methods methodUserPass) then hwrite_ [version; methodNone];; hfail ErrNoAuth
    else hwrite [version; methodUserPass];; serverUserPass auth
  else if slices_Contains methods methodNoAuth then hwrite [version; methodNoAuth];; mret Ambient
  else hwrite_ [version; methodNone];; hfail ErrNoAuth.

Definition serverHandshake5 (authRequired : bool) (env : udpEnv) (auth : Authenticator) : hs socksErr (socksStream * Request) :=
  nm ← hread 1;
  methods ← hread (Z.to_nat (b2z (nth 0 nm x00)));
  ref ← negotiate authRequired auth methods;
  h ← hread 4;
  if negb (bool_decide (nth 0 h x00 = version)) then hfail ErrVersion
  else
    let cmd := nth 1 h x00 in
    dst ← readAddr (nth 3 h x00);
    if bool_decide (cmd = CmdUDPAssoc) then handleUDPAssoc env
    else if negb (bool_decide (cmd = CmdConnect)) then hwrite_ (reply x07);; hfail ErrCommand
    else
      hwrite (reply x00);;
      mret (Bare, mkRequest dst ref NetTCP cmd).

(** ** Server, SOCKS4 ([socks4.go]) *)

(** The fields are read through a [bufio.Reader], which the returned stream keeps reading
    from: byte by byte, nothing is lost. *)
Fixpoint readCString_loop (n : nat) (out : bytes) : hs socksErr bytes :=
  match n with
  | O => hfail ErrSocks4Field
  | S n' =>
      b ← hread 1;
      let c := nth 0 b x00 in
      if bool_decide (c = x00) then mret out else readCString_loop n' (out ++ [c])
  end.
Definition readCString : hs socksErr bytes := readCString_loop maxSocks4Field [].

Definition isSocks4aMarker (ip : bytes) : bool :=
  bool_decide (take 3 ip = [x00; x00; x00]) && negb (bool_decide (nth 3 ip x00 = x00)).

Definition reply4 (rep : byte) (port : Z) (ip : Addr) : bytes := [x00; rep] ++ be_enc 2 port ++ As4 ip.

Definition socks4Dst (marker : bool) (port : Z) (ip : Addr) : hs socksErr Socksaddr :=
  if marker then
    host ← readCString;
    if bool_decide (host = []) then hwrite_ (reply4 rep4Rejected port ip);; hfail ErrSocks4Field
    else mret (FromFqdn host port)
  else mret (ipDst ip port).

Definition serverHandshake4 (auth : Authenticator) : hs socksErr (socksStream * Request) :=
  h ← hread 7;
  let cmd := nth 0 h x00 in
  let port := be_dec (take 2 (drop 1 h)) in
  let ip4 := drop 3 h in
  let ip := AddrFrom4 ip4 in
  readCString;;
  dst ← socks4Dst (isSocks4aMarker ip4) port ip;
  if negb (bool_decide (cmd = cmd4Connect)) then hwrite_ (reply4 rep4Rejected port ip);; hfail ErrSocks4Command
  else
    hwrite (reply4 rep4Granted port ip);;
    mret (BufStream, mkRequest dst (default Ambient (auth (bs "socks") [])) NetTCP cmd).

Definition ServerHandshake (authRequired : bool) (env : udpEnv) (auth : Authenticator) : hs socksErr (socksStream * Request) :=
  v ← hread 1;
  if bool_decide (nth 0 v x00 = version) then serverHandshake5 authRequired env auth
  else if bool_decide (nth 0 v x00 = version4) then serverHandshake4 auth
  else hfail ErrVersion.

(** ** Client ([client.go]) *)

(** The key up to its first colon, and the rest. *)
Definition splitKey (key : bytes) : bytes * bytes :=
  match IndexByte key x3a with Some i => (take i key, drop (S i) key) | None => (key, []) end.

Definition clientUserPass (key : bytes) : hs socksErr unit :=
  let '(user, pass) := splitKey key in
  if (255 <? len user) || (255 <? len pass) then hfail errUserPassLong
  else
    hwrite ([authVersion; z2b (len user)] ++ user ++ [z2b (len pass)] ++ pass);;
    st ← hread 2;
    if negb (bool_decide (nth 1 st x00 = x00)) then hfail errUserPass else mret tt.

Definition clientMethods (key : bytes) : bytes :=
  if bool_decide (key = []) then [methodNoAuth] else [methodNoAuth; methodUserPass].

Definition clientNegotiate (key : bytes) : hs socksErr unit :=
  let methods := clientMethods key in
  hwrite ([version; z2b (len methods)] ++ methods);;
  sel ← hread 2;
  if negb (bool_decide (nth 0 sel x00 = version)) then hfail ErrVersion
  else
    let m := nth 1 sel x00 in
    if bool_decide (m = methodNoAuth) then mret tt
    else if bool_decide (m = methodUserPass) then clientUserPass key
    else if bool_decide (m = methodNone) then hfail errRefused
    else hfail (errMethod m).

Definition readReply : hs socksErr Socksaddr :=
  h ← hread 4;
  if negb (bool_decide (nth 0 h x00 = version)) then hfail ErrVersion
  else if negb (bool_decide (nth 1 h x00 = x00)) then hfail (errReply (nth 1 h x00))
  else readAddr (nth 3 h x00).

Definition writeSocksAddr (dst : Socksaddr) : bytes :=
  (if IsFqdn dst then [atypDomain; z2b (len (Fqdn dst))] ++ Fqdn dst
   else if Is4 (sa_addr dst) then [atypIPv4] ++ As4 (sa_addr dst)
   else [atypIPv6] ++ As16 (sa_addr dst)) ++ be_enc 2 (sa_port dst).

Definition ClientHandshake (key : bytes) (dst : Socksaddr) : hs socksErr unit :=
  clientNegotiate key;;
  hwrite ([version; CmdConnect; x00] ++ writeSocksAddr dst);;
  readReply;;
  mret tt.

(** [DialPacketConn] up to the address of the relay. *)
Definition IsUnspecified (a : Addr) : bool := match a with AddrZero => false | Addr4 v => v =? 0 | Addr6 v z => (v =? 0) && bool_decide (z = []) end.

Definition DialPacketConn (remote : option AddrPort) (key : bytes) : hs socksErr Socksaddr :=
  clientNegotiate key;;
  hwrite [version; CmdUDPAssoc; x00; atypIPv4; x00; x00; x00; x00; x00; x00];;
  relay ← readReply;
  if (IsValid (sa_addr relay) && IsUnspecified (sa_addr relay)) || negb (IsValid (sa_addr relay)) then
    match remote with
    | Some ra => mret (ipDst (ap_addr ra) (sa_port relay))
    | None => mret relay
    end
  else mret relay.

(** ** Datagrams ([udp.go]) *)

Definition parseUDPAddr (p : bytes) : res socksErr (Socksaddr * nat) :=
  match p with
  | [] => Err errShortUDP
  | t :: _ =>
      if bool_decide (t = atypIPv4) then
        if (length p <? 1 + 4 + 2)%nat then Err errShortUDP
        else Ok (ipDst (AddrFrom4 (take 4 (drop 1 p))) (be_dec (take 2 (drop 5 p))), (1 + 4 + 2)%nat)
      else if bool_decide (t = atypIPv6) then
        if (length p <? 1 + 16 + 2)%nat then Err errShortUDP
        else Ok (ipDst (AddrFrom16 (take 16 (drop 1 p))) (be_dec (take 2 (drop 17 p))), (1 + 16 + 2)%nat)
      else if bool_decide (t = atypDomain) then
        if (length p <? 2)%nat then Err errShortUDP
        else
          let dl := Z.to_nat (b2z (nth 1 p x00)) in
          if (length p <? 2 + dl + 2)%nat then Err errShortUDP
          else Ok (FromFqdn (take dl (drop 2 p)) (be_dec (take 2 (drop (2 + dl) p))), (2 + dl + 2)%nat)
      else Err ErrAtyp
  end.

Definition encodeUDPHeader (dst : Socksaddr) : bytes :=
  [x00; x00; x00] ++
  (if IsFqdn dst then [atypDomain; z2b (len (Fqdn dst))] ++ Fqdn dst
   else if Is4 (sa_addr dst) then [atypIPv4] ++ As4 (sa_addr dst)
   else [atypIPv6] ++ As16 (sa_addr dst)) ++ be_enc 2 (sa_port dst).

(** Receiving a datagram into the buffer: what exceeds it is cut off. *)
Definition recv (b : Buffer) (p : bytes) : res bufErr Buffer :=
  let b := Reset b in
  '(b', off) ← ExtendTail b (Tailroom b);
  let p := take (Z.to_nat (Tailroom b)) p in
  Ok (Truncate (put b' off p) (len p)).

(** The payload and the destination of a received datagram, or nothing when it is dropped
    (too short, a fragment, a bad address). *)
Definition strip (b : Buffer) : option (Socksaddr * Buffer) :=
  match Bytes b with
  | Err _ => None
  | Ok p =>
      if (length p <? 4)%nat || negb (bool_decide (nth 2 p x00 = x00)) then None
      else match parseUDPAddr (drop 3 p) with
           | Err _ => None
           | Ok (dst, n) => Some (dst, Advance b (3 + Z.of_nat n))
           end
  end.

(** The source of a datagram: [net.UDPAddr], compared by [IP.Equal] and port. *)
Definition udpAddr : Type := bytes * Z.
Definition ip_Equal (a b : bytes) : bool :=
  match To4 a, To4 b with
  | Some x, Some y => bool_decide (x = y)
  | None, None => bool_decide (a = b)
  | _, _ => false
  end.
Definition same_udp (a b : udpAddr) : bool := ip_Equal (fst a) (fst b) && (snd a =? snd b).

(** [socksUDPConn.ReadPacket] over the datagrams the relay socket receives: the client's
    address is the first source; the datagrams of others are dropped. [None]: the socket
    has no more datagrams (an error for the caller). *)
Fixpoint udpReadPacket (client : option udpAddr) (b : Buffer) (q : list (udpAddr * bytes))
  : option udpAddr * option (Socksaddr * Buffer * list (udpAddr * bytes)) :=
  match q with
  | [] => (client, None)
  | (src, p) :: q' =>
      match recv b p with
      | Err _ => (client, None)
      | Ok b =>
          match client with
          | Some c =>
              if same_udp c src then
                match strip b with Some (dst, b') => (client, Some (dst, b', q')) | None => udpReadPacket client b q' end
              else udpReadPacket client b q'
          | None =>
              match strip b with
              | Some (dst, b') => (Some src, Some (dst, b', q'))
              | None => udpReadPacket (Some src) b q'
              end
          end
      end
  end.

(** [clientUDPConn.ReadPacket]: the socket is connected, so every datagram is the relay's. *)
Fixpoint clientReadPacket (b : Buffer) (q : list bytes) : option (Socksaddr * Buffer * list bytes) :=
  match q with
  | [] => None
  | p :: q' =>
      match recv b p with
      | Err _ => None
      | Ok b => match strip b with Some (src, b') => Some (src, b', q') | None => clientReadPacket b q' end
      end
  end.

(** [WritePacket] of both: the datagram sent. *)
Definition udpDatagram (b : Buffer) (dst : Socksaddr) : res bufErr bytes :=
  let hdr := encodeUDPHeader dst in
  '(b', off) ← ExtendHeader b (len hdr);
  Bytes (put b' off hdr).

Definition udpWritePacket (client : option udpAddr) (b : Buffer) (dst : Socksaddr) : res socksErr (udpAddr * bytes) :=
  match client with
  | None => Err errNoClient
  | Some c => match udpDatagram b dst with Ok p => Ok (c, p) | Err e => Err (ErrBuf e) end
  end.
