(* ===== verification/SocksSpec.v ===== *)
(** * SOCKS: client and server understand each other, authentication, datagrams *)
From S2P Require Import Prelude GoStd Netip Socksaddr MuxFrame Proxy Buf Link Packet SocksWire Socks.
From Stdlib Require Import Init.Byte.

(** ** A connection through both handshakes *)

Definition client_session (key : bytes) (dst : Socksaddr) (u : bytes) (n : nat) : hs socksErr bytes :=
  ClientHandshake key dst;; hwrite u;; hread n.

Definition server_session (authRequired : bool) (env : udpEnv) (auth : Authenticator) (m : nat) (d : bytes)
  : hs socksErr (socksStream * Request * bytes) :=
  '(st, req) ← ServerHandshake authRequired env auth;
  got ← hread m;
  hwrite d;;
  mret (st, req, got).

Definition greeting (key : bytes) : bytes := [version; z2b (len (clientMethods key))] ++ clientMethods key.
Definition connect (dst : Socksaddr) : bytes := [version; CmdConnect; x00] ++ socks_bytes dst.

(** The parts of the client, as they wait for the server. *)
Definition client_tail (dst : Socksaddr) (u : bytes) (n : nat) (m : hs socksErr unit) : hs socksErr bytes :=
  (m;; (hwrite ([version; CmdConnect; x00] ++ writeSocksAddr dst);; (readReply;; mret tt)));; (hwrite u;; hread n).

Lemma reply_ends r : ends readReply (reply x00 ++ r) (Ok (ipDst (AddrFrom4 [x00; x00; x00; x00]) 0)) r [].
Proof.
  unfold readReply, reply.
  change ([version; x00; x00; atypIPv4; x00; x00; x00; x00; x00; x00] ++ r)
    with ([version; x00; x00; atypIPv4] ++ ([x00; x00; x00; x00] ++ [x00; x00]) ++ r).
  eapply ends_read_bind; [done|]. change (nth 3 [version; x00; x00; atypIPv4] x00) with atypIPv4.
  apply read_socks_parses. exists ([x00; x00; x00; x00] ++ [x00; x00]). split_and!; [|done|done].
  by apply (socks_ip4 [x00; x00; x00; x00] [x00; x00]).
Qed.

(** Once negotiated, the client asks for its destination, waits for the reply, sends its
    payload and waits for the answer. *)
Lemma client_tail_plays dst u d m i0 :
  (0 < length d)%nat -> ends m i0 (Ok tt) [] [] ->
  plays (client_tail dst u (length d) m) [(i0, connect dst); (reply x00, u); (d, [])] (Ok d).
Proof.
  intros Hd Hm. eapply plays_turn.
  { unfold client_tail. eapply feed_wait3. rewrite <-(app_nil_l (connect dst)).
    eapply feed_hbind; [exact Hm|]. rewrite <-(app_nil_r (connect dst)).
    eapply feed_hbind; [apply ends_write|]. eapply feed_wait2. unfold readReply. apply feed_wait. simpl. lia. }
  eapply plays_turn.
  { rewrite <-(app_nil_l u). eapply (feed_hbind _ _ _ _ [] []).
    { eapply (ends_bind _ _ _ _ _ []); [|apply ends_ret].
      pose proof (reply_ends []) as H. rewrite app_nil_r in H. exact H. }
    rewrite <-(app_nil_r u) at 2. eapply feed_hbind; [apply ends_write|].
    unfold hread. cbn [feed]. destruct (Nat.leb_spec (length d) (length (@nil byte))) as [Hl|]; [simpl in Hl; lia|reflexivity]. }
  apply plays_last. pose proof (ends_read (E:=socksErr) (length d) d [] eq_refl) as H. by rewrite app_nil_r in H.
Qed.

Lemma feed_greeting key : feed (clientNegotiate key) [] = (hread 2 ≫= (fun sel =>
  if negb (bool_decide (nth 0 sel x00 = version)) then hfail ErrVersion
  else
    let m := nth 1 sel x00 in
    if bool_decide (m = methodNoAuth) then mret tt
    else if bool_decide (m = methodUserPass) then clientUserPass key
    else if bool_decide (m = methodNone) then hfail errRefused
    else hfail (errMethod m)), [], greeting key).
Proof.
  unfold clientNegotiate. rewrite <-(app_nil_r (greeting key)). eapply feed_hbind; [apply ends_write|]. apply feed_wait. simpl. lia.
Qed.

Lemma client_plays_noauth key dst u d :
  (0 < length d)%nat ->
  plays (client_session key dst u (length d))
    [([], greeting key); ([version; methodNoAuth], connect dst); (reply x00, u); (d, [])] (Ok d).
Proof.
  intros Hd. eapply plays_turn.
  { unfold client_session, ClientHandshake. eapply feed_wait3, feed_wait2, feed_greeting. }
  apply (client_tail_plays dst u d (hread 2 ≫= _) [version; methodNoAuth] Hd).
  change [version; methodNoAuth] with ([version; methodNoAuth] ++ []) at 1. eapply ends_read_bind; [done|]. apply ends_ret.
Qed.

Definition user_pass (user pass : bytes) : bytes := [authVersion; z2b (len user)] ++ user ++ [z2b (len pass)] ++ pass.

Lemma splitKey_app user pass : x3a ∉ user -> splitKey (user ++ [x3a] ++ pass) = (user, pass).
Proof.
  intros Hu. unfold splitKey.
  assert (IndexByte (user ++ [x3a] ++ pass) x3a = Some (length user)) as ->.
  { apply IndexByte_Some. by exists user, pass. }
  rewrite take_app_length. change ([x3a] ++ pass) with (x3a :: pass). rewrite cons_middle, app_assoc.
  rewrite (drop_app_length' (user ++ [x3a])); [done|]. rewrite length_app. simpl. lia.
Qed.

Lemma client_plays_auth user pass dst u d :
  (0 < length d)%nat -> x3a ∉ user -> len user <= 255 -> len pass <= 255 ->
  plays (client_session (user ++ [x3a] ++ pass) dst u (length d))
    [([], greeting (user ++ [x3a] ++ pass)); ([version; methodUserPass], user_pass user pass);
     ([authVersion; x00], connect dst); (reply x00, u); (d, [])] (Ok d).
Proof.
  intros Hd Hu Hl1 Hl2. eapply plays_turn.
  { unfold client_session, ClientHandshake. eapply feed_wait3, feed_wait2, feed_greeting. }
  eapply plays_turn.
  { eapply feed_wait3, feed_wait2. rewrite <-(app_nil_l (user_pass user pass)).
    change [version; methodUserPass] with ([version; methodUserPass] ++ []) at 1.
    eapply feed_hbind; [by apply ends_read|].
    change (nth 0 _ x00) with version. change (nth 1 _ x00) with methodUserPass. cbv zeta.
    rewrite bool_decide_true, (bool_decide_false (_ = methodNoAuth)), bool_decide_true by done. cbn [negb].
    unfold clientUserPass. rewrite splitKey_app by done. cbv iota.
    rewrite !(proj2 (Z.ltb_ge _ _)) by lia. cbn [orb].
    rewrite <-(app_nil_r (user_pass user pass)). eapply feed_hbind; [apply ends_write|]. apply feed_wait. simpl. lia. }
  apply (client_tail_plays dst u d (hread 2 ≫= _) [authVersion; x00] Hd).
  change [authVersion; x00] with ([authVersion; x00] ++ []) at 1. eapply ends_read_bind; [done|]. apply ends_ret.
Qed.

(** ** The server's part *)

Section server.
Context (env : udpEnv) (auth : Authenticator).

Lemma methods_ends key {B} (f : bytes -> hs socksErr B) q r o :
  feed (f (clientMethods key)) [] = (q, r, o) ->
  feed (nm ← hread 1; methods ← hread (Z.to_nat (b2z (nth 0 nm x00))); f methods)
    ([z2b (len (clientMethods key))] ++ clientMethods key) = (q, r, o).
Proof.
  intros Hf. rewrite <-(app_nil_l o). eapply feed_hbind; [by apply ends_read|].
  rewrite <-(app_nil_l o). rewrite <-(app_nil_r (clientMethods key)) at 2.
  eapply feed_hbind; [|exact Hf]. apply ends_read.
  unfold clientMethods. case_bool_decide; done.
Qed.

(** The request of a client and the answer to it. *)
Lemma request_ends ref dst r :
  carriable dst ->
  ends (h ← hread 4;
        if negb (bool_decide (nth 0 h x00 = version)) then hfail ErrVersion
        else
          let cmd := nth 1 h x00 in
          dst ← readAddr (nth 3 h x00);
          if bool_decide (cmd = CmdUDPAssoc) then handleUDPAssoc env
          else if negb (bool_decide (cmd = CmdConnect)) then hwrite_ (reply x07);; hfail ErrCommand
          else hwrite (reply x00);; mret (Bare, mkRequest dst ref NetTCP cmd))
    (connect dst ++ r) (Ok (Bare, mkRequest (wire_dst dst) ref NetTCP CmdConnect)) r (reply x00).
Proof.
  intros Hd. pose proof (socks_bytes_wire dst Hd) as Hw.
  assert (exists t w, socks_bytes dst = t :: w) as (t & w & Ht) by (inversion Hw; eexists _, _; reflexivity).
  unfold connect. rewrite Ht in *. change (([version; CmdConnect; x00] ++ t :: w) ++ r) with ([version; CmdConnect; x00; t] ++ w ++ r).
  eapply ends_read_bind; [done|]. cbn [nth]. rewrite bool_decide_true by done. cbn [negb]. cbv zeta.
  eapply (ends_bind _ _ _ _ _ []).
  { apply read_socks_parses. by exists w. }
  rewrite bool_decide_false, bool_decide_true by done. cbn [negb].
  apply ends_write_ret.
Qed.

(** From the request on. *)
Lemma server_tail_plays ref dst u d m i0 o0 :
  (0 < length u)%nat -> carriable dst ->
  ends m i0 (Ok (Bare, mkRequest (wire_dst dst) ref NetTCP CmdConnect)) [] o0 ->
  plays (m ≫= (fun '(st, req) => got ← hread (length u); hwrite d;; mret (st, req, got)))
    [(i0, o0); (u, d)] (Ok (Bare, mkRequest (wire_dst dst) ref NetTCP CmdConnect, u)).
Proof.
  intros Hu Hd Hm. eapply plays_turn.
  { rewrite <-(app_nil_r o0). eapply feed_hbind; [exact Hm|]. apply feed_wait. simpl. lia. }
  apply plays_last. rewrite <-(app_nil_r u) at 2.
  eapply (ends_read_bind (E:=socksErr)); [done|]. apply ends_write_ret.
Qed.

Lemma server_plays_noauth key dst u d :
  (0 < length u)%nat -> carriable dst ->
  plays (server_session false env auth (length u) d)
    [(greeting key, [version; methodNoAuth]); (connect dst, reply x00); (u, d)]
    (Ok (Bare, mkRequest (wire_dst dst) Ambient NetTCP CmdConnect, u)).
Proof.
  intros Hu Hd. eapply plays_turn.
  { unfold server_session. eapply feed_wait2. unfold greeting.
    change ([version; z2b (len (clientMethods key))] ++ clientMethods key)
      with ([version] ++ [z2b (len (clientMethods key))] ++ clientMethods key).
    rewrite <-(app_nil_l [version; methodNoAuth]). eapply feed_hbind; [by apply ends_read|].
    cbn [nth]. rewrite bool_decide_true by done. unfold serverHandshake5. eapply methods_ends.
    unfold negotiate. assert (slices_Contains (clientMethods key) methodNoAuth = true) as ->.
    { unfold clientMethods. by case_bool_decide. }
    rewrite <-(app_nil_r [version; methodNoAuth]). eapply feed_hbind.
    { apply ends_write_ret. }
    apply feed_wait. simpl. lia. }
  apply server_tail_plays; [done|done|]. rewrite <-(app_nil_r (connect dst)). by apply request_ends.
Qed.

Lemma serverUserPass_ends user pass ref :
  len user <= 255 -> len pass <= 255 -> auth (bs "socks") (user ++ [x3a] ++ pass) = Some ref ->
  ends (serverUserPass auth) (user_pass user pass) (Ok ref) [] [authVersion; x00].
Proof.
  intros Hu Hp Ha. unfold serverUserPass, user_pass. pose proof (len_nonneg user). pose proof (len_nonneg pass).
  eapply ends_read_bind; [done|]. cbn [nth]. rewrite bool_decide_true by done. cbn [negb].
  eapply ends_read_bind; [by apply len_byte|]. eapply ends_read_bind; [done|]. cbn [nth].
  rewrite <-(app_nil_r pass) at 2. eapply ends_read_bind; [by apply len_byte|].
  rewrite Ha. apply ends_write_ret.
Qed.

Lemma server_plays_auth user pass dst ref u d :
  (0 < length u)%nat -> carriable dst -> len user <= 255 -> len pass <= 255 ->
  auth (bs "socks") (user ++ [x3a] ++ pass) = Some ref ->
  plays (server_session true env auth (length u) d)
    [(greeting (user ++ [x3a] ++ pass), [version; methodUserPass]); (user_pass user pass, [authVersion; x00]);
     (connect dst, reply x00); (u, d)]
    (Ok (Bare, mkRequest (wire_dst dst) ref NetTCP CmdConnect, u)).
Proof.
  intros Hu Hd Hl1 Hl2 Ha. set (key := user ++ [x3a] ++ pass). eapply plays_turn.
  { unfold server_session. eapply feed_wait3. unfold greeting.
    change ([version; z2b (len (clientMethods key))] ++ clientMethods key)
      with ([version] ++ [z2b (len (clientMethods key))] ++ clientMethods key).
    rewrite <-(app_nil_l [version; methodUserPass]). eapply feed_hbind; [by apply ends_read|].
    cbn [nth]. rewrite bool_decide_true by done. unfold serverHandshake5. eapply methods_ends.
    eapply feed_wait2. unfold negotiate. assert (slices_Contains (clientMethods key) methodUserPass = true) as ->.
    { unfold clientMethods. rewrite bool_decide_false; [done|]. unfold key. by destruct user. }
    cbn [negb]. rewrite <-(app_nil_r [version; methodUserPass]). eapply feed_hbind; [apply ends_write|].
    unfold serverUserPass. apply feed_wait. simpl. lia. }
  eapply plays_turn.
  { eapply feed_wait2. rewrite <-(app_nil_r [authVersion; x00]). eapply feed_hbind.
    { exact (serverUserPass_ends user pass ref Hl1 Hl2 Ha). }
    apply feed_wait. simpl. lia. }
  apply server_tail_plays; [done|done|]. rewrite <-(app_nil_r (connect dst)). by apply request_ends.
Qed.
End server.

(** ** Sessions *)

(** What a server that knows [auth] makes of a client with this key. *)
Definition credential (authRequired : bool) (auth : Authenticator) (key : bytes) (ref : credID) : Prop :=
  if authRequired then
    exists user pass, key = user ++ [x3a] ++ pass /\ x3a ∉ user /\ len user <= 255 /\ len pass <= 255 /\
      auth (bs "socks") key = Some ref
  else ref = Ambient.

(** [C27] The SOCKS5 client and the SOCKS5 server of this program understand each other in
    every schedule, with and without authentication: the negotiation ends, the server
    attributes the connection to the user of the client's "user:pass" key (or to nobody in
    particular when it asks for no credentials) and sees the client's destination, and the
    payloads arrive exactly. *)
Theorem socks5_session authRequired env auth key dst ref u d :
  carriable dst -> (0 < length u)%nat -> (0 < length d)%nat -> credential authRequired auth key ref ->
  always_reaches
    (mkDuet (client_session key dst u (length d)) (server_session authRequired env auth (length u) d) [] [])
    (mkDuet (Ret (Ok d)) (Ret (Ok (Bare, mkRequest (wire_dst dst) ref NetTCP CmdConnect, u))) [] []).
Proof.
  intros Hc Hu Hd Hr. apply duet_schedule_irrelevant; [|apply duet_done_nf]. destruct authRequired.
  - destruct Hr as (user & pass & -> & Hn & Hl1 & Hl2 & Ha).
    eapply plays_duet; [by apply client_plays_auth|done|]. by apply server_plays_auth.
  - unfold credential in Hr. subst ref. eapply plays_duet; [by apply client_plays_noauth|done|]. by apply server_plays_noauth.
Qed.

(** ** Authentication *)

(** A SOCKS5 connection to a server with users is accepted only with the credentials of
    one of them: whatever the client sends, if the handshake succeeds, the client has sent a
    user name and a password that the credential table knows, and a TCP connection is
    attributed to that entry. *)
Theorem socks5_authenticates env auth s st req s' rest :
  s_in s = version :: rest ->
  run (ServerHandshake true env auth) s = (Ok (st, req), s') ->
  exists user pass ref pre post,
    rest = pre ++ user_pass user pass ++ post /\
    auth (bs "socks") (user ++ [x3a] ++ pass) = Some ref /\
    (r_Network req = NetTCP -> r_Cred req = ref).
Proof.
  intros Hin Hrun. unfold ServerHandshake in Hrun.
  apply run_bind_ok in Hrun as (v & s1 & (Hv & Hlv & _)%run_read_ok & Hrun).
  destruct v as [|v [|? ?]]; try discriminate Hlv. cbn [nth] in Hrun. rewrite Hin in Hv. injection Hv as <- ->.
  rewrite bool_decide_true in Hrun by done. unfold serverHandshake5 in Hrun.
  apply run_bind_ok in Hrun as (nm & s2 & (Hnm & _)%run_read_ok & Hrun).
  apply run_bind_ok in Hrun as (ms & s3 & (Hms & _)%run_read_ok & Hrun).
  apply run_bind_ok in Hrun as (ref & s4 & Hneg & Hrun). unfold negotiate in Hneg.
  destruct (negb (slices_Contains ms methodUserPass)).
  { apply run_bind_ok in Hneg as (? & ? & _ & [= ?]). }
  apply run_bind_ok in Hneg as ([] & s5 & Hw%run_write_in & Hneg). unfold serverUserPass in Hneg.
  apply run_bind_ok in Hneg as (hdr & s6 & (Hh & Hlh & _)%run_read_ok & Hneg).
  destruct hdr as [|av [|lu [|? ?]]]; try discriminate Hlh. cbn [nth] in Hneg.
  case_bool_decide as Hav; [|done]. subst av. cbn [negb] in Hneg.
  apply run_bind_ok in Hneg as (user & s7 & (Hus & Hlu & _)%run_read_ok & Hneg).
  apply run_bind_ok in Hneg as (pl & s8 & (Hpl & Hlpl & _)%run_read_ok & Hneg).
  destruct pl as [|pl [|? ?]]; try discriminate Hlpl. cbn [nth] in Hneg.
  apply run_bind_ok in Hneg as (pass & s9 & (Hpa & Hlpa & _)%run_read_ok & Hneg).
  destruct (auth (bs "socks") (user ++ [x3a] ++ pass)) as [r|] eqn:Ha;
    [|by apply run_bind_ok in Hneg as (? & ? & _ & [= ?])].
  apply run_bind_ok in Hneg as (? & s10 & Hw2%run_write_in & [= -> <-]).
  assert (lu = z2b (len user) /\ pl = z2b (len pass)) as [-> ->].
  { unfold len. rewrite Hlu, Hlpa. pose proof (b2z_range lu). pose proof (b2z_range pl).
    rewrite !Z2Nat.id by lia. by rewrite !z2b_b2z. }
  exists user, pass, ref, (nm ++ ms), (s_in s9). split_and!; [|done|].
  - rewrite Hnm, Hms, <-Hw, Hh, Hus, Hpl, Hpa. unfold user_pass. simpl. by rewrite <-!app_assoc.
  - intros Hnet. apply run_bind_ok in Hrun as (h & s11 & _ & Hrun).
    destruct (negb (bool_decide (nth 0 h x00 = version))); [done|]. cbv zeta in Hrun.
    apply run_bind_ok in Hrun as (dst & s12 & _ & Hrun).
    case_bool_decide; [|destruct (negb (bool_decide (nth 1 h x00 = CmdConnect)))].
    + unfold handleUDPAssoc in Hrun. destruct (listen_port env).
      * apply run_bind_ok in Hrun as (? & ? & _ & [= ? <- ?]). done.
      * apply run_bind_ok in Hrun as (? & ? & _ & [= ?]).
    + apply run_bind_ok in Hrun as (? & ? & _ & [= ?]).
    + apply run_bind_ok in Hrun as (? & ? & _ & [= ? <- ?]). done.
Qed.

(** A field of SOCKS4: up to its NUL. *)
Lemma readCString_loop_ends n out f r :
  x00 ∉ f -> (length f < n)%nat -> ends (readCString_loop n out) (f ++ [x00] ++ r) (Ok (out ++ f)) r [].
Proof.
  revert n out. induction f as [|c f IH]; intros n out Hf Hn; destruct n as [|n]; simpl in Hn; try lia.
  - cbn [readCString_loop app]. change (x00 :: r) with ([x00] ++ r). eapply ends_read_bind; [done|].
    rewrite bool_decide_true by done. rewrite app_nil_r. apply ends_ret.
  - apply not_elem_of_cons in Hf as [Hc Hf]. cbn [readCString_loop].
    change ((c :: f) ++ [x00] ++ r) with ([c] ++ f ++ [x00] ++ r). eapply ends_read_bind; [done|]. cbn [nth].
    rewrite bool_decide_false by congruence. replace (out ++ c :: f) with ((out ++ [c]) ++ f) by by rewrite <-app_assoc.
    apply IH; [done|lia].
Qed.

Lemma readCString_ends f r :
  x00 ∉ f -> len f <= 255 -> ends readCString (f ++ [x00] ++ r) (Ok f) r [].
Proof. intros. apply (readCString_loop_ends maxSocks4Field []); [done|]. unfold maxSocks4Field, len in *. lia. Qed.

Definition request4 (port : Z) (ip user : bytes) : bytes := [version4; cmd4Connect] ++ be_enc 2 port ++ ip ++ user ++ [x00].

(** [C28] A server that requires credentials still serves SOCKS4: whatever the table of users
    and whether or not the inbound demands authentication, a SOCKS4 CONNECT with any user id
    is granted, and unless an empty key is registered it is attributed to the ambient
    credential, as on an inbound without users. *)
Theorem socks4_skips_authentication authRequired env auth port ip user rest :
  in_u16 port -> length ip = 4%nat -> isSocks4aMarker ip = false -> x00 ∉ user -> len user <= 255 ->
  auth (bs "socks") [] = None ->
  ends (ServerHandshake authRequired env auth) (request4 port ip user ++ rest)
    (Ok (BufStream, mkRequest (ipDst (AddrFrom4 ip) port) Ambient NetTCP cmd4Connect)) rest
    (reply4 rep4Granted port (AddrFrom4 ip)).
Proof.
  intros Hp Hip Hm Hu Hl Ha. unfold ServerHandshake, request4.
  change (([version4; cmd4Connect] ++ ?x) ++ rest) with ([version4] ++ ([cmd4Connect] ++ x) ++ rest).
  eapply ends_read_bind; [done|]. cbn [nth]. rewrite bool_decide_false, bool_decide_true by done.
  unfold serverHandshake4. rewrite <-!app_assoc, (app_assoc [cmd4Connect]), (app_assoc (_ ++ be_enc 2 port)).
  eapply ends_read_bind; [rewrite !length_app, length_be_enc, Hip; done|].
  set (h := ([cmd4Connect] ++ be_enc 2 port) ++ ip).
  assert (take 2 (drop 1 h) = be_enc 2 port) as ->.
  { unfold h. rewrite <-app_assoc. change (drop 1 ([cmd4Connect] ++ ?x)) with x.
    by rewrite (take_app_length' (be_enc 2 port)) by (by rewrite length_be_enc). }
  assert (drop 3 h = ip) as ->.
  { unfold h. rewrite (drop_app_length' ([cmd4Connect] ++ be_enc 2 port)); [done|]. rewrite length_app, length_be_enc. done. }
  change (nth 0 h x00) with cmd4Connect. cbv zeta. rewrite port_dec, Hm by done.
  eapply (ends_bind _ _ _ _ _ []); [by apply readCString_ends|].
  eapply (ends_bind _ _ _ _ _ []); [apply ends_ret|].
  rewrite bool_decide_true, Ha by done. cbn [negb default]. apply ends_write_ret.
Qed.

(** ** Datagrams *)

Lemma encodeUDPHeader_bytes d : encodeUDPHeader d = [x00; x00; x00] ++ socks_bytes d.
Proof. done. Qed.

Lemma parseUDPAddr_wire d w p : socks_wire d w -> parseUDPAddr (w ++ p) = Ok (d, length w).
Proof.
  intros [a q Ha Hq|l n q Hn Hq|a q Ha Hq]; rewrite <-app_assoc; unfold parseUDPAddr.
  - cbn [app]. rewrite bool_decide_true by done. rewrite <-app_assoc. cbn [length]. rewrite !length_app, Ha, Hq.
    destruct (Nat.ltb_spec (S (4 + (2 + length p))) (1 + 4 + 2)); [lia|].
    change (drop 1 (atypIPv4 :: a ++ q ++ p)) with (a ++ q ++ p). change (drop 5 (atypIPv4 :: a ++ q ++ p)) with (drop 4 (a ++ q ++ p)).
    rewrite (take_app_length' a), (drop_app_length' a), (take_app_length' q) by done; done.
  - cbn [app]. rewrite bool_decide_false, bool_decide_false, bool_decide_true by done. rewrite <-app_assoc.
    cbn [length nth]. rewrite !length_app, Hq, Hn.
    destruct (Nat.ltb_spec (S (S (Z.to_nat (b2z l) + (2 + length p)))) 2); [lia|].
    destruct (Nat.ltb_spec (S (S (Z.to_nat (b2z l) + (2 + length p)))) (2 + Z.to_nat (b2z l) + 2)); [lia|].
    change (drop 2 (atypDomain :: l :: n ++ q ++ p)) with (n ++ q ++ p).
    change (drop (2 + Z.to_nat (b2z l)) (atypDomain :: l :: n ++ q ++ p)) with (drop (Z.to_nat (b2z l)) (n ++ q ++ p)).
    rewrite (take_app_length' n), (drop_app_length' n), (take_app_length' q) by done; do 2 f_equal; lia.
  - cbn [app]. rewrite bool_decide_false, bool_decide_true by done. rewrite <-app_assoc. cbn [length]. rewrite !length_app, Ha, Hq.
    destruct (Nat.ltb_spec (S (16 + (2 + length p))) (1 + 16 + 2)); [lia|].
    change (drop 1 (atypIPv6 :: a ++ q ++ p)) with (a ++ q ++ p). change (drop 17 (atypIPv6 :: a ++ q ++ p)) with (drop 16 (a ++ q ++ p)).
    rewrite (take_app_length' a), (drop_app_length' a), (take_app_length' q) by done; done.
Qed.

(** Receiving a datagram that fits. *)
Lemma recv_ok b p :
  ready b -> len p <= maxDatagram -> exists b', recv b p = Ok b' /\ ready b' /\ payload b' = p.
Proof.
  intros Hb Hp. destruct Hb as (Hwf & HC & Hs).
  destruct (wf_Reset b HC) as [Hw0 Hp0]. assert (ready (Reset b)) as Hr by done.
  destruct (ready_empty _ Hr Hp0) as [HT _].
  unfold recv. rewrite HT. rewrite (take_ge p) by (unfold len in Hp; lia).
  (* the slice handed out is the whole tail; the datagram fills its beginning *)
  set (b1 := set_span (Reset b) (b_start (Reset b)) (b_end (Reset b) + maxDatagram)).
  assert (ExtendTail (Reset b) maxDatagram = Ok (b1, b_end (Reset b))) as ->.
  { unfold ExtendTail. fold b1. assert (slice_ok b1 (b_end (Reset b)) (b_end b1) = true) as ->; [|done].
    unfold slice_ok, b1. rewrite Cap_set_span. change (Cap (Reset b)) with (Cap b). rewrite HC. done. }
  rewrite bind_ok. cbv beta iota zeta. eexists. split; [reflexivity|].
  pose proof (len_nonneg p). change maxDatagram with 32256 in Hp.
  assert (Cap (put b1 (b_end (Reset b)) p) = DefaultSize) as HC1.
  { rewrite Cap_put; [exact HC|done|]. change (Cap b1) with (Cap b). rewrite HC. change (b_end (Reset b)) with 512. change DefaultSize with 32768. lia. }
  split.
  - unfold ready, wf, Truncate. rewrite Cap_set_span, HC1. cbn [b_start b_end set_span put b1 Reset].
    unfold DefaultHeadroom. change DefaultSize with 32768. lia.
  - unfold payload, Truncate. cbn [b_start b_end set_span].
    change (b_data (set_span (put b1 (b_end (Reset b)) p) _ _)) with (b_data (put b1 (b_end (Reset b)) p)).
    change (b_start (put b1 (b_end (Reset b)) p)) with (b_end (Reset b)).
    apply span_put_same; [done|]. change (Cap b1) with (Cap b). rewrite HC. change (b_end (Reset b)) with 512. change DefaultSize with 32768. lia.
Qed.

(** Stripping the header of a datagram of this program. *)
Lemma strip_ok b d p :
  wf b -> carriable d -> payload b = encodeUDPHeader d ++ p ->
  exists b', strip b = Some (wire_dst d, b') /\ wf b' /\ payload b' = p.
Proof.
  intros Hwf Hd Hp. unfold strip. rewrite Bytes_ok, Hp, encodeUDPHeader_bytes by done.
  pose proof (socks_bytes_wire d Hd) as Hw. assert (1 <= length (socks_bytes d))%nat by (inversion Hw; simpl; lia).
  rewrite !length_app. destruct (Nat.ltb_spec (length [x00; x00; x00] + length (socks_bytes d) + length p) 4); [simpl in *; lia|].
  change (nth 2 (([x00; x00; x00] ++ socks_bytes d) ++ p) x00) with x00. rewrite bool_decide_true by done. cbn [orb negb].
  change (drop 3 (([x00; x00; x00] ++ socks_bytes d) ++ p)) with (socks_bytes d ++ p).
  rewrite (parseUDPAddr_wire _ _ _ Hw). eexists. split; [reflexivity|].
  pose proof (len_payload b Hwf) as HL. rewrite Hp, encodeUDPHeader_bytes, !len_app in HL. change (len [x00; x00; x00]) with 3 in HL.
  pose proof (len_nonneg p).
  destruct (Advance_payload b (3 + Z.of_nat (length (socks_bytes d))) Hwf) as [Hw' Hp']; [unfold len in *; lia|].
  split; [done|]. rewrite Hp', Hp, encodeUDPHeader_bytes.
  rewrite (drop_app_length' ([x00; x00; x00] ++ socks_bytes d)); [done|]. rewrite length_app. simpl. lia.
Qed.

(** A datagram written on one side of a UDP association is read on the other with its
    payload and its destination: the client's [WritePacket] sends a datagram that the
    server's [ReadPacket] accepts from it (the client it knows, or the first to send), and
    the server's [WritePacket] sends back to that client one that the client's [ReadPacket]
    accepts. *)
Theorem socks_udp_roundtrip b rb client src d q q' :
  ready b -> ready rb -> carriable d -> len (payload b) <= maxDatagram - 262 ->
  (client = None \/ exists c, client = Some c /\ same_udp c src = true) ->
  exists dgram c b1 b2,
    udpDatagram b d = Ok dgram /\
    udpReadPacket client rb ((src, dgram) :: q) = (Some c, Some (wire_dst d, b1, q)) /\
    payload b1 = payload b /\
    (client = None -> c = src) /\
    udpWritePacket (Some c) b d = Ok (c, dgram) /\
    clientReadPacket rb (dgram :: q') = Some (wire_dst d, b2, q') /\
    payload b2 = payload b.
Proof.
  intros Hb Hrb Hd Hl Hc. pose proof (len_socks_bytes d (proj1 Hd)) as Hh.
  destruct (ready_header b (encodeUDPHeader d) Hb) as (b' & off & He & Hby).
  { rewrite encodeUDPHeader_bytes, len_app. change (len [x00; x00; x00]) with 3. unfold DefaultHeadroom. lia. }
  assert (udpDatagram b d = Ok (encodeUDPHeader d ++ payload b)) as Hdg.
  { unfold udpDatagram. rewrite He. exact Hby. }
  destruct (recv_ok rb (encodeUDPHeader d ++ payload b) Hrb) as (b3 & Hr & (Hwf3 & _) & Hp3).
  { rewrite encodeUDPHeader_bytes, !len_app. change (len [x00; x00; x00]) with 3. lia. }
  destruct (strip_ok b3 d (payload b) Hwf3 Hd Hp3) as (b4 & Hs & _ & Hp4).
  exists (encodeUDPHeader d ++ payload b), (default src client), b4, b4. split_and!; [done| |done|by intros ->| | |done].
  - cbn [udpReadPacket]. rewrite Hr. destruct Hc as [-> | (c & -> & Hsame)]; [by rewrite Hs|]. rewrite Hsame. by rewrite Hs.
  - unfold udpWritePacket. by rewrite Hdg.
  - cbn [clientReadPacket]. by rewrite Hr, Hs.
Qed.

(** An association serves one client: once its client's address is known it does not
    change, and every datagram [ReadPacket] returns was sent from that address; the
    datagrams of others are dropped. Before, the first datagram's source becomes the
    client, whatever the datagram holds. *)
Theorem socks_udp_one_client client b q :
  match udpReadPacket client b q with
  | (Some c, Some (_, _, q')) =>
      match client with Some c0 => c = c0 | None => exists p, head q = Some (c, p) end /\
      exists dropped src p, q = dropped ++ (src, p) :: q' /\ (src = c \/ same_udp c src = true)
  | (_, Some _) => False
  | (c, None) => forall c0, client = Some c0 -> c = Some c0
  end.
Proof.
  revert client b. induction q as [|[src p] q IH]; intros client b; cbn [udpReadPacket]; [destruct client; naive_solver|].
  destruct (recv b p) as [b1|e]; [|destruct client; naive_solver].
  assert (forall c, match udpReadPacket (Some c) b1 q with
    | (Some c', Some (_, _, q')) =>
        c' = c /\ exists dropped src0 p0, (src, p) :: q = dropped ++ (src0, p0) :: q' /\ (src0 = c' \/ same_udp c' src0 = true)
    | (_, Some _) => False
    | (c', None) => c' = Some c
    end) as Hskip.
  { intros c. specialize (IH (Some c) b1). destruct (udpReadPacket (Some c) b1 q) as [[c'|] [[[? ?] q']|]]; [|by apply IH|done|by apply IH].
    destruct IH as [-> (dr & s1 & p1 & -> & ?)]. split; [done|]. by exists ((src, p) :: dr), s1, p1. }
  destruct client as [c0|].
  - assert (same_udp c0 src = true -> exists dropped src0 p0, (src, p) :: q = dropped ++ (src0, p0) :: q /\ (src0 = c0 \/ same_udp c0 src0 = true)).
    { intros. exists [], src, p. auto. }
    specialize (Hskip c0). destruct (same_udp c0 src); [destruct (strip b1) as [[dst1 b2]|]|]; [naive_solver|..];
      destruct (udpReadPacket (Some c0) b1 q) as [[c'|] [[[? ?] q']|]]; naive_solver.
  - destruct (strip b1) as [[dst1 b2]|].
    + split; [by exists p|]. exists [], src, p. auto.
    + specialize (Hskip src). destruct (udpReadPacket (Some src) b1 q) as [[c'|] [[[? ?] q']|]]; [|done|done|done].
      destruct Hskip as [-> ?]. split; [by exists p|done].
Qed.

(** ** Witnesses *)

Module Examples.

Definition env : udpEnv := mkUdpEnv None (Some 40000).
Definition key : bytes := bs "alice:secret".
Definition auth : Authenticator := fun s k => if bool_decide (s = bs "socks" /\ k = key) then Some (UserBase + 3) else None.
Definition dst : Socksaddr := FromFqdn (bs "example.com") 443.
Definition from : udpAddr := ([x7f; x00; x00; x01], 5353).

Lemma key_credential : credential true auth key (UserBase + 3).
Proof.
  exists (bs "alice"), (bs "secret"). split_and!; [done| |done|done|done].
  by apply (bool_decide_eq_true_1 (_ ∉ _)); vm_compute.
Qed.

Lemma socks5_session_witness :
  always_reaches
    (mkDuet (client_session key dst (bs "GET") 2) (server_session true env auth 3 (bs "OK")) [] [])
    (mkDuet (Ret (Ok (bs "OK"))) (Ret (Ok (Bare, mkRequest (wire_dst dst) (UserBase + 3) NetTCP CmdConnect, bs "GET"))) [] []).
Proof.
  apply (socks5_session true env auth key dst (UserBase + 3) (bs "GET") (bs "OK"));
    [done|simpl; lia|simpl; lia|apply key_credential].
Defined.

Definition client_says : bytes :=
  greeting key ++ user_pass (bs "alice") (bs "secret") ++ connect dst.

Lemma socks5_authenticates_witness :
  exists user pass ref pre post,
    drop 1 client_says = pre ++ user_pass user pass ++ post /\
    auth (bs "socks") (user ++ [x3a] ++ pass) = Some ref /\
    (r_Network (mkRequest (wire_dst dst) (UserBase + 3) NetTCP CmdConnect) = NetTCP ->
     r_Cred (mkRequest (wire_dst dst) (UserBase + 3) NetTCP CmdConnect) = ref).
Proof.
  eapply (socks5_authenticates env auth (mkStream client_says [] []) Bare
    (mkRequest (wire_dst dst) (UserBase + 3) NetTCP CmdConnect)); [reflexivity|vm_compute; reflexivity].
Defined.

Lemma socks4_skips_authentication_witness :
  ends (ServerHandshake true env auth) (request4 443 [x5d; xb8; xd8; x22] (bs "mallory") ++ [])
    (Ok (BufStream, mkRequest (ipDst (AddrFrom4 [x5d; xb8; xd8; x22]) 443) Ambient NetTCP cmd4Connect)) []
    (reply4 rep4Granted 443 (AddrFrom4 [x5d; xb8; xd8; x22])).
Proof.
  apply (socks4_skips_authentication true env auth 443 [x5d; xb8; xd8; x22] (bs "mallory") []);
    [done|done|done| |done|done].
  by apply (bool_decide_eq_true_1 (_ ∉ _)); vm_compute.
Defined.

Definition packet : Buffer := fst (Write (New None) (bs "hi")).

Lemma packet_ready : ready packet /\ payload packet = bs "hi".
Proof.
  destruct (wf_New None) as (Hwf & Hp & HC); [done|].
  destruct (Write_fits (New None) (bs "hi") Hwf) as (b & Hb & Hwfb & Hpb & HCb & Hs & _).
  { unfold Tailroom. fold (Cap (New None)). rewrite HC. done. }
  assert (packet = b) as -> by (unfold packet; by rewrite Hb).
  rewrite Hp in Hpb. split; [|done]. split_and!; [done|congruence|by rewrite Hs].
Qed.

Lemma fresh_ready : ready (New None).
Proof. destruct (wf_New None) as (Hwf & _ & HC); [done|]. split; [exact Hwf|split; [exact HC|exact eq_refl]]. Qed.
Lemma socks_dst_carriable : carriable dst.
Proof. done. Qed.
Lemma packet_small : len (payload packet) <= maxDatagram - 262.
Proof. rewrite (proj2 packet_ready). done. Qed.

Lemma socks_udp_roundtrip_witness :
  exists dgram c b1 b2,
    udpDatagram packet dst = Ok dgram /\
    udpReadPacket None (New None) ((from, dgram) :: []) = (Some c, Some (wire_dst dst, b1, [])) /\
    payload b1 = payload packet /\
    (None = None :> option udpAddr -> c = from) /\
    udpWritePacket (Some c) packet dst = Ok (c, dgram) /\
    clientReadPacket (New None) (dgram :: []) = Some (wire_dst dst, b2, []) /\
    payload b2 = payload packet.
Proof.
  apply (socks_udp_roundtrip packet (New None) None from dst [] []);
    [exact (proj1 packet_ready)|exact fresh_ready|exact socks_dst_carriable|exact packet_small|left; reflexivity].
Defined.

End Examples.
