(* ===== verification/Admit.v ===== *)
(** * Admission: the one entrance of every connection ([service/admit.go])

    [AdmitConn] passes a connection through the memory guard, the gates of its inbound and
    the registry of [Meter], in that order, and undoes what it took when one of them
    refuses. Gates are objects shared by several inbounds, so they live in a store; closers
    are numbered, and closing one appends to [s_closed]. [astep] interleaves the critical
    sections of any number of connections. *)
From stdpp Require Import relations.
From S2P Require Import Prelude GoStd Netip Proxy Meter MeterSpec.

(** ** State *)

Record Admitter := mkAdmitter {
  a_Meter : bool;                  (* accounting is on *)
  a_Gates : list (option nat);     (* the gates, global first; nil gates are [None] *)
  a_MemGuard : bool;
}.

Record astate := mkAState {
  s_reg : Registry;
  s_gates : gmap nat Gate;
  s_guard : MemGuard;
  s_kills : gmap Z (list nat);     (* what the kill function of a connection closes *)
  s_closed : list nat;
}.

Definition close_all (s : astate) (l : list nat) : astate :=
  mkAState (s_reg s) (s_gates s) (s_guard s) (s_kills s) (s_closed s ++ l).
Definition with_gates (s : astate) (gs : gmap nat Gate) : astate :=
  mkAState (s_reg s) gs (s_guard s) (s_kills s) (s_closed s).
Definition with_reg (s : astate) (r : Registry) : astate :=
  mkAState r (s_gates s) (s_guard s) (s_kills s) (s_closed s).
Definition with_guard (s : astate) (g : MemGuard) : astate :=
  mkAState (s_reg s) (s_gates s) g (s_kills s) (s_closed s).
Definition with_kill (s : astate) (k : Z) (l : list nat) : astate :=
  mkAState (s_reg s) (s_gates s) (s_guard s) (<[k := l]> (s_kills s)) (s_closed s).

(** Everything closed so far, by refusals and by the kill functions the registry called. *)
Definition all_closed (s : astate) : list nat :=
  s_closed s ++ concat (omap (fun k => s_kills s !! k) (r_killed (s_reg s))).

(** ** Gates *)

Definition gate_try (gs : gmap nat Gate) (g : option nat) : bool * gmap nat Gate :=
  match g with
  | None => (true, gs)
  | Some k =>
      match gs !! k with
      | None => (true, gs)
      | Some gt => match TryAcquire (Some gt) with
                   | (ok, Some gt') => (ok, <[k := gt']> gs)
                   | (ok, None) => (ok, gs)
                   end
      end
  end.

Definition gate_release (gs : gmap nat Gate) (g : option nat) : gmap nat Gate :=
  match g with
  | None => gs
  | Some k => match gs !! k with
              | None => gs
              | Some gt => match Release (Some gt) with Some gt' => <[k := gt']> gs | None => gs end
              end
  end.

Definition releaseGates (gs : gmap nat Gate) (l : list (option nat)) : gmap nat Gate := foldl gate_release gs l.

(** The acquiring loop; a refusal releases the gates taken so far. *)
Fixpoint acquireGates (gs : gmap nat Gate) (taken todo : list (option nat)) : bool * gmap nat Gate :=
  match todo with
  | [] => (true, gs)
  | g :: todo' =>
      match gate_try gs g with
      | (true, gs') => acquireGates gs' (taken ++ [g]) todo'
      | (false, gs') => (false, releaseGates gs' taken)
      end
  end.

(** The token bucket of a gate, for the meter. *)
Definition gate_rate (gs : gmap nat Gate) (g : option nat) : option nat :=
  g ≫= fun k => gs !! k ≫= gt_rate.

(** ** [AdmitConn] *)

Inductive admErr := errAdmissionRejected.

(** What an admitted connection holds: its meter, its registration and its gates; the
    function that releases it is [release_grant]. *)
Record grant := mkGrant {
  gr_meter : option Meter;
  gr_conn : option (Z * Addr * Z);
  gr_gates : list (option nat);
}.

Definition WithGates (m : Meter) (gates : list (option nat)) : Meter :=
  mkMeter (m_cell m) (m_conn m) gates (m_localUp m) (m_localDn m).
Definition GateMeter (gates : list (option nat)) : Meter := mkMeter None None gates 0 0.

Definition admit_guard (a : Admitter) (s : astate) : bool * astate :=
  match AdmitOK (if a_MemGuard a then Some (s_guard s) else None) with
  | (ok, Some g) => (ok, with_guard s g)
  | (ok, None) => (ok, s)
  end.

Definition AdmitConn (a : Admitter) (who : Z) (src : Addr) (closers : list nat) (now : Z) (s : astate)
  : res admErr grant * astate :=
  match admit_guard a s with
  | (false, s) => (Err errAdmissionRejected, close_all s closers)
  | (true, s) =>
      match acquireGates (s_gates s) [] (a_Gates a) with
      | (false, gs) => (Err errAdmissionRejected, close_all (with_gates s gs) closers)
      | (true, gs) =>
          let s := with_gates s gs in
          let buckets := gate_rate gs <$> a_Gates a in
          if a_Meter a then
            match Open (s_reg s) who src now with
            | (None, r) =>
                let s := with_reg s r in
                (Err errAdmissionRejected, close_all (with_gates s (releaseGates (s_gates s) (a_Gates a))) closers)
            | (Some connID, r) =>
                (Ok (mkGrant (Some (WithGates (mkMeter (Some who) (Some connID) [] 0 0) buckets))
                       (Some (who, src, connID)) (a_Gates a)),
                 with_kill (with_reg s r) connID closers)
            end
          else match a_Gates a with
               | [] => (Ok (mkGrant None None []), s)
               | _ :: _ => (Ok (mkGrant (Some (GateMeter buckets)) None (a_Gates a)), s)
               end
      end
  end.

(** The release function; [m] is the meter as the connection leaves it. *)
Definition release_grant (g : grant) (m : Meter) (s : astate) : astate :=
  match gr_conn g with
  | Some (who, src, connID) =>
      let s := with_reg s (close_conn (Flush (s_reg s) m).1 who src connID) in
      with_gates s (releaseGates (s_gates s) (gr_gates g))
  | None => with_gates s (releaseGates (s_gates s) (gr_gates g))
  end.

(** [Admit]: the stream comes back wrapped in the meter, when there is one. *)
Definition Admit {S} (wrap : S -> Meter -> S) (a : Admitter) (who : Z) (src : Addr) (st : S) (closers : list nat)
  (now : Z) (s : astate) : res admErr (S * grant) * astate :=
  match AdmitConn a who src closers now s with
  | (Err e, s) => (Err e, s)
  | (Ok g, s) => (Ok (match gr_meter g with Some m => wrap st m | None => st end, g), s)
  end.

(** ** Sessions *)

(** [sessionWho]; [readUser] is [None] when no reader is configured, otherwise what it
    reads from the context. *)
Definition sessionWho (refs : gmap bytes Z) (readUser : option (option bytes)) : Z :=
  match readUser with
  | Some (Some tag) => default Ambient (refs !! tag)
  | _ => Ambient
  end.

(** [SessionAdmit]: no closers are passed on. *)
Definition SessionAdmit {S} (wrap : S -> Meter -> S) (a : Admitter) (refs : gmap bytes Z)
  (readUser : option (option bytes)) (src : Addr) (st : S) (now : Z) (s : astate)
  : res admErr (S * grant) * astate :=
  Admit wrap a (sessionWho refs readUser) src st [] now s.

(** [SessionTunnelAdmit]: whether the byte counters are set, and the grant. *)
Definition SessionTunnelAdmit (a : Admitter) (refs : gmap bytes Z) (readUser : option (option bytes))
  (src : option Addr) (closer : nat) (now : Z) (s : astate) : option (option Meter * grant) * astate :=
  match AdmitConn a (sessionWho refs readUser) (default AddrZero src) [closer] now s with
  | (Err _, s) => (None, s)
  | (Ok g, s) => (Some (gr_meter g, g), s)
  end.

(** ** Connections in any order *)

(** Where a connection is: acquiring gates, inside the registry's [Open], admitted, or
    giving its gates back, after a refusal or at its end. *)
Inductive phase :=
| PGates (taken todo : list (option nat))
| PMeter
| POpen
| PBack (todo : list (option nat)).

Record thread := mkThread { th_adm : Admitter; th_who : Z; th_src : Addr; th_phase : phase }.

Definition at_phase (th : thread) (p : phase) : thread := mkThread (th_adm th) (th_who th) (th_src th) p.

(** The gates it holds, and how often one of them. *)
Definition holding (th : thread) : list (option nat) :=
  match th_phase th with
  | PGates taken _ => taken
  | PMeter | POpen => a_Gates (th_adm th)
  | PBack todo => todo
  end.
Definition uses (g : nat) (th : thread) : Z := Z.of_nat (length (filter (fun x => x = Some g) (holding th))).

Record aworld := mkAW { aw_meter : world; aw_gates : gmap nat Gate; aw_threads : gmap nat thread }.

(** A connection has a place in the registry only between its gates and its end. *)
Definition inside (th : thread) : Prop :=
  a_Meter (th_adm th) = true /\ (th_phase th = PMeter \/ th_phase th = POpen).
Definition owned (ths : gmap nat thread) (hs : gmap nat holder) : Prop :=
  forall t h, hs !! t = Some h ->
    exists th, ths !! t = Some th /\ inside th /\ hd_cred h = th_who th /\ hd_src h = th_src th.

Inductive astep : aworld -> aworld -> Prop :=
| as_start t a who src w :
    aw_threads w !! t = None ->
    astep w (mkAW (aw_meter w) (aw_gates w) (<[t := mkThread a who src (PGates [] (a_Gates a))]> (aw_threads w)))
| as_take t th taken g todo gs w :
    aw_threads w !! t = Some th -> th_phase th = PGates taken (g :: todo) -> gate_try (aw_gates w) g = (true, gs) ->
    astep w (mkAW (aw_meter w) gs (<[t := at_phase th (PGates (taken ++ [g]) todo)]> (aw_threads w)))
| as_full t th taken g todo gs w :
    aw_threads w !! t = Some th -> th_phase th = PGates taken (g :: todo) -> gate_try (aw_gates w) g = (false, gs) ->
    astep w (mkAW (aw_meter w) gs (<[t := at_phase th (PBack taken)]> (aw_threads w)))
| as_pass t th w :
    aw_threads w !! t = Some th -> th_phase th = PGates (a_Gates (th_adm th)) [] ->
    astep w (mkAW (aw_meter w) (aw_gates w)
               (<[t := at_phase th (if a_Meter (th_adm th) then PMeter else POpen)]> (aw_threads w)))
(** the registry's own steps, those of [Open] and of its closing function included *)
| as_registry m w :
    step (aw_meter w) m -> owned (aw_threads w) (held m) -> astep w (mkAW m (aw_gates w) (aw_threads w))
| as_open t th who src k w :
    aw_threads w !! t = Some th -> th_phase th = PMeter -> held (aw_meter w) !! t = Some (mkHolder who src (HOpen k)) ->
    astep w (mkAW (aw_meter w) (aw_gates w) (<[t := at_phase th POpen]> (aw_threads w)))
| as_leave t th w :
    aw_threads w !! t = Some th -> (th_phase th = PMeter \/ th_phase th = POpen) -> held (aw_meter w) !! t = None ->
    astep w (mkAW (aw_meter w) (aw_gates w) (<[t := at_phase th (PBack (a_Gates (th_adm th)))]> (aw_threads w)))
| as_give t th g todo w :
    aw_threads w !! t = Some th -> th_phase th = PBack (g :: todo) ->
    astep w (mkAW (aw_meter w) (gate_release (aw_gates w) g) (<[t := at_phase th (PBack todo)]> (aw_threads w)))
| as_end t th w :
    aw_threads w !! t = Some th -> th_phase th = PBack [] ->
    astep w (mkAW (aw_meter w) (aw_gates w) (delete t (aw_threads w))).

Lemma uses_app g th l1 l2 :
  Z.of_nat (length (filter (fun x => x = Some g) (l1 ++ l2))) =
  Z.of_nat (length (filter (fun x => x = Some g) l1)) + uses g (at_phase th (PBack l2)).
Proof. unfold uses, holding. simpl. rewrite filter_app, length_app. lia. Qed.

(** *** The invariant *)

Record gates_inv (w : aworld) : Prop := {
  gi_count : forall g gt, aw_gates w !! g = Some gt ->
    gt_live gt = msum (uses g) (aw_threads w) /\ (0 < gt_maxConns gt -> gt_live gt <= gt_maxConns gt);
  gi_owned : owned (aw_threads w) (held (aw_meter w));
}.

(** One gate's counter moves with the connection that takes or leaves it. *)
Definition moves (g : option nat) (d : Z) (gs gs' : gmap nat Gate) : Prop :=
  forall k gt', gs' !! k = Some gt' -> exists gt, gs !! k = Some gt /\ gt_maxConns gt' = gt_maxConns gt /\
    gt_live gt' = gt_live gt + (if bool_decide (g = Some k) then d else 0).

Lemma moves_none d gs : moves None d gs gs.
Proof. intros k gt H. exists gt. rewrite bool_decide_false by done. split_and!; [done..|lia]. Qed.

Lemma moves_missing k d gs : gs !! k = None -> moves (Some k) d gs gs.
Proof.
  intros Hk k' gt H. exists gt. rewrite bool_decide_false by congruence. split_and!; [done..|lia].
Qed.

Lemma moves_insert k d gs gt gt' :
  gs !! k = Some gt -> gt_maxConns gt' = gt_maxConns gt -> gt_live gt' = gt_live gt + d ->
  moves (Some k) d gs (<[k := gt']> gs).
Proof.
  intros Hk Hm Hl k' x H. destruct (decide (k = k')) as [<-|Hne].
  - rewrite lookup_insert_eq in H. simplify_eq. exists gt. by rewrite bool_decide_true.
  - rewrite lookup_insert_ne in H by done. exists x. rewrite bool_decide_false by congruence. split_and!; [done..|lia].
Qed.

Lemma gate_try_moves gs g ok gs' :
  gate_try gs g = (ok, gs') ->
  moves g (if ok then 1 else 0) gs gs' /\
  (ok = true -> forall k gt, g = Some k -> gs !! k = Some gt -> 0 < gt_maxConns gt -> gt_live gt < gt_maxConns gt).
Proof.
  unfold gate_try. destruct g as [k|]; [|intros [= <- <-]; split; [apply moves_none|done]].
  destruct (gs !! k) as [gt|] eqn:Hk; [|intros [= <- <-]; split; [by apply moves_missing|intros _ ? ? [= <-]; congruence]].
  unfold TryAcquire. destruct (gt_maxConns gt =? 0) eqn:E0; [|destruct (gt_maxConns gt <=? gt_live gt) eqn:E1].
  - intros [= <- <-]. split; [by eapply moves_insert|]. intros _ k' gt' [= <-] Hk'. rewrite Hk in Hk'. simplify_eq. lia.
  - intros [= <- <-]. split; [|done]. eapply moves_insert; [done..|simpl; lia].
  - intros [= <- <-]. split; [by eapply moves_insert|]. intros _ k' gt' [= <-] Hk'. rewrite Hk in Hk'. simplify_eq. lia.
Qed.

Lemma gate_release_moves gs g : moves g (-1) gs (gate_release gs g).
Proof.
  unfold gate_release. destruct g as [k|]; [|apply moves_none].
  destruct (gs !! k) as [gt|] eqn:Hk; [|by apply moves_missing]. eapply moves_insert; [done..|simpl; lia].
Qed.

Lemma uses_nonneg g th : 0 <= uses g th.
Proof. unfold uses. lia. Qed.

Lemma owned_replace ths hs t th th' :
  owned ths hs -> ths !! t = Some th -> th_who th' = th_who th -> th_src th' = th_src th ->
  (inside th -> inside th' \/ hs !! t = None) -> owned (<[t := th']> ths) hs.
Proof.
  intros Ho Ht Hw Hs Hi t' h Hh. destruct (Ho t' h Hh) as (x & Hx & Hin & ? & ?).
  destruct (decide (t = t')) as [<-|Hne].
  - exists th'. rewrite lookup_insert_eq. simplify_eq. destruct (Hi Hin) as [?|?]; [|congruence].
    split_and!; [done..|congruence|congruence].
  - exists x. by rewrite lookup_insert_ne.
Qed.

Definition gates_ok (gs : gmap nat Gate) (ths : gmap nat thread) : Prop :=
  forall g gt, gs !! g = Some gt ->
    gt_live gt = msum (uses g) ths /\ (0 < gt_maxConns gt -> gt_live gt <= gt_maxConns gt).

Lemma gates_ok_move gs gs' ths t th th' g d :
  gates_ok gs ths -> ths !! t = Some th -> moves g d gs gs' ->
  (forall k, uses k th' = uses k th + (if bool_decide (g = Some k) then d else 0)) ->
  (0 < d -> d = 1 /\ forall k gt, g = Some k -> gs !! k = Some gt -> 0 < gt_maxConns gt -> gt_live gt < gt_maxConns gt) ->
  gates_ok gs' (<[t := th']> ths).
Proof.
  intros Hok Ht Hm Hu Hd k gt' Hk. destruct (Hm k gt' Hk) as (gt & Hgt & Hmax & Hlive).
  destruct (Hok k gt Hgt) as [Hc Hl]. rewrite (msum_replace _ _ _ _ _ Ht), Hu. split; [lia|].
  intros Hpos. rewrite Hmax in *. specialize (Hl Hpos). case_bool_decide as E; [|lia].
  destruct (decide (0 < d)) as [Hd0|]; [|lia]. destruct (Hd Hd0) as [-> Hlt]. specialize (Hlt k gt E Hgt Hpos). lia.
Qed.

(** A connection that moves on without touching its gates. *)
Lemma gates_ok_phase gs ths t th p :
  gates_ok gs ths -> ths !! t = Some th -> holding (at_phase th p) = holding th ->
  gates_ok gs (<[t := at_phase th p]> ths).
Proof.
  intros Hok Ht Hh g gt Hg. unfold uses. rewrite (msum_same _ _ _ _ _ Ht); [by apply Hok|]. by rewrite Hh.
Qed.

Lemma uses_cons k th g l :
  uses k (at_phase th (PBack (g :: l))) = uses k (at_phase th (PBack l)) + (if bool_decide (g = Some k) then 1 else 0).
Proof.
  unfold uses, holding. simpl. rewrite filter_cons. case_bool_decide; destruct (decide _); simpl; try done; lia.
Qed.

Lemma uses_snoc k th taken todo g :
  uses k (at_phase th (PGates (taken ++ [g]) todo)) =
  uses k (at_phase th (PGates taken (g :: todo))) + (if bool_decide (g = Some k) then 1 else 0).
Proof.
  unfold uses at 1. unfold holding. simpl. rewrite (uses_app k th), uses_cons.
  change (uses k (at_phase th (PBack []))) with 0. unfold uses, holding. simpl. lia.
Qed.

Lemma phase_id th p : th_phase th = p -> th = at_phase th p.
Proof. by intros <-; destruct th. Qed.

Lemma uses_end k th : th_phase th = PBack [] -> uses k th = 0.
Proof. intros H. unfold uses, holding. by rewrite H. Qed.

Lemma gates_ok_step w w' : astep w w' -> gates_ok (aw_gates w) (aw_threads w) -> gates_ok (aw_gates w') (aw_threads w').
Proof.
  intros Hs Hok.
  destruct Hs as [t a who src w Ht|t th taken g todo gs w Ht Hp Hg|t th taken g todo gs w Ht Hp Hg|t th w Ht Hp
                 |m w Hstep Ho|t th who src k w Ht Hp Hh|t th w Ht Hp Hh|t th g todo w Ht Hp|t th w Ht Hp]; simpl.
  - intros g gt Hg. rewrite msum_insert by done. destruct (Hok g gt Hg) as [-> ?]. done.
  - destruct (gate_try_moves _ _ _ _ Hg) as [Hm Hlt]. eapply gates_ok_move; [done..| |by intros _; split; [|apply Hlt]].
    intros k. rewrite uses_snoc. by rewrite <-(phase_id _ _ Hp).
  - destruct (gate_try_moves _ _ _ _ Hg) as [Hm _]. eapply (gates_ok_move _ _ _ _ th); [done..| |lia].
    intros k. rewrite (phase_id _ _ Hp) at 2. unfold uses, holding. simpl. case_bool_decide; lia.
  - eapply gates_ok_phase; [done..|]. unfold holding at 2. rewrite Hp. unfold holding. simpl. by destruct (a_Meter _).
  - done.
  - eapply gates_ok_phase; [done..|]. unfold holding at 2. by rewrite Hp.
  - eapply gates_ok_phase; [done..|]. unfold holding at 2. by destruct Hp as [-> | ->].
  - eapply (gates_ok_move _ _ _ _ th); [done..|apply gate_release_moves| |lia].
    intros k. rewrite (phase_id _ _ Hp) at 2. rewrite uses_cons. case_bool_decide; lia.
  - intros g gt Hg. destruct (Hok g gt Hg) as [Hc ?]. rewrite (msum_delete _ _ _ _ Ht), (uses_end _ _ Hp) in Hc. lia.
Qed.

Lemma owned_step w w' :
  astep w w' -> owned (aw_threads w) (held (aw_meter w)) -> owned (aw_threads w') (held (aw_meter w')).
Proof.
  intros Hs Ho.
  destruct Hs as [t a who src w Ht|t th taken g todo gs w Ht Hp Hg|t th taken g todo gs w Ht Hp Hg|t th w Ht Hp
                 |m w Hstep Ho'|t th who src k w Ht Hp Hh|t th w Ht Hp Hh|t th g todo w Ht Hp|t th w Ht Hp]; simpl; try done.
  - intros t' h Hh. destruct (Ho t' h Hh) as (x & Hx & ?). exists x. by rewrite lookup_insert_ne by congruence.
  - eapply owned_replace; [done..|]. intros [_ [?|?]]; congruence.
  - eapply owned_replace; [done..|]. intros [_ [?|?]]; congruence.
  - eapply owned_replace; [done..|]. intros [_ [?|?]]; congruence.
  - eapply owned_replace; [done..|]. intros [? _]. left. split; [done|by right].
  - eapply owned_replace; [done..|]. by right.
  - eapply owned_replace; [done..|]. intros [_ [?|?]]; congruence.
  - intros t' h Hh. destruct (Ho t' h Hh) as (x & Hx & Hin & ?). exists x. rewrite lookup_delete_ne; [done|].
    intros <-. simplify_eq. destruct Hin as [_ [?|?]]; congruence.
Qed.

Lemma registry_step w w' : astep w w' -> aw_meter w' = aw_meter w \/ step (aw_meter w) (aw_meter w').
Proof. intros []; simpl; auto. Qed.

(** A start: the registry follows a configuration and no gate is in use. *)
Definition admission_start (cs : list config) (gs : gmap nat Gate) : aworld := mkAW (mkWorld (configured cs) ∅) gs ∅.
Definition unused (gs : gmap nat Gate) : Prop := forall g gt, gs !! g = Some gt -> gt_live gt = 0.

Lemma admission_reachable cs gs w :
  unused gs -> rtc astep (admission_start cs gs) w ->
  gates_ok (aw_gates w) (aw_threads w) /\ owned (aw_threads w) (held (aw_meter w)) /\
  rtc step (mkWorld (configured cs) ∅) (aw_meter w).
Proof.
  intros Hu H. revert w H. apply (rtc_ind_r (R := astep)).
  - split_and!; [|by intros ? ? ?|apply rtc_refl]. intros g gt Hg. rewrite (Hu g gt Hg). split; [done|]. lia.
  - intros w1 w2 _ Hs (H1 & H2 & H3). split_and!; [by eapply gates_ok_step|by eapply owned_step|].
    destruct (registry_step _ _ Hs) as [-> | ?]; [done|by eapply rtc_r].
Qed.

(** [C32] However the connections' admissions and ends interleave, a gate's counter is the
    number of times the connections present hold it and never exceeds its limit; a
    connection occupies the registry only while it holds all its gates; and when no
    connection is left every gate, every user counter and every source-address gate is back
    to zero. *)
Theorem admission_gates_hold cs gs w :
  unused gs -> rtc astep (admission_start cs gs) w ->
  (forall g gt, aw_gates w !! g = Some gt ->
     gt_live gt = msum (uses g) (aw_threads w) /\ (0 < gt_maxConns gt -> gt_live gt <= gt_maxConns gt)) /\
  (forall t h, held (aw_meter w) !! t = Some h ->
     exists th, aw_threads w !! t = Some th /\ holding th = a_Gates (th_adm th)) /\
  (aw_threads w = ∅ ->
     (forall g gt, aw_gates w !! g = Some gt -> gt_live gt = 0) /\
     held (aw_meter w) = ∅ /\
     (forall id, c_connsLive (cv (reg (aw_meter w)) id) = 0) /\
     (forall g gt, r_ipgs (reg (aw_meter w)) !! g = Some gt -> g_ips gt = ∅)).
Proof.
  intros Hu Hr. destruct (admission_reachable _ _ _ Hu Hr) as (H1 & H2 & H3). split_and!; [done| |].
  - intros t h Hh. destruct (H2 t h Hh) as (th & Ht & [_ Hp] & _). exists th. split; [done|].
    unfold holding. by destruct Hp as [-> | ->].
  - intros He. rewrite He in *. assert (held (aw_meter w) = ∅) as Hh.
    { apply map_empty. intros t. destruct (held (aw_meter w) !! t) as [h|] eqn:E; [|done].
      destruct (H2 t h E) as (th & Ht & _). by rewrite lookup_empty in Ht. }
    split_and!; [|done|..].
    + intros g gt Hg. by destruct (H1 g gt Hg) as [-> _].
    + by apply registry_idle; [eapply adm_reachable|].
    + by apply registry_idle; [eapply adm_reachable|].
Qed.

(** ** [AdmitConn] and its release are runs of these steps *)

Definition in_world (s : astate) (hs : gmap nat holder) (ths : gmap nat thread) : aworld :=
  mkAW (mkWorld (s_reg s) hs) (s_gates s) ths.

Lemma back_path l : forall m gs t th ths,
  ths !! t = None ->
  rtc astep (mkAW m gs (<[t := at_phase th (PBack l)]> ths)) (mkAW m (releaseGates gs l) ths).
Proof.
  induction l as [|g l IH]; intros m gs t th ths Ht.
  - eapply rtc_l; [eapply as_end; [apply lookup_insert_eq|done]|]. simpl. by rewrite delete_insert_id.
  - eapply rtc_l; [eapply as_give; [apply lookup_insert_eq|done]|]. simpl. rewrite insert_insert_eq.
    exact (IH m (gate_release gs g) t (at_phase th (PBack (g :: l))) ths Ht).
Qed.

Lemma gates_path todo : forall m gs taken t th ths ok gs',
  ths !! t = None -> acquireGates gs taken todo = (ok, gs') ->
  rtc astep (mkAW m gs (<[t := at_phase th (PGates taken todo)]> ths))
            (mkAW m gs' (if ok then <[t := at_phase th (PGates (taken ++ todo) [])]> ths else ths)).
Proof.
  induction todo as [|g todo IH]; intros m gs taken t th ths ok gs' Ht; cbn [acquireGates].
  - intros [= <- <-]. rewrite app_nil_r. apply rtc_refl.
  - destruct (gate_try gs g) as [[|] gs1] eqn:Eg.
    + intros H. eapply rtc_l; [eapply as_take; [apply lookup_insert_eq|done|exact Eg]|]. simpl. rewrite insert_insert_eq.
      replace (taken ++ g :: todo) with ((taken ++ [g]) ++ todo) by (by rewrite <-app_assoc).
      exact (IH m gs1 (taken ++ [g]) t (at_phase th (PGates taken (g :: todo))) ths ok gs' Ht H).
    + intros [= <- <-]. eapply rtc_l; [eapply as_full; [apply lookup_insert_eq|done|exact Eg]|]. simpl.
      rewrite insert_insert_eq. by apply (back_path taken m gs1 t (at_phase th (PGates taken (g :: todo))) ths).
Qed.

Lemma owned_insert ths hs t th h :
  owned ths hs -> ths !! t = Some th -> inside th -> hd_cred h = th_who th -> hd_src h = th_src th ->
  owned ths (<[t := h]> hs).
Proof.
  intros Ho Ht Hi Hc Hs t' h' Hh. destruct (decide (t = t')) as [<-|Hne].
  - rewrite lookup_insert_eq in Hh. simplify_eq. eauto.
  - rewrite lookup_insert_ne in Hh by done. by apply Ho.
Qed.

Lemma owned_delete ths hs t : owned ths hs -> owned ths (delete t hs).
Proof. intros Ho t' h [_ Hh]%lookup_delete_Some. by apply Ho. Qed.

(** The three critical sections of [Open]. *)
Lemma open_path r hs gs ths t th who src now ok r' :
  hs !! t = None -> owned ths hs -> ths !! t = Some th -> inside th -> who = th_who th -> src = th_src th ->
  Open r who src now = (ok, r') ->
  rtc astep (mkAW (mkWorld r hs) gs ths)
            (mkAW (mkWorld r' (match ok with Some k => <[t := mkHolder who src (HOpen k)]> hs | None => hs end)) gs ths).
Proof.
  intros Hh Ho Ht Hi Hw Hsrc. unfold Open.
  destruct (open_ip r who src) as [[|] r1] eqn:E1.
  2: { intros [= <- <-]. apply rtc_once. apply (as_registry (mkWorld r1 hs)); [by eapply (s_ip_no (mkWorld r hs))|done]. }
  assert (forall p, owned ths (<[t := mkHolder who src p]> hs)) as Hown by (intros; by eapply owned_insert).
  intros H. eapply rtc_l.
  { apply (as_registry (mkWorld r1 (<[t := mkHolder who src HIP]> hs))); [by apply (s_ip (mkWorld r hs))|apply Hown]. }
  destruct (open_conn r1 who src) as [[|] r2] eqn:E2; cbn [aw_meter aw_gates aw_threads].
  2: { injection H as [= <- <-]. apply rtc_once. rewrite <-(delete_insert_id hs t (mkHolder who src HIP)) at 2 by done.
       apply (as_registry (mkWorld r2 _)); [|by rewrite (delete_insert_id hs) by done].
       eapply (s_conn_no (mkWorld r1 _)); [apply lookup_insert_eq|exact E2]. }
  eapply rtc_l.
  { apply (as_registry (mkWorld r2 (<[t := mkHolder who src HSlot]> hs))); [|apply Hown]. cbn [aw_meter].
    rewrite <-(insert_insert_eq hs t (mkHolder who src HSlot) (mkHolder who src HIP)).
    eapply (s_conn (mkWorld r1 _)); [apply lookup_insert_eq|exact E2]. }
  cbn [aw_meter aw_gates aw_threads]. destruct ok as [k|]; apply rtc_once.
  - apply (as_registry (mkWorld r' (<[t := mkHolder who src (HOpen k)]> hs))); [|apply Hown]. cbn [aw_meter].
    rewrite <-(insert_insert_eq hs t (mkHolder who src (HOpen k)) (mkHolder who src HSlot)).
    eapply (s_register (mkWorld r2 _)); [apply lookup_insert_eq|exact H].
  - rewrite <-(delete_insert_id hs t (mkHolder who src HSlot)) at 2 by done.
    apply (as_registry (mkWorld r' _)); [|by rewrite (delete_insert_id hs) by done].
    eapply (s_register_no (mkWorld r2 _)); [apply lookup_insert_eq|exact H].
Qed.

(** An admitted connection, as a thread and as a holder of the registry. *)
Definition admitted (a : Admitter) (who : Z) (src : Addr) : thread := mkThread a who src POpen.
Definition grant_holder (g : grant) (t : nat) (hs : gmap nat holder) : gmap nat holder :=
  match gr_conn g with
  | Some (who, src, k) => <[t := mkHolder who src (HOpen k)]> hs
  | None => hs
  end.

Lemma admit_guard_same a s ok s' :
  admit_guard a s = (ok, s') ->
  s_reg s' = s_reg s /\ s_gates s' = s_gates s /\ s_kills s' = s_kills s /\ s_closed s' = s_closed s.
Proof. unfold admit_guard. destruct (AdmitOK _) as [? [?|]]; by intros [= <- <-]. Qed.

(** A metered connection between its gates and the end of [Open]. *)
Lemma meter_path r hs gs gs' t th ths ok r' now :
  ths !! t = None -> hs !! t = None -> owned ths hs -> a_Meter (th_adm th) = true ->
  acquireGates gs [] (a_Gates (th_adm th)) = (true, gs') ->
  Open r (th_who th) (th_src th) now = (ok, r') ->
  rtc astep (mkAW (mkWorld r hs) gs ths)
    (match ok with
     | Some k => mkAW (mkWorld r' (<[t := mkHolder (th_who th) (th_src th) (HOpen k)]> hs)) gs' (<[t := at_phase th POpen]> ths)
     | None => mkAW (mkWorld r' hs) (releaseGates gs' (a_Gates (th_adm th))) ths
     end).
Proof.
  intros Ht Hh Ho Hm Hg Hopen. eapply rtc_l; [by apply (as_start t (th_adm th) (th_who th) (th_src th))|]. simpl.
  etrans; [by apply (gates_path _ _ _ [] t th ths true gs')|].
  eapply rtc_l; [eapply as_pass; [apply lookup_insert_eq|done]|]. simpl. rewrite Hm, insert_insert_eq.
  assert (owned (<[t := at_phase th PMeter]> ths) hs) as Ho'.
  { intros t' h Hh'. destruct (Ho t' h Hh') as (x & Hx & ?). exists x. by rewrite lookup_insert_ne by congruence. }
  etrans; [eapply (open_path r hs gs' _ t); [done|exact Ho'|apply lookup_insert_eq| |done|done|exact Hopen]|].
  { split; [done|by left]. }
  destruct ok as [k|].
  - eapply rtc_l; [eapply as_open; [apply lookup_insert_eq|done|apply lookup_insert_eq]|]. simpl. rewrite insert_insert_eq. apply rtc_refl.
  - eapply rtc_l; [eapply as_leave; [apply lookup_insert_eq|by left|done]|]. simpl. rewrite insert_insert_eq.
    exact (back_path _ _ _ t (at_phase th PMeter) ths Ht).
Qed.

Lemma AdmitConn_path a who src closers now s t hs ths r s' :
  ths !! t = None -> hs !! t = None -> owned ths hs -> AdmitConn a who src closers now s = (r, s') ->
  match r with
  | Ok g => gr_gates g = a_Gates a /\
            rtc astep (in_world s hs ths) (in_world s' (grant_holder g t hs) (<[t := admitted a who src]> ths))
  | Err _ => s_closed s' = s_closed s ++ closers /\ rtc astep (in_world s hs ths) (in_world s' hs ths)
  end.
Proof.
  intros Ht Hh Ho. unfold AdmitConn, in_world. destruct (admit_guard a s) as [[|] s1] eqn:E1;
    destruct (admit_guard_same _ _ _ _ E1) as (<- & <- & _ & <-).
  2: { intros [= <- <-]. split; [done|apply rtc_refl]. }
  set (th := mkThread a who src (PGates [] (a_Gates a))).
  destruct (acquireGates (s_gates s1) [] (a_Gates a)) as [[|] gs] eqn:Eg.
  2: { intros [= <- <-]. split; [done|]. eapply rtc_l; [by apply (as_start t a who src)|].
       exact (gates_path _ _ _ [] t th ths false gs Ht Eg). }
  destruct (a_Meter a) eqn:Em.
  - destruct (Open (s_reg (with_gates s1 gs)) who src now) as [[k|] r1] eqn:Eo; intros [= <- <-].
    + split; [done|]. exact (meter_path _ _ _ _ t th ths _ _ now Ht Hh Ho Em Eg Eo).
    + split; [done|]. exact (meter_path _ _ _ _ t th ths _ _ now Ht Hh Ho Em Eg Eo).
  - intros H. assert (rtc astep (in_world s1 hs ths) (in_world (with_gates s1 gs) hs (<[t := admitted a who src]> ths))) as Hp.
    { eapply rtc_l; [by apply (as_start t a who src)|].
      etrans; [exact (gates_path _ _ _ [] t th ths true gs Ht Eg)|].
      eapply rtc_l; [eapply as_pass; [apply lookup_insert_eq|done]|]. simpl. rewrite Em, insert_insert_eq. apply rtc_refl. }
    destruct (a_Gates a) as [|g l] eqn:Ea; injection H as <- <-; by split.
Qed.

(** The release function of a grant, for a connection that still has its place. *)
Lemma release_path g m a who src s t hs ths :
  ths !! t = None -> hs !! t = None -> owned ths hs -> gr_gates g = a_Gates a ->
  (forall who' src' k, gr_conn g = Some (who', src', k) -> who' = who /\ src' = src /\ a_Meter a = true) ->
  rtc astep (in_world s (grant_holder g t hs) (<[t := admitted a who src]> ths)) (in_world (release_grant g m s) hs ths).
Proof.
  intros Ht Hh Ho Hg Hc. unfold in_world, release_grant, grant_holder. rewrite Hg.
  assert (forall r, rtc astep (mkAW (mkWorld r hs) (s_gates s) (<[t := admitted a who src]> ths))
                     (mkAW (mkWorld r hs) (releaseGates (s_gates s) (a_Gates a)) ths)) as Hback.
  { intros r. eapply rtc_l; [eapply as_leave; [apply lookup_insert_eq|by right|done]|]. simpl. rewrite insert_insert_eq.
    exact (back_path _ _ _ t (admitted a who src) ths Ht). }
  destruct (gr_conn g) as [[[who' src'] k]|] eqn:Ec; [|apply Hback].
  destruct (Hc _ _ _ eq_refl) as (-> & -> & Hm).
  assert (owned (<[t := admitted a who src]> ths) (<[t := mkHolder who src (HOpen k)]> hs)) as Ho'.
  { eapply owned_insert; [|apply lookup_insert_eq|by split; [|right]|done|done].
    intros t' h Hh'. destruct (Ho t' h Hh') as (x & Hx & ?). exists x. by rewrite lookup_insert_ne by congruence. }
  set (W := mkWorld (Flush (s_reg s) m).1 (<[t := mkHolder who src (HOpen k)]> hs)).
  eapply rtc_l; [by apply (as_registry W); [apply (s_flush (mkWorld (s_reg s) _) m)|]|].
  eapply rtc_l; [|apply Hback]. cbn [aw_gates aw_threads s_reg with_gates with_reg].
  rewrite <-(delete_insert_id hs t (mkHolder who src (HOpen k)) Hh). cbn [aw_meter].
  apply (as_registry (mkWorld (close_conn (Flush (s_reg s) m).1 who src k) _)); [|apply owned_delete, Ho'].
  apply (s_close W). apply lookup_insert_eq.
Qed.

(** [C33] [AdmitConn] and its release function take nothing they do not give back: in any
    admission state, a refusal is a run of the admission steps that ends with the same
    connections present, and closes every closer; an admission adds exactly this connection,
    with all its gates, and releasing it (whatever it has metered) removes exactly it. *)
Theorem AdmitConn_refines a who src closers now s t hs ths r s' :
  ths !! t = None -> hs !! t = None -> owned ths hs -> AdmitConn a who src closers now s = (r, s') ->
  match r with
  | Err _ => s_closed s' = s_closed s ++ closers /\ rtc astep (in_world s hs ths) (in_world s' hs ths)
  | Ok g =>
      s_closed s' = s_closed s /\
      rtc astep (in_world s hs ths) (in_world s' (grant_holder g t hs) (<[t := admitted a who src]> ths)) /\
      forall m s2, rtc astep (in_world s2 (grant_holder g t hs) (<[t := admitted a who src]> ths))
                     (in_world (release_grant g m s2) hs ths)
  end.
Proof.
  intros Ht Hh Ho HA. pose proof (AdmitConn_path _ _ _ _ _ _ t hs ths _ _ Ht Hh Ho HA) as Hp.
  destruct r as [g|e]; [|done]. destruct Hp as [Hg Hp].
  assert (s_closed s' = s_closed s /\
    (forall who' src' k, gr_conn g = Some (who', src', k) -> who' = who /\ src' = src /\ a_Meter a = true)) as [Hc Hconn].
  { unfold AdmitConn in HA. destruct (admit_guard a s) as [[|] s1] eqn:E1; [|done].
    destruct (admit_guard_same _ _ _ _ E1) as (_ & _ & _ & <-).
    destruct (acquireGates _ _ _) as [[|] gs]; [|done].
    destruct (a_Meter a); [destruct (Open _ _ _ _) as [[k|] r1]; [|done]|destruct (a_Gates a)];
      injection HA as <- <-; (split; [done|]); intros ???; simpl; by intros [= <- <- <-]. }
  split_and!; [done|done|]. intros m s2. by apply release_path.
Qed.

(** ** The kill switch *)

(** An admitted connection is live in the registry, with its closers behind its kill
    function. *)
Lemma register_live r who src now k r' :
  open_register r who src now = (Some k, r') -> is_Some (c_live (cv r' who) !! k).
Proof.
  unfold open_register. destruct (cell _ who) as [c r1]. unfold addGuarded. destruct (c_disabled c); [done|].
  intros [= <- <-]. unfold cv. cbn. rewrite lookup_insert_eq. cbn. rewrite lookup_insert_eq. eauto.
Qed.

Lemma AdmitConn_live a who src closers now s g s' who' src' k :
  AdmitConn a who src closers now s = (Ok g, s') -> gr_conn g = Some (who', src', k) ->
  who' = who /\ is_Some (c_live (cv (s_reg s') who) !! k) /\ s_kills s' !! k = Some closers.
Proof.
  unfold AdmitConn. destruct (admit_guard a s) as [[|] s1]; [|done]. destruct (acquireGates _ _ _) as [[|] gs]; [|done].
  destruct (a_Meter a).
  - unfold Open. destruct (open_ip _ _ _) as [[|] r1]; [|done]. destruct (open_conn _ _ _) as [[|] r2]; [|done].
    destruct (open_register _ _ _ _) as [[k'|] r3] eqn:Er; [|done]. intros [= <- <-] [= <- <- <-]. cbn.
    split_and!; [done|by eapply register_live|apply lookup_insert_eq].
  - destruct (a_Gates a); by intros [= <- <-].
Qed.

(** [Disable] on a connection that is still live closes everything it was admitted with. *)
Lemma disable_closes s id k closers n r :
  s_kills s !! k = Some closers -> is_Some (c_live (cv (s_reg s) id) !! k) ->
  Disable (s_reg s) id = Some (n, r) -> forall x, x ∈ closers -> x ∈ all_closed (with_reg s r).
Proof.
  intros Hk [h Hl] Hd x Hx. unfold Disable, disable_set, disable_kill, killAll in Hd.
  destruct (r_cells (s_reg s) !! id) as [c|] eqn:E; [|done]. rewrite (cv_lookup _ _ _ E) in Hl.
  cbn in Hd. rewrite lookup_insert_eq in Hd. injection Hd as <- <-. cbn.
  apply elem_of_app. right. cbn. apply list_elem_of_In, in_concat. exists closers.
  split; [|by apply list_elem_of_In]. apply list_elem_of_In, list_elem_of_omap. exists k. split; [|done].
  apply elem_of_app. right. apply list_elem_of_fmap. exists (k, h). split; [done|]. by apply elem_of_map_to_list.
Qed.

(** A connection admitted with its streams as closers is cut by disabling its credential. *)
Theorem admitted_then_disabled a who src closers now s g s' who' src' k n r :
  AdmitConn a who src closers now s = (Ok g, s') -> gr_conn g = Some (who', src', k) ->
  Disable (s_reg s') who = Some (n, r) ->
  forall x, x ∈ closers -> x ∈ all_closed (with_reg s' r).
Proof.
  intros HA Hg Hd. destruct (AdmitConn_live _ _ _ _ _ _ _ _ _ _ _ HA Hg) as (_ & Hl & Hk). by eapply disable_closes.
Qed.

(** The streams of session protocols are admitted without closers: a refusal closes nothing,
    and what the registry kills for an admitted one is empty. *)
Theorem session_streams_not_closed {S} (wrap : S -> Meter -> S) a refs readUser src st now s r s' :
  SessionAdmit wrap a refs readUser src st now s = (r, s') ->
  match r with
  | Err _ => s_closed s' = s_closed s
  | Ok (_, g) => forall who' src' k, gr_conn g = Some (who', src', k) -> s_kills s' !! k = Some []
  end.
Proof.
  unfold SessionAdmit, Admit. destruct (AdmitConn _ _ _ _ _ _) as [[g|e] s1] eqn:E; intros [= <- <-].
  - intros who' src' k Hg. by destruct (AdmitConn_live _ _ _ _ _ _ _ _ _ _ _ E Hg) as (_ & _ & ?).
  - unfold AdmitConn in E. destruct (admit_guard a s) as [[|] s2] eqn:E1;
      destruct (admit_guard_same _ _ _ _ E1) as (_ & _ & _ & <-); [|simplify_eq; cbn; by rewrite app_nil_r].
    destruct (acquireGates _ _ _) as [[|] gs]; [|simplify_eq; cbn; by rewrite app_nil_r].
    destruct (a_Meter a); [destruct (Open _ _ _ _) as [[k|] r1]; [done|simplify_eq; cbn; by rewrite app_nil_r]|].
    by destruct (a_Gates a).
Qed.

(** ** Runs *)

Module Examples.

Definition guard0 : MemGuard := NewMemGuard true 0 0 0.
Definition gates0 : gmap nat Gate := {[0%nat := mkGate 2 0 0 None; 1%nat := mkGate 1 0 0 None]}.
Definition inbound0 : Admitter := mkAdmitter true [Some 0%nat; Some 1%nat] false.
Definition st0 : astate := mkAState (configured Traces.cfg) gates0 guard0 ∅ [].
Definition st1 : astate := (AdmitConn inbound0 Traces.alice Traces.ip1 [7%nat; 8%nat] 100 st0).2.
Definition grant1 : grant :=
  match (AdmitConn inbound0 Traces.alice Traces.ip1 [7%nat; 8%nat] 100 st0).1 with
  | Ok g => g
  | Err _ => mkGrant None None []
  end.

(** The second connection finds the inbound's gate full and leaves the global one. *)
Example second_refused :
  let '(r, s) := AdmitConn inbound0 Traces.alice Traces.ip1 [9%nat] 101 st1 in
  r = Err errAdmissionRejected /\ s_closed s = [9%nat] /\
  gt_live <$> (s_gates s !! 0%nat) = Some 1 /\ gt_live <$> (s_gates s !! 1%nat) = Some 1.
Proof. vm_compute. done. Qed.

(** Disabling the credential of a session stream kills it in the registry and closes nothing. *)
Example session_survives_disable :
  let '(r, s) := SessionAdmit (fun x _ => x) inbound0 {[bs "alice" := Traces.alice]} (Some (Some (bs "alice")))
                   Traces.ip1 5%nat 100 st0 in
  match Disable (s_reg s) Traces.alice with
  | Some (n, r') => n = 1%nat /\ all_closed (with_reg s r') = []
  | None => False
  end.
Proof. vm_compute. done. Qed.

Lemma gates0_unused : unused gates0.
Proof.
  intros g gt. unfold gates0. intros [[<- <-]|[_ [<- <-]%lookup_singleton_Some]]%lookup_insert_Some; done.
Qed.

Lemma st1_admitted : AdmitConn inbound0 Traces.alice Traces.ip1 [7%nat; 8%nat] 100 st0 = (Ok grant1, st1).
Proof. vm_compute. reflexivity. Qed.

Lemma nothing_owned : owned ∅ ∅.
Proof. by intros t h ?. Qed.

Lemma AdmitConn_refines_witness :
  s_closed st1 = s_closed st0 /\
  rtc astep (in_world st0 ∅ ∅) (in_world st1 (grant_holder grant1 0 ∅) (<[0%nat := admitted inbound0 Traces.alice Traces.ip1]> ∅)) /\
  forall m s2, rtc astep (in_world s2 (grant_holder grant1 0 ∅) (<[0%nat := admitted inbound0 Traces.alice Traces.ip1]> ∅))
                 (in_world (release_grant grant1 m s2) ∅ ∅).
Proof.
  exact (AdmitConn_refines inbound0 Traces.alice Traces.ip1 [7%nat; 8%nat] 100 st0 0 ∅ ∅ (Ok grant1) st1
           (lookup_empty _) (lookup_empty _) nothing_owned st1_admitted).
Defined.

Definition w1 : aworld :=
  in_world st1 (grant_holder grant1 0 ∅) (<[0%nat := admitted inbound0 Traces.alice Traces.ip1]> ∅).

Lemma admitted_reachable : rtc astep (admission_start Traces.cfg gates0) w1.
Proof.
  change (admission_start Traces.cfg gates0) with (in_world st0 ∅ ∅).
  apply (AdmitConn_path inbound0 Traces.alice Traces.ip1 [7%nat; 8%nat] 100 st0 0 ∅ ∅ (Ok grant1) st1
           (lookup_empty _) (lookup_empty _) nothing_owned st1_admitted).
Qed.

Lemma admission_gates_hold_witness :
  (forall g gt, aw_gates w1 !! g = Some gt ->
     gt_live gt = msum (uses g) (aw_threads w1) /\ (0 < gt_maxConns gt -> gt_live gt <= gt_maxConns gt)) /\
  (forall t h, held (aw_meter w1) !! t = Some h ->
     exists th, aw_threads w1 !! t = Some th /\ holding th = a_Gates (th_adm th)) /\
  (aw_threads w1 = ∅ ->
     (forall g gt, aw_gates w1 !! g = Some gt -> gt_live gt = 0) /\
     held (aw_meter w1) = ∅ /\
     (forall id, c_connsLive (cv (reg (aw_meter w1)) id) = 0) /\
     (forall g gt, r_ipgs (reg (aw_meter w1)) !! g = Some gt -> g_ips gt = ∅)).
Proof. apply (admission_gates_hold Traces.cfg gates0 w1 gates0_unused). apply admitted_reachable. Defined.

End Examples.
