(* ===== verification/Inbound.v ===== *)
(** * Stream inbounds ([service/inbound.go], with the callers of [Admit] in [service/admit.go])

    [HandleStream] and what it calls, as programs that interact with their environment:
    transport layers, the protocol, the resolver, outbounds, admission and the relay answer
    each call as they like. A monitor follows the calls and says what must not happen; the
    programs are proved against it for every behaviour of the environment. *)
From S2P Require Import Prelude GoStd Netip Socksaddr AddrText Proxy Link Sniff MuxServer Vless.
From Stdlib Require Import Init.Byte.

(** ** Choosing a decoy *)

Record FallbackRule := mkFallback {
  f_SNI : list bytes;
  f_ALPN : list bytes;
  f_Path : bytes;
  f_Dest : bytes;
  f_Xver : Z;
}.

(** The fields of [ProxyInbound] that decide what [HandleStream] does: how many transport
    layers there are, whether sniffing is on, the decoys, and whether the protocol carries
    datagrams. *)
Record ProxyInbound := mkInbound {
  h_Below : nat;
  h_Sniff : bool;
  h_Fallback : bytes;
  h_Fallbacks : list FallbackRule;
  h_PacketServer : bool;
}.

Definition fallbackRules (h : ProxyInbound) : list FallbackRule :=
  match h_Fallbacks h with
  | _ :: _ => h_Fallbacks h
  | [] => if bool_decide (h_Fallback h = []) then [] else [mkFallback [] [] [] (h_Fallback h) 0]
  end.

Definition hasFallback (h : ProxyInbound) : bool :=
  negb (bool_decide (h_Fallback h = [])) || negb (bool_decide (h_Fallbacks h = [])).

Fixpoint sliceContains (s : list bytes) (x : bytes) : bool :=
  match s with
  | [] => false
  | v :: s' => bool_decide (v = x) || sliceContains s' x
  end.

Definition rule_hits (r : FallbackRule) (sni alpn path : bytes) : bool :=
  (bool_decide (f_SNI r = []) || sliceContains (f_SNI r) sni) &&
  (bool_decide (f_ALPN r = []) || sliceContains (f_ALPN r) alpn) &&
  (bool_decide (f_Path r = []) || HasPrefix path (f_Path r)).

Fixpoint select_loop (l : list FallbackRule) (sni alpn path : bytes) : bytes * Z :=
  match l with
  | [] => ([], 0)
  | r :: l' => if rule_hits r sni alpn path then (f_Dest r, f_Xver r) else select_loop l' sni alpn path
  end.
Definition selectFallback (h : ProxyInbound) (sni alpn path : bytes) : bytes * Z :=
  select_loop (fallbackRules h) sni alpn path.

(** [bytes.Fields]: maximal runs without white space. Every turn takes a byte or a space. *)
Fixpoint fields_loop (fuel : nat) (s cur : bytes) : list bytes :=
  let flush l := match cur with [] => l | _ => cur :: l end in
  match fuel, s with
  | O, _ | _, [] => flush []
  | S fuel', c :: s' =>
      match find (HasPrefix s) space_seqs with
      | Some sp => flush (fields_loop fuel' (drop (length sp) s) [])
      | None => fields_loop fuel' s' (cur ++ [c])
      end
  end.
Definition Fields (s : bytes) : list bytes := fields_loop (length s) s [].

Definition httpRequestPath (b : bytes) : bytes :=
  let b := match IndexByte b x0a with Some i => take i b | None => b end in
  match Fields b with
  | _ :: path :: proto :: _ => if HasPrefix proto (bs "HTTP/") then path else []
  | _ => []
  end.

Example path_of_probe : httpRequestPath (bs "GET /admin/x HTTP/1.1" ++ [x0d; x0a] ++ bs "Host: a") = bs "/admin/x".
Proof. vm_compute. reflexivity. Qed.
Example path_of_tls : httpRequestPath [x16; x03; x01; x02; x00; x20; x41] = [].
Proof. vm_compute. reflexivity. Qed.

(** *** The PROXY header *)

(** A [*net.TCPAddr]: its IP, [AddrZero] when nil, without a zone. *)
Record TCPAddr := mkTCPAddr { t_IP : Addr; t_Port : Z }.

Definition To4 (a : Addr) : option bytes :=
  match Unmap a with Addr4 v => Some (be_enc 4 v) | _ => None end.
Definition To16 (a : Addr) : bytes := match a with AddrZero => [] | _ => As16 a end.
(** [net.IP.String]. *)
Definition IP_String (a : Addr) : bytes :=
  match a with AddrZero => bs "<nil>" | _ => Addr_String (Unmap a) end.

Definition proxySignature : bytes := [x0d; x0a; x0d; x0a; x00; x0d; x0a; x51; x55; x49; x54; x0a].
Definition put16 (p : Z) : bytes := [z2b (Z.shiftr p 8); z2b p].

Definition proxyProtocolHeader (v : Z) (src dst : option TCPAddr) : option bytes :=
  match src, dst with
  | Some st, Some dt =>
      let is4 := match To4 (t_IP st), To4 (t_IP dt) with Some _, Some _ => true | _, _ => false end in
      if v =? 1 then
        Some (bs "PROXY " ++ bs (if is4 then "TCP4" else "TCP6") ++ x20 :: IP_String (t_IP st) ++ x20 :: IP_String (t_IP dt)
                ++ x20 :: Itoa (t_Port st) ++ x20 :: Itoa (t_Port dt) ++ [x0d; x0a])
      else
        let addrs := (if is4 then default [] (To4 (t_IP st)) ++ default [] (To4 (t_IP dt))
                      else To16 (t_IP st) ++ To16 (t_IP dt)) ++ put16 (t_Port st) ++ put16 (t_Port dt) in
        Some (proxySignature ++ x21 :: (if is4 then x11 else x21) :: put16 (len addrs) ++ addrs)
  | _, _ => None
  end.

Example proxy_v1 :
  proxyProtocolHeader 1 (Some (mkTCPAddr (addr "203.0.113.9") 51000)) (Some (mkTCPAddr (addr "::ffff:198.51.100.1") 443))
  = Some (bs "PROXY TCP4 203.0.113.9 198.51.100.1 51000 443" ++ [x0d; x0a]).
Proof. vm_compute. reflexivity. Qed.

(** What the decoy reads back from a version 2 header: the family and, from the address
    block whose length the header announces, both addresses and both ports. *)
Definition read_v2 (b : bytes) : option (bool * bytes * bytes * Z * Z * bytes) :=
  if negb (bool_decide (take 12 b = proxySignature /\ b !! 12%nat = Some x21)) then None
  else match drop 13 b with
       | fam :: h :: l :: rest =>
           let n := if bool_decide (fam = x11) then 4%nat else 16%nat in
           let block := take (Z.to_nat (be_dec [h; l])) rest in
           if bool_decide (length block = (2 * n + 4)%nat) then
             Some (bool_decide (fam = x11), take n block, take n (drop n block), be_dec (take 2 (drop (2 * n) block)),
                   be_dec (drop (2 * n + 2) block), drop (Z.to_nat (be_dec [h; l])) rest)
           else None
       | _ => None
       end.

Lemma put16_be p : in_u16 p -> put16 p = be_enc 2 p.
Proof.
  intros H. unfold put16. cbn [be_enc app]. rewrite Z.shiftr_div_pow2 by lia. done.
Qed.

Definition tcp_ok (t : TCPAddr) : Prop := IsValid (t_IP t) = true /\ addr_wf (t_IP t) /\ in_u16 (t_Port t).

Lemma ip_To4_length a b : To4 a = Some b -> length b = 4%nat.
Proof. unfold To4. destruct (Unmap a); by intros [= <-]. Qed.
Lemma ip_To16_length a : IsValid a = true -> length (To16 a) = 16%nat.
Proof. by destruct a; intros; [|apply length_be_enc..]. Qed.

(** One address block, for either family. *)
Lemma read_v2_block fam n a b p q rest :
  fam = (if bool_decide (n = 4%nat) then x11 else x21) -> (n = 4 \/ n = 16)%nat ->
  length a = n -> length b = n -> in_u16 p -> in_u16 q ->
  let addrs := (a ++ b) ++ put16 p ++ put16 q in
  read_v2 ((proxySignature ++ x21 :: fam :: put16 (len addrs) ++ addrs) ++ rest) = Some (bool_decide (n = 4%nat), a, b, p, q, rest).
Proof.
  intros Hfam Hn Ha Hb Hp Hq addrs.
  assert (length addrs = (2 * n + 4)%nat) as Hl by (unfold addrs; rewrite !length_app, Ha, Hb; cbn; lia).
  assert (put16 (len addrs) = be_enc 2 (len addrs)) as E by (apply put16_be; unfold in_u16, len; lia).
  assert (be_dec (put16 (len addrs)) = len addrs) as Hd.
  { rewrite E. apply be_dec_enc_small. unfold len. lia. }
  unfold put16 in Hd |- *. set (h := z2b (Z.shiftr (len addrs) 8)) in *. set (l := z2b (len addrs)) in *.
  unfold read_v2. rewrite bool_decide_true by done. cbn [negb].
  replace (drop 13 _) with (fam :: h :: l :: addrs ++ rest) by done.
  rewrite Hd. unfold len. rewrite Nat2Z.id, take_app_length, drop_app_length, Hl.
  assert ((if bool_decide (fam = x11) then 4 else 16)%nat = n /\ bool_decide (fam = x11) = bool_decide (n = 4%nat)) as [-> ->].
  { subst fam. destruct Hn as [-> | ->]; done. }
  rewrite bool_decide_true by done. unfold addrs.
  rewrite <-!app_assoc, take_app_length' by done. rewrite (drop_app_length' a) by done. rewrite take_app_length' by done.
  assert (drop (2 * n) (a ++ b ++ put16 p ++ put16 q) = put16 p ++ put16 q) as ->.
  { rewrite app_assoc. apply drop_app_length'. rewrite length_app. lia. }
  assert (drop (2 * n + 2) (a ++ b ++ put16 p ++ put16 q) = put16 q) as ->.
  { rewrite app_assoc, app_assoc. apply drop_app_length'. rewrite !length_app. cbn. lia. }
  rewrite take_app_length' by done. rewrite (put16_be p), (put16_be q), !port_dec by done. done.
Qed.

(** A version 2 header carries the true source and destination: the decoy reads both
    addresses and both ports back, and then the client's bytes. *)
Theorem proxy_v2_roundtrip st dt rest :
  tcp_ok st -> tcp_ok dt ->
  exists hdr, proxyProtocolHeader 2 (Some st) (Some dt) = Some hdr /\
    read_v2 (hdr ++ rest) =
      Some (match To4 (t_IP st), To4 (t_IP dt) with
            | Some a, Some b => (true, a, b, t_Port st, t_Port dt, rest)
            | _, _ => (false, To16 (t_IP st), To16 (t_IP dt), t_Port st, t_Port dt, rest)
            end).
Proof.
  intros (Hv & _ & Hp) (Hv' & _ & Hp'). eexists. split; [reflexivity|].
  destruct (To4 (t_IP st)) as [a|] eqn:E1; [destruct (To4 (t_IP dt)) as [b|] eqn:E2|]; cbn [default].
  - apply (read_v2_block x11 4); eauto using ip_To4_length.
  - apply (read_v2_block x21 16); eauto using ip_To16_length.
  - apply (read_v2_block x21 16); eauto using ip_To16_length.
Qed.

(** ** Recording a handshake *)

(** [recordStream]: what a handshake reads is appended to [buf]; [replay] reads it again,
    then the rest. On a finite stream, the bytes recorded by [m] are those it took. *)
Definition recorded {A} (m : proc A) (s : stream) : bytes :=
  take (length (s_in s) - length (s_in (run m s).2)) (s_in s).
Definition replay {A} (m : proc A) (s : stream) : bytes := recorded m s ++ s_in (run m s).2.

Lemma stream_write_in s p : s_in (stream_write s p).2 = s_in s.
Proof. unfold stream_write. by destruct (s_script s) as [|[n|] l]. Qed.

Lemma run_suffix {A} (m : proc A) : forall s, exists p, s_in s = p ++ s_in (run m s).2.
Proof.
  induction m as [a|n k IH|p k IH]; intros s; cbn [run].
  - by exists [].
  - destruct (ReadFull n (s_in s)) as [[b r]|e] eqn:E.
    + apply ReadFull_Ok in E as [-> _]. destruct (IH (Ok b) (mkStream r (s_out s) (s_script s))) as [p Hp].
      cbn in Hp. exists (b ++ p). by rewrite <-app_assoc, <-Hp.
    + destruct (IH (Err e) (mkStream [] (s_out s) (s_script s))) as [p Hp]. cbn in Hp.
      symmetry in Hp. apply app_eq_nil in Hp as [_ ->]. exists (s_in s). by rewrite app_nil_r.
  - destruct (stream_write s p) as [b s'] eqn:E. destruct (IH b s') as [q Hq].
    exists q. rewrite <-Hq. by rewrite <-(stream_write_in s p), E.
Qed.

(** Whatever the handshake did, and however it failed, the decoy reads exactly what the
    client sent. *)
Theorem replay_exact {A} (m : proc A) (s : stream) : replay m s = s_in s.
Proof.
  destruct (run_suffix m s) as [p Hp]. unfold replay, recorded. rewrite Hp, length_app.
  replace (_ - _)%nat with (length p) by lia. by rewrite take_app_length.
Qed.

(** ** Metadata ([core/endpoint/endpoint.go]) *)

Record Metadata := mkMetadata {
  md_Network : Network;
  md_Source : Socksaddr;
  md_Destination : Socksaddr;
  md_cred : credID;
  md_credBound : bool;
  md_sniff : option (SniffProto * bytes * SniffFail);
}.

(** [None] is a panic. *)
Definition BindCred (md : Metadata) (r : credID) : option Metadata :=
  if md_credBound md && negb (md_cred md =? Unmatched) then None
  else Some (mkMetadata (md_Network md) (md_Source md) (md_Destination md) r true (md_sniff md)).
Definition SetSniff (md : Metadata) (p : SniffProto) (domain : bytes) (f : SniffFail) : option Metadata :=
  match md_sniff md with
  | Some _ => None
  | None => Some (mkMetadata (md_Network md) (md_Source md) (md_Destination md) (md_cred md) (md_credBound md) (Some (p, domain, f)))
  end.
Definition SniffDomain (md : Metadata) : bytes * bool :=
  match md_sniff md with
  | Some (_, d, _) => (d, negb (bool_decide (d = [])))
  | None => ([], false)
  end.
Definition set_Destination (md : Metadata) (d : Socksaddr) : Metadata :=
  mkMetadata (md_Network md) (md_Source md) d (md_cred md) (md_credBound md) (md_sniff md).

(** As [serveConn] makes it. *)
Definition accepted (src : Socksaddr) : Metadata := mkMetadata NetTCP src (FromIPPort {| ap_addr := AddrZero; ap_port := 0 |}) Unmatched false None.

(** ** Programs *)

(** Streams and packet connections: the accepted connection, a transport layer, the wrappers
    put around them, a stream demultiplexed by a protocol, the two dialled connections. *)
Inductive handle :=
| Raw
| Sub
| Up
| Decoy
| Layer (i : nat) (h : handle)
| Recorded (h : handle)
| Replay (h : handle)
| Proto (h : handle)
| Sniffed (h : handle)
| Metered (h : handle)
| PacketOf (h : handle).
#[export] Instance handle_eq_dec : EqDecision handle.
Proof. solve_decision. Defined.

Inductive hsErr := ErrHandled | ErrHandshake.

Inductive call :=
| SetReadDeadline (h : handle) (armed : bool)
| ServerWrap (i : nat) (h : handle)
| ServerHandshakeOn (h : handle)
| TLSState (h : handle)
| RecordedBytes (h : handle)
| EndPoints (h : handle)
| DialDest (dest : bytes)
| WriteTo (h : handle) (p : bytes)
| SniffOn (h : handle)
| RemoteAddr (h : handle)
| ResolveOut (dst : Socksaddr) (src : AddrPort) (network proto : bytes)
| DialStream (dst : Socksaddr)
| AdmitCall (who : credID) (src : Socksaddr) (closers : list handle)
| ReleaseCall
| RelayCall (a b : handle)
| ServerPacketConn (h : handle) (dst : Socksaddr)
| UdpNAT (h : handle)
| SingMux (h : handle)
| MuxCool (h : handle)
| CloseCall (h : handle).

(** Success of a call that can fail; the protocol's result; the meter's presence when
    admission succeeds. *)
Definition answer (c : call) : Type :=
  match c with
  | SetReadDeadline _ _ | ReleaseCall | CloseCall _ => unit
  | ServerWrap _ _ | DialDest _ | WriteTo _ _ | DialStream _ | ServerPacketConn _ _ => bool
  | ResolveOut _ _ _ _ | RelayCall _ _ | UdpNAT _ | SingMux _ | MuxCool _ => bool
  | ServerHandshakeOn _ => res hsErr Request
  | TLSState _ => bytes * bytes
  | RecordedBytes _ => bytes
  | EndPoints _ => option TCPAddr * option TCPAddr
  | SniffOn _ => SniffProto * bytes * SniffFail
  | RemoteAddr _ => AddrPort
  | AdmitCall _ _ _ => option bool
  end.

Inductive prog (A : Type) : Type :=
| Done (a : A)
| Call (c : call) (k : answer c -> prog A).
Arguments Done {A} _.
Arguments Call {A} _ _.

Fixpoint prog_bind {A B} (f : A -> prog B) (p : prog A) : prog B :=
  match p with
  | Done a => f a
  | Call c k => Call c (fun x => prog_bind f (k x))
  end.
#[export] Instance prog_mbind : MBind prog := @prog_bind.
#[export] Instance prog_mret : MRet prog := @Done.

Definition call_ (c : call) : prog (answer c) := Call c Done.

(** What an inbound returns: nil, an error, or a panic. *)
Inductive errKind :=
| EWrap | EProtocol (e : hsErr) | EDial | EHeader | EResolve | ERejected | ENoPacket | EPacketConn | EEnded.
Inductive result := RNil | RErr (e : errKind) | RPanic.

(** The error of a call that runs to the end of the connection. *)
Definition ended (ok : bool) : result := if ok then RNil else RErr EEnded.

(** *** [Handshake] *)

Inductive hsRes :=
| HsErr (e : errKind)
| HsFallback (below : handle)
| HsPanic
| HsOk (hs : handle) (req : Request) (md : Metadata).

Fixpoint wrapLayers (n i : nat) (below : handle) : prog (option handle) :=
  match n with
  | O => mret (Some below)
  | S n' =>
      ok ← call_ (ServerWrap i below);
      if (ok : bool) then wrapLayers n' (S i) (Layer i below)
      else call_ (CloseCall below);; mret None
  end.

Definition Handshake (h : ProxyInbound) (md : Metadata) : prog hsRes :=
  call_ (SetReadDeadline Raw true);;
  w ← wrapLayers (h_Below h) 0 Raw;
  match w with
  | None => mret (HsErr EWrap)
  | Some below =>
      let input := if hasFallback h then Recorded below else below in
      r ← call_ (ServerHandshakeOn input);
      match (r : res hsErr Request) with
      | Err e =>
          if hasFallback h then call_ (SetReadDeadline Raw false);; mret (HsFallback below)
          else call_ (CloseCall below);; mret (HsErr (EProtocol e))
      | Ok req =>
          call_ (SetReadDeadline Raw false);;
          match BindCred md (r_Cred req) with
          | None => mret HsPanic
          | Some md => mret (HsOk (Proto input) req (set_Destination md (r_Dst req)))
          end
      end
  end.

(** *** [doFallback] *)

Definition doFallback (h : ProxyInbound) (below : handle) : prog result :=
  st ← call_ (TLSState below);
  rec ← call_ (RecordedBytes (Recorded below));
  let '(dest, xver) := selectFallback h st.1 st.2 (httpRequestPath rec) in
  if bool_decide (dest = []) then call_ (CloseCall (Replay below));; mret RNil
  else
    ok ← call_ (DialDest dest);
    if negb ok then call_ (CloseCall (Replay below));; mret (RErr EDial)
    else
      hdr ← (if 0 <? xver then a ← call_ (EndPoints below); mret (proxyProtocolHeader xver a.1 a.2) else mret None);
      sent ← match hdr with Some p => call_ (WriteTo Decoy p) | None => mret true end;
      if negb (sent : bool) then call_ (CloseCall Decoy);; call_ (CloseCall (Replay below));; mret (RErr EHeader)
      else ok ← call_ (RelayCall Decoy (Replay below)); mret (ended ok).

(** *** [HandleStream] *)

(** Admission of a stream, its use in [body], and the deferred release. *)
Definition admit_stream (who : credID) (src : Socksaddr) (s : handle) (closers : list handle)
  (body : handle -> prog result) : prog result :=
  x ← call_ (AdmitCall who src closers);
  match (x : option bool) with
  | None => mret (RErr ERejected)
  | Some metered =>
      r ← body (if metered then Metered s else s);
      call_ ReleaseCall;; mret r
  end.

Section inbound.
(** The carrier domain of the sing-mux library. *)
Context (singMuxFqdn : bytes).

Definition isMuxCarrier (dst : Socksaddr) : bool := IsFqdn dst && bool_decide (Fqdn dst = singMuxFqdn).
Definition isMuxCoolCarrier (dst : Socksaddr) : bool := bool_decide (Fqdn dst = CarrierFqdn).

Definition relayPacket (h : ProxyInbound) (hs : handle) (req : Request) (md : Metadata) : prog result :=
  if negb (h_PacketServer h) then call_ (CloseCall hs);; mret (RErr ENoPacket)
  else
    ok ← call_ (ServerPacketConn hs (r_Dst req));
    if negb ok then call_ (CloseCall hs);; mret (RErr EPacketConn)
    else
      let pc := PacketOf hs in
      admit_stream (r_Cred req) (md_Source md) pc [pc]
        (fun m => ok ← call_ (UdpNAT m); call_ (CloseCall pc);; mret (ended ok)).

Definition relayStream (hs : handle) (req : Request) (dst : Socksaddr) (proto : bytes) (md : Metadata) : prog result :=
  src ← call_ (RemoteAddr Raw);
  ok ← call_ (ResolveOut dst src (bs "tcp") proto);
  if negb ok then call_ (CloseCall hs);; mret (RErr EResolve)
  else
    ok ← call_ (DialStream dst);
    if negb ok then call_ (CloseCall hs);; mret (RErr EDial)
    else
      admit_stream (r_Cred req) (md_Source md) hs [hs; Up]
        (fun m => ok ← call_ (RelayCall m Up); mret (ended ok)).

Definition HandleStream (h : ProxyInbound) (md : Metadata) : prog result :=
  r ← Handshake h md;
  match r with
  | HsFallback below => doFallback h below
  | HsErr (EProtocol ErrHandled) => mret RNil
  | HsErr e => mret (RErr e)
  | HsPanic => mret RPanic
  | HsOk hs req md =>
      if bool_decide (r_Network req = NetTCP) && (isMuxCarrier (r_Dst req) || isMuxCoolCarrier (r_Dst req)) then
        admit_stream (r_Cred req) (md_Source md) hs [hs]
          (fun m => ok ← (if isMuxCarrier (r_Dst req) then call_ (SingMux m) else call_ (MuxCool m)); mret (ended ok))
      else if bool_decide (r_Network req = NetUDP) then relayPacket h hs req md
      else if h_Sniff h && IsIP (r_Dst req) then
        s ← call_ (SniffOn hs);
        let '(proto, domain, fail) := s in
        match SetSniff md proto domain fail with
        | None => mret RPanic
        | Some md =>
            let dst := if bool_decide (domain = []) then r_Dst req else FromFqdn domain (sa_port (r_Dst req)) in
            relayStream (Sniffed hs) req dst (SniffProto_String proto) md
        end
      else relayStream hs req (r_Dst req) [] md
  end.

(** *** Streams that protocols demultiplex themselves *)

(** [streamDispatcher.DispatchStream]. *)
Definition DispatchStream (src : Socksaddr) (dst : Socksaddr) (who : credID) : prog result :=
  ok ← call_ (ResolveOut dst {| ap_addr := AddrZero; ap_port := 0 |} [] []);
  if negb ok then call_ (CloseCall Sub);; mret (RErr EResolve)
  else
    ok ← call_ (DialStream dst);
    if negb ok then call_ (CloseCall Sub);; mret (RErr EDial)
    else admit_stream who src Sub [Sub; Up] (fun m => ok ← call_ (RelayCall m Up); mret (ended ok)).

(** [SessionDispatch]: the stream is admitted without closers. *)
Definition SessionDispatch (who : credID) (src dst : Socksaddr) : prog result :=
  admit_stream who src Sub []
    (fun m =>
       ok ← call_ (DialStream dst);
       if negb ok then call_ (CloseCall m);; mret (RErr EDial)
       else ok ← call_ (RelayCall m Up); mret (ended ok)).

(** [SessionPacketDispatch]; [adm] says whether an admitter is configured. *)
Definition SessionPacketDispatch (adm : bool) (who : credID) (src : Socksaddr) : prog result :=
  let pc := PacketOf Sub in
  r ← (if adm then admit_stream who src pc [pc] (fun m => ok ← call_ (UdpNAT m); mret (ended ok))
       else ok ← call_ (UdpNAT pc); mret (ended ok));
  call_ (CloseCall pc);; mret r.
End inbound.

(** ** The monitor *)

(** A run: the calls made and their answers. *)
Inductive event := Ev (c : call) (x : answer c).

Fixpoint runs {A} (p : prog A) (tr : list event) (a : A) : Prop :=
  match p with
  | Done b => tr = [] /\ a = b
  | Call c k => exists x tr', tr = Ev c x :: tr' /\ runs (k x) tr' a
  end.

(** The connection whose closing a wrapper's [Close] is. *)
Fixpoint base (h : handle) : handle :=
  match h with
  | Recorded h | Replay h | Proto h | Sniffed h | Metered h | PacketOf h => base h
  | _ => h
  end.

(** What is open, whether the handshake deadline is set, and the admission that is held,
    with or without a meter. *)
Record mon := mkMon { m_open : list handle; m_armed : bool; m_grant : option bool }.

(** [x] is [o] or a layer under it: it lives as long as [o] does. *)
Fixpoint under (x o : handle) : bool :=
  bool_decide (x = o) || match o with Layer _ o' => under x o' | _ => false end.
Definition live (m : mon) (h : handle) : bool := existsb (under (base h)) (m_open m).
Definition shut (m : mon) (l : list handle) : mon :=
  mkMon (filter (fun x => x ∉ base <$> l) (m_open m)) (m_armed m) (m_grant m).
Definition opened (m : mon) (h : handle) : option mon :=
  if live m h then None else Some (mkMon (h :: m_open m) (m_armed m) (m_grant m)).
Definition guard {A} (b : bool) (x : A) : option A := if b then Some x else None.

Definition is_metered (h : handle) : bool := match h with Metered _ => true | _ => false end.

(** Traffic of a client flows only on an open connection, without the handshake deadline,
    under an admission and through its meter. *)
Definition flows (m : mon) (h : handle) : bool :=
  live m h && negb (m_armed m) && bool_decide (m_grant m = Some (is_metered h)).

(** A decoy is not admitted. *)
Definition flows_decoy (m : mon) (h : handle) : bool := live m h && negb (m_armed m) && bool_decide (m_grant m = None).

(** [None] is a violation. [RelayCall], [MuxCool] and [SingMux] close what they are given. *)
Definition check (m : mon) (e : event) : option mon :=
  match e with
  | Ev (SetReadDeadline h b) _ => guard (live m h) (mkMon (m_open m) b (m_grant m))
  | Ev (ServerWrap i h) ok =>
      if negb (live m h) || negb (m_armed m) then None
      else if ok then opened (shut m [h]) (Layer i h) else Some m
  | Ev (ServerHandshakeOn h) _ => guard (live m h && m_armed m) m
  | Ev (TLSState h) _ | Ev (RecordedBytes h) _ | Ev (EndPoints h) _ | Ev (SniffOn h) _ | Ev (RemoteAddr h) _
  | Ev (ServerPacketConn h _) _ | Ev (WriteTo h _) _ => guard (live m h) m
  | Ev (ResolveOut _ _ _ _) _ => Some m
  | Ev (DialDest _) ok => if ok then opened m Decoy else Some m
  | Ev (DialStream _) ok => if ok then opened m Up else Some m
  | Ev (AdmitCall _ _ closers) x =>
      if bool_decide (m_grant m = None) && forallb (fun h => bool_decide (h ∈ base <$> closers)) (m_open m) then
        match x with
        | None => Some (shut m closers)
        | Some metered => Some (mkMon (m_open m) (m_armed m) (Some metered))
        end
      else None
  | Ev ReleaseCall _ => guard (negb (bool_decide (m_grant m = None))) (mkMon (m_open m) (m_armed m) None)
  | Ev (RelayCall a b) _ =>
      guard ((if bool_decide (a = Decoy) then flows_decoy m a else flows m a) && live m b) (shut m [a; b])
  | Ev (UdpNAT h) _ => guard (flows m h) m
  | Ev (SingMux h) _ | Ev (MuxCool h) _ => guard (flows m h) (shut m [h])
  | Ev (CloseCall h) _ => Some (shut m [h])
  end.

Arguments check : simpl never.

Fixpoint monitor (m : mon) (tr : list event) : option mon :=
  match tr with
  | [] => Some m
  | e :: tr' => check m e ≫= fun m' => monitor m' tr'
  end.

(** Nothing is left open and nothing is still admitted. *)
Definition clean (m : mon) : Prop := m_open m = [] /\ m_grant m = None.

(** A program that cannot go wrong, whatever is answered. *)
Fixpoint safe {A} (p : prog A) (m : mon) (Q : A -> mon -> Prop) : Prop :=
  match p with
  | Done a => Q a m
  | Call c k => forall x : answer c, match check m (Ev c x) with Some m' => safe (k x) m' Q | None => False end
  end.

Lemma safe_runs {A} (p : prog A) : forall m Q tr a,
  safe p m Q -> runs p tr a -> exists m', monitor m tr = Some m' /\ Q a m'.
Proof.
  induction p as [a|c k IH]; intros m Q tr r Hs Hr; cbn in *.
  - destruct Hr as [-> ->]. by exists m.
  - destruct Hr as (x & tr' & -> & Hr). specialize (Hs x). cbn [monitor].
    destruct (check m (Ev c x)) as [m'|]; [|done]. by eapply IH.
Qed.

Lemma safe_bind {A B} (p : prog A) (f : A -> prog B) : forall m Q,
  safe p m (fun a m' => safe (f a) m' Q) -> safe (p ≫= f) m Q.
Proof.
  induction p as [a|c k IH]; intros m Q Hs; cbn; [done|]. intros x. specialize (Hs x).
  destruct (check m (Ev c x)); [|done]. by apply IH.
Qed.

Lemma safe_call {B} c (k : answer c -> prog B) m Q :
  (forall x, match check m (Ev c x) with Some m' => safe (k x) m' Q | None => False end) -> safe (call_ c ≫= k) m Q.
Proof. done. Qed.

Lemma safe_mono {A} (p : prog A) : forall m (Q Q' : A -> mon -> Prop),
  safe p m Q -> (forall a m', Q a m' -> Q' a m') -> safe p m Q'.
Proof.
  induction p as [a|c k IH]; intros m Q Q' Hs HQ; cbn in *; [by apply HQ|]. intros x. specialize (Hs x).
  destruct (check m (Ev c x)); [|done]. by eapply IH.
Qed.

(** *** Steps of a proof *)

Lemma elem_single {A} (x y : A) : x ∈ [y] <-> x = y.
Proof. apply list_elem_of_singleton. Qed.

Definition is_base (h : handle) : Prop := base h = h.
(** A connection as the layers leave it: over the accepted one, and not a dialled one. *)
Definition own (b : handle) : Prop :=
  is_base b /\ under Raw b = true /\ under Up b = false /\ under Decoy b = false.

Lemma under_refl h : under h h = true.
Proof. destruct h; cbn; by rewrite bool_decide_true. Qed.

Lemma own_ne b : own b -> b <> Up /\ b <> Decoy.
Proof. intros (_ & _ & H1 & H2). split; intros ->; by cbn in *. Qed.

Lemma own_layer i b : own b -> own (Layer i b).
Proof. intros (_ & H1 & H2 & H3). split_and!; [done|..]; cbn; by rewrite bool_decide_false. Qed.

(** The states a connection is in: [b] is its topmost transport layer. *)
Lemma live_own b m h : m_open m = [b] -> base h = b -> live m h = true.
Proof. intros E <-. unfold live. rewrite E. cbn. by rewrite under_refl. Qed.

Lemma live_raw b armed g : own b -> live (mkMon [b] armed g) Raw = true.
Proof. intros (_ & H & _). unfold live. cbn. by rewrite H. Qed.

Lemma shut_own b armed g h : base h = b -> shut (mkMon [b] armed g) [h] = mkMon [] armed g.
Proof.
  intros <-. unfold shut. cbn [m_open m_armed m_grant]. rewrite filter_cons. destruct (decide _) as [Hd|]; [|done].
  exfalso. apply Hd, elem_single. done.
Qed.

Lemma shut_two x b armed g h1 h2 :
  base h1 = b -> base h2 = x -> shut (mkMon [x; b] armed g) [h1; h2] = mkMon [] armed g.
Proof.
  intros <- <-. unfold shut. cbn [m_open m_armed m_grant]. rewrite !filter_cons.
  destruct (decide _) as [Hd|]; [exfalso; apply Hd; set_solver|].
  destruct (decide _) as [Hd|]; [exfalso; apply Hd; set_solver|]. done.
Qed.

Lemma shut_two' x b armed g h1 h2 :
  base h1 = b -> base h2 = x -> shut (mkMon [x; b] armed g) [h2; h1] = mkMon [] armed g.
Proof.
  intros <- <-. unfold shut. cbn [m_open m_armed m_grant]. rewrite !filter_cons.
  destruct (decide _) as [Hd|]; [exfalso; apply Hd; set_solver|].
  destruct (decide _) as [Hd|]; [exfalso; apply Hd; set_solver|]. done.
Qed.

Lemma shut_one x b armed g h : base h = x -> x <> b -> shut (mkMon [x; b] armed g) [h] = mkMon [b] armed g.
Proof.
  intros <- Hne. unfold shut. cbn [m_open m_armed m_grant]. rewrite !filter_cons.
  destruct (decide _) as [Hd|]; [exfalso; apply Hd; set_solver|].
  destruct (decide _) as [Hd|Hd]; [done|]. exfalso. apply Hd. set_solver.
Qed.

Lemma opened_up x b armed g : is_base x -> under x b = false -> opened (mkMon [b] armed g) x = Some (mkMon [x; b] armed g).
Proof. intros Hx Hne. unfold opened, live. cbn [m_open existsb]. by rewrite Hx, Hne. Qed.

Lemma opened_none x armed g : opened (mkMon [] armed g) x = Some (mkMon [x] armed g).
Proof. done. Qed.

(** The layers are put on one by one, under the deadline; a failure closes the lot. *)
Lemma wrapLayers_safe n : forall i b,
  own b ->
  safe (wrapLayers n i b) (mkMon [b] true None)
    (fun w m => match w with Some b' => own b' /\ m = mkMon [b'] true None | None => m_open m = [] /\ m_grant m = None end).
Proof.
  induction n as [|n IH]; intros i b Hb; cbn [wrapLayers]; [by cbn|]. intros ok. unfold check at 1.
  rewrite (live_own b) by (done || apply Hb). cbn [negb orb m_armed].
  destruct ok.
  - rewrite (shut_own b) by apply Hb. rewrite opened_none. cbn. apply IH. by apply own_layer.
  - cbn. intros []. unfold check. rewrite (shut_own b) by apply Hb. by cbn.
Qed.

(** Rules for the calls that follow a handshake, on a connection whose topmost layer is [b]. *)

Lemma safe_close {B} (k : unit -> prog B) h b armed g Q :
  base h = b -> safe (k tt) (mkMon [] armed g) Q -> safe (x ← call_ (CloseCall h); k x) (mkMon [b] armed g) Q.
Proof. intros Hb Hk []. unfold check. by rewrite (shut_own b). Qed.

Lemma safe_observe {B} c (k : answer c -> prog B) h b armed g Q :
  (forall m x, check m (Ev c x) = guard (live m h) m) -> base h = b ->
  (forall x, safe (k x) (mkMon [b] armed g) Q) -> safe (x ← call_ c; k x) (mkMon [b] armed g) Q.
Proof. intros Hc Hb Hk x. rewrite Hc, (live_own b) by done. apply Hk. Qed.

Lemma safe_admit who src s closers (body : handle -> prog result) l armed Q :
  (forall x, x ∈ l -> x ∈ base <$> closers) ->
  safe (mret (RErr ERejected) : prog result) (mkMon [] armed None) Q ->
  (forall metered, safe (r ← body (if (metered : bool) then Metered s else s); call_ ReleaseCall;; mret r)
                     (mkMon l armed (Some metered)) Q) ->
  safe (admit_stream who src s closers body) (mkMon l armed None) Q.
Proof.
  intros Hl Hr Hb. unfold admit_stream. intros x. unfold check. cbn [m_open m_grant m_armed].
  rewrite bool_decide_true by done.
  assert (forallb (fun h => bool_decide (h ∈ base <$> closers)) l = true) as ->.
  { apply forallb_forall. intros y Hy%list_elem_of_In. by apply bool_decide_true, Hl. }
  cbn [andb]. destruct x as [metered|]; [apply Hb|].
  replace (shut _ closers) with (mkMon [] armed None); [done|]. unfold shut. cbn [m_open m_armed m_grant]. f_equal.
  symmetry. apply elem_of_nil_inv. intros y [Hn Hy]%list_elem_of_filter. by apply Hn, Hl.
Qed.

Lemma safe_release {A} (r : A) l armed metered (Q : A -> mon -> Prop) :
  Q r (mkMon l armed None) -> safe (call_ ReleaseCall;; mret r) (mkMon l armed (Some metered)) Q.
Proof. intros HQ []. unfold check. cbn. done. Qed.

(** Where a client's traffic may flow. *)
Lemma flows_own l h b (metered : bool) :
  b ∈ l -> base h = b -> is_metered h = false -> flows (mkMon l false (Some metered)) (if metered then Metered h else h) = true.
Proof.
  intros Hl Hb Hm. unfold flows, live. cbn [m_open m_armed m_grant].
  assert (base (if metered then Metered h else h) = b) as -> by (by destruct metered).
  assert (existsb (under b) l = true) as ->.
  { apply existsb_exists. exists b. split; [by apply list_elem_of_In|apply under_refl]. }
  cbn [negb andb]. apply bool_decide_true. f_equal. by destruct metered.
Qed.

Lemma admit_relay_safe who src hs b :
  base hs = b -> is_metered hs = false -> hs <> Decoy ->
  safe (admit_stream who src hs [hs; Up] (fun m => ok ← call_ (RelayCall m Up); mret (ended ok)))
    (mkMon [Up; b] false None) (fun r m => clean m /\ r <> RPanic).
Proof.
  intros Hb Hm Hd. apply safe_admit.
  - intros x Hx. cbn. rewrite Hb. set_solver.
  - done.
  - intros metered. apply safe_bind, safe_call. apply safe_call. intros ok. unfold check.
    rewrite bool_decide_false by (by destruct metered). rewrite (flows_own _ hs b) by (done || set_solver).
    change (live (mkMon [Up; b] false (Some metered)) Up) with true.
    cbn [andb guard]. rewrite shut_two by (by destruct metered).
    apply safe_release. split; [done|by destruct ok].
Qed.

Lemma relayStream_safe hs req dst proto md b :
  own b -> base hs = b -> is_metered hs = false -> hs <> Decoy ->
  safe (relayStream hs req dst proto md) (mkMon [b] false None) (fun r m => clean m /\ r <> RPanic).
Proof.
  intros Hb Hhs Hm Hd. unfold relayStream. apply safe_call. intros src. unfold check at 1. rewrite (live_raw b) by done. cbn [guard].
  apply safe_call. intros ok. unfold check at 1. destruct ok; cbn [negb].
  2: { by apply (safe_close (fun _ => mret (RErr EResolve)) hs b). }
  apply safe_call. intros ok. unfold check at 1. destruct ok; cbn [negb].
  - rewrite opened_up by (done || apply Hb). by apply admit_relay_safe.
  - by apply (safe_close (fun _ => mret (RErr EDial)) hs b).
Qed.

Lemma relayPacket_safe h hs req md b :
  own b -> base hs = b ->
  safe (relayPacket h hs req md) (mkMon [b] false None) (fun r m => clean m /\ r <> RPanic).
Proof.
  intros Hb Hhs. unfold relayPacket. destruct (h_PacketServer h); cbn [negb].
  2: { by apply (safe_close (fun _ => mret (RErr ENoPacket)) hs b). }
  apply safe_call. intros ok. unfold check at 1. rewrite (live_own b) by done. cbn [guard]. destruct ok; cbn [negb].
  2: { by apply (safe_close (fun _ => mret (RErr EPacketConn)) hs b). }
  apply safe_admit.
  - intros x Hx. cbn. rewrite Hhs. set_solver.
  - done.
  - intros metered. apply safe_bind, safe_call. apply safe_call. intros ok. unfold check at 1. rewrite (flows_own _ (PacketOf hs) b) by (done || set_solver). cbn [guard].
    apply safe_call. intros []. unfold check at 1. rewrite (shut_own b) by done. apply safe_release. split; [done|by destruct ok].
Qed.

Lemma doFallback_safe h b :
  own b -> safe (doFallback h b) (mkMon [b] false None) (fun r m => clean m /\ r <> RPanic).
Proof.
  intros Hb. pose proof (own_ne b Hb) as [_ Hd]. assert (base b = b) as Hbb by apply Hb.
  unfold doFallback. apply safe_call. intros st. unfold check at 1. rewrite (live_own b) by done. cbn [guard].
  apply safe_call. intros rec. unfold check at 1. rewrite (live_own b) by done. cbn [guard].
  destruct (selectFallback _ _ _ _) as [dest xver]. case_bool_decide.
  { by apply (safe_close (fun _ => mret RNil) (Replay b) b). }
  apply safe_call. intros ok. unfold check at 1. destruct ok; cbn [negb].
  2: { by apply (safe_close (fun _ => mret (RErr EDial)) (Replay b) b). }
  rewrite opened_up by (done || apply Hb).
  assert (forall r, safe (sent ← (mret r : prog bool); if negb sent then call_ (CloseCall Decoy);; call_ (CloseCall (Replay b));; mret (RErr EHeader)
            else ok ← call_ (RelayCall Decoy (Replay b)); mret (ended ok))
            (mkMon [Decoy; b] false None) (fun r m => clean m /\ r <> RPanic)) as Hrest.
  { intros [|]; cbn [negb mret prog_mret].
    - apply safe_call. intros ok. unfold check. rewrite bool_decide_true by done.
      change (flows_decoy (mkMon [Decoy; b] false None) Decoy) with true.
      assert (live (mkMon [Decoy; b] false None) (Replay b) = true) as ->.
      { unfold live. cbn. by rewrite Hbb, under_refl, orb_true_r. }
      cbn [andb guard]. rewrite shut_two' by done. split; [done|by destruct ok].
    - apply safe_call. intros []. unfold check at 1. rewrite shut_one by done. apply safe_call. intros []. unfold check at 1. rewrite (shut_own b) by done. done. }
  destruct (0 <? xver); [|exact (Hrest true)].
  apply safe_call. intros a. unfold check at 1. assert (live (mkMon [Decoy; b] false None) b = true) as ->.
  { unfold live. cbn. by rewrite Hbb, under_refl, orb_true_r. }
  cbn [guard]. cbn [mret prog_mret mbind prog_mbind prog_bind]. destruct (proxyProtocolHeader _ _ _) as [p|]; [|exact (Hrest true)].
  apply safe_call. intros sent. unfold check at 1. change (live (mkMon [Decoy; b] false None) Decoy) with true. cbn [guard].
  exact (Hrest sent).
Qed.

(** A handshake ends with the connection closed, or open without its deadline. *)
Lemma Handshake_safe h md :
  md_credBound md = false ->
  safe (Handshake h md) (mkMon [Raw] false None)
    (fun r m => match r with
                | HsErr _ => clean m
                | HsFallback b => own b /\ m = mkMon [b] false None
                | HsPanic => False
                | HsOk hs req md' =>
                    exists b, own b /\ base hs = b /\ is_metered hs = false /\ hs <> Decoy /\ m = mkMon [b] false None /\
                      md_sniff md' = md_sniff md
                end).
Proof.
  intros Hmd. unfold Handshake. apply safe_call. intros []. unfold check at 1. cbn [live existsb guard].
  apply safe_bind. eapply safe_mono; [by apply (wrapLayers_safe (h_Below h) 0 Raw)|].
  intros [b|] m; [|by intros [? ?]]. intros [Hb ->]. assert (base b = b) as Hbb by apply Hb.
  assert (base (if hasFallback h then Recorded b else b) = b) as Hin by (by destruct (hasFallback h)).
  apply safe_call. intros r. unfold check at 1. rewrite (live_own b) by done. cbn [m_armed andb guard].
  destruct r as [req|e].
  - apply safe_call. intros []. unfold check at 1. rewrite (live_raw b) by done. cbn [guard].
    unfold BindCred. rewrite Hmd. cbn [andb]. exists b. by split_and!.
  - destruct (hasFallback h).
    + apply safe_call. intros []. unfold check at 1. rewrite (live_raw b) by done. cbn [guard]. done.
    + apply (safe_close (fun _ => mret (HsErr (EProtocol e))) b b); done.
Qed.

Section handling.
Context (singMuxFqdn : bytes).

Lemma HandleStream_ok h md :
  md_credBound md = false -> md_sniff md = None ->
  safe (HandleStream singMuxFqdn h md) (mkMon [Raw] false None) (fun r m => clean m /\ r <> RPanic).
Proof.
  intros Hc Hs. unfold HandleStream. apply safe_bind. eapply safe_mono; [by apply Handshake_safe|].
  intros [e|b| |hs req md'] m; cbn beta iota.
  - intros Hm. destruct e as [|[|]| | | | | | |]; by split.
  - intros [Hb ->]. by apply doFallback_safe.
  - done.
  - intros (b & Hb & Hhs & Hm & Hd & -> & Hs'). destruct (bool_decide (r_Network req = NetTCP) && _);
      [|destruct (bool_decide (r_Network req = NetUDP)); [|destruct (h_Sniff h && _)]].
    + apply safe_admit; [intros x Hx; cbn; rewrite Hhs; set_solver|done|].
      intros metered. apply safe_bind, safe_bind. destruct (isMuxCarrier _ _); intros ok;
        unfold check at 1; rewrite (flows_own _ hs b) by (done || set_solver); cbn [guard];
        rewrite (shut_own b) by (by destruct metered); apply safe_release; (split; [done|by destruct ok]).
    + by apply relayPacket_safe.
    + apply safe_call. intros [[proto domain] fail]. unfold check at 1. rewrite (live_own b) by done. cbn [guard].
      unfold SetSniff. rewrite Hs', Hs. by apply (relayStream_safe _ _ _ _ _ b).
    + by apply (relayStream_safe _ _ _ _ _ b).
Qed.

End handling.

(** The streams a protocol demultiplexes are handled as cleanly, as are its packet
    connections when an admitter is configured. *)
Lemma sub_relay_safe who src :
  safe (admit_stream who src Sub [Sub; Up] (fun m => ok ← call_ (RelayCall m Up); mret (ended ok)))
    (mkMon [Up; Sub] false None) (fun r m => clean m /\ r <> RPanic).
Proof. by apply (admit_relay_safe who src Sub Sub). Qed.

Theorem DispatchStream_clean src dst who tr r :
  runs (DispatchStream src dst who) tr r ->
  exists m, monitor (mkMon [Sub] false None) tr = Some m /\ clean m /\ r <> RPanic.
Proof.
  apply (safe_runs _ _ (fun r m => clean m /\ r <> RPanic)). unfold DispatchStream. apply safe_call. intros ok. unfold check at 1.
  destruct ok; cbn [negb]; [|by apply (safe_close (fun _ => mret (RErr EResolve)) Sub Sub)].
  apply safe_call. intros ok. unfold check at 1.
  destruct ok; cbn [negb]; [|by apply (safe_close (fun _ => mret (RErr EDial)) Sub Sub)].
  apply sub_relay_safe.
Qed.

Theorem SessionPacketDispatch_clean who src tr r :
  runs (SessionPacketDispatch true who src) tr r ->
  exists m, monitor (mkMon [Sub] false None) tr = Some m /\ clean m /\ r <> RPanic.
Proof.
  apply (safe_runs _ _ (fun r m => clean m /\ r <> RPanic)). unfold SessionPacketDispatch. apply safe_bind, safe_admit.
  - intros x Hx. cbn. set_solver.
  - intros []. unfold check. done.
  - intros metered. apply safe_bind, safe_call. intros ok. unfold check at 1.
    rewrite (flows_own _ (PacketOf Sub) Sub) by (done || set_solver). cbn [guard].
    apply safe_release. apply safe_call. intros []. unfold check at 1. rewrite (shut_own Sub) by done.
    split; [done|by destruct ok].
Qed.

(** ** Where the code departs from what it says *)

Module Findings.

(** [SessionDispatch] admits a stream without closers, so no run of it satisfies the monitor:
    neither a refusal nor the kill switch can close the stream. *)
Theorem session_dispatch_unguarded who src dst tr r :
  runs (SessionDispatch who src dst) tr r -> monitor (mkMon [Sub] false None) tr = None.
Proof. intros (x & tr' & -> & _). done. Qed.

(** A refused session stream is left open. *)
Example session_refused_left_open :
  runs (SessionDispatch Ambient (FromFqdn [] 0) (FromFqdn (bs "a") 1))
    [Ev (AdmitCall Ambient (FromFqdn [] 0) []) None] (RErr ERejected).
Proof. exists None, []. done. Qed.

(** A connection the protocol has handled itself ([ErrHandled]) is handed to the decoy all the
    same when a fallback is configured: the decoy is dialled and gets everything the client
    had sent. *)
Theorem handled_goes_to_decoy mux dest src sni alpn sent :
  dest <> [] ->
  let h := mkInbound 0 false dest [] false in
  let tr := [Ev (SetReadDeadline Raw true) tt; Ev (ServerHandshakeOn (Recorded Raw)) (Err ErrHandled);
             Ev (SetReadDeadline Raw false) tt; Ev (TLSState Raw) (sni, alpn); Ev (RecordedBytes (Recorded Raw)) sent;
             Ev (DialDest dest) true; Ev (RelayCall Decoy (Replay Raw)) true] in
  runs (HandleStream mux h (accepted src)) tr RNil.
Proof.
  intros Hd h tr. assert (hasFallback h = true) as Hf by (unfold hasFallback; cbn; by rewrite bool_decide_false).
  assert (forall path, selectFallback h sni alpn path = (dest, 0)) as Hsel.
  { intros path. unfold selectFallback, fallbackRules. cbn. by rewrite bool_decide_false. }
  unfold HandleStream, Handshake. rewrite Hf. exists tt, (tl tr). split; [done|].
  exists (Err ErrHandled), (tl (tl tr)). split; [done|]. exists tt, (tl (tl (tl tr))). split; [done|].
  exists (sni, alpn), (tl (tl (tl (tl tr)))). split; [done|]. exists sent, (tl (tl (tl (tl (tl tr))))). split; [done|].
  cbn -[selectFallback h tr tl]. rewrite Hsel, bool_decide_false by done.
  exists true, [Ev (RelayCall Decoy (Replay Raw)) true]. split; [done|]. cbn. by exists true, [].
Qed.

(** Whether the type of a stream carries a TLS connection: of the layers, the TLS-like ones;
    [recordStream] embeds a plain stream and has no such method. *)
Definition carriesTLS (tls : nat -> bool) (h : handle) : bool :=
  match h with Layer i _ => tls i | _ => false end.

(** VLESS Vision is refused behind a fallback: whatever the layers, no handshake on a recorded
    stream ends in a Vision stream. *)
Theorem no_vision_behind_fallback tls vis auth b s v req s' :
  run (Vless.ServerHandshake (mkBelow (carriesTLS tls (Recorded b)) vis) auth) s = (Ok (v, req), s') ->
  v = ServerStream false.
Proof.
  unfold Vless.ServerHandshake. intros (h & s1 & _ & Hr)%run_bind_ok.
  destruct (auth _ _) as [ref|]; [|done]. case_bool_decide; [|by injection Hr].
  case_bool_decide; [done|]. unfold serverVision in Hr. cbn in Hr. done.
Qed.

(** The same handshake on the layer itself does end in one. *)
Example vision_without_fallback :
  (run (Vless.ServerHandshake (mkBelow (carriesTLS (fun _ => true) (Layer 0 Raw)) true) (fun _ _ => Some 7))
     (mkStream (x00 :: replicate 16 x11 ++ [x12] ++ encodeFlowAddon flowVision ++ [x01; x01; xbb; x01; x01; x02; x03; x04]) [] [])).1
  = Ok (VisionStream (ServerStream false),
        mkRequest (FromIPPort {| ap_addr := addr "1.2.3.4"; ap_port := 443 |}) 7 NetTCP x01).
Proof. vm_compute. reflexivity. Qed.

End Findings.

(** ** A TLS connection, sniffed and relayed *)

Module Examples.

Definition inbound : ProxyInbound := mkInbound 1 true (bs "127.0.0.1:8080") [] true.
Definition client : Socksaddr := FromIPPort {| ap_addr := addr "203.0.113.9"; ap_port := 51000 |}.
Definition req : Request := mkRequest (FromIPPort {| ap_addr := addr "1.2.3.4"; ap_port := 443 |}) 7 NetTCP x01.
Definition hs : handle := Proto (Recorded (Layer 0 Raw)).
Definition tr : list event :=
  [Ev (SetReadDeadline Raw true) tt; Ev (ServerWrap 0 Raw) true; Ev (ServerHandshakeOn (Recorded (Layer 0 Raw))) (Ok req);
   Ev (SetReadDeadline Raw false) tt; Ev (SniffOn hs) (SniffTLS, bs "example.com", SniffFailNone);
   Ev (RemoteAddr Raw) {| ap_addr := addr "203.0.113.9"; ap_port := 51000 |};
   Ev (ResolveOut (FromFqdn (bs "example.com") 443) {| ap_addr := addr "203.0.113.9"; ap_port := 51000 |} (bs "tcp") (bs "tls")) true;
   Ev (DialStream (FromFqdn (bs "example.com") 443)) true; Ev (AdmitCall 7 client [Sniffed hs; Up]) (Some true);
   Ev (RelayCall (Metered (Sniffed hs)) Up) true; Ev ReleaseCall tt].

Lemma tr_runs : runs (HandleStream (bs "sp.mux.sing-box.arpa") inbound (accepted client)) tr RNil.
Proof. repeat (eexists _, _; split; [reflexivity|]). done. Qed.


End Examples.
