(* ===== verification/UdpNat.v ===== *)
(** * The UDP NAT ([service/udpnat.go])

    One client packet connection, split by destination over outbound packet connections.
    The forwarding goroutine and one reverse goroutine per outbound connection take the
    steps of [nstep]; dialling, writing and receiving go as the environment decides. *)
From stdpp Require Import relations.
From S2P Require Import Prelude GoStd Netip Socksaddr AddrText Sniff.
From Stdlib Require Import Init.Byte.

Definition maxUDPTargets : nat := 512.

(** A reverse goroutine: the destination its connection was dialled for, and the datagram it
    has read and not yet written to the client. *)
Record reverse := mkReverse { rv_fallback : Socksaddr; rv_pending : option (Socksaddr * bytes) }.

Record udpNat := mkNat {
  n_conns : gmap bytes nat;                  (* by destination text *)
  n_shared : option nat;                     (* the full-cone connection *)
  n_next : nat;                              (* connections dialled so far *)
  n_rev : gmap nat reverse;                  (* running reverse goroutines *)
  n_closed : gset nat;
  n_sent : list (nat * Socksaddr * bytes);   (* written to outbound connections *)
  n_client : list (Socksaddr * bytes);       (* written to the client *)
  n_done : bool;                             (* the forwarding loop has returned *)
}.

Definition new_nat : udpNat := mkNat ∅ None 0 ∅ ∅ [] [] false.

(** What resolving and dialling a destination gives: nothing, a connection to that
    destination, or a full-cone connection. *)
Inductive dialRes := DialNo | DialTarget | DialFullCone.
Inductive natErr := errTooManyTargets | errDial.

Definition known (n : udpNat) (dst : Socksaddr) : bool :=
  match n_shared n with
  | Some _ => true
  | None => bool_decide (is_Some (n_conns n !! Socksaddr_String dst))
  end.

(** [conn]; [d proto] is the outcome of resolving with the sniffed protocol and dialling. *)
Definition conn (n : udpNat) (dst : Socksaddr) (proto : bytes) (d : bytes -> dialRes) : res natErr nat * udpNat :=
  let key := Socksaddr_String dst in
  match n_shared n with
  | Some c => (Ok c, n)
  | None =>
      match n_conns n !! key with
      | Some c => (Ok c, n)
      | None =>
          if (maxUDPTargets <=? size (n_conns n))%nat then (Err errTooManyTargets, n)
          else
            let c := n_next n in
            let rev := <[c := mkReverse dst None]> (n_rev n) in
            match d proto with
            | DialNo => (Err errDial, n)
            | DialFullCone =>
                (Ok c, mkNat (n_conns n) (Some c) (S c) rev (n_closed n) (n_sent n) (n_client n) (n_done n))
            | DialTarget =>
                (Ok c, mkNat (<[key := c]> (n_conns n)) None (S c) rev (n_closed n) (n_sent n) (n_client n) (n_done n))
            end
      end
  end.

(** One turn of the forwarding loop: a datagram of the client; [wok] says whether the write to
    the outbound connection succeeds. *)
Definition forward (n : udpNat) (dst : Socksaddr) (p : bytes) (d : bytes -> dialRes) (wok : bool) : udpNat :=
  let proto := if known n dst then [] else SniffProto_String (default SniffNone (sniffPacket p)) in
  match conn n dst proto d with
  | (Err _, n) => n
  | (Ok c, n) =>
      if wok then mkNat (n_conns n) (n_shared n) (n_next n) (n_rev n) (n_closed n) (n_sent n ++ [(c, dst, p)]) (n_client n) (n_done n)
      else n
  end.

Definition with_rev (n : udpNat) (r : gmap nat reverse) : udpNat :=
  mkNat (n_conns n) (n_shared n) (n_next n) r (n_closed n) (n_sent n) (n_client n) (n_done n).

(** The source a reply is given: the connection's destination when it names none. *)
Definition reply_src (fallback src : Socksaddr) : Socksaddr := if Socksaddr_IsValid src then src else fallback.

Definition closeAll (n : udpNat) : udpNat :=
  mkNat (n_conns n) (n_shared n) (n_next n) (n_rev n)
    (n_closed n ∪ list_to_set (map_to_list (n_conns n)).*2 ∪ match n_shared n with Some c => {[c]} | None => ∅ end)
    (n_sent n) (n_client n) true.

Inductive nstep : udpNat -> udpNat -> Prop :=
(** the forwarding loop *)
| ns_forward n dst p d wok : n_done n = false -> nstep n (forward n dst p d wok)
| ns_end n : n_done n = false -> nstep n (closeAll n)
(** a reverse goroutine: a datagram read, a failed read, a write to the client *)
| ns_read n c fb src p :
    n_rev n !! c = Some (mkReverse fb None) -> c ∉ n_closed n ->
    nstep n (with_rev n (<[c := mkReverse fb (Some (reply_src fb src, p))]> (n_rev n)))
| ns_read_err n c fb : n_rev n !! c = Some (mkReverse fb None) -> nstep n (with_rev n (delete c (n_rev n)))
| ns_write n c fb src p :
    n_rev n !! c = Some (mkReverse fb (Some (src, p))) ->
    nstep n (mkNat (n_conns n) (n_shared n) (n_next n) (<[c := mkReverse fb None]> (n_rev n)) (n_closed n) (n_sent n)
               (n_client n ++ [(src, p)]) (n_done n))
| ns_write_err n c fb src p :
    n_rev n !! c = Some (mkReverse fb (Some (src, p))) -> nstep n (with_rev n (delete c (n_rev n))).

(** ** The invariant *)

Record nat_inv (n : udpNat) : Prop := {
  (** at most 512 destinations, each with a connection of its own *)
  ni_size : (size (n_conns n) <= maxUDPTargets)%nat;
  ni_conns : forall k c, n_conns n !! k = Some c -> (c < n_next n)%nat;
  ni_inj : forall k k' c, n_conns n !! k = Some c -> n_conns n !! k' = Some c -> k = k';
  ni_shared : forall c, n_shared n = Some c -> (c < n_next n)%nat /\ forall k, n_conns n !! k <> Some c;
  (** every connection dialled is one of them *)
  ni_all : forall c, (c < n_next n)%nat -> n_shared n = Some c \/ exists k, n_conns n !! k = Some c;
  (** a datagram goes to the connection of its destination, or to the shared one *)
  ni_sent : forall c dst p, (c, dst, p) ∈ n_sent n -> n_shared n = Some c \/ n_conns n !! Socksaddr_String dst = Some c;
  ni_rev : forall c r, n_rev n !! c = Some r -> (c < n_next n)%nat;
  (** the end closes everything *)
  ni_done : n_done n = true -> forall c, (c < n_next n)%nat -> c ∈ n_closed n;
}.

Lemma new_nat_inv : nat_inv new_nat.
Proof.
  split; cbn [new_nat n_conns n_shared n_next n_sent n_rev n_done n_closed].
  - rewrite map_size_empty. lia.
  - intros k c. by rewrite lookup_empty.
  - intros k k' c. by rewrite lookup_empty.
  - done.
  - lia.
  - by intros c dst p ?%not_elem_of_nil.
  - intros c r. by rewrite lookup_empty.
  - done.
Qed.

(** A connection that is not there yet can be added, to the table or as the shared one. *)
Lemma nat_inv_target n dst :
  nat_inv n -> n_shared n = None -> n_conns n !! Socksaddr_String dst = None ->
  (size (n_conns n) < maxUDPTargets)%nat -> n_done n = false ->
  nat_inv (mkNat (<[Socksaddr_String dst := n_next n]> (n_conns n)) None (S (n_next n))
             (<[n_next n := mkReverse dst None]> (n_rev n)) (n_closed n) (n_sent n) (n_client n) (n_done n)).
Proof.
  intros [H1 H2 H3 H4 H5 H6 H7 H8] Hs Hk Hsz Hd. set (key := Socksaddr_String dst) in *.
  assert (forall k, n_conns n !! k <> Some (n_next n)) as Hfresh by (intros k Hc%H2; lia).
  split; cbn.
  - rewrite map_size_insert_None by done. lia.
  - intros k c [[_ <-]|[_ Hc%H2]]%lookup_insert_Some; lia.
  - intros k k' c H H'. apply lookup_insert_Some in H as [[<- <-]|[_ Hc]]; apply lookup_insert_Some in H' as [[<- Hc']|[_ Hc']].
    + done.
    + by apply Hfresh in Hc'.
    + subst c. by apply Hfresh in Hc.
    + by eapply H3.
  - done.
  - intros c Hc. right. destruct (decide (c = n_next n)) as [->|Hne]; [exists key; by rewrite lookup_insert_eq|].
    destruct (H5 c) as [?|[k Hk']]; [lia|congruence|]. exists k. rewrite lookup_insert_ne; [done|]. congruence.
  - intros c dst' p Hin. right. destruct (H6 c dst' p Hin) as [?|Hc]; [congruence|].
    rewrite lookup_insert_ne; [done|]. congruence.
  - intros c r [[<- _]|[_ Hr%H7]]%lookup_insert_Some; lia.
  - congruence.
Qed.

Lemma nat_inv_shared n dst :
  nat_inv n -> n_shared n = None -> n_done n = false ->
  nat_inv (mkNat (n_conns n) (Some (n_next n)) (S (n_next n))
             (<[n_next n := mkReverse dst None]> (n_rev n)) (n_closed n) (n_sent n) (n_client n) (n_done n)).
Proof.
  intros [H1 H2 H3 H4 H5 H6 H7 H8] Hs Hd.
  split; cbn; [done|intros k c Hc%H2; lia|done| | | | |congruence].
  - intros c [= <-]. split; [lia|]. intros k Hk%H2. lia.
  - intros c Hc. destruct (decide (c = n_next n)) as [->|Hne]; [by left|]. right.
    destruct (H5 c) as [?|?]; [lia|congruence|done].
  - intros c dst' p Hin. right. destruct (H6 c dst' p Hin) as [?|?]; [congruence|done].
  - intros c r [[<- _]|[_ Hr%H7]]%lookup_insert_Some; lia.
Qed.

(** [conn] keeps the invariant and finds the connection of the destination. *)
Lemma conn_inv n dst proto d r n' :
  nat_inv n -> n_done n = false -> conn n dst proto d = (r, n') ->
  nat_inv n' /\ n_done n' = false /\ n_sent n' = n_sent n /\
  (forall c, r = Ok c -> n_shared n' = Some c \/ n_conns n' !! Socksaddr_String dst = Some c).
Proof.
  intros I Hd. unfold conn. destruct (n_shared n) as [c|] eqn:Es.
  { intros [= <- <-]. split_and!; try done. intros c' [= <-]. by left. }
  destruct (n_conns n !! Socksaddr_String dst) as [c|] eqn:Ek.
  { intros [= <- <-]. split_and!; try done. intros c' [= <-]. by right. }
  destruct (maxUDPTargets <=? size (n_conns n))%nat eqn:Em; [by intros [= <- <-]|]. apply Nat.leb_gt in Em.
  destruct (d proto); intros [= <- <-].
  - by split_and!.
  - split_and!; [by apply nat_inv_target|done|done|]. intros c [= <-]. right. cbn. apply lookup_insert_eq.
  - split_and!; [by apply nat_inv_shared|done|done|]. intros c [= <-]. by left.
Qed.

(** Changes of the reverse goroutines and of what the client got. *)
Lemma nat_inv_rev n rev client :
  nat_inv n -> (forall c r, rev !! c = Some r -> (c < n_next n)%nat) ->
  nat_inv (mkNat (n_conns n) (n_shared n) (n_next n) rev (n_closed n) (n_sent n) client (n_done n)).
Proof. by intros [] Hr; split. Qed.

Lemma rev_insert n c r r' :
  nat_inv n -> n_rev n !! c = Some r -> forall c' x, <[c := r']> (n_rev n) !! c' = Some x -> (c' < n_next n)%nat.
Proof. intros I Hr c' x [[<- _]|[_ Hx]]%lookup_insert_Some; by eapply ni_rev. Qed.

Lemma nat_inv_closeAll n : nat_inv n -> nat_inv (closeAll n).
Proof.
  intros [H1 H2 H3 H4 H5 H6 H7 H8]. split; cbn; try done. intros _ c Hc. destruct (H5 c Hc) as [-> | [k Hk]]; [set_solver|].
  apply elem_of_union_l, elem_of_union_r, elem_of_list_to_set, list_elem_of_fmap. exists (k, c).
  split; [done|by apply elem_of_map_to_list].
Qed.

Lemma nat_inv_step n n' : nat_inv n -> nstep n n' -> nat_inv n'.
Proof.
  intros I Hs. destruct Hs as [n dst p d wok Hd|n Hd|n c fb src p Hr Hc|n c fb Hr|n c fb src p Hr|n c fb src p Hr].
  - unfold forward. destruct (conn n dst _ d) as [r n'] eqn:Ec.
    destruct (conn_inv _ _ _ _ _ _ I Hd Ec) as (I' & Hd' & Hs & Hr). destruct r as [c|e]; [|done].
    destruct wok; [|done]. destruct I' as [H1 H2 H3 H4 H5 H6 H7 H8]. split; cbn; try done.
    intros c' dst' p' [Hin|Hin]%elem_of_app; [by apply H6 in Hin|]. apply list_elem_of_singleton in Hin. simplify_eq. by apply Hr.
  - by apply nat_inv_closeAll.
  - apply nat_inv_rev; [done|]. by eapply rev_insert.
  - apply nat_inv_rev; [done|]. intros c' x [_ Hx]%lookup_delete_Some. by eapply ni_rev.
  - apply nat_inv_rev; [done|]. by eapply rev_insert.
  - apply nat_inv_rev; [done|]. intros c' x [_ Hx]%lookup_delete_Some. by eapply ni_rev.
Qed.

(** Connections are counted by the table. *)
Lemma nat_inv_count n : nat_inv n -> (n_next n <= maxUDPTargets + 1)%nat.
Proof.
  intros I. pose proof (ni_size n I) as Hsz.
  assert (seq 0 (n_next n) ⊆+ (map_to_list (n_conns n)).*2 ++ option_list (n_shared n)) as Hsub%submseteq_length.
  { apply NoDup_submseteq; [apply NoDup_seq|]. intros c Hc. apply elem_of_seq in Hc. apply elem_of_app.
    destruct (ni_all n I c) as [-> | [k Hk]]; [lia|right; by left|left].
    apply list_elem_of_fmap. exists (k, c). split; [done|by apply elem_of_map_to_list]. }
  rewrite length_seq, length_app, length_fmap, length_map_to_list in Hsub.
  destruct (n_shared n); cbn in Hsub; lia.
Qed.

Lemma nat_reachable n : rtc nstep new_nat n -> nat_inv n.
Proof.
  intros H. revert n H. apply (rtc_ind_r (R := nstep)); [apply new_nat_inv|]. intros. by eapply nat_inv_step.
Qed.

(** ** The end *)

(** What the reverse goroutines have left to do once everything is closed. *)
Definition rv_work (r : reverse) : Z := match rv_pending r with Some _ => 2 | None => 1 end.
Definition work (n : udpNat) : Z := msum rv_work (n_rev n).

Lemma done_step n n' : nat_inv n -> n_done n = true -> nstep n n' -> n_done n' = true /\ work n' < work n.
Proof.
  intros I Hd Hs. destruct Hs as [n dst p d wok Hd'|n Hd'|n c fb src p Hr Hc|n c fb Hr|n c fb src p Hr|n c fb src p Hr];
    [congruence|congruence|exfalso|split; [done|]; unfold work; cbn [n_rev with_rev]..].
  - apply Hc. apply (ni_done n I Hd). by eapply ni_rev.
  - rewrite (msum_delete _ (n_rev n) c _ Hr). cbn. lia.
  - rewrite (msum_replace _ _ _ _ _ Hr). cbn. lia.
  - rewrite (msum_delete _ (n_rev n) c _ Hr). cbn. lia.
Qed.

Lemma done_sn n : nat_inv n -> n_done n = true -> sn nstep n.
Proof.
  remember (Z.to_nat (work n)) as k eqn:Hk. revert n Hk. induction k as [k IH] using lt_wf_ind. intros n -> I Hd.
  constructor. intros n' Hs. destruct (done_step _ _ I Hd Hs) as [Hd' Hlt].
  assert (0 <= work n') by (apply msum_nonneg; intros [? [?|]]; cbn; lia).
  eapply (IH (Z.to_nat (work n'))); [lia|done|by eapply nat_inv_step|done].
Qed.

Lemma reverse_can_step n c r : n_rev n !! c = Some r -> red nstep n.
Proof. destruct r as [fb [[src p]|]]; intros Hr; eexists; [by eapply ns_write|by eapply ns_read_err]. Qed.

(** [C34] However datagrams, replies, failures and the end of the client interleave, the NAT
    of one client opens at most 512 connections of its own and one shared one; every datagram
    goes to the connection of its destination, or to the shared one; and once the client is
    gone every connection ever opened is closed and the reverse goroutines take finitely many
    more steps, after which none is left. *)
Theorem udp_nat_bounded_and_clean n :
  rtc nstep new_nat n ->
  (n_next n <= maxUDPTargets + 1)%nat /\
  (forall c dst p, (c, dst, p) ∈ n_sent n -> n_shared n = Some c \/ n_conns n !! Socksaddr_String dst = Some c) /\
  (n_done n = true ->
     (forall c, (c < n_next n)%nat -> c ∈ n_closed n) /\ sn nstep n /\ (nf nstep n -> n_rev n = ∅)).
Proof.
  intros I%nat_reachable. split_and!; [by apply nat_inv_count|apply I|]. intros Hd. split_and!; [by apply ni_done|by apply done_sn|].
  intros Hnf. apply map_empty. intros c. destruct (n_rev n !! c) as [r|] eqn:E; [|done].
  exfalso. by eapply Hnf, reverse_can_step.
Qed.

(** ** A reverse goroutine that has ended is not replaced *)

Lemma conn_keeps n dst proto d c k :
  nat_inv n -> (c < n_next n)%nat -> n_rev n !! c = None ->
  let n' := (conn n dst proto d).2 in
  (c < n_next n')%nat /\ n_rev n' !! c = None /\ (n_conns n !! k = Some c -> n_conns n' !! k = Some c).
Proof.
  intros I Hc Hr. unfold conn. destruct (n_shared n); [done|]. destruct (n_conns n !! _) eqn:E; [done|].
  destruct (_ <=? _)%nat; [done|]. destruct (d proto); cbn; [done| |].
  - split_and!; [lia|rewrite lookup_insert_ne by lia; done|]. intros Hk. rewrite lookup_insert_ne; [done|]. congruence.
  - split_and!; [lia|rewrite lookup_insert_ne by lia; done|done].
Qed.

Lemma dead_step n n' c k :
  nat_inv n -> nstep n n' -> (c < n_next n)%nat -> n_rev n !! c = None ->
  (c < n_next n')%nat /\ n_rev n' !! c = None /\ (n_conns n !! k = Some c -> n_conns n' !! k = Some c).
Proof.
  intros I Hs Hc Hd. destruct Hs as [n dst p d wok _|n _|n c' fb src p Hr _|n c' fb Hr|n c' fb src p Hr|n c' fb src p Hr];
    cbn [n_next n_rev n_conns with_rev closeAll].
  - unfold forward. pose proof (conn_keeps n dst (if known n dst then [] else SniffProto_String (default SniffNone (sniffPacket p))) d c k I Hc Hd) as H.
    cbn zeta in H. destruct (conn n dst _ d) as [[c'|e] n']; [|done]. by destruct wok.
  - done.
  - split_and!; [done|rewrite lookup_insert_ne by congruence; done|done].
  - split_and!; [done|by apply lookup_delete_None; right|done].
  - split_and!; [done|rewrite lookup_insert_ne by congruence; done|done].
  - split_and!; [done|by apply lookup_delete_None; right|done].
Qed.

(** Once the reverse goroutine of a destination has ended, on a single failed read, its
    connection stays in use for what the client sends there and nothing that arrives on it
    reaches the client any more, for as long as the association lasts. *)
Theorem dead_target_is_kept n n' dst c proto d :
  rtc nstep new_nat n -> n_conns n !! Socksaddr_String dst = Some c -> n_rev n !! c = None ->
  rtc nstep n n' -> n_shared n' = None ->
  n_rev n' !! c = None /\ conn n' dst proto d = (Ok c, n').
Proof.
  intros Hn Hk Hr Hs Hsh. assert (n_rev n' !! c = None /\ n_conns n' !! Socksaddr_String dst = Some c) as [H1 H2].
  { clear Hsh. apply nat_reachable in Hn as I. pose proof (ni_conns n I _ _ Hk) as Hc.
    induction Hs as [|n n1 n' Hs _ IH]; [done|].
    destruct (dead_step _ _ c (Socksaddr_String dst) I Hs Hc Hr) as (Hc1 & Hr1 & Hk1).
    apply IH; [by eapply rtc_r|by apply Hk1|done|by eapply nat_inv_step|done]. }
  split; [done|]. unfold conn. by rewrite Hsh, H2.
Qed.

(** ** A short association *)

Module Examples.

Definition dns : Socksaddr := FromIPPort {| ap_addr := addr "8.8.8.8"; ap_port := 53 |}.
Definition nowhere : Socksaddr := FromIPPort {| ap_addr := AddrZero; ap_port := 0 |}.
Definition asked : udpNat := forward new_nat dns (bs "q") (fun _ => DialTarget) true.
Definition heard : udpNat := with_rev asked (<[0%nat := mkReverse dns (Some (dns, bs "a"))]> (n_rev asked)).
Definition replied : udpNat :=
  mkNat (n_conns heard) None 1 (<[0%nat := mkReverse dns None]> (n_rev heard)) ∅ (n_sent heard) [(dns, bs "a")] false.
Definition over : udpNat := closeAll replied.

Lemma over_reachable : rtc nstep new_nat over.
Proof.
  eapply rtc_l; [by apply (ns_forward new_nat dns (bs "q") (fun _ => DialTarget) true)|].
  eapply rtc_l; [by apply (ns_read asked 0 dns nowhere (bs "a"))|].
  eapply rtc_l; [by apply (ns_write heard 0 dns dns (bs "a"))|].
  apply rtc_once, (ns_end replied). done.
Qed.

Lemma udp_nat_bounded_and_clean_witness :
  (n_next over <= maxUDPTargets + 1)%nat /\
  (forall c dst p, (c, dst, p) ∈ n_sent over -> n_shared over = Some c \/ n_conns over !! Socksaddr_String dst = Some c) /\
  (n_done over = true ->
     (forall c, (c < n_next over)%nat -> c ∈ n_closed over) /\ sn nstep over /\ (nf nstep over -> n_rev over = ∅)).
Proof. apply (udp_nat_bounded_and_clean over). apply over_reachable. Defined.

(** STUN to a new destination is offered to the protocol rules; to a known one it is not. *)
Definition stun : bytes := [x00; x01; x00; x00; x21; x12; xa4; x42] ++ replicate 12 x00.
Definition block_stun (proto : bytes) : dialRes := if bool_decide (proto = bs "stun") then DialNo else DialTarget.
Example stun_blocked : n_next (forward new_nat dns stun block_stun true) = 0%nat.
Proof. vm_compute. reflexivity. Qed.
Example stun_passes_later : n_sent (forward asked dns stun block_stun true) = [(0%nat, dns, bs "q"); (0%nat, dns, stun)].
Proof. vm_compute. reflexivity. Qed.

End Examples.
