(* ===== verification/SnellChunk.v ===== *)
(** * Snell: the chunk interface ([chunkEncoder] and [chunkDecoder] of [snellv6/server.go])

    Three generations of framing carry the same commands and connections. What those need of
    a framing is stated here: whatever is written is read back, chunk by chunk. *)
From S2P Require Import Prelude GoStd Link.
From Stdlib Require Import Init.Byte.

Inductive snellErr :=
| ErrChunk                    (* a payload above 65535 bytes *)
| errBadHeader
| errRawHeader
| errTooLarge
| errOpen                     (* a failed authentication *)
| errRead (e : io_err)
| errWrite
| errVersion (v : byte)
| errCommand (c : byte)
| errShort                    (* a command of at most two bytes *)
| errHalfClosed               (* an empty chunk instead of a command *)
| errReplayed
| errServer (msg : bytes)
| errUDPFrame
| errUDPBadCommand
| errUDPTarget
| Diverges                    (* a loop that does not end *)
| Divides.                    (* a division by zero *)

#[export] Instance snell_errors : StreamErrors snellErr := { read_error := errRead; write_error := errWrite }.

(** A framing: the state of its two directions, what a write draws (randomness, the clock),
    and the two calls. *)
Record Framing := mkFraming {
  Snd : Type;
  Rcv : Type;
  Rnd : Type;
  Encode : Snd -> Rnd -> bytes -> res snellErr (bytes * Snd);
  Decode : Rcv -> hs snellErr (bytes * Rcv);
}.

Section chunks.
Context {R : Type} (dec : R -> hs snellErr (bytes * R)).

(** The receiver reads exactly these chunks from these bytes, whatever follows. *)
Inductive chunks_of : R -> bytes -> list bytes -> R -> Prop :=
| co_nil r : chunks_of r [] [] r
| co_cons r out p r1 rest ps r2 :
    (forall w, ends (dec r) (out ++ w) (Ok (p, r1)) w []) -> chunks_of r1 rest ps r2 ->
    chunks_of r (out ++ rest) (p :: ps) r2.

Lemma chunks_of_app r1 o1 c1 r2 o2 c2 r3 :
  chunks_of r1 o1 c1 r2 -> chunks_of r2 o2 c2 r3 -> chunks_of r1 (o1 ++ o2) (c1 ++ c2) r3.
Proof. induction 1; intros H2; [done|]. rewrite <-app_assoc. cbn. econstructor; eauto. Qed.

Lemma chunks_of_one r out p r1 : (forall w, ends (dec r) (out ++ w) (Ok (p, r1)) w []) -> chunks_of r out [p] r1.
Proof. intros H1. rewrite <-(app_nil_r out). econstructor; [done|constructor]. Qed.
End chunks.

(** What one write becomes: an empty one a single empty chunk, the marker that ends a
    direction; any other only non-empty chunks. *)
Definition pieces (payload : bytes) (chunks : list bytes) : Prop :=
  concat chunks = payload /\ (payload = [] -> chunks = [[]]) /\ (payload <> [] -> [] ∉ chunks).

Lemma pieces_one payload : pieces payload [payload].
Proof.
  split_and!; [apply app_nil_r|congruence|].
  intros H1 H2. apply list_elem_of_singleton in H2. congruence.
Qed.

Lemma pieces_cons p1 p2 cs : p1 <> [] -> p2 <> [] -> pieces p2 cs -> pieces (p1 ++ p2) (p1 :: cs).
Proof.
  intros H1 H2 (E1 & E2 & E3). split_and!; [cbn; congruence|by intros [? ?]%app_nil|].
  intros _ [?|?]%elem_of_cons; [congruence|by apply E3].
Qed.

(** What the connections above rely on: sender and receiver in step stay in step, and every
    write is read back in pieces. *)
Class FramingLaws (F : Framing) := {
  in_step : Snd F -> Rcv F -> Prop;
  rnd_ok : Rnd F -> Prop;
  encode_read s r rnd payload :
    in_step s r -> rnd_ok rnd ->
    exists out s' chunks r', Encode F s rnd payload = Ok (out, s') /\ chunks_of (Decode F) r out chunks r' /\
      pieces payload chunks /\ in_step s' r';
}.

(** ** One direction of a connection *)

Fixpoint encodeAll (F : Framing) (s : Snd F) (ws : list (Rnd F * bytes)) : res snellErr (bytes * Snd F) :=
  match ws with
  | [] => Ok ([], s)
  | (rnd, payload) :: ws =>
      match Encode F s rnd payload with
      | Err e => Err e
      | Ok (out, s) =>
          match encodeAll F s ws with
          | Err e => Err e
          | Ok (rest, s) => Ok (out ++ rest, s)
          end
      end
  end.

Lemma encodeAll_read (F : Framing) `{!FramingLaws F} ws : Forall (fun w => rnd_ok w.1) ws -> forall s r, in_step s r ->
  exists out s' groups r', encodeAll F s ws = Ok (out, s') /\ chunks_of (Decode F) r out (concat groups) r' /\
    Forall2 (fun w chunks => pieces w.2 chunks) ws groups /\ in_step s' r'.
Proof.
  induction 1 as [|[rnd payload] ws Hr _ IH]; intros s r Hsy.
  - exists [], s, [], r. split_and!; [done|constructor|constructor|done].
  - cbn [encodeAll]. destruct (encode_read s r rnd payload Hsy Hr) as (out & s1 & cs & r1 & -> & Hc & Hp & Hsy1).
    destruct (IH s1 r1 Hsy1) as (rest & s2 & gs & r2 & -> & Hc2 & HF & Hsy2).
    exists (out ++ rest), s2, (cs :: gs), r2. split_and!; [done|cbn; by eapply chunks_of_app|by constructor|done].
Qed.

(** Writes that are not empty leave no empty chunk. *)
Lemma pieces_all {A} (ws : list (A * bytes)) groups :
  Forall2 (fun w chunks => pieces w.2 chunks) ws groups -> Forall (fun w => w.2 <> []) ws ->
  concat (concat groups) = concat ws.*2 /\ [] ∉ concat groups.
Proof.
  induction 1 as [|w cs ws groups (E1 & _ & E2) _ IH]; intros Hne; [split; [done|by apply not_elem_of_nil]|].
  apply Forall_cons in Hne as [Hw Hne]. destruct (IH Hne) as [IH1 IH2]. cbn. rewrite concat_app, E1, IH1.
  split; [done|]. rewrite elem_of_app. intros [?|?]; [by apply E2|done].
Qed.

(** ** Splitting a write into frames of a fixed size *)

Definition maxFrame : nat := Z.to_nat 0x3FFF.

(** Every turn takes [maxFrame] bytes, so [S (length payload)] turns are enough. *)
Fixpoint split_each {S} (one : S -> bytes -> bytes * S) (fuel : nat) (s : S) (payload : bytes) : res snellErr (bytes * S) :=
  match fuel with
  | O => Err Diverges
  | Datatypes.S fuel' =>
      match payload with
      | [] => Ok ([], s)
      | _ =>
          let '(c, s) := one s (take maxFrame payload) in
          match split_each one fuel' s (drop maxFrame payload) with
          | Err e => Err e
          | Ok (out, s) => Ok (c ++ out, s)
          end
      end
  end.

(** One frame, of the payloads [P], is read back and keeps [I] between the two ends. *)
Definition frame_read {S R} (dec : R -> hs snellErr (bytes * R)) (I : S -> R -> Prop) (P : bytes -> Prop)
    (one : S -> bytes -> bytes * S) : Prop :=
  forall s r p, I s r -> P p -> (length p <= maxFrame)%nat ->
  exists r', (forall w, ends (dec r) ((one s p).1 ++ w) (Ok (p, r')) w []) /\ I (one s p).2 r'.

Lemma take_frame (p : bytes) : p <> [] -> take maxFrame p <> [] /\ (length (take maxFrame p) <= maxFrame)%nat.
Proof.
  intros Hp. rewrite length_take. split; [|lia]. intros Ht. apply (f_equal length) in Ht. rewrite length_take in Ht.
  destruct p; [done|]. unfold maxFrame in Ht. cbn [length] in Ht. lia.
Qed.

Lemma split_each_read {S R} (dec : R -> hs snellErr (bytes * R)) (I : S -> R -> Prop) (P : bytes -> Prop) one :
  frame_read dec I P one -> (forall p, p <> [] -> P p) -> forall fuel s r payload, I s r -> payload <> [] -> (length payload < fuel)%nat ->
  exists out s' chunks r', split_each one fuel s payload = Ok (out, s') /\ chunks_of dec r out chunks r' /\
    pieces payload chunks /\ I s' r'.
Proof.
  intros Hone HP. induction fuel as [|fuel IH]; intros s r payload Hsy Hne Hf; [lia|]. cbn [split_each].
  destruct (take_frame payload Hne) as [Hne1 Hl1].
  destruct (Hone s r (take maxFrame payload) Hsy (HP _ Hne1) Hl1) as (r1 & Hd1 & Hsy1).
  assert (0 < length payload)%nat as Hpos by (destruct payload; [done|cbn; lia]).
  destruct payload as [|b0 payload0]; [done|]. set (payload := b0 :: payload0) in *. clearbody payload.
  destruct (one s (take maxFrame payload)) as [c s1]. cbn [fst snd] in *.
  destruct (decide (drop maxFrame payload = [])) as [Hr|Hr].
  - assert (take maxFrame payload = payload) as E by (rewrite <-(take_drop maxFrame payload) at 2; by rewrite Hr, app_nil_r).
    rewrite Hr. destruct fuel as [|fuel]; [lia|]. cbn [split_each]. rewrite app_nil_r.
    rewrite E in Hd1. exists c, s1, [payload], r1. split_and!; [done|by apply chunks_of_one|apply pieces_one|done].
  - destruct (IH s1 r1 (drop maxFrame payload)) as (out & s3 & cs & r3 & -> & Hco & Hpc & Hsy3); try done.
    { rewrite length_drop. unfold maxFrame. lia. }
    exists (c ++ out), s3, (take maxFrame payload :: cs), r3. split_and!; [done|by econstructor| |done].
    rewrite <-(take_drop maxFrame payload) at 1. by apply pieces_cons.
Qed.

Lemma one_frame_read {S R} (dec : R -> hs snellErr (bytes * R)) (I : S -> R -> Prop) P one s r payload :
  frame_read dec I P one -> I s r -> P payload -> (length payload <= maxFrame)%nat ->
  exists out s' chunks r', (Ok (one s payload) : res snellErr _) = Ok (out, s') /\ chunks_of dec r out chunks r' /\
    pieces payload chunks /\ I s' r'.
Proof.
  intros Hone Hsy HP Hl. destruct (Hone s r payload Hsy HP Hl) as (r1 & Hd & Hi). destruct (one s payload) as [c s1].
  exists c, s1, [payload], r1. split_and!; [done|by apply chunks_of_one|apply pieces_one|done].
Qed.
