(* ===== verification/SnellProfile.v ===== *)
(** * Snell v6: the profile derived from the pre-shared key
    ([proto/snell/internal/snellv6/prf.go], [profile.go])

    Every length and schedule of the wire format is drawn from the key by an integer
    pseudo-random function. Unsigned arithmetic wraps at its width; the context is an array
    of 0x158 bytes, as a function from offsets. The hash, the key derivation and the ciphers
    are third-party and form the class [Crypto]. *)
From S2P Require Import Prelude GoStd.
From Stdlib Require Import Init.Byte.

(** ** Pseudo-random functions *)

Definition fmix64 (x : Z) : Z :=
  let x := w64 (Z.lxor x (Z.shiftr x 30) * 0xBF58476D1CE4E5B9) in
  let x := w64 (Z.lxor x (Z.shiftr x 27) * 0x94D049BB133111EB) in
  Z.lxor x (Z.shiftr x 31).

(** The two halves folded. *)
Definition fold32 (v : Z) : Z := Z.lxor (w32 (Z.shiftr v 32)) (w32 v).

Definition prf32 (seed kind konst index : Z) : Z :=
  let t := Z.lxor seed (w64 (index * 0x589965CC75374CC3 + 0x33A213EC50FFE2E9)) in
  let t := Z.lxor t (w64 (kind * 0x9E3779B97F4A7C15)) in
  let t := Z.lxor t (w64 (konst * 0xE7037ED1A0B428DB + 0x8F3907F7B2B80C35)) in
  fold32 (fmix64 t).

Definition runtimePRF (routedSeed domain idxArg konstArg : Z) : Z := prf32 routedSeed domain idxArg konstArg.

Definition RotateLeft64 (x k : Z) : Z :=
  let k := k mod 64 in Z.lor (w64 (Z.shiftl x k)) (Z.shiftr x (64 - k)).

Definition subSeed (ms : list Z) (domain magic : Z) : Z :=
  let m i := nth i ms 0 in
  let x := w64 (domain * 0xD6E8FEB86659FD93) in
  let x := Z.lxor x (w64 (magic + 0xA0761D6478BD642F)) in
  let x := Z.lxor x (m 0%nat) in
  let x := Z.lxor x (w64 (m 1%nat + 0x9E3779B97F4A7C15)) in
  let x := Z.lxor x (RotateLeft64 (m 2%nat) 17) in
  let x := Z.lxor x (RotateLeft64 (m 3%nat) (-11)) in
  fmix64 x.

Definition mapRange (prf lo hi : Z) : Z := if hi <=? lo then lo else w16 (lo + w16 (prf mod w16 (hi - lo + 1))).

Definition prfShuffle (seed konst index : Z) : Z :=
  let t := Z.lxor seed 0xDAA66D2C7DDF743F in
  let t := Z.lxor t (w64 (index * 0x589965CC75374CC3 + 0x33A213EC50FFE2E9)) in
  let t := Z.lxor t (w64 (konst * 0xE7037ED1A0B428DB - 0x70C6F8084D47F3CB)) in
  fold32 (fmix64 t).

(** ** Third-party cryptography *)

Class Crypto := {
  MasterSeed : bytes -> list Z;                                  (* BLAKE2b of the key, four words *)
  SessionKey : bytes -> bytes -> bytes;                          (* Argon2id of key and salt *)
  Seal : bool -> bytes -> bytes -> bytes -> bytes -> bytes;      (* cipher, key, nonce, plain, additional data *)
  OpenSealed : bool -> bytes -> bytes -> bytes -> bytes -> option bytes;
}.

(** What the format relies on: opening inverts sealing, and the tag has sixteen bytes. *)
Class CryptoLaws `{Crypto} := {
  open_seal ch key nonce p ad : OpenSealed ch key nonce (Seal ch key nonce p ad) ad = Some p;
  length_seal ch key nonce p ad : length (Seal ch key nonce p ad) = (length p + 16)%nat;
}.

(** ** The context *)

Definition ctx : Type := nat -> byte.

Definition put8 (c : ctx) (off : nat) (v : Z) : ctx := fun i => if (i =? off)%nat then z2b v else c i.
Fixpoint putLE (c : ctx) (off n : nat) (v : Z) : ctx :=
  match n with
  | O => c
  | S n' => putLE (put8 c off v) (S off) n' (Z.shiftr v 8)
  end.
Definition put16 (c : ctx) (off : nat) (v : Z) : ctx := putLE c off 2 v.
Definition put32 (c : ctx) (off : nat) (v : Z) : ctx := putLE c off 4 v.
Definition put64 (c : ctx) (off : nat) (v : Z) : ctx := putLE c off 8 v.

Fixpoint getLE (c : ctx) (off n : nat) : Z :=
  match n with
  | O => 0
  | S n' => b2z (c off) + 256 * getLE c (S off) n'
  end.
Definition u8 (c : ctx) (o : nat) : Z := b2z (c o).
Definition u16 (c : ctx) (o : nat) : Z := getLE c o 2.
Definition u32 (c : ctx) (o : nat) : Z := getLE c o 4.
Definition seed64 (c : ctx) (o : nat) : Z := getLE c o 8.

(** ** [DeriveProfile] *)

(** Offset, domain and magic of each sub-seed. *)
Definition subseedSpec : list (nat * Z * Z) :=
  [(192%nat, 5, 0xB46C2E7D9A1538F1); (168%nat, 0, 0x5D9217C083E64AB9); (288%nat, 2, 0xA71F0C54D8396E2B);
   (232%nat, 3, 0x3E8A91B52740F6CD); (96%nat, 16, 0xC9F4260B7D1E835A); (264%nat, 21, 0x62D0B5E19C4A783F);
   (312%nat, 28, 0x917B3C48E6A205D4)].

(** The domain whose sub-seed a query domain uses. *)
Definition routeDomain (dom : Z) : Z :=
  let among l := existsb (Z.eqb dom) l in
  if among [0; 1; 14; 15; 33; 34] then 0
  else if dom =? 2 then 2
  else if (dom =? 3) || ((16 <=? dom) && (dom <=? 20)) then 16
  else if ((21 <=? dom) && (dom <=? 26)) || (dom =? 38) || (dom =? 39) then 21
  else if ((28 <=? dom) && (dom <=? 32)) || ((35 <=? dom) && (dom <=? 37)) then 28
  else 5.

Definition seedOf (ms : list Z) (dom : Z) : Z :=
  match find (fun s => s.1.2 =? dom) subseedSpec with
  | Some s => subSeed ms dom s.2
  | None => 0
  end.

(** The field function. *)
Definition F (ms : list Z) (dom third : Z) : Z := prf32 (seedOf ms (routeDomain dom)) dom 0 third.

Definition put_seeds (ms : list Z) (c : ctx) : ctx :=
  let c := foldl (fun c i => put64 c (120 + 8 * i) (nth i ms 0)) c (seq 0 4) in
  foldl (fun c s => put64 c s.1.1 (subSeed ms s.1.2 s.2)) c subseedSpec.

Definition buckets (c : ctx) (base n : nat) (v : nat -> Z) : ctx :=
  foldl (fun c i => put16 c (base + 2 * i) (v i)) c (seq 0 n).

(** The scalar fields and the two bucket arrays, in the order of the source. *)
Definition put_fields (ms : list Z) (c : ctx) : ctx :=
  let F := F ms in
  let r dom third lo hi := mapRange (F dom third) lo hi in
  let c := put32 c 240 (F 5 0) in
  let c := put32 c 252 (Z.land (F 6 0) 3) in
  let f272 := r 7 0 24 160 in
  let c := put16 c 272 f272 in
  let c := put16 c 176 (w16 (f272 + r 8 0 160 960)) in
  let c := put8 c 326 (r 9 0 2 8) in
  let c := put8 c 246 (r 10 0 2 11) in
  let c := put16 c 300 (r 11 0 96 768) in
  let c := put8 c 184 (r 12 0 24 41) in
  let c := put8 c 298 (r 13 0 58 76) in
  let c := put8 c 278 (r 6 1 24 128) in
  let c := put8 c 327 (r 6 2 16 96) in
  let c := put8 c 212 (r 6 3 16 96) in
  let c := put8 c 310 (r 6 4 0 9) in
  let c := put8 c 260 (r 6 5 1 8) in
  let c := put8 c 328 (r 6 6 7 23) in
  let psMin := r 14 28755 16 96 in
  let c := put16 c 204 psMin in
  let c := put16 c 304 (w16 (psMin + r 15 28755 16 160)) in
  let c := put8 c 274 (r 17 20903 1 4) in
  let c := put8 c 322 (r 18 20903 17 251) in
  let padMin := r 14 0 8 80 in
  let c := put16 c 284 padMin in
  let c := put16 c 188 (w16 (padMin + r 15 0 16 160)) in
  let c := put32 c 208 (F 16 0 mod 3) in
  let c := put8 c 306 (r 17 0 1 3) in
  let c := put16 c 244 (r 18 0 2 13) in
  let c := put16 c 308 (r 19 0 0 15) in
  let c := put16 c 258 (r 20 0 8 64) in
  let c := put32 c 280 (F 21 0 mod 3) in
  let c := put16 c 200 (r 22 0 512 1460) in
  let c := put16 c 186 (r 22 61820 256 768) in
  let cmax := r 23 0 0x2000 0x3FFF in
  let c := put16 c 248 cmax in
  let c := put16 c 296 (r 24 0 1024 4096) in
  let c := put16 c 320 (r 25 0 16 192) in
  let c := put8 c 302 8 in
  let c := buckets c 152 8 (fun i => r 26 (Z.of_nat i) 4096 cmax) in
  let c := put16 c 324 (r 27 0 12 90) in
  let c := put32 c 180 (F 28 0 mod 3) in
  let fw := w8 (r 29 0 4 8) in
  let c := put8 c 256 fw in
  let c := put8 c 202 8 in
  let c := buckets c 104 8 (fun i => r 30 (Z.of_nat i) 320 1460) in
  let c := put8 c 329 fw in
  let c := buckets c 214 (Z.to_nat fw) (fun i => r 31 (Z.of_nat i) 360 1460) in
  let c := put16 c 276 (r 32 0 8 96) in
  put8 c 286 (r 28 20556 8 48).

(** *** [clamp] *)

Definition capmin (c : ctx) (lo hi : nat) (cap : Z) : ctx :=
  let h := if cap <? u16 c hi then cap else u16 c hi in
  let c := put16 c hi h in
  if h <? u16 c lo then put16 c lo h else c.

Definition into (lo hi v : Z) : Z :=
  let v := if hi <? v then hi else v in
  if v <? lo then lo else v.

Definition clampBuckets (c : ctx) (base n : nat) (lo hi : Z) : ctx :=
  foldl (fun c i => put16 c (base + 2 * i) (into lo hi (u16 c (base + 2 * i)))) c (seq 0 n).

(** The three pairs of framing bounds. *)
Definition clamp_pairs (c : ctx) : ctx := capmin (capmin (capmin c 204 304 128) 284 188 128) 272 176 730.

(** The initial chunk size and the cap of the first chunk. *)
Definition clamp_first (c : ctx) : ctx :=
  let cmin := into 96 1460 (u16 c 200) in
  let c := put16 c 200 cmin in
  put16 c 186 (into 256 (if 768 <? cmin then 768 else cmin) (u16 c 186)).

Definition raise_to (c : ctx) (o : nat) (v : Z) : ctx := if u16 c o <? v then put16 c o v else c.
Definition cap_at (c : ctx) (o : nat) (v : Z) : ctx := if v <? u16 c o then put16 c o v else c.
Definition clamp_chunk (c : ctx) : ctx := cap_at (cap_at (raise_to c 248 (u16 c 200)) 296 2920) 320 182.

(** The arrays, each as long as the count stored for it. *)
Definition clampArray (c : ctx) (base count : nat) (lo hi : Z) : ctx := clampBuckets c base (Z.to_nat (u8 c count)) lo hi.
Definition clamp_arrays (c : ctx) : ctx :=
  clampArray (clampArray (clampArray c 152 302 4096 (u16 c 248)) 104 202 256 1460) 214 329 256 1460.

Definition clamp (c : ctx) : ctx := clamp_arrays (clamp_chunk (clamp_first (clamp_pairs c))).

Definition DeriveProfile `{Crypto} (psk : bytes) : ctx :=
  let ms := MasterSeed psk in
  clamp (put_fields ms (put_seeds ms (fun _ => x00))).

(** *** Accessors *)

Definition PreSaltMin (p : ctx) : Z := u16 p 204.
Definition PreSaltMax (p : ctx) : Z := u16 p 304.
Definition PaddingMin (p : ctx) : Z := u16 p 284.
Definition PaddingMax (p : ctx) : Z := u16 p 188.
Definition ChunkMax (p : ctx) : Z := u16 p 248.
Definition FirstChunkCap (p : ctx) : Z := u16 p 186.
Definition RouteSeed33 (p : ctx) : Z := seed64 p 168.
Definition SaltSeed (p : ctx) : Z := seed64 p 232.
Definition SaltPermRounds (p : ctx) : Z := u8 p 274.
Definition SaltMaskStride (p : ctx) : Z := u8 p 322.
Definition MixRounds (p : ctx) : Z := u8 p 306.
Definition MixMode (p : ctx) : Z := u32 p 208.
Definition MixBlock (p : ctx) : Z := u16 p 258.
Definition MixInterval (p : ctx) : Z := u16 p 244.
Definition MixOffset (p : ctx) : Z := u16 p 308.
Definition ChunkInitial (p : ctx) : Z := u16 p 200.
Definition ChunkGrowth (p : ctx) : Z := u16 p 296.
Definition ChunkJitter (p : ctx) : Z := u16 p 320.
Definition ChunkPolicy (p : ctx) : Z := u32 p 280.
Definition ChunkBucketCount (p : ctx) : Z := u8 p 302.
Definition ChunkBucket (p : ctx) (i : Z) : Z := u16 p (152 + 2 * Z.to_nat i).
Definition IdleReset (p : ctx) : Z := u16 p 324.
Definition WritePolicy (p : ctx) : Z := u32 p 180.
Definition WriteSeqCount (p : ctx) : Z := u8 p 329.
Definition WriteBucketCount (p : ctx) : Z := u8 p 202.
Definition WriteBucket (p : ctx) (i : Z) : Z := u16 p (104 + 2 * Z.to_nat i).
Definition WriteSeq (p : ctx) (i : Z) : Z := u16 p (214 + 2 * Z.to_nat i).
Definition WriteJitter (p : ctx) : Z := u16 p 276.
Definition WritePayloadFactor (p : ctx) : Z := u8 p 286.
Definition PostpadBase (p : ctx) : Z := u16 p 272.
Definition PostpadMax (p : ctx) : Z := u16 p 176.
Definition PostInterval (p : ctx) : Z := u8 p 246.
Definition PostField300 (p : ctx) : Z := u16 p 300.
Definition PostField326 (p : ctx) : Z := u8 p 326.

(** ** What every derived profile satisfies *)

Lemma getLE_range c n : forall o, 0 <= getLE c o n < 256 ^ Z.of_nat n.
Proof.
  induction n as [|n IH]; intros o; cbn [getLE]; [done|]. pose proof (IH (S o)). pose proof (b2z_range (c o)).
  rewrite Nat2Z.inj_succ, Z.pow_succ_r by lia. lia.
Qed.
Lemma u16_range c o : 0 <= u16 c o < 65536.
Proof. apply (getLE_range c 2 o). Qed.

Lemma u16_eq c o : u16 c o = b2z (c o) + 256 * b2z (c (S o)).
Proof. unfold u16. cbn. lia. Qed.

(** Reading what was written, and past what was written elsewhere. *)
Lemma u16_put16 c o v : 0 <= v < 65536 -> u16 (put16 c o v) o = v.
Proof.
  intros Hv. rewrite u16_eq. unfold put16. cbn [putLE]. unfold put8.
  rewrite Nat.eqb_refl. destruct (o =? S o)%nat eqn:E; [apply Nat.eqb_eq in E; lia|]. rewrite Nat.eqb_refl, !b2z_z2b.
  unfold w8. rewrite Z.shiftr_div_pow2 by lia. change (2 ^ 8) with 256.
  Z.to_euclidean_division_equations. lia.
Qed.

Lemma put16_ne c o v i : (i < o \/ S o < i)%nat -> put16 c o v i = c i.
Proof.
  intros H. unfold put16. cbn [putLE]. unfold put8.
  destruct (i =? S o)%nat eqn:E1; [apply Nat.eqb_eq in E1; lia|].
  destruct (i =? o)%nat eqn:E2; [apply Nat.eqb_eq in E2; lia|]. done.
Qed.

Lemma u16_put16_ne c o v o' : (S o' < o \/ S o < o')%nat -> u16 (put16 c o v) o' = u16 c o'.
Proof. intros H. rewrite !u16_eq, !put16_ne by lia. done. Qed.
Lemma u8_put16_ne c o v o' : (o' < o \/ S o < o')%nat -> u8 (put16 c o v) o' = u8 c o'.
Proof. intros H. unfold u8. by rewrite put16_ne. Qed.



Lemma mapRange_bounds prf lo hi : 0 <= lo -> lo <= hi < 65535 -> lo <= mapRange prf lo hi <= hi.
Proof.
  intros H1 H2. unfold mapRange. destruct (hi <=? lo) eqn:E; [lia|]. unfold w16.
  rewrite (Z.mod_small (hi - lo + 1)) by lia. pose proof (Z.mod_pos_bound prf (hi - lo + 1) ltac:(lia)).
  rewrite (Z.mod_small (prf mod _)) by lia. rewrite Z.mod_small by lia. lia.
Qed.

Lemma clampBuckets_ne c base n lo hi o :
  (o < base \/ base + 2 * n <= o)%nat -> clampBuckets c base n lo hi o = c o.
Proof.
  unfold clampBuckets. assert (forall l c, (forall i, i ∈ l -> (i < n)%nat) -> (o < base \/ base + 2 * n <= o)%nat ->
    foldl (fun c i => put16 c (base + 2 * i) (into lo hi (u16 c (base + 2 * i)))) c l o = c o) as H.
  { induction l as [|i l IH]; intros c0 Hl Ho; [done|]. cbn [foldl]. rewrite IH; [|intros; apply Hl; by right|done].
    apply put16_ne. specialize (Hl i ltac:(left)). lia. }
  apply H. intros i Hi. apply elem_of_seq in Hi. lia.
Qed.

Lemma u16_ext c c' o : c o = c' o -> c (S o) = c' (S o) -> u16 c o = u16 c' o.
Proof. intros H1 H2. rewrite !u16_eq, H1, H2. done. Qed.

(** What a pair of bounds becomes, and that other fields are left alone. *)
Lemma capmin_pair c lo hi cap :
  0 <= cap < 65536 -> (S lo < hi \/ S hi < lo)%nat ->
  u16 (capmin c lo hi cap) hi = Z.min cap (u16 c hi) /\
  u16 (capmin c lo hi cap) lo = Z.min (u16 c lo) (Z.min cap (u16 c hi)).
Proof.
  intros Hc Ho. pose proof (u16_range c lo). pose proof (u16_range c hi). unfold capmin.
  assert ((if cap <? u16 c hi then cap else u16 c hi) = Z.min cap (u16 c hi)) as -> by (case_match; lia).
  rewrite u16_put16_ne by lia. case_match; to_prop.
  - rewrite u16_put16_ne, !u16_put16 by lia. lia.
  - rewrite u16_put16, u16_put16_ne by lia. lia.
Qed.

Lemma capmin_ne c lo hi cap o :
  (o < lo \/ S lo < o)%nat -> (o < hi \/ S hi < o)%nat -> capmin c lo hi cap o = c o.
Proof. intros H1 H2. unfold capmin. case_match; rewrite ?put16_ne by lia; done. Qed.

Lemma into_min lo hi v : lo <= into lo hi v.
Proof. unfold into. repeat case_match; to_prop; lia. Qed.
Lemma into_le lo hi v b : lo <= b -> hi <= b -> into lo hi v <= b.
Proof. unfold into. intros. repeat case_match; to_prop; lia. Qed.

Lemma put8_ne c o v i : (i < o \/ o < i)%nat -> put8 c o v i = c i.
Proof. intros H. unfold put8. destruct (i =? o)%nat eqn:E; [apply Nat.eqb_eq in E; lia|done]. Qed.
Lemma put8_eq c o v : put8 c o v o = z2b v.
Proof. unfold put8. by rewrite Nat.eqb_refl. Qed.
Lemma put32_ne c o v i : (i < o \/ o + 3 < i)%nat -> put32 c o v i = c i.
Proof. intros H. unfold put32. cbn [putLE]. rewrite !put8_ne by lia. done. Qed.

Lemma buckets_ne c base n v o : (o < base \/ base + 2 * n <= o)%nat -> buckets c base n v o = c o.
Proof.
  unfold buckets. assert (forall l c, (forall i, i ∈ l -> (i < n)%nat) -> (o < base \/ base + 2 * n <= o)%nat ->
    foldl (fun c i => put16 c (base + 2 * i) (v i)) c l o = c o) as H.
  { induction l as [|i l IH]; intros c0 Hl Ho; [done|]. cbn [foldl]. rewrite IH; [|intros; apply Hl; by right|done].
    apply put16_ne. specialize (Hl i ltac:(left)). lia. }
  apply H. intros i Hi. apply elem_of_seq in Hi. lia.
Qed.

Lemma write_count ms : 4 <= w8 (mapRange (F ms 29 0) 4 8) <= 8.
Proof. pose proof (mapRange_bounds (F ms 29 0) 4 8). unfold w8. rewrite Z.mod_small by lia. lia. Qed.

(** Reading a field after the writes that follow its own. *)
Ltac past := repeat first [rewrite put8_ne by lia | rewrite put16_ne by lia | rewrite put32_ne by lia | rewrite buckets_ne by lia].

Section fields.
Context (ms : list Z) (c : ctx).

Lemma field_302 : put_fields ms c 302%nat = x08.
Proof. pose proof (write_count ms). unfold put_fields. cbv zeta. past. by rewrite put8_eq. Qed.
Lemma field_202 : put_fields ms c 202%nat = x08.
Proof. pose proof (write_count ms). unfold put_fields. cbv zeta. past. by rewrite put8_eq. Qed.
Lemma field_329 : 4 <= u8 (put_fields ms c) 329 <= 8.
Proof.
  pose proof (write_count ms) as H. unfold u8, put_fields. cbv zeta. past. rewrite put8_eq, b2z_z2b_small by lia. done.
Qed.
Lemma field_176 : 184 <= u16 (put_fields ms c) 176.
Proof.
  pose proof (write_count ms) as H. set (v := w16 (mapRange (F ms 7 0) 24 160 + mapRange (F ms 8 0) 160 960)).
  rewrite (u16_ext _ (put16 c 176 v) 176).
  - pose proof (mapRange_bounds (F ms 7 0) 24 160). pose proof (mapRange_bounds (F ms 8 0) 160 960).
    unfold v, w16. rewrite Z.mod_small by lia. rewrite u16_put16 by lia. lia.
  - unfold put_fields. cbv zeta. past. fold v. unfold put16. cbn [putLE]. unfold put8. done.
  - unfold put_fields. cbv zeta. past. fold v. unfold put16. cbn [putLE]. unfold put8. done.
Qed.
Lemma field_278 : 24 <= u8 (put_fields ms c) 278.
Proof.
  pose proof (write_count ms) as H. pose proof (mapRange_bounds (F ms 6 1) 24 128).
  unfold u8, put_fields. cbv zeta. past. rewrite put8_eq, b2z_z2b_small by lia. lia.
Qed.
End fields.

(** Outside the fields that follow the pairs. *)
Definition apart (o : nat) : Prop :=
  (o < 104 \/ 120 <= o < 152 \/ 168 <= o < 186 \/ 188 <= o < 200 \/ 202 <= o < 214 \/ 230 <= o < 248 \/ 250 <= o < 296 \/
   298 <= o < 320 \/ 322 <= o)%nat.

Lemma put16_if c (b : bool) o v i : (i < o \/ S o < i)%nat -> (if b then put16 c o v else c) i = c i.
Proof. intros H. destruct b; [by apply put16_ne|done]. Qed.

Lemma clamp_chunk_ne c o :
  (o < 248 \/ 250 <= o)%nat -> (o < 296 \/ 298 <= o)%nat -> (o < 320 \/ 322 <= o)%nat -> clamp_chunk c o = c o.
Proof. intros. unfold clamp_chunk, cap_at, raise_to. rewrite !put16_if by lia. done. Qed.

Lemma clamp_first_ne c o : (o < 200 \/ 202 <= o)%nat -> (o < 186 \/ 188 <= o)%nat -> clamp_first c o = c o.
Proof. intros. unfold clamp_first. cbv zeta. rewrite !put16_ne by lia. done. Qed.

Lemma clamp_first_cap c : 256 <= u16 (clamp_first c) 186.
Proof.
  unfold clamp_first. cbv zeta. set (v := into 256 _ _). assert (256 <= v <= 768) as Hv.
  { unfold v. split; [apply into_min|apply into_le; [lia|case_match; to_prop; lia]]. }
  rewrite u16_put16 by lia. lia.
Qed.

Lemma clampArray_ne c base count lo hi o :
  u8 c count <= 8 -> (o < base \/ base + 16 <= o)%nat -> clampArray c base count lo hi o = c o.
Proof. intros H Ho. unfold clampArray. apply clampBuckets_ne. lia. Qed.

Lemma clamp_arrays_ne c o :
  u8 c 302 <= 8 -> u8 c 202 <= 8 -> u8 c 329 <= 8 ->
  (o < 104 \/ 120 <= o < 152 \/ 168 <= o < 214 \/ 230 <= o)%nat -> clamp_arrays c o = c o.
Proof.
  intros H1 H2 H3 Ho. unfold clamp_arrays. set (c1 := clampArray c 152 302 4096 _).
  assert (forall i, (i < 152 \/ 168 <= i)%nat -> c1 i = c i) as E1 by (intros; unfold c1; apply clampArray_ne; [done|lia]).
  assert (u8 c1 202 <= 8) as H2' by (unfold u8; rewrite E1 by lia; done).
  set (c2 := clampArray c1 104 202 256 1460).
  assert (forall i, (i < 104 \/ 120 <= i)%nat -> c2 i = c1 i) as E2 by (intros; unfold c2; apply clampArray_ne; [done|lia]).
  assert (u8 c2 329 <= 8) as H3' by (unfold u8; rewrite E2, E1 by lia; done).
  rewrite clampArray_ne, E2, E1 by (done || lia). done.
Qed.

Lemma clamp_rest c :
  u8 (clamp_pairs c) 302 = 8 -> u8 (clamp_pairs c) 202 = 8 -> u8 (clamp_pairs c) 329 <= 8 ->
  (forall o, apart o -> clamp c o = clamp_pairs c o) /\ 256 <= u16 (clamp c) 186.
Proof.
  intros H302 H202 H329. unfold clamp. set (c0 := clamp_pairs c) in *. clearbody c0.
  set (c2 := clamp_chunk (clamp_first c0)).
  assert (forall o, (o < 186 \/ 188 <= o < 200 \/ 202 <= o < 248 \/ 250 <= o < 296 \/ 298 <= o < 320 \/ 322 <= o)%nat -> c2 o = c0 o) as E.
  { intros o Ho. unfold c2. rewrite clamp_chunk_ne, clamp_first_ne by lia. done. }
  assert (forall o, (o < 104 \/ 120 <= o < 152 \/ 168 <= o < 214 \/ 230 <= o)%nat -> clamp_arrays c2 o = c2 o) as EA.
  { intros o Ho. apply clamp_arrays_ne; [..|lia]; unfold u8; rewrite E by lia; fold (u8 c0 302) (u8 c0 202) (u8 c0 329); lia. }
  split.
  - intros o Ho. unfold apart in Ho. rewrite EA, E by lia. done.
  - rewrite (u16_ext _ c2 186) by (apply EA; lia). unfold c2.
    rewrite (u16_ext _ (clamp_first c0) 186) by (apply clamp_chunk_ne; lia). apply clamp_first_cap.
Qed.

(** The bounds the framing relies on. *)
Record profile_ok (p : ctx) : Prop := {
  po_presalt : PreSaltMin p <= PreSaltMax p <= 128;
  po_padding : PaddingMin p <= PaddingMax p <= 128;
  po_postpad : PostpadBase p <= PostpadMax p <= 730;
  po_postpad_pos : 0 < PostpadMax p;
  po_chunk_buckets : ChunkBucketCount p = 8;
  po_write_buckets : WriteBucketCount p = 8;
  po_first_cap : 256 <= FirstChunkCap p;
  po_band : 0 < u8 p 278;
}.

Theorem DeriveProfile_ok `{Crypto} psk : profile_ok (DeriveProfile psk).
Proof.
  unfold DeriveProfile. set (ms := MasterSeed psk). set (f := put_fields ms _).
  assert (forall o, (o < 176 \/ 178 <= o < 188 \/ 190 <= o < 204 \/ 206 <= o < 272 \/ 274 <= o < 284 \/ 286 <= o < 304 \/ 306 <= o)%nat ->
    clamp_pairs f o = f o) as Hp.
  { intros o Ho. unfold clamp_pairs. rewrite !capmin_ne by lia. done. }
  assert (f 302%nat = x08 /\ f 202%nat = x08 /\ 4 <= u8 f 329 <= 8 /\ 184 <= u16 f 176 /\ 24 <= u8 f 278) as (F1 & F2 & F3 & F4 & F5).
  { unfold f. split_and!; [apply field_302|apply field_202|apply field_329|apply field_329|apply field_176|apply field_278]. }
  clearbody f.
  assert (forall o, o = 302%nat \/ o = 202%nat \/ o = 329%nat \/ o = 278%nat -> u8 (clamp_pairs f) o = u8 f o) as Hu.
  { intros o Ho. unfold u8. rewrite Hp by lia. done. }
  destruct (clamp_rest f) as [Hr Hcap]; [rewrite Hu by lia; unfold u8; by rewrite F1|rewrite Hu by lia; unfold u8; by rewrite F2|rewrite Hu by lia; lia|].
  assert (forall o, apart o -> u8 (clamp f) o = u8 (clamp_pairs f) o) as H8 by (intros; unfold u8; by rewrite Hr).
  assert (forall o, apart o -> apart (S o) -> u16 (clamp f) o = u16 (clamp_pairs f) o) as H16 by (intros; apply u16_ext; by apply Hr).
  destruct (capmin_pair f 204 304 128) as [A1 A2]; [lia..|].
  set (f1 := capmin f 204 304 128) in *. destruct (capmin_pair f1 284 188 128) as [B1 B2]; [lia..|].
  set (f2 := capmin f1 284 188 128) in *. destruct (capmin_pair f2 272 176 730) as [C1 C2]; [lia..|].
  assert (forall o, (o < 272 \/ 274 <= o)%nat -> (o < 176 \/ 178 <= o)%nat -> clamp_pairs f o = f2 o) as P2.
  { intros. unfold clamp_pairs. fold f1 f2. rewrite capmin_ne by lia. done. }
  assert (forall o, (o < 284 \/ 286 <= o)%nat -> (o < 188 \/ 190 <= o)%nat -> f2 o = f1 o) as P1.
  { intros. unfold f2. rewrite capmin_ne by lia. done. }
  assert (u16 f2 176 = u16 f 176) as E176.
  { apply u16_ext; rewrite P1 by lia; unfold f1; rewrite capmin_ne by lia; done. }
  split; unfold PreSaltMin, PreSaltMax, PaddingMin, PaddingMax, PostpadBase, PostpadMax, ChunkBucketCount, WriteBucketCount, FirstChunkCap.
  - rewrite !H16 by (unfold apart; lia).
    rewrite (u16_ext _ f1 204), (u16_ext _ f1 304) by (rewrite P2, P1 by lia; done). lia.
  - rewrite !H16 by (unfold apart; lia).
    rewrite (u16_ext _ f2 284), (u16_ext _ f2 188) by (rewrite P2 by lia; done). lia.
  - rewrite !H16 by (unfold apart; lia). unfold clamp_pairs. fold f1 f2. rewrite C1, C2. lia.
  - rewrite !H16 by (unfold apart; lia). unfold clamp_pairs. fold f1 f2. rewrite C1, E176. lia.
  - rewrite H8, Hu by (unfold apart; lia). unfold u8. by rewrite F1.
  - rewrite H8, Hu by (unfold apart; lia). unfold u8. by rewrite F2.
  - exact Hcap.
  - rewrite H8, Hu by (unfold apart; lia). lia.
Qed.
