(* ===== verification/SnellShape.v ===== *)
(** * Snell v6: lengths, padding, salt scattering and byte mixing
    ([snellv6/shaping.go], [prf_pad.go], [salt.go], [mix.go], the schedules of [framing.go]) *)
From S2P Require Import Prelude GoStd KcpSegment SnellProfile.
From Stdlib Require Import Init.Byte.

(** ** Schedules *)

Definition PrefixLen (p : ctx) : Z := mapRange (prf32 (RouteSeed33 p) 33 0 0x7053) (PreSaltMin p) (PreSaltMax p).
Definition Prepad (p : ctx) (idx : Z) : Z := mapRange (runtimePRF (RouteSeed33 p) 33 idx 0) (PaddingMin p) (PaddingMax p).

Definition routeSeed (p : ctx) (domain : Z) : Z :=
  let among l := existsb (Z.eqb domain) l in
  if among [0; 1; 14; 15; 33; 34] then seed64 p 168
  else if domain =? 2 then seed64 p 288
  else if (domain =? 3) || ((16 <=? domain) && (domain <=? 20)) then seed64 p 96
  else if ((21 <=? domain) && (domain <=? 26)) || (domain =? 38) || (domain =? 39) then seed64 p 264
  else if ((28 <=? domain) && (domain <=? 32)) || ((35 <=? domain) && (domain <=? 37)) then seed64 p 312
  else seed64 p 192.

Definition rtPRF (p : ctx) (domain idx konst : Z) : Z := runtimePRF (routeSeed p domain) domain idx konst.

(** *** Chunk sizes *)

Definition clamp16 (v chunkMax : Z) : Z :=
  if w16 chunkMax <=? w16 v then (if w16 chunkMax <=? 63 then 64 else w16 chunkMax)
  else if w16 v <=? 63 then 64 else w16 v.

(** The conversion to a signed 32-bit integer. *)
Definition i32 (z : Z) : Z := let u := w32 z in if u <? 2 ^ 31 then u else u - 2 ^ 32.

(** [None] is a division by zero. *)
Definition umod (a b : Z) : option Z := if b =? 0 then None else Some (a mod b).

Definition chunkSize (p : ctx) (cur idx : Z) : option Z :=
  let v := if cur =? 0 then ChunkInitial p else cur in
  v ← (if ChunkPolicy p =? 1 then
         bi ← umod (rtPRF p 38 idx v) (ChunkBucketCount p); Some (ChunkBucket p bi)
       else if ChunkPolicy p =? 2 then
         let j := ChunkJitter p in
         let sum := i32 (v + i32 (i32 (rtPRF p 39 idx v mod (2 * j + 1)) - j)) in
         Some (if sum <? 64 then 64 else w32 sum)
       else Some v);
  Some (clamp16 v (ChunkMax p)).

Definition advanceChunk (p : ctx) (cur : Z) : Z :=
  if cur =? 0 then ChunkInitial p
  else let g := cur + ChunkGrowth p in
       if g <? ChunkMax p then w16 g else ChunkMax p.

(** *** Padding after the header *)

Definition postpadGate (p : ctx) (idx payload : Z) : bool :=
  let interval := PostInterval p in
  if (PostField326 p <=? idx) && ((payload =? 0) || (PostField300 p <? payload)) then
    if negb (interval =? 0) then idx mod interval =? 0 else false
  else true.

Definition postpadBase (p : ctx) (idx payload : Z) : Z :=
  if negb (postpadGate p idx payload) then 0
  else mapRange (rtPRF p 34 idx payload) (PostpadBase p) (PostpadMax p).

Definition jitter (p : ctx) (idx base : Z) : Z :=
  let wj := WriteJitter p in
  let nv := w32 (base + w32 (rtPRF p 36 idx 0 mod (2 * wj + 1) - wj)) in
  if 0 <? i32 nv then nv else 1.

(** The accumulating loop of [minSize]: [None] when it runs out of fuel, [Some None] when it
    divides by zero. *)
Fixpoint grow (fuel : nat) (p : ctx) (idx total r10 r11 : Z) : option (option Z) :=
  match fuel with
  | O => None
  | S fuel' =>
      if w16 r10 <? total then
        match umod (rtPRF p 37 idx r10) (WriteBucketCount p) with
        | None => Some None
        | Some bi2 =>
            let bucket := WriteBucket p bi2 in
            if bucket <=? w16 r10 then
              let delta := PostpadMax p in
              let r11 := w32 (r11 + delta) in
              let r10 := if 0xFFFF <? r11 then 0xFFFFFFFF else w32 (r10 + delta) in
              grow fuel' p idx total r10 r11
            else grow fuel' p idx total bucket r11
        end
      else Some (Some (w16 r10))
  end.

(** Totals above 1459 are returned as they are; below, every turn raises the low half of
    [r10], so 1460 turns are enough. *)
Definition grow_fuel : nat := 1461.

Definition min_base (p : ctx) (idx total : Z) : option Z :=
  base ← (if idx <? WriteSeqCount p then Some (WriteSeq p idx)
          else bi ← umod (rtPRF p 35 idx total) (WriteBucketCount p); Some (WriteBucket p bi));
  Some (if WritePolicy p =? 2 then jitter p idx base else base).

Definition adjust (p : ctx) (idx r10 r11 : Z) : Z :=
  if Z.land (rtPRF p 35 idx r11) 1 =? 1 then
    let half := Z.shiftr (w16 r11) 1 in
    if w16 half <? w16 r10 then w32 (r10 - half) else r10
  else if w16 r10 + w16 r11 <=? 0xFFFF then w32 (r10 + r11)
  else 0xFFFFFFFF.

Definition minSize (p : ctx) (idx total : Z) : option (option Z) :=
  if 0x5B3 <? total then Some (Some (if 0xFFFE <? total then 0xFFFF else w16 total))
  else
    match min_base p idx total with
    | None => Some None
    | Some r10 =>
        let cap730 := w32 (total * WritePayloadFactor p) / 100 in
        let r11 := if w16 cap730 <? 730 then cap730 else 730 in
        grow grow_fuel p idx total (adjust p idx r10 r11) r11
    end.

Definition firstChunkPostpadFloor (p : ctx) (prefixLen prepad postpadBase payload : Z) : Z :=
  let adj := if payload =? 0 then 16 else 0 in
  let target := (25 * (payload + 55 - adj) + 74) / 75 in
  let target := if target <? 192 then 192 else target in
  if target <=? prefixLen + prepad + postpadBase then postpadBase
  else Z.min (target - prefixLen - prepad) (730 + PostpadMax p).

Definition postpadLen (p : ctx) (idx prepad payload : Z) (firstChunk : bool) : option (option Z) :=
  let base := postpadBase p idx payload in
  let total := prepad + base + payload + 23 + (if payload =? 0 then 0 else 16) in
  let total := if firstChunk then total + PrefixLen p + 16 else total in
  match minSize p idx total with
  | Some (Some minsz) =>
      let base := if total <? minsz then base + Z.min (minsz - total) 730 else base in
      Some (Some (if firstChunk then firstChunkPostpadFloor p (PrefixLen p) prepad base payload else base))
  | r => r
  end.

(** ** The padding generator *)

(** The nonzero rows of the substitution table. *)
Definition padRows : list (list Z) :=
  [replicate 16 0;
   [1; 2; 4; 8; 16; 32; 64; 128; 1; 2; 4; 8; 16; 32; 64; 128];
   [3; 5; 9; 17; 33; 65; 129; 6; 10; 18; 34; 66; 130; 12; 24; 36];
   [7; 11; 19; 35; 67; 131; 13; 25; 49; 97; 193; 14; 28; 56; 112; 224];
   [15; 23; 39; 71; 135; 27; 51; 99; 195; 29; 57; 113; 225; 60; 120; 240];
   [248; 244; 236; 220; 188; 124; 242; 230; 206; 158; 62; 241; 227; 199; 143; 31];
   [252; 250; 246; 238; 222; 190; 126; 249; 245; 237; 221; 189; 125; 243; 231; 219];
   [254; 253; 251; 247; 239; 223; 191; 127; 254; 253; 251; 247; 239; 223; 191; 127]].
Definition padTable : list Z := concat padRows.

Definition padRouteSeed (p : ctx) (domain : Z) : Z :=
  if domain =? 2 then seed64 p 288 else if domain =? 3 then seed64 p 96 else seed64 p 168.

Fixpoint le_bytes (n : nat) (v : Z) : bytes :=
  match n with O => [] | S n' => z2b v :: le_bytes n' (Z.shiftr v 8) end.

(** Eight bytes a turn; the last block is cut to what is left. *)
Fixpoint keystream (fuel : nat) (state : Z) (left : nat) : bytes :=
  match fuel with
  | O => []
  | S fuel' =>
      if (left =? 0)%nat then []
      else let state := w64 (state + 0x9E3779B97F4A7C15) in
           take left (le_bytes 8 (fmix64 state)) ++ keystream fuel' state (left - 8)
  end.

Definition padKeystream (p : ctx) (domain konst : Z) (n : nat) : bytes :=
  let state := padRouteSeed p domain in
  let state := Z.lxor state (w64 (0xB57DE1F3F82CB33F + konst * 0xD6E8FEB86659FD93)) in
  let state := Z.lxor state (w64 (domain * 0xA24BAED4963EE407)) in
  let state := Z.lxor state (w64 (Z.of_nat n * 0x165667B19E3779F9 + 0xD4CD3E7B14A36D7)) in
  keystream (S n) state n.

Definition RotateLeft8 (x k : Z) : Z := w8 (Z.lor (Z.shiftl x k) (Z.shiftr x (8 - k))).

Definition pad38DF0 (a1 a2 a3 : Z) : Z :=
  let v4 := if a2 =? 0 then 1 else if a2 <=? 7 then a2 else 7 in
  let v5 := Z.lxor a3 (Z.shiftr a1 4) in
  let v6 := nth (Z.to_nat (16 * v4 + Z.land (Z.lxor a1 a3) 15)) padTable 0 in
  if Z.land v5 7 =? 0 then v6 else RotateLeft8 v6 (Z.land v5 7).

Definition padMode0 (p : ctx) (idx : Z) (out : bytes) : bytes :=
  let mr := mapRange (runtimePRF (seed64 p 168) 1 idx 0) (u8 p 184) (u8 p 298) in
  let e := w32 (Z.shiftl mr 3) in
  let r9 := if e <=? 49 then 1 else if 749 <? e then 7 else w8 ((e + 50) / 100) in
  imap (fun i b => z2b (pad38DF0 (b2z b) r9 (w8 (Z.of_nat i + b2z b)))) out.

Definition pad38E30 (seed lo hi : Z) : Z := w8 (lo + seed mod (hi - lo + 1)).

Definition padMode1 (p : ctx) (out : bytes) : bytes :=
  let c182 := u8 p 278 in
  let c231 := u8 p 327 in
  let band := u8 p 212 + c182 + c231 in
  imap (fun i b =>
    let rem := b2z b mod band in
    z2b (if rem <? c182 then pad38E30 (w8 (Z.of_nat i + b2z b)) 32 126
         else if c182 + c231 <=? rem then pad38E30 (w8 (7 * Z.of_nat i + b2z b)) 192 255
         else pad38E30 (w8 (Z.lxor (Z.of_nat i) (b2z b))) 128 191)) out.

Definition padMode2 (p : ctx) (out : bytes) : bytes :=
  imap (fun i b =>
    let hi := Z.shiftl (Z.shiftr (b2z b) 4 + Z.land (Z.of_nat i) 3 + 3) 4 in
    let lo := (u8 p 310 + Z.land (b2z b) 15 + Z.land (Z.of_nat i) 1) mod 10 in
    z2b (Z.lor hi lo)) out.

Definition padMode3 (p : ctx) (idx : Z) (out : bytes) : bytes :=
  let ks := padKeystream p 2 idx 32 in
  let c164 := u8 p 260 in
  let e := 4 * c164 in
  let v8 := if 3 <? e then (if e <=? 32 then e else 32) else 4 in
  let v10 := if u8 p 328 <? 5 then 5 else u8 p 328 in
  imap (fun i b =>
    let m := Z.of_nat i mod v10 in
    if m <? v10 - 3 then lxor_byte (nth (Z.to_nat (Z.of_nat i mod v8)) ks x00) (z2b (Z.of_nat i * (c164 + 3)))
    else if m <? v10 - 1 then z2b (b2z b mod 10 + 48)
    else b) out.

(** [prfPad] over a region of [n] bytes. *)
Definition prfPad (p : ctx) (idx : Z) (n : nat) : bytes :=
  if (n =? 0)%nat then []
  else
    let out := padKeystream p 0 idx n in
    let mode := u8 p 252 in
    if mode =? 0 then padMode0 p idx out
    else if mode =? 1 then padMode1 p out
    else if mode =? 2 then padMode2 p out
    else if mode =? 3 then padMode3 p idx out
    else out.

(** ** Scattering the salt *)

(** [fisherYatesPerm]: the entries are bytes, so positions above 255 would be truncated. *)
Definition swap (l : list Z) (i j : nat) : list Z := <[j := nth i l 0]> (<[i := nth j l 0]> l).

Definition shuffle_step (seed konst : Z) (n : nat) (perm : list Z) (pos : nat) : list Z :=
  let idx := prfShuffle seed konst (Z.of_nat pos) in
  swap perm pos (pos + Z.to_nat (idx mod Z.of_nat (n - pos))).

Definition shuffle_round (seed : Z) (n : nat) (perm : list Z) (round : nat) : list Z :=
  foldl (shuffle_step seed (Z.of_nat round + 20903) n) perm (seq 0 n).

Definition fisherYatesPerm (seed rounds : Z) (n : nat) : list Z :=
  let perm := (fun i => w8 (Z.of_nat i)) <$> seq 0 n in
  let r := if rounds =? 0 then 1 else rounds in
  foldl (shuffle_round seed n) perm (seq 0 (Z.to_nat r)).

Definition saltKeystream (seed stride : Z) (i : nat) : byte :=
  lxor_byte (z2b (w8 (Z.of_nat i) * stride)) (z2b (prf32 seed 2 20903 (Z.of_nat i))).

Definition DescatterSalt (p : ctx) (inbuf : bytes) : bytes :=
  let perm := fisherYatesPerm (SaltSeed p) (SaltPermRounds p) (length inbuf) in
  (fun i => lxor_byte (nth (Z.to_nat (nth i perm 0)) inbuf x00) (saltKeystream (SaltSeed p) (SaltMaskStride p) i)) <$> seq 0 16.

Definition ScatterSalt (p : ctx) (inbuf salt : bytes) : bytes :=
  let perm := fisherYatesPerm (SaltSeed p) (SaltPermRounds p) (length inbuf) in
  foldl (fun buf i => <[Z.to_nat (nth i perm 0) := lxor_byte (nth i salt x00) (saltKeystream (SaltSeed p) (SaltMaskStride p) i)]> buf)
    inbuf (seq 0 16).

(** ** Mixing *)

(** The positions one round swaps between the two regions. *)
Definition stride (off step : Z) (minlen : nat) : list nat :=
  filter (fun i => (off <= Z.of_nat i) /\ (Z.of_nat i - off) mod step = 0) (seq 0 minlen).

Definition mix_round (p : ctx) (chunkIdx : Z) (minlen round : nat) : list nat :=
  let mode := MixMode p in
  if mode =? 1 then
    let block := if MixBlock p =? 0 then 1 else MixBlock p in
    let nblocks := Z.of_nat minlen / block in
    filter (fun i => (Z.of_nat i / block < nblocks) /\ Z.land (Z.of_nat i / block) 1 = Z.land (Z.of_nat round) 1) (seq 0 minlen)
  else if (mode =? 0) || (mode =? 2) then
    let step := Z.of_nat round mod 3 + MixInterval p in
    let step := if step =? 0 then 1 else step in
    let off := if mode =? 2 then w32 (MixOffset p + runtimePRF (seed64 p 96) 3 chunkIdx (Z.of_nat round)) mod step
               else MixOffset p mod step in
    stride off step minlen
  else [].

Definition swap_at (r : bytes * bytes) (i : nat) : bytes * bytes :=
  (<[i := nth i r.2 x00]> r.1, <[i := nth i r.1 x00]> r.2).

Definition MixPayload (p : ctx) (chunkIdx : Z) (r1 r2 : bytes) : bytes * bytes :=
  let minlen := Nat.min (length r1) (length r2) in
  foldl swap_at (r1, r2) (concat (mix_round p chunkIdx minlen <$> seq 0 (Z.to_nat (MixRounds p)))).

(** ** Lengths are bounded and found *)

Lemma PrefixLen_range p : profile_ok p -> 0 <= PrefixLen p <= 128.
Proof.
  intros [H1 _ _ _ _ _ _ _]. pose proof (u16_range p 204). unfold PrefixLen, PreSaltMin, PreSaltMax in *.
  pose proof (mapRange_bounds (prf32 (RouteSeed33 p) 33 0 0x7053) (u16 p 204) (u16 p 304)). lia.
Qed.

Lemma Prepad_range p idx : profile_ok p -> 0 <= Prepad p idx <= 128.
Proof.
  intros [_ H1 _ _ _ _ _ _]. pose proof (u16_range p 284). unfold Prepad, PaddingMin, PaddingMax in *.
  pose proof (mapRange_bounds (runtimePRF (RouteSeed33 p) 33 idx 0) (u16 p 284) (u16 p 188)). lia.
Qed.

Lemma umod_pos a b : 0 < b -> umod a b = Some (a mod b).
Proof. intros. unfold umod. destruct (b =? 0) eqn:E; [lia|done]. Qed.

Lemma w16_bound z : 0 <= w16 z < 65536.
Proof. apply Z.mod_pos_bound. lia. Qed.

(** Every turn of the loop raises the low half of [r10], which is below [total]. *)
Lemma grow_ends p idx total fuel : forall r10 r11,
  profile_ok p -> total <= 1459 -> Z.max 0 (1460 - w16 r10) < Z.of_nat fuel ->
  exists v, grow fuel p idx total r10 r11 = Some (Some v) /\ 0 <= v < 65536.
Proof.
  induction fuel as [|fuel IH]; intros r10 r11 Hp Ht Hf; [lia|]. cbn [grow]. pose proof (w16_bound r10) as Hr.
  destruct (w16 r10 <? total) eqn:E; [|eauto].
  rewrite umod_pos by (rewrite po_write_buckets by done; lia).
  pose proof (po_postpad p Hp) as Hpp. pose proof (po_postpad_pos p Hp) as Hpos.
  destruct (_ <=? w16 r10) eqn:Eb.
  - apply IH; [done..|]. case_match; [change (w16 0xFFFFFFFF) with 65535; lia|].
    assert (w16 (w32 (r10 + PostpadMax p)) = w16 r10 + PostpadMax p) as ->; [|lia].
    unfold w16, w32 in *. rewrite Z.mod_mod_divide by (by exists (2 ^ 16)).
    rewrite <-(Z.add_mod_idemp_l r10) by lia. rewrite (Z.mod_small (r10 mod _ + _)) by lia. done.
  - apply IH; [done..|]. assert (w16 (WriteBucket p (rtPRF p 37 idx r10 mod WriteBucketCount p)) = WriteBucket p (rtPRF p 37 idx r10 mod WriteBucketCount p)) as Hw.
    { apply Z.mod_small. apply u16_range. }
    rewrite Hw. lia.
Qed.

Lemma minSize_ends p idx total :
  profile_ok p -> exists v, minSize p idx total = Some (Some v) /\ 0 <= v < 65536.
Proof.
  intros Hp. unfold minSize. destruct (0x5B3 <? total) eqn:E.
  - eexists. split; [done|]. pose proof (w16_bound total). case_match; lia.
  - unfold min_base. destruct (idx <? WriteSeqCount p); cbn [mbind option_bind].
    + apply grow_ends; [done|lia|]. unfold grow_fuel. pose proof (w16_bound (adjust p idx (if WritePolicy p =? 2 then jitter p idx (WriteSeq p idx) else WriteSeq p idx)
        (if w16 (w32 (total * WritePayloadFactor p) / 100) <? 730 then w32 (total * WritePayloadFactor p) / 100 else 730))). lia.
    + rewrite umod_pos by (rewrite po_write_buckets by done; lia). cbn [mbind option_bind].
      apply grow_ends; [done|lia|]. unfold grow_fuel. set (r := adjust _ _ _ _). pose proof (w16_bound r). lia.
Qed.

Lemma postpadBase_range p idx payload : profile_ok p -> 0 <= postpadBase p idx payload <= 730.
Proof.
  intros Hp. unfold postpadBase. destruct (postpadGate p idx payload); cbn [negb]; [|lia].
  pose proof (po_postpad p Hp). pose proof (u16_range p 272). unfold PostpadBase, PostpadMax in *.
  pose proof (mapRange_bounds (rtPRF p 34 idx payload) (u16 p 272) (u16 p 176)). lia.
Qed.

Lemma floor_range p prefixLen prepad base payload :
  profile_ok p -> 0 <= prefixLen <= 128 -> 0 <= prepad <= 128 -> 0 <= base <= 1460 -> 0 <= payload ->
  0 <= firstChunkPostpadFloor p prefixLen prepad base payload <= 1460.
Proof.
  intros Hp H1 H2 H3 H4. pose proof (po_postpad p Hp). pose proof (po_postpad_pos p Hp). unfold firstChunkPostpadFloor.
  set (t := (25 * (payload + 55 - _) + 74) / 75). destruct (t <? 192) eqn:E.
  - destruct (192 <=? _) eqn:E1; lia.
  - destruct (t <=? _) eqn:E1; lia.
Qed.

(** The padding is always found, in a bounded number of steps, and fits its header field. *)
Lemma postpadLen_ends p idx prepad payload first :
  profile_ok p -> 0 <= prepad <= 128 -> 0 <= payload ->
  exists v, postpadLen p idx prepad payload first = Some (Some v) /\ 0 <= v <= 1460.
Proof.
  intros Hp Hpre Hpay. pose proof (postpadBase_range p idx payload Hp) as Hb. unfold postpadLen. cbv zeta.
  set (total := if first then _ else _). destruct (minSize_ends p idx total Hp) as (v & -> & Hv).
  eexists. split; [done|]. pose proof (PrefixLen_range p Hp).
  set (base := if total <? v then _ else _). assert (0 <= base <= 1460) by (unfold base; case_match; to_prop; lia).
  destruct first; [|done]. by apply floor_range.
Qed.

Lemma clamp16_range v m : 64 <= clamp16 v m < 65536.
Proof. unfold clamp16. pose proof (w16_bound v). pose proof (w16_bound m). repeat case_match; to_prop; lia. Qed.

Lemma chunkSize_ends p cur idx : profile_ok p -> exists v, chunkSize p cur idx = Some v /\ 64 <= v < 65536.
Proof.
  intros Hp. unfold chunkSize. destruct (ChunkPolicy p =? 1).
  - rewrite umod_pos by (rewrite po_chunk_buckets by done; lia). cbn [mbind option_bind]. eauto using clamp16_range.
  - destruct (ChunkPolicy p =? 2); cbn [mbind option_bind]; eauto using clamp16_range.
Qed.

Lemma length_le_bytes n : forall v, length (le_bytes n v) = n.
Proof. induction n as [|n IH]; intros v; cbn; [done|]. by rewrite IH. Qed.

Lemma length_keystream fuel : forall state n, (n < fuel)%nat -> length (keystream fuel state n) = n.
Proof.
  induction fuel as [|fuel IH]; intros state n Hn; [lia|]. cbn [keystream]. destruct (n =? 0)%nat eqn:E.
  - apply Nat.eqb_eq in E. by subst.
  - apply Nat.eqb_neq in E. rewrite length_app, length_take, length_le_bytes, IH by lia. lia.
Qed.

Lemma length_prfPad p idx n : length (prfPad p idx n) = n.
Proof.
  unfold prfPad. destruct (n =? 0)%nat eqn:E; [apply Nat.eqb_eq in E; by subst|].
  assert (length (padKeystream p 0 idx n) = n) as H by (apply length_keystream; lia).
  unfold padMode0, padMode1, padMode2, padMode3. repeat case_match; rewrite ?length_imap; done.
Qed.

(** ** The salt comes back *)

Lemma lxor_byte_invol a k : lxor_byte (lxor_byte a k) k = a.
Proof.
  unfold lxor_byte. apply b2z_inj. pose proof (b2z_range a). pose proof (b2z_range k).
  assert (0 <= Z.lxor (b2z a) (b2z k) < 256) as Hx.
  { split; [apply Z.lxor_nonneg; lia|].
    destruct (decide (Z.lxor (b2z a) (b2z k) = 0)) as [-> |]; [lia|].
    change 256 with (2 ^ 8). apply Z.log2_lt_pow2; [pose proof (Z.lxor_nonneg (b2z a) (b2z k)); lia|].
    eapply Z.le_lt_trans; [apply Z.log2_lxor; lia|].
    apply Z.max_lub_lt; (destruct (decide (0 < b2z a)), (decide (0 < b2z k)));
      first [apply Z.log2_lt_pow2; lia | replace (b2z a) with 0 by lia; done | replace (b2z k) with 0 by lia; done]. }
  rewrite (b2z_z2b_small (Z.lxor (b2z a) (b2z k))) by done. rewrite Z.lxor_assoc, Z.lxor_nilpotent, Z.lxor_0_r.
  apply b2z_z2b_small. done.
Qed.

(** A swap permutes. *)
Lemma swap_Permutation l i j : (i < length l)%nat -> (j < length l)%nat -> swap l i j ≡ₚ l.
Proof.
  intros Hi Hj. unfold swap.
  destruct (lookup_lt_is_Some_2 l i Hi) as [x Hx]. destruct (lookup_lt_is_Some_2 l j Hj) as [y Hy].
  rewrite (nth_lookup_Some _ _ _ _ Hx), (nth_lookup_Some _ _ _ _ Hy).
  by apply Permutation_insert_swap.
Qed.

Lemma length_swap l i j : length (swap l i j) = length l.
Proof. unfold swap. by rewrite !length_insert. Qed.

Lemma shuffle_round_perm seed n perm round :
  length perm = n -> shuffle_round seed n perm round ≡ₚ perm /\ length (shuffle_round seed n perm round) = n.
Proof.
  intros Hn. unfold shuffle_round.
  assert (forall l perm, (forall i, i ∈ l -> (i < n)%nat) -> length perm = n ->
    foldl (shuffle_step seed (Z.of_nat round + 20903) n) perm l ≡ₚ perm) as H.
  { induction l as [|pos l IH]; intros pm Hl Hlen; [done|]. cbn [foldl].
    assert (pos < n)%nat as Hpos by (apply Hl; left).
    assert (shuffle_step seed (Z.of_nat round + 20903) n pm pos ≡ₚ pm) as Hs.
    { apply swap_Permutation; [lia|].
      pose proof (Z.mod_pos_bound (prfShuffle seed (Z.of_nat round + 20903) (Z.of_nat pos)) (Z.of_nat (n - pos)) ltac:(lia)). lia. }
    rewrite IH; [done|intros; apply Hl; by right|]. by rewrite Hs. }
  assert (foldl (shuffle_step seed (Z.of_nat round + 20903) n) perm (seq 0 n) ≡ₚ perm) as Hp.
  { apply H; [|done]. intros i Hi. apply elem_of_seq in Hi. lia. }
  split; [done|]. by rewrite Hp.
Qed.

Lemma fisherYates_perm seed rounds n :
  (n <= 256)%nat -> fisherYatesPerm seed rounds n ≡ₚ Z.of_nat <$> seq 0 n.
Proof.
  intros Hn. unfold fisherYatesPerm. set (r := Z.to_nat _).
  assert ((fun i => w8 (Z.of_nat i)) <$> seq 0 n = Z.of_nat <$> seq 0 n) as ->.
  { apply list_fmap_ext. intros _ i Hi%list_elem_of_lookup_2. apply elem_of_seq in Hi. apply Z.mod_small. lia. }
  set (id0 := Z.of_nat <$> seq 0 n). assert (length id0 = n) as Hl by (unfold id0; by rewrite length_fmap, length_seq).
  assert (forall l p, length p = n -> foldl (shuffle_round seed n) p l ≡ₚ p) as H.
  { induction l as [|x l IH]; intros p Hp; [done|]. cbn [foldl]. destruct (shuffle_round_perm seed n p x Hp) as [H1 H2].
    by rewrite IH. }
  by apply H.
Qed.

(** Its entries are distinct positions. *)
Lemma perm_entries seed rounds n :
  (n <= 256)%nat ->
  (forall i, (i < n)%nat -> (Z.to_nat (nth i (fisherYatesPerm seed rounds n) 0%Z) < n)%nat) /\
  (forall i j, (i < n)%nat -> (j < n)%nat ->
     Z.to_nat (nth i (fisherYatesPerm seed rounds n) 0%Z) = Z.to_nat (nth j (fisherYatesPerm seed rounds n) 0%Z) -> i = j).
Proof.
  intros Hn. pose proof (fisherYates_perm seed rounds n Hn) as Hp. set (perm := fisherYatesPerm _ _ _) in *. clearbody perm.
  assert (length perm = n) as Hl by (rewrite Hp, length_fmap, length_seq; done).
  assert (NoDup perm) as Hnd. { rewrite Hp. apply NoDup_fmap_2; [intros ? ?; lia|apply NoDup_seq]. }
  assert (forall i, (i < n)%nat -> exists x, perm !! i = Some x /\ 0 <= x < Z.of_nat n /\ nth i perm 0 = x) as Hx.
  { intros i Hi. destruct (lookup_lt_is_Some_2 perm i ltac:(lia)) as [x Hx]. exists x. split; [done|].
    apply list_elem_of_lookup_2 in Hx as Hin. rewrite Hp in Hin. apply list_elem_of_fmap in Hin as (k & -> & Hk).
    apply elem_of_seq in Hk. split; [lia|by apply nth_lookup_Some]. }
  split.
  - intros i Hi. destruct (Hx i Hi) as (x & _ & Hr & ->). lia.
  - intros i j Hi Hj E. destruct (Hx i Hi) as (x & Lx & Hrx & Ex), (Hx j Hj) as (y & Ly & Hry & Ey).
    rewrite Ex, Ey in E. assert (x = y) as -> by lia. by eapply NoDup_lookup.
Qed.

(** Scattering writes each salt byte at its own place. *)
Lemma scatter_lookup (f : nat -> nat) (g : nat -> byte) l : forall (buf : bytes) i,
  (forall a b, a ∈ l -> b ∈ l -> f a = f b -> a = b) -> (forall a, a ∈ l -> (f a < length buf)%nat) -> i ∈ l ->
  foldl (fun buf i => <[f i := g i]> buf) buf l !! f i = Some (g i).
Proof.
  intros buf i. revert i buf. induction l as [|a l IH]; intros i buf Hinj Hlt Hi; [by apply not_elem_of_nil in Hi|].
  cbn [foldl]. destruct (decide (i ∈ l)) as [Hil|Hil].
  - apply IH; [intros x y Hx Hy; apply Hinj; by right|intros; rewrite length_insert; apply Hlt; by right|done].
  - apply elem_of_cons in Hi as [->|?]; [|done].
    assert (forall l' (buf' : bytes), (forall b, b ∈ l' -> f b <> f a) ->
      foldl (fun (buf : bytes) i => <[f i := g i]> buf) buf' l' !! f a = buf' !! f a) as Hkeep.
    { induction l' as [|b l' IH']; intros buf' Hb; [done|]. cbn [foldl]. rewrite IH' by (intros; apply Hb; by right).
      apply list_lookup_insert_ne. apply Hb. left. }
    rewrite Hkeep; [apply list_lookup_insert_eq, Hlt; left|].
    intros b Hb E. apply Hil. rewrite (Hinj a b); [done|left|by right|done].
Qed.

Lemma length_ScatterSalt p buf salt : length (ScatterSalt p buf salt) = length buf.
Proof.
  unfold ScatterSalt. cbv zeta. generalize (seq 0 16). set (perm := fisherYatesPerm _ _ _). clearbody perm.
  intros l. revert buf. induction l as [|i l IH]; intros buf; [done|]. cbn [foldl]. rewrite IH. apply length_insert.
Qed.

(** What is scattered into a region of 16 to 256 bytes is read back from it. *)
Theorem salt_roundtrip p buf salt :
  (16 <= length buf <= 256)%nat -> length salt = 16%nat -> DescatterSalt p (ScatterSalt p buf salt) = salt.
Proof.
  intros Hb Hs. unfold DescatterSalt. rewrite length_ScatterSalt. unfold ScatterSalt. cbv zeta.
  set (perm := fisherYatesPerm _ _ _). destruct (perm_entries (SaltSeed p) (SaltPermRounds p) (length buf) ltac:(lia)) as [H1 H2].
  fold perm in H1, H2. clearbody perm. apply list_eq. intros i. rewrite list_lookup_fmap.
  destruct (decide (i < 16)%nat) as [Hi|Hi].
  - rewrite lookup_seq_lt by done. cbn [fmap option_fmap option_map].
    rewrite (nth_lookup_Some _ _ _ _ (scatter_lookup (fun i => Z.to_nat (nth i perm 0))
      (fun i => lxor_byte (nth i salt x00) (saltKeystream (SaltSeed p) (SaltMaskStride p) i)) (seq 0 16) buf i
      ltac:(intros a b Ha Hb'; apply elem_of_seq in Ha, Hb'; apply H2; lia)
      ltac:(intros a Ha; apply elem_of_seq in Ha; apply H1; lia)
      ltac:(apply elem_of_seq; lia))).
    rewrite lxor_byte_invol. destruct (lookup_lt_is_Some_2 salt i ltac:(lia)) as [x Hx].
    by rewrite Hx, (nth_lookup_Some _ _ _ _ Hx).
  - rewrite lookup_seq_ge by lia. symmetry. apply lookup_ge_None_2. lia.
Qed.

(** ** Mixing is its own inverse *)

Lemma swap_at_length r i : length (swap_at r i).1 = length r.1 /\ length (swap_at r i).2 = length r.2.
Proof. unfold swap_at. cbn. by rewrite !length_insert. Qed.

Definition hits (i : nat) (l : list nat) : nat := length (filter (fun x => x = i) l).

(** After the swaps of [l], the bytes at [i] are exchanged when [i] was hit an odd number of
    times. *)
Lemma mix_lookup l : forall r i,
  (forall x, x ∈ l -> (x < length r.1)%nat /\ (x < length r.2)%nat) ->
  let r' := foldl swap_at r l in
  (r'.1 !! i, r'.2 !! i) = if Nat.even (hits i l) then (r.1 !! i, r.2 !! i) else (r.2 !! i, r.1 !! i).
Proof.
  induction l as [|x l IH]; intros r i Hl; [done|]. cbn [foldl]. destruct (Hl x ltac:(left)) as [Hx1 Hx2].
  destruct (swap_at_length r x) as [L1 L2]. specialize (IH (swap_at r x) i). cbv zeta in IH |- *.
  rewrite IH by (intros y Hy; rewrite L1, L2; apply Hl; by right).
  unfold hits. rewrite filter_cons. destruct (decide (x = i)) as [->|Hne]; cbn [length].
  - rewrite Nat.even_succ, <-Nat.negb_even. unfold swap_at. cbn [fst snd].
    rewrite !list_lookup_insert_eq by done.
    destruct (lookup_lt_is_Some_2 _ _ Hx1) as [a Ha], (lookup_lt_is_Some_2 _ _ Hx2) as [b Hb].
    rewrite (nth_lookup_Some _ _ _ _ Ha), (nth_lookup_Some _ _ _ _ Hb), Ha, Hb. by destruct (Nat.even _).
  - unfold swap_at. cbn [fst snd]. rewrite !list_lookup_insert_ne by done. done.
Qed.

Lemma mix_length l : forall r, length (foldl swap_at r l).1 = length r.1 /\ length (foldl swap_at r l).2 = length r.2.
Proof.
  induction l as [|x l IH]; intros r; [done|]. cbn [foldl]. destruct (IH (swap_at r x)) as [-> ->]. apply swap_at_length.
Qed.

Lemma mix_round_bound p idx minlen round i : i ∈ mix_round p idx minlen round -> (i < minlen)%nat.
Proof.
  unfold mix_round, stride. repeat case_match; try (intros [_ Hi]%list_elem_of_filter; apply elem_of_seq in Hi; lia).
  by intros ?%not_elem_of_nil.
Qed.

Lemma MixPayload_length p idx r1 r2 :
  length (MixPayload p idx r1 r2).1 = length r1 /\ length (MixPayload p idx r1 r2).2 = length r2.
Proof. apply (mix_length _ (r1, r2)). Qed.

(** Mixing twice, with the same chunk number, restores both regions. *)
Theorem MixPayload_involutive p idx r1 r2 :
  let '(a, b) := MixPayload p idx r1 r2 in MixPayload p idx a b = (r1, r2).
Proof.
  destruct (MixPayload_length p idx r1 r2) as [L1 L2]. destruct (MixPayload p idx r1 r2) as [a b] eqn:E. cbn in L1, L2.
  unfold MixPayload in *. rewrite L1, L2. set (l := concat _) in *.
  assert (forall x, x ∈ l -> (x < length r1)%nat /\ (x < length r2)%nat) as Hl.
  { intros x Hx. unfold l in Hx. apply list_elem_of_In, in_concat in Hx as (m & Hm & Hx).
    apply list_elem_of_In, list_elem_of_fmap in Hm as (k & -> & _). apply list_elem_of_In, mix_round_bound in Hx. lia. }
  clearbody l. pose proof (mix_lookup l (r1, r2)) as H1. rewrite E in H1. cbn [fst snd] in H1.
  pose proof (mix_lookup l (a, b)) as H2. destruct (foldl swap_at (a, b) l) as [c d]. cbn [fst snd] in H2.
  f_equal; apply list_eq; intros i; specialize (H1 i Hl); specialize (H2 i ltac:(by rewrite L1, L2)); cbn [fst snd] in H2.
  - destruct (Nat.even (hits i l)); congruence.
  - destruct (Nat.even (hits i l)); congruence.
Qed.
