(* ===== verification/SnellFrame.v ===== *)
(** * Snell v6: chunks ([snellv6/framing.go], [mode.go], [crypto.go])

    One direction of a connection: a [Sender] turns writes into chunks, a [Receiver] reads one
    chunk at a time from the stream. The salt the sender draws is an argument of the call that
    draws it. *)
From S2P Require Import Prelude GoStd Link Utf8 KcpSegment SnellChunk SnellProfile SnellShape.
From Stdlib Require Import Init.Byte.

(** ** Nonces *)

Record Nonce := mkNonce { n_lo : Z; n_hi : Z }.
Definition zeroNonce : Nonce := mkNonce 0 0.
Definition Nonce_Bytes (n : Nonce) : bytes := le_bytes 8 (n_lo n) ++ le_bytes 4 (n_hi n).
Definition Inc (n : Nonce) : Nonce :=
  let lo := w64 (n_lo n + 1) in
  mkNonce lo (if lo =? 0 then w32 (n_hi n + 1) else n_hi n).

(** ** Modes *)

Inductive Mode := ModeDefault | ModeUnshaped | ModeUnsafeRaw.

Definition Mode_String (m : Mode) : bytes :=
  match m with ModeUnshaped => bs "unshaped" | ModeUnsafeRaw => bs "unsafe-raw" | ModeDefault => bs "default" end.

(** [strings.EqualFold] against a lower-case ASCII word: besides the capitals, the long s and
    the Kelvin sign fold into ASCII. *)
Definition fold_rune (r : Z) : Z :=
  if (65 <=? r) && (r <=? 90) then r + 32 else if r =? 0x17F then 115 else if r =? 0x212A then 107 else r.
Definition EqualFold (s word : bytes) : bool :=
  bool_decide (fold_rune <$> runes (length s) s = b2z <$> word).

Definition ParseMode (s : bytes) : Mode * bool :=
  if EqualFold s (bs "default") then (ModeDefault, true)
  else if EqualFold s (bs "unshaped") then (ModeUnshaped, true)
  else if EqualFold s (bs "unsafe-raw") then (ModeUnsafeRaw, true)
  else (ModeDefault, false).

(** [maxModeChunk] is [maxFrame]. *)

(** The header of every chunk. *)
Definition chunk_header (postpad payload : Z) : bytes := [x04; x00; x00] ++ be_enc 2 postpad ++ be_enc 2 payload.

Definition validModeHeader (hdr : bytes) : bool :=
  bool_decide (length hdr = 7%nat /\ take 5 hdr = [x04; x00; x00; x00; x00]).

Section framing.
Context `{Crypto}.

(** ** [Sender] *)

Record Sender := mkSender {
  s_prof : ctx;
  s_psk : bytes;
  s_aead : bytes;        (* the key of the cipher, once started *)
  s_nonce : Nonce;
  s_idx : Z;
  s_started : bool;
  s_chacha : bool;
  s_salt : bytes;
  s_curSize : Z;
  s_lastWrite : Z;
  s_Shaped : bool;
  s_Mode : Mode;
}.

Definition NewSenderWithProfile (psk : bytes) (chacha : bool) (prof : ctx) (mode : Mode) : Sender :=
  mkSender prof psk [] zeroNonce 0 false chacha (replicate 16 x00) 0 0 true mode.
Definition NewSender (psk : bytes) (chacha : bool) (mode : Mode) : Sender :=
  NewSenderWithProfile psk chacha (DeriveProfile psk) mode.

(** The first chunk draws the salt and derives the key. *)
Definition start (s : Sender) (salt : bytes) : Sender :=
  mkSender (s_prof s) (s_psk s) (SessionKey (s_psk s) salt) zeroNonce (s_idx s) true (s_chacha s) salt
    (s_curSize s) (s_lastWrite s) (s_Shaped s) (s_Mode s).

Definition s_seal (s : Sender) (p ad : bytes) : bytes * Sender :=
  (Seal (s_chacha s) (s_aead s) (Nonce_Bytes (s_nonce s)) p ad,
   mkSender (s_prof s) (s_psk s) (s_aead s) (Inc (s_nonce s)) (s_idx s) (s_started s) (s_chacha s) (s_salt s)
     (s_curSize s) (s_lastWrite s) (s_Shaped s) (s_Mode s)).

Definition s_next (s : Sender) : Sender :=
  mkSender (s_prof s) (s_psk s) (s_aead s) (s_nonce s) (w32 (s_idx s + 1)) (s_started s) (s_chacha s) (s_salt s)
    (s_curSize s) (s_lastWrite s) (s_Shaped s) (s_Mode s).

Definition chunk_postpad (s : Sender) (prepadLen payload : Z) (first : bool) : res snellErr Z :=
  if s_Shaped s then
    match postpadLen (s_prof s) (s_idx s) prepadLen payload first with
    | Some (Some n) => Ok n
    | Some None => Err Divides
    | None => Err Diverges
    end
  else Ok 0.

Definition encodeOne (s : Sender) (salt payload : bytes) : res snellErr (bytes * Sender) :=
  if 0xFFFF <? len payload then Err ErrChunk
  else
    let p := s_prof s in
    let first := negb (s_started s) in
    let prepadLen := Prepad p (s_idx s) in
    match chunk_postpad s prepadLen (len payload) first with
    | Err e => Err e
    | Ok postpadLen =>
        let '(region, s) :=
          if first then (ScatterSalt p (prfPad p 0xFFFFFFFF (Z.to_nat (PrefixLen p + 16))) salt, start s salt) else ([], s) in
        let prepad := prfPad p (s_idx s) (Z.to_nat prepadLen) in
        let '(encHdr, s) := s_seal s (chunk_header postpadLen (len payload)) prepad in
        let postpad := prfPad p (s_idx s) (Z.to_nat postpadLen) in
        let '(tail, s) :=
          if bool_decide (payload = []) then (postpad, s)
          else let '(sealed, s) := s_seal s payload postpad in
               let '(a, b) := MixPayload p (s_idx s) postpad sealed in (a ++ b, s) in
        Ok (region ++ prepad ++ encHdr ++ tail, s_next s)
    end.

(** *** Splitting a write *)

Definition with_size (s : Sender) (cur last : Z) : Sender :=
  mkSender (s_prof s) (s_psk s) (s_aead s) (s_nonce s) (s_idx s) (s_started s) (s_chacha s) (s_salt s)
    cur last (s_Shaped s) (s_Mode s).

Definition next_size (s : Sender) : res snellErr (Z * Sender) :=
  match chunkSize (s_prof s) (s_curSize s) (s_idx s) with
  | None => Err Divides
  | Some sz => Ok (sz, with_size s (advanceChunk (s_prof s) (s_curSize s)) (s_lastWrite s))
  end.

(** Every turn takes at least a byte of a non-empty payload. *)
Fixpoint split_loop (fuel : nat) (s : Sender) (salt payload : bytes) (sz : Z) : res snellErr (bytes * Sender) :=
  match fuel with
  | O => Err Diverges
  | S fuel' =>
      let n := Z.to_nat (Z.min (len payload) sz) in
      match encodeOne s salt (take n payload) with
      | Err e => Err e
      | Ok (c, s) =>
          let rest := drop n payload in
          if bool_decide (rest = []) then Ok (c, s)
          else match next_size s with
               | Err e => Err e
               | Ok (sz, s) =>
                   match split_loop fuel' s salt rest sz with
                   | Err e => Err e
                   | Ok (out, s) => Ok (c ++ out, s)
                   end
               end
      end
  end.

(** *** The plain modes *)

Definition unshapedOne (s : Sender) (salt payload : bytes) : bytes * Sender :=
  let '(pre, s) := if s_started s then ([], s) else (salt, start s salt) in
  let '(encHdr, s) := s_seal s (chunk_header 0 (len payload)) [] in
  let '(body, s) := if bool_decide (payload = []) then ([], s) else s_seal s payload [] in
  (pre ++ encHdr ++ body, s_next s).

Definition rawOne (s : Sender) (salt payload : bytes) : bytes * Sender := (chunk_header 0 (len payload) ++ payload, s).

Definition encodePlain (one : Sender -> bytes -> bytes -> bytes * Sender) (s : Sender) (salt payload : bytes)
  : res snellErr (bytes * Sender) :=
  if (length payload <=? maxFrame)%nat then Ok (one s salt payload)
  else split_each (fun s p => one s salt p) (S (length payload)) s payload.

Definition raw_start (s : Sender) : Sender :=
  mkSender (s_prof s) (s_psk s) (s_aead s) (s_nonce s) (s_idx s) true (s_chacha s) (s_salt s) (s_curSize s)
    (s_lastWrite s) (s_Shaped s) (s_Mode s).

Definition encodeUnshaped := encodePlain unshapedOne.
Definition encodeRaw (s : Sender) (salt payload : bytes) := encodePlain rawOne (raw_start s) salt payload.

(** [EncodeChunk]: one write at time [now]. *)
Definition EncodeChunk (s : Sender) (salt : bytes) (now : Z) (payload : bytes) : res snellErr (bytes * Sender) :=
  match s_Mode s with
  | ModeUnshaped => encodeUnshaped s salt payload
  | ModeUnsafeRaw => encodeRaw s salt payload
  | ModeDefault =>
      if negb (s_Shaped s) then encodeOne s salt payload
      else
        let p := s_prof s in
        let cur := if (s_lastWrite s =? 0) || (IdleReset p <? now - s_lastWrite s) then ChunkInitial p else s_curSize s in
        match next_size (with_size s cur now) with
        | Err e => Err e
        | Ok (sz, s) =>
            let sz := if (s_idx s =? 0) && (FirstChunkCap p <? sz) then FirstChunkCap p else sz in
            if (len payload =? 0) || (len payload <=? sz) then encodeOne s salt payload
            else split_loop (S (length payload)) s salt payload sz
        end
  end.

(** ** [Receiver] *)

Record Receiver := mkReceiver {
  r_prof : ctx;
  r_psk : bytes;
  r_aead : bytes;
  r_nonce : Nonce;
  r_idx : Z;
  r_started : bool;
  r_chacha : bool;
  r_salt : bytes;
  r_Mode : Mode;
  r_last : Z * Z * Z;
}.

Definition NewReceiverWithProfile (psk : bytes) (prof : ctx) (mode : Mode) : Receiver :=
  mkReceiver prof psk [] zeroNonce 0 false false (replicate 16 x00) mode (0, 0, 0).
Definition NewReceiver (psk : bytes) (mode : Mode) : Receiver := NewReceiverWithProfile psk (DeriveProfile psk) mode.

Definition r_inc (r : Receiver) : Receiver :=
  mkReceiver (r_prof r) (r_psk r) (r_aead r) (Inc (r_nonce r)) (r_idx r) (r_started r) (r_chacha r) (r_salt r) (r_Mode r) (r_last r).
(** The cipher is locked in by the first header. *)
Definition r_start (r : Receiver) (key salt : bytes) (chacha : bool) : Receiver :=
  mkReceiver (r_prof r) (r_psk r) key (r_nonce r) (r_idx r) true chacha salt (r_Mode r) (r_last r).
Definition r_chunk (r : Receiver) (shape : Z * Z * Z) (step : Z) : Receiver :=
  mkReceiver (r_prof r) (r_psk r) (r_aead r) (r_nonce r) (w32 (r_idx r + step)) (r_started r) (r_chacha r) (r_salt r) (r_Mode r) shape.
Definition r_raw (r : Receiver) : Receiver :=
  mkReceiver (r_prof r) (r_psk r) (r_aead r) (r_nonce r) (r_idx r) true (r_chacha r) (r_salt r) (r_Mode r) (r_last r).

Definition r_open (r : Receiver) (sealed ad : bytes) : option bytes :=
  OpenSealed (r_chacha r) (r_aead r) (Nonce_Bytes (r_nonce r)) sealed ad.

(** AES first, then ChaCha; [valid] is the check on the opened header. *)
Definition openFirst (r : Receiver) (key sealed ad : bytes) (valid : bytes -> bool) : option (bytes * bool) :=
  let try ch := match OpenSealed ch key (Nonce_Bytes (r_nonce r)) sealed ad with
                | Some pt => if valid pt then Some (pt, ch) else None
                | None => None
                end in
  match try false with Some x => Some x | None => try true end.

Definition validHeader (hdr : bytes) : bool := bool_decide (length hdr = 7%nat /\ take 1 hdr = [x04]).
Definition hdr_postpad (hdr : bytes) : Z := be_dec (take 2 (drop 3 hdr)).
Definition hdr_payload (hdr : bytes) : Z := be_dec (take 2 (drop 5 hdr)).

Definition finishChunk (r : Receiver) (hdr : bytes) : hs snellErr (bytes * Receiver) :=
  let idx := r_idx r in
  let r := r_chunk r (Prepad (r_prof r) idx, hdr_postpad hdr, hdr_payload hdr) 1 in
  postpad ← hread (Z.to_nat (hdr_postpad hdr));
  if hdr_payload hdr =? 0 then mret ([], r)
  else
    encPayload ← hread (Z.to_nat (hdr_payload hdr + 16));
    let '(postpad, encPayload) := MixPayload (r_prof r) idx postpad encPayload in
    match r_open r encPayload postpad with
    | None => hfail errOpen
    | Some payload => mret (payload, r_inc r)
    end.

Definition finishUnshaped (r : Receiver) (hdr : bytes) : hs snellErr (bytes * Receiver) :=
  let r := r_chunk r (0, 0, hdr_payload hdr) 1 in
  if hdr_payload hdr =? 0 then mret ([], r)
  else
    encPayload ← hread (Z.to_nat (hdr_payload hdr + 16));
    match r_open r encPayload [] with
    | None => hfail errOpen
    | Some payload => mret (payload, r_inc r)
    end.

(** A header of a connection that has started. *)
Definition next_header (r : Receiver) (prepad : bytes) (valid : bytes -> bool) : hs snellErr (bytes * Receiver) :=
  encHdr ← hread 23;
  match r_open r encHdr prepad with
  | None => hfail errOpen
  | Some hdr => if valid hdr then mret (hdr, r_inc r) else hfail errBadHeader
  end.

(** The first header. *)
Definition first_header (r : Receiver) (salt prepad : bytes) (valid : bytes -> bool) : hs snellErr (bytes * Receiver) :=
  let key := SessionKey (r_psk r) salt in
  encHdr ← hread 23;
  match openFirst r key encHdr prepad valid with
  | None => hfail errBadHeader
  | Some (hdr, chacha) => mret (hdr, r_inc (r_start r key salt chacha))
  end.

Definition header_default (r : Receiver) : hs snellErr (bytes * Receiver) :=
  let p := r_prof r in
  if r_started r then
    prepad ← hread (Z.to_nat (Prepad p (r_idx r)));
    next_header r prepad validHeader
  else
    region ← hread (Z.to_nat (PrefixLen p + 16));
    prepad ← hread (Z.to_nat (Prepad p (r_idx r)));
    first_header r (DescatterSalt p region) prepad validHeader.

Definition decodeDefault (r : Receiver) : hs snellErr (bytes * Receiver) :=
  hr ← header_default r;
  let '(hdr, r) := hr in finishChunk r hdr.

Definition header_unshaped (r : Receiver) : hs snellErr (bytes * Receiver) :=
  if r_started r then next_header r [] validModeHeader
  else salt ← hread 16; first_header r salt [] validModeHeader.

Definition decodeUnshaped (r : Receiver) : hs snellErr (bytes * Receiver) :=
  hr ← header_unshaped r;
  let '(hdr, r) := hr in finishUnshaped r hdr.

Definition decodeRaw (r : Receiver) : hs snellErr (bytes * Receiver) :=
  let r := r_raw r in
  hdr ← hread 7;
  if negb (validModeHeader hdr) then hfail errRawHeader
  else
    let r := r_chunk r (0, 0, hdr_payload hdr) 0 in
    if hdr_payload hdr =? 0 then mret ([], r)
    else payload ← hread (Z.to_nat (hdr_payload hdr)); mret (payload, r).

Definition DecodeChunk (r : Receiver) : hs snellErr (bytes * Receiver) :=
  match r_Mode r with
  | ModeUnshaped => decodeUnshaped r
  | ModeUnsafeRaw => decodeRaw r
  | ModeDefault => decodeDefault r
  end.
End framing.
