(* ===== verification/SnellFrameSpec.v ===== *)
(** * Snell v6 chunks are read back

    Whatever is written, in whatever pieces and at whatever times, the receiver that was made
    from the same key reads it back chunk by chunk, in all three modes. *)
From S2P Require Import Prelude GoStd Link KcpSegment SnellChunk SnellProfile SnellShape SnellFrame.
From Stdlib Require Import Init.Byte.

Section spec.
Context `{HC : Crypto} `{!CryptoLaws}.

(** Only when the sender uses ChaCha does the receiver's first attempt, with AES, matter: it
    must not authenticate what it has not sealed. *)
Definition aes_rejects_chacha : Prop :=
  forall key nonce p ad, OpenSealed false key nonce (Seal true key nonce p ad) ad = None.

(** ** Headers *)

Lemma chunk_header_fields a b :
  0 <= a < 65536 -> 0 <= b < 65536 ->
  hdr_postpad (chunk_header a b) = a /\ hdr_payload (chunk_header a b) = b /\
  validHeader (chunk_header a b) = true /\ (a = 0 -> validModeHeader (chunk_header a b) = true) /\
  length (chunk_header a b) = 7%nat.
Proof.
  intros Ha Hb. unfold chunk_header. set (x := be_enc 2 a). set (y := be_enc 2 b).
  assert (length x = 2%nat) as Lx by apply length_be_enc. assert (length y = 2%nat) as Ly by apply length_be_enc.
  assert (be_dec x = a) as Dx by (apply be_dec_enc_small; lia). assert (be_dec y = b) as Dy by (apply be_dec_enc_small; lia).
  assert (a = 0 -> x = [x00; x00]) as Hz by (intros ->; done). clearbody x y.
  destruct x as [|x1 [|x2 [|]]]; try done. destruct y as [|y1 [|y2 [|]]]; try done.
  unfold hdr_postpad, hdr_payload, validHeader, validModeHeader. cbn [app take drop length].
  split_and!; [done|done|by rewrite bool_decide_true| |done]. intros Ha0. injection (Hz Ha0) as -> ->.
  by rewrite bool_decide_true.
Qed.

(** ** Sender and receiver in step *)

Record synced (s : Sender) (r : Receiver) : Prop := {
  sy_prof : s_prof s = r_prof r;
  sy_ok : profile_ok (s_prof s);
  sy_psk : s_psk s = r_psk r;
  sy_mode : s_Mode s = r_Mode r;
  sy_started : s_started s = r_started r;
  sy_idx : s_idx s = r_idx r;
  sy_shaped : s_Shaped s = true;
  sy_key : s_Mode s <> ModeUnsafeRaw -> s_started s = true ->
    s_aead s = r_aead r /\ s_chacha s = r_chacha r /\ s_nonce s = r_nonce r;
  sy_fresh : s_started s = false -> r_nonce r = zeroNonce;
  sy_cipher : s_chacha s = true -> aes_rejects_chacha;
  sy_range : in_u32 (s_idx s);
}.

Lemma synced_new psk prof chacha mode :
  profile_ok prof -> (chacha = true -> aes_rejects_chacha) ->
  synced (NewSenderWithProfile psk chacha prof mode) (NewReceiverWithProfile psk prof mode).
Proof. intros; split; [done..|]. cbn. unfold in_u32. lia. Qed.

(** The fields [next_size] and the clock change do not matter to the receiver. *)
Lemma synced_size s r cur last : synced s r -> synced (with_size s cur last) r.
Proof. by intros []; split. Qed.

(** *** Opening what was sealed *)

Lemma open_first r s p ad valid salt :
  s_started s = true -> s_aead s = SessionKey (r_psk r) salt -> s_nonce s = r_nonce r -> (s_chacha s = true -> aes_rejects_chacha) ->
  valid p = true ->
  openFirst r (SessionKey (r_psk r) salt) (s_seal s p ad).1 ad valid = Some (p, s_chacha s).
Proof.
  intros _ Hk Hn Hc Hv. unfold openFirst, s_seal. cbn [fst]. rewrite Hk, Hn. destruct (s_chacha s).
  - rewrite Hc by done. by rewrite open_seal, Hv.
  - by rewrite open_seal, Hv.
Qed.

Lemma open_next r s p ad :
  s_aead s = r_aead r -> s_chacha s = r_chacha r -> s_nonce s = r_nonce r -> r_open r (s_seal s p ad).1 ad = Some p.
Proof. intros H1 H2 H3. unfold r_open, s_seal. cbn [fst]. by rewrite H1, H2, H3, open_seal. Qed.

Lemma length_sealed s p ad : length (s_seal s p ad).1 = (length p + 16)%nat.
Proof. apply length_seal. Qed.

(** A chunk's header, first or not: afterwards the keys, the cipher and the nonces agree. *)
Definition keyed (s : Sender) (r : Receiver) : Prop :=
  s_aead s = r_aead r /\ s_chacha s = r_chacha r /\ s_nonce s = r_nonce r.

Lemma first_header_ends r s salt prepad hdr valid :
  s_aead s = SessionKey (r_psk r) salt -> s_nonce s = r_nonce r -> s_started s = true ->
  (s_chacha s = true -> aes_rejects_chacha) -> valid hdr = true -> length hdr = 7%nat ->
  let r' := r_inc (r_start r (SessionKey (r_psk r) salt) salt (s_chacha s)) in
  (forall w, ends (first_header r salt prepad valid) ((s_seal s hdr prepad).1 ++ w) (Ok (hdr, r')) w []) /\ keyed (s_seal s hdr prepad).2 r'.
Proof.
  intros Hk Hn Hs Hc Hv Hl. split.
  - intros w. unfold first_header. eapply (ends_read_bind 23); [rewrite length_sealed; lia|].
    rewrite open_first by done. apply ends_ret.
  - unfold keyed. cbn. by rewrite Hn.
Qed.

Lemma next_header_ends r s prepad hdr valid :
  keyed s r -> valid hdr = true -> length hdr = 7%nat ->
  (forall w, ends (next_header r prepad valid) ((s_seal s hdr prepad).1 ++ w) (Ok (hdr, r_inc r)) w []) /\ keyed (s_seal s hdr prepad).2 (r_inc r).
Proof.
  intros (H1 & H2 & H3) Hv Hl. split.
  - intros w. unfold next_header. eapply (ends_read_bind 23); [rewrite length_sealed; lia|].
    rewrite open_next, Hv by done. apply ends_ret.
  - unfold keyed. cbn. by rewrite H3.
Qed.

(** *** Bodies *)

Definition shaped_tail (s : Sender) (idx : Z) (postpad payload : bytes) : bytes * Sender :=
  if bool_decide (payload = []) then (postpad, s)
  else let '(sealed, s) := s_seal s payload postpad in
       let '(a, b) := MixPayload (s_prof s) idx postpad sealed in (a ++ b, s).

Lemma finishChunk_ends s r postpad payload :
  s_prof s = r_prof r -> s_idx s = r_idx r -> keyed s r -> len postpad < 65536 -> len payload < 65536 ->
  exists r', (forall w, ends (finishChunk r (chunk_header (len postpad) (len payload)))
      ((shaped_tail s (s_idx s) postpad payload).1 ++ w) (Ok (payload, r')) w []) /\
    keyed (shaped_tail s (s_idx s) postpad payload).2 r' /\ r_idx r' = w32 (r_idx r + 1) /\ r_prof r' = r_prof r /\
    r_psk r' = r_psk r /\ r_Mode r' = r_Mode r /\ r_started r' = r_started r.
Proof.
  intros Hp Hi Hk Hl1 Hl2. destruct (chunk_header_fields (len postpad) (len payload)) as (E1 & E2 & _); [unfold len in *; lia..|].
  unfold finishChunk, shaped_tail. rewrite E1, E2. case_bool_decide as Hpay.
  - subst payload. eexists. split; [intros w; eapply (ends_read_bind _ postpad); [unfold len; lia|apply ends_ret]|].
    split; [exact Hk|done].
  - destruct Hk as (H1 & H2 & H3). pose proof (open_next r s payload postpad H1 H2 H3) as Hopen.
    pose proof (length_sealed s payload postpad) as Hls.
    destruct (s_seal s payload postpad) as [sealed s'] eqn:Es. cbn [fst] in *.
    assert (s_prof s' = s_prof s /\ keyed s' (r_inc r)) as [Hp' Hk'].
    { unfold s_seal in Es. injection Es as _ <-. unfold keyed. cbn. by rewrite H3. }
    rewrite Hp'. pose proof (MixPayload_involutive (s_prof s) (s_idx s) postpad sealed) as Hinv.
    destruct (MixPayload_length (s_prof s) (s_idx s) postpad sealed) as [La Lb].
    destruct (MixPayload (s_prof s) (s_idx s) postpad sealed) as [a b]. cbn [fst snd] in *.
    eexists. split; [intros w; rewrite <-app_assoc|shelve].
    eapply (ends_read_bind _ a); [unfold len; lia|].
    destruct (len payload =? 0) eqn:E0; [exfalso; apply Hpay, nil_length_inv; unfold len in E0; lia|].
    eapply (ends_read_bind _ b); [unfold len; lia|]. cbn [r_prof r_chunk]. rewrite <-Hp, <-Hi, Hinv.
    change (r_open (r_chunk r _ 1) sealed postpad) with (r_open r sealed postpad). rewrite Hopen. apply ends_ret.
    Unshelve. split; [exact Hk'|done].
Qed.

Definition plain_tail (s : Sender) (payload : bytes) : bytes * Sender :=
  if bool_decide (payload = []) then ([], s) else s_seal s payload [].

Lemma finishUnshaped_ends s r payload :
  s_idx s = r_idx r -> keyed s r -> len payload < 65536 ->
  exists r', (forall w, ends (finishUnshaped r (chunk_header 0 (len payload))) ((plain_tail s payload).1 ++ w) (Ok (payload, r')) w []) /\
    keyed (plain_tail s payload).2 r' /\ r_idx r' = w32 (r_idx r + 1) /\ r_prof r' = r_prof r /\
    r_psk r' = r_psk r /\ r_Mode r' = r_Mode r /\ r_started r' = r_started r.
Proof.
  intros Hi Hk Hl. destruct (chunk_header_fields 0 (len payload)) as (_ & E2 & _); [unfold len in *; lia..|].
  unfold finishUnshaped, plain_tail. rewrite E2. case_bool_decide as Hpay.
  - subst payload. eexists. split; [intros w; apply ends_ret|]. split; [exact Hk|done].
  - destruct Hk as (H1 & H2 & H3). pose proof (open_next r s payload [] H1 H2 H3) as Hopen.
    pose proof (length_sealed s payload []) as Hls.
    assert (keyed (s_seal s payload []).2 (r_inc r)) as Hk' by (unfold keyed; cbn; by rewrite H3).
    eexists. split; [intros w|shelve].
    destruct (len payload =? 0) eqn:E0; [exfalso; apply Hpay, nil_length_inv; unfold len in E0; lia|].
    eapply (ends_read_bind _ (s_seal s payload []).1); [unfold len; lia|].
    change (r_open (r_chunk r _ 1) ?x []) with (r_open r x []). rewrite Hopen. apply ends_ret.
    Unshelve. split; [exact Hk'|done].
Qed.
(** ** One chunk *)

(** The receiver reads [out] back as the chunk [payload], whatever follows it, and is in step
    with the sender again. *)
Definition chunk_read (s' : Sender) (r : Receiver) (out payload : bytes) : Prop :=
  exists r', (forall w, ends (DecodeChunk r) (out ++ w) (Ok (payload, r')) w []) /\ synced s' r'.

Definition ready (s : Sender) (salt : bytes) : Sender := if s_started s then s else start s salt.

Lemma encodeOne_eq s salt payload n :
  len payload <= 0xFFFF -> chunk_postpad s (Prepad (s_prof s) (s_idx s)) (len payload) (negb (s_started s)) = Ok n ->
  let p := s_prof s in
  let prepad := prfPad p (s_idx s) (Z.to_nat (Prepad p (s_idx s))) in
  let h := s_seal (ready s salt) (chunk_header n (len payload)) prepad in
  let t := shaped_tail h.2 (s_idx s) (prfPad p (s_idx s) (Z.to_nat n)) payload in
  encodeOne s salt payload =
    Ok ((if s_started s then [] else ScatterSalt p (prfPad p 0xFFFFFFFF (Z.to_nat (PrefixLen p + 16))) salt) ++
        prepad ++ h.1 ++ t.1, s_next t.2).
Proof.
  intros Hl Hn. unfold encodeOne, ready. destruct (0xFFFF <? len payload) eqn:E; [lia|]. cbv zeta. rewrite Hn.
  destruct (s_started s); cbn [negb]; unfold shaped_tail, s_seal at 1; cbn [fst snd s_prof s_idx start];
    (case_bool_decide; [reflexivity|]); unfold s_seal; cbn [fst snd s_prof s_idx start];
    destruct (MixPayload _ _ _ _); reflexivity.
Qed.

Lemma chunk_postpad_ends s (payload : bytes) :
  profile_ok (s_prof s) -> s_Shaped s = true ->
  exists n, chunk_postpad s (Prepad (s_prof s) (s_idx s)) (len payload) (negb (s_started s)) = Ok n /\ 0 <= n <= 1460.
Proof.
  intros Hp Hs. unfold chunk_postpad. rewrite Hs.
  destruct (postpadLen_ends (s_prof s) (s_idx s) (Prepad (s_prof s) (s_idx s)) (len payload) (negb (s_started s)) Hp)
    as (n & -> & Hn); [by apply Prepad_range|unfold len; lia|]. eauto.
Qed.

(** Sealing and the tails keep everything but the nonce. *)
Record same_conn (s s' : Sender) : Prop := {
  sc_prof : s_prof s' = s_prof s;
  sc_psk : s_psk s' = s_psk s;
  sc_idx : s_idx s' = s_idx s;
  sc_started : s_started s' = s_started s;
  sc_chacha : s_chacha s' = s_chacha s;
  sc_shaped : s_Shaped s' = s_Shaped s;
  sc_mode : s_Mode s' = s_Mode s;
}.

Lemma same_conn_seal s p ad : same_conn s (s_seal s p ad).2.
Proof. by split. Qed.
Lemma same_conn_shaped s idx postpad payload : same_conn s (shaped_tail s idx postpad payload).2.
Proof.
  unfold shaped_tail. case_bool_decide; [by split|]. unfold s_seal. destruct (MixPayload _ _ _ _). by split.
Qed.
Lemma same_conn_plain s payload : same_conn s (plain_tail s payload).2.
Proof. unfold plain_tail. case_bool_decide; by split. Qed.
Lemma same_conn_trans s1 s2 s3 : same_conn s1 s2 -> same_conn s2 s3 -> same_conn s1 s3.
Proof. intros [] []. split; congruence. Qed.

(** Both ends have counted the chunk. *)
Lemma synced_next s r s1 r1 :
  synced s r -> same_conn s s1 \/ (exists salt, same_conn (start s salt) s1) -> s_started s1 = true ->
  keyed s1 r1 -> r_idx r1 = w32 (r_idx r + 1) -> r_prof r1 = r_prof r -> r_psk r1 = r_psk r -> r_Mode r1 = r_Mode r ->
  r_started r1 = true -> synced (s_next s1) r1.
Proof.
  intros Hsy Hsc Hst Hk Hi Hp Hpsk Hm Hs. destruct Hsy.
  assert (s_prof s1 = s_prof s /\ s_psk s1 = s_psk s /\ s_idx s1 = s_idx s /\ s_chacha s1 = s_chacha s /\
    s_Shaped s1 = s_Shaped s /\ s_Mode s1 = s_Mode s) as (E1 & E2 & E3 & E4 & E5 & E6).
  { destruct Hsc as [[]|[salt []]]; done. }
  split; cbn [s_next s_prof s_psk s_Mode s_started s_idx s_Shaped s_aead s_chacha s_nonce]; rewrite ?E1, ?E2, ?E3, ?E4, ?E5, ?E6;
    [congruence|done|congruence..|intros _ _|congruence|done|apply w32_range].
  destruct Hk as (? & ? & ?). split_and!; congruence.
Qed.

Lemma prefix_fits p : profile_ok p -> (16 <= Z.to_nat (PrefixLen p + 16) <= 256)%nat.
Proof. intros Hp. pose proof (PrefixLen_range p Hp). lia. Qed.

(** The header that starts or continues a connection. *)
Definition header_read (m : hs snellErr (bytes * Receiver)) (s1 : Sender) (r : Receiver) (i hdr : bytes) : Prop :=
  exists r1, (forall w, ends m (i ++ w) (Ok (hdr, r1)) w []) /\ keyed s1 r1 /\ r_idx r1 = r_idx r /\ r_prof r1 = r_prof r /\
    r_psk r1 = r_psk r /\ r_Mode r1 = r_Mode r /\ r_started r1 = true.

Definition opening (s : Sender) (first : bytes) : bytes := if s_started s then [] else first.

Lemma header_default_read s r salt hdr :
  synced s r -> s_Mode s = ModeDefault -> length salt = 16%nat -> validHeader hdr = true -> length hdr = 7%nat ->
  let p := s_prof s in
  let prepad := prfPad p (s_idx s) (Z.to_nat (Prepad p (s_idx s))) in
  let h := s_seal (ready s salt) hdr prepad in
  header_read (header_default r) h.2 r
    (opening s (ScatterSalt p (prfPad p 0xFFFFFFFF (Z.to_nat (PrefixLen p + 16))) salt) ++ prepad ++ h.1) hdr.
Proof.
  intros [Hprof Hok Hpsk _ Hst Hidx _ Hkey Hfresh Hcip Hrg] Hmode Hsalt Hv Hl7. cbv zeta.
  unfold header_read, header_default, ready, opening. rewrite <-Hprof, <-Hidx, <-Hst. set (p := s_prof s) in *.
  set (pl := Prepad p (s_idx s)). set (prepad := prfPad p (s_idx s) (Z.to_nat pl)).
  assert (length prepad = Z.to_nat pl) as Lpre by apply length_prfPad. clearbody pl prepad.
  destruct (s_started s) eqn:Es.
  - destruct (Hkey ltac:(congruence) eq_refl) as (K1 & K2 & K3).
    destruct (next_header_ends r s prepad hdr validHeader) as [He Hk]; [done..|]. eexists.
    split; [intros w; cbn [app]; rewrite <-app_assoc; eapply ends_read_bind; [done|apply He]|]. done.
  - set (s0 := start s salt) in *. set (buf := prfPad p 0xFFFFFFFF (Z.to_nat (PrefixLen p + 16))).
    assert (length buf = Z.to_nat (PrefixLen p + 16)) as Lb by apply length_prfPad. pose proof (prefix_fits p Hok) as Hf.
    destruct (first_header_ends r s0 salt prepad hdr validHeader) as [He Hk]; try done.
    { cbn. by rewrite Hpsk. } { cbn. by rewrite Hfresh. }
    assert (DescatterSalt p (ScatterSalt p buf salt) = salt) as Hd by (apply salt_roundtrip; lia).
    assert (length (ScatterSalt p buf salt) = Z.to_nat (PrefixLen p + 16)) as Ls by (by rewrite length_ScatterSalt).
    set (region := ScatterSalt p buf salt) in *. clearbody region. eexists. split.
    + intros w. rewrite <-!app_assoc. eapply ends_read_bind; [done|]. eapply ends_read_bind; [done|]. rewrite Hd. apply He.
    + done.
Qed.

Lemma header_unshaped_read s r salt hdr :
  synced s r -> s_Mode s = ModeUnshaped -> length salt = 16%nat -> validModeHeader hdr = true -> length hdr = 7%nat ->
  let h := s_seal (ready s salt) hdr [] in
  header_read (header_unshaped r) h.2 r (opening s salt ++ h.1) hdr.
Proof.
  intros [Hprof Hok Hpsk _ Hst Hidx _ Hkey Hfresh Hcip Hrg] Hmode Hsalt Hv Hl7. cbv zeta.
  unfold header_read, header_unshaped, ready, opening. rewrite <-Hst. destruct (s_started s) eqn:Es.
  - destruct (Hkey ltac:(congruence) eq_refl) as (K1 & K2 & K3).
    destruct (next_header_ends r s [] hdr validModeHeader) as [He Hk]; [done..|]. eexists. split; [exact He|done].
  - destruct (first_header_ends r (start s salt) salt [] hdr validModeHeader) as [He Hk]; try done.
    { cbn. by rewrite Hpsk. } { cbn. by rewrite Hfresh. }
    eexists. split; [intros w; rewrite <-app_assoc; eapply ends_read_bind; [done|apply He]|done].
Qed.

Lemma ready_conn s salt : s_started (ready s salt) = true /\ (same_conn s (ready s salt) \/ exists salt', same_conn (start s salt') (ready s salt)).
Proof. unfold ready. destruct (s_started s) eqn:E; [split; [done|left; by split]|split; [done|right; exists salt; by split]]. Qed.

Lemma ready_fields s salt : s_idx (ready s salt) = s_idx s /\ s_prof (ready s salt) = s_prof s /\ s_Mode (ready s salt) = s_Mode s.
Proof. unfold ready. by destruct (s_started s). Qed.

(** After header and body the two ends are in step again. *)
Lemma synced_after s r salt s1 r1 :
  synced s r -> same_conn (ready s salt) s1 -> keyed s1 r1 -> r_idx r1 = w32 (r_idx r + 1) -> r_prof r1 = r_prof r ->
  r_psk r1 = r_psk r -> r_Mode r1 = r_Mode r -> r_started r1 = true -> synced (s_next s1) r1.
Proof.
  intros Hsy Hc Hk Hi Hp Hpsk Hm Hst. destruct (ready_conn s salt) as [Es Hrc].
  eapply synced_next; try done.
  - destruct Hrc as [Hrc|[salt' Hrc]]; [left|right; exists salt']; exact (same_conn_trans _ _ _ Hrc Hc).
  - by rewrite (sc_started _ _ Hc).
Qed.

Lemma encodeOne_read s r salt payload :
  synced s r -> s_Mode s = ModeDefault -> length salt = 16%nat -> len payload <= 0xFFFF ->
  exists out s', encodeOne s salt payload = Ok (out, s') /\ s_Mode s' = ModeDefault /\ chunk_read s' r out payload.
Proof.
  intros Hsy Hmode Hsalt Hl. pose proof Hsy as [Hprof Hok Hpsk Hrm Hst Hidx Hsh Hkey Hfresh Hcip Hrg].
  destruct (chunk_postpad_ends s payload Hok Hsh) as (n & Hn & Hnr).
  eexists _, _. split; [exact (encodeOne_eq s salt payload n Hl Hn)|].
  destruct (chunk_header_fields n (len payload)) as (_ & _ & Hv & _ & Hl7); [lia|unfold len in *; lia|].
  destruct (header_default_read s r salt _ Hsy Hmode Hsalt Hv Hl7) as (r1 & He1 & Hk1 & I1 & P1 & K1 & M1 & S1).
  set (h := s_seal (ready s salt) _ _) in *. set (pp := prfPad (s_prof s) (s_idx s) (Z.to_nat n)).
  assert (len pp = n) as Lpp by (unfold len, pp; rewrite length_prfPad; lia). clearbody pp.
  destruct (ready_fields s salt) as (Ri & Rp & Rm).
  assert (same_conn (ready s salt) h.2) as Hc1 by apply same_conn_seal.
  assert (s_idx h.2 = s_idx s) as Hi by (rewrite (sc_idx _ _ Hc1); done).
  destruct (finishChunk_ends h.2 r1 pp payload) as (r2 & He2 & Hk2 & I2 & P2 & K2 & M2 & S2); try done.
  { rewrite (sc_prof _ _ Hc1). congruence. } { congruence. } { lia. } { unfold len in *; lia. }
  rewrite Lpp, Hi in He2. rewrite Hi in Hk2. pose proof (same_conn_shaped h.2 (s_idx s) pp payload) as Hc2.
  set (t := shaped_tail h.2 (s_idx s) pp payload) in *. split.
  { cbn [s_next s_Mode]. rewrite (sc_mode _ _ Hc2), (sc_mode _ _ Hc1). congruence. }
  exists r2. split.
  - intros w. unfold DecodeChunk, decodeDefault. rewrite <-Hrm, Hmode.
    pose proof (ends_bind _ (fun '(hdr, r) => finishChunk r hdr) _ _ _ _ _ _ _ (He1 (t.1 ++ w)) (He2 w)) as H2.
    rewrite <-!app_assoc in *. exact H2.
  - eapply (synced_after s r salt); try congruence. exact (same_conn_trans _ _ _ Hc1 Hc2).
Qed.

Lemma unshapedOne_read s r salt payload :
  synced s r -> s_Mode s = ModeUnshaped -> length salt = 16%nat -> len payload <= 0xFFFF ->
  s_Mode (unshapedOne s salt payload).2 = ModeUnshaped /\
  chunk_read (unshapedOne s salt payload).2 r (unshapedOne s salt payload).1 payload.
Proof.
  intros Hsy Hmode Hsalt Hl. pose proof Hsy as [Hprof Hok Hpsk Hrm Hst Hidx Hsh Hkey Hfresh Hcip Hrg].
  assert (unshapedOne s salt payload =
    (let h := s_seal (ready s salt) (chunk_header 0 (len payload)) [] in
     let t := plain_tail h.2 payload in (opening s salt ++ h.1 ++ t.1, s_next t.2))) as ->.
  { unfold unshapedOne, opening, ready, plain_tail. destruct (s_started s); cbn [fst snd]; case_bool_decide; done. }
  cbv zeta. cbn [fst snd].
  destruct (chunk_header_fields 0 (len payload)) as (_ & _ & _ & Hv & Hl7); [lia|unfold len in *; lia|].
  destruct (header_unshaped_read s r salt _ Hsy Hmode Hsalt (Hv eq_refl) Hl7) as (r1 & He1 & Hk1 & I1 & P1 & K1 & M1 & S1).
  set (h := s_seal (ready s salt) _ _) in *. destruct (ready_fields s salt) as (Ri & Rp & Rm).
  assert (same_conn (ready s salt) h.2) as Hc1 by apply same_conn_seal.
  destruct (finishUnshaped_ends h.2 r1 payload) as (r2 & He2 & Hk2 & I2 & P2 & K2 & M2 & S2); try done.
  { rewrite (sc_idx _ _ Hc1). congruence. } { unfold len in *; lia. }
  pose proof (same_conn_plain h.2 payload) as Hc2. set (t := plain_tail h.2 payload) in *. split.
  { cbn [s_next s_Mode]. rewrite (sc_mode _ _ Hc2), (sc_mode _ _ Hc1). congruence. }
  exists r2. split.
  - intros w. unfold DecodeChunk, decodeUnshaped. rewrite <-Hrm, Hmode.
    pose proof (ends_bind _ (fun '(hdr, r) => finishUnshaped r hdr) _ _ _ _ _ _ _ (He1 (t.1 ++ w)) (He2 w)) as H2.
    rewrite <-!app_assoc in *. exact H2.
  - eapply (synced_after s r salt); try congruence. exact (same_conn_trans _ _ _ Hc1 Hc2).
Qed.

Lemma rawOne_read s r salt payload :
  synced s r -> s_Mode s = ModeUnsafeRaw -> s_started s = true -> len payload <= 0xFFFF ->
  chunk_read (rawOne s salt payload).2 r (rawOne s salt payload).1 payload.
Proof.
  intros [Hprof Hok Hpsk Hrm Hst Hidx Hsh Hkey Hfresh Hcip Hrg] Hmode Hs Hl. unfold rawOne. cbn [fst snd].
  destruct (chunk_header_fields 0 (len payload)) as (_ & E2 & _ & Hv & Hl7); [lia|unfold len in *; lia|].
  unfold chunk_read, DecodeChunk, decodeRaw. rewrite <-Hrm, Hmode.
  eexists. split.
  - intros w. rewrite <-app_assoc. eapply ends_read_bind; [done|]. rewrite Hv by done. cbn [negb]. rewrite E2.
    destruct (len payload =? 0) eqn:E0.
    + assert (payload = []) as -> by (apply nil_length_inv; unfold len in E0; lia). apply ends_ret.
    + eapply ends_read_bind; [unfold len; lia|]. apply ends_ret.
  - destruct (len payload =? 0); split; cbn; try done; try congruence; unfold w32 in *; rewrite Z.add_0_r, Z.mod_small; unfold in_u32 in *; congruence || lia.
Qed.

(** ** Writes *)

Definition written (s : Sender) (r : Receiver) (payload : bytes) (v : res snellErr (bytes * Sender)) : Prop :=
  exists out s' chunks r', v = Ok (out, s') /\ chunks_of DecodeChunk r out chunks r' /\ pieces payload chunks /\
    synced s' r' /\ s_Mode s' = s_Mode s.

Lemma next_size_ends s r :
  synced s r -> exists sz s', next_size s = Ok (sz, s') /\ 64 <= sz < 65536 /\ synced s' r /\ s_Mode s' = s_Mode s /\ s_idx s' = s_idx s.
Proof.
  intros Hsy. unfold next_size. destruct (chunkSize_ends (s_prof s) (s_curSize s) (s_idx s) (sy_ok _ _ Hsy)) as (sz & -> & Hsz).
  eexists _, _. split; [done|]. split; [done|]. split; [by apply synced_size|done].
Qed.

Lemma split_loop_read salt : length salt = 16%nat -> forall fuel s r payload sz,
  synced s r -> s_Mode s = ModeDefault -> payload <> [] -> 0 < sz < 65536 -> (length payload < fuel)%nat ->
  written s r payload (split_loop fuel s salt payload sz).
Proof.
  intros Hsalt. induction fuel as [|fuel IH]; intros s r payload sz Hsy Hm Hne Hsz Hf; [lia|]. cbn [split_loop]. cbv zeta.
  set (n := Z.to_nat (Z.min (len payload) sz)).
  assert (0 < length payload)%nat as Hpos by (destruct payload; [done|cbn; lia]).
  assert (0 < n <= length payload)%nat as Hn by (unfold n, len; lia).
  destruct (encodeOne_read s r salt (take n payload) Hsy Hm Hsalt) as (c & s1 & -> & Hm1 & r1 & Hd1 & Hsy1).
  { unfold len. rewrite length_take. unfold n, len. lia. }
  case_bool_decide as Hr.
  - assert (take n payload = payload) as E by (rewrite <-(take_drop n payload) at 2; by rewrite Hr, app_nil_r).
    rewrite E in Hd1. exists c, s1, [payload], r1. split_and!; [done|by apply chunks_of_one|apply pieces_one|done|congruence].
  - destruct (next_size_ends s1 r1 Hsy1) as (sz2 & s2 & -> & Hsz2 & Hsy2 & Hm2 & _).
    destruct (IH s2 r1 (drop n payload) sz2) as (out & s3 & cs & r3 & -> & Hco & Hpc & Hsy3 & Hm3); try done; [congruence|lia|rewrite length_drop; lia|].
    exists (c ++ out), s3, (take n payload :: cs), r3. split_and!; [done|by econstructor| |done|congruence].
    rewrite <-(take_drop n payload) at 1. apply pieces_cons; [|done..]. intros Ht. apply (f_equal length) in Ht.
    rewrite length_take in Ht. cbn in Ht. lia.
Qed.

(** The plain modes. *)
Definition in_mode (m : Mode) (s : Sender) (r : Receiver) : Prop :=
  synced s r /\ s_Mode s = m /\ (m = ModeUnsafeRaw -> s_started s = true).

Lemma encodePlain_read one m salt s r payload :
  frame_read DecodeChunk (in_mode m) (fun _ => True) (fun s p => one s salt p) -> in_mode m s r ->
  written s r payload (encodePlain one s salt payload).
Proof.
  intros Hone Hi. pose proof Hi as (_ & Em & _). unfold encodePlain. destruct (Nat.leb_spec (length payload) maxFrame) as [Hl|Hl].
  - destruct (one_frame_read _ _ _ _ s r payload Hone Hi Logic.I Hl) as (out & s' & cs & r' & E & H1 & H2 & H3 & H4 & _).
    exists out, s', cs, r'. split_and!; [exact E|done..|congruence].
  - destruct (split_each_read _ _ _ _ Hone (fun _ _ => Logic.I) (S (length payload)) s r payload Hi) as (out & s' & cs & r' & E & H1 & H2 & H3 & H4 & _).
    { intros ->. cbn in Hl. lia. } { lia. }
    exists out, s', cs, r'. split_and!; [exact E|done..|congruence].
Qed.

Lemma frame_limit (p : bytes) : (length p <= maxFrame)%nat -> len p <= 0xFFFF.
Proof. unfold maxFrame, len. lia. Qed.

Lemma EncodeChunk_read s r salt now payload :
  synced s r -> length salt = 16%nat -> written s r payload (EncodeChunk s salt now payload).
Proof.
  intros Hsy Hsalt. unfold EncodeChunk. destruct (s_Mode s) eqn:Hm.
  - rewrite (sy_shaped _ _ Hsy). cbn [negb]. cbv zeta. set (cur := if (s_lastWrite s =? 0) || _ then _ else _).
    destruct (next_size_ends (with_size s cur now) r ltac:(by apply synced_size)) as (sz & s1 & -> & Hsz & Hsy1 & Hm1 & _).
    cbn in Hm1. set (sz' := if (s_idx s1 =? 0) && _ then _ else sz).
    assert (0 < sz' < 65536) as Hsz'.
    { unfold sz'. pose proof (po_first_cap _ (sy_ok _ _ Hsy)). case_match; to_prop; lia. }
    destruct ((len payload =? 0) || (len payload <=? sz')) eqn:E.
    + destruct (encodeOne_read s1 r salt payload) as (c & s2 & -> & Hm2 & r2 & Hd & Hsy2); [done|congruence|done|to_prop; lia|].
      exists c, s2, [payload], r2. split_and!; [done|by apply chunks_of_one|apply pieces_one|done|congruence].
    + destruct (split_loop_read salt Hsalt (S (length payload)) s1 r payload sz') as (out & s2 & cs & r2 & -> & H1 & H2 & H3 & H4);
        [done|congruence|intros ->; cbn in E; done|done|lia|].
      exists out, s2, cs, r2. split_and!; [done..|congruence].
  - apply (encodePlain_read _ ModeUnshaped); [|done]. intros s0 r0 p0 (H1 & H2 & _) _ H3%frame_limit.
    destruct (unshapedOne_read s0 r0 salt p0) as (E1 & r1 & E2 & E3); [done..|]. exists r1. split; [done|]. by split.
  - destruct (encodePlain_read rawOne ModeUnsafeRaw salt (raw_start s) (r_raw r) payload) as (out & s2 & cs & r2 & E & H1 & H2 & H3 & H4).
    { intros s0 r0 p0 (E1 & E2 & E3) _ E4%frame_limit. destruct (rawOne_read s0 r0 salt p0) as (r1 & E5 & E6); [auto..|].
      exists r1. split; [done|]. by split. }
    { split; [|done]. destruct Hsy. split; cbn; try done. }
    exists out, s2, cs, r2. split_and!; try done.
    inversion H1 as [|? ? ? ? ? ? ? Hd Hrest]; subst.
    + destruct H2 as (E1 & E2 & _). cbn in E1. by specialize (E2 (eq_sym E1)).
    + econstructor; [|done]. intros w. specialize (Hd w). unfold DecodeChunk in *. cbn [r_Mode r_raw] in Hd.
      rewrite <-(sy_mode _ _ Hsy), Hm in *. exact Hd.
Qed.

(** ** The framing *)

Definition v6 : Framing := {|
  Snd := Sender; Rcv := Receiver; Rnd := bytes * Z;
  Encode s rnd payload := EncodeChunk s rnd.1 rnd.2 payload;
  Decode := DecodeChunk;
|}.

#[export, refine] Instance v6_laws : FramingLaws v6 := { in_step := synced; rnd_ok rnd := length rnd.1 = 16%nat }.
Proof.
  intros s r [salt now] payload Hsy Hs.
  destruct (EncodeChunk_read s r salt now payload Hsy Hs) as (out & s' & cs & r' & E & H1 & H2 & H3 & _).
  by exists out, s', cs, r'.
Defined.

Lemma v6_new psk chacha mode : (chacha = true -> aes_rejects_chacha) -> synced (NewSender psk chacha mode) (NewReceiver psk mode).
Proof. intros Hc. exact (synced_new psk (DeriveProfile psk) chacha mode (DeriveProfile_ok psk) Hc). Qed.
End spec.

(** A sealing that can be evaluated: the tag names the cipher. *)
Module ToyCrypto.
Definition tag (ch : bool) : bytes := replicate 16 (if ch then x01 else x00).
#[export] Instance toy : Crypto := {
  MasterSeed _ := [1; 2; 3; 4];
  SessionKey _ _ := [];
  Seal ch _ _ p _ := p ++ tag ch;
  OpenSealed ch _ _ c _ :=
    if bool_decide (drop (length c - 16) c = tag ch) then Some (take (length c - 16) c) else None;
}.

Lemma toy_drop ch (p : bytes) : (length (p ++ tag ch) - 16)%nat = length p.
Proof. rewrite length_app. unfold tag. rewrite length_replicate. lia. Qed.

#[export] Instance toy_laws : CryptoLaws.
Proof.
  split; intros ch key nonce p ad; cbn [Seal OpenSealed toy].
  - rewrite toy_drop, drop_app_length, take_app_length. by rewrite bool_decide_true.
  - rewrite length_app. unfold tag. by rewrite length_replicate.
Qed.

Lemma toy_rejects : aes_rejects_chacha.
Proof. intros key nonce p ad. cbn [Seal OpenSealed toy]. rewrite toy_drop, drop_app_length. reflexivity. Qed.
End ToyCrypto.
