(* ===== verification/SnellV45.v ===== *)
(** * Snell v4 and v5: framing ([snellv45/snellv45.go])

    An instance of the chunk interface. *)
From S2P Require Import Prelude GoStd Link KcpSegment SnellChunk SnellProfile SnellFrame SnellFrameSpec.
From Stdlib Require Import Init.Byte.

Module V45.
Section v45.
Context `{Crypto}.

(** [incNonce]: a little-endian counter of twelve bytes. *)
Fixpoint incNonce (n : bytes) : bytes :=
  match n with
  | [] => []
  | b :: n' => let b' := z2b (b2z b + 1) in if bool_decide (b' = x00) then b' :: incNonce n' else b' :: n'
  end.

(** The even positions of the two are exchanged. *)
Definition swapPadding (pad pc : bytes) : bytes * bytes :=
  (imap (fun i b => if Nat.even i then nth i pc b else b) pad, imap (fun i b => if Nat.even i then nth i pad b else b) pc).

Record Sender := mkSender { aead : bytes; nonce : bytes; salt : bytes; saltSent : bool; initialPad : Z }.

Definition initPadMin : Z := 0x100.
Definition initPadSpan : Z := 0x100.

(** [NewSender] draws the salt and [d] below [initPadSpan]. *)
Definition NewSender (psk salt : bytes) (d : Z) : Sender :=
  mkSender (SessionKey psk salt) (replicate 12 x00) salt false (initPadMin + d).

Definition seal (s : Sender) (p : bytes) : bytes * Sender :=
  (Seal false (aead s) (nonce s) p [], mkSender (aead s) (incNonce (nonce s)) (salt s) (saltSent s) (initialPad s)).

(** [frame]: [rnd] is the padding drawn. *)
Definition frame (s : Sender) (rnd payload : bytes) (padLen : Z) : bytes * Sender :=
  let '(hc, s) := seal s (chunk_header padLen (len payload)) in
  let '(pc, s) := if bool_decide (payload = []) then ([], s) else seal s payload in
  let pre := if saltSent s then [] else salt s in
  let s := mkSender (aead s) (nonce s) (salt s) true (initialPad s) in
  if 0 <? padLen then
    let '(pad, pc) := swapPadding (take (Z.to_nat padLen) rnd) pc in (pre ++ hc ++ pad ++ pc, s)
  else (pre ++ hc ++ pc, s).

Definition one (s : Sender) (rnd payload : bytes) : bytes * Sender :=
  frame s rnd payload (if saltSent s then 0 else initialPad s).

Definition EncodeChunk (s : Sender) (rnd payload : bytes) : res snellErr (bytes * Sender) :=
  if bool_decide (payload = []) then Ok (frame s rnd [] 0)
  else split_each (fun s p => one s rnd p) (S (length payload)) s payload.

Record Receiver := mkReceiver { r_psk : bytes; r_aead : bytes; r_nonce : bytes; saltRead : bool }.

Definition NewReceiver (psk : bytes) : Receiver := mkReceiver psk [] (replicate 12 x00) false.

Definition r_inc (r : Receiver) : Receiver := mkReceiver (r_psk r) (r_aead r) (incNonce (r_nonce r)) (saltRead r).
Definition open (r : Receiver) (c : bytes) : option bytes := OpenSealed false (r_aead r) (r_nonce r) c [].

Definition r_begin (r : Receiver) : hs snellErr Receiver :=
  if saltRead r then mret r
  else salt ← hread 16; mret (mkReceiver (r_psk r) (SessionKey (r_psk r) salt) (r_nonce r) true).

Definition read_body (r : Receiver) (padLen payLen : Z) : hs snellErr (bytes * Receiver) :=
  fr ← hread (Z.to_nat (padLen + payLen + 16));
  let pc := if 0 <? padLen then (swapPadding (take (Z.to_nat padLen) fr) (drop (Z.to_nat padLen) fr)).2
            else drop (Z.to_nat padLen) fr in
  match open r pc with
  | None => hfail errOpen
  | Some payload => mret (payload, r_inc r)
  end.

Definition DecodeChunk (r : Receiver) : hs snellErr (bytes * Receiver) :=
  r ← r_begin r;
  hc ← hread 23;
  match open r hc with
  | None => hfail errOpen
  | Some hdr =>
      let r := r_inc r in
      if negb (validHeader hdr) then hfail errBadHeader
      else
        let padLen := hdr_postpad hdr in
        let payLen := hdr_payload hdr in
        if payLen =? 0 then mret ([], r)
        else if (Z.of_nat maxFrame <? payLen) || (Z.of_nat maxFrame <? padLen) then hfail errTooLarge
        else read_body r padLen payLen
  end.

Definition framing : Framing := {| Snd := Sender; Rcv := Receiver; Rnd := bytes; Encode := EncodeChunk; Decode := DecodeChunk |}.
End v45.
End V45.

(** ** What is written is read back *)

Section v45_laws.
Context `{Crypto} `{!CryptoLaws}.
Import V45.

Lemma swapPadding_involutive pad pc : let '(a, b) := swapPadding pad pc in swapPadding a b = (pad, pc).
Proof.
  assert (forall l1 l2 : bytes, imap (fun i b => if Nat.even i then nth i (imap (fun i b => if Nat.even i then nth i l1 b else b) l2) b else b)
    (imap (fun i b => if Nat.even i then nth i l2 b else b) l1) = l1) as Hs.
  { intros l1 l2. apply list_eq. intros i. rewrite !list_lookup_imap. destruct (l1 !! i) as [x|] eqn:E1; [|done]. cbn. f_equal.
    destruct (Nat.even i) eqn:Ee; [|done]. destruct (l2 !! i) as [y|] eqn:E2.
    - rewrite (nth_lookup_Some l2 i x y E2). apply nth_lookup_Some. rewrite list_lookup_imap, E2. cbn. rewrite Ee.
      f_equal. by apply nth_lookup_Some.
    - rewrite !nth_overflow; [done|apply lookup_ge_None; done|rewrite length_imap; by apply lookup_ge_None]. }
  cbn. unfold swapPadding. by rewrite !Hs.
Qed.

Lemma swapPadding_length pad pc : length (swapPadding pad pc).1 = length pad /\ length (swapPadding pad pc).2 = length pc.
Proof. cbn. by rewrite !length_imap. Qed.

(** In step: the key is the one of the salt that was or will be sent. *)
Record in_step45 (s : Sender) (r : Receiver) : Prop := {
  i45_aead : aead s = if saltSent s then r_aead r else SessionKey (r_psk r) (salt s);
  i45_nonce : nonce s = r_nonce r;
  i45_sent : saltSent s = saltRead r;
  i45_salt : length (salt s) = 16%nat;
  i45_pad : 256 <= initialPad s <= 511;
}.

Definition r_ready (r : Receiver) (salt : bytes) : Receiver :=
  if saltRead r then r else mkReceiver (r_psk r) (SessionKey (r_psk r) salt) (r_nonce r) true.

Lemma r_begin_ends r salt w : length salt = 16%nat -> ends (r_begin r) ((if saltRead r then [] else salt) ++ w) (Ok (r_ready r salt)) w [].
Proof.
  intros Hs. unfold r_begin, r_ready. destruct (saltRead r); [apply ends_ret|]. eapply ends_read_bind; [done|apply ends_ret].
Qed.

Definition padded (rnd pc : bytes) (pad : Z) : bytes :=
  if 0 <? pad then let '(a, b) := swapPadding (take (Z.to_nat pad) rnd) pc in a ++ b else pc.

Lemma read_body_ends (r : Receiver) rnd payload pad w :
  0 <= pad -> (Z.to_nat pad <= length rnd)%nat ->
  ends (read_body r pad (len payload)) (padded rnd (Seal false (r_aead r) (r_nonce r) payload []) pad ++ w) (Ok (payload, r_inc r)) w [].
Proof.
  intros Hp Hr. set (pc := Seal _ _ _ _ _). assert (length pc = (length payload + 16)%nat) as Hl by apply length_seal.
  assert (open r pc = Some payload) as Ho by apply open_seal. clearbody pc.
  unfold read_body. eapply ends_read_bind; [|].
  - unfold padded. destruct (0 <? pad) eqn:E.
    + destruct (swapPadding_length (take (Z.to_nat pad) rnd) pc) as [L1 L2]. destruct (swapPadding _ _) as [a b].
      cbn in L1, L2. rewrite length_app, L1, L2, length_take. unfold len. lia.
    + unfold len. lia.
  - unfold padded. destruct (0 <? pad) eqn:E.
    + pose proof (swapPadding_involutive (take (Z.to_nat pad) rnd) pc) as Hinv.
      destruct (swapPadding_length (take (Z.to_nat pad) rnd) pc) as [L1 L2]. destruct (swapPadding (take (Z.to_nat pad) rnd) pc) as [a b].
      cbn [fst snd] in L1, L2. rewrite length_take in L1. rewrite take_app_length', drop_app_length', Hinv by lia. cbn [snd]. rewrite Ho. apply ends_ret.
    + replace pad with 0 by lia. change (drop (Z.to_nat 0) pc) with pc. rewrite Ho. apply ends_ret.
Qed.

Lemma frame_ends s r rnd payload pad :
  in_step45 s r -> 0 <= pad <= 511 -> (Z.to_nat pad <= length rnd)%nat -> (payload = [] -> pad = 0) -> (length payload <= maxFrame)%nat ->
  exists r', (forall w, ends (DecodeChunk r) ((frame s rnd payload pad).1 ++ w) (Ok (payload, r')) w []) /\
    in_step45 (frame s rnd payload pad).2 r'.
Proof.
  intros [Hk Hn Hst Hsalt Hip] Hpad Hrnd Hz Hl.
  destruct (chunk_header_fields pad (len payload)) as (E1 & E2 & Hv & _ & Hl7); [lia|unfold len, maxFrame in *; lia|].
  set (hdr := chunk_header pad (len payload)) in *. set (r0 := r_ready r (salt s)).
  assert (aead s = r_aead r0 /\ r_nonce r0 = r_nonce r /\ saltRead r0 = true) as (K0 & N0 & S0).
  { unfold r0, r_ready. rewrite <-Hst. destruct (saltSent s); done. }
  set (hc := Seal false (aead s) (nonce s) hdr []). assert (length hc = 23%nat) as Hlc by (unfold hc; rewrite length_seal; lia).
  assert (open r0 hc = Some hdr) as Ho by (unfold open, hc; rewrite K0, Hn, N0; apply open_seal).
  set (pre := if saltRead r then [] else salt s).
  assert (exists pc, frame s rnd payload pad = (pre ++ hc ++ padded rnd pc pad,
      mkSender (aead s) (if bool_decide (payload = []) then incNonce (nonce s) else incNonce (incNonce (nonce s))) (salt s) true (initialPad s)) /\
    (payload = [] -> pc = []) /\ (payload <> [] -> pc = Seal false (aead s) (incNonce (nonce s)) payload [])) as (pc & -> & Hp1 & Hp2).
  { unfold frame, seal, pre, padded. rewrite <-Hst. cbn [aead nonce salt saltSent initialPad]. fold hdr hc.
    exists (if bool_decide (payload = []) then [] else Seal false (aead s) (incNonce (nonce s)) payload []).
    split; [|split; intros; by case_bool_decide]. case_bool_decide; cbn [aead nonce salt saltSent initialPad];
      (destruct (0 <? pad); [destruct (swapPadding _ _); reflexivity|reflexivity]). }
  cbn [fst snd]. clearbody hc. assert (in_step45 (mkSender (aead s) (if bool_decide (payload = []) then incNonce (nonce s) else incNonce (incNonce (nonce s))) (salt s) true (initialPad s))
    (if bool_decide (payload = []) then r_inc r0 else r_inc (r_inc r0))) as Hstep.
  { split; cbn [saltSent aead nonce salt initialPad]; [|..|done|done]; case_bool_decide; cbn [r_inc r_aead r_nonce saltRead]; congruence. }
  eexists. split; [|exact Hstep]. intros w. unfold DecodeChunk. rewrite <-!app_assoc.
  apply (ends_bind _ _ _ (r_ready r (salt s)) (hc ++ padded rnd pc pad ++ w) []); [by apply r_begin_ends|]. fold r0.
  apply ends_read_bind; [done|]. rewrite Ho, Hv. cbn [negb]. rewrite E1, E2. case_bool_decide as Hpe.
  - subst payload. rewrite Hp1, Hz by done. apply ends_ret.
  - destruct (len payload =? 0) eqn:E0; [exfalso; apply Hpe, nil_length_inv; unfold len in E0; lia|].
    destruct ((Z.of_nat maxFrame <? len payload) || (Z.of_nat maxFrame <? pad)) eqn:El; [apply orb_true_iff in El as [El|El]; apply Z.ltb_lt in El; unfold len, maxFrame in *; lia|].
    rewrite Hp2 by done. assert (aead s = r_aead (r_inc r0)) as -> by exact K0.
    assert (incNonce (nonce s) = r_nonce (r_inc r0)) as -> by (cbn; congruence). apply read_body_ends; lia.
Qed.

#[export, refine] Instance v45_laws : FramingLaws framing := { in_step := in_step45; rnd_ok rnd := (511 <= length rnd)%nat }.
Proof.
  intros s r rnd payload Hi Hr. cbn [Encode framing Decode]. unfold EncodeChunk. case_bool_decide as Hp.
  - subst payload. destruct (frame_ends s r rnd [] 0 Hi) as (r' & He & Hi'); [lia|lia|done|cbn; lia|].
    destruct (frame s rnd [] 0) as [out s']. exists out, s', [[]], r'. split_and!; [done|by apply chunks_of_one|apply pieces_one|done].
  - apply (split_each_read _ in_step45 (fun p => p <> [])); [|done..|lia]. intros s0 r0 p0 Hi0 Hne Hl.
    destruct (frame_ends s0 r0 rnd p0 (if saltSent s0 then 0 else initialPad s0) Hi0) as (r' & He & Hi'); try done;
      [destruct Hi0; case_match; lia..|]. by exists r'.
Defined.

Lemma v45_new psk salt d : length salt = 16%nat -> 0 <= d < initPadSpan -> in_step45 (NewSender psk salt d) (NewReceiver psk).
Proof. intros Hs Hd. unfold initPadSpan in Hd. split; [done..|]. cbn. unfold initPadMin. lia. Qed.
End v45_laws.
