(* ===== verification/SnellV123.v ===== *)
(** * Snell v1 to v3: framing ([snellv123/framing.go])

    An instance of the chunk interface. *)
From S2P Require Import Prelude GoStd Link KcpSegment SnellChunk SnellProfile SnellFrame.
From Stdlib Require Import Init.Byte.

Module V123.
Section v123.
Context `{Crypto}.

Record SenderSS := mkSenderSS { s_psk : bytes; s_chacha : bool; s_aead : bytes; s_nonce : Nonce; s_started : bool }.

Definition NewSenderSS (psk : bytes) (chacha : bool) : SenderSS := mkSenderSS psk chacha [] zeroNonce false.

Definition seal (s : SenderSS) (p : bytes) : bytes * SenderSS :=
  (Seal (s_chacha s) (s_aead s) (Nonce_Bytes (s_nonce s)) p [],
   mkSenderSS (s_psk s) (s_chacha s) (s_aead s) (Inc (s_nonce s)) (s_started s)).

Definition begin (s : SenderSS) (salt : bytes) : bytes * SenderSS :=
  if s_started s then ([], s) else (salt, mkSenderSS (s_psk s) (s_chacha s) (SessionKey (s_psk s) salt) (s_nonce s) true).

Definition one (s : SenderSS) (payload : bytes) : bytes * SenderSS :=
  let '(lb, s) := seal s (be_enc 2 (len payload)) in
  let '(pc, s) := seal s payload in (lb ++ pc, s).

Definition EncodeChunk (s : SenderSS) (salt payload : bytes) : res snellErr (bytes * SenderSS) :=
  let '(pre, s) := begin s salt in
  if bool_decide (payload = []) then let '(lb, s) := seal s [x00; x00] in Ok (pre ++ lb, s)
  else match split_each one (S (length payload)) s payload with
       | Err e => Err e
       | Ok (out, s) => Ok (pre ++ out, s)
       end.

Record ReceiverSS := mkReceiverSS {
  r_psk : bytes; r_chacha : bool; r_aead : bytes; r_nonce : Nonce; r_started : bool }.

Definition NewReceiverSS (psk : bytes) (chacha : bool) : ReceiverSS := mkReceiverSS psk chacha [] zeroNonce false.

Definition r_inc (r : ReceiverSS) : ReceiverSS :=
  mkReceiverSS (r_psk r) (r_chacha r) (r_aead r) (Inc (r_nonce r)) (r_started r).
Definition open (r : ReceiverSS) (c : bytes) : option bytes :=
  OpenSealed (r_chacha r) (r_aead r) (Nonce_Bytes (r_nonce r)) c [].
Definition r_begin (r : ReceiverSS) : hs snellErr ReceiverSS :=
  if r_started r then mret r
  else salt ← hread 16; mret (mkReceiverSS (r_psk r) (r_chacha r) (SessionKey (r_psk r) salt) (r_nonce r) true).

(** What follows the salt. *)
Definition after_salt (r : ReceiverSS) : hs snellErr (bytes * ReceiverSS) :=
  lenBuf ← hread 18;
  match open r lenBuf with
  | None => hfail errOpen
  | Some lenPt =>
      let r := r_inc r in
      let size := Z.land (be_dec (take 2 lenPt)) 0x3FFF in
      if size =? 0 then mret ([], r)
      else
        payBuf ← hread (Z.to_nat (size + 16));
        match open r payBuf with
        | None => hfail errOpen
        | Some payload => mret (payload, r_inc r)
        end
  end.

Definition DecodeChunk (r : ReceiverSS) : hs snellErr (bytes * ReceiverSS) := r ← r_begin r; after_salt r.

Definition framing : Framing :=
  {| Snd := SenderSS; Rcv := ReceiverSS; Rnd := bytes; Encode := EncodeChunk; Decode := DecodeChunk |}.
End v123.
End V123.

(** ** What is written is read back *)

Section v123_laws.
Context `{Crypto} `{!CryptoLaws}.
Import V123.

Record in_step123 (s : SenderSS) (r : ReceiverSS) : Prop := {
  i123_psk : s_psk s = r_psk r;
  i123_chacha : s_chacha s = r_chacha r;
  i123_aead : s_aead s = r_aead r;
  i123_nonce : s_nonce s = r_nonce r;
  i123_started : s_started s = r_started r;
}.

(** The receiver after the salt. *)
Definition r_after (r : ReceiverSS) (salt : bytes) : ReceiverSS :=
  if r_started r then r else mkReceiverSS (r_psk r) (r_chacha r) (SessionKey (r_psk r) salt) (r_nonce r) true.

Lemma begin_step s r salt :
  in_step123 s r -> length salt = 16%nat ->
  in_step123 (begin s salt).2 (r_after r salt) /\ r_started (r_after r salt) = true /\
  (forall w, ends (r_begin r) ((begin s salt).1 ++ w) (Ok (r_after r salt)) w []).
Proof.
  intros [] Hs. unfold begin, r_after, r_begin. rewrite i123_started0. destruct (r_started r) eqn:E; cbn [fst snd].
  - split; [split; congruence|]. split; [done|]. intros w. apply ends_ret.
  - split; [split; cbn; congruence|]. split; [done|]. intros w. eapply ends_read_bind; [done|apply ends_ret].
Qed.

Lemma step_seal s r p : in_step123 s r -> in_step123 (seal s p).2 (r_inc r) /\ open r (seal s p).1 = Some p.
Proof.
  intros []. split; [split; cbn; congruence|]. unfold open, seal. cbn [fst].
  rewrite i123_chacha0, i123_aead0, i123_nonce0. apply open_seal.
Qed.

Lemma land_mask n : 0 <= n <= 0x3FFF -> Z.land n 0x3FFF = n.
Proof. intros Hn. change 0x3FFF with (Z.ones 14). rewrite Z.land_ones by lia. apply Z.mod_small. lia. Qed.

Lemma size_back (p : bytes) : (length p <= maxFrame)%nat -> Z.land (be_dec (take 2 (be_enc 2 (len p)))) 0x3FFF = len p.
Proof.
  intros Hl. rewrite take_ge by (by rewrite length_be_enc). rewrite be_dec_enc_small by (unfold len, maxFrame in *; lia).
  apply land_mask. unfold len, maxFrame in *. lia.
Qed.

Lemma one_ends s r p :
  in_step123 s r -> p <> [] -> (length p <= maxFrame)%nat ->
  exists r', (forall w, ends (after_salt r) ((one s p).1 ++ w) (Ok (p, r')) w []) /\ in_step123 (one s p).2 r' /\ r_started r' = r_started r.
Proof.
  intros Hi Hne Hl. unfold one. destruct (step_seal s r (be_enc 2 (len p)) Hi) as [Hi1 Ho1].
  assert (length (seal s (be_enc 2 (len p))).1 = 18%nat) as L1 by (cbn [fst seal]; rewrite length_seal, length_be_enc; done).
  destruct (seal s (be_enc 2 (len p))) as [lb s1]. cbn [fst snd] in *.
  destruct (step_seal s1 (r_inc r) p Hi1) as [Hi2 Ho2].
  assert (length (seal s1 p).1 = (length p + 16)%nat) as L2 by apply length_seal. destruct (seal s1 p) as [pc s2]. cbn [fst snd] in *.
  exists (r_inc (r_inc r)). split; [|done]. intros w. unfold after_salt. rewrite <-app_assoc. apply ends_read_bind; [done|].
  rewrite Ho1. cbv zeta. rewrite size_back by done. destruct (len p =? 0) eqn:E0; [exfalso; apply Hne, nil_length_inv; unfold len in E0; lia|].
  apply ends_read_bind; [unfold len; lia|]. rewrite Ho2. apply ends_ret.
Qed.

Lemma started_after r : r_started r = true -> forall w o v i, ends (after_salt r) i (Ok v) w o -> ends (DecodeChunk r) i (Ok v) w o.
Proof.
  intros Hs w o v i He. unfold DecodeChunk, r_begin. rewrite Hs. exact He.
Qed.

(** The salt goes before the first frame. *)
Lemma prepend_salt s r salt out chunks r' :
  in_step123 s r -> length salt = 16%nat -> chunks <> [] -> chunks_of DecodeChunk (r_after r salt) out chunks r' ->
  chunks_of DecodeChunk r ((begin s salt).1 ++ out) chunks r'.
Proof.
  intros Hi Hs Hne Hc. destruct (begin_step s r salt Hi Hs) as (_ & Hst & He).
  inversion Hc as [|? o p r1 rest ps ? Hd Hrest]; subst; [done|]. rewrite app_assoc. econstructor; [|done].
  intros w. specialize (Hd w). rewrite <-app_assoc. unfold DecodeChunk in *.
  apply (ends_bind _ _ _ (r_after r salt) (o ++ w) []); [apply He|].
  unfold r_begin in Hd. rewrite Hst in Hd. exact Hd.
Qed.

#[export, refine] Instance v123_laws : FramingLaws framing := { in_step := in_step123; rnd_ok salt := length salt = 16%nat }.
Proof.
  intros s r salt payload Hi Hs. cbn [Encode framing Decode]. unfold EncodeChunk.
  destruct (begin_step s r salt Hi Hs) as (Hi0 & Hst & He). pose proof (prepend_salt s r salt) as Hpre.
  destruct (begin s salt) as [pre s0]. cbn [fst snd] in *. case_bool_decide as Hp.
  - subst payload. destruct (step_seal s0 _ [x00; x00] Hi0) as [Hi1 Ho].
    assert (length (seal s0 [x00; x00]).1 = 18%nat) as L1 by (cbn [fst seal]; by rewrite length_seal).
    destruct (seal s0 [x00; x00]) as [lb s1]. cbn [fst snd] in *. exists (pre ++ lb), s1, [[]], (r_inc (r_after r salt)).
    split_and!; [done| |apply pieces_one|done]. apply Hpre; [done..|]. apply chunks_of_one. intros w. apply started_after; [done|].
    unfold after_salt. apply ends_read_bind; [done|]. rewrite Ho. apply ends_ret.
  - assert (frame_read DecodeChunk (fun s r => in_step123 s r /\ r_started r = true) (fun p => p <> []) one) as Hf.
    { intros s1 r1 p1 [H1 H2] Hne Hl. destruct (one_ends s1 r1 p1 H1 Hne Hl) as (r2 & E1 & E2 & E3). exists r2.
      split; [intros w; by apply started_after|]. split; [done|congruence]. }
    destruct (split_each_read _ _ _ _ Hf (fun _ Hne => Hne) (S (length payload)) s0 (r_after r salt) payload)
      as (out & s' & cs & r' & -> & Hc & Hpc & Hi' & _); [done|done|lia|].
    exists (pre ++ out), s', cs, r'. split_and!; [done| |done|done]. apply Hpre; [done..| |done].
    intros ->. destruct Hpc as (E & _). cbn in E. congruence.
Defined.

Lemma v123_new psk chacha : in_step123 (NewSenderSS psk chacha) (NewReceiverSS psk chacha).
Proof. by split. Qed.
End v123_laws.
