(* ===== verification/Snell.v ===== *)
(** * Snell: commands, connections and the plugin ([proto/snell])

    The three framings carry the same command and the same connections
    ([snellv6/command.go], [client.go], [accept.go], and their copies in [snellv45] and
    [snellv123]); [proto/snell] chooses by version. *)
From S2P Require Import Prelude GoStd Netip Socksaddr AddrText MuxClient Proxy Link SnellChunk SnellProfile SnellFrame SnellFrameSpec SnellV45 SnellV123.
From Stdlib Require Import Init.Byte.

(** ** Commands *)

Definition cmdPing : byte := x00.
Definition cmdConnect : byte := x01.
Definition cmdConnectReuse : byte := x05.
Definition cmdUDP : byte := x06.

Record command := mkCommand { c_command : byte; c_clientID : bytes; c_host : bytes; c_port : Z }.

(** A command and the bytes it takes; [None] while more are needed. *)
Definition parseCommand (b : bytes) : res snellErr (option (command * nat)) :=
  if (length b <? 2)%nat then Ok None
  else if negb (bool_decide (nth 0 b x00 = x01)) then Err (errVersion (nth 0 b x00))
  else
    let cmd := nth 1 b x00 in
    if bool_decide (cmd = cmdPing) then Ok (Some (mkCommand cmdPing [] [] 0, 2%nat))
    else if negb (Z.land (b2z cmd) 0xFB =? 1) && negb (bool_decide (cmd = cmdUDP)) then Err (errCommand cmd)
    else if (length b <? 3)%nat then Ok None
    else
      let idLen := Z.to_nat (b2z (nth 2 b x00)) in
      let p := (3 + idLen)%nat in
      if (length b <? p)%nat then Ok None
      else
        let clientID := take idLen (drop 3 b) in
        if bool_decide (cmd = cmdUDP) then Ok (Some (mkCommand cmdUDP clientID [] 0, p))
        else if (length b <? p + 1)%nat then Ok None
        else
          let hostLen := Z.to_nat (b2z (nth p b x00)) in
          let q := (p + 1 + hostLen)%nat in
          if (length b <? q + 2)%nat then Ok None
          else Ok (Some (mkCommand cmd clientID (take hostLen (drop (p + 1) b)) (be_dec (take 2 (drop q b))), (q + 2)%nat)).

(** What the clients write: no client id, the length of the host in one byte. *)
Definition connectCommand (cmd : byte) (host : bytes) (port : Z) (initial : bytes) : bytes :=
  [x01; cmd; x00; z2b (len host)] ++ host ++ be_enc 2 port ++ initial.
Definition udpCommand : bytes := [x01; cmdUDP; x00].

(** ** Error responses ([errresp.go]) *)

Inductive dialError :=
| dnsError
| errnoError (n : Z)
| timeoutError
| otherError (msg : bytes).

Definition errno_entry (n : Z) : byte * bytes :=
  if n =? 111 then (x06, bs "connection refused")
  else if n =? 110 then (x05, bs "connection timed out")
  else if n =? 113 then (x08, bs "host is unreachable")
  else if n =? 101 then (x03, bs "network is unreachable")
  else if n =? 104 then (x04, bs "connection reset by peer")
  else if n =? 100 then (x02, bs "network is down")
  else if n =? 97 then (x01, bs "address family not supported")
  else (xff, bs "Unknown system error " ++ Itoa n).

Definition error_entry (e : dialError) : byte * bytes :=
  match e with
  | dnsError => (x64, bs "DNS Failed")
  | errnoError n => errno_entry n
  | timeoutError => (x05, bs "connection timed out")
  | otherError msg => (xff, msg)
  end.

Definition snellErrorResponse (e : dialError) : bytes :=
  let '(typ, msg) := error_entry e in
  let msg := if (255 <? length msg)%nat then take 255 msg else msg in
  [x02; typ; z2b (len msg)] ++ msg.

(** ** Replayed salts ([replay.go]) *)

Record replayGuard := mkGuard { bank0 : gset bytes; bank1 : gset bytes; g_active : bool; g_count : Z; g_capacity : Z }.

Definition newReplayGuard : replayGuard := mkGuard ∅ ∅ false 0 500000.

Definition bank (g : replayGuard) (i : bool) : gset bytes := if i then bank1 g else bank0 g.
Definition set_bank (g : replayGuard) (i : bool) (s : gset bytes) : replayGuard :=
  if i then mkGuard (bank0 g) s (g_active g) (g_count g) (g_capacity g)
  else mkGuard s (bank1 g) (g_active g) (g_count g) (g_capacity g).

Definition seenBefore (g : replayGuard) (salt : bytes) : bool * replayGuard :=
  if bool_decide (salt ∈ bank g (g_active g)) then (true, g)
  else if bool_decide (salt ∈ bank g (negb (g_active g))) then (true, g)
  else
    let g := set_bank g (g_active g) ({[salt]} ∪ bank g (g_active g)) in
    let g := mkGuard (bank0 g) (bank1 g) (g_active g) (g_count g + 1) (g_capacity g) in
    if g_capacity g <=? g_count g then
      let g := mkGuard (bank0 g) (bank1 g) (negb (g_active g)) 0 (g_capacity g) in
      (false, set_bank g (g_active g) ∅)
    else (false, g).

(** ** Connections *)

Section conns.
Context (F : Framing).

(** The server side: the first response carries a status byte. *)
Record serverConn := mkServerConn { sc_send : Snd F; sc_recv : Rcv F; sc_rbuf : bytes; sc_sentStatus : bool }.

(** [Read] into a buffer of [n] bytes; [None]: the end of the direction. *)
Definition serverConn_Read (c : serverConn) (n : nat) : hs snellErr (option bytes * serverConn) :=
  match sc_rbuf c with
  | [] =>
      '(payload, recv) ← Decode F (sc_recv c);
      let c := mkServerConn (sc_send c) recv (drop n payload) (sc_sentStatus c) in
      if bool_decide (payload = []) then mret (None, c) else mret (Some (take n payload), c)
  | rbuf => mret (Some (take n rbuf), mkServerConn (sc_send c) (sc_recv c) (drop n rbuf) (sc_sentStatus c))
  end.

Definition serverConn_Write (c : serverConn) (rnd : Rnd F) (p : bytes) : hs snellErr (nat * serverConn) :=
  let data := if sc_sentStatus c then p else x00 :: p in
  match Encode F (sc_send c) rnd data with
  | Err e => hfail e
  | Ok (enc, send) => hwrite enc;; mret (length p, mkServerConn send (sc_recv c) (sc_rbuf c) true)
  end.

Definition serverConn_CloseWrite (c : serverConn) (rnd : Rnd F) : hs snellErr serverConn :=
  match Encode F (sc_send c) rnd [] with
  | Err e => hfail e
  | Ok (enc, send) => hwrite enc;; mret (mkServerConn send (sc_recv c) (sc_rbuf c) (sc_sentStatus c))
  end.

(** The client side. *)
Record clientConn := mkClientConn { cc_send : Snd F; cc_recv : Rcv F; cc_rbuf : bytes; cc_gotStatus : bool }.

(** The message of an error response. *)
Definition response_message (payload : bytes) : bytes :=
  if (3 <=? length payload)%nat then
    let n := Z.to_nat (b2z (nth 2 payload x00)) in
    if (3 + n <=? length payload)%nat then take n (drop 3 payload) else []
  else [].

(** The loop that fills [rbuf]: only a response of just the status byte takes another turn,
    and there is one such, so two turns are enough. *)
Fixpoint client_fill (fuel : nat) (recv : Rcv F) (gotStatus : bool) : hs snellErr (option bytes * Rcv F * bool) :=
  match fuel with
  | O => hfail Diverges
  | S fuel' =>
      '(payload, recv) ← Decode F recv;
      match payload with
      | [] => mret (None, recv, gotStatus)
      | b :: payload' =>
          if gotStatus then mret (Some payload, recv, true)
          else if bool_decide (b = x02) then hfail (errServer (response_message payload))
          else match payload' with
               | [] => client_fill fuel' recv true
               | _ => mret (Some payload', recv, true)
               end
      end
  end.

Definition clientConn_Read (c : clientConn) (n : nat) : hs snellErr (option bytes * clientConn) :=
  match cc_rbuf c with
  | [] =>
      '(x, recv, got) ← client_fill 2 (cc_recv c) (cc_gotStatus c);
      match x with
      | None => mret (None, mkClientConn (cc_send c) recv [] got)
      | Some payload => mret (Some (take n payload), mkClientConn (cc_send c) recv (drop n payload) got)
      end
  | rbuf => mret (Some (take n rbuf), mkClientConn (cc_send c) (cc_recv c) (drop n rbuf) (cc_gotStatus c))
  end.

Definition clientConn_Write (c : clientConn) (rnd : Rnd F) (p : bytes) : hs snellErr (nat * clientConn) :=
  match Encode F (cc_send c) rnd p with
  | Err e => hfail e
  | Ok (enc, send) => hwrite enc;; mret (length p, mkClientConn send (cc_recv c) (cc_rbuf c) (cc_gotStatus c))
  end.

Definition clientConn_CloseWrite (c : clientConn) (rnd : Rnd F) : hs snellErr clientConn :=
  match Encode F (cc_send c) rnd [] with
  | Err e => hfail e
  | Ok (enc, send) => hwrite enc;; mret (mkClientConn send (cc_recv c) (cc_rbuf c) (cc_gotStatus c))
  end.

(** [DialTCPOver]: the command, with [initial] behind it. *)
Definition DialTCPOver (send : Snd F) (recv : Rcv F) (rnd : Rnd F) (cmd : byte) (host : bytes) (port : Z) (initial : bytes)
  : hs snellErr clientConn :=
  match Encode F send rnd (connectCommand cmd host port initial) with
  | Err e => hfail e
  | Ok (enc, send) => hwrite enc;; mret (mkClientConn send recv [] false)
  end.

(** The [Accept] of the older versions: chunks until they hold a command. *)
Fixpoint accept_loop (fuel : nat) (recv : Rcv F) (acc : bytes) : hs snellErr (command * bytes * Rcv F) :=
  match fuel with
  | O => hfail Diverges
  | S fuel' =>
      '(payload, recv) ← Decode F recv;
      if bool_decide (payload = []) then hfail errHalfClosed
      else
        let acc := acc ++ payload in
        match parseCommand acc with
        | Err e => hfail e
        | Ok (Some (cmd, n)) => mret (cmd, drop n acc, recv)
        | Ok None => accept_loop fuel' recv acc
        end
  end.
End conns.
Arguments mkServerConn {F}. Arguments sc_send {F}. Arguments sc_recv {F}. Arguments sc_rbuf {F}. Arguments sc_sentStatus {F}.
Arguments mkClientConn {F}. Arguments cc_send {F}. Arguments cc_recv {F}. Arguments cc_rbuf {F}. Arguments cc_gotStatus {F}.
Arguments serverConn_Read {F}. Arguments serverConn_Write {F}. Arguments serverConn_CloseWrite {F}.
Arguments clientConn_Read {F}. Arguments clientConn_Write {F}. Arguments clientConn_CloseWrite {F}.
Arguments client_fill {F}. Arguments DialTCPOver {F}. Arguments accept_loop {F}.

(** ** Version 6: [Server] ([server.go], [accept.go]) *)

Section v6_server.
Context `{Crypto}.

Record Server := mkServer { srv_PSK : bytes; srv_Mode : Mode; srv_prof : ctx; srv_replay : replayGuard }.

(** [init], run once per [Server]. *)
Definition Server_init (psk : bytes) (mode : Mode) : Server := mkServer psk mode (DeriveProfile psk) newReplayGuard.

Definition is_raw (m : Mode) : bool := match m with ModeUnsafeRaw => true | _ => false end.

(** [readCommand]: the salt is checked once; the loop ends with the command, at the latest
    when the deadline ends it, which is [fuel] chunks. *)
Fixpoint readCommand (fuel : nat) (s : Server) (recv : Receiver) (checked : bool) (buf : bytes)
  : hs snellErr (command * bytes * Receiver * Server) :=
  match fuel with
  | O => hfail Diverges
  | S fuel' =>
      '(payload, recv) ← DecodeChunk recv;
      let '(seen, s) := if negb checked && negb (is_raw (srv_Mode s)) then
                          let '(seen, g) := seenBefore (srv_replay s) (r_salt recv) in
                          (seen, mkServer (srv_PSK s) (srv_Mode s) (srv_prof s) g)
                        else (false, s) in
      if seen then hfail errReplayed
      else
        let checked := checked || negb (is_raw (srv_Mode s)) in
        let buf := buf ++ payload in
        match parseCommand buf with
        | Err e => hfail e
        | Ok (Some (h, consumed)) => if (length buf <=? 2)%nat then hfail errShort else mret (h, drop consumed buf, recv, s)
        | Ok None => readCommand fuel' s recv checked buf
        end
  end.

(** [Accept]; the cipher is the client's. *)
Definition Accept (fuel : nat) (s : Server) : hs snellErr (command * bytes * serverConn v6 * Server) :=
  '(hdr, initial, recv, s) ← readCommand fuel s (NewReceiverWithProfile (srv_PSK s) (srv_prof s) (srv_Mode s)) false [];
  let send := NewSenderWithProfile (srv_PSK s) (r_chacha recv) (srv_prof s) (srv_Mode s) in
  mret (hdr, initial, mkServerConn (F := v6) send recv [] false, s).
End v6_server.

(** ** Datagrams: one chunk carries one frame *)

(** [net.ParseIP], as its sixteen bytes or, when [To4] of it exists, its four. *)
Definition ParseIP (s : bytes) : option bytes :=
  match ParseAddr s with
  | None => None
  | Some a => if hasZone a then None else Some (match Unmap a with Addr4 v => be_enc 4 v | a => As16 a end)
  end.

(** [net.IP.String] of four or sixteen bytes. *)
Definition IP_String (b : bytes) : bytes :=
  if (length b =? 4)%nat then string4 (be_dec b)
  else match Unmap (Addr6 (be_dec b) []) with Addr4 v => string4 v | _ => string6 (be_dec b) end.

(** [net.IP.To4] of a response's source, else its sixteen bytes. *)
Definition To4 (ip : bytes) : option bytes :=
  if (length ip =? 4)%nat then Some ip
  else if (length ip =? 16)%nat && bool_decide (take 12 ip = replicate 10 x00 ++ [xff; xff]) then Some (drop 12 ip) else None.

(** [strconv.Atoi], its error kept. *)
Definition AtoiE (s : bytes) : option Z :=
  let '(neg, r) := match s with x2d :: r => (true, r) | x2b :: r => (false, r) | _ => (false, s) end in
  match MuxClient.digits r with
  | None => None
  | Some v => let v := if neg : bool then - v else v in if (- 2 ^ 63 <=? v) && (v <? 2 ^ 63) then Some v else None
  end.

Definition buildUDPRequest (target data : bytes) : res snellErr bytes :=
  match SplitHostPort target with
  | None => Err errUDPTarget
  | Some (host, portStr) =>
      match AtoiE portStr with
      | None => Err errUDPTarget
      | Some port =>
          let pb := be_enc 2 (w16 port) in
          match ParseIP host with
          | Some ip => Ok ([x01; x00; if (length ip =? 4)%nat then x04 else x06] ++ ip ++ pb ++ data)
          | None => if 255 <? len host then Err errUDPFrame else Ok ([x01; z2b (len host)] ++ host ++ pb ++ data)
          end
      end
  end.

(** The target as text, and the data. *)
Definition parseUDPFrame (b : bytes) : res snellErr (bytes * bytes) :=
  let ip_form (n : nat) :=
    if (length b <? 3 + n + 2)%nat then Err errUDPFrame
    else Ok (JoinHostPort (IP_String (take n (drop 3 b))) (Itoa (be_dec (take 2 (drop (3 + n) b)))), drop (3 + n + 2) b) in
  if (length b <? 1)%nat || negb (bool_decide (nth 0 b x00 = x01)) then Err errUDPBadCommand
  else if (length b <? 2)%nat then Err errUDPFrame
  else
    let addrLen := Z.to_nat (b2z (nth 1 b x00)) in
    if negb (addrLen =? 0)%nat then
      let q := (2 + addrLen)%nat in
      if (length b <? q + 3)%nat then Err errUDPFrame
      else Ok (JoinHostPort (take addrLen (drop 2 b)) (Itoa (be_dec (take 2 (drop q b)))), drop (q + 2) b)
    else if (length b <? 3)%nat then Err errUDPFrame
    else if bool_decide (nth 2 b x00 = x04) then ip_form 4%nat
    else if bool_decide (nth 2 b x00 = x06) then ip_form 16%nat
    else Err errUDPFrame.

Definition buildUDPResponse (ip : bytes) (port : Z) (data : bytes) : bytes :=
  match To4 ip with
  | Some ip4 => [x04] ++ ip4 ++ be_enc 2 port ++ data
  | None => [x06] ++ ip ++ be_enc 2 port ++ data
  end.

Definition parseUDPResponse (b : bytes) : res snellErr (bytes * Z * bytes) :=
  let form (n : nat) :=
    if (length b <? 1 + n + 2)%nat then Err errUDPFrame
    else Ok (take n (drop 1 b), be_dec (take 2 (drop (1 + n) b)), drop (1 + n + 2) b) in
  if (length b <? 1)%nat then Err errUDPFrame
  else if bool_decide (nth 0 b x00 = x04) then form 4%nat
  else if bool_decide (nth 0 b x00 = x06) then form 16%nat
  else Err errUDPFrame.

Section packets.
Context (F : Framing).

Record ServerPacketConn := mkSPC { spc_send : Snd F; spc_recv : Rcv F; spc_initial : bytes }.

(** Empty chunks are skipped, [fuel] of them. *)
Fixpoint next_frame (fuel : nat) (recv : Rcv F) : hs snellErr (bytes * Rcv F) :=
  match fuel with
  | O => hfail Diverges
  | S fuel' =>
      '(payload, recv) ← Decode F recv;
      if bool_decide (payload = []) then next_frame fuel' recv else mret (payload, recv)
  end.

Definition SPC_ReadFrom (fuel : nat) (c : ServerPacketConn) : hs snellErr (bytes * bytes * ServerPacketConn) :=
  '(payload, c) ← (match spc_initial c with
                   | [] => '(payload, recv) ← next_frame fuel (spc_recv c); mret (payload, mkSPC (spc_send c) recv [])
                   | initial => mret (initial, mkSPC (spc_send c) (spc_recv c) [])
                   end);
  match parseUDPFrame payload with
  | Err e => hfail e
  | Ok (target, data) => mret (target, data, c)
  end.

Definition SPC_WriteTo (c : ServerPacketConn) (rnd : Rnd F) (ip : bytes) (port : Z) (data : bytes) : hs snellErr ServerPacketConn :=
  match Encode F (spc_send c) rnd (buildUDPResponse ip port data) with
  | Err e => hfail e
  | Ok (enc, send) => hwrite enc;; mret (mkSPC send (spc_recv c) (spc_initial c))
  end.

Record ClientPacketConn := mkCPC { cpc_send : Snd F; cpc_recv : Rcv F }.

Definition DialUDPOver (send : Snd F) (recv : Rcv F) (rnd : Rnd F) : hs snellErr ClientPacketConn :=
  match Encode F send rnd udpCommand with
  | Err e => hfail e
  | Ok (enc, send) => hwrite enc;; mret (mkCPC send recv)
  end.

(** Versions 4 and 5 wait for the tunnel reply. *)
Definition DialUDPOver_v45 (fuel : nat) (send : Snd F) (recv : Rcv F) (rnd : Rnd F) : hs snellErr ClientPacketConn :=
  c ← DialUDPOver send recv rnd;
  '(reply, recv) ← next_frame fuel (cpc_recv c);
  if bool_decide (nth 0 reply x00 = x00) then mret (mkCPC (cpc_send c) recv) else hfail errUDPBadCommand.

Definition CPC_WriteTo (c : ClientPacketConn) (rnd : Rnd F) (target data : bytes) : hs snellErr ClientPacketConn :=
  match buildUDPRequest target data with
  | Err e => hfail e
  | Ok frame =>
      match Encode F (cpc_send c) rnd frame with
      | Err e => hfail e
      | Ok (enc, send) => hwrite enc;; mret (mkCPC send (cpc_recv c))
      end
  end.

Definition CPC_ReadFrom (fuel : nat) (c : ClientPacketConn) : hs snellErr (bytes * Z * bytes * ClientPacketConn) :=
  '(payload, recv) ← next_frame fuel (cpc_recv c);
  match parseUDPResponse payload with
  | Err e => hfail e
  | Ok (ip, port, data) => mret (ip, port, data, mkCPC (cpc_send c) recv)
  end.
End packets.
Arguments mkSPC {F}. Arguments spc_send {F}. Arguments spc_recv {F}. Arguments spc_initial {F}.
Arguments mkCPC {F}. Arguments cpc_send {F}. Arguments cpc_recv {F}.
Arguments next_frame {F}. Arguments SPC_ReadFrom {F}. Arguments SPC_WriteTo {F}.
Arguments DialUDPOver {F}. Arguments DialUDPOver_v45 {F}. Arguments CPC_WriteTo {F}. Arguments CPC_ReadFrom {F}.

(** [parseTarget] of [proto/snell/udp.go]. *)
Definition hostToSocksaddr (host : bytes) (port : Z) : Socksaddr :=
  match ParseAddr host with
  | Some ip => FromIPPort {| ap_addr := ip; ap_port := port |}
  | None => FromFqdn host port
  end.

Definition parseTarget (target : bytes) : res snellErr Socksaddr :=
  match SplitHostPort target with
  | None => Err errUDPTarget
  | Some (host, portStr) =>
      match AtoiE portStr with
      | None => Err errUDPTarget
      | Some port => Ok (hostToSocksaddr host (w16 port))
      end
  end.

(** ** The plugin ([snell.go], [server.go], [udp.go]) *)

Section plugin.
Context `{Crypto}.

Record Config := mkConfig { cfg_PSK : bytes; cfg_Version : Z; cfg_Mode : Mode; cfg_ChaCha : bool }.

Definition isV45 (c : Config) : bool := (cfg_Version c =? 4) || (cfg_Version c =? 5).
Definition isV123 (c : Config) : bool := (1 <=? cfg_Version c) && (cfg_Version c <=? 3).
Definition v123ChaCha (c : Config) : bool := cfg_Version c =? 1.
Definition v123ConnectCmd (c : Config) : byte := if cfg_Version c =? 2 then cmdConnectReuse else cmdConnect.

(** What a handshake draws: a salt, the length of a first padding, padding. *)
Record Draws := mkDraws { dr_salt : bytes; dr_pad : Z; dr_padding : bytes; dr_now : Z }.

(** The framing a configuration speaks, its two directions and its draws. *)
Definition framing_of (c : Config) : Framing := if isV123 c then V123.framing else if isV45 c then V45.framing else v6.

Definition new_send (c : Config) (psk : bytes) (chacha : bool) (d : Draws) : Snd (framing_of c) :=
  match isV123 c as b return Snd (if b then V123.framing else if isV45 c then V45.framing else v6) with
  | true => V123.NewSenderSS psk (v123ChaCha c)
  | false =>
      match isV45 c as b return Snd (if b then V45.framing else v6) with
      | true => V45.NewSender psk (dr_salt d) (dr_pad d)
      | false => NewSender psk chacha (cfg_Mode c)
      end
  end.

Definition new_recv (c : Config) (psk : bytes) : Rcv (framing_of c) :=
  match isV123 c as b return Rcv (if b then V123.framing else if isV45 c then V45.framing else v6) with
  | true => V123.NewReceiverSS psk (v123ChaCha c)
  | false =>
      match isV45 c as b return Rcv (if b then V45.framing else v6) with
      | true => V45.NewReceiver psk
      | false => NewReceiver psk (cfg_Mode c)
      end
  end.

Definition draw (c : Config) (d : Draws) : Rnd (framing_of c) :=
  match isV123 c as b return Rnd (if b then V123.framing else if isV45 c then V45.framing else v6) with
  | true => dr_salt d
  | false =>
      match isV45 c as b return Rnd (if b then V45.framing else v6) with
      | true => dr_padding d
      | false => (dr_salt d, dr_now d)
      end
  end.

(** [ClientHandshake]: the key shown is the one given, or else the configured one. *)
Definition ClientHandshake (c : Config) (key : bytes) (dst : Socksaddr) (d : Draws) : hs snellErr (clientConn (framing_of c)) :=
  let psk := if bool_decide (key = []) then cfg_PSK c else key in
  DialTCPOver (new_send c psk (cfg_ChaCha c) d) (new_recv c psk) (draw c d)
    (if isV123 c then v123ConnectCmd c else cmdConnect) (Host dst) (sa_port dst) [].

(** What the server's handshake found: the command, the bytes behind it, the connection. The
    version 6 server, with its guard, is made for this connection. *)
Definition accept (c : Config) (fuel : nat) (d : Draws) : hs snellErr (command * bytes * serverConn (framing_of c)) :=
  match isV123 c as b return hs snellErr (command * bytes * serverConn (if b then V123.framing else if isV45 c then V45.framing else v6)) with
  | true =>
      '(cmd, rest, recv) ← accept_loop (F := V123.framing) fuel (V123.NewReceiverSS (cfg_PSK c) (v123ChaCha c)) [];
      mret (cmd, [], mkServerConn (F := V123.framing) (V123.NewSenderSS (cfg_PSK c) (v123ChaCha c)) recv rest false)
  | false =>
      match isV45 c as b return hs snellErr (command * bytes * serverConn (if b then V45.framing else v6)) with
      | true =>
          '(cmd, rest, recv) ← accept_loop (F := V45.framing) fuel (V45.NewReceiver (cfg_PSK c)) [];
          mret (cmd, [], mkServerConn (F := V45.framing) (V45.NewSender (cfg_PSK c) (dr_salt d) (dr_pad d)) recv rest false)
      | false =>
          '(cmd, initial, conn, _) ← Accept fuel (Server_init (cfg_PSK c) (cfg_Mode c));
          mret (cmd, initial, conn)
      end
  end.

(** The stream a server handshake hands on: a relay, with what came behind the command in
    front of it ([prefixReadConn]), or the carrier of datagrams. *)
Inductive accepted (F : Framing) :=
| Relayed (prefix : bytes) (conn : serverConn F)
| Carrier (pc : ServerPacketConn F).
Arguments Relayed {F}. Arguments Carrier {F}.

Definition ServerHandshake (c : Config) (fuel : nat) (d : Draws) (auth : Authenticator)
  : hs snellErr (accepted (framing_of c) * Request) :=
  '(cmd, initial, conn) ← accept c fuel d;
  let ref := match auth (bs "snell") (c_clientID cmd) with Some r => r | None => Ambient end in
  if bool_decide (c_command cmd = cmdUDP) then
    if isV123 c || isV45 c then
      match Encode _ (sc_send conn) (draw c d) [x00] with
      | Err e => hfail e
      | Ok (enc, send) =>
          hwrite enc;;
          mret (Carrier (mkSPC send (sc_recv conn) (sc_rbuf conn)), mkRequest (FromFqdn [] 0) ref NetUDP (c_command cmd))
      end
    else mret (Carrier (mkSPC (sc_send conn) (sc_recv conn) initial), mkRequest (FromFqdn [] 0) ref NetUDP (c_command cmd))
  else
    let dst := if bool_decide (c_command cmd = cmdConnect \/ c_command cmd = cmdConnectReuse)
               then hostToSocksaddr (c_host cmd) (c_port cmd) else FromFqdn [] 0 in
    mret (Relayed initial conn, mkRequest dst ref NetTCP (c_command cmd)).

(** [DialPacketConn] chooses between two framings only, and never uses the key it is given. *)
Definition DialPacketConn_framing (c : Config) : Framing := if isV45 c then V45.framing else v6.
Definition DialPacketConn (c : Config) (fuel : nat) (d : Draws) : hs snellErr (ClientPacketConn (DialPacketConn_framing c)) :=
  match isV45 c as b return hs snellErr (ClientPacketConn (if b then V45.framing else v6)) with
  | true => DialUDPOver_v45 (F := V45.framing) fuel (V45.NewSender (cfg_PSK c) (dr_salt d) (dr_pad d)) (V45.NewReceiver (cfg_PSK c)) (dr_padding d)
  | false => DialUDPOver (F := v6) (NewSender (cfg_PSK c) (cfg_ChaCha c) (cfg_Mode c)) (NewReceiver (cfg_PSK c) (cfg_Mode c)) (dr_salt d, dr_now d)
  end.
End plugin.
Arguments Relayed {F}. Arguments Carrier {F}.

(** [prefixReadConn.Read] over the relay. *)
Definition relay_Read {F} (prefix : bytes) (c : serverConn F) (n : nat) : hs snellErr (option bytes * (bytes * serverConn F)) :=
  match prefix with
  | [] => '(x, c) ← serverConn_Read c n; mret (x, ([], c))
  | _ => mret (Some (take n prefix), (drop n prefix, c))
  end.
