(* ===== verification/SnellSpec.v ===== *)
(** * Snell: a session carries what is written

    Proved once against the chunk interface, for the three generations of framing. *)
From S2P Require Import Prelude GoStd Netip Socksaddr AddrText MuxClient Proxy Link SnellChunk SnellProfile SnellFrame SnellFrameSpec SnellV45 SnellV123 Snell.
From Stdlib Require Import Init.Byte.

(** ** Commands come back *)

Definition is_connect (cmd : byte) : Prop := cmd = cmdConnect \/ cmd = cmdConnectReuse.

Lemma parse_connect cmd host port data :
  is_connect cmd -> len host <= 255 -> in_u16 port ->
  parseCommand (connectCommand cmd host port data) = Ok (Some (mkCommand cmd [] host port, (4 + length host + 2)%nat)).
Proof.
  intros Hc Hh Hp. unfold connectCommand. pose proof (len_byte host ltac:(unfold len in *; lia)) as Hlb.
  set (hl := z2b (len host)) in *. clearbody hl. set (pb := be_enc 2 port).
  assert (length pb = 2%nat) as Lp by apply length_be_enc.
  set (b := [x01; cmd; x00; hl] ++ host ++ pb ++ data).
  assert (length b = (6 + length host + length data)%nat) as Lb by (unfold b; rewrite !length_app; cbn; lia).
  assert (take (length host) (drop 4 b) = host) as Eh by (unfold b; cbn; apply take_app_length).
  assert (drop (4 + length host) b = pb ++ data) as Ep by (unfold b; cbn; apply drop_app_length).
  assert (nth 0 b x00 = x01 /\ nth 1 b x00 = cmd /\ nth 2 b x00 = x00 /\ nth 3 b x00 = hl) as (N0 & N1 & N2 & N3) by done.
  clearbody b. unfold parseCommand. cbv zeta. rewrite N0, N1, N2, Lb. change (Z.to_nat (b2z x00)) with 0%nat.
  change (3 + 0)%nat with 3%nat. rewrite N3, <-Hlb. change (3 + 1)%nat with 4%nat.
  rewrite (bool_decide_true (x01 = x01)) by done. rewrite Eh, Ep, take_app_length' by done.
  assert (port = be_dec pb) as <- by (symmetry; by apply port_dec).
  repeat (rewrite (proj2 (Nat.ltb_ge _ _)) by lia).
  destruct Hc as [-> | ->]; reflexivity.
Qed.

(** While it is incomplete, more is asked for. *)
Lemma parse_connect_short cmd host port k :
  is_connect cmd -> len host <= 255 -> (k < 4 + length host + 2)%nat -> parseCommand (take k (connectCommand cmd host port [])) = Ok None.
Proof.
  intros Hc Hh Hk. unfold connectCommand. rewrite app_nil_r. pose proof (len_byte host ltac:(unfold len in *; lia)) as Hlb.
  set (hl := z2b (len host)) in *. clearbody hl. set (pb := be_enc 2 port).
  assert (length pb = 2%nat) as Lp by apply length_be_enc.
  destruct k as [|[|[|[|k]]]]; [done|done|destruct Hc as [-> | ->]; done|destruct Hc as [-> | ->]; done|].
  set (b := take (S (S (S (S k)))) ([x01; cmd; x00; hl] ++ host ++ pb)).
  assert (length b = S (S (S (S k)))) as Lb by (unfold b; rewrite length_take, !length_app; cbn; lia).
  assert (nth 0 b x00 = x01 /\ nth 1 b x00 = cmd /\ nth 2 b x00 = x00 /\ nth 3 b x00 = hl) as (N0 & N1 & N2 & N3) by done.
  clearbody b. unfold parseCommand. cbv zeta. rewrite N0, N1, N2, Lb. change (Z.to_nat (b2z x00)) with 0%nat.
  change (3 + 0)%nat with 3%nat. rewrite N3, <-Hlb. change (3 + 1)%nat with 4%nat.
  rewrite (bool_decide_true (x01 = x01)) by done.
  rewrite (proj2 (Nat.ltb_lt (S (S (S (S k)))) (4 + length host + 2))) by lia.
  repeat (rewrite (proj2 (Nat.ltb_ge _ _)) by lia). destruct Hc as [-> | ->]; reflexivity.
Qed.

(** ** A command is found in whatever chunks carry it *)

Lemma prefix_cases (acc rest full data : bytes) :
  acc ++ rest = full ++ data ->
  ((length acc < length full)%nat /\ acc = take (length acc) full) \/ (exists x, acc = full ++ x /\ x ++ rest = data).
Proof.
  intros E. destruct (decide (length acc < length full)%nat) as [Hl|Hl]; [left|right].
  - split; [done|]. apply (f_equal (take (length acc))) in E. rewrite take_app_length, take_app_le in E by lia. done.
  - exists (drop (length full) acc). assert (take (length full) acc = full) as Ef.
    { apply (f_equal (take (length full))) in E. by rewrite take_app_length, take_app_le in E by lia. }
    split; [rewrite <-Ef at 1; by rewrite take_drop|].
    apply (f_equal (drop (length full))) in E. rewrite drop_app_length, drop_app_le in E by lia. done.
Qed.

(** [full] is the command [cmd] on the wire. *)
Definition wire_command (full : bytes) (cmd : command) : Prop :=
  (forall k, (k < length full)%nat -> parseCommand (take k full) = Ok None) /\
  (forall x, parseCommand (full ++ x) = Ok (Some (cmd, length full))) /\ (2 < length full)%nat.

Lemma connect_wire cmd host port :
  is_connect cmd -> len host <= 255 -> in_u16 port ->
  wire_command (connectCommand cmd host port []) (mkCommand cmd [] host port) /\
  length (connectCommand cmd host port []) = (4 + length host + 2)%nat.
Proof.
  intros Hc Hh Hp. assert (length (connectCommand cmd host port []) = (4 + length host + 2)%nat) as Hl.
  { unfold connectCommand. rewrite !length_app, length_be_enc. cbn. lia. }
  split; [|done]. unfold wire_command. rewrite Hl. split_and!; [|intros x|lia].
  - intros k Hk. by apply parse_connect_short.
  - rewrite <-parse_connect with (data := x) by done. f_equal. unfold connectCommand. by rewrite app_nil_r, <-!app_assoc.
Qed.

(** Where a loop over chunks stands once the command is complete: the input left, the chunks
    left in it, what of the data has come with the command. *)
Definition command_found {R A} (dec : R -> hs snellErr (bytes * R)) (m : hs snellErr A) (inp data : bytes) (r' : R)
    (result : bytes -> R -> A -> Prop) : Prop :=
  exists i2 cs r1 rest v, (forall w, ends m (inp ++ w) (Ok v) (i2 ++ w) []) /\ result rest r1 v /\
    chunks_of dec r1 i2 cs r' /\ [] ∉ cs /\ rest ++ concat cs = data.

Lemma found_next {R A} (dec : R -> hs snellErr (bytes * R)) r out p r1 (f : bytes * R -> hs snellErr A) inp data r' result :
  (forall w, ends (dec r) (out ++ w) (Ok (p, r1)) w []) -> command_found dec (f (p, r1)) inp data r' result ->
  command_found dec (dec r ≫= f) (out ++ inp) data r' result.
Proof.
  intros Hd (i2 & cs & r2 & rest & v & He & H1 & H2 & H3 & H4). exists i2, cs, r2, rest, v. split_and!; try done.
  intros w. rewrite <-app_assoc. eapply (ends_bind _ _ _ _ _ []); [apply Hd|apply He].
Qed.

Section loops.
Context (full : bytes) (cmd : command) (Hwire : wire_command full cmd).

Lemma accept_loop_found (F : Framing) r inp chunks r' : chunks_of (Decode F) r inp chunks r' -> forall fuel acc data,
  [] ∉ chunks -> acc ++ concat chunks = full ++ data -> (length acc < length full)%nat -> (length full - length acc <= fuel)%nat ->
  command_found (Decode F) (accept_loop fuel r acc) inp data r' (fun rest r1 v => v = (cmd, rest, r1)).
Proof.
  destruct Hwire as (Hshort & Hfull & _).
  induction 1 as [|r out p r1 rest ps r2 Hd Hrest IH]; intros fuel acc data Hne E Hacc Hfuel.
  { apply (f_equal length) in E. rewrite !length_app in E. cbn in E. lia. }
  apply not_elem_of_cons in Hne as [Hp Hne]. assert (0 < length p)%nat by (destruct p; [done|cbn; lia]).
  destruct fuel as [|fuel]; [lia|]. cbn [accept_loop]. eapply found_next; [exact Hd|]. rewrite bool_decide_false by done.
  cbn [concat] in E. rewrite app_assoc in E. destruct (prefix_cases _ _ _ _ E) as [[Hl Ht]|(x & Ex & Ed)]; cbv zeta.
  - rewrite Ht, Hshort by done. rewrite <-Ht. apply IH; [done|done|done|]. rewrite length_app in *. lia.
  - rewrite Ex, Hfull. exists rest, ps, r1, x, (cmd, x, r1). rewrite drop_app_length. split_and!; done || (intros w; apply ends_ret).
Qed.

Context `{Crypto}.

Lemma readCommand_found s0 r inp chunks r' : chunks_of DecodeChunk r inp chunks r' -> forall fuel s checked acc data,
  (checked = false -> srv_replay s = newReplayGuard) -> srv_PSK s = srv_PSK s0 -> srv_Mode s = srv_Mode s0 -> srv_prof s = srv_prof s0 ->
  [] ∉ chunks -> acc ++ concat chunks = full ++ data -> (length acc < length full)%nat -> (length full - length acc <= fuel)%nat ->
  command_found DecodeChunk (readCommand fuel s r checked acc) inp data r'
    (fun rest r1 v => v.1 = (cmd, rest, r1) /\ srv_PSK v.2 = srv_PSK s0 /\ srv_Mode v.2 = srv_Mode s0 /\ srv_prof v.2 = srv_prof s0).
Proof.
  destruct Hwire as (Hshort & Hfull & Hlen).
  induction 1 as [|r out p r1 rest ps r2 Hd Hrest IH]; intros fuel s checked acc data Hg S1 S2 S3 Hne E Hacc Hfuel.
  { apply (f_equal length) in E. rewrite !length_app in E. cbn in E. lia. }
  apply not_elem_of_cons in Hne as [Hp Hne]. assert (0 < length p)%nat by (destruct p; [done|cbn; lia]).
  destruct fuel as [|fuel]; [lia|]. cbn [readCommand]. eapply found_next; [exact Hd|].
  set (step := if negb checked && negb (is_raw (srv_Mode s)) then _ else (false, s)).
  assert (step.1 = false /\ srv_PSK step.2 = srv_PSK s0 /\ srv_Mode step.2 = srv_Mode s0 /\ srv_prof step.2 = srv_prof s0 /\
    (checked || negb (is_raw (srv_Mode s0)) = false -> srv_replay step.2 = newReplayGuard)) as (T0 & T1 & T2 & T3 & T4).
  { unfold step. rewrite S2. destruct checked; [done|]. destruct (is_raw (srv_Mode s0)); cbn [negb andb orb]; [by auto|].
    rewrite Hg by done. unfold seenBefore, newReplayGuard. cbn [bank g_active bank0 bank1 negb]. rewrite !bool_decide_false by set_solver. done. }
  clearbody step. destruct step as [seen s']. cbn [fst snd] in *. subst seen. rewrite T2.
  cbn [concat] in E. rewrite app_assoc in E. destruct (prefix_cases _ _ _ _ E) as [[Hl Ht]|(x & Ex & Ed)]; cbv zeta.
  - rewrite Ht, Hshort by done. rewrite <-Ht. apply IH; [done..|]. rewrite length_app in *. lia.
  - rewrite Ex, Hfull. destruct (Nat.leb_spec (length (full ++ x)) 2) as [Hle|_]; [rewrite length_app in Hle; lia|].
    exists rest, ps, r1, x, (cmd, x, r1, s'). rewrite drop_app_length. split_and!; done || (intros w; apply ends_ret).
Qed.
End loops.

(** ** A reader that holds [B]: whatever the buffer, the next read gives its next bytes *)

Inductive delivers {C} (rd : C -> nat -> hs snellErr (option bytes * C)) : C -> bytes -> bytes -> Prop :=
| delivers_intro c i B :
    (B = [] -> i = []) ->
    (forall n, (0 < n)%nat -> B <> [] ->
       exists p B' c' i', B = p ++ B' /\ p <> [] /\ (length p <= n)%nat /\
         (forall w, ends (rd c n) (i ++ w) (Ok (Some p, c')) (i' ++ w) []) /\ delivers rd c' i' B') ->
    delivers rd c i B.

Lemma take_some n (p : bytes) : (0 < n)%nat -> p <> [] -> take n p <> [] /\ (length (take n p) <= n)%nat /\ (length (drop n p) < length p)%nat.
Proof.
  intros Hn Hp. destruct n; [lia|]. destruct p; [done|]. rewrite length_take, length_drop. cbn [length]. split_and!; [done|lia..].
Qed.

Lemma app_nil_both (a b : bytes) : a ++ b = [] -> a = [] /\ b = [].
Proof. apply app_nil. Qed.

Lemma no_empty_nil (chunks : list bytes) : [] ∉ chunks -> concat chunks = [] -> chunks = [].
Proof.
  destruct chunks as [|c cs]; [done|]. intros [Hc _]%not_elem_of_cons [Hc' _]%app_nil_both. congruence.
Qed.

Section readers.
Context (F : Framing).

Lemma server_delivers k : forall (c : serverConn F) i chunks r', (length (sc_rbuf c ++ concat chunks) <= k)%nat ->
  chunks_of (Decode F) (sc_recv c) i chunks r' -> [] ∉ chunks -> delivers serverConn_Read c i (sc_rbuf c ++ concat chunks).
Proof.
  induction k as [|k IH]; intros c i chunks r' Hk Hc Hne.
  { assert (sc_rbuf c ++ concat chunks = []) as E by (apply nil_length_inv; lia). rewrite E. apply app_nil_both in E as [E1 E2].
    rewrite (no_empty_nil _ Hne E2) in Hc. inversion Hc; subst. by constructor. }
  constructor.
  - intros [E1 E2]%app_nil_both. rewrite (no_empty_nil _ Hne E2) in Hc. by inversion Hc.
  - intros n Hn HB. unfold serverConn_Read. destruct (sc_rbuf c) as [|b0 rb] eqn:Erb.
    + inversion Hc as [|? out p r1 rest ps ? Hd Hrest]; subst; [done|]. apply not_elem_of_cons in Hne as [Hp Hne].
      destruct (take_some n p Hn ltac:(done)) as (T1 & T2 & T3). cbn [app concat] in *.
      set (c1 := mkServerConn (sc_send c) r1 (drop n p) (sc_sentStatus c)).
      exists (take n p), (drop n p ++ concat ps), c1, rest. split; [by rewrite app_assoc, take_drop|]. split_and!; [done|done| |].
      * intros w. rewrite <-app_assoc. eapply (ends_bind _ _ _ _ _ []); [apply Hd|]. cbv beta iota zeta. rewrite bool_decide_false by done. apply ends_ret.
      * apply (IH c1 rest ps r'); [|done|done]. cbn [sc_rbuf c1]. rewrite length_app in *. lia.
    + destruct (take_some n (b0 :: rb) Hn ltac:(done)) as (T1 & T2 & T3). set (rbuf := b0 :: rb) in *. clearbody rbuf.
      set (c1 := mkServerConn (sc_send c) (sc_recv c) (drop n rbuf) (sc_sentStatus c)).
      exists (take n rbuf), (drop n rbuf ++ concat chunks), c1, i. split; [by rewrite app_assoc, take_drop|]. split_and!; [done|done| |].
      * intros w. apply ends_ret.
      * apply (IH c1 i chunks r'); [|done|done]. cbn [sc_rbuf c1]. rewrite length_app in *. lia.
Qed.

(** Behind a prefix. *)
Lemma relay_delivers k : forall prefix (c : serverConn F) i B, (length prefix <= k)%nat ->
  delivers serverConn_Read c i B -> delivers (fun pc n => relay_Read pc.1 pc.2 n) (prefix, c) i (prefix ++ B).
Proof.
  assert (forall c i B, delivers serverConn_Read c i B -> delivers (fun pc n => relay_Read (F := F) pc.1 pc.2 n) ([], c) i B) as H0.
  { fix IH 4. intros c i B Hd. destruct Hd as [c i B Hnil Hstep]. constructor; [done|]. intros n Hn HB.
    destruct (Hstep n Hn HB) as (p & B' & c' & i' & E & Hp & Hl & He & Hd). exists p, B', ([], c'), i'.
    split_and!; [done..| |by apply IH]. intros w. cbn [relay_Read fst snd]. eapply (ends_bind _ _ _ _ _ []); [apply He|apply ends_ret]. }
  induction k as [|k IH]; intros prefix c i B Hk Hd.
  { destruct prefix; [|cbn in Hk; lia]. by apply H0. }
  destruct prefix as [|b0 pf]; [by apply H0|]. constructor; [done|]. intros n Hn _.
  destruct (take_some n (b0 :: pf) Hn ltac:(done)) as (T1 & T2 & T3). cbn [relay_Read fst snd].
  set (prefix := b0 :: pf) in *. clearbody prefix.
  exists (take n prefix), (drop n prefix ++ B), (drop n prefix, c), i. split; [by rewrite app_assoc, take_drop|].
  split_and!; [done|done|intros w; apply ends_ret|]. apply IH; [lia|done].
Qed.

Lemma client_delivers_after k : forall (c : clientConn F) i chunks r', cc_gotStatus c = true -> (length (cc_rbuf c ++ concat chunks) <= k)%nat ->
  chunks_of (Decode F) (cc_recv c) i chunks r' -> [] ∉ chunks -> delivers clientConn_Read c i (cc_rbuf c ++ concat chunks).
Proof.
  induction k as [|k IH]; intros c i chunks r' Hg Hk Hc Hne.
  { assert (cc_rbuf c ++ concat chunks = []) as E by (apply nil_length_inv; lia). rewrite E. apply app_nil_both in E as [E1 E2].
    rewrite (no_empty_nil _ Hne E2) in Hc. inversion Hc; subst. by constructor. }
  constructor.
  - intros [E1 E2]%app_nil_both. rewrite (no_empty_nil _ Hne E2) in Hc. by inversion Hc.
  - intros n Hn HB. unfold clientConn_Read. destruct (cc_rbuf c) as [|b0 rb] eqn:Erb.
    + inversion Hc as [|? out p r1 rest ps ? Hd Hrest]; subst; [done|]. apply not_elem_of_cons in Hne as [Hp Hne].
      destruct (take_some n p Hn ltac:(done)) as (T1 & T2 & T3). cbn [app concat] in *.
      set (c1 := mkClientConn (cc_send c) r1 (drop n p) true).
      exists (take n p), (drop n p ++ concat ps), c1, rest. split; [by rewrite app_assoc, take_drop|]. split_and!; [done|done| |].
      * intros w. rewrite <-app_assoc. eapply (ends_bind _ _ _ (Some p, r1, true) _ []).
        -- cbn [client_fill]. eapply (ends_bind _ _ _ _ _ []); [apply Hd|]. cbv beta iota. rewrite Hg. destruct p; [done|]. apply ends_ret.
        -- apply ends_ret.
      * apply (IH c1 rest ps r'); [done| |done|done]. cbn [cc_rbuf c1]. rewrite length_app in *. lia.
    + destruct (take_some n (b0 :: rb) Hn ltac:(done)) as (T1 & T2 & T3). set (rbuf := b0 :: rb) in *. clearbody rbuf.
      set (c1 := mkClientConn (cc_send c) (cc_recv c) (drop n rbuf) (cc_gotStatus c)).
      exists (take n rbuf), (drop n rbuf ++ concat chunks), c1, i. split; [by rewrite app_assoc, take_drop|]. split_and!; [done|done| |].
      * intros w. apply ends_ret.
      * apply (IH c1 i chunks r'); [done| |done|done]. cbn [cc_rbuf c1]. rewrite length_app in *. lia.
Qed.

(** The first response: the status byte goes. *)
Lemma client_delivers (c : clientConn F) i chunks r' B :
  cc_gotStatus c = false -> cc_rbuf c = [] -> chunks_of (Decode F) (cc_recv c) i chunks r' -> [] ∉ chunks ->
  (chunks = [] /\ B = []) \/ (concat chunks = x00 :: B /\ B <> []) -> delivers clientConn_Read c i B.
Proof.
  intros Hg Hrb Hc Hne [[-> ->]|[HB HB0]]; [inversion Hc; subst; by constructor|].
  constructor; [done|]. intros n Hn _. unfold clientConn_Read. rewrite Hrb, Hg.
  inversion Hc as [|? out p r1 rest ps ? Hd Hrest]; subst; [done|]. apply not_elem_of_cons in Hne as [Hp Hne].
  destruct p as [|b p]; [done|]. cbn [concat app] in HB. injection HB as -> HB. destruct (decide (p = [])) as [-> |Hpe].
  - cbn [app] in HB. inversion Hrest as [|? out2 p2 r2 rest2 ps2 ? Hd2 Hrest2]; subst; [done|].
    apply not_elem_of_cons in Hne as [Hp2 Hne]. destruct (take_some n p2 Hn ltac:(done)) as (T1 & T2 & _).
    set (c1 := mkClientConn (cc_send c) r2 (drop n p2) true).
    exists (take n p2), (drop n p2 ++ concat ps2), c1, rest2. split; [cbn; by rewrite app_assoc, take_drop|]. split_and!; [done|done| |].
    + intros w. rewrite <-!app_assoc. eapply (ends_bind _ _ _ (Some p2, r2, true) _ []); [|apply ends_ret].
      cbn [client_fill]. eapply (ends_bind _ _ _ _ _ []); [apply Hd|]. cbv beta iota zeta. rewrite bool_decide_false by done.
      eapply (ends_bind _ _ _ _ _ []); [apply Hd2|]. destruct p2; [done|]. apply ends_ret.
    + by apply (client_delivers_after _ c1 rest2 ps2 r' eq_refl (le_n _)).
  - destruct (take_some n p Hn Hpe) as (T1 & T2 & _). set (c1 := mkClientConn (cc_send c) r1 (drop n p) true).
    exists (take n p), (drop n p ++ concat ps), c1, rest. split; [by rewrite app_assoc, take_drop|]. split_and!; [done|done| |].
    + intros w. rewrite <-app_assoc. eapply (ends_bind _ _ _ (Some p, r1, true) _ []); [|apply ends_ret].
      cbn [client_fill]. eapply (ends_bind _ _ _ _ _ []); [apply Hd|]. cbv beta iota zeta. rewrite bool_decide_false by done. destruct p; [done|]. apply ends_ret.
    + by apply (client_delivers_after _ c1 rest ps r' eq_refl (le_n _)).
Qed.
End readers.

(** ** Writers *)

Section writers.
Context {F : Framing} `{!FramingLaws F}.

Fixpoint client_writes (c : clientConn F) (ws : list (Rnd F * bytes)) : hs snellErr (clientConn F) :=
  match ws with
  | [] => mret c
  | (rnd, p) :: ws => '(_, c) ← clientConn_Write c rnd p; client_writes c ws
  end.

Fixpoint server_writes (c : serverConn F) (ws : list (Rnd F * bytes)) : hs snellErr (serverConn F) :=
  match ws with
  | [] => mret c
  | (rnd, p) :: ws => '(_, c) ← serverConn_Write c rnd p; server_writes c ws
  end.

Definition writable (w : Rnd F * bytes) : Prop := rnd_ok w.1 /\ w.2 <> [].

(** The chunks of writes that are not empty. *)
Definition carried (r : Rcv F) (out data : bytes) (s' : Snd F) : Prop :=
  exists chunks r', chunks_of (Decode F) r out chunks r' /\ [] ∉ chunks /\ concat chunks = data /\ in_step s' r'.

Lemma carried_app r o1 d1 s1 o2 d2 s2 :
  carried r o1 d1 s1 -> (forall r1, in_step s1 r1 -> carried r1 o2 d2 s2) -> carried r (o1 ++ o2) (d1 ++ d2) s2.
Proof.
  intros (c1 & r1 & H1 & H2 & H3 & H4) Hn. destruct (Hn r1 H4) as (c2 & r2 & K1 & K2 & K3 & K4).
  exists (c1 ++ c2), r2. split_and!; [by eapply chunks_of_app|by rewrite elem_of_app; intros [?|?]|by rewrite concat_app, H3, K3|done].
Qed.

Lemma encode_carried s r rnd p : in_step s r -> rnd_ok rnd -> p <> [] ->
  exists out s', Encode F s rnd p = Ok (out, s') /\ carried r out p s' /\ (forall r, in_step s r -> carried r out p s').
Proof.
  intros Hi Hr Hp. destruct (encode_read s r rnd p Hi Hr) as (out & s' & cs & r' & E & Hc & (P1 & _ & P2) & Hi').
  exists out, s'. split; [done|]. split; [exists cs, r'; auto|]. intros r0 Hi0.
  destruct (encode_read s r0 rnd p Hi0 Hr) as (out0 & s0 & cs0 & r0' & E0 & Hc0 & (Q1 & _ & Q2) & Hi0').
  rewrite E in E0. injection E0 as <- <-. exists cs0, r0'. auto.
Qed.

Lemma client_writes_ends ws : Forall writable ws -> forall (c : clientConn F) r, in_step (cc_send c) r ->
  exists c' out, (forall i, ends (client_writes c ws) i (Ok c') i out) /\ carried r out (concat ws.*2) (cc_send c') /\
    cc_recv c' = cc_recv c /\ cc_rbuf c' = cc_rbuf c /\ cc_gotStatus c' = cc_gotStatus c.
Proof.
  induction 1 as [|[rnd p] ws [Hr Hp] _ IH]; intros c r Hi.
  { exists c, []. split; [intros i; apply ends_ret|]. split; [|done]. exists [], r. split_and!; [constructor|by apply not_elem_of_nil|done|done]. }
  destruct (encode_carried (cc_send c) r rnd p Hi Hr Hp) as (out & s' & E & Hc & _).
  pose proof Hc as (cs & r1 & H1 & H2 & H3 & H4). set (c1 := mkClientConn s' (cc_recv c) (cc_rbuf c) (cc_gotStatus c)).
  destruct (IH c1 r1 H4) as (c' & out' & He & (cs' & r2 & K1 & K2 & K3 & K4) & S1 & S2 & S3).
  exists c', (out ++ out'). split; [|split; [|done]].
  - intros i. cbn [client_writes]. unfold clientConn_Write. rewrite E.
    eapply ends_bind; [eapply ends_write_ret|]. apply He.
  - exists (cs ++ cs'), r2. cbn [fmap list_fmap concat snd].
    split_and!; [by eapply chunks_of_app|by rewrite elem_of_app; intros [?|?]|by rewrite concat_app, H3, K3|done].
Qed.

Lemma server_writes_ends ws : Forall writable ws -> forall (c : serverConn F) r, in_step (sc_send c) r ->
  exists c' out, (forall i, ends (server_writes c ws) i (Ok c') i out) /\
    carried r out (if sc_sentStatus c then concat ws.*2 else match ws with [] => [] | _ => x00 :: concat ws.*2 end) (sc_send c').
Proof.
  induction 1 as [|[rnd p] ws [Hr Hp] _ IH]; intros c r Hi.
  { exists c, []. split; [intros i; apply ends_ret|]. exists [], r.
    split_and!; [constructor|by apply not_elem_of_nil|by destruct (sc_sentStatus c)|done]. }
  set (data := if sc_sentStatus c then p else x00 :: p). assert (data <> []) as Hd by (unfold data; by destruct (sc_sentStatus c)).
  destruct (encode_carried (sc_send c) r rnd data Hi Hr Hd) as (out & s' & E & (cs & r1 & H1 & H2 & H3 & H4) & _).
  set (c1 := mkServerConn s' (sc_recv c) (sc_rbuf c) true).
  destruct (IH c1 r1 H4) as (c' & out' & He & (cs' & r2 & K1 & K2 & K3 & K4)). cbn [sc_sentStatus c1] in K3.
  exists c', (out ++ out'). split.
  - intros i. cbn [server_writes]. unfold serverConn_Write. fold data. rewrite E.
    eapply ends_bind; [eapply ends_write_ret|]. apply He.
  - exists (cs ++ cs'), r2. split_and!; [by eapply chunks_of_app|by rewrite elem_of_app; intros [?|?]| |done].
    rewrite concat_app, H3, K3. unfold data. by destruct (sc_sentStatus c).
Qed.
End writers.

(** ** By version *)

Section session.
Context `{Crypto} `{!CryptoLaws}.

#[export] Instance framing_of_laws (c : Config) : FramingLaws (framing_of c) :=
  match isV123 c as b return FramingLaws (if b then V123.framing else if isV45 c then V45.framing else v6) with
  | true => v123_laws
  | false => match isV45 c as b return FramingLaws (if b then V45.framing else v6) with true => v45_laws | false => v6_laws end
  end.

Record draws_ok (d : Draws) : Prop := {
  do_salt : length (dr_salt d) = 16%nat;
  do_pad : 0 <= dr_pad d < V45.initPadSpan;
  do_padding : (511 <= length (dr_padding d))%nat;
}.

Lemma draw_ok c d : draws_ok d -> rnd_ok (draw c d).
Proof.
  intros [H1 H2 H3]. unfold draw, framing_of_laws, framing_of. destruct (isV123 c); [exact H1|]. destruct (isV45 c); [exact H3|exact H1].
Qed.

Lemma new_in_step c psk chacha d : draws_ok d -> aes_rejects_chacha -> in_step (new_send c psk chacha d) (new_recv c psk).
Proof.
  intros [H1 H2 H3] Hc. unfold new_send, new_recv, framing_of_laws, framing_of. destruct (isV123 c); [apply v123_new|].
  destruct (isV45 c); [by apply v45_new|]. by apply v6_new.
Qed.

Lemma accept_found c fuel d inp chunks r' full cmd data :
  wire_command full cmd -> chunks_of (Decode (framing_of c)) (new_recv c (cfg_PSK c)) inp chunks r' -> [] ∉ chunks ->
  concat chunks = full ++ data -> (length full <= fuel)%nat -> draws_ok d -> aes_rejects_chacha ->
  exists prefix sc i cs, (forall w, ends (accept c fuel d) (inp ++ w) (Ok (cmd, prefix, sc)) (i ++ w) []) /\
    chunks_of (Decode (framing_of c)) (sc_recv sc) i cs r' /\ [] ∉ cs /\ prefix ++ sc_rbuf sc ++ concat cs = data /\
    sc_sentStatus sc = false /\ in_step (sc_send sc) (new_recv c (cfg_PSK c)).
Proof.
  intros Hw Hc Hne Hcat Hf [D1 D2 D3] Haes. pose proof Hw as (_ & _ & Hlen).
  unfold accept, new_recv, framing_of_laws, framing_of in *. destruct (isV123 c); [|destruct (isV45 c)].
  - destruct (accept_loop_found full cmd Hw _ _ _ _ _ Hc fuel [] data Hne Hcat) as (i & cs & r1 & rest & v & He & -> & K1 & K2 & K3); [cbn; lia..|].
    eexists [], _, i, cs. split; [|].
    + intros w. eapply (ends_bind _ _ _ _ _ []); [apply He|]. apply ends_ret.
    + split_and!; [exact K1|done|exact K3|done|apply v123_new].
  - destruct (accept_loop_found full cmd Hw _ _ _ _ _ Hc fuel [] data Hne Hcat) as (i & cs & r1 & rest & v & He & -> & K1 & K2 & K3); [cbn; lia..|].
    eexists [], _, i, cs. split; [|].
    + intros w. eapply (ends_bind _ _ _ _ _ []); [apply He|]. apply ends_ret.
    + split_and!; [exact K1|done|exact K3|done|by apply v45_new].
  - destruct (readCommand_found full cmd Hw (Server_init (cfg_PSK c) (cfg_Mode c)) _ _ _ _ Hc fuel (Server_init (cfg_PSK c) (cfg_Mode c)) false [] data)
      as (i & cs & r1 & rest & [v s'] & He & (Ev & S1 & S2 & S3) & K1 & K2 & K3); try done; [cbn; lia..|].
    cbn [fst snd] in *. subst v.
    set (sc := mkServerConn (F := v6) (NewSenderWithProfile (srv_PSK s') (r_chacha r1) (srv_prof s') (srv_Mode s')) r1 [] false).
    exists rest, sc, i, cs. split; [|].
    + intros w. unfold Accept. apply (ends_bind _ _ _ (cmd, rest, sc, s') (i ++ w) []); [|apply ends_ret].
      eapply (ends_bind _ _ _ _ _ []); [apply He|]. apply ends_ret.
    + split_and!; [exact K1|done|exact K3|done|]. cbn [sc_send sc]. rewrite S1, S2, S3. cbn [srv_PSK srv_Mode srv_prof Server_init].
      exact (synced_new (cfg_PSK c) (DeriveProfile (cfg_PSK c)) _ (cfg_Mode c) (DeriveProfile_ok _) (fun _ => Haes)).
Qed.

(** [C30] A Snell connection of any version (1 to 6; in version 6 of any mode and either
    cipher) carries what is written on it, whatever the salts and paddings drawn, the sizes
    of the writes and the sizes of the reads. The client's handshake and writes succeed;
    the server's handshake, on what they put on the wire, finds the destination (as the text
    of the command reads back), keeps the user ambient or known by his id, and leaves a
    stream that delivers exactly the client's bytes; what the server writes back, behind its
    status byte, is delivered exactly to the client. Relies on AES not opening what ChaCha
    sealed, which is how the server learns the cipher. *)
Theorem snell_session c key dst dc ds auth ws rs fuel :
  key = [] \/ key = cfg_PSK c -> draws_ok dc -> draws_ok ds -> len (Host dst) <= 255 -> in_u16 (sa_port dst) ->
  Forall writable ws -> Forall writable rs -> aes_rejects_chacha -> (261 <= fuel)%nat ->
  exists cc out cc' up prefix sc i sc' down,
    ends (ClientHandshake c key dst dc) [] (Ok cc) [] out /\
    ends (client_writes cc ws) [] (Ok cc') [] up /\
    (forall w, ends (ServerHandshake c fuel ds auth) (out ++ up ++ w)
       (Ok (Relayed prefix sc, mkRequest (hostToSocksaddr (Host dst) (sa_port dst)) (default Ambient (auth (bs "snell") []))
              NetTCP (if isV123 c then v123ConnectCmd c else cmdConnect))) (i ++ w) []) /\
    delivers (fun pc n => relay_Read pc.1 pc.2 n) (prefix, sc) i (concat ws.*2) /\
    ends (server_writes sc rs) [] (Ok sc') [] down /\
    delivers clientConn_Read cc' down (concat rs.*2).
Proof.
  intros Hkey Hdc Hds Hhost Hport Hws Hrs Haes Hfuel.
  set (cmd := if isV123 c then v123ConnectCmd c else cmdConnect).
  assert (is_connect cmd) as Hcmd by (unfold cmd, v123ConnectCmd, is_connect; repeat case_match; auto).
  destruct (connect_wire cmd (Host dst) (sa_port dst) Hcmd Hhost Hport) as [Hwire Hwl].
  set (full := connectCommand cmd (Host dst) (sa_port dst) []) in *.
  assert (full <> []) as Hfull by (intros E; rewrite E in Hwl; cbn in Hwl; lia).
  assert ((if bool_decide (key = []) then cfg_PSK c else key) = cfg_PSK c) as Hpsk by (case_bool_decide; naive_solver).
  pose proof (new_in_step c (cfg_PSK c) (cfg_ChaCha c) dc Hdc Haes) as Hstep.
  destruct (encode_carried _ _ (draw c dc) full Hstep (draw_ok c dc Hdc) Hfull) as (out & s1 & Eenc & Hcar & _).
  set (cc := mkClientConn s1 (new_recv c (cfg_PSK c)) [] false).
  assert (ends (ClientHandshake c key dst dc) [] (Ok cc) [] out) as Hdial.
  { unfold ClientHandshake, DialTCPOver. rewrite Hpsk. fold cmd full. rewrite Eenc. apply ends_write_ret. }
  pose proof Hcar as (cs1 & r1 & C1 & C2 & C3 & C4).
  destruct (client_writes_ends ws Hws cc r1 C4) as (cc' & up & Hup & (cs2 & r2 & U1 & U2 & U3 & U4) & Ur & Ub & Ug).
  destruct (accept_found c fuel ds (out ++ up) (cs1 ++ cs2) r2 full _ (concat ws.*2) Hwire) as (prefix & sc & i & cs & Hacc & A1 & A2 & A3 & A4 & A5); try done.
  { by eapply chunks_of_app. } { rewrite elem_of_app. by intros [?|?]. } { by rewrite concat_app, C3, U3. } { rewrite Hwl. unfold len in Hhost. lia. }
  destruct (server_writes_ends rs Hrs sc (new_recv c (cfg_PSK c)) A5) as (sc' & down & Hdown & (cs3 & r3 & B1 & B2 & B3 & _)).
  exists cc, out, cc', up, prefix, sc, i, sc', down. split; [done|]. split; [done|]. split; [|split; [|split; [done|]]].
  - intros w. rewrite app_assoc. unfold ServerHandshake. eapply (ends_bind _ _ _ _ _ []); [apply Hacc|].
    cbv beta iota zeta. cbn [c_command c_clientID c_host c_port].
    rewrite bool_decide_false by (destruct Hcmd as [-> | ->]; done). rewrite bool_decide_true by exact Hcmd.
    unfold default. destruct (auth (bs "snell") []); apply ends_ret.
  - rewrite <-A3. eapply relay_delivers; [done|]. by eapply server_delivers.
  - eapply client_delivers; [done|done| |exact B2|]; [rewrite Ur; exact B1|]. rewrite A4 in B3. destruct rs as [|[rnd p] rs].
    + left. split; [by apply no_empty_nil|done].
    + right. split; [exact B3|]. apply Forall_cons in Hrs as [[_ Hp] _]. cbn in Hp |- *. by intros [? ?]%app_nil_both.
Qed.
End session.

(** ** Replayed salts *)

Definition guard_wf (g : replayGuard) : Prop :=
  0 <= g_count g < g_capacity g /\ Z.of_nat (size (bank g (g_active g))) <= g_count g /\
  Z.of_nat (size (bank g (negb (g_active g)))) <= g_capacity g.

Lemma bank_set g i j s : bank (set_bank g i s) j = if bool_decide (i = j) then s else bank g j.
Proof. unfold bank, set_bank. by destruct i, j. Qed.

Lemma set_bank_fields g i s :
  g_active (set_bank g i s) = g_active g /\ g_count (set_bank g i s) = g_count g /\ g_capacity (set_bank g i s) = g_capacity g.
Proof. by destruct i. Qed.

(** One call: seen, or inserted into the active bank; a bank that is full becomes the history
    and the other is emptied. *)
Inductive seen_spec (g : replayGuard) (salt : bytes) : bool * replayGuard -> Prop :=
| seen_yes : salt ∈ bank0 g \/ salt ∈ bank1 g -> seen_spec g salt (true, g)
| seen_new g' :
    salt ∉ bank0 g -> salt ∉ bank1 g -> g_count g + 1 < g_capacity g -> g_active g' = g_active g -> g_count g' = g_count g + 1 ->
    g_capacity g' = g_capacity g ->
    bank g' (g_active g) = {[salt]} ∪ bank g (g_active g) -> bank g' (negb (g_active g)) = bank g (negb (g_active g)) -> seen_spec g salt (false, g')
| seen_flip g' :
    salt ∉ bank0 g -> salt ∉ bank1 g -> g_capacity g <= g_count g + 1 -> g_active g' = negb (g_active g) -> g_count g' = 0 ->
    g_capacity g' = g_capacity g ->
    bank g' (g_active g) = {[salt]} ∪ bank g (g_active g) -> bank g' (negb (g_active g)) = ∅ -> seen_spec g salt (false, g').

Lemma seenBefore_spec g salt : seen_spec g salt (seenBefore g salt).
Proof.
  destruct g as [b0 b1 a n c]. unfold seenBefore. destruct a; cbn [bank g_active bank0 bank1 negb];
    (case_bool_decide as H1; [constructor; cbn; auto|]); (case_bool_decide as H2; [constructor; cbn; auto|]);
    cbn [set_bank bank0 bank1 g_active g_count g_capacity]; (destruct (Z.leb_spec c (n + 1)); [apply seen_flip|apply seen_new]); cbn; (done || lia).
Qed.

Lemma in_banks g salt : salt ∈ bank g (g_active g) \/ salt ∈ bank g (negb (g_active g)) <-> salt ∈ bank0 g \/ salt ∈ bank1 g.
Proof. unfold bank. destruct (g_active g); cbn; tauto. Qed.

Lemma guard_wf_step g salt : guard_wf g -> guard_wf (seenBefore g salt).2 /\ g_capacity (seenBefore g salt).2 = g_capacity g.
Proof.
  intros (H1 & H2 & H3). unfold guard_wf. assert (forall X : gset bytes, Z.of_nat (size ({[salt]} ∪ X)) <= Z.of_nat (size X) + 1) as Hsz.
  { intros X. rewrite size_union_alt, size_singleton. pose proof (subseteq_size (X ∖ {[salt]}) X ltac:(set_solver)). lia. }
  destruct (seenBefore_spec g salt) as [?|g' ? ? ? E1 E2 E3 E4 E5|g' ? ? ? E1 E2 E3 E4 E5]; cbn [snd]; [done|..].
  - rewrite E1, E2, E3, E4, E5. pose proof (Hsz (bank g (g_active g))). split; [|done]. lia.
  - rewrite E1, E2, E3, negb_involutive, E4, E5, size_empty. pose proof (Hsz (bank g (g_active g))). split; [|done]. lia.
Qed.

Definition see_all (g : replayGuard) (salts : list bytes) : replayGuard := foldl (fun g s => (seenBefore g s).2) g salts.

(** Still remembered for [m] more calls. *)
Definition remembered (g : replayGuard) (salt : bytes) (m : Z) : Prop :=
  m <= 0 \/ (salt ∈ bank g (g_active g) /\ m <= 2 * g_capacity g - g_count g) \/
  (salt ∈ bank g (negb (g_active g)) /\ m <= g_capacity g - g_count g).

Lemma remembered_step g salt x m : guard_wf g -> remembered g salt (m + 1) -> remembered (seenBefore g x).2 salt m.
Proof.
  intros (H1 & _) Hr. unfold remembered in *.
  destruct (seenBefore_spec g x) as [?|g' ? ? ? E1 E2 E3 E4 E5|g' ? ? ? E1 E2 E3 E4 E5]; cbn [snd]; [intuition lia|..].
  - rewrite E1, E2, E3, E4, E5. destruct Hr as [?|[[? ?]|[? ?]]]; [left; lia|right; left; split; [set_solver|lia]|right; right; split; [done|lia]].
  - rewrite E1, E2, E3, negb_involutive, E4, E5. destruct Hr as [?|[[? ?]|[? ?]]]; [left; lia|right; right; split; [set_solver|lia]|left; lia].
Qed.

Lemma remembered_all salts : forall g salt m, guard_wf g -> remembered g salt (m + Z.of_nat (length salts)) -> remembered (see_all g salts) salt m.
Proof.
  induction salts as [|x salts IH]; intros g salt m Hg Hr; cbn [length] in Hr; [by rewrite Z.add_0_r in Hr|]. unfold see_all. cbn [foldl].
  apply IH; [by apply guard_wf_step|]. apply remembered_step; [done|]. by replace (m + Z.of_nat (length salts) + 1) with (m + Z.of_nat (S (length salts))) by lia.
Qed.

(** The guard against replayed salts: neither bank ever holds more salts than the
    capacity, and a salt accepted once is refused again, whatever comes in between, for as
    many further connections as a bank holds. *)
Theorem replay_window g salt salts :
  guard_wf g -> (seenBefore g salt).1 = false -> Z.of_nat (length salts) < g_capacity g ->
  guard_wf (see_all (seenBefore g salt).2 salts) /\ (seenBefore (see_all (seenBefore g salt).2 salts) salt).1 = true.
Proof.
  intros Hg Hnew Hl. destruct (guard_wf_step g salt Hg) as [Hg1 Hcap]. split.
  { clear Hl Hnew. revert Hg1. generalize (seenBefore g salt).2. induction salts as [|x salts IH]; intros g1 Hg1; [done|].
    cbn. by apply IH, guard_wf_step. }
  assert (remembered (see_all (seenBefore g salt).2 salts) salt 1) as Hr.
  { apply remembered_all; [done|]. destruct Hg as (H1 & _). unfold remembered.
    destruct (seenBefore_spec g salt) as [?|g' ? ? ? E1 E2 E3 E4 E5|g' ? ? ? E1 E2 E3 E4 E5]; cbn [fst snd] in *; [done|..].
    - rewrite E1, E2, E3, E4. right. left. split; [set_solver|lia].
    - rewrite E1, E2, E3, negb_involutive, E4. right. right. split; [set_solver|lia]. }
  set (g2 := see_all _ _) in *. assert (salt ∈ bank0 g2 \/ salt ∈ bank1 g2) as Hin by (apply in_banks; unfold remembered in Hr; intuition lia).
  destruct (seenBefore_spec g2 salt); [done|tauto..].
Qed.

Lemma replay_window_witness :
  (seenBefore (see_all (seenBefore newReplayGuard (bs "salt")).2 [bs "a"; bs "b"]) (bs "salt")).1 = true.
Proof. apply replay_window; [vm_compute; split_and!; discriminate || reflexivity|vm_compute; reflexivity|vm_compute; reflexivity]. Defined.

(** The guard of a connection's own server is always new: it has seen nothing. *)
Lemma fresh_guard_accepts `{Crypto} psk mode salt : (seenBefore (srv_replay (Server_init psk mode)) salt).1 = false.
Proof. unfold seenBefore. cbn. rewrite !bool_decide_false by set_solver. done. Qed.

(** ** Responses *)

Lemma response_message_of e : response_message (snellErrorResponse e) = take 255 (error_entry e).2.
Proof.
  unfold snellErrorResponse. destruct (error_entry e) as [typ msg]. cbn [snd].
  set (m := if (255 <? length msg)%nat then take 255 msg else msg). assert (m = take 255 msg /\ (length m <= 255)%nat) as [<- Hl].
  { unfold m. destruct (Nat.ltb_spec 255 (length msg)) as [H|H]; [rewrite length_take; split; [done|lia]|]. rewrite take_ge by done. done. }
  clearbody m. unfold response_message. cbn [app length nth drop Nat.leb].
  rewrite <-len_byte by (unfold len; lia). rewrite (proj2 (Nat.leb_le _ _)) by done. by rewrite take_ge.
Qed.

(** What a client reports of a failed dial is the server's message. *)
Lemma error_reported (F : Framing) (recv recv' : Rcv F) e i w :
  ends (Decode F recv) i (Ok (snellErrorResponse e, recv')) w [] ->
  ends (client_fill 2 recv false) i (Err (errServer (take 255 (error_entry e).2))) w [].
Proof.
  intros Hd. cbn [client_fill]. eapply (ends_bind _ _ _ _ _ []); [exact Hd|]. rewrite <-response_message_of.
  unfold snellErrorResponse. destruct (error_entry e) as [typ msg]. cbn [app]. apply ends_fail.
Qed.

Lemma udp_response_roundtrip ip port data :
  length ip = 4%nat \/ length ip = 16%nat -> in_u16 port ->
  parseUDPResponse (buildUDPResponse ip port data) = Ok (default ip (To4 ip), port, data).
Proof.
  intros Hip Hp. unfold buildUDPResponse. assert (length (be_enc 2 port) = 2%nat) as Lp by apply length_be_enc.
  assert (forall n (a : bytes) t, length a = n ->
    take n (drop 1 ([t] ++ a ++ be_enc 2 port ++ data)) = a /\ be_dec (take 2 (drop (1 + n) ([t] ++ a ++ be_enc 2 port ++ data))) = port /\
    drop (1 + n + 2) ([t] ++ a ++ be_enc 2 port ++ data) = data /\ (length ([t] ++ a ++ be_enc 2 port ++ data) <? 1 + n + 2)%nat = false) as Hf.
  { intros n a t <-. cbn [app drop Nat.add]. split_and!; [apply take_app_length|rewrite drop_app_length, take_app_length' by done; by apply port_dec| |].
    - replace (length a + 2)%nat with (length (a ++ be_enc 2 port)) by (rewrite length_app; lia). rewrite app_assoc. apply drop_app_length.
    - apply Nat.ltb_ge. cbn [length]. rewrite !length_app. lia. }
  assert (forall ip4, To4 ip = Some ip4 -> length ip4 = 4%nat) as H4.
  { intros ip4. unfold To4. destruct (length ip =? 4)%nat eqn:E; [apply Nat.eqb_eq in E; by intros [= <-]|].
    destruct (length ip =? 16)%nat eqn:E16; [|done]. cbn. case_bool_decide; [|done]. intros [= <-]. rewrite length_drop. apply Nat.eqb_eq in E16. lia. }
  unfold parseUDPResponse. destruct (To4 ip) as [ip4|] eqn:E; cbn [default].
  - destruct (Hf 4%nat ip4 x04 (H4 _ eq_refl)) as (-> & -> & -> & ->). reflexivity.
  - assert (length ip = 16%nat) as H16. { destruct Hip as [H|H]; [|done]. unfold To4 in E. by rewrite H in E. }
    destruct (Hf 16%nat ip x06 H16) as (-> & -> & -> & ->). reflexivity.
Qed.

(** ** Concretely *)

Module Examples.
Import ToyCrypto.

Definition d0 : Draws := mkDraws (replicate 16 x07) 3 (replicate 511 x55) 100.
Definition cfg6 : Config := mkConfig (bs "port-secret") 6 ModeDefault true.
Definition dst0 : Socksaddr := FromFqdn (bs "example.com") 443.

Lemma snell_session_witness :
  exists cc out cc' up prefix sc i sc' down,
    ends (ClientHandshake cfg6 [] dst0 d0) [] (Ok cc) [] out /\
    ends (client_writes cc [(draw cfg6 d0, bs "GET /")]) [] (Ok cc') [] up /\
    (forall w, ends (ServerHandshake cfg6 261 d0 (fun _ _ => Some UserBase)) (out ++ up ++ w)
       (Ok (Relayed prefix sc, mkRequest (FromFqdn (bs "example.com") 443) UserBase NetTCP cmdConnect)) (i ++ w) []) /\
    delivers (fun pc n => relay_Read pc.1 pc.2 n) (prefix, sc) i (bs "GET /") /\
    ends (server_writes sc [(draw cfg6 d0, bs "200")]) [] (Ok sc') [] down /\
    delivers clientConn_Read cc' down (bs "200").
Proof.
  apply (snell_session cfg6 [] dst0 d0 d0 (fun _ _ => Some UserBase) [(draw cfg6 d0, bs "GET /")] [(draw cfg6 d0, bs "200")] 261).
  - left. reflexivity.
  - split; vm_compute; [reflexivity|split; discriminate || reflexivity|repeat constructor].
  - split; vm_compute; [reflexivity|split; discriminate || reflexivity|repeat constructor].
  - vm_compute. discriminate.
  - vm_compute. split; discriminate || reflexivity.
  - constructor; [split; [reflexivity|discriminate]|constructor].
  - constructor; [split; [reflexivity|discriminate]|constructor].
  - exact toy_rejects.
  - constructor.
Defined.

(** A datagram above the chunk size is split: its receiver takes the first part for the whole
    datagram and the rest for another frame. *)
Definition two_reads (data : bytes) : option (bytes * nat * res snellErr unit) :=
  let send := NewSender (bs "port-secret") false ModeDefault in
  let recv := NewReceiver (bs "port-secret") ModeDefault in
  match run (CPC_WriteTo (F := v6) (mkCPC (F := v6) send recv) (dr_salt d0, 100) (bs "9.9.9.9:53") data) (mkStream [] [] []) with
  | (Err _, _) => None
  | (Ok _, st) =>
      match run (SPC_ReadFrom (F := v6) 3 (mkSPC (F := v6) send recv [])) (mkStream (s_out st) [] []) with
      | (Err _, _) => None
      | (Ok (target, got, pc), st) =>
          Some (target, length got, match (run (SPC_ReadFrom (F := v6) 3 pc) st).1 with Ok _ => Ok tt | Err e => Err e end)
      end
  end.

Lemma small_datagram_whole : two_reads (replicate 300 x41) = Some (bs "9.9.9.9:53", 300%nat, Err (errRead EOF)).
Proof. vm_compute. reflexivity. Qed.
Lemma large_datagram_split : two_reads (replicate 1400 x41) = Some (bs "9.9.9.9:53", 419%nat, Err errUDPBadCommand).
Proof. vm_compute. reflexivity. Qed.

(** A version 3 server is given the version 6 framing by its own client for datagrams. *)
Lemma udp_framing_differs : isV123 (mkConfig [] 3 ModeDefault false) = true /\ DialPacketConn_framing (mkConfig [] 3 ModeDefault false) = v6.
Proof. done. Qed.
End Examples.
