(* ===== verification/Group.v ===== *)
(** * Outbound groups ([outbound/group/group.go])

    A group stands for one of its members, chosen by its strategy. Probing goes over the
    network: what it measures is an argument. Parsing the test URL is left to [net/url]; its
    result is the argument of [New]. *)
From stdpp Require Import relations.
From S2P Require Import Prelude GoStd Netip Socksaddr AddrText.
From Stdlib Require Import Init.Byte.

Inductive Strategy := Select | URLTest | Fallback | LoadBalance.
#[export] Instance Strategy_eq_dec : EqDecision Strategy.
Proof. solve_decision. Defined.

Record memState := mkState { delay : Z; alive : bool }.

Section group.
Context {Out : Type}.

Record Member := mkMember { m_Name : bytes; m_Out : Out }.

(** Durations in nanoseconds; [Tolerance] in milliseconds. *)
Record Options := mkOptions {
  o_Members : list Member;
  o_Strategy : Strategy;
  o_Default : bytes;
  o_Interval : Z;
  o_Tolerance : Z;
  o_LBHash : bool;
}.

(** [picked] is a pointer to a member; [None] is nil. *)
Record Group := mkGroup {
  g_opts : Options;
  g_picked : option Member;
  g_rr : Z;
  g_state : gmap bytes memState;
  g_testAddr : Socksaddr;
}.

Inductive groupErr := errNoMembers | errTestURL.

(** [u.Hostname()], [u.Port()] and whether the scheme is https. *)
Record URL := mkURL { u_Hostname : bytes; u_Port : bytes; u_https : bool }.

(** [strconvAtoiPort] of the digits a parsed URL has as its port; a number too large for an
    [int] is an error, and 80 as any above 65535. *)
Fixpoint port_digits (s : bytes) (acc : Z) : Z :=
  match s with
  | [] => acc
  | b :: s' => if (48 <=? b2z b) && (b2z b <=? 57) then port_digits s' (acc * 10 + (b2z b - 48)) else acc
  end.
Definition strconvAtoiPort (s : bytes) : Z :=
  match s with
  | b :: _ => if (48 <=? b2z b) && (b2z b <=? 57) then let n := port_digits s 0 in if 65535 <? n then 80 else n else 80
  | [] => 80
  end.

Definition all_alive (ms : list Member) : gmap bytes memState :=
  foldl (fun st m => <[m_Name m := mkState 0 true]> st) ∅ ms.

(** The member named by the configuration, else the first. *)
Fixpoint member_named (ms : list Member) (name : bytes) : option Member :=
  match ms with
  | [] => None
  | m :: ms => if bool_decide (m_Name m = name) then Some m else member_named ms name
  end.

Definition New (opts : Options) (parsed : option URL) : res groupErr Group :=
  match o_Members opts with
  | [] => Err errNoMembers
  | m0 :: _ =>
      match parsed with
      | None => Err errTestURL
      | Some u =>
          let interval := if o_Interval opts <=? 0 then 300000000000 else o_Interval opts in
          let opts := mkOptions (o_Members opts) (o_Strategy opts) (o_Default opts) interval (o_Tolerance opts) (o_LBHash opts) in
          let port := if bool_decide (u_Port u = []) then (if u_https u then bs "443" else bs "80") else u_Port u in
          let pn := strconvAtoiPort port in
          let testAddr := match ParseAddr (u_Hostname u) with
                          | Some ip => FromIPPort {| ap_addr := ip; ap_port := pn |}
                          | None => FromFqdn (u_Hostname u) pn
                          end in
          Ok (mkGroup opts (Some (default m0 (member_named (o_Members opts) (o_Default opts)))) 0 (all_alive (o_Members opts)) testAddr)
      end
  end.

Definition set_picked (g : Group) (m : option Member) : Group := mkGroup (g_opts g) m (g_rr g) (g_state g) (g_testAddr g).
Definition set_rr (g : Group) (n : Z) : Group := mkGroup (g_opts g) (g_picked g) n (g_state g) (g_testAddr g).
Definition set_state (g : Group) (st : gmap bytes memState) : Group := mkGroup (g_opts g) (g_picked g) (g_rr g) st (g_testAddr g).

Definition SelectOutbound (g : Group) (name : bytes) : bool * Group :=
  match member_named (o_Members (g_opts g)) name with
  | Some m => (true, set_picked g (Some m))
  | None => (false, g)
  end.

Definition aliveOf (g : Group) (name : bytes) : bool :=
  match g_state g !! name with None => true | Some s => alive s end.

(** *** Load balancing *)

Definition fnv32a (b : bytes) : Z := foldl (fun h c => w32 (Z.lxor h (b2z c) * 16777619)) 2166136261 b.

Definition n_members (g : Group) : Z := len (o_Members (g_opts g)).
Definition member_at (g : Group) (i : Z) : option Member := o_Members (g_opts g) !! Z.to_nat i.
Definition alive_at (g : Group) (i : Z) : bool := match member_at g i with Some m => aliveOf g (m_Name m) | None => false end.

(** From [start] on, [k] members. *)
Fixpoint hash_scan (g : Group) (start : Z) (i k : nat) : option Z :=
  match k with
  | O => None
  | S k' =>
      let idx := (start + Z.of_nat i) mod n_members g in
      if alive_at g idx then Some idx else hash_scan g start (S i) k'
  end.

Definition pick_hash (g : Group) (dst : Socksaddr) : option Member :=
  let start := fnv32a (Socksaddr_String dst) mod n_members g in
  member_at g (default start (hash_scan g start 0 (length (o_Members (g_opts g))))).

(** Every try moves the cursor, a 64-bit counter read as an [int]: above the range of [int]
    the index is negative. [None]: out of range. *)
Definition as_int (u : Z) : Z := if u <? 2 ^ 63 then u else u - 2 ^ 64.
Definition rr_index (g : Group) : Z := Z.rem (as_int (g_rr g)) (n_members g).

Fixpoint rr_scan (g : Group) (k : nat) : Z * Group :=
  match k with
  | O => (rr_index g, g)
  | S k' =>
      let g := set_rr g (w64 (g_rr g + 1)) in
      if alive_at g (rr_index g) then (rr_index g, g) else rr_scan g k'
  end.

Definition pickLB (g : Group) (dst : Socksaddr) : option Member * Group :=
  if o_LBHash (g_opts g) then (pick_hash g dst, g)
  else let '(i, g) := rr_scan g (length (o_Members (g_opts g))) in
       (if i <? 0 then None else member_at g i, g).

Definition pick (g : Group) (dst : Socksaddr) : option Member * Group :=
  match o_Strategy (g_opts g) with
  | LoadBalance => pickLB g dst
  | _ => (g_picked g, g)
  end.

Definition NeedsHealth (g : Group) : bool := negb (bool_decide (o_Strategy (g_opts g) = Select)).

(** *** Health *)

(** One probe's goroutine. *)
Definition record_probe (g : Group) (m : Member) (r : option Z) : Group :=
  set_state g (<[m_Name m := match r with Some d => mkState d true | None => mkState 0 false end]> (g_state g)).

(** The fastest member that is alive, the first of equals. *)
Definition best_step (g : Group) (best : option (Member * Z)) (m : Member) : option (Member * Z) :=
  match g_state g !! m_Name m with
  | Some s => if alive s then match best with
                              | None => Some (m, delay s)
                              | Some (_, d) => if delay s <? d then Some (m, delay s) else best
                              end else best
  | None => best
  end.
Definition best (g : Group) : option (Member * Z) := foldl (best_step g) None (o_Members (g_opts g)).

Definition cur_delay (g : Group) : Z :=
  match g_picked g with
  | Some m => match g_state g !! m_Name m with Some s => if alive s then delay s else 2 ^ 62 | None => 2 ^ 62 end
  | None => 2 ^ 62
  end.

(** An [int64], wrapped. *)
Definition int64 (z : Z) : Z := as_int (w64 z).

Fixpoint first_alive (g : Group) (ms : list Member) : option Member :=
  match ms with
  | [] => None
  | m :: ms => match g_state g !! m_Name m with Some s => if alive s then Some m else first_alive g ms | None => first_alive g ms end
  end.

Definition reselect (g : Group) : Group :=
  match o_Strategy (g_opts g) with
  | URLTest =>
      match best g with
      | Some (m, d) =>
          if bool_decide (g_picked g = None) || (int64 (d + int64 (o_Tolerance (g_opts g) * 1000000)) <? cur_delay g)
          then set_picked g (Some m) else g
      | None => g
      end
  | Fallback => match first_alive g (o_Members (g_opts g)) with Some m => set_picked g (Some m) | None => g end
  | Select | LoadBalance => g
  end.

(** A round of probes, their goroutines ending in the order of [rs]. *)
Definition probeAll (g : Group) (rs : list (Member * option Z)) : Group := reselect (foldl (fun g r => record_probe g r.1 r.2) g rs).
End group.
Arguments Member : clear implicits. Arguments Group : clear implicits. Arguments Options : clear implicits.

(** ** What a group promises *)

Section spec.
Context {Out : Type}.
Implicit Types (g : Group Out) (m : Member Out).

Record group_wf g : Prop := {
  gw_members : o_Members (g_opts g) <> [];
  gw_picked : exists m, g_picked g = Some m /\ m ∈ o_Members (g_opts g);
  gw_state : forall m, m ∈ o_Members (g_opts g) -> is_Some (g_state g !! m_Name m);
  gw_rr : in_u64 (g_rr g);
}.

Lemma member_named_in (ms : list (Member Out)) name m : member_named ms name = Some m -> m ∈ ms /\ m_Name m = name.
Proof.
  induction ms as [|x ms IH]; cbn; [done|]. case_bool_decide as E; [intros [= <-]; split; [left|done]|].
  intros H. destruct (IH H). split; [by right|done].
Qed.

Lemma all_alive_lookup (ms : list (Member Out)) m : m ∈ ms -> all_alive ms !! m_Name m = Some (mkState 0 true).
Proof.
  unfold all_alive. intros Hin. cut (forall st : gmap bytes memState,
    (m ∈ ms \/ st !! m_Name m = Some (mkState 0 true)) -> foldl (fun st m => <[m_Name m := mkState 0 true]> st) st ms !! m_Name m = Some (mkState 0 true));
    [intros H; apply H; by left|].
  clear Hin. induction ms as [|x ms IH]; intros st [H|H]; cbn; [by apply not_elem_of_nil in H|done|..].
  - apply IH. apply elem_of_cons in H as [-> |H]; [right; apply lookup_insert_eq|by left].
  - apply IH. right. destruct (decide (m_Name x = m_Name m)) as [-> |E]; [apply lookup_insert_eq|by rewrite lookup_insert_ne].
Qed.

Lemma New_wf opts parsed g : New opts parsed = Ok g -> group_wf g.
Proof.
  unfold New. destruct (o_Members opts) as [|m0 ms] eqn:E; [done|]. destruct parsed as [u|]; [|done]. intros [= <-].
  split; cbn [g_opts o_Members g_picked g_state g_rr]; rewrite ?E; [done| | |unfold in_u64; lia].
  - eexists. split; [reflexivity|]. pose proof (member_named_in (m0 :: ms) (o_Default opts)) as Hn. cbn [member_named] in Hn.
    destruct (if bool_decide _ then _ else _) as [m|]; cbn [default]; [by apply Hn|left].
  - intros m Hm. rewrite all_alive_lookup by done. by eexists.
Qed.

(** *** The cursor and the hash *)

Lemma n_members_pos g : group_wf g -> 0 < n_members g.
Proof. intros []. unfold n_members, len. destruct (o_Members (g_opts g)); [done|cbn; lia]. Qed.

Lemma member_at_some g i : 0 <= i < n_members g -> exists m, member_at g i = Some m /\ m ∈ o_Members (g_opts g).
Proof.
  intros Hi. unfold n_members, len, member_at in *. destruct (lookup_lt_is_Some_2 (o_Members (g_opts g)) (Z.to_nat i)) as [m Hm]; [lia|].
  exists m. split; [done|]. by eapply list_elem_of_lookup_2.
Qed.

Lemma member_index g m : m ∈ o_Members (g_opts g) -> exists i, 0 <= i < n_members g /\ member_at g i = Some m.
Proof.
  intros [i Hi]%list_elem_of_lookup. exists (Z.of_nat i). unfold member_at, n_members, len. rewrite Nat2Z.id.
  apply lookup_lt_Some in Hi as Hl. split; [lia|done].
Qed.

(** A member that is alive, if any is. *)
Definition alive_if_any g (i : Z) : Prop := (exists j, 0 <= j < n_members g /\ alive_at g j = true) -> alive_at g i = true.

Lemma hash_scan_spec g start k : forall i, 0 < n_members g ->
  match hash_scan g start i k with
  | Some idx => 0 <= idx < n_members g /\ alive_at g idx = true
  | None => forall j, (i <= j < i + k)%nat -> alive_at g ((start + Z.of_nat j) mod n_members g) = false
  end.
Proof.
  induction k as [|k IH]; intros i Hn; cbn [hash_scan]; [intros; lia|].
  destruct (alive_at g ((start + Z.of_nat i) mod n_members g)) eqn:E; [split; [apply Z.mod_pos_bound; lia|done]|].
  specialize (IH (S i) Hn). destruct (hash_scan g start (S i) k); [done|]. intros j Hj.
  destruct (decide (j = i)) as [-> |]; [done|]. apply IH. lia.
Qed.

Lemma pick_hash_available g dst : group_wf g ->
  exists i m, pick_hash g dst = Some m /\ member_at g i = Some m /\ m ∈ o_Members (g_opts g) /\ alive_if_any g i.
Proof.
  intros Hw. pose proof (n_members_pos g Hw) as Hn. unfold pick_hash. cbv zeta.
  set (start := fnv32a (Socksaddr_String dst) mod n_members g).
  assert (0 <= start < n_members g) as Hs by (apply Z.mod_pos_bound; lia).
  pose proof (hash_scan_spec g start (length (o_Members (g_opts g))) 0 Hn) as Hsc.
  destruct (hash_scan g start 0 _) as [idx|]; cbn [default].
  - destruct Hsc as [Hr Ha]. destruct (member_at_some g idx Hr) as (m & Em & Hin). exists idx, m. split_and!; [done..|]. by intros _.
  - destruct (member_at_some g start Hs) as (m & Em & Hin). exists start, m. split_and!; [done..|]. intros (j & Hj & Ha). exfalso.
    destruct (turn_covers (n_members g) start j Hn Hj) as (k & Hk & Ek). specialize (Hsc (Z.to_nat k)).
    rewrite Z2Nat.id, Ek in Hsc by lia. rewrite Hsc in Ha; [done|]. unfold n_members, len in Hk. lia.
Qed.

Lemma rr_index_small g : 0 < n_members g -> 0 <= g_rr g < 2 ^ 63 -> rr_index g = g_rr g mod n_members g.
Proof. intros Hn Hr. unfold rr_index, as_int. rewrite (proj2 (Z.ltb_lt _ _)) by lia. apply Z.rem_mod_nonneg; lia. Qed.

Lemma rr_scan_spec k : forall g, 0 < n_members g -> 0 <= g_rr g -> g_rr g + Z.of_nat k < 2 ^ 63 ->
  exists t, (t <= k)%nat /\ (rr_scan g k).2 = set_rr g (g_rr g + Z.of_nat t) /\
    (rr_scan g k).1 = (g_rr g + Z.of_nat t) mod n_members g /\
    (forall j, (0 < j < t)%nat -> alive_at g ((g_rr g + Z.of_nat j) mod n_members g) = false) /\
    ((0 < t)%nat /\ alive_at g ((rr_scan g k).1) = true \/ t = k /\ (forall j, (0 < j <= k)%nat -> alive_at g ((g_rr g + Z.of_nat j) mod n_members g) = false)).
Proof.
  induction k as [|k IH]; intros g Hn H0 Hk; cbn [rr_scan].
  { exists 0%nat. cbn [fst snd]. rewrite Z.add_0_r, rr_index_small by lia. destruct g. split_and!; [lia|done|done|intros; lia|right; split; [done|intros; lia]]. }
  cbv zeta. assert (w64 (g_rr g + 1) = g_rr g + 1) as -> by (apply Z.mod_small; lia). set (g1 := set_rr g (g_rr g + 1)).
  assert (rr_index g1 = (g_rr g + 1) mod n_members g) as Ei by (apply (rr_index_small g1); [done|cbn; lia]). rewrite Ei.
  change (alive_at g1 ((g_rr g + 1) mod n_members g)) with (alive_at g ((g_rr g + 1) mod n_members g)).
  destruct (alive_at g ((g_rr g + 1) mod n_members g)) eqn:Ea.
  { exists 1%nat. cbn [fst snd]. split_and!; [lia|done|done|intros; lia|left; split; [lia|done]]. }
  destruct (IH g1 Hn) as (t & Ht & E2 & E1 & E3 & E4); [cbn; lia..|]. cbn [g_rr set_rr] in *.
  change (n_members g1) with (n_members g) in *.
  assert (forall x, g_rr g + 1 + Z.of_nat x = g_rr g + Z.of_nat (S x)) as Hx by lia.
  exists (S t). rewrite E1, E2, Hx. unfold g1. split_and!; [lia|done|done| |].
  - intros j Hj. destruct j as [|[|j]]; [lia|done|]. specialize (E3 (S j) ltac:(lia)). rewrite Hx in E3. exact E3.
  - destruct E4 as [[E4 E5]|[-> E4]]; [left; split; [lia|]|right; split; [done|]].
    + rewrite E1, Hx in E5. exact E5.
    + intros j Hj. destruct j as [|[|j]]; [lia|done|]. specialize (E4 (S j) ltac:(lia)). rewrite Hx in E4. exact E4.
Qed.

(** Whatever the strategy, a pick gives a member of the group, and a load-balancing one a
    member that is alive when any is. *)
Theorem pick_available g dst :
  group_wf g -> g_rr g + n_members g < 2 ^ 63 ->
  exists m g', pick g dst = (Some m, g') /\ m ∈ o_Members (g_opts g) /\ group_wf g' /\
    (o_Strategy (g_opts g) = LoadBalance -> (exists m', m' ∈ o_Members (g_opts g) /\ aliveOf g (m_Name m') = true) -> aliveOf g (m_Name m) = true).
Proof.
  intros Hw Hrr. pose proof (n_members_pos g Hw) as Hn. pose proof Hw as [Hm (m0 & Ep & Hin0) Hst Hr].
  assert (forall i m, member_at g i = Some m -> alive_if_any g i -> (exists m', m' ∈ o_Members (g_opts g) /\ aliveOf g (m_Name m') = true) -> aliveOf g (m_Name m) = true) as Hany.
  { intros i m Em Ha (m' & Hin' & Ha'). destruct (member_index g m' Hin') as (j & Hj & Ej). unfold alive_if_any in Ha.
    assert (alive_at g i = true) as Hi by (apply Ha; exists j; split; [done|]; unfold alive_at; by rewrite Ej). unfold alive_at in Hi. by rewrite Em in Hi. }
  unfold pick. destruct (o_Strategy (g_opts g)) eqn:Es; try (exists m0, g; rewrite Ep; by split_and!).
  unfold pickLB. destruct (o_LBHash (g_opts g)).
  - destruct (pick_hash_available g dst Hw) as (i & m & -> & Ei & Hin & Ha). exists m, g. split_and!; [done..|]. intros _. by eapply Hany.
  - destruct (rr_scan_spec (length (o_Members (g_opts g))) g Hn) as (t & Ht & E2 & E1 & _ & E4); [destruct Hr; lia|unfold n_members, len in Hrr; lia|].
    destruct (rr_scan g _) as [i g']. cbn [fst snd] in *. subst i g'. set (i := (g_rr g + Z.of_nat t) mod n_members g) in *.
    assert (0 <= i < n_members g) as Hi by (apply Z.mod_pos_bound; lia). destruct (member_at_some g i Hi) as (m & Em & Hin).
    rewrite (proj2 (Z.ltb_ge i 0)) by lia. eexists m, _. split; [f_equal; exact Em|]. split_and!; [done| |].
    + split; cbn; [done|by exists m0|done|]. unfold in_u64 in *. unfold n_members, len in Hrr. lia.
    + intros _. apply (Hany i m Em). intros (j & Hj & Haj). destruct E4 as [[_ E4]|[-> E4]]; [done|]. exfalso.
      destruct (turn_covers (n_members g) (g_rr g + 1) j Hn Hj) as (k & Hk & Ek). specialize (E4 (Z.to_nat k + 1)%nat).
      replace (g_rr g + Z.of_nat (Z.to_nat k + 1)) with (g_rr g + 1 + k) in E4 by lia. rewrite Ek in E4.
      rewrite E4 in Haj; [done|]. unfold n_members, len in Hk. lia.
Qed.

(** Round robin: with everybody alive the picks go around. *)
Lemma rr_in_turn g : o_Members (g_opts g) <> [] -> (forall i, 0 <= i < n_members g -> alive_at g i = true) -> 0 <= g_rr g -> g_rr g + n_members g < 2 ^ 63 ->
  rr_scan g (length (o_Members (g_opts g))) = ((g_rr g + 1) mod n_members g, set_rr g (g_rr g + 1)).
Proof.
  intros Hm Ha H0 Hr. unfold n_members, len in Hr. destruct (o_Members (g_opts g)) as [|x l] eqn:E; [done|]. cbn [length rr_scan].
  assert (0 < n_members g) as Hn by (unfold n_members; rewrite E; unfold len; cbn; lia). cbn [length] in Hr.
  assert (w64 (g_rr g + 1) = g_rr g + 1) as -> by (apply Z.mod_small; lia).
  assert (rr_index (set_rr g (g_rr g + 1)) = (g_rr g + 1) mod n_members g) as ->.
  { apply (rr_index_small (set_rr g (g_rr g + 1))); [done|cbn; lia]. }
  change (alive_at (set_rr g (g_rr g + 1)) ?i) with (alive_at g i). rewrite Ha by (apply Z.mod_pos_bound; lia). done.
Qed.

(** Consistent hashing: when members die, only the destinations they served move. *)
Lemma hash_scan_stable g g' start k : forall i idx, n_members g' = n_members g ->
  (forall j, alive_at g' j = true -> alive_at g j = true) -> hash_scan g start i k = Some idx -> alive_at g' idx = true ->
  hash_scan g' start i k = Some idx.
Proof.
  induction k as [|k IH]; intros i idx Hn Hsub Hs Ha; cbn [hash_scan] in *; [done|]. rewrite Hn.
  destruct (alive_at g ((start + Z.of_nat i) mod n_members g)) eqn:E.
  - injection Hs as <-. by rewrite Ha.
  - destruct (alive_at g' ((start + Z.of_nat i) mod n_members g)) eqn:E'; [apply Hsub in E'; congruence|]. by apply IH.
Qed.

Theorem hash_moves_only_the_dead g st dst m :
  group_wf g -> (forall name, aliveOf (set_state g st) name = true -> aliveOf g name = true) ->
  pick_hash g dst = Some m -> aliveOf g (m_Name m) = true -> aliveOf (set_state g st) (m_Name m) = true ->
  pick_hash (set_state g st) dst = Some m.
Proof.
  intros Hw Hsub. pose proof (n_members_pos g Hw) as Hn. unfold pick_hash. cbv zeta. change (n_members (set_state g st)) with (n_members g).
  set (start := _ mod _). change (o_Members (g_opts (set_state g st))) with (o_Members (g_opts g)).
  change (member_at (set_state g st)) with (member_at g).
  assert (forall j, alive_at (set_state g st) j = true -> alive_at g j = true) as Hsub'.
  { intros j. unfold alive_at. change (member_at (set_state g st) j) with (member_at g j). destruct (member_at g j); [apply Hsub|done]. }
  pose proof (hash_scan_spec g start (length (o_Members (g_opts g))) 0 Hn) as Hsc.
  destruct (hash_scan g start 0 _) as [idx|] eqn:Es; cbn [default]; intros Em Ha Ha'.
  - change (id idx) with idx in Em. rewrite (hash_scan_stable g (set_state g st) start _ 0 idx); [exact Em|done|exact Hsub'|exact Es|]. unfold alive_at. change (member_at (set_state g st) idx) with (member_at g idx).
    by rewrite Em.
  - exfalso. specialize (Hsc 0%nat). rewrite Z.add_0_r in Hsc. assert (start mod n_members g = start) as E by (apply Z.mod_small, Z.mod_pos_bound; lia).
    rewrite E in Hsc. unfold alive_at in Hsc. rewrite Em, Ha in Hsc. assert (0 < length (o_Members (g_opts g)))%nat by (unfold n_members, len in Hn; lia).
    discriminate Hsc. lia.
Qed.

(** *** Choosing by delay *)

(** The fastest of those seen so far. *)
Definition fastest g (ms : list (Member Out)) (b : option (Member Out * Z)) : Prop :=
  match b with
  | None => forall m s, m ∈ ms -> g_state g !! m_Name m = Some s -> alive s = false
  | Some (m, d) => m ∈ ms /\ g_state g !! m_Name m = Some (mkState d true) /\
                   forall m' s, m' ∈ ms -> g_state g !! m_Name m' = Some s -> alive s = true -> d <= delay s
  end.

Lemma best_fastest g : fastest g (o_Members (g_opts g)) (best g).
Proof.
  unfold best. rewrite <-(app_nil_l (o_Members (g_opts g))) at 1. generalize (o_Members (g_opts g)) as ms.
  assert (fastest g [] None) as H0 by (intros m s Hm; by apply not_elem_of_nil in Hm). revert H0. generalize (@nil (Member Out)), (@None (Member Out * Z)).
  intros seen b Hb ms. revert seen b Hb. induction ms as [|x ms IH]; intros seen b Hb; cbn [foldl]; [by rewrite app_nil_r|].
  replace (seen ++ x :: ms) with ((seen ++ [x]) ++ ms) by (by rewrite <-app_assoc). apply IH. unfold best_step.
  destruct (g_state g !! m_Name x) as [sx|] eqn:Ex.
  - destruct sx as [dx [|]]; cbn [alive delay].
    + destruct b as [[mb d]|]; cbn [fastest] in *.
      * destruct Hb as (H1 & H2 & H3). destruct (Z.ltb_spec dx d) as [Hlt|Hge]; (split_and!; [set_solver|done|]);
          intros m' s [Hm'|Hm']%elem_of_app Hs Ha; try (apply list_elem_of_singleton in Hm' as ->; rewrite Ex in Hs; injection Hs as <-; cbn; lia).
        -- specialize (H3 m' s Hm' Hs Ha). lia.
        -- specialize (H3 m' s Hm' Hs Ha). lia.
      * split_and!; [set_solver|done|]. intros m' s [Hm'|Hm']%elem_of_app Hs Ha; [by rewrite (Hb m' s Hm' Hs) in Ha|].
        apply list_elem_of_singleton in Hm' as ->. rewrite Ex in Hs. injection Hs as <-. cbn. lia.
    + destruct b as [[mb d]|]; cbn [fastest] in *.
      * destruct Hb as (H1 & H2 & H3). split_and!; [set_solver|done|]. intros m' s [Hm'|Hm']%elem_of_app Hs Ha; [by apply (H3 m' s)|].
        apply list_elem_of_singleton in Hm' as ->. rewrite Ex in Hs. by injection Hs as <-.
      * intros m' s [Hm'|Hm']%elem_of_app Hs; [by apply (Hb m')|]. apply list_elem_of_singleton in Hm' as ->. rewrite Ex in Hs. by injection Hs as <-.
  - destruct b as [[mb d]|]; cbn [fastest] in *.
    + destruct Hb as (H1 & H2 & H3). split_and!; [set_solver|done|]. intros m' s [Hm'|Hm']%elem_of_app Hs Ha; [by apply (H3 m' s)|].
      apply list_elem_of_singleton in Hm' as ->. congruence.
    + intros m' s [Hm'|Hm']%elem_of_app Hs; [by apply (Hb m')|]. apply list_elem_of_singleton in Hm' as ->. congruence.
Qed.

Definition delays_ok g : Prop :=
  (forall name s, g_state g !! name = Some s -> 0 <= delay s < 2 ^ 61) /\ 0 <= o_Tolerance (g_opts g) * 1000000 < 2 ^ 61.

Lemma int64_small z : 0 <= z < 2 ^ 63 -> int64 z = z.
Proof. intros Hz. unfold int64, as_int, w64. rewrite Z.mod_small by lia. rewrite (proj2 (Z.ltb_lt _ _)) by lia. done. Qed.

(** A group by delay: after a round of probes the member picked is alive if any is, and no
    other is faster by more than the tolerance; a live one keeps its place unless it is
    slower by more than that. *)
Theorem reselect_urltest g :
  group_wf g -> delays_ok g -> o_Strategy (g_opts g) = URLTest ->
  (exists m s, m ∈ o_Members (g_opts g) /\ g_state g !! m_Name m = Some s /\ alive s = true) ->
  exists m d, g_picked (reselect g) = Some m /\ g_state g !! m_Name m = Some (mkState d true) /\
    (forall m' s, m' ∈ o_Members (g_opts g) -> g_state g !! m_Name m' = Some s -> alive s = true ->
       d <= delay s + o_Tolerance (g_opts g) * 1000000) /\
    (forall m0 d0, g_picked g = Some m0 -> g_state g !! m_Name m0 = Some (mkState d0 true) ->
       m = m0 \/ d + o_Tolerance (g_opts g) * 1000000 < d0).
Proof.
  intros [_ (m0 & Ep & Hin0) _ _] (Hd & Ht) Hs (ma & sa & Hina & Ea & Haa). unfold reselect. rewrite Hs.
  pose proof (best_fastest g) as Hb. destruct (best g) as [[m d]|]; cbn [fastest] in Hb; [|by rewrite (Hb ma sa Hina Ea) in Haa].
  destruct Hb as (Hin & Em & Hmin). pose proof (Hd _ _ Em) as Hdr. cbn in Hdr. rewrite Ep. cbn [bool_decide].
  rewrite bool_decide_false by done. cbn [orb].
  rewrite (int64_small (o_Tolerance (g_opts g) * 1000000)), int64_small by lia. unfold cur_delay. rewrite Ep.
  destruct (g_state g !! m_Name m0) as [[d0 [|]]|] eqn:E0; cbn [alive delay].
  - pose proof (Hd _ _ E0) as Hd0. cbn in Hd0. destruct (Z.ltb_spec (d + o_Tolerance (g_opts g) * 1000000) d0) as [Hlt|Hge].
    + exists m, d. split_and!; [done|done| |].
      * intros m' s Hm' Hs' Ha'. specialize (Hmin m' s Hm' Hs' Ha'). lia.
      * intros m1 d1 [= <-] E1. rewrite E0 in E1. injection E1 as <-. right. lia.
    + exists m0, d0. split_and!; [done|done| |].
      * intros m' s Hm' Hs' Ha'. specialize (Hmin m' s Hm' Hs' Ha'). lia.
      * intros m1 d1 [= <-] _. by left.
  - rewrite (proj2 (Z.ltb_lt _ _)) by lia. exists m, d. split_and!; [done|done| |].
    + intros m' s Hm' Hs' Ha'. specialize (Hmin m' s Hm' Hs' Ha'). lia.
    + intros m1 d1 [= <-] E1. congruence.
  - rewrite (proj2 (Z.ltb_lt _ _)) by lia. exists m, d. split_and!; [done|done| |].
    + intros m' s Hm' Hs' Ha'. specialize (Hmin m' s Hm' Hs' Ha'). lia.
    + intros m1 d1 [= <-] E1. congruence.
Qed.

(** A fallback group takes the first member alive, in the order of the configuration. *)
Lemma first_alive_spec g pre m post d :
  (forall m', m' ∈ pre -> aliveOf g (m_Name m') = false) -> g_state g !! m_Name m = Some (mkState d true) ->
  first_alive g (pre ++ m :: post) = Some m.
Proof.
  intros Hpre Hm. induction pre as [|x pre IH]; cbn; [by rewrite Hm|].
  assert (aliveOf g (m_Name x) = false) as Hx by (apply Hpre; left). unfold aliveOf in Hx.
  destruct (g_state g !! m_Name x) as [s|]; [|done]. rewrite Hx. apply IH. intros m' Hm'. apply Hpre. by right.
Qed.

(** *** In every order of operations *)

Inductive gstep : Group Out -> Group Out -> Prop :=
| st_select g name : gstep g (SelectOutbound g name).2
| st_probe g m r : gstep g (record_probe g m r)
| st_reselect g : gstep g (reselect g)
| st_pick g dst : gstep g (pick g dst).2.

Lemma first_alive_in g ms m : first_alive g ms = Some m -> m ∈ ms.
Proof.
  induction ms as [|x ms IH]; cbn; [done|]. destruct (g_state g !! m_Name x) as [s|]; [destruct (alive s)|]; [intros [= <-]; left|..];
    intros H; right; by apply IH.
Qed.

Lemma gstep_wf g g' : gstep g g' -> group_wf g -> g_rr g + n_members g < 2 ^ 63 -> group_wf g' /\ g_opts g' = g_opts g.
Proof.
  intros Hs Hw Hr. pose proof Hw as [Hm Hp Hst Hrr]. destruct Hs as [g name|g m r|g|g dst].
  - unfold SelectOutbound. destruct (member_named _ name) as [m|] eqn:E; [|done]. apply member_named_in in E as [Hin _].
    split; [|done]. split; [done|by exists m|done|done].
  - split; [|done]. split; [done|done| |done]. intros m' Hm'. cbn. apply lookup_insert_is_Some'. right. by apply Hst.
  - unfold reselect. destruct (o_Strategy (g_opts g)); [done| | |done].
    + pose proof (best_fastest g) as Hb. destruct (best g) as [[m d]|]; [|done]. destruct Hb as (Hin & _).
      case_match; [|done]. split; [|done]. split; [done|by exists m|done|done].
    + destruct (first_alive g _) as [m|] eqn:E; [|done]. apply first_alive_in in E. split; [|done]. split; [done|by exists m|done|done].
  - destruct (pick_available g dst Hw Hr) as (m & g' & E & _ & Hw' & _). pose proof E as E'. rewrite E. split; [done|].
    unfold pick, pickLB in E'. destruct (o_Strategy (g_opts g)); try (by injection E' as _ <-).
    destruct (o_LBHash (g_opts g)); [by injection E' as _ <-|].
    destruct (rr_scan_spec (length (o_Members (g_opts g))) g (n_members_pos g Hw)) as (t & _ & E2 & _); [destruct Hrr; lia|unfold n_members, len in Hr; lia|].
    destruct (rr_scan g _) as [i g2]. cbn in E2. injection E' as _ <-. by rewrite E2.
Qed.
End spec.

(** Round robin shares its cursor: between two tries of one pick other picks may move it,
    and then the tries need not go around. *)
Definition rr_try {Out} (g : Group Out) : option Z * Group Out :=
  let g := set_rr g (w64 (g_rr g + 1)) in
  (if alive_at g (rr_index g) then Some (rr_index g) else None, g).

Lemma rr_concurrent_pick_dead :
  exists (g : Group unit), o_Members (g_opts g) = [mkMember (bs "a") tt; mkMember (bs "b") tt] /\
    aliveOf g (bs "a") = true /\ aliveOf g (bs "b") = false /\
    (* the first try of this pick, the only try of another, the second try of this one *)
    let '(t1, g) := rr_try g in let '(other, g) := rr_try g in let '(t2, g) := rr_try g in
    t1 = None /\ other = Some 0 /\ t2 = None /\ member_at g (rr_index g) = Some (mkMember (bs "b") tt).
Proof.
  exists (mkGroup (mkOptions [mkMember (bs "a") tt; mkMember (bs "b") tt] LoadBalance [] 1 0 false) None 0
    {[bs "a" := mkState 5 true; bs "b" := mkState 0 false]} (FromFqdn [] 0)).
  vm_compute. done.
Qed.
