(* ===== verification/Reverse.v ===== *)
(** * Reverse tunnels ([reverse/pool.go], [reverse/portal.go], [reverse/reverse.go])

    Bridges behind a firewall connect to the portal and register; the portal opens its users'
    connections as sub-streams of a registered tunnel. A tunnel is a [MuxClient] worker, here
    an identifier whose state the environment knows. *)
From S2P Require Import Prelude GoStd Netip Socksaddr MuxFrame Proxy.
From Stdlib Require Import Init.Byte.

(** ** The pool *)

Definition worker : Type := nat.

(** What [Done] and [IsActive] of a worker say. *)
Record status := mkStatus { isDone : bool; IsActive : bool }.

Record pool := mkPool { workers : list worker; rr : Z }.

Definition pool_add (p : pool) (w : worker) : pool := mkPool (workers p ++ [w]) (rr p).

Fixpoint remove_first (w : worker) (l : list worker) : list worker :=
  match l with
  | [] => []
  | x :: l => if (x =? w)%nat then l else x :: remove_first w l
  end.
Definition pool_remove (p : pool) (w : worker) : pool := mkPool (remove_first w (workers p)) (rr p).

Section pick.
Context (st : worker -> status).

(** At most one turn from the cursor. *)
Fixpoint pick_loop (ws : list worker) (cur : Z) (k : nat) : option worker * Z :=
  match k with
  | O => (None, cur)
  | S k' =>
      let cur := (cur + 1) mod len ws in
      match ws !! Z.to_nat cur with
      | Some w => if IsActive (st w) then (Some w, cur) else pick_loop ws cur k'
      | None => (None, cur)
      end
  end.

Definition pool_pick (p : pool) : option worker * pool :=
  let live := filter (fun w => isDone (st w) = false) (workers p) in
  match live with
  | [] => (None, mkPool [] (rr p))
  | _ => let '(w, cur) := pick_loop live (rr p) (length live) in (w, mkPool live cur)
  end.
End pick.

Definition pool_size (p : pool) : nat := length (workers p).

(** ** Dispatching an accepted stream *)

Definition DefaultControlDomain : bytes := bs "reverse.ntr".

Definition toMuxAddr (a : Socksaddr) : Address :=
  if IsFqdn a then mkAddress true (Fqdn a) []
  else mkAddress false [] (match sa_addr a with AddrZero => [] | Addr4 v => be_enc 4 v | Addr6 v _ => be_enc 16 v end).
Definition toMuxNetwork (n : Network) : byte := match n with NetUDP => NetworkUDP | NetTCP => NetworkTCP end.

(** What a dispatch does, in order. *)
Inductive event :=
| Added (w : worker)
| Removed (w : worker)
| Ran (w : worker)                            (* [Run], until the tunnel breaks *)
| ClosedStream
| ClosedUser                                  (* the user's packet connection, and the stream with it *)
| Opened (w : worker) (network : byte) (a : Address) (port : Z)
| RelayedStream (w : worker)                  (* [relay.Relay], which closes both ends *)
| RelayedPackets (w : worker).                (* [relayUDP], likewise *)

Inductive reverseErr := ErrNoBridge | ErrReverseUDP | errStart | errUser | errOpen.

(** What the calls of a dispatch answer. *)
Record env := mkEnv {
  e_status : worker -> status;
  e_new : worker;                (* the worker [NewClientWorker] makes *)
  e_start : bool;                (* [StartControl] succeeds *)
  e_user : option bool;          (* [None]: no packet connection can be made; else whether it is *)
  e_open : bool;                 (* [OpenStream] succeeds *)
}.

(** The pool as the dispatch leaves it; [Ok] stands for the result of [Run] or the relay. *)
Definition Dispatch (control : bytes) (e : env) (p : pool) (dst : Socksaddr) (network : Network)
  : list event * res reverseErr unit * pool :=
  let control := if bool_decide (control = []) then DefaultControlDomain else control in
  if IsFqdn dst && bool_decide (Fqdn dst = control) then
    let w := e_new e in
    let p := pool_add p w in
    if e_start e then ([Added w; Ran w; Removed w], Ok tt, pool_remove p w)
    else ([Added w; ClosedStream; Removed w], Err errStart, pool_remove p w)
  else match network with
  | NetUDP =>
      match e_user e with
      | None => ([ClosedStream], Err ErrReverseUDP, p)
      | Some false => ([ClosedStream], Err errUser, p)
      | Some true =>
          match pool_pick (e_status e) p with
          | (None, p) => ([ClosedUser], Err ErrNoBridge, p)
          | (Some w, p) => ([RelayedPackets w], Ok tt, p)
          end
      end
  | NetTCP =>
      match pool_pick (e_status e) p with
      | (None, p) => ([ClosedStream], Err ErrNoBridge, p)
      | (Some w, p) =>
          if e_open e then ([Opened w (toMuxNetwork network) (toMuxAddr dst) (sa_port dst); RelayedStream w], Ok tt, p)
          else ([ClosedStream], Err errOpen, p)
      end
  end.

(** ** The pool hands out live tunnels *)

Lemma pick_loop_spec st ws k : forall cur, 0 < len ws ->
  match pick_loop st ws cur k with
  | (Some w, cur') => w ∈ ws /\ IsActive (st w) = true /\ 0 <= cur' < len ws
  | (None, cur') => forall j, (0 < j <= k)%nat -> exists w, ws !! Z.to_nat ((cur + Z.of_nat j) mod len ws) = Some w /\ IsActive (st w) = false
  end.
Proof.
  induction k as [|k IH]; intros cur Hn; cbn [pick_loop]; [intros j Hj; lia|]. cbv zeta.
  assert (0 <= (cur + 1) mod len ws < len ws) as Hr by (apply Z.mod_pos_bound; lia).
  destruct (lookup_lt_is_Some_2 ws (Z.to_nat ((cur + 1) mod len ws))) as [w Hw]; [unfold len in *; lia|]. rewrite Hw.
  destruct (IsActive (st w)) eqn:Ea; [split_and!; [by eapply list_elem_of_lookup_2|done|lia..]|].
  specialize (IH ((cur + 1) mod len ws) Hn). destruct (pick_loop st ws ((cur + 1) mod len ws) k) as [[w'|] cur']; [done|].
  intros j Hj. destruct j as [|[|j]]; [lia|by exists w|]. specialize (IH (S j) ltac:(lia)).
  rewrite Z.add_mod_idemp_l in IH by lia. by replace (cur + Z.of_nat (S (S j))) with (cur + 1 + Z.of_nat (S j)) by lia.
Qed.

(** A pick throws out the broken tunnels and gives one that is active, if there is any. *)
Theorem pool_pick_spec st p :
  workers (pool_pick st p).2 = filter (fun w => isDone (st w) = false) (workers p) /\
  match (pool_pick st p).1 with
  | Some w => w ∈ workers p /\ isDone (st w) = false /\ IsActive (st w) = true
  | None => forall w, w ∈ workers p -> isDone (st w) = true \/ IsActive (st w) = false
  end.
Proof.
  unfold pool_pick. set (live := filter _ (workers p)).
  assert (forall w, w ∈ live <-> isDone (st w) = false /\ w ∈ workers p) as Hl by (intros w; unfold live; by rewrite list_elem_of_filter).
  clearbody live.
  destruct live as [|w0 l] eqn:El.
  { split; [done|]. intros w Hw. destruct (isDone (st w)) eqn:E; [by left|]. exfalso. apply (not_elem_of_nil w). by apply Hl. }
  assert (0 < len (w0 :: l)) as Hn by (unfold len; cbn; lia).
  pose proof (pick_loop_spec st (w0 :: l) (length (w0 :: l)) (rr p) Hn) as Hs.
  set (ws := w0 :: l) in *. clearbody ws. destruct (pick_loop st ws (rr p) (length ws)) as [[w|] cur]; cbn [fst snd workers]; (split; [done|]).
  - destruct Hs as (Hin & Ha & _). apply Hl in Hin as [Hd Hin]. done.
  - intros w Hw. destruct (isDone (st w)) eqn:E; [by left|right]. assert (w ∈ ws) as Hin by (by apply Hl).
    apply list_elem_of_lookup in Hin as [i Hi]. apply lookup_lt_Some in Hi as Hlt.
    destruct (turn_covers (len ws) (rr p + 1) (Z.of_nat i)) as (k & Hk & Ek); [done|unfold len; lia|].
    destruct (Hs (Z.to_nat k + 1)%nat) as (w' & Hw' & Ha); [unfold len in *; lia|].
    replace (rr p + Z.of_nat (Z.to_nat k + 1)) with (rr p + 1 + k) in Hw' by lia. rewrite Ek, Nat2Z.id, Hi in Hw'. by injection Hw' as ->.
Qed.

(** *** Every dispatch ends its stream *)

Definition ends_stream (ev : event) : bool :=
  match ev with ClosedStream | ClosedUser | RelayedStream _ | RelayedPackets _ | Ran _ => true | _ => false end.

Definition used (ev : event) : option worker := match ev with Opened w _ _ _ | RelayedPackets w => Some w | _ => None end.

Lemma remove_added l w : w ∉ l -> remove_first w (l ++ [w]) = l.
Proof.
  induction l as [|x l IH]; cbn; intros Hw; [by rewrite Nat.eqb_refl|]. apply not_elem_of_cons in Hw as [Hne Hw].
  rewrite (proj2 (Nat.eqb_neq x w)) by congruence. by rewrite IH.
Qed.

(** Whatever the calls answer, a dispatch ends the accepted stream exactly once, leaves no
    tunnel of its own in the pool, and carries a user's connection only over a tunnel of the
    pool that is alive and active, to the destination he asked for. *)
Theorem Dispatch_clean control e p dst network :
  e_new e ∉ workers p ->
  let '(evs, r, p') := Dispatch control e p dst network in
  length (filter (fun ev => ends_stream ev = true) evs) = 1%nat /\
  (forall w, w ∈ workers p' -> w ∈ workers p) /\
  (forall ev w, ev ∈ evs -> used ev = Some w -> w ∈ workers p /\ isDone (e_status e w) = false /\ IsActive (e_status e w) = true) /\
  (forall w n a port, Opened w n a port ∈ evs -> network = NetTCP /\ n = NetworkTCP /\ a = toMuxAddr dst /\ port = sa_port dst).
Proof.
  intros Hnew. unfold Dispatch. cbv zeta. destruct (IsFqdn dst && _).
  { destruct (e_start e); (split_and!; [done|intros w Hw; cbn [pool_remove pool_add workers] in Hw; by rewrite remove_added in Hw| |]);
      intros *; rewrite !elem_of_cons, elem_of_nil; [intros [-> |[-> |[-> |[]]]] ?; done|by intros [|[|[|[]]]]|intros [-> |[-> |[-> |[]]]] ?; done|by intros [|[|[|[]]]]]. }
  pose proof (pool_pick_spec (e_status e) p) as [Hw Hp]. destruct (pool_pick (e_status e) p) as [[w|] p1]; cbn [fst snd] in *.
  all: assert (forall w, w ∈ workers p1 -> w ∈ workers p) as Hsub by (intros x Hx; rewrite Hw in Hx; by apply list_elem_of_filter in Hx as [_ Hx]).
  all: destruct network; [try destruct (e_open e)|destruct (e_user e) as [[|]|]].
  all: split_and!; [done|done || (intros x Hx; by apply Hsub)| |]; intros *; rewrite !elem_of_cons, ?elem_of_nil;
    try (intros [-> |[-> |[]]] [= <-]; done); try (intros [-> |[]] [= <-]; done); try (intros [-> |[]] ?; done);
    try (by intros [[= -> -> -> ->]|[|[]]]); by intros [|[]].
Qed.
