(* ===== verification/Users.v ===== *)
(** * Users ([config/users.go], [config/desugar.go], [core/principal/principal.go])

    The users of a configuration become credential bindings of its inbounds, which are
    registered in the table an inbound authenticates against
    ([config.buildProxyInbound]). YAML decoding is the caller's. *)
From stdpp Require Import sorting.
From S2P Require Import Prelude GoStd Netip Meter MeterSpec Proxy.
From Stdlib Require Import Init.Byte.

(** ** Sorting names, as [sort.Strings] *)

Fixpoint bytes_leb (a b : bytes) : bool :=
  match a, b with
  | [], _ => true
  | _ :: _, [] => false
  | x :: a', y :: b' => if b2z x <? b2z y then true else if b2z y <? b2z x then false else bytes_leb a' b'
  end.
Definition bytes_le (a b : bytes) : Prop := bytes_leb a b = true.
#[export] Instance bytes_le_dec : RelDecision bytes_le.
Proof. intros a b. unfold bytes_le. apply _. Defined.

Definition sortedKeys (s : gset bytes) : list bytes := merge_sort bytes_le (elements s).

Lemma elem_of_sortedKeys s x : x ∈ sortedKeys s <-> x ∈ s.
Proof. unfold sortedKeys. by rewrite merge_sort_Permutation, elem_of_elements. Qed.

(** ** Data *)

Definition OnAll : bytes := bs "all".

Record KeySpec := mkKeySpec { Values : list bytes; Maps : list (gmap bytes bytes) }.

(** [fields] is [None] for a scalar. *)
Record credValue := mkCred { scalar : bytes; fields : option (gmap bytes bytes) }.

Record User := mkUser {
  u_Name : bytes;
  u_On : list bytes;
  u_Off : list bytes;
  u_Keys : gmap bytes KeySpec;
  u_Rate : bytes;
  u_MaxConns : Z;
  u_MaxIPs : Z;
  u_OnExceedIPs : bytes;
}.

Record AuthLayer := mkLayer { Scheme : bytes; Key : bytes; Fields : option (gmap bytes bytes) }.
Record LimitRef := mkLimit { l_Rate : Z; l_MaxConns : Z; l_MaxIPs : Z }.
Record CredBinding := mkBinding { b_Inbound : bytes; b_Layers : list AuthLayer; b_BillID : bytes; b_Name : bytes; b_Limit : option LimitRef }.

Definition BillIDOf (name inbound : bytes) : bytes := name ++ x40 :: inbound.

Inductive configErr :=
| errNoName
| errUserDup (u : bytes)
| errInboundUnknown (u ib : bytes)
| errOnAll (u : bytes)
| errOffAll (u : bytes)
| errOnExceed (u : bytes)
| errRate (u : bytes)
| errKeyMissing (u ib p : bytes)
| errKeyDup (u owner ib p : bytes).

Definition AllowsAllInbounds (u : User) : bool := bool_decide (u_On u = [] \/ OnAll ∈ u_On u).

Definition creds (k : KeySpec) : list credValue :=
  ((fun v => mkCred v None) <$> Values k) ++ ((fun m => mkCred [] (Some m)) <$> Maps k).

Definition empty_spec (k : KeySpec) : bool := bool_decide (Values k = [] /\ Maps k = []).

Definition dupKey (c : credValue) : bytes :=
  match fields c with
  | None => scalar c
  | Some m => concat ((fun k => k ++ x3d :: default [] (m !! k) ++ [x00]) <$> sortedKeys (dom m))
  end.

(** ** [Desugar] *)

Definition allowedInbounds (u : User) (all : gset bytes) : gset bytes :=
  (if AllowsAllInbounds u then all else list_to_set (filter (fun ib => ib <> OnAll) (u_On u))) ∖ list_to_set (u_Off u).

Section desugar.
(** [strconv.ParseFloat], multiplied and truncated to an unsigned integer: the number and the
    bits of its unit. *)
Context `{Unicode} (scaled : bytes -> Z -> option Z).

Definition parseRate (s : bytes) : option Z :=
  let s := ToLower (TrimSpace s) in
  if HasSuffix s (bs "gbps") then scaled (TrimSpace (TrimSuffix s (bs "gbps"))) 1000000000
  else if HasSuffix s (bs "mbps") then scaled (TrimSpace (TrimSuffix s (bs "mbps"))) 1000000
  else if HasSuffix s (bs "kbps") then scaled (TrimSpace (TrimSuffix s (bs "kbps"))) 1000
  else if HasSuffix s (bs "bps") then scaled (TrimSpace (TrimSuffix s (bs "bps"))) 1
  else scaled (TrimSpace s) 1.

Definition buildLimitRef (u : User) : res configErr (option LimitRef) :=
  if negb (bool_decide (u_OnExceedIPs u = [] \/ u_OnExceedIPs u = bs "reject")) then Err (errOnExceed (u_Name u))
  else if bool_decide (u_Rate u = []) && (u_MaxConns u =? 0) && (u_MaxIPs u =? 0) then Ok None
  else if bool_decide (u_Rate u = []) then Ok (Some (mkLimit 0 (u_MaxConns u) (u_MaxIPs u)))
  else match parseRate (u_Rate u) with
       | None => Err (errRate (u_Name u))
       | Some r => Ok (Some (mkLimit r (u_MaxConns u) (u_MaxIPs u)))
       end.

Context (inboundNames : gset bytes) (stackProtos : gmap bytes (list bytes)).

(** The names in [on] and [off]. *)
Fixpoint check_on (name : bytes) (l : list bytes) : res configErr unit :=
  match l with
  | [] => Ok tt
  | ib :: l => if bool_decide (ib = OnAll) || bool_decide (ib ∈ inboundNames) then check_on name l else Err (errInboundUnknown name ib)
  end.
Fixpoint check_off (name : bytes) (l : list bytes) : res configErr unit :=
  match l with
  | [] => Ok tt
  | ib :: l => if bool_decide (ib = OnAll) then Err (errOffAll name)
               else if bool_decide (ib ∈ inboundNames) then check_off name l else Err (errInboundUnknown name ib)
  end.

(** The credentials of each layer, or the first protocol without one. *)
Fixpoint layer_vals (u : User) (protos : list bytes) : list (list credValue) + bytes :=
  match protos with
  | [] => inl []
  | p :: protos =>
      match u_Keys u !! p with
      | None => inr p
      | Some ks => if empty_spec ks then inr p
                   else match layer_vals u protos with inl vs => inl (creds ks :: vs) | inr m => inr m end
      end
  end.

Definition owner_key (ib p : bytes) (v : credValue) : bytes := ib ++ x00 :: p ++ x00 :: dupKey v.

Fixpoint claim_keys (name ib p : bytes) (vs : list credValue) (ko : gmap bytes bytes) : res configErr (gmap bytes bytes) :=
  match vs with
  | [] => Ok ko
  | v :: vs =>
      match ko !! owner_key ib p v with
      | Some owner => if bool_decide (owner <> name) then Err (errKeyDup name owner ib p)
                      else claim_keys name ib p vs (<[owner_key ib p v := name]> ko)
      | None => claim_keys name ib p vs (<[owner_key ib p v := name]> ko)
      end
  end.
Fixpoint claim_layers (name ib : bytes) (pvs : list (bytes * list credValue)) (ko : gmap bytes bytes) : res configErr (gmap bytes bytes) :=
  match pvs with
  | [] => Ok ko
  | (p, vs) :: pvs => match claim_keys name ib p vs ko with Err e => Err e | Ok ko => claim_layers name ib pvs ko end
  end.

(** One credential for each layer, in every combination. *)
Definition combos (vals : list (list credValue)) : list (list credValue) :=
  foldl (fun cs vs => c ← cs; (fun v => c ++ [v]) <$> vs) [[]] vals.

Definition layer_of (p : bytes) (v : credValue) : AuthLayer :=
  match fields v with Some m => mkLayer p [] (Some m) | None => mkLayer p (scalar v) None end.

Definition expandLayers (u : User) (ib : bytes) (protos : list bytes) (vals : list (list credValue)) (limit : option LimitRef) : list CredBinding :=
  (fun combo => mkBinding ib (zip_with layer_of protos combo) (BillIDOf (u_Name u) ib) (u_Name u) limit) <$> combos vals.

Definition protos_of (ib : bytes) : list bytes := default [] (stackProtos !! ib).

Definition inbound_step (u : User) (limit : option LimitRef) (st : gmap bytes bytes * list CredBinding) (ib : bytes)
  : res configErr (gmap bytes bytes * list CredBinding) :=
  let '(ko, out) := st in
  let protos := protos_of ib in
  if bool_decide (protos = []) then Ok (ko, out)
  else match layer_vals u protos with
       | inr missing => if negb (AllowsAllInbounds u) && bool_decide (ib ∈ u_On u) then Err (errKeyMissing (u_Name u) ib missing) else Ok (ko, out)
       | inl vals =>
           match claim_layers (u_Name u) ib (zip protos vals) ko with
           | Err e => Err e
           | Ok ko => Ok (ko, out ++ expandLayers u ib protos vals limit)
           end
       end.

Fixpoint inbound_loop (u : User) (limit : option LimitRef) (ibs : list bytes) (st : gmap bytes bytes * list CredBinding)
  : res configErr (gmap bytes bytes * list CredBinding) :=
  match ibs with
  | [] => Ok st
  | ib :: ibs => match inbound_step u limit st ib with Err e => Err e | Ok st => inbound_loop u limit ibs st end
  end.

(** Everything a user block is checked for before its inbounds. *)
Definition check_user (u : User) (seen : gset bytes) : res configErr (option LimitRef) :=
  if bool_decide (u_Name u = []) then Err errNoName
  else if bool_decide (u_Name u ∈ seen) then Err (errUserDup (u_Name u))
  else match check_on (u_Name u) (u_On u) with
       | Err e => Err e
       | Ok _ =>
           if bool_decide (OnAll ∈ u_On u) && (1 <? len (u_On u)) then Err (errOnAll (u_Name u))
           else match check_off (u_Name u) (u_Off u) with
                | Err e => Err e
                | Ok _ => buildLimitRef u
                end
       end.

Fixpoint user_loop (users : list User) (seen : gset bytes) (st : gmap bytes bytes * list CredBinding)
  : res configErr (gmap bytes bytes * list CredBinding) :=
  match users with
  | [] => Ok st
  | u :: users =>
      match check_user u seen with
      | Err e => Err e
      | Ok limit =>
          match inbound_loop u limit (sortedKeys (allowedInbounds u inboundNames)) st with
          | Err e => Err e
          | Ok st => user_loop users ({[u_Name u]} ∪ seen) st
          end
      end
  end.

Definition Desugar (users : list User) : res configErr (list CredBinding) :=
  match user_loop users ∅ (∅, []) with Err e => Err e | Ok (_, out) => Ok out end.

(** ** What it should compute *)

(** A user may use an inbound: all of them or the listed ones, less the ones switched off. *)
Definition may_use (u : User) (ib : bytes) : Prop :=
  (u_On u = [] \/ OnAll ∈ u_On u \/ ib ∈ u_On u) /\ ib ∈ inboundNames /\ ib ∉ u_Off u.

Definition has_cred (u : User) (p : bytes) (v : credValue) : Prop := exists ks, u_Keys u !! p = Some ks /\ v ∈ creds ks.

(** The bindings of a user at an inbound: one credential for every protocol of its stack. *)
Definition binding_for (u : User) (ib : bytes) (b : CredBinding) : Prop :=
  may_use u ib /\ protos_of ib <> [] /\ buildLimitRef u = Ok (b_Limit b) /\
  b_Inbound b = ib /\ b_Name b = u_Name u /\ b_BillID b = BillIDOf (u_Name u) ib /\
  exists vs, Forall2 (has_cred u) (protos_of ib) vs /\ b_Layers b = zip_with layer_of (protos_of ib) vs.

(** *** The pieces *)

Lemma combos_gen (vals : list (list credValue)) : forall (cs : list (list credValue)) (combo : list credValue),
  combo ∈ foldl (fun cs vs => c ← cs; (fun v => c ++ [v]) <$> vs) cs vals <->
  exists c rest, c ∈ cs /\ Forall2 (fun vs v => v ∈ vs) vals rest /\ combo = c ++ rest.
Proof.
  induction vals as [|vs vals IH]; intros cs combo; cbn [foldl].
  - split; [intros Hc; exists combo, []; by rewrite app_nil_r|]. intros (c & rest & Hc & HF & ->). inversion HF. by rewrite app_nil_r.
  - rewrite IH. split.
    + intros (c' & rest & Hc' & HF & ->). apply list_elem_of_bind in Hc' as (c & Hc' & Hc). apply list_elem_of_fmap in Hc' as (v & -> & Hv).
      exists c, (v :: rest). split_and!; [done|by constructor|by rewrite <-app_assoc].
    + intros (c & rest & Hc & HF & ->). inversion HF as [|? v ? rest' Hv HF']; subst. exists (c ++ [v]), rest'.
      split_and!; [|done|by rewrite <-app_assoc]. apply list_elem_of_bind. exists c. split; [|done]. apply list_elem_of_fmap. by exists v.
Qed.

Lemma elem_of_combos vals combo : combo ∈ combos vals <-> Forall2 (fun vs v => v ∈ vs) vals combo.
Proof.
  unfold combos. rewrite combos_gen. split; [intros (c & rest & Hc & HF & ->)|].
  - apply list_elem_of_singleton in Hc as ->. done.
  - intros HF. exists [], combo. split_and!; [by apply list_elem_of_singleton|done|done].
Qed.

Lemma layer_vals_ok u protos vals : layer_vals u protos = inl vals ->
  Forall2 (fun p vs => exists ks, u_Keys u !! p = Some ks /\ vs = creds ks) protos vals.
Proof.
  revert vals. induction protos as [|p protos IH]; intros vals; cbn; [intros [= <-]; constructor|].
  destruct (u_Keys u !! p) as [ks|] eqn:E; [|done]. destruct (empty_spec ks); [done|]. destruct (layer_vals u protos) as [vs|m]; [|done].
  intros [= <-]. constructor; [by exists ks|by apply IH].
Qed.

Lemma layer_vals_combo u protos vals combo : layer_vals u protos = inl vals ->
  Forall2 (fun vs v => v ∈ vs) vals combo <-> Forall2 (has_cred u) protos combo.
Proof.
  intros Hl%layer_vals_ok. revert combo. induction Hl as [|p vs protos vals (ks & Hk & ->) _ IH]; intros combo.
  - split; intros HF; inversion HF; constructor.
  - split; intros HF; inversion HF as [|? v ? c' Hv HF']; subst; (constructor; [|by apply IH]).
    + by exists ks.
    + destruct Hv as (ks' & E & Hv). rewrite Hk in E. by injection E as <-.
Qed.

Lemma layer_vals_missing u protos m combo : layer_vals u protos = inr m -> Forall2 (has_cred u) protos combo -> False.
Proof.
  revert combo. induction protos as [|p protos IH]; intros combo Hl HF; cbn in Hl; [done|].
  inversion HF as [|? v ? c' (ks & E & Hv) HF']; subst. rewrite E in Hl. unfold empty_spec in Hl. case_bool_decide as Hempty.
  - destruct ks as [a b], Hempty as [H1 H2]. cbn in H1, H2. subst. cbn in Hv. by apply not_elem_of_nil in Hv.
  - destruct (layer_vals u protos); [done|]. injection Hl as ->. by eapply IH.
Qed.

(** A credential belongs to the user who claimed it, and stays his. *)
Lemma claim_keys_ok name ib p vs : forall ko ko', claim_keys name ib p vs ko = Ok ko' ->
  ko ⊆ ko' /\ forall v, v ∈ vs -> ko' !! owner_key ib p v = Some name.
Proof.
  induction vs as [|v vs IH]; intros ko ko'; cbn [claim_keys]; [intros [= <-]; split; [done|]; intros v Hv; by apply not_elem_of_nil in Hv|].
  set (k := owner_key ib p v). intros Hc.
  assert (claim_keys name ib p vs (<[k := name]> ko) = Ok ko' /\ ko ⊆ <[k := name]> ko) as [Hc' Hs].
  { destruct (ko !! k) as [owner|] eqn:E.
    - case_bool_decide as Hn; [done|]. assert (owner = name) as -> by (destruct (decide (owner = name)); done). split; [done|]. by rewrite insert_id.
    - split; [done|]. by apply insert_subseteq. }
  destruct (IH _ _ Hc') as [H1 H2]. split; [by etransitivity|]. intros v' [-> |Hv']%elem_of_cons; [|by apply H2].
  eapply lookup_weaken; [|exact H1]. apply lookup_insert_eq.
Qed.

Lemma claim_layers_ok name ib pvs : forall ko ko', claim_layers name ib pvs ko = Ok ko' ->
  ko ⊆ ko' /\ forall p vs v, (p, vs) ∈ pvs -> v ∈ vs -> ko' !! owner_key ib p v = Some name.
Proof.
  induction pvs as [|[p vs] pvs IH]; intros ko ko'; cbn [claim_layers].
  { intros [= <-]. split; [done|]. intros p vs v Hp. by apply not_elem_of_nil in Hp. }
  destruct (claim_keys name ib p vs ko) as [ko1|] eqn:E; [|done]. intros Hc. destruct (claim_keys_ok _ _ _ _ _ _ E) as [H1 H2].
  destruct (IH _ _ Hc) as [H3 H4]. split; [by etransitivity|]. intros p' vs' v [[= -> ->]|Hp]%elem_of_cons Hv; [|by eapply H4].
  eapply lookup_weaken; [by apply H2|done].
Qed.

(** The credentials of [u] at [ib] are entered as his. *)
Definition claimed (ko : gmap bytes bytes) (u : User) (ib : bytes) : Prop :=
  forall p v, p ∈ protos_of ib -> has_cred u p v -> ko !! owner_key ib p v = Some (u_Name u).

(** What a user gets at an inbound he may use. *)
Definition layers_for (u : User) (ib : bytes) (limit : option LimitRef) (b : CredBinding) : Prop :=
  protos_of ib <> [] /\ b_Limit b = limit /\ b_Inbound b = ib /\ b_Name b = u_Name u /\ b_BillID b = BillIDOf (u_Name u) ib /\
  exists vs, Forall2 (has_cred u) (protos_of ib) vs /\ b_Layers b = zip_with layer_of (protos_of ib) vs.

Lemma elem_of_expand u ib protos vals limit b : b ∈ expandLayers u ib protos vals limit <->
  exists combo, combo ∈ combos vals /\ b = mkBinding ib (zip_with layer_of protos combo) (BillIDOf (u_Name u) ib) (u_Name u) limit.
Proof. unfold expandLayers. rewrite list_elem_of_fmap. split; intros (c & H1 & H2); by exists c. Qed.

Lemma inbound_step_ok u limit ko out ib ko' out' : inbound_step u limit (ko, out) ib = Ok (ko', out') ->
  ko ⊆ ko' /\ (forall b, b ∈ out' <-> b ∈ out \/ layers_for u ib limit b) /\ ((exists b, layers_for u ib limit b) -> claimed ko' u ib).
Proof.
  unfold inbound_step, layers_for, claimed. set (protos := protos_of ib). case_bool_decide as Hp.
  { intros [= <- <-]. split_and!; [done|intros b; split; [by left|intros [?|(? & _)]; done]|intros (b & Hb & _); done]. }
  destruct (layer_vals u protos) as [vals|m] eqn:Hl.
  - destruct (claim_layers _ ib (zip protos vals) ko) as [ko1|] eqn:Ec; [|done]. intros [= <- <-].
    destruct (claim_layers_ok _ _ _ _ _ Ec) as [H1 H2]. split_and!; [done| |].
    + intros b. rewrite elem_of_app, elem_of_expand. split; (intros [?|Hb]; [by left|right]).
      * destruct Hb as (combo & Hc%elem_of_combos & ->). split_and!; [done..|]. exists combo. split; [by eapply layer_vals_combo|done].
      * destruct Hb as (_ & E1 & E2 & E3 & E4 & vs & HF & E5). exists vs. split; [apply elem_of_combos; by eapply layer_vals_combo|].
        destruct b. cbn in *. by subst.
    + intros _ p v Hin (ks & Ek & Hv). apply layer_vals_ok in Hl. apply list_elem_of_lookup in Hin as [i Hi].
      destruct (Forall2_lookup_l _ _ _ _ _ Hl Hi) as (vs & Hvs & ks' & Ek' & ->). rewrite Ek in Ek'. injection Ek' as <-.
      eapply H2; [|exact Hv]. apply list_elem_of_lookup. exists i. by rewrite lookup_zip_with, Hi, Hvs.
  - intros Hst. assert (ko' = ko /\ out' = out) as [-> ->] by (case_match; [done|by injection Hst as <- <-]).
    assert (forall b : CredBinding, ~ exists vs, Forall2 (has_cred u) protos vs /\ b_Layers b = zip_with layer_of protos vs) as Hno.
    { intros b (vs & HF & _). by eapply layer_vals_missing. }
    split_and!; [done|intros b; split; [by left|]|].
    + intros [?|(_ & _ & _ & _ & _ & Hb)]; [done|by destruct (Hno b)].
    + intros (b & _ & _ & _ & _ & _ & Hb). by destruct (Hno b).
Qed.

Lemma inbound_loop_ok u limit ibs : forall ko out ko' out', inbound_loop u limit ibs (ko, out) = Ok (ko', out') ->
  ko ⊆ ko' /\ (forall b, b ∈ out' <-> b ∈ out \/ exists ib, ib ∈ ibs /\ layers_for u ib limit b) /\
  (forall ib b, ib ∈ ibs -> layers_for u ib limit b -> claimed ko' u ib).
Proof.
  induction ibs as [|ib ibs IH]; intros ko out ko' out'; cbn [inbound_loop].
  { intros [= <- <-]. split_and!; [done| |intros ? ? Hi; by apply not_elem_of_nil in Hi]. intros b. split; [by left|].
    intros [?|(ib & Hi & _)]; [done|by apply not_elem_of_nil in Hi]. }
  destruct (inbound_step u limit (ko, out) ib) as [[ko1 out1]|] eqn:E; [|done]. intros Hl.
  destruct (inbound_step_ok _ _ _ _ _ _ _ E) as (H1 & H2 & H3). destruct (IH _ _ _ _ Hl) as (K1 & K2 & K3).
  split_and!; [by etransitivity| |].
  - intros b. rewrite K2, H2. setoid_rewrite elem_of_cons. naive_solver.
  - intros ib' b [-> |Hi]%elem_of_cons Hb; [|by eapply K3]. intros p v Hp Hv. eapply lookup_weaken; [|exact K1]. apply H3; [by exists b|done|done].
Qed.

Lemma check_on_ok name l : check_on name l = Ok tt -> forall ib, ib ∈ l -> ib = OnAll \/ ib ∈ inboundNames.
Proof.
  induction l as [|x l IH]; cbn; intros Hc ib Hib; [by apply not_elem_of_nil in Hib|].
  case_bool_decide as H1; cbn [orb] in Hc; [|case_bool_decide as H2; [|done]]; apply elem_of_cons in Hib as [-> |Hib]; auto.
Qed.

Lemma allowed_may_use u : check_on (u_Name u) (u_On u) = Ok tt -> forall ib, ib ∈ allowedInbounds u inboundNames <-> may_use u ib.
Proof.
  intros Hon ib. unfold allowedInbounds, may_use, AllowsAllInbounds. rewrite elem_of_difference, (elem_of_list_to_set (C := gset bytes) ib (u_Off u)).
  case_bool_decide as Ha.
  - split; [intros [? ?]; split_and!; [destruct Ha; auto|done|done]|intros (_ & ? & ?); done].
  - rewrite elem_of_list_to_set, list_elem_of_filter. split.
    + intros [[Hne Hin] Hoff]. pose proof (check_on_ok _ _ Hon ib Hin). tauto.
    + intros (Hon' & Hin & Hoff). assert (ib ∈ u_On u) as Hib by tauto. split; [|done]. split; [|done]. intros ->. tauto.
Qed.

Lemma check_user_ok u seen limit : check_user u seen = Ok limit ->
  u_Name u <> [] /\ u_Name u ∉ seen /\ check_on (u_Name u) (u_On u) = Ok tt /\ buildLimitRef u = Ok limit.
Proof.
  unfold check_user. case_bool_decide as H1; [done|]. case_bool_decide as H2; [done|].
  destruct (check_on (u_Name u) (u_On u)) as [[]|]; [|done]. destruct (bool_decide _ && _); [done|].
  destruct (check_off (u_Name u) (u_Off u)) as [[]|]; [|done]. done.
Qed.

Lemma user_loop_ok users : forall seen ko out ko' out', user_loop users seen (ko, out) = Ok (ko', out') ->
  ko ⊆ ko' /\ (forall b, b ∈ out' <-> b ∈ out \/ exists u ib, u ∈ users /\ binding_for u ib b) /\
  (forall u ib b, u ∈ users -> binding_for u ib b -> claimed ko' u ib) /\
  NoDup (u_Name <$> users) /\ (forall u, u ∈ users -> u_Name u ∉ seen).
Proof.
  induction users as [|u users IH]; intros seen ko out ko' out'; cbn [user_loop].
  { intros [= <- <-]. split_and!; [done| |intros ? ? ? Hi; by apply not_elem_of_nil in Hi|constructor|intros ? Hi; by apply not_elem_of_nil in Hi].
    intros b. split; [by left|]. intros [?|(u & ib & Hi & _)]; [done|by apply not_elem_of_nil in Hi]. }
  destruct (check_user u seen) as [limit|] eqn:Ec; [|done]. destruct (check_user_ok _ _ _ Ec) as (_ & Hnew & Hon & Hlim).
  destruct (inbound_loop u limit _ (ko, out)) as [[ko1 out1]|] eqn:El; [|done]. intros Hl.
  destruct (inbound_loop_ok _ _ _ _ _ _ _ El) as (H1 & H2 & H3). destruct (IH _ _ _ _ _ Hl) as (K1 & K2 & K3 & K4 & K5).
  assert (forall ib b, (ib ∈ sortedKeys (allowedInbounds u inboundNames) /\ layers_for u ib limit b) <-> binding_for u ib b) as Hb.
  { intros ib b. rewrite elem_of_sortedKeys, allowed_may_use by done. unfold layers_for, binding_for. rewrite Hlim.
    split; [intros (H4 & H5 & <- & H6); exact (conj H4 (conj H5 (conj eq_refl H6)))|intros (H4 & H5 & [= ->] & H6); exact (conj H4 (conj H5 (conj eq_refl H6)))]. }
  split_and!; [by etransitivity| | | |].
  - intros b. rewrite K2, H2. setoid_rewrite Hb. setoid_rewrite elem_of_cons. clear. split.
    + intros [[?|(ib & Hi)]|(u' & ib & Hu & Hi)]; [by left|right; exists u, ib; by split; [left|]|right; exists u', ib; by split; [right|]].
    + intros [?|(u' & ib & [-> |Hu] & Hi)]; [by left; left|left; right; by exists ib|right; by exists u', ib].
  - intros u' ib b [-> |Hu]%elem_of_cons Hbind; [|by eapply K3]. apply Hb in Hbind as [Hin Hbind]. intros p v Hp Hv.
    eapply lookup_weaken; [by eapply H3|done].
  - cbn. constructor; [|done]. intros (u' & E & Hu')%list_elem_of_fmap. apply (K5 u' Hu'). rewrite <-E. by apply elem_of_union_l, elem_of_singleton.
  - intros u' [-> |Hu']%elem_of_cons; [done|]. intros Hs. apply (K5 u' Hu'). by apply elem_of_union_r.
Qed.

Lemma user_limits_ok users : forall seen st st' u, user_loop users seen st = Ok st' -> u ∈ users -> exists limit, buildLimitRef u = Ok limit.
Proof.
  induction users as [|u' users IH]; intros seen st st' u; cbn [user_loop]; [intros _ Hu; by apply not_elem_of_nil in Hu|].
  destruct (check_user u' seen) as [limit|] eqn:Ec; [|done]. destruct (inbound_loop u' limit _ st) as [st1|]; [|done].
  intros Hl [-> |Hu]%elem_of_cons; [|by eapply IH]. exists limit. by apply check_user_ok in Ec as (_ & _ & _ & ?).
Qed.

Lemma Desugar_limit users out u : Desugar users = Ok out -> u ∈ users -> exists limit, buildLimitRef u = Ok limit.
Proof. unfold Desugar. destruct (user_loop users ∅ (∅, [])) as [st|] eqn:E; [|done]. intros _. by eapply user_limits_ok. Qed.

Lemma Desugar_names users out : Desugar users = Ok out -> NoDup (u_Name <$> users).
Proof.
  unfold Desugar. destruct (user_loop users ∅ (∅, [])) as [[ko o]|] eqn:E; [|done]. intros _.
  by destruct (user_loop_ok _ _ _ _ _ _ E) as (_ & _ & _ & ? & _).
Qed.

Lemma Desugar_bindings users out : Desugar users = Ok out -> forall b, b ∈ out <-> exists u ib, u ∈ users /\ binding_for u ib b.
Proof.
  unfold Desugar. destruct (user_loop users ∅ (∅, [])) as [[ko o]|] eqn:E; [|done]. intros [= <-] b.
  destruct (user_loop_ok _ _ _ _ _ _ E) as (_ & H2 & _). rewrite H2. split; [intros [Hb|?]; [by apply not_elem_of_nil in Hb|done]|by right].
Qed.

(** Desugaring users gives every inbound exactly the bindings it should have: for each
    user who may use it (all inbounds or the listed ones, less those switched off) and has
    the keys its stack needs, one binding for every choice of one key per protocol, under
    his own billing identity and limits, and nothing else. No two users have the same name,
    and no key of one protocol at one inbound belongs to two of them. *)
Theorem Desugar_exact users out :
  Desugar users = Ok out ->
  (forall b, b ∈ out <-> exists u ib, u ∈ users /\ binding_for u ib b) /\
  NoDup (u_Name <$> users) /\
  (forall u1 u2 ib b1 b2 p v, u1 ∈ users -> u2 ∈ users -> binding_for u1 ib b1 -> binding_for u2 ib b2 ->
     p ∈ protos_of ib -> has_cred u1 p v -> has_cred u2 p v -> u_Name u1 = u_Name u2).
Proof.
  intros HD. split; [by apply Desugar_bindings|]. revert HD. unfold Desugar.
  destruct (user_loop users ∅ (∅, [])) as [[ko o]|] eqn:E; [|done]. intros [= <-].
  destruct (user_loop_ok _ _ _ _ _ _ E) as (_ & H2 & H3 & H4 & _). split; [done|].
  - intros u1 u2 ib b1 b2 p v Hu1 Hu2 Hb1 Hb2 Hp Hv1 Hv2.
    pose proof (H3 u1 ib b1 Hu1 Hb1 p v Hp Hv1) as E1. pose proof (H3 u2 ib b2 Hu2 Hb2 p v Hp Hv2) as E2. rewrite E1 in E2. by injection E2.
Qed.
End desugar.

(** ** A configuration *)

Module Examples.
#[local] Instance ascii : Unicode := ascii_only.
Definition kbps (s : bytes) (bits : Z) : option Z := (fun n => n * bits / 8) <$> digits_val s.
Definition names : gset bytes := {[bs "vless-in"; bs "socks-in"]}.
Definition protos : gmap bytes (list bytes) := {[bs "vless-in" := [bs "vless"]; bs "socks-in" := [bs "socks"]]}.
Definition alice : User :=
  mkUser (bs "alice") [] [] {[bs "vless" := mkKeySpec [bs "k1"; bs "k2"] []; bs "socks" := mkKeySpec [bs "alice:pw"] []]} (bs "8 kbps") 2 0 [].
Definition bob : User := mkUser (bs "bob") [bs "vless-in"] [] {[bs "vless" := mkKeySpec [bs "k3"] []]} [] 0 0 [].
Definition users : list User := [alice; bob].
Definition out : list CredBinding := match Desugar kbps names protos users with Ok o => o | Err _ => [] end.

Example out_bills : (fun b => (b_BillID b, Key <$> b_Layers b, b_Limit b)) <$> out =
  [(bs "alice@socks-in", [bs "alice:pw"], Some (mkLimit 1000 2 0));
   (bs "alice@vless-in", [bs "k1"], Some (mkLimit 1000 2 0));
   (bs "alice@vless-in", [bs "k2"], Some (mkLimit 1000 2 0));
   (bs "bob@vless-in", [bs "k3"], None)].
Proof. vm_compute. reflexivity. Qed.

Example missing_key : Desugar kbps names protos [mkUser (bs "eve") [bs "socks-in"] [] ∅ [] 0 0 []] = Err (errKeyMissing (bs "eve") (bs "socks-in") (bs "socks")).
Proof. vm_compute. reflexivity. Qed.

Example same_key : Desugar kbps names protos [bob; mkUser (bs "eve") [] [] {[bs "vless" := mkKeySpec [bs "k3"] []]} [] 0 0 []]
  = Err (errKeyDup (bs "eve") (bs "bob") (bs "vless-in") (bs "vless")).
Proof. vm_compute. reflexivity. Qed.

Lemma Desugar_exact_witness :
  Desugar kbps names protos users = Ok out /\
  (forall b, b ∈ out <-> exists u ib, u ∈ users /\ binding_for kbps names protos u ib b) /\
  NoDup (u_Name <$> users).
Proof.
  assert (Desugar kbps names protos users = Ok out) as H by (vm_compute; reflexivity).
  split; [exact H|]. destruct (Desugar_exact kbps names protos users out H) as (H1 & H2 & _). by split.
Defined.
End Examples.

(** Two users share a billing identity when a name contains an at sign. *)
Lemma BillIDOf_collides : BillIDOf (bs "ann@corp") (bs "in") = BillIDOf (bs "ann") (bs "corp@in").
Proof. reflexivity. Qed.
