(* ===== verification/Register.v ===== *)
(** * Registering credentials ([config/config.go])

    What an inbound is given to authenticate its users with: the credential table of a
    protocol that derives a key from a secret, the user list of a protocol that matches users
    itself, the list and read-back table of a session protocol; and the limits of each user,
    shared by everything registered for him. *)
From S2P Require Import Prelude GoStd AddrText Meter MeterSpec Proxy Trojan Users.
From Stdlib Require Import Init.Byte.

(** ** Data *)

Record RegisteredUser := mkRegistered { ru_Tag : bytes; ru_Secret : bytes; ru_Ref : credID }.
Record sessionUser := mkSession { su_Tag : bytes; su_Secret : bytes; su_Fields : option (gmap bytes bytes) }.

(** What a protocol plug-in can do: [proxy.UserRegistrar] (whether it takes a list),
    [proxy.CredentialCodec] (the key of a secret) and [proxy.AuthGate]. *)
Record Caps := mkCaps {
  UserRegistrar : option (list RegisteredUser -> bool);
  CredentialCodec : option (bytes -> option bytes);
  AuthGate : bool;
}.

Inductive registerErr :=
| errRegistrar
| errNoCodec
| errAuthKey (bill : bytes)
| errDerivedDup (bill other : bytes)
| errUserKey (j : nat)
| errUserLimits (j : nat)
| errLimitsUnmetered (name : bytes).

(** An inbound as registered: its table, the users handed to the protocol, and what its gate
    was told. *)
Record Registered := mkReg {
  rg_auth : StaticAuth;
  rg_users : list RegisteredUser;
  rg_gate : option bool;
}.

(** A user written at the inbound itself: a map of YAML values. *)
Inductive yval := YString (s : bytes) | YInt (n : Z) | YFloat (truncated : Z) | YOther.

Definition userSecret (u : gmap bytes yval) : bytes :=
  let str k := match u !! k with Some (YString s) => s | _ => [] end in
  let first l := default [] (head (filter (fun s => s <> []) l)) in
  first [str (bs "uuid"); str (bs "password"); str (bs "psk")].

Definition toInt (v : option yval) : option Z :=
  match v with Some (YInt n) => Some n | Some (YFloat n) => Some n | _ => None end.

Section register.
Context `{Unicode} (scaled : bytes -> Z -> option Z).
(** [newRateLimiter]: the bucket for a rate. *)
Context (bucket : Z -> nat).

Definition rate_of (bps : Z) : option nat := if 0 <? bps then Some (bucket bps) else None.

Definition parseUserLimits (u : gmap bytes yval) : Limits * bool :=
  let mc := match toInt (u !! bs "max-conns") with Some v => if 0 <? v then Some v else None | None => None end in
  let mi := match toInt (u !! bs "max-ips") with Some v => if 0 <? v then Some v else None | None => None end in
  let ra := match u !! bs "rate" with
            | Some (YString s) =>
                if bool_decide (s = []) then None
                else match parseRate scaled s with Some bps => if 0 <? bps then Some bps else None | None => None end
            | _ => None
            end in
  (mkLimits (default 0 mc) (r ← ra; rate_of r) (default 0 mi), bool_decide (is_Some mc) || bool_decide (is_Some mi) || bool_decide (is_Some ra)).

(** ** Tags: the billing identity, numbered from the second key on *)

Definition tag_of (bill : bytes) (n : Z) : bytes := if 0 <? n then bill ++ x23 :: Itoa n else bill.
Definition count_of (seen : gmap bytes Z) (bill : bytes) : Z := default 0 (seen !! bill).

(** One layer after the other of each binding, with the identifier of its bill. *)
Fixpoint tagged_layers (bill : bytes) (id : credID) (layers : list AuthLayer) (seen : gmap bytes Z)
  : list (bytes * AuthLayer * credID) * gmap bytes Z :=
  match layers with
  | [] => ([], seen)
  | l :: layers =>
      let n := count_of seen bill in
      let '(rest, seen') := tagged_layers bill id layers (<[bill := n + 1]> seen) in
      ((tag_of bill n, l, id) :: rest, seen')
  end.
Fixpoint tagged (binds : list CredBinding) (r : Registry) (seen : gmap bytes Z) : list (bytes * AuthLayer * credID) * Registry :=
  match binds with
  | [] => ([], r)
  | b :: binds =>
      let '(id, r) := IDForBill r (b_BillID b) in
      let '(l, seen) := tagged_layers (b_BillID b) id (b_Layers b) seen in
      let '(rest, r) := tagged binds r seen in
      (l ++ rest, r)
  end.

Definition registered_users (binds : list CredBinding) (r : Registry) : list RegisteredUser * Registry :=
  let '(l, r) := tagged binds r ∅ in ((fun t => mkRegistered t.1.1 (Key t.1.2) t.2) <$> l, r).

(** The registry is changed up to the binding that is refused. *)
Definition sessionUsersFromBinds (binds : list CredBinding) (r : Registry) (metering : bool)
  : res registerErr (list sessionUser * gmap bytes credID) * Registry :=
  match list_find (fun b => is_Some (b_Limit b) /\ metering = false) binds with
  | Some (i, b) => (Err (errLimitsUnmetered (b_Name b)), (tagged (take i binds) r ∅).2)
  | None =>
      let '(l, r) := tagged binds r ∅ in
      (Ok ((fun t => mkSession t.1.1 (Key t.1.2) (Fields t.1.2)) <$> l, foldl (fun m t => <[t.1.1 := t.2]> m) ∅ l), r)
  end.

(** ** The credential table *)

Section codec.
Context (AuthKey : bytes -> option bytes).

Fixpoint add_layers (bill : bytes) (id : credID) (layers : list AuthLayer) (r : Registry) (a : StaticAuth) : res registerErr StaticAuth :=
  match layers with
  | [] => Ok a
  | l :: layers =>
      match AuthKey (Key l) with
      | None => Err (errAuthKey bill)
      | Some key =>
          match StaticAuth_Auth a (Scheme l) key with
          | Some prev => if bool_decide (prev <> id) then Err (errDerivedDup bill (Bill r prev))
                         else add_layers bill id layers r (StaticAuth_Add a (Scheme l) key id)
          | None => add_layers bill id layers r (StaticAuth_Add a (Scheme l) key id)
          end
      end
  end.
Fixpoint add_bindings (binds : list CredBinding) (r : Registry) (a : StaticAuth) : res registerErr StaticAuth * Registry :=
  match binds with
  | [] => (Ok a, r)
  | b :: binds =>
      let '(id, r) := IDForBill r (b_BillID b) in
      match add_layers (b_BillID b) id (b_Layers b) r a with
      | Err e => (Err e, r)
      | Ok a => add_bindings binds r a
      end
  end.

(** The users written at the inbound: [j] counts them. *)
Fixpoint add_users (name scheme : bytes) (metering : bool) (j : nat) (us : list (gmap bytes yval)) (r : Registry) (a : StaticAuth) (registered : nat)
  : res registerErr (StaticAuth * nat) * Registry :=
  match us with
  | [] => (Ok (a, registered), r)
  | u :: us =>
      let secret := userSecret u in
      if bool_decide (secret = []) then add_users name scheme metering (S j) us r a registered
      else match AuthKey secret with
           | None => (Err (errUserKey j), r)
           | Some key =>
               let '(id, r) := IDForBill r (name ++ x23 :: Itoa (Z.of_nat j)) in
               let a := StaticAuth_Add a scheme key id in
               let '(lim, ok) := parseUserLimits u in
               if ok then
                 if metering then add_users name scheme metering (S j) us (SetLimits r id lim) a (S registered)
                 else (Err (errUserLimits j), r)
               else add_users name scheme metering (S j) us r a (S registered)
           end
  end.
End codec.

Definition gate (c : Caps) (registered : nat) : option bool := if AuthGate c then Some (bool_decide (registered <> O)) else None.

(** [buildProxyInbound] after the stack is built. The registry is the running one: what was
    done to it stays when an error is returned. *)
Definition register_inbound (c : Caps) (name scheme : bytes) (users : list (gmap bytes yval)) (binds : list CredBinding) (metering : bool) (r : Registry)
  : res registerErr Registered * Registry :=
  match UserRegistrar c, binds with
  | Some register, _ :: _ =>
      let '(us, r) := registered_users binds r in
      (if register us then Ok (mkReg NewStaticAuth us (gate c (length binds))) else Err errRegistrar, r)
  | _, _ =>
      match CredentialCodec c, binds with
      | None, _ :: _ => (Err errNoCodec, r)
      | None, [] => (Ok (mkReg NewStaticAuth [] None), r)
      | Some AuthKey, _ :: _ =>
          match add_bindings AuthKey binds r NewStaticAuth with
          | (Err e, r) => (Err e, r)
          | (Ok a, r) => (Ok (mkReg a [] (gate c (length binds))), r)
          end
      | Some AuthKey, [] =>
          match add_users AuthKey name scheme metering 0 users r NewStaticAuth 0 with
          | (Err e, r) => (Err e, r)
          | (Ok (a, n), r) => (Ok (mkReg a [] (gate c n)), r)
          end
      end
  end.

(** ** Limits *)

(** The end of [Build]: the identifiers of each user and his limits, then one shared unit for
    each. Go visits a map in any order: [order] is the one it takes. *)
Fixpoint limits_by_user (binds : list CredBinding) (r : Registry) (m : gmap bytes (list credID * LimitRef)) : gmap bytes (list credID * LimitRef) * Registry :=
  match binds with
  | [] => (m, r)
  | b :: binds =>
      match b_Limit b with
      | None => limits_by_user binds r m
      | Some l =>
          let '(id, r) := IDForBill r (b_BillID b) in
          limits_by_user binds r (<[b_Name b := (default [] (fst <$> m !! b_Name b) ++ [id], l)]> m)
      end
  end.

Definition to_Limits (l : LimitRef) : Limits := mkLimits (l_MaxConns l) (rate_of (l_Rate l)) (l_MaxIPs l).

Definition apply_user (r : Registry) (e : bytes * (list credID * LimitRef)) : Registry := SetLimitsShared r e.2.1 (to_Limits e.2.2).

Definition apply_limits (order : gmap bytes (list credID * LimitRef) -> list (bytes * (list credID * LimitRef))) (binds : list CredBinding) (r : Registry) : Registry :=
  let '(m, r) := limits_by_user binds r ∅ in foldl apply_user r (order m).
End register.

(** ** Identifiers of bills *)

Lemma IDForBill_get r b : r_bills (IDForBill r b).2 !! b = Some (IDForBill r b).1.
Proof. unfold IDForBill. destruct (r_bills r !! b) eqn:E; [done|]. cbn. by rewrite lookup_insert_eq. Qed.

Lemma assign_cons r b bills : assign r (b :: bills) = assign (IDForBill r b).2 bills.
Proof. done. Qed.

Lemma assign_get r b bills : r_bills (assign r (b :: bills)) !! b = Some (IDForBill r b).1.
Proof. rewrite assign_cons. apply assign_stable, IDForBill_get. Qed.

Lemma assign_has bills : forall r b, b ∈ bills -> is_Some (r_bills (assign r bills) !! b).
Proof.
  induction bills as [|b' bills IH]; intros r b Hb; [by apply not_elem_of_nil in Hb|]. apply elem_of_cons in Hb as [-> |Hb].
  - rewrite assign_get. by eexists.
  - rewrite assign_cons. by apply IH.
Qed.

Lemma bill_inj r b1 b2 id : bill_inv r -> r_bills r !! b1 = Some id -> r_bills r !! b2 = Some id -> b1 = b2.
Proof. intros [Hl _ _] H1%Hl H2%Hl. destruct H1 as [H1 _], H2 as [H2 _]. congruence. Qed.

(** ** The table holds exactly what the bindings say *)

Section codec_spec.
Context (AuthKey : bytes -> option bytes).

(** A layer gives the entry [(scheme, key)]. *)
Definition entry_of (k : bytes * bytes) (l : AuthLayer) : Prop := k.1 = Scheme l /\ AuthKey (Key l) = Some k.2.

Lemma add_layers_ok bill id r layers : forall a a', add_layers AuthKey bill id layers r a = Ok a' ->
  forall k x, a' !! k = Some x <-> a !! k = Some x \/ (x = id /\ exists l, l ∈ layers /\ entry_of k l).
Proof.
  induction layers as [|l layers IH]; intros a a'; cbn [add_layers].
  { intros [= <-] k x. split; [by left|]. intros [?|(_ & l & Hl & _)]; [done|by apply not_elem_of_nil in Hl]. }
  destruct (AuthKey (Key l)) as [key|] eqn:Ek; [|done]. intros Ha.
  assert (add_layers AuthKey bill id layers r (StaticAuth_Add a (Scheme l) key id) = Ok a' /\ (forall x, a !! (Scheme l, key) = Some x -> x = id)) as [Ha' Hold].
  { unfold StaticAuth_Auth in Ha. destruct (a !! (Scheme l, key)) as [prev|] eqn:E; [|done].
    case_bool_decide as Hp; [done|]. split; [done|]. intros x [= ->]. by destruct (decide (x = id)). }
  intros k x. rewrite (IH _ _ Ha' k x). unfold StaticAuth_Add, StaticAuth, credID in *. setoid_rewrite elem_of_cons.
  destruct (decide (k = (Scheme l, key))) as [-> |Hk].
  - rewrite lookup_insert_eq. split.
    + intros [[= <-]|(-> & l' & Hl' & He)]; right; (split; [done|]); [exists l; split; [by left|by split]|exists l'; split; [by right|done]].
    + intros [Hx|(-> & _)]; left; [by rewrite (Hold x Hx)|done].
  - rewrite lookup_insert_ne by done. split.
    + intros [?|(-> & l' & Hl' & He)]; [by left|]. right. split; [done|]. exists l'. split; [by right|done].
    + intros [?|(-> & l' & [-> |Hl'] & He)]; [by left| |right; split; [done|by exists l']].
      destruct He as [E1 E2]. destruct k as [k1 k2]. cbn in *. rewrite Ek in E2. injection E2 as <-. by subst.
Qed.

Lemma add_bindings_ok binds : forall r a a' r', add_bindings AuthKey binds r a = (Ok a', r') ->
  r' = assign r (b_BillID <$> binds) /\
  forall k x, a' !! k = Some x <->
    a !! k = Some x \/ exists b l, b ∈ binds /\ l ∈ b_Layers b /\ entry_of k l /\ r_bills r' !! b_BillID b = Some x.
Proof.
  induction binds as [|b binds IH]; intros r a a' r'; cbn [add_bindings].
  { intros [= <- <-]. split; [done|]. intros k x. split; [by left|]. intros [?|(b & l & Hb & _)]; [done|by apply not_elem_of_nil in Hb]. }
  pose proof (assign_get r (b_BillID b) (b_BillID <$> binds)) as Hget. rewrite assign_cons in Hget.
  destruct (IDForBill r (b_BillID b)) as [id r1] eqn:Eid. cbn [fst snd] in Hget.
  destruct (add_layers AuthKey (b_BillID b) id (b_Layers b) r1 a) as [a1|] eqn:El; [|done]. intros Hb.
  destruct (IH _ _ _ _ Hb) as [-> Hiff]. split; [by rewrite fmap_cons, assign_cons, Eid|].
  intros k x. rewrite Hiff, (add_layers_ok _ _ _ _ _ _ El k x). clear Hiff. setoid_rewrite elem_of_cons. split.
  - intros [[?|(-> & l & Hl & He)]|(b' & l & Hb' & Hrest)]; [by left| |]; right.
    + exists b, l. by split_and!; [left|..].
    + exists b', l. split; [by right|done].
  - intros [?|(b' & l & [-> |Hb'] & Hl & He & Hx)]; [by left; left| |right; by exists b', l].
    left. right. assert (Some x = Some id) as [= ->] by (etrans; [symmetry; exact Hx|exact Hget]). split; [done|by exists l].
Qed.
End codec_spec.

(** ** From the users of a configuration to the table of an inbound *)

(** What a credential's key is derived from: nothing, for a composite one. *)
Definition secret_of (v : credValue) : bytes := match fields v with Some _ => [] | None => scalar v end.

Lemma Key_layer_of p v : Key (layer_of p v) = secret_of v.
Proof. unfold layer_of, secret_of. by destruct (fields v). Qed.
Lemma Scheme_layer_of p v : Scheme (layer_of p v) = p.
Proof. unfold layer_of. by destruct (fields v). Qed.

Lemma BillIDOf_name n1 n2 ib : BillIDOf n1 ib = BillIDOf n2 ib -> n1 = n2.
Proof. unfold BillIDOf. intros E. by apply app_inv_tail in E. Qed.

Section end_to_end.
Context `{Unicode} (scaled : bytes -> Z -> option Z) (bucket : Z -> nat).
Context (inboundNames : gset bytes) (stackProtos : gmap bytes (list bytes)).

(** [u] may use [ib] with the credential [v], whose derived key is [key]. *)
Definition authorised (AuthKey : bytes -> option bytes) (users : list User) (ib p : bytes) (u : User) (key : bytes) : Prop :=
  u ∈ users /\ may_use inboundNames u ib /\ exists v, has_cred u p v /\ AuthKey (secret_of v) = Some key.

Lemma binding_single users out ib p b : Desugar scaled inboundNames stackProtos users = Ok out -> stackProtos !! ib = Some [p] ->
  (b ∈ out /\ b_Inbound b = ib <->
   exists u v, u ∈ users /\ may_use inboundNames u ib /\ has_cred u p v /\ buildLimitRef scaled u = Ok (b_Limit b) /\
     b = mkBinding ib [layer_of p v] (BillIDOf (u_Name u) ib) (u_Name u) (b_Limit b)).
Proof.
  intros HD Hp. assert (protos_of stackProtos ib = [p]) as Epr by (unfold protos_of; by rewrite Hp).
  rewrite (Desugar_bindings _ _ _ _ _ HD b). unfold binding_for. split.
  - intros [(u & ib' & Hu & Hm & _ & Hl & E1 & E2 & E3 & vs & HF & E4) Eib]. assert (ib' = ib) as -> by congruence. rewrite Epr in HF, E4.
    inversion HF as [|? v ? vs' Hv HF']; subst. inversion HF'; subst. exists u, v. split_and!; [done..|]. destruct b. cbn in *. by subst.
  - intros (u & v & Hu & Hm & Hv & Hl & ->). split; [|done]. exists u, ib. rewrite Epr. split_and!; [done..|]. exists [v]. split; [|done].
    by repeat constructor.
Qed.

(** Registering the bindings of an inbound whose protocol has a codec, from an empty table. *)
Lemma register_codec c AuthKey name scheme us binds metering r reg r' :
  CredentialCodec c = Some AuthKey -> UserRegistrar c = None -> binds <> [] ->
  register_inbound scaled bucket c name scheme us binds metering r = (Ok reg, r') ->
  r' = assign r (b_BillID <$> binds) /\
  forall sch key id, StaticAuth_Auth (rg_auth reg) sch key = Some id <->
    exists b l, b ∈ binds /\ l ∈ b_Layers b /\ entry_of AuthKey (sch, key) l /\ r_bills r' !! b_BillID b = Some id.
Proof.
  intros Hc Hr Hb. unfold register_inbound. rewrite Hc, Hr. destruct binds as [|b0 binds]; [done|].
  destruct (add_bindings AuthKey (b0 :: binds) r NewStaticAuth) as [[a|] r1] eqn:E; [|done]. intros [= <- <-].
  destruct (add_bindings_ok AuthKey _ _ _ _ _ E) as [-> Hiff]. split; [done|]. intros sch key id. unfold StaticAuth_Auth. cbn [rg_auth].
  etrans; [apply (Hiff (sch, key) id)|]. split; [intros [Hn|?]; [|done]|by right].
  unfold NewStaticAuth, StaticAuth in Hn. by rewrite lookup_empty in Hn.
Qed.

(** [C14] An inbound authenticates exactly the users it should. Take a configuration whose
    users desugar, and an inbound of it whose protocol derives a key from a secret. After its
    bindings are registered, a key is accepted if and only if it is derived from a credential,
    for that protocol, of a user who may use the inbound; the connection is then billed to
    that user at that inbound; and two users never share a key. *)
Theorem users_authenticated users out ib p c AuthKey name scheme us metering r reg r' :
  Desugar scaled inboundNames stackProtos users = Ok out ->
  stackProtos !! ib = Some [p] ->
  CredentialCodec c = Some AuthKey -> UserRegistrar c = None ->
  let binds := filter (fun b => b_Inbound b = ib) out in
  binds <> [] -> bill_inv r -> Z.of_nat (size (r_bills r) + length binds) < 2 ^ 63 ->
  register_inbound scaled bucket c name scheme us binds metering r = (Ok reg, r') ->
  (forall sch key id, StaticAuth_Auth (rg_auth reg) sch key = Some id <->
     sch = p /\ exists u, authorised AuthKey users ib p u key /\ IDByBill r' (BillIDOf (u_Name u) ib) = Some id) /\
  (forall u1 u2 key, authorised AuthKey users ib p u1 key -> authorised AuthKey users ib p u2 key -> u_Name u1 = u_Name u2).
Proof.
  intros HD Hp Hc Hr binds Hne Hinv Hsz Hreg. destruct (register_codec _ _ _ _ _ _ _ _ _ _ Hc Hr Hne Hreg) as [Er' Htab].
  assert (forall b, b ∈ binds <-> b ∈ out /\ b_Inbound b = ib) as Hbinds by (intros b; unfold binds; rewrite list_elem_of_filter; tauto).
  assert (bill_inv r') as Hinv' by (subst r'; apply assign_inv; [done|by rewrite length_fmap]).
  assert (forall sch key id, StaticAuth_Auth (rg_auth reg) sch key = Some id <->
     sch = p /\ exists u, authorised AuthKey users ib p u key /\ IDByBill r' (BillIDOf (u_Name u) ib) = Some id) as Hacc.
  { intros sch key id. rewrite Htab. split.
    - intros (b & l & Hb%Hbinds & Hl & [E1 E2] & Hid). apply (binding_single _ _ _ _ _ HD Hp) in Hb as (u & v & Hu & Hm & Hv & _ & Eb).
      rewrite Eb in Hl, Hid. cbn in Hl, Hid. apply list_elem_of_singleton in Hl as ->. rewrite Key_layer_of in E2. rewrite Scheme_layer_of in E1.
      split; [done|]. exists u. split; [|done]. by split_and!; [..|exists v].
    - intros (-> & u & (Hu & Hm & v & Hv & Hk) & Hid).
      destruct (Desugar_limit _ _ _ _ _ u HD Hu) as [lim Hlim].
      set (b := mkBinding ib [layer_of p v] (BillIDOf (u_Name u) ib) (u_Name u) lim). exists b, (layer_of p v).
      split_and!; [apply Hbinds, (binding_single _ _ _ _ _ HD Hp); by exists u, v|by apply list_elem_of_singleton| |done].
      split; [symmetry; apply Scheme_layer_of|by rewrite Key_layer_of]. }
  split; [done|]. intros u1 u2 key H1 H2. apply (BillIDOf_name _ _ ib).
  assert (forall u, authorised AuthKey users ib p u key -> exists id, StaticAuth_Auth (rg_auth reg) p key = Some id /\ r_bills r' !! BillIDOf (u_Name u) ib = Some id) as Hget.
  { intros u (Hu & Hm & v & Hv & Hk). destruct (Desugar_limit _ _ _ _ _ u HD Hu) as [lim Hlim].
    set (b := mkBinding ib [layer_of p v] (BillIDOf (u_Name u) ib) (u_Name u) lim).
    assert (b ∈ binds) as Hb by (apply Hbinds, (binding_single _ _ _ _ _ HD Hp); by exists u, v).
    assert (is_Some (r_bills r' !! b_BillID b)) as [id Hid] by (subst r'; apply assign_has, list_elem_of_fmap; by exists b).
    exists id. split; [|done]. apply Hacc. split; [done|]. exists u. split; [|done]. by split_and!; [..|exists v]. }
  destruct (Hget u1 H1) as (id1 & A1 & B1), (Hget u2 H2) as (id2 & A2 & B2). rewrite A1 in A2. injection A2 as <-. by eapply bill_inj.
Qed.
End end_to_end.

(** ** Limits belong to the user *)

(** The shared unit [s] is that of the limits [l], and the cells of [ids] count in it. *)
Definition unit_ok (r : Registry) (ids : list Z) (l : Limits) (s : nat) : Prop :=
  exists g, r_shareds r !! s = Some (mkShared (L_MaxConns l) 0 0 (L_Rate l) g) /\
    (if 0 <? L_MaxIPs l then exists n, g = Some n /\ r_ipgs r !! n = Some (newIPGate (L_MaxIPs l)) else g = None) /\
    forall id, id ∈ ids -> exists c, r_cells r !! id = Some c /\ c_shared c = Some s /\ c_maxConns c = 0 /\ c_rate c = L_Rate l /\ c_ipg c = g.

(** What is older than [n] stays, in [r'], as it is in [r]; the cells outside [ids] too. *)
Definition keeps (n : nat) (ids : list Z) (r r' : Registry) : Prop :=
  (n <= r_fresh r')%nat /\ r_bills r' = r_bills r /\ r_labels r' = r_labels r /\
  (forall i, (i < n)%nat -> r_shareds r' !! i = r_shareds r !! i /\ r_ipgs r' !! i = r_ipgs r !! i) /\
  (forall id, id ∉ ids -> r_cells r' !! id = r_cells r !! id).

Definition attach (l : Limits) (g : option nat) (s : nat) (r : Registry) (id : Z) : Registry :=
  let '(c, r) := cell r id in set_cell r id (c_with_limits c 0 (L_Rate l) g (Some s)).

Lemma attach_fold l g s ids : forall r,
  let r' := foldl (attach l g s) r ids in
  r_shareds r' = r_shareds r /\ r_ipgs r' = r_ipgs r /\ r_fresh r' = r_fresh r /\ r_bills r' = r_bills r /\ r_labels r' = r_labels r /\
  (forall id, id ∈ ids -> exists c, r_cells r' !! id = Some c /\ c_shared c = Some s /\ c_maxConns c = 0 /\ c_rate c = L_Rate l /\ c_ipg c = g) /\
  (forall id, id ∉ ids -> r_cells r' !! id = r_cells r !! id).
Proof.
  induction ids as [|id ids IH] using rev_ind; intros r; [split_and!; [done..|intros ? Hi; by apply not_elem_of_nil in Hi|done]|].
  cbn zeta in *. rewrite foldl_app. cbn [foldl]. destruct (IH r) as (E1 & E2 & E3 & E4 & E5 & Hin & Hout). set (r0 := foldl (attach l g s) r ids) in *.
  unfold attach, cell. destruct (r_cells r0 !! id) as [c|] eqn:Ec; cbn; (split_and!; [done..| |]);
    intros id'; rewrite ?elem_of_app, ?not_elem_of_app, ?list_elem_of_singleton; intros Hid;
    destruct (decide (id' = id)) as [-> |Hne]; try tauto; rewrite ?lookup_insert_eq, ?lookup_insert_ne by done; try by eexists; split_and!.
  all: try (apply Hin; tauto). all: apply Hout; tauto.
Qed.

Lemma SetLimitsShared_ok r ids l : let r' := SetLimitsShared r ids l in
  exists s, (r_fresh r <= s < r_fresh r')%nat /\ unit_ok r' ids l s /\ keeps (r_fresh r) ids r r'.
Proof.
  cbn zeta. unfold SetLimitsShared. destruct (alloc_ipg r (L_MaxIPs l)) as [g r1] eqn:Eg.
  assert (r_cells r1 = r_cells r /\ r_shareds r1 = r_shareds r /\ r_bills r1 = r_bills r /\ r_labels r1 = r_labels r /\ (r_fresh r <= r_fresh r1)%nat /\
    (forall i, (i < r_fresh r)%nat -> r_ipgs r1 !! i = r_ipgs r !! i) /\
    (if 0 <? L_MaxIPs l then exists n, g = Some n /\ r_ipgs r1 !! n = Some (newIPGate (L_MaxIPs l)) else g = None)) as (C1 & C2 & C3 & C4 & C5 & C6 & C7).
  { unfold alloc_ipg in Eg. destruct (0 <? L_MaxIPs l); injection Eg as <- <-; cbn; split_and!; try done; try lia.
    - intros i Hi. by rewrite lookup_insert_ne by lia.
    - exists (r_fresh r). by rewrite lookup_insert_eq. }
  cbn [alloc_shared]. set (r2 := mkRegistry _ _ _ _ _ _ _ _ _ _). fold (attach l g (r_fresh r1)).
  destruct (attach_fold l g (r_fresh r1) ids r2) as (E1 & E2 & E3 & E4 & E5 & Hin & Hout). set (r' := foldl _ r2 ids) in *. cbn in E1, E2, E3, E4, E5.
  exists (r_fresh r1). split; [lia|]. split.
  - exists g. rewrite E1, E2. split_and!; [by rewrite lookup_insert_eq|done|done].
  - unfold keeps. rewrite E1, E2, E3, E4, E5. split_and!; [lia|done|done| |].
    + intros i Hi. rewrite lookup_insert_ne by lia. by rewrite C2, C6.
    + intros id Hid. rewrite Hout by done. cbn. by rewrite C1.
Qed.

Lemma unit_ok_keeps n ids ids' r r' l s : keeps n ids' r r' -> (s < n)%nat -> (forall m, (exists sl, r_shareds r !! s = Some sl /\ sl_ipg sl = Some m) -> (m < n)%nat) ->
  ids ## ids' -> unit_ok r ids l s -> unit_ok r' ids l s.
Proof.
  intros (_ & _ & _ & Hold & Hcells) Hs Hg Hdis (g & H1 & H2 & H3). exists g. split_and!.
  - destruct (Hold s Hs) as [-> _]. done.
  - destruct (0 <? L_MaxIPs l); [|done]. destruct H2 as (m & -> & Hm). exists m. split; [done|].
    assert (m < n)%nat as Hlt by (apply Hg; by exists (mkShared (L_MaxConns l) 0 0 (L_Rate l) (Some m))). destruct (Hold m Hlt) as [_ ->]. done.
  - intros id Hid. rewrite Hcells by (intros Hid'; by apply (Hdis id)). by apply H3.
Qed.

(** Units and gates in use are below the next fresh one. *)
Definition fresh_ok (r : Registry) : Prop :=
  (forall s sl, r_shareds r !! s = Some sl -> (s < r_fresh r)%nat /\ forall m, sl_ipg sl = Some m -> (m < r_fresh r)%nat).

Lemma fresh_ok_new : fresh_ok NewRegistry.
Proof. intros s sl Hs. cbn in Hs. by rewrite lookup_empty in Hs. Qed.

Lemma SetLimitsShared_fresh r ids l : fresh_ok r -> fresh_ok (SetLimitsShared r ids l).
Proof.
  intros Hf. unfold SetLimitsShared. destruct (alloc_ipg r (L_MaxIPs l)) as [g r1] eqn:Eg.
  assert (r_shareds r1 = r_shareds r /\ (r_fresh r <= r_fresh r1)%nat /\ forall m, g = Some m -> (m < r_fresh r1)%nat) as (C1 & C2 & C3).
  { unfold alloc_ipg in Eg. destruct (0 <? L_MaxIPs l); injection Eg as <- <-; cbn; split_and!; try done; try lia. intros m [= <-]. lia. }
  cbn [alloc_shared]. set (r2 := mkRegistry _ _ _ _ _ _ _ _ _ _). fold (attach l g (r_fresh r1)).
  destruct (attach_fold l g (r_fresh r1) ids r2) as (E1 & _ & E3 & _). intros s sl. rewrite E1, E3. cbn.
  intros [[<- <-]|[_ Hs]]%lookup_insert_Some; cbn.
  - split; [lia|]. intros m Hm%C3. lia.
  - rewrite C1 in Hs. destruct (Hf _ _ Hs) as [H1 H2]. split; [lia|]. intros m Hm%H2. lia.
Qed.

Section limits.
Context (bucket : Z -> nat).
Local Abbreviation entry := (bytes * (list credID * LimitRef))%type.
Definition ids_of (e : entry) : list credID := e.2.1.

Lemma apply_users_ok (es : list entry) : forall r,
  fresh_ok r -> (forall i j e1 e2, es !! i = Some e1 -> es !! j = Some e2 -> i <> j -> ids_of e1 ## ids_of e2) ->
  let r' := foldl (apply_user bucket) r es in
  fresh_ok r' /\ keeps (r_fresh r) (es ≫= ids_of) r r' /\
  exists us, NoDup us /\ Forall2 (fun e s => (r_fresh r <= s < r_fresh r')%nat /\ unit_ok r' (ids_of e) (to_Limits bucket e.2.2) s) es us.
Proof.
  induction es as [|e es IH] using rev_ind; intros r Hf Hdis; cbn zeta.
  { split; [done|]. split; [by split_and!|]. exists []. split; constructor. }
  rewrite foldl_app. cbn [foldl]. destruct (IH r Hf) as (Hf1 & Hk1 & us & Hnd & HF).
  { intros i j e1 e2 H1 H2. apply Hdis; rewrite lookup_app; [by rewrite H1|by rewrite H2]. }
  set (r1 := foldl (apply_user bucket) r es) in *. unfold apply_user. fold (ids_of e).
  destruct (SetLimitsShared_ok r1 (ids_of e) (to_Limits bucket e.2.2)) as (s & Hs & Hu & Hk2).
  pose proof (SetLimitsShared_fresh r1 (ids_of e) (to_Limits bucket e.2.2) Hf1) as Hf2. set (r2 := SetLimitsShared r1 _ _) in *.
  assert (Forall2 (fun e s => (r_fresh r <= s < r_fresh r2)%nat /\ unit_ok r2 (ids_of e) (to_Limits bucket e.2.2) s) es us) as HF2.
  { apply Forall2_same_length_lookup in HF as [Hlen HF]. apply Forall2_same_length_lookup. split; [done|]. intros i e1 s1 H1 H2.
    destruct (HF i e1 s1 H1 H2) as [Hr1 Hu1]. pose proof (proj1 Hk2) as Hfr. split; [lia|].
    eapply unit_ok_keeps; [exact Hk2|lia| | |exact Hu1].
    - intros m (sl & Hsl & Hm). by eapply (Hf1 s1 sl).
    - apply (Hdis i (length es) e1 e); [rewrite lookup_app; by rewrite H1|by rewrite list_lookup_middle|]. apply lookup_lt_Some in H1. lia. }
  split; [done|]. split.
  - destruct Hk1 as (A1 & A2 & A3 & A4 & A5), Hk2 as (B1 & B2 & B3 & B4 & B5). split_and!; [lia|congruence|congruence| |].
    + intros i Hi. destruct (A4 i Hi) as [<- <-]. apply B4. lia.
    + intros id Hid. rewrite bind_app in Hid. apply not_elem_of_app in Hid as [H1 H2]. cbn in H2. rewrite app_nil_r in H2. rewrite B5 by done. by apply A5.
  - exists (us ++ [s]). split.
    + apply NoDup_app. split_and!; [done| |apply NoDup_singleton]. intros x Hx ->%list_elem_of_singleton.
      apply list_elem_of_lookup in Hx as [i Hi]. destruct (Forall2_lookup_r _ _ _ _ _ HF Hi) as (e1 & _ & Hr1 & _). lia.
    + apply Forall2_app; [done|]. constructor; [|constructor]. split; [|done]. destruct Hk1 as (A1 & _). lia.
Qed.

(** The identifiers gathered for the user [n]. *)
Definition ids_for (m : gmap bytes (list credID * LimitRef)) (n : bytes) : list credID := default [] (fst <$> m !! n).

Lemma limits_by_user_ok binds : forall r m m' r', limits_by_user binds r m = (m', r') ->
  r' = assign r (b_BillID <$> filter (fun b => is_Some (b_Limit b)) binds) /\
  (forall n id, id ∈ ids_for m' n <-> id ∈ ids_for m n \/ exists b, b ∈ binds /\ b_Name b = n /\ is_Some (b_Limit b) /\ r_bills r' !! b_BillID b = Some id) /\
  (forall n l, snd <$> m' !! n = Some l -> snd <$> m !! n = Some l \/ exists b, b ∈ binds /\ b_Name b = n /\ b_Limit b = Some l) .
Proof.
  induction binds as [|b binds IH]; intros r m m' r'; cbn [limits_by_user].
  { intros [= <- <-]. split_and!; [done| |by left]. intros n id. split; [by left|]. intros [?|(b & Hb & _)]; [done|by apply not_elem_of_nil in Hb]. }
  destruct (b_Limit b) as [l0|] eqn:El.
  - pose proof (assign_get r (b_BillID b) (b_BillID <$> filter (fun b => is_Some (b_Limit b)) binds)) as Hget. rewrite assign_cons in Hget.
    destruct (IDForBill r (b_BillID b)) as [id0 r0] eqn:Eid. cbn [fst snd] in Hget. intros Hl. destruct (IH _ _ _ _ Hl) as (-> & H1 & H2).
    set (r' := assign r0 _) in *. split_and!.
    + rewrite filter_cons_True by (by rewrite El). by rewrite fmap_cons, assign_cons, Eid.
    + intros n id. rewrite H1. clear H1 H2. setoid_rewrite elem_of_cons.
      assert (id ∈ ids_for (<[b_Name b := (ids_for m (b_Name b) ++ [id0], l0)]> m) n <-> id ∈ ids_for m n \/ (n = b_Name b /\ id = id0)) as ->.
      { unfold ids_for at 1. destruct (decide (n = b_Name b)) as [-> |Hn].
        - rewrite lookup_insert_eq. cbn. rewrite elem_of_app, list_elem_of_singleton. tauto.
        - rewrite lookup_insert_ne by done. fold (ids_for m n). tauto. }
      split.
      * intros [[?|[-> ->]]|(b' & Hb' & Hrest)]; [by left| |]; right; [exists b|exists b'; split; [by right|done]].
        split_and!; [by left|done|by rewrite El|done].
      * intros [?|(b' & [-> |Hb'] & E1 & E2 & E3)]; [by left; left| |right; by exists b']. left. right. split; [done|].
        assert (Some id = Some id0) as [= ->] by (etrans; [symmetry; exact E3|exact Hget]). done.
    + intros n l Hm. destruct (H2 n l Hm) as [Hm'|(b' & Hb' & Hrest)]; [|right; exists b'; split; [by right|done]].
      destruct (decide (n = b_Name b)) as [-> |Hn].
      * rewrite lookup_insert_eq in Hm'. injection Hm' as <-. right. exists b. split_and!; [by left|done|done].
      * rewrite lookup_insert_ne in Hm' by done. by left.
  - intros Hl. destruct (IH _ _ _ _ Hl) as (-> & H1 & H2). rewrite filter_cons_False by (rewrite El; by intros [? ?]). split_and!; [done| |].
    + intros n id. rewrite H1. setoid_rewrite elem_of_cons. split.
      * intros [?|(b' & Hb' & Hrest)]; [by left|]. right. exists b'. split; [by right|done].
      * intros [?|(b' & [-> |Hb'] & E1 & E2 & E3)]; [by left| |right; by exists b']. rewrite El in E2. by destruct E2.
    + intros n l Hm. destruct (H2 n l Hm) as [?|(b' & Hb' & Hrest)]; [by left|]. right. exists b'. split; [by right|done].
Qed.

(** Bindings whose billing identities tell their users apart, each with his limits. *)
Record bindings_ok (binds : list CredBinding) : Prop := {
  bo_bill : forall b1 b2, b1 ∈ binds -> b2 ∈ binds -> b_BillID b1 = b_BillID b2 -> b_Name b1 = b_Name b2;
  bo_limit : forall b1 b2, b1 ∈ binds -> b2 ∈ binds -> b_Name b1 = b_Name b2 -> b_Limit b1 = b_Limit b2;
}.

(** The cell a binding's connections are counted in. *)
Definition cell_of (r : Registry) (b : CredBinding) (c : Cell) : Prop :=
  exists id, IDByBill r (b_BillID b) = Some id /\ r_cells r !! id = Some c.

Lemma IDForBill_fresh r b : fresh_ok r -> fresh_ok (IDForBill r b).2.
Proof. unfold IDForBill. by destruct (r_bills r !! b). Qed.
Lemma assign_fresh bills : forall r, fresh_ok r -> fresh_ok (assign r bills).
Proof. induction bills as [|b bills IH]; intros r Hr; [done|]. rewrite assign_cons. by apply IH, IDForBill_fresh. Qed.

(** The table of users, as the loop visits it, has one entry for every limited binding. *)
Lemma entry_for order binds r m r1 b l :
  (forall m, order m ≡ₚ map_to_list m) -> bindings_ok binds -> limits_by_user binds r ∅ = (m, r1) -> b ∈ binds -> b_Limit b = Some l ->
  exists i ids id, (order m : list entry) !! i = Some (b_Name b, (ids, l)) /\ r_bills r1 !! b_BillID b = Some id /\ id ∈ ids.
Proof.
  intros Hord Hok El Hb Hl. destruct (limits_by_user_ok _ _ _ _ _ El) as (Er1 & Hids & Hlim).
  assert (is_Some (r_bills r1 !! b_BillID b)) as [id Hid].
  { rewrite Er1. apply assign_has, list_elem_of_fmap. exists b. split; [done|]. apply list_elem_of_filter. by rewrite Hl. }
  assert (id ∈ ids_for m (b_Name b)) as Hin by (apply Hids; right; exists b; by rewrite Hl).
  unfold ids_for in Hin. destruct (m !! b_Name b) as [[ids l']|] eqn:Em; cbn in Hin; [|by apply not_elem_of_nil in Hin].
  destruct (Hlim (b_Name b) l') as [Hn|(b' & Hb' & En & El')]; [by rewrite Em|by rewrite lookup_empty in Hn|].
  rewrite (bo_limit _ Hok b' b Hb' Hb En), Hl in El'. injection El' as <-.
  assert ((b_Name b, (ids, l)) ∈ (order m : list entry)) as [i Hi]%list_elem_of_lookup by (rewrite Hord; by apply elem_of_map_to_list).
  by exists i, ids, id.
Qed.

Lemma entries_disjoint order binds r m r1 :
  (forall m, order m ≡ₚ map_to_list m) -> bindings_ok binds -> limits_by_user binds r ∅ = (m, r1) -> bill_inv r1 ->
  NoDup (order m).*1 /\ forall i j e1 e2, (order m : list entry) !! i = Some e1 -> order m !! j = Some e2 -> i <> j -> ids_of e1 ## ids_of e2.
Proof.
  intros Hord Hok El Hinv. destruct (limits_by_user_ok _ _ _ _ _ El) as (_ & Hids & _).
  assert (NoDup (order m).*1) as Hnd by (rewrite Hord; apply NoDup_fst_map_to_list). split; [done|].
  assert (forall i e id, (order m : list entry) !! i = Some e -> id ∈ ids_of e -> exists b, b ∈ binds /\ b_Name b = e.1 /\ r_bills r1 !! b_BillID b = Some id) as Hb.
  { intros i [n [ids l]] id Hi Hid. apply list_elem_of_lookup_2 in Hi. rewrite Hord in Hi. apply elem_of_map_to_list in Hi.
    destruct (proj1 (Hids n id)) as [Hn|(b & Hb & En & _ & Hx)]; [unfold ids_for; by rewrite Hi| |by exists b].
    unfold ids_for in Hn. rewrite lookup_empty in Hn. by apply not_elem_of_nil in Hn. }
  intros i j e1 e2 H1 H2 Hij id D1 D2. destruct (Hb i e1 id H1 D1) as (b1 & B1 & N1 & X1), (Hb j e2 id H2 D2) as (b2 & B2 & N2 & X2).
  apply Hij. eapply (NoDup_lookup (order m).*1); [done|rewrite list_lookup_fmap, H1; cbn; by rewrite <-N1|].
  rewrite list_lookup_fmap, H2. cbn. rewrite <-N2. f_equal. symmetry. apply (bo_bill _ Hok); [done|done|]. by eapply bill_inj.
Qed.

Lemma limits_applied order binds r :
  (forall m, order m ≡ₚ map_to_list m) -> bindings_ok binds -> bill_inv r -> fresh_ok r -> Z.of_nat (size (r_bills r) + length binds) < 2 ^ 63 ->
  let r' := apply_limits bucket order binds r in
  (forall b l, b ∈ binds -> b_Limit b = Some l -> exists c s, cell_of r' b c /\ c_shared c = Some s /\
     exists ids, unit_ok r' ids (to_Limits bucket l) s) /\
  (forall b1 b2 c1 c2, b1 ∈ binds -> b2 ∈ binds -> is_Some (b_Limit b1) -> is_Some (b_Limit b2) -> cell_of r' b1 c1 -> cell_of r' b2 c2 ->
     c_shared c1 = c_shared c2 <-> b_Name b1 = b_Name b2).
Proof.
  intros Hord Hok Hinv Hf Hsz. cbn zeta. unfold apply_limits. destruct (limits_by_user binds r ∅) as [m r1] eqn:El.
  assert (bill_inv r1 /\ fresh_ok r1) as [Hinv1 Hf1].
  { destruct (limits_by_user_ok _ _ _ _ _ El) as (-> & _). split; [|by apply assign_fresh]. apply assign_inv; [done|].
    rewrite length_fmap. pose proof (length_filter (fun b => is_Some (b_Limit b)) binds). lia. }
  destruct (entries_disjoint _ _ _ _ _ Hord Hok El Hinv1) as [Hnd Hdis].
  destruct (apply_users_ok (order m) r1 Hf1 Hdis) as (_ & (_ & Hbills & _) & us & Hus & HF). set (r' := foldl (apply_user bucket) r1 (order m)) in *.
  assert (forall b l, b ∈ binds -> b_Limit b = Some l -> exists i ids s c, (order m : list entry) !! i = Some (b_Name b, (ids, l)) /\ us !! i = Some s /\
    unit_ok r' ids (to_Limits bucket l) s /\ cell_of r' b c /\ c_shared c = Some s) as Hb.
  { intros b l Hb Hl. destruct (entry_for _ _ _ _ _ b l Hord Hok El Hb Hl) as (i & ids & id & Hi & Hid & Hin).
    destruct (Forall2_lookup_l _ _ _ _ _ HF Hi) as (s & Hs & _ & Hu). destruct Hu as (g & U1 & U2 & U3). destruct (U3 id Hin) as (c & Hc & Hsh & Hrest).
    exists i, ids, s, c. split_and!; [done|done|by exists g|exists id; split; [unfold IDByBill; by rewrite Hbills|done]|done]. }
  split; [intros b l Hin Hl; destruct (Hb b l Hin Hl) as (i & ids & s & c & _ & _ & Hu & Hc & Hs); exists c, s; by split_and!; [..|exists ids]|].
  intros b1 b2 c1 c2 Hb1 Hb2 [l1 L1] [l2 L2] C1 C2.
  destruct (Hb b1 l1 Hb1 L1) as (i1 & ids1 & s1 & c1' & E1 & S1 & _ & C1' & H1), (Hb b2 l2 Hb2 L2) as (i2 & ids2 & s2 & c2' & E2 & S2 & _ & C2' & H2).
  assert (forall b c c', cell_of r' b c -> cell_of r' b c' -> c = c') as Hfun by (intros b c c' (? & ? & ?) (? & ? & ?); congruence).
  rewrite (Hfun _ _ _ C1 C1'), (Hfun _ _ _ C2 C2'), H1, H2. split.
  - intros [= ->]. pose proof (NoDup_lookup _ _ _ _ Hus S1 S2) as ->. rewrite E1 in E2. by injection E2.
  - intros En. assert (i1 = i2) as <- by (apply (NoDup_lookup (order m).*1 i1 i2 (b_Name b1)); [done|rewrite list_lookup_fmap; exact (f_equal (fmap fst) E1)|rewrite list_lookup_fmap, En; exact (f_equal (fmap fst) E2)]).
    congruence.
Qed.

(** Taking a user's limits out of the configuration does not lift them: nothing is done for
    bindings without limits. *)
Lemma no_limits_kept order binds r : (forall m, order m ≡ₚ map_to_list m) -> (forall b, b ∈ binds -> b_Limit b = None) -> apply_limits bucket order binds r = r.
Proof.
  intros Hord Hnone. unfold apply_limits. assert (limits_by_user binds r ∅ = (∅, r)) as ->.
  { induction binds as [|b binds IH]; [done|]. cbn. rewrite (Hnone b) by set_solver. apply IH. set_solver. }
  assert (order ∅ = []) as -> by (apply Permutation_nil_r; rewrite Hord; by rewrite map_to_list_empty). done.
Qed.
End limits.

Section user_limits.
Context `{Unicode} (scaled : bytes -> Z -> option Z) (bucket : Z -> nat).
Context (inboundNames : gset bytes) (stackProtos : gmap bytes (list bytes)).

Lemma BillIDOf_inj n1 ib1 n2 ib2 : x40 ∉ n1 -> x40 ∉ n2 -> BillIDOf n1 ib1 = BillIDOf n2 ib2 -> n1 = n2.
Proof.
  unfold BillIDOf. revert n2. induction n1 as [|x n1 IH]; intros [|y n2] H1 H2 E; [done| | |].
  - injection E as <- _. set_solver.
  - injection E as -> _. set_solver.
  - injection E as -> E. f_equal. apply IH; set_solver.
Qed.

Lemma Desugar_bindings_ok users out :
  Desugar scaled inboundNames stackProtos users = Ok out -> (forall u, u ∈ users -> x40 ∉ u_Name u) -> bindings_ok out.
Proof.
  intros HD Hat. pose proof (Desugar_bindings _ _ _ _ _ HD) as Hb. pose proof (Desugar_names _ _ _ _ _ HD) as Hnd.
  split; intros b1 b2 B1 B2; apply Hb in B1 as (u1 & ib1 & Hu1 & _ & _ & L1 & _ & N1 & I1 & _), B2 as (u2 & ib2 & Hu2 & _ & _ & L2 & _ & N2 & I2 & _).
  - rewrite I1, I2, N1, N2. apply BillIDOf_inj; by apply Hat.
  - rewrite N1, N2. intros En. assert (u1 = u2) as ->; [|congruence].
    apply list_elem_of_lookup in Hu1 as [i Hi], Hu2 as [j Hj]. assert (i = j) as ->; [|congruence].
    eapply (NoDup_lookup (u_Name <$> users)); [done|by rewrite list_lookup_fmap, Hi|by rewrite list_lookup_fmap, Hj, En].
Qed.

End user_limits.

(** ** The tags of a session protocol's users *)

Lemma Itoa_no_hash n : 0 <= n < 10 ^ 20 -> forall b, b ∈ Itoa n -> b <> x23 /\ b <> x40.
Proof. intros Hn b Hb. destruct (Itoa_ok n Hn) as [_ Hd]. rewrite Forall_forall in Hd. specialize (Hd b Hb). split; intros ->; cbn in Hd; lia. Qed.

Lemma last_split (x : byte) (a1 b1 a2 b2 : bytes) : x ∉ b1 -> x ∉ b2 -> a1 ++ x :: b1 = a2 ++ x :: b2 -> a1 = a2 /\ b1 = b2.
Proof.
  intros H1 H2 E. apply app_eq_app in E as [l [[-> E]|[-> E]]]; (destruct l as [|y l]; cbn in E; [injection E as E; by rewrite app_nil_r|]);
    injection E as _ E; exfalso; set_solver.
Qed.

(** Tags of different keys differ, when the name of the inbound has no [#]. *)
Lemma tag_of_inj ib n1 n2 k1 k2 : x23 ∉ ib -> 0 <= k1 < 10 ^ 20 -> 0 <= k2 < 10 ^ 20 ->
  tag_of (BillIDOf n1 ib) k1 = tag_of (BillIDOf n2 ib) k2 -> BillIDOf n1 ib = BillIDOf n2 ib /\ k1 = k2.
Proof.
  intros Hib.
  assert (forall n n' k, 0 < k < 10 ^ 20 -> BillIDOf n ib ++ x23 :: Itoa k <> BillIDOf n' ib) as Hno.
  { unfold BillIDOf. intros n n' k Hk E. pose proof (Itoa_no_hash k ltac:(lia)) as Hd.
    apply app_eq_app in E as [l [[_ E]|[_ E]]].
    - assert (x23 ∈ x40 :: ib) as Hin by (rewrite E; set_solver). apply elem_of_cons in Hin as [|]; done.
    - assert (x40 ∈ x23 :: Itoa k) as Hin by (rewrite E; set_solver). apply elem_of_cons in Hin as [|Hin]; [done|]. by apply Hd in Hin as [_ ?]. }
  intros R1 R2. unfold tag_of. destruct (0 <? k1) eqn:E1, (0 <? k2) eqn:E2; to_prop; intros E.
  - apply last_split in E as [E Ek]; [|intros Hb; by apply Itoa_no_hash in Hb as [? _]..]. split; [done|].
    destruct (Itoa_ok k1 R1) as [<- _], (Itoa_ok k2 R2) as [<- _]. by rewrite Ek.
  - exfalso. eapply Hno; [|exact E]. lia.
  - exfalso. eapply Hno; [|symmetry; exact E]. lia.
  - split; [done|lia].
Qed.

(** The tags given to a list of bindings: number [n], from the count already seen, of a bill
    of theirs, with its identifier. *)
Lemma tagged_layers_ok bill id layers : forall seen, (forall b, 0 <= count_of seen b) ->
  let '(l, seen') := tagged_layers bill id layers seen in
  (forall b, count_of seen' b = count_of seen b + (if decide (b = bill) then Z.of_nat (length layers) else 0)) /\
  exists ks, l = zip_with (fun k la => (tag_of bill k, la, id)) ks layers /\ length ks = length layers /\ NoDup ks /\
    Forall (fun k => count_of seen bill <= k < count_of seen' bill) ks.
Proof.
  induction layers as [|la layers IH]; intros seen Hpos; cbn [tagged_layers].
  { split; [intros b; case_decide; cbn; lia|]. exists []. split_and!; [done|done|constructor|constructor]. }
  assert (forall b, count_of (<[bill := count_of seen bill + 1]> seen) b = count_of seen b + (if decide (b = bill) then 1 else 0)) as Hc.
  { intros b. unfold count_of at 1. case_decide as Hb; [subst b; by rewrite lookup_insert_eq|]. rewrite lookup_insert_ne by done. fold (count_of seen b). lia. }
  specialize (IH (<[bill := count_of seen bill + 1]> seen)). destruct (tagged_layers bill id layers _) as [l seen'].
  destruct IH as (H1 & ks & -> & H2 & H3 & H4); [intros b; rewrite Hc; specialize (Hpos b); case_decide; lia|]. split.
  - intros b. rewrite H1, Hc. cbn [length]. case_decide; lia.
  - assert (Forall (fun k => count_of seen bill + 1 <= k < count_of seen' bill) ks) as H4'.
    { eapply Forall_impl; [exact H4|]. intros k Hk. rewrite Hc, decide_True in Hk by done. lia. }
    exists (count_of seen bill :: ks). split_and!; [done|cbn; lia| |].
    + constructor; [|done]. intros Hin. rewrite Forall_forall in H4'. specialize (H4' _ Hin). lia.
    + constructor; [rewrite H1, Hc, !decide_True by done; lia|]. eapply Forall_impl; [exact H4'|]. cbn. lia.
Qed.

Lemma tagged_ok binds : forall r seen, (forall b, 0 <= count_of seen b) ->
  let '(l, r') := tagged binds r seen in
  r' = assign r (b_BillID <$> binds) /\ (fun t => t.1.2) <$> l = binds ≫= b_Layers /\
  exists g, NoDup g /\ Forall2 (fun t p => t.1.1 = tag_of p.1 p.2 /\ r_bills r' !! p.1 = Some t.2) l g /\
    Forall (fun p => p.1 ∈ b_BillID <$> binds /\ count_of seen p.1 <= p.2 < count_of seen p.1 + Z.of_nat (length (binds ≫= b_Layers))) g.
Proof.
  induction binds as [|b binds IH]; intros r seen Hpos; cbn [tagged].
  { split_and!; [done|done|]. exists []. split_and!; constructor. }
  pose proof (assign_get r (b_BillID b) (b_BillID <$> binds)) as Hget. rewrite assign_cons in Hget.
  destruct (IDForBill r (b_BillID b)) as [id r1] eqn:Eid. cbn [fst snd] in Hget.
  pose proof (tagged_layers_ok (b_BillID b) id (b_Layers b) seen Hpos) as HL. destruct (tagged_layers (b_BillID b) id (b_Layers b) seen) as [l seen'].
  destruct HL as (Hc & ks & -> & Hlen & Hnd & Hks). specialize (IH r1 seen'). destruct (tagged binds r1 seen') as [rest r'].
  destruct IH as (-> & Hlay & g & Hg & HF & Hr); [intros x; rewrite Hc; specialize (Hpos x); case_decide; lia|].
  set (r' := assign r1 _) in *. cbn [mbind list_bind]. split_and!.
  - by rewrite fmap_cons, assign_cons, Eid.
  - rewrite fmap_app, Hlay. f_equal. clear -Hlen. revert Hlen. generalize (b_Layers b) as la. induction ks as [|k ks IH]; intros [|x la]; cbn; try done.
    intros [= E]. f_equal. by apply IH.
  - exists (((fun k => (b_BillID b, k)) <$> ks) ++ g). split_and!.
    + apply NoDup_app. split_and!; [apply NoDup_fmap_2; [intros ? ? [=]; done|done]| |done].
      intros p (k & -> & Hk)%list_elem_of_fmap Hp. pose proof (proj1 (Forall_forall _ _) Hks k Hk) as Hk'. destruct (proj1 (Forall_forall _ _) Hr _ Hp) as [_ Hr']. cbn in Hr', Hk'. lia.
    + apply Forall2_app; [|done]. apply Forall2_same_length_lookup. split; [rewrite length_zip_with, length_fmap; lia|].
      intros i t p Ht Hp. rewrite list_lookup_fmap in Hp. rewrite lookup_zip_with in Ht. destruct (ks !! i) as [k|]; [|done]. injection Hp as <-.
      cbn in Ht. destruct (b_Layers b !! i) as [la|]; [|done]. injection Ht as <-. done.
    + rewrite length_app. apply Forall_app. split; apply Forall_forall.
      * intros p (k & -> & Hk)%list_elem_of_fmap. pose proof (proj1 (Forall_forall _ _) Hks k Hk) as Hk'. cbn in Hk'. rewrite Hc, decide_True in Hk' by done. cbn. split; [set_solver|lia].
      * intros p Hp. destruct (proj1 (Forall_forall _ _) Hr p Hp) as [H1 H2]. rewrite Hc in H2. split; [set_solver|]. case_decide; lia.
Qed.

Lemma refs_lookup (l : list (bytes * AuthLayer * credID)) : NoDup ((fun t => t.1.1) <$> l) -> forall (m : gmap bytes credID) t, t ∈ l ->
  foldl (fun m t => <[t.1.1 := t.2]> m) m l !! t.1.1 = Some t.2.
Proof.
  induction l as [|t0 l IH]; intros Hnd m t Ht; [by apply not_elem_of_nil in Ht|]. cbn in Hnd |- *. apply NoDup_cons in Hnd as [Hn Hnd].
  apply elem_of_cons in Ht as [-> |Ht]; [|by apply IH].
  assert (forall l (m : gmap bytes credID) x, x ∉ (fun t : bytes * AuthLayer * credID => t.1.1) <$> l -> foldl (fun m t => <[t.1.1 := t.2]> m) m l !! x = m !! x) as Hkeep.
  { clear. induction l as [|t l IH]; intros m x Hx; [done|]. cbn in Hx |- *. apply not_elem_of_cons in Hx as [Hx Hx']. rewrite IH by done. by rewrite lookup_insert_ne. }
  rewrite Hkeep by done. apply lookup_insert_eq.
Qed.

(** A session protocol is given every key of every binding once, under a tag of its own,
    and a connection that authenticates with the key is read back as the binding's identity. *)
Theorem session_users_read_back ib binds r metering users refs r' :
  x23 ∉ ib -> (forall b, b ∈ binds -> exists n, b_BillID b = BillIDOf n ib) -> Z.of_nat (length (binds ≫= b_Layers)) < 10 ^ 20 ->
  sessionUsersFromBinds binds r metering = (Ok (users, refs), r') ->
  (fun u => (su_Secret u, su_Fields u)) <$> users = (fun l => (Key l, Fields l)) <$> (binds ≫= b_Layers) /\
  NoDup (su_Tag <$> users) /\
  forall u, u ∈ users -> exists bill k id, bill ∈ b_BillID <$> binds /\ su_Tag u = tag_of bill k /\ refs !! su_Tag u = Some id /\ IDByBill r' bill = Some id.
Proof.
  intros Hib Hbill Hlen. unfold sessionUsersFromBinds. destruct (list_find _ binds) as [[i b]|]; [done|].
  assert (forall b, 0 <= count_of ∅ b) as H0 by (intros b; unfold count_of; by rewrite lookup_empty).
  pose proof (tagged_ok binds r ∅ H0) as HT. destruct (tagged binds r ∅) as [l r1]. intros [= <- <- <-].
  destruct HT as (-> & Hlay & g & Hg & HF & Hr). set (r' := assign r _) in *.
  assert (NoDup ((fun t : bytes * AuthLayer * credID => t.1.1) <$> l)) as Hnd.
  { assert ((fun t : bytes * AuthLayer * credID => t.1.1) <$> l = (fun p => tag_of p.1 p.2) <$> g) as ->.
    { clear -HF. induction HF as [|t p l g [E _] _ IH]; [done|]. cbn. by f_equal. }
    apply NoDup_fmap_2_strong; [|done]. intros [b1 k1] [b2 k2] H1 H2 E. rewrite Forall_forall in Hr. apply Hr in H1 as [B1 R1], H2 as [B2 R2]. cbn in *.
    apply list_elem_of_fmap in B1 as (x1 & -> & [n1 N1]%Hbill), B2 as (x2 & -> & [n2 N2]%Hbill).
    unfold count_of in R1, R2. rewrite lookup_empty in R1, R2. cbn in R1, R2. rewrite N1, N2 in *. apply tag_of_inj in E as [-> ->]; [done|done|lia|lia]. }
  split_and!.
  - rewrite <-Hlay, <-!list_fmap_compose. done.
  - by rewrite <-list_fmap_compose.
  - intros u (t & -> & Ht)%list_elem_of_fmap. cbn. pose proof Ht as [i Hi]%list_elem_of_lookup.
    destruct (Forall2_lookup_l _ _ _ _ _ HF Hi) as ([bill k] & Hp & E & Hid). rewrite Forall_forall in Hr.
    destruct (Hr (bill, k)) as [Hin _]; [by eapply list_elem_of_lookup_2|]. exists bill, k, t.2. split_and!; [done|done|by apply refs_lookup|done].
Qed.

(** ** The configuration of [Users.Examples], registered *)

Module Examples.
Import Users.Examples.
#[local] Existing Instance ascii.
Definition in_v : list CredBinding := filter (fun b => b_Inbound b = bs "vless-in") out.
Definition caps : Caps := mkCaps None (Some (fun s => Some s)) false.
Definition built : res registerErr Registered * Registry := register_inbound kbps Z.to_nat caps (bs "vless-in") (bs "vless") [] in_v true NewRegistry.
Definition table : Registered := match built.1 with Ok g => g | Err _ => mkReg ∅ [] None end.

Lemma users_authenticated_witness :
  (forall sch key id, StaticAuth_Auth (rg_auth table) sch key = Some id <->
     sch = bs "vless" /\ exists u, authorised names (fun s => Some s) users (bs "vless-in") (bs "vless") u key /\ IDByBill built.2 (BillIDOf (u_Name u) (bs "vless-in")) = Some id) /\
  StaticAuth_Auth (rg_auth table) (bs "vless") (bs "k3") = Some (UserBase + 2).
Proof.
  split; [|vm_compute; reflexivity].
  refine (proj1 (users_authenticated kbps Z.to_nat names protos users out (bs "vless-in") (bs "vless") caps (fun s => Some s) (bs "vless-in") (bs "vless") [] true NewRegistry table built.2 _ _ _ _ _ bill_inv_new _ _)).
  all: try (vm_compute; reflexivity). vm_compute. discriminate.
Defined.

(** A composite key given to a protocol that derives its key from one secret registers the
    empty secret: the table then admits whoever presents its key. *)
Definition carol : User := mkUser (bs "carol") [] [] {[bs "trojan" := mkKeySpec [] [{[bs "password" := bs "pw"]}]]} [] 0 0 [].
Definition trojan_in : res configErr (list CredBinding) := Desugar kbps {[bs "t"]} {[bs "t" := [bs "trojan"]]} [carol].
Definition trojan_caps : Caps := mkCaps None (Some (fun s => Some (Trojan.AuthKey s))) false.

Example composite_key_is_the_empty_password :
  match trojan_in with
  | Ok binds =>
      match register_inbound kbps Z.to_nat trojan_caps (bs "t") (bs "trojan") [] binds true NewRegistry with
      | (Ok g, r) => StaticAuth_Auth (rg_auth g) (bs "trojan") (Trojan.Key []) = Some (UserBase + 1) /\ Bill r (UserBase + 1) = bs "carol@t" /\
                     StaticAuth_Auth (rg_auth g) (bs "trojan") (Trojan.Key (bs "pw")) = None
      | _ => False
      end
  | Err _ => False
  end.
Proof. vm_compute. done. Qed.

(** A rebuild that fails has already changed the limits of the running registry. *)
Definition old_user (conns : Z) (secret : bytes) : gmap bytes yval := {[bs "password" := YString secret; bs "max-conns" := YInt conns]}.
Definition strict_caps : Caps := mkCaps None (Some (fun s => if bool_decide (s = bs "bad") then None else Some s)) false.
Definition running : Registry := (register_inbound kbps Z.to_nat strict_caps (bs "in") (bs "socks") [old_user 5 (bs "pw")] [] true NewRegistry).2.

Example failed_rebuild_changes_limits :
  let '(res, r) := register_inbound kbps Z.to_nat strict_caps (bs "in") (bs "socks") [old_user 1 (bs "pw"); old_user 1 (bs "bad")] [] true running in
  res = Err (errUserKey 1) /\ c_maxConns <$> r_cells running !! (UserBase + 1) = Some 5 /\ c_maxConns <$> r_cells r !! (UserBase + 1) = Some 1.
Proof. vm_compute. done. Qed.

Definition limited : Registry := apply_limits Z.to_nat map_to_list out NewRegistry.

End Examples.
