(* ===== verification/Reload.v ===== *)
(** * Inbounds and their reloading ([config/config.go], [cmd/ntr/main.go])

    How an inbound is named and where it listens, which of them take credentials, the
    instances a configuration is built into, and the manager that brings the running ones in
    line with a new configuration. *)
From S2P Require Import Prelude GoStd AddrText MuxClient Users.
From Stdlib Require Import Init.Byte.

Section reload.
(** The rest of an inbound's configuration, and the settings common to all. *)
Context {Rest Lifecycle : Type}.
(** [registry.Lookup] of a proxy protocol, [registry.LookupSession] of one with an inbound. *)
Context (isProxyProto sessionInbound : bytes -> bool).

(** ** Names and addresses *)

Record Inbound := mkInbound { in_Name : bytes; in_Type : bytes; in_Listen : bytes; in_Port : Z; in_IfName : bytes; in_rest : Rest }.

Definition listenAddr (i : Inbound) : bytes :=
  if in_Port i =? 0 then in_Listen i
  else match SplitHostPort (in_Listen i) with
       | Some _ => in_Listen i
       | None => JoinHostPort (match in_Listen i with [] => bs "0.0.0.0" | h => h end) (Itoa (in_Port i))
       end.

Definition inboundName (i : Inbound) : bytes := match in_Name i with [] => listenAddr i | n => n end.

Definition newFormat (i : Inbound) : bool := isProxyProto (in_Type i).

Definition authProto (i : Inbound) : bytes :=
  if newFormat i then in_Type i else if sessionInbound (in_Type i) then in_Type i else [].

(** ** The tables [Desugar] is given *)

Inductive namingErr := errInboundNoName (n : nat) | errInboundDup (name : bytes).

Fixpoint name_inbounds (n : nat) (ins : list Inbound) (names : gset bytes) (protos : gmap bytes (list bytes))
  : res namingErr (gset bytes * gmap bytes (list bytes)) :=
  match ins with
  | [] => Ok (names, protos)
  | i :: ins =>
      if newFormat i && bool_decide (in_Name i = []) then Err (errInboundNoName n)
      else
        let name := inboundName i in
        if bool_decide (name = []) then name_inbounds (S n) ins names protos
        else if bool_decide (name ∈ names) then Err (errInboundDup name)
        else name_inbounds (S n) ins ({[name]} ∪ names)
               (match authProto i with [] => protos | p => <[name := [p]]> protos end)
  end.

(** ** Instances *)

(** What an inbound runs with: its configuration and its bindings. *)
Definition service : Type := Inbound * list CredBinding.

Record Instance := mkInstance { i_Listen : bytes; i_Hash : bytes; i_service : service }.

Definition is_tun (i : Inbound) : bool := bool_decide (in_Type i = bs "tun").

(** Where the instance of an inbound listens: the address it is started under. *)
Definition instance_listen (i : Inbound) : bytes := if is_tun i then bs "tun:" ++ in_IfName i else listenAddr i.

(** The key its hash is entered under. *)
Definition hash_key (i : Inbound) : bytes := if is_tun i then bs "tun:" ++ in_IfName i else in_Listen i.

Definition binds_of (bindings : list CredBinding) (i : Inbound) : list CredBinding := filter (fun b => b_Inbound b = inboundName i) bindings.

(** [hashOf]: YAML, then SHA-256. *)
Context (hashOf : Inbound * list CredBinding * Lifecycle -> bytes).

Definition inboundHash (lc : Lifecycle) (bindings : list CredBinding) (ins : list Inbound) : gmap bytes bytes :=
  foldl (fun m i => <[hash_key i := hashOf (i, binds_of bindings i, lc)]> m) ∅ ins.

(** [Build] starts a copy of the inbound that holds the address it listens at. *)
Definition with_listen (i : Inbound) : Inbound := mkInbound (in_Name i) (in_Type i) (listenAddr i) (in_Port i) (in_IfName i) (in_rest i).

(** The instances of the inbounds, with their hashes; the hashes are of the inbounds as
    written. *)
Definition instances (lc : Lifecycle) (bindings : list CredBinding) (ins : list Inbound) : list Instance :=
  let h := inboundHash lc bindings ins in
  (fun i => mkInstance (instance_listen i) (default [] (h !! instance_listen i)) (with_listen i, binds_of bindings (with_listen i))) <$> ins.

(** ** The manager *)

(** A running instance: its hash, what it runs with, and which reload started it. *)
Record activeInst := mkActive { a_hash : bytes; a_service : service; a_started : nat }.

Definition wanted (insts : list Instance) : gmap bytes Instance := foldl (fun m i => <[i_Listen i := i]> m) ∅ insts.

Definition unchanged (want : gmap bytes Instance) (e : bytes * activeInst) : Prop := i_Hash <$> want !! e.1 = Some (a_hash e.2).
#[global] Instance unchanged_dec want e : Decision (unchanged want e).
Proof. unfold unchanged. apply _. Defined.

(** The active instances afterwards, and how many were started and stopped. All stops come
    before the first start. *)
Definition apply (n : nat) (active : gmap bytes activeInst) (insts : list Instance) : gmap bytes activeInst * nat * nat :=
  let want := wanted insts in
  let kept := filter (unchanged want) active in
  let started := filter (fun e => kept !! e.1 = None) want in
  (kept ∪ ((fun i => mkActive (i_Hash i) (i_service i) n) <$> started), size started, (size active - size kept)%nat).

(** ** Addresses written once more *)

Lemma LastIndexByte_last x a b : x ∉ b -> LastIndexByte (a ++ x :: b) x = Some (length a).
Proof.
  intros Hb. assert (LastIndexByte b x = None) as Hn.
  { clear a. induction b as [|y b IH]; [done|]. cbn. rewrite IH by set_solver. by rewrite bool_decide_false by set_solver. }
  induction a as [|y a IH]; cbn; [|by rewrite IH]. rewrite Hn. by rewrite bool_decide_true.
Qed.
Lemma IndexByte_first x a b : x ∉ a -> IndexByte (a ++ x :: b) x = Some (length a).
Proof. induction a as [|y a IH]; intros Ha; cbn; [by rewrite bool_decide_true|]. rewrite bool_decide_false by set_solver. rewrite IH by set_solver. done. Qed.
Lemma existsb_absent x s : x ∉ s -> existsb (Byte.eqb x) s = false.
Proof.
  induction s as [|y s IH]; intros Hs; cbn; [done|]. rewrite IH by set_solver. rewrite orb_false_r. destruct (Byte.eqb x y) eqn:E; [|done].
  apply Byte.byte_dec_bl in E. set_solver.
Qed.

(** An address put together is one with a port. *)
Lemma SplitHostPort_Join h p : x5b ∉ h -> x5d ∉ h -> x3a ∉ p -> x5b ∉ p -> x5d ∉ p -> SplitHostPort (JoinHostPort h p) = Some (h, p).
Proof.
  intros H1 H2 P1 P2 P3. unfold JoinHostPort. destruct (IndexByte h x3a) as [i|] eqn:E.
  - assert (x5b :: h ++ x5d :: x3a :: p = (x5b :: h ++ [x5d]) ++ x3a :: p) as Es by (cbn; by rewrite <-app_assoc).
    assert (x5b :: h ++ x5d :: x3a :: p = (x5b :: h) ++ x5d :: x3a :: p) as Es' by done.
    unfold SplitHostPort. rewrite Es at 1. rewrite LastIndexByte_last by done. rewrite Es'. rewrite IndexByte_first by set_solver.
    cbn [length app]. rewrite length_app. cbn [length]. replace ((S (length h) + 1 =? S (length h + 1))%nat) with true by (symmetry; apply Nat.eqb_eq; lia).
    cbn [negb]. rewrite existsb_absent by (cbn [drop]; set_solver).
    replace (drop (S (length h) + 1) (x5b :: h ++ x5d :: x3a :: p)) with (x3a :: p).
    2:{ rewrite Es. rewrite drop_app_ge by (cbn; rewrite length_app; cbn; lia). cbn [length]. rewrite length_app. cbn [length].
        replace (S (length h) + 1 - S (length h + 1))%nat with O by lia. done. }
    rewrite existsb_absent by set_solver. f_equal. f_equal.
    + cbn [take drop]. by rewrite take_app_length.
    + rewrite Es. rewrite drop_app_ge by (cbn; rewrite length_app; cbn; lia). cbn [length]. rewrite length_app. cbn [length].
      replace (S (length h + 1) + 1 - S (length h + 1))%nat with 1%nat by lia. done.
  - apply IndexByte_None in E. unfold SplitHostPort. rewrite LastIndexByte_last by done.
    assert (forall A (f g : A), match h ++ x3a :: p with x5b :: _ => f | _ => g end = g) as Hm.
    { intros A f g. destruct h as [|y h]; [done|]. cbn. destruct y; try done. set_solver. }
    rewrite Hm. rewrite take_app_length, existsb_absent by done. rewrite !existsb_absent by set_solver. cbn [orb].
    f_equal. f_equal. rewrite drop_app_ge by lia. replace (length h + 1 - length h)%nat with 1%nat by lia. done.
Qed.

Lemma Itoa_plain n b : 0 <= n < 10 ^ 20 -> b ∈ Itoa n -> 48 <= b2z b <= 57.
Proof. intros Hn. destruct (Itoa_ok n Hn) as [_ Hd]. rewrite Forall_forall in Hd. apply Hd. Qed.

(** Naming and starting work on different copies of an inbound: they agree on its address,
    and so on its name and bindings. *)
Lemma listenAddr_idempotent i : x5b ∉ in_Listen i -> x5d ∉ in_Listen i -> 0 <= in_Port i < 65536 -> listenAddr (with_listen i) = listenAddr i.
Proof.
  intros H1 H2 Hp. unfold listenAddr at 1. cbn. unfold listenAddr. destruct (in_Port i =? 0); [done|].
  destruct (SplitHostPort (in_Listen i)) as [hp|] eqn:E; [by rewrite E|].
  rewrite SplitHostPort_Join; [done| | |intros Hb%Itoa_plain; cbn in Hb; lia..]; destruct (in_Listen i); try done.
  all: intros Hin; vm_compute in Hin; set_solver.
Qed.

(** ** What [apply] leaves running *)

Lemma wanted_lookup insts : forall i, NoDup (i_Listen <$> insts) -> i ∈ insts -> wanted insts !! i_Listen i = Some i.
Proof.
  intros i Hnd Hi. unfold wanted. assert (forall m : gmap bytes Instance, foldl (fun m i => <[i_Listen i := i]> m) m insts !! i_Listen i = Some i) as H; [|apply H].
  revert Hnd Hi. induction insts as [|j insts IH]; intros Hnd Hi m; [by apply not_elem_of_nil in Hi|]. cbn in *. apply NoDup_cons in Hnd as [Hj Hnd].
  apply elem_of_cons in Hi as [-> |Hi]; [|by apply IH].
  assert (forall l (m : gmap bytes Instance), i_Listen j ∉ i_Listen <$> l -> foldl (fun m i => <[i_Listen i := i]> m) m l !! i_Listen j = m !! i_Listen j) as Hk.
  { clear. induction l as [|k l IH]; intros m Hl; [done|]. cbn in *. apply not_elem_of_cons in Hl as [Hne Hl]. rewrite IH by done. by rewrite lookup_insert_ne. }
  rewrite Hk by done. apply lookup_insert_eq.
Qed.

(** What runs at an address after [apply]: nothing that is not wanted, what ran before if the
    hash is the same, what is wanted otherwise. *)
Lemma apply_lookup n active insts l :
  (apply n active insts).1.1 !! l =
  match wanted insts !! l with
  | None => None
  | Some i => match active !! l with
              | Some a => if decide (a_hash a = i_Hash i) then Some a else Some (mkActive (i_Hash i) (i_service i) n)
              | None => Some (mkActive (i_Hash i) (i_service i) n)
              end
  end.
Proof.
  unfold apply. cbn [fst]. set (want := wanted insts). set (kept := filter (unchanged want) active). rewrite lookup_union.
  rewrite lookup_fmap. destruct (want !! l) as [i|] eqn:Ew.
  - assert (kept !! l = match active !! l with Some a => if decide (a_hash a = i_Hash i) then Some a else None | None => None end) as Hk.
    { unfold kept. rewrite map_lookup_filter. destruct (active !! l) as [a|]; [|done]. cbn.
      unfold guard. case_decide as H1; pose proof H1 as H2; unfold unchanged in H2; cbn in H2; rewrite Ew in H2; cbn in H2; destruct (decide (a_hash a = i_Hash i)); done || congruence. }
    assert (filter (fun e => kept !! e.1 = None) want !! l = match kept !! l with Some _ => None | None => Some i end) as Hs.
    { rewrite map_lookup_filter, Ew. cbn. destruct (kept !! l) eqn:E; unfold guard; case_decide as H1; try done. }
    rewrite Hs, Hk. destruct (active !! l) as [a|]; [|done]. by destruct (decide (a_hash a = i_Hash i)).
  - assert (kept !! l = None) as ->.
    { unfold kept. rewrite map_lookup_filter. destruct (active !! l) as [a|]; [|done]. cbn. unfold guard. case_decide as H1; [|done].
      pose proof H1 as H2. unfold unchanged in H2. cbn in H2. by rewrite Ew in H2. }
    rewrite map_lookup_filter, Ew. done.
Qed.

(** ** Names *)

(** The tables [Desugar] gets: the inbounds that have a name, all different, and the protocol
    of each that takes credentials. *)
Lemma name_inbounds_ok ins : forall n names protos names' protos', name_inbounds n ins names protos = Ok (names', protos') -> dom protos ⊆ names ->
  names' = list_to_set (filter (fun x => x <> []) (inboundName <$> ins)) ∪ names /\
  NoDup (filter (fun x => x <> []) (inboundName <$> ins)) /\ (forall i, i ∈ ins -> inboundName i <> [] -> inboundName i ∉ names) /\
  (forall i, i ∈ ins -> newFormat i = true -> in_Name i <> []) /\
  (forall x p, x ∉ names -> protos' !! x = Some p <-> exists i, i ∈ ins /\ inboundName i = x /\ x <> [] /\ authProto i <> [] /\ p = [authProto i]) /\
  (forall x, x ∈ names -> protos' !! x = protos !! x).
Proof.
  induction ins as [|i ins IH]; intros n names protos names' protos'; cbn [name_inbounds].
  { intros [= <- <-] Hd. split_and!; [cbn; set_solver|constructor|intros ? Hi; by apply not_elem_of_nil in Hi|intros ? Hi; by apply not_elem_of_nil in Hi| |done].
    intros x p Hx. split; [|intros (i & Hi & _); by apply not_elem_of_nil in Hi]. intros Hp. apply elem_of_dom_2 in Hp. set_solver. }
  destruct (newFormat i && bool_decide (in_Name i = [])) eqn:En; [done|].
  assert (newFormat i = true -> in_Name i <> []) as Hname.
  { intros Hf. rewrite Hf in En. cbn in En. by apply bool_decide_eq_false in En. }
  clear En. rewrite fmap_cons, filter_cons. case_bool_decide as Hx.
  - intros Hl Hd. destruct (IH _ _ _ _ _ Hl Hd) as (H1 & H2 & H3 & H4 & H5 & H6). rewrite decide_False by (by intros ?). split_and!; [done|done| | | |done].
    + intros j [-> |Hj]%elem_of_cons Hn; [done|by apply H3].
    + intros j [-> |Hj]%elem_of_cons; [done|by apply H4].
    + intros x p Hxn. rewrite H5 by done. setoid_rewrite elem_of_cons. split; [intros (j & Hj & Hr); exists j; by split; [right|]|].
      intros (j & [-> |Hj] & E & Hne & Hr); [congruence|by exists j].
  - case_bool_decide as Hin; [done|]. match goal with |- name_inbounds _ _ _ ?q = _ -> _ => set (protos1 := q) end.
    intros Hl Hd. assert (forall x, x ∈ ({[inboundName i]} ∪ names : gset bytes) <-> x = inboundName i \/ x ∈ names) as Hmem by (clear; set_solver).
    assert (dom protos1 ⊆ {[inboundName i]} ∪ names) as Hd1.
    { intros x Hm. apply Hmem. unfold protos1 in Hm. destruct (authProto i); [right; by apply Hd|].
      apply dom_insert, elem_of_union in Hm as [->%elem_of_singleton|Hm]; [by left|right; by apply Hd]. }
    destruct (IH _ _ _ _ _ Hl Hd1) as (H1 & H2 & H3 & H4 & H5 & H6). rewrite decide_True by done. split_and!.
    + rewrite H1. cbn. clear. set_solver.
    + constructor; [|done]. rewrite list_elem_of_filter, list_elem_of_fmap. intros (_ & j & E & Hj). apply (H3 j Hj); rewrite <-E; [done|apply Hmem; by left].
    + intros j [-> |Hj]%elem_of_cons Hn; [done|]. intros Hin'. apply (H3 j Hj Hn), Hmem. by right.
    + intros j [-> |Hj]%elem_of_cons; [done|by apply H4].
    + intros x p Hxn. destruct (decide (x = inboundName i)) as [-> |Hne].
      * rewrite H6 by (apply Hmem; by left). unfold protos1. split.
        -- destruct (authProto i) as [|c a] eqn:Ea; [intros Hp; apply elem_of_dom_2, Hd in Hp; done|]. rewrite lookup_insert_eq. intros [= <-].
           exists i. rewrite Ea. split_and!; [by apply elem_of_cons; left|done..].
        -- intros (j & Hj & E & Hne & Ha & ->). apply elem_of_cons in Hj as [-> |Hj]; [destruct (authProto i); [done|by rewrite lookup_insert_eq]|].
           exfalso. apply (H3 j Hj); rewrite E; [done|apply Hmem; by left].
      * rewrite H5 by (rewrite Hmem; tauto). setoid_rewrite elem_of_cons. split; [intros (j & Hj & Hr); exists j; by split; [right|]|].
        intros (j & [-> |Hj] & E & Hr); [congruence|by exists j].
    + intros x Hxn. rewrite H6 by (apply Hmem; by right). unfold protos1. destruct (authProto i); [done|]. rewrite lookup_insert_ne; [done|]. intros <-. done.
Qed.

(** ** Two configurations in turn *)

Record Config := mkConfig { cf_lifecycle : Lifecycle; cf_bindings : list CredBinding; cf_inbounds : list Inbound }.

Definition build (c : Config) : list Instance := instances (cf_lifecycle c) (cf_bindings c) (cf_inbounds c).
Definition hash_at (c : Config) (l : bytes) : bytes := default [] (inboundHash (cf_lifecycle c) (cf_bindings c) (cf_inbounds c) !! l).
Definition service_of (c : Config) (i : Inbound) : service := (with_listen i, binds_of (cf_bindings c) (with_listen i)).

(** No two inbounds at one address. *)
Definition addresses_ok (c : Config) : Prop := NoDup (instance_listen <$> cf_inbounds c).

(** The configuration, started; then another one, loaded. *)
Definition started (c : Config) : gmap bytes activeInst := (apply 0 ∅ (build c)).1.1.
Definition reloaded (c c' : Config) : gmap bytes activeInst := (apply 1 (started c) (build c')).1.1.

Lemma build_wanted c i : addresses_ok c -> i ∈ cf_inbounds c ->
  wanted (build c) !! instance_listen i = Some (mkInstance (instance_listen i) (hash_at c (instance_listen i)) (service_of c i)).
Proof.
  intros Hok Hi. set (x := mkInstance _ _ _). change (instance_listen i) with (i_Listen x) at 1. apply wanted_lookup.
  - unfold build, instances. rewrite <-list_fmap_compose. done.
  - unfold build, instances. apply list_elem_of_fmap. by exists i.
Qed.

Lemma inboundHash_fold lc binds l ins : forall m : gmap bytes bytes,
  (forall i, i ∈ ins -> hash_key i <> l) -> foldl (fun m i => <[hash_key i := hashOf (i, binds_of binds i, lc)]> m) m ins !! l = m !! l.
Proof.
  induction ins as [|i ins IH]; intros m Hi; [done|]. cbn. rewrite IH by (intros j Hj; apply Hi; by apply elem_of_cons; right).
  rewrite lookup_insert_ne; [done|]. apply Hi. apply elem_of_cons. by left.
Qed.

(** An inbound written with its full address: its hash is the one at the address. *)
Lemma hash_at_full c i : addresses_ok c -> i ∈ cf_inbounds c -> is_tun i = false -> is_Some (SplitHostPort (in_Listen i)) ->
  hash_at c (in_Listen i) = hashOf (i, binds_of (cf_bindings c) i, cf_lifecycle c).
Proof.
  intros Hok Hi Ht [hp Hs]. unfold hash_at, inboundHash, addresses_ok in *.
  assert (forall j, hash_key j = in_Listen i -> instance_listen j = in_Listen i) as Hkey.
  { intros j. unfold hash_key, instance_listen. destruct (is_tun j); [done|]. intros E. unfold listenAddr. rewrite E, Hs. by destruct (in_Port j =? 0). }
  assert (instance_listen i = in_Listen i) as Hl by (apply Hkey; unfold hash_key; by rewrite Ht).
  generalize (∅ : gmap bytes bytes) as m. revert Hok Hi. generalize (cf_inbounds c) as ins. intros ins. induction ins as [|j ins IH]; intros Hnd Hi m; [by apply not_elem_of_nil in Hi|].
  cbn in Hnd |- *. apply NoDup_cons in Hnd as [Hj Hnd]. apply elem_of_cons in Hi as [-> |Hi]; [|by apply IH].
  rewrite inboundHash_fold.
  - unfold hash_key. rewrite Ht. by rewrite lookup_insert_eq.
  - intros k Hk E. apply Hj. rewrite Hl, <-(Hkey k E). apply list_elem_of_fmap. by exists k.
Qed.

Lemma hash_at_none c l : (forall i, i ∈ cf_inbounds c -> hash_key i <> l) -> hash_at c l = [].
Proof. intros Hl. unfold hash_at, inboundHash. rewrite inboundHash_fold by done. by rewrite lookup_empty. Qed.

(** What serves an address before and after a reload. *)
Lemma reloaded_at c c' i j l : addresses_ok c -> addresses_ok c' -> i ∈ cf_inbounds c -> j ∈ cf_inbounds c' -> instance_listen i = l -> instance_listen j = l ->
  started c !! l = Some (mkActive (hash_at c l) (service_of c i) 0) /\
  reloaded c c' !! l = if decide (hash_at c l = hash_at c' l) then started c !! l else Some (mkActive (hash_at c' l) (service_of c' j) 1).
Proof.
  intros Hok Hok' Hi Hj <- El. assert (started c !! instance_listen i = Some (mkActive (hash_at c (instance_listen i)) (service_of c i) 0)) as Hs.
  { unfold started. rewrite apply_lookup, (build_wanted c i Hok Hi). by rewrite lookup_empty. }
  split; [done|]. unfold reloaded. rewrite apply_lookup. rewrite <-El in *. rewrite (build_wanted c' j Hok' Hj), Hs. done.
Qed.

(** [C15] What a reload does to an inbound that keeps its address. If both configurations write
    the whole address in [listen], the inbound is restarted with its new configuration and its
    new credentials whenever their hash differs, and left running undisturbed when nothing
    about it changed. If the address is composed of [listen] and [port], its hash is looked up
    under an address it was not entered under: the inbound goes on with the old configuration
    and the old credentials, whatever has changed. *)
Theorem reload_effect c c' i j l :
  addresses_ok c -> addresses_ok c' -> i ∈ cf_inbounds c -> j ∈ cf_inbounds c' -> instance_listen i = l -> instance_listen j = l ->
  (in_Listen i = l -> in_Listen j = l -> is_Some (SplitHostPort l) -> is_tun i = false -> is_tun j = false ->
     let h := hashOf (i, binds_of (cf_bindings c) i, cf_lifecycle c) in
     let h' := hashOf (j, binds_of (cf_bindings c') j, cf_lifecycle c') in
     (h <> h' -> reloaded c c' !! l = Some (mkActive h' (service_of c' j) 1)) /\
     (h = h' -> reloaded c c' !! l = started c !! l)) /\
  ((forall k, k ∈ cf_inbounds c \/ k ∈ cf_inbounds c' -> hash_key k <> l) ->
     reloaded c c' !! l = Some (mkActive [] (service_of c i) 0)).
Proof.
  intros Hok Hok' Hi Hj Ei Ej. destruct (reloaded_at c c' i j l Hok Hok' Hi Hj Ei Ej) as [Hs Hr]. split.
  - intros Li Lj Hp Ti Tj. cbn zeta. pose proof (hash_at_full c i Hok Hi Ti) as H1. pose proof (hash_at_full c' j Hok' Hj Tj) as H2.
    rewrite Li in H1. rewrite Lj in H2. rewrite <-(H1 Hp), <-(H2 Hp). split; intros Hh; rewrite Hr; by case_decide.
  - intros Hk. rewrite Hr, Hs, !hash_at_none by auto. by rewrite decide_True.
Qed.
End reload.

(** ** A key is revoked *)

Module Examples.
#[local] Abbreviation Inbound := (@Inbound unit).
#[local] Abbreviation Config := (@Config unit unit).
Definition vless_at (listen : bytes) (port : Z) : Inbound := mkInbound (bs "srv") (bs "vless") listen port [] tt.
Definition bind (user key : String.string) : CredBinding := mkBinding (bs "srv") [mkLayer (bs "vless") (bs key) None] (BillIDOf (bs user) (bs "srv")) (bs user) None.
(** A hash that keeps the keys. *)
Definition digest (x : Inbound * list CredBinding * unit) : bytes := bs "h" ++ concat ((fun b => concat (Key <$> b_Layers b)) <$> x.1.2).

Definition with_eve (i : Inbound) : Config := mkConfig tt [bind "alice" "k1"; bind "eve" "k2"] [i].
Definition without_eve (i : Inbound) : Config := mkConfig tt [bind "alice" "k1"] [i].
Definition full : Inbound := vless_at (bs "0.0.0.0:443") 0.
Definition split : Inbound := vless_at (bs "0.0.0.0") 443.

(** Who may connect to the inbound once the new configuration is loaded. *)
Definition users_after (i : Inbound) : option (list bytes) :=
  (fun a => b_Name <$> (a_service a).2) <$> reloaded digest (with_eve i) (without_eve i) !! bs "0.0.0.0:443".

Lemma reload_effect_witness :
  reloaded digest (with_eve full) (without_eve full) !! bs "0.0.0.0:443" = Some (mkActive (bs "hk1") (service_of (without_eve full) full) 1) /\
  reloaded digest (with_eve split) (without_eve split) !! bs "0.0.0.0:443" = Some (mkActive [] (service_of (with_eve split) split) 0) /\
  users_after full = Some [bs "alice"] /\ users_after split = Some [bs "alice"; bs "eve"].
Proof.
  assert (forall i, addresses_ok (with_eve i) /\ addresses_ok (without_eve i)) as Hok by (intros i; split; apply NoDup_singleton).
  assert (forall i, i ∈ cf_inbounds (with_eve i) /\ i ∈ cf_inbounds (without_eve i)) as Hin by (intros i; split; by apply list_elem_of_singleton).
  split; [|split; [|split; vm_compute; reflexivity]].
  - destruct (reload_effect digest (with_eve full) (without_eve full) full full (bs "0.0.0.0:443")
      (proj1 (Hok full)) (proj2 (Hok full)) (proj1 (Hin full)) (proj2 (Hin full)) eq_refl eq_refl) as [H _].
    destruct (H eq_refl eq_refl ltac:(vm_compute; by eexists) eq_refl eq_refl) as [H' _]. apply H'. vm_compute. discriminate.
  - destruct (reload_effect digest (with_eve split) (without_eve split) split split (bs "0.0.0.0:443")
      (proj1 (Hok split)) (proj2 (Hok split)) (proj1 (Hin split)) (proj2 (Hin split)) eq_refl eq_refl) as [_ H].
    apply H. intros k [->%list_elem_of_singleton| ->%list_elem_of_singleton]; vm_compute; discriminate.
Defined.

(** A bracketed host is not left alone by a second composition. *)
Example bracketed_host_not_idempotent :
  let i := vless_at (bs "[::1]") 443 in
  listenAddr i = bs "[[::1]]:443" /\ listenAddr (with_listen i) = bs "[[[::1]]:443]:443".
Proof. vm_compute. done. Qed.
End Examples.
