(* ===== verification/Wiring.v ===== *)
(** * Putting the outbounds together ([config/config.go]: [buildGroups], [wireDialers])

    Outbounds are objects, known by name in a table: a later one of the same name takes the
    entry, groups hold the objects themselves, and a dialer is looked up by name when it is
    used. *)
From S2P Require Import Prelude GoStd Netip Socksaddr AddrText MuxClient Group.
From Stdlib Require Import Init.Byte.

(** ** Data *)

(** How an upstream's connection starts: a TCP dial, a transport with its own base (mKCP), or
    another outbound. *)
Inductive base := BaseTCP | BaseOwn | BaseDialer (name : bytes) (dst : Socksaddr).

Inductive object :=
| OUpstream (server : bytes) (b : base)
| OGroup (g : @Group nat)
| OOther.

(** What the sources call an [Outbound]: a configuration entry. [o_Interval] is the duration
    [time.ParseDuration] reads, [None] when empty. *)
Record OutSpec := mkSpec {
  os_Name : bytes;
  os_Type : bytes;
  os_Outbounds : list bytes;
  os_Dialer : bytes;
  os_Default : bytes;
  os_URL : bytes;
  os_Interval : bytes;
  os_Tolerance : Z;
  os_LB : bytes;
}.

Record Outs := mkOuts { objects : list object; table : gmap bytes nat }.

Definition add_object (o : Outs) (name : bytes) (x : object) : Outs := mkOuts (objects o ++ [x]) (<[name := length (objects o)]> (table o)).
Definition object_of (o : Outs) (name : bytes) : option object := table o !! name ≫= fun id => objects o !! id.

Inductive wiringErr :=
| errMember (group member : bytes)
| errInterval (group : bytes)
| errGroup (e : groupErr)
| errStuck (groups : list bytes)
| errDialerCycle (n : bytes)
| errDialerUnknown (n dialer : bytes)
| errDialerKind (n : bytes)
| errDialTarget (n server : bytes).

(** [strconv.ParseUint (s, 10, 16)]. *)
Definition ParseUint16 (s : bytes) : option Z :=
  match MuxClient.digits s with Some v => if v <=? 65535 then Some v else None | None => None end.

Definition parseDialTarget (server : bytes) : option Socksaddr :=
  match SplitHostPort server with
  | None => None
  | Some (host, portStr) =>
      match ParseUint16 portStr with
      | None => None
      | Some port => Some (match ParseAddr host with
                           | Some ip => FromIPPort {| ap_addr := ip; ap_port := port |}
                           | None => FromFqdn host port
                           end)
      end
  end.

(** ** Groups *)

Section groups.
(** [time.ParseDuration], in nanoseconds, and [url.Parse]. *)
Context (ParseDuration : bytes -> option Z) (url_Parse : bytes -> option URL).

Definition strategy_of (t : bytes) : Strategy :=
  if bool_decide (t = bs "urltest") then URLTest
  else if bool_decide (t = bs "fallback") then Fallback
  else if bool_decide (t = bs "load-balance") then LoadBalance else Select.

Definition buildOneGroup (o : OutSpec) (members : list (@Member nat)) : res wiringErr (@Group nat) :=
  match (if bool_decide (os_Interval o = []) then Some 300000000000 else ParseDuration (os_Interval o)) with
  | None => Err (errInterval (os_Name o))
  | Some interval =>
      match New (mkOptions members (strategy_of (os_Type o)) (os_Default o) interval (os_Tolerance o)
                   (bool_decide (os_LB o = bs "consistent-hashing") || bool_decide (os_LB o = bs "hash"))) (url_Parse (os_URL o)) with
      | Err e => Err (errGroup e)
      | Ok g => Ok g
      end
  end.

(** The members of a group, [None] when one is a group not built yet. *)
Fixpoint resolve (isGroup : bytes -> bool) (name : bytes) (outs : Outs) (mns : list bytes) : res wiringErr (option (list (@Member nat))) :=
  match mns with
  | [] => Ok (Some [])
  | mn :: mns =>
      match table outs !! mn with
      | None => if isGroup mn then Ok None else Err (errMember name mn)
      | Some id =>
          match resolve isGroup name outs mns with
          | Err e => Err e
          | Ok None => Ok None
          | Ok (Some ms) => Ok (Some (mkMember mn id :: ms))
          end
      end
  end.

(** One round: what remains, and the groups to probe. *)
Fixpoint group_round (isGroup : bytes -> bool) (remaining : list OutSpec) (outs : Outs) : res wiringErr (list OutSpec * Outs * list nat) :=
  match remaining with
  | [] => Ok ([], outs, [])
  | o :: remaining =>
      match resolve isGroup (os_Name o) outs (os_Outbounds o) with
      | Err e => Err e
      | Ok None =>
          match group_round isGroup remaining outs with
          | Err e => Err e
          | Ok (next, outs, loops) => Ok (o :: next, outs, loops)
          end
      | Ok (Some ms) =>
          match buildOneGroup o ms with
          | Err e => Err e
          | Ok g =>
              let id := length (objects outs) in
              match group_round isGroup remaining (add_object outs (os_Name o) (OGroup g)) with
              | Err e => Err e
              | Ok (next, outs, loops) => Ok (next, outs, if NeedsHealth g then id :: loops else loops)
              end
          end
      end
  end.

(** Rounds until none remains; every one builds a group, so as many as there are groups do.
    [None]: out of fuel. *)
Fixpoint group_rounds (fuel : nat) (isGroup : bytes -> bool) (remaining : list OutSpec) (outs : Outs) (loops : list nat)
  : option (res wiringErr (Outs * list nat)) :=
  match remaining with
  | [] => Some (Ok (outs, loops))
  | _ =>
      match fuel with
      | O => None
      | S fuel =>
          match group_round isGroup remaining outs with
          | Err e => Some (Err e)
          | Ok (next, outs, ls) =>
              if (length next =? length remaining)%nat then Some (Err (errStuck (os_Name <$> next)))
              else group_rounds fuel isGroup next outs (loops ++ ls)
          end
      end
  end.

Definition buildGroups (pending : list OutSpec) (outs : Outs) : option (res wiringErr (Outs * list nat)) :=
  group_rounds (length pending) (fun n => bool_decide (n ∈ os_Name <$> pending)) pending outs [].
End groups.

(** ** Dialers *)

Definition edges (specs : list OutSpec) : gmap bytes bytes :=
  foldl (fun m o => match os_Dialer o with [] => m | d => <[os_Name o := d]> m end) ∅ specs.

(** [edge[n]], the empty string when there is none. *)
Definition next_of (edge : gmap bytes bytes) (n : bytes) : bytes := default [] (edge !! n).

(** The walk along the only way out, until it ends or meets a name again. The names met have
    an edge, but for the last: the size of the table and two is enough fuel. *)
Fixpoint walk (fuel : nat) (edge : gmap bytes bytes) (n : bytes) (seen : gset bytes) : option (option bytes) :=
  match n with
  | [] => Some None
  | _ =>
      match fuel with
      | O => None
      | S fuel => if bool_decide (n ∈ seen) then Some (Some n) else walk fuel edge (next_of edge n) ({[n]} ∪ seen)
      end
  end.

(** The first start of a cycle, in the order the map is visited. *)
Fixpoint find_cycle (edge : gmap bytes bytes) (starts : list bytes) : option bytes :=
  match starts with
  | [] => None
  | s :: starts => match walk (S (S (size edge))) edge s ∅ with Some (Some n) => Some n | _ => find_cycle edge starts end
  end.

Definition set_base (outs : Outs) (id : nat) (server : bytes) (b : base) : Outs := mkOuts (<[id := OUpstream server b]> (objects outs)) (table outs).

Fixpoint set_dialers (specs : list OutSpec) (outs : Outs) : res wiringErr Outs :=
  match specs with
  | [] => Ok outs
  | o :: specs =>
      match os_Dialer o with
      | [] => set_dialers specs outs
      | d =>
          match table outs !! d with
          | None => Err (errDialerUnknown (os_Name o) d)
          | Some _ =>
              match table outs !! os_Name o ≫= fun id => pair id <$> objects outs !! id with
              | Some (id, OUpstream server _) =>
                  match parseDialTarget server with
                  | None => Err (errDialTarget (os_Name o) server)
                  | Some dst => set_dialers specs (set_base outs id server (BaseDialer d dst))
                  end
              | _ => Err (errDialerKind (os_Name o))
              end
          end
      end
  end.

Definition wireDialers (order : gmap bytes bytes -> list bytes) (specs : list OutSpec) (outs : Outs) : res wiringErr Outs :=
  let edge := edges specs in
  match find_cycle edge (order edge) with
  | Some n => Err (errDialerCycle n)
  | None => set_dialers specs outs
  end.

(** ** Dialling *)

(** [DialStream] of an object, down to the first connection that leaves the process: the
    outbounds passed, outermost first. [choose] is what a group picks. [None]: the recursion
    does not end within the fuel. *)
Fixpoint dial (choose : nat -> Socksaddr -> option (@Member nat)) (outs : Outs) (fuel : nat) (id : nat) (dst : Socksaddr) : option (list nat) :=
  match fuel with
  | O => None
  | S fuel =>
      match objects outs !! id with
      | Some (OUpstream _ (BaseDialer name target)) =>
          match table outs !! name with
          | Some id' => cons id <$> dial choose outs fuel id' target
          | None => Some [id]
          end
      | Some (OGroup _) =>
          match choose id dst with
          | Some m => cons id <$> dial choose outs fuel (m_Out m) dst
          | None => Some [id]
          end
      | _ => Some [id]
      end
  end.

(** ** Groups are built from what is there *)

Definition group_members (g : @Group nat) : list (@Member nat) := o_Members (g_opts g).

(** The table names objects, each by one name; the members of a group are older than it; no
    upstream has a dialer yet. *)
Record outs_ok (o : Outs) : Prop := {
  ok_range : forall n id, table o !! n = Some id -> (id < length (objects o))%nat;
  ok_inj : forall n1 n2 id, table o !! n1 = Some id -> table o !! n2 = Some id -> n1 = n2;
  ok_groups : forall id g, objects o !! id = Some (OGroup g) -> Forall (fun m => m_Out m < id)%nat (group_members g);
  ok_plain : forall id s n d, objects o !! id <> Some (OUpstream s (BaseDialer n d));
}.

Section groups_spec.
Context (ParseDuration : bytes -> option Z) (url_Parse : bytes -> option URL).
Local Abbreviation group_round := (group_round ParseDuration url_Parse).
Local Abbreviation group_rounds := (group_rounds ParseDuration url_Parse).
Local Abbreviation buildGroups := (buildGroups ParseDuration url_Parse).

Lemma buildOneGroup_members o ms g : buildOneGroup ParseDuration url_Parse o ms = Ok g -> group_members g = ms.
Proof.
  unfold buildOneGroup. destruct (if bool_decide _ then _ else _) as [iv|]; [|done]. unfold New. cbn [o_Members]. destruct ms as [|m0 ms]; [done|].
  destruct (url_Parse (os_URL o)); [|done]. intros [= <-]. done.
Qed.

Lemma resolve_ok isGroup name outs mns : match resolve isGroup name outs mns with
  | Ok (Some ms) => Forall2 (fun mn m => m_Name m = mn /\ table outs !! mn = Some (m_Out m)) mns ms
  | Ok None => exists mn, mn ∈ mns /\ table outs !! mn = None /\ isGroup mn = true
  | Err e => exists mn, mn ∈ mns /\ table outs !! mn = None /\ isGroup mn = false /\ e = errMember name mn
  end.
Proof.
  induction mns as [|mn mns IH]; cbn [resolve]; [constructor|]. destruct (table outs !! mn) as [id|] eqn:E.
  - destruct (resolve isGroup name outs mns) as [[ms|]|e].
    + by constructor.
    + destruct IH as (x & Hx & Hr). exists x. split; [by apply elem_of_cons; right|done].
    + destruct IH as (x & Hx & Hr). exists x. split; [by apply elem_of_cons; right|done].
  - destruct (isGroup mn) eqn:Eg; exists mn; (split; [by apply elem_of_cons; left|done]).
Qed.

Lemma add_object_ok o name x : outs_ok o -> (forall g, x = OGroup g -> Forall (fun m => m_Out m < length (objects o))%nat (group_members g)) ->
  (forall s n d, x <> OUpstream s (BaseDialer n d)) -> outs_ok (add_object o name x).
Proof.
  intros [H1 H2 H3 H4] Hg Hp. split; cbn.
  - intros n id Hn. rewrite length_app. cbn. apply lookup_insert_Some in Hn as [[<- <-]|[_ Hn]]; [lia|]. apply H1 in Hn. lia.
  - intros n1 n2 id Hn1 Hn2. apply lookup_insert_Some in Hn1 as [[<- <-]|[E1 Hn1]], Hn2 as [[<- E]|[E2 Hn2]]; [done| | |by eapply H2].
    + apply H1 in Hn2. lia.
    + apply H1 in Hn1. lia.
  - intros id g. rewrite lookup_app. destruct (objects o !! id) as [y|] eqn:E; [intros [= ->]; by eapply H3|].
    intros [E1 E2]%list_lookup_singleton_Some. apply lookup_ge_None in E. eapply Forall_impl; [by apply Hg|]. cbn. lia.
  - intros id s n d. rewrite lookup_app. destruct (objects o !! id) as [y|] eqn:E; [intros [= ->]; by eapply H4|].
    intros [_ E2]%list_lookup_singleton_Some. by apply Hp in E2.
Qed.

Lemma group_round_ok isGroup remaining : forall outs next outs' loops,
  group_round isGroup remaining outs = Ok (next, outs', loops) -> outs_ok outs ->
  outs_ok outs' /\ dom (table outs) ⊆ dom (table outs') /\ objects outs `prefix_of` objects outs' /\ next `sublist_of` remaining /\
  (forall o, o ∈ remaining -> o ∈ next \/ os_Name o ∈ dom (table outs')) /\
  (length next = length remaining -> outs' = outs /\ forall o, o ∈ next -> exists mn, mn ∈ os_Outbounds o /\ table outs !! mn = None /\ isGroup mn = true).
Proof.
  induction remaining as [|o remaining IH]; intros outs next outs' loops; cbn [Wiring.group_round].
  { intros [= <- <- <-] Hok. split_and!; [done..| |intros _; split; [done|]]; intros ? Hi; by apply not_elem_of_nil in Hi. }
  pose proof (resolve_ok isGroup (os_Name o) outs (os_Outbounds o)) as Hres. destruct (resolve isGroup (os_Name o) outs (os_Outbounds o)) as [[ms|]|]; [| |done].
  - destruct (buildOneGroup ParseDuration url_Parse o ms) as [g|] eqn:Eg; [|done]. apply buildOneGroup_members in Eg.
    destruct (group_round isGroup remaining (add_object outs (os_Name o) (OGroup g))) as [[[n1 o1] l1]|] eqn:Er; [|done]. intros [= <- <- _] Hok.
    assert (outs_ok (add_object outs (os_Name o) (OGroup g))) as Hok'.
    { apply add_object_ok; [done| |done]. intros g' [= <-]. rewrite Eg. apply Forall_forall. intros m Hm.
      apply list_elem_of_lookup in Hm as [i Hi]. destruct (Forall2_lookup_r _ _ _ _ _ Hres Hi) as (mn & _ & _ & Hid). by eapply ok_range. }
    destruct (IH _ _ _ _ Er Hok') as (A1 & A2 & A3 & A4 & A5 & _). cbn in A2, A3. split_and!.
    + done.
    + etrans; [|exact A2]. rewrite dom_insert. apply union_subseteq_r.
    + etrans; [|exact A3]. by apply prefix_app_r.
    + by constructor.
    + intros x [-> |Hx]%elem_of_cons; [|by apply A5]. right. apply A2. rewrite dom_insert. apply elem_of_union_l. by apply elem_of_singleton.
    + apply sublist_length in A4. cbn. lia.
  - destruct (group_round isGroup remaining outs) as [[[n1 o1] l1]|] eqn:Er; [|done]. intros [= <- <- _] Hok.
    destruct (IH _ _ _ _ Er Hok) as (A1 & A2 & A3 & A4 & A5 & A6). split_and!; [done|done|done|by constructor| |].
    + intros x [-> |Hx]%elem_of_cons; [left; by apply elem_of_cons; left|]. destruct (A5 x Hx); [left; by apply elem_of_cons; right|by right].
    + cbn. intros [= El]. destruct (A6 El) as [-> A7]. split; [done|]. intros x [-> |Hx]%elem_of_cons; [done|by apply A7].
Qed.

(** What the rounds end with. *)
Definition groups_outcome (isGroup : bytes -> bool) (remaining : list OutSpec) (outs : Outs) (r : option (res wiringErr (Outs * list nat))) : Prop :=
  match r with
  | None => False
  | Some (Ok (outs', _)) => outs_ok outs' /\ dom (table outs) ⊆ dom (table outs') /\ objects outs `prefix_of` objects outs' /\
                            forall o, o ∈ remaining -> os_Name o ∈ dom (table outs')
  | Some (Err (errStuck stuck)) => exists left, stuck = os_Name <$> left /\ left <> [] /\ left `sublist_of` remaining /\
      exists outs', dom (table outs) ⊆ dom (table outs') /\ (forall o, o ∈ remaining -> o ∈ left \/ os_Name o ∈ dom (table outs')) /\
        forall o, o ∈ left -> exists mn, mn ∈ os_Outbounds o /\ mn ∉ dom (table outs') /\ isGroup mn = true
  | Some (Err _) => True
  end.

Lemma group_rounds_ok fuel isGroup : forall remaining outs loops, (length remaining <= fuel)%nat -> outs_ok outs ->
  groups_outcome isGroup remaining outs (group_rounds fuel isGroup remaining outs loops).
Proof.
  induction fuel as [|fuel IH]; intros remaining outs loops Hf Hok.
  { destruct remaining; [|cbn in Hf; lia]. cbn. split_and!; [done..|]. intros o Ho. by apply not_elem_of_nil in Ho. }
  destruct remaining as [|o0 rem]; [cbn; split_and!; [done..|]; intros o Ho; by apply not_elem_of_nil in Ho|].
  set (remaining := o0 :: rem) in *. assert (remaining <> []) as Hne by done. clearbody remaining.
  assert (group_rounds (S fuel) isGroup remaining outs loops = match group_round isGroup remaining outs with
    | Err e => Some (Err e)
    | Ok (next, outs, ls) => if (length next =? length remaining)%nat then Some (Err (errStuck (os_Name <$> next))) else group_rounds fuel isGroup next outs (loops ++ ls) end) as -> by (by destruct remaining).
  destruct (group_round isGroup remaining outs) as [[[next outs1] ls]|e] eqn:Er.
  - destruct (group_round_ok _ _ _ _ _ _ Er Hok) as (A1 & A2 & A3 & A4 & A5 & A6). destruct (length next =? length remaining)%nat eqn:El.
    + apply Nat.eqb_eq in El. destruct (A6 El) as [-> A7]. exists next. split_and!; [done| |done|].
      * intros ->. apply Hne. by apply nil_length_inv.
      * exists outs. split_and!; [done|done|]. intros o Ho. destruct (A7 o Ho) as (mn & H1 & H2 & H3). exists mn. split_and!; [done|by apply not_elem_of_dom|done].
    + apply Nat.eqb_neq in El. pose proof (sublist_length _ _ A4). specialize (IH next outs1 (loops ++ ls) ltac:(lia) A1).
      destruct (group_rounds fuel isGroup next outs1 (loops ++ ls)) as [[[outs2 l2]|e]|]; [| |done].
      * destruct IH as (B1 & B2 & B3 & B4). split_and!; [done|by etrans|by etrans|]. intros o Ho. destruct (A5 o Ho) as [Hn|Hn]; [by apply B4|by apply B2].
      * destruct e; try done. destruct IH as (lf & -> & Hlf & Hsub & outs2 & D1 & D2 & D3). exists lf. split_and!; [done|done|by etrans|].
        exists outs2. split_and!; [by etrans| |done]. intros o Ho. destruct (A5 o Ho) as [Hn|Hn]; [by apply D2|right; by apply D1].
  - unfold groups_outcome. assert (forall stuck, e <> errStuck stuck) as Hns; [|by destruct e; try done; destruct (Hns groups)].
    clear -Er. revert outs e Er. induction remaining as [|o remaining IH]; intros outs e; cbn [Wiring.group_round]; [done|].
    pose proof (resolve_ok isGroup (os_Name o) outs (os_Outbounds o)) as Hres. destruct (resolve isGroup (os_Name o) outs (os_Outbounds o)) as [[ms|]|].
    + destruct (buildOneGroup ParseDuration url_Parse o ms) as [g|e'] eqn:Eg.
      * destruct (group_round isGroup remaining (add_object outs (os_Name o) (OGroup g))) as [[[n1 o1] l1]|e1] eqn:Er; [done|]. intros [= <-]. by eapply IH.
      * intros [= <-]. unfold buildOneGroup in Eg. destruct (if bool_decide _ then _ else _); [destruct (New _ _); [done|]|]; injection Eg as <-; done.
    + destruct (group_round isGroup remaining outs) as [[[n1 o1] l1]|e1] eqn:Er; [done|]. intros [= <-]. by eapply IH.
    + intros [= <-]. by destruct Hres as (mn & _ & _ & _ & ->).
Qed.

Lemma buildGroups_ok pending outs : outs_ok outs -> groups_outcome (fun n => bool_decide (n ∈ os_Name <$> pending)) pending outs (buildGroups pending outs).
Proof. intros Hok. by apply group_rounds_ok. Qed.

(** Groups are given up only when they wait for each other: every one of them has a member
    among them. *)
Theorem stuck_groups_cycle pending outs stuck : outs_ok outs -> buildGroups pending outs = Some (Err (errStuck stuck)) ->
  stuck <> [] /\ forall n, n ∈ stuck -> exists o mn, o ∈ pending /\ os_Name o = n /\ mn ∈ os_Outbounds o /\ mn ∈ stuck.
Proof.
  intros Hok Hb. pose proof (buildGroups_ok pending outs Hok) as Ho. rewrite Hb in Ho. destruct Ho as (lf & -> & Hne & Hsub & outs' & _ & Hrem & Hmem).
  split; [by destruct lf|]. intros n (o & -> & Ho)%list_elem_of_fmap. destruct (Hmem o Ho) as (mn & Hmn & Hdom & Hg). exists o, mn.
  split_and!; [by eapply elem_of_sublist|done|done|]. apply bool_decide_eq_true in Hg. apply list_elem_of_fmap in Hg as (o' & -> & Ho').
  destruct (Hrem o' Ho') as [Hl|Hl]; [|done]. apply list_elem_of_fmap. by exists o'.
Qed.
End groups_spec.

(** ** Dialers: the walk finds exactly the cycles *)

(** The chain of dialers from [n] is at an end after [k] steps. *)
Fixpoint chain_ends (edge : gmap bytes bytes) (k : nat) (n : bytes) : Prop :=
  match n with
  | [] => True
  | _ => match k with O => False | S k => chain_ends edge k (next_of edge n) end
  end.

Lemma chain_ends_mono edge k : forall n k', (k <= k')%nat -> chain_ends edge k n -> chain_ends edge k' n.
Proof.
  induction k as [|k IH]; intros [|c n] k' Hk Hc; try by destruct k'. destruct k' as [|k']; [lia|]. apply (IH _ k'); [lia|done].
Qed.

(** [n] is met again on its own chain. *)
Definition on_cycle (edge : gmap bytes bytes) (n : bytes) : Prop := exists k, (1 <= k)%nat /\ Nat.iter k (next_of edge) n = n.

Lemma walk_ends edge fuel : forall n seen, walk fuel edge n seen = Some None -> chain_ends edge fuel n.
Proof.
  induction fuel as [|fuel IH]; intros [|c n] seen; try done. cbn [walk chain_ends]. case_bool_decide; [done|]. apply IH.
Qed.

Lemma walk_cycle edge fuel : forall n seen x, walk fuel edge n seen = Some (Some x) ->
  (forall y, y ∈ seen -> exists k, (1 <= k)%nat /\ Nat.iter k (next_of edge) y = n) -> on_cycle edge x.
Proof.
  induction fuel as [|fuel IH]; intros [|c n] seen x; try done. cbn [walk]. case_bool_decide as Hs; intros Hw Hseen.
  - injection Hw as <-. by apply Hseen.
  - eapply IH; [exact Hw|]. intros y [->%elem_of_singleton|Hy]%elem_of_union; [by exists 1%nat|]. destruct (Hseen y Hy) as (k & Hk & E).
    exists (S k). split; [lia|]. by rewrite Nat.iter_succ, E.
Qed.

(** The walk ends: every name met but the last has an edge. *)
Lemma walk_total edge fuel : forall n (seen : gset bytes), seen ⊆ dom edge -> (size edge + 2 <= fuel + size seen)%nat -> is_Some (walk fuel edge n seen).
Proof.
  induction fuel as [|fuel IH]; intros [|c n] seen Hsub Hf; try by eexists.
  - pose proof (subseteq_size _ _ Hsub). rewrite size_dom in *. lia.
  - cbn [walk]. case_bool_decide as Hs; [by eexists|]. destruct (edge !! (c :: n)) as [d|] eqn:E.
    + apply IH; [apply union_subseteq; split; [|done]; apply singleton_subseteq_l; by eapply elem_of_dom_2|].
      rewrite size_union by (by apply disjoint_singleton_l). rewrite size_singleton. lia.
    + unfold next_of. rewrite E. cbn. destruct fuel; by eexists.
Qed.

Lemma find_cycle_none edge starts : find_cycle edge starts = None -> forall s, s ∈ starts -> chain_ends edge (S (S (size edge))) s.
Proof.
  induction starts as [|s0 starts IH]; intros Hf s Hs; [by apply not_elem_of_nil in Hs|]. cbn [find_cycle] in Hf.
  destruct (walk_total edge (S (S (size edge))) s0 ∅) as [[x|] Hw]; [set_solver|lia|by rewrite Hw in Hf|].
  rewrite Hw in Hf. apply elem_of_cons in Hs as [-> |Hs]; [by eapply walk_ends|by apply IH].
Qed.

Lemma find_cycle_some edge starts x : find_cycle edge starts = Some x -> on_cycle edge x.
Proof.
  induction starts as [|s0 starts IH]; [done|]. cbn [find_cycle]. destruct (walk (S (S (size edge))) edge s0 ∅) as [[y|]|] eqn:Hw; [|apply IH|apply IH].
  intros [= ->]. eapply walk_cycle; [exact Hw|]. intros y Hy. set_solver.
Qed.

Lemma chain_ends_start edge order : order edge ≡ₚ (map_to_list edge).*1 -> find_cycle edge (order edge) = None ->
  forall n, chain_ends edge (S (S (size edge))) n.
Proof.
  intros Hord Hf n. destruct (edge !! n) as [d|] eqn:E.
  - apply (find_cycle_none _ _ Hf). rewrite Hord. apply list_elem_of_fmap. exists (n, d). split; [done|]. by apply elem_of_map_to_list.
  - destruct n as [|c n]; [done|]. cbn [chain_ends]. unfold next_of. by rewrite E.
Qed.

(** ** What the dialers are set to *)

(** Upstreams with a dialer have the one their name has in the configuration. *)
Definition dialers_from (edge : gmap bytes bytes) (o : Outs) : Prop :=
  forall id s d dst, objects o !! id = Some (OUpstream s (BaseDialer d dst)) -> exists n, table o !! n = Some id /\ edge !! n = Some d /\ d <> [].

(** The graph as the specifications give it, from [m] on. *)
Definition edges_from (m : gmap bytes bytes) (specs : list OutSpec) : gmap bytes bytes :=
  foldl (fun m o => match os_Dialer o with [] => m | d => <[os_Name o := d]> m end) m specs.

Lemma set_dialers_ok specs : forall m outs outs', set_dialers specs outs = Ok outs' -> dialers_from m outs ->
  (forall n1 n2 id, table outs !! n1 = Some id -> table outs !! n2 = Some id -> n1 = n2) ->
  table outs' = table outs /\ length (objects outs') = length (objects outs) /\ dialers_from (edges_from m specs) outs' /\
  (forall id g, objects outs' !! id = Some (OGroup g) <-> objects outs !! id = Some (OGroup g)) /\
  (forall o, o ∈ specs -> os_Dialer o <> [] -> is_Some (table outs !! os_Dialer o)).
Proof.
  induction specs as [|o specs IH]; intros m outs outs' Hs Hd Hinj; cbn [set_dialers] in Hs.
  { injection Hs as <-. split_and!; try done. intros o Ho. by apply not_elem_of_nil in Ho. }
  unfold edges_from. cbn [foldl]. fold (edges_from (match os_Dialer o with [] => m | d => <[os_Name o := d]> m end) specs).
  destruct (os_Dialer o) as [|c d'] eqn:Ed.
  { destruct (IH _ _ _ Hs Hd Hinj) as (A1 & A2 & A3 & A4 & A5). split_and!; [done..|]. intros x [-> |Hx]%elem_of_cons; [by rewrite Ed|by apply A5]. }
  set (d := c :: d') in *. destruct (table outs !! d) as [idd|] eqn:Etd; [|done].
  destruct (table outs !! os_Name o) as [id|] eqn:Et; [|done]. cbn in Hs. destruct (objects outs !! id) as [x|] eqn:Eo; [|done]. cbn in Hs.
  destruct x as [server b| |]; [|done|done]. destruct (parseDialTarget server) as [dst|]; [|done].
  assert (id < length (objects outs))%nat as Hid by (by eapply lookup_lt_Some).
  destruct (IH (<[os_Name o := d]> m) (set_base outs id server (BaseDialer d dst)) outs' Hs) as (A1 & A2 & A3 & A4 & A5).
  - intros i s e dt. cbn. destruct (decide (i = id)) as [-> |Hne].
    + rewrite list_lookup_insert_eq by done. intros [= <- <- <-]. exists (os_Name o). by rewrite lookup_insert_eq.
    + rewrite list_lookup_insert_ne by done. intros Hi. destruct (Hd _ _ _ _ Hi) as (n & Hn & He & Hnn). exists n. split; [done|]. split; [|done].
      rewrite lookup_insert_ne; [done|]. intros <-. rewrite Et in Hn. by injection Hn.
  - done.
  - cbn in A1, A2. rewrite length_insert in A2. split_and!; [done|done|done| |].
    + intros i g. rewrite A4. cbn. destruct (decide (i = id)) as [-> |Hne]; [rewrite list_lookup_insert_eq by done; by rewrite Eo|by rewrite list_lookup_insert_ne].
    + intros y [-> |Hy]%elem_of_cons Hne; [by rewrite Ed, Etd|by apply A5].
Qed.

(** ** Dialling ends *)

Lemma dial_mono choose outs fuel : forall id dst path fuel', (fuel <= fuel')%nat -> dial choose outs fuel id dst = Some path -> dial choose outs fuel' id dst = Some path.
Proof.
  induction fuel as [|fuel IH]; intros id dst path fuel' Hf Hd; [done|]. destruct fuel' as [|fuel']; [lia|]. cbn [dial] in *.
  destruct (objects outs !! id) as [[s [| |n t]|g|]|]; try done.
  - destruct (table outs !! n) as [id'|]; [|done]. apply fmap_Some in Hd as (p & Hp & ->). by rewrite (IH _ _ _ fuel' ltac:(lia) Hp).
  - destruct (choose id dst) as [m|]; [|done]. apply fmap_Some in Hd as (p & Hp & ->). by rewrite (IH _ _ _ fuel' ltac:(lia) Hp).
Qed.

Lemma dial_S choose outs fuel id dst : dial choose outs (S fuel) id dst =
  match objects outs !! id with
  | Some (OUpstream _ (BaseDialer name target)) =>
      match table outs !! name with Some id' => cons id <$> dial choose outs fuel id' target | None => Some [id] end
  | Some (OGroup _) => match choose id dst with Some m => cons id <$> dial choose outs fuel (m_Out m) dst | None => Some [id] end
  | _ => Some [id]
  end.
Proof. done. Qed.

Lemma edges_from_spec specs : forall m n d, edges_from m specs !! n = Some d -> m !! n = Some d \/ exists o, o ∈ specs /\ os_Name o = n /\ os_Dialer o = d /\ d <> [].
Proof.
  induction specs as [|o specs IH]; intros m n d Hm; [by left|]. cbn in Hm. apply IH in Hm as [Hm|(o' & Ho' & Hr)]; [|right; exists o'; split; [by apply elem_of_cons; right|done]].
  destruct (os_Dialer o) as [|c x] eqn:E; [by left|]. apply lookup_insert_Some in Hm as [[<- <-]|[_ Hm]]; [|by left].
  right. exists o. split_and!; [by apply elem_of_cons; left|done|done|done].
Qed.

Section dialling.
Context (edge : gmap bytes bytes) (outs : Outs) (choose : nat -> Socksaddr -> option (@Member nat)) (K : nat).
Context (from : dialers_from edge outs)
        (inj : forall n1 n2 id, table outs !! n1 = Some id -> table outs !! n2 = Some id -> n1 = n2)
        (named : forall n d, edge !! n = Some d -> n <> [])
        (ends : forall n, chain_ends edge K n)
        (no_group : forall id s d dst id' g, objects outs !! id = Some (OUpstream s (BaseDialer d dst)) -> table outs !! d = Some id' -> objects outs !! id' <> Some (OGroup g))
        (older : forall id g, objects outs !! id = Some (OGroup g) -> Forall (fun m => m_Out m < id)%nat (group_members g))
        (choose_ok : forall id dst m, choose id dst = Some m -> exists g, objects outs !! id = Some (OGroup g) /\ m ∈ group_members g).

Lemma dial_chain k : forall n id dst, table outs !! n = Some id -> (forall g, objects outs !! id <> Some (OGroup g)) -> chain_ends edge k n ->
  exists path, dial choose outs (S k) id dst = Some path.
Proof.
  induction k as [|k IH]; intros n id dst Hn Hg Hc; rewrite dial_S;
    (destruct (objects outs !! id) as [[s [| |d t]|g|]|] eqn:Eo; try by eexists); try (by destruct (Hg g));
    destruct (from _ _ _ _ Eo) as (n' & Hn' & He & Hd); assert (n' = n) as -> by (by eapply inj);
    (destruct n as [|c n]; [by destruct (named _ _ He)|]); cbn [chain_ends] in Hc; [done|].
  unfold next_of in Hc. rewrite He in Hc. cbn [default] in Hc. destruct (table outs !! d) as [id'|] eqn:Ed; [|by eexists].
  destruct (IH d id' t Ed) as [path Hp]; [intros g'; by eapply no_group|done|]. exists (id :: path). by rewrite Hp.
Qed.

Lemma dial_upstream id dst : (forall g, objects outs !! id <> Some (OGroup g)) -> exists path, dial choose outs (S K) id dst = Some path.
Proof.
  intros Hg. destruct (objects outs !! id) as [[s [| |d t]|g|]|] eqn:Eo; try (by destruct (Hg g)); try (rewrite dial_S, Eo; by eexists).
  destruct (from _ _ _ _ Eo) as (n & Hn & _ & _). eapply dial_chain; [exact Hn| |apply ends]. by rewrite Eo.
Qed.

Lemma dial_any id : forall dst, exists path, dial choose outs (S id + S K) id dst = Some path.
Proof.
  induction (lt_wf id) as [id _ IH]. intros dst. destruct (objects outs !! id) as [[s b|g|]|] eqn:Eo.
  1, 3, 4: destruct (dial_upstream id dst) as [path Hp]; [by rewrite Eo|exists path; eapply dial_mono; [|exact Hp]; lia].
  cbn [plus]. rewrite dial_S, Eo. destruct (choose id dst) as [m|] eqn:Ec; [|by eexists]. destruct (choose_ok _ _ _ Ec) as (g' & Eg & Hm).
  rewrite Eo in Eg. injection Eg as <-. pose proof (older _ _ Eo) as Hold. rewrite Forall_forall in Hold. specialize (Hold m Hm). cbn beta in Hold.
  destruct (IH (m_Out m) Hold dst) as [path Hp]. exists (id :: path).
  assert (dial choose outs (id + S K) (m_Out m) dst = Some path) as -> by (eapply dial_mono; [|exact Hp]; lia). done.
Qed.
End dialling.

(** [C16] Dialling through groups and dialers ends. Take outbounds without groups and dialers,
    build the groups and wire the dialers. If both succeed, and no dialer is a group, then
    dialling any outbound, whatever its groups pick, reaches a connection of its own after at
    most as many hops as there are outbounds and dialers. *)
Theorem dialling_ends ParseDuration url_Parse pending specs order outs outs1 loops outs2 :
  outs_ok outs -> buildGroups ParseDuration url_Parse pending outs = Some (Ok (outs1, loops)) ->
  (forall m, order m ≡ₚ (map_to_list m).*1) -> wireDialers order specs outs1 = Ok outs2 ->
  (forall o, o ∈ specs -> os_Name o <> []) ->
  (forall o id g, o ∈ specs -> table outs1 !! os_Dialer o = Some id -> objects outs1 !! id <> Some (OGroup g)) ->
  forall choose, (forall id dst m, choose id dst = Some m -> exists g, objects outs2 !! id = Some (OGroup g) /\ m ∈ group_members g) ->
  forall id dst, exists path, dial choose outs2 (id + size (edges specs) + 4) id dst = Some path.
Proof.
  intros Hok Hb Hord Hw Hnames Hng choose Hch id dst. pose proof (buildGroups_ok ParseDuration url_Parse pending outs Hok) as Ho. rewrite Hb in Ho. destruct Ho as ([R1 R2 R3 R4] & _).
  unfold wireDialers in Hw. destruct (find_cycle (edges specs) (order (edges specs))) as [x|] eqn:Hf; [done|].
  destruct (set_dialers_ok specs ∅ outs1 outs2 Hw) as (A1 & A2 & A3 & A4 & A5); [intros i s d t Hi; by destruct (R4 i s d t)|done|].
  assert (forall n d, edges specs !! n = Some d -> exists o, o ∈ specs /\ os_Name o = n /\ os_Dialer o = d) as Hedge.
  { intros n d He. apply edges_from_spec in He as [He|(o & Ho & ? & ? & _)]; [by rewrite lookup_empty in He|by exists o]. }
  destruct (dial_any (edges specs) outs2 choose (S (S (size (edges specs))))) with (id := id) (dst := dst) as [path Hp].
  - done.
  - rewrite A1. done.
  - intros n d He. destruct (Hedge n d He) as (o & Ho & <- & _). by apply Hnames.
  - by apply (chain_ends_start _ order).
  - intros i s d t id' g Hi Ht. rewrite A1 in Ht. rewrite A4. destruct (A3 i s d t Hi) as (n & _ & He & _). destruct (Hedge n d He) as (o & Ho & _ & Ed).
    apply (Hng o); [done|by rewrite Ed].
  - intros i g Hi%A4. by eapply R3.
  - done.
  - exists path. eapply dial_mono; [|exact Hp]. lia.
Qed.

(** A refused dialer is one that is on a cycle. *)
Lemma dialer_cycle_real order specs outs n : find_cycle (edges specs) (order (edges specs)) = Some n ->
  wireDialers order specs outs = Err (errDialerCycle n) /\ on_cycle (edges specs) n.
Proof. intros Hf. unfold wireDialers. rewrite Hf. split; [done|]. by eapply find_cycle_some. Qed.

(** ** Configurations *)

Module Examples.
Definition spec (name typ : String.string) (outs : list bytes) (dialer : String.string) : OutSpec := mkSpec (bs name) (bs typ) outs (bs dialer) [] [] [] 0 [].
Definition parse (_ : bytes) : option URL := Some (mkURL (bs "t.example") [] true).
Definition up : object := OUpstream (bs "192.0.2.1:443") BaseTCP.

(** [a] is dialled through [b]; the group [g] has both, [h] has [g]. *)
Definition outs0 : Outs := add_object (add_object (mkOuts [] ∅) (bs "a") up) (bs "b") up.
Definition groups : list OutSpec := [spec "h" "fallback" [bs "g"] ""; spec "g" "select" [bs "a"; bs "b"] ""].
Definition specs : list OutSpec := [spec "a" "vless" [] "b"; spec "b" "vless" [] ""] ++ groups.
Definition built : option (res wiringErr (Outs * list nat)) := buildGroups (fun _ => None) parse groups outs0.
Definition outs1 : Outs := match built with Some (Ok (o, _)) => o | _ => outs0 end.
Definition outs2 : Outs := match wireDialers (fun m => (map_to_list m).*1) specs outs1 with Ok o => o | Err _ => outs1 end.

Lemma outs0_ok : outs_ok outs0.
Proof.
  apply add_object_ok; [apply add_object_ok|..]; done.
Qed.

(** Every group takes its first member. *)
Definition first (id : nat) (dst : Socksaddr) : option (@Member nat) :=
  match objects outs2 !! id with Some (OGroup g) => head (group_members g) | _ => None end.

Lemma dialling_ends_witness :
  built = Some (Ok (outs1, [3%nat])) /\
  (exists path, dial first outs2 (3 + size (edges specs) + 4) 3 (FromFqdn (bs "x.example") 80) = Some path) /\
  dial first outs2 10 3 (FromFqdn (bs "x.example") 80) = Some [3; 2; 0; 1]%nat.
Proof.
  assert (built = Some (Ok (outs1, [3%nat]))) as Hb by (vm_compute; reflexivity).
  split; [exact Hb|]. split; [|vm_compute; reflexivity].
  apply (dialling_ends (fun _ => None) parse groups specs (fun m => (map_to_list m).*1) outs0 outs1 [3%nat] outs2).
  - exact outs0_ok.
  - exact Hb.
  - done.
  - vm_compute. reflexivity.
  - intros o Ho. repeat (apply elem_of_cons in Ho as [-> |Ho]; [discriminate|]). by apply not_elem_of_nil in Ho.
  - intros o id g Ho. repeat (apply elem_of_cons in Ho as [-> |Ho]; [vm_compute; intros [= <-]; done|]). by apply not_elem_of_nil in Ho.
  - intros id dst m. unfold first. destruct (objects outs2 !! id) as [[| g|]|]; try done. intros Hm. exists g. split; [done|]. by apply head_Some_elem_of.
Defined.

(** Groups that wait for each other. *)
Example stuck : buildGroups (fun _ => None) parse [spec "g" "select" [bs "a"; bs "h"] ""; spec "h" "select" [bs "g"] ""] outs0 = Some (Err (errStuck [bs "g"; bs "h"])).
Proof. vm_compute. reflexivity. Qed.

(** A dialer that is a group with the outbound as its member is not found: dialling never
    ends. *)
Definition loop_groups : list OutSpec := [spec "g" "select" [bs "a"] ""].
Definition loop_specs : list OutSpec := [spec "a" "vless" [] "g"; spec "b" "vless" [] ""] ++ loop_groups.
Definition loop1 : Outs := match buildGroups (fun _ => None) parse loop_groups outs0 with Some (Ok (o, _)) => o | _ => outs0 end.
Definition loop2 : Outs := match wireDialers (fun m => (map_to_list m).*1) loop_specs loop1 with Ok o => o | Err _ => mkOuts [] ∅ end.
Definition only (id : nat) (dst : Socksaddr) : option (@Member nat) :=
  match objects loop2 !! id with Some (OGroup g) => head (group_members g) | _ => None end.

Lemma dialer_group_loop :
  wireDialers (fun m => (map_to_list m).*1) loop_specs loop1 = Ok loop2 /\ table loop2 !! bs "a" = Some 0%nat /\
  forall fuel dst, dial only loop2 fuel 0 dst = None.
Proof.
  split; [vm_compute; reflexivity|]. split; [vm_compute; reflexivity|]. intros fuel. induction (lt_wf fuel) as [fuel _ IH]. intros dst.
  destruct fuel as [|[|fuel]]; [done|vm_compute; reflexivity|].
  assert (forall d, dial only loop2 (S (S fuel)) 0 d = cons 0%nat <$> (cons 2%nat <$> dial only loop2 fuel 0 (FromIPPort {| ap_addr := addr "192.0.2.1"; ap_port := 443 |}))) as ->; [|by rewrite IH by lia].
  intros d. rewrite !dial_S. vm_compute (objects loop2 !! 0%nat). vm_compute (table loop2 !! _). vm_compute (objects loop2 !! 2%nat). vm_compute (only 2 _). done.
Qed.

(** An upstream with a transport base of its own loses it to the dialer. *)
Example dialer_replaces_mkcp :
  let outs := add_object (add_object (mkOuts [] ∅) (bs "k") (OUpstream (bs "192.0.2.1:443") BaseOwn)) (bs "b") up in
  match wireDialers (fun m => (map_to_list m).*1) [spec "k" "vless" [] "b"] outs with
  | Ok o => object_of o (bs "k") = Some (OUpstream (bs "192.0.2.1:443") (BaseDialer (bs "b") (FromIPPort {| ap_addr := addr "192.0.2.1"; ap_port := 443 |})))
  | Err _ => False
  end.
Proof. vm_compute. reflexivity. Qed.
End Examples.
