(* ===== verification/Settings.v ===== *)
(** * Addresses in the configuration ([config/config.go], [inbound/tun/hijack.go])

    The parsers of [dns.hosts], [dns.fake-ip], [dns-hijack] and [metrics.access], and the two
    checks made with what they return. *)
From S2P Require Import Prelude GoStd Netip AddrText MuxClient Snell DnsFakeIP DnsFakeIPSpec.
From Stdlib Require Import Init.Byte.

Inductive settingErr := errHostAddr (name s : bytes) | errRange4 (s : bytes) | errRange6 (s : bytes) | errHijackPort (s : bytes) | errHijackAddr (s : bytes) | errAccess (s : bytes).

(** ** [dns.hosts]: a map, visited in any order *)

Fixpoint host_addrs (name : bytes) (ss : list bytes) : res settingErr (list Addr) :=
  match ss with
  | [] => Ok []
  | s :: ss =>
      match ParseAddr s with
      | None => Err (errHostAddr name s)
      | Some ip => match host_addrs name ss with Err e => Err e | Ok ips => Ok (ip :: ips) end
      end
  end.
(** A name without addresses gets no entry. *)
Fixpoint parse_entries (es : list (bytes * list bytes)) (out : gmap bytes (list Addr)) : res settingErr (gmap bytes (list Addr)) :=
  match es with
  | [] => Ok out
  | (name, ss) :: es =>
      match host_addrs name ss with
      | Err e => Err e
      | Ok [] => parse_entries es out
      | Ok ips => parse_entries es (<[name := default [] (out !! name) ++ ips]> out)
      end
  end.
Definition parseHosts (order : gmap bytes (list bytes) -> list (bytes * list bytes)) (m : gmap bytes (list bytes)) : res settingErr (gmap bytes (list Addr)) :=
  parse_entries (order m) ∅.

(** ** [dns.fake-ip] *)

Record FakeIPSpec := mkFakeIPSpec { fs_Enabled : bool; fs_Inet4Range : bytes; fs_Inet6Range : bytes; fs_Exclude : list bytes }.

Definition parseFakeIP (spec : option FakeIPSpec) : res settingErr (option FakeIPConfig) :=
  match spec with
  | None => Ok None
  | Some s =>
      if negb (fs_Enabled s) then Ok None
      else
        let v4s := match fs_Inet4Range s with [] => bs "198.18.0.0/15" | r => r end in
        match ParsePrefix v4s with
        | None => Err (errRange4 v4s)
        | Some v4 =>
            if negb (Is4 (Unmap (pfx_addr v4))) then Err (errRange4 v4s)
            else match fs_Inet6Range s with
                 | [] => Ok (Some (mkFakeIPConfig (Masked v4) noPrefix (fs_Exclude s)))
                 | v6s =>
                     match ParsePrefix v6s with
                     | None => Err (errRange6 v6s)
                     | Some v6 =>
                         if negb (Is6 (pfx_addr v6)) || Is4In6 (pfx_addr v6) then Err (errRange6 v6s)
                         else Ok (Some (mkFakeIPConfig (Masked v4) (Masked v6) (fs_Exclude s)))
                     end
                 end
        end
  end.

(** ** [dns-hijack] *)

Fixpoint parseHijack (l : list bytes) : res settingErr (list AddrPort) :=
  match l with
  | [] => Ok []
  | s :: l =>
      let '(host, port) := match SplitHostPort s with Some hp => hp | None => (s, bs "53") end in
      match AtoiE port with
      | None => Err (errHijackPort s)
      | Some pn =>
          if (pn <=? 0) || (65535 <? pn) then Err (errHijackPort s)
          else
            let ip := if bool_decide (host = bs "any") || bool_decide (host = bs "*") || bool_decide (host = []) then Some (Addr4 0) else ParseAddr host in
            match ip with
            | None => Err (errHijackAddr s)
            | Some ip => match parseHijack l with Err e => Err e | Ok out => Ok ({| ap_addr := ip; ap_port := w16 pn |} :: out) end
            end
      end
  end.

Definition IsUnspecified (a : Addr) : bool := bool_decide (a = Addr4 0 \/ a = Addr6 0 []).

Definition shouldHijack (resolver : bool) (hijack : list AddrPort) (dst : AddrPort) : bool :=
  if negb resolver || bool_decide (length hijack = O) then false
  else existsb (fun a => (ap_port a =? ap_port dst) && (IsUnspecified (ap_addr a) || bool_decide (ap_addr a = ap_addr dst))) hijack.

(** ** [metrics.access] *)

Fixpoint access_entries (l : list bytes) : res settingErr (list Prefix) :=
  match l with
  | [] => Ok []
  | a :: l =>
      let a := TrimSpace a in
      let entry := match ParsePrefix a with
                   | Some p => Some p
                   | None => match ParseAddr a with Some ip => Some (PrefixFrom ip (BitLen ip)) | None => None end
                   end in
      match entry with
      | None => Err (errAccess a)
      | Some p => match access_entries l with Err e => Err e | Ok out => Ok (p :: out) end
      end
  end.

Definition loopback : list Prefix := [prefix "127.0.0.0/8"; prefix "::1/128"].

Definition parseAccess (access : list bytes) : res settingErr (list Prefix) :=
  match access with [] => Ok loopback | _ => access_entries access end.

Definition accessAllowed (remoteAddr : bytes) (allow : list Prefix) : bool :=
  let host := match SplitHostPort remoteAddr with Some (h, _) => h | None => remoteAddr end in
  match ParseAddr host with
  | None => false
  | Some ip => existsb (fun p => Prefix_Contains p (Unmap ip)) allow
  end.

(** ** Who may reach the control endpoint *)

(** The addresses of this machine. *)
Definition is_loopback (a : Addr) : Prop := (exists v, a = Addr4 v /\ 127 * 2 ^ 24 <= v < 128 * 2 ^ 24) \/ exists z, a = Addr6 1 z /\ z = [].

Lemma Contains_whole a b : hasZone a = false -> Prefix_Contains (PrefixFrom a (BitLen a)) b = true <-> b = a /\ a <> AddrZero.
Proof.
  intros Hz. unfold Prefix_Contains, PrefixFrom. destruct a as [|v|v z]; cbn; [split; [done|by intros [_ ?]]| |].
  - destruct b as [|u|u y]; cbn; rewrite ?andb_false_r, ?andb_true_l; try (split; [done|by intros [[=] _]]).
    rewrite !Z.shiftr_0_r. split; [intros E; apply Z.eqb_eq in E as ->; done|intros [[= ->] _]; by rewrite Z.eqb_refl].
  - unfold hasZone in Hz. cbn in Hz. destruct b as [|u|u y]; cbn; rewrite ?andb_false_r; try (split; [done|by intros [[=] _]]).
    rewrite !Z.shiftr_0_r, andb_true_iff. split.
    + intros [H1 E]. apply Z.eqb_eq in E as ->. unfold hasZone in H1. cbn in H1. split; [|done]. destruct y, z; try done.
    + intros [[= -> ->] _]. rewrite Z.eqb_refl. split; [|done]. unfold hasZone. cbn. by rewrite Hz.
Qed.

Lemma loopback_contains a : existsb (fun p => Prefix_Contains p a) loopback = true <-> is_loopback a.
Proof.
  assert (loopback = [PrefixFrom (Addr4 (127 * 2 ^ 24)) 8; PrefixFrom (Addr6 1 []) (BitLen (Addr6 1 []))]) as -> by (vm_compute; reflexivity).
  cbn [existsb]. rewrite orb_false_r, orb_true_iff, (Contains_whole (Addr6 1 [])) by done. unfold is_loopback.
  assert (Prefix_Contains (PrefixFrom (Addr4 (127 * 2 ^ 24)) 8) a = true <-> exists v, a = Addr4 v /\ 127 * 2 ^ 24 <= v < 128 * 2 ^ 24) as ->.
  { unfold Prefix_Contains, PrefixFrom. cbn -[Z.mul Z.pow]. destruct a as [|v|v z]; rewrite ?andb_false_r; try (split; [done|by intros (? & [=] & _)]).
    cbn -[Z.mul Z.pow]. rewrite Z.eqb_eq, !Z.shiftr_div_pow2 by lia. change (32 - 8) with 24. split.
    - intros E. exists v. split; [done|]. Z.to_euclidean_division_equations. lia.
    - intros (u & [= ->] & Hu). Z.to_euclidean_division_equations. lia. }
  split; (intros [H|H]; [by left|right]).
  - destruct H as [-> _]. by exists [].
  - by destruct H as (z & -> & ->).
Qed.

(** Unless the configuration says otherwise, the control endpoint answers this machine
    only: whatever the textual form of the peer's address, it is let in exactly when the
    address in it, unmapped, is in 127.0.0.0/8 or is ::1. *)
Theorem default_access_is_local remoteAddr allow :
  parseAccess [] = Ok allow ->
  accessAllowed remoteAddr allow = true <->
  exists ip, ParseAddr (match SplitHostPort remoteAddr with Some (h, _) => h | None => remoteAddr end) = Some ip /\ is_loopback (Unmap ip).
Proof.
  intros [= <-]. unfold accessAllowed. destruct (ParseAddr _) as [ip|]; [|split; [done|by intros (? & [=] & _)]].
  rewrite loopback_contains. split; [intros Hl; by exists ip|by intros (? & [= <-] & Hl)].
Qed.

Lemma default_access_is_local_witness :
  parseAccess [] = Ok loopback /\ accessAllowed (bs "[::ffff:127.0.0.1]:5000") loopback = true /\ accessAllowed (bs "10.0.0.1:5000") loopback = false.
Proof.
  split; [reflexivity|]. split.
  - apply (default_access_is_local _ loopback eq_refl). exists (addr "::ffff:127.0.0.1"). split; [vm_compute; reflexivity|]. left. exists (127 * 2 ^ 24 + 1). split; [vm_compute; reflexivity|lia].
  - vm_compute. reflexivity.
Defined.

Lemma Unmap_not_mapped a : Is4In6 (Unmap a) = false.
Proof. unfold Unmap. destruct (Is4In6 a) eqn:E; [|done]. by destruct a. Qed.

(** An entry that is one address lets in that address; written as a mapped address it lets in
    nobody. *)
Lemma single_entry remoteAddr ip ip' : ParseAddr (match SplitHostPort remoteAddr with Some (h, _) => h | None => remoteAddr end) = Some ip' -> hasZone ip = false ->
  accessAllowed remoteAddr [PrefixFrom ip (BitLen ip)] = true <-> Unmap ip' = ip /\ ip <> AddrZero.
Proof. intros Hp Hz. unfold accessAllowed. rewrite Hp. cbn [existsb]. rewrite orb_false_r. by apply Contains_whole. Qed.

Lemma mapped_entry_excludes remoteAddr ip : Is4In6 ip = true -> hasZone ip = false -> accessAllowed remoteAddr [PrefixFrom ip (BitLen ip)] = false.
Proof.
  intros Hm Hz. destruct (accessAllowed _ _) eqn:E; [|done]. unfold accessAllowed in E. destruct (ParseAddr _) as [ip'|]; [|done].
  cbn [existsb] in E. rewrite orb_false_r in E. apply (Contains_whole ip) in E as [E _]; [|done]. pose proof (Unmap_not_mapped ip') as H. rewrite E in H. congruence.
Qed.

(** ** Hijacking *)

Lemma parseHijack_ok l : forall out, parseHijack l = Ok out -> Forall (fun a => 0 < ap_port a <= 65535) out /\ length out = length l.
Proof.
  induction l as [|s l IH]; intros out; cbn [parseHijack]; [intros [= <-]; split; [constructor|done]|].
  destruct (match SplitHostPort s with Some hp => hp | None => _ end) as [host port]. destruct (AtoiE port) as [pn|]; [|done].
  destruct ((pn <=? 0) || (65535 <? pn)) eqn:Ep; [done|]. apply orb_false_iff in Ep as [E1 E2]. to_prop.
  destruct (if bool_decide _ || _ || _ then _ else _) as [ip|]; [|done]. destruct (parseHijack l) as [o|]; [|done]. intros [= <-].
  destruct (IH o eq_refl) as [H1 H2]. split; [|cbn; by rewrite H2]. constructor; [|done]. cbn. rewrite w16_small; [lia|]. unfold in_u16. lia.
Qed.

(** [any] as an address takes every query sent to the port, whoever it is addressed to. *)
Lemma any_hijacks_port dst : ap_port dst = 53 -> forall l out, parseHijack (bs "any:53" :: l) = Ok out -> shouldHijack true out dst = true.
Proof.
  intros Hp l out. cbn [parseHijack]. change (SplitHostPort (bs "any:53")) with (Some (bs "any", bs "53")). cbn iota.
  change (AtoiE (bs "53")) with (Some 53). cbn -[parseHijack w16]. destruct (parseHijack l) as [o|]; [|done]. intros [= <-].
  unfold shouldHijack. cbn -[w16]. rewrite w16_small by (unfold in_u16; lia). by rewrite Hp.
Qed.

(** ** Fake addresses *)

(** The range used by default is one the pool works with. *)
Example default_range_ok : exists cfg, parseFakeIP (Some (mkFakeIPSpec true [] [] [])) = Ok (Some cfg) /\ cfg_ok cfg.
Proof.
  eexists. split; [vm_compute; reflexivity|]. split; cbn; [|done|].
  - exists 3323068416. split; [done|]. lia.
  - done.
Qed.

(** A v4 range written as mapped addresses is accepted, and no address given out of it is
    recognised again. *)
Example mapped_range_not_recognised : let _ := ascii_only in
  match parseFakeIP (Some (mkFakeIPSpec true (bs "::ffff:198.18.0.0/111") [] [])) with
  | Ok (Some cfg) =>
      match alloc (newFakeIPPool cfg) (bs "x.example.") TypeA with
      | (Some ip, p) => Unmap ip = addr "198.18.0.1" /\ pool_contains p ip = false /\ pool_lookup p ip = None
      | _ => False
      end
  | _ => False
  end.
Proof. vm_compute. done. Qed.
