(* ===== verification/Routing.v ===== *)
(** * Routing from the configuration ([config/config.go]: [buildRouter])

    The rules of [routing:] are checked against the outbounds and turned into the rules of the
    engine. Databases and rule sets are opened by other packages: what they contain is an
    argument. *)
From S2P Require Import Prelude GoStd Netip Socksaddr Rule RuleSpec Router.
From Stdlib Require Import Init.Byte.

Inductive RuleSpec := mkRuleSpec {
  rs_Domain : list bytes;
  rs_DomainSuffix : list bytes;
  rs_DomainKeyword : list bytes;
  rs_IPCIDR : list bytes;
  rs_Port : list Z;
  rs_Network : list bytes;
  rs_Protocol : list bytes;
  rs_GeoIP : list bytes;
  rs_GeoSite : list bytes;
  rs_RuleSet : list bytes;
  rs_ProcessName : list bytes;
  rs_ProcessPath : list bytes;
  rs_Op : bytes;
  rs_Sub : list RuleSpec;
  rs_Not : bool;
  rs_To : bytes;
}.

Record ProviderSpec := mkProvider { pv_Name : bytes; pv_Behavior : bytes; pv_Path : bytes; pv_URL : bytes; pv_Detour : bytes }.

Record RoutingSpec := mkRouting {
  ro_Default : bytes;
  ro_Rules : list RuleSpec;
  ro_GeoIPPath : bytes;
  ro_GeoSitePath : bytes;
  ro_Providers : list ProviderSpec;
}.

Inductive routingErr :=
| errDefault
| errNoDetour (p : bytes)
| errDetour (p detour : bytes)
| errGeoIPPath
| errGeoIPOpen
| errGeoSitePath
| errGeoSiteOpen
| errTo (n : nat) (to : bytes)
| errGeoIP
| errGeoSite
| errProvider (name : bytes)
| errLoad (name : bytes)
| errCompile (e : compileErr).

(** Some rule, or a rule inside one, satisfies [f]. *)
Fixpoint any_spec (f : RuleSpec -> bool) (r : RuleSpec) : bool := f r || existsb (any_spec f) (rs_Sub r).

Section routing.
Context `{Unicode}.
(** [geo.OpenGeoIP] or [geo.OpenGeoIPDat] by the file's name, and [geo.OpenGeoSite]. *)
Context (OpenGeoIP OpenGeoIPDat : bytes -> option (list bytes -> option IPSet)) (OpenGeoSite : bytes -> option (bytes -> option DomainSet)).
(** [Provider.LoadIP] and [Provider.LoadDomain]. *)
Context (LoadIP : ProviderSpec -> option IPSet) (LoadDomain : ProviderSpec -> option DomainSet).

Fixpoint providers (ps : list ProviderSpec) (outs : gset bytes) (m : gmap bytes ProviderSpec) : res routingErr (gmap bytes ProviderSpec) :=
  match ps with
  | [] => Ok m
  | p :: ps =>
      match pv_URL p with
      | [] => providers ps outs (<[pv_Name p := p]> m)
      | _ =>
          match pv_Detour p with
          | [] => Err (errNoDetour (pv_Name p))
          | d => if bool_decide (d ∈ outs) then providers ps outs (<[pv_Name p := p]> m) else Err (errDetour (pv_Name p) d)
          end
      end
  end.

Section rules.
Context (geoSetFor : option (list bytes -> option IPSet)) (siteDB : option (bytes -> option DomainSet)) (provs : gmap bytes ProviderSpec).

Fixpoint site_sets (codes : list bytes) : res routingErr (list DomainSet) :=
  match codes with
  | [] => Ok []
  | c :: codes =>
      match siteDB ≫= fun db => db c with
      | None => Err errGeoSite
      | Some ds => match site_sets codes with Err e => Err e | Ok l => Ok (ds :: l) end
      end
  end.

(** The rule sets, by their behaviour: addresses or names. *)
Fixpoint rule_sets (names : list bytes) (geo : list IPSet) (site : list DomainSet) : res routingErr (list IPSet * list DomainSet) :=
  match names with
  | [] => Ok (geo, site)
  | n :: names =>
      match provs !! n with
      | None => Err (errProvider n)
      | Some pv =>
          if bool_decide (pv_Behavior pv = bs "ipcidr") then
            match LoadIP pv with None => Err (errLoad n) | Some s => rule_sets names (geo ++ [s]) site end
          else match LoadDomain pv with None => Err (errLoad n) | Some s => rule_sets names geo (site ++ [s]) end
      end
  end.

Definition leaf_rule (rs : RuleSpec) : res routingErr Rule :=
  let geo := match rs_GeoIP rs with
             | [] => Ok []
             | codes => match geoSetFor ≫= fun f => f codes with None => Err errGeoIP | Some s => Ok [s] end
             end in
  match geo with
  | Err e => Err e
  | Ok geo =>
      match site_sets (rs_GeoSite rs) with
      | Err e => Err e
      | Ok site =>
          match rule_sets (rs_RuleSet rs) geo site with
          | Err e => Err e
          | Ok (geo, site) =>
              Ok (mkRule (rs_Domain rs) (rs_DomainSuffix rs) (rs_DomainKeyword rs) (rs_IPCIDR rs) (rs_Port rs) (rs_Network rs) (rs_Protocol rs)
                         geo site (rs_ProcessName rs) (rs_ProcessPath rs) [] [] false (rs_To rs))
          end
      end
  end.

Fixpoint specToRule (rs : RuleSpec) : res routingErr Rule :=
  match rs_Op rs with
  | [] => leaf_rule rs
  | op =>
      let fix subs (l : list RuleSpec) : res routingErr (list Rule) :=
        match l with
        | [] => Ok []
        | s :: l => match specToRule s with Err e => Err e | Ok r => match subs l with Err e => Err e | Ok rs => Ok (r :: rs) end end
        end in
      match subs (rs_Sub rs) with
      | Err e => Err e
      | Ok sub => Ok (mkRule [] [] [] [] [] [] [] [] [] [] [] op sub (rs_Not rs) (rs_To rs))
      end
  end.

Fixpoint convert (outs : gset bytes) (n : nat) (l : list RuleSpec) : res routingErr (list Rule) :=
  match l with
  | [] => Ok []
  | rs :: l =>
      if bool_decide (rs_To rs ∈ outs) then
        match specToRule rs with
        | Err e => Err e
        | Ok r => match convert outs (S n) l with Err e => Err e | Ok rules => Ok (r :: rules) end
        end
      else Err (errTo n (rs_To rs))
  end.
End rules.

(** Opening a database when some rule needs it: nothing, or what it answers. *)
Definition open_geoip (spec : RoutingSpec) : res routingErr (option (list bytes -> option IPSet)) :=
  if existsb (any_spec (fun r => nonempty (rs_GeoIP r))) (ro_Rules spec) then
    match ro_GeoIPPath spec with
    | [] => Err errGeoIPPath
    | path => match (if HasSuffix (ToLower path) (bs ".dat") then OpenGeoIPDat path else OpenGeoIP path) with None => Err errGeoIPOpen | Some f => Ok (Some f) end
    end
  else Ok None.
Definition open_geosite (spec : RoutingSpec) : res routingErr (option (bytes -> option DomainSet)) :=
  if existsb (any_spec (fun r => nonempty (rs_GeoSite r))) (ro_Rules spec) then
    match ro_GeoSitePath spec with
    | [] => Err errGeoSitePath
    | path => match OpenGeoSite path with None => Err errGeoSiteOpen | Some f => Ok (Some f) end
    end
  else Ok None.

Definition buildRouter (spec : RoutingSpec) (outs : gset bytes) : res routingErr Engine :=
  if negb (bool_decide (ro_Default spec ∈ outs)) then Err errDefault
  else
    match providers (ro_Providers spec) outs ∅ with
    | Err e => Err e
    | Ok provs =>
        match open_geoip spec with
        | Err e => Err e
        | Ok geo =>
            match open_geosite spec with
            | Err e => Err e
            | Ok site =>
                match convert geo site provs outs 0 (ro_Rules spec) with
                | Err e => Err e
                | Ok rules => match Compile rules (ro_Default spec) with Err e => Err (errCompile e) | Ok e => Ok e end
                end
            end
        end
    end.

(** ** Every answer is an outbound *)

Lemma specToRule_To geo site provs rs r : specToRule geo site provs rs = Ok r -> To r = rs_To rs.
Proof.
  destruct rs as [dm ds dk ic po nw pr gi gs rset pn pp op sub nt to]. cbn. destruct op as [|c op].
  - unfold leaf_rule. cbn. destruct (match gi with [] => _ | _ => _ end) as [g|]; [|done]. destruct (site_sets _ _) as [st|]; [|done].
    destruct (rule_sets _ _ _ _) as [[g' st']|]; [|done]. by intros [= <-].
  - match goal with |- match ?x with _ => _ end = _ -> _ => destruct x; [|done] end. by intros [= <-].
Qed.

Lemma convert_ok geo site provs outs l : forall n rules, convert geo site provs outs n l = Ok rules ->
  length rules = length l /\ Forall (fun r => To r ∈ outs) rules /\ To <$> rules = rs_To <$> l.
Proof.
  induction l as [|rs l IH]; intros n rules; cbn [convert]; [intros [= <-]; split_and!; [done|constructor|done]|].
  case_bool_decide as Ht; [|done]. destruct (specToRule geo site provs rs) as [r|] eqn:Er; [|done].
  destruct (convert geo site provs outs (S n) l) as [rs'|] eqn:El; [|done]. intros [= <-]. destruct (IH _ _ El) as (H1 & H2 & H3).
  apply specToRule_To in Er. split_and!; [cbn; by rewrite H1|constructor; [by rewrite Er|done]|cbn; by rewrite Er, H3].
Qed.

Lemma route_spec_target (P : bytes -> Prop) d rips s nw pr f rules dflt : Forall (fun r => P (To r)) rules -> P dflt -> P (route_spec d rips s nw pr f rules dflt).
Proof.
  intros HF Hd. unfold route_spec. destruct (find _ rules) as [r|] eqn:E; [|done]. apply find_some in E as [Hin _].
  rewrite Forall_forall in HF. apply HF. by apply list_elem_of_In.
Qed.

(** The engine of a configuration that is accepted: the converted rules. *)
Lemma buildRouter_ok spec outs e : buildRouter spec outs = Ok e ->
  ro_Default spec ∈ outs /\ exists geo site provs rules, convert geo site provs outs 0 (ro_Rules spec) = Ok rules /\ Compile rules (ro_Default spec) = Ok e.
Proof.
  unfold buildRouter. case_bool_decide as Hd; cbn [negb]; [|done]. destruct (providers _ _ _) as [provs|]; [|done]. destruct (open_geoip spec) as [geo|]; [|done].
  destruct (open_geosite spec) as [site|]; [|done]. destruct (convert geo site provs outs 0 (ro_Rules spec)) as [rules|] eqn:Ec; [|done].
  destruct (Compile rules (ro_Default spec)) as [e'|] eqn:Ek; [|done]. intros [= <-]. split; [done|]. by exists geo, site, provs, rules.
Qed.


(** ** What the conversion drops *)

(** [not] on a rule without an operator has no effect, though it can be written. *)
Definition set_Not (rs : RuleSpec) (b : bool) : RuleSpec :=
  mkRuleSpec (rs_Domain rs) (rs_DomainSuffix rs) (rs_DomainKeyword rs) (rs_IPCIDR rs) (rs_Port rs) (rs_Network rs) (rs_Protocol rs) (rs_GeoIP rs)
    (rs_GeoSite rs) (rs_RuleSet rs) (rs_ProcessName rs) (rs_ProcessPath rs) (rs_Op rs) (rs_Sub rs) b (rs_To rs).
Lemma leaf_not_ignored geo site provs rs b : rs_Op rs = [] -> specToRule geo site provs (set_Not rs b) = specToRule geo site provs rs.
Proof. destruct rs. cbn. by intros ->. Qed.

(** The conditions of a rule with an operator are dropped before the check that there are
    none. *)
Definition set_Domain (rs : RuleSpec) (l : list bytes) : RuleSpec :=
  mkRuleSpec l (rs_DomainSuffix rs) (rs_DomainKeyword rs) (rs_IPCIDR rs) (rs_Port rs) (rs_Network rs) (rs_Protocol rs) (rs_GeoIP rs)
    (rs_GeoSite rs) (rs_RuleSet rs) (rs_ProcessName rs) (rs_ProcessPath rs) (rs_Op rs) (rs_Sub rs) (rs_Not rs) (rs_To rs).
Lemma composite_condition_ignored geo site provs rs l : rs_Op rs <> [] -> specToRule geo site provs (set_Domain rs l) = specToRule geo site provs rs.
Proof. destruct rs. cbn. destruct rs_Op0; done. Qed.
End routing.

Module Examples.
#[local] Instance ascii : Unicode := ascii_only.
Definition domain_rule (d : String.string) (to : String.string) : RuleSpec := mkRuleSpec [bs d] [] [] [] [] [] [] [] [] [] [] [] [] [] false (bs to).
Definition set_rule (name to : String.string) : RuleSpec := mkRuleSpec [] [] [] [] [] [] [] [] [] [bs name] [] [] [] [] false (bs to).
Definition lan : ProviderSpec := mkProvider (bs "lan") (bs "ipcidr") (bs "lan.txt") [] [].
Definition routing : RoutingSpec := mkRouting (bs "proxy") [domain_rule "a.example" "direct"; set_rule "lan" "direct"] [] [] [lan].
Definition outbound : Outbound unit unit unit := mkOutbound (fun w _ => (tt, w)) (fun w _ => (tt, w)).
Definition outs : gmap bytes (Outbound unit unit unit) := {[bs "direct" := outbound; bs "proxy" := outbound]}.
Definition lan_set : IPSet := {| MatchIP := Prefix_Contains (prefix "10.0.0.0/8") |}.
Definition router := buildRouter (fun _ => None) (fun _ => None) (fun _ => None) (fun _ => Some lan_set) (fun _ => None) routing.
Definition engine : Engine := match router (dom outs) with Ok e => e | Err _ => empty_engine 0 [] end.
Definition src0 : AddrPort := {| ap_addr := addr "192.0.2.7"; ap_port := 1 |}.
Definition to_addr (a : String.string) : Socksaddr := FromIPPort {| ap_addr := addr a; ap_port := 443 |}.


Example unknown_target : buildRouter (fun _ => None) (fun _ => None) (fun _ => None) (fun _ => None) (fun _ => None)
  (mkRouting (bs "proxy") [domain_rule "a.example" "tor"] [] [] []) {[bs "proxy"]} = Err (errTo 0 (bs "tor")).
Proof. vm_compute. reflexivity. Qed.
End Examples.
