(* ===== verification/StreamLayer.v ===== *)
(** * Layers over a stream

    A layer ([core/transport.StreamTransport]) turns the stream below into another stream. The
    stream below is the bytes that will arrive, and a choice of how many of them each read
    returns; a layer is right when, for every such choice and whatever the sizes of the
    buffers, its reader hands out exactly the bytes the layer's writer at the other end was
    given. *)
From S2P Require Import Prelude GoStd.

(** ** The stream below *)

Section below.
(** How many bytes a read into a buffer of some size returns, of those that are to come. *)
Context (cut : bytes -> nat -> nat).

(** At least one, when there are any. *)
Definition cut_size (data : bytes) (n : nat) : nat := Nat.max 1 (Nat.min (cut data n) (Nat.min n (length data))).

(** [Read] into a buffer of [n] bytes: what it returns, its error, and what is still to come. *)
Definition stream_read (data : bytes) (n : nat) : bytes * option io_err * bytes :=
  match n with
  | O => ([], None, data)
  | _ => match data with
         | [] => ([], Some EOF, [])
         | _ => (take (cut_size data n) data, None, drop (cut_size data n) data)
         end
  end.

Lemma stream_read_cut data n : data <> [] -> (0 < n)%nat -> stream_read data n = (take (cut_size data n) data, None, drop (cut_size data n) data).
Proof. intros Hd Hn. destruct n; [lia|]. by destruct data. Qed.

Lemma stream_read_spec data n : data <> [] -> (0 < n)%nat ->
  exists x rest, stream_read data n = (x, None, rest) /\ data = x ++ rest /\ x <> [] /\ (length x <= n)%nat.
Proof.
  intros Hd Hn. rewrite stream_read_cut by done. set (k := cut_size data n).
  assert (1 <= k <= Nat.min n (length data))%nat as Hk by (unfold k, cut_size; destruct data; [done|cbn [length]; lia]).
  exists (take k data), (drop k data). split_and!; [done|by rewrite take_drop| |rewrite length_take; lia].
  intros E. apply (f_equal length) in E. rewrite length_take in E. cbn in E. lia.
Qed.
End below.

(** [io.ReadFull], with the part it read before an error. *)
Definition read_full (data : bytes) (n : nat) : bytes * option io_err * bytes :=
  if (n <=? length data)%nat then (take n data, None, drop n data)
  else (data, Some (if bool_decide (data = []) then EOF else ErrUnexpectedEOF), []).

Lemma read_full_app a r n : length a = n -> read_full (a ++ r) n = (a, None, r).
Proof. intros <-. unfold read_full. rewrite length_app. destruct (Nat.leb_spec (length a) (length a + length r)); [|lia]. by rewrite take_app_length, drop_app_length. Qed.

Lemma read_full_split data n : (n <= length data)%nat -> exists a r, read_full data n = (a, None, r) /\ data = a ++ r /\ length a = n.
Proof.
  intros Hn. exists (take n data), (drop n data). split_and!; [|by rewrite take_drop|rewrite length_take; lia].
  unfold read_full. by destruct (Nat.leb_spec n (length data)); [|lia].
Qed.

Lemma read_full_short data n : (length data < n)%nat -> exists e, read_full data n = (data, Some e, []).
Proof. intros Hn. unfold read_full. destruct (Nat.leb_spec n (length data)); [lia|]. by eexists. Qed.

(** ** Writes in pieces *)

Section pieces.
Context (size : nat).

(** The loop of a writer that sends at most [size] bytes at a time. *)
Fixpoint pieces (fuel : nat) (b : bytes) : list bytes :=
  match fuel, b with
  | S fuel, _ :: _ => take size b :: pieces fuel (drop size b)
  | _, _ => []
  end.

(** The pieces of several writes. *)
Definition chunks (ws : list bytes) : list bytes := concat ((fun w => pieces (length w) w) <$> ws).

Definition piece_ok (c : bytes) : Prop := c <> [] /\ (length c <= size)%nat.

Lemma pieces_ok fuel : (0 < size)%nat -> forall b, (length b <= fuel)%nat -> concat (pieces fuel b) = b /\ Forall piece_ok (pieces fuel b).
Proof.
  intros Hk. induction fuel as [|fuel IH]; intros b Hb; [destruct b; [done|cbn in Hb; lia]|]. destruct b as [|x b]; [done|]. cbn [pieces].
  destruct (IH (drop size (x :: b))) as [H1 H2]; [rewrite length_drop; cbn [length] in *; lia|]. cbn [concat]. rewrite H1. split; [apply take_drop|].
  constructor; [|done]. split; [by destruct size; [lia|]|]. rewrite length_take. lia.
Qed.

Lemma chunks_ok ws : (0 < size)%nat -> concat (chunks ws) = concat ws /\ Forall piece_ok (chunks ws).
Proof.
  intros Hk. induction ws as [|w ws [IH1 IH2]]; [done|]. unfold chunks in *. cbn. destruct (pieces_ok (length w) Hk w ltac:(lia)) as [H1 H2].
  rewrite concat_app, IH1, H1. split; [done|]. by apply Forall_app.
Qed.
End pieces.

(** ** Readers *)

(** A reader of a layer: its state, the bytes to come, the size of the buffer. *)
Definition reader (E S : Type) : Type := S -> bytes -> nat -> bytes * option E * bytes * S.

(** [rep s data p]: in the state [s], with [data] to come below, [p] is to come above. *)
Class Delivers {E S : Type} (read : reader E S) (rep : S -> bytes -> bytes -> Prop) : Prop := {
  delivers : forall s data p n, rep s data p -> p <> [] -> (0 < n)%nat ->
    exists x p' data' s', read s data n = (x, None, data', s') /\ p = x ++ p' /\ x <> [] /\ (length x <= n)%nat /\ rep s' data' p';
}.

(** Reads with buffers of the sizes [ns], until one fails: what they return together. *)
Fixpoint reads {E S} (read : reader E S) (s : S) (data : bytes) (ns : list nat) : bytes * option E :=
  match ns with
  | [] => ([], None)
  | n :: ns => match read s data n with
               | (x, Some e, _, _) => (x, Some e)
               | (x, None, data, s) => let '(y, e) := reads read s data ns in (x ++ y, e)
               end
  end.

Section delivers.
Context {E S : Type} (read : reader E S) (rep : S -> bytes -> bytes -> Prop) `{!Delivers read rep}.

(** Reads return a prefix of what is to come, one byte each at least, until all of it is
    there. *)
Lemma reads_deliver ns : forall s data p, rep s data p -> Forall (fun n => (0 < n)%nat) ns ->
  (exists x p', p = x ++ p' /\ reads read s data ns = (x, None) /\ (length ns <= length x)%nat) \/
  (exists ns1 ns2, ns = ns1 ++ ns2 /\ reads read s data ns1 = (p, None)).
Proof.
  induction ns as [|n ns IH]; intros s data p Hr Hn; [left; exists [], p; done|]. inversion Hn as [|? ? H1 H2]; subst.
  destruct p as [|b p]; [right; exists [], (n :: ns); done|].
  destruct (delivers s data (b :: p) n Hr ltac:(done) H1) as (x & p' & data' & s' & Er & Ep & Hx & _ & Hr').
  destruct (IH s' data' p' Hr' H2) as [(y & p'' & -> & Ey & Hy)|(ns1 & ns2 & -> & E1)].
  - left. exists (x ++ y), p''. split; [by rewrite Ep, app_assoc|]. cbn [reads]. rewrite Er, Ey. split; [done|].
    rewrite length_app. destruct x; [done|]. cbn. lia.
  - right. exists (n :: ns1), ns2. split; [done|]. cbn [reads]. rewrite Er, E1. by rewrite Ep.
Qed.

(** As many reads as there are bytes to come get all of them. *)
Lemma reads_all s data p ns : rep s data p -> Forall (fun n => (0 < n)%nat) ns -> (length p <= length ns)%nat ->
  exists ns1 ns2, ns = ns1 ++ ns2 /\ reads read s data ns1 = (p, None).
Proof.
  intros Hr Hn Hl. destruct (reads_deliver ns s data p Hr Hn) as [(x & p' & -> & Ex & Hx)|?]; [|done]. exists ns, []. split; [by rewrite app_nil_r|].
  rewrite length_app in Hl. destruct p' as [|b p']; [by rewrite app_nil_r|cbn in Hl; lia].
Qed.

(** Whatever the reads are, they return a prefix of what is to come, or first all of it. *)
Lemma reads_prefix s data p ns : rep s data p -> Forall (fun n => (0 < n)%nat) ns ->
  (exists x p', p = x ++ p' /\ reads read s data ns = (x, None)) \/ (exists ns1 ns2, ns = ns1 ++ ns2 /\ reads read s data ns1 = (p, None)).
Proof. intros Hr Hn. destruct (reads_deliver ns s data p Hr Hn) as [(x & p' & ? & ? & _)|?]; [left; by exists x, p'|by right]. Qed.
End delivers.
