(* ===== verification/Obfs.v ===== *)
(** * simple-obfs ([transport/obfs/obfs.go], [transport/obfs/tls.go])

    A connection dressed up as a TLS session or as an HTTP upgrade, over the stream of
    [StreamLayer]. The HTTP server's parsing of the request is [net/http]'s. *)
From S2P Require Import Prelude GoStd MuxClient AddrText StreamLayer.
From Stdlib Require Import Init.Byte.

Section conn.
Context (cut : bytes -> nat -> nat).
Local Abbreviation stream_read := (stream_read cut).

(** ** Records *)

Definition tlsChunkSize : nat := Z.to_nat 16384.

Definition writeAppData (b : bytes) : bytes := [x17; x03; x03] ++ be_enc 2 (len b) ++ b.

(** [readRecord] into a buffer of [n] bytes: returned bytes, error, rest, and the new
    [remain]. *)
Definition readRecord (data : bytes) (n discard : nat) (remain : Z) : bytes * option io_err * bytes * Z :=
  match (if (0 <? discard)%nat then read_full data discard else ([], None, data)) with
  | (_, Some e, data) => ([], Some e, data, remain)
  | (_, None, data) =>
      match read_full data 2 with
      | (_, Some _, data) => ([], None, data, remain)
      | (sz, None, data) =>
          let length := be_dec sz in
          if Z.of_nat n <? length then
            match stream_read data n with
            | (b, Some e, data) => (b, Some e, data, remain)
            | (b, None, data) => (b, None, data, length - len b)
            end
          else let '(b, e, data) := read_full data (Z.to_nat length) in (b, e, data, remain)
      end
  end.

Definition readRemain (data : bytes) (n : nat) (remain : Z) : bytes * option io_err * bytes * Z :=
  let '(b, e, data) := read_full data (Nat.min (Z.to_nat remain) n) in (b, e, data, remain - len b).

(** ** The client *)

Record tlsClientConn := mkTlsClient { tc_remain : Z; tc_firstRequest : bool; tc_firstResponse : bool }.
Definition newTlsClient : tlsClientConn := mkTlsClient 0 true true.

(** What [rand.Read] and the clock give a hello. *)
Record helloDraws := mkDraws { d_time : Z; d_random : bytes; d_sessionID : bytes }.
Definition draws_ok (d : helloDraws) : Prop := length (d_random d) = 28%nat /\ length (d_sessionID d) = 32%nat.

Definition cipherSuites : bytes :=
  [xc0; x2c; xc0; x30; x00; x9f; xcc; xa9; xcc; xa8; xcc; xaa; xc0; x2b; xc0; x2f;
   x00; x9e; xc0; x24; xc0; x28; x00; x6b; xc0; x23; xc0; x27; x00; x67; xc0; x0a;
   xc0; x14; x00; x39; xc0; x09; xc0; x13; x00; x33; x00; x9d; x00; x9c; x00; x3d;
   x00; x3c; x00; x35; x00; x2f; x00; xff].

Definition otherExts : bytes :=
  [x00; x0b; x00; x04; x03; x01; x00; x02;
   x00; x0a; x00; x0a; x00; x08; x00; x1d; x00; x17; x00; x19; x00; x18;
   x00; x0d; x00; x20; x00; x1e; x06; x01; x06; x02; x06; x03; x05;
   x01; x05; x02; x05; x03; x04; x01; x04; x02; x04; x03; x03; x01;
   x03; x02; x03; x03; x02; x01; x02; x02; x02; x03;
   x00; x16; x00; x00; x00; x17; x00; x00].

Definition makeClientHelloMsg (d : helloDraws) (data server : bytes) : bytes :=
  [x16; x03; x01] ++ be_enc 2 (212 + len data + len server) ++
  [x01; x00] ++ be_enc 2 (208 + len data + len server) ++ [x03; x03] ++
  be_enc 4 (d_time d) ++ d_random d ++ [x20] ++ d_sessionID d ++
  [x00; x38] ++ cipherSuites ++ [x01; x00] ++
  be_enc 2 (79 + len data + len server) ++
  [x00; x23] ++ be_enc 2 (len data) ++ data ++
  [x00; x00] ++ be_enc 2 (len server + 5) ++ be_enc 2 (len server + 3) ++ [x00] ++ be_enc 2 (len server) ++ server ++
  otherExts.

Definition makeServerHello (d : helloDraws) (data : bytes) : bytes :=
  [x16; x03; x01] ++ be_enc 2 91 ++ [x02; x00; x00; x57; x03; x03] ++
  be_enc 4 (d_time d) ++ d_random d ++ [x20] ++ d_sessionID d ++
  [xcc; xa8; x00; x00; x00; xff; x01; x00; x01; x00; x00; x17; x00; x00; x00; x0b; x00; x02; x01; x00] ++
  [x14; x03; x03; x00; x01; x01] ++ [x16; x03; x03] ++ be_enc 2 (len data) ++ data.

(** A write goes in pieces of 16 KiB; the first ever piece is in the hello. *)
Definition client_writeChunk (server : bytes) (d : helloDraws) (c : tlsClientConn) (b : bytes) : bytes * tlsClientConn :=
  if tc_firstRequest c then (makeClientHelloMsg d b server, mkTlsClient (tc_remain c) false (tc_firstResponse c)) else (writeAppData b, c).
Fixpoint client_write_pieces (server : bytes) (d : helloDraws) (c : tlsClientConn) (ps : list bytes) : bytes * tlsClientConn :=
  match ps with
  | [] => ([], c)
  | p :: ps => let '(o, c) := client_writeChunk server d c p in let '(o', c) := client_write_pieces server d c ps in (o ++ o', c)
  end.
Definition client_Write (server : bytes) (d : helloDraws) (c : tlsClientConn) (b : bytes) : bytes * tlsClientConn :=
  client_write_pieces server d c (pieces tlsChunkSize (length b) b).

Definition client_Read (c : tlsClientConn) (data : bytes) (n : nat) : bytes * option io_err * bytes * tlsClientConn :=
  if 0 <? tc_remain c then
    let '(b, e, data, remain) := readRemain data n (tc_remain c) in (b, e, data, mkTlsClient remain (tc_firstRequest c) (tc_firstResponse c))
  else if tc_firstResponse c then
    let '(b, e, data, remain) := readRecord data n 105 (tc_remain c) in (b, e, data, mkTlsClient remain (tc_firstRequest c) false)
  else let '(b, e, data, remain) := readRecord data n 3 (tc_remain c) in (b, e, data, mkTlsClient remain (tc_firstRequest c) (tc_firstResponse c)).

(** ** The server *)

Record tlsServerConn := mkTlsServer { ts_remain : Z; ts_firstRequest : bool; ts_sessionTicketDone : bool; ts_firstResponse : bool }.
Definition newTlsServer : tlsServerConn := mkTlsServer 0 true false true.

Definition server_writeChunk (d : helloDraws) (s : tlsServerConn) (b : bytes) : bytes * tlsServerConn :=
  if ts_firstResponse s then (makeServerHello d b, mkTlsServer (ts_remain s) (ts_firstRequest s) (ts_sessionTicketDone s) false) else (writeAppData b, s).
Fixpoint server_write_pieces (d : helloDraws) (s : tlsServerConn) (ps : list bytes) : bytes * tlsServerConn :=
  match ps with
  | [] => ([], s)
  | p :: ps => let '(o, s) := server_writeChunk d s p in let '(o', s) := server_write_pieces d s ps in (o ++ o', s)
  end.
Definition server_Write (d : helloDraws) (s : tlsServerConn) (b : bytes) : bytes * tlsServerConn := server_write_pieces d s (pieces tlsChunkSize (length b) b).

(** [skipOtherExts]: the name into a buffer of 256 bytes, then 66 bytes. *)
Definition skipOtherExts (data : bytes) (remain : Z) : option io_err * bytes * Z :=
  match readRecord data 256 7 remain with
  | (_, Some e, data, remain) => (Some e, data, remain)
  | (_, None, data, remain) => let '(_, e, data) := read_full data 66 in (e, data, remain)
  end.

Definition server_Read (s : tlsServerConn) (data : bytes) (n : nat) : bytes * option io_err * bytes * tlsServerConn :=
  if 0 <? ts_remain s then
    let '(b, e, data, remain) := readRemain data n (ts_remain s) in
    (b, e, data, mkTlsServer remain (ts_firstRequest s) (ts_sessionTicketDone s) (ts_firstResponse s))
  else if ts_firstRequest s then
    let '(b, e, data, remain) := readRecord data n 140 (ts_remain s) in (b, e, data, mkTlsServer remain false (ts_sessionTicketDone s) (ts_firstResponse s))
  else
    match (if ts_sessionTicketDone s then (None, data, ts_remain s) else skipOtherExts data (ts_remain s)) with
    | (Some e, data, remain) => ([], Some e, data, mkTlsServer remain false true (ts_firstResponse s))
    | (None, data, remain) =>
        let '(b, e, data, remain) := readRecord data n 3 remain in (b, e, data, mkTlsServer remain false true (ts_firstResponse s))
    end.

(** ** HTTP: the client *)

Record clientConn := mkClientConn { cc_firstReq : bool; cc_firstResp : bool; cc_rbuf : bytes }.
Definition newClientConn : clientConn := mkClientConn true true [].

Definition crlf : bytes := [x0d; x0a].
Definition crlf2 : bytes := crlf ++ crlf.

(** [bytes.Index]. *)
Fixpoint Index (s sub : bytes) : option nat :=
  if HasPrefix s sub then Some O else match s with [] => None | _ :: s' => S <$> Index s' sub end.

(** [key] is the encoded random key of the request. *)
Definition http_Write (host key : bytes) (c : clientConn) (b : bytes) : bytes * clientConn :=
  if negb (cc_firstReq c) then (b, c)
  else (bs "GET http://" ++ host ++ bs "/ HTTP/1.1" ++ crlf ++ bs "Host: " ++ host ++ crlf ++ bs "User-Agent: curl/7.74.0" ++ crlf ++
        bs "Upgrade: websocket" ++ crlf ++ bs "Connection: Upgrade" ++ crlf ++ bs "Sec-WebSocket-Key: " ++ key ++ crlf ++
        bs "Content-Length: " ++ Itoa (len b) ++ crlf2 ++ b,
        mkClientConn false (cc_firstResp c) (cc_rbuf c)).

Inductive httpErr := errBelow (e : io_err) | errNoHeader.

Definition http_Read (c : clientConn) (data : bytes) (n : nat) : bytes * option httpErr * bytes * clientConn :=
  match cc_rbuf c with
  | _ :: _ => (take n (cc_rbuf c), None, data, mkClientConn (cc_firstReq c) (cc_firstResp c) (drop n (cc_rbuf c)))
  | [] =>
      if negb (cc_firstResp c) then
        let '(b, e, data) := stream_read data n in (b, errBelow <$> e, data, c)
      else
        match stream_read data 4096 with
        | (_, Some e, data) => ([], Some (errBelow e), data, c)
        | (buf, None, data) =>
            match Index buf crlf2 with
            | None => ([], Some errNoHeader, data, c)
            | Some i => let rest := drop (i + 4) buf in (take n rest, None, data, mkClientConn (cc_firstReq c) false (drop n rest))
            end
        end
  end.

Definition http_response (accept : bytes) : bytes :=
  bs "HTTP/1.1 101 Switching Protocols" ++ crlf ++ bs "Server: nginx" ++ crlf ++ bs "Upgrade: websocket" ++ crlf ++ bs "Connection: Upgrade" ++ crlf ++
  bs "Sec-WebSocket-Accept: " ++ accept ++ crlf2.

(** ** Records read back *)

Definition chunk_ok (c : bytes) : Prop := c <> [] /\ len c < 65536.
Definition frames (cs : list bytes) : bytes := concat (writeAppData <$> cs).

Lemma read_full_be pre c rest n : length pre = n -> read_full (pre ++ be_enc 2 (len c) ++ c ++ rest) n = (pre, None, be_enc 2 (len c) ++ c ++ rest).
Proof. apply read_full_app. Qed.

(** A record behind [discard] bytes: a read returns its bytes, and remembers how many of them
    it left. *)
Lemma readRecord_ok pre c rest n discard : length pre = discard -> (0 < discard)%nat -> len c < 65536 -> (0 < n)%nat ->
  exists x c', readRecord (pre ++ be_enc 2 (len c) ++ c ++ rest) n discard 0 = (x, None, c' ++ rest, len c') /\
    c = x ++ c' /\ (length x <= n)%nat /\ (c <> [] -> x <> []).
Proof.
  intros Hp Hd Hc Hn. unfold readRecord. destruct (Nat.ltb_spec 0 discard); [|lia]. rewrite read_full_be by done.
  rewrite read_full_app by (by rewrite length_be_enc). rewrite be_dec_enc_small by (pose proof (len_nonneg c); cbn; lia).
  destruct (Z.of_nat n <? len c) eqn:El; to_prop.
  - destruct (stream_read_spec cut (c ++ rest) n) as (x & r & Er & E & Hx & Hxn); [unfold len in El; destruct c; [cbn in El; lia|done]|done|].
    rewrite Er. apply app_eq_app in E as [l [[-> ->]|[-> E]]].
    + exists x, l. rewrite len_app. split_and!; [repeat f_equal; lia|done|done|done].
    + unfold len in El. rewrite length_app in Hxn. lia.
  - rewrite read_full_app by (unfold len; lia). exists c, []. rewrite app_nil_r. split_and!; [done|done|unfold len in El; lia|done].
Qed.

(** What is left of a record. *)
Lemma readRemain_ok c rest n : c <> [] -> (0 < n)%nat ->
  exists x c', readRemain (c ++ rest) n (len c) = (x, None, c' ++ rest, len c') /\ c = x ++ c' /\ x <> [] /\ (length x <= n)%nat.
Proof.
  intros Hc Hn. unfold readRemain. set (k := Nat.min (Z.to_nat (len c)) n).
  assert (1 <= k <= length c)%nat as Hk by (unfold k, len; destruct c; [done|cbn [length] in *; lia]).
  exists (take k c), (drop k c). rewrite <-(take_drop k c) at 1. rewrite <-app_assoc, read_full_app by (rewrite length_take; lia).
  split_and!; [|by rewrite take_drop| |rewrite length_take; lia].
  - repeat f_equal. unfold len. rewrite length_take, length_drop. lia.
  - intros E. apply (f_equal length) in E. rewrite length_take in E. cbn in E. lia.
Qed.

Lemma frames_cons c cs : frames (c :: cs) = [x17; x03; x03] ++ be_enc 2 (len c) ++ c ++ frames cs.
Proof. unfold frames, writeAppData. cbn [fmap list_fmap concat]. by rewrite <-!app_assoc. Qed.

(** ** From client to server *)

(** What follows the first data in the hello. *)
Definition hello_tail (server : bytes) : bytes :=
  ([x00; x00] ++ be_enc 2 (len server + 5) ++ be_enc 2 (len server + 3) ++ [x00]) ++ be_enc 2 (len server) ++ server ++ otherExts.

Definition client_wire (server : bytes) (d : helloDraws) (cs : list bytes) : bytes :=
  match cs with [] => [] | c :: cs => makeClientHelloMsg d c server ++ frames cs end.

Lemma client_hello_split d c server : draws_ok d ->
  exists pre, length pre = 140%nat /\ makeClientHelloMsg d c server = pre ++ be_enc 2 (len c) ++ c ++ hello_tail server.
Proof.
  intros [H1 H2]. eexists ([x16; x03; x01] ++ be_enc 2 (212 + len c + len server) ++ [x01; x00] ++ be_enc 2 (208 + len c + len server) ++ [x03; x03] ++
    be_enc 4 (d_time d) ++ d_random d ++ [x20] ++ d_sessionID d ++ [x00; x38] ++ cipherSuites ++ [x01; x00] ++ be_enc 2 (79 + len c + len server) ++ [x00; x23]).
  split; [repeat rewrite ?length_app, ?length_be_enc, ?H1, ?H2; done|]. unfold makeClientHelloMsg, hello_tail. by rewrite <-!app_assoc.
Qed.

Lemma client_write_pieces_ok server d ps : forall c, (client_write_pieces server d c ps).1 = (if tc_firstRequest c then client_wire server d ps else frames ps) /\
  tc_firstRequest (client_write_pieces server d c ps).2 = tc_firstRequest c && bool_decide (ps = []).
Proof.
  induction ps as [|p ps IH]; intros c; cbn [client_write_pieces];
    [by destruct (tc_firstRequest c) eqn:Ec; cbn; rewrite Ec|]. unfold client_writeChunk.
  destruct (tc_firstRequest c) eqn:Ec.
  - specialize (IH (mkTlsClient (tc_remain c) false (tc_firstResponse c))). destruct (client_write_pieces _ _ _ ps) as [o c']. cbn in IH |- *. destruct IH as [-> ->]. done.
  - specialize (IH c). rewrite Ec in IH. destruct (client_write_pieces _ _ _ ps) as [o c']. cbn in IH |- *. destruct IH as [-> ->]. split; [|done].
    unfold frames. cbn. done.
Qed.

(** Writes, one after the other. *)
Fixpoint client_Writes (server : bytes) (d : helloDraws) (c : tlsClientConn) (ws : list bytes) : bytes :=
  match ws with [] => [] | w :: ws => let '(o, c) := client_Write server d c w in o ++ client_Writes server d c ws end.

Lemma obfs_chunks ws : concat (chunks tlsChunkSize ws) = concat ws /\ Forall chunk_ok (chunks tlsChunkSize ws).
Proof.
  destruct (chunks_ok tlsChunkSize ws) as [H1 H2]; [unfold tlsChunkSize; lia|]. split; [done|]. eapply Forall_impl; [exact H2|].
  intros c [Hc Hl]. split; [done|]. unfold len, tlsChunkSize in *. lia.
Qed.

Lemma frames_app a b : frames (a ++ b) = frames a ++ frames b.
Proof. unfold frames. by rewrite fmap_app, concat_app. Qed.

Lemma client_Writes_ok server d ws : forall c, client_Writes server d c ws = if tc_firstRequest c then client_wire server d (chunks tlsChunkSize ws) else frames (chunks tlsChunkSize ws).
Proof.
  induction ws as [|w ws IH]; intros c; cbn [client_Writes]; [by destruct (tc_firstRequest c)|]. unfold client_Write.
  destruct (client_write_pieces_ok server d (pieces tlsChunkSize (length w) w) c) as [H1 H2]. destruct (client_write_pieces _ _ c _) as [o c']. cbn [fst snd] in H1, H2.
  rewrite IH, H1, H2. unfold chunks at 3 4. cbn [fmap list_fmap concat]. fold (chunks tlsChunkSize ws). destruct (tc_firstRequest c); cbn [andb]; [|by rewrite frames_app].
  case_bool_decide as Hp; [by rewrite Hp|]. destruct (pieces tlsChunkSize (length w) w) as [|p ps]; [done|]. cbn [client_wire app]. by rewrite <-app_assoc, frames_app.
Qed.

(** What the server has in front of it, with nothing of a record left over. *)
Definition server_rep0 (server : bytes) (d : helloDraws) (s : tlsServerConn) (data p : bytes) : Prop :=
  exists cs, Forall chunk_ok cs /\ p = concat cs /\
    data = if ts_firstRequest s then client_wire server d cs else if ts_sessionTicketDone s then frames cs else hello_tail server ++ frames cs.

Definition server_rep (server : bytes) (d : helloDraws) (s : tlsServerConn) (data p : bytes) : Prop :=
  (ts_firstRequest s = true -> ts_sessionTicketDone s = false) /\
  exists c data2 p2, ts_remain s = len c /\ data = c ++ data2 /\ p = c ++ p2 /\ (ts_firstRequest s = true -> c = []) /\ server_rep0 server d s data2 p2.

Lemma skipOtherExts_ok server rest : (length server <= 256)%nat -> skipOtherExts (hello_tail server ++ rest) 0 = (None, rest, 0).
Proof.
  intros Hs. unfold skipOtherExts, hello_tail. rewrite <-app_assoc. rewrite <-(app_assoc (be_enc 2 (len server))), <-(app_assoc server).
  unfold readRecord. destruct (Nat.ltb_spec 0 7); [|lia]. rewrite read_full_app by (rewrite !length_app, !length_be_enc; done).
  rewrite read_full_app by (by rewrite length_be_enc). rewrite be_dec_enc_small by (unfold len; cbn; lia).
  destruct (Z.of_nat 256 <? len server) eqn:E; [unfold len in E; to_prop; lia|].
  rewrite read_full_app by (unfold len; lia). rewrite read_full_app by done. done.
Qed.

#[export] Instance server_delivers server d : draws_ok d -> (length server <= 256)%nat -> Delivers server_Read (server_rep server d).
Proof.
  intros Hd Hs. split. intros s data p n [Hfl (c & data2 & p2 & Hr & -> & -> & Hfc & cs & Hcs & -> & Hdata)] Hp Hn.
  unfold server_Read. rewrite Hr. destruct c as [|b c].
  - change (len []) with 0. change (0 <? 0) with false. cbn iota. cbn [app] in *. destruct cs as [|c cs]; [done|]. inversion Hcs as [|? ? [Hc Hlen] Hcs']; subst.
    destruct (ts_firstRequest s) eqn:Ef.
    + cbn [client_wire]. destruct (client_hello_split d c server Hd) as (pre & Hpre & ->). rewrite <-!app_assoc.
      destruct (readRecord_ok pre c (hello_tail server ++ frames cs) n 140 Hpre ltac:(lia) Hlen Hn) as (x & c' & -> & Ec & Hx & Hne).
      exists x, (c' ++ concat cs), (c' ++ hello_tail server ++ frames cs), (mkTlsServer (len c') false (ts_sessionTicketDone s) (ts_firstResponse s)).
      split_and!; [done|cbn; by rewrite Ec, app_assoc|by apply Hne|done|]. split; [done|]. exists c', (hello_tail server ++ frames cs), (concat cs). split_and!; [done..|].
      exists cs. cbn. by rewrite (Hfl eq_refl).
    + assert (forall data, (if ts_sessionTicketDone s then (None, data, 0) else skipOtherExts (hello_tail server ++ data) 0) = (None, data, 0)) as Hskip
        by (intros data; destruct (ts_sessionTicketDone s); [done|by apply skipOtherExts_ok]).
      assert ((if ts_sessionTicketDone s then (None, if ts_sessionTicketDone s then frames (c :: cs) else hello_tail server ++ frames (c :: cs), 0)
               else skipOtherExts (if ts_sessionTicketDone s then frames (c :: cs) else hello_tail server ++ frames (c :: cs)) 0) = (None, frames (c :: cs), 0)) as ->.
      { specialize (Hskip (frames (c :: cs))). by destruct (ts_sessionTicketDone s). }
      rewrite frames_cons. destruct (readRecord_ok [x17; x03; x03] c (frames cs) n 3 eq_refl ltac:(lia) Hlen Hn) as (x & c' & -> & Ec & Hx & Hne).
      exists x, (c' ++ concat cs), (c' ++ frames cs), (mkTlsServer (len c') false true (ts_firstResponse s)).
      split_and!; [done|cbn; by rewrite Ec, app_assoc|by apply Hne|done|]. split; [done|]. exists c', (frames cs), (concat cs). split_and!; [done..|]. exists cs. by cbn.
  - destruct (Z.ltb_spec 0 (len (b :: c))); [|unfold len in *; cbn in *; lia].
    destruct (readRemain_ok (b :: c) data2 n ltac:(done) Hn) as (x & c' & -> & Ec & Hx & Hxn).
    exists x, (c' ++ concat cs), (c' ++ data2), (mkTlsServer (len c') (ts_firstRequest s) (ts_sessionTicketDone s) (ts_firstResponse s)).
    split_and!; [done|by rewrite Ec, app_assoc|done|done|]. split; [done|]. exists c', data2, (concat cs). split_and!; [done..| |].
    + intros Ef. by specialize (Hfc Ef).
    + exists cs. by cbn.
Qed.
(** ** From server to client *)

Definition server_wire (d : helloDraws) (cs : list bytes) : bytes :=
  match cs with [] => [] | c :: cs => makeServerHello d c ++ frames cs end.

Lemma server_hello_split d c : draws_ok d -> exists pre, length pre = 105%nat /\ makeServerHello d c = pre ++ be_enc 2 (len c) ++ c.
Proof.
  intros [H1 H2]. eexists ([x16; x03; x01] ++ be_enc 2 91 ++ [x02; x00; x00; x57; x03; x03] ++ be_enc 4 (d_time d) ++ d_random d ++ [x20] ++ d_sessionID d ++
    [xcc; xa8; x00; x00; x00; xff; x01; x00; x01; x00; x00; x17; x00; x00; x00; x0b; x00; x02; x01; x00] ++ [x14; x03; x03; x00; x01; x01] ++ [x16; x03; x03]).
  split; [repeat rewrite ?length_app, ?length_be_enc, ?H1, ?H2; done|]. unfold makeServerHello. by rewrite <-!app_assoc.
Qed.

Lemma server_write_pieces_ok d ps : forall s, (server_write_pieces d s ps).1 = (if ts_firstResponse s then server_wire d ps else frames ps) /\
  ts_firstResponse (server_write_pieces d s ps).2 = ts_firstResponse s && bool_decide (ps = []).
Proof.
  induction ps as [|p ps IH]; intros s; cbn [server_write_pieces];
    [by destruct (ts_firstResponse s) eqn:Es; cbn; rewrite Es|]. unfold server_writeChunk.
  destruct (ts_firstResponse s) eqn:Es.
  - specialize (IH (mkTlsServer (ts_remain s) (ts_firstRequest s) (ts_sessionTicketDone s) false)). destruct (server_write_pieces _ _ ps) as [o s']. cbn in IH |- *. destruct IH as [-> ->]. done.
  - specialize (IH s). rewrite Es in IH. destruct (server_write_pieces _ _ ps) as [o s']. cbn in IH |- *. destruct IH as [-> ->]. done.
Qed.

Fixpoint server_Writes (d : helloDraws) (s : tlsServerConn) (ws : list bytes) : bytes :=
  match ws with [] => [] | w :: ws => let '(o, s) := server_Write d s w in o ++ server_Writes d s ws end.

Lemma server_Writes_ok d ws : forall s, server_Writes d s ws = if ts_firstResponse s then server_wire d (chunks tlsChunkSize ws) else frames (chunks tlsChunkSize ws).
Proof.
  induction ws as [|w ws IH]; intros s; cbn [server_Writes]; [by destruct (ts_firstResponse s)|]. unfold server_Write.
  destruct (server_write_pieces_ok d (pieces tlsChunkSize (length w) w) s) as [H1 H2]. destruct (server_write_pieces _ s _) as [o s']. cbn [fst snd] in H1, H2.
  rewrite IH, H1, H2. unfold chunks at 3 4. cbn [fmap list_fmap concat]. fold (chunks tlsChunkSize ws). destruct (ts_firstResponse s); cbn [andb]; [|by rewrite frames_app].
  case_bool_decide as Hp; [by rewrite Hp|]. destruct (pieces tlsChunkSize (length w) w) as [|p ps]; [done|]. cbn [server_wire app]. by rewrite <-app_assoc, frames_app.
Qed.

Definition client_rep0 (d : helloDraws) (c : tlsClientConn) (data p : bytes) : Prop :=
  exists cs, Forall chunk_ok cs /\ p = concat cs /\ data = if tc_firstResponse c then server_wire d cs else frames cs.

Definition client_rep (d : helloDraws) (c : tlsClientConn) (data p : bytes) : Prop :=
  exists b data2 p2, tc_remain c = len b /\ data = b ++ data2 /\ p = b ++ p2 /\ client_rep0 d c data2 p2.

#[export] Instance client_delivers d : draws_ok d -> Delivers client_Read (client_rep d).
Proof.
  intros Hd. split. intros s data p n (b & data2 & p2 & Hr & -> & -> & cs & Hcs & -> & Hdata) Hp Hn.
  unfold client_Read. rewrite Hr. destruct b as [|b0 b].
  - change (len []) with 0. change (0 <? 0) with false. cbn iota. cbn [app] in *. destruct cs as [|c cs]; [done|]. inversion Hcs as [|? ? [Hc Hlen] Hcs']; subst.
    destruct (tc_firstResponse s) eqn:Ef.
    + cbn [server_wire]. destruct (server_hello_split d c Hd) as (pre & Hpre & ->). rewrite <-!app_assoc.
      destruct (readRecord_ok pre c (frames cs) n 105 Hpre ltac:(lia) Hlen Hn) as (x & c' & -> & Ec & Hx & Hne).
      exists x, (c' ++ concat cs), (c' ++ frames cs), (mkTlsClient (len c') (tc_firstRequest s) false).
      split_and!; [done|cbn; by rewrite Ec, app_assoc|by apply Hne|done|]. exists c', (frames cs), (concat cs). split_and!; [done..|]. exists cs. by cbn.
    + rewrite frames_cons. destruct (readRecord_ok [x17; x03; x03] c (frames cs) n 3 eq_refl ltac:(lia) Hlen Hn) as (x & c' & -> & Ec & Hx & Hne).
      exists x, (c' ++ concat cs), (c' ++ frames cs), (mkTlsClient (len c') (tc_firstRequest s) false).
      split_and!; [done|cbn; by rewrite Ec, app_assoc|by apply Hne|done|]. exists c', (frames cs), (concat cs). split_and!; [done..|]. exists cs. by cbn.
  - destruct (Z.ltb_spec 0 (len (b0 :: b))); [|unfold len in *; cbn in *; lia].
    destruct (readRemain_ok (b0 :: b) data2 n ltac:(done) Hn) as (x & c' & -> & Ec & Hx & Hxn).
    exists x, (c' ++ concat cs), (c' ++ data2), (mkTlsClient (len c') (tc_firstRequest s) (tc_firstResponse s)).
    split_and!; [done|by rewrite Ec, app_assoc|done|done|]. exists c', data2, (concat cs). split_and!; [done..|]. exists cs. by cbn.
Qed.

(** What the writes of one end put on the wire is, for the other end's fresh connection, what
    was written. *)
Lemma client_Writes_rep server d ws : server_rep server d newTlsServer (client_Writes server d newTlsClient ws) (concat ws).
Proof.
  split; [done|]. exists [], (client_Writes server d newTlsClient ws), (concat ws). split_and!; [done..|]. destruct (obfs_chunks ws) as [H1 H2]. exists (chunks tlsChunkSize ws). by rewrite client_Writes_ok, H1.
Qed.

Lemma server_Writes_rep d ws : client_rep d newTlsClient (server_Writes d newTlsServer ws) (concat ws).
Proof.
  exists [], (server_Writes d newTlsServer ws), (concat ws). split_and!; [done..|]. destruct (obfs_chunks ws) as [H1 H2]. exists (chunks tlsChunkSize ws). by rewrite server_Writes_ok, H1.
Qed.
End conn.

(** [C40] A session dressed up as TLS, between a client and a server of the same host name of at
    most 256 bytes. Whatever each end writes, in whatever pieces, however the stream between them
    cuts what it carries, and whatever the sizes of the buffers: each end reads back exactly
    what the other wrote, as soon as it has read often enough and never an error before, and
    no more of it than was written. The data hidden in the hello, the extensions after it, the
    16 KiB records and those split over several reads are all included. *)
Theorem obfs_tls_session cut1 cut2 server dc ds up down ns1 ns2 :
  draws_ok dc -> draws_ok ds -> (length server <= 256)%nat -> Forall (fun n => (0 < n)%nat) ns1 -> Forall (fun n => (0 < n)%nat) ns2 ->
  (length (concat up) <= length ns1)%nat -> (length (concat down) <= length ns2)%nat ->
  (exists m, reads (server_Read cut1) newTlsServer (client_Writes server dc newTlsClient up) (take m ns1) = (concat up, None)) /\
  (exists m, reads (client_Read cut2) newTlsClient (server_Writes ds newTlsServer down) (take m ns2) = (concat down, None)).
Proof.
  intros Hc Hs Hl H1 H2 L1 L2. split.
  - destruct (reads_all (server_Read cut1) (server_rep server dc) (Delivers0 := server_delivers cut1 server dc Hc Hl) _ _ _ ns1 (client_Writes_rep server dc up) H1 L1) as (a & b & -> & E).
    exists (length a). by rewrite take_app_length.
  - destruct (reads_all (client_Read cut2) (client_rep ds) (Delivers0 := client_delivers cut2 ds Hs) _ _ _ ns2 (server_Writes_rep ds down) H2 L2) as (a & b & -> & E).
    exists (length a). by rewrite take_app_length.
Qed.

Lemma obfs_tls_session_witness :
  let d := mkDraws 0 (replicate 28 x00) (replicate 32 x00) in
  (exists m, reads (server_Read (fun _ _ => 1%nat)) newTlsServer (client_Writes (bs "bing.com") d newTlsClient [bs "hello"; bs "world"]) (take m (replicate 10 3%nat)) = (bs "helloworld", None)) /\
  (exists m, reads (client_Read (fun _ n => n)) newTlsClient (server_Writes d newTlsServer [bs "ok"]) (take m (replicate 10 4%nat)) = (bs "ok", None)).
Proof.
  intros d. apply (obfs_tls_session (fun _ _ => 1%nat) (fun _ n => n) (bs "bing.com") d d [bs "hello"; bs "world"] [bs "ok"]);
    first [split; reflexivity|repeat constructor|cbn; lia].
Defined.

(** ** HTTP *)

Section http.
Context (cut : bytes -> nat -> nat).

Lemma Index_cons x s : x <> x0d -> Index (x :: s) crlf2 = S <$> Index s crlf2.
Proof. intros Hx. cbn [Index]. unfold HasPrefix. rewrite bool_decide_eq_false_2; [done|]. cbn. intros [=]; congruence. Qed.

Lemma Index_crlf y s : y <> x0d -> Index (crlf ++ y :: s) crlf2 = (fun i => S (S i)) <$> Index (y :: s) crlf2.
Proof.
  intros Hy. change (crlf ++ y :: s) with (x0d :: x0a :: y :: s). transitivity (S <$> Index (x0a :: y :: s) crlf2).
  - cbn [Index]. unfold HasPrefix at 1. rewrite bool_decide_eq_false_2; [done|]. cbn. intros [=]; congruence.
  - rewrite (Index_cons x0a) by done. by destruct (Index (y :: s) crlf2).
Qed.

(** Over a line of a header, to the next line or to the end of the header. *)
Lemma Index_line l s : Forall (fun b => b <> x0d) l -> Index (l ++ s) crlf2 = (fun i => (length l + i)%nat) <$> Index s crlf2.
Proof. induction 1 as [|x l Hx _ IH]; [cbn [app]; by destruct (Index s crlf2)|]. cbn [app length]. rewrite Index_cons, IH by done. by destruct (Index s crlf2). Qed.

Lemma Index_end s : Index (crlf2 ++ s) crlf2 = Some 0%nat.
Proof. change (crlf2 ++ s) with (x0d :: x0a :: x0d :: x0a :: s). cbn [Index]. unfold HasPrefix. by rewrite bool_decide_eq_true_2. Qed.

Lemma Index_prefix sub : forall s t i, Index s sub = Some i -> Index (s ++ t) sub = Some i /\ (i + length sub <= length s)%nat.
Proof.
  induction s as [|x s IH]; intros t i H; cbn [Index] in H |- *.
  - destruct (HasPrefix [] sub) eqn:E; [|done]. injection H as <-. apply HasPrefix_spec in E as [r E]. symmetry in E. apply app_eq_nil in E as [-> ->].
    destruct t; cbn [app Index]; unfold HasPrefix; by rewrite bool_decide_eq_true_2.
  - cbn [app Index]. destruct (HasPrefix (x :: s) sub) eqn:E.
    + injection H as <-. apply HasPrefix_spec in E as [r E]. rewrite app_comm_cons, E.
      rewrite (proj2 (HasPrefix_spec ((sub ++ r) ++ t) sub)) by (exists (r ++ t); by rewrite app_assoc). rewrite length_app. split; [done|lia].
    + destruct (Index s sub) as [j|] eqn:Ej; [|done]. injection H as <-. destruct (IH t j eq_refl) as [-> Hj]. split; [|cbn [length]; lia].
      destruct (HasPrefix (x :: s ++ t) sub) eqn:E2; [|done]. exfalso. apply HasPrefix_spec in E2 as [r E2].
      assert (HasPrefix (x :: s) sub = true); [|congruence]. apply HasPrefix_spec.
      exists (drop (length sub) (x :: s)). rewrite <-(take_drop (length sub) (x :: s)) at 1. f_equal.
      rewrite app_comm_cons in E2. apply (f_equal (take (length sub))) in E2. rewrite take_app_length in E2. rewrite take_app_le in E2 by (cbn [length]; lia). done.
Qed.

(** The header of the answer ends where it ends, when the key it carries has no line break. *)
Lemma http_response_Index accept s : Forall (fun b => b <> x0d) accept ->
  exists i, Index (http_response accept ++ s) crlf2 = Some i /\ (i + 4)%nat = length (http_response accept).
Proof.
  intros Ha. unfold http_response. exists (length (bs "HTTP/1.1 101 Switching Protocols" ++ crlf ++ bs "Server: nginx" ++ crlf ++ bs "Upgrade: websocket" ++ crlf ++ bs "Connection: Upgrade" ++ crlf ++
    bs "Sec-WebSocket-Accept: " ++ accept)). split; [|rewrite !length_app; cbn; lia].
  assert (forall l1 l2 s, Forall (fun b => b <> x0d) l1 -> l2 <> [] -> Forall (fun b => b <> x0d) l2 ->
    Index (l1 ++ crlf ++ l2 ++ s) crlf2 = (fun i => (length l1 + S (S i))%nat) <$> Index (l2 ++ s) crlf2) as Hline.
  { intros l1 l2 s' H1 Hn H2. rewrite Index_line by done. destruct l2 as [|y l2]; [done|]. inversion H2; subst. cbn [app]. rewrite Index_crlf by done. by destruct (Index _ _). }
  rewrite <-!app_assoc. repeat (rewrite Hline by (first [done|repeat constructor; done])).
  rewrite Index_line by (repeat constructor; done). rewrite Index_line by done. rewrite Index_end. cbn [fmap option_fmap option_map]. f_equal. rewrite !length_app. cbn. lia.
Qed.

(** The first read takes the whole header, when the stream below gives it in one piece, and
    hands out what follows; *)
Lemma http_Read_whole accept p n : Forall (fun b => b <> x0d) accept ->
  let h := http_response accept in (length h <= cut_size cut (h ++ p) 4096)%nat ->
  exists x p' data', http_Read cut newClientConn (h ++ p) n = (x, None, data', mkClientConn true false p') /\ p = x ++ p' ++ data' /\ (length x <= n)%nat.
Proof.
  intros Ha h Hcut. unfold http_Read. cbn [cc_rbuf cc_firstResp negb newClientConn]. rewrite stream_read_cut by (done || lia). set (k := cut_size cut (h ++ p) 4096) in *.
  assert (take k (h ++ p) = h ++ take (k - length h) p) as Ek by (by rewrite take_app_ge).
  assert (drop k (h ++ p) = drop (k - length h) p) as Ed by (by rewrite drop_app_ge).
  rewrite Ek, Ed. destruct (http_response_Index accept (take (k - length h) p) Ha) as (i & Ei & Hi). fold h in Ei, Hi. rewrite Ei, Hi.
  rewrite drop_app_length. set (r := take (k - length h) p). exists (take n r), (drop n r), (drop (k - length h) p). split_and!; [done| |rewrite length_take; lia].
  rewrite app_assoc, take_drop. unfold r. by rewrite take_drop.
Qed.

(** and fails for good when it comes in two pieces: the rest of the header is never waited
    for. *)
Lemma http_Read_split accept p n : Forall (fun b => b <> x0d) accept ->
  let h := http_response accept in (cut_size cut (h ++ p) 4096 < length h)%nat ->
  exists data', http_Read cut newClientConn (h ++ p) n = ([], Some errNoHeader, data', newClientConn).
Proof.
  intros Ha h Hcut. unfold http_Read. cbn [cc_rbuf cc_firstResp negb newClientConn]. rewrite stream_read_cut by (done || lia). set (k := cut_size cut (h ++ p) 4096) in *.
  assert (take k (h ++ p) = take k h) as Ek by (apply take_app_le; lia).
  rewrite Ek. destruct (Index (take k h) crlf2) as [i|] eqn:Ei; [|by eexists]. exfalso.
  destruct (Index_prefix crlf2 (take k h) (drop k h) i Ei) as [E2 Hl]. rewrite take_drop in E2.
  destruct (http_response_Index accept [] Ha) as (j & Ej & Hj). rewrite app_nil_r in Ej. fold h in Ej, Hj. rewrite E2 in Ej. injection Ej as <-.
  rewrite length_take in Hl. cbn in Hl. lia.
Qed.

(** Later reads: what was left of the first, then the stream itself. *)
Lemma http_Read_left c data n : cc_rbuf c <> [] -> http_Read cut c data n = (take n (cc_rbuf c), None, data, mkClientConn (cc_firstReq c) (cc_firstResp c) (drop n (cc_rbuf c))).
Proof. intros H. unfold http_Read. by destruct (cc_rbuf c). Qed.

Definition http_rep (c : clientConn) (data p : bytes) : Prop := cc_firstResp c = false /\ p = cc_rbuf c ++ data.

#[export] Instance http_delivers : Delivers (http_Read cut) http_rep.
Proof.
  split. intros c data p n [Hc ->] Hp Hn. unfold http_Read. rewrite Hc. cbn [negb]. destruct (cc_rbuf c) as [|b r] eqn:Er.
  - destruct (stream_read_spec cut data n Hp Hn) as (x & rest & -> & -> & Hx & Hl). exists x, rest, rest, c. split_and!; [done..|]. by split; [|rewrite Er].
  - exists (take n (b :: r)), (drop n (b :: r) ++ data), data, (mkClientConn (cc_firstReq c) false (drop n (b :: r))).
    split_and!; [done|by rewrite app_assoc, take_drop|by destruct n; [lia|]|rewrite length_take; lia|done].
Qed.
End http.

(** ** The layer *)

Inductive Mode := http | tls.
Record Config := mkObfsConfig { cfg_Mode : Mode; cfg_Host : bytes }.

Definition Parse (mode host : bytes) : option Config :=
  let mode := if bool_decide (mode = []) then bs "http" else mode in
  if bool_decide (mode = bs "http") then Some (mkObfsConfig http host) else if bool_decide (mode = bs "tls") then Some (mkObfsConfig tls host) else None.

(** The name to show: the configured one, or the host of the peer's address, if it has one. *)
Definition resolveHost (cfg : Config) (RemoteAddr : option bytes) : bytes :=
  let host := cfg_Host cfg in
  let host := if bool_decide (host = []) then match RemoteAddr with Some a => match SplitHostPort a with Some (h, _) => h | None => [] end | None => [] end else host in
  if bool_decide (host = []) then bs "www.example.com" else host.

(** [strings.EqualFold] against a lower-case ASCII string: of the characters outside ASCII,
    U+212A folds to k and U+017F to s. *)
Fixpoint fold_case (s : bytes) : bytes :=
  match s with
  | xe2 :: x84 :: xaa :: s => x6b :: fold_case s
  | xc5 :: xbf :: s => x73 :: fold_case s
  | b :: s => lower_byte b :: fold_case s
  | [] => []
  end.
Definition EqualFold (s t : bytes) : bool := bool_decide (fold_case s = t).

Inductive clientLayer := httpClient (host : bytes) (c : clientConn) | tlsClient (server : bytes) (c : tlsClientConn).
Definition ClientWrap (cfg : Config) (RemoteAddr : option bytes) : clientLayer :=
  let host := resolveHost cfg RemoteAddr in match cfg_Mode cfg with tls => tlsClient host newTlsClient | http => httpClient host newClientConn end.

Section server.
(** What [http.ReadRequest] finds in front of a buffered stream: two header fields, the body,
    and what follows. *)
Record Request := mkRequest { req_Upgrade : bytes; req_Key : bytes; req_Body : bytes; req_rest : bytes }.
Context (ReadRequest : bytes -> option Request) (sha1_base64 : bytes -> bytes) (cut : bytes -> nat -> nat).

Definition wsMagic : bytes := bs "258EAFA5-E914-47DA-95CA-C5AB0DC85B11".
Definition wsAccept (key : bytes) : bytes := sha1_base64 (key ++ wsMagic).

Record serverConn := mkServerConn { sc_initial : bytes }.

(** The answer, the connection, and what is still to come. *)
Definition serverWrapHTTP (data : bytes) : option (bytes * serverConn * bytes) :=
  req ← ReadRequest data;
  if negb (EqualFold (req_Upgrade req) (bs "websocket")) then None
  else Some (http_response (wsAccept (req_Key req)), mkServerConn (req_Body req), req_rest req).

Definition serverConn_Read (c : serverConn) (data : bytes) (n : nat) : bytes * option io_err * bytes * serverConn :=
  match sc_initial c with
  | _ :: _ => (take n (sc_initial c), None, data, mkServerConn (drop n (sc_initial c)))
  | [] => let '(b, e, data) := stream_read cut data n in (b, e, data, c)
  end.

#[export] Instance serverConn_delivers : Delivers serverConn_Read (fun c data p => p = sc_initial c ++ data).
Proof.
  split. intros c data p n -> Hp Hn. unfold serverConn_Read. destruct (sc_initial c) as [|b r] eqn:Er.
  - destruct (stream_read_spec cut data n Hp Hn) as (x & rest & -> & -> & Hx & Hl). exists x, rest, rest, c. split_and!; [done..|]. by rewrite Er.
  - exists (take n (b :: r)), (drop n (b :: r) ++ data), data, (mkServerConn (drop n (b :: r))).
    split_and!; [done|by rewrite app_assoc, take_drop|by destruct n; [lia|]|rewrite length_take; lia|done].
Qed.

(** [net/http] finds the fields and the body of a request of the client. *)
Context (host key : bytes).
Hypothesis ReadRequest_client : forall b rest,
  ReadRequest ((http_Write host key newClientConn b).1 ++ rest) = Some (mkRequest (bs "websocket") key b rest).

(** The client's first write is the body of the request, the following ones are the stream:
    the server reads what was written. *)
Lemma obfs_http_up w ws ns : Forall (fun n => (0 < n)%nat) ns -> (length (concat (w :: ws)) <= length ns)%nat ->
  exists resp c data m, serverWrapHTTP ((http_Write host key newClientConn w).1 ++ concat ws) = Some (resp, c, data) /\
    reads serverConn_Read c data (take m ns) = (concat (w :: ws), None).
Proof.
  intros Hn Hl. unfold serverWrapHTTP. rewrite ReadRequest_client. cbn [mbind option_bind req_Upgrade]. change (EqualFold (bs "websocket") (bs "websocket")) with true. cbn [negb].
  destruct (reads_all serverConn_Read (fun c data p => p = sc_initial c ++ data) (mkServerConn w) (concat ws) (w ++ concat ws) ns eq_refl Hn Hl) as (a & b & -> & E).
  eexists _, _, _, (length a). split; [done|]. by rewrite take_app_length.
Qed.
End server.
