(* ===== verification/Juicity.v ===== *)
(** * Juicity ([outbound/juicity/proto.go], [juicity.go], [inbound.go], [conn.go])

    The wire format of the proxy streams and of the datagrams on them, the pool of QUIC
    connections of an outbound, and the authentication of a connection of an inbound. QUIC and
    the TLS key exporter are not under [src/]. *)
From stdpp Require Import relations.
From S2P Require Import Prelude GoStd Netip Socksaddr Proxy Link Vless.
From Stdlib Require Import Init.Byte.

(** ** Wire format *)

Inductive juicityErr := jRead (e : io_err) | jWrite | errBadAddr | errBadVersion | errBadCommand | errBadNetwork | errTooLong | errUnknownUser | errBadToken | errExport.
#[export] Instance juicity_errors : StreamErrors juicityErr := {| read_error := jRead; write_error := jWrite |}.

Definition version0 : byte := x00.
Definition cmdAuthenticate : byte := x00.
Definition networkTCP : byte := x01.
Definition networkUDP : byte := x03.
Definition atypIPv4 : byte := x01.
Definition atypDomain : byte := x03.
Definition atypIPv6 : byte := x04.

Definition appendAddr (b : bytes) (a : Socksaddr) : res juicityErr bytes :=
  let port := be_enc 2 (sa_port a) in
  if IsFqdn a then
    if 255 <? len (Fqdn a) then Err errBadAddr else Ok (b ++ [atypDomain; z2b (len (Fqdn a))] ++ Fqdn a ++ port)
  else if Is4 (Unmap (sa_addr a)) then Ok (b ++ [atypIPv4] ++ As4 (Unmap (sa_addr a)) ++ port)
  else if Is6 (sa_addr a) then Ok (b ++ [atypIPv6] ++ As16 (sa_addr a) ++ port)
  else Err errBadAddr.

Definition ipPort (a : Addr) (p : bytes) : Socksaddr := {| sa_addr := a; Fqdn := []; sa_port := be_dec p |}.

Definition readAddr : hs juicityErr Socksaddr :=
  t ← hread 1;
  let t := nth 0 t x00 in
  if bool_decide (t = atypIPv4) then b ← hread 6; mret (ipPort (AddrFrom4 (take 4 b)) (drop 4 b))
  else if bool_decide (t = atypIPv6) then b ← hread 18; mret (ipPort (AddrFrom16 (take 16 b)) (drop 16 b))
  else if bool_decide (t = atypDomain) then
    l ← hread 1;
    let n := Z.to_nat (b2z (nth 0 l x00)) in
    b ← hread (n + 2);
    if (n =? 0)%nat then hfail errBadAddr
    else mret {| sa_addr := AddrZero; Fqdn := take n b; sa_port := be_dec (drop n b) |}
  else hfail errBadAddr.

Definition appendAuth (b uuid token : bytes) : bytes := b ++ [version0; cmdAuthenticate] ++ uuid ++ token.

Definition readAuth : hs juicityErr (bytes * bytes) :=
  b ← hread 50;
  if negb (bool_decide (nth 0 b x00 = version0)) then hfail errBadVersion
  else if negb (bool_decide (nth 1 b x00 = cmdAuthenticate)) then hfail errBadCommand
  else mret (take 16 (drop 2 b), drop 18 b).

Definition appendStreamHeader (b : bytes) (network : byte) (dst : Socksaddr) : res juicityErr bytes := appendAddr (b ++ [network]) dst.

Definition readStreamHeader : hs juicityErr (byte * Socksaddr) :=
  n ← hread 1;
  let n := nth 0 n x00 in
  if negb (bool_decide (n = networkTCP)) && negb (bool_decide (n = networkUDP)) then hfail errBadNetwork
  else a ← readAddr; mret (n, a).

Definition appendUDPFrame (b : bytes) (a : Socksaddr) (payload : bytes) : res juicityErr bytes :=
  if 65535 <? len payload then Err errTooLong
  else match appendAddr b a with Err e => Err e | Ok b => Ok (b ++ be_enc 2 (len payload) ++ payload) end.

(** [io.CopyN] to nowhere: the end of the stream is [EOF] wherever it comes. *)
Definition discardN (n : nat) : hs juicityErr unit := ReadN n (fun r => Ret (match r with Ok _ => Ok tt | Err _ => Err (jRead EOF) end)).

(** Into a buffer of [p] bytes; what does not fit is dropped. *)
Definition readUDPFrame (p : nat) : hs juicityErr (Socksaddr * bytes) :=
  a ← readAddr;
  l ← hread 2;
  let n := Z.to_nat (be_dec l) in
  if (n <=? p)%nat then b ← hread n; mret (a, b)
  else b ← hread p; _ ← discardN (n - p); mret (a, b).

Definition parseUUID (s : bytes) : option bytes :=
  let h := filter (fun c => c <> x2d) (TrimSpace s) in
  if negb (length h =? 32)%nat then None else hexDecode h.

(** *** What is written is read back *)

(** An address as it is read: IPv4 where it was mapped into IPv6, without a zone. *)
Definition plain (a : Socksaddr) : Socksaddr :=
  if IsFqdn a then {| sa_addr := AddrZero; Fqdn := Fqdn a; sa_port := sa_port a |}
  else {| sa_addr := match Unmap (sa_addr a) with Addr6 v _ => Addr6 v [] | x => x end; Fqdn := []; sa_port := sa_port a |}.

Lemma readAddr_append b a w r : addr_wf (sa_addr a) -> in_u16 (sa_port a) -> appendAddr b a = Ok w ->
  exists v, w = b ++ v /\ ends readAddr (v ++ r) (Ok (plain a)) r [].
Proof.
  intros Hw Hp. unfold appendAddr, plain. destruct (IsFqdn a) eqn:Ef.
  - destruct (255 <? len (Fqdn a)) eqn:E; [done|]. intros [= <-]. to_prop. exists ([atypDomain; z2b (len (Fqdn a))] ++ Fqdn a ++ be_enc 2 (sa_port a)). split; [done|].
    assert (length (Fqdn a) <> 0)%nat as Hn by (unfold IsFqdn in Ef; destruct (Fqdn a); [by rewrite bool_decide_eq_true_2 in Ef|cbn; lia]).
    unfold readAddr. rewrite <-app_assoc. apply (ends_read_bind 1 [atypDomain] _ ([z2b (len (Fqdn a))] ++ (Fqdn a ++ be_enc 2 (sa_port a)) ++ r)); [done|].
    cbn [nth]. rewrite !bool_decide_eq_false_2, bool_decide_eq_true_2 by done. apply ends_read_bind; [done|]. cbn [nth].
    rewrite <-(len_byte (Fqdn a)) by (pose proof (len_nonneg (Fqdn a)); lia). apply ends_read_bind; [by rewrite length_app, length_be_enc|].
    destruct (Nat.eqb_spec (length (Fqdn a)) 0); [lia|]. rewrite take_app_length, drop_app_length, port_dec by done. apply ends_ret.
  - destruct (Is4 (Unmap (sa_addr a))) eqn:E4.
    + intros [= <-]. exists ([atypIPv4] ++ As4 (Unmap (sa_addr a)) ++ be_enc 2 (sa_port a)). split; [done|]. unfold readAddr. rewrite <-app_assoc. apply ends_read_bind; [done|]. cbn [nth]. rewrite bool_decide_eq_true_2 by done.
      apply ends_read_bind; [by rewrite length_app, length_As4, length_be_enc|]. rewrite take_app_length', drop_app_length' by (by rewrite length_As4).
      destruct (Unmap (sa_addr a)) as [|v|] eqn:Eu; [done| |done]. rewrite As4_dec by (rewrite <-Eu; by apply Unmap_wf). unfold ipPort. rewrite port_dec by done. apply ends_ret.
    + destruct (Is6 (sa_addr a)) eqn:E6; [|done]. intros [= <-]. exists ([atypIPv6] ++ As16 (sa_addr a) ++ be_enc 2 (sa_port a)). split; [done|]. unfold readAddr. rewrite <-app_assoc. apply ends_read_bind; [done|]. cbn [nth].
      rewrite bool_decide_eq_false_2, bool_decide_eq_true_2 by done. apply ends_read_bind; [by rewrite length_app, length_As16, length_be_enc|].
      rewrite take_app_length', drop_app_length' by (by rewrite length_As16). unfold ipPort. rewrite port_dec by done.
      destruct (sa_addr a) as [| |v z] eqn:Ea; [done..|]. rewrite <-Ea in *.
      replace (AddrFrom16 (As16 (sa_addr a))) with (match Unmap (sa_addr a) with Addr6 v _ => Addr6 v [] | x => x end); [apply ends_ret|].
      rewrite Ea in E4 |- *. unfold Unmap in *. destruct (Is4In6 (Addr6 v z)); [done|]. unfold AddrFrom16, As16. rewrite be_dec_enc_small; [done|]. rewrite Ea in Hw. exact Hw.
Qed.

(** A frame, read into a buffer of any size: the address, as much of the payload as fits, and
    the stream stands at the next frame. *)
Lemma readUDPFrame_append a payload w p r : addr_wf (sa_addr a) -> in_u16 (sa_port a) -> appendUDPFrame [] a payload = Ok w ->
  ends (readUDPFrame p) (w ++ r) (Ok (plain a, take p payload)) r [].
Proof.
  intros Ha Hp. unfold appendUDPFrame. destruct (65535 <? len payload) eqn:El; [done|]. to_prop. destruct (appendAddr [] a) as [v|] eqn:Ev; [|done]. intros [= <-].
  destruct (readAddr_append [] a v (be_enc 2 (len payload) ++ payload ++ r) Ha Hp Ev) as (v' & -> & Hr). change ([] ++ v') with v'. rewrite <-!app_assoc.
  unfold readUDPFrame. eapply (ends_bind _ _ _ _ _ []); [exact Hr|]. apply ends_read_bind; [apply length_be_enc|].
  rewrite be_dec_enc_small by (pose proof (len_nonneg payload); cbn; lia). unfold len. rewrite Nat2Z.id. destruct (Nat.leb_spec (length payload) p).
  - rewrite take_ge by lia. apply ends_read_bind; [done|apply ends_ret].
  - replace (payload ++ r) with (take p payload ++ drop p payload ++ r) by (by rewrite app_assoc, take_drop). apply ends_read_bind; [rewrite length_take; lia|].
    eapply (ends_bind _ _ _ tt r [] _ _ []); [|apply ends_ret]. unfold ends, discardN. cbn [feed]. rewrite length_app, length_drop.
    destruct (Nat.leb_spec (length payload - p) (length payload - p + length r)); [|lia]. cbn [feed]. by rewrite drop_app_length' by (by rewrite length_drop).
Qed.

Lemma appendUDPFrame_app b a payload : appendUDPFrame b a payload = match appendUDPFrame [] a payload with Ok w => Ok (b ++ w) | Err e => Err e end.
Proof.
  unfold appendUDPFrame, appendAddr. destruct (_ <? len payload); [done|]. destruct (IsFqdn a); [destruct (_ <? _); [done|]|destruct (Is4 _); [|destruct (Is6 _); [|done]]]; by rewrite <-!app_assoc.
Qed.

(** Datagrams sent one after the other on a stream, each from a frame of its own. *)
Fixpoint writeFrames (l : list (Socksaddr * bytes)) : res juicityErr bytes :=
  match l with
  | [] => Ok []
  | (a, d) :: l => match appendUDPFrame [] a d with
                   | Err e => Err e
                   | Ok w => match writeFrames l with Ok w' => Ok (w ++ w') | Err e => Err e end
                   end
  end.
Fixpoint readFrames (ps : list nat) : hs juicityErr (list (Socksaddr * bytes)) :=
  match ps with [] => mret [] | p :: ps => x ← readUDPFrame p; l ← readFrames ps; mret (x :: l) end.

(** ** The pool of connections of an outbound ([juicity.go]) *)

Definition maxStreamsPerConn : Z := 30.

(** [s_closed]: [CloseWithError] was called on its connection; [s_dead]: the connection ended
    otherwise. Either makes its context's [Err] non-nil. *)
Record session := mkSession { opened : Z; active : Z; retired : bool; s_closed : bool; s_dead : bool }.
Definition ctx_Err (s : session) : bool := s_closed s || s_dead s.
Definition CloseWithError (s : session) : session := mkSession (opened s) (active s) (retired s) true (s_dead s).

(** The sessions ever made, by number, and the current one. *)
Record Outbound := mkOutbound { sessions : gmap nat session; cur : option nat }.
Definition set_session (o : Outbound) (k : nat) (s : session) : Outbound := mkOutbound (<[k := s]> (sessions o)) (cur o).

Definition retireLocked (o : Outbound) (k : nat) : Outbound :=
  match sessions o !! k with
  | None => o
  | Some s =>
      let s := mkSession (opened s) (active s) true (s_closed s) (s_dead s) in
      let c := if bool_decide (cur o = Some k) then None else cur o in
      mkOutbound (<[k := if active s <=? 0 then CloseWithError s else s]> (sessions o)) c
  end.

(** [dial] gives a new session, with a number of its own, or fails. *)
Definition newSession : session := mkSession 0 0 false false false.
Definition dial (o : Outbound) (ok : bool) : option (nat * session) := if ok then Some (fresh (dom (sessions o)), newSession) else None.

Definition acquire (o : Outbound) (dial_ok : bool) : Outbound * option nat :=
  let take_one o k s := (mkOutbound (<[k := mkSession (opened s + 1) (active s + 1) (retired s) (s_closed s) (s_dead s)]> (sessions o)) (Some k), Some k) in
  let new o := match dial o dial_ok with Some (k, s) => take_one o k s | None => (o, None) end in
  match cur o with
  | None => new o
  | Some k =>
      match sessions o !! k with
      | None => new o
      | Some s => if (maxStreamsPerConn <=? opened s) || ctx_Err s then new (retireLocked o k) else take_one o k s
      end
  end.

Definition release (o : Outbound) (k : nat) : Outbound :=
  match sessions o !! k with
  | None => o
  | Some s =>
      let s := mkSession (opened s) (active s - 1) (retired s) (s_closed s) (s_dead s) in
      set_session o k (if retired s && (active s <=? 0) then CloseWithError s else s)
  end.

Definition Outbound_Close (o : Outbound) : Outbound :=
  match cur o with
  | None => o
  | Some k => match sessions o !! k with None => o | Some s => mkOutbound (<[k := CloseWithError s]> (sessions o)) None end
  end.

(** A stream: the session it was acquired from, and whether its [once] has run. *)
Record streamConn := mkStreamConn { sc_session : nat; sc_once : bool }.
Record pool := mkPool { p_out : Outbound; p_streams : gmap nat streamConn; p_Closed : gset nat }.

(** [openProxyStream] after the header was built: what was acquired is given back when the
    stream cannot be opened or its header cannot be written, like when it is closed. [i] is
    the new stream. *)
Definition streamConn_Close (st : pool) (i : nat) : pool :=
  match p_streams st !! i with
  | Some (mkStreamConn k false) => mkPool (release (p_out st) k) (<[i := mkStreamConn k true]> (p_streams st)) (p_Closed st)
  | _ => st
  end.

Definition openProxyStream (st : pool) (i : nat) (dial_ok : bool) : pool :=
  match acquire (p_out st) dial_ok with
  | (o, None) => mkPool o (p_streams st) (p_Closed st)
  | (o, Some k) => mkPool o (<[i := mkStreamConn k false]> (p_streams st)) (p_Closed st)
  end.

Inductive pool_step : pool -> pool -> Prop :=
| step_open st i dial_ok : p_streams st !! i = None -> pool_step st (openProxyStream st i dial_ok)
| step_close st i : pool_step st (streamConn_Close st i)
| step_dies st k s : sessions (p_out st) !! k = Some s ->
    pool_step st (mkPool (set_session (p_out st) k (mkSession (opened s) (active s) (retired s) (s_closed s) true)) (p_streams st) (p_Closed st))
| step_Close st : pool_step st (mkPool (Outbound_Close (p_out st)) (p_streams st)
    (match cur (p_out st) with Some k => {[k]} ∪ p_Closed st | None => p_Closed st end)).

Definition pool0 : pool := mkPool (mkOutbound ∅ None) ∅ ∅.

(** The streams that are open on a session. *)
Definition on_session (k : nat) (c : nat * streamConn) : Prop := sc_session c.2 = k /\ sc_once c.2 = false.
#[export] Instance on_session_dec k c : Decision (on_session k c).
Proof. unfold on_session. apply _. Defined.
Definition live (st : pool) (k : nat) : Z := Z.of_nat (size (filter (on_session k) (p_streams st))).

Record pool_inv (st : pool) : Prop := {
  inv_live : forall k s, sessions (p_out st) !! k = Some s -> active s = live st k /\ active s <= opened s <= maxStreamsPerConn;
  inv_known : forall i c, p_streams st !! i = Some c -> is_Some (sessions (p_out st) !! sc_session c);
  inv_cur : forall k, cur (p_out st) = Some k -> exists s, sessions (p_out st) !! k = Some s /\ retired s = false /\ s_closed s = false /\ k ∉ p_Closed st;
  inv_retired : forall k s, sessions (p_out st) !! k = Some s -> k ∉ p_Closed st -> cur (p_out st) <> Some k ->
    retired s = true /\ (s_closed s = true <-> active s = 0);
  inv_Closed : p_Closed st ⊆ dom (sessions (p_out st));
}.

(** *** How the operations change the counts *)

Lemma live_ext st st' k : p_streams st = p_streams st' -> live st k = live st' k.
Proof. unfold live. by intros ->. Qed.

Lemma live_open o o' m c c' i k : m !! i = None -> forall k', live (mkPool o (<[i := mkStreamConn k false]> m) c) k' = live (mkPool o' m c') k' + (if bool_decide (k' = k) then 1 else 0).
Proof.
  intros Hi k'. unfold live. cbn [p_streams]. case_bool_decide as E; subst.
  - rewrite map_filter_insert_True by done. rewrite map_size_insert_None; [lia|]. apply map_lookup_filter_None_2. by left.
  - rewrite map_filter_insert_False by (unfold on_session; cbn; intros [? _]; congruence). rewrite delete_id by done. lia.
Qed.

Lemma live_close o o' m c c' i k : m !! i = Some (mkStreamConn k false) ->
  forall k', live (mkPool o (<[i := mkStreamConn k true]> m) c) k' = live (mkPool o' m c') k' - (if bool_decide (k' = k) then 1 else 0).
Proof.
  intros Hi k'. unfold live. cbn [p_streams]. rewrite map_filter_insert_False by (unfold on_session; cbn; intros [_ ?]; congruence).
  rewrite map_filter_delete. case_bool_decide as E; subst.
  - rewrite map_size_delete_Some by (by eexists; apply map_lookup_filter_Some_2).
    assert (0 < size (filter (on_session k) m))%nat; [|lia].
    apply Nat.neq_0_lt_0. intros E%map_size_empty_inv. assert (filter (on_session k) m !! i = Some (mkStreamConn k false)) as H by (by apply map_lookup_filter_Some_2).
    by rewrite E, lookup_empty in H.
  - rewrite map_size_delete_None; [lia|]. apply map_lookup_filter_None_2. right. intros x Hx [? _]. rewrite Hi in Hx. by injection Hx as <-.
Qed.

Lemma live_fresh st k : pool_inv st -> sessions (p_out st) !! k = None -> live st k = 0.
Proof.
  intros H Hk. unfold live. assert (filter (on_session k) (p_streams st) = ∅) as ->; [|done].
  apply map_empty. intros i. apply map_lookup_filter_None_2. right. intros c Hc [E _]. cbn in E. destruct (inv_known _ H i c Hc) as [s Hs]. congruence.
Qed.

Lemma live_nonneg st k : 0 <= live st k.
Proof. unfold live. lia. Qed.

(** Replacing a session by one with the same counts, retired and closed alike. *)
Lemma pool_inv0 : pool_inv pool0.
Proof. split; cbn; [intros k s H; by rewrite lookup_empty in H|intros i c H; by rewrite lookup_empty in H|done|intros k s H; by rewrite lookup_empty in H|done]. Qed.

Lemma pool_retire st k s : pool_inv st -> cur (p_out st) = Some k -> sessions (p_out st) !! k = Some s ->
  pool_inv (mkPool (retireLocked (p_out st) k) (p_streams st) (p_Closed st)) /\ cur (retireLocked (p_out st) k) = None.
Proof.
  intros H Hc Hs. unfold retireLocked. rewrite Hs, Hc. cbn [active]. rewrite bool_decide_eq_true_2 by done. split; [|done].
  destruct (inv_live _ H k s Hs) as [Ha Hb]. destruct (inv_cur _ H k Hc) as (s' & Hs' & Hr & Hcl & Hno). assert (s' = s) as -> by congruence. pose proof (live_nonneg st k).
  set (s2 := if active s <=? 0 then _ else _). assert (active s2 = active s /\ opened s2 = opened s /\ retired s2 = true /\ (s_closed s2 = true <-> active s = 0)) as (E1 & E2 & E3 & E4).
  { unfold s2. destruct (active s <=? 0) eqn:E; to_prop; cbn; [split_and!; [done..|split; [lia|done]]|rewrite Hcl; split_and!; [done..|split; [done|lia]]]. }
  split; cbn [p_out sessions cur p_streams p_Closed].
  - intros k' s' [[<- <-]|[Hne H']]%lookup_insert_Some; [by rewrite E1, E2|]. by apply (inv_live _ H).
  - intros i c Hi. destruct (inv_known _ H i c Hi) as [s' Hs'']. destruct (decide (sc_session c = k)) as [->|]; [rewrite lookup_insert_eq|rewrite lookup_insert_ne by done]; eauto.
  - done.
  - intros k' s' [[<- <-]|[Hne H']]%lookup_insert_Some Hn _; [by rewrite E1|]. apply (inv_retired _ H k' s' H' Hn). congruence.
  - pose proof (inv_Closed _ H). set_solver.
Qed.

(** Taking a stream from a session that becomes, or is, the current one. *)
Lemma pool_take st i k s o : pool_inv st -> p_streams st !! i = None -> (cur (p_out st) = None \/ cur (p_out st) = Some k) ->
  sessions o = <[k := mkSession (opened s + 1) (active s + 1) (retired s) (s_closed s) (s_dead s)]> (sessions (p_out st)) -> cur o = Some k ->
  (sessions (p_out st) !! k = Some s /\ opened s < maxStreamsPerConn /\ cur (p_out st) = Some k \/ sessions (p_out st) !! k = None /\ s = newSession) ->
  k ∉ p_Closed st -> pool_inv (mkPool o (<[i := mkStreamConn k false]> (p_streams st)) (p_Closed st)).
Proof.
  intros H Hi Hc Ho Eo Hk Hn. destruct st as [o0 m cl]. cbn [p_out p_streams p_Closed] in *.
  assert (active s = live (mkPool o0 m cl) k /\ active s <= opened s < maxStreamsPerConn /\ retired s = false /\ s_closed s = false) as (Ha & Hb & Hr & Hcl).
  { destruct Hk as [(Hs & Hlt & Hk)|[Hs ->]].
    - destruct (inv_live _ H k s Hs). destruct (inv_cur _ H k Hk) as (s' & Hs' & ? & ? & _). cbn [p_out] in *. replace s with s' by congruence. replace s' with s in * by congruence. split_and!; try done; lia.
    - rewrite (live_fresh _ k H Hs). done. }
  split; cbn [p_out sessions cur p_streams p_Closed]; rewrite ?Ho, ?Eo.
  - intros k' s' [[<- <-]|[Hne H']]%lookup_insert_Some; rewrite (live_open o o0 m cl cl i k Hi).
    + rewrite bool_decide_eq_true_2 by done. cbn [active opened]. lia.
    + rewrite bool_decide_eq_false_2 by done. destruct (inv_live _ H k' s' H'). split; [lia|done].
  - intros j c [[<- <-]|[Hne Hj]]%lookup_insert_Some; cbn [sc_session]; [rewrite lookup_insert_eq; eauto|].
    destruct (inv_known _ H j c Hj) as [s' Hs'']. destruct (decide (sc_session c = k)) as [->|]; [rewrite lookup_insert_eq|rewrite lookup_insert_ne by done]; eauto.
  - intros k' [= <-]. eexists. rewrite lookup_insert_eq. split; [done|]. by cbn.
  - intros k' s' [[<- <-]|[Hne H']]%lookup_insert_Some Hn' Hcur; [done|]. apply (inv_retired _ H k' s' H' Hn'). cbn [p_out]. destruct Hc as [->| ->]; congruence.
  - pose proof (inv_Closed _ H) as Hcd. cbn in Hcd. set_solver.
Qed.

(** Changing a session in a way that keeps its counts, and that it is retired. *)
Lemma pool_change st k s s' cl : pool_inv st -> sessions (p_out st) !! k = Some s -> active s' = active s -> opened s' = opened s -> retired s' = retired s ->
  s_closed s' = s_closed s -> cl = p_Closed st -> pool_inv (mkPool (set_session (p_out st) k s') (p_streams st) cl).
Proof.
  intros H Hs E1 E2 E3 E4 ->. split; cbn [p_out set_session sessions cur p_streams p_Closed].
  - intros k' s2 [[<- <-]|[Hne H']]%lookup_insert_Some; [rewrite E1, E2; by apply (inv_live _ H k s)|by apply (inv_live _ H k' s2)].
  - intros j c Hj. destruct (inv_known _ H j c Hj) as [s2 Hs2]. destruct (decide (sc_session c = k)) as [->|]; [rewrite lookup_insert_eq|rewrite lookup_insert_ne by done]; eauto.
  - intros k' Hk'. destruct (inv_cur _ H k' Hk') as (s2 & Hs2 & ? & ? & ?). destruct (decide (k' = k)) as [->|].
    + exists s'. rewrite lookup_insert_eq, E3, E4. replace s with s2 by congruence. done.
    + exists s2. by rewrite lookup_insert_ne.
  - intros k' s2 [[<- <-]|[Hne H']]%lookup_insert_Some Hn Hc; [rewrite E1, E3, E4; by apply (inv_retired _ H k s)|by apply (inv_retired _ H k' s2)].
  - pose proof (inv_Closed _ H). set_solver.
Qed.

Lemma pool_open st i ok : pool_inv st -> p_streams st !! i = None -> pool_inv (openProxyStream st i ok).
Proof.
  intros H Hi. unfold openProxyStream, acquire.
  assert (forall st', pool_inv st' -> cur (p_out st') = None -> p_streams st' = p_streams st -> p_Closed st' = p_Closed st ->
    pool_inv (match (match dial (p_out st') ok with
                     | Some (k, s) => (mkOutbound (<[k := mkSession (opened s + 1) (active s + 1) (retired s) (s_closed s) (s_dead s)]> (sessions (p_out st'))) (Some k), Some k)
                     | None => (p_out st', None) end) with
              | (o, None) => mkPool o (p_streams st) (p_Closed st)
              | (o, Some k) => mkPool o (<[i := mkStreamConn k false]> (p_streams st)) (p_Closed st) end)) as Hnew.
  { intros st' H' Hc Es Ec. rewrite <-Es, <-Ec in *. unfold dial. destruct ok; [|by destruct st'].
    set (k := fresh (dom (sessions (p_out st')))). assert (k ∉ dom (sessions (p_out st'))) as Hk by apply is_fresh.
    eapply (pool_take st' i k newSession); [done|done|by left|done|done| |]; [right; split; [by apply not_elem_of_dom|done]|].
    pose proof (inv_Closed _ H'). set_solver. }
  destruct (cur (p_out st)) as [k|] eqn:Ec; [|by apply (Hnew st)].
  destruct (inv_cur _ H k Ec) as (s & Hs & Hr & Hcl & Hn). rewrite Hs. destruct ((maxStreamsPerConn <=? opened s) || ctx_Err s) eqn:E.
  - destruct (pool_retire st k s H Ec Hs) as [H' Hc']. by apply (Hnew (mkPool (retireLocked (p_out st) k) (p_streams st) (p_Closed st))).
  - apply orb_false_iff in E as [E _]. to_prop. eapply (pool_take st i k s); [done|done|by right|done|done| |done]. left. split_and!; [done|lia|done].
Qed.

Lemma pool_close st i : pool_inv st -> pool_inv (streamConn_Close st i).
Proof.
  intros H. unfold streamConn_Close. destruct (p_streams st !! i) as [[k []]|] eqn:Hi; [done| |done].
  destruct (inv_known _ H i _ Hi) as [s Hs]. cbn [sc_session] in Hs. unfold release. rewrite Hs. cbn [retired active]. destruct st as [o m cl]. cbn [p_out p_streams p_Closed] in *.
  set (s2 := if _ && _ then _ else _). assert (active s2 = active s - 1 /\ opened s2 = opened s /\ retired s2 = retired s /\
    s_closed s2 = s_closed s || (retired s && (active s - 1 <=? 0))) as (E1 & E2 & E3 & E4).
  { unfold s2. destruct (retired s && (active s - 1 <=? 0)); cbn; rewrite ?orb_true_r, ?orb_false_r; done. }
  split; cbn [p_out set_session sessions cur p_streams p_Closed].
  - intros k' s' [[<- <-]|[Hne H']]%lookup_insert_Some; rewrite (live_close _ o m cl cl i k Hi).
    + rewrite bool_decide_eq_true_2, E1, E2 by done. destruct (inv_live _ H k s Hs). lia.
    + rewrite bool_decide_eq_false_2 by done. destruct (inv_live _ H k' s' H'). split; [lia|done].
  - intros j c [[<- <-]|[Hne Hj]]%lookup_insert_Some; cbn [sc_session]; [rewrite lookup_insert_eq; eauto|].
    destruct (inv_known _ H j c Hj) as [s' Hs'']. destruct (decide (sc_session c = k)) as [->|]; [rewrite lookup_insert_eq|rewrite lookup_insert_ne by done]; eauto.
  - intros k' Hk'. destruct (inv_cur _ H k' Hk') as (s' & Hs' & Hr & Hcl & Hn). destruct (decide (k' = k)) as [->|].
    + exists s2. rewrite lookup_insert_eq, E3, E4. cbn [p_out] in Hs'. replace s with s' by congruence. rewrite Hr, Hcl. done.
    + exists s'. by rewrite lookup_insert_ne.
  - intros k' s' [[<- <-]|[Hne H']]%lookup_insert_Some Hn Hc; [|by apply (inv_retired _ H k' s')]. destruct (inv_retired _ H k s Hs Hn Hc) as [Hr Hcl].
    rewrite E1, E3, E4, Hr. split; [done|]. cbn [andb]. pose proof (live_close o o m cl cl i k Hi k) as El. rewrite bool_decide_eq_true_2 in El by done.
    pose proof (live_nonneg (mkPool o (<[i:=mkStreamConn k true]> m) cl) k). destruct (inv_live _ H k s Hs). rewrite orb_true_iff, Z.leb_le, Hcl. lia.
  - pose proof (inv_Closed _ H) as Hcd. cbn in Hcd. set_solver.
Qed.

Lemma pool_Close st : pool_inv st -> pool_inv (mkPool (Outbound_Close (p_out st)) (p_streams st) (match cur (p_out st) with Some k => {[k]} ∪ p_Closed st | None => p_Closed st end)).
Proof.
  intros H. unfold Outbound_Close. destruct (cur (p_out st)) as [k|] eqn:Ec; [|by destruct st]. destruct (inv_cur _ H k Ec) as (s & Hs & Hr & Hcl & Hn). rewrite Hs.
  split; cbn [p_out sessions cur p_streams p_Closed].
  - intros k' s' [[<- <-]|[Hne H']]%lookup_insert_Some; [by apply (inv_live _ H k s)|by apply (inv_live _ H k' s')].
  - intros j c Hj. destruct (inv_known _ H j c Hj) as [s' Hs'']. destruct (decide (sc_session c = k)) as [->|]; [rewrite lookup_insert_eq|rewrite lookup_insert_ne by done]; eauto.
  - done.
  - intros k' s' [[<- <-]|[Hne H']]%lookup_insert_Some Hn' _; [set_solver|]. apply (inv_retired _ H k' s' H'); [set_solver|congruence].
  - pose proof (inv_Closed _ H). apply elem_of_dom_2 in Hs. set_solver.
Qed.

Lemma pool_inv_step st st' : pool_step st st' -> pool_inv st -> pool_inv st'.
Proof.
  intros [? i ok Hi|? i|? k s Hs|?] H; [by apply pool_open|by apply pool_close| |by apply pool_Close]. by eapply pool_change.
Qed.

(** [C37] The pool of connections, after any sequence of streams opened, with dials that
    succeed or fail, of streams closed, some twice, of connections that die, and of the
    outbound itself closed and used again: a connection's count is the number of its open
    streams, and it never carried more than thirty; the connection new streams go to is one
    the outbound has not closed; any other is on its way out, and the outbound closes it
    when, and not before, its last stream is gone. Only [Close] cuts streams off. *)
Theorem juicity_pool st : rtc pool_step pool0 st -> forall k s, sessions (p_out st) !! k = Some s ->
  active s = live st k /\ active s <= opened s <= maxStreamsPerConn /\
  (cur (p_out st) = Some k -> retired s = false /\ s_closed s = false) /\
  (cur (p_out st) <> Some k -> k ∉ p_Closed st -> retired s = true /\ (s_closed s = true <-> live st k = 0)).
Proof.
  intros Hr. assert (pool_inv st) as H by (revert Hr; generalize pool0 pool_inv0; intros a Ha Hs; induction Hs as [|? ? ? Hst _ IH]; eauto using pool_inv_step).
  intros k s Hs. destruct (inv_live _ H k s Hs) as [Ha Hb]. split_and!; [done|lia..| |].
  - intros Hc. destruct (inv_cur _ H k Hc) as (s' & Hs' & ? & ? & _). by simplify_eq.
  - intros Hc Hn. rewrite <-Ha. by apply (inv_retired _ H k s Hs).
Qed.

Lemma juicity_pool_witness :
  let st := streamConn_Close (streamConn_Close (openProxyStream pool0 1 true) 1) 1 in
  exists s, sessions (p_out st) !! 0%nat = Some s /\ active s = live st 0 /\ active s = 0 /\ opened s = 1.
Proof.
  intros st. eexists. split; [reflexivity|]. split; [|split; reflexivity].
  apply (juicity_pool st); [|reflexivity]. eapply rtc_l; [by apply (step_open pool0 1 true)|].
  eapply rtc_l; [apply (step_close _ 1)|]. apply rtc_once, (step_close _ 1).
Defined.

(** Datagrams written one after the other are read one after the other, cut to the buffers,
    and a buffer that is too small does not disturb the datagrams after it. *)
Lemma juicity_frames l : forall ps w r, Forall (fun x => addr_wf (sa_addr x.1) /\ in_u16 (sa_port x.1)) l -> writeFrames l = Ok w -> length ps = length l ->
  ends (readFrames ps) (w ++ r) (Ok (zip_with (fun x p => (plain x.1, take p x.2)) l ps)) r [].
Proof.
  induction l as [|[a d] l IH]; intros [|p ps] w r Hl; cbn [writeFrames length]; try done.
  - intros [= <-] _. apply ends_ret.
  - inversion Hl as [|? ? [Ha Hp] Hl']; subst. destruct (appendUDPFrame [] a d) as [w1|] eqn:E1; [|done]. destruct (writeFrames l) as [w2|]; [|done]. intros [= <-] [= Hn].
    cbn [readFrames]. rewrite <-app_assoc. eapply (ends_bind _ _ _ _ _ []); [by apply readUDPFrame_append|].
    eapply (ends_bind _ _ _ _ _ []); [by apply (IH ps w2 r)|]. apply ends_ret.
Qed.

(** ** An inbound's connection ([inbound.go]) *)

Record User := mkUser { u_Name : bytes; u_UUID : bytes; u_Password : bytes }.

(** The users of an inbound, by their identifier; the last of those with the same one. *)
Fixpoint inboundUsers (us : list User) (m : gmap bytes User) : option (gmap bytes User) :=
  match us with
  | [] => Some m
  | u :: us => id ← parseUUID (u_UUID u);
               let u := if bool_decide (u_Name u = []) then mkUser (u_UUID u) (u_UUID u) (u_Password u) else u in
               inboundUsers us (<[id := u]> m)
  end.
Definition NewInbound_users (us : list User) : option (gmap bytes User) := if bool_decide (us = []) then None else inboundUsers us ∅.

Section inbound.
(** [ExportKeyingMaterial] of the connection, with the label and the context, of 32 bytes. *)
Context (ExportKeyingMaterial : bytes -> bytes -> option bytes) (users : gmap bytes User).

Definition genToken (uuid password : bytes) : option bytes := ExportKeyingMaterial uuid password.

Definition authenticate : hs juicityErr User :=
  '(id, tok) ← readAuth;
  match users !! id with
  | None => hfail errUnknownUser
  | Some u => match genToken id (u_Password u) with
              | None => hfail errExport
              | Some want => if bool_decide (want = tok) then mret u else hfail errBadToken
              end
  end.

(** The connection: the user once [authed] is closed, whether it is over, the streams whose
    header was read and that wait, and the streams handed on, with the name in their context. *)
Record jconn := mkJconn { jc_user : option User; jc_done : bool; jc_waiting : list (byte * Socksaddr); jc_served : list (byte * Socksaddr * bytes) }.

Inductive conn_step : jconn -> jconn -> Prop :=
| conn_auth c i u r : jc_user c = None -> jc_done c = false -> ends authenticate i (Ok u) r [] ->
    conn_step c (mkJconn (Some u) false (jc_waiting c) (jc_served c))
| conn_refused c : jc_user c = None -> conn_step c (mkJconn None true (jc_waiting c) (jc_served c))
| conn_ends c : conn_step c (mkJconn (jc_user c) true (jc_waiting c) (jc_served c))
| conn_stream c i x r : ends readStreamHeader i (Ok x) r [] -> conn_step c (mkJconn (jc_user c) (jc_done c) (x :: jc_waiting c) (jc_served c))
| conn_handle c u x l1 l2 : jc_user c = Some u -> jc_waiting c = l1 ++ x :: l2 ->
    conn_step c (mkJconn (Some u) (jc_done c) (l1 ++ l2) ((x, u_Name u) :: jc_served c))
| conn_drop c x l1 l2 : jc_done c = true -> jc_waiting c = l1 ++ x :: l2 -> conn_step c (mkJconn (jc_user c) true (l1 ++ l2) (jc_served c)).

(** Who may be served: a user whose token the connection has seen. *)
Definition proven (u : User) : Prop := exists id tok i r, users !! id = Some u /\ genToken id (u_Password u) = Some tok /\ ends readAuth i (Ok (id, tok)) r [].

Lemma authenticate_proven i u r : ends authenticate i (Ok u) r [] -> proven u.
Proof.
  unfold authenticate. intros ([id tok] & r1 & o1 & o2 & H1 & H2 & E)%ends_bind_inv. symmetry in E. apply app_eq_nil in E as [-> ->].
  destruct (users !! id) as [u'|] eqn:Eu; [|done]. destruct (genToken id (u_Password u')) as [want|] eqn:Et; [|done]. case_bool_decide as Ew; [|done]. subst want.
  injection H2 as -> ->. by exists id, tok, i, r.
Qed.

(** No stream is handed on before the connection has authenticated, and the name it is handed
    on under is that of a user whose token was presented. *)
Lemma juicity_served c : rtc conn_step (mkJconn None false [] []) c ->
  forall x name, (x, name) ∈ jc_served c -> exists u, jc_user c = Some u /\ name = u_Name u /\ proven u.
Proof.
  intros Hr. assert ((forall u, jc_user c = Some u -> proven u) /\ (forall x name, (x, name) ∈ jc_served c -> exists u, jc_user c = Some u /\ name = u_Name u)) as [H1 H2].
  { apply (rtc_ind_r (fun c => (forall u, jc_user c = Some u -> proven u) /\ (forall x name, (x, name) ∈ jc_served c -> exists u, jc_user c = Some u /\ name = u_Name u))
      (R := conn_step) (mkJconn None false [] [])); [|clear Hr c|done].
    - cbn. split; [done|]. intros x name H. by apply elem_of_nil in H.
    - intros c c' _ Hst [IH1 IH2]. destruct Hst as [c i u r Hn Hd Ha|c Hn|c|c i x r Hx|c u x l1 l2 Hu Hw|c x l1 l2 Hd Hw]; cbn; try (by split).
      + split; [intros u' [= <-]; by eapply authenticate_proven|]. intros x name H. destruct (IH2 x name H) as (? & ? & _). congruence.
      + split; [done|]. intros x name H. destruct (IH2 x name H) as (? & ? & _). congruence.
      + split; [intros u' [= <-]; by apply IH1|]. intros y name [[= -> ->]|H]%elem_of_cons; [eauto|]. destruct (IH2 y name H) as (u' & ? & ->). exists u'. split; congruence. }
  intros x name H. destruct (H2 x name H) as (u & Hu & ->). exists u. auto.
Qed.

(** A client with the identifier and the password of a user is that user. *)
Lemma client_authenticates id u tok r : users !! id = Some u -> length id = 16%nat -> length tok = 32%nat -> genToken id (u_Password u) = Some tok ->
  ends authenticate (appendAuth [] id tok ++ r) (Ok u) r [].
Proof.
  intros Hu Hi Ht Hg. unfold authenticate. eapply (ends_bind _ _ _ (id, tok) r [] _ _ []).
  - unfold readAuth, appendAuth. apply (ends_read_bind 50 ([version0; cmdAuthenticate] ++ id ++ tok)); [rewrite !length_app, Hi, Ht; done|].
    change (nth 0 _ _) with version0. change (nth 1 _ _) with cmdAuthenticate. rewrite !bool_decide_eq_true_2 by done. cbn [negb].
    change (drop 2 _) with (id ++ tok). change (drop 18 _) with (drop 16 (id ++ tok)). rewrite take_app_length', drop_app_length' by done. apply ends_ret.
  - rewrite Hu, Hg. rewrite bool_decide_eq_true_2 by done. apply ends_ret.
Qed.
End inbound.
