(* ===== verification/ShadowQuic.v ===== *)
(** * ShadowQUIC's datagrams ([outbound/shadowquic/proto.go], [udp.go])

    The associations on one QUIC connection: each end gives its destinations identifiers,
    announces them on the control stream of the association, and sends payloads by
    identifier, which may arrive before the announcement. [jls-quic-go] is not under [src/]:
    its datagrams may be lost and reordered, its streams deliver in order. *)
From stdpp Require Import relations.
From S2P Require Import Prelude GoStd Netip Socksaddr Proxy Link.
From Stdlib Require Import Init.Byte.

(** ** Addresses *)

Inductive sqErr := sqRead (e : io_err) | sqWrite | errBadAddr | errPacketTooLarge | errTooManyIDs | ErrClosed.
#[export] Instance sq_errors : StreamErrors sqErr := {| read_error := sqRead; write_error := sqWrite |}.

Definition atypIPv4 : byte := x01.
Definition atypDomain : byte := x03.
Definition atypIPv6 : byte := x04.
Definition cmdConnect : byte := x01.
Definition cmdAssociateDatagram : byte := x03.
Definition cmdAssociateStream : byte := x04.

Definition encodeSocksAddr (a : Socksaddr) : option bytes :=
  let port := be_enc 2 (sa_port a) in
  if IsIP a then
    let ip := Unmap (sa_addr a) in
    Some (if Is4 ip then [atypIPv4] ++ As4 ip ++ port else [atypIPv6] ++ As16 ip ++ port)
  else if IsFqdn a then
    if 255 <? len (Fqdn a) then None else Some ([atypDomain; z2b (len (Fqdn a))] ++ Fqdn a ++ port)
  else None.

Definition readSocksAddr : hs sqErr Socksaddr :=
  t ← hread 1;
  let t := nth 0 t x00 in
  if bool_decide (t = atypIPv4) then b ← hread 6; mret (FromIPPort {| ap_addr := AddrFrom4 (take 4 b); ap_port := be_dec (drop 4 b) |})
  else if bool_decide (t = atypIPv6) then b ← hread 18; mret (FromIPPort {| ap_addr := AddrFrom16 (take 16 b); ap_port := be_dec (drop 16 b) |})
  else if bool_decide (t = atypDomain) then
    l ← hread 1;
    let n := Z.to_nat (b2z (nth 0 l x00)) in
    b ← hread (n + 2);
    let host := take n b in
    let port := be_dec (drop n b) in
    match ParseAddr host with
    | Some ip => mret (FromIPPort {| ap_addr := ip; ap_port := port |})
    | None => mret (FromFqdn host port)
    end
  else hfail errBadAddr.

Definition connectRequest (dst : Socksaddr) : option bytes := saddr ← encodeSocksAddr dst; Some ([cmdConnect] ++ saddr).
Definition associateRequest (mode : byte) : bytes := [mode; atypIPv4; x00; x00; x00; x00; x00; x00].

(** An address as the other end reads it. *)
Definition heard (a : Socksaddr) : Socksaddr :=
  if IsIP a then FromIPPort {| ap_addr := match Unmap (sa_addr a) with Addr6 v _ => Addr6 v [] | x => x end; ap_port := sa_port a |}
  else match ParseAddr (Fqdn a) with
       | Some ip => FromIPPort {| ap_addr := ip; ap_port := sa_port a |}
       | None => FromFqdn (Fqdn a) (sa_port a)
       end.

Lemma readSocksAddr_encode a w r : addr_wf (sa_addr a) -> in_u16 (sa_port a) -> encodeSocksAddr a = Some w -> ends readSocksAddr (w ++ r) (Ok (heard a)) r [].
Proof.
  intros Hw Hp. unfold encodeSocksAddr, heard, readSocksAddr. destruct (IsIP a) eqn:Ei.
  - assert (IsValid (sa_addr a) = true) as Hv by (unfold IsIP in Ei; by apply andb_true_iff in Ei as [_ ?]). destruct (Is4 (Unmap (sa_addr a))) eqn:E4.
    + intros [= <-]. apply (ends_read_bind 1 [atypIPv4] _ ((As4 (Unmap (sa_addr a)) ++ be_enc 2 (sa_port a)) ++ r)); [done|]. cbn [nth]. rewrite bool_decide_eq_true_2 by done.
      apply ends_read_bind; [by rewrite length_app, length_As4, length_be_enc|]. rewrite take_app_length', drop_app_length' by (by rewrite length_As4).
      destruct (Unmap (sa_addr a)) as [|v|] eqn:Eu; [done| |done]. rewrite As4_dec by (rewrite <-Eu; by apply Unmap_wf). rewrite port_dec by done. apply ends_ret.
    + intros [= <-]. apply (ends_read_bind 1 [atypIPv6] _ ((As16 (Unmap (sa_addr a)) ++ be_enc 2 (sa_port a)) ++ r)); [done|]. cbn [nth].
      rewrite bool_decide_eq_false_2, bool_decide_eq_true_2 by done. apply ends_read_bind; [by rewrite length_app, length_As16, length_be_enc|].
      rewrite take_app_length', drop_app_length' by (by rewrite length_As16). rewrite port_dec by done.
      pose proof (Unmap_wf _ Hw) as Hu. destruct (sa_addr a) as [|v|v z] eqn:Ea; [done..|]. unfold Unmap in *. destruct (Is4In6 (Addr6 v z)); [done|].
      unfold AddrFrom16, As16. rewrite be_dec_enc_small; [apply ends_ret|exact Hu].
  - destruct (IsFqdn a); [|done]. destruct (255 <? len (Fqdn a)) eqn:El; [done|]. to_prop. intros [= <-].
    apply (ends_read_bind 1 [atypDomain] _ ([z2b (len (Fqdn a))] ++ (Fqdn a ++ be_enc 2 (sa_port a)) ++ r)); [done|].
    cbn [nth]. rewrite !bool_decide_eq_false_2, bool_decide_eq_true_2 by done. apply ends_read_bind; [done|]. cbn [nth].
    rewrite <-(len_byte (Fqdn a)) by (pose proof (len_nonneg (Fqdn a)); lia). apply ends_read_bind; [by rewrite length_app, length_be_enc|].
    rewrite take_app_length, drop_app_length, port_dec by done. destruct (ParseAddr (Fqdn a)); apply ends_ret.
Qed.

(** ** The connection *)

(** What is said here of payloads holds whatever they are. *)
Section conn.
Context {P : Type}.

(** [ready] is closed when [sl_a] is set. *)
Record recvSlot := mkSlot { sl_a : option nat; sl_from : Socksaddr; sl_pending : list P }.
Record connUDP := mkConnUDP { nextID : Z; sending : gset Z; recv : gmap Z recvSlot }.
Record inPacket := mkIn { in_data : P; in_from : Socksaddr }.

Definition noAddr : Socksaddr := {| sa_addr := AddrZero; Fqdn := []; sa_port := 0 |}.
Definition newConnUDP : connUDP := mkConnUDP 0 ∅ ∅.
Definition assocQueue : nat := 128.
Definition maxPendingPerID : nat := 32.

Definition slot (c : connUDP) (id : Z) : recvSlot := default (mkSlot None noAddr []) (recv c !! id).
Definition set_slot (c : connUDP) (id : Z) (s : recvSlot) : connUDP := mkConnUDP (nextID c) (sending c) (<[id := s]> (recv c)).

(** What goes to which association. *)
Definition feed (c : connUDP) (id : Z) (payload : P) : connUDP * option (nat * inPacket) :=
  let s := slot c id in
  match sl_a s with
  | Some a => (set_slot c id s, Some (a, mkIn payload (sl_from s)))
  | None => (set_slot c id (if (length (sl_pending s) <? maxPendingPerID)%nat then mkSlot None (sl_from s) (sl_pending s ++ [payload]) else s), None)
  end.

Definition bind (c : connUDP) (id : Z) (a : nat) (from : Socksaddr) : connUDP * list inPacket :=
  let s := slot c id in (set_slot c id (mkSlot (Some a) from []), (fun p => mkIn p from) <$> sl_pending s).

(** What [waitBound] returns once the identifier is announced, creating the slot. *)
Definition waitBound (c : connUDP) (id : Z) : connUDP * option (nat * Socksaddr) :=
  let s := slot c id in (set_slot c id s, (fun a => (a, sl_from s)) <$> sl_a s).

Definition unbind (c : connUDP) (a : nat) (ids : gset Z) : connUDP :=
  mkConnUDP (nextID c) (sending c) (filter (fun x => ~ (x.1 ∈ ids /\ sl_a x.2 = Some a)) (recv c)).

Fixpoint alloc_loop (fuel : nat) (next : Z) (sending : gset Z) : option (Z * Z) :=
  match fuel with
  | O => None
  | S fuel => if decide (next ∈ sending) then alloc_loop fuel (w16 (next + 1)) sending else Some (next, w16 (next + 1))
  end.

Definition allocID (c : connUDP) : connUDP * option Z :=
  match alloc_loop (Z.to_nat (2 ^ 16)) (nextID c) (sending c) with
  | Some (id, next) => (mkConnUDP next ({[id]} ∪ sending c) (recv c), Some id)
  | None => (c, None)
  end.

Definition freeIDs (c : connUDP) (ids : gset Z) : connUDP := mkConnUDP (nextID c) (sending c ∖ ids) (recv c).

(** ** Associations *)

(** [a_uni]: the streams of the destinations, by number. *)
Record assoc := mkAssoc { a_stream : bool; a_in : list inPacket; a_closed : bool; a_sendID : gmap bytes Z; a_uni : gmap bytes nat; a_recvIDs : gset Z }.
Definition newAssoc (stream : bool) : assoc := mkAssoc stream [] false ∅ ∅ ∅.

(** A full queue drops; so may a closed association. *)
Definition deliver (a : assoc) (p : inPacket) (drop_closed : bool) : assoc :=
  if (a_closed a && drop_closed) || negb (length (a_in a) <? assocQueue)%nat then a
  else mkAssoc (a_stream a) (a_in a ++ [p]) (a_closed a) (a_sendID a) (a_uni a) (a_recvIDs a).

(** The packets too large for the buffer are skipped. *)
Fixpoint readQueue (size : P -> nat) (room : nat) (q : list inPacket) : option inPacket * list inPacket :=
  match q with
  | [] => (None, [])
  | p :: q => if (room <? size (in_data p))%nat then readQueue size room q else (Some p, q)
  end.

(** What [WritePacket] does to the connection, in order. *)
Inductive effect :=
| WriteControl (msg : bytes)
| OpenUni (u : nat) (id : Z)
| WriteUni (u : nat) (payload : P)
| SendDatagram (id : Z) (payload : P).

(** The outcomes of its calls: the control write, the opening of the stream with its
    identifier, the number of that stream, and the write of the payload. *)
Record outcomes := mkOutcomes { ctl_ok : bool; open_ok : bool; new_uni : nat; data_ok : bool }.

Definition send (o : outcomes) (a : assoc) (key : bytes) (id : Z) (payload : P) : assoc * list effect * option sqErr :=
  if a_stream a then
    match a_uni a !! key with
    | Some u => if data_ok o then (a, [WriteUni u payload], None) else (a, [], Some sqWrite)
    | None => if open_ok o then
                (mkAssoc (a_stream a) (a_in a) (a_closed a) (a_sendID a) (<[key := new_uni o]> (a_uni a)) (a_recvIDs a),
                 OpenUni (new_uni o) id :: (if data_ok o then [WriteUni (new_uni o) payload] else []), if data_ok o then None else Some sqWrite)
              else (a, [], Some sqWrite)
    end
  else if data_ok o then (a, [SendDatagram id payload], None) else (a, [], Some sqWrite).

Definition WritePacket (size : P -> Z) (o : outcomes) (c : connUDP) (a : assoc) (payload : P) (dst : Socksaddr) : connUDP * assoc * list effect * option sqErr :=
  if 65535 <? size payload then (c, a, [], Some errPacketTooLarge)
  else match encodeSocksAddr dst with
       | None => (c, a, [], Some errBadAddr)
       | Some key =>
           if a_closed a then (c, a, [], Some ErrClosed)
           else match a_sendID a !! key with
                | Some id => let '(a, l, e) := send o a key id payload in (c, a, l, e)
                | None =>
                    match allocID c with
                    | (c, None) => (c, a, [], Some errTooManyIDs)
                    | (c, Some id) =>
                        if ctl_ok o then
                          let '(a, l, e) := send o (mkAssoc (a_stream a) (a_in a) (a_closed a) (<[key := id]> (a_sendID a)) (a_uni a) (a_recvIDs a)) key id payload in
                          (c, a, WriteControl (key ++ be_enc 2 id) :: l, e)
                        else (freeIDs c {[id]}, a, [], Some sqWrite)
                    end
                end
       end.

(** One message of the control stream, and what is done with it. *)
Definition controlMessage : hs sqErr (Socksaddr * Z) := from ← readSocksAddr; idb ← hread 2; mret (from, be_dec idb).

Definition noteRecv (a : assoc) (id : Z) : assoc := mkAssoc (a_stream a) (a_in a) (a_closed a) (a_sendID a) (a_uni a) ({[id]} ∪ a_recvIDs a).

(** [Close], once. *)
Definition assoc_Close (c : connUDP) (k : nat) (a : assoc) : connUDP * assoc :=
  if a_closed a then (c, a)
  else (unbind (freeIDs c (map_img (a_sendID a))) k (a_recvIDs a), mkAssoc (a_stream a) (a_in a) true (a_sendID a) (a_uni a) (a_recvIDs a)).
End conn.
Arguments recvSlot P : clear implicits.
Arguments connUDP P : clear implicits.
Arguments inPacket P : clear implicits.
Arguments assoc P : clear implicits.
Arguments effect P : clear implicits.

(** ** Identifiers *)

(** The loop looks at every identifier once: it fails only when all are taken. *)
Lemma alloc_loop_spec fuel : forall next (sending : gset Z), 0 <= next < 2 ^ 16 ->
  match alloc_loop fuel next sending with
  | Some (id, next') => id ∉ sending /\ 0 <= id < 2 ^ 16 /\ next' = w16 (id + 1)
  | None => forall j, 0 <= j < Z.of_nat fuel -> w16 (next + j) ∈ sending
  end.
Proof.
  induction fuel as [|fuel IH]; intros next sending Hn; cbn [alloc_loop]; [intros j ?; lia|]. destruct (decide (next ∈ sending)) as [Hin|Hin]; [|done].
  specialize (IH (w16 (next + 1)) sending ltac:(apply Z.mod_pos_bound; done)). destruct (alloc_loop fuel _ sending) as [[id next']|]; [done|].
  intros j Hj. destruct (Z.eq_dec j 0) as [->|]; [rewrite Z.add_0_r; unfold w16; by rewrite Z.mod_small|].
  specialize (IH (j - 1) ltac:(lia)). unfold w16 in *. rewrite Z.add_mod_idemp_l in IH by done. by replace (next + 1 + (j - 1)) with (next + j) in IH by lia.
Qed.

Lemma allocID_spec {P} (c : connUDP P) : 0 <= nextID c < 2 ^ 16 ->
  match allocID c with
  | (c', Some id) => id ∉ sending c /\ 0 <= id < 2 ^ 16 /\ sending c' = {[id]} ∪ sending c /\ 0 <= nextID c' < 2 ^ 16
  | (c', None) => c' = c /\ forall id, 0 <= id < 2 ^ 16 -> id ∈ sending c
  end.
Proof.
  intros Hn. unfold allocID. pose proof (alloc_loop_spec (Z.to_nat (2 ^ 16)) (nextID c) (sending c) Hn) as H. destruct (alloc_loop _ _ _) as [[id next]|].
  - destruct H as (? & ? & ->). split_and!; try done; try apply Z.mod_pos_bound; lia.
  - split; [done|]. intros id Hid. destruct (turn_covers (2 ^ 16) (nextID c) id ltac:(lia) Hid) as (k & Hk & <-). apply H. lia.
Qed.

(** ** Two ends *)

(** A payload, and where it came from: the association and the encoded destination. *)
Definition tagged : Type := bytes * (nat * bytes).
Definition tsize (p : tagged) : Z := len p.1.

(** A stream of a destination: its identifier, the payloads under way, and what [waitBound]
    returned at the other end. *)
Record uni := mkUni { un_id : Z; un_data : list tagged; un_bound : option (nat * Socksaddr) }.

(** The sender and the receiver of one direction, what is under way between them, the
    payloads the receiver's associations were given, and the announcements made. *)
Record sys := mkSys {
  s_cu : connUDP tagged; s_as : gmap nat (assoc tagged);
  w_ctl : gmap nat bytes; w_dg : list (Z * tagged); w_uni : gmap nat uni;
  r_cu : connUDP tagged;
  given : list (nat * inPacket tagged); announced : list (Z * (nat * bytes)) }.

Definition apply_effect (k : nat) (x : sys) (e : effect tagged) : sys :=
  match e with
  | WriteControl msg => mkSys (s_cu x) (s_as x) (<[k := default [] (w_ctl x !! k) ++ msg]> (w_ctl x)) (w_dg x) (w_uni x) (r_cu x) (given x) (announced x)
  | OpenUni u id => mkSys (s_cu x) (s_as x) (w_ctl x) (w_dg x) (<[u := mkUni id [] None]> (w_uni x)) (r_cu x) (given x) (announced x)
  | WriteUni u p => mkSys (s_cu x) (s_as x) (w_ctl x) (w_dg x) (alter (fun un => mkUni (un_id un) (un_data un ++ [p]) (un_bound un)) u (w_uni x)) (r_cu x) (given x) (announced x)
  | SendDatagram id p => mkSys (s_cu x) (s_as x) (w_ctl x) ((id, p) :: w_dg x) (w_uni x) (r_cu x) (given x) (announced x)
  end.

Definition with_sender (x : sys) (c : connUDP tagged) (k : nat) (a : assoc tagged) : sys :=
  mkSys c (<[k := a]> (s_as x)) (w_ctl x) (w_dg x) (w_uni x) (r_cu x) (given x) (announced x).
Definition announce (x : sys) (l : list (Z * (nat * bytes))) : sys :=
  mkSys (s_cu x) (s_as x) (w_ctl x) (w_dg x) (w_uni x) (r_cu x) (given x) (l ++ announced x).
Definition with_recv (x : sys) (c : connUDP tagged) (l : list (nat * inPacket tagged)) : sys :=
  mkSys (s_cu x) (s_as x) (w_ctl x) (w_dg x) (w_uni x) c (l ++ given x) (announced x).
Definition with_wire (x : sys) (ctl : gmap nat bytes) (dg : list (Z * tagged)) (un : gmap nat uni) : sys :=
  mkSys (s_cu x) (s_as x) ctl dg un (r_cu x) (given x) (announced x).

(** The announcements among the effects of a write: its identifier for its destination. *)
Definition announcements (k : nat) (key : bytes) (a' : assoc tagged) (l : list (effect tagged)) : list (Z * (nat * bytes)) :=
  match l, a_sendID a' !! key with WriteControl _ :: _, Some id => [(id, (k, key))] | _, _ => [] end.

Inductive sys_step : sys -> sys -> Prop :=
| sys_open x k stream : s_as x !! k = None -> sys_step x (with_sender x (s_cu x) k (newAssoc stream))
| sys_write x k a o payload dst key c a' l e : s_as x !! k = Some a -> addr_wf (sa_addr dst) -> in_u16 (sa_port dst) ->
    encodeSocksAddr dst = Some key -> w_uni x !! new_uni o = None ->
    WritePacket tsize o (s_cu x) a (payload, (k, key)) dst = (c, a', l, e) ->
    sys_step x (with_sender (fold_left (apply_effect k) l (announce x (announcements k key a' l))) c k a')
| sys_close x k a c a' : s_as x !! k = Some a -> assoc_Close (s_cu x) k a = (c, a') -> sys_step x (with_sender x c k a')
| sys_lose x i : sys_step x (with_wire x (w_ctl x) (delete i (w_dg x)) (w_uni x))
| sys_datagram x i id p c d : w_dg x !! i = Some (id, p) -> feed (r_cu x) id p = (c, d) ->
    sys_step x (with_recv (with_wire x (w_ctl x) (delete i (w_dg x)) (w_uni x)) c (option_list d))
| sys_control x k ctl from id rest c ps : w_ctl x !! k = Some ctl -> ends controlMessage ctl (Ok (from, id)) rest [] -> bind (r_cu x) id k from = (c, ps) ->
    sys_step x (with_recv (with_wire x (<[k := rest]> (w_ctl x)) (w_dg x) (w_uni x)) c ((fun p => (k, p)) <$> ps))
| sys_bound x u un c b : w_uni x !! u = Some un -> un_bound un = None -> waitBound (r_cu x) (un_id un) = (c, Some b) ->
    sys_step x (with_recv (with_wire x (w_ctl x) (w_dg x) (<[u := mkUni (un_id un) (un_data un) (Some b)]> (w_uni x))) c [])
| sys_uni x u un p ps a from : w_uni x !! u = Some un -> un_bound un = Some (a, from) -> un_data un = p :: ps ->
    sys_step x (with_recv (with_wire x (w_ctl x) (w_dg x) (<[u := mkUni (un_id un) ps (Some (a, from))]> (w_uni x))) (r_cu x) [(a, mkIn p from)])
| sys_unbind x k ids : sys_step x (with_recv x (unbind (r_cu x) k ids) []).

Definition sys0 : sys := mkSys newConnUDP ∅ ∅ [] ∅ newConnUDP [] [].

(** [key] is read as [from]. *)
Definition hears (key : bytes) (from : Socksaddr) : Prop := forall r, ends readSocksAddr (key ++ r) (Ok from) r [].

Lemma hears_unique key f1 f2 : hears key f1 -> hears key f2 -> f1 = f2.
Proof. intros H1 H2. specialize (H1 []). specialize (H2 []). unfold ends in *. congruence. Qed.

(** What was announced on the control stream of an association and is under way there. *)
Definition control_of (l : list (Z * bytes)) : bytes := concat ((fun x => x.2 ++ be_enc 2 x.1) <$> l).

Notation "x '∋' y" := (y ∈ announced x) (at level 70).

Record sys_inv (x : sys) : Prop := {
  i_ann : forall id k key, x ∋ (id, (k, key)) -> 0 <= id < 2 ^ 16 /\ exists from, hears key from;
  i_next : 0 <= nextID (s_cu x) < 2 ^ 16;
  i_send : forall k a key id, s_as x !! k = Some a -> a_sendID a !! key = Some id -> x ∋ (id, (k, key));
  i_auni : forall k a key u, s_as x !! k = Some a -> a_uni a !! key = Some u -> exists un, w_uni x !! u = Some un /\ x ∋ (un_id un, (k, key));
  i_dg : forall id p, (id, p) ∈ w_dg x -> x ∋ (id, p.2);
  i_uni : forall u un p, w_uni x !! u = Some un -> p ∈ un_data un -> x ∋ (un_id un, p.2);
  i_bound : forall u un a from, w_uni x !! u = Some un -> un_bound un = Some (a, from) -> exists key, x ∋ (un_id un, (a, key)) /\ hears key from;
  i_ctl : forall k ctl, w_ctl x !! k = Some ctl -> exists l, ctl = control_of l /\ Forall (fun y => x ∋ (y.1, (k, y.2))) l;
  i_slot : forall id s a, recv (r_cu x) !! id = Some s -> sl_a s = Some a -> exists key, x ∋ (id, (a, key)) /\ hears key (sl_from s);
  i_pend : forall id s p, recv (r_cu x) !! id = Some s -> p ∈ sl_pending s -> x ∋ (id, p.2);
  i_given : NoDup (announced x).*1 -> forall a p, (a, p) ∈ given x -> exists key, (in_data p).2 = (a, key) /\ hears key (in_from p);
}.

Lemma sys_inv0 : sys_inv sys0.
Proof. split; cbn; try done; intros; try (by rewrite lookup_empty in *); try (by apply elem_of_nil in H); by apply not_elem_of_nil in H0. Qed.

(** *** The receiver *)

Definition slot_ok (x : sys) (id : Z) (s : recvSlot tagged) : Prop :=
  (forall a, sl_a s = Some a -> exists key, x ∋ (id, (a, key)) /\ hears key (sl_from s)) /\ Forall (fun p => x ∋ (id, p.2)) (sl_pending s).
Definition slots_ok (x : sys) (c : connUDP tagged) : Prop := map_Forall (slot_ok x) (recv c).

Definition good (x : sys) (d : nat * inPacket tagged) : Prop := NoDup (announced x).*1 -> exists key, (in_data d.2).2 = (d.1, key) /\ hears key (in_from d.2).

Lemma inv_slots x : sys_inv x -> slots_ok x (r_cu x).
Proof. intros H id s Hs. split; [intros a Ha; by eapply i_slot|]. apply Forall_forall. intros p Hp. by eapply i_pend. Qed.

Lemma slot_get x c id : slots_ok x c -> slot_ok x id (slot c id).
Proof. intros H. unfold slot. destruct (recv c !! id) eqn:E; [by apply H|]. by split. Qed.

Lemma slot_set x c id s : slots_ok x c -> slot_ok x id s -> slots_ok x (set_slot c id s).
Proof. intros Hc Hs. by apply map_Forall_insert_2. Qed.

Lemma inv_recv x c l : sys_inv x -> slots_ok x c -> Forall (good x) l -> sys_inv (with_recv x c l).
Proof.
  intros [] Hc Hl. split; cbn [with_recv announced s_cu s_as w_ctl w_dg w_uni r_cu given]; try done.
  - intros id s a Hs. by apply (Hc id s Hs).
  - intros id s p Hs Hp. destruct (Hc id s Hs) as [_ HF]. rewrite Forall_forall in HF. by apply HF.
  - intros Hn a p [Ha|Ha]%elem_of_app; [|by apply i_given0]. rewrite Forall_forall in Hl. by apply (Hl _ Ha Hn).
Qed.

(** Two announcements of one identifier are the same, when none was used twice. *)
Lemma announced_once x id y z : NoDup (announced x).*1 -> x ∋ (id, y) -> x ∋ (id, z) -> y = z.
Proof.
  intros Hn Hy Hz. apply list_elem_of_lookup in Hy as [i Hi], Hz as [j Hj]. assert (i = j) as <-; [|congruence].
  eapply (NoDup_lookup _ i j id Hn); rewrite list_lookup_fmap; [by rewrite Hi|by rewrite Hj].
Qed.

(** A payload goes to the association it came from, under the address it was sent to. *)
Lemma good_delivery x id p a key from : x ∋ (id, p.2) -> x ∋ (id, (a, key)) -> hears key from -> good x (a, mkIn p from).
Proof. intros Hp Ha Hh Hn. exists key. cbn. split; [|done]. by eapply announced_once. Qed.

Lemma feed_ok x id p c d : slots_ok x (r_cu x) -> x ∋ (id, p.2) -> feed (r_cu x) id p = (c, d) -> slots_ok x c /\ Forall (good x) (option_list d).
Proof.
  intros Hc Hp. unfold feed. pose proof (slot_get x _ id Hc) as Hs. destruct (sl_a (slot (r_cu x) id)) as [a|] eqn:Ea; intros [= <- <-].
  - split; [by apply slot_set|]. constructor; [|done]. destruct Hs as [Hs _]. destruct (Hs a Ea) as (key & Hk & Hh). by eapply good_delivery.
  - split; [|done]. apply slot_set; [done|]. destruct (_ <? _)%nat; [|done]. split; cbn; [done|]. apply Forall_app. split; [apply Hs|by constructor].
Qed.

Lemma slot_bind_ok x id k key from c ps : slots_ok x (r_cu x) -> x ∋ (id, (k, key)) -> hears key from -> bind (r_cu x) id k from = (c, ps) ->
  slots_ok x c /\ Forall (good x) ((fun p => (k, p)) <$> ps).
Proof.
  intros Hc Hk Hh. unfold bind. intros [= <- <-]. destruct (slot_get x _ id Hc) as [_ Hp]. split.
  - apply slot_set; [done|]. split; cbn; [|done]. intros a [= <-]. eauto.
  - rewrite !Forall_fmap. eapply Forall_impl; [exact Hp|]. intros p Hx. exact (good_delivery x id p k key from Hx Hk Hh).
Qed.

Lemma unbind_ok x k ids c : slots_ok x c -> slots_ok x (unbind c k ids).
Proof. intros Hc id s Hs. cbn in Hs. apply map_lookup_filter_Some in Hs as [Hs _]. by apply Hc. Qed.

(** *** What is under way *)

Lemma inv_wire x ctl dg un : sys_inv x ->
  (forall k c, ctl !! k = Some c -> exists l, c = control_of l /\ Forall (fun y => x ∋ (y.1, (k, y.2))) l) ->
  (forall id p, (id, p) ∈ dg -> x ∋ (id, p.2)) ->
  (forall u y, un !! u = Some y -> Forall (fun p => x ∋ (un_id y, p.2)) (un_data y) /\ forall a from, un_bound y = Some (a, from) -> exists key, x ∋ (un_id y, (a, key)) /\ hears key from) ->
  (forall u y, w_uni x !! u = Some y -> exists y', un !! u = Some y' /\ un_id y' = un_id y) ->
  sys_inv (with_wire x ctl dg un).
Proof.
  intros [] Hctl Hdg Hun Hkeep. split; cbn [with_wire announced s_cu s_as w_ctl w_dg w_uni r_cu given]; try done.
  - intros k a key u Ha Hu. destruct (i_auni0 k a key u Ha Hu) as (y & Hy & Hin). destruct (Hkeep u y Hy) as (y' & ? & E). exists y'. by rewrite E.
  - intros u y p Hy Hp. destruct (Hun u y Hy) as [HF _]. rewrite Forall_forall in HF. by apply HF.
  - intros u y a from Hy. by apply (Hun u y Hy).
Qed.

Lemma uni_ok x u y : sys_inv x -> w_uni x !! u = Some y ->
  Forall (fun p => x ∋ (un_id y, p.2)) (un_data y) /\ forall a from, un_bound y = Some (a, from) -> exists key, x ∋ (un_id y, (a, key)) /\ hears key from.
Proof. intros H Hy. split; [apply Forall_forall; intros p Hp; by eapply i_uni|]. intros a from. by eapply i_bound. Qed.

Lemma inv_wire_uni x u y' : sys_inv x -> (forall y0, w_uni x !! u = Some y0 -> un_id y' = un_id y0) ->
  (Forall (fun p => x ∋ (un_id y', p.2)) (un_data y') /\ forall a from, un_bound y' = Some (a, from) -> exists key, x ∋ (un_id y', (a, key)) /\ hears key from) ->
  sys_inv (with_wire x (w_ctl x) (w_dg x) (<[u := y']> (w_uni x))).
Proof.
  intros H Hid Hy'. apply inv_wire; [done|by apply (i_ctl _ H)|by apply (i_dg _ H)| |].
  - intros u2 y2 [[<- <-]|[Hne Hy2]]%lookup_insert_Some; [done|by apply (uni_ok x u2 y2)].
  - intros u2 y2 Hy2. destruct (decide (u2 = u)) as [->|]; [rewrite lookup_insert_eq; eauto|rewrite lookup_insert_ne by done; eauto].
Qed.

(** A message of the control stream is the announcement at its head. *)
Lemma control_message x k ctl from id rest : sys_inv x -> w_ctl x !! k = Some ctl -> ends controlMessage ctl (Ok (from, id)) rest [] ->
  exists key l, x ∋ (id, (k, key)) /\ hears key from /\ rest = control_of l /\ Forall (fun y => x ∋ (y.1, (k, y.2))) l.
Proof.
  intros H Hk He. destruct (i_ctl _ H k ctl Hk) as (l & -> & Hl). destruct l as [|[id0 key] l]; [cbn in He; done|].
  inversion Hl as [|? ? Hy Hl']; subst. cbn [fst snd] in Hy. destruct (i_ann _ H id0 k key Hy) as [Hid [from0 Hh]].
  assert (ends controlMessage (control_of ((id0, key) :: l)) (Ok (from0, id0)) (control_of l) []) as He0.
  { unfold controlMessage, control_of. cbn [fmap list_fmap concat fst snd]. rewrite <-app_assoc. eapply (ends_bind _ _ _ from0 _ []); [apply Hh|].
    apply ends_read_bind; [apply length_be_enc|]. rewrite be_dec_enc_small by (cbn; lia). apply ends_ret. }
  unfold ends in He, He0. rewrite He0 in He. injection He as <- <- <-. by exists key, l.
Qed.

(** *** The sender *)

Definition effect_ok (k : nat) (key : bytes) (x : sys) (e : effect tagged) : Prop :=
  match e with
  | WriteControl msg => exists id, msg = key ++ be_enc 2 id /\ x ∋ (id, (k, key))
  | OpenUni u id => w_uni x !! u = None /\ x ∋ (id, (k, key))
  | WriteUni u p => p.2 = (k, key) /\ exists un, w_uni x !! u = Some un /\ x ∋ (un_id un, (k, key))
  | SendDatagram id p => p.2 = (k, key) /\ x ∋ (id, (k, key))
  end.

Lemma control_of_app l1 l2 : control_of (l1 ++ l2) = control_of l1 ++ control_of l2.
Proof. unfold control_of. by rewrite fmap_app, concat_app. Qed.

Lemma inv_effect k key x e : sys_inv x -> effect_ok k key x e -> sys_inv (apply_effect k x e).
Proof.
  intros H He. destruct e as [msg|u id|u p|id p]; cbn [apply_effect effect_ok] in *.
  - destruct He as (id & -> & Hin). apply (inv_wire x (<[k := default [] (w_ctl x !! k) ++ (key ++ be_enc 2 id)]> (w_ctl x)) (w_dg x) (w_uni x));
      [done| |by apply (i_dg _ H)|by intros u2 y2; apply uni_ok|eauto].
    intros k' c [[<- <-]|[_ Hc]]%lookup_insert_Some; [|by apply (i_ctl _ H)].
    assert (exists l, default [] (w_ctl x !! k) = control_of l /\ Forall (fun y => x ∋ (y.1, (k, y.2))) l) as (l & El & Hl).
    { destruct (w_ctl x !! k) as [c|] eqn:E; [by apply (i_ctl _ H)|by exists []]. }
    exists (l ++ [(id, key)]). rewrite control_of_app, <-El. split; [unfold control_of; cbn; by rewrite app_nil_r|]. apply Forall_app. split; [done|by constructor].
  - destruct He as [Hu Hin]. apply (inv_wire_uni x u (mkUni id [] None)); [done|by intros y0; rewrite Hu|done].
  - destruct He as (Ep & un & Hu & Hin). destruct (uni_ok x u un H Hu) as [HF HB].
    replace (alter _ u (w_uni x)) with (<[u := mkUni (un_id un) (un_data un ++ [p]) (un_bound un)]> (w_uni x)).
    + apply inv_wire_uni; [done|intros y0; rewrite Hu; by intros [= <-]|]. cbn. split; [|done]. apply Forall_app. split; [done|]. constructor; [by rewrite Ep|done].
    + apply map_eq. intros u2. destruct (decide (u2 = u)) as [->|]; [by rewrite lookup_insert_eq, lookup_alter_eq, Hu|by rewrite lookup_insert_ne, lookup_alter_ne by done].
  - destruct He as [Ep Hin]. apply (inv_wire x (w_ctl x) ((id, p) :: w_dg x) (w_uni x)); [done|by apply (i_ctl _ H)| |by intros u2 y2; apply uni_ok|eauto].
    intros id2 p2 [[= -> ->]|Hp]%elem_of_cons; [by rewrite Ep|by apply (i_dg _ H)].
Qed.

Lemma inv_announce x l : sys_inv x -> Forall (fun y => 0 <= y.1 < 2 ^ 16 /\ exists from, hears y.2.2 from) l -> sys_inv (announce x l).
Proof.
  intros [] Hl. assert (forall y, x ∋ y -> announce x l ∋ y) as Hm by (intros y Hy; cbn; apply elem_of_app; by right).
  split; cbn [announce s_cu s_as w_ctl w_dg w_uni r_cu given]; try done; try (intros; eauto; fail).
  - intros id k key [Hin|Hin]%elem_of_app; [|by eapply i_ann0]. rewrite Forall_forall in Hl. by apply (Hl _ Hin).
  - intros k a key u Ha Hu. destruct (i_auni0 k a key u Ha Hu) as (un & ? & ?). eauto.
  - intros u un a from Hu Hb. destruct (i_bound0 u un a from Hu Hb) as (key & ? & ?). eauto.
  - intros k ctl Hk. destruct (i_ctl0 k ctl Hk) as (l' & -> & HF). exists l'. split; [done|]. eapply Forall_impl; [exact HF|]. intros y. apply Hm.
  - intros id s a Hs Ha. destruct (i_slot0 id s a Hs Ha) as (key & ? & ?). eauto.
  - intros Hn. apply i_given0. cbn in Hn. rewrite fmap_app in Hn. by apply NoDup_app in Hn as (_ & _ & ?).
Qed.

Lemma inv_sender x c k a : sys_inv x -> 0 <= nextID c < 2 ^ 16 -> (forall key id, a_sendID a !! key = Some id -> x ∋ (id, (k, key))) ->
  (forall key u, a_uni a !! key = Some u -> exists un, w_uni x !! u = Some un /\ x ∋ (un_id un, (k, key))) -> sys_inv (with_sender x c k a).
Proof.
  intros [] Hn Hs Hu. split; cbn [with_sender announced s_cu s_as w_ctl w_dg w_uni r_cu given]; try done.
  - intros k' a' key id [[<- <-]|[_ Ha]]%lookup_insert_Some; [apply Hs|by apply i_send0].
  - intros k' a' key id [[<- <-]|[_ Ha]]%lookup_insert_Some; [apply Hu|by apply i_auni0].
Qed.

Lemma apply_effect_keeps k x e : announced (apply_effect k x e) = announced x /\
  (forall u un, w_uni x !! u = Some un -> (match e with OpenUni u' _ => u' <> u | _ => True end) -> exists un', w_uni (apply_effect k x e) !! u = Some un' /\ un_id un' = un_id un).
Proof.
  destruct e as [msg|u' id|u' p|id p]; cbn; (split; [done|]); intros u un Hu Hne; [eauto|rewrite lookup_insert_ne by done; eauto| |eauto].
  destruct (decide (u = u')) as [->|]; [rewrite lookup_alter_eq, Hu; cbn; eauto|rewrite lookup_alter_ne by done; eauto].
Qed.

Lemma inv_send x k a o key id p a' l e c : sys_inv x -> 0 <= nextID c < 2 ^ 16 -> x ∋ (id, (k, key)) -> p.2 = (k, key) -> w_uni x !! new_uni o = None ->
  (forall key id, a_sendID a !! key = Some id -> x ∋ (id, (k, key))) ->
  (forall key u, a_uni a !! key = Some u -> exists un, w_uni x !! u = Some un /\ x ∋ (un_id un, (k, key))) ->
  send o a key id p = (a', l, e) -> sys_inv (with_sender (fold_left (apply_effect k) l x) c k a').
Proof.
  intros H Hc Hin Hp Hnew Hs Hu. unfold send. destruct (a_stream a).
  - destruct (a_uni a !! key) as [u|] eqn:Eu.
    + destruct (data_ok o); intros [= <- <- <-]; [|by apply inv_sender]. cbn [fold_left].
      assert (effect_ok k key x (WriteUni u p)) as He by (split; [done|by apply Hu]). destruct (apply_effect_keeps k x (WriteUni u p)) as [_ Ek].
      apply inv_sender; [by eapply inv_effect|done|exact Hs|]. intros key' u' Hu'. destruct (Hu key' u' Hu') as (un & Hun & Hun2).
      destruct (Ek u' un Hun I) as (un' & ? & E). exists un'. rewrite E. done.
    + destruct (open_ok o); intros [= <- <- <-]; [|by apply inv_sender]. set (x1 := apply_effect k x (OpenUni (new_uni o) id)).
      assert (sys_inv x1) as H1 by (by apply (inv_effect k key)). assert (w_uni x1 !! new_uni o = Some (mkUni id [] None)) as Hn1 by (unfold x1; cbn; by rewrite lookup_insert_eq).
      assert (forall key' u', <[key := new_uni o]> (a_uni a) !! key' = Some u' -> exists un, w_uni x1 !! u' = Some un /\ x1 ∋ (un_id un, (k, key'))) as Hu1.
      { intros key' u' [[<- <-]|[Hne Hu']]%lookup_insert_Some; [by eexists|]. destruct (Hu key' u' Hu') as (un & Hun & Hun2).
        exists un. split; [|done]. unfold x1. cbn. rewrite lookup_insert_ne; [done|congruence]. }
      destruct (data_ok o); cbn [fold_left]; fold x1; [|by apply inv_sender].
      assert (effect_ok k key x1 (WriteUni (new_uni o) p)) as He by (split; [done|eauto]). destruct (apply_effect_keeps k x1 (WriteUni (new_uni o) p)) as [_ Ek].
      apply inv_sender; [by eapply inv_effect|done|exact Hs|]. cbn [a_uni]. intros key' u' Hu'. destruct (Hu1 key' u' Hu') as (un & Hun & Hun2).
      destruct (Ek u' un Hun I) as (un' & ? & E). exists un'. rewrite E. done.
  - destruct (data_ok o); intros [= <- <- <-]; [|by apply inv_sender]. cbn [fold_left].
    apply inv_sender; [apply (inv_effect k key); [done|by split]|done|done|done].
Qed.

Lemma inv_write x k a o payload dst key c a' l e : sys_inv x -> s_as x !! k = Some a -> addr_wf (sa_addr dst) -> in_u16 (sa_port dst) ->
  encodeSocksAddr dst = Some key -> w_uni x !! new_uni o = None -> WritePacket tsize o (s_cu x) a (payload, (k, key)) dst = (c, a', l, e) ->
  sys_inv (with_sender (fold_left (apply_effect k) l (announce x (announcements k key a' l))) c k a').
Proof.
  intros H Ha Hw Hp Hk Hnew. assert (sys_inv (announce x [])) as H0 by (by destruct x). pose proof (i_next _ H) as Hn.
  assert (forall c0, 0 <= nextID c0 < 2 ^ 16 -> sys_inv (with_sender (announce x []) c0 k a)) as Hsame.
  { intros c0 Hc0. apply inv_sender; [done|done|exact (fun key id => i_send _ H0 k a key id Ha)|exact (fun key u => i_auni _ H0 k a key u Ha)]. }
  unfold WritePacket. destruct (65535 <? tsize _); [intros [= <- <- <- <-]; by apply Hsame|]. rewrite Hk. destruct (a_closed a); [intros [= <- <- <- <-]; by apply Hsame|].
  destruct (a_sendID a !! key) as [id|] eqn:Es.
  - destruct (send o a key id (payload, (k, key))) as [[a1 l1] e1] eqn:E. intros [= <- <- <- <-].
    assert (announcements k key a1 l1 = []) as ->.
    { unfold send in E. destruct (a_stream a), (a_uni a !! key), (data_ok o), (open_ok o); by injection E as <- <- <-. }
    eapply (inv_send (announce x []) k a o key id (payload, (k, key))); [done|done|by apply (i_send _ H0 k a key id Ha)|reflexivity|exact Hnew|exact (fun key id => i_send _ H0 k a key id Ha)|exact (fun key u => i_auni _ H0 k a key u Ha)|exact E].
  - pose proof (allocID_spec (s_cu x) Hn) as Hal. destruct (allocID (s_cu x)) as [c1 [id|]]; [|destruct Hal as [-> _]; intros [= <- <- <- <-]; by apply Hsame].
    destruct Hal as (_ & Hid & _ & Hn1). destruct (ctl_ok o); [|intros [= <- <- <- <-]; by apply Hsame].
    set (a0 := mkAssoc _ _ _ (<[key := id]> _) _ _). destruct (send o a0 key id (payload, (k, key))) as [[a1 l1] e1] eqn:E. intros [= <- <- <- <-].
    assert (a_sendID a1 = <[key := id]> (a_sendID a)) as Ea1.
    { unfold send in E. destruct (a_stream a0), (a_uni a0 !! key), (data_ok o), (open_ok o); by injection E as <- <- <-. }
    unfold announcements. rewrite Ea1, lookup_insert_eq. cbn [fold_left]. set (x1 := announce x [(id, (k, key))]).
    assert (sys_inv x1) as H1. { apply inv_announce; [done|]. constructor; [|done]. split; [done|]. exists (heard dst). intros r. by apply readSocksAddr_encode. }
    assert (x1 ∋ (id, (k, key))) as Hin by (by apply elem_of_cons; left). set (x2 := apply_effect k x1 (WriteControl (key ++ be_enc 2 id))).
    assert (sys_inv x2) as H2 by (apply (inv_effect k key); [done|by exists id]).
    eapply (inv_send x2 k a0 o key id (payload, (k, key))); [done|done|done|done|done| | |exact E].
    + cbn [a_sendID a0]. intros key' id' [[<- <-]|[_ He]]%lookup_insert_Some; [done|]. exact (i_send _ H2 k a key' id' Ha He).
    + intros key' u Hu. exact (i_auni _ H2 k a key' u Ha Hu).
Qed.

Lemma inv_delete x i : sys_inv x -> forall id p, (id, p) ∈ delete i (w_dg x) -> x ∋ (id, p.2).
Proof.
  intros H id p Hp. apply (i_dg _ H). rewrite delete_take_drop in Hp. rewrite <-(take_drop i (w_dg x)). apply elem_of_app in Hp as [Hp|Hp]; apply elem_of_app; [by left|right].
  replace (drop (S i) (w_dg x)) with (drop 1 (drop i (w_dg x))) in Hp by (rewrite drop_drop; f_equal; lia). by destruct (drop i (w_dg x)); [|right].
Qed.

Lemma sys_inv_step x x' : sys_step x x' -> sys_inv x -> sys_inv x'.
Proof.
  intros Hst H. destruct Hst as [x k st Hk|x k a o payload dst key c a' l e Ha Hw Hp Hk Hnew E|x k a c a' Ha E|x i|x i id p c d Hi E|x k ctl from id rest c ps Hk He E|
    x u un c b Hu Hb E|x u un p ps a from Hu Hb Ed|x k ids].
  - apply inv_sender; [done|apply H|by intros ? ?|by intros ? ?].
  - by eapply inv_write.
  - unfold assoc_Close in E. destruct (a_closed a); injection E as <- <-; (apply inv_sender; [done|apply H|exact (fun key id => i_send _ H k a key id Ha)|exact (fun key u => i_auni _ H k a key u Ha)]).
  - apply inv_wire; [done|by apply (i_ctl _ H)|by apply inv_delete|by intros u2 y2; apply uni_ok|eauto].
  - assert (x ∋ (id, p.2)) as Hin by (apply (i_dg _ H id p); by eapply list_elem_of_lookup_2). destruct (feed_ok x id p c d (inv_slots x H) Hin E) as [Hc Hd].
    apply inv_recv; [|done|done]. apply inv_wire; [done|by apply (i_ctl _ H)|by apply inv_delete|by intros u2 y2; apply uni_ok|eauto].
  - destruct (control_message x k ctl from id rest H Hk He) as (key & l & Hin & Hh & -> & Hl). destruct (slot_bind_ok x id k key from c ps (inv_slots x H) Hin Hh E) as [Hc Hd].
    apply inv_recv; [|done|done]. apply inv_wire; [done| |by apply (i_dg _ H)|by intros u2 y2; apply uni_ok|eauto].
    intros k' c' [[<- <-]|[_ Hc']]%lookup_insert_Some; [eauto|by apply (i_ctl _ H)].
  - unfold waitBound in E. injection E as <- E. pose proof (slot_get x _ (un_id un) (inv_slots x H)) as Hs. destruct (sl_a (slot (r_cu x) (un_id un))) as [a|] eqn:Ea; [|done].
    injection E as <-. apply inv_recv; [|exact (slot_set x _ _ _ (inv_slots x H) Hs)|done]. apply inv_wire_uni; [done|intros y0; rewrite Hu; by intros [= <-]|]. cbn.
    split; [by apply (uni_ok x u un)|]. intros a' from [= <- <-]. by apply (proj1 Hs).
  - destruct (uni_ok x u un H Hu) as [HF HB]. destruct (HB a from Hb) as (key & Hin & Hh). rewrite Ed in HF. inversion HF as [|? ? Hp HF']; subst.
    apply inv_recv; [|exact (inv_slots x H)|constructor; [exact (good_delivery x _ p a key from Hp Hin Hh)|done]]. apply inv_wire_uni; [done|intros y0; rewrite Hu; by intros [= <-]|]. cbn.
    split; [done|]. intros a' from' [= <- <-]. eauto.
  - apply inv_recv; [done|by apply unbind_ok, inv_slots|done].
Qed.

(** [C36] One direction of the datagrams of a connection: associations opened, packets written
    to any destinations, as datagrams or on streams, with identifiers that run out or writes
    that fail, associations closed at either end, datagrams lost and reordered, and arriving
    before or after the announcement of their identifier. As long as no identifier was
    announced twice, whatever reaches an association of the receiver was written to the
    association of the sender it belongs to, and the address it is said to come from is the one
    it was written to, as the other end reads it. *)
Theorem shadowquic_attribution x : rtc sys_step sys0 x -> NoDup (announced x).*1 ->
  forall a p, (a, p) ∈ given x -> exists key, (in_data p).2 = (a, key) /\
    forall dst, addr_wf (sa_addr dst) -> in_u16 (sa_port dst) -> encodeSocksAddr dst = Some key -> in_from p = heard dst.
Proof.
  intros Hr Hn a p Hp. assert (sys_inv x) as H by (revert Hr; generalize sys0 sys_inv0; intros y Hy Hs; induction Hs as [|? ? ? Hst _ IH]; eauto using sys_inv_step).
  destruct (i_given _ H Hn a p Hp) as (key & Hk & Hh). exists key. split; [done|]. intros dst Hw Hport Hd.
  apply (hears_unique key); [done|]. intros r. by apply readSocksAddr_encode.
Qed.

Definition demo_dst : Socksaddr := FromIPPort {| ap_addr := Addr4 16843009; ap_port := 53 |}.
Definition demo_key : bytes := [x01; x01; x01; x01; x01; x00; x35].
Definition demo_x1 : sys := with_sender sys0 newConnUDP 0 (newAssoc false).
Definition demo_a : assoc tagged := mkAssoc false [] false {[demo_key := 0]} ∅ ∅.
Definition demo_c : connUDP tagged := mkConnUDP 1 {[0]} ∅.
Definition demo_x2 : sys :=
  with_sender (fold_left (apply_effect 0) [WriteControl (demo_key ++ be_enc 2 0); SendDatagram 0 (bs "hi", (0%nat, demo_key))] (announce demo_x1 [(0, (0%nat, demo_key))])) demo_c 0 demo_a.

(** The datagram arrives first, the announcement after it. *)
Lemma shadowquic_attribution_witness : exists x p, rtc sys_step sys0 x /\ given x = [(0%nat, p)] /\ in_from p = heard demo_dst.
Proof.
  set (c3 := (feed (r_cu demo_x2) 0 (bs "hi", (0%nat, demo_key))).1). set (x3 := with_recv (with_wire demo_x2 (w_ctl demo_x2) [] (w_uni demo_x2)) c3 []).
  set (c4 := (bind c3 0 0 demo_dst).1). set (p := mkIn (bs "hi", (0%nat, demo_key)) demo_dst).
  set (x4 := with_recv (with_wire x3 (<[0%nat := []]> (w_ctl x3)) [] (w_uni x3)) c4 [(0%nat, p)]).
  assert (rtc sys_step sys0 x4) as Hr.
  { eapply rtc_l; [apply (sys_open sys0 0 false); reflexivity|].
    eapply rtc_l; [apply (sys_write demo_x1 0 (newAssoc false) (mkOutcomes true true 0 true) (bs "hi") demo_dst demo_key demo_c demo_a
      [WriteControl (demo_key ++ be_enc 2 0); SendDatagram 0 (bs "hi", (0%nat, demo_key))] None); [reflexivity|vm_compute; done|done|reflexivity|reflexivity|vm_compute; reflexivity]|].
    eapply rtc_l; [apply (sys_datagram demo_x2 0 0 (bs "hi", (0%nat, demo_key)) c3 None); [reflexivity|vm_compute; reflexivity]|].
    apply rtc_once. apply (sys_control x3 0 (demo_key ++ be_enc 2 0) demo_dst 0 [] c4 [p]); [vm_compute; reflexivity|vm_compute; reflexivity|vm_compute; reflexivity]. }
  exists x4, p. split; [exact Hr|]. split; [reflexivity|].
  destruct (shadowquic_attribution x4 Hr ltac:(vm_compute; repeat constructor; by intros ?%elem_of_nil) 0%nat p ltac:(left)) as (key & E & Hf).
  apply Hf; [vm_compute; done|done|]. injection E as <-. reflexivity.
Defined.

(** ** Datagrams as they arrive *)

Definition readDatagram (c : connUDP bytes) (msg : bytes) : connUDP bytes * option (nat * inPacket bytes) :=
  if (length msg <? 2)%nat then (c, None) else feed c (be_dec (take 2 msg)) (drop 2 msg).

Definition datagram (id : Z) (payload : bytes) : bytes := be_enc 2 id ++ payload.

Lemma readDatagram_datagram c id payload : 0 <= id < 2 ^ 16 -> readDatagram c (datagram id payload) = feed c id payload.
Proof.
  intros Hid. unfold readDatagram, datagram. rewrite length_app, length_be_enc. destruct (_ <? 2)%nat eqn:E; [apply Nat.ltb_lt in E; lia|].
  rewrite take_app_length', drop_app_length' by (by rewrite length_be_enc). by rewrite be_dec_enc_small by (cbn; lia).
Qed.

(** ** The streams of the other mode *)

Definition uniFrame (payload : bytes) : bytes := be_enc 2 (len payload) ++ payload.
Definition readUniID : hs sqErr Z := hdr ← hread 2; mret (be_dec hdr).
Definition readUniFrame : hs sqErr bytes := hdr ← hread 2; hread (Z.to_nat (be_dec hdr)).

Fixpoint readUniFrames (n : nat) : hs sqErr (list bytes) :=
  match n with O => mret [] | S n => p ← readUniFrame; ps ← readUniFrames n; mret (p :: ps) end.

(** A stream is its identifier, then the payloads, each as it was written. *)
Lemma uni_stream id ps r : 0 <= id < 2 ^ 16 -> Forall (fun p => len p <= 65535) ps ->
  ends (id ← readUniID; ps ← readUniFrames (length ps); mret (id, ps)) (be_enc 2 id ++ concat (uniFrame <$> ps) ++ r) (Ok (id, ps)) r [].
Proof.
  intros Hid Hps. eapply (ends_bind _ _ _ id (concat (uniFrame <$> ps) ++ r) [] _ _ []).
  - unfold readUniID. apply ends_read_bind; [apply length_be_enc|]. rewrite be_dec_enc_small by (cbn; lia). apply ends_ret.
  - eapply (ends_bind _ _ _ ps r [] _ _ []); [|apply ends_ret]. induction Hps as [|p ps Hp _ IH]; [apply ends_ret|]. cbn [readUniFrames length fmap list_fmap concat].
    rewrite <-app_assoc. eapply (ends_bind _ _ _ p _ [] _ _ []).
    + unfold readUniFrame, uniFrame. rewrite <-app_assoc. apply ends_read_bind; [apply length_be_enc|].
      rewrite be_dec_enc_small by (pose proof (len_nonneg p); cbn; lia). apply ends_read. unfold len. lia.
    + eapply (ends_bind _ _ _ ps r [] _ _ []); [exact IH|apply ends_ret].
Qed.

(** ** What an identifier used again does *)

(** A datagram that comes after its association has ended is kept, without a limit in time,
    and handed to whichever association the identifier is announced for next, as coming from
    that one's address. *)
Lemma stale_datagram {P} (c : connUDP P) id a1 f1 a2 f2 p : recv c !! id = Some (mkSlot (Some a1) f1 []) ->
  (bind (feed (unbind c a1 {[id]}) id p).1 id a2 f2).2 = [mkIn p f2].
Proof.
  intros Hc. unfold feed, slot. replace (recv (unbind c a1 {[id]}) !! id) with (@None (recvSlot P)); [cbn|].
  - unfold bind, slot. cbn. by rewrite lookup_insert_eq.
  - symmetry. cbn. apply map_lookup_filter_None_2. right. intros s Hs Hn. rewrite Hc in Hs. injection Hs as <-. apply Hn. split; [cbn; set_solver|done].
Qed.

(** An announcement that is read while the association is being closed binds its identifier to
    the closed association, whose [Close] will not run again. *)
Lemma bind_after_Close {P} (c : connUDP P) k a id from : a_closed a = false ->
  let '(c1, a1) := assoc_Close c k a in let c2 := (bind c1 id k from).1 in
  recv c2 !! id = Some (mkSlot (Some k) from []) /\ assoc_Close c2 k (noteRecv a1 id) = (c2, noteRecv a1 id).
Proof. intros Ha. unfold assoc_Close. rewrite Ha. cbn. split; [by rewrite lookup_insert_eq|done]. Qed.
