(* ===== verification/Mtproto.v ===== *)
(** * MTProto proxy ([proto/mtproto/obfuscated2.go], [faketls.go], [faketls_client.go],
    [mtproto.go])

    The inner obfuscation, the outer imitation of TLS, and the handshake of the two ends. The
    hash functions, AES and curve25519 are the standard library's; random draws and the
    clock are arguments. *)
From stdpp Require Import relations.
From S2P Require Import Prelude GoStd Netip Socksaddr MuxClient KcpSegment KcpSegmentSpec StreamLayer Link.
From Stdlib Require Import Init.Byte.

Inductive mtErr := mtRead (e : io_err) | mtWrite | errBadConnType | errProbeDetected | errNoFrame | errBadDigest | errTimeSkew | errBadRecord
  | errNotClientHello | errRecordTooBig | errNoSuite | errBadSNI | errBadServerHello | errBadDC.
#[export] Instance mt_errors : StreamErrors mtErr := {| read_error := mtRead; write_error := mtWrite |}.

(** [b[i : i+n]]. *)
Definition sub (b : bytes) (i n : nat) : bytes := take n (drop i b).
Definition le_dec (b : bytes) : Z := be_dec (rev b).
Definition le_enc (n : nat) (z : Z) : bytes := rev (be_enc n z).
Definition int16 (z : Z) : Z := let z := w16 z in if z <? 2 ^ 15 then z else z - 2 ^ 16.

(** ** obfuscated2 *)

(** [sha256.Sum256], [hmac.New(sha256.New, _)] over a message, the key stream of AES-CTR. *)
Class Crypto := {
  sha256 : bytes -> bytes;
  hmac : bytes -> bytes -> bytes;
  keystream : bytes -> bytes -> nat -> byte;
  length_hmac : forall k m, length (hmac k m) = 32%nat;
}.

Section mtproto.
Context `{Cr : Crypto}.

Record Stream := mkCtr { st_key : bytes; st_iv : bytes; st_pos : nat }.
Definition XORKeyStream (s : Stream) (p : bytes) : bytes * Stream :=
  (imap (fun i b => lxor_byte b (keystream (st_key s) (st_iv s) (st_pos s + i))) p, mkCtr (st_key s) (st_iv s) (st_pos s + length p)).

Definition hf_key (d : bytes) : bytes := sub d 8 32.
Definition hf_iv (d : bytes) : bytes := sub d 40 16.
Definition hf_connType (d : bytes) : bytes := sub d 56 4.
Definition hfConnectionType : bytes := [xdd; xdd; xdd; xdd].
Definition revert (d : bytes) : bytes := take 8 d ++ rev (sub d 8 48) ++ drop 56 d.
Definition defaultDC : Z := 2.
Definition hf_dc (d : bytes) : Z :=
  let idx := int16 (le_dec (sub d 60 2)) in if 0 <? idx then idx else if idx <? 0 then - idx else defaultDC.

Definition forbiddenPrefixes : list Z := [0x44414548; 0x54534f50; 0x20544547; 0x4954504f; 0x02010316; 0xdddddddd; 0xeeeeeeee].

Definition badPrefix (d : bytes) : bool :=
  bool_decide (nth 0 d x00 = xef) || bool_decide (le_dec (take 4 d) ∈ forbiddenPrefixes) || bool_decide (sub d 4 4 = [x00; x00; x00; x00]).

(** Of the draws, the first that is not forbidden, among 64. *)
Fixpoint generateHandshake_loop (rounds : nat) (draws : list bytes) (dc : Z) : res mtErr bytes :=
  match rounds, draws with
  | S rounds, d :: draws => if badPrefix d then generateHandshake_loop rounds draws dc
                            else Ok (take 56 d ++ hfConnectionType ++ le_enc 2 (w16 dc) ++ drop 62 d)
  | _, _ => Err errNoFrame
  end.
Definition generateHandshake (draws : list bytes) (dc : Z) : res mtErr bytes := generateHandshake_loop 64 draws dc.

Definition deriveCipher (d secret : bytes) : Stream := mkCtr (sha256 (hf_key d ++ secret)) (hf_iv d) 0.

Record obfsConn := mkObfs { recv : Stream; send : Stream }.

(** What the server does with the frame it has read. *)
Definition acceptFrame (secret frame : bytes) : res mtErr (obfsConn * Z) :=
  if badPrefix frame then Err errProbeDetected
  else
    let recv := deriveCipher frame secret in
    let frame := revert frame in
    let send := deriveCipher frame secret in
    let '(frame, recv) := XORKeyStream recv frame in
    if bool_decide (hf_connType frame = hfConnectionType) then Ok (mkObfs recv send, hf_dc frame) else Err errBadConnType.

(** What the client makes of the frame it has drawn: the bytes to send, and its connection. *)
Definition sealFrame (secret frame : bytes) : bytes * obfsConn :=
  let orig := frame in
  let send := deriveCipher frame secret in
  let frame := revert frame in
  let recv := deriveCipher frame secret in
  let '(frame, send) := XORKeyStream send frame in
  (take 8 frame ++ hf_key orig ++ hf_iv orig ++ drop 56 frame, mkObfs recv send).

(** Over any stream below. *)
Section obfs.
Context {E S : Type} (below : reader E S).

Definition obfs_Read (st : S * Stream) (data : bytes) (n : nat) : bytes * option E * bytes * (S * Stream) :=
  let '(s, c) := st in
  let '(b, e, data, s) := below s data n in
  let '(b, c) := XORKeyStream c b in (b, e, data, (s, c)).
End obfs.

Definition obfs_Write (c : obfsConn) (p : bytes) : bytes * obfsConn := let '(b, s) := XORKeyStream (send c) p in (b, mkObfs (recv c) s).

(** *** The key stream *)

Lemma length_XOR s p : length (XORKeyStream s p).1 = length p.
Proof. cbn. by rewrite length_imap. Qed.

Lemma XOR_app s a b : (XORKeyStream s (a ++ b)).1 = (XORKeyStream s a).1 ++ (XORKeyStream (XORKeyStream s a).2 b).1.
Proof. cbn. rewrite imap_app. f_equal. apply imap_ext. intros i x _. cbn. do 2 f_equal. lia. Qed.

Lemma XOR_pos s a b : (XORKeyStream s (a ++ b)).2 = (XORKeyStream (XORKeyStream s a).2 b).2.
Proof. cbn. f_equal. rewrite length_app. lia. Qed.

(** Encrypting twice gives the text back. *)
Lemma XOR_twice s p : (XORKeyStream s (XORKeyStream s p).1).1 = p.
Proof. cbn. apply list_eq. intros i. rewrite !list_lookup_imap. destruct (p !! i); cbn; [|done]. by rewrite lxor_byte_cancel. Qed.

(** *** Frames in their fields *)

Lemma sub_app (a b : bytes) i n : (length a <= i)%nat -> sub (a ++ b) i n = sub b (i - length a) n.
Proof. intros Hi. unfold sub. by rewrite drop_app_ge. Qed.
Lemma sub_0 (a b : bytes) n : length a = n -> sub (a ++ b) 0 n = a.
Proof. intros <-. unfold sub. rewrite drop_0. by apply take_app_length. Qed.

Lemma frame_split (d : bytes) : length d = 64%nat -> exists n8 k iv t : bytes,
  d = n8 ++ k ++ iv ++ t /\ length n8 = 8%nat /\ length k = 32%nat /\ length iv = 16%nat /\ length t = 8%nat.
Proof.
  intros Hd. exists (take 8 d), (sub d 8 32), (sub d 40 16), (drop 56 d). unfold sub. rewrite !length_take, !length_drop. split_and!; try lia.
  rewrite <-(take_drop 8 d) at 1. f_equal. rewrite <-(take_drop 32 (drop 8 d)) at 1. f_equal. rewrite drop_drop.
  rewrite <-(take_drop 16 (drop (8 + 32) d)) at 1. f_equal. by rewrite drop_drop.
Qed.

Section fields.
Context (n8 k iv t : bytes) (H8 : length n8 = 8%nat) (Hk : length k = 32%nat) (Hiv : length iv = 16%nat).

Lemma key_fields : hf_key (n8 ++ k ++ iv ++ t) = k.
Proof. unfold hf_key. rewrite sub_app by lia. rewrite H8. by apply sub_0. Qed.
Lemma iv_fields : hf_iv (n8 ++ k ++ iv ++ t) = iv.
Proof. unfold hf_iv. rewrite sub_app by lia. rewrite sub_app by lia. rewrite H8, Hk. by apply sub_0. Qed.
Lemma revert_fields : revert (n8 ++ k ++ iv ++ t) = n8 ++ rev (k ++ iv) ++ t.
Proof.
  unfold revert. rewrite take_app_length' by done. rewrite sub_app by lia. rewrite H8, (app_assoc k iv t), sub_0 by (rewrite length_app; lia).
  rewrite (app_assoc n8 (k ++ iv) t), drop_app_length' by (rewrite !length_app; lia). done.
Qed.
End fields.

(** What follows the first 56 bytes. *)
Lemma tail_fields (a b t : bytes) : length a = 56%nat -> length b = 56%nat -> hf_connType (a ++ t) = hf_connType (b ++ t) /\ hf_dc (a ++ t) = hf_dc (b ++ t).
Proof. intros Ha Hb. unfold hf_connType, hf_dc. by rewrite !sub_app, Ha, Hb by lia. Qed.

(** The server takes a client's frame, unless the encrypted beginning of it looks like a
    probe: the two ends then use the same key streams, and the server has the data centre of
    the client. *)
Lemma obfuscated2_agree secret d wire cc : length d = 64%nat -> hf_connType d = hfConnectionType -> sealFrame secret d = (wire, cc) ->
  length wire = 64%nat /\
  acceptFrame secret wire = if badPrefix wire then Err errProbeDetected else Ok (mkObfs (send cc) (recv cc), hf_dc d).
Proof.
  intros Hd Hct. destruct (frame_split d Hd) as (n8 & k & iv & t & -> & H8 & Hk & Hiv & Ht). unfold sealFrame.
  rewrite revert_fields, key_fields, iv_fields by done. set (s := deriveCipher (n8 ++ k ++ iv ++ t) secret). set (s' := (XORKeyStream (XORKeyStream s n8).2 (rev (k ++ iv))).2).
  assert (s = mkCtr (sha256 (k ++ secret)) iv 0) as Es by (unfold s, deriveCipher; by rewrite key_fields, iv_fields).
  set (m8 := (XORKeyStream s n8).1). assert (length m8 = 8%nat) as Hm8 by (unfold m8; by rewrite length_XOR).
  set (m48 := (XORKeyStream (XORKeyStream s n8).2 (rev (k ++ iv))).1). set (mt := (XORKeyStream s' t).1). assert (length mt = length t) as Hmt by apply length_XOR.
  assert (length (rev (k ++ iv)) = 48%nat) as Hr by (rewrite length_rev, length_app; lia). assert (length m48 = 48%nat) as Hm48 by (unfold m48; by rewrite length_XOR).
  assert ((XORKeyStream s (n8 ++ rev (k ++ iv) ++ t)).1 = m8 ++ m48 ++ mt) as E1 by (by rewrite !XOR_app).
  destruct (XORKeyStream s (n8 ++ rev (k ++ iv) ++ t)) as [e s2] eqn:E2. cbn [fst] in E1. subst e.
  rewrite take_app_length' by done. rewrite (app_assoc m8 m48 mt), drop_app_length' by (rewrite length_app; lia). intros [= <- <-]. cbn [send recv].
  split; [rewrite !length_app; unfold mt; rewrite length_XOR; lia|]. unfold acceptFrame. destruct (badPrefix _); [done|].
  rewrite revert_fields by done. replace (deriveCipher (m8 ++ k ++ iv ++ mt) secret) with s by (rewrite Es; unfold deriveCipher; by rewrite key_fields, iv_fields).
  replace (deriveCipher (m8 ++ rev (k ++ iv) ++ mt) secret) with (deriveCipher (n8 ++ rev (k ++ iv) ++ t) secret).
  - assert (XORKeyStream s (m8 ++ rev (k ++ iv) ++ mt) = ((n8 ++ (XORKeyStream (XORKeyStream s n8).2 (rev (k ++ iv))).1) ++ t, s2)) as ->.
    { apply (f_equal snd) in E2. cbn [snd] in E2. rewrite (surjective_pairing (XORKeyStream s _)). f_equal.
      - rewrite !XOR_app, <-app_assoc. unfold m8 at 1. rewrite XOR_twice. do 2 f_equal.
        + cbn. by rewrite !length_imap.
        + transitivity (XORKeyStream s' mt).1; [|apply XOR_twice]. unfold s'. cbn. by rewrite !length_imap.
      - rewrite <-E2. unfold XORKeyStream. cbn [snd]. f_equal. rewrite !length_app, Hm8, H8, Hmt. done. }
    destruct (tail_fields (n8 ++ m48) (n8 ++ k ++ iv) t) as [Ec Edc]; [rewrite length_app; lia|rewrite !length_app; lia|]. fold m48. rewrite Ec, Edc, <-!app_assoc, Hct.
    rewrite bool_decide_eq_true_2 by done. done.
  - unfold deriveCipher, hf_key, hf_iv. rewrite !(sub_app n8), !(sub_app m8) by lia. rewrite H8, Hm8. rewrite <-(take_drop 32 (rev (k ++ iv))), <-!app_assoc.
    assert (length (take 32 (rev (k ++ iv))) = 32%nat) as H32 by (rewrite length_take; lia). rewrite !(sub_0 (take 32 _)) by done.
    rewrite !(sub_app (take 32 (rev (k ++ iv)))), H32 by lia. by rewrite !(sub_0 (drop 32 _)) by (rewrite length_drop; lia).
Qed.

(** ** Over the stream below: reading decrypts what writing encrypted *)

#[export] Instance obfs_delivers {E S} (below : reader E S) rep `{!Delivers below rep} :
  Delivers (obfs_Read below) (fun st data p => rep st.1 data (XORKeyStream st.2 p).1).
Proof.
  split. intros [s c] data p n Hr Hp Hn. cbn [fst snd] in Hr.
  destruct (delivers s data (XORKeyStream c p).1 n Hr) as (x & p0 & data' & s' & E1 & E2 & Hx & Hl & Hr'); [|done|].
  { intros E0. apply Hp. apply (f_equal length) in E0. rewrite length_XOR in E0. by destruct p. }
  exists (XORKeyStream c x).1, (XORKeyStream (XORKeyStream c x).2 p0).1, data', (s', (XORKeyStream c x).2). split_and!.
  - unfold obfs_Read. rewrite E1. by destruct (XORKeyStream c x).
  - rewrite <-XOR_app, <-E2. by rewrite XOR_twice.
  - intros E0. apply Hx. apply (f_equal length) in E0. rewrite length_XOR in E0. by destruct x.
  - by rewrite length_XOR.
  - cbn [fst snd]. by rewrite XOR_twice.
Qed.

(** ** Records ([faketls.go]) *)

Definition recTypeChangeCipherSpec : byte := x14.
Definition recTypeHandshake : byte := x16.
Definition recTypeApplicationData : byte := x17.
Definition maxRecordPayload : nat := Z.to_nat 16379.

Definition record (typ : byte) (payload : bytes) : bytes := [typ; x03; x03] ++ be_enc 2 (len payload) ++ payload.
Definition writeRecord (payload : bytes) : bytes := concat (record recTypeApplicationData <$> pieces maxRecordPayload (length payload) payload).

(** [readRecord], from the bytes to come. *)
Definition readRecord (data : bytes) : bytes * byte * option mtErr * bytes :=
  match read_full data 5 with
  | (_, Some e, data) => ([], x00, Some (mtRead e), data)
  | (hdr, None, data) =>
      let t := nth 0 hdr x00 in
      if negb (bool_decide (sub hdr 1 2 = [x03; x03])) && negb (bool_decide (t = recTypeHandshake) && bool_decide (sub hdr 1 2 = [x03; x01])) then ([], x00, Some errBadRecord, data)
      else
        let n := be_dec (sub hdr 3 2) in
        if 16384 <? n then ([], x00, Some errRecordTooBig, data)
        else match read_full data (Z.to_nat n) with
             | (_, Some e, data) => ([], x00, Some (mtRead e), data)
             | (payload, None, data) => (payload, t, None, data)
             end
  end.

(** [tlsConn.Read]: the state is what is left in [buf]. Each turn of the loop uses up a
    record. *)
Fixpoint tls_Read_loop (fuel : nat) (buf data : bytes) (n : nat) : bytes * option mtErr * bytes * bytes :=
  match buf with
  | _ :: _ => (take n buf, None, data, drop n buf)
  | [] => match fuel with
          | O => ([], Some (mtRead EOF), data, [])
          | S fuel =>
              match readRecord data with
              | (_, _, Some e, data) => ([], Some e, data, [])
              | (payload, typ, None, data) => tls_Read_loop fuel (if bool_decide (typ = recTypeApplicationData) then payload else []) data n
              end
          end
  end.
Definition tls_Read (buf data : bytes) (n : nat) : bytes * option mtErr * bytes * bytes := tls_Read_loop (S (length data)) buf data n.

(** A record that can be read, and what a sequence of them carries. *)
Definition record_ok (r : byte * bytes) : Prop := len r.2 <= 16384.
Definition records (rs : list (byte * bytes)) : bytes := concat ((fun r => record r.1 r.2) <$> rs).
Definition carried (rs : list (byte * bytes)) : bytes := concat ((fun r => if bool_decide (r.1 = recTypeApplicationData) then r.2 else []) <$> rs).

Lemma readRecord_record typ payload r : len payload <= 16384 -> readRecord (record typ payload ++ r) = (payload, typ, None, r).
Proof.
  intros Hl. pose proof (len_nonneg payload). unfold readRecord, record. rewrite <-!app_assoc. rewrite (app_assoc [typ; x03; x03]).
  rewrite read_full_app by (rewrite length_app, length_be_enc; done). change (sub ([typ; x03; x03] ++ be_enc 2 (len payload)) 1 2) with [x03; x03].
  rewrite bool_decide_eq_true_2 by done. cbn [negb andb]. change (sub ([typ; x03; x03] ++ be_enc 2 (len payload)) 3 2) with (be_enc 2 (len payload)).
  rewrite be_dec_enc_small by (cbn; lia). destruct (16384 <? len payload) eqn:E; to_prop; [lia|].
  rewrite read_full_app by (unfold len; lia). done.
Qed.

Definition tls_rep (buf data p : bytes) : Prop := exists rs, Forall record_ok rs /\ data = records rs /\ p = buf ++ carried rs.

Lemma tls_Read_loop_ok n : (0 < n)%nat -> forall rs fuel buf, Forall record_ok rs -> (length rs < fuel)%nat -> buf ++ carried rs <> [] ->
  exists x buf' rs', tls_Read_loop fuel buf (records rs) n = (x, None, records rs', buf') /\ buf ++ carried rs = x ++ buf' ++ carried rs' /\ x <> [] /\ (length x <= n)%nat /\ Forall record_ok rs'.
Proof.
  intros Hn. induction rs as [|[typ pl] rs IH]; intros fuel buf Hrs Hf Hp; (destruct buf as [|b buf];
    [|exists (take n (b :: buf)), (drop n (b :: buf)); eexists; split_and!; [by destruct fuel|by rewrite app_assoc, take_drop|by destruct n; [lia|]|rewrite length_take; lia|done]]).
  - done.
  - destruct fuel as [|fuel]; [cbn in Hf; lia|]. inversion Hrs as [|? ? Hr Hrs']; subst. unfold record_ok in Hr. cbn [snd] in Hr.
    change (records ((typ, pl) :: rs)) with (record typ pl ++ records rs). cbn [tls_Read_loop]. rewrite readRecord_record by done.
    change (carried ((typ, pl) :: rs)) with ((if bool_decide (typ = recTypeApplicationData) then pl else []) ++ carried rs) in *. cbn [app] in Hp |- *.
    apply IH; [done|cbn in Hf; lia|done].
Qed.

#[export] Instance tls_delivers : Delivers tls_Read tls_rep.
Proof.
  split. intros buf data p n (rs & Hrs & -> & ->) Hp Hn. unfold tls_Read.
  assert (length rs <= length (records rs))%nat as Hl.
  { clear. induction rs as [|[t pl] rs IH]; [done|]. change (records ((t, pl) :: rs)) with (record t pl ++ records rs). unfold record. rewrite !length_app. cbn [length]. lia. }
  destruct (tls_Read_loop_ok n Hn rs (S (length (records rs))) buf Hrs ltac:(lia) Hp) as (x & buf' & rs' & E1 & E2 & Hx & Hxn & Hrs').
  exists x, (buf' ++ carried rs'), (records rs'), buf'. split_and!; [done..|]. by exists rs'.
Qed.

(** A write, as records. *)
Lemma writeRecord_ok p : exists rs, Forall record_ok rs /\ writeRecord p = records rs /\ carried rs = p.
Proof.
  destruct (pieces_ok maxRecordPayload (length p) ltac:(unfold maxRecordPayload; lia) p ltac:(lia)) as [E H]. exists ((fun c => (recTypeApplicationData, c)) <$> pieces maxRecordPayload (length p) p).
  unfold writeRecord, records, carried. rewrite <-!list_fmap_compose. split_and!; [|done|].
  - apply Forall_fmap. eapply Forall_impl; [exact H|]. intros c [_ Hc]. unfold record_ok, len, maxRecordPayload in *. cbn. lia.
  - transitivity (concat (pieces maxRecordPayload (length p) p)); [|exact E]. f_equal. clear. induction (pieces _ _ _) as [|c cs IH]; [done|]. cbn. by rewrite IH.
Qed.

(** Writes of an obfuscated connection on top of the records. *)
Fixpoint proto_Writes (c : obfsConn) (ws : list bytes) : bytes :=
  match ws with [] => [] | w :: ws => let '(b, c) := obfs_Write c w in writeRecord b ++ proto_Writes c ws end.

Lemma proto_Writes_ok ws : forall c, exists rs, Forall record_ok rs /\ proto_Writes c ws = records rs /\ carried rs = (XORKeyStream (send c) (concat ws)).1.
Proof.
  induction ws as [|w ws IH]; intros c; cbn [proto_Writes]; [by exists []|]. unfold obfs_Write. destruct (XORKeyStream (send c) w) as [b s] eqn:E.
  destruct (IH (mkObfs (recv c) s)) as (rs2 & H2 & -> & C2). destruct (writeRecord_ok b) as (rs1 & H1 & -> & C1). exists (rs1 ++ rs2). split_and!; [by apply Forall_app| |].
  - unfold records. by rewrite fmap_app, concat_app.
  - unfold carried in *. rewrite fmap_app, concat_app, C1, C2. cbn [concat send]. rewrite XOR_app, E. done.
Qed.

(** Two connections whose key streams agree: what one writes the other reads, whatever the
    pieces and the buffers. *)
Lemma mtproto_stream c ws ns : Forall (fun n => (0 < n)%nat) ns -> (length (concat ws) <= length ns)%nat ->
  exists m, reads (obfs_Read tls_Read) ([], send c) (proto_Writes c ws) (take m ns) = (concat ws, None).
Proof.
  intros Hn Hl. destruct (proto_Writes_ok ws c) as (rs & Hrs & -> & Hc).
  destruct (reads_all (obfs_Read tls_Read) _ ([], send c) (records rs) (concat ws) ns) as (a & b & -> & Er); [|done|done|exists (length a); by rewrite take_app_length].
  cbn [fst snd]. exists rs. by rewrite <-Hc.
Qed.

(** ** Hellos *)

Definition zeros32 : bytes := replicate 32 x00.
(** Writing over the 32 bytes at the offset of the random. *)
Definition set_random (pkt r : bytes) : bytes := take 11 pkt ++ r ++ drop 43 pkt.
Fixpoint xor_bytes (a b : bytes) : bytes := match a, b with x :: a, y :: b => lxor_byte x y :: xor_bytes a b | _, _ => [] end.

Record clientHelloInfo := mkInfo { ch_raw : bytes; ch_random : bytes; ch_sessionID : bytes; ch_cipherSuite : Z; ch_sni : bytes }.

(** The loops of the parsers, over the bytes they have left. *)
Fixpoint sni_loop (fuel : nat) (b : bytes) : bytes :=
  match fuel, b with
  | S fuel, t :: l0 :: l1 :: b =>
      let nameLen := Z.to_nat (be_dec [l0; l1]) in
      if (length b <? nameLen)%nat then []
      else if bool_decide (t = x00) then take nameLen b else sni_loop fuel (drop nameLen b)
  | _, _ => []
  end.
Definition parseSNI (ext : bytes) : bytes :=
  if (length ext <? 2)%nat then [] else let b := take (Z.to_nat (be_dec (take 2 ext))) (drop 2 ext) in sni_loop (length b) b.

Fixpoint ext_loop (fuel : nat) (b : bytes) (sni : bytes) : bytes :=
  match fuel, b with
  | S fuel, t0 :: t1 :: l0 :: l1 :: b =>
      let elen := Z.to_nat (be_dec [l0; l1]) in
      if (length b <? elen)%nat then sni
      else ext_loop fuel (drop elen b) (if be_dec [t0; t1] =? 0 then parseSNI (take elen b) else sni)
  | _, _ => sni
  end.

Fixpoint suites (b : bytes) : list Z := match b with x :: y :: b => be_dec [x; y] :: suites b | _ => [] end.
Definition isGrease (cs : Z) : bool := Z.land cs 0x0f0f =? 0x0a0a.

(** What follows the random. *)
Definition parseTail (raw random b : bytes) : res mtErr clientHelloInfo :=
  match b with
  | [] => Err errBadRecord
  | sl :: b =>
      let sl := Z.to_nat (b2z sl) in
      if (length b <? sl)%nat then Err errBadRecord
      else
        let sid := take sl b in
        let b := drop sl b in
        if (length b <? 2)%nat then Err errBadRecord
        else
          let csLen := Z.to_nat (be_dec (take 2 b)) in
          let b := drop 2 b in
          if (length b <? csLen)%nat || Nat.odd csLen then Err errBadRecord
          else
            let suite := default 0 (find (fun cs => negb (isGrease cs)) (suites (take csLen b))) in
            if suite =? 0 then Err errNoSuite
            else match drop csLen b with
                 | [] => Err errBadRecord
                 | cml :: b =>
                     let b := drop (Z.to_nat (b2z cml)) b in
                     let sni := if (2 <=? length b)%nat then let e := take (Z.to_nat (be_dec (take 2 b))) (drop 2 b) in ext_loop (length e) e [] else [] in
                     Ok (mkInfo raw random sid suite sni)
                 end
  end.

Definition parseClientHello : hs mtErr clientHelloInfo :=
  hdr ← hread 5;
  if negb (bool_decide (nth 0 hdr x00 = recTypeHandshake)) then hfail errNotClientHello
  else
    let n := be_dec (sub hdr 3 2) in
    if (n <? 39) || (16379 <? n) then hfail errBadRecord
    else
      body ← hread (Z.to_nat n);
      if negb (bool_decide (nth 0 body x00 = x01)) then hfail errNotClientHello
      else let raw := hdr ++ body in
           match parseTail raw (sub raw 11 32) (drop 43 raw) with Ok i => mret i | Err e => hfail e end.

(** [now] in nanoseconds. *)
Definition verifyClientHello (info : clientHelloInfo) (secret : bytes) (skew now : Z) : res mtErr unit :=
  let computed := xor_bytes (hmac secret (take 11 (ch_raw info) ++ zeros32 ++ drop 43 (ch_raw info))) (ch_random info) in
  if negb (bool_decide (take 28 computed = replicate 28 x00)) then Err errBadDigest
  else let d := now - le_dec (drop 28 computed) * 10 ^ 9 in
       if (d <? - skew) || (skew <? d) then Err errTimeSkew else Ok tt.

Definition serverHelloSuffix : bytes := [x00; x00; x2e; x00; x2b; x00; x02; x03; x04; x00; x33; x00; x24; x00; x1d; x00; x20].
Definition changeCipherSpecRecord : bytes := [recTypeChangeCipherSpec; x03; x03; x00; x01; x01].

(** The packet with the random still zero. [pub]: the ephemeral public key. *)
Definition serverHelloPacket (info : clientHelloInfo) (pub noise : bytes) : bytes :=
  let inner := [x03; x03] ++ zeros32 ++ [z2b (len (ch_sessionID info))] ++ ch_sessionID info ++ be_enc 2 (ch_cipherSuite info) ++ serverHelloSuffix ++ pub in
  let mid := [x02] ++ be_enc 3 (len inner) ++ inner in
  [recTypeHandshake; x03; x03] ++ be_enc 2 (len mid) ++ mid ++ changeCipherSpecRecord ++ [recTypeApplicationData; x03; x03] ++ be_enc 2 (len noise) ++ noise.
Definition buildServerHello (info : clientHelloInfo) (secret pub noise : bytes) : bytes :=
  let out := serverHelloPacket info pub noise in set_random out (hmac secret (ch_random info ++ out)).

(** *** The client's ([faketls_client.go]) *)

Definition clientCipherSuites : list Z :=
  [0x1a1a; 0x1301; 0x1302; 0x1303; 0xc02b; 0xc02f; 0xc02c; 0xc030; 0xcca9; 0xcca8; 0xc013; 0xc014; 0x009c; 0x009d; 0x002f; 0x0035].

Definition clientExts (host : bytes) : bytes :=
  let sni := [x00] ++ be_enc 2 (len host) ++ host in
  [x00; x00] ++ be_enc 2 (2 + len sni) ++ be_enc 2 (len sni) ++ sni ++ [x00; x2b; x00; x03; x02; x03; x04].
Definition clientTail (host sessionID : bytes) : bytes :=
  let cs := concat (be_enc 2 <$> clientCipherSuites) in
  [z2b (len sessionID)] ++ sessionID ++ be_enc 2 (len cs) ++ cs ++ [x01; x00] ++ be_enc 2 (len (clientExts host)) ++ clientExts host.
(** The record with the random still zero. *)
Definition clientHelloRecord (host sessionID : bytes) : bytes :=
  let body := [x03; x03] ++ zeros32 ++ clientTail host sessionID in
  let hs := [x01] ++ be_enc 3 (len body) ++ body in
  [recTypeHandshake; x03; x01] ++ be_enc 2 (len hs) ++ hs.

(** [ts]: the clock in seconds. *)
Definition buildClientHello (secret host sessionID : bytes) (ts : Z) : bytes * bytes :=
  let out := clientHelloRecord host sessionID in
  let digest := hmac secret (take 11 out ++ zeros32 ++ drop 43 out) in
  let digest := take 28 digest ++ xor_bytes (drop 28 digest) (le_enc 4 (w32 ts)) in
  (set_random out digest, digest).

Fixpoint readRecords (k : nat) (whole : bytes) : hs mtErr bytes :=
  match k with
  | O => mret whole
  | S k => hdr ← hread 5;
           let n := be_dec (sub hdr 3 2) in
           if 16379 <? n then hfail errRecordTooBig else payload ← hread (Z.to_nat n); readRecords k (whole ++ hdr ++ payload)
  end.
Definition readServerHello (secret clientRandom : bytes) : hs mtErr unit :=
  pkt ← readRecords 3 [];
  if (length pkt <? 43)%nat then hfail errBadRecord
  else if bool_decide (sub pkt 11 32 = hmac secret (clientRandom ++ set_random pkt zeros32)) then mret tt else hfail errBadServerHello.

(** ** Handshakes ([mtproto.go]) *)

Definition telegramCoreAddresses (dc : Z) : option bytes :=
  if dc =? 1 then Some (bs "149.154.175.50:443") else if dc =? 2 then Some (bs "149.154.167.51:443") else if dc =? 3 then Some (bs "149.154.175.100:443")
  else if dc =? 4 then Some (bs "149.154.167.91:443") else if dc =? 5 then Some (bs "149.154.171.5:443") else if dc =? 203 then Some (bs "91.105.192.100:443") else None.

Record mtProxy := mkProxy { p_key : bytes; p_host : bytes; p_dc : Z; p_dcMap : gmap Z bytes; p_timeSkew : Z }.

Definition ParsePort (s : bytes) : option Z := match digits s with Some v => if v <=? 65535 then Some v else None | None => None end.

Definition dcAddr (p : mtProxy) (dc : Z) : res mtErr Socksaddr :=
  let s := match p_dcMap p !! dc with
           | Some s => s
           | None => match telegramCoreAddresses dc with Some s => s | None => default [] (telegramCoreAddresses defaultDC) end
           end in
  match SplitHostPort s with
  | None => Err errBadDC
  | Some (host, portStr) =>
      match ParsePort portStr with
      | None => Err errBadDC
      | Some port => Ok (match ParseAddr host with Some ip => FromIPPort {| ap_addr := ip; ap_port := port |} | None => FromFqdn host port end)
      end
  end.

(** [pub], [noise], [now]: what the server draws, and its clock. *)
Definition serverFakeTLS (p : mtProxy) (pub noise : bytes) (now : Z) : hs mtErr unit :=
  info ← parseClientHello;
  match verifyClientHello info (p_key p) (p_timeSkew p) now with
  | Err e => hfail e
  | Ok _ => if negb (bool_decide (ch_sni info = p_host p)) then hfail errBadSNI else hwrite (buildServerHello info (p_key p) pub noise)
  end.

(** [io.ReadFull] of [n] bytes through the records; [fuel] bounds the records read. The bytes,
    and what is left in [buf]. *)
Fixpoint readTLS (fuel : nat) (n : nat) (got : bytes) : hs mtErr (bytes * bytes) :=
  if (n <=? length got)%nat then mret (take n got, drop n got)
  else match fuel with
       | O => hfail (mtRead EOF)
       | S fuel =>
           hdr ← hread 5;
           let t := nth 0 hdr x00 in
           if negb (bool_decide (sub hdr 1 2 = [x03; x03])) && negb (bool_decide (t = recTypeHandshake) && bool_decide (sub hdr 1 2 = [x03; x01])) then hfail errBadRecord
           else let len := be_dec (sub hdr 3 2) in
                if 16384 <? len then hfail errRecordTooBig
                else payload ← hread (Z.to_nat len); readTLS fuel n (got ++ if bool_decide (t = recTypeApplicationData) then payload else [])
       end.

Definition ServerHandshake (fuel : nat) (p : mtProxy) (pub noise : bytes) (now : Z) : hs mtErr (obfsConn * bytes * Socksaddr) :=
  serverFakeTLS p pub noise now;;
  '(frame, buf) ← readTLS fuel 64 [];
  match acceptFrame (p_key p) frame with
  | Err e => hfail e
  | Ok (c, dc) => match dcAddr p dc with Err e => hfail e | Ok dst => mret (c, buf, dst) end
  end.

(** [draws]: the frames the client draws; [ts]: its clock. *)
Definition ClientHandshake (p : mtProxy) (sessionID : bytes) (ts : Z) (draws : list bytes) : hs mtErr obfsConn :=
  let '(hello, clientRandom) := buildClientHello (p_key p) (p_host p) sessionID ts in
  hwrite hello;;
  readServerHello (p_key p) clientRandom;;
  match generateHandshake draws (p_dc p) with
  | Err e => hfail e
  | Ok frame => let '(wire, c) := sealFrame (p_key p) frame in hwrite (writeRecord wire);; mret c
  end.

(** ** The two ends agree *)

Lemma set_random_split (a m b r : bytes) : length a = 11%nat -> length m = 32%nat -> set_random (a ++ m ++ b) r = a ++ r ++ b.
Proof. intros Ha Hm. unfold set_random. rewrite take_app_length' by done. rewrite (app_assoc a m b), drop_app_length' by (rewrite length_app; lia). done. Qed.

Lemma xor_bytes_app a b c d : length a = length c -> xor_bytes (a ++ b) (c ++ d) = xor_bytes a c ++ xor_bytes b d.
Proof. revert c. induction a as [|x a IH]; intros [|y c] Hl; cbn in Hl |- *; try done. by rewrite IH by lia. Qed.
Lemma lxor_byte_comm a b : lxor_byte a b = lxor_byte b a.
Proof. unfold lxor_byte. by rewrite Z.lxor_comm. Qed.
Lemma xor_bytes_self a : xor_bytes a a = replicate (length a) x00.
Proof. induction a as [|x a IH]; [done|]. cbn. rewrite IH. f_equal. unfold lxor_byte. by rewrite Z.lxor_nilpotent. Qed.
Lemma xor_bytes_twice a b : length a = length b -> xor_bytes a (xor_bytes a b) = b.
Proof. revert b. induction a as [|x a IH]; intros [|y b] Hl; cbn in Hl |- *; try done. rewrite IH by lia. f_equal. by rewrite (lxor_byte_comm x y), lxor_byte_comm, lxor_byte_cancel. Qed.
Lemma length_xor_bytes a b : length a = length b -> length (xor_bytes a b) = length a.
Proof. revert b. induction a as [|x a IH]; intros [|y b] Hl; cbn in Hl |- *; try done. by rewrite IH by lia. Qed.
Lemma le_dec_enc n z : 0 <= z < 256 ^ Z.of_nat n -> le_dec (le_enc n z) = z.
Proof. intros Hz. unfold le_dec, le_enc. rewrite rev_involutive. by apply be_dec_enc_small. Qed.
Lemma length_le_enc n z : length (le_enc n z) = n.
Proof. unfold le_enc. by rewrite length_rev, length_be_enc. Qed.

Lemma be2 z : 0 <= z < 65536 -> exists a b, be_enc 2 z = [a; b] /\ be_dec [a; b] = z.
Proof.
  intros Hz. pose proof (length_be_enc 2 z) as Hl. destruct (be_enc 2 z) as [|a [|b [|]]] eqn:E; try done. exists a, b. split; [done|]. rewrite <-E. by apply be_dec_enc_small.
Qed.

(** *** What the server sees of a client's hello *)

Section hello.
Context (secret host sid : bytes) (ts : Z) (Hsid : length sid = 32%nat) (Hhost : len host <= 16000) (Hts : 0 <= ts < 2 ^ 32).

Lemma sni_client : parseSNI (be_enc 2 (3 + len host) ++ [x00] ++ be_enc 2 (len host) ++ host) = host.
Proof.
  pose proof (len_nonneg host). unfold parseSNI. rewrite !length_app, !length_be_enc. cbn [length Nat.add Nat.ltb Nat.leb]. rewrite take_app_length', drop_app_length' by (by rewrite length_be_enc).
  rewrite be_dec_enc_small by (cbn; lia). rewrite take_ge by (rewrite !length_app, length_be_enc; unfold len; cbn; lia).
  destruct (be2 (len host) ltac:(lia)) as (a & b & -> & Eab). cbn [app length sni_loop]. rewrite Eab. destruct (length host <? Z.to_nat (len host))%nat eqn:El.
  - apply Nat.ltb_lt in El. unfold len in El. lia.
  - rewrite bool_decide_eq_true_2 by done. apply take_ge. unfold len. lia.
Qed.

Lemma ext_client fuel : (2 <= fuel)%nat -> ext_loop fuel (clientExts host) [] = host.
Proof.
  intros Hf. pose proof (len_nonneg host). destruct fuel as [|[|fuel]]; [lia..|]. unfold clientExts.
  set (sni := [x00] ++ be_enc 2 (len host) ++ host). assert (len sni = 3 + len host) as Hs by (unfold sni; rewrite !len_app, len_be_enc; change (len [x00]) with 1; lia). rewrite Hs.
  destruct (be2 (2 + (3 + len host)) ltac:(lia)) as (a & b & -> & Eab). cbn [app]. cbn [ext_loop]. rewrite Eab.
  assert (Z.to_nat (2 + (3 + len host)) = length (be_enc 2 (3 + len host) ++ sni)) as El by (rewrite length_app, length_be_enc; unfold len in *; lia).
  rewrite (app_assoc (be_enc 2 (3 + len host)) sni), El. destruct (length ((be_enc 2 (3 + len host) ++ sni) ++ _) <? _)%nat eqn:E; [apply Nat.ltb_lt in E; rewrite length_app in E; lia|].
  rewrite take_app_length, drop_app_length. change (be_dec [x00; x00] =? 0) with true. cbv iota. unfold sni. rewrite sni_client. by destruct fuel.
Qed.

Lemma len_exts : len (clientExts host) = 16 + len host.
Proof. unfold clientExts. rewrite !len_app, !len_be_enc. change (len [x00]) with 1. change (len [x00; x00]) with 2. change (len [x00; x2b; x00; x03; x02; x03; x04]) with 7. lia. Qed.

Lemma parseTail_client raw random : parseTail raw random (clientTail host sid) = Ok (mkInfo raw random sid 0x1301 host).
Proof.
  pose proof (len_nonneg host). pose proof len_exts as He. unfold clientTail, parseTail. change (len (concat (be_enc 2 <$> clientCipherSuites))) with 32. set (cs := concat (be_enc 2 <$> clientCipherSuites)).
  cbn [app]. replace (len sid) with 32 by (unfold len; lia). rewrite b2z_z2b_small by lia. change (Z.to_nat 32) with 32%nat. rewrite take_app_length', drop_app_length' by done.
  destruct (length (sid ++ _) <? 32)%nat eqn:E; [apply Nat.ltb_lt in E; rewrite length_app in E; lia|]. rewrite take_app_length', drop_app_length' by done.
  set (rest := cs ++ x01 :: x00 :: be_enc 2 (len (clientExts host)) ++ clientExts host).
  destruct (length (be_enc 2 32 ++ rest) <? 2)%nat eqn:E2; [apply Nat.ltb_lt in E2; rewrite length_app, length_be_enc in E2; lia|].
  change (be_dec (be_enc 2 32)) with 32. change (Z.to_nat 32) with 32%nat. destruct ((length rest <? 32)%nat || Nat.odd 32) eqn:E3.
  { apply orb_true_iff in E3 as [E3|E3]; [|done]. apply Nat.ltb_lt in E3. unfold rest in E3. rewrite length_app in E3. change (length cs) with 32%nat in E3. lia. }
  unfold rest. rewrite take_app_length', drop_app_length' by done. change (default 0 (find (fun c => negb (isGrease c)) (suites cs))) with 0x1301. change (0x1301 =? 0) with false. cbv iota.
  change (Z.to_nat (b2z x01)) with 1%nat. rewrite !skipn_cons, !drop_0. destruct (2 <=? length (be_enc 2 (len (clientExts host)) ++ clientExts host))%nat eqn:E4.
  - rewrite take_app_length', drop_app_length' by (by rewrite length_be_enc). rewrite be_dec_enc_small by lia. rewrite take_ge by (unfold len; lia).
    rewrite ext_client; [done|]. unfold len in *. lia.
  - apply Nat.leb_gt in E4. rewrite length_app, length_be_enc in E4. lia.
Qed.

(** The record, in its parts. *)
Definition hello_pre : bytes := [recTypeHandshake; x03; x01] ++ be_enc 2 (125 + len host) ++ [x01] ++ be_enc 3 (121 + len host) ++ [x03; x03].

Lemma len_tail : len (clientTail host sid) = 87 + len host.
Proof.
  unfold clientTail. rewrite !len_app, !len_be_enc, len_exts. change (len (concat (be_enc 2 <$> clientCipherSuites))) with 32. change (len [x01; x00]) with 2.
  replace (len sid) with 32 by (unfold len; lia). change (len [z2b 32]) with 1. lia.
Qed.

Lemma record_parts : clientHelloRecord host sid = hello_pre ++ zeros32 ++ clientTail host sid.
Proof.
  unfold clientHelloRecord, hello_pre. set (body := [x03; x03] ++ zeros32 ++ clientTail host sid).
  assert (len body = 121 + len host) as Hb by (unfold body; rewrite !len_app, len_tail; change (len [x03; x03]) with 2; change (len zeros32) with 32; lia).
  assert (len ([x01] ++ be_enc 3 (len body) ++ body) = 125 + len host) as Hh by (rewrite !len_app, len_be_enc, Hb; change (len [x01]) with 1; lia).
  rewrite Hh, Hb. unfold body. by rewrite <-!app_assoc.
Qed.

Lemma length_hello_pre : length hello_pre = 11%nat.
Proof. unfold hello_pre. rewrite !length_app, !length_be_enc. done. Qed.

Definition digest0 : bytes := hmac secret (hello_pre ++ zeros32 ++ clientTail host sid).
Definition digest1 : bytes := take 28 digest0 ++ xor_bytes (drop 28 digest0) (le_enc 4 ts).

Lemma length_digest1 : length digest1 = 32%nat.
Proof. unfold digest1. rewrite length_app, length_xor_bytes, length_take, length_drop; unfold digest0; rewrite ?length_drop, length_hmac, ?length_le_enc; lia. Qed.

Lemma hello_mac r : length r = 32%nat -> take 11 (hello_pre ++ r ++ clientTail host sid) ++ zeros32 ++ drop 43 (hello_pre ++ r ++ clientTail host sid) = hello_pre ++ zeros32 ++ clientTail host sid.
Proof. intros Hr. change (set_random (hello_pre ++ r ++ clientTail host sid) zeros32 = hello_pre ++ zeros32 ++ clientTail host sid). by apply set_random_split; [apply length_hello_pre|]. Qed.

Lemma build_parts : buildClientHello secret host sid ts = (hello_pre ++ digest1 ++ clientTail host sid, digest1).
Proof.
  unfold buildClientHello. rewrite record_parts, hello_mac by done. fold digest0. unfold w32. rewrite Z.mod_small by lia. fold digest1.
  by rewrite set_random_split by (apply length_hello_pre || done).
Qed.

(** The server reads the session, a suite, the name and the random. *)
Lemma parse_client r : ends parseClientHello ((buildClientHello secret host sid ts).1 ++ r) (Ok (mkInfo (buildClientHello secret host sid ts).1 digest1 sid 0x1301 host)) r [].
Proof.
  pose proof (len_nonneg host). rewrite build_parts. cbn [fst]. set (raw := hello_pre ++ digest1 ++ clientTail host sid).
  set (hdr := [recTypeHandshake; x03; x01] ++ be_enc 2 (125 + len host)). set (body := ([x01] ++ be_enc 3 (121 + len host) ++ [x03; x03]) ++ digest1 ++ clientTail host sid).
  assert (raw = hdr ++ body) as Eraw by (unfold raw, hdr, body, hello_pre; by rewrite <-!app_assoc).
  assert (len body = 125 + len host) as Hb.
  { unfold body. rewrite !len_app, len_be_enc, len_tail. assert (len digest1 = 32) as -> by (unfold len; by rewrite length_digest1). change (len [x01]) with 1. change (len [x03; x03]) with 2. lia. }
  unfold parseClientHello. rewrite Eraw at 1. rewrite <-app_assoc. apply ends_read_bind; [unfold hdr; by rewrite length_app, length_be_enc|].
  change (nth 0 hdr x00) with recTypeHandshake. rewrite bool_decide_eq_true_2 by done. cbn [negb]. change (sub hdr 3 2) with (be_enc 2 (125 + len host)).
  rewrite be_dec_enc_small by lia. destruct (_ || _) eqn:E; [apply orb_true_iff in E as [E|E]; to_prop; lia|].
  apply ends_read_bind; [unfold len in *; lia|]. change (nth 0 body x00) with x01. rewrite bool_decide_eq_true_2 by done. cbn [negb]. rewrite <-Eraw.
  assert (sub raw 11 32 = digest1) as ->. { unfold raw. rewrite sub_app, length_hello_pre by (rewrite length_hello_pre; lia). apply sub_0, length_digest1. }
  assert (drop 43 raw = clientTail host sid) as ->. { unfold raw. rewrite app_assoc. apply drop_app_length'. by rewrite length_app, length_hello_pre, length_digest1. }
  rewrite parseTail_client. apply ends_ret.
Qed.

(** It finds the digest right, and the clock of the client in it. *)
Lemma verify_client raw now skew : raw = hello_pre ++ digest1 ++ clientTail host sid -> - skew <= now - ts * 10 ^ 9 <= skew ->
  verifyClientHello (mkInfo raw digest1 sid 0x1301 host) secret skew now = Ok tt.
Proof.
  intros -> Hn. unfold verifyClientHello. cbn [ch_raw ch_random]. rewrite hello_mac by apply length_digest1. fold digest0.
  assert (length digest0 = 32%nat) as H0 by apply length_hmac.
  assert (xor_bytes digest0 digest1 = replicate 28 x00 ++ le_enc 4 ts) as ->.
  { unfold digest1. rewrite <-(take_drop 28 digest0) at 1. rewrite xor_bytes_app by done. rewrite xor_bytes_self, length_take, H0. f_equal.
    apply xor_bytes_twice. by rewrite length_drop, length_le_enc, H0. }
  rewrite take_app_length', drop_app_length' by done. rewrite bool_decide_eq_true_2 by done. cbn [negb]. rewrite le_dec_enc by lia.
  destruct (_ || _) eqn:E; [apply orb_true_iff in E as [E|E]; to_prop; lia|done].
Qed.
End hello.

(** *** What the client sees of the server's answer *)

Section answer.
Context (secret pub noise sid raw host random : bytes) (suite : Z) (Hsid : length sid = 32%nat) (Hpub : length pub = 32%nat) (Hnoise : len noise <= 16379).
Local Abbreviation info := (mkInfo raw random sid suite host).

Definition answer_pre : bytes := [recTypeHandshake; x03; x03] ++ be_enc 2 122 ++ [x02] ++ be_enc 3 118 ++ [x03; x03].
Definition answer_mid : bytes := [x20] ++ sid ++ be_enc 2 suite ++ serverHelloSuffix ++ pub.
Definition answer_post : bytes := answer_mid ++ changeCipherSpecRecord ++ record recTypeApplicationData noise.

Lemma packet_parts : serverHelloPacket info pub noise = answer_pre ++ zeros32 ++ answer_post.
Proof.
  unfold serverHelloPacket, answer_pre, answer_post, answer_mid, record. cbn [ch_sessionID ch_cipherSuite]. replace (len sid) with 32 by (unfold len; lia). change (z2b 32) with x20.
  set (inner := [x03; x03] ++ zeros32 ++ [x20] ++ sid ++ be_enc 2 suite ++ serverHelloSuffix ++ pub).
  assert (len inner = 118) as Hi by (unfold inner, len; rewrite !length_app, length_be_enc, Hsid, Hpub; done). rewrite Hi.
  assert (len ([x02] ++ be_enc 3 118 ++ inner) = 122) as Hm by (rewrite !len_app, len_be_enc, Hi; done). rewrite Hm. unfold inner. by rewrite <-!app_assoc.
Qed.

Definition answer_digest : bytes := hmac secret (random ++ answer_pre ++ zeros32 ++ answer_post).

Lemma answer_parts : buildServerHello info secret pub noise = answer_pre ++ answer_digest ++ answer_post.
Proof. unfold buildServerHello. cbn [ch_random]. rewrite packet_parts. by apply set_random_split. Qed.

(** Three records, and the digest is right. *)
Lemma read_answer r : ends (readServerHello secret random) (buildServerHello info secret pub noise ++ r) (Ok tt) r [].
Proof.
  rewrite answer_parts. assert (length answer_digest = 32%nat) as Hd by apply length_hmac. pose proof (len_nonneg noise).
  unfold readServerHello. eapply (ends_bind _ _ _ (answer_pre ++ answer_digest ++ answer_post) r [] _ _ []).
  - set (h1 := [recTypeHandshake; x03; x03] ++ be_enc 2 122). set (p1 := ([x02] ++ be_enc 3 118 ++ [x03; x03]) ++ answer_digest ++ answer_mid).
    set (h2 := [recTypeChangeCipherSpec; x03; x03; x00; x01]). set (h3 := [recTypeApplicationData; x03; x03] ++ be_enc 2 (len noise)).
    assert (answer_pre ++ answer_digest ++ answer_post = h1 ++ p1 ++ h2 ++ [x01] ++ h3 ++ noise) as E.
    { unfold answer_pre, answer_post, changeCipherSpecRecord, record, h1, p1, h2, h3. rewrite <-!app_assoc. done. }
    assert (length p1 = 122%nat) as Hp1 by (unfold p1, answer_mid; rewrite !length_app, !length_be_enc, Hd, Hsid, Hpub; done).
    rewrite E. cbn [readRecords]. rewrite <-!app_assoc. apply ends_read_bind; [done|]. change (be_dec (sub h1 3 2)) with 122. change (16379 <? 122) with false. cbv iota.
    apply ends_read_bind; [done|]. apply ends_read_bind; [done|]. change (be_dec (sub h2 3 2)) with 1. change (16379 <? 1) with false. cbv iota.
    apply ends_read_bind; [done|]. apply ends_read_bind; [unfold h3; by rewrite length_app, length_be_enc|]. change (sub h3 3 2) with (be_enc 2 (len noise)).
    rewrite be_dec_enc_small by lia. destruct (16379 <? len noise) eqn:El; to_prop; [lia|]. apply ends_read_bind; [unfold len; lia|].
    replace (((([] ++ h1 ++ p1) ++ h2 ++ [x01]) ++ h3 ++ noise)) with (h1 ++ p1 ++ h2 ++ [x01] ++ h3 ++ noise) by (cbn [app]; by rewrite <-!app_assoc). apply ends_ret.
  - destruct (_ <? 43)%nat eqn:El; [apply Nat.ltb_lt in El; rewrite !length_app, Hd in El; change (length answer_pre) with 11%nat in El; change (length answer_post) with (length (answer_mid ++ changeCipherSpecRecord ++ record recTypeApplicationData noise)) in El; lia|].
    rewrite set_random_split by done. rewrite sub_app by done. change (11 - length answer_pre)%nat with 0%nat. rewrite sub_0 by done. fold answer_digest.
    rewrite bool_decide_eq_true_2 by done. apply ends_ret.
Qed.
End answer.

(** *** The handshake *)

(** One record of up to 64 bytes. *)
Lemma writeRecord_frame (w : bytes) : length w = 64%nat -> writeRecord w = record recTypeApplicationData w.
Proof.
  intros Hw. unfold writeRecord. rewrite Hw. destruct w as [|x w]; [done|]. cbn [pieces]. rewrite take_ge, drop_ge by (rewrite Hw; unfold maxRecordPayload; lia).
  cbn. by rewrite app_nil_r.
Qed.

Lemma readTLS_frame fuel (w r : bytes) : (0 < fuel)%nat -> length w = 64%nat -> ends (readTLS fuel 64 []) (record recTypeApplicationData w ++ r) (Ok (w, [])) r [].
Proof.
  intros Hf Hw. destruct fuel as [|fuel]; [lia|]. cbn [readTLS length Nat.leb]. unfold record. replace (len w) with 64 by (unfold len; lia). rewrite <-!app_assoc, (app_assoc [_; _; _]).
  apply ends_read_bind; [done|]. change (sub _ 1 2) with [x03; x03]. change (sub _ 3 2) with (be_enc 2 64). change (nth 0 _ x00) with recTypeApplicationData.
  rewrite (bool_decide_eq_true_2 ([x03; x03] = [x03; x03])) by done. cbn [negb andb]. change (be_dec (be_enc 2 64)) with 64. change (16384 <? 64) with false. cbv iota.
  apply ends_read_bind; [by rewrite Hw|]. rewrite bool_decide_eq_true_2 by done. cbn [app]. destruct fuel; cbn [readTLS]; rewrite Hw; cbn [Nat.leb]; rewrite take_ge, drop_ge by lia; apply ends_ret.
Qed.

(** The client's draws that make a frame. *)
Lemma generate_ok rounds draws dc d : Forall (fun x => length x = 64%nat) draws -> generateHandshake_loop rounds draws dc = Ok d ->
  length d = 64%nat /\ hf_connType d = hfConnectionType /\ hf_dc d = (let i := int16 dc in if i =? 0 then defaultDC else Z.abs i).
Proof.
  revert draws. induction rounds as [|rounds IH]; intros [|x draws] Hl; cbn [generateHandshake_loop]; try done. inversion Hl as [|? ? Hx Hl']; subst.
  destruct (badPrefix x); [by apply IH|]. intros Ed.
  assert (d = take 56 x ++ hfConnectionType ++ le_enc 2 (w16 dc) ++ drop 62 x) as -> by congruence. rewrite !length_app, length_take, length_drop, length_le_enc, Hx. split; [done|].
  unfold hf_connType, hf_dc. rewrite !(sub_app (take 56 x)) by (rewrite length_take; lia). rewrite length_take, Hx. change (56 - 56 `min` 64)%nat with 0%nat. change (60 - 56 `min` 64)%nat with 4%nat.
  rewrite sub_0 by done. rewrite (sub_app hfConnectionType) by (cbn; lia). change (4 - length hfConnectionType)%nat with 0%nat. rewrite sub_0 by apply length_le_enc.
  split; [done|]. assert (0 <= w16 dc < 2 ^ 16) as Hw by (apply Z.mod_pos_bound; done). rewrite le_dec_enc by (cbn in *; lia).
  assert (int16 (w16 dc) = int16 dc) as -> by (unfold int16, w16; by rewrite Z.mod_mod by done). cbv zeta.
  destruct (0 <? int16 dc) eqn:E1, (int16 dc <? 0) eqn:E2, (int16 dc =? 0) eqn:E3; to_prop; lia.
Qed.

(** What the server does after its answer. *)
Definition serverFrame (fuel : nat) (p : mtProxy) : hs mtErr (obfsConn * bytes * Socksaddr) :=
  '(frame, buf) ← readTLS fuel 64 [];
  match acceptFrame (p_key p) frame with
  | Err e => hfail e
  | Ok (c, dc) => match dcAddr p dc with Err e => hfail e | Ok dst => mret (c, buf, dst) end
  end.

Section handshake.
Context (pc ps : mtProxy) (sid pub noise : bytes) (ts now : Z) (draws : list bytes) (frame wire : bytes) (cc : obfsConn) (dst : Socksaddr) (fuel : nat).
Hypotheses (Hkey : p_key ps = p_key pc) (Hhost : p_host ps = p_host pc) (Hlen : len (p_host pc) <= 16000) (Hsid : length sid = 32%nat) (Hpub : length pub = 32%nat)
  (Hnoise : len noise <= 16379) (Hts : 0 <= ts < 2 ^ 32) (Hclock : - p_timeSkew ps <= now - ts * 10 ^ 9 <= p_timeSkew ps)
  (Hdraws : Forall (fun x => length x = 64%nat) draws) (Hgen : generateHandshake draws (p_dc pc) = Ok frame) (Hseal : sealFrame (p_key pc) frame = (wire, cc))
  (Hpre : badPrefix wire = false) (Hdst : dcAddr ps (hf_dc frame) = Ok dst) (Hfuel : (0 < fuel)%nat).

Lemma server_answers : exists pkt, ends (serverFakeTLS ps pub noise now) (buildClientHello (p_key pc) (p_host pc) sid ts).1 (Ok tt) [] pkt /\
  ends (readServerHello (p_key pc) (buildClientHello (p_key pc) (p_host pc) sid ts).2) pkt (Ok tt) [] [].
Proof.
  set (info := mkInfo (buildClientHello (p_key pc) (p_host pc) sid ts).1 (digest1 (p_key pc) (p_host pc) sid ts) sid 0x1301 (p_host pc)).
  exists (buildServerHello info (p_key pc) pub noise). split.
  - unfold serverFakeTLS. pose proof (parse_client (p_key pc) (p_host pc) sid ts Hsid Hlen Hts []) as Hp. rewrite app_nil_r in Hp.
    eapply (ends_bind _ _ _ info [] [] _ _ (buildServerHello info (p_key pc) pub noise)); [exact Hp|]. rewrite Hkey.
    assert (verifyClientHello info (p_key pc) (p_timeSkew ps) now = Ok tt) as ->.
    { unfold info. apply verify_client; try done. by rewrite (build_parts (p_key pc) (p_host pc) sid ts Hsid Hts). }
    cbn [ch_sni info]. rewrite Hhost, bool_decide_eq_true_2 by done. cbn [negb]. apply ends_write.
  - rewrite (build_parts (p_key pc) (p_host pc) sid ts Hsid Hts) at 1. cbn [snd]. pose proof (read_answer (p_key pc) pub noise sid (ch_raw info) (p_host pc) (ch_random info) 0x1301 Hsid Hpub Hnoise []) as Hr.
    rewrite app_nil_r in Hr. exact Hr.
Qed.

Lemma frame_accepted : ends (serverFrame fuel ps) (writeRecord wire) (Ok (mkObfs (send cc) (recv cc), [], dst)) [] [].
Proof.
  destruct (generate_ok 64 draws (p_dc pc) frame Hdraws Hgen) as (Hf & Hct & _). destruct (obfuscated2_agree (p_key pc) frame wire cc Hf Hct Hseal) as [Hw Ha].
  rewrite writeRecord_frame by done. unfold serverFrame. pose proof (readTLS_frame fuel wire [] Hfuel Hw) as Hr. rewrite app_nil_r in Hr.
  eapply (ends_bind _ _ _ (wire, []) [] [] _ _ []); [exact Hr|]. rewrite Hkey, Ha, Hpre, Hdst. apply ends_ret.
Qed.

Lemma serverFrame_waits : feed (serverFrame fuel ps) [] = (serverFrame fuel ps, [], []).
Proof. destruct fuel as [|k]; [lia|]. unfold serverFrame. eapply feed_wait2. apply feed_wait. cbn. lia. Qed.

Lemma mtproto_duet : always_reaches (mkDuet (ClientHandshake pc sid ts draws) (ServerHandshake fuel ps pub noise now) [] [])
  (mkDuet (Ret (Ok cc)) (Ret (Ok (mkObfs (send cc) (recv cc), [], dst))) [] []).
Proof.
  destruct server_answers as (pkt & Hs & Hc). apply duet_schedule_irrelevant; [|apply duet_done_nf].
  unfold ClientHandshake. destruct (buildClientHello (p_key pc) (p_host pc) sid ts) as [hello rnd]. cbn [fst snd] in *.
  set (K := readServerHello (p_key pc) rnd;; match generateHandshake draws (p_dc pc) with Err e => hfail e | Ok frame => let '(wire, c) := sealFrame (p_key pc) frame in hwrite (writeRecord wire);; mret c end).
  eapply rtc_l; [apply client_sends|]. change ([] ++ hello) with hello.
  change (rtc dstep (mkDuet K (ServerHandshake fuel ps pub noise now) hello []) (mkDuet (Ret (Ok cc)) (Ret (Ok (mkObfs (send cc) (recv cc), [], dst))) [] [])).
  etransitivity.
  { apply (feed_server K (ServerHandshake fuel ps pub noise now) hello [] (serverFrame fuel ps) [] pkt). rewrite <-(app_nil_r pkt).
    change (ServerHandshake fuel ps pub noise now) with (serverFakeTLS ps pub noise now ≫= fun _ => serverFrame fuel ps). by eapply feed_hbind; [exact Hs|apply serverFrame_waits]. }
  change ([] ++ pkt) with pkt. etransitivity.
  { apply (feed_client K (serverFrame fuel ps) [] pkt (Ret (Ok cc)) [] (writeRecord wire)). unfold K. rewrite <-(app_nil_l (writeRecord wire)). eapply feed_hbind; [exact Hc|].
    rewrite Hgen, Hseal. apply ends_write_ret. }
  change ([] ++ writeRecord wire) with (writeRecord wire). by apply (feed_server (Ret (Ok cc)) (serverFrame fuel ps) (writeRecord wire) [] _ [] []), frame_accepted.
Qed.
End handshake.

End mtproto.

(** ** An instance, and a frame the server refuses *)

#[export] Instance toy : Crypto := {|
  sha256 := fun m => take 32 (m ++ replicate 32 x00);
  hmac := fun k m => replicate 32 (z2b (len k + len m));
  keystream := fun k _ i => lxor_byte x02 (z2b (Z.of_nat i * 4));
  length_hmac := fun k m => length_replicate 32 (z2b (len k + len m)) |}.

Definition demo_proxy : mtProxy := mkProxy (replicate 16 x07) (bs "storage.googleapis.com") 2 ∅ 90000000000.
Definition demo_frame : bytes := take 56 (replicate 64 x11) ++ hfConnectionType ++ [x02; x00; x11; x11].


(** The client checks the beginning of the frame it draws and sends that beginning encrypted;
    the server checks what arrives. A frame the client takes is one the server refuses, here
    because its first byte becomes 0xef. *)
Lemma own_frame_refused : let draw := xed :: replicate 63 x11 in
  exists frame wire cc, generateHandshake [draw] 2 = Ok frame /\ sealFrame (p_key demo_proxy) frame = (wire, cc) /\ acceptFrame (p_key demo_proxy) wire = Err errProbeDetected.
Proof.
  intros draw. eexists _, _, _. split; [vm_compute; reflexivity|]. split; [vm_compute; reflexivity|vm_compute; reflexivity].
Qed.
