(* ===== verification/Geo.v ===== *)
(** * Package [geo]: the databases of the geoip and geosite rules ([geo/geosite.go],
    [geo/geoipdat.go], [geo/geoip.go])

    Two files in protobuf and a MaxMind database. [protowire], [regexp] and [maxminddb] are not
    under [src/]: they are parameters. *)
From S2P Require Import Prelude GoStd Netip Rule RuleSpec.
From Stdlib Require Import Init.Byte.

(** ** protowire *)

Definition VarintType : Z := 0.
Definition BytesType : Z := 2.

(** [None] where the functions return a negative length. *)
Class Protowire := {
  ConsumeTag : bytes -> option (Z * Z * bytes);
  ConsumeBytes : bytes -> option (bytes * bytes);
  ConsumeVarint : bytes -> option (Z * bytes);
  ConsumeFieldValue : Z -> Z -> bytes -> option bytes;
}.

(** What appending writes is consumed, and consuming goes forward. *)
Class ProtowireLaws `{Protowire} := {
  AppendTag : Z -> Z -> bytes;
  AppendBytes : bytes -> bytes;
  AppendVarint : Z -> bytes;
  consume_tag : forall num typ r, 1 <= num < 2 ^ 29 -> 0 <= typ < 8 -> ConsumeTag (AppendTag num typ ++ r) = Some (num, typ, r);
  consume_bytes : forall v r, ConsumeBytes (AppendBytes v ++ r) = Some (v, r);
  consume_varint : forall v r, 0 <= v < 2 ^ 64 -> ConsumeVarint (AppendVarint v ++ r) = Some (v, r);
  tag_nonempty : forall num typ, AppendTag num typ <> [];
}.

Section proto.
Context `{Protowire} `{Unicode}.

(** The loop over the fields of a message: [body] is the part after the tag, which says what
    it does with the field, [None] when its value is broken. The state so far, and whether
    the end was reached. *)
Section message.
Context {A : Type} (body : A -> Z -> Z -> bytes -> option (A * bytes)).

Fixpoint message (fuel : nat) (s : bytes) (a : A) : A * bool :=
  match s with
  | [] => (a, true)
  | _ => match fuel with
         | O => (a, false)
         | S fuel =>
             match ConsumeTag s with
             | None => (a, false)
             | Some (num, typ, s) => match body a num typ s with
                                     | None => (a, false)
                                     | Some (a, s) => message fuel s a
                                     end
             end
         end
  end.
End message.

Definition skip {A} (a : A) (num typ : Z) (s : bytes) : option (A * bytes) := match ConsumeFieldValue num typ s with Some r => Some (a, r) | None => None end.
Definition onBytes {A} (f : bytes -> A) (s : bytes) : option (A * bytes) := match ConsumeBytes s with Some (v, r) => Some (f v, r) | None => None end.
Definition onVarint {A} (f : Z -> A) (s : bytes) : option (A * bytes) := match ConsumeVarint s with Some (v, r) => Some (f v, r) | None => None end.
Definition field (num typ n t : Z) : bool := (num =? n) && (typ =? t).

(** ** geosite *)

Record geositeDomain := mkDomain { gd_typ : Z; gd_value : bytes }.
Definition GeoSiteDB : Type := gmap bytes (list geositeDomain).

Definition int64 (v : Z) : Z := let z := w64 v in if z <? 2 ^ 63 then z else z - 2 ^ 64.

Definition parseDomain (b : bytes) : geositeDomain :=
  (message (fun d num typ s =>
      if field num typ 1 VarintType then onVarint (fun v => mkDomain (int64 v) (gd_value d)) s
      else if field num typ 2 BytesType then onBytes (fun v => mkDomain (gd_typ d) v) s
      else skip d num typ s) (length b) b (mkDomain 0 [])).1.

Definition parseGeoSiteEntry (db : GeoSiteDB) (b : bytes) : GeoSiteDB :=
  match message (fun '(code, doms) num typ s =>
           if field num typ 1 BytesType then onBytes (fun v => (ToUpper v, doms)) s
           else if field num typ 2 BytesType then onBytes (fun v => (code, doms ++ [parseDomain v])) s
           else skip (code, doms) num typ s) (length b) b ([], []) with
  | ((code, doms), true) => if bool_decide (code = []) then db else <[code := doms]> db
  | (_, false) => db
  end.

Definition OpenGeoSite (data : bytes) : option GeoSiteDB :=
  match message (fun db num typ s => if field num typ 1 BytesType then onBytes (parseGeoSiteEntry db) s else skip db num typ s) (length data) data ∅ with
  | (db, true) => Some db
  | (_, false) => None
  end.

Definition normDomainG (s : bytes) : bytes := ToLower (TrimSuffix s [x2e]).

(** [regexp.Compile], as the function a pattern is. *)
Context (Compile : bytes -> option (bytes -> bool)).

Record domainSet := mkDomainSet { ds_full : gset bytes; ds_suffix : gset bytes; ds_keyword : list bytes; ds_regex : list (bytes -> bool) }.

Definition addDomain (ds : domainSet) (d : geositeDomain) : domainSet :=
  if gd_typ d =? 3 then mkDomainSet ({[normDomainG (gd_value d)]} ∪ ds_full ds) (ds_suffix ds) (ds_keyword ds) (ds_regex ds)
  else if gd_typ d =? 2 then mkDomainSet (ds_full ds) ({[normDomainG (gd_value d)]} ∪ ds_suffix ds) (ds_keyword ds) (ds_regex ds)
  else if gd_typ d =? 0 then mkDomainSet (ds_full ds) (ds_suffix ds) (ds_keyword ds ++ [ToLower (gd_value d)]) (ds_regex ds)
  else if gd_typ d =? 1 then match Compile (gd_value d) with Some re => mkDomainSet (ds_full ds) (ds_suffix ds) (ds_keyword ds) (ds_regex ds ++ [re]) | None => ds end
  else ds.

Definition GeoSite_DomainSet (db : GeoSiteDB) (code : bytes) : option domainSet :=
  doms ← db !! ToUpper code; Some (fold_left addDomain doms (mkDomainSet ∅ ∅ [] [])).

Fixpoint suffix_walk (fuel : nat) (set : gset bytes) (s : bytes) : bool :=
  match fuel, s with
  | S fuel, _ :: _ => bool_decide (s ∈ set) || match IndexByte s x2e with None => false | Some i => suffix_walk fuel set (drop (S i) s) end
  | _, _ => false
  end.

Definition domainSet_MatchDomain (d : domainSet) (host : bytes) : bool :=
  bool_decide (host ∈ ds_full d) || suffix_walk (length host) (ds_suffix d) host || existsb (Contains host) (ds_keyword d) || existsb (fun re => re host) (ds_regex d).

(** ** geoip.dat *)

Definition GeoIPDatDB : Type := gmap bytes (list Prefix).

Definition parseCIDR (b : bytes) : option Prefix :=
  match message (fun '(ipb, prefix) num typ s =>
           if field num typ 1 BytesType then onBytes (fun v => (v, prefix)) s
           else if field num typ 2 VarintType then onVarint (fun v => (ipb, w32 v)) s
           else skip (ipb, prefix) num typ s) (length b) b ([], 0) with
  | ((ipb, prefix), true) => match AddrFromSlice ipb with Some ip => Some (Masked (PrefixFrom (Unmap ip) prefix)) | None => None end
  | (_, false) => None
  end.

Definition parseGeoIPEntry (db : GeoIPDatDB) (b : bytes) : GeoIPDatDB :=
  match message (fun '(code, pfx) num typ s =>
           if field num typ 1 BytesType then onBytes (fun v => (ToUpper v, pfx)) s
           else if field num typ 2 BytesType then onBytes (fun v => (code, pfx ++ option_list (parseCIDR v))) s
           else skip (code, pfx) num typ s) (length b) b ([], []) with
  | ((code, pfx), true) => if bool_decide (code = []) then db else <[code := default [] (db !! code) ++ pfx]> db
  | (_, false) => db
  end.

Definition OpenGeoIPDat (data : bytes) : option GeoIPDatDB :=
  match message (fun db num typ s => if field num typ 1 BytesType then onBytes (parseGeoIPEntry db) s else skip db num typ s) (length data) data ∅ with
  | (db, true) => Some db
  | (_, false) => None
  end.

Fixpoint dat_CountrySet (db : GeoIPDatDB) (codes : list bytes) : option (list Prefix) :=
  match codes with
  | [] => Some []
  | c :: codes => p ← db !! ToUpper (TrimSpace c); ps ← dat_CountrySet db codes; Some (p ++ ps)
  end.

Definition datIPSet_MatchIP (prefixes : list Prefix) (ip : Addr) : bool := let ip := Unmap ip in existsb (fun p => Prefix_Contains p ip) prefixes.

(** ** The MaxMind database: [Lookup] of an address, the country code or nothing. *)

Definition lookupCode (Lookup : Addr -> option bytes) (ip : Addr) : bytes := match Lookup ip with Some c => ToUpper c | None => [] end.
Definition mmdb_CountrySet (codes : list bytes) : gset bytes := list_to_set (filter (fun c => c <> []) ((fun c => ToUpper (TrimSpace c)) <$> codes)).
Definition countrySet_MatchIP (Lookup : Addr -> option bytes) (codes : gset bytes) (ip : Addr) : bool :=
  let code := lookupCode Lookup ip in if bool_decide (code = []) then false else bool_decide (code ∈ codes).

(** ** What a domain set decides *)

(** An entry, by itself. *)
Definition entry_hit (host : bytes) (d : geositeDomain) : bool :=
  if gd_typ d =? 3 then bool_decide (host = normDomainG (gd_value d))
  else if gd_typ d =? 2 then let s := normDomainG (gd_value d) in negb (bool_decide (s = [])) && (bool_decide (host = s) || HasSuffix host (x2e :: s))
  else if gd_typ d =? 0 then Contains host (ToLower (gd_value d))
  else if gd_typ d =? 1 then match Compile (gd_value d) with Some re => re host | None => false end
  else false.

Lemma geo_walk_chain fuel set : forall s, suffix_walk fuel set s = existsb (fun t => bool_decide (t ∈ set)) (label_chain fuel s).
Proof.
  induction fuel as [|fuel IH]; intros [|c s]; cbn [suffix_walk label_chain]; try done. cbn [existsb]. f_equal.
  destruct (IndexByte (c :: s) x2e) as [i|]; [apply IH|done].
Qed.

Lemma geo_walk_spec set host : suffix_walk (length host) set host = true <-> exists s, s ∈ set /\ s <> [] /\ (host = s \/ HasSuffix host (x2e :: s) = true).
Proof.
  rewrite geo_walk_chain, existsb_exists. setoid_rewrite bool_decide_eq_true. setoid_rewrite <-list_elem_of_In. setoid_rewrite label_chain_spec; [|done].
  unfold dot. naive_solver.
Qed.

(** The sets stand for the entries. *)
Lemma MatchDomain_add ds d host : domainSet_MatchDomain (addDomain ds d) host = domainSet_MatchDomain ds host || entry_hit host d.
Proof.
  unfold domainSet_MatchDomain, addDomain, entry_hit. destruct (gd_typ d =? 3); [|destruct (gd_typ d =? 2); [|destruct (gd_typ d =? 0); [|destruct (gd_typ d =? 1); [|by rewrite orb_false_r]]]]; cbn [ds_full ds_suffix ds_keyword ds_regex].
  - apply eq_true_iff_eq. rewrite !orb_true_iff, !bool_decide_eq_true, elem_of_union, elem_of_singleton. tauto.
  - set (n := normDomainG (gd_value d)). assert (suffix_walk (length host) ({[n]} ∪ ds_suffix ds) host =
      suffix_walk (length host) (ds_suffix ds) host || (negb (bool_decide (n = [])) && (bool_decide (host = n) || HasSuffix host (x2e :: n)))) as ->.
    { apply eq_true_iff_eq. rewrite orb_true_iff, !geo_walk_spec, andb_true_iff, negb_true_iff, orb_true_iff, bool_decide_eq_true, bool_decide_eq_false. split.
      - intros (s & [->%elem_of_singleton|Hs]%elem_of_union & Hne & Hh); [by right|left; eauto].
      - intros [(s & Hs & Hne & Hh)|[Hne Hh]]; [exists s|exists n]; (split; [set_solver|done]). }
    destruct (bool_decide (host ∈ ds_full ds)), (suffix_walk _ _ _), (existsb (Contains host) _), (existsb _ (ds_regex ds)); cbn; rewrite ?orb_true_r, ?orb_false_r; done.
  - apply eq_true_iff_eq. rewrite existsb_app. cbn [existsb]. rewrite !orb_true_iff. intuition congruence.
  - destruct (Compile (gd_value d)) as [re|]; [|by rewrite orb_false_r]. cbn [ds_full ds_suffix ds_keyword ds_regex]. apply eq_true_iff_eq. rewrite existsb_app. cbn [existsb]. rewrite !orb_true_iff. intuition congruence.
Qed.

(** A category matches a host exactly when one of its entries does, each by its own type. *)
Lemma geosite_decides db code ds host : GeoSite_DomainSet db code = Some ds ->
  exists doms, db !! ToUpper code = Some doms /\ domainSet_MatchDomain ds host = existsb (entry_hit host) doms.
Proof.
  unfold GeoSite_DomainSet. destruct (db !! ToUpper code) as [doms|]; [|done]. cbn. intros [= <-]. exists doms. split; [done|].
  assert (forall ds0, domainSet_MatchDomain (fold_left addDomain doms ds0) host = domainSet_MatchDomain ds0 host || existsb (entry_hit host) doms) as E.
  { clear. induction doms as [|d doms IH]; intros ds0; cbn [fold_left existsb]; [by rewrite orb_false_r|]. rewrite IH, MatchDomain_add, orb_assoc. done. }
  rewrite E. unfold domainSet_MatchDomain. cbn [ds_full ds_suffix ds_keyword ds_regex existsb]. rewrite bool_decide_eq_false_2 by set_solver.
  destruct (suffix_walk (length host) ∅ host) eqn:Es; [|done]. apply geo_walk_spec in Es as (s & Hs & _). set_solver.
Qed.

(** An address is in the set when a prefix of one of the countries has it. *)
Lemma geoip_decides db codes ps ip : dat_CountrySet db codes = Some ps ->
  datIPSet_MatchIP ps ip = existsb (fun c => existsb (fun p => Prefix_Contains p (Unmap ip)) (default [] (db !! ToUpper (TrimSpace c)))) codes.
Proof.
  revert ps. induction codes as [|c codes IH]; intros ps; cbn [dat_CountrySet]; [by intros [= <-]|]. destruct (db !! ToUpper (TrimSpace c)) as [p|] eqn:E; [|done]. cbn [mbind option_bind].
  destruct (dat_CountrySet db codes) as [ps'|]; [|done]. cbn. intros [= <-]. unfold datIPSet_MatchIP in *. rewrite existsb_app. cbn [existsb]. rewrite E. cbn. f_equal. by apply IH.
Qed.

(** ** A file that was written is read *)

Context `{!ProtowireLaws}.

(** A field: its number and type, its value, and what it does to the state. *)
Record fieldOf (A : Type) := mkField { f_num : Z; f_typ : Z; f_value : bytes; f_do : A -> A }.
Arguments mkField {A} _ _ _ _.
Arguments f_num {A} _.
Arguments f_typ {A} _.
Arguments f_value {A} _.
Arguments f_do {A} _ _.
Definition encode {A} (fs : list (fieldOf A)) : bytes := concat ((fun f => AppendTag (f_num f) (f_typ f) ++ f_value f) <$> fs).

Lemma encode_fields {A} (fs : list (fieldOf A)) : (length fs <= length (encode fs))%nat.
Proof.
  induction fs as [|f fs IH]; [done|]. change (encode (f :: fs)) with ((AppendTag (f_num f) (f_typ f) ++ f_value f) ++ encode fs). rewrite !length_app.
  pose proof (tag_nonempty (f_num f) (f_typ f)). destruct (AppendTag (f_num f) (f_typ f)); [done|]. cbn [length]. lia.
Qed.

Lemma message_fields {A} (body : A -> Z -> Z -> bytes -> option (A * bytes)) (fs : list (fieldOf A)) :
  Forall (fun f => 1 <= f_num f < 2 ^ 29 /\ 0 <= f_typ f < 8 /\ forall a r, body a (f_num f) (f_typ f) (f_value f ++ r) = Some (f_do f a, r)) fs ->
  forall fuel a, (length fs <= fuel)%nat -> message body fuel (encode fs) a = (fold_left (fun a f => f_do f a) fs a, true).
Proof.
  induction 1 as [|f fs (Hn & Ht & Hb) _ IH]; intros fuel a Hf; [by destruct fuel|]. destruct fuel as [|fuel]; [cbn in Hf; lia|].
  change (encode (f :: fs)) with ((AppendTag (f_num f) (f_typ f) ++ f_value f) ++ encode fs). rewrite <-app_assoc. cbn [message].
  destruct (AppendTag (f_num f) (f_typ f) ++ f_value f ++ encode fs) as [|b s] eqn:E; [apply app_eq_nil in E as [E _]; by apply tag_nonempty in E|].
  rewrite <-E, consume_tag, Hb by done. cbn [fold_left]. apply IH. cbn in Hf. lia.
Qed.

(** A list of GeoSite messages. *)
Definition encDomain (d : geositeDomain) : bytes :=
  encode [mkField 1 VarintType (AppendVarint (gd_typ d)) (fun x => mkDomain (gd_typ d) (gd_value x)); mkField 2 BytesType (AppendBytes (gd_value d)) (fun x => mkDomain (gd_typ x) (gd_value d))].
Definition siteFields (e : bytes * list geositeDomain) : list (fieldOf (bytes * list geositeDomain)) :=
  mkField 1 BytesType (AppendBytes e.1) (fun x => (ToUpper e.1, x.2)) :: ((fun d => mkField 2 BytesType (AppendBytes (encDomain d)) (fun x => (x.1, x.2 ++ [d]))) <$> e.2).
Definition encSite (e : bytes * list geositeDomain) : bytes := encode (siteFields e).
Definition addSite (db : GeoSiteDB) (e : bytes * list geositeDomain) : GeoSiteDB := if bool_decide (ToUpper e.1 = []) then db else <[ToUpper e.1 := e.2]> db.
Definition encSites (l : list (bytes * list geositeDomain)) : bytes := encode ((fun e => mkField 1 BytesType (AppendBytes (encSite e)) (fun db => addSite db e)) <$> l).

Definition domain_ok (d : geositeDomain) : Prop := 0 <= gd_typ d < 2 ^ 63.

Lemma parseDomain_enc d : domain_ok d -> parseDomain (encDomain d) = d.
Proof.
  intros Hd. unfold domain_ok in Hd. unfold parseDomain, encDomain. rewrite message_fields; [by destruct d| |apply encode_fields].
  apply Forall_cons; split; [|apply Forall_cons; split; [|done]]; cbn [f_num f_typ f_value f_do]; (split; [lia|split; [unfold VarintType, BytesType; lia|]]); intros a r;
    cbn [field Z.eqb Pos.eqb andb VarintType BytesType]; unfold onVarint, onBytes.
  - rewrite consume_varint by lia. unfold int64, w64. rewrite Z.mod_small by lia. destruct (Z.ltb_spec (gd_typ d) (2 ^ 63)); [done|lia].
  - by rewrite consume_bytes.
Qed.

Lemma fold_domains (ds : list geositeDomain) : forall x : bytes * list geositeDomain,
  fold_left (fun a f => f_do f a) ((fun d => mkField 2 BytesType (AppendBytes (encDomain d)) (fun x : bytes * list geositeDomain => (x.1, x.2 ++ [d]))) <$> ds) x = (x.1, x.2 ++ ds).
Proof. induction ds as [|d ds IH]; intros [c l]; cbn; [by rewrite app_nil_r|]. rewrite IH. cbn. by rewrite <-app_assoc. Qed.

Lemma parseGeoSiteEntry_enc db e : Forall domain_ok e.2 -> parseGeoSiteEntry db (encSite e) = addSite db e.
Proof.
  intros He. unfold parseGeoSiteEntry, encSite. rewrite message_fields; [|constructor|apply encode_fields].
  - unfold siteFields. cbn [fold_left f_do]. rewrite fold_domains. done.
  - cbn [f_num f_typ f_value f_do]. (split; [lia|split; [unfold BytesType; lia|]]). intros [c l] r. cbn [field Z.eqb Pos.eqb andb VarintType BytesType]. unfold onBytes. by rewrite consume_bytes.
  - apply Forall_fmap. eapply Forall_impl; [exact He|]. intros d Hd. cbn [compose f_num f_typ f_value f_do]. (split; [lia|split; [unfold BytesType; lia|]]). intros [c l] r.
    cbn [field Z.eqb Pos.eqb andb VarintType BytesType]. unfold onBytes. rewrite consume_bytes. by rewrite parseDomain_enc.
Qed.

(** The database has, for each category, the entries of its last message. *)
Lemma geosite_file l : Forall (fun e => Forall domain_ok e.2) l -> OpenGeoSite (encSites l) = Some (fold_left addSite l ∅).
Proof.
  intros Hl. unfold OpenGeoSite, encSites. rewrite message_fields; [| |apply encode_fields].
  - f_equal. generalize (∅ : GeoSiteDB). clear. induction l as [|e l IH]; intros db; cbn; [done|apply IH].
  - apply Forall_fmap. eapply Forall_impl; [exact Hl|]. intros e He. cbn [compose f_num f_typ f_value f_do]. (split; [lia|split; [unfold BytesType; lia|]]). intros db r.
    cbn [field Z.eqb Pos.eqb andb VarintType BytesType]. unfold onBytes. rewrite consume_bytes. by rewrite parseGeoSiteEntry_enc.
Qed.
(** A CIDR message. *)
Definition encCIDR (ip : bytes) (bits : Z) : bytes :=
  encode [mkField 1 BytesType (AppendBytes ip) (fun x : bytes * Z => (ip, x.2)); mkField 2 VarintType (AppendVarint bits) (fun x => (x.1, bits))].

Lemma parseCIDR_enc ip bits : 0 <= bits < 2 ^ 32 -> parseCIDR (encCIDR ip bits) = (fun a => Masked (PrefixFrom (Unmap a) bits)) <$> AddrFromSlice ip.
Proof.
  intros Hb. unfold parseCIDR, encCIDR. rewrite message_fields; [by cbn; destruct (AddrFromSlice ip)| |apply encode_fields].
  apply Forall_cons; split; [|apply Forall_cons; split; [|done]]; cbn [f_num f_typ f_value f_do]; (split; [lia|split; [unfold VarintType, BytesType; lia|]]); intros [x y] r;
    cbn [field Z.eqb Pos.eqb andb VarintType BytesType]; unfold onVarint, onBytes.
  - by rewrite consume_bytes.
  - rewrite consume_varint by lia. unfold w32. by rewrite Z.mod_small by lia.
Qed.

(** An entry inside the mapped IPv6 addresses, whose prefix has more than 32 bits for that
    reason, is accepted and matches no address, not even its own: unmapping leaves a prefix
    length an IPv4 prefix cannot have. *)
Lemma mapped_cidr_matches_nothing ip a bits : AddrFromSlice ip = Some a -> Is4In6 a = true -> 32 < bits < 2 ^ 32 ->
  exists p, parseCIDR (encCIDR ip bits) = Some p /\ forall x, Prefix_Contains p x = false.
Proof.
  intros Ha Hm Hb. rewrite parseCIDR_enc, Ha by lia. eexists. split; [reflexivity|]. intros x. unfold Unmap. rewrite Hm. unfold PrefixFrom. cbn [IsValid BitLen andb].
  rewrite (proj2 (Z.leb_gt bits 32)) by lia. by rewrite andb_false_r.
Qed.
End proto.
