(* ===== verification/Tunnels.v ===== *)
(** * Smaller tunnel protocols

    A module each: the padding of naive, the capsules of CONNECT-IP, the relay protocol of gost,
    and the datagrams of TrustTunnel. *)
From S2P Require Import Prelude GoStd Netip Socksaddr Proxy Link StreamLayer.
From Stdlib Require Import Init.Byte.

(** * naive's padding ([outbound/naive/padding.go])

    The first eight pieces of each direction carry padding, the rest of the stream is bare. *)
Module Naive.

Definition paddingCount : Z := 8.
Definition maxPiece : nat := Z.to_nat 65535.

Record paddingConn := mkPaddingConn { readPadding : Z; writePadding : Z; readRemaining : Z; paddingRemaining : Z }.
Definition newPaddingConn : paddingConn := mkPaddingConn 0 0 0 0.

(** [io.CopyN] to nowhere; the end of the stream is [EOF] wherever it comes. *)
Definition copyN_discard (data : bytes) (n : nat) : option io_err * bytes :=
  if (n <=? length data)%nat then (None, drop n data) else (Some EOF, []).

Section read.
Context (cut : bytes -> nat -> nat).
Local Abbreviation stream_read := (stream_read cut).

Definition read (p : paddingConn) (data : bytes) (n : nat) : bytes * option io_err * bytes * paddingConn :=
  if 0 <? readRemaining p then
    match stream_read data (Nat.min n (Z.to_nat (readRemaining p))) with
    | (b, Some e, data) => (b, Some e, data, p)
    | (b, None, data) => (b, None, data, mkPaddingConn (readPadding p) (writePadding p) (readRemaining p - len b) (paddingRemaining p))
    end
  else
    match (if 0 <? paddingRemaining p then copyN_discard data (Z.to_nat (paddingRemaining p)) else (None, data)) with
    | (Some e, data) => ([], Some e, data, p)
    | (None, data) =>
        let p := mkPaddingConn (readPadding p) (writePadding p) (readRemaining p) 0 in
        if readPadding p <? paddingCount then
          match read_full data 3 with
          | (_, Some e, data) => ([], Some e, data, p)
          | (header, None, data) =>
              let dataSize := be_dec (take 2 header) in
              let padSize := b2z (nth 2 header x00) in
              match stream_read data (Nat.min n (Z.to_nat dataSize)) with
              | (b, Some e, data) => (b, Some e, data, p)
              | (b, None, data) => (b, None, data, mkPaddingConn (readPadding p + 1) (writePadding p) (dataSize - len b) padSize)
              end
          end
        else let '(b, e, data) := stream_read data n in (b, e, data, p)
    end.
End read.

(** [pads]: the lengths [rand.Intn] draws, in turn. *)
Definition writeOne (p : paddingConn) (pad : Z) (data : bytes) : bytes * paddingConn :=
  if writePadding p <? paddingCount then
    (be_enc 2 (len data) ++ [z2b pad] ++ data ++ replicate (Z.to_nat pad) x00, mkPaddingConn (readPadding p) (writePadding p + 1) (readRemaining p) (paddingRemaining p))
  else (data, p).

Fixpoint write_pieces (p : paddingConn) (pads : nat -> Z) (i : nat) (ps : list bytes) : bytes * paddingConn :=
  match ps with
  | [] => ([], p)
  | x :: ps => let '(o, p) := writeOne p (pads i) x in let '(o', p) := write_pieces p pads (S i) ps in (o ++ o', p)
  end.
Definition write (p : paddingConn) (pads : nat -> Z) (i : nat) (data : bytes) : bytes * paddingConn := write_pieces p pads i (pieces maxPiece (length data) data).

(** ** What is written is read *)

Definition pads_ok (pads : nat -> Z) : Prop := forall i, 0 <= pads i < 256.

(** The pieces as they are on the wire, the first [k] of them with padding. *)
Definition padded (pad : Z) (c : bytes) : bytes := be_enc 2 (len c) ++ [z2b pad] ++ c ++ replicate (Z.to_nat pad) x00.
Fixpoint wire (k : nat) (pads : nat -> Z) (i : nat) (cs : list bytes) : bytes :=
  match cs, k with
  | [], _ => []
  | c :: cs, S k => padded (pads i) c ++ wire k pads (S i) cs
  | c :: cs, O => c ++ wire 0 pads (S i) cs
  end.

Lemma wire_bare pads cs : forall i, wire 0 pads i cs = concat cs.
Proof. induction cs as [|c cs IH]; intros i; cbn; [done|by rewrite IH]. Qed.

Lemma wire_app pads cs1 cs2 : forall k i, wire k pads i (cs1 ++ cs2) = wire k pads i cs1 ++ wire (k - length cs1) pads (i + length cs1) cs2.
Proof.
  induction cs1 as [|c cs1 IH]; intros k i; cbn [app length]; [rewrite Nat.sub_0_r, Nat.add_0_r; by destruct k|].
  destruct k as [|k]; cbn [wire]; rewrite IH, <-app_assoc; replace (i + S (length cs1))%nat with (S i + length cs1)%nat by lia; done.
Qed.

Lemma write_pieces_ok pads ps : forall p i, 0 <= writePadding p <= paddingCount ->
  let k := Z.to_nat (paddingCount - writePadding p) in
  (write_pieces p pads i ps).1 = wire k pads i ps /\ 0 <= writePadding (write_pieces p pads i ps).2 <= paddingCount /\
  Z.to_nat (paddingCount - writePadding (write_pieces p pads i ps).2) = (k - length ps)%nat.
Proof.
  induction ps as [|c ps IH]; intros p i Hp; cbv zeta; cbn [write_pieces length]; [cbn [fst snd]; rewrite Nat.sub_0_r; split_and!; [done|lia..]|]. unfold writeOne.
  destruct (writePadding p <? paddingCount) eqn:E; to_prop.
  - set (p1 := mkPaddingConn _ _ _ _). specialize (IH p1 (S i)). cbn [p1 writePadding] in IH. destruct IH as (H1 & H2 & H3); [lia|].
    fold p1 in H1, H2, H3. destruct (write_pieces p1 pads (S i) ps) as [o p2]. cbn [fst snd] in *. rewrite H1, H3.
    replace (Z.to_nat (paddingCount - writePadding p)) with (S (Z.to_nat (paddingCount - (writePadding p + 1)))) by lia. split_and!; [done|lia..].
  - destruct (IH p (S i) Hp) as (H1 & H2 & H3). destruct (write_pieces p pads (S i) ps) as [o p2]. cbn [fst snd] in *. rewrite H1, H3.
    replace (Z.to_nat (paddingCount - writePadding p)) with O by lia. split_and!; [done|lia..].
Qed.

Fixpoint writes (p : paddingConn) (pads : nat -> Z) (i : nat) (ws : list bytes) : bytes :=
  match ws with [] => [] | w :: ws => let '(o, p) := write p pads i w in o ++ writes p pads (i + length (pieces maxPiece (length w) w)) ws end.
Lemma writes_ok pads ws : forall p i, 0 <= writePadding p <= paddingCount -> writes p pads i ws = wire (Z.to_nat (paddingCount - writePadding p)) pads i (chunks maxPiece ws).
Proof.
  induction ws as [|w ws IH]; intros p i Hp; cbn [writes]; [by destruct (Z.to_nat _)|]. unfold write.
  destruct (write_pieces_ok pads (pieces maxPiece (length w) w) p i Hp) as (H1 & H2 & H3). destruct (write_pieces p pads i _) as [o p2]. cbn [fst snd] in *.
  rewrite H1, (IH p2 _ H2), H3. unfold chunks at 2. cbn [fmap list_fmap concat]. fold (chunks maxPiece ws). by rewrite wire_app.
Qed.

(** What is to come at the reader: the rest of a piece and its padding, then the pieces that
    still have padding, then the bare ones. *)
Definition naive_rep (p : paddingConn) (data out : bytes) : Prop :=
  exists c pad cs k pads i, pads_ok pads /\ Forall (piece_ok maxPiece) cs /\ readRemaining p = len c /\ paddingRemaining p = Z.of_nat pad /\
    0 <= readPadding p <= paddingCount /\ k = Z.to_nat (paddingCount - readPadding p) /\
    data = c ++ replicate pad x00 ++ wire k pads i cs /\ out = c ++ concat cs.

Section delivers.
Context (cut : bytes -> nat -> nat).

Lemma stream_read_piece c rest n : c <> [] -> (0 < n)%nat ->
  exists x c', stream_read cut (c ++ rest) (Nat.min n (length c)) = (x, None, c' ++ rest) /\ c = x ++ c' /\ x <> [] /\ (length x <= n)%nat.
Proof.
  intros Hc Hn. destruct (stream_read_spec cut (c ++ rest) (Nat.min n (length c))) as (x & r & -> & E & Hx & Hl); [by destruct c|destruct c; [done|cbn; lia]|].
  apply app_eq_app in E as [l [[-> ->]|[-> ->]]]; [exists x, l; split_and!; [done..|lia]|].
  rewrite length_app in Hl. assert (l = []) as -> by (destruct l; [done|cbn in Hl; lia]). exists c, []. rewrite app_nil_r in *. split_and!; [done..|lia].
Qed.

#[export] Instance naive_delivers : Delivers (read cut) naive_rep.
Proof.
  split. intros p data out n (c & pad & cs & k & pads & i & Hpads & Hcs & Hr & Hpr & Hrp & -> & -> & ->) Hout Hn. unfold read. rewrite Hr, Hpr. destruct c as [|b c].
  - change (0 <? len []) with false. cbn iota. cbn [app] in *.
    assert ((if 0 <? Z.of_nat pad then copyN_discard (replicate pad x00 ++ wire (Z.to_nat (paddingCount - readPadding p)) pads i cs) (Z.to_nat (Z.of_nat pad))
             else (None, replicate pad x00 ++ wire (Z.to_nat (paddingCount - readPadding p)) pads i cs)) = (None, wire (Z.to_nat (paddingCount - readPadding p)) pads i cs)) as ->.
    { destruct (0 <? Z.of_nat pad) eqn:E; to_prop; [|by replace pad with O by lia]. unfold copyN_discard. rewrite Nat2Z.id, length_app, length_replicate.
      destruct (Nat.leb_spec pad (pad + length (wire (Z.to_nat (paddingCount - readPadding p)) pads i cs))); [|lia]. by rewrite drop_app_length' by (by rewrite length_replicate). }
    destruct cs as [|c cs]; [done|]. inversion Hcs as [|? ? [Hc Hl] Hcs']; subst. cbn [readPadding]. destruct (readPadding p <? paddingCount) eqn:E; to_prop.
    + replace (Z.to_nat (paddingCount - readPadding p)) with (S (Z.to_nat (paddingCount - (readPadding p + 1)))) by lia. cbn [wire]. unfold padded.
      rewrite <-!app_assoc. rewrite (app_assoc (be_enc 2 (len c))). rewrite read_full_app by (rewrite length_app, length_be_enc; done).
      rewrite take_app_length' by (by rewrite length_be_enc). rewrite be_dec_enc_small by (unfold len, maxPiece in *; cbn; lia).
      change (nth 2 (be_enc 2 (len c) ++ [z2b (pads i)]) x00) with (z2b (pads i)). rewrite b2z_z2b_small by apply Hpads.
      replace (Z.to_nat (len c)) with (length c) by (unfold len; lia).
      destruct (stream_read_piece c (replicate (Z.to_nat (pads i)) x00 ++ wire (Z.to_nat (paddingCount - (readPadding p + 1))) pads (S i) cs) n Hc Hn) as (x & c' & -> & Ec & Hx & Hxn).
      eexists x, (c' ++ concat cs), _, _. split_and!; [done|cbn; by rewrite Ec, app_assoc|done|done|].
      exists c', (Z.to_nat (pads i)), cs, (Z.to_nat (paddingCount - (readPadding p + 1))), pads, (S i). cbn. rewrite Ec, len_app.
      specialize (Hpads i) as Hpi. split_and!; try done; try lia.
    + replace (Z.to_nat (paddingCount - readPadding p)) with O by lia. rewrite wire_bare.
      destruct (stream_read_spec cut (concat (c :: cs)) n) as (x & rest & -> & E2 & Hx & Hl2); [by destruct c|done|].
      eexists x, rest, _, _. split_and!; [done|done|done|done|].
      exists [], O, (chunks maxPiece [rest]), O, pads, O. destruct (chunks_ok maxPiece [rest] ltac:(unfold maxPiece; lia)) as [E3 H3].
      rewrite wire_bare, E3. cbn [concat app replicate readPadding readRemaining paddingRemaining]. rewrite app_nil_r, ?Hr. split_and!; try done; lia.
  - destruct (Z.ltb_spec 0 (len (b :: c))); [|unfold len in *; cbn in *; lia]. replace (Z.to_nat (len (b :: c))) with (length (b :: c)) by (unfold len; lia).
    destruct (stream_read_piece (b :: c) (replicate pad x00 ++ wire (Z.to_nat (paddingCount - readPadding p)) pads i cs) n ltac:(done) Hn) as (x & c' & -> & Ec & Hx & Hxn).
    eexists x, (c' ++ concat cs), _, _. split_and!; [done|by rewrite Ec, app_assoc|done|done|].
    exists c', pad, cs, (Z.to_nat (paddingCount - readPadding p)), pads, i. cbn [readPadding readRemaining paddingRemaining]. rewrite Ec, len_app. split_and!; try done; lia.
Qed.
End delivers.

(** Whatever is written, in whatever pieces and with whatever padding, and however it is cut
    and read: it is read back, the padding left out. *)
Lemma naive_padding cut pads ws ns : pads_ok pads -> Forall (fun n => (0 < n)%nat) ns -> (length (concat ws) <= length ns)%nat ->
  exists m, reads (read cut) newPaddingConn (writes newPaddingConn pads 0 ws) (take m ns) = (concat ws, None).
Proof.
  intros Hp Hn Hl. assert (naive_rep newPaddingConn (writes newPaddingConn pads 0 ws) (concat ws)) as Hr.
  { destruct (chunks_ok maxPiece ws ltac:(unfold maxPiece; lia)) as [E H]. exists [], O, (chunks maxPiece ws), 8%nat, pads, O. rewrite writes_ok by done. cbn. by rewrite E. }
  destruct (reads_all (read cut) naive_rep _ _ _ ns Hr Hn Hl) as (a & b & -> & E). exists (length a). by rewrite take_app_length.
Qed.
End Naive.

(** * CONNECT-IP's capsules and datagrams ([outbound/connectip/capsule.go], [datagram.go])

    [quicvarint] is not under [src/]: it is a parameter, with the law that reading inverts
    appending. *)
Module Connectip.

(** Variable-length integers of up to 62 bits ([quicvarint.Append], [quicvarint.Read]). *)
Class Quicvarint := {
  Append : bytes -> Z -> bytes;
  Read : bytes -> option (Z * bytes);
  Append_app : forall b n, Append b n = b ++ Append [] n;
  Read_Append : forall n r, 0 <= n < 2 ^ 62 -> Read (Append [] n ++ r) = Some (n, r);
  Read_shorter : forall b n r, Read b = Some (n, r) -> exists w, b = w ++ r /\ w <> [];
  Read_bound : forall b n r, Read b = Some (n, r) -> 0 <= n < 2 ^ 62;
}.

Inductive capErr := errShortCapsule | errBadIPVersion | errBadPrefixLen | errRangeReversed | errTooLong.

Definition capsuleAddressAssign : Z := 1.
Definition capsuleAddressRequest : Z := 2.
Definition capsuleRouteAdvertisement : Z := 3.

Record AssignedAddress := mkAssigned { RequestID : Z; aa_Prefix : Prefix }.
Record IPRoute := mkRoute { Start : Addr; End_ : Addr; IPProtocol : byte }.

Definition ipVersionOf (a : Addr) : res capErr (Z * Z) := if Is4 a then Ok (4, 4) else if Is6 a then Ok (6, 16) else Err errBadIPVersion.

(** [AsSlice]. *)
Definition AsSlice (a : Addr) : bytes := match a with AddrZero => [] | Addr4 v => be_enc 4 v | Addr6 v _ => be_enc 16 v end.

(** [bytes.Reader.Read] and [ReadByte], as the package's [readFull] and its loops use them. *)
Definition readFull (r : bytes) (n : nat) : res capErr (bytes * bytes) := if (n <=? length r)%nat then Ok (take n r, drop n r) else Err errShortCapsule.
Definition ReadByte (r : bytes) : res capErr (byte * bytes) := match r with [] => Err errShortCapsule | b :: r => Ok (b, r) end.

Definition readAddrOf (r : bytes) (ver : byte) : res capErr (Addr * bytes) :=
  match (if b2z ver =? 4 then Some 4%nat else if b2z ver =? 6 then Some 16%nat else None) with
  | None => Err errBadIPVersion
  | Some width => match readFull r width with
                  | Err e => Err e
                  | Ok (b, r) => match AddrFromSlice b with Some a => Ok (a, r) | None => Err errBadIPVersion end
                  end
  end.

Definition Bits (p : Prefix) : Z := default (-1) (pfx_bits p).
Definition Less (a b : Addr) : bool := match Compare a b with Lt => true | _ => false end.

Section capsule.
Context `{Quicvarint}.

Definition wrapCapsule (typ : Z) (body : bytes) : bytes := Append (Append [] typ) (len body) ++ body.

Fixpoint addressBody (body : bytes) (addrs : list AssignedAddress) : res capErr bytes :=
  match addrs with
  | [] => Ok body
  | a :: addrs =>
      match ipVersionOf (pfx_addr (aa_Prefix a)) with
      | Err e => Err e
      | Ok (ver, width) =>
          let bits := Bits (aa_Prefix a) in
          if (bits <? 0) || (width * 8 <? bits) then Err errBadPrefixLen
          else addressBody (Append body (RequestID a) ++ [z2b ver] ++ AsSlice (pfx_addr (aa_Prefix a)) ++ [z2b bits]) addrs
      end
  end.
Definition encodeAddressCapsule (typ : Z) (addrs : list AssignedAddress) : res capErr bytes :=
  match addressBody [] addrs with Ok body => Ok (wrapCapsule typ body) | Err e => Err e end.
Definition EncodeAddressAssign := encodeAddressCapsule capsuleAddressAssign.
Definition EncodeAddressRequest := encodeAddressCapsule capsuleAddressRequest.

Fixpoint routeBody (body : bytes) (routes : list IPRoute) : res capErr bytes :=
  match routes with
  | [] => Ok body
  | r :: routes =>
      match ipVersionOf (Start r), ipVersionOf (End_ r) with
      | Err e, _ => Err e
      | Ok _, Err e => Err e
      | Ok (ver, _), Ok (evVer, _) =>
          if negb (ver =? evVer) then Err errBadIPVersion
          else if Less (End_ r) (Start r) then Err errRangeReversed
          else routeBody (body ++ [z2b ver] ++ AsSlice (Start r) ++ AsSlice (End_ r) ++ [IPProtocol r]) routes
      end
  end.
Definition EncodeRouteAdvertisement (routes : list IPRoute) : res capErr bytes :=
  match routeBody [] routes with Ok body => Ok (wrapCapsule capsuleRouteAdvertisement body) | Err e => Err e end.

Definition parseAddress (r : bytes) : res capErr (AssignedAddress * bytes) :=
  match Read r with
  | None => Err errShortCapsule
  | Some (reqID, r) =>
      match ReadByte r with
      | Err e => Err e
      | Ok (verB, r) =>
          match readAddrOf r verB with
          | Err e => Err e
          | Ok (a, r) => match ReadByte r with
                         | Err e => Err e
                         | Ok (plen, r) => if BitLen a <? b2z plen then Err errBadPrefixLen else Ok (mkAssigned reqID (PrefixFrom a (b2z plen)), r)
                         end
          end
      end
  end.

Definition parseRoute (r : bytes) : res capErr (IPRoute * bytes) :=
  match ReadByte r with
  | Err e => Err e
  | Ok (verB, r) =>
      match readAddrOf r verB with
      | Err e => Err e
      | Ok (start, r) =>
          match readAddrOf r verB with
          | Err e => Err e
          | Ok (end_, r) => match ReadByte r with
                            | Err e => Err e
                            | Ok (proto, r) => if Less end_ start then Err errRangeReversed else Ok (mkRoute start end_ proto, r)
                            end
          end
      end
  end.

(** [for r.Len() > 0]. *)
Fixpoint parseAll {A} (parse : bytes -> res capErr (A * bytes)) (fuel : nat) (r : bytes) : res capErr (list A) :=
  match r with
  | [] => Ok []
  | _ => match fuel with
         | O => Err errShortCapsule
         | S fuel => match parse r with
                     | Err e => Err e
                     | Ok (a, r) => match parseAll parse fuel r with Ok l => Ok (a :: l) | Err e => Err e end
                     end
         end
  end.

Definition ParseCapsule (typ : Z) (body : bytes) : res capErr (list AssignedAddress * list IPRoute) :=
  if (typ =? capsuleAddressAssign) || (typ =? capsuleAddressRequest) then
    match parseAll parseAddress (length body) body with Ok l => Ok (l, []) | Err e => Err e end
  else if typ =? capsuleRouteAdvertisement then
    match parseAll parseRoute (length body) body with Ok l => Ok ([], l) | Err e => Err e end
  else Ok ([], []).

(** The type, the body, and the number of bytes used. *)
Definition ReadCapsule (b : bytes) : res capErr (Z * bytes * Z) :=
  match Read b with
  | None => Err errShortCapsule
  | Some (typ, r) =>
      match Read r with
      | None => Err errShortCapsule
      | Some (length, r) =>
          let consumed := len b - len r in
          if len b - consumed <? length then Err errShortCapsule
          else if 2 ^ 32 - 1 <? length then Err errTooLong
          else Ok (typ, take (Z.to_nat length) r, consumed + length)
      end
  end.

(** ** Datagrams *)

Definition prependContextID (ipPacket : bytes) : bytes := Append [] 0 ++ ipPacket.
Definition stripContextID (data : bytes) : option bytes :=
  match Read data with
  | Some (id, r) => if id =? 0 then Some (drop (length data - length r) data) else None
  | None => None
  end.

(** ** What is encoded is parsed *)

Lemma stripContextID_prepend p : stripContextID (prependContextID p) = Some p.
Proof.
  unfold stripContextID, prependContextID. rewrite Read_Append by lia. cbn [Z.eqb]. f_equal. rewrite length_app.
  apply drop_app_length'. lia.
Qed.

Lemma readFull_app a r n : length a = n -> readFull (a ++ r) n = Ok (a, r).
Proof. intros <-. unfold readFull. rewrite length_app. destruct (Nat.leb_spec (length a) (length a + length r)); [|lia]. by rewrite take_app_length, drop_app_length. Qed.

Lemma readAddrOf_AsSlice a ver width r : addr_wf a -> hasZone a = false -> ipVersionOf a = Ok (ver, width) ->
  readAddrOf (AsSlice a ++ r) (z2b ver) = Ok (a, r) /\ width * 8 = BitLen a.
Proof.
  intros Hw Hz. unfold ipVersionOf, readAddrOf. destruct a as [|v|v z]; cbn [Is4 Is6 AsSlice]; intros [= <- <-].
  - rewrite b2z_z2b_small by lia. change (4 =? 4) with true. cbv iota. rewrite readFull_app by apply length_be_enc. unfold AddrFromSlice. rewrite length_be_enc.
    change (4 =? 4)%nat with true. cbv iota. unfold AddrFrom4. rewrite be_dec_enc_small by (cbn in Hw |- *; lia). done.
  - rewrite b2z_z2b_small by lia. change (6 =? 4) with false. change (6 =? 6) with true. cbv iota. rewrite readFull_app by apply length_be_enc. unfold AddrFromSlice. rewrite length_be_enc.
    change (16 =? 4)%nat with false. change (16 =? 16)%nat with true. cbv iota. unfold AddrFrom16. rewrite be_dec_enc_small by (cbn in Hw |- *; lia). by destruct z.
Qed.

(** An item of a capsule that can be sent: of a well-formed address without a zone, with a
    number that fits. *)
Definition assigned_ok (a : AssignedAddress) : Prop :=
  0 <= RequestID a < 2 ^ 62 /\ addr_wf (pfx_addr (aa_Prefix a)) /\ hasZone (pfx_addr (aa_Prefix a)) = false.
Definition route_ok (r : IPRoute) : Prop := addr_wf (Start r) /\ hasZone (Start r) = false /\ addr_wf (End_ r) /\ hasZone (End_ r) = false.

(** A parser that inverts an encoding that appends, item by item. *)
Lemma parseAll_body {A} (parse : bytes -> res capErr (A * bytes)) (body : bytes -> list A -> res capErr bytes) (ok : A -> Prop) :
  (forall b, body b [] = Ok b) ->
  (forall b a l w, ok a -> body b (a :: l) = Ok w -> exists e, e <> [] /\ body (b ++ e) l = Ok w /\ forall r, parse (e ++ r) = Ok (a, r)) ->
  forall l b w fuel, Forall ok l -> body b l = Ok w -> exists t, w = b ++ t /\ ((length t <= fuel)%nat -> parseAll parse fuel t = Ok l).
Proof.
  intros Hnil Hcons. induction l as [|a l IH]; intros b w fuel Hl Hw.
  - rewrite Hnil in Hw. injection Hw as <-. exists []. split; [by rewrite app_nil_r|by destruct fuel].
  - inversion Hl as [|? ? Ha Hl']; subst. destruct (Hcons b a l w Ha Hw) as (e & He & Hb & Hp). destruct (IH (b ++ e) w (pred fuel) Hl' Hb) as (t & -> & Ht).
    exists (e ++ t). split; [by rewrite app_assoc|]. intros Hf. rewrite length_app in Hf. destruct e as [|x e]; [done|]. destruct fuel as [|fuel]; [cbn in Hf; lia|].
    cbn [app parseAll]. change (x :: e ++ t) with ((x :: e) ++ t). rewrite Hp. cbn [pred] in Ht. rewrite Ht by (cbn in *; lia). done.
Qed.

Lemma address_item b a l w : assigned_ok a -> addressBody b (a :: l) = Ok w ->
  exists e, e <> [] /\ addressBody (b ++ e) l = Ok w /\ forall r, parseAddress (e ++ r) = Ok (a, r).
Proof.
  intros (Hid & Hw & Hz). cbn [addressBody]. destruct (ipVersionOf (pfx_addr (aa_Prefix a))) as [[ver width]|] eqn:Ev; [|done].
  destruct ((Bits (aa_Prefix a) <? 0) || (width * 8 <? Bits (aa_Prefix a))) eqn:Eb; [done|]. apply orb_false_iff in Eb as [Eb1 Eb2]. to_prop. intros Hb.
  destruct (readAddrOf_AsSlice _ ver width [] Hw Hz Ev) as [_ Ewid].
  exists (Append [] (RequestID a) ++ [z2b ver] ++ AsSlice (pfx_addr (aa_Prefix a)) ++ [z2b (Bits (aa_Prefix a))]). split_and!.
  - by destruct (Append [] (RequestID a)).
  - rewrite app_assoc, <-Append_app. done.
  - intros r. unfold parseAddress. rewrite <-!app_assoc. rewrite Read_Append by done. cbn [app ReadByte].
    destruct (readAddrOf_AsSlice _ ver width (z2b (Bits (aa_Prefix a)) :: r) Hw Hz Ev) as [-> _]. cbn [ReadByte].
    assert (BitLen (pfx_addr (aa_Prefix a)) <= 128) by (by destruct (pfx_addr (aa_Prefix a))).
    rewrite b2z_z2b_small by lia. destruct (BitLen (pfx_addr (aa_Prefix a)) <? Bits (aa_Prefix a)) eqn:El; to_prop; [lia|].
    destruct a as [id [ad bits]]. cbn [aa_Prefix pfx_addr pfx_bits RequestID] in *. unfold Bits in *. cbn [pfx_bits] in *. destruct bits as [bits|]; [change (default (-1) (Some bits)) with bits in *|change (0 <= -1) in Eb1; lia].
    unfold PrefixFrom. assert (IsValid ad = true) as -> by (by destruct ad). assert (WithZone ad [] = ad) as -> by (destruct ad as [| |v [|]]; done).
    do 3 f_equal. destruct (Z.leb_spec 0 bits), (Z.leb_spec bits (BitLen ad)); cbn; try done; lia.
Qed.

Lemma route_item b a l w : route_ok a -> routeBody b (a :: l) = Ok w ->
  exists e, e <> [] /\ routeBody (b ++ e) l = Ok w /\ forall r, parseRoute (e ++ r) = Ok (a, r).
Proof.
  intros (Hs & Hsz & He & Hez). cbn [routeBody]. destruct (ipVersionOf (Start a)) as [[ver w1]|] eqn:E1; [|done]. destruct (ipVersionOf (End_ a)) as [[ver2 w2]|] eqn:E2; [|done].
  destruct (ver =? ver2) eqn:Ev; [|done]. to_prop. subst ver2. cbn [negb]. destruct (Less (End_ a) (Start a)) eqn:El; [done|]. intros Hb.
  exists ([z2b ver] ++ AsSlice (Start a) ++ AsSlice (End_ a) ++ [IPProtocol a]). split_and!; [done|done|]. intros r. unfold parseRoute. rewrite <-!app_assoc. cbn [app ReadByte].
  destruct (readAddrOf_AsSlice _ ver w1 (AsSlice (End_ a) ++ IPProtocol a :: r) Hs Hsz E1) as [-> _].
  destruct (readAddrOf_AsSlice _ ver w2 (IPProtocol a :: r) He Hez E2) as [-> _]. cbn [ReadByte]. rewrite El. by destruct a.
Qed.

Lemma ReadCapsule_wrap typ body r : 0 <= typ < 2 ^ 62 -> len body < 2 ^ 32 ->
  ReadCapsule (wrapCapsule typ body ++ r) = Ok (typ, body, len (wrapCapsule typ body)).
Proof.
  intros Ht Hb. pose proof (len_nonneg body). unfold ReadCapsule, wrapCapsule. rewrite Append_app, <-!app_assoc. rewrite Read_Append by done. rewrite Read_Append by lia.
  rewrite !len_app. pose proof (len_nonneg r). destruct (_ <? len body) eqn:E; to_prop; [lia|]. destruct (2 ^ 32 - 1 <? len body) eqn:E2; to_prop; [lia|].
  unfold len at 1. rewrite Nat2Z.id, take_app_length. do 2 f_equal. lia.
Qed.

(** A capsule of addresses that could be encoded is read back, whatever follows it, and so is
    one of routes. *)
Lemma address_capsule typ addrs w r : typ = capsuleAddressAssign \/ typ = capsuleAddressRequest -> Forall assigned_ok addrs ->
  encodeAddressCapsule typ addrs = Ok w -> len w < 2 ^ 32 ->
  exists body, ReadCapsule (w ++ r) = Ok (typ, body, len w) /\ ParseCapsule typ body = Ok (addrs, []).
Proof.
  intros Ht Hok. unfold encodeAddressCapsule. destruct (addressBody [] addrs) as [body|] eqn:Eb; [|done]. intros [= <-] Hl.
  destruct (parseAll_body parseAddress addressBody assigned_ok ltac:(done) address_item addrs [] body (length body) Hok Eb) as (t & -> & Hp). cbn [app] in *. exists t. split.
  - apply ReadCapsule_wrap; [destruct Ht as [->| ->]; done|]. unfold wrapCapsule in Hl. rewrite len_app in Hl. pose proof (len_nonneg (Append (Append [] typ) (len t))). lia.
  - unfold ParseCapsule. destruct Ht as [->| ->]; cbn [Z.eqb orb]; by rewrite Hp.
Qed.

Lemma route_capsule routes w r : Forall route_ok routes -> EncodeRouteAdvertisement routes = Ok w -> len w < 2 ^ 32 ->
  exists body, ReadCapsule (w ++ r) = Ok (capsuleRouteAdvertisement, body, len w) /\ ParseCapsule capsuleRouteAdvertisement body = Ok ([], routes).
Proof.
  intros Hok. unfold EncodeRouteAdvertisement. destruct (routeBody [] routes) as [body|] eqn:Eb; [|done]. intros [= <-] Hl.
  destruct (parseAll_body parseRoute routeBody route_ok ltac:(done) route_item routes [] body (length body) Hok Eb) as (t & -> & Hp). cbn [app] in *. exists t. split.
  - apply ReadCapsule_wrap; [done|]. unfold wrapCapsule in Hl. rewrite len_app in Hl. pose proof (len_nonneg (Append (Append [] capsuleRouteAdvertisement) (len t))). lia.
  - unfold ParseCapsule. cbn [Z.eqb orb]. by rewrite Hp.
Qed.

(** A parser that uses something up at each item never runs out of fuel: the fuel of the loops
    is enough. *)
Lemma parseAll_fuel {A} (parse : bytes -> res capErr (A * bytes)) :
  (forall b a r, parse b = Ok (a, r) -> (length r < length b)%nat) ->
  forall f1 f2 r, (length r <= f1)%nat -> (length r <= f2)%nat -> parseAll parse f1 r = parseAll parse f2 r.
Proof.
  intros Hp. induction f1 as [|f1 IH]; intros [|f2] [|b r] H1 H2; cbn [length] in *; try lia; try done. cbn [parseAll].
  destruct (parse (b :: r)) as [[a r']|] eqn:E; [|done]. specialize (Hp _ _ _ E). cbn [length] in Hp. by rewrite (IH f2 r') by lia.
Qed.
End capsule.
End Connectip.

(** * gost relay ([proto/gost/gost.go])

    The request with its features, the answer, and the handshake of the two ends. *)
Module Gost.

Inductive gostErr := gRead (e : io_err) | gWrite | errBadVersion | errAtyp | errNoAddr | errAuth | errTruncated | errRefused (status : byte).
#[export] Instance gost_errors : StreamErrors gostErr := {| read_error := gRead; write_error := gWrite |}.

Definition version1 : byte := x01.
Definition cmdConnect : byte := x01.
Definition statusOK : byte := x00.
Definition statusBadRequest : byte := x01.
Definition statusUnauthorized : byte := x02.
Definition featureUserAuth : byte := x01.
Definition featureAddr : byte := x02.
Definition featureNetwork : byte := x04.
Definition addrIPv4 : byte := x01.
Definition addrDomain : byte := x03.
Definition addrIPv6 : byte := x04.
Definition networkTCP : Z := 0.
Definition networkUDP : Z := 1.

Record Config := mkGostConfig { Username : bytes; Password : bytes }.
Record gostProxy := mkGost { g_cfg : Config; g_authRequired : bool }.

Definition ClientKey (secret : bytes) : bytes := secret.
Definition AuthKey (secret : bytes) : bytes := secret.

Fixpoint splitUserPass (s : bytes) : bytes * bytes :=
  match s with
  | [] => ([], [])
  | c :: s' => if bool_decide (c = x3a) then ([], s') else let '(u, p) := splitUserPass s' in (c :: u, p)
  end.
Definition userPassKey (user pass : bytes) : bytes := user ++ [x3a] ++ pass.

(** ** The request *)

Definition writeFeature (ftype : byte) (payload : bytes) : bytes := [ftype] ++ be_enc 2 (len payload) ++ payload.

Definition writeAddr (d : Socksaddr) : bytes :=
  (if IsFqdn d then [addrDomain; z2b (len (Fqdn d))] ++ Fqdn d
   else if Is4 (sa_addr d) then [addrIPv4] ++ As4 (sa_addr d)
   else [addrIPv6] ++ As16 (sa_addr d)) ++ be_enc 2 (sa_port d).

Definition userAuth (user pass : bytes) : bytes := [z2b (len user)] ++ user ++ [z2b (len pass)] ++ pass.
Definition relayFeatures (dst : Socksaddr) (network : Z) (user pass : bytes) : bytes :=
  (if negb (bool_decide (user = [])) || negb (bool_decide (pass = [])) then writeFeature featureUserAuth (userAuth user pass) else []) ++
  writeFeature featureAddr (writeAddr dst) ++ writeFeature featureNetwork (be_enc 2 network).
Definition writeRelayRequest (command : byte) (dst : Socksaddr) (network : Z) (user pass : bytes) : bytes :=
  let feats := relayFeatures dst network user pass in [version1; command] ++ be_enc 2 (len feats) ++ feats.

Definition writeResponse (status : byte) : bytes := [version1; status; x00; x00].

Definition parseUserAuth (b : bytes) : bytes * bytes :=
  match b with
  | [] => ([], [])
  | ul :: b =>
      let ul := Z.to_nat (b2z ul) in
      if (length b <? ul + 1)%nat then ([], [])
      else let user := take ul b in
           match drop ul b with
           | [] => ([], [])
           | pl :: b => let pl := Z.to_nat (b2z pl) in if (length b <? pl)%nat then (user, []) else (user, take pl b)
           end
  end.

Definition withPort (a : Addr) (fqdn b : bytes) : Socksaddr := {| sa_addr := a; Fqdn := fqdn; sa_port := be_dec (take 2 b) |}.
Definition parseAddr (b : bytes) : res gostErr Socksaddr :=
  match b with
  | [] => Err errAtyp
  | atyp :: b =>
      if bool_decide (atyp = addrIPv4) then if (length b <? 6)%nat then Err errAtyp else Ok (withPort (AddrFrom4 (take 4 b)) [] (drop 4 b))
      else if bool_decide (atyp = addrIPv6) then if (length b <? 18)%nat then Err errAtyp else Ok (withPort (AddrFrom16 (take 16 b)) [] (drop 16 b))
      else if bool_decide (atyp = addrDomain) then
        match b with
        | [] => Err errAtyp
        | l :: b => let l := Z.to_nat (b2z l) in if (length b <? l + 2)%nat then Err errAtyp else Ok (withPort AddrZero (take l b) (drop l b))
        end
      else Err errAtyp
  end.

Record features := mkFeatures { ft_dst : option Socksaddr; ft_network : Z; ft_user : bytes; ft_pass : bytes }.

Fixpoint features_loop (fuel : nat) (payload : bytes) (f : features) : res gostErr features :=
  match fuel, payload with
  | _, [] => Ok f
  | S fuel, ftype :: l0 :: l1 :: payload =>
      let flen := Z.to_nat (be_dec [l0; l1]) in
      if (length payload <? flen)%nat then Err errTruncated
      else
        let body := take flen payload in
        let payload := drop flen payload in
        if bool_decide (ftype = featureUserAuth) then
          let '(user, pass) := parseUserAuth body in features_loop fuel payload (mkFeatures (ft_dst f) (ft_network f) user pass)
        else if bool_decide (ftype = featureAddr) then
          match parseAddr body with Err e => Err e | Ok d => features_loop fuel payload (mkFeatures (Some d) (ft_network f) (ft_user f) (ft_pass f)) end
        else if bool_decide (ftype = featureNetwork) then
          features_loop fuel payload (mkFeatures (ft_dst f) (if (2 <=? flen)%nat then be_dec (take 2 body) else ft_network f) (ft_user f) (ft_pass f))
        else features_loop fuel payload f
  | _, _ => Err errTruncated
  end.
Definition parseFeatures (payload : bytes) : res gostErr (Socksaddr * Z * bytes * bytes) :=
  match features_loop (length payload) payload (mkFeatures None networkTCP [] []) with
  | Err e => Err e
  | Ok f => match ft_dst f with None => Err errNoAddr | Some d => Ok (d, ft_network f, ft_user f, ft_pass f) end
  end.

(** ** Handshakes *)

(** Who the request comes from. *)
Definition gostAuth (p : gostProxy) (auth : Authenticator) (user pass : bytes) : option credID :=
  match auth (bs "gost") (userPassKey user pass) with
  | Some r => Some r
  | None =>
      if negb (bool_decide (Username (g_cfg p) = [])) || negb (bool_decide (Password (g_cfg p) = [])) then
        if negb (bool_decide (user = Username (g_cfg p))) || negb (bool_decide (pass = Password (g_cfg p))) then None else Some Ambient
      else if g_authRequired p then None else Some Ambient
  end.

Definition ServerHandshake (p : gostProxy) (auth : Authenticator) : hs gostErr Request :=
  hdr ← hread 4;
  if negb (bool_decide (nth 0 hdr x00 = version1)) then hfail errBadVersion
  else
    payload ← hread (Z.to_nat (be_dec (drop 2 hdr)));
    match parseFeatures payload with
    | Err e => hwrite_ (writeResponse statusBadRequest);; hfail e
    | Ok (dst, network, user, pass) =>
        match gostAuth p auth user pass with
        | None => hwrite_ (writeResponse statusUnauthorized);; hfail errAuth
        | Some ref => hwrite (writeResponse statusOK);; mret (mkRequest dst ref (if network =? networkUDP then NetUDP else NetTCP) cmdConnect)
        end
    end.

Definition clientUser (p : gostProxy) (key : bytes) : bytes * bytes := match key with [] => (Username (g_cfg p), Password (g_cfg p)) | _ => splitUserPass key end.
Definition ClientHandshake (p : gostProxy) (key : bytes) (dst : Socksaddr) : hs gostErr unit :=
  let '(user, pass) := clientUser p key in hwrite (writeRelayRequest cmdConnect dst networkTCP user pass).

Definition readConnectResponse : hs gostErr unit :=
  hdr ← hread 4;
  if negb (bool_decide (nth 0 hdr x00 = version1)) then hfail errBadVersion
  else if negb (bool_decide (nth 1 hdr x00 = statusOK)) then hfail (errRefused (nth 1 hdr x00))
  else let featLen := Z.to_nat (be_dec (drop 2 hdr)) in
       if (0 <? featLen)%nat then ReadN featLen (fun r => Ret (match r with Ok _ => Ok tt | Err _ => Err (gRead EOF) end)) else mret tt.

(** The client's first read, of [n] bytes: the answer before it, [once]. *)
Definition clientStream_Read (once : bool) (n : nat) : hs gostErr bytes := (if once then mret tt else readConnectResponse);; hread n.

(** ** What the client asks for is what the server does *)

Lemma splitUserPass_key user pass : x3a ∉ user -> splitUserPass (userPassKey user pass) = (user, pass).
Proof.
  unfold userPassKey. cbn [app]. induction user as [|c user IH]; intros Hu; cbn [app splitUserPass]; [by rewrite bool_decide_eq_true_2|].
  rewrite bool_decide_eq_false_2 by set_solver. by rewrite IH by set_solver.
Qed.

Lemma parseUserAuth_enc user pass : len user <= 255 -> len pass <= 255 -> parseUserAuth (userAuth user pass) = (user, pass).
Proof.
  intros Hu Hp. pose proof (len_nonneg user). pose proof (len_nonneg pass). unfold userAuth, parseUserAuth. cbn [app]. rewrite b2z_z2b_small by lia.
  assert (Z.to_nat (len user) = length user) as -> by (unfold len; lia). rewrite length_app. cbn [length].
  destruct (_ <? _)%nat eqn:E; [apply Nat.ltb_lt in E; lia|]. rewrite drop_app_length, take_app_length. rewrite b2z_z2b_small by lia.
  assert (Z.to_nat (len pass) = length pass) as -> by (unfold len; lia). destruct (length pass <? length pass)%nat eqn:E2; [apply Nat.ltb_lt in E2; lia|]. by rewrite firstn_all.
Qed.

Lemma parseAddr_enc d : carriable d -> (IsFqdn d = false -> IsValid (sa_addr d) = true) -> parseAddr (writeAddr d) = Ok (wire_dst d).
Proof.
  intros (Hl & Hw & Hp) Hv. unfold writeAddr, wire_dst, parseAddr, withPort. pose proof (len_nonneg (Fqdn d)). destruct (IsFqdn d).
  - cbn [app]. rewrite !bool_decide_eq_false_2, bool_decide_eq_true_2 by done. rewrite <-(len_byte (Fqdn d)) by lia. rewrite length_app, length_be_enc.
    destruct (_ <? _)%nat eqn:E; [apply Nat.ltb_lt in E; lia|]. rewrite take_app_length, drop_app_length. rewrite take_ge by (by rewrite length_be_enc). by rewrite port_dec.
  - destruct (Is4 (sa_addr d)) eqn:E4.
    + cbn [app]. rewrite bool_decide_eq_true_2 by done. rewrite length_app, length_be_enc, length_As4. cbn [Nat.add Nat.ltb Nat.leb].
      rewrite take_app_length', drop_app_length' by (by rewrite length_As4). rewrite take_ge by (by rewrite length_be_enc). rewrite port_dec by done.
      destruct (sa_addr d) as [|v|] eqn:Ea; [done| |done]. by rewrite As4_dec.
    + cbn [app]. rewrite bool_decide_eq_false_2, bool_decide_eq_true_2 by done. rewrite length_app, length_be_enc, length_As16. cbn [Nat.add Nat.ltb Nat.leb].
      rewrite take_app_length', drop_app_length' by (by rewrite length_As16). rewrite take_ge by (by rewrite length_be_enc). by rewrite port_dec.
Qed.

(** One feature of the request. *)
Lemma features_step fuel ft body rest f : len body < 65536 ->
  features_loop (S fuel) (writeFeature ft body ++ rest) f =
  if bool_decide (ft = featureUserAuth) then let '(user, pass) := parseUserAuth body in features_loop fuel rest (mkFeatures (ft_dst f) (ft_network f) user pass)
  else if bool_decide (ft = featureAddr) then match parseAddr body with Err e => Err e | Ok d => features_loop fuel rest (mkFeatures (Some d) (ft_network f) (ft_user f) (ft_pass f)) end
  else if bool_decide (ft = featureNetwork) then features_loop fuel rest (mkFeatures (ft_dst f) (if (2 <=? length body)%nat then be_dec (take 2 body) else ft_network f) (ft_user f) (ft_pass f))
  else features_loop fuel rest f.
Proof.
  intros Hl. pose proof (len_nonneg body). unfold writeFeature. rewrite <-!app_assoc. pose proof (length_be_enc 2 (len body)) as H2.
  assert (be_dec (be_enc 2 (len body)) = len body) as Hd by (apply be_dec_enc_small; lia). destruct (be_enc 2 (len body)) as [|a [|b [|]]]; try done. cbn [app features_loop]. rewrite Hd.
  assert (Z.to_nat (len body) = length body) as -> by (unfold len; lia). rewrite length_app. destruct (_ <? length body)%nat eqn:E; [apply Nat.ltb_lt in E; lia|].
  by rewrite take_app_length, drop_app_length.
Qed.

(** What the server makes of a client's request. *)
Lemma parseFeatures_request dst network user pass : carriable dst -> (IsFqdn dst = false -> IsValid (sa_addr dst) = true) -> in_u16 network -> len user <= 255 -> len pass <= 255 ->
  parseFeatures (relayFeatures dst network user pass) = Ok (wire_dst dst, network, user, pass) /\ len (relayFeatures dst network user pass) < 1024.
Proof.
  intros Hd Hv Hn Hu Hp. assert (len (writeAddr dst) <= 259) as Ha.
  { destruct Hd as (Hl & _). unfold writeAddr. rewrite len_app, len_be_enc. destruct (IsFqdn dst); [|destruct (Is4 (sa_addr dst))]; rewrite len_app; unfold len in *; cbn [length]; rewrite ?length_As4, ?length_As16; lia. }
  assert (len (userAuth user pass) = 2 + len user + len pass) as Hua by (unfold userAuth; rewrite !len_app; change (len [z2b (len user)]) with 1; change (len [z2b (len pass)]) with 1; lia).
  pose proof (len_nonneg user). pose proof (len_nonneg pass). pose proof (len_nonneg (writeAddr dst)). split.
  - unfold parseFeatures, relayFeatures. set (rest := writeFeature featureAddr (writeAddr dst) ++ writeFeature featureNetwork (be_enc 2 network)).
    assert (forall fuel f, (2 <= fuel)%nat -> features_loop fuel rest f = Ok (mkFeatures (Some (wire_dst dst)) network (ft_user f) (ft_pass f))) as Hrest.
    { intros fuel f Hf. destruct fuel as [|[|fuel]]; [lia..|]. unfold rest. rewrite features_step by lia. rewrite bool_decide_eq_false_2, bool_decide_eq_true_2 by done.
      rewrite parseAddr_enc by done. rewrite <-(app_nil_r (writeFeature featureNetwork _)). rewrite features_step by (rewrite len_be_enc; done). rewrite !bool_decide_eq_false_2, bool_decide_eq_true_2 by done.
      rewrite length_be_enc. cbn [Nat.leb]. rewrite take_ge by (by rewrite length_be_enc). rewrite be_dec_enc_small by (unfold in_u16 in Hn; cbn; lia). by destruct fuel. }
    destruct (negb (bool_decide (user = [])) || negb (bool_decide (pass = []))) eqn:E.
    + destruct (length (writeFeature featureUserAuth (userAuth user pass) ++ rest)) as [|fuel] eqn:El.
      { rewrite length_app in El. unfold writeFeature in El. rewrite length_app in El. cbn in El. lia. }
      rewrite features_step by lia. rewrite bool_decide_eq_true_2 by done. rewrite parseUserAuth_enc by done. rewrite Hrest; [done|].
      unfold rest, writeFeature in El. rewrite !length_app, !length_be_enc in El. cbn in El. lia.
    + apply orb_false_iff in E as [E1 E2]. apply negb_false_iff, bool_decide_eq_true in E1, E2. subst. cbn [app]. rewrite Hrest; [done|].
      unfold rest, writeFeature. rewrite !length_app, !length_be_enc. cbn. lia.
  - unfold relayFeatures, writeFeature. rewrite !len_app, !len_be_enc. change (len [featureAddr]) with 1. change (len [featureNetwork]) with 1.
    destruct (_ || _); [rewrite !len_app, len_be_enc, Hua; change (len [featureUserAuth]) with 1; lia|change (len (@nil byte)) with 0; lia].
Qed.

(** A client and a server: the server reads the destination, settles who asks for it, and
    answers; the client's first read takes the answer off and returns what follows it. *)
Lemma gost_session p auth pc key dst user pass ref x r : carriable dst -> (IsFqdn dst = false -> IsValid (sa_addr dst) = true) ->
  clientUser pc key = (user, pass) -> len user <= 255 -> len pass <= 255 -> gostAuth p auth user pass = Some ref ->
  exists req, ends (ClientHandshake pc key dst) [] (Ok tt) [] req /\
    ends (ServerHandshake p auth) (req ++ r) (Ok (mkRequest (wire_dst dst) ref NetTCP cmdConnect)) r (writeResponse statusOK) /\
    ends (clientStream_Read false (length x)) (writeResponse statusOK ++ x) (Ok x) [] [].
Proof.
  intros Hd Hv Hc Hu Hp Ha. exists (writeRelayRequest cmdConnect dst networkTCP user pass). split_and!.
  - unfold ClientHandshake. rewrite Hc. apply ends_write.
  - destruct (parseFeatures_request dst networkTCP user pass Hd Hv ltac:(done) Hu Hp) as [Hf Hl]. pose proof (len_nonneg (relayFeatures dst networkTCP user pass)).
    unfold ServerHandshake, writeRelayRequest. rewrite <-!app_assoc, (app_assoc [_; _]). apply ends_read_bind; [by rewrite length_app, length_be_enc|].
    change (nth 0 _ x00) with version1. rewrite bool_decide_eq_true_2 by done. cbn [negb]. change (drop 2 _) with (be_enc 2 (len (relayFeatures dst networkTCP user pass))).
    rewrite be_dec_enc_small by lia. apply ends_read_bind; [unfold len; lia|]. rewrite Hf, Ha. change (networkTCP =? networkUDP) with false. cbv iota. apply ends_write_ret.
  - unfold clientStream_Read. eapply (ends_bind _ _ _ tt x [] _ _ []).
    + unfold readConnectResponse. apply ends_read_bind; [done|]. rewrite !bool_decide_eq_true_2 by done. apply ends_ret.
    + rewrite <-(app_nil_r x) at 2. by apply ends_read.
Qed.

(** A name of more than 255 bytes is sent with the low byte of its length: the server reads
    another destination, made of the first bytes of the name. *)
Lemma gost_long_name : let d := FromFqdn (bs "a.example" ++ [x00; x50] ++ replicate 254 x61) 443 in
  length (Fqdn d) = 265%nat /\ parseAddr (writeAddr d) = Ok (FromFqdn (bs "a.example") 80).
Proof. split; vm_compute; reflexivity. Qed.
End Gost.

(** * Datagrams of TrustTunnel ([outbound/trusttunnel/udp.go], [internal/ipresolve/ipresolve.go])

    Datagrams for many destinations on one stream, in frames that carry addresses only: the
    frames of both directions, the queue of a connection, and the cache that turns names into
    addresses before. Name resolution is the environment's. *)
Module TrustTunnel.

(** ** Names to addresses *)

Inductive resolveErr := errLookup | errNoIP.

Section resolve.
Context (LookupNetIP : bytes -> res resolveErr (list Addr)).

(** The first IPv4 address, or the first of all. *)
Definition preferred (ips : list Addr) : option Addr :=
  match ips with
  | [] => None
  | ip :: _ => Some (match list_find (fun x => Is4 (Unmap x) = true) ips with Some (_, x) => Unmap x | None => Unmap ip end)
  end.

Definition Resolve (m : gmap bytes Addr) (a : Socksaddr) : res resolveErr Socksaddr * gmap bytes Addr :=
  if negb (IsFqdn a) then (Ok a, m)
  else match ParseAddr (Fqdn a) with
       | Some ip => (Ok (FromIPPort {| ap_addr := Unmap ip; ap_port := sa_port a |}), m)
       | None =>
           match m !! Fqdn a with
           | Some ip => (Ok (FromIPPort {| ap_addr := ip; ap_port := sa_port a |}), m)
           | None =>
               match LookupNetIP (Fqdn a) with
               | Err e => (Err e, m)
               | Ok ips => match preferred ips with
                           | None => (Err errNoIP, m)
                           | Some ip => (Ok (FromIPPort {| ap_addr := ip; ap_port := sa_port a |}), <[Fqdn a := ip]> m)
                           end
               end
           end
       end.

(** What comes out is never a name, keeps its port, and a name that was resolved once keeps its
    address for the whole session. *)
Lemma Resolve_ip m a b m' : Resolve m a = (Ok b, m') -> IsFqdn b = false /\ sa_port b = sa_port a.
Proof. unfold Resolve. intros E. repeat (case_match; simplify_eq/=; try done). by apply negb_true_iff in H. Qed.

Lemma Resolve_stable m a b m' : Resolve m a = (Ok b, m') -> IsFqdn a = true -> Resolve m' a = (Ok b, m').
Proof.
  intros E Hf. revert E. unfold Resolve. rewrite Hf. cbn [negb]. destruct (ParseAddr (Fqdn a)); [by intros [= <- <-]|]. destruct (m !! Fqdn a) as [ip|] eqn:Em; [intros [= <- <-]; by rewrite Em|].
  destruct (LookupNetIP (Fqdn a)) as [ips|]; [|done]. destruct (preferred ips) as [ip|]; [|done]. intros [= <- <-]. by rewrite lookup_insert_eq.
Qed.

(** IPv4 wherever there is one. *)
Lemma preferred_4 ips ip : preferred ips = Some ip -> (exists x, x ∈ ips /\ Is4 (Unmap x) = true) -> Is4 ip = true.
Proof.
  intros Hp (x & Hx & H4). destruct ips as [|i ips]; [done|]. unfold preferred in Hp. destruct (list_find _ (i :: ips)) as [[k y]|] eqn:Ef.
  - injection Hp as <-. apply list_find_Some in Ef as (_ & Hy & _). done.
  - apply list_find_None in Ef. rewrite Forall_forall in Ef. by apply Ef in Hx.
Qed.
End resolve.

(** ** Addresses of sixteen bytes *)

Definition encodeIP16 (a : Addr) : bytes :=
  let a := Unmap a in if Is4 a then replicate 12 x00 ++ As4 a else As16 a.

Definition decodeIP16 (b : bytes) : Addr :=
  if bool_decide (take 12 b = replicate 12 x00) && negb (bool_decide (drop 12 b = [x00; x00; x00; x01])) then AddrFrom4 (drop 12 b) else AddrFrom16 b.

Lemma length_encodeIP16 a : length (encodeIP16 a) = 16%nat.
Proof. unfold encodeIP16. destruct (Is4 (Unmap a)) eqn:E; [|apply length_As16]. by rewrite length_app, length_replicate, length_As4. Qed.

(** The addresses the form can tell apart: 0.0.0.1 looks like ::1, and every other address
    below ::1:0:0 like an IPv4 address. *)
Definition distinct16 (a : Addr) : Prop := match Unmap a with AddrZero => False | Addr4 v => v <> 1 | Addr6 v _ => v = 1 \/ 2 ^ 32 <= v end.

Definition no_zone (a : Addr) : Addr := match Unmap a with Addr6 v _ => Addr6 v [] | x => x end.

Lemma be_enc_split (n k : nat) z : be_enc (n + k) z = be_enc n (z / 256 ^ Z.of_nat k) ++ be_enc k z.
Proof.
  revert z. induction k as [|k IH]; intros z; [rewrite Nat.add_0_r, Z.div_1_r; by rewrite app_nil_r|]. rewrite Nat.add_succ_r. cbn [be_enc]. rewrite IH, <-app_assoc.
  f_equal. f_equal. rewrite Z.div_div by lia. f_equal. rewrite Nat2Z.inj_succ, Z.pow_succ_r by lia. lia.
Qed.

Lemma be_enc_0 n : be_enc n 0 = replicate n x00.
Proof. induction n as [|n IH]; [done|]. cbn [be_enc]. change (0 / 256) with 0. rewrite IH. change (z2b 0) with x00. by rewrite <-replicate_S_end. Qed.

Lemma be_enc_inj_val n z : 0 <= z < 256 ^ Z.of_nat n -> be_enc n z = replicate n x00 -> z = 0.
Proof. intros Hz E. rewrite <-be_enc_0 in E. apply (f_equal be_dec) in E. rewrite !be_dec_enc_small in E by lia. done. Qed.

Lemma ip16_roundtrip a : addr_wf a -> distinct16 a -> decodeIP16 (encodeIP16 a) = no_zone a.
Proof.
  intros Hw Hd. apply Unmap_wf in Hw. unfold distinct16, no_zone, encodeIP16, decodeIP16 in *. destruct (Unmap a) as [|v|v z] eqn:Eu; [done| |]; cbn [Is4].
  - rewrite take_app_length', drop_app_length' by (by rewrite length_replicate). rewrite bool_decide_eq_true_2 by done. rewrite bool_decide_eq_false_2; [by apply As4_dec|].
    intros E. pose proof (As4_dec v Hw) as Hv. rewrite E in Hv. apply Hd. by injection Hv.
  - cbn [addr_wf] in Hw. unfold As16. change 16%nat with (12 + 4)%nat. rewrite be_enc_split. rewrite take_app_length', drop_app_length' by (by rewrite length_be_enc). change (256 ^ Z.of_nat 4) with (2 ^ 32).
    assert (AddrFrom16 (be_enc 12 (v / 2 ^ 32) ++ be_enc 4 v) = Addr6 v []) as E16.
    { unfold AddrFrom16. change (2 ^ 32) with (256 ^ Z.of_nat 4). rewrite <-be_enc_split. rewrite be_dec_enc_small; [done|exact Hw]. }
    destruct Hd as [->|Hd]; [done|]. rewrite bool_decide_eq_false_2; [exact E16|]. intros E. apply be_enc_inj_val in E; [apply Z.div_small_iff in E; lia|].
    split; [apply Z.div_pos; lia|]. apply Z.div_lt_upper_bound; [lia|]. change (2 ^ 32 * 256 ^ Z.of_nat 12) with (2 ^ 128). lia.
Qed.

(** The two sides of the ambiguity. *)
Lemma ip16_loopback : decodeIP16 (encodeIP16 (Addr4 1)) = Addr6 1 [].
Proof. reflexivity. Qed.
Lemma ip16_compatible : decodeIP16 (encodeIP16 (Addr6 (0x01020304) [])) = Addr4 0x01020304.
Proof. reflexivity. Qed.

(** ** Frames *)

Inductive ttErr := ttRead (e : io_err) | ttWrite | errUDPTooLong.
#[export] Instance tt_errors : StreamErrors ttErr := {| read_error := ttRead; write_error := ttWrite |}.

Definition appName : bytes := bs "ntr".
Definition addrBlock : Z := 16 + 2 + 16 + 2.

Record inFrame := mkFrame { f_data : bytes; f_addr : Socksaddr }.

(** [io.CopyN] to nowhere. *)
Definition discardN (n : nat) : hs ttErr unit := ReadN n (fun r => Ret (match r with Ok _ => Ok tt | Err _ => Err (ttRead EOF) end)).

Definition frameAddr (hdr : bytes) (i : nat) : Socksaddr := FromIPPort {| ap_addr := decodeIP16 (take 16 (drop i hdr)); ap_port := be_dec (take 2 (drop (i + 16) hdr)) |}.

(** One round of [readLoop]. *)
Definition readFrame (client : bool) : hs ttErr inFrame :=
  hdr ← hread (Z.to_nat (4 + addrBlock));
  let n := be_dec (take 4 hdr) - addrBlock in
  let payload (n : Z) a := if (n <? 0) || (0xffff <? n) then hfail errUDPTooLong else p ← hread (Z.to_nat n); mret (mkFrame p a) in
  if client then payload n (frameAddr hdr 4)
  else
    l ← hread 1;
    let k := b2z (nth 0 l x00) in
    discardN (Z.to_nat k);; payload (n - (1 + k)) (frameAddr hdr 22).

Definition writeFrame (client : bool) (a : Socksaddr) (payload : bytes) : bytes :=
  let ip := encodeIP16 (sa_addr a) in
  if client then be_enc 4 (w32 (addrBlock + 1 + len appName + len payload)) ++ replicate 18 x00 ++ ip ++ be_enc 2 (sa_port a) ++ [z2b (len appName)] ++ appName ++ payload
  else be_enc 4 (w32 (addrBlock + len payload)) ++ ip ++ be_enc 2 (sa_port a) ++ replicate 18 x00 ++ payload.

(** [WritePacket]: an answer whose sender cannot be resolved is said to come from 0.0.0.0. *)
Definition WritePacket (LookupNetIP : bytes -> res resolveErr (list Addr)) (client : bool) (m : gmap bytes Addr) (payload : bytes) (a : Socksaddr) : res resolveErr bytes * gmap bytes Addr :=
  match Resolve LookupNetIP m a with
  | (Ok ipa, m) => (Ok (writeFrame client ipa payload), m)
  | (Err e, m) => if client then (Err e, m) else (Ok (writeFrame client (FromIPPort {| ap_addr := Addr4 0; ap_port := sa_port a |}) payload), m)
  end.

(** The queue of frames read: into a buffer with some room, the first that fits. *)
Fixpoint ReadPacket (tailroom : Z) (q : list inFrame) : option (inFrame * list inFrame) :=
  match q with
  | [] => None
  | f :: q => if tailroom <? len (f_data f) then ReadPacket tailroom q else Some (f, q)
  end.

Fixpoint readFrames (client : bool) (k : nat) : hs ttErr (list inFrame) :=
  match k with
  | O => mret []
  | S k => f ← readFrame client; fs ← readFrames client k; mret (f :: fs)
  end.

(** A frame as the other end reads it. *)
Definition heard (a : Socksaddr) : Socksaddr := FromIPPort {| ap_addr := decodeIP16 (encodeIP16 (sa_addr a)); ap_port := sa_port a |}.

Lemma ends_discard n b r : length b = n -> ends (discardN n) (b ++ r) (Ok tt) r [].
Proof.
  intros <-. unfold ends, discardN. cbn [feed]. rewrite length_app. destruct (Nat.leb_spec (length b) (length b + length r)); [|lia]. by rewrite drop_app_length.
Qed.

Lemma readFrame_write client a p r : in_u16 (sa_port a) -> len p <= 0xffff ->
  ends (readFrame (negb client)) (writeFrame client a p ++ r) (Ok (mkFrame p (heard a))) r [].
Proof.
  intros Hp Hl. pose proof (len_nonneg p) as Hn. pose proof (length_encodeIP16 (sa_addr a)) as Hi. unfold readFrame, writeFrame, addrBlock. change (len appName) with 3. change (z2b 3) with x03.
  destruct client; cbn [negb].
  - set (n := w32 (16 + 2 + 16 + 2 + 1 + 3 + len p)). assert (n = 40 + len p) as En by (unfold n, w32; rewrite Z.mod_small; lia).
    rewrite <-!app_assoc. rewrite (app_assoc (be_enc 4 n)), (app_assoc (be_enc 4 n ++ replicate 18 x00)), (app_assoc ((be_enc 4 n ++ replicate 18 x00) ++ encodeIP16 (sa_addr a))).
    apply ends_read_bind; [rewrite !length_app, !length_be_enc, length_replicate, Hi; done|].
    assert (frameAddr (((be_enc 4 n ++ replicate 18 x00) ++ encodeIP16 (sa_addr a)) ++ be_enc 2 (sa_port a)) 22 = heard a) as ->.
    { unfold frameAddr, heard. rewrite <-app_assoc, (drop_app_length' (be_enc 4 n ++ replicate 18 x00)) by (by rewrite length_app, length_be_enc, length_replicate). rewrite take_app_length' by done.
      rewrite app_assoc, drop_app_length' by (by rewrite !length_app, length_be_enc, length_replicate, Hi). rewrite take_ge by (by rewrite length_be_enc). by rewrite port_dec. }
    rewrite <-!app_assoc, take_app_length' by (by rewrite length_be_enc). rewrite be_dec_enc_small by (rewrite En; change (256 ^ Z.of_nat 4) with (2 ^ 32); lia).
    apply ends_read_bind; [done|]. cbn [nth]. change (Z.to_nat (b2z x03)) with 3%nat. change (b2z x03) with 3.
    apply (ends_bind _ _ _ tt (p ++ r) [] _ r []); [by apply ends_discard|].
    destruct (Z.ltb_spec (n - (16 + 2 + 16 + 2) - (1 + 3)) 0); [lia|]. destruct (Z.ltb_spec 0xffff (n - (16 + 2 + 16 + 2) - (1 + 3))); [lia|]. cbn [orb].
    apply ends_read_bind; [unfold len in *; lia|]. apply ends_ret.
  - set (n := w32 (16 + 2 + 16 + 2 + len p)). assert (n = 36 + len p) as En by (unfold n, w32; rewrite Z.mod_small; lia).
    rewrite <-!app_assoc. rewrite (app_assoc (be_enc 4 n)), (app_assoc (be_enc 4 n ++ encodeIP16 (sa_addr a))), (app_assoc ((be_enc 4 n ++ encodeIP16 (sa_addr a)) ++ be_enc 2 (sa_port a))).
    apply ends_read_bind; [rewrite !length_app, !length_be_enc, length_replicate, Hi; done|].
    assert (frameAddr (((be_enc 4 n ++ encodeIP16 (sa_addr a)) ++ be_enc 2 (sa_port a)) ++ replicate 18 x00) 4 = heard a) as ->.
    { unfold frameAddr, heard. rewrite <-!app_assoc, (drop_app_length' (be_enc 4 n)) by (by rewrite length_be_enc). rewrite take_app_length' by done.
      rewrite app_assoc, drop_app_length' by (by rewrite length_app, length_be_enc, Hi). rewrite take_app_length' by (by rewrite length_be_enc). by rewrite port_dec. }
    rewrite <-!app_assoc, take_app_length' by (by rewrite length_be_enc). rewrite be_dec_enc_small by (rewrite En; change (256 ^ Z.of_nat 4) with (2 ^ 32); lia).
    destruct (Z.ltb_spec (n - (16 + 2 + 16 + 2)) 0); [lia|]. destruct (Z.ltb_spec 0xffff (n - (16 + 2 + 16 + 2))); [lia|]. cbn [orb].
    apply ends_read_bind; [unfold len in *; lia|]. apply ends_ret.
Qed.

(** Packets written one after the other are read one after the other, each with its address. *)
Lemma trusttunnel_packets client l r : Forall (fun x => in_u16 (sa_port x.1) /\ len x.2 <= 0xffff) l ->
  ends (readFrames (negb client) (length l)) (concat ((fun x => writeFrame client x.1 x.2) <$> l) ++ r) (Ok ((fun x => mkFrame x.2 (heard x.1)) <$> l)) r [].
Proof.
  induction 1 as [|[a p] l [Hp Hl] _ IH]; [apply ends_ret|]. cbn [length readFrames fmap list_fmap concat fst snd]. rewrite <-app_assoc.
  eapply (ends_bind _ _ _ _ _ []); [by apply readFrame_write|]. eapply (ends_bind _ _ _ _ _ []); [exact IH|]. apply ends_ret.
Qed.

(** What a reader gets fits its buffer, and comes in the order of the frames. *)
Lemma ReadPacket_fits room q f q' : ReadPacket room q = Some (f, q') -> len (f_data f) <= room /\ exists skipped, q = skipped ++ f :: q' /\ Forall (fun x => room < len (f_data x)) skipped.
Proof.
  induction q as [|x q IH]; [done|]. cbn [ReadPacket]. destruct (Z.ltb_spec room (len (f_data x))) as [Hlt|Hge].
  - intros (Hf & sk & -> & Hs)%IH. split; [done|]. exists (x :: sk). split; [done|by constructor].
  - intros [= <- <-]. split; [done|]. by exists [].
Qed.

(** A packet of the client to a name: the frame has an address the name has, and the same one
    for the next packet. *)
Lemma WritePacket_stable look m p q a w m1 : IsFqdn a = true -> WritePacket look true m p a = (Ok w, m1) ->
  exists b, IsFqdn b = false /\ sa_port b = sa_port a /\ w = writeFrame true b p /\ WritePacket look true m1 q a = (Ok (writeFrame true b q), m1).
Proof.
  intros Hf. unfold WritePacket. destruct (Resolve look m a) as [[b|e] m'] eqn:E; [|done]. intros [= <- <-]. destruct (Resolve_ip look m a b m' E) as [H1 H2].
  exists b. split_and!; [done|done|done|]. by rewrite (Resolve_stable look m a b m' E Hf).
Qed.
End TrustTunnel.
