(* ===== verification/TlsMirror.v ===== *)
(** * tlsmirror ([transport/tlsmirror])

    A tunnel hidden in a real TLS session. A mirror stands between the client and the server of
    the session and copies their records; the hidden connection adds records of its own to
    one direction ([recordWriter]) and takes those of the other end out of the other
    ([handleInboundRecord]), recognising them by whether they open under its key. The ciphers
    and HKDF are the standard library's and a class here. Each direction of a mirror has one
    queue, in the order in which its worker and the hidden connection put records into it;
    closing, deadlines and the bounds of the channels only decide how long that order gets. *)
From S2P Require Import Prelude GoStd KcpSegment KcpSegmentSpec StreamLayer.
From Stdlib Require Import Init.Byte.

(** ** Records ([record.go]) *)

Definition recordTypeChangeCipherSpec : byte := x14.
Definition recordTypeAlert : byte := x15.
Definition recordTypeHandshake : byte := x16.
Definition recordTypeApplicationData : byte := x17.
Definition maxTLSRecordPayload : Z := 16384.

Record record := mkRec { recordType : byte; version : byte * byte; fragment : bytes; inserted : bool }.

Definition is_type (r : record) (t : byte) : bool := bool_decide (recordType r = t).

(** A record with the bytes it was read from, or the bytes read before the error. *)
Inductive readRes := Got (rec : record) (raw : bytes) | Broken (raw : bytes).

Definition readRecord (data : bytes) : readRes * bytes :=
  match read_full data 5 with
  | (header, Some _, data) => (Broken header, data)
  | (header, None, data) =>
      let length := be_dec (drop 3 header) in
      if maxTLSRecordPayload <? length then (Broken header, data)
      else match read_full data (Z.to_nat length) with
           | (fragment, Some _, data) => (Broken (header ++ fragment), data)
           | (fragment, None, data) => (Got (mkRec (nth 0 header x00) (nth 1 header x00, nth 2 header x00) fragment false) (header ++ fragment), data)
           end
  end.

(** What is flushed to the connection, [None] for an error. *)
Definition writeRecord (rec : record) : option bytes :=
  if maxTLSRecordPayload <? len (fragment rec) then None
  else Some ([recordType rec; (version rec).1; (version rec).2] ++ be_enc 2 (len (fragment rec)) ++ fragment rec).

Definition parseClientRandom (fragment : bytes) : option bytes :=
  if (len fragment <? 38) || negb (bool_decide (nth 0 fragment x00 = x01)) then None else Some (take 32 (drop 6 fragment)).

Definition hasZeroExplicitNonce (fragment : bytes) : bool :=
  if len fragment <? 8 then false else forallb (fun b => bool_decide (b = x00)) (take 8 fragment).

Definition parseServerHello (fragment : bytes) : option (bytes * Z) :=
  if (len fragment <? 41) || negb (bool_decide (nth 0 fragment x00 = x02)) then None
  else
    let cipherSuiteOffset := (39 + Z.to_nat (b2z (nth 38 fragment x00)))%nat in
    if len fragment <? Z.of_nat cipherSuiteOffset + 2 then None
    else Some (take 32 (drop 6 fragment), be_dec (take 2 (drop cipherSuiteOffset fragment))).

Inductive peeked := Peeked (rec : record) (processed : nat) | NeedMore (n : nat) | NotTLS.

Definition peekFirstHandshakeRecord (buffer : bytes) : peeked :=
  if (length buffer <? 5)%nat then NeedMore 5
  else if negb (bool_decide (nth 0 buffer x00 = recordTypeHandshake)) then NotTLS
  else
    let v := nth 1 buffer x00 in
    if negb (bool_decide (v = x01) || bool_decide (v = x02) || bool_decide (v = x03) && (b2z (nth 2 buffer x00) <=? 3)) then NotTLS
    else
      let length := Z.lor (Z.shiftl (b2z (nth 3 buffer x00)) 8) (b2z (nth 4 buffer x00)) in
      if maxTLSRecordPayload <? length then NotTLS
      else
        let processed := (5 + Z.to_nat length)%nat in
        if (List.length buffer <? processed)%nat then NeedMore processed
        else Peeked (mkRec (nth 0 buffer x00) (nth 1 buffer x00, nth 2 buffer x00) (take (Z.to_nat length) (drop 5 buffer)) false) processed.

(** ** Keys ([crypto.go]) *)

Class Crypto := {
  hkdf_Expand : bytes -> bytes -> nat -> bytes;  (** the first bytes for a secret and an info *)
  gcm_Seal : bytes -> bytes -> bytes -> bytes;  (** AES-GCM of a key, a nonce and a text, without additional data *)
  gcm_Open : bytes -> bytes -> bytes -> option bytes;
  chacha20 : bytes -> bytes -> nat -> byte;  (** the key stream of a key and a nonce *)
}.

(** What a key seals, it opens again; the tag has 16 bytes. *)
Class CryptoLaws `{Crypto} := {
  length_Expand : forall s i n, length (hkdf_Expand s i n) = n;
  gcm_open_seal : forall k n p, gcm_Open k n (gcm_Seal k n p) = Some p;
  length_Seal : forall k n p, length (gcm_Seal k n p) = (length p + 16)%nat;
}.

Section tlsmirror.
Context `{Cr : Crypto}.

Record xorNonceAEAD := mkAEAD { nonceMask : bytes; a_key : bytes }.

Definition newXORNonceAEAD (key nonceMask : bytes) : option xorNonceAEAD :=
  if negb (length nonceMask =? 12)%nat then None
  else if negb (bool_decide (length key ∈ [16; 24; 32]%nat)) then None
  else Some (mkAEAD nonceMask key).

Definition masked (a : xorNonceAEAD) (nonce : bytes) : bytes := take 4 (nonceMask a) ++ zip_with lxor_byte (drop 4 (nonceMask a)) nonce.
Definition aead_Seal (a : xorNonceAEAD) (dst nonce plaintext : bytes) : bytes := dst ++ gcm_Seal (a_key a) (masked a nonce) plaintext.
Definition aead_Open (a : xorNonceAEAD) (nonce ciphertext : bytes) : option bytes := gcm_Open (a_key a) (masked a nonce) ciphertext.
Definition aead_NonceSize : Z := 8.
Definition aead_Overhead : Z := 16.

Definition deriveEncryptionKey (primaryKey clientRandom serverRandom tag : bytes) : option (bytes * bytes) :=
  if negb (length primaryKey =? 32)%nat then None
  else
    let combined := primaryKey ++ clientRandom ++ serverRandom in
    Some (hkdf_Expand combined (bs "v2ray-sp76YMKM-EkGrFUNL-rTJRJMkU:tlsmirror-encryption" ++ tag) 16,
          hkdf_Expand combined (bs "v2ray-sp76YMKM-EkGrFUNL-rTJRJMkU:tlsmirror-noncemask" ++ tag) 12).

Definition deriveSequenceWatermarkingKey (primaryKey clientRandom serverRandom tag : bytes) : option (bytes * bytes) :=
  if negb (length primaryKey =? 32)%nat then None
  else
    let combined := primaryKey ++ clientRandom ++ serverRandom in
    Some (hkdf_Expand combined (bs "v2ray-xv64FXUU-GxMn8UYz-bTy6UDeE:tlsmirror-sequence-watermark-encryption" ++ tag) 32,
          hkdf_Expand combined (bs "v2ray-xv64FXUU-GxMn8UYz-bTy6UDeE:tlsmirror-sequence-watermark-noncemask" ++ tag) 24).

(** A [cipher.Stream]: its key, nonce and position. *)
Record Stream := mkStream { st_key : bytes; st_nonce : bytes; st_pos : nat }.
Definition XORKeyStream (s : Stream) (p : bytes) : bytes * Stream :=
  (imap (fun i b => lxor_byte b (chacha20 (st_key s) (st_nonce s) (st_pos s + i))) p, mkStream (st_key s) (st_nonce s) (st_pos s + length p)).

Definition newSequenceWatermark (primaryKey clientRandom serverRandom tag : bytes) : option Stream :=
  '(key, nonce) ← deriveSequenceWatermarkingKey primaryKey clientRandom serverRandom tag; Some (mkStream key nonce 0).

(** The loop of the counters: the first byte that does not become zero ends it. *)
Fixpoint carry (l : bytes) : bytes :=
  match l with
  | [] => []
  | b :: l => let b := z2b (b2z b + 1) in if bool_decide (b = x00) then b :: carry l else b :: l
  end.

Definition newNonceGenerator : bytes := replicate 8 xff.
Definition nonce_Next (g : bytes) : bytes := carry g.
Definition explicit_Next (g : bytes) : bytes := rev (carry (rev g)).

Record encryptor := mkEnc { e_nonce : bytes; e_aead : xorNonceAEAD }.
Definition newEncryptor (key mask : bytes) : option encryptor := aead ← newXORNonceAEAD key mask; Some (mkEnc newNonceGenerator aead).
Definition Seal (e : encryptor) (dst src : bytes) : bytes * encryptor :=
  let n := nonce_Next (e_nonce e) in (aead_Seal (e_aead e) dst n src, mkEnc n (e_aead e)).

Record decryptor := mkDec { d_nonce : bytes; d_aead : xorNonceAEAD; nextNonce : option bytes }.
Definition newDecryptor (key mask : bytes) : option decryptor := aead ← newXORNonceAEAD key mask; Some (mkDec newNonceGenerator aead None).
Definition Open (d : decryptor) (src : bytes) : option bytes * decryptor :=
  let '(g, n) := match nextNonce d with None => (nonce_Next (d_nonce d), nonce_Next (d_nonce d)) | Some n => (d_nonce d, n) end in
  match aead_Open (d_aead d) n src with
  | None => (None, mkDec g (d_aead d) (Some n))
  | Some out => (Some out, mkDec g (d_aead d) None)
  end.

(** ** Padding ([padding.go]) *)

Definition packPadding (data : bytes) (paddingLength : nat) : bytes := data ++ replicate paddingLength x00 ++ be_enc 4 (w32 (len data)).

Definition unpackPadding (data : bytes) : option bytes :=
  if len data <? 4 then None
  else
    let payloadLength := be_dec (drop (length data - 4) data) in
    if len data - 4 <? payloadLength then None else Some (take (Z.to_nat payloadLength) data).

(** ** The hidden connection ([conn.go]) *)

(** What the mirror knows of the session: the randoms of the two hellos, whether the server's has
    been seen, and whether its cipher suite puts an explicit nonce before every record. *)
Record session := mkSession { clientRandom : option bytes; serverRandom : option bytes; explicitReady : bool; tls12Explicit : bool }.

Definition handshakeRandom (m : session) : option (bytes * bytes) := c ← clientRandom m; s ← serverRandom m; Some (c, s).

(** It waits for the server's hello; every caller has the randoms, which are set just before. *)
Definition explicitNonceOverhead (m : session) : nat := if explicitReady m && tls12Explicit m then 8 else 0.

Record Conn := mkConn {
  primaryKey : bytes; isServer : bool; f_padding : bool; f_watermark : bool;
  c_encryptor : option encryptor; c_decryptor : option decryptor; protocolVersion : byte * byte;
  watermarkTx : option Stream; watermarkRx : option Stream;
  readCh : list bytes; readBuffer : option bytes }.

Definition newHiddenConn (primaryKey : bytes) (isServer padding watermark : bool) : Conn :=
  mkConn primaryKey isServer padding watermark None None (x00, x00) None None [] None.

Definition set_crypto (c : Conn) (e : option encryptor) (d : option decryptor) (v : byte * byte) : Conn :=
  mkConn (primaryKey c) (isServer c) (f_padding c) (f_watermark c) e d v (watermarkTx c) (watermarkRx c) (readCh c) (readBuffer c).
Definition set_watermarks (c : Conn) (tx rx : option Stream) : Conn :=
  mkConn (primaryKey c) (isServer c) (f_padding c) (f_watermark c) (c_encryptor c) (c_decryptor c) (protocolVersion c) tx rx (readCh c) (readBuffer c).
Definition set_read (c : Conn) (ch : list bytes) (b : option bytes) : Conn :=
  mkConn (primaryKey c) (isServer c) (f_padding c) (f_watermark c) (c_encryptor c) (c_decryptor c) (protocolVersion c) (watermarkTx c) (watermarkRx c) ch b.

Definition tag_c2s : bytes := bs ":c2s".
Definition tag_s2c : bytes := bs ":s2c".
Definition tag_of (server : bool) : bytes := if server then tag_s2c else tag_c2s.

(** The connection with its keys, if they can be had, and whether they can. *)
Definition ensureCryptoLocked (m : session) (c : Conn) (v : byte * byte) : Conn * bool :=
  match c_encryptor c, c_decryptor c with
  | Some _, Some _ => (c, true)
  | _, _ =>
      match handshakeRandom m with
      | None => (c, false)
      | Some (cr, sr) =>
          match deriveEncryptionKey (primaryKey c) cr sr (tag_of (isServer c)), deriveEncryptionKey (primaryKey c) cr sr (tag_of (negb (isServer c))) with
          | Some (encKey, encMask), Some (decKey, decMask) =>
              match newEncryptor encKey encMask, newDecryptor decKey decMask with
              | Some e, Some d => (set_crypto c (Some e) (Some d) (if bool_decide (v = (x00, x00)) then (x03, x03) else v), true)
              | e, d => (set_crypto c e (if e then d else c_decryptor c) (protocolVersion c), false)
              end
          | _, _ => (c, false)
          end
      end
  end.

(** What a hook did with a record, which it may have changed: let it pass, taken it out, or
    failed, which only the end of the connection can make it. *)
Inductive hookRes := Pass | Drop | HookErr.

Definition marked_type (r : record) : bool := is_type r recordTypeApplicationData || is_type r recordTypeAlert.

(** The last 16 bytes of a record's fragment through a key stream. *)
Definition mark (s : Stream) (r : record) : record * Stream :=
  let i := (length (fragment r) - 16)%nat in
  let '(region, s) := XORKeyStream s (drop i (fragment r)) in
  (mkRec (recordType r) (version r) (take i (fragment r) ++ region) (inserted r), s).

Definition applySequenceWatermarkRx (c : Conn) (rec : record) : Conn * record :=
  match watermarkRx c with
  | Some s =>
      if negb (f_watermark c) || negb (marked_type rec) || (len (fragment rec) <? 16) then (c, rec)
      else let '(rec, s) := mark s rec in (set_watermarks c (watermarkTx c) (Some s), rec)
  | None => (c, rec)
  end.

Definition initSequenceWatermarkTx (m : session) (c : Conn) : Conn * bool :=
  match handshakeRandom m with
  | None => (c, false)
  | Some (cr, sr) =>
      match newSequenceWatermark (primaryKey c) cr sr (tag_of (isServer c)) with
      | Some s => (set_watermarks c (Some s) (watermarkRx c), true)
      | None => (set_watermarks c None (watermarkRx c), false)
      end
  end.

Definition initSequenceWatermarkRx (m : session) (c : Conn) : Conn :=
  if negb (f_watermark c) || (if watermarkRx c then true else false) then c
  else match handshakeRandom m with
       | None => c
       | Some (cr, sr) => set_watermarks c (watermarkTx c) (newSequenceWatermark (primaryKey c) cr sr (tag_of (negb (isServer c))))
       end.

Definition handleInboundRecord (m : session) (c : Conn) (rec : record) : Conn * record * hookRes :=
  let '(c, rec) := applySequenceWatermarkRx c rec in
  if negb (is_type rec recordTypeApplicationData) then (c, rec, Pass)
  else
    let '(c, ok) := ensureCryptoLocked m c (version rec) in
    match ok, c_decryptor c with
    | true, Some dec =>
        let overhead := explicitNonceOverhead m in
        if len (fragment rec) <? Z.of_nat overhead + aead_NonceSize then (c, rec, Pass)
        else
          let '(payload, dec) := Open dec (drop overhead (fragment rec)) in
          let c := set_crypto c (c_encryptor c) (Some dec) (protocolVersion c) in
          match payload with
          | None => (c, rec, Pass)
          | Some payload =>
              let c := initSequenceWatermarkRx m c in
              match (if f_padding c then unpackPadding payload else Some payload) with
              | None => (c, rec, Drop)
              | Some payload => (set_read c (readCh c ++ [payload]) (readBuffer c), rec, Drop)
              end
          end
    | _, _ => (c, rec, Pass)
    end.

Definition handleOutboundRecordTx (m : session) (c : Conn) (rec : record) : Conn * record * hookRes :=
  if negb (f_watermark c) then (c, rec, Pass)
  else
    match watermarkTx c with
    | Some s =>
        if marked_type rec && (16 <=? len (fragment rec)) then let '(rec, s) := mark s rec in (set_watermarks c (Some s) (watermarkRx c), rec, Pass)
        else (c, rec, Pass)
    | None =>
        if inserted rec then let '(c, ok) := initSequenceWatermarkTx m c in (c, rec, if ok then Pass else Drop)
        else (c, rec, Pass)
    end.

(** [None] when there is nothing to read, and it waits. *)
Fixpoint read_loop (ch : list bytes) (buf : option bytes) (n : nat) : option (bytes * list bytes * option bytes) :=
  let next :=
    match ch with
    | [] => None
    | data :: ch => read_loop ch (Some data) n
    end in
  match buf with
  | Some b => if (0 <? Nat.min n (length b))%nat then Some (take n b, ch, Some (drop n b)) else next
  | None => next
  end.

Definition Conn_Read (c : Conn) (n : nat) : option (bytes * Conn) :=
  '(x, ch, buf) ← read_loop (readCh c) (readBuffer c) n; Some (x, set_read c ch buf).

Inductive writeErr := ErrDeadlineExceeded | errNotReady | errOverhead.

Section write.
Context (overhead : nat) (maxPlaintext : nat).

(** The loop of [Write]: for each piece whether it is queued before the deadline. *)
Fixpoint Write_loop (fuel : nat) (c : Conn) (e : encryptor) (b : bytes) (written : Z) (queued : list bool) : list record * encryptor * Z * option writeErr :=
  match fuel, b with
  | S fuel, _ :: _ =>
      let plain := take maxPlaintext b in
      let text := if f_padding c then packPadding plain 0 else plain in
      let '(fragment, e) := Seal e (replicate overhead x00) text in
      let rec := mkRec recordTypeApplicationData (protocolVersion c) fragment true in
      match queued with
      | true :: queued =>
          let '(recs, e, w, err) := Write_loop fuel c e (drop maxPlaintext b) (written + len plain) queued in (rec :: recs, e, w, err)
      | _ => ([], e, written, Some ErrDeadlineExceeded)
      end
  | _, _ => ([], e, written, None)
  end.
End write.

(** [ready]: whether the session has got far enough before the deadline. The records queued,
    the number of bytes reported written, the error. *)
Definition Conn_Write (m : session) (ready : bool) (c : Conn) (b : bytes) (queued : list bool) : Conn * list record * Z * option writeErr :=
  if negb ready then (c, [], 0, Some ErrDeadlineExceeded)
  else
    let '(c, ok) := ensureCryptoLocked m c (protocolVersion c) in
    match ok, c_encryptor c with
    | true, Some e =>
        let overhead := explicitNonceOverhead m in
        let maxPlaintext := maxTLSRecordPayload - Z.of_nat overhead - aead_Overhead - (if f_padding c then 4 else 0) in
        if maxPlaintext <=? 0 then (c, [], 0, Some errOverhead)
        else
          let '(recs, e, w, err) := Write_loop overhead (Z.to_nat maxPlaintext) (length b) c e b 0 queued in
          (set_crypto c (Some e) (c_decryptor c) (protocolVersion c), recs, w, err)
    | _, _ => (c, [], 0, Some errNotReady)
    end.

(** ** The mirror ([mirror.go]) *)

Record writeTask := mkTask { t_rec : option record; t_raw : bytes; t_fallback : option bytes }.
Definition task_of (r : record) : writeTask := mkTask (Some r) [] None.
Definition fallbackQueuedCopy (first : option record) (raw src : bytes) : writeTask := mkTask first raw (Some src).

Section worker.
(** The hook of the direction, which may be absent; whether the server's hello has been seen,
    by how much is still to come. *)
Context {S : Type} (hook : option (S -> record -> S * record * hookRes)) (seen : bytes -> bool) (tls12 c2s : bool).

Definition call_hook (s : S) (rec : record) : S * record * hookRes := match hook with Some h => h s rec | None => (s, rec, Pass) end.

(** The loop of [c2sWorker] and [s2cWorker], which differ in one test: the tasks queued, and
    whether the direction became ready. *)
Fixpoint worker_loop (fuel : nat) (s : S) (ccsWasLast ready : bool) (data : bytes) : list writeTask * S * bool :=
  match fuel with
  | O => ([], s, ready)
  | Datatypes.S fuel =>
      match readRecord data with
      | (Broken raw, rest) => ([fallbackQueuedCopy None raw rest], s, ready)
      | (Got rec _, rest) =>
          if is_type rec recordTypeHandshake && ccsWasLast && negb (hasZeroExplicitNonce (fragment rec)) then ([fallbackQueuedCopy (Some rec) [] rest], s, ready)
          else if c2s && is_type rec recordTypeChangeCipherSpec && negb (seen data) then ([fallbackQueuedCopy (Some rec) [] rest], s, ready)
          else
            match call_hook s rec with
            | (s, rec, HookErr) => ([fallbackQueuedCopy (Some rec) [] rest], s, ready)
            | (s, rec, Drop) => worker_loop fuel s ccsWasLast ready rest
            | (s, rec, Pass) =>
                let '(ts, s, ready) :=
                  if is_type rec recordTypeChangeCipherSpec && tls12 then worker_loop fuel s true ready rest
                  else worker_loop fuel s false (ready || is_type rec recordTypeApplicationData || is_type rec recordTypeHandshake && ccsWasLast) rest in
                (task_of rec :: ts, s, ready)
            end
      end
  end.
End worker.

(** The explicit nonces a mirror writes into its own records. *)
Record nonces := mkNonces { c2sExplicitNonce : bytes; s2cExplicitNonce : bytes }.
Definition newNonces : nonces := mkNonces (replicate 8 x00) (replicate 8 x00).

Definition fillExplicitNonce (m : session) (g : nonces) (rec : record) (c2s : bool) : record * nonces :=
  if negb (inserted rec) || (len (fragment rec) <? 8) then (rec, g)
  else if negb (explicitReady m) then (rec, g)
  else if negb (tls12Explicit m) then (rec, g)
  else if negb (marked_type rec) then (rec, g)
  else
    let n2 := explicit_Next (s2cExplicitNonce g) in
    let g := mkNonces (c2sExplicitNonce g) n2 in
    let '(n, g) := if c2s then (explicit_Next (c2sExplicitNonce g), mkNonces (explicit_Next (c2sExplicitNonce g)) (s2cExplicitNonce g)) else (n2, g) in
    (mkRec (recordType rec) (version rec) (n ++ drop 8 (fragment rec)) (inserted rec), g).

Section writer.
Context {S : Type} (m : session) (hook : option (S -> record -> S * record * hookRes)) (c2s : bool).

(** The part of a task that is not a record: the bytes to copy, and whether it ends the
    mirror. *)
Definition rest_of (t : writeTask) : bytes * bool :=
  match t_fallback t with Some src => (t_raw t ++ src, true) | None => (t_raw t, false) end.

(** The loop of [recordWriter] over the queue: what it writes, and whether it ended the mirror. *)
Fixpoint recordWriter (g : nonces) (s : S) (tasks : list writeTask) : bytes * S * bool :=
  match tasks with
  | [] => ([], s, false)
  | t :: tasks =>
      let finish (out : bytes) g s :=
        let '(x, stop) := rest_of t in
        if stop then (out ++ x, s, true) else let '(y, s, stop) := recordWriter g s tasks in (out ++ x ++ y, s, stop) in
      match t_rec t with
      | None => finish [] g s
      | Some rec =>
          let '(rec, g) := fillExplicitNonce m g rec c2s in
          match call_hook hook s rec with
          | (s, _, HookErr) => ([], s, true)
          | (s, _, Drop) => recordWriter g s tasks
          | (s, rec, Pass) =>
              match writeRecord rec with
              | None => ([], s, true)
              | Some out => if is_type rec recordTypeAlert then (out, s, true) else finish out g s
              end
          end
      end
  end.
End writer.

(** *** The first record *)

Inductive captured := Captured (rec : record) (raw rest : bytes) | CopiedAll | ReadFailed.

Section capture.
Context (cut : bytes -> nat -> nat).

(** [buffer]: what was read and already copied. What is written to the other side now, and how
    it ends; the rest of a stream that is not TLS is copied. *)
Fixpoint capture_loop (fuel : nat) (buffer data : bytes) : bytes * captured :=
  match fuel with
  | O => ([], ReadFailed)
  | S fuel =>
      match stream_read cut data (Z.to_nat 65536 - length buffer) with
      | (_, Some _, _) => ([], ReadFailed)
      | (x, None, data) =>
          match peekFirstHandshakeRecord (buffer ++ x) with
          | NotTLS => ((buffer ++ x) ++ data, CopiedAll)
          | NeedMore _ => let '(out, r) := capture_loop fuel (buffer ++ x) data in (x ++ out, r)
          | Peeked rec processed => ([], Captured rec (drop (length buffer) (take processed (buffer ++ x))) (drop processed (buffer ++ x) ++ data))
          end
      end
  end.
Definition captureFirstHandshakeRecord (data : bytes) : bytes * captured := capture_loop (S (length data)) [] data.
End capture.

(** What a worker did: written to the other side directly, whether it ended the mirror, what it
    learned of the hello, and its queue. *)
Record workerRun {A S : Type} := mkRun { w_direct : bytes; w_cancel : bool; w_hello : option A; w_tasks : list writeTask; w_state : S; w_ready : bool }.
Arguments workerRun : clear implicits.
Arguments mkRun {A S} _ _ _ _ _ _.

Section workers.
Context (cut : bytes -> nat -> nat) {S : Type} (hook : option (S -> record -> S * record * hookRes)).

Definition c2sWorker (seen : bytes -> bool) (tls12 : bool) (s : S) (data : bytes) : workerRun bytes S :=
  match captureFirstHandshakeRecord cut data with
  | (out, Captured first raw rest) =>
      match parseClientRandom (fragment first) with
      | None => mkRun (out ++ raw ++ rest) true None [] s false
      | Some r =>
          let '(ts, s, ready) := worker_loop hook seen tls12 true (Datatypes.S (length rest)) s false false rest in
          mkRun (out ++ raw) false (Some r) ts s ready
      end
  | (out, _) => mkRun out true None [] s false
  end.

Definition s2cWorker (suites : list Z) (s : S) (data : bytes) : workerRun (bytes * bool) S :=
  match captureFirstHandshakeRecord cut data with
  | (out, Captured first raw rest) =>
      match parseServerHello (fragment first) with
      | None => mkRun (out ++ raw ++ rest) true None [] s false
      | Some (r, suite) =>
          let tls12 := bool_decide (suite ∈ suites) in
          match call_hook hook s first with
          | (s, _, HookErr) => mkRun (out ++ raw ++ rest) true (Some (r, tls12)) [] s false
          | (s, _, _) =>
              let '(ts, s, ready) := worker_loop hook (fun _ => true) tls12 false (Datatypes.S (length rest)) s false false rest in
              mkRun (out ++ raw) false (Some (r, tls12)) ts s ready
          end
      end
  | (out, _) => mkRun out true None [] s false
  end.
End workers.

(** ** Records *)

Definition as_read (r : record) : record := mkRec (recordType r) (version r) (fragment r) false.

Lemma readRecord_broken d raw rest : readRecord d = (Broken raw, rest) -> d = raw ++ rest.
Proof.
  unfold readRecord. destruct (Nat.le_gt_cases 5 (length d)) as [Hl|Hl].
  - destruct (read_full_split d 5 Hl) as (h & r & -> & -> & _). destruct (maxTLSRecordPayload <? _); [by intros [= <- <-]|].
    set (n := Z.to_nat _). destruct (Nat.le_gt_cases n (length r)) as [Hn|Hn].
    + destruct (read_full_split r n Hn) as (f & r' & -> & -> & _). done.
    + destruct (read_full_short r n Hn) as [e ->]. intros [= <- <-]. by rewrite app_nil_r.
  - destruct (read_full_short d 5 Hl) as [e ->]. intros [= <- <-]. by rewrite app_nil_r.
Qed.

Lemma header_split (h : bytes) : length h = 5%nat -> exists t v1 v2 l, h = [t; v1; v2] ++ l /\ length l = 2%nat.
Proof. intros Hh. destruct h as [|t [|v1 [|v2 l]]]; try done. exists t, v1, v2, l. split; [done|]. cbn in Hh. lia. Qed.

Lemma readRecord_got d r raw rest : readRecord d = (Got r raw, rest) -> d = raw ++ rest /\ writeRecord r = Some raw /\ as_read r = r /\ (5 <= length raw)%nat.
Proof.
  unfold readRecord. destruct (Nat.le_gt_cases 5 (length d)) as [Hl|Hl]; [|destruct (read_full_short d 5 Hl) as [e ->]; done].
  destruct (read_full_split d 5 Hl) as (h & x & -> & -> & Hh). destruct (header_split h Hh) as (t & v1 & v2 & l & -> & Hl2). change (drop 3 ([t; v1; v2] ++ l)) with l.
  destruct (maxTLSRecordPayload <? be_dec l) eqn:Em; [done|]. destruct (Nat.le_gt_cases (Z.to_nat (be_dec l)) (length x)) as [Hn|Hn]; [|destruct (read_full_short x _ Hn) as [e ->]; done].
  destruct (read_full_split x _ Hn) as (f & r' & -> & -> & Hf). intros [= <- <- <-]. pose proof (be_dec_range l) as Hr. unfold len in Hr.
  assert (len f = be_dec l) as Ef by (unfold len; lia). split_and!; [by cbn; rewrite <-?app_assoc| |done|cbn [app length]; rewrite ?length_app; lia]. unfold writeRecord. cbn [fragment recordType version fst snd nth].
  rewrite Ef, Em. do 2 f_equal. rewrite <-Hl2, be_enc_dec. done.
Qed.

Lemma writeRecord_some r x : writeRecord r = Some x -> len (fragment r) <= maxTLSRecordPayload /\ x = [recordType r; (version r).1; (version r).2] ++ be_enc 2 (len (fragment r)) ++ fragment r.
Proof. unfold writeRecord. destruct (Z.ltb_spec maxTLSRecordPayload (len (fragment r))); [done|]. intros E. split; [done|]. congruence. Qed.

Lemma readRecord_write r x rest : writeRecord r = Some x -> readRecord (x ++ rest) = (Got (as_read r) x, rest).
Proof.
  intros [Hl ->]%writeRecord_some. unfold readRecord. set (n := len (fragment r)) in *. assert (0 <= n) by apply len_nonneg. unfold maxTLSRecordPayload in *.
  assert (be_dec (be_enc 2 n) = n) as En by (apply be_dec_enc_small; lia).
  rewrite app_assoc, <-app_assoc. rewrite read_full_app by (rewrite length_app, length_be_enc; done).
  change (drop 3 ([recordType r; (version r).1; (version r).2] ++ be_enc 2 n)) with (be_enc 2 n). rewrite En. destruct (Z.ltb_spec 16384 n); [lia|].
  rewrite read_full_app by (unfold n, len; lia). rewrite <-app_assoc. unfold as_read. destruct r as [t [v1 v2] f i]. done.
Qed.

(** ** Counters and keys *)

Lemma length_carry l : length (carry l) = length l.
Proof. induction l as [|b l IH]; [done|]. cbn [carry]. destruct (bool_decide _); cbn [length]; by rewrite ?IH. Qed.

(** A counter as a number, the first byte least. *)
Definition counter (l : bytes) : Z := be_dec (rev l).

Lemma counter_cons b l : counter (b :: l) = b2z b + 256 * counter l.
Proof. unfold counter. cbn [rev]. rewrite be_dec_snoc. lia. Qed.

Lemma counter_range l : 0 <= counter l < 256 ^ len l.
Proof. unfold counter, len. rewrite <-(length_rev l). apply be_dec_range. Qed.

Lemma carry_counter l : counter (carry l) = (counter l + 1) mod 256 ^ len l.
Proof.
  induction l as [|b l IH]; [done|]. cbn [carry]. unfold len in *. cbn [length]. rewrite Nat2Z.inj_succ, Z.pow_succ_r by lia.
  pose proof (counter_range l) as Hc. pose proof (b2z_range b) as Hb. unfold len in Hc. set (M := 256 ^ Z.of_nat (length l)) in *.
  destruct (decide (b2z b = 255)) as [E|E].
  - rewrite bool_decide_eq_true_2 by (by rewrite E). rewrite !counter_cons, IH, E. rewrite b2z_z2b. change (w8 (255 + 1)) with 0.
    replace (255 + 256 * counter l + 1) with (256 * (counter l + 1)) by lia. rewrite Z.mul_mod_distr_l by lia. lia.
  - assert (b2z (z2b (b2z b + 1)) = b2z b + 1) as Eb by (apply b2z_z2b_small; lia).
    rewrite bool_decide_eq_false_2 by (intros Ez; rewrite Ez in Eb; change (b2z x00) with 0 in Eb; lia). rewrite !counter_cons, Eb. rewrite Z.mod_small; lia.
Qed.

(** The nonces of the first 2^64 records are the numbers from zero, all different. *)
Lemma nonces_count k : (Z.of_nat k < 2 ^ 64) -> counter (Nat.iter (S k) nonce_Next newNonceGenerator) = Z.of_nat k.
Proof.
  assert (forall j, length (Nat.iter j nonce_Next newNonceGenerator) = 8%nat) as Hl by (induction j as [|j IH]; [done|]; rewrite Nat.iter_succ; unfold nonce_Next at 1; by rewrite length_carry).
  induction k as [|k IH]; intros Hk; [vm_compute; reflexivity|]. rewrite Nat.iter_succ. unfold nonce_Next at 1. rewrite carry_counter, IH by lia. unfold len. rewrite Hl.
  change (256 ^ Z.of_nat 8) with (2 ^ 64). rewrite Z.mod_small; lia.
Qed.

Lemma nonces_distinct i j : (i < j)%nat -> Z.of_nat j < 2 ^ 64 -> Nat.iter (S i) nonce_Next newNonceGenerator <> Nat.iter (S j) nonce_Next newNonceGenerator.
Proof. intros Hij Hj E. apply (f_equal counter) in E. rewrite !nonces_count in E by lia. lia. Qed.

(** ** Padding *)

Lemma unpack_pack d n : len d < 2 ^ 32 -> unpackPadding (packPadding d n) = Some d.
Proof.
  intros Hd. unfold unpackPadding, packPadding. set (t := replicate n x00). assert (0 <= len d) by apply len_nonneg. unfold w32. rewrite Z.mod_small by lia.
  rewrite !len_app, len_be_enc. assert (0 <= len t) by apply len_nonneg. destruct (Z.ltb_spec (len d + (len t + Z.of_nat 4)) 4); [lia|].
  rewrite app_assoc, length_app, length_be_enc, drop_app_length' by lia. rewrite be_dec_enc_small by lia.
  destruct (Z.ltb_spec (len d + (len t + Z.of_nat 4) - 4) (len d)); [lia|]. unfold len. rewrite Nat2Z.id, <-app_assoc. by rewrite take_app_length.
Qed.

(** ** The watermark *)

Lemma watermark_twice s p : (XORKeyStream s (XORKeyStream s p).1).1 = p.
Proof. cbn. apply list_eq. intros i. rewrite !list_lookup_imap. destruct (p !! i); cbn; [|done]. by rewrite lxor_byte_cancel. Qed.

Lemma length_mark s r : length (fragment (mark s r).1) = length (fragment r).
Proof. unfold mark, XORKeyStream. cbn [fst fragment]. rewrite length_app, length_imap, length_take, length_drop. lia. Qed.

Lemma mark_mark s r : mark s (as_read (mark s r).1) = (as_read r, (mark s r).2).
Proof.
  destruct r as [t v f i]. set (k := (length f - 16)%nat). set (X := (XORKeyStream s (drop k f)).1).
  assert (length X = length (drop k f)) as HX by (unfold X; cbn; by rewrite length_imap). assert (length (take k f) = k) as Ht by (rewrite length_take; lia).
  change (mark s (as_read (mkRec t v (take k f ++ X) i)) = (mkRec t v f false, (mark s (mkRec t v f i)).2)). unfold mark at 1. cbn [fragment as_read recordType version inserted].
  assert (length (take k f ++ X) - 16 = k)%nat as Hk by (rewrite length_app, Ht, HX, length_drop; lia). rewrite Hk, drop_app_length', take_app_length' by done.
  pose proof (watermark_twice s (drop k f)) as Hx. fold X in Hx. rewrite (surjective_pairing (XORKeyStream s X)), Hx, take_drop. f_equal.
  unfold mark. cbn [fragment]. fold k. unfold XORKeyStream. cbn [snd]. by rewrite HX.
Qed.

(** ** One direction of a session *)

(** What comes in at a mirror goes into its queue in the order it came, the records of the
    hidden connection anywhere between. *)
Inductive merge : list writeTask -> list record -> list writeTask -> Prop :=
  | merge_nil : merge [] [] []
  | merge_mirrored t ts hs q : merge ts hs q -> merge (t :: ts) hs (t :: q)
  | merge_hidden h ts hs q : merge ts hs q -> merge ts (h :: hs) (task_of h :: q).

Section session.
Context `{Cl : !CryptoLaws} (m : session) (cr sr pk : bytes) (Hm : handshakeRandom m = Some (cr, sr)) (Hpk : length pk = 32%nat).

Definition aead_of (tag : bytes) : xorNonceAEAD :=
  mkAEAD (hkdf_Expand (pk ++ cr ++ sr) (bs "v2ray-sp76YMKM-EkGrFUNL-rTJRJMkU:tlsmirror-noncemask" ++ tag) 12)
    (hkdf_Expand (pk ++ cr ++ sr) (bs "v2ray-sp76YMKM-EkGrFUNL-rTJRJMkU:tlsmirror-encryption" ++ tag) 16).

Lemma derive_ok tag : deriveEncryptionKey pk cr sr tag = Some (a_key (aead_of tag), nonceMask (aead_of tag)).
Proof. unfold deriveEncryptionKey. by rewrite Hpk. Qed.

Lemma newXOR_ok tag : newXORNonceAEAD (a_key (aead_of tag)) (nonceMask (aead_of tag)) = Some (aead_of tag).
Proof.
  unfold newXORNonceAEAD, aead_of. cbn [a_key nonceMask]. rewrite !length_Expand. cbn [Nat.eqb negb]. by rewrite bool_decide_eq_true_2 by set_solver.
Qed.

Lemma ensure_fresh c v : primaryKey c = pk -> c_encryptor c = None -> c_decryptor c = None ->
  exists v', ensureCryptoLocked m c v = (set_crypto c (Some (mkEnc newNonceGenerator (aead_of (tag_of (isServer c))))) (Some (mkDec newNonceGenerator (aead_of (tag_of (negb (isServer c)))) None)) v', true).
Proof.
  intros Ep Ee Ed. unfold ensureCryptoLocked. rewrite Ee, Hm, Ep, !derive_ok. unfold newEncryptor, newDecryptor. rewrite !newXOR_ok. cbn [mbind option_bind]. by eexists.
Qed.

(** The nonce the other end expects is the next of this end. *)
Definition in_step (e : encryptor) (d : decryptor) : Prop :=
  d_aead d = e_aead e /\ (nextNonce d = None /\ d_nonce d = e_nonce e \/ nextNonce d = Some (nonce_Next (e_nonce e)) /\ d_nonce d = nonce_Next (e_nonce e)).

Lemma Open_own e d dst text : in_step e d -> exists d', Open d (drop (length dst) (Seal e dst text).1) = (Some text, d') /\ in_step (Seal e dst text).2 d'.
Proof.
  intros [Ea H]. unfold Seal, aead_Seal. cbn [fst snd]. rewrite drop_app_length. unfold Open, aead_Open. rewrite Ea.
  destruct H as [[-> ->]|[-> ->]]; rewrite gcm_open_seal; eexists; (split; [reflexivity|]); (split; [done|left; done]).
Qed.

Lemma Open_foreign e d src : in_step e d -> (forall n, aead_Open (e_aead e) n src = None) -> exists d', Open d src = (None, d') /\ in_step e d'.
Proof.
  intros [Ea H] Hf. unfold Open. rewrite Ea. destruct H as [[-> ->]|[-> ->]]; rewrite Hf; eexists; (split; [reflexivity|]); (split; [done|right; done]).
Qed.

(** The sender [cs] and the receiver [rc] of one direction agree on the watermark, *)
Record marks_agree (cs rc : Conn) : Prop := {
  p_sender : primaryKey cs = pk;
  p_receiver : primaryKey rc = pk;
  p_server : isServer rc = negb (isServer cs);
  p_padding : f_padding rc = f_padding cs;
  p_watermark : f_watermark rc = f_watermark cs;
  p_marks : f_watermark cs = true -> watermarkTx cs = watermarkRx rc }.

(** and on the keys, of which the receiver may not have derived its own yet. *)
Definition keys_agree (rc : Conn) (e : encryptor) : Prop :=
  e_aead e = aead_of (tag_of (negb (isServer rc))) /\
  ((c_encryptor rc = None /\ c_decryptor rc = None /\ e_nonce e = newNonceGenerator) \/ (exists e' d, c_encryptor rc = Some e' /\ c_decryptor rc = Some d /\ in_step e d)).

Lemma ensure_agrees rc e v : primaryKey rc = pk -> keys_agree rc e -> exists e' d v', ensureCryptoLocked m rc v = (set_crypto rc (Some e') (Some d) v', true) /\ in_step e d.
Proof.
  intros Ep [Ea [(Ee & Ed & En)|(e' & d & Ee & Ed & Hs)]].
  - destruct (ensure_fresh rc v Ep Ee Ed) as [v' E]. rewrite E. do 3 eexists. split; [reflexivity|]. split; [done|left; split; [done|by rewrite En]].
  - exists e', d, (protocolVersion rc). unfold ensureCryptoLocked. rewrite Ee, Ed. split; [|done]. f_equal. destruct rc. cbn in *. by subst.
Qed.

Lemma marks_agree_crypto cs rc e d v : marks_agree cs rc -> marks_agree cs (set_crypto rc e d v).
Proof. intros []. by split. Qed.
Lemma marks_agree_read cs rc ch b : marks_agree cs rc -> marks_agree cs (set_read rc ch b).
Proof. intros []. by split. Qed.
Lemma initRx_crypto c e d v : initSequenceWatermarkRx m (set_crypto c e d v) = set_crypto (initSequenceWatermarkRx m c) e d v.
Proof. unfold initSequenceWatermarkRx. cbn [f_watermark watermarkRx set_crypto]. destruct (negb _ || _); [done|]. by rewrite Hm. Qed.
Lemma initRx_fields c : let c' := initSequenceWatermarkRx m c in readCh c' = readCh c /\ readBuffer c' = readBuffer c /\ f_padding c' = f_padding c /\ isServer c' = isServer c.
Proof. cbn. unfold initSequenceWatermarkRx. destruct (negb _ || _); [done|]. by rewrite Hm. Qed.

Definition same_but_marks (c c' : Conn) : Prop :=
  primaryKey c' = primaryKey c /\ isServer c' = isServer c /\ f_padding c' = f_padding c /\ c_encryptor c' = c_encryptor c /\ c_decryptor c' = c_decryptor c /\ readCh c' = readCh c.

(** What the writer's hook does to a record the reader's undoes, and they still agree, after the
    first hidden record once the reader has set its watermark up too. *)
Lemma marks_cancel cs rc r : marks_agree cs rc -> exists cs' rc' r', handleOutboundRecordTx m cs r = (cs', r', Pass) /\
  recordType r' = recordType r /\ length (fragment r') = length (fragment r) /\ (marked_type r = false -> r' = r) /\
  applySequenceWatermarkRx rc (as_read r') = (rc', as_read r) /\ same_but_marks cs cs' /\ same_but_marks rc rc' /\
  marks_agree cs' (if inserted r then initSequenceWatermarkRx m rc' else rc').
Proof.
  intros H. pose proof H as [H1 H2 H3 H4 H5 H6]. unfold handleOutboundRecordTx, applySequenceWatermarkRx. destruct (f_watermark cs) eqn:Ew; cbn [negb].
  2:{ exists cs, rc, r. rewrite H5. cbn [negb orb]. split_and!; try done; [by destruct (watermarkRx rc)|].
      destruct (inserted r); [|done]. unfold initSequenceWatermarkRx. by rewrite H5. }
  rewrite <-(H6 eq_refl), H5. cbn [negb orb]. destruct (watermarkTx cs) as [s|] eqn:Et.
  - destruct (marked_type r && (16 <=? len (fragment r))) eqn:Em.
    + apply andb_true_iff in Em as [Em1 Em2]. rewrite Em1. apply Z.leb_le in Em2. pose proof (mark_mark s r) as Hmm. pose proof (length_mark s r) as Hl. destruct (mark s r) as [r' s'] eqn:E. cbn [fst snd] in *.
      exists (set_watermarks cs (Some s') (watermarkRx cs)), (set_watermarks rc (watermarkTx rc) (Some s')), r'. assert (recordType r' = recordType r) as Hty by (unfold mark in E; by injection E as <- _).
      split_and!; try done.
      * assert (marked_type (as_read r') = true) as -> by (unfold marked_type, is_type in *; cbn [as_read recordType]; by rewrite Hty).
        change (fragment (as_read r')) with (fragment r'). unfold len in *. rewrite Hl. destruct (Z.ltb_spec (Z.of_nat (length (fragment r))) 16); [lia|]. cbn [negb orb]. by rewrite Hmm.
      * assert (marks_agree (set_watermarks cs (Some s') (watermarkRx cs)) (set_watermarks rc (watermarkTx rc) (Some s'))) as Hma by (split; try done; cbn; by rewrite ?Ew).
        destruct (inserted r); [|done]. unfold initSequenceWatermarkRx. cbn. by rewrite orb_true_r.
    + exists cs, rc, r. split_and!; try done.
      * change (marked_type (as_read r)) with (marked_type r). change (fragment (as_read r)) with (fragment r). destruct (negb (marked_type r)) eqn:En; [done|]. apply negb_false_iff in En. rewrite En in Em. cbn in Em. apply Z.leb_gt in Em. by destruct (Z.ltb_spec (len (fragment r)) 16); [|lia].
      * destruct (inserted r); [|done]. unfold initSequenceWatermarkRx. by rewrite <-(H6 eq_refl), orb_true_r.
  - destruct (inserted r).
    + unfold initSequenceWatermarkTx. rewrite Hm. unfold newSequenceWatermark, deriveSequenceWatermarkingKey. rewrite H1, Hpk. cbn. do 3 eexists. split; [reflexivity|]. split_and!; try done.
      unfold initSequenceWatermarkRx, newSequenceWatermark, deriveSequenceWatermarkingKey. rewrite H5, <-(H6 eq_refl), Hm, H2, Hpk. cbn. rewrite H3, negb_involutive. split; try done. cbn. by rewrite Ew.
    + by exists cs, rc, r.
Qed.

(** *** What the writer makes of its queue *)

Definition text_of (padding : bool) (p : bytes) : bytes := if padding then packPadding p 0 else p.

(** The records of the pieces [ps]. *)
Fixpoint seal_all (padding : bool) (v : byte * byte) (e : encryptor) (ps : list bytes) : list record :=
  match ps with
  | [] => []
  | p :: ps => let '(f, e) := Seal e (replicate (explicitNonceOverhead m) x00) (text_of padding p) in mkRec recordTypeApplicationData v f true :: seal_all padding v e ps
  end.

Definition piece_fits (padding : bool) (p : bytes) : Prop := Z.of_nat (explicitNonceOverhead m) + len (text_of padding p) + 16 <= maxTLSRecordPayload.

Lemma fill_genuine g r c2s : inserted r = false -> fillExplicitNonce m g r c2s = (r, g).
Proof. intros Hi. unfold fillExplicitNonce. by rewrite Hi. Qed.

Lemma length_explicit_Next g : length (explicit_Next g) = length g.
Proof. unfold explicit_Next. by rewrite length_rev, length_carry, length_rev. Qed.

Definition nonces_ok (g : nonces) : Prop := length (c2sExplicitNonce g) = 8%nat /\ length (s2cExplicitNonce g) = 8%nat.

(** Filling the explicit nonce in leaves the sealed part alone. *)
Lemma fill_hidden g v f c2s : nonces_ok g -> explicitReady m = true -> (explicitNonceOverhead m <= length f)%nat ->
  exists x g', fillExplicitNonce m g (mkRec recordTypeApplicationData v f true) c2s = (mkRec recordTypeApplicationData v (x ++ drop (explicitNonceOverhead m) f) true, g') /\ length x = explicitNonceOverhead m /\ nonces_ok g'.
Proof.
  intros [H1 H2] Hr. unfold fillExplicitNonce, explicitNonceOverhead. rewrite Hr. cbn [inserted negb orb andb fragment]. destruct (tls12Explicit m) eqn:Et; cbn [negb]; intros Hf.
  - unfold len. destruct (Z.ltb_spec (Z.of_nat (length f)) 8); [lia|]. destruct c2s; do 2 eexists; (split; [reflexivity|]); cbn [nonces_ok c2sExplicitNonce s2cExplicitNonce]; unfold nonces_ok; cbn [c2sExplicitNonce s2cExplicitNonce]; rewrite ?length_explicit_Next; done.
  - exists [], g. destruct (_ <? 8); (split; [by rewrite drop_0|done]).
Qed.

(** The hidden record at the receiving end. *)
Lemma inbound_own rc e p v x : keys_agree rc e -> primaryKey rc = pk -> len p < 2 ^ 32 -> length x = explicitNonceOverhead m ->
  forall rc0 r0, applySequenceWatermarkRx rc0 r0 = (rc, as_read (mkRec recordTypeApplicationData v (x ++ (Seal e [] (text_of (f_padding rc) p)).1) true)) ->
  exists rc' r', handleInboundRecord m rc0 r0 = (rc', r', Drop) /\ readCh rc' = readCh rc ++ [p] /\ keys_agree rc' (Seal e [] (text_of (f_padding rc) p)).2 /\
    forall cs, marks_agree cs (initSequenceWatermarkRx m rc) -> marks_agree cs rc'.
Proof.
  intros Hk Hp Hlen Hx rc0 r0 E. unfold handleInboundRecord. rewrite E. cbn [is_type as_read recordType version fragment]. unfold is_type. cbn [recordType]. rewrite bool_decide_eq_true_2 by done. cbn [negb].
  destruct (ensure_agrees rc e v Hp Hk) as (e' & d & v' & -> & Hs). cbn [c_decryptor set_crypto].
  set (sealed := (Seal e [] (text_of (f_padding rc) p)).1) in *. assert (16 <= length sealed)%nat as Hsl by (unfold sealed, Seal, aead_Seal; cbn [fst app]; rewrite length_Seal; lia).
  destruct (Z.ltb_spec (len (x ++ sealed)) (Z.of_nat (explicitNonceOverhead m) + aead_NonceSize)) as [Hlt|_]; [rewrite len_app in Hlt; unfold len, aead_NonceSize in Hlt; lia|].
  rewrite <-Hx, drop_app_length. destruct (Open_own e d [] (text_of (f_padding rc) p) Hs) as (d' & Eo & Hs'). rewrite drop_0 in Eo. fold sealed in Eo. rewrite Eo. cbn [c_encryptor set_crypto protocolVersion].
  change (set_crypto (set_crypto rc (Some e') (Some d) v') (Some e') (Some d') v') with (set_crypto rc (Some e') (Some d') v'). rewrite initRx_crypto. set (rc1 := initSequenceWatermarkRx m rc).
  pose proof (initRx_fields rc) as (F1 & F2 & F3 & F4). fold rc1 in F1, F2, F3, F4. cbn [f_padding set_crypto]. rewrite F3.
  assert ((if f_padding rc then unpackPadding (text_of (f_padding rc) p) else Some (text_of (f_padding rc) p)) = Some p) as -> by (unfold text_of; destruct (f_padding rc); [by apply unpack_pack|done]).
  do 2 eexists. split; [reflexivity|]. cbn [readCh readBuffer set_crypto set_read]. rewrite F1. split; [done|]. split.
  - destruct Hk as [Ha _]. split; [cbn [isServer set_crypto set_read]; rewrite F4; done|]. right. exists e', d'. done.
  - intros cs Hc. by apply marks_agree_read, marks_agree_crypto.
Qed.

(** A record of the session itself at the receiving end. *)
Lemma inbound_foreign rc e r : keys_agree rc e -> primaryKey rc = pk -> as_read r = r ->
  (is_type r recordTypeApplicationData = true -> forall n, aead_Open (e_aead e) n (drop (explicitNonceOverhead m) (fragment r)) = None) ->
  forall rc0 r0, applySequenceWatermarkRx rc0 r0 = (rc, r) ->
  exists rc', handleInboundRecord m rc0 r0 = (rc', r, Pass) /\ (readCh rc' = readCh rc /\ watermarkRx rc' = watermarkRx rc /\ primaryKey rc' = primaryKey rc) /\ keys_agree rc' e /\ forall cs, marks_agree cs rc -> marks_agree cs rc'.
Proof.
  intros Hk Hp Hi Hf rc0 r0 E. unfold handleInboundRecord. rewrite E. destruct (is_type r recordTypeApplicationData); cbn [negb]; [|by exists rc].
  destruct (ensure_agrees rc e (version r) Hp Hk) as (e' & d & v' & -> & Hs). cbn [c_decryptor set_crypto]. destruct Hk as [Ha _].
  destruct (_ <? _).
  - eexists. split; [reflexivity|]. split; [done|]. split; [split; [done|right; by exists e', d]|]. intros cs Hc. by apply marks_agree_crypto.
  - destruct (Open_foreign e d _ Hs (Hf eq_refl)) as (d' & -> & Hs'). eexists. split; [reflexivity|]. split; [done|]. split; [split; [done|right; by exists e', d']|].
    intros cs Hc. by do 2 apply marks_agree_crypto.
Qed.

(** *** The two mirrors *)

Section mirrors.
Context (tls12 c2s : bool).

Lemma writer_rec {S} (hook : option (S -> record -> S * record * hookRes)) g s r r1 g1 s1 r2 out tasks :
  fillExplicitNonce m g r c2s = (r1, g1) -> call_hook hook s r1 = (s1, r2, Pass) -> writeRecord r2 = Some out -> is_type r2 recordTypeAlert = false ->
  recordWriter m hook c2s g s (task_of r :: tasks) = let '(y, s', stop) := recordWriter m hook c2s g1 s1 tasks in (out ++ y, s', stop).
Proof. intros E1 E2 E3 E4. cbn [recordWriter task_of t_rec]. by rewrite E1, E2, E3, E4. Qed.

Lemma writer_rest {S} (hook : option (S -> record -> S * record * hookRes)) g s raw src tasks :
  recordWriter m hook c2s g s (fallbackQueuedCopy None raw src :: tasks) = (raw ++ src, s, true).
Proof. done. Qed.

Lemma writer_last {S} (hook : option (S -> record -> S * record * hookRes)) g s r s1 out src tasks :
  inserted r = false -> call_hook hook s r = (s1, r, Pass) -> writeRecord r = Some out -> is_type r recordTypeAlert = false ->
  recordWriter m hook c2s g s (fallbackQueuedCopy (Some r) [] src :: tasks) = (out ++ src, s1, true).
Proof. intros E1 E2 E3 E4. cbn [recordWriter fallbackQueuedCopy t_rec]. by rewrite fill_genuine, E2, E3, E4 by done. Qed.

Lemma outbound_unmarked cs r : marked_type r = false -> inserted r = false -> handleOutboundRecordTx m cs r = (cs, r, Pass).
Proof. intros Hm' Hi. unfold handleOutboundRecordTx. destruct (negb _); [done|]. destruct (watermarkTx cs); by rewrite ?Hm', ?Hi. Qed.

Notation plain_loop := (worker_loop (S := unit) None (fun _ => true) tls12 c2s).

(** What the worker without a hook does with a record. *)
Lemma plain_nonempty fuel : forall ccs ready data, (length data < fuel)%nat -> (plain_loop fuel tt ccs ready data).1.1 <> [].
Proof.
  intros ccs ready data Hf. destruct fuel as [|fuel]; [lia|]. cbn [worker_loop]. destruct (readRecord data) as [[r raw|raw] rest]; [|done].
  destruct (_ && _ && _); [done|]. destruct (c2s && _ && _); [done|]. cbn [call_hook]. destruct (if _ : bool then _ else _) as [[ts s] rd]. done.
Qed.

Lemma plain_got fuel ccs ready data ts s rd last : plain_loop (S fuel) tt ccs ready data = (ts ++ [last], s, rd) -> (length data < S fuel)%nat ->
  (ts = [] /\ exists raw rest, readRecord data = (Broken raw, rest) /\ last = fallbackQueuedCopy None raw rest) \/
  (ts = [] /\ exists r raw rest, readRecord data = (Got r raw, rest) /\ (is_type r recordTypeHandshake && ccs && negb (hasZeroExplicitNonce (fragment r))) = true /\ last = fallbackQueuedCopy (Some r) [] rest) \/
  (exists r raw rest ts' ready', readRecord data = (Got r raw, rest) /\ (is_type r recordTypeHandshake && ccs && negb (hasZeroExplicitNonce (fragment r))) = false /\ ts = task_of r :: ts' /\
    plain_loop fuel tt (is_type r recordTypeChangeCipherSpec && tls12) ready' rest = (ts' ++ [last], s, rd)).
Proof.
  cbn [worker_loop]. destruct (readRecord data) as [[r raw|raw] rest] eqn:Er.
  - destruct (_ && _ && _) eqn:E1.
    + intros [= E _ _] _. right. left. destruct ts as [|t [|? ?]]; try done. injection E as <-. split; [done|]. by exists r, raw, rest.
    + rewrite andb_false_r. cbn [call_hook]. intros E Hf. right. right. destruct (if _ : bool then _ else _) as [[ts2 s2] rd2] eqn:E2. injection E as E <- <-.
      apply readRecord_got in Er as Hg. destruct Hg as (Ed & _ & _ & H5). assert (length rest < fuel)%nat as Hl by (rewrite Ed, length_app in Hf; lia).
      destruct ts as [|t ts'].
      * injection E as _ ->. exfalso. destruct (_ && tls12); [apply (plain_nonempty fuel true ready rest Hl)|eapply (plain_nonempty fuel false _ rest Hl)]; by rewrite E2.
      * injection E as <- ->. exists r, raw, rest, ts', (if is_type r recordTypeChangeCipherSpec && tls12 then ready else ready || is_type r recordTypeApplicationData || is_type r recordTypeHandshake && ccs). split_and!; [done..|]. by destruct (_ && tls12).
  - intros [= E _ _] _. left. destruct ts as [|t [|? ?]]; try done. injection E as <-. split; [done|]. by exists raw, rest.
Qed.

Lemma is_type_distinct r t1 t2 : is_type r t1 = true -> t1 <> t2 -> is_type r t2 = false.
Proof. unfold is_type. intros ->%bool_decide_eq_true Hn. by apply bool_decide_eq_false_2. Qed.

Lemma handshake_unmarked r : is_type r recordTypeHandshake = true -> marked_type r = false /\ is_type r recordTypeAlert = false.
Proof. intros H. unfold marked_type. by rewrite !(is_type_distinct r recordTypeHandshake) by done. Qed.

(** The records of the session: not the hidden connection's, and no alert, after which a mirror
    closes. *)
Definition foreign (a : xorNonceAEAD) (r : record) : Prop :=
  is_type r recordTypeAlert = false /\ (is_type r recordTypeApplicationData = true -> forall n, aead_Open a n (drop (explicitNonceOverhead m) (fragment r)) = None).

Hypothesis Hready : explicitReady m = true.

Lemma write_long r x : writeRecord r = Some x -> (5 <= length x)%nat.
Proof. intros [_ ->]%writeRecord_some. cbn [app length]. rewrite length_app, length_be_enc. lia. Qed.

(** A record of the session that goes through both mirrors: [raw'] is what the first writes. *)
Lemma step_genuine cs rc e r raw ccs : marks_agree cs rc -> keys_agree rc e -> writeRecord r = Some raw -> as_read r = r -> foreign (e_aead e) r ->
  (is_type r recordTypeHandshake && ccs && negb (hasZeroExplicitNonce (fragment r))) = false ->
  exists cs1 rc1 r' raw', handleOutboundRecordTx m cs r = (cs1, r', Pass) /\ writeRecord r' = Some raw' /\ recordType r' = recordType r /\
    handleInboundRecord m rc (as_read r') = (rc1, r, Pass) /\ (is_type r' recordTypeHandshake && ccs && negb (hasZeroExplicitNonce (fragment r'))) = false /\
    marks_agree cs1 rc1 /\ keys_agree rc1 e /\ readCh rc1 = readCh rc /\ f_padding rc1 = f_padding rc.
Proof.
  intros Hma Hka Ew Ei [Hna Hfr] Ec. assert (inserted r = false) as Hi by (by rewrite <-Ei).
  destruct (marks_cancel cs rc r Hma) as (cs1 & rc1 & r' & Eo & Ety & Elen & Eun & Eap & Hsc & (B1 & B2 & B3 & B4 & B5 & B6) & Hma1). rewrite Hi in Hma1. rewrite Ei in Eap.
  assert (exists raw', writeRecord r' = Some raw') as [raw' Ew'].
  { apply writeRecord_some in Ew as [Hlr _]. unfold writeRecord. unfold len in *. rewrite Elen. destruct (Z.ltb_spec maxTLSRecordPayload (Z.of_nat (length (fragment r)))); [lia|eauto]. }
  assert (keys_agree rc1 e) as Hka1 by (destruct Hka as [? Hk]; split; [by rewrite B2|by rewrite B4, B5]). assert (primaryKey rc1 = pk) as Hp1 by (rewrite B1; apply Hma).
  destruct (inbound_foreign rc1 e r Hka1 Hp1 Ei Hfr rc (as_read r') Eap) as (rc2 & Ein & (Ech & _) & Hka2 & Hma2). specialize (Hma2 cs1 Hma1).
  exists cs1, rc2, r', raw'. split_and!; try done; [|by rewrite Ech, B6|].
  - unfold is_type in *. rewrite Ety. destruct (bool_decide (recordType r = recordTypeHandshake)) eqn:Eh; [|done]. rewrite Eun; [exact Ec|]. by apply handshake_unmarked.
  - rewrite (p_padding _ _ Hma2), (p_padding _ _ Hma). by destruct Hsc as (_ & _ & -> & _).
Qed.

(** A hidden record, which the second mirror takes out. *)
Lemma step_hidden cs rc e p v g : marks_agree cs rc -> keys_agree rc e -> nonces_ok g -> piece_fits (f_padding rc) p ->
  let '(f, e1) := Seal e (replicate (explicitNonceOverhead m) x00) (text_of (f_padding rc) p) in
  exists r g1 cs1 rc1 r' r2 raw', fillExplicitNonce m g (mkRec recordTypeApplicationData v f true) c2s = (r, g1) /\ handleOutboundRecordTx m cs r = (cs1, r', Pass) /\ writeRecord r' = Some raw' /\
    recordType r' = recordTypeApplicationData /\ handleInboundRecord m rc (as_read r') = (rc1, r2, Drop) /\
    marks_agree cs1 rc1 /\ keys_agree rc1 e1 /\ e_aead e1 = e_aead e /\ nonces_ok g1 /\ readCh rc1 = readCh rc ++ [p] /\ f_padding rc1 = f_padding rc.
Proof.
  intros Hma Hka Hg Hp. set (dst := replicate (explicitNonceOverhead m) x00). destruct (Seal e dst (text_of (f_padding rc) p)) as [f e1] eqn:Es.
  set (sealed := (Seal e [] (text_of (f_padding rc) p)).1). assert (f = dst ++ sealed) as Ef by (unfold Seal, aead_Seal in *; by injection Es as <- _).
  assert (e1 = (Seal e [] (text_of (f_padding rc) p)).2) as He1 by (unfold Seal in *; by injection Es as _ <-). assert (length dst = explicitNonceOverhead m) as Hdl by apply length_replicate.
  destruct (fill_hidden g v f c2s Hg Hready) as (x & g' & Efill & Hx & Hg'); [rewrite Ef, length_app; lia|]. rewrite Ef, <-Hdl, drop_app_length in Efill. rewrite <-Ef in Efill. set (r := mkRec recordTypeApplicationData v (x ++ sealed) true) in *.
  destruct (marks_cancel cs rc r Hma) as (cs1 & rc1 & r' & Eo & Ety & Elen & _ & Eap & Hsc & (B1 & B2 & B3 & B4 & B5 & B6) & Hma1). cbn [inserted r] in Hma1.
  assert (exists raw', writeRecord r' = Some raw') as [raw' Ew'].
  { unfold writeRecord, len. rewrite Elen. cbn [r fragment]. rewrite length_app, Hx. unfold sealed, Seal, aead_Seal. cbn [fst app]. rewrite length_Seal. unfold piece_fits, len in Hp.
    destruct (Z.ltb_spec maxTLSRecordPayload (Z.of_nat (explicitNonceOverhead m + (length (text_of (f_padding rc) p) + 16)))); [lia|eauto]. }
  assert (keys_agree rc1 e) as Hka1 by (destruct Hka as [? Hk]; split; [by rewrite B2|by rewrite B4, B5]). assert (primaryKey rc1 = pk) as Hp1 by (rewrite B1; apply Hma).
  assert (len p < 2 ^ 32) as Hlp by (unfold piece_fits, text_of, packPadding, maxTLSRecordPayload in Hp; destruct (f_padding rc); rewrite ?len_app in Hp; pose proof (len_nonneg (replicate 0 x00)); pose proof (len_nonneg (be_enc 4 (w32 (len p)))); lia).
  unfold sealed in r. rewrite <-B3 in He1. unfold r in Eap. rewrite <-B3 in Eap.
  destruct (inbound_own rc1 e p v x Hka1 Hp1 Hlp Hx rc (as_read r') Eap) as (rc2 & r2 & Ein & Ech & Hka2 & Hma2). specialize (Hma2 cs1 Hma1). rewrite <-He1 in Hka2.
  exists r, g', cs1, rc2, r', r2, raw'. split_and!; try done; [by rewrite He1|by rewrite Ech, B6|].
  rewrite (p_padding _ _ Hma2), (p_padding _ _ Hma). by destruct Hsc as (_ & _ & -> & _).
Qed.

(** Whatever the order in which the records are queued at one mirror, the other passes on exactly
    what came in at the first, and takes out exactly what was hidden in it. *)
Lemma mirror_sim ts hs q : merge ts hs q -> forall fuel data ccs ready last s rd cs rc e v ps g g2 fr rd2,
  plain_loop fuel tt ccs ready data = (ts ++ [last], s, rd) -> (length data < fuel)%nat -> Forall (fun t => forall r, t_rec t = Some r -> foreign (e_aead e) r) ts ->
  hs = seal_all (f_padding rc) v e ps -> Forall (fun p => piece_fits (f_padding rc) p) ps -> marks_agree cs rc -> keys_agree rc e -> nonces_ok g ->
  exists wire cs', recordWriter m (Some (handleOutboundRecordTx m)) c2s g cs (q ++ [last]) = (wire, cs', true) /\
    ((length wire < fr)%nat -> exists ts2 rc' rd', worker_loop (Some (handleInboundRecord m)) (fun _ => true) tls12 c2s fr rc ccs rd2 wire = (ts2, rc', rd') /\
      recordWriter (S := unit) m None c2s g2 tt ts2 = (data, tt, true) /\ readCh rc' = readCh rc ++ ps).
Proof.
  induction 1 as [|t ts hs q Hmg IH|h ts hs q Hmg IH]; intros fuel data ccs ready last s rd cs rc e v ps g g2 fr rd2 Hw Hf Hfo Hhs Hfit Hma Hka Hg.
  - destruct ps; [|done]. destruct fuel as [|fuel]; [lia|]. rewrite app_nil_r.
    destruct (plain_got _ _ _ _ _ _ _ _ Hw Hf) as [(_ & raw & rest & Er & ->)|[(_ & r & raw & rest & Er & Ec & ->)|(? & ? & ? & ? & ? & _ & _ & ? & _)]]; [| |done].
    + pose proof (readRecord_broken _ _ _ Er) as Ed. exists data, cs. split; [rewrite Ed; apply writer_rest|]. intros Hl. destruct fr as [|fr]; [lia|]. cbn [worker_loop]. rewrite Er.
      do 3 eexists. split; [reflexivity|]. split; [|done]. rewrite Ed. apply writer_rest.
    + pose proof (readRecord_got _ _ _ _ Er) as (Ed & Ew & Ei & _). assert (inserted r = false) as Hi by (by rewrite <-Ei).
      pose proof Ec as [[Eh _]%andb_true_iff _]%andb_true_iff. destruct (handshake_unmarked r Eh) as [Hu Ha].
      exists data, cs. split; [rewrite Ed; apply writer_last; [done|cbn [call_hook]; by rewrite outbound_unmarked|done|done]|]. intros Hl. destruct fr as [|fr]; [lia|]. cbn [worker_loop]. rewrite Er, Ec.
      do 3 eexists. split; [reflexivity|]. split; [|done]. rewrite Ed. by apply writer_last.
  - destruct fuel as [|fuel]; [lia|]. destruct (plain_got _ _ _ _ _ _ _ _ Hw Hf) as [(? & _)|[(? & _)|(r & raw & rest & ts' & ready' & Er & Ec & [= -> <-] & Hw')]]; [done|done|].
    pose proof (readRecord_got _ _ _ _ Er) as (Ed & Ew & Ei & H5). inversion Hfo as [|? ? Hfr Hfo']; subst x l. specialize (Hfr r eq_refl).
    destruct (step_genuine cs rc e r raw ccs Hma Hka Ew Ei Hfr Ec) as (cs1 & rc1 & r' & raw' & Eo & Ew' & Ety & Ein & Ec' & Hma1 & Hka1 & Ech & Hpad). destruct Hfr as [Hna _]. pose proof (write_long _ _ Ew') as H5'.
    destruct (IH fuel rest _ ready' last s rd cs1 rc1 e v ps g g2 (fr - 1)%nat (if is_type r recordTypeChangeCipherSpec && tls12 then rd2 else rd2 || is_type r recordTypeApplicationData || is_type r recordTypeHandshake && ccs) Hw')
      as (wire & cs' & Hwr & Hrecv); try done; [rewrite Ed, length_app in Hf; lia|by rewrite Hpad..|].
    exists (raw' ++ wire), cs'. split.
    { cbn [app]. rewrite (writer_rec _ g cs r r g cs1 r' raw'); [by rewrite Hwr|apply fill_genuine; by rewrite <-Ei|done|done|unfold is_type in *; by rewrite Ety]. }
    intros Hl. destruct fr as [|fr]; [lia|]. rewrite Nat.sub_succ, Nat.sub_0_r in Hrecv.
    destruct Hrecv as (ts2 & rc' & rd' & Hwk & Hout & Hch); [rewrite length_app in Hl; lia|]. cbn [worker_loop]. rewrite (readRecord_write r' raw' wire Ew').
    change (is_type (as_read r') recordTypeHandshake) with (is_type r' recordTypeHandshake). change (fragment (as_read r')) with (fragment r').
    rewrite Ec', andb_false_r. cbn [call_hook]. rewrite Ein. exists (task_of r :: ts2), rc', rd'. split; [destruct (is_type r recordTypeChangeCipherSpec && tls12); by rewrite Hwk|].
    split; [|by rewrite Hch, Ech]. rewrite (writer_rec None g2 tt r r g2 tt r raw); [by rewrite Hout, Ed|apply fill_genuine; by rewrite <-Ei|done..].
  - destruct ps as [|p ps]; [done|]. cbn [seal_all] in Hhs. inversion Hfit as [|? ? Hp Hfit']; subst x l. pose proof (step_hidden cs rc e p v g Hma Hka Hg Hp) as Hst.
    destruct (Seal e _ (text_of (f_padding rc) p)) as [f e1]. injection Hhs as -> Hhs. destruct Hst as (r & g1 & cs1 & rc1 & r' & r2 & raw' & Efill & Eo & Ew' & Ety & Ein & Hma1 & Hka1 & Ea & Hg1 & Ech & Hpad). pose proof (write_long _ _ Ew') as H5'.
    destruct (IH fuel data ccs ready last s rd cs1 rc1 e1 v ps g1 g2 (fr - 1)%nat rd2 Hw Hf) as (wire & cs' & Hwr & Hrecv); try done; [by rewrite Ea|by rewrite Hpad..|].
    exists (raw' ++ wire), cs'. split; [cbn [app]; rewrite (writer_rec _ g cs _ r g1 cs1 r' raw'); [by rewrite Hwr|done|done|done|unfold is_type; by rewrite Ety]|].
    intros Hl. destruct fr as [|fr]; [lia|]. rewrite Nat.sub_succ, Nat.sub_0_r in Hrecv.
    destruct Hrecv as (ts2 & rc' & rd' & Hwk & Hout & Hch); [rewrite length_app in Hl; lia|]. cbn [worker_loop]. rewrite (readRecord_write r' raw' wire Ew').
    assert (is_type (as_read r') recordTypeHandshake = false) as -> by (unfold is_type; cbn [as_read recordType]; by rewrite Ety). cbn [andb]. rewrite andb_false_r. cbn [call_hook]. rewrite Ein.
    exists ts2, rc', rd'. split_and!; [done|done|]. rewrite Hch, Ech. by rewrite <-app_assoc.
Qed.
End mirrors.
End session.

(** *** Writing *)

Section writing.
Context (m : session).

Definition max_plain (padding : bool) : nat := Z.to_nat (maxTLSRecordPayload - Z.of_nat (explicitNonceOverhead m) - aead_Overhead - (if padding then 4 else 0)).

Lemma max_plain_val padding : Z.of_nat (max_plain padding) = 16368 - Z.of_nat (explicitNonceOverhead m) - (if padding then 4 else 0) /\ (0 < max_plain padding)%nat.
Proof. unfold max_plain, explicitNonceOverhead, maxTLSRecordPayload, aead_Overhead. destruct (_ && _), padding; lia. Qed.

Fixpoint advance (e : encryptor) (ps : list bytes) : encryptor := match ps with [] => e | _ :: ps => advance (mkEnc (nonce_Next (e_nonce e)) (e_aead e)) ps end.

Lemma seal_all_app padding v e ps1 ps2 : seal_all m padding v e (ps1 ++ ps2) = seal_all m padding v e ps1 ++ seal_all m padding v (advance e ps1) ps2.
Proof. revert e. induction ps1 as [|p ps1 IH]; intros e; [done|]. cbn [app seal_all advance]. unfold Seal. by rewrite IH. Qed.

Lemma Write_loop_ok c fuel : forall e b w queued, (length b <= fuel)%nat -> (length b <= length queued)%nat -> Forall (eq true) queued ->
  Write_loop (explicitNonceOverhead m) (max_plain (f_padding c)) fuel c e b w queued =
    (seal_all m (f_padding c) (protocolVersion c) e (pieces (max_plain (f_padding c)) fuel b), advance e (pieces (max_plain (f_padding c)) fuel b), w + len b, None).
Proof.
  induction fuel as [|fuel IH]; intros e b w queued Hb Hq Ht; [destruct b; [|cbn in Hb; lia]; cbn; do 2 f_equal; unfold len; cbn; lia|].
  destruct b as [|x b]; [cbn; do 2 f_equal; unfold len; cbn; lia|]. destruct (max_plain_val (f_padding c)) as [_ Hpos]. destruct queued as [|q queued]; [cbn in Hq; lia|]. inversion Ht as [|? ? <- Ht']; subst.
  cbn [Write_loop pieces seal_all advance]. unfold Seal at 1 2, text_of. cbn [length] in *.
  rewrite IH; [|rewrite length_drop; cbn [length]; lia|rewrite length_drop; cbn [length]; lia|done]. cbn [fst snd]. do 2 f_equal. unfold len. rewrite length_take, length_drop. cbn [length]. lia.
Qed.

(** Writes that find room in the queue. *)
Fixpoint Writes (c : Conn) (ws : list bytes) : Conn * list record :=
  match ws with
  | [] => (c, [])
  | w :: ws => let '(c, recs, _, _) := Conn_Write m true c w (replicate (length w) true) in let '(c, rest) := Writes c ws in (c, recs ++ rest)
  end.

Lemma Conn_Write_ok c e d v b : ensureCryptoLocked m c (protocolVersion c) = (set_crypto c (Some e) (Some d) v, true) ->
  Conn_Write m true c b (replicate (length b) true) =
    (set_crypto c (Some (advance e (pieces (max_plain (f_padding c)) (length b) b))) (Some d) v, seal_all m (f_padding c) v e (pieces (max_plain (f_padding c)) (length b) b), len b, None).
Proof.
  intros E. unfold Conn_Write. cbn [negb]. rewrite E. cbn [c_encryptor set_crypto f_padding]. destruct (max_plain_val (f_padding c)) as [Hv Hp]. fold (max_plain (f_padding c)).
  destruct (Z.leb_spec (maxTLSRecordPayload - Z.of_nat (explicitNonceOverhead m) - aead_Overhead - (if f_padding c then 4 else 0)) 0) as [Hle|_]; [unfold max_plain in Hp; lia|].
  pose proof (Write_loop_ok (set_crypto c (Some e) (Some d) v) (length b) e b 0 (replicate (length b) true) ltac:(done) ltac:(by rewrite length_replicate) ltac:(by apply Forall_replicate)) as Hl.
  cbn [f_padding set_crypto protocolVersion] in Hl. rewrite Hl. done.
Qed.

Lemma Writes_ok ws : forall c e d v, ensureCryptoLocked m c (protocolVersion c) = (set_crypto c (Some e) (Some d) v, true) ->
  (Writes c ws).2 = seal_all m (f_padding c) v e (chunks (max_plain (f_padding c)) ws).
Proof.
  induction ws as [|w ws IH]; intros c e d v E; [done|]. cbn [Writes]. rewrite (Conn_Write_ok c e d v w E). unfold chunks. cbn [fmap list_fmap concat]. rewrite seal_all_app.
  set (c1 := set_crypto c (Some (advance e _)) (Some d) v). specialize (IH c1 (advance e (pieces (max_plain (f_padding c)) (length w) w)) d v eq_refl). destruct (Writes c1 ws) as [c2 recs]. cbn [snd] in *. by rewrite IH.
Qed.

Lemma Writes_marks ws : forall c, let c' := (Writes c ws).1 in
  primaryKey c' = primaryKey c /\ isServer c' = isServer c /\ f_padding c' = f_padding c /\ f_watermark c' = f_watermark c /\ watermarkTx c' = watermarkTx c.
Proof.
  induction ws as [|w ws IH]; intros c; [done|]. cbn [Writes]. destruct (Conn_Write m true c w (replicate (length w) true)) as [[[c1 recs] n] err] eqn:E.
  assert (primaryKey c1 = primaryKey c /\ isServer c1 = isServer c /\ f_padding c1 = f_padding c /\ f_watermark c1 = f_watermark c /\ watermarkTx c1 = watermarkTx c) as (E1 & E2 & E3 & E4 & E5).
  { unfold Conn_Write, ensureCryptoLocked in E. cbn [negb] in E. repeat (case_match; simplify_eq/=; try done). }
  specialize (IH c1). cbv zeta in IH. destruct (Writes c1 ws) as [c2 rest]. cbn [fst] in *. by rewrite <-E1, <-E2, <-E3, <-E4, <-E5.
Qed.

Lemma chunks_fit padding ws : Forall (piece_fits m padding) (chunks (max_plain padding) ws) /\ concat (chunks (max_plain padding) ws) = concat ws.
Proof.
  destruct (max_plain_val padding) as [Hv Hp]. destruct (chunks_ok (max_plain padding) ws Hp) as [H1 H2]. split; [|done]. eapply Forall_impl; [exact H2|]. intros p [_ Hl].
  unfold piece_fits, text_of, packPadding, maxTLSRecordPayload. destruct padding; rewrite ?len_app, ?len_be_enc; unfold len; rewrite ?length_replicate; cbn [length]; lia.
Qed.

(** *** Reading *)

Definition conn_reader (c : Conn) (data : bytes) (n : nat) : bytes * option unit * bytes * Conn :=
  match Conn_Read c n with Some (x, c) => (x, None, data, c) | None => ([], Some tt, data, c) end.
Definition to_read (c : Conn) (data p : bytes) : Prop := p = default [] (readBuffer c) ++ concat (readCh c).

Lemma read_loop_spec n : (0 < n)%nat -> forall ch buf, default [] buf ++ concat ch <> [] ->
  exists x ch' buf', read_loop ch buf n = Some (x, ch', buf') /\ default [] buf ++ concat ch = x ++ default [] buf' ++ concat ch' /\ x <> [] /\ (length x <= n)%nat.
Proof.
  intros Hn. induction ch as [|d ch IH]; intros buf Hne.
  - destruct buf as [b|]; [|done]. cbn in Hne. rewrite app_nil_r in Hne. cbn [read_loop]. destruct b as [|y b]; [done|]. destruct (Nat.ltb_spec 0 (Nat.min n (length (y :: b)))); [|cbn in *; lia].
    exists (take n (y :: b)), [], (Some (drop n (y :: b))). change (default [] (Some (y :: b))) with (y :: b). change (default [] (Some (drop n (y :: b)))) with (drop n (y :: b)). rewrite !app_nil_r, take_drop. split_and!; [done|done|by destruct n; [lia|]|rewrite length_take; lia].
  - cbn [read_loop]. destruct buf as [[|y b]|].
    + cbn [length]. rewrite Nat.min_0_r. cbn [Nat.ltb Nat.leb]. by apply IH.
    + destruct (Nat.ltb_spec 0 (Nat.min n (length (y :: b)))); [|cbn in *; lia]. exists (take n (y :: b)), (d :: ch), (Some (drop n (y :: b))). change (default [] (Some (y :: b))) with (y :: b). change (default [] (Some (drop n (y :: b)))) with (drop n (y :: b)).
      rewrite (app_assoc (take n (y :: b))), take_drop. split_and!; [done|done|by destruct n; [lia|]|rewrite length_take; lia].
    + by apply IH.
Qed.

#[export] Instance conn_delivers : Delivers conn_reader to_read.
Proof.
  split. intros c data p n -> Hne Hn. destruct (read_loop_spec n Hn (readCh c) (readBuffer c) Hne) as (x & ch & buf & E & Ep & Hx & Hl).
  unfold conn_reader, Conn_Read. rewrite E. cbn. exists x, (default [] buf ++ concat ch), data, (set_read c ch buf). done.
Qed.
End writing.

(** A read into an empty buffer never returns, and takes everything that arrives. *)
Lemma empty_Read_waits ch buf : read_loop ch buf 0 = None.
Proof. revert buf. induction ch as [|d ch IH]; intros [b|]; cbn [read_loop Nat.min Nat.ltb Nat.leb]; auto. Qed.

(** The mirror does not touch what is being read. *)
Lemma inbound_buffer m c r : readBuffer (handleInboundRecord m c r).1.1 = readBuffer c.
Proof.
  unfold handleInboundRecord. assert (readBuffer (applySequenceWatermarkRx c r).1 = readBuffer c) as E by (unfold applySequenceWatermarkRx; repeat (case_match; simplify_eq/=; try done)).
  destruct (applySequenceWatermarkRx c r) as [c1 r1]. cbn [fst] in E. rewrite <-E. clear E. destruct (negb _); [done|].
  assert (readBuffer (ensureCryptoLocked m c1 (version r1)).1 = readBuffer c1) as E by (unfold ensureCryptoLocked; repeat (case_match; simplify_eq/=; try done)).
  destruct (ensureCryptoLocked m c1 (version r1)) as [c2 ok]. cbn [fst] in E. rewrite <-E. clear E. destruct ok, (c_decryptor c2); [|done..]. destruct (_ <? _); [done|]. destruct (Open _ _) as [[p|] d']; [|done].
  assert (forall c, readBuffer (initSequenceWatermarkRx m c) = readBuffer c) as E by (intros c3; unfold initSequenceWatermarkRx; repeat (case_match; simplify_eq/=; try done)).
  destruct (if f_padding _ then _ else _); cbn [fst readBuffer set_read]; by rewrite E.
Qed.

Lemma worker_preserves {S} (hook : S -> record -> S * record * hookRes) seen tls12 c2s (P : S -> Prop) : (forall s r, P s -> P (hook s r).1.1) ->
  forall fuel s ccs ready data, P s -> P (worker_loop (Some hook) seen tls12 c2s fuel s ccs ready data).1.2.
Proof.
  intros Hh. induction fuel as [|fuel IH]; intros s ccs ready data Hs; [done|]. cbn [worker_loop]. destruct (readRecord data) as [[r raw|raw] rest]; [|done].
  destruct (_ && _ && _); [done|]. destruct (c2s && _ && _); [done|]. cbn [call_hook]. pose proof (Hh s r Hs) as Hs'. destruct (hook s r) as [[s' r'] []]; cbn [fst] in Hs'; [|by apply IH|done].
  destruct (_ && tls12); match goal with |- context [worker_loop ?a ?b ?c ?d ?e ?f ?g ?h ?i] => pose proof (IH f g h i Hs') as Hi; destruct (worker_loop a b c d e f g h i) as [[ts s2] rd2] end; done.
Qed.


(** ** Somebody who does not know the key *)

(** The records at the front of a stream. *)
Fixpoint records (fuel : nat) (data : bytes) : list record :=
  match fuel, readRecord data with
  | S fuel, (Got r _, rest) => r :: records fuel rest
  | _, _ => []
  end.

(** The loop of a mirror whose hidden connection has not taken anything out yet. Whatever is sent
    to it, up to an alert, of which no record opens, is passed on unchanged, and nothing is
    taken out. *)
Lemma probe_loop `{!CryptoLaws} m cr sr pk seen c2s e g : handshakeRandom m = Some (cr, sr) -> length pk = 32%nat ->
  forall fuel data rc ccs rd, (length data < fuel)%nat -> primaryKey rc = pk -> watermarkRx rc = None -> keys_agree cr sr pk rc e -> Forall (foreign m (e_aead e)) (records fuel data) ->
  exists ts rc' rd', worker_loop (Some (handleInboundRecord m)) seen (tls12Explicit m) c2s fuel rc ccs rd data = (ts, rc', rd') /\
    recordWriter m None c2s g tt ts = (data, tt, true) /\ readCh rc' = readCh rc.
Proof.
  intros Hm Hpk. induction fuel as [|fuel IH]; intros data rc ccs rd Hf Hp Hw Hk Hfo; [lia|]. cbn [worker_loop records] in *. destruct (readRecord data) as [[r raw|raw] rest] eqn:Er.
  2:{ do 3 eexists. split; [reflexivity|]. split; [|done]. rewrite (readRecord_broken _ _ _ Er). apply writer_rest. }
  pose proof (readRecord_got _ _ _ _ Er) as (Ed & Ew & Ei & H5). assert (inserted r = false) as Hi by (by rewrite <-Ei). inversion Hfo as [|? ? [Hna Hfr] Hfo']; subst x l.
  assert (recordWriter m None c2s g tt [fallbackQueuedCopy (Some r) [] rest] = (data, tt, true)) as Hlast by (rewrite Ed; by apply writer_last).
  destruct (_ && _ && _); [by do 3 eexists|]. destruct (c2s && _ && _); [by do 3 eexists|]. cbn [call_hook].
  assert (applySequenceWatermarkRx rc r = (rc, r)) as Eap by (unfold applySequenceWatermarkRx; by rewrite Hw).
  destruct (inbound_foreign m cr sr pk Hm Hpk rc e r Hk Hp Ei Hfr rc r Eap) as (rc1 & Ein & (Ech & Hw1 & Hp1) & Hk1 & _). rewrite Ein. rewrite Hw in Hw1. rewrite Hp in Hp1.
  assert (length rest < fuel)%nat as Hf' by (rewrite Ed, length_app in Hf; lia).
  destruct (is_type r recordTypeChangeCipherSpec && tls12Explicit m); match goal with |- context [worker_loop _ _ _ _ _ rc1 ?c ?d rest] => destruct (IH rest rc1 c d Hf' Hp1 Hw1 Hk1 Hfo') as (ts & rc' & rd' & -> & Hout & Hch) end;
    (do 3 eexists; split; [reflexivity|]; split; [|by rewrite Hch]; rewrite (writer_rec m c2s None g tt r r g tt r raw); [by rewrite Hout, Ed|by apply fill_genuine|done..]).
Qed.

(** *** The first record *)

Lemma peek_bounds b r p : peekFirstHandshakeRecord b = Peeked r p -> (5 <= p <= length b)%nat.
Proof.
  unfold peekFirstHandshakeRecord. destruct (Nat.ltb_spec (length b) 5); [done|]. destruct (negb _); [done|]. destruct (negb _); [done|]. destruct (_ <? _); [done|].
  destruct (Nat.ltb_spec (length b) (5 + Z.to_nat (Z.lor (Z.shiftl (b2z (nth 3 b x00)) 8) (b2z (nth 4 b x00))))); [done|]. intros [= _ <-]. lia.
Qed.

(** The bytes already copied are bytes of the record. *)
Lemma peek_grows b x n r p : peekFirstHandshakeRecord b = NeedMore n -> peekFirstHandshakeRecord (b ++ x) = Peeked r p -> (length b <= p)%nat.
Proof.
  intros H1 H2. destruct (Nat.le_gt_cases 5 (length b)) as [Hl|Hl]; [|apply peek_bounds in H2; lia]. revert H1 H2. unfold peekFirstHandshakeRecord. rewrite length_app, !app_nth1 by lia.
  destruct (Nat.ltb_spec (length b) 5); [lia|]. destruct (Nat.ltb_spec (length b + length x) 5); [lia|]. destruct (negb _); [done|]. destruct (negb _); [done|]. destruct (_ <? _); [done|].
  set (k := (5 + _)%nat). destruct (Nat.ltb_spec (length b) k); [|done]. intros _. destruct (Nat.ltb_spec (length b + length x) k); [done|]. intros [= _ <-]. lia.
Qed.

Section capture_spec.
Context (cut : bytes -> nat -> nat).

Lemma read_split data n x rest : stream_read cut data n = (x, None, rest) -> data = x ++ rest.
Proof. unfold stream_read. destruct n, data; try done; intros [= <- <-]; [done|done|by rewrite take_drop]. Qed.

(** Looking at the first record loses nothing and repeats nothing when there is one. *)
Lemma capture_captured fuel : forall buffer data out r raw rest, buffer = [] \/ (exists n, peekFirstHandshakeRecord buffer = NeedMore n) ->
  capture_loop cut fuel buffer data = (out, Captured r raw rest) -> data = out ++ raw ++ rest.
Proof.
  induction fuel as [|fuel IH]; intros buffer data out r raw rest Hb; [done|]. cbn [capture_loop].
  destruct (stream_read cut data _) as [[x [e|]] data'] eqn:Es; [done|]. apply read_split in Es as ->.
  destruct (peekFirstHandshakeRecord (buffer ++ x)) as [r1 p|n|] eqn:Ep; [|destruct (capture_loop cut fuel (buffer ++ x) data') as [o c] eqn:Ec|done].
  - intros [= <- <- <- <-]. pose proof (peek_bounds _ _ _ Ep) as Hp. assert (length buffer <= p)%nat as Hle by (destruct Hb as [->|[n Hn]]; [cbn; lia|by eapply peek_grows]).
    cbn [app]. rewrite app_assoc. f_equal. rewrite skipn_firstn_comm, drop_app_length, drop_app_ge by done. by rewrite take_drop.
  - intros [= <- ->]. rewrite <-app_assoc. f_equal. eapply IH; [|exact Ec]. right. eauto.
Qed.

(** A client that begins with a TLS record, and a server that does not know it. *)
Lemma probe_relayed `{!CryptoLaws} m cr sr pk seen padding watermark data out first raw rest e : handshakeRandom m = Some (cr, sr) -> length pk = 32%nat ->
  captureFirstHandshakeRecord cut data = (out, Captured first raw rest) -> e = mkEnc newNonceGenerator (aead_of cr sr pk tag_c2s) ->
  Forall (foreign m (e_aead e)) (records (S (length rest)) rest) ->
  let w := c2sWorker cut (Some (handleInboundRecord m)) seen (tls12Explicit m) (newHiddenConn pk true padding watermark) data in
  w_direct w ++ (recordWriter m None true newNonces tt (w_tasks w)).1.1 = data /\ readCh (w_state w) = [].
Proof.
  intros Hm Hpk Hc -> Hfo. cbv zeta. pose proof (capture_captured _ [] data out first raw rest (or_introl eq_refl) Hc) as Ed. unfold c2sWorker. rewrite Hc.
  destruct (parseClientRandom (fragment first)) as [rnd|]; [|cbn; rewrite app_nil_r; done].
  destruct (probe_loop m cr sr pk seen true (mkEnc newNonceGenerator (aead_of cr sr pk tag_c2s)) newNonces Hm Hpk (S (length rest)) rest (newHiddenConn pk true padding watermark) false false ltac:(lia) eq_refl eq_refl) as (ts & rc & rd & -> & Hout & Hch); [split; [done|by left]|done|].
  cbn [w_direct w_tasks w_state]. rewrite Hout. cbn [fst]. split; [by rewrite Ed, <-app_assoc|by rewrite Hch].
Qed.
End capture_spec.
End tlsmirror.

(** ** An instance, and what goes wrong *)

Definition toy_tag (n : bytes) : bytes := take 16 (n ++ replicate 16 x07).
Definition toy_open (n c : bytes) : option bytes :=
  if bool_decide (drop (length c - 16) c = toy_tag n) then Some (take (length c - 16) c) else None.

#[export] Instance toy : Crypto := {|
  hkdf_Expand := fun _ _ n => replicate n x00; gcm_Seal := fun _ n p => p ++ toy_tag n; gcm_Open := fun _ n c => toy_open n c; chacha20 := fun _ _ i => z2b (Z.of_nat i + 42) |}.

Lemma length_toy_tag n : length (toy_tag n) = 16%nat.
Proof. unfold toy_tag. rewrite length_take, length_app, length_replicate. lia. Qed.

#[export] Instance toy_laws : CryptoLaws.
Proof.
  split.
  - intros s i n. apply length_replicate.
  - intros k n p. cbn. unfold toy_open. rewrite length_app, length_toy_tag, Nat.add_sub, drop_app_length, take_app_length. by rewrite bool_decide_eq_true_2.
  - intros k n p. cbn. by rewrite length_app, length_toy_tag.
Qed.

Module Examples.
Definition m0 : session := mkSession (Some (replicate 32 x01)) (Some (replicate 32 x02)) true true.
Definition key0 : bytes := replicate 32 x09.
Definition finished : bytes := [x16; x03; x03; x00; x02; x00; x01].
Definition ticket : bytes := [x17; x03; x03; x00; x28] ++ replicate 40 x05.
Definition carrier0 : bytes := finished ++ ticket ++ ticket.
Definition mirrored0 : list writeTask * writeTask :=
  let ts := (worker_loop None (fun _ => true) true true (S (length carrier0)) tt false false carrier0).1.1 in (take 3 ts, nth 3 ts (mkTask None [] None)).
Definition hidden0 : list record := (Writes m0 (newHiddenConn key0 false true true) [bs "hello"; bs "world"]).2.
Definition queue0 : list writeTask := take 2 mirrored0.1 ++ [task_of (nth 0 hidden0 (mkRec x00 (x00, x00) [] false))] ++ drop 2 mirrored0.1 ++ [task_of (nth 1 hidden0 (mkRec x00 (x00, x00) [] false))].

Lemma ticket_foreign a n : length (nonceMask a) = 12%nat -> aead_Open a n (drop 8 (replicate 40 x05)) = None.
Proof.
  intros Ha. cbn [aead_Open gcm_Open toy]. unfold toy_open. rewrite bool_decide_eq_false_2; [done|]. intros E. apply (f_equal (fun l => l !! 15%nat)) in E. revert E.
  unfold toy_tag, masked. rewrite lookup_take_lt by lia. rewrite lookup_app_r by (rewrite length_app, length_take, length_zip_with, length_drop; lia).
  rewrite lookup_replicate_2 by (rewrite length_app, length_take, length_zip_with, length_drop; lia). done.
Qed.


(** A stream that does not begin like TLS and whose first read is short: the bytes read before
    five were there reach the other side twice. *)
Lemma split_probe_repeated : captureFirstHandshakeRecord (fun _ _ => 2%nat) (bs "GET / HTTP/1.1") = (bs "GET GET / HTTP/1.1", CopiedAll).
Proof. vm_compute. reflexivity. Qed.

Lemma whole_probe_copied : captureFirstHandshakeRecord (fun _ n => n) (bs "GET / HTTP/1.1") = (bs "GET / HTTP/1.1", CopiedAll).
Proof. vm_compute. reflexivity. Qed.

(** A record of TLS 1.3 with 2^14 bytes of content is 17 bytes too long for the mirror: it copies
    from there on, and hidden records queued later are never sent. *)
Lemma full_record_ends_tunnel (x : bytes) (hidden : list writeTask) cs : length x = Z.to_nat 16401 ->
  let data := [x17; x03; x03; x40; x11] ++ x in
  exists ts rd, worker_loop (S := unit) None (fun _ => true) false true (S (length data)) tt false true data = (ts, tt, rd) /\
    recordWriter m0 (Some (handleOutboundRecordTx m0)) true newNonces cs (ts ++ hidden) = (data, cs, true).
Proof.
  intros Hx data. assert (readRecord data = (Broken [x17; x03; x03; x40; x11], x)) as Er by (unfold readRecord, data; by rewrite read_full_app).
  cbn [worker_loop]. rewrite Er. do 2 eexists. split; [reflexivity|]. done.
Qed.

(** A write that meets its deadline has used a nonce all the same: the next record does not open
    at the other end, whose mirror takes it for one of the session and passes it on. *)
Lemma deadline_desynchronises :
  let c0 := newHiddenConn key0 false false false in
  let '(c1, lost, n1, err1) := Conn_Write m0 true c0 (bs "a") [false] in
  let '(c2, sent, n2, err2) := Conn_Write m0 true c1 (bs "b") [true] in
  err1 = Some ErrDeadlineExceeded /\ lost = [] /\ err2 = None /\ n2 = 1 /\
  forall rec, sent = [rec] -> (handleInboundRecord m0 (newHiddenConn key0 true false false) (as_read rec)).2 = Pass.
Proof. vm_compute. split_and!; try reflexivity. intros rec [= <-]. reflexivity. Qed.
End Examples.
