(* ===== verification/Mekya.v ===== *)
(** * The packet carrier of mekya ([transport/mekya/bundle.go], [client.go], [server.go])

    mKCP packets in the bodies of HTTP requests and responses. A client polls, with the packets
    that wait; the server gives the packets of a request to its packet connection under the
    name of the session, and answers with packets that wait for the session. HTTP itself is
    the environment's: a request or a response may be lost, and may arrive late. *)
From stdpp Require Import relations gmultiset.
From S2P Require Import Prelude GoStd StreamLayer.
From Stdlib Require Import Init.Byte.

(** ** Bundles *)

Definition writePacketBundle (packet : bytes) : option bytes :=
  if 0xffff <? len packet then None else Some (be_enc 2 (w16 (len packet)) ++ packet).

Definition readPacketBundle (data : bytes) : option (bytes * bytes) :=
  match read_full data 2 with
  | (header, None, data) => match read_full data (Z.to_nat (be_dec header)) with (packet, None, data) => Some (packet, data) | _ => None end
  | _ => None
  end.

(** The loops that write and read a body. *)
Fixpoint bundle (batch : list bytes) : option bytes :=
  match batch with
  | [] => Some []
  | p :: batch => x ← writePacketBundle p; y ← bundle batch; Some (x ++ y)
  end.

Fixpoint unbundle (fuel : nat) (data : bytes) : list bytes :=
  match fuel with
  | O => []
  | S fuel => match readPacketBundle data with None => [] | Some (p, data) => p :: unbundle fuel data end
  end.
Definition packets (body : bytes) : list bytes := unbundle (S (length body)) body.

Lemma readPacketBundle_write p w r : writePacketBundle p = Some w -> readPacketBundle (w ++ r) = Some (p, r) /\ (2 <= length w)%nat.
Proof.
  unfold writePacketBundle. destruct (Z.ltb_spec 0xffff (len p)) as [|Hl]; [done|]. intros E. assert (w = be_enc 2 (w16 (len p)) ++ p) as -> by congruence. clear E.
  pose proof (len_nonneg p). assert (be_dec (be_enc 2 (w16 (len p))) = len p) as Ed by (rewrite be_dec_enc_small; [|apply w16_range]; apply w16_small; split; lia).
  split; [|rewrite length_app, length_be_enc; lia]. unfold readPacketBundle. rewrite <-app_assoc, read_full_app by apply length_be_enc. rewrite Ed, read_full_app; [done|]. unfold len. lia.
Qed.

(** What goes into a body comes out of it. *)
Lemma packets_bundle batch : forall body, bundle batch = Some body -> packets body = batch.
Proof.
  assert (forall fuel body, bundle batch = Some body -> (length body < fuel)%nat -> unbundle fuel body = batch) as H; [|intros body Hb; apply H; [done|lia]].
  induction batch as [|p batch IH]; intros fuel body; cbn [bundle].
  - intros [= <-] Hf. by destruct fuel.
  - destruct (writePacketBundle p) as [x|] eqn:Ex; [|done]. cbn [mbind option_bind]. destruct (bundle batch) as [y|]; [|done]. cbn [mbind option_bind]. intros [= <-] Hf.
    destruct fuel as [|fuel]; [lia|]. cbn [unbundle]. destruct (readPacketBundle_write p x y Ex) as [-> Hx]. f_equal. apply IH; [done|]. rewrite length_app in Hf. lia.
Qed.

(** ** The client *)

Definition maxBatchPackets : nat := 64.

Record meekClientConn := mkClient { writerCh : list bytes; readerCh : list bytes }.

Definition client_Write (c : meekClientConn) (p : bytes) : meekClientConn := mkClient (writerCh c ++ [p]) (readerCh c).

(** A turn of [pollLoop] up to the request: the packets that wait, [None] when one is too long
    for a bundle, and no request is made. *)
Definition poll (c : meekClientConn) : option bytes * meekClientConn :=
  (bundle (take maxBatchPackets (writerCh c)), mkClient (drop maxBatchPackets (writerCh c)) (readerCh c)).

(** The rest of [roundTrip], when the response has come and is 200. *)
Definition response (c : meekClientConn) (body : bytes) : meekClientConn := mkClient (writerCh c) (readerCh c ++ packets body).

Definition client_Read (c : meekClientConn) (n : nat) : option (bytes * meekClientConn) :=
  match readerCh c with [] => None | p :: ch => Some (take n p, mkClient (writerCh c) ch) end.

(** ** The server *)

Definition maxRespPackets : nat := 64.
Definition maxOut : nat := 256.
Definition sessionIdle : Z := 90.

Record serverSession := mkSess { s_addr : bytes; outCh : list bytes; s_last : Z }.

(** [sess] holds pointers: indices into [heap], which a handler may keep longer than the table. *)
Record meekServerPacketConn := mkServer { inbox : list (bytes * bytes); sess : gmap bytes nat; heap : list serverSession }.

Definition getSession (pc : meekServerPacketConn) (sid : bytes) (now : Z) : meekServerPacketConn * nat :=
  match sess pc !! sid with
  | Some i => (mkServer (inbox pc) (sess pc) (alter (fun s => mkSess (s_addr s) (outCh s) now) i (heap pc)), i)
  | None => (mkServer (inbox pc) (<[sid := length (heap pc)]> (sess pc)) (heap pc ++ [mkSess sid [] now]), length (heap pc))
  end.

(** [ServeHTTP] up to the answer: the session it goes on with, [None] for a bad request. *)
Definition ServeHTTP_in (pc : meekServerPacketConn) (sid body : bytes) (now : Z) : meekServerPacketConn * option nat :=
  if bool_decide (sid = []) then (pc, None)
  else
    let '(pc, i) := getSession pc sid now in
    let addr := default [] (s_addr <$> heap pc !! i) in
    (mkServer (inbox pc ++ ((fun p => (p, addr)) <$> packets body)) (sess pc) (heap pc), Some i).

(** Its answer, after it has waited: [k] of the packets that wait, 64 at most. *)
Definition ServeHTTP_out (pc : meekServerPacketConn) (i k : nat) : meekServerPacketConn * bytes :=
  match heap pc !! i with
  | None => (pc, [])
  | Some s =>
      let n := Nat.min k maxRespPackets in
      (mkServer (inbox pc) (sess pc) (<[i := mkSess (s_addr s) (drop n (outCh s)) (s_last s)]> (heap pc)),
       concat ((fun p => default [] (writePacketBundle p)) <$> take n (outCh s)))
  end.

Definition ReadFrom (pc : meekServerPacketConn) (n : nat) : option (bytes * bytes * meekServerPacketConn) :=
  match inbox pc with
  | [] => None
  | (data, addr) :: rest => Some (take n data, addr, mkServer rest (sess pc) (heap pc))
  end.

(** A packet for a session that is not known, or whose queue is full, is dropped. *)
Definition WriteTo (pc : meekServerPacketConn) (p addr : bytes) : meekServerPacketConn :=
  match sess pc !! addr with
  | None => pc
  | Some i =>
      match heap pc !! i with
      | None => pc
      | Some s =>
          if (length (outCh s) <? maxOut)%nat
          then mkServer (inbox pc) (sess pc) (<[i := mkSess (s_addr s) (outCh s ++ [p]) (s_last s)]> (heap pc))
          else pc
      end
  end.

Definition expired (pc : meekServerPacketConn) (now : Z) (i : nat) : bool := match heap pc !! i with Some s => s_last s <? now - sessionIdle | None => false end.
Definition reaper (pc : meekServerPacketConn) (now : Z) : meekServerPacketConn := mkServer (inbox pc) (filter (fun x => expired pc now x.2 = false) (sess pc)) (heap pc).

(** ** Clients, server and the HTTP between them *)

Record sys := mkSys {
  clients : gmap bytes meekClientConn; reqs : list (bytes * bytes); server : meekServerPacketConn; handlers : list (bytes * nat); resps : list (bytes * bytes);
  sent_up : list (bytes * bytes); got_up : list (bytes * bytes); sent_down : list (bytes * bytes); got_down : list (bytes * bytes) }.

Definition sys0 : sys := mkSys ∅ [] (mkServer [] ∅ []) [] [] [] [] [] [].

(** The ghosts list a session and a packet each. *)
Inductive sys_step : sys -> sys -> Prop :=
  | step_dial x sid : clients x !! sid = None -> sid <> [] ->
      sys_step x (mkSys (<[sid := mkClient [] []]> (clients x)) (reqs x) (server x) (handlers x) (resps x) (sent_up x) (got_up x) (sent_down x) (got_down x))
  | step_write x sid c p : clients x !! sid = Some c ->
      sys_step x (mkSys (<[sid := client_Write c p]> (clients x)) (reqs x) (server x) (handlers x) (resps x) (sent_up x ++ [(sid, p)]) (got_up x) (sent_down x) (got_down x))
  | step_poll x sid c body c' : clients x !! sid = Some c -> poll c = (body, c') ->
      sys_step x (mkSys (<[sid := c']> (clients x)) (reqs x ++ match body with Some b => [(sid, b)] | None => [] end) (server x) (handlers x) (resps x) (sent_up x) (got_up x) (sent_down x) (got_down x))
  | step_lose_request x l1 r l2 : reqs x = l1 ++ r :: l2 ->
      sys_step x (mkSys (clients x) (l1 ++ l2) (server x) (handlers x) (resps x) (sent_up x) (got_up x) (sent_down x) (got_down x))
  | step_serve x l1 sid b l2 now pc i : reqs x = l1 ++ (sid, b) :: l2 -> ServeHTTP_in (server x) sid b now = (pc, Some i) ->
      sys_step x (mkSys (clients x) (l1 ++ l2) pc (handlers x ++ [(sid, i)]) (resps x) (sent_up x) (got_up x) (sent_down x) (got_down x))
  | step_answer x h1 sid i h2 k pc b : handlers x = h1 ++ (sid, i) :: h2 -> ServeHTTP_out (server x) i k = (pc, b) ->
      sys_step x (mkSys (clients x) (reqs x) pc (h1 ++ h2) (resps x ++ [(sid, b)]) (sent_up x) (got_up x) (sent_down x) (got_down x))
  | step_lose_response x l1 r l2 : resps x = l1 ++ r :: l2 ->
      sys_step x (mkSys (clients x) (reqs x) (server x) (handlers x) (l1 ++ l2) (sent_up x) (got_up x) (sent_down x) (got_down x))
  | step_response x l1 sid b l2 c : resps x = l1 ++ (sid, b) :: l2 -> clients x !! sid = Some c ->
      sys_step x (mkSys (<[sid := response c b]> (clients x)) (reqs x) (server x) (handlers x) (l1 ++ l2) (sent_up x) (got_up x) (sent_down x) (got_down x))
  | step_read_from x n p d addr pc rest : inbox (server x) = (d, addr) :: rest -> ReadFrom (server x) n = Some (p, addr, pc) ->
      sys_step x (mkSys (clients x) (reqs x) pc (handlers x) (resps x) (sent_up x) (got_up x ++ [(addr, d)]) (sent_down x) (got_down x))
  | step_write_to x p addr :
      sys_step x (mkSys (clients x) (reqs x) (WriteTo (server x) p addr) (handlers x) (resps x) (sent_up x) (got_up x) (sent_down x ++ [(addr, p)]) (got_down x))
  | step_read x sid c n p d rest c' : clients x !! sid = Some c -> readerCh c = d :: rest -> client_Read c n = Some (p, c') ->
      sys_step x (mkSys (<[sid := c']> (clients x)) (reqs x) (server x) (handlers x) (resps x) (sent_up x) (got_up x) (sent_down x) (got_down x ++ [(sid, d)]))
  | step_reap x now :
      sys_step x (mkSys (clients x) (reqs x) (reaper (server x) now) (handlers x) (resps x) (sent_up x) (got_up x) (sent_down x) (got_down x)).

(** ** Every packet at most once, and to its own session *)

(** The packets a list has for a session. *)
Definition ms (s : bytes) (l : list (bytes * bytes)) : gmultiset bytes := list_to_set_disj (snd <$> filter (fun x => x.1 = s) l).
Definition tag (s : bytes) (l : list bytes) : list (bytes * bytes) := (fun p => (s, p)) <$> l.
Definition flat (l : list (bytes * bytes)) : list (bytes * bytes) := concat ((fun r => tag r.1 (packets r.2)) <$> l).
Definition flat_heap (h : list serverSession) : list (bytes * bytes) := concat ((fun s => tag (s_addr s) (outCh s)) <$> h).
Definition swap (x : bytes * bytes) : bytes * bytes := (x.2, x.1).

Lemma ms_app s l k : ms s (l ++ k) = ms s l ⊎ ms s k.
Proof. unfold ms. by rewrite filter_app, fmap_app, list_to_set_disj_app. Qed.
Lemma ms_nil s : ms s [] = ∅.
Proof. done. Qed.
Lemma ms_tag s l : ms s (tag s l) = list_to_set_disj l.
Proof. unfold ms, tag. induction l as [|p l IH]; [done|]. cbn [fmap list_fmap]. rewrite filter_cons_True by done. cbn [fmap list_fmap snd list_to_set_disj]. by rewrite IH. Qed.
Lemma ms_tag_ne s t l : t <> s -> ms s (tag t l) = ∅.
Proof. intros Hn. unfold ms, tag. induction l as [|p l IH]; [done|]. cbn [fmap list_fmap]. by rewrite filter_cons_False by (cbn; congruence). Qed.
Lemma ms_one s p : ms s [(s, p)] = {[+ p +]}.
Proof. change [(s, p)] with (tag s [p]). rewrite ms_tag. cbn [list_to_set_disj]. apply right_id, _. Qed.
Lemma ms_one_ne s t p : t <> s -> ms s [(t, p)] = ∅.
Proof. intros Hn. change [(t, p)] with (tag t [p]). by apply ms_tag_ne. Qed.
Lemma flat_app l k : flat (l ++ k) = flat l ++ flat k.
Proof. unfold flat. by rewrite fmap_app, concat_app. Qed.
Lemma flat_one s b : flat [(s, b)] = tag s (packets b).
Proof. unfold flat. cbn. by rewrite app_nil_r. Qed.
Lemma flat_cons r l : flat (r :: l) = flat [r] ++ flat l.
Proof. by apply (flat_app [r] l). Qed.
Lemma flat_heap_app l k : flat_heap (l ++ k) = flat_heap l ++ flat_heap k.
Proof. unfold flat_heap. by rewrite fmap_app, concat_app. Qed.

(** A session that is changed in place. *)
Lemma ms_heap_insert s h i x y : h !! i = Some x -> ms s (flat_heap (<[i := y]> h)) ⊎ ms s (tag (s_addr x) (outCh x)) = ms s (flat_heap h) ⊎ ms s (tag (s_addr y) (outCh y)).
Proof.
  intros Hi. pose proof (lookup_lt_Some _ _ _ Hi) as Hlt. rewrite insert_take_drop by done. rewrite <-(take_drop_middle h i x Hi) at 3.
  rewrite !flat_heap_app. change (flat_heap (y :: drop (S i) h)) with (tag (s_addr y) (outCh y) ++ flat_heap (drop (S i) h)). change (flat_heap (x :: drop (S i) h)) with (tag (s_addr x) (outCh x) ++ flat_heap (drop (S i) h)).
  rewrite !ms_app. multiset_solver.
Qed.

(** An answer has packets of those it took, without those too long for a bundle. *)
Lemma answer_packets l : exists batch, packets (concat ((fun p => default [] (writePacketBundle p)) <$> l)) = batch /\ (list_to_set_disj batch : gmultiset bytes) ⊆ list_to_set_disj l.
Proof.
  assert (exists batch, bundle batch = Some (concat ((fun p => default [] (writePacketBundle p)) <$> l)) /\ (list_to_set_disj batch : gmultiset bytes) ⊆ list_to_set_disj l) as (batch & Hb & Hs).
  { induction l as [|p l (batch & Hb & Hs)]; [by exists []|]. cbn [fmap list_fmap concat list_to_set_disj]. destruct (writePacketBundle p) as [w|] eqn:E.
    - exists (p :: batch). cbn [bundle list_to_set_disj]. rewrite E, Hb. split; [done|]. multiset_solver.
    - exists batch. split; [done|]. multiset_solver. }
  exists batch. split; [by apply packets_bundle|done].
Qed.

Definition writers (x : sys) (s : bytes) : list bytes := match clients x !! s with Some c => writerCh c | None => [] end.
Definition readers (x : sys) (s : bytes) : list bytes := match clients x !! s with Some c => readerCh c | None => [] end.

Record inv (x : sys) : Prop := {
  i_up : forall s, ms s (got_up x) ⊎ ms s (swap <$> inbox (server x)) ⊎ ms s (flat (reqs x)) ⊎ list_to_set_disj (writers x s) ⊆ ms s (sent_up x);
  i_down : forall s, ms s (got_down x) ⊎ list_to_set_disj (readers x s) ⊎ ms s (flat (resps x)) ⊎ ms s (flat_heap (heap (server x))) ⊆ ms s (sent_down x);
  i_sess : forall sid i, sess (server x) !! sid = Some i -> s_addr <$> heap (server x) !! i = Some sid;
  i_handlers : forall sid i, (sid, i) ∈ handlers x -> s_addr <$> heap (server x) !! i = Some sid }.

Lemma inv0 : inv sys0.
Proof. split; cbn; intros; [multiset_solver|multiset_solver|by rewrite lookup_empty in *|by apply not_elem_of_nil in H]. Qed.

Lemma inv_client x sid c c' : inv x -> clients x !! sid = Some c \/ (clients x !! sid = None /\ c = mkClient [] []) ->
  forall nr l up k down, 
    (forall s, ms s (flat nr) ⊎ (if decide (sid = s) then list_to_set_disj (writerCh c') else ∅) ⊆ ms s (flat (reqs x)) ⊎ ms s up ⊎ (if decide (sid = s) then list_to_set_disj (writerCh c) else ∅)) ->
    (forall s, ms s k ⊎ ms s (flat l) ⊎ (if decide (sid = s) then list_to_set_disj (readerCh c') else ∅) ⊆ ms s (flat (resps x)) ⊎ ms s down ⊎ (if decide (sid = s) then list_to_set_disj (readerCh c) else ∅)) ->
    inv (mkSys (<[sid := c']> (clients x)) nr (server x) (handlers x) l (sent_up x ++ up) (got_up x) (sent_down x ++ down) (got_down x ++ k)).
Proof.
  intros [U D S' H] Hc nr l up k down Hu Hd. assert (forall s, sid = s -> writers x s = writerCh c /\ readers x s = readerCh c) as Hq by (intros s <-; unfold writers, readers; destruct Hc as [->|[-> ->]]; done).
  split; cbn [server handlers]; [| |done|done]; intros s.
  - specialize (U s). specialize (Hu s). destruct (decide (sid = s)) as [E|Hne]; [destruct (Hq s E) as [Hw _]; rewrite Hw in U; subst|]; unfold writers in *; cbn [clients got_up sent_up reqs server] in *; rewrite ms_app;
      [rewrite lookup_insert_eq; multiset_solver|rewrite lookup_insert_ne by done; multiset_solver].
  - specialize (D s). specialize (Hd s). destruct (decide (sid = s)) as [E|Hne]; [destruct (Hq s E) as [_ Hr]; rewrite Hr in D; subst|]; unfold readers in *; cbn [clients got_down sent_down resps server] in *; rewrite !ms_app;
      [rewrite lookup_insert_eq; multiset_solver|rewrite lookup_insert_ne by done; multiset_solver].
Qed.

Lemma bundle_ms c body : bundle (take maxBatchPackets (writerCh c)) = Some body ->
  (list_to_set_disj (writerCh c) : gmultiset bytes) = list_to_set_disj (packets body) ⊎ list_to_set_disj (drop maxBatchPackets (writerCh c)).
Proof. intros E. rewrite (packets_bundle _ _ E), <-list_to_set_disj_app, take_drop. done. Qed.

Lemma drop_ms (l : list bytes) n : (list_to_set_disj (drop n l) : gmultiset bytes) ⊆ list_to_set_disj l.
Proof. pose proof (list_to_set_disj_app (take n l) (drop n l)) as E. rewrite take_drop in E. rewrite E. multiset_solver. Qed.

Lemma inv_poll x sid c body c' : inv x -> clients x !! sid = Some c -> poll c = (body, c') ->
  inv (mkSys (<[sid := c']> (clients x)) (reqs x ++ match body with Some b => [(sid, b)] | None => [] end) (server x) (handlers x) (resps x) (sent_up x) (got_up x) (sent_down x) (got_down x)).
Proof.
  intros Hi Hc [= Eb <-]. rewrite <-(app_nil_r (sent_up x)), <-(app_nil_r (sent_down x)), <-(app_nil_r (got_down x)). apply (inv_client x sid c); [done|by left| |]; intros s; cbn [writerCh readerCh]; [|rewrite !ms_nil; multiset_solver].
  rewrite flat_app, ms_app, ms_nil. destruct body as [b|].
  - rewrite flat_one. destruct (decide (sid = s)) as [->|Hne]; [rewrite ms_tag, (bundle_ms c b Eb); multiset_solver|rewrite ms_tag_ne by done; multiset_solver].
  - rewrite ms_nil. pose proof (drop_ms (writerCh c) maxBatchPackets). destruct (decide (sid = s)); multiset_solver.
Qed.

Lemma inv_response x l1 sid b l2 c : inv x -> resps x = l1 ++ (sid, b) :: l2 -> clients x !! sid = Some c ->
  inv (mkSys (<[sid := response c b]> (clients x)) (reqs x) (server x) (handlers x) (l1 ++ l2) (sent_up x) (got_up x) (sent_down x) (got_down x)).
Proof.
  intros Hi Er Hc. rewrite <-(app_nil_r (sent_up x)), <-(app_nil_r (sent_down x)), <-(app_nil_r (got_down x)). apply (inv_client x sid c); [done|by left| |]; intros s; cbn [response writerCh readerCh]; rewrite !ms_nil; [multiset_solver|].
  rewrite Er, !flat_app, !ms_app, flat_cons, ms_app, flat_one, list_to_set_disj_app. destruct (decide (sid = s)) as [->|Hne]; [rewrite ms_tag|rewrite ms_tag_ne by done]; multiset_solver.
Qed.

Lemma inv_read x sid c d rest : inv x -> clients x !! sid = Some c -> readerCh c = d :: rest ->
  inv (mkSys (<[sid := mkClient (writerCh c) rest]> (clients x)) (reqs x) (server x) (handlers x) (resps x) (sent_up x) (got_up x) (sent_down x) (got_down x ++ [(sid, d)])).
Proof.
  intros Hi Hc Er. rewrite <-(app_nil_r (sent_up x)), <-(app_nil_r (sent_down x)). apply (inv_client x sid c); [done|by left| |]; intros s; cbn [writerCh readerCh]; rewrite !ms_nil; [multiset_solver|].
  rewrite Er. cbn [list_to_set_disj]. destruct (decide (sid = s)) as [->|Hne]; [rewrite ms_one|rewrite ms_one_ne by done]; multiset_solver.
Qed.

Lemma inv_client_write x sid c p : inv x -> clients x !! sid = Some c ->
  inv (mkSys (<[sid := client_Write c p]> (clients x)) (reqs x) (server x) (handlers x) (resps x) (sent_up x ++ [(sid, p)]) (got_up x) (sent_down x) (got_down x)).
Proof.
  intros Hi Hc. rewrite <-(app_nil_r (sent_down x)), <-(app_nil_r (got_down x)). apply (inv_client x sid c); [done|by left| |]; intros s; cbn [client_Write writerCh readerCh]; [|rewrite !ms_nil; multiset_solver].
  rewrite list_to_set_disj_app. cbn [list_to_set_disj]. destruct (decide (sid = s)) as [->|Hne]; [rewrite ms_one|rewrite ms_one_ne by done]; multiset_solver.
Qed.

Lemma inv_dial x sid : inv x -> clients x !! sid = None ->
  inv (mkSys (<[sid := mkClient [] []]> (clients x)) (reqs x) (server x) (handlers x) (resps x) (sent_up x) (got_up x) (sent_down x) (got_down x)).
Proof.
  intros Hi Hc. rewrite <-(app_nil_r (sent_up x)), <-(app_nil_r (sent_down x)), <-(app_nil_r (got_down x)). apply (inv_client x sid (mkClient [] [])); [done|by right| |]; intros s; rewrite !ms_nil; multiset_solver.
Qed.

(** *** The server's side *)

Lemma swap_tag s l : swap <$> ((fun p => (p, s)) <$> l) = tag s l.
Proof. unfold tag. rewrite <-list_fmap_compose. done. Qed.

(** A session that is looked up is there, under its name, and nobody's packets move. *)
Lemma getSession_spec pc sid now pc' i : (forall t j, sess pc !! t = Some j -> s_addr <$> heap pc !! j = Some t) -> getSession pc sid now = (pc', i) ->
  inbox pc' = inbox pc /\ s_addr <$> heap pc' !! i = Some sid /\ (forall t j, sess pc' !! t = Some j -> s_addr <$> heap pc' !! j = Some t) /\
  (forall t j, s_addr <$> heap pc !! j = Some t -> s_addr <$> heap pc' !! j = Some t) /\ (forall s, ms s (flat_heap (heap pc')) = ms s (flat_heap (heap pc))).
Proof.
  intros Hs. unfold getSession. destruct (sess pc !! sid) as [j|] eqn:Ej; intros [= <- <-]; cbn [inbox heap sess].
  - specialize (Hs sid j Ej) as Hj. destruct (heap pc !! j) as [x|] eqn:Ex; [|done].
    assert (forall t k, s_addr <$> heap pc !! k = Some t -> s_addr <$> alter (fun s => mkSess (s_addr s) (outCh s) now) j (heap pc) !! k = Some t) as Hk.
    { intros t k Hk. destruct (decide (j = k)) as [<-|Hne]; [rewrite list_lookup_alter_eq, Ex; rewrite Ex in Hk; done|by rewrite list_lookup_alter_ne]. }
    split_and!; [done|by apply Hk; rewrite Ex|by eauto|done|]. intros s.
    assert (alter (fun s => mkSess (s_addr s) (outCh s) now) j (heap pc) = <[j := mkSess (s_addr x) (outCh x) now]> (heap pc)) as -> by (apply list_eq; intros k; destruct (decide (j = k)) as [<-|Hne];
      [rewrite list_lookup_alter_eq, Ex, list_lookup_insert_eq by (by eapply lookup_lt_Some); done|by rewrite list_lookup_alter_ne, list_lookup_insert_ne]).
    pose proof (ms_heap_insert s (heap pc) j x (mkSess (s_addr x) (outCh x) now) Ex) as E. cbn [s_addr outCh] in E. multiset_solver.
  - assert (forall t k, s_addr <$> heap pc !! k = Some t -> s_addr <$> (heap pc ++ [mkSess sid [] now]) !! k = Some t) as Hk.
    { intros t k Hk. destruct (heap pc !! k) as [x|] eqn:Ex; [|done]. rewrite lookup_app_l by (by eapply lookup_lt_Some). by rewrite Ex. }
    assert (s_addr <$> (heap pc ++ [mkSess sid [] now]) !! length (heap pc) = Some sid) as Hnew by (rewrite lookup_app_r, Nat.sub_diag by lia; done).
    split_and!; [done|done| |done|].
    + intros t j [[<- <-]|[Hne Hj]]%lookup_insert_Some; [done|eauto].
    + intros s. rewrite flat_heap_app, ms_app. change (flat_heap [mkSess sid [] now]) with (@nil (bytes * bytes)). rewrite ms_nil. multiset_solver.
Qed.

Lemma inv_serve x l1 sid b l2 now pc i : inv x -> reqs x = l1 ++ (sid, b) :: l2 -> ServeHTTP_in (server x) sid b now = (pc, Some i) ->
  inv (mkSys (clients x) (l1 ++ l2) pc (handlers x ++ [(sid, i)]) (resps x) (sent_up x) (got_up x) (sent_down x) (got_down x)).
Proof.
  intros [U D S' H] Er. unfold ServeHTTP_in. case_bool_decide; [done|]. destruct (getSession (server x) sid now) as [pc1 j] eqn:Eg. destruct (getSession_spec _ _ _ _ _ S' Eg) as (Hin & Hj & Hs1 & Hk & Hm).
  rewrite Hj. cbn [default from_option id]. intros [= <- <-]. split; cbn [clients server reqs resps sent_up sent_down got_up got_down handlers inbox heap sess].
  - intros s. specialize (U s). rewrite Er, flat_app, flat_cons, !ms_app, flat_one in U. rewrite fmap_app, swap_tag, Hin, flat_app, !ms_app. change (writers _ s) with (writers x s). multiset_solver.
  - intros s. specialize (D s). rewrite Hm. done.
  - done.
  - intros t k [Ht|[= -> ->]%list_elem_of_singleton]%elem_of_app; [by apply Hk, H|done].
Qed.

Lemma ms_answer s t out n : ms s (tag t (packets (concat ((fun p => default [] (writePacketBundle p)) <$> take n out)))) ⊎ ms s (tag t (drop n out)) ⊆ ms s (tag t out).
Proof.
  destruct (answer_packets (take n out)) as (batch & -> & Hb). destruct (decide (t = s)) as [->|Hne]; [rewrite !ms_tag|rewrite !ms_tag_ne by done; multiset_solver].
  pose proof (list_to_set_disj_app (take n out) (drop n out)) as E. rewrite take_drop in E. rewrite E. multiset_solver.
Qed.

Lemma inv_answer x h1 sid i h2 k pc b : inv x -> handlers x = h1 ++ (sid, i) :: h2 -> ServeHTTP_out (server x) i k = (pc, b) ->
  inv (mkSys (clients x) (reqs x) pc (h1 ++ h2) (resps x ++ [(sid, b)]) (sent_up x) (got_up x) (sent_down x) (got_down x)).
Proof.
  intros [U D S' H] Eh. assert (s_addr <$> heap (server x) !! i = Some sid) as Hi by (apply H; rewrite Eh; set_solver). unfold ServeHTTP_out. destruct (heap (server x) !! i) as [y|] eqn:Ey; [|done]. injection Hi as <-.
  intros E. assert (b = concat ((fun p => default [] (writePacketBundle p)) <$> take (Nat.min k maxRespPackets) (outCh y))) as -> by (by injection E). injection E as <-. set (n := Nat.min k maxRespPackets). set (y' := mkSess (s_addr y) (drop n (outCh y)) (s_last y)).
  assert (forall t j, s_addr <$> heap (server x) !! j = Some t -> s_addr <$> <[i := y']> (heap (server x)) !! j = Some t) as Hk.
  { intros t j Ht. destruct (decide (i = j)) as [<-|Hne]; [rewrite list_lookup_insert_eq by (by eapply lookup_lt_Some); rewrite Ey in Ht; done|by rewrite list_lookup_insert_ne]. }
  split; cbn [clients server reqs resps sent_up sent_down got_up got_down handlers inbox heap sess].
  - done.
  - intros s. specialize (D s). change (readers _ s) with (readers x s). pose proof (ms_heap_insert s (heap (server x)) i y y' Ey) as Em. cbn [y' s_addr outCh] in Em.
    pose proof (ms_answer s (s_addr y) (outCh y) n) as Ha. rewrite flat_app, ms_app, flat_one. multiset_solver.
  - intros t j Ht. by apply Hk, S'.
  - intros t j Ht. apply Hk, H. rewrite Eh. set_solver.
Qed.

Lemma inv_read_from x d addr rest : inv x -> inbox (server x) = (d, addr) :: rest ->
  inv (mkSys (clients x) (reqs x) (mkServer rest (sess (server x)) (heap (server x))) (handlers x) (resps x) (sent_up x) (got_up x ++ [(addr, d)]) (sent_down x) (got_down x)).
Proof.
  intros [U D S' H] Ei. split; cbn [clients server reqs resps sent_up sent_down got_up got_down handlers inbox heap sess]; [|done..]. intros s. specialize (U s). change (writers _ s) with (writers x s).
  rewrite Ei in U. cbn [fmap list_fmap] in U. change (swap (d, addr) :: (swap <$> rest)) with ([(addr, d)] ++ (swap <$> rest)) in U. rewrite ms_app in U. rewrite ms_app. multiset_solver.
Qed.

Lemma inv_write_to x p addr : inv x ->
  inv (mkSys (clients x) (reqs x) (WriteTo (server x) p addr) (handlers x) (resps x) (sent_up x) (got_up x) (sent_down x ++ [(addr, p)]) (got_down x)).
Proof.
  intros [U D S' H]. assert (forall s, ms s (got_down x) ⊎ list_to_set_disj (readers x s) ⊎ ms s (flat (resps x)) ⊎ ms s (flat_heap (heap (server x))) ⊆ ms s (sent_down x ++ [(addr, p)])) as D' by (intros s; rewrite ms_app; specialize (D s); multiset_solver).
  unfold WriteTo. destruct (sess (server x) !! addr) as [i|] eqn:Es; [|by split]. destruct (heap (server x) !! i) as [y|] eqn:Ey; [|by split]. destruct (_ <? _)%nat; [|by split].
  specialize (S' _ _ Es) as Ha. rewrite Ey in Ha. injection Ha as Ha. set (y' := mkSess (s_addr y) (outCh y ++ [p]) (s_last y)).
  assert (forall t j, s_addr <$> heap (server x) !! j = Some t -> s_addr <$> <[i := y']> (heap (server x)) !! j = Some t) as Hk.
  { intros t j Ht. destruct (decide (i = j)) as [<-|Hne]; [rewrite list_lookup_insert_eq by (by eapply lookup_lt_Some); rewrite Ey in Ht; done|by rewrite list_lookup_insert_ne]. }
  split; cbn [clients server reqs resps sent_up sent_down got_up got_down handlers inbox heap sess]; [done| |by eauto|by eauto].
  intros s. specialize (D s). change (readers _ s) with (readers x s). pose proof (ms_heap_insert s (heap (server x)) i y y' Ey) as Em. cbn [y' s_addr outCh] in Em. unfold tag in Em at 2. rewrite fmap_app in Em. fold (tag (s_addr y) (outCh y)) in Em.
  rewrite ms_app in Em. cbn [fmap list_fmap] in Em. rewrite Ha in Em. rewrite ms_app. multiset_solver.
Qed.

Lemma inv_step x y : sys_step x y -> inv x -> inv y.
Proof.
  intros [? sid Hc Hs|? sid c p Hc|? sid c body c' Hc Hp|? l1 r l2 Hr|? l1 sid b l2 now pc i Hr Hs|? h1 sid i h2 k pc b Hh Ho|? l1 r l2 Hr|? l1 sid b l2 c Hr Hc|? n p d addr pc rest Hi Hf|? p addr|? sid c n p d rest c' Hc Hd Hr|? now] H.
  - by apply inv_dial.
  - by apply inv_client_write.
  - by eapply inv_poll.
  - destruct H as [U D S' H]. split; cbn [clients server reqs resps sent_up sent_down got_up got_down handlers reaper inbox heap sess]; [|done..]. intros s. specialize (U s). rewrite Hr, flat_app, flat_cons, !ms_app in U. rewrite flat_app, ms_app. change (writers _ s) with (writers x0 s). multiset_solver.
  - by eapply inv_serve.
  - by eapply inv_answer.
  - destruct H as [U D S' H]. split; cbn [clients server reqs resps sent_up sent_down got_up got_down handlers reaper inbox heap sess]; [done| |done..]. intros s. specialize (D s). rewrite Hr, flat_app, flat_cons, !ms_app in D. rewrite flat_app, ms_app. change (readers _ s) with (readers x0 s). multiset_solver.
  - by eapply inv_response.
  - unfold ReadFrom in Hf. rewrite Hi in Hf. injection Hf as _ <-. by apply inv_read_from.
  - by apply inv_write_to.
  - unfold client_Read in Hr. rewrite Hd in Hr. injection Hr as _ <-. by apply inv_read with (c := c).
  - destruct H as [U D S' H]. split; cbn [clients server reqs resps sent_up sent_down got_up got_down handlers reaper inbox heap sess]; [done..| |done]. intros t j [Hj _]%map_lookup_filter_Some. by apply S'.
Qed.

(** Whatever is lost, late or answered by a session the table has dropped: what the server's
    packet connection hands out under the name of a session was written by the client of that
    session, what a client reads was written to its session, and no packet arrives more often
    than it was written. *)
Theorem mekya_attribution x : rtc sys_step sys0 x -> forall s, ms s (got_up x) ⊆ ms s (sent_up x) /\ ms s (got_down x) ⊆ ms s (sent_down x).
Proof.
  intros Hr. assert (inv x) as H by (revert Hr; generalize sys0 inv0; intros a Ha Hs; induction Hs as [|? ? ? Hst _ IH]; eauto using inv_step).
  intros s. pose proof (i_up _ H s). pose proof (i_down _ H s). split; multiset_solver.
Qed.

(** A packet too long for a bundle takes the packets polled with it along. *)
Lemma long_packet_drops_batch c p q : 0xffff < len p -> writerCh c = [q; p] -> poll c = (None, mkClient [] (readerCh c)).
Proof.
  intros Hp E. assert (writePacketBundle p = None) as E2 by (unfold writePacketBundle; destruct (Z.ltb_spec 0xffff (len p)); [done|lia]).
  unfold poll. rewrite E. change (take maxBatchPackets [q; p]) with [q; p]. cbn [bundle]. rewrite E2. by destruct (writePacketBundle q).
Qed.
