(* ===== verification/Synth.v ===== *)
(** * From configuration blocks to layers ([config/config.go], [core/spec/spec.go])

    An inbound or outbound names its protocol and has a block per layer; [synthStack] sorts
    the keys into layers and fields of the protocol, whose stack [Stack] then orders and
    builds. Decoded YAML is a tree whose mappings are lists, in the order in which Go's loops
    happen to visit them. *)
From S2P Require Import Prelude GoStd Stack AddrText.
From Stdlib Require Import Init.Byte.

(** ** Nodes *)

(** What YAML decodes to; a float is its shortest text. *)
Inductive yaml := YNull | YBool (b : bool) | YInt (z : Z) | YFloat (text : bytes) | YStr (s : bytes) | YSeq (l : list yaml) | YMap (m : list (bytes * yaml)).

Inductive node := NodeNull | NodeScalar (s : bytes) | NodeMap (m : list (bytes * node)) | NodeSeq (l : list node).

Definition FormatBool (b : bool) : bytes := bs (if b then "true" else "false").
Definition FormatInt (z : Z) : bytes := if z <? 0 then x2d :: Itoa (- z) else Itoa z.

Fixpoint valueToNode (v : yaml) : node :=
  match v with
  | YNull => NodeNull
  | YMap m => NodeMap (map (fun x => (x.1, valueToNode x.2)) m)
  | YSeq l => NodeSeq (map valueToNode l)
  | YStr s => NodeScalar s
  | YBool b => NodeScalar (FormatBool b)
  | YInt z => NodeScalar (FormatInt z)
  | YFloat t => NodeScalar t
  end.

(** [out[k] = v], and looking a key up. *)
Fixpoint set_key {A} (k : bytes) (v : A) (m : list (bytes * A)) : list (bytes * A) :=
  match m with
  | [] => [(k, v)]
  | (k', v') :: m => if bool_decide (k = k') then (k, v) :: m else (k', v') :: set_key k v m
  end.
Fixpoint get_key {A} (k : bytes) (m : list (bytes * A)) : option A :=
  match m with
  | [] => None
  | (k', v) :: m => if bool_decide (k = k') then Some v else get_key k m
  end.

Definition Node_Get (n : option node) (key : bytes) : option node := match n with Some (NodeMap m) => get_key key m | _ => None end.
Definition Node_Str (n : option node) : bytes := match n with Some (NodeScalar s) => s | _ => [] end.
Definition ParseBool (s : bytes) : bool := slices_Contains (bs <$> ["1"; "t"; "T"; "TRUE"; "true"; "True"]%string) s.
Definition Node_Bool (n : option node) : bool := match n with Some (NodeScalar s) => ParseBool s | _ => false end.

Definition isZeroYAML (v : yaml) : bool :=
  match v with
  | YNull => true
  | YStr s => bool_decide (s = [])
  | YBool b => negb b
  | YInt z => z =? 0
  | YFloat t => bool_decide (t = bs "0")
  | YSeq l => bool_decide (length l = 0%nat)
  | YMap m => bool_decide (length m = 0%nat)
  end.

Inductive synthErr := ErrNotProtocol (typ : bytes) | ErrReadFile (key : bytes) | ErrScalarLayer (key : bytes) | ErrUnknownBlock (key : bytes).

Section synth.
Context (ReadFile : bytes -> option bytes).

Definition suffix_file : bytes := bs "-file".

Fixpoint mapToNode_loop (m : list (bytes * yaml)) (skip : bytes) (out : list (bytes * node)) : res synthErr node :=
  match m with
  | [] => Ok (NodeMap out)
  | (k, v) :: m =>
      if bool_decide (k = skip) then mapToNode_loop m skip out
      else if HasSuffix k suffix_file then
        match ReadFile (match v with YStr p => p | _ => [] end) with
        | None => Err (ErrReadFile k)
        | Some b => mapToNode_loop m skip (set_key (TrimSuffix k suffix_file) (NodeScalar b) out)
        end
      else mapToNode_loop m skip (set_key k (valueToNode v) out)
  end.
Definition mapToNode (m : list (bytes * yaml)) (skip : bytes) : res synthErr node := mapToNode_loop m skip [].

(** [structToNode]: [m] is the structure through [yaml.Marshal] and back. *)
Definition structToNode (m : list (bytes * yaml)) (drop : list bytes) : res synthErr node :=
  mapToNode (filter (fun x => isZeroYAML x.2 = false) (filter (fun x => x.1 ∉ drop) m)) [].

(** [fileOrStr]. *)
Definition fileOrStr (m : list (bytes * yaml)) (key : bytes) : bytes :=
  match get_key key m with
  | Some (YStr (x :: s)) => x :: s
  | _ => match get_key (key ++ suffix_file) m with
         | Some (YStr (x :: p)) => default [] (ReadFile (x :: p))
         | _ => []
         end
  end.

(** ** The stack of an inbound or outbound *)

Context `{Plugins} (reg : gmap bytes AnyDescriptor) (to_node : node -> Node).

Definition isProxyProto (name : bytes) : bool := match Lookup reg name with Some d => Band d =? BandProxy | None => false end.

Definition isLayer (k : bytes) : bool := if Lookup reg k then true else false.
Definition layer (k : bytes) (n : node) : LayerSpec := mkLayer k (Some (to_node n)).

(** The loop over the keys: the layers, and the fields of the protocol. *)
Fixpoint sortKeys (extra : list (bytes * yaml)) : res synthErr (list LayerSpec * list (bytes * yaml)) :=
  match extra with
  | [] => Ok ([], [])
  | (k, v) :: extra =>
      match isLayer k, v with
      | true, YMap m =>
          match mapToNode m [] with
          | Err e => Err e
          | Ok n => '(specs, fields) ← sortKeys extra; Ok (layer k n :: specs, fields)
          end
      | true, _ => Err (ErrScalarLayer k)
      | false, YMap _ => Err (ErrUnknownBlock k)
      | false, _ => '(specs, fields) ← sortKeys extra; Ok (specs, (k, v) :: fields)
      end
  end.

Definition synthStack (typ : bytes) (extra tls : list (bytes * yaml)) : res synthErr (list LayerSpec) :=
  if negb (isProxyProto typ) then Err (ErrNotProtocol typ)
  else
    '(specs, fields) ← sortKeys extra;
    specs ← (match tls with [] => Ok specs | _ => n ← mapToNode tls []; Ok (specs ++ [layer (bs "tls") n]) end);
    n ← mapToNode fields [];
    Ok (specs ++ [layer typ n]).

Definition inbound_synthLayers (typ : bytes) (extra tls : list (bytes * yaml)) : res synthErr (list LayerSpec) := synthStack typ extra tls.

(** The named fields of an outbound go to its protocol unless the keys are there already. *)
Definition give (k v : bytes) (extra : list (bytes * yaml)) : list (bytes * yaml) :=
  if bool_decide (v = []) then extra else match get_key k extra with Some _ => extra | None => set_key k (YStr v) extra end.
Definition outbound_synthLayers (typ : bytes) (extra : list (bytes * yaml)) (uuid secret : bytes) : res synthErr (list LayerSpec) :=
  synthStack typ (give (bs "secret") secret (give (bs "uuid") uuid extra)) [].

Definition isPortal (extra : list (bytes * yaml)) : bool := match get_key (bs "mode") extra with Some (YStr m) => bool_decide (m = bs "portal") | _ => false end.
Definition DefaultControlDomain : bytes := bs "reverse.ntr".
Definition portalControl (cd : bytes) : bytes := if bool_decide (cd = []) then DefaultControlDomain else cd.

(** *** What is written is in the stack *)

Definition is_block (v : yaml) : bool := match v with YMap _ => true | _ => false end.
Definition layer_keys (extra : list (bytes * yaml)) : list bytes := (filter (fun x => isLayer x.1 = true) extra).*1.

Lemma sortKeys_ok extra : forall specs fields, sortKeys extra = Ok (specs, fields) ->
  Forall (fun x => isLayer x.1 = is_block x.2) extra /\ l_Name <$> specs = layer_keys extra /\ fields = filter (fun x => isLayer x.1 = false) extra.
Proof.
  induction extra as [|[k v] extra IH]; intros specs fields; cbn [sortKeys]; [by intros [= <- <-]|]. unfold layer_keys in *. destruct (isLayer k) eqn:Ek.
  - destruct v; try done. destruct (mapToNode m []) as [n|]; [|done]. destruct (sortKeys extra) as [[sp fs]|]; [|done]. intros [= <- <-]. destruct (IH _ _ eq_refl) as (H1 & H2 & H3).
    rewrite filter_cons_True, filter_cons_False by (cbn; congruence). cbn [fmap list_fmap l_Name layer fst]. split_and!; [by constructor|by rewrite <-H2|done].
  - destruct v; try done; (destruct (sortKeys extra) as [[sp fs]|]; [|done]; intros [= <- <-]; destruct (IH _ _ eq_refl) as (H1 & H2 & H3);
      rewrite filter_cons_False, filter_cons_True by (cbn; congruence); split_and!; [by constructor|done|by rewrite <-H3]).
Qed.

(** The stack of an accepted inbound has exactly the layers its blocks name, the [tls] block if
    it is not empty, and the protocol on top; a layer that is not written as a block, or a
    block that is not a layer, is an error and not a stack without it. *)
Lemma synthStack_layers typ extra tls ls : synthStack typ extra tls = Ok ls ->
  isProxyProto typ = true /\ Forall (fun x => isLayer x.1 = is_block x.2) extra /\
  l_Name <$> ls = layer_keys extra ++ (match tls with [] => [] | _ => [bs "tls"] end) ++ [typ].
Proof.
  unfold synthStack. destruct (isProxyProto typ); [|done]. cbn [negb]. destruct (sortKeys extra) as [[sp fs]|] eqn:E; [|done]. cbn [mbind res_bind]. destruct (sortKeys_ok _ _ _ E) as (H1 & H2 & _).
  destruct tls as [|t tls]; cbn [mbind res_bind].
  - destruct (mapToNode fs []) as [n|]; [|done]. cbn. intros [= <-]. split_and!; [done|done|]. by rewrite fmap_app, H2.
  - destruct (mapToNode (t :: tls) []) as [n1|]; [|done]. cbn [mbind res_bind]. destruct (mapToNode fs []) as [n|]; [|done]. cbn. intros [= <-]. split_and!; [done|done|]. rewrite !fmap_app, H2. by rewrite <-app_assoc.
Qed.

(** Nothing that can be decided by the keys alone is refused otherwise. *)
Lemma sortKeys_total extra : Forall (fun x => isLayer x.1 = is_block x.2) extra -> Forall (fun x => match x.2 with YMap m => is_ok (mapToNode m []) = true | _ => True end) extra ->
  exists specs fields, sortKeys extra = Ok (specs, fields).
Proof.
  induction 1 as [|[k v] extra Hk _ IH]; intros Hm; [by exists [], []|]. inversion Hm as [|? ? H1 H2]; subst. destruct (IH H2) as (sp & fs & E). cbn [sortKeys fst snd] in *. rewrite Hk, E.
  destruct v; cbn [is_block] in *; try (by do 2 eexists). destruct (mapToNode m []) as [n|]; [|done]. by do 2 eexists.
Qed.

(** An empty [tls] block of an inbound is no block: it runs without TLS. An outbound's, which
    is one of its other keys, is a layer. *)
Lemma empty_tls_inbound typ extra ls : bs "tls" <> typ -> get_key (bs "tls") extra = None -> inbound_synthLayers typ extra [] = Ok ls -> bs "tls" ∉ l_Name <$> ls.
Proof.
  intros Ht Hn (_ & _ & ->)%synthStack_layers. cbn [app]. intros [(x & Ex & Hx)%list_elem_of_fmap|Hx%list_elem_of_singleton]%elem_of_app; [|done].
  apply list_elem_of_filter in Hx as [_ Hx]. destruct x as [k v]. cbn in Ex. subst k. clear -Hn Hx. induction extra as [|[k' v'] extra IH]; [by apply not_elem_of_nil in Hx|]. cbn [get_key] in Hn. case_bool_decide; [done|].
  apply elem_of_cons in Hx as [[= <- <-]|Hx]; [done|by apply IH].
Qed.

Lemma empty_tls_outbound typ extra ls : isLayer (bs "tls") = true -> outbound_synthLayers typ ((bs "tls", YMap []) :: extra) [] [] = Ok ls -> bs "tls" ∈ l_Name <$> ls.
Proof.
  intros Hl (_ & _ & ->)%synthStack_layers. change (give (bs "secret") [] (give (bs "uuid") [] ((bs "tls", YMap []) :: extra))) with ((bs "tls", YMap []) :: extra). unfold layer_keys. rewrite filter_cons_True by done. cbn [fmap list_fmap app fst]. by left.
Qed.
End synth.

(** A certificate given both in line and as a file: which one is used depends on the order in
    which the loop happens to visit the keys. *)
Lemma inline_or_file : exists file, 
  mapToNode file [(bs "cert", YStr (bs "A")); (bs "cert-file", YStr (bs "p"))] [] = Ok (NodeMap [(bs "cert", NodeScalar (bs "B"))]) /\
  mapToNode file [(bs "cert-file", YStr (bs "p")); (bs "cert", YStr (bs "A"))] [] = Ok (NodeMap [(bs "cert", NodeScalar (bs "A"))]).
Proof. exists (fun _ => Some (bs "B")). split; vm_compute; reflexivity. Qed.
